(* ===== verification/_CoqProject ===== *)
-Q . S2P
Prelude.v
Upstream.v
Envelope.v
VenueErrors.v
Journal.v
ClOrdIdIndex.v
Microstructure.v
Snapshot.v
Executor.v
ExecutorInv.v
Fills.v
SampleBook.v
ExecutorProps.v
ExecutorRestore.v
Stores.v
StoresProps.v
Actor.v
ActorInv.v
ActorProps.v
Recovery.v
RecoveryProps.v
MicroProps.v
JournalProps.v
FixText.v
FixPrice.v
FixTime.v
FixWire.v
FixMessages.v
FixWriter.v
FixRoundTrip.v
FixStore.v
FixSession.v
FixSessionInv.v
FixSessionProps.v
Subscription.v
SubscriptionProps.v
WsSession.v
WsProps.v
Mailbox.v
RateLimit.v
Auth.v
AuthProps.v
AuthSample.v
Rng.v
Ingress.v
SimClock.v
Expiry.v
Venue.v
VenueProps.v
Boot.v
BootProps.v
VenueSample.v
OrderModels.v
Gateway.v
RestOrders.v
RestProps.v
RestReports.v
OrderFlow.v
FixGateway.v
FixGatewayProps.v
FixEffects.v
FixGatewaySample.v
F64.v
Quoter.v
MarketMaker.v
MarketMakerProps.v
ConfigModel.v
Seed.v
Config.v
ConfigProps.v
ConfigSample.v
Replay.v
ReplayProps.v
Simulator.v
SimulatorProps.v
RestViews.v
WsSocket.v
SurfaceProps.v
PgStores.v
PgFixStore.v
