(* ===== verification/Prelude.v ===== *)
(** * A verification development for fauxchange

    fauxchange is an options exchange simulator written in Rust: one deterministic
    matching core per underlying, fed by a REST, a WebSocket and a FIX gateway, with an
    append-only journal from which the whole venue can be rebuilt, a market maker that
    quotes from simulated prices, and a recorder whose bundles replay.  This library models
    those parts and proves what makes them correct.  Paths below are relative to [src/src/].

    ** How the program is put together

    A request enters at a gateway, is admitted (credential, permission, rate limit), becomes
    a [VenueCommand], may be held at ingress for its latency, and is queued to the
    single-writer actor of its underlying.  One turn of the actor appends the command to the
    journal (write-ahead), executes it on the matching executor, appends the resulting event,
    publishes the client-order-id correlation and fans the event out to the stores and to the
    market-data service; any failure to append or project seals the actor.  Recovery
    re-executes the journaled commands and compares each recomputed event with the stored
    one.  The simulator and the market maker are clients of the same path: their prices and
    orders are commands.

    ** Which file models what

    Foundations.
    - This file: the result monad, machine-width arithmetic ([has_ty], [checked_*],
      [saturating_*], [wrapping]), decimal rendering, insertion sort, ordered association
      lists, list and map lemmas, the tactics of the development.
    - [Upstream]: money ([exchange/money.rs]), symbols ([exchange/symbol.rs]), instruments
      ([exchange/instrument.rs]) and the boundary [exchange/boundary.rs] to the crates the
      venue is built on, the class [Upstream].
    - [F64]: the binary64 arithmetic of [f64].  [Rng]: [rng.rs], the draw of
      [microstructure/latency.rs].
    - [Envelope]: commands, outcomes, events, composite identifiers and their uniqueness
      ([exchange/envelope.rs], [identity.rs], [event.rs], [mm_identity.rs]).
    - [VenueErrors]: [error.rs], an error on each of the three surfaces.

    The core of one underlying.
    - [Journal], [JournalProps]: [exchange/journal.rs]; [ClOrdIdIndex]:
      [exchange/clordid_index.rs].
    - [Microstructure], [MicroProps]: specs, fees, self-trade prevention, latency models and
      order admission ([microstructure/]).
    - [Snapshot], [Executor], [ExecutorInv], [Fills], [ExecutorProps], [ExecutorRestore]: the
      matching executor, the instrument status, fill capture, captures and restore
      ([exchange/executor.rs], [instrument_status.rs], [snapshot.rs]).
    - [Stores], [StoresProps]: [exchange/stores.rs].
    - [Actor], [ActorInv], [ActorProps]: the turn, seal, capture and restore of
      [exchange/actor.rs]; [Mailbox]: its channel, its callers and its task.
    - [Recovery], [RecoveryProps]: [exchange/recovery.rs].

    The venue.
    - [Ingress]: [microstructure/ingress.rs] and the edge of [state.rs].  [SimClock], [Expiry]:
      [simulation/clock.rs], [simulation/expiry.rs].
    - [Venue], [VenueProps]: routing, fan-outs, clock advances and the expiry roll
      of [state.rs]; [Boot], [BootProps]: [AppState::new], from the journals to the actors.
    - [Subscription], [SubscriptionProps]: the market-data service, [subscription.rs].
    - [RateLimit], [Auth], [AuthProps]: [auth.rs].
    - [ConfigModel], [Config], [ConfigProps]: [config.rs]; [Seed]: [seed.rs].
    - [Quoter], [MarketMaker], [MarketMakerProps]: [market_maker/].
    - [Simulator], [SimulatorProps]: [simulation/walk.rs], [simulator.rs], [sink.rs],
      [session.rs], the seeding of opening prices.
    - [Replay], [ReplayProps]: [simulation/manifest.rs], [simulation/replay.rs], the export and
      snapshot routes.

    The gateways.
    - [OrderModels]: the order models of [models.rs].  [Gateway]: what a handler does to the
      venue, as a program.
    - [RestOrders], [RestProps], [RestReports]: [gateway/rest/orders.rs], [support.rs].
    - [RestViews]: [gateway/rest/controls.rs], [prices.rs], [account.rs], [market.rs],
      [meta.rs], [middleware.rs] and their models.
    - [WsSession], [WsProps]: one connection's subscriptions, and the system of actor,
      broadcast ring and client.  [WsSocket]: handshake, frames, control actions and the loop
      of a socket ([gateway/ws/]).  [SurfaceProps]: theorems on [RestViews] and [WsSocket].
    - [FixText], [FixPrice], [FixTime], [FixWire], [FixMessages], [FixWriter], [FixRoundTrip]:
      the values, codec and messages of [gateway/fix/].
    - [FixStore], [FixSession], [FixSessionInv], [FixSessionProps]: the session store and the
      session state machine of [gateway/fix/store.rs], [fsm.rs].
    - [OrderFlow], [FixGateway], [FixGatewayProps], [FixEffects]: [gateway/fix/order_flow.rs],
      [md_projection.rs] and the sessions of [fsm.rs] over the venue.

    The database.
    - [PgStores]: the executions log and the journals over their tables ([db/]).
    - [PgFixStore]: the durable session store, [gateway/fix/pg_store.rs].

    Concrete instances, at which the theorems are exercised: [SampleBook] (a price-time book, a
    serialiser, a clock), [VenueSample], [AuthSample], [ConfigSample], [FixGatewaySample], and
    the last section of each file of theorems.

    ** How code becomes definitions

    A method on [&mut self] is a function from the state to the new state and the result; on
    an error the state is what the code has written by then, so partial writes are visible to
    the theorems.  [Result] is [result E A], whose bind is [?].  An integer is a [Z] with its
    [int_ty]; every operation the code performs unchecked, checked, saturating or wrapping is
    written as such, with [usize] at 64 bits.  A float is its bit pattern, and its arithmetic
    is correctly rounded.  A [HashMap] is a [gmap]; where the code iterates one, the model
    iterates [map_to_list], and [ExecutorProps.iteration_order_irrelevant] shows that the order
    does not matter.  A mutex or lock is one critical section: the value itself.  Readings of
    wall clocks, random bytes and the answers of other tasks are arguments.

    Interfaces of the code are classes: [VenueClock], [VenueJournal], [CommandExecutor],
    [FanOut], [FixSessionStore], [RevocationOracle], [StepSink]; and what one component of the
    model asks of another is one too: [ActorService] (an actor behind its handle),
    [SharedProjection] (what the actors share), [SnapshotService], [ReadableStores],
    [MarketFeed].  A client's theorems are proved against the class and its laws
    ([VenueJournalLaws], [FixSessionStoreLaws], [MarketFeedLaws]); the in-memory
    implementation discharges them.  Code outside the repository is a class without
    definition, with the documented behaviour some theorems need as laws: [Upstream]
    ([OrderIdLaws], [FeeLaws], [SymbolLaws], [SymbolCalendar]), [Serde], [JournalJson]
    ([JournalJsonLaws]), [JsonLib], [FixLib] ([FixLibLaws]), [CredentialLib] ([CredentialLaws]: tokens and password hashing),
    [JournalDatabase], [MarkPriceCalculator], [PricingLib], [WalkLib] ([WalkLaws]),
    [ConfigLib] (TOML, paths, addresses), [Dependencies] (versions of crates).

    A table of the database is its rows, a statement is what its SQL text says of them, and
    which statements fail is an argument: a failed one changes nothing, unless the connection
    was lost on its way back.  A transaction is its statements and the commit.

    Concurrency.  [Mailbox], [SimClock] and the system of [WsProps] are step relations over all
    interleavings.  An order handler of REST or FIX is a program ([Gateway.Prog]) whose calls
    to the venue may be answered by anything another task made of it meanwhile: its theorems
    hold in every execution.  The turn of a socket takes whatever host it finds.  [Venue],
    [Boot], [MarketMaker] and [Simulator] run one call at a time; what other tasks do inside
    one of their calls is not part of them.

    Recursion is structural except where the code loops.  Decimal rendering has fuel 40, more
    digits than a 128-bit number has, and the six decimals of a float at most 400; the resend
    loop has fuel twice the retained frames plus two, which [FixSessionProps.resend_exact]
    proves sufficient; the price loop takes two passes, which
    [SimulatorProps.next_price_returns] proves.

    ** What is proved

    - Exactly once and recovery: an order is placed once per idempotency key; recovery
      reproduces the live executor and events, and decides agreement on any journal; a
      restarted process continues where the last one stopped; acknowledged sequences are
      contiguous; a turn is write-ahead and fail-stop; a restore is all or nothing and
      captures round-trip; the mailbox serialises its callers and drains.
    - Matching: the registry is sound, foreign orders are untouchable, quantity is conserved,
      legs are unique, cancels and sweeps touch nothing else.
    - Projections: the stores and the market-data service are the folds of the journaled
      events; the profit-and-loss identity and the bounds of the cost basis; published depth
      is resting depth; a client that follows the protocol rebuilds the book.
    - Venue: actors see admitted commands of their underlying only; fan-outs report exactly;
      held orders leave ingress in order; the expiry roll moves phases forward; the clock
      never goes back.
    - Credentials: an admitted identity is registered, unrevoked and permitted; a ticket
      admits once; a login needs the password; windows hold no more than their budget.
    - REST: order routes act for the authenticated account only and report what happened; the
      account's views are its own with exact totals; the hierarchy counts distinct contracts.
    - WebSocket: a socket submits market-maker controls only, and those agree with REST; open
      sockets are bounded; an idle or revoked socket is closed, and nothing follows a terminal
      error.
    - FIX: prices, timestamps and all messages round-trip; outbound numbering is consecutive
      and durable, inbound delivery in order and at most once, resend exact and terminating, a
      silent peer closed; a message makes at most the one command it asks for, a logon needs
      its password; execution reports are exact.
    - Market maker, prices, replay: every order of the maker is accounted for, quotes do not
      cross, a kill switch holds; published prices are the steps on their way to the journal
      and the maker follows the journal; synthesized chains are grids; an exported bundle
      replays to the venue's books and stores, and one that replays has passed its gates.
    - Durable stores: without failures each answers as its in-memory counterpart; whatever
      fails, the session store never holds half an operation, and the journal is append-only,
      keyed once, under the header it was opened with, and holds what it acknowledged.
    - Configuration: a loaded configuration is valid, layers take precedence, secrets are not
      rendered; seeding is idempotent.

    ** What the development found

    Each of these is computed or proved where it is named.  In the core:
    [ExecutorRestore.restore_reactivates_instruments], [ExecutorProps.replace_ignores_status].
    At the venue: [VenueSample.settling_with_resting_order], [WsProps.kill_switch_leaves_depth],
    [RestReports.restart_mints_id_again], [RestReports.bulk_rejection_counted_accepted],
    [SimClock.concurrent_steps_collapse], [AuthSample.ticket_guess_not_throttled],
    [SurfaceProps.unhosted_price_not_found].  In FIX:
    [FixSessionProps.reset_logon_replays_stale_frames],
    [FixSessionProps.sequence_reset_moves_backwards],
    [FixGatewaySample.fix_retry_on_new_session_phantom],
    [FixGatewaySample.fix_past_expiry_rests], [PgFixStore.clamped_begin_matches], and the exact ranges of
    [FixPrice.price_seam_roundtrip] and [FixTime.utc_timestamp_roundtrip].  In the simulation:
    [MarketMakerProps.quote_value_wraps], [ReplayProps.fingerprint_blind_to_small_sigma],
    [ReplayProps.snapshot_counts_commands], [SimulatorProps.override_outside_band],
    [SimulatorProps.published_and_refused], [SimulatorProps.restored_cursor_counts_overrides],
    [SimulatorProps.expiry_overflows].

    ** Not modelled

    Sockets, tasks and timers of the runtime: the acceptor ([gateway/fix/acceptor.rs]), the
    select of the socket loop (its events are arguments), the cadence drivers; the wiring of
    the process ([main.rs], [lib.rs]) and of the routers and their extractors
    ([gateway/rest/extract.rs], [openapi.rs]).  The connection pool and the migrations
    ([db/pool.rs]), and transactions that run at once.  Libraries, which are the classes above: order book, symbol
    grammar, JSON, token and password libraries, FIX framing, option pricing, price walks,
    TOML.  Test tooling ([conformance/]) and the patched documentation page
    (the directory [patches/] of the repository).  A chain or a list that no allocation can hold aborts the process,
    while the model goes on.
 *)

From stdpp Require Export base tactics list gmap strings sorting.
From Stdlib Require Export ZArith Lia.

#[export] Set Default Goal Selector "!".
Open Scope Z_scope.

(** ** Errors

    [Result<T, E>]: the error type comes first, so that [result E] is a monad
    and Rust's [?] is its bind. *)

Inductive result (E A : Type) : Type :=
  | Ok (val : A)
  | Err (err : E).
Arguments Ok {E A} val.
Arguments Err {E A} err.

#[export] Instance result_ret {E} : MRet (result E) := λ A x, Ok x.
#[export] Instance result_bind {E} : MBind (result E) := λ A B f r,
  match r with Ok x => f x | Err e => Err e end.
#[export] Instance result_fmap {E} : FMap (result E) := λ A B f r,
  match r with Ok x => Ok (f x) | Err e => Err e end.
#[export] Instance result_eq_dec `{EqDecision E, EqDecision A} :
  EqDecision (result E A).
Proof. solve_decision. Defined.

(** [Option::ok_or] and [Result::map_err]. *)
Definition ok_or {E A} (e : E) (o : option A) : result E A :=
  match o with Some x => Ok x | None => Err e end.

Definition map_err {E E' A} (f : E → E') (r : result E A) : result E' A :=
  match r with Ok x => Ok x | Err e => Err (f e) end.

Definition is_ok {E A} (r : result E A) : bool :=
  match r with Ok _ => true | Err _ => false end.

(** [guard_ok b e]: the early return [if !b { return Err(e) }]. *)
Definition guard_ok {E} (b : bool) (e : E) : result E unit :=
  if b then Ok tt else Err e.

Lemma bind_Ok {E A B} (r : result E A) (f : A → result E B) y :
  r ≫= f = Ok y ↔ ∃ x, r = Ok x ∧ f x = Ok y.
Proof. destruct r; cbn; naive_solver. Qed.

Lemma bind_Err {E A B} (r : result E A) (f : A → result E B) e :
  r ≫= f = Err e ↔ r = Err e ∨ ∃ x, r = Ok x ∧ f x = Err e.
Proof. destruct r; cbn; naive_solver. Qed.

Lemma ok_or_Ok {E A} (e : E) (o : option A) x : ok_or e o = Ok x ↔ o = Some x.
Proof. destruct o; cbn; naive_solver. Qed.

Lemma map_err_Ok {E E' A} (f : E → E') (r : result E A) x :
  map_err f r = Ok x ↔ r = Ok x.
Proof. destruct r; cbn; naive_solver. Qed.

Lemma guard_ok_Ok {E} (b : bool) (e : E) u : guard_ok b e = Ok u ↔ b = true.
Proof. destruct u, b; cbn; naive_solver. Qed.

(** ** Machine integers

    A value of a Rust integer type is a [Z]; the type is its pair of bounds.
    A checked operation narrows the mathematical result. *)

Record int_ty := IntTy { int_min : Z; int_max : Z }.

Definition u8 := IntTy 0 255.
Definition u32 := IntTy 0 (2 ^ 32 - 1).
Definition u64 := IntTy 0 (2 ^ 64 - 1).
Definition u128 := IntTy 0 (2 ^ 128 - 1).
Definition i32 := IntTy (- 2 ^ 31) (2 ^ 31 - 1).
Definition i64 := IntTy (- 2 ^ 63) (2 ^ 63 - 1).
Definition i128 := IntTy (- 2 ^ 127) (2 ^ 127 - 1).
(** The deployed targets are 64-bit. *)
Definition usize := u64.

Definition fits (t : int_ty) (z : Z) : bool := (int_min t <=? z) && (z <=? int_max t).
Definition has_ty (t : int_ty) (z : Z) : Prop := int_min t ≤ z ≤ int_max t.

(** [T::try_from]. *)
Definition narrow (t : int_ty) (z : Z) : option Z := if fits t z then Some z else None.

Definition checked_add (t : int_ty) (a b : Z) : option Z := narrow t (a + b).
Definition checked_sub (t : int_ty) (a b : Z) : option Z := narrow t (a - b).
Definition checked_mul (t : int_ty) (a b : Z) : option Z := narrow t (a * b).
Definition checked_neg (t : int_ty) (a : Z) : option Z := narrow t (- a).
(** Rust's signed division truncates toward zero. *)
Definition checked_div (t : int_ty) (a b : Z) : option Z :=
  if b =? 0 then None else narrow t (Z.quot a b).

Definition saturating_sub (t : int_ty) (a b : Z) : Z := Z.max (int_min t) (a - b).
Definition saturating_add (t : int_ty) (a b : Z) : Z := Z.min (int_max t) (a + b).
Definition saturating_mul (t : int_ty) (a b : Z) : Z := Z.min (int_max t) (a * b).
Definition wrapping (t : int_ty) (z : Z) : Z := z mod (int_max t + 1).

(** [<unsigned>::is_multiple_of]: only zero is a multiple of zero. *)
Definition is_multiple_of (a b : Z) : bool := if b =? 0 then a =? 0 else a mod b =? 0.

Lemma fits_spec t z : fits t z = true ↔ has_ty t z.
Proof. unfold fits, has_ty. rewrite andb_true_iff, !Z.leb_le. done. Qed.

Lemma fits_reflect t z : reflect (has_ty t z) (fits t z).
Proof. apply iff_reflect. symmetry. apply fits_spec. Qed.

Lemma narrow_Some t z r : narrow t z = Some r ↔ r = z ∧ has_ty t z.
Proof. unfold narrow. destruct (fits_reflect t z); naive_solver. Qed.

Lemma narrow_None t z : narrow t z = None ↔ ¬ has_ty t z.
Proof. unfold narrow. destruct (fits_reflect t z); naive_solver. Qed.

Lemma narrow_fits t z : has_ty t z → narrow t z = Some z.
Proof. intros. by apply narrow_Some. Qed.

(** Rewriting a checked operation to its [narrow], and a successful [narrow]
    to the bound it proves. *)
Ltac unfold_checked :=
  unfold checked_add, checked_sub, checked_mul, checked_neg in *.

Ltac simp_narrow :=
  unfold_checked;
  repeat match goal with
  | H : narrow _ _ = Some _ |- _ => apply narrow_Some in H as [-> ?]
  | H : Some _ = narrow _ _ |- _ => symmetry in H
  | H : narrow _ _ = None |- _ => apply narrow_None in H
  | H : ok_or _ _ = Ok _ |- _ => apply ok_or_Ok in H
  end.

(** Splits every successful bind of the context into its steps. *)
Ltac simp_result :=
  repeat match goal with
  | H : mbind _ _ = Ok _ |- _ => apply bind_Ok in H as (? & ? & ?)
  | H : map_err _ _ = Ok _ |- _ => apply map_err_Ok in H
  | H : ok_or _ _ = Ok _ |- _ => apply ok_or_Ok in H
  | H : guard_ok _ _ = Ok _ |- _ => apply guard_ok_Ok in H
  | H : Ok _ = Ok _ |- _ => injection H as H; subst
  | H : Err _ = Err _ |- _ => injection H as H; subst
  | H : Ok _ = Err _ |- _ => discriminate H
  | H : Err _ = Ok _ |- _ => discriminate H
  end.

Ltac unfold_int :=
  unfold has_ty, usize, u8, u32, u64, u128, i32, i64, i128 in *; cbn [int_min int_max] in *.

(** ** Stable sorting by a key

    [slice::sort_by_key] and [sort_by] are stable; the model is a stable
    insertion sort over a total order of keys. *)

Class TotalLeb {K} (leb : K → K → bool) : Prop := {
  leb_total a b : leb a b = true ∨ leb b a = true;
  leb_trans a b c : leb a b = true → leb b c = true → leb a c = true;
  leb_antisym a b : leb a b = true → leb b a = true → a = b;
}.

#[export] Instance Z_total_leb : TotalLeb Z.leb.
Proof. split; intros *; rewrite ?Z.leb_le; lia. Qed.

#[export] Instance string_total_leb : TotalLeb String.leb.
Proof.
  split.
  - apply String.leb_total.
  - intros a b c Hab Hbc. apply Is_true_true.
    apply (transitivity (R := String.le) (y := b)); by apply Is_true_true.
  - intros a b. apply String.leb_antisym.
Qed.

(** The derived order of a tuple struct: the first field decides unless equal. *)
Definition pair_leb {K1 K2} (l1 : K1 → K1 → bool) (l2 : K2 → K2 → bool)
    (a b : K1 * K2) : bool :=
  if l1 a.1 b.1 then if l1 b.1 a.1 then l2 a.2 b.2 else true else false.

#[export] Instance pair_total_leb {K1 K2} (l1 : K1 → K1 → bool) (l2 : K2 → K2 → bool)
  `{!TotalLeb l1, !TotalLeb l2} : TotalLeb (pair_leb l1 l2).
Proof.
  split; unfold pair_leb.
  - intros [a1 a2] [b1 b2]; cbn.
    destruct (l1 a1 b1) eqn:Hab, (l1 b1 a1) eqn:Hba; auto.
    + apply leb_total.
    + destruct (leb_total a1 b1); congruence.
  - intros [a1 a2] [b1 b2] [c1 c2]; cbn. intros H1 H2.
    destruct (l1 a1 b1) eqn:Hab; [|done]. destruct (l1 b1 c1) eqn:Hbc; [|done].
    rewrite (leb_trans a1 b1 c1) by done.
    destruct (l1 c1 a1) eqn:Hca; [|done].
    rewrite (leb_trans b1 c1 a1) in H1 by done.
    rewrite (leb_trans c1 a1 b1) in H2 by done. by eapply leb_trans.
  - intros [a1 a2] [b1 b2]; cbn. intros H1 H2.
    destruct (l1 a1 b1) eqn:Hab, (l1 b1 a1) eqn:Hba; try done.
    f_equal; by apply leb_antisym.
Qed.

Lemma filter_keep {A} (P : A → Prop) `{∀ x, Decision (P x)} l : Forall P l → filter P l = l.
Proof. induction 1; [done|]. rewrite filter_cons_True by done. by f_equal. Qed.

Lemma filter_drop {A} (P : A → Prop) `{∀ x, Decision (P x)} l :
  Forall (λ x, ¬ P x) l → filter P l = [].
Proof. induction 1; [done|]. by rewrite filter_cons_False. Qed.

Lemma StronglySorted_sublist {A} (R : A → A → Prop) l1 l2 :
  l1 `sublist_of` l2 → StronglySorted R l2 → StronglySorted R l1.
Proof.
  induction 1 as [|x l1 l2 Hl IH|x l1 l2 Hl IH]; intros Hs; [done| |].
  - apply StronglySorted_inv in Hs as [Hs Hx]. constructor; [auto|].
    rewrite Forall_forall in Hx |- *. intros y Hy. apply Hx. by eapply elem_of_sublist.
  - apply StronglySorted_inv in Hs as [Hs _]. auto.
Qed.

Section sort_by_key.
Context {A K : Type} (leb : K → K → bool) (key : A → K).

Fixpoint insert_by_key (x : A) (l : list A) : list A :=
  match l with
  | [] => [x]
  | y :: l' => if leb (key x) (key y) then x :: l else y :: insert_by_key x l'
  end.

Definition sort_by_key (l : list A) : list A := foldr insert_by_key [] l.

Definition key_sorted : list A → Prop := StronglySorted (λ x y, leb (key x) (key y) = true).

Lemma insert_by_key_perm x l : insert_by_key x l ≡ₚ x :: l.
Proof.
  induction l as [|y l IH]; cbn; [done|]. case_match; [done|].
  rewrite IH. constructor.
Qed.

Lemma sort_by_key_perm l : sort_by_key l ≡ₚ l.
Proof. induction l; cbn; [done|]. rewrite insert_by_key_perm. by f_equiv. Qed.

Lemma elem_of_sort_by_key x l : x ∈ sort_by_key l ↔ x ∈ l.
Proof. by rewrite sort_by_key_perm. Qed.

Lemma sort_by_key_id l : key_sorted l → sort_by_key l = l.
Proof.
  unfold sort_by_key. induction 1 as [|x l Hl IH Hx]; cbn; [done|]. rewrite IH.
  destruct Hx as [|y l Hy]; cbn; [done|]. by rewrite Hy.
Qed.

Context `{!TotalLeb leb}.

Lemma insert_by_key_sorted x l : key_sorted l → key_sorted (insert_by_key x l).
Proof.
  induction 1 as [|y l Hl IH Hy]; cbn; [by repeat constructor|].
  destruct (leb (key x) (key y)) eqn:E.
  - constructor; [by constructor|]. constructor; [done|].
    eapply Forall_impl; [done|]. intros z Hz. by eapply leb_trans.
  - constructor; [done|]. rewrite insert_by_key_perm.
    constructor; [|done]. by destruct (leb_total (key x) (key y)); congruence.
Qed.

Lemma sort_by_key_sorted l : key_sorted (sort_by_key l).
Proof. induction l; cbn; [constructor|]. by apply insert_by_key_sorted. Qed.

(** Sorting forgets the order its input came in when keys are unique: the
    result does not depend on a hash map's iteration order. *)
Lemma sort_by_key_unique l1 l2 :
  (∀ x y, x ∈ l1 → y ∈ l1 → key x = key y → x = y) →
  l1 ≡ₚ l2 → sort_by_key l1 = sort_by_key l2.
Proof.
  intros Hinj Hp.
  apply (StronglySorted_unique_strong (λ x y, leb (key x) (key y) = true)).
  - intros x y Hx Hy H1 H2. rewrite elem_of_sort_by_key in Hx, Hy.
    rewrite <-Hp in Hy. apply Hinj; [done..|]. by apply leb_antisym.
  - apply sort_by_key_sorted.
  - apply sort_by_key_sorted.
  - by rewrite !sort_by_key_perm.
Qed.
End sort_by_key.

(** ** Finite sums *)

Definition sum_Z (l : list Z) : Z := foldr Z.add 0 l.

Lemma sum_Z_app l1 l2 : sum_Z (l1 ++ l2) = sum_Z l1 + sum_Z l2.
Proof. unfold sum_Z. induction l1; cbn; lia. Qed.

Lemma sum_Z_cons x l : sum_Z (x :: l) = x + sum_Z l.
Proof. done. Qed.

#[export] Instance sum_Z_perm : Proper ((≡ₚ) ==> eq) sum_Z.
Proof. induction 1; unfold sum_Z in *; cbn; lia. Qed.

(** ** Maps *)

Lemma map_filter_size_insert `{Countable K} {A} (P : K * A → Prop)
    `{∀ x, Decision (P x)} (m : gmap K A) k v :
  m !! k = None →
  (size (filter P (<[k:=v]> m)) = (if decide (P (k, v)) then 1 else 0) + size (filter P m))%nat.
Proof.
  intros Hk. case_decide.
  - rewrite map_filter_insert_True by done.
    rewrite map_size_insert_None; [done|]. apply map_lookup_filter_None; by left.
  - rewrite map_filter_insert_False by done. by rewrite delete_id.
Qed.

Lemma map_filter_size_delete `{Countable K} {A} (P : K * A → Prop)
    `{∀ x, Decision (P x)} (m : gmap K A) k v :
  m !! k = Some v →
  (size (filter P m) = (if decide (P (k, v)) then 1 else 0) + size (filter P (delete k m)))%nat.
Proof.
  intros Hk. rewrite <-(insert_id m k v) at 1 by done. rewrite <-insert_delete_eq.
  apply map_filter_size_insert, lookup_delete_eq.
Qed.

(** The total of a measure over the values of a map. *)
Definition map_sum `{Countable K} {A} (f : A → Z) (m : gmap K A) : Z :=
  sum_Z ((λ kv, f kv.2) <$> map_to_list m).

Lemma map_sum_empty `{Countable K} {A} (f : A → Z) : map_sum f (∅ : gmap K A) = 0.
Proof. unfold map_sum. by rewrite map_to_list_empty. Qed.

Lemma map_sum_insert `{Countable K} {A} (f : A → Z) (m : gmap K A) k v :
  m !! k = None → map_sum f (<[k:=v]> m) = f v + map_sum f m.
Proof. intros Hk. unfold map_sum. by rewrite map_to_list_insert. Qed.

Lemma map_sum_delete `{Countable K} {A} (f : A → Z) (m : gmap K A) k v :
  m !! k = Some v → map_sum f m = f v + map_sum f (delete k m).
Proof.
  intros Hk. rewrite <-(insert_id m k v) at 1 by done. rewrite <-insert_delete_eq.
  apply map_sum_insert, lookup_delete_eq.
Qed.

Lemma map_sum_nonneg `{Countable K} {A} (f : A → Z) (m : gmap K A) :
  (∀ k v, m !! k = Some v → 0 ≤ f v) → 0 ≤ map_sum f m.
Proof.
  unfold map_sum. intros Hf. assert (Forall (λ kv, 0 ≤ f kv.2) (map_to_list m)) as HF.
  { apply Forall_forall. intros [k v] Hkv%elem_of_map_to_list. by eapply Hf. }
  induction HF; unfold sum_Z in *; cbn; lia.
Qed.

Lemma map_sum_mono `{Countable K} {A} (f : A → Z) (m' m : gmap K A) :
  (∀ k v, m !! k = Some v → 0 ≤ f v) →
  (∀ k v', m' !! k = Some v' → ∃ v, m !! k = Some v ∧ f v' ≤ f v) →
  map_sum f m' ≤ map_sum f m.
Proof.
  revert m. induction m' as [|k v' m' Hk IH] using map_ind; intros m Hpos Hle.
  { rewrite map_sum_empty. by apply map_sum_nonneg. }
  destruct (Hle k v') as (v & Hv & Hvv); [apply lookup_insert_eq|].
  rewrite map_sum_insert, (map_sum_delete _ m _ _ Hv) by done.
  assert (map_sum f m' ≤ map_sum f (delete k m)); [|lia]. apply IH.
  - intros k2 v2 [_ H2]%lookup_delete_Some. by eapply Hpos.
  - intros k2 v2 H2. assert (k2 ≠ k) by congruence.
    destruct (Hle k2 v2) as (v3 & ? & ?); [by rewrite lookup_insert_ne|].
    exists v3. by rewrite lookup_delete_ne.
Qed.

(** Inserting a list of bindings one by one, distinct keys. *)
Lemma foldl_insert_list_to_map `{Countable K} {A} (l : list (K * A)) (m : gmap K A) :
  NoDup l.*1 → foldl (λ m r, <[r.1 := r.2]> m) m l = list_to_map l ∪ m.
Proof.
  revert m. induction l as [|[k e] l IH]; intros m; cbn; [by rewrite (left_id_L ∅ (∪))|].
  intros [Hk Hl]%NoDup_cons. rewrite IH by done. rewrite <-insert_union_l.
  by rewrite insert_union_r by by apply not_elem_of_list_to_map_1.
Qed.

(** A map rebuilt from a permutation of its bindings. *)
Lemma foldl_insert_perm `{Countable K} {A} (l : list (K * A)) (m : gmap K A) :
  l ≡ₚ map_to_list m → foldl (λ m r, <[r.1 := r.2]> m) ∅ l = m.
Proof.
  intros Hl. assert (NoDup l.*1) as Hnd by (rewrite Hl; apply NoDup_fst_map_to_list).
  rewrite foldl_insert_list_to_map by done. rewrite (right_id_L ∅ (∪)).
  rewrite <-(list_to_map_to_list m). by apply list_to_map_proper.
Qed.

(** ** Strings *)

(** [format!] pieces are byte strings; [len] is their length in bytes. *)
Definition str_len (s : string) : Z := Z.of_nat (String.length s).
Notation "a +:+ b" := (String.append a b) (at level 60, right associativity) : stdpp_scope.

(** Decimal rendering of an unsigned integer ([{}] of a u64 or u32). *)
Fixpoint dec_go (fuel : nat) (n : Z) (acc : string) : string :=
  match fuel with
  | O => acc
  | S fuel =>
      let acc := String (Ascii.ascii_of_N (Z.to_N (48 + n mod 10))) acc in
      if n <? 10 then acc else dec_go fuel (n / 10) acc
  end.
Definition dec (n : Z) : string := dec_go 40 n EmptyString.

(** ** Ordered maps

    [BTreeMap]: an association list in strictly increasing key order, so that
    iteration order is the list's. *)

Section btree.
Context {K V : Type} `{EqDecision K} (leb : K → K → bool).

Fixpoint bt_get (k : K) (m : list (K * V)) : option V :=
  match m with
  | [] => None
  | (k', v) :: m => if decide (k = k') then Some v else bt_get k m
  end.

Fixpoint bt_insert (k : K) (v : V) (m : list (K * V)) : list (K * V) :=
  match m with
  | [] => [(k, v)]
  | (k', v') :: m' =>
      if decide (k = k') then (k, v) :: m'
      else if leb k k' then (k, v) :: m else (k', v') :: bt_insert k v m'
  end.

Definition bt_wf (m : list (K * V)) : Prop :=
  StronglySorted (λ a b, leb a.1 b.1 = true ∧ a.1 ≠ b.1) m.

Lemma bt_get_insert_eq k v m : bt_get k (bt_insert k v m) = Some v.
Proof.
  induction m as [|[k' v'] m IH]; cbn; [by rewrite decide_True|].
  destruct (decide (k = k')); cbn; [by rewrite decide_True|].
  destruct (leb k k'); cbn; [by rewrite decide_True|]. by rewrite decide_False.
Qed.

Lemma bt_get_insert_ne k k' v m : k' ≠ k → bt_get k' (bt_insert k v m) = bt_get k' m.
Proof.
  intros Hk. induction m as [|[k2 v2] m IH]; cbn; [by rewrite decide_False|].
  destruct (decide (k = k2)) as [<-|]; cbn; [by rewrite !decide_False|].
  destruct (leb k k2); cbn; [by rewrite decide_False|]. by rewrite IH.
Qed.

Lemma bt_get_elem k v m : bt_get k m = Some v → (k, v) ∈ m.
Proof.
  induction m as [|[k2 v2] m IH]; cbn; [done|].
  case_decide; [|by intros ?%IH; right]. intros [= ->]. subst. by left.
Qed.

Lemma bt_insert_elem k v m x : x ∈ bt_insert k v m → x = (k, v) ∨ x ∈ m.
Proof.
  induction m as [|[k2 v2] m IH]; cbn; [rewrite list_elem_of_singleton; by left|].
  repeat case_match; rewrite ?elem_of_cons; naive_solver.
Qed.

Lemma bt_elem_get k v m : bt_wf m → (k, v) ∈ m → bt_get k m = Some v.
Proof.
  induction 1 as [|[k2 v2] m Hm IH Hx]; cbn; [by intros ?%not_elem_of_nil|].
  intros [[= -> ->]|Hin]%elem_of_cons; [by rewrite decide_True|].
  rewrite Forall_forall in Hx. destruct (Hx _ Hin) as [_ Hne]; cbn in Hne.
  rewrite decide_False by done. auto.
Qed.

Context `{!TotalLeb leb}.

Lemma bt_insert_wf k v m : bt_wf m → bt_wf (bt_insert k v m).
Proof.
  induction 1 as [|[k2 v2] m Hm IH Hx]; cbn; [by repeat constructor|].
  destruct (decide (k = k2)) as [<-|Hne]; [by constructor|].
  destruct (leb k k2) eqn:E.
  - constructor; [by constructor|]. constructor; [done|].
    eapply Forall_impl; [done|]. intros [k3 v3] [H1 H2]; cbn in *.
    split; [by eapply leb_trans|]. intros ->. apply Hne. by apply leb_antisym.
  - constructor; [done|]. apply Forall_forall. intros x [->|Hin]%bt_insert_elem; cbn.
    + split; [|done]. destruct (leb_total k k2); congruence.
    + rewrite Forall_forall in Hx. by apply (Hx x Hin).
Qed.
End btree.
