(* ===== verification/Upstream.v ===== *)
(** Money, symbols and the upstream boundary.

    The money newtypes ([src/src/exchange/money.rs]): absolute cents (u64), signed cents
    (i64) and notional (u128), with the checked arithmetic every boundary uses; a newtype is
    its payload, its width the [int_ty] its operations narrow to.

    The matching engine, the option-chain hierarchy, the symbol grammar, the instrument
    lifecycle and the fee schedule ([boundary.rs]) live in [option-chain-orderbook] and
    [orderbook-rs], which are not part of this repository.  They are a parameter: the class
    [Upstream] lists the operations the venue calls, over an abstract book state, and
    [OrderIdLaws] the documented behaviour some theorems rely on.  The small enumerations are
    the variants the venue names.

    The venue symbol ([symbol.rs]): parsing through the upstream grammar, and the refusal of
    expiries that would alias a symbol.  A [Symbol] is its canonical string. *)

From S2P Require Export Prelude.

Notation Cents := Z (only parsing).
Notation SignedCents := Z (only parsing).
Notation Notional := Z (only parsing).

Inductive MoneyError :=
  | Overflow
  | NegativeCents (value : Z).
#[export] Instance MoneyError_eq_dec : EqDecision MoneyError.
Proof. solve_decision. Defined.

Module CentsOps.
Definition try_new (value : Z) : result MoneyError Cents :=
  if value <? 0 then Err (NegativeCents value) else Ok value.
Definition checked_add (a b : Cents) : result MoneyError Cents :=
  ok_or Overflow (Prelude.checked_add u64 a b).
Definition checked_sub (a b : Cents) : result MoneyError Cents :=
  ok_or Overflow (Prelude.checked_sub u64 a b).
Definition checked_mul (a factor : Cents) : result MoneyError Cents :=
  ok_or Overflow (Prelude.checked_mul u64 a factor).
End CentsOps.

Module SignedCentsOps.
Definition checked_add (a b : SignedCents) : result MoneyError SignedCents :=
  ok_or Overflow (Prelude.checked_add i64 a b).
Definition checked_sub (a b : SignedCents) : result MoneyError SignedCents :=
  ok_or Overflow (Prelude.checked_sub i64 a b).
End SignedCentsOps.

Module NotionalOps.
Definition from_price_quantity (price : Cents) (quantity : Z) : result MoneyError Notional :=
  ok_or Overflow (Prelude.checked_mul u128 price quantity).
Definition checked_add (a b : Notional) : result MoneyError Notional :=
  ok_or Overflow (Prelude.checked_add u128 a b).
Definition checked_mul (a factor : Notional) : result MoneyError Notional :=
  ok_or Overflow (Prelude.checked_mul u128 a factor).
End NotionalOps.

Lemma u64_mul_fits_u128 a b : has_ty u64 a → has_ty u64 b → has_ty u128 (a * b).
Proof. unfold_int. nia. Qed.

(** A price times a quantity never overflows its notional. *)
Lemma from_price_quantity_total price quantity :
  has_ty u64 price → has_ty u64 quantity →
  NotionalOps.from_price_quantity price quantity = Ok (price * quantity).
Proof.
  intros Hp Hq. unfold NotionalOps.from_price_quantity, checked_mul.
  by rewrite narrow_fits by (by apply u64_mul_fits_u128).
Qed.

(** A successful sum is the exact sum, in range; a failed one would not fit. *)
Lemma CentsOps_checked_add_spec a b r :
  CentsOps.checked_add a b = Ok r ↔ r = a + b ∧ has_ty u64 (a + b).
Proof. unfold CentsOps.checked_add, checked_add. by rewrite ok_or_Ok, narrow_Some. Qed.

Notation AccountId := string (only parsing).
Notation ClientOrderId := string (only parsing).
Notation VenueOrderId := string (only parsing).
Notation ExecutionId := string (only parsing).
Notation Symbol := string (only parsing).
Notation LineageId := string (only parsing).
Notation EventTimestamp := Z (only parsing).
Notation SequenceNumber := Z (only parsing).
(** An owner hash, by its 32 big-endian bytes read as a number. *)
Notation Hash32 := Z (only parsing).

Inductive Side := Buy | Sell.
Inductive OptionStyle := Call | Put.
Inductive TimeInForce := Gtc | Ioc | Fok | Gtd (at_ms : Z) | Day.
Inductive STPMode := StpNone | StpCancelTaker | StpCancelMaker | StpCancelBoth.
Inductive InstrumentStatus := Pending | Active | Halted | Settling | Expired.
Inductive OrderType := Limit | Market.
Inductive LiquidityFlag := Maker | Taker.

(** [DateTime] is its instant in milliseconds; the payload of a relative [Days]
    expiry is never inspected by the venue code modelled here. *)
Inductive ExpirationDate := Days (days : Z) | DateTime (instant_ms : Z).

#[export] Instance Side_eq_dec : EqDecision Side. Proof. solve_decision. Defined.
#[export] Instance OptionStyle_eq_dec : EqDecision OptionStyle. Proof. solve_decision. Defined.
#[export] Instance TimeInForce_eq_dec : EqDecision TimeInForce. Proof. solve_decision. Defined.
#[export] Instance STPMode_eq_dec : EqDecision STPMode. Proof. solve_decision. Defined.
#[export] Instance InstrumentStatus_eq_dec : EqDecision InstrumentStatus.
Proof. solve_decision. Defined.
#[export] Instance OrderType_eq_dec : EqDecision OrderType. Proof. solve_decision. Defined.
#[export] Instance LiquidityFlag_eq_dec : EqDecision LiquidityFlag.
Proof. solve_decision. Defined.
#[export] Instance ExpirationDate_eq_dec : EqDecision ExpirationDate.
Proof. solve_decision. Defined.

#[export] Instance LiquidityFlag_countable : Countable LiquidityFlag.
Proof.
  refine (inj_countable' (λ l, match l with Maker => true | Taker => false end)
    (λ b, if (b : bool) then Maker else Taker) _). by intros [].
Defined.

(** What the accessors of a parsed symbol return. *)
Record ParsedSymbol := {
  ps_underlying : string;
  ps_expiration : ExpirationDate;
  ps_expiration_str : string;
  ps_strike : Z;
  ps_option_style : OptionStyle;
}.

(** A leaf book of the hierarchy, by its coordinates. *)
Record Leaf := {
  leaf_expiration : ExpirationDate;
  leaf_strike : Z;
  leaf_style : OptionStyle;
}.
#[export] Instance Leaf_eq_dec : EqDecision Leaf. Proof. solve_decision. Defined.

Record FeeSchedule := { fs_maker_bps : Z; fs_taker_bps : Z }.

(** What the accessors of one trade, of a match result, of a captured trade
    result and of a resting order return. *)
Record Trade {ID : Type} := {
  trade_price : Z;            (* u128 ticks *)
  trade_quantity : Z;         (* u64 *)
  trade_maker_order_id : ID;
  trade_maker_side : Side;
  trade_taker_side : Side;
}.
Arguments Trade ID : clear implicits.

Record MatchResult {ID : Type} := {
  mr_trades : list (Trade ID);
  mr_filled_order_ids : list ID;
}.
Arguments MatchResult ID : clear implicits.

Record TradeResult {ID : Type} := {
  tr_match_result : MatchResult ID;
  tr_engine_seq : Z;
}.
Arguments TradeResult ID : clear implicits.

Record OrderView := {
  ov_price : Z;               (* u128 ticks *)
  ov_side : Side;
  ov_visible_quantity : Z;
  ov_time_in_force : TimeInForce;
}.

Class Upstream := {
  (** Engine order ids. *)
  OrderId : Type;
  OrderId_eq_dec :: EqDecision OrderId;
  OrderId_countable :: Countable OrderId;
  sequential : Z → OrderId;
  order_id_as_u64 : OrderId → option Z;
  order_id_to_string : OrderId → string;

  (** Symbol grammar and lifecycle. *)
  parse_symbol : string → result string ParsedSymbol;
  to_symbol : ParsedSymbol → string;
  format_expiration_yyyymmdd : ExpirationDate → result string string;
  can_transition : InstrumentStatus → InstrumentStatus → bool;
  status_accepts_orders : InstrumentStatus → bool;
  status_display : InstrumentStatus → string;

  (** Fees. *)
  calculate_fee : FeeSchedule → Z → bool → result string Z;
  max_guaranteed_exact_notional : FeeSchedule → Z;

  (** The hierarchy of one underlying: interior mutability becomes state
      passing over [Book]. *)
  Book : Type;
  ContractSpecs : Type;
  contract_specs_build : Z → Z → Z → Z → result string ContractSpecs;
  book_new : string → Book;
  book_underlying : Book → string;
  set_fee_schedule : Book → FeeSchedule → Book;
  set_stp_mode : Book → STPMode → Book;
  set_specs : Book → ContractSpecs → Book;
  get_or_create_expiration : Book → ExpirationDate → Book;
  get_or_create_strike : Book → ExpirationDate → Z → Book;
  has_expiration : Book → ExpirationDate → bool;
  has_strike : Book → ExpirationDate → Z → bool;
  expirations : Book → list ExpirationDate;
  strike_prices : Book → ExpirationDate → list Z;

  (** Leaf reads. *)
  leaf_symbol : Book → Leaf → string;
  leaf_status : Book → Leaf → InstrumentStatus;
  leaf_stp_mode : Book → Leaf → STPMode;
  leaf_fee_schedule : Book → Leaf → option FeeSchedule;
  orders_by_user : Book → Leaf → Hash32 → list OrderId;
  total_bid_depth : Book → Leaf → result string Z;
  total_ask_depth : Book → Leaf → result string Z;
  best_bid : Book → Leaf → option Z;
  best_ask : Book → Leaf → option Z;

  last_trade_result : Book → Leaf → option (TradeResult OrderId);
  trade_result_new : string → MatchResult OrderId → result string (TradeResult OrderId);
  get_order : Book → Leaf → OrderId → option OrderView;

  (** Leaf writes. *)
  arm_trade_capture : Book → Leaf → bool → Book;
  add_limit_order : Book → Leaf → OrderId → Side → Z → Z → TimeInForce → Hash32 →
    Book * result string (TradeResult OrderId);
  submit_market_order : Book → Leaf → OrderId → Z → Side → Hash32 →
    Book * result string (MatchResult OrderId);
  cancel_order : Book → Leaf → OrderId → Book * result string bool;
  evict_expired_orders : Book → Leaf → Z → Book * result string (list OrderId);
  set_status : Book → Leaf → InstrumentStatus → Book * result string unit;
}.

(** Documented behaviour of the order ids: [OrderId::sequential] and
    [OrderId::as_u64] are inverse. *)
Class OrderIdLaws `{Upstream} : Prop := {
  as_u64_sequential n : order_id_as_u64 (sequential n) = Some n;
}.

Lemma sequential_inj `{OrderIdLaws} a b : sequential a = sequential b → a = b.
Proof. intros E. apply (f_equal order_id_as_u64) in E. rewrite !as_u64_sequential in E. congruence. Qed.

Inductive SymbolError :=
  | InvalidSymbol (symbol reason : string)
  | RelativeExpiryRefused
  | NonCanonicalExpiryInstant (date : string)
  | UnresolvableExpiry (reason : string).

Definition symbol_error_display (e : SymbolError) : string :=
  match e with
  | InvalidSymbol symbol reason => "invalid symbol '" +:+ symbol +:+ "': " +:+ reason
  | RelativeExpiryRefused =>
      "relative Days expiry is refused on the venue path; use an absolute ExpirationDate::DateTime"
  | NonCanonicalExpiryInstant date =>
      "expiry time-of-day for date " +:+ date +:+
      " is not canonical 23:59:59 UTC; it would alias the symbol"
  | UnresolvableExpiry reason => "could not resolve expiry date: " +:+ reason
  end.

(** The calendar of the upstream symbol grammar: a [YYYYMMDD] date, a free-form expiry, and the
    constructor of a parsed symbol from its coordinates. *)
Class SymbolCalendar := {
  parse_yyyymmdd : string → string → result string ExpirationDate;
  expiration_from_string : string → result string ExpirationDate;
  parsed_symbol_try_new : string → string → Z → OptionStyle → result string ParsedSymbol;
}.

Section symbol.
Context `{Upstream} `{SymbolCalendar}.

Definition from_parsed (parsed : ParsedSymbol) : Symbol := to_symbol parsed.

Definition Symbol_parse (raw : string) : result SymbolError Symbol :=
  parsed ← map_err (InvalidSymbol raw) (parse_symbol raw);
  Ok (from_parsed parsed).

Definition validate_venue_expiry (expiration : ExpirationDate) :
    result SymbolError ExpirationDate :=
  match expiration with
  | Days _ => Err RelativeExpiryRefused
  | DateTime instant =>
      yyyymmdd ← map_err UnresolvableExpiry (format_expiration_yyyymmdd expiration);
      canonical ← map_err UnresolvableExpiry (parse_yyyymmdd yyyymmdd "");
      match canonical with
      | DateTime canon =>
          if instant =? canon then Ok canonical else Err (NonCanonicalExpiryInstant yyyymmdd)
      | Days _ => Err (UnresolvableExpiry "canonical parse did not yield an absolute instant")
      end
  end.

(** A validated expiry is the one given. *)
Lemma validate_venue_expiry_same expiration canonical :
  validate_venue_expiry expiration = Ok canonical → canonical = expiration.
Proof.
  destruct expiration as [days|instant]; [done|]. cbn.
  intros (yyyymmdd & _ & H1)%bind_Ok. apply bind_Ok in H1 as ([days|canon] & _ & H1); [done|].
  destruct (Z.eqb_spec instant canon); congruence.
Qed.

(** ** Instruments ([instrument.rs]) *)

Record Instrument := {
  ins_symbol : Symbol; ins_underlying : string; ins_expiration : ExpirationDate;
  ins_strike : Z; ins_style : OptionStyle; ins_status : InstrumentStatus }.

Definition Instrument_try_new (underlying : string) (expiration : ExpirationDate) (strike : Z)
    (style : OptionStyle) (status : InstrumentStatus) :
    result SymbolError Instrument :=
  canonical ← validate_venue_expiry expiration;
  yyyymmdd ← map_err UnresolvableExpiry (format_expiration_yyyymmdd canonical);
  parsed ← map_err
             (InvalidSymbol (underlying +:+ "-" +:+ yyyymmdd +:+ "-" +:+ dec strike +:+ "-" +:+
                             match style with Call => "C" | Put => "P" end))
             (parsed_symbol_try_new underlying yyyymmdd strike style);
  Ok {| ins_symbol := from_parsed parsed; ins_underlying := ps_underlying parsed;
        ins_expiration := canonical; ins_strike := ps_strike parsed;
        ins_style := ps_option_style parsed; ins_status := status |}.

(** An instrument read from its wire form is rebuilt from its coordinates, which its symbol
    must match. *)
Definition Instrument_try_from (wire : Instrument) : result SymbolError Instrument :=
  rebuilt ← Instrument_try_new (ins_underlying wire) (ins_expiration wire) (ins_strike wire)
              (ins_style wire) (ins_status wire);
  if negb (String.eqb (ins_symbol rebuilt) (ins_symbol wire))
  then Err (InvalidSymbol (ins_symbol wire)
              ("symbol does not match its coordinates (canonical form is '" +:+
               ins_symbol rebuilt +:+ "')"))
  else Ok rebuilt.
End symbol.
