(* ===== verification/Envelope.v ===== *)
(** The versioned command and event envelope ([src/src/exchange/envelope.rs],
    [identity.rs], [mm_identity.rs], [event.rs]): the commands the venue sequences, the
    outcomes matching captured for them, and the event that pairs the two.  The range check
    of the float knobs and IEEE equality are modelled on bit patterns.

    Decimal rendering is injective and colon-free, so the composite ids of one lineage and
    underlying are unique per sequence and index. *)

From Stdlib Require Import Ascii.
From S2P Require Export Upstream.

(** ** Sequence numbers *)

Definition SEQUENCE_START : SequenceNumber := 0.

Definition checked_next (s : SequenceNumber) : option SequenceNumber := checked_add u64 s 1.

(** ** Identity: lineage ids, and the schema of this binary *)

Definition VENUE_ENVELOPE_SCHEMA : string := "venue.v1".

Definition composite (lineage : LineageId) (underlying : string)
    (sequence : SequenceNumber) (index : Z) : string :=
  lineage +:+ ":" +:+ underlying +:+ ":" +:+ dec sequence +:+ ":" +:+ dec index.

Definition venue_order_id (lineage : LineageId) (underlying : string)
    (underlying_sequence : SequenceNumber) (intra_command_index : Z) : VenueOrderId :=
  composite lineage underlying underlying_sequence intra_command_index.

Definition execution_id (lineage : LineageId) (underlying : string)
    (underlying_sequence : SequenceNumber) (fill_index : Z) : ExecutionId :=
  composite lineage underlying underlying_sequence fill_index.

Record JournalHeader := {
  schema_version : string;
  header_lineage_id : LineageId;
}.

Definition JournalHeader_new (lineage : LineageId) : JournalHeader :=
  {| schema_version := VENUE_ENVELOPE_SCHEMA; header_lineage_id := lineage |}.

Definition header_is_current_schema (h : JournalHeader) : bool :=
  String.eqb (schema_version h) VENUE_ENVELOPE_SCHEMA.

(** ** The float knobs

    A double is its 64-bit pattern.  Ordering reads the pattern as a sign and a
    magnitude; a NaN is unordered and equals nothing, itself included. *)

Notation f64 := Z (only parsing).

Definition f64_magnitude (x : f64) : Z := Z.land x (2 ^ 63 - 1).
Definition f64_is_nan (x : f64) : bool := 0x7FF0000000000000 <? f64_magnitude x.
Definition f64_ord (x : f64) : Z :=
  if Z.testbit x 63 then - f64_magnitude x else f64_magnitude x.
Definition f64_leb (a b : f64) : bool :=
  negb (f64_is_nan a) && negb (f64_is_nan b) && (f64_ord a <=? f64_ord b).
Definition f64_eqb (a b : f64) : bool := f64_leb a b && f64_leb b a.

Definition SPREAD_MULTIPLIER_MIN : f64 := 0x3FB999999999999A.  (* 0.1 *)
Definition SPREAD_MULTIPLIER_MAX : f64 := 0x4024000000000000.  (* 10.0 *)
Definition SIZE_SCALAR_MIN : f64 := 0.
Definition SIZE_SCALAR_MAX : f64 := 0x3FF0000000000000.        (* 1.0 *)
Definition DIRECTIONAL_SKEW_MIN : f64 := 0xBFF0000000000000.   (* -1.0 *)
Definition DIRECTIONAL_SKEW_MAX : f64 := 0x3FF0000000000000.   (* 1.0 *)

(** The serde guard of a knob: the decoded value passes through when absent or
    within [min, max]; the error carries the field's name. *)
Definition deserialize_ranged_knob (value : option f64) (field : string) (min max : f64) :
    result string (option f64) :=
  match value with
  | Some v => if f64_leb min v && f64_leb v max then Ok value else Err field
  | None => Ok value
  end.

Definition deserialize_spread_multiplier (v : option f64) :=
  deserialize_ranged_knob v "spread_multiplier" SPREAD_MULTIPLIER_MIN SPREAD_MULTIPLIER_MAX.
Definition deserialize_size_scalar (v : option f64) :=
  deserialize_ranged_knob v "size_scalar" SIZE_SCALAR_MIN SIZE_SCALAR_MAX.
Definition deserialize_directional_skew (v : option f64) :=
  deserialize_ranged_knob v "directional_skew" DIRECTIONAL_SKEW_MIN DIRECTIONAL_SKEW_MAX.

(** ** Outcomes *)

Inductive MassCancelScope :=
  | ScopeUnderlying
  | ScopeExpiration (expiration : ExpirationDate)
  | ScopeStrike (expiration : ExpirationDate) (strike : Z)
  | ScopeBook (symbol : Symbol).

Inductive MassCancelType :=
  | CancelAll
  | BySide (side : Side)
  | ByUser (owner : Hash32).

Inductive CancelReason :=
  | ReasonMassCancel | ReasonSelfTradePrevention | ReasonTimeInForceExpiry | ReasonReplace.

Record Fill := {
  fill_execution_id : ExecutionId;
  fill_order_id : VenueOrderId;
  fill_account : AccountId;
  fill_owner : Hash32;
  fill_side : Side;
  fill_liquidity : LiquidityFlag;
  fill_price : Cents;
  fill_quantity : Z;
  fill_fee : SignedCents;
}.

Record CancelledLeg := {
  leg_order_id : VenueOrderId;
  leg_owner : Hash32;
  leg_symbol : Symbol;
  leg_side : Side;
  leg_reason : CancelReason;
}.

Inductive RejectKind :=
  | NotFound | NotOwner | NotResting | InstrumentNotActive | InvalidOrder | NotFillable
  | Internal.

Inductive AddOutcome :=
  | AddFilled (fills : list Fill) (stp_cancelled : list CancelledLeg)
  | AddRested (fills : list Fill) (resting_quantity : Z) (stp_cancelled : list CancelledLeg)
  | AddRejected (kind : RejectKind) (reason : string).

Inductive VenueOutcome :=
  | Added (fills : list Fill) (resting_quantity : Z) (stp_cancelled : list CancelledLeg)
  | MarketDone (fills : list Fill) (unfilled_quantity : Z) (stp_cancelled : list CancelledLeg)
  | Cancelled (order_id : VenueOrderId)
  | Replaced (cancelled : bool) (add : AddOutcome)
  | MassCancelled (affected : list CancelledLeg)
  | InstrumentStatusChanged (symbol : Symbol) (status : InstrumentStatus)
  | Evicted (evicted : list VenueOrderId)
  | ControlApplied (swept : list CancelledLeg)
  | Rejected (kind : RejectKind) (reason : string)
  | Duplicate (original_order_id : VenueOrderId) (original_sequence : SequenceNumber)
      (terminal : VenueOutcome).

#[export] Instance MassCancelScope_eq_dec : EqDecision MassCancelScope.
Proof. solve_decision. Defined.
#[export] Instance MassCancelType_eq_dec : EqDecision MassCancelType.
Proof. solve_decision. Defined.
#[export] Instance CancelReason_eq_dec : EqDecision CancelReason. Proof. solve_decision. Defined.
#[export] Instance Fill_eq_dec : EqDecision Fill. Proof. solve_decision. Defined.
#[export] Instance CancelledLeg_eq_dec : EqDecision CancelledLeg. Proof. solve_decision. Defined.
#[export] Instance RejectKind_eq_dec : EqDecision RejectKind. Proof. solve_decision. Defined.
#[export] Instance AddOutcome_eq_dec : EqDecision AddOutcome. Proof. solve_decision. Defined.
#[export] Instance VenueOutcome_eq_dec : EqDecision VenueOutcome. Proof. solve_decision. Defined.

(** The taker legs' price and quantity, looking through a duplicate. *)
Fixpoint taker_fill_legs (o : VenueOutcome) : list (Cents * Z) :=
  match o with
  | Duplicate _ _ terminal => taker_fill_legs terminal
  | Added fills _ _ | MarketDone fills _ _ =>
      (λ f, (fill_price f, fill_quantity f)) <$>
        filter (λ f, fill_liquidity f = Taker) fills
  | _ => []
  end.

(** The fills an outcome carries ([stores.rs], [outcome_fills]); a duplicate
    carries none of its own. *)
Definition outcome_fills (o : VenueOutcome) : list Fill :=
  match o with
  | Added fills _ _ | MarketDone fills _ _ => fills
  | Replaced _ add =>
      match add with
      | AddFilled fills _ | AddRested fills _ _ => fills
      | AddRejected _ _ => []
      end
  | _ => []
  end.

Definition terminal (o : VenueOutcome) : VenueOutcome :=
  match o with Duplicate _ _ terminal => terminal | other => other end.

Definition rendered_identity (o : VenueOutcome) (fresh_order_id : VenueOrderId)
    (fresh_sequence : SequenceNumber) : VenueOrderId * SequenceNumber :=
  match o with
  | Duplicate original_order_id original_sequence _ => (original_order_id, original_sequence)
  | _ => (fresh_order_id, fresh_sequence)
  end.

(** ** Commands *)

Inductive VenueCommand :=
  | AddOrder (symbol : Symbol) (order_id : VenueOrderId) (account : AccountId)
      (owner : Hash32) (client_order_id : option ClientOrderId) (side : Side)
      (order_type : OrderType) (limit_price : option Cents) (quantity : Z)
      (time_in_force : TimeInForce) (stp_mode : STPMode)
  | CancelOrder (symbol : Symbol) (order_id : VenueOrderId) (account : AccountId)
  | Replace (symbol : Symbol) (order_id new_order_id : VenueOrderId) (account : AccountId)
      (client_order_id orig_client_order_id : option ClientOrderId) (side : Side)
      (limit_price : option Cents) (quantity : Z) (time_in_force : TimeInForce)
      (stp_mode : STPMode)
  | MassCancel (scope : MassCancelScope) (cancel_type : MassCancelType) (account : AccountId)
  | SetInstrumentStatus (symbol : Symbol) (status : InstrumentStatus)
  | EvictExpiredOrders (now_ms : EventTimestamp)
  | MarketMakerControl (spread_multiplier size_scalar directional_skew : option f64)
      (enabled : option bool)
  | Clock (now_ms : EventTimestamp)
  | SimStep (now_ms : EventTimestamp) (underlying : string) (price : Cents)
      (bid ask : option Cents).

#[export] Instance VenueCommand_eq_dec : EqDecision VenueCommand. Proof. solve_decision. Defined.

Definition option_f64_eqb (a b : option f64) : bool :=
  match a, b with
  | None, None => true
  | Some a, Some b => f64_eqb a b
  | _, _ => false
  end.

(** The derived [PartialEq] of a command: structural, with IEEE equality on the
    float knobs. *)
Definition command_eqb (a b : VenueCommand) : bool :=
  match a, b with
  | MarketMakerControl s1 z1 d1 e1, MarketMakerControl s2 z2 d2 e2 =>
      option_f64_eqb s1 s2 && option_f64_eqb z1 z2 && option_f64_eqb d1 d2 && bool_decide (e1 = e2)
  | _, _ => bool_decide (a = b)
  end.

(** ** Events *)

Record VenueEvent := {
  ev_schema : string;
  ev_underlying_sequence : SequenceNumber;
  ev_venue_ts : EventTimestamp;
  ev_command : VenueCommand;
  ev_outcome : VenueOutcome;
}.
#[export] Instance VenueEvent_eq_dec : EqDecision VenueEvent. Proof. solve_decision. Defined.

Definition VenueEvent_new (underlying_sequence : SequenceNumber) (venue_ts : EventTimestamp)
    (command : VenueCommand) (outcome : VenueOutcome) : VenueEvent :=
  {| ev_schema := VENUE_ENVELOPE_SCHEMA; ev_underlying_sequence := underlying_sequence;
     ev_venue_ts := venue_ts; ev_command := command; ev_outcome := outcome |}.

Definition event_is_current_schema (e : VenueEvent) : bool :=
  String.eqb (ev_schema e) VENUE_ENVELOPE_SCHEMA.

(** The derived [PartialEq] of an event. *)
Definition event_eqb (a b : VenueEvent) : bool :=
  String.eqb (ev_schema a) (ev_schema b)
  && (ev_underlying_sequence a =? ev_underlying_sequence b)
  && (ev_venue_ts a =? ev_venue_ts b)
  && command_eqb (ev_command a) (ev_command b)
  && bool_decide (ev_outcome a = ev_outcome b).

(** ** The market maker's reserved identity *)

Definition MARKET_MAKER_ACCOUNT : AccountId := "@market-maker".

Definition MARKET_MAKER_OWNER : Hash32 :=
  0xEEEEEEEEEEEEEEEEEEEEEEEEEEEEEEEEEEEEEEEEEEEEEEEEEEEEEEEEEEEEEEEE.

Definition is_market_maker_account (account : AccountId) : bool :=
  String.eqb account MARKET_MAKER_ACCOUNT.

Definition is_market_maker_command (c : VenueCommand) : bool :=
  match c with
  | AddOrder _ _ account _ _ _ _ _ _ _ _ | CancelOrder _ _ account
  | Replace _ _ _ account _ _ _ _ _ _ _ => is_market_maker_account account
  | _ => false
  end.

(** * Theorems *)

(** ** IEEE equality is reflexive away from NaN *)

Definition knob_no_nan (k : option f64) : Prop :=
  match k with Some x => f64_is_nan x = false | None => True end.

Definition no_nan (c : VenueCommand) : Prop :=
  match c with
  | MarketMakerControl s z d _ => knob_no_nan s ∧ knob_no_nan z ∧ knob_no_nan d
  | _ => True
  end.

Lemma option_f64_eqb_refl k : knob_no_nan k → option_f64_eqb k k = true.
Proof.
  destruct k as [x|]; cbn; [|done]. intros Hx. unfold f64_eqb, f64_leb.
  by rewrite Hx, Z.leb_refl.
Qed.

Lemma command_eqb_refl c : no_nan c → command_eqb c c = true.
Proof.
  destruct c; cbn; intros H; try by rewrite bool_decide_eq_true_2.
  destruct H as (H1 & H2 & H3).
  by rewrite !option_f64_eqb_refl, bool_decide_eq_true_2 by done.
Qed.

Lemma event_eqb_refl e : no_nan (ev_command e) → event_eqb e e = true.
Proof.
  intros H. unfold event_eqb.
  by rewrite String.eqb_refl, !Z.eqb_refl, command_eqb_refl, bool_decide_eq_true_2.
Qed.

Lemma deserialize_ranged_knob_no_nan v field min max k :
  deserialize_ranged_knob v field min max = Ok k → k = v ∧ knob_no_nan k.
Proof.
  unfold deserialize_ranged_knob. destruct v as [x|]; cbn; [|naive_solver].
  destruct (f64_leb min x) eqn:E; cbn; [|done]. destruct (f64_leb x max); cbn; [|done].
  intros [= <-]. split; [done|]. cbn. unfold f64_leb in E.
  destruct (f64_is_nan min), (f64_is_nan x); done.
Qed.

(** A control command whose knobs passed the serde guards compares equal to
    itself. *)
Lemma decoded_control_no_nan s z d e s' z' d' :
  deserialize_spread_multiplier s = Ok s' →
  deserialize_size_scalar z = Ok z' →
  deserialize_directional_skew d = Ok d' →
  no_nan (MarketMakerControl s' z' d' e).
Proof.
  intros Hs Hz Hd. split_and!.
  - by apply deserialize_ranged_knob_no_nan in Hs as [_ ?].
  - by apply deserialize_ranged_knob_no_nan in Hz as [_ ?].
  - by apply deserialize_ranged_knob_no_nan in Hd as [_ ?].
Qed.

(** Reading a decimal string back. *)
Fixpoint undec_go (v : Z) (s : string) : Z :=
  match s with
  | EmptyString => v
  | String c s => undec_go (10 * v + (Z.of_N (Ascii.N_of_ascii c) - 48)) s
  end.

Fixpoint no_colon (s : string) : bool :=
  match s with
  | EmptyString => true
  | String c s => negb (Ascii.eqb c ":"%char) && no_colon s
  end.

(** * Theorems *)

Lemma digit_code d :
  0 ≤ d < 10 → Z.of_N (Ascii.N_of_ascii (Ascii.ascii_of_N (Z.to_N (48 + d)))) = 48 + d.
Proof. intros Hd. rewrite Ascii.N_ascii_embedding; lia. Qed.

Lemma dec_go_undec fuel n acc :
  0 ≤ n < 10 ^ Z.of_nat fuel → (0 < fuel)%nat →
  undec_go 0 (dec_go fuel n acc) = undec_go n acc.
Proof.
  revert n acc. induction fuel as [|fuel IH]; intros n acc Hn Hf; [lia|].
  cbn [dec_go]. pose proof (Z.mod_pos_bound n 10 ltac:(lia)).
  destruct (Z.ltb_spec n 10) as [Hlt|Hge].
  - cbn [undec_go]. rewrite digit_code by lia. f_equal. rewrite Z.mod_small; lia.
  - rewrite Nat2Z.inj_succ, Z.pow_succ_r in Hn by lia.
    rewrite IH.
    + cbn [undec_go]. rewrite digit_code by lia. f_equal. pose proof (Z.div_mod n 10). lia.
    + split; [apply Z.div_pos; lia|]. apply Z.div_lt_upper_bound; lia.
    + destruct fuel; [|lia]. cbn in Hn. lia.
Qed.

Lemma dec_undec n : 0 ≤ n < 10 ^ 40 → undec_go 0 (dec n) = n.
Proof. intros. unfold dec. rewrite dec_go_undec; [done|lia|lia]. Qed.

Lemma dec_inj a b : 0 ≤ a < 10 ^ 40 → 0 ≤ b < 10 ^ 40 → dec a = dec b → a = b.
Proof. intros Ha Hb E. rewrite <-(dec_undec a), <-(dec_undec b) by done. by rewrite E. Qed.

Lemma digit_not_colon d :
  0 ≤ d < 10 → Ascii.eqb (Ascii.ascii_of_N (Z.to_N (48 + d))) ":"%char = false.
Proof.
  intros Hd. apply Ascii.eqb_neq. intros E. apply (f_equal Ascii.N_of_ascii) in E.
  rewrite Ascii.N_ascii_embedding in E by lia.
  change (Ascii.N_of_ascii ":"%char) with 58%N in E. lia.
Qed.

Lemma dec_go_no_colon fuel n acc :
  no_colon acc = true → no_colon (dec_go fuel n acc) = true.
Proof.
  revert n acc. induction fuel as [|fuel IH]; intros n acc Hacc; [done|]. cbn [dec_go].
  pose proof (Z.mod_pos_bound n 10 ltac:(lia)).
  case_match; [|apply IH]; cbn [no_colon]; by rewrite digit_not_colon.
Qed.

Lemma append_cancel_l a b c : a +:+ b = a +:+ c → b = c.
Proof. induction a as [|x a IH]; cbn; [done|]. intros [= E]. by apply IH. Qed.

(** Splitting at the first colon. *)
Lemma colon_split a b a' b' :
  no_colon a = true → no_colon a' = true →
  a +:+ ":" +:+ b = a' +:+ ":" +:+ b' → a = a' ∧ b = b'.
Proof.
  revert a'. induction a as [|x a IH]; intros [|x' a']; cbn; intros Ha Ha' E.
  - by injection E.
  - injection E as <- _. by rewrite Ascii.eqb_refl in Ha'.
  - injection E as -> _. by rewrite Ascii.eqb_refl in Ha.
  - injection E as <- E. apply andb_true_iff in Ha as [_ Ha], Ha' as [_ Ha'].
    destruct (IH a' Ha Ha' E) as [-> ->]. done.
Qed.

(** One lineage and underlying: the id determines its sequence and index. *)
Lemma execution_id_inj lineage u s i s' i' :
  0 ≤ s < 10 ^ 40 → 0 ≤ i < 10 ^ 40 → 0 ≤ s' < 10 ^ 40 → 0 ≤ i' < 10 ^ 40 →
  execution_id lineage u s i = execution_id lineage u s' i' → s = s' ∧ i = i'.
Proof.
  intros Hs Hi Hs' Hi'. unfold execution_id, composite. intros E.
  apply append_cancel_l, append_cancel_l, append_cancel_l, append_cancel_l in E.
  apply colon_split in E as [Es Ei]; [|by apply dec_go_no_colon..].
  split; by apply dec_inj.
Qed.
