(* ===== verification/VenueErrors.v ===== *)
(** The venue's error seam ([src/src/error.rs]): the error every component returns,
    and its rendering on the three surfaces — the REST envelope and status, the
    WebSocket error, the FIX reject — with the redaction of internal causes and the
    masking of cancel failures. *)

From S2P Require Export Envelope Upstream.

(** [models.rs], and [Permission::grants] of [auth.rs]. *)
Inductive Permission := PermRead | PermTrade | PermAdmin.
#[export] Instance Permission_eq_dec : EqDecision Permission. Proof. solve_decision. Defined.

Definition grants (held required : Permission) : bool :=
  match held with
  | PermAdmin => true
  | PermTrade => match required with PermRead | PermTrade => true | PermAdmin => false end
  | PermRead => match required with PermRead => true | _ => false end
  end.

(** The derived [Debug] of a permission. *)
Definition permission_debug (p : Permission) : string :=
  match p with PermRead => "Read" | PermTrade => "Trade" | PermAdmin => "Admin" end.

Definition REST_ERROR_SCHEMA : string := "rest-error.v1".
Definition WS_ERROR_SCHEMA : string := "ws-error.v1".
Definition REDACTED_INTERNAL_MESSAGE : string := "internal error".
Definition CANCEL_REJECT_MASKED_REASON : string := "order not found or not cancellable".
Definition RATE_LIMIT_RETRY_AFTER_MS : Z := 60_000.

(** [Upstream] carries the text of the order book's error. *)
Inductive VenueError :=
  | VNotFound (detail : string)
  | VInvalidOrder (detail : string)
  | Unauthorized
  | Forbidden (permission : Permission)
  | InstrumentHalted (detail : string)
  | RateLimited
  | VOverflow
  | SequenceExhausted
  | JournalUnavailable
  | ShuttingDown
  | VUpstream (cause : string).

(** [Display] of a signed integer. *)
Definition dec_signed (z : Z) : string := if z <? 0 then "-" +:+ dec (- z) else dec z.

Definition from_money_error (e : MoneyError) : VenueError :=
  match e with
  | Overflow => VOverflow
  | NegativeCents cents =>
      VInvalidOrder ("negative money value " +:+ dec_signed cents +:+ " cents")
  end.

Definition venue_error_from_symbol (e : SymbolError) : VenueError :=
  VInvalidOrder (symbol_error_display e).

Definition http_status (e : VenueError) : Z :=
  match e with
  | VNotFound _ => 404
  | VInvalidOrder _ => 400
  | Unauthorized => 401
  | Forbidden _ => 403
  | InstrumentHalted _ => 409
  | RateLimited => 429
  | ShuttingDown => 503
  | VOverflow | SequenceExhausted | JournalUnavailable | VUpstream _ => 500
  end.

Definition machine_code (e : VenueError) : string :=
  match e with
  | VNotFound _ => "not_found"
  | VInvalidOrder _ => "invalid_order"
  | Unauthorized => "unauthorized"
  | Forbidden _ => "forbidden"
  | InstrumentHalted _ => "instrument_halted"
  | RateLimited => "throttled"
  | ShuttingDown => "unavailable"
  | VOverflow | SequenceExhausted | JournalUnavailable | VUpstream _ => "internal"
  end.

Definition redacted_message (e : VenueError) : string :=
  match e with
  | VNotFound detail => "not found: " +:+ detail
  | VInvalidOrder detail => "invalid order: " +:+ detail
  | Unauthorized => "unauthorized"
  | Forbidden permission => "missing permission " +:+ permission_debug permission
  | InstrumentHalted detail => "instrument not accepting orders: " +:+ detail
  | RateLimited => "rate limited"
  | ShuttingDown => "shutting down"
  | VOverflow | SequenceExhausted | JournalUnavailable | VUpstream _ =>
      REDACTED_INTERNAL_MESSAGE
  end.

Record ErrorEnvelope := { env_schema : string; env_code : string; env_message : string }.

Definition error_envelope (e : VenueError) : ErrorEnvelope :=
  {| env_schema := REST_ERROR_SCHEMA; env_code := machine_code e;
     env_message := redacted_message e |}.

(** The status, the body and the headers of the response. *)
Definition into_response (e : VenueError) : Z * ErrorEnvelope * list (string * string) :=
  (http_status e, error_envelope e,
   match e with
   | RateLimited => [("retry-after", "60"); ("x-ratelimit-remaining", "0")]
   | _ => []
   end).

Definition masked_cancel_reject (kind : RejectKind) (masked_reason : string) : VenueError :=
  match kind with
  | NotFound | NotOwner | NotResting => VNotFound masked_reason
  | InstrumentNotActive => InstrumentHalted masked_reason
  | InvalidOrder | NotFillable => VInvalidOrder masked_reason
  | Internal => JournalUnavailable
  end.

(** ** FIX *)

Inductive FixRejectContext := CtxNewOrder | CtxCancelReplace | CtxMarketData | CtxOther | CtxSession.
Inductive FixRejectKind :=
  | ExecutionReportRejected | OrderCancelRejected | MarketDataRequestRejected
  | BusinessMessageRejected | SessionRejected.
Inductive FixRejectReason :=
  | ReasonInvalid | ReasonNotFound | ReasonAuthorization | ReasonThrottle | ReasonInternal.
Record FixReject := {
  fr_kind : FixRejectKind; fr_reason : FixRejectReason; fr_text : option string }.

Definition for_context (c : FixRejectContext) : FixRejectKind :=
  match c with
  | CtxNewOrder => ExecutionReportRejected
  | CtxCancelReplace => OrderCancelRejected
  | CtxMarketData => MarketDataRequestRejected
  | CtxOther => BusinessMessageRejected
  | CtxSession => SessionRejected
  end.

Definition reject_msg_type (k : FixRejectKind) : string :=
  match k with
  | ExecutionReportRejected => "8" | OrderCancelRejected => "9"
  | MarketDataRequestRejected => "Y" | BusinessMessageRejected => "j" | SessionRejected => "3"
  end.

Definition reason_field_tag (k : FixRejectKind) : Z :=
  match k with
  | ExecutionReportRejected => 103 | OrderCancelRejected => 102
  | MarketDataRequestRejected => 281 | BusinessMessageRejected => 380 | SessionRejected => 373
  end.

Definition fix_reason (e : VenueError) : FixRejectReason :=
  match e with
  | VNotFound _ => ReasonNotFound
  | VInvalidOrder _ | InstrumentHalted _ => ReasonInvalid
  | Unauthorized | Forbidden _ => ReasonAuthorization
  | RateLimited | ShuttingDown => ReasonThrottle
  | VOverflow | SequenceExhausted | JournalUnavailable | VUpstream _ => ReasonInternal
  end.

Definition fix_reject (e : VenueError) (c : FixRejectContext) : FixReject :=
  {| fr_kind := for_context c; fr_reason := fix_reason e; fr_text := Some (redacted_message e) |}.

(** ** WebSocket *)

Inductive WsErrorCode :=
  | WcBadRequest | WcInvalidOrder | WcUnauthorized | WcForbidden | WcInstrumentHalted
  | WcThrottled | WcNotFound | WcBusy | WcUnavailable | WcInternal.
Inductive WsErrorCategory :=
  | WgDecode | WgValidation | WgAuthorization | WgThrottle | WgNotFound | WgBusy
  | WgUnavailable | WgInternal.
#[export] Instance WsErrorCode_eq_dec : EqDecision WsErrorCode. Proof. solve_decision. Defined.
#[export] Instance WsErrorCategory_eq_dec : EqDecision WsErrorCategory.
Proof. solve_decision. Defined.

Record WsError := {
  wse_schema : string;
  wse_code : WsErrorCode;
  wse_category : WsErrorCategory;
  wse_message : string;
  wse_request_id : option string;
  wse_retryable : bool;
  wse_retry_after_ms : option Z;
  wse_terminal : bool;
}.
#[export] Instance WsError_eq_dec : EqDecision WsError. Proof. solve_decision. Defined.

Definition ws_code_category (e : VenueError) : WsErrorCode * WsErrorCategory :=
  match e with
  | VNotFound _ => (WcNotFound, WgNotFound)
  | VInvalidOrder _ => (WcInvalidOrder, WgValidation)
  | Unauthorized => (WcUnauthorized, WgAuthorization)
  | Forbidden _ => (WcForbidden, WgAuthorization)
  | InstrumentHalted _ => (WcInstrumentHalted, WgValidation)
  | RateLimited => (WcThrottled, WgThrottle)
  | ShuttingDown => (WcUnavailable, WgUnavailable)
  | VOverflow | SequenceExhausted | JournalUnavailable | VUpstream _ => (WcInternal, WgInternal)
  end.

Definition ws_error (e : VenueError) (request_id : option string) : WsError :=
  let '(code, category) := ws_code_category e in
  let '(retryable, retry_after_ms, terminal) :=
    match e with
    | Unauthorized => (false, None, true)
    | RateLimited => (true, Some RATE_LIMIT_RETRY_AFTER_MS, false)
    | ShuttingDown => (true, None, false)
    | _ => (false, None, false)
    end in
  {| wse_schema := WS_ERROR_SCHEMA; wse_code := code; wse_category := category;
     wse_message := redacted_message e; wse_request_id := request_id;
     wse_retryable := retryable; wse_retry_after_ms := retry_after_ms;
     wse_terminal := terminal |}.

(** * Theorems *)

(** Everything a client can observe of an error, on every surface. *)
Definition observed (e : VenueError) (c : FixRejectContext) (request_id : option string) :=
  (into_response e, fix_reject e c, ws_error e request_id).

(** The faults of the venue itself. *)
Definition is_internal (e : VenueError) : bool :=
  match e with
  | VOverflow | SequenceExhausted | JournalUnavailable | VUpstream _ => true
  | _ => false
  end.

(** Clients cannot tell internal faults apart, nor probe for orders: any two internal
    errors, whatever their cause, look the same on the REST, FIX and WebSocket surfaces,
    and the REST status is 500 exactly for them; and the masked rejection of a cancel
    depends on neither the existence nor the owner of the order named. *)
Theorem errors_disclose_nothing :
  (∀ e1 e2 c id, is_internal e1 = true → is_internal e2 = true →
     observed e1 c id = observed e2 c id) ∧
  (∀ e, http_status e = 500 ↔ is_internal e = true) ∧
  (∀ k1 k2 reason c id,
     k1 ∈ [NotFound; NotOwner; NotResting] → k2 ∈ [NotFound; NotOwner; NotResting] →
     observed (masked_cancel_reject k1 reason) c id =
       observed (masked_cancel_reject k2 reason) c id).
Proof.
  split_and!.
  - intros e1 e2 c id H1 H2. by destruct e1, e2.
  - intros e. by destruct e.
  - intros k1 k2 reason c id H1 H2. rewrite !elem_of_cons, elem_of_nil in H1, H2.
    by destruct_or! H1; destruct_or! H2; subst.
Qed.
