(* ===== verification/Journal.v ===== *)
(** The venue journal ([src/src/exchange/journal.rs]): the record kinds, the
    resource ceilings of the deserialiser and of [append], the [VenueJournal]
    interface, and its in-memory implementation.  Serialisation (serde_json) is
    the parameter [Serde]. *)

From S2P Require Export Envelope.

Inductive RecordKind := KCommand | KEvent | KEpoch.
#[export] Instance RecordKind_eq_dec : EqDecision RecordKind. Proof. solve_decision. Defined.
#[export] Instance RecordKind_countable : Countable RecordKind.
Proof.
  refine (inj_countable' (λ k, match k with KCommand => 0 | KEvent => 1 | KEpoch => 2 end)
    (λ n, match n with 0 => KCommand | 1 => KEvent | _ => KEpoch end) _). by intros [].
Defined.

Record SnapshotRestored := {
  sr_schema : string;
  sr_underlying_sequence : SequenceNumber;
  sr_venue_ts : EventTimestamp;
  sr_snapshot_id : string;
  sr_epoch : Z;
  sr_lineage_id : LineageId;
}.
#[export] Instance SnapshotRestored_eq_dec : EqDecision SnapshotRestored.
Proof. solve_decision. Defined.

Definition SnapshotRestored_new (sequence : SequenceNumber) (venue_ts : EventTimestamp)
    (snapshot_id : string) (epoch : Z) (lineage : LineageId) : SnapshotRestored :=
  {| sr_schema := VENUE_ENVELOPE_SCHEMA; sr_underlying_sequence := sequence;
     sr_venue_ts := venue_ts; sr_snapshot_id := snapshot_id; sr_epoch := epoch;
     sr_lineage_id := lineage |}.

Record JournalCommand := {
  jc_sequence : SequenceNumber;
  jc_venue_ts : EventTimestamp;
  jc_command : VenueCommand;
}.

Inductive JournalRecord :=
  | RCommand (c : JournalCommand)
  | REvent (e : VenueEvent)
  | REpoch (m : SnapshotRestored).

Definition command_record (sequence : SequenceNumber) (venue_ts : EventTimestamp)
    (command : VenueCommand) : JournalRecord :=
  RCommand {| jc_sequence := sequence; jc_venue_ts := venue_ts; jc_command := command |}.

Definition record_sequence (r : JournalRecord) : SequenceNumber :=
  match r with
  | RCommand c => jc_sequence c
  | REvent e => ev_underlying_sequence e
  | REpoch m => sr_underlying_sequence m
  end.

Definition record_kind (r : JournalRecord) : RecordKind :=
  match r with RCommand _ => KCommand | REvent _ => KEvent | REpoch _ => KEpoch end.

(** The derived [PartialEq] of a record. *)
Definition record_eqb (a b : JournalRecord) : bool :=
  match a, b with
  | RCommand a, RCommand b =>
      (jc_sequence a =? jc_sequence b) && (jc_venue_ts a =? jc_venue_ts b)
      && command_eqb (jc_command a) (jc_command b)
  | REvent a, REvent b => event_eqb a b
  | REpoch a, REpoch b => bool_decide (a = b)
  | _, _ => false
  end.

Inductive JournalError :=
  | AppendFailed (why : string)
  | Ambiguous (why : string)
  | Conflict (sequence : SequenceNumber) (kind : RecordKind)
  | Corruption (underlying : string) (sequence : SequenceNumber)
  | SchemaTooNew (found : string)
  | Backend (operation : string)
  | ResourceLimit (limit : string) (found ceiling : Z)
  | ConfigRejected (detail : string)
  | PriceOutOfBand (detail : string).

(** ** Resource ceilings *)

Definition MAX_JOURNAL_RECORD_BYTES : Z := 2 * 1024 * 1024.
Definition MAX_JOURNAL_RECORDS : Z := 1_000_000.
Definition MAX_JOURNAL_STREAM_BYTES : Z := 1024 * 1024 * 1024.
Definition JSON_STRING_ESCAPE_FACTOR : Z := 6.
Definition RECORD_ESTIMATE_BASE_BYTES : Z := 4_096.
Definition PER_ELEMENT_ESTIMATE_BYTES : Z := 512.

Definition enforce_stream_ceiling (count : Z) : result JournalError unit :=
  if MAX_JOURNAL_RECORDS <? count
  then Err (ResourceLimit "stream_records" count MAX_JOURNAL_RECORDS) else Ok tt.

Definition enforce_stream_bytes_ceiling (bytes : Z) : result JournalError unit :=
  if MAX_JOURNAL_STREAM_BYTES <? bytes
  then Err (ResourceLimit "stream_bytes" bytes MAX_JOURNAL_STREAM_BYTES) else Ok tt.

(** The estimate accumulates string bytes and elements in checked [usize]
    counters; [None] is an overflow. *)
Definition add_estimate (acc : option Z) (n : Z) : option Z :=
  acc ≫= λ value, checked_add usize value n.

Definition add_opt_str (acc : option Z) (s : option string) : option Z :=
  match s with Some s => add_estimate acc (str_len s) | None => acc end.

Definition accumulate_command_estimate (command : VenueCommand) (string_bytes : option Z) :
    option Z :=
  match command with
  | AddOrder symbol order_id account _ client_order_id _ _ _ _ _ _ =>
      let sb := add_estimate string_bytes (str_len symbol) in
      let sb := add_estimate sb (str_len order_id) in
      let sb := add_estimate sb (str_len account) in
      add_opt_str sb client_order_id
  | CancelOrder symbol order_id account =>
      let sb := add_estimate string_bytes (str_len symbol) in
      let sb := add_estimate sb (str_len order_id) in
      add_estimate sb (str_len account)
  | Replace symbol order_id new_order_id account client_order_id orig_client_order_id
      _ _ _ _ _ =>
      let sb := add_estimate string_bytes (str_len symbol) in
      let sb := add_estimate sb (str_len order_id) in
      let sb := add_estimate sb (str_len new_order_id) in
      let sb := add_estimate sb (str_len account) in
      let sb := add_opt_str sb client_order_id in
      add_opt_str sb orig_client_order_id
  | MassCancel scope _ account =>
      let sb := match scope with
                | ScopeBook symbol => add_estimate string_bytes (str_len symbol)
                | ScopeUnderlying | ScopeExpiration _ | ScopeStrike _ _ => string_bytes
                end in
      add_estimate sb (str_len account)
  | SetInstrumentStatus symbol _ => add_estimate string_bytes (str_len symbol)
  | SimStep _ underlying _ _ _ => add_estimate string_bytes (str_len underlying)
  | EvictExpiredOrders _ | Clock _ => string_bytes
  | MarketMakerControl _ _ _ _ => string_bytes
  end.

Fixpoint accumulate_fills_estimate (fills : list Fill) (sb el : option Z) :
    option Z * option Z :=
  match fills with
  | [] => (sb, el)
  | fill :: fills =>
      let el := add_estimate el 1 in
      let sb := add_estimate sb (str_len (fill_execution_id fill)) in
      let sb := add_estimate sb (str_len (fill_order_id fill)) in
      let sb := add_estimate sb (str_len (fill_account fill)) in
      accumulate_fills_estimate fills sb el
  end.

Fixpoint accumulate_legs_estimate (legs : list CancelledLeg) (sb el : option Z) :
    option Z * option Z :=
  match legs with
  | [] => (sb, el)
  | leg :: legs =>
      let el := add_estimate el 1 in
      let sb := add_estimate sb (str_len (leg_order_id leg)) in
      let sb := add_estimate sb (str_len (leg_symbol leg)) in
      accumulate_legs_estimate legs sb el
  end.

Fixpoint accumulate_ids_estimate (ids : list VenueOrderId) (sb el : option Z) :
    option Z * option Z :=
  match ids with
  | [] => (sb, el)
  | order_id :: ids =>
      let el := add_estimate el 1 in
      let sb := add_estimate sb (str_len order_id) in
      accumulate_ids_estimate ids sb el
  end.

Definition accumulate_add_outcome_estimate (add : AddOutcome) (sb el : option Z) :
    option Z * option Z :=
  match add with
  | AddFilled fills stp | AddRested fills _ stp =>
      let '(sb, el) := accumulate_fills_estimate fills sb el in
      accumulate_legs_estimate stp sb el
  | AddRejected _ reason => (add_estimate sb (str_len reason), el)
  end.

Fixpoint accumulate_outcome_estimate (outcome : VenueOutcome) (sb el : option Z) :
    option Z * option Z :=
  match outcome with
  | Added fills _ stp | MarketDone fills _ stp =>
      let '(sb, el) := accumulate_fills_estimate fills sb el in
      accumulate_legs_estimate stp sb el
  | Cancelled order_id => (add_estimate sb (str_len order_id), el)
  | Replaced _ add => accumulate_add_outcome_estimate add sb el
  | MassCancelled affected => accumulate_legs_estimate affected sb el
  | InstrumentStatusChanged symbol _ => (add_estimate sb (str_len symbol), el)
  | Evicted evicted => accumulate_ids_estimate evicted sb el
  | ControlApplied swept => accumulate_legs_estimate swept sb el
  | Rejected _ reason => (add_estimate sb (str_len reason), el)
  | Duplicate original_order_id _ terminal =>
      accumulate_outcome_estimate terminal (add_estimate sb (str_len original_order_id)) el
  end.

Definition estimated_max_serialized_len (r : JournalRecord) : option Z :=
  let '(string_bytes, elements) :=
    match r with
    | RCommand c => (accumulate_command_estimate (jc_command c) (Some 0), Some 0)
    | REvent e =>
        let sb := add_estimate (Some 0) (str_len (ev_schema e)) in
        let sb := accumulate_command_estimate (ev_command e) sb in
        accumulate_outcome_estimate (ev_outcome e) sb (Some 0)
    | REpoch m =>
        let sb := add_estimate (Some 0) (str_len (sr_schema m)) in
        let sb := add_estimate sb (str_len (sr_snapshot_id m)) in
        (add_estimate sb (str_len (sr_lineage_id m)), Some 0)
    end in
  sb ← string_bytes;
  string_contribution ← checked_mul usize sb JSON_STRING_ESCAPE_FACTOR;
  el ← elements;
  element_contribution ← checked_mul usize el PER_ELEMENT_ESTIMATE_BYTES;
  base ← checked_add usize RECORD_ESTIMATE_BASE_BYTES string_contribution;
  checked_add usize base element_contribution.

(** serde_json: the length in bytes of a record's JSON, [None] when it does not
    serialise, and the decoder. *)
Class Serde := {
  json_len : JournalRecord → option Z;
  json_decode : string → option JournalRecord;
}.

Definition decode_journal_record `{Serde} (payload : string) : result JournalError JournalRecord :=
  if MAX_JOURNAL_RECORD_BYTES <? str_len payload
  then Err (ResourceLimit "record_bytes" (str_len payload) MAX_JOURNAL_RECORD_BYTES)
  else ok_or (Backend "journal record decode") (json_decode payload).

Definition check_record_size `{Serde} (r : JournalRecord) : result JournalError unit :=
  if match estimated_max_serialized_len r with
     | Some estimate => estimate <=? MAX_JOURNAL_RECORD_BYTES
     | None => false
     end
  then Ok tt
  else
    match json_len r with
    | None => Err (Backend "journal record size check")
    | Some bytes =>
        if MAX_JOURNAL_RECORD_BYTES <? bytes
        then Err (ResourceLimit "record_bytes" bytes MAX_JOURNAL_RECORD_BYTES)
        else Ok tt
    end.

(** ** The journal interface *)

Class VenueJournal (J : Type) := {
  journal_header : J → JournalHeader;
  journal_append : J → JournalRecord → J * result JournalError unit;
  journal_read_from : J → SequenceNumber → result JournalError (list JournalRecord);
  journal_last_sequence : J → option SequenceNumber;
}.

(** The trait's provided method. *)
Definition journal_contains `{VenueJournal J} (j : J) (sequence : SequenceNumber)
    (kind : RecordKind) : bool :=
  match journal_read_from j sequence with
  | Ok records =>
      existsb (λ r, (record_sequence r =? sequence) && bool_decide (record_kind r = kind)) records
  | Err _ => false
  end.

(** What a journal promises the actor: reading returns the stored records, a
    successful append stores the record (or found it there), a confirmed failure
    stores nothing, and only an ambiguous one may have done either. *)
Class VenueJournalLaws (J : Type) `{VenueJournal J} := {
  journal_records : J → list JournalRecord;
  append_header j r : journal_header (journal_append j r).1 = journal_header j;
  append_ok j r : (journal_append j r).2 = Ok tt →
    journal_records (journal_append j r).1 = journal_records j ++ [r] ∨
    (journal_records (journal_append j r).1 = journal_records j ∧
     ∃ r', r' ∈ journal_records j ∧ record_sequence r' = record_sequence r
           ∧ record_kind r' = record_kind r);
  append_err j r e : (journal_append j r).2 = Err e →
    journal_records (journal_append j r).1 = journal_records j ∨
    (∃ why, e = Ambiguous why) ∧
    journal_records (journal_append j r).1 = journal_records j ++ [r];
  read_from_ok j s l : journal_read_from j s = Ok l →
    l = filter (λ r, s ≤ record_sequence r) (journal_records j);
}.

(** ** The in-memory journal *)

Record InMemoryVenueJournal := {
  im_header : JournalHeader;
  im_records : list JournalRecord;
  im_index : gmap (SequenceNumber * RecordKind) nat;
}.

Definition InMemoryVenueJournal_new (header : JournalHeader) : InMemoryVenueJournal :=
  {| im_header := header; im_records := []; im_index := ∅ |}.

Definition im_append `{Serde} (j : InMemoryVenueJournal) (r : JournalRecord) :
    InMemoryVenueJournal * result JournalError unit :=
  match check_record_size r with
  | Err e => (j, Err e)
  | Ok _ =>
      let sequence := record_sequence r in
      let kind := record_kind r in
      match im_index j !! (sequence, kind) with
      | Some existing_idx =>
          if match im_records j !! existing_idx with
             | Some existing => record_eqb existing r
             | None => false
             end
          then (j, Ok tt)
          else (j, Err (Conflict sequence kind))
      | None =>
          let idx := length (im_records j) in
          ({| im_header := im_header j; im_records := im_records j ++ [r];
              im_index := <[(sequence, kind) := idx]> (im_index j) |}, Ok tt)
      end
  end.

Definition im_read_from (j : InMemoryVenueJournal) (from : SequenceNumber) :
    result JournalError (list JournalRecord) :=
  Ok (filter (λ r, from ≤ record_sequence r) (im_records j)).

(** [Iterator::max] over the record sequences. *)
Definition max_sequence (l : list JournalRecord) : option SequenceNumber :=
  match l with
  | [] => None
  | r :: l => Some (foldl (λ m r, Z.max m (record_sequence r)) (record_sequence r) l)
  end.

Definition im_last_sequence (j : InMemoryVenueJournal) : option SequenceNumber :=
  max_sequence (im_records j).

#[export] Instance InMemoryVenueJournal_journal `{Serde} : VenueJournal InMemoryVenueJournal := {
  journal_header := im_header;
  journal_append := im_append;
  journal_read_from := im_read_from;
  journal_last_sequence := im_last_sequence;
}.

(** * Theorems *)

Definition record_key (r : JournalRecord) : SequenceNumber * RecordKind :=
  (record_sequence r, record_kind r).

Lemma record_eqb_key a b : record_eqb a b = true → record_key a = record_key b.
Proof.
  destruct a as [a|a|a], b as [b|b|b]; cbn; try done.
  - rewrite !andb_true_iff, !Z.eqb_eq. intros [[E _] _]. unfold record_key; cbn. by rewrite E.
  - unfold event_eqb. rewrite !andb_true_iff, !Z.eqb_eq. intros [[[[_ E] _] _] _].
    unfold record_key; cbn. by rewrite E.
  - rewrite bool_decide_eq_true. by intros ->.
Qed.

(** *** The index agrees with the records *)

(** The index maps a key to exactly the position of the one record with it. *)
Definition im_wf (j : InMemoryVenueJournal) : Prop :=
  ∀ k i, im_index j !! k = Some i ↔ ∃ r, im_records j !! i = Some r ∧ record_key r = k.

Lemma im_wf_new h : im_wf (InMemoryVenueJournal_new h).
Proof. intros k i. cbn. rewrite lookup_empty. naive_solver. Qed.

Section in_memory.
Context `{Serde}.

Lemma im_append_wf j r : im_wf j → im_wf (im_append j r).1.
Proof.
  intros Hwf. unfold im_append. destruct (check_record_size r); [|done].
  destruct (im_index j !! _) as [i|] eqn:Hi; [by case_match|].
  intros k i. cbn [fst im_index im_records]. rewrite lookup_insert. setoid_rewrite lookup_snoc_Some.
  case_decide as Hk.
  - subst k. split.
    + intros [= <-]. exists r. split; [by right|done].
    + intros (r' & [[_ Hr']|[-> _]] & Hkey); [|done].
      assert (im_index j !! record_key r' = Some i) as Hidx by (apply Hwf; eauto).
      rewrite Hkey in Hidx. congruence.
  - rewrite (Hwf k i). split; intros (r' & Hr' & Hkey); exists r'; (split; [|done]).
    + left. split; [|done]. by eapply lookup_lt_Some.
    + destruct Hr' as [[_ Hr']|[-> <-]]; [done|]. by destruct Hk.
Qed.

Lemma im_wf_NoDup j : im_wf j → NoDup (record_key <$> im_records j).
Proof.
  intros Hwf. apply NoDup_alt. intros i1 i2 k H1 H2.
  apply list_lookup_fmap_Some in H1 as (r1 & -> & H1), H2 as (r2 & Hk & H2).
  assert (im_index j !! record_key r1 = Some i1) by (apply Hwf; eauto).
  assert (im_index j !! record_key r1 = Some i2) by (apply Hwf; eauto).
  congruence.
Qed.

(** A key that is not indexed is appended, when the record is small enough. *)
Lemma im_append_fresh j r :
  check_record_size r = Ok tt → im_index j !! record_key r = None →
  im_append j r =
    ({| im_header := im_header j; im_records := im_records j ++ [r];
        im_index := <[record_key r := length (im_records j)]> (im_index j) |}, Ok tt).
Proof. intros Hs Hi. unfold im_append, record_key in *. by rewrite Hs, Hi. Qed.

Lemma im_index_None j k : im_wf j →
  im_index j !! k = None ↔ k ∉ record_key <$> im_records j.
Proof.
  intros Hwf. split.
  - intros Hk (r & -> & Hr)%list_elem_of_fmap.
    apply list_elem_of_lookup in Hr as [i Hr].
    assert (im_index j !! record_key r = Some i) by (apply Hwf; eauto). congruence.
  - intros Hk. apply eq_None_not_Some. intros [i (r & Hr & <-)%Hwf]. apply Hk.
    apply list_elem_of_fmap. exists r. split; [done|]. by eapply list_elem_of_lookup_2.
Qed.

(** The in-memory journal keeps the interface's promises. *)
#[export] Instance InMemoryVenueJournal_laws : VenueJournalLaws InMemoryVenueJournal.
Proof.
  refine {| journal_records := im_records |}.
  - intros j r. cbn. unfold im_append. repeat case_match; done.
  - intros j r. cbn. unfold im_append. destruct (check_record_size r); cbn; [|done].
    destruct (im_index j !! _) as [i|]; [|by left].
    destruct (im_records j !! i) as [r'|] eqn:E; [|done].
    destruct (record_eqb r' r) eqn:Hr; [|done]. intros _. right. split; [done|].
    exists r'. apply record_eqb_key in Hr. unfold record_key in Hr.
    split; [by eapply list_elem_of_lookup_2|]. naive_solver.
  - intros j r e. cbn. unfold im_append. destruct (check_record_size r); cbn; [|by left].
    destruct (im_index j !! _) as [i|]; [|done]. case_match; [done|by left].
  - intros j s l [= <-]. done.
Defined.

(** ** Idempotent append

    For a record free of NaN knobs: once an append succeeded, appending the
    same record again succeeds and changes nothing, and appending a different
    record with the same sequence and kind is refused as a conflict and
    changes nothing; a refused append never changes the journal. *)
Definition record_no_nan (r : JournalRecord) : Prop :=
  match r with
  | RCommand c => no_nan (jc_command c) | REvent e => no_nan (ev_command e) | REpoch _ => True
  end.

Lemma record_eqb_refl r : record_no_nan r → record_eqb r r = true.
Proof.
  destruct r; cbn; intros Hn.
  - by rewrite !Z.eqb_refl, command_eqb_refl.
  - by apply event_eqb_refl.
  - by apply bool_decide_eq_true_2.
Qed.

Lemma im_append_err_unchanged j r e : (im_append j r).2 = Err e → (im_append j r).1 = j.
Proof. unfold im_append. repeat case_match; done. Qed.

Lemma im_append_ok_stored j r :
  im_wf j → record_no_nan r → (im_append j r).2 = Ok tt →
  ∃ i r', im_records (im_append j r).1 !! i = Some r' ∧ record_eqb r' r = true
          ∧ im_index (im_append j r).1 !! record_key r = Some i.
Proof.
  intros Hwf Hn. unfold im_append. destruct (check_record_size r); [|done].
  destruct (im_index j !! _) as [i|] eqn:Hi.
  - destruct (im_records j !! i) as [r'|] eqn:Hr; [|done].
    destruct (record_eqb r' r) eqn:E; [|done]. intros _. by exists i, r'.
  - intros _. exists (length (im_records j)), r. cbn. split_and!.
    + by rewrite lookup_app_r, Nat.sub_diag by done.
    + by apply record_eqb_refl.
    + by rewrite lookup_insert_eq.
Qed.
End in_memory.
