(* ===== verification/ClOrdIdIndex.v ===== *)
(** The cross-session client-order-id index
    ([src/src/exchange/clordid_index.rs]): an account-scoped map from client
    order id to the order it placed, bounded in total and per account, and the
    post-commit publication rule the live actor and recovery share.  The mutex
    is the value itself: every operation is one critical section. *)

From S2P Require Export Envelope.

Definition DEFAULT_MAX_CLORDID_INDEX_ENTRIES : Z := 1_000_000.
Definition DEFAULT_MAX_CLORDID_PER_ACCOUNT : Z := 65_536.

Record ClOrdIdRecord := {
  cr_order_id : VenueOrderId;
  cr_symbol : Symbol;
  cr_side : Side;
  cr_quantity : Z;
  cr_sequence : SequenceNumber;
}.

Inductive ClOrdIdIndexError :=
  | Full (max : Z)
  | AccountFull (max : Z).

Record ClOrdIdIndex := {
  ci_map : gmap (AccountId * ClientOrderId) ClOrdIdRecord;
  ci_per_account : gmap AccountId Z;
  ci_max_entries : Z;
  ci_max_per_account : Z;
}.

Definition with_ceilings (max_entries max_per_account : Z) : ClOrdIdIndex :=
  {| ci_map := ∅; ci_per_account := ∅; ci_max_entries := max_entries;
     ci_max_per_account := Z.min max_per_account max_entries |}.

Definition ClOrdIdIndex_new (max_entries : Z) : ClOrdIdIndex :=
  with_ceilings max_entries max_entries.

Definition with_default_ceiling : ClOrdIdIndex :=
  with_ceilings DEFAULT_MAX_CLORDID_INDEX_ENTRIES DEFAULT_MAX_CLORDID_PER_ACCOUNT.

Definition ci_len (x : ClOrdIdIndex) : Z := Z.of_nat (size (ci_map x)).

(** The per-account counter, zero when absent. *)
Definition account_count (x : ClOrdIdIndex) (a : AccountId) : Z :=
  default 0 (ci_per_account x !! a).

Definition set_maps (x : ClOrdIdIndex) m p : ClOrdIdIndex :=
  {| ci_map := m; ci_per_account := p; ci_max_entries := ci_max_entries x;
     ci_max_per_account := ci_max_per_account x |}.

Definition ci_record (x : ClOrdIdIndex) (account : AccountId) (cl_ord_id : ClientOrderId)
    (record : ClOrdIdRecord) : ClOrdIdIndex * result ClOrdIdIndexError unit :=
  let key := (account, cl_ord_id) in
  match ci_map x !! key with
  | Some _ => (set_maps x (<[key := record]> (ci_map x)) (ci_per_account x), Ok tt)
  | None =>
      if ci_max_entries x <=? ci_len x then (x, Err (Full (ci_max_entries x)))
      else
        let count := account_count x account in
        if ci_max_per_account x <=? count then (x, Err (AccountFull (ci_max_per_account x)))
        else
          match checked_add usize count 1 with
          | None => (x, Err (AccountFull (ci_max_per_account x)))
          | Some next =>
              (set_maps x (<[key := record]> (ci_map x))
                 (<[account := next]> (ci_per_account x)), Ok tt)
          end
  end.

Definition retire (x : ClOrdIdIndex) (account : AccountId) (cl_ord_id : ClientOrderId) :
    ClOrdIdIndex :=
  let key := (account, cl_ord_id) in
  match ci_map x !! key with
  | None => x
  | Some _ =>
      let map := delete key (ci_map x) in
      match ci_per_account x !! account with
      | None => set_maps x map (ci_per_account x)
      | Some count =>
          let count := saturating_sub usize count 1 in
          set_maps x map
            (if count =? 0 then delete account (ci_per_account x)
             else <[account := count]> (ci_per_account x))
      end
  end.

Definition resolve (x : ClOrdIdIndex) (account : AccountId) (cl_ord_id : ClientOrderId) :
    option ClOrdIdRecord :=
  ci_map x !! (account, cl_ord_id).

Definition record_or_warn (x : ClOrdIdIndex) (account : AccountId) (cl_ord_id : ClientOrderId)
    (record : ClOrdIdRecord) : ClOrdIdIndex :=
  (ci_record x account cl_ord_id record).1.

Definition is_add_rejected (add : AddOutcome) : bool :=
  match add with AddRejected _ _ => true | _ => false end.

Definition apply_committed_correlation (index : ClOrdIdIndex) (sequence : SequenceNumber)
    (command : VenueCommand) (outcome : VenueOutcome) : ClOrdIdIndex :=
  match command, outcome with
  | AddOrder symbol order_id account _ (Some cl_ord_id) side _ _ quantity _ _,
    (Added _ _ _ | MarketDone _ _ _) =>
      record_or_warn index account cl_ord_id
        {| cr_order_id := order_id; cr_symbol := symbol; cr_side := side;
           cr_quantity := quantity; cr_sequence := sequence |}
  | Replace symbol _ new_order_id account client_order_id orig_client_order_id side _ quantity
      _ _, Replaced cancelled add =>
      let index :=
        match cancelled, orig_client_order_id with
        | true, Some orig => retire index account orig
        | _, _ => index
        end in
      match is_add_rejected add, client_order_id with
      | false, Some new_cl_ord_id =>
          record_or_warn index account new_cl_ord_id
            {| cr_order_id := new_order_id; cr_symbol := symbol; cr_side := side;
               cr_quantity := quantity; cr_sequence := sequence |}
      | _, _ => index
      end
  | _, _ => index
  end.

(** * Theorems *)

(** ** The counters count *)

Definition account_entries (m : gmap (AccountId * ClientOrderId) ClOrdIdRecord)
    (a : AccountId) : Z :=
  Z.of_nat (size (filter (λ kv, kv.1.1 = a) m)).

(** The invariant: a per-account counter is the number of that account's
    entries and is absent when there is none, and both ceilings hold. *)
Record index_wf (x : ClOrdIdIndex) : Prop := {
  wf_count a : account_count x a = account_entries (ci_map x) a;
  wf_absent a : ci_per_account x !! a ≠ Some 0;
  wf_total : ci_len x ≤ ci_max_entries x;
  wf_account a : account_entries (ci_map x) a ≤ ci_max_per_account x;
  wf_nonneg : 0 ≤ ci_max_per_account x;
}.

Lemma account_entries_le m a : account_entries m a ≤ Z.of_nat (size m).
Proof. unfold account_entries. pose proof (map_size_filter (λ kv, kv.1.1 = a) m). lia. Qed.

Lemma account_entries_insert_new m a c r b :
  m !! (a, c) = None →
  account_entries (<[(a, c) := r]> m) b =
    account_entries m b + (if decide (a = b) then 1 else 0).
Proof.
  intros Hm. unfold account_entries. rewrite map_filter_size_insert by done. cbn.
  destruct (decide (a = b)); lia.
Qed.

Lemma account_entries_delete m a c r b :
  m !! (a, c) = Some r →
  account_entries m b = account_entries (delete (a, c) m) b + (if decide (a = b) then 1 else 0).
Proof.
  intros Hm. unfold account_entries.
  rewrite (map_filter_size_delete (λ kv, kv.1.1 = b) m _ r) by done. cbn.
  destruct (decide (a = b)); lia.
Qed.

Lemma account_entries_overwrite m a c r r' b :
  m !! (a, c) = Some r → account_entries (<[(a, c) := r']> m) b = account_entries m b.
Proof.
  intros Hm. rewrite <-insert_delete_eq.
  rewrite account_entries_insert_new by apply lookup_delete_eq.
  by rewrite (account_entries_delete m a c r).
Qed.

Lemma account_entries_empty a : account_entries ∅ a = 0.
Proof. unfold account_entries. by rewrite map_filter_empty. Qed.

Lemma index_wf_new max_entries max_per_account :
  0 ≤ max_entries → 0 ≤ max_per_account → index_wf (with_ceilings max_entries max_per_account).
Proof.
  intros. split; cbn; intros; rewrite ?account_entries_empty; unfold ci_len; cbn;
    rewrite ?map_size_empty; try lia; done.
Qed.

Lemma ci_record_wf x a c r : index_wf x → index_wf (ci_record x a c r).1.
Proof.
  intros [Hc Ha Ht Hacc Hn]. unfold ci_record.
  destruct (ci_map x !! (a, c)) as [r0|] eqn:Hm.
  { split; unfold account_count, ci_len in *; cbn; intros;
      rewrite ?(account_entries_overwrite _ a c r0), ?map_size_insert_Some by done; auto. }
  destruct (ci_max_entries x <=? ci_len x) eqn:Hfull; [by split|].
  destruct (ci_max_per_account x <=? account_count x a) eqn:Hacf; [by split|].
  destruct (checked_add usize (account_count x a) 1) as [n|] eqn:Hn1; [|by split].
  simp_narrow. apply Z.leb_gt in Hfull, Hacf. pose proof (Hc a) as Hca.
  assert (0 ≤ account_entries (ci_map x) a) by (unfold account_entries; lia).
  split; cbn; [| | | |done].
  - intros b. unfold account_count; cbn. rewrite account_entries_insert_new by done.
    rewrite lookup_insert. specialize (Hc b). unfold account_count in Hc, Hca |- *.
    destruct (decide (a = b)) as [<-|]; cbn; lia.
  - intros b. rewrite lookup_insert. destruct (decide (a = b)); [|apply Ha].
    intros [= ?]. lia.
  - unfold ci_len in *; cbn. rewrite map_size_insert_None by done. lia.
  - intros b. rewrite account_entries_insert_new by done. specialize (Hacc b).
    destruct (decide (a = b)) as [<-|]; lia.
Qed.

Lemma retire_wf x a c : index_wf x → index_wf (retire x a c).
Proof.
  intros [Hc Ha Ht Hacc Hn]. unfold retire.
  destruct (ci_map x !! (a, c)) as [r|] eqn:Hm; [|by split].
  pose proof (λ b, account_entries_delete _ a c r b Hm) as Hd.
  assert (∀ b, 0 ≤ account_entries (delete (a, c) (ci_map x)) b)
    by (intros; unfold account_entries; lia).
  assert (Z.of_nat (size (delete (a, c) (ci_map x))) ≤ Z.of_nat (size (ci_map x))).
  { rewrite map_size_delete, Hm. lia. }
  assert (1 ≤ account_entries (ci_map x) a).
  { rewrite Hd, decide_True by done. specialize (H a). lia. }
  destruct (ci_per_account x !! a) as [n|] eqn:Hp.
  2: { specialize (Hc a). unfold account_count in Hc. rewrite Hp in Hc. cbn in Hc. lia. }
  pose proof (Hc a) as Hca. unfold account_count in Hca. rewrite Hp in Hca. cbn in Hca.
  assert (saturating_sub usize n 1 = n - 1) as -> by (unfold saturating_sub; unfold_int; lia).
  unfold ci_len in Ht.
  assert (∀ b, account_entries (delete (a, c) (ci_map x)) b ≤ ci_max_per_account x) as Hle.
  { intros b. specialize (Hacc b). specialize (Hd b). destruct (decide (a = b)); lia. }
  destruct (n - 1 =? 0) eqn:E.
  - apply Z.eqb_eq in E. split; cbn; unfold ci_len; cbn; [| |lia|done|done]; intros b.
    + unfold account_count; cbn. rewrite lookup_delete. specialize (Hc b). specialize (Hd b).
      unfold account_count in Hc. destruct (decide (a = b)) as [<-|]; cbn; lia.
    + rewrite lookup_delete. destruct (decide (a = b)); [done|apply Ha].
  - apply Z.eqb_neq in E. split; cbn; unfold ci_len; cbn; [| |lia|done|done]; intros b.
    + unfold account_count; cbn. rewrite lookup_insert. specialize (Hc b). specialize (Hd b).
      unfold account_count in Hc. destruct (decide (a = b)) as [<-|]; cbn; lia.
    + rewrite lookup_insert. destruct (decide (a = b)); [|apply Ha]. intros [= ?]. lia.
Qed.

Lemma apply_correlation_wf x s c o :
  index_wf x → index_wf (apply_committed_correlation x s c o).
Proof.
  intros Hx. unfold apply_committed_correlation, record_or_warn.
  repeat case_match; auto using ci_record_wf, retire_wf.
Qed.

(** Only the account a command names is touched: another account resolves as
    before. *)
Definition command_account (c : VenueCommand) : option AccountId :=
  match c with
  | AddOrder _ _ a _ _ _ _ _ _ _ _ | CancelOrder _ _ a | Replace _ _ _ a _ _ _ _ _ _ _
  | MassCancel _ _ a => Some a
  | _ => None
  end.

Lemma ci_record_other x a c r b d :
  a ≠ b → resolve (ci_record x a c r).1 b d = resolve x b d.
Proof.
  intros Hab. assert ((a, c) ≠ (b, d)) by congruence. unfold ci_record, resolve.
  repeat case_match; cbn; by rewrite ?lookup_insert_ne.
Qed.

Lemma retire_other x a c b d : a ≠ b → resolve (retire x a c) b d = resolve x b d.
Proof.
  intros Hab. assert ((a, c) ≠ (b, d)) by congruence. unfold retire, resolve.
  repeat case_match; cbn; by rewrite ?lookup_delete_ne.
Qed.

Lemma apply_correlation_other x s c o b d :
  command_account c ≠ Some b → resolve (apply_committed_correlation x s c o) b d = resolve x b d.
Proof.
  intros Hc. destruct c; cbn in *; try done.
  - assert (account ≠ b) by congruence. unfold record_or_warn.
    repeat case_match; try done; by apply ci_record_other.
  - assert (account ≠ b) by congruence. unfold record_or_warn.
    repeat case_match; try done; rewrite ?ci_record_other, ?retire_other by done; done.
Qed.

(** The index the venue serves after a stream of committed commands. *)
Definition apply_committed (x : ClOrdIdIndex)
    (log : list (SequenceNumber * VenueCommand * VenueOutcome)) : ClOrdIdIndex :=
  foldl (λ x '(s, c, o), apply_committed_correlation x s c o) x log.
