(* ===== verification/Microstructure.v ===== *)
(** Declarative microstructure ([src/src/microstructure/]): contract specs
    ([specs.rs]), fees ([fees.rs]), self-trade prevention ([stp.rs]), the latency
    knobs' validation ([latency.rs]), their resolution into one validated
    configuration and the order-entry admission it gates ([config.rs]), and its
    application to an underlying's book ([apply.rs]). *)

From S2P Require Export Envelope.

(** ** Errors ([error.rs]) *)

Inductive LatencyConfigError :=
  | MissingParam (model param : string)
  | NegativeMicros (param : string) (value : Z)
  | SigmaNotFinite (value : f64)
  | SigmaNegative (value : f64)
  | MinExceedsMax (min_us max_us : Z).

Inductive MicrostructureConfigError :=
  | TakerFeeNegative (taker_bps : Z)
  | SpecKnobZero (field : string)
  | MaxPriceBelowMin (min max : Z)
  | SpecKnobAboveDbDomain (field : string) (value ceiling : Z)
  | FeeBoundUnprovable (max_notional guaranteed_bound maker_bps taker_bps : Z)
  | FeePersistOverflow (fee_magnitude max_notional max_abs_bps : Z)
  | ProofArithmeticOverflow
  | ContractSpecsRejected (reason : string)
  | LatencyError (e : LatencyConfigError).

Inductive PriceBoundError :=
  | AboveMax (price max : Z)
  | BelowMin (price min : Z).

Inductive OrderAdmissionError :=
  | PriceBand (e : PriceBoundError)
  | OffTick (price tick : Z)
  | OffLot (quantity lot : Z)
  | AboveMaxQty (quantity max : Z).

(** The [Display] of an admission error. *)
Definition price_bound_display (e : PriceBoundError) : string :=
  match e with
  | AboveMax price max =>
      "price " +:+ dec price +:+ " cents exceeds the venue max_price_cents cap of " +:+ dec max
  | BelowMin price min =>
      "price " +:+ dec price +:+ " cents is below the venue min_price_cents floor of " +:+ dec min
  end.

Definition admission_display (e : OrderAdmissionError) : string :=
  match e with
  | PriceBand e => price_bound_display e
  | OffTick price tick =>
      "price " +:+ dec price +:+ " cents is off the " +:+ dec tick +:+
      "-cent tick for this instrument"
  | OffLot quantity lot =>
      "quantity " +:+ dec quantity +:+ " is not a multiple of the " +:+ dec lot +:+
      "-contract lot for this instrument"
  | AboveMaxQty quantity max =>
      "quantity " +:+ dec quantity +:+ " exceeds the max order quantity " +:+ dec max +:+
      " for this instrument"
  end.

(** ** Contract specs *)

Record ResolvedContractSpecs := {
  tick_size_cents : Z;
  lot_size : Z;
  min_price_cents : Z;
  max_price_cents : Z;
  max_order_qty : Z;
}.

Record ContractSpecsConfig := {
  cfg_tick_size_cents : option Z;
  cfg_lot_size : option Z;
  cfg_min_price_cents : option Z;
  cfg_max_price_cents : option Z;
  cfg_max_order_qty : option Z;
}.

Definition default_specs_config : ContractSpecsConfig :=
  {| cfg_tick_size_cents := None; cfg_lot_size := None; cfg_min_price_cents := None;
     cfg_max_price_cents := None; cfg_max_order_qty := None |}.

Definition baseline : ResolvedContractSpecs :=
  {| tick_size_cents := 1; lot_size := 1; min_price_cents := 1;
     max_price_cents := 100_000_000; max_order_qty := 1_000_000 |}.

Definition DB_DOMAIN_CEILING : Z := int_max i64.

Fixpoint first_zero (knobs : list (string * Z)) : result MicrostructureConfigError unit :=
  match knobs with
  | [] => Ok tt
  | (field, value) :: knobs => if value =? 0 then Err (SpecKnobZero field) else first_zero knobs
  end.

Fixpoint first_above_db (knobs : list (string * Z)) : result MicrostructureConfigError unit :=
  match knobs with
  | [] => Ok tt
  | (field, value) :: knobs =>
      if DB_DOMAIN_CEILING <? value
      then Err (SpecKnobAboveDbDomain field value DB_DOMAIN_CEILING)
      else first_above_db knobs
  end.

Definition specs_validate (s : ResolvedContractSpecs) : result MicrostructureConfigError unit :=
  _ ← first_zero [("tick_size_cents", tick_size_cents s); ("lot_size", lot_size s);
                  ("min_price_cents", min_price_cents s); ("max_order_qty", max_order_qty s)];
  _ ← first_above_db [("max_price_cents", max_price_cents s);
                      ("max_order_qty", max_order_qty s)];
  if max_price_cents s <? min_price_cents s
  then Err (MaxPriceBelowMin (min_price_cents s) (max_price_cents s))
  else Ok tt.

Definition resolve_over (c : ContractSpecsConfig) (d : ResolvedContractSpecs) :
    result MicrostructureConfigError ResolvedContractSpecs :=
  let resolved :=
    {| tick_size_cents := default (tick_size_cents d) (cfg_tick_size_cents c);
       lot_size := default (lot_size d) (cfg_lot_size c);
       min_price_cents := default (min_price_cents d) (cfg_min_price_cents c);
       max_price_cents := default (max_price_cents d) (cfg_max_price_cents c);
       max_order_qty := default (max_order_qty d) (cfg_max_order_qty c) |} in
  _ ← specs_validate resolved;
  Ok resolved.

Definition max_notional (s : ResolvedContractSpecs) : result MicrostructureConfigError Z :=
  ok_or ProofArithmeticOverflow (checked_mul u128 (max_price_cents s) (max_order_qty s)).

Record PriceBounds := { pb_min : Cents; pb_max : Cents }.

Definition price_bounds (s : ResolvedContractSpecs) : PriceBounds :=
  {| pb_min := min_price_cents s; pb_max := max_price_cents s |}.

Definition bounds_admit (b : PriceBounds) (price : Cents) : result PriceBoundError unit :=
  if price <? pb_min b then Err (BelowMin price (pb_min b))
  else if pb_max b <? price then Err (AboveMax price (pb_max b))
  else Ok tt.

Definition admit_order (s : ResolvedContractSpecs) (limit_price : option Cents) (quantity : Z) :
    result OrderAdmissionError unit :=
  _ ← match limit_price with
      | Some price =>
          _ ← map_err PriceBand (bounds_admit (price_bounds s) price);
          if negb (tick_size_cents s =? 0) && negb (is_multiple_of price (tick_size_cents s))
          then Err (OffTick price (tick_size_cents s))
          else Ok tt
      | None => Ok tt
      end;
  if negb (lot_size s =? 0) && negb (is_multiple_of quantity (lot_size s))
  then Err (OffLot quantity (lot_size s))
  else if max_order_qty s <? quantity then Err (AboveMaxQty quantity (max_order_qty s))
  else Ok tt.

(** ** Fees *)

Definition BPS_DENOMINATOR : Z := 10_000.

Record FeeConfig := { maker_bps : Z; taker_bps : Z }.

Definition to_fee_schedule (f : FeeConfig) : FeeSchedule :=
  {| fs_maker_bps := maker_bps f; fs_taker_bps := taker_bps f |}.

Definition max_abs_bps (f : FeeConfig) : Z := Z.max (Z.abs (maker_bps f)) (Z.abs (taker_bps f)).

Definition fees_validate (f : FeeConfig) : result MicrostructureConfigError unit :=
  if taker_bps f <? 0 then Err (TakerFeeNegative (taker_bps f)) else Ok tt.

Definition validate_notional_bound `{Upstream} (f : FeeConfig) (max_notional : Z) :
    result MicrostructureConfigError unit :=
  let guaranteed_bound := max_guaranteed_exact_notional (to_fee_schedule f) in
  if guaranteed_bound <? max_notional
  then Err (FeeBoundUnprovable max_notional guaranteed_bound (maker_bps f) (taker_bps f))
  else
    let max_abs_bps := max_abs_bps f in
    product ← ok_or ProofArithmeticOverflow (checked_mul u128 max_notional max_abs_bps);
    let fee_magnitude := product / BPS_DENOMINATOR in
    if int_max i64 <? fee_magnitude
    then Err (FeePersistOverflow fee_magnitude max_notional max_abs_bps)
    else Ok tt.

(** ** Self-trade prevention *)

Inductive StpMode := StpOff | CfgCancelTaker | CfgCancelMaker | CfgCancelBoth.

Definition to_stp_mode (m : StpMode) : STPMode :=
  match m with
  | StpOff => StpNone | CfgCancelTaker => StpCancelTaker
  | CfgCancelMaker => StpCancelMaker | CfgCancelBoth => StpCancelBoth
  end.

(** ** Latency knobs *)

Inductive LatencyModel := ModelFixed | ModelUniform | ModelNormal | ModelLognormal.

Definition model_token (m : LatencyModel) : string :=
  match m with
  | ModelFixed => "fixed" | ModelUniform => "uniform" | ModelNormal => "normal"
  | ModelLognormal => "lognormal"
  end.

Record FileLatency := {
  fl_model : LatencyModel;
  fl_us : option Z;
  fl_min_us : option Z;
  fl_max_us : option Z;
  fl_mean_us : option Z;
  fl_median_us : option Z;
  fl_sigma : option f64;
}.

Inductive LatencyConfig :=
  | LatDisabled
  | LatFixed (us : Z)
  | LatUniform (min_us max_us : Z)
  | LatNormal (mean_us : Z) (sigma : f64)
  | LatLognormal (median_us : Z) (sigma : f64).

Definition f64_is_finite (x : f64) : bool := f64_magnitude x <? 0x7FF0000000000000.
(** [x < 0.0] for a finite [x]: minus zero is not below zero. *)
Definition f64_ltb (a b : f64) : bool :=
  negb (f64_is_nan a) && negb (f64_is_nan b) && (f64_ord a <? f64_ord b).

Definition check_micros (param : string) (value : Z) : result LatencyConfigError Z :=
  ok_or (NegativeMicros param value) (narrow u64 value).

Definition require_param {A} (l : FileLatency) (param : string) (value : option A) :
    result LatencyConfigError A :=
  ok_or (MissingParam (model_token (fl_model l)) param) value.

Definition micros (l : FileLatency) (param : string) (value : option Z) :
    result LatencyConfigError Z :=
  raw ← require_param l param value;
  check_micros param raw.

Definition check_sigma (sigma : f64) : result LatencyConfigError unit :=
  if negb (f64_is_finite sigma) then Err (SigmaNotFinite sigma)
  else if f64_ltb sigma 0 then Err (SigmaNegative sigma)
  else Ok tt.

Definition sigma_param (l : FileLatency) : result LatencyConfigError f64 :=
  sigma ← require_param l "sigma" (fl_sigma l);
  _ ← check_sigma sigma;
  Ok sigma.

Definition latency_resolve (l : FileLatency) : result LatencyConfigError LatencyConfig :=
  match fl_model l with
  | ModelFixed => us ← micros l "us" (fl_us l); Ok (LatFixed us)
  | ModelUniform =>
      min_raw ← require_param l "min_us" (fl_min_us l);
      max_raw ← require_param l "max_us" (fl_max_us l);
      min_us ← check_micros "min_us" min_raw;
      max_us ← check_micros "max_us" max_raw;
      if max_raw <? min_raw then Err (MinExceedsMax min_raw max_raw)
      else Ok (LatUniform min_us max_us)
  | ModelNormal =>
      mean_us ← micros l "mean_us" (fl_mean_us l);
      sigma ← sigma_param l;
      Ok (LatNormal mean_us sigma)
  | ModelLognormal =>
      median_us ← micros l "median_us" (fl_median_us l);
      sigma ← sigma_param l;
      Ok (LatLognormal median_us sigma)
  end.

Definition latency_validate (c : LatencyConfig) : result LatencyConfigError unit :=
  match c with
  | LatDisabled | LatFixed _ => Ok tt
  | LatUniform min_us max_us =>
      if max_us <? min_us
      then Err (MinExceedsMax (default (int_max i64) (narrow i64 min_us))
                              (default (int_max i64) (narrow i64 max_us)))
      else Ok tt
  | LatNormal _ sigma | LatLognormal _ sigma => check_sigma sigma
  end.

(** ** The resolved configuration *)

Record FileMicrostructure := {
  file_fees : option FeeConfig;
  file_stp : option StpMode;
  file_specs : option ContractSpecsConfig;
  file_latency : option FileLatency;
}.

Record MicrostructureConfig := {
  fees : FeeConfig;
  stp : StpMode;
  default_specs : ResolvedContractSpecs;
  per_underlying : list (string * ResolvedContractSpecs);
  per_symbol : list (string * ResolvedContractSpecs);
  latency : LatencyConfig;
}.

Definition MicrostructureConfig_default : MicrostructureConfig :=
  {| fees := {| maker_bps := 0; taker_bps := 0 |}; stp := StpOff; default_specs := baseline;
     per_underlying := []; per_symbol := []; latency := LatDisabled |}.

Section config.
Context `{Upstream}.

(** One [instrument_specs] entry: resolved over its base and fee-checked. *)
Definition resolve_entry (fees : FeeConfig) (base : ResolvedContractSpecs)
    (c : ContractSpecsConfig) : result MicrostructureConfigError ResolvedContractSpecs :=
  resolved ← resolve_over c base;
  widest ← max_notional resolved;
  _ ← validate_notional_bound fees widest;
  Ok resolved.

(** The first pass keeps the bare underlying keys... *)
Fixpoint resolve_underlyings (fees : FeeConfig) (default : ResolvedContractSpecs)
    (entries : list (string * ContractSpecsConfig))
    (acc : list (string * ResolvedContractSpecs)) :
    result MicrostructureConfigError (list (string * ResolvedContractSpecs)) :=
  match entries with
  | [] => Ok acc
  | (key, c) :: entries =>
      if is_ok (parse_symbol key) then resolve_underlyings fees default entries acc
      else
        resolved ← resolve_entry fees default c;
        resolve_underlyings fees default entries (bt_insert String.leb key resolved acc)
  end.

(** ... and the second the keys that parse as a symbol, over their
    underlying's specs. *)
Fixpoint resolve_symbols (fees : FeeConfig) (default : ResolvedContractSpecs)
    (per_underlying : list (string * ResolvedContractSpecs))
    (entries : list (string * ContractSpecsConfig))
    (acc : list (string * ResolvedContractSpecs)) :
    result MicrostructureConfigError (list (string * ResolvedContractSpecs)) :=
  match entries with
  | [] => Ok acc
  | (key, c) :: entries =>
      match parse_symbol key with
      | Err _ => resolve_symbols fees default per_underlying entries acc
      | Ok parsed =>
          let base :=
            match bt_get (ps_underlying parsed) per_underlying with
            | Some s => s | None => default
            end in
          resolved ← resolve_entry fees base c;
          resolve_symbols fees default per_underlying entries
            (bt_insert String.leb key resolved acc)
      end
  end.

Definition resolve_config (file : FileMicrostructure)
    (instrument_specs : list (string * ContractSpecsConfig)) :
    result MicrostructureConfigError MicrostructureConfig :=
  let fees := default {| maker_bps := 0; taker_bps := 0 |} (file_fees file) in
  _ ← fees_validate fees;
  let stp := default StpOff (file_stp file) in
  latency ← match file_latency file with
            | Some l => map_err LatencyError (latency_resolve l)
            | None => Ok LatDisabled
            end;
  default_specs ← resolve_over (default default_specs_config (file_specs file)) baseline;
  widest ← max_notional default_specs;
  _ ← validate_notional_bound fees widest;
  per_underlying ← resolve_underlyings fees default_specs instrument_specs [];
  per_symbol ← resolve_symbols fees default_specs per_underlying instrument_specs [];
  Ok {| fees := fees; stp := stp; default_specs := default_specs;
        per_underlying := per_underlying; per_symbol := per_symbol; latency := latency |}.

Definition validate_specs_entry (f : FeeConfig) (s : ResolvedContractSpecs) :
    result MicrostructureConfigError unit :=
  _ ← specs_validate s;
  widest ← max_notional s;
  validate_notional_bound f widest.

Fixpoint validate_specs_entries (f : FeeConfig) (l : list (string * ResolvedContractSpecs)) :
    result MicrostructureConfigError unit :=
  match l with
  | [] => Ok tt
  | (_, s) :: l => _ ← validate_specs_entry f s; validate_specs_entries f l
  end.

Definition config_validate (c : MicrostructureConfig) : result MicrostructureConfigError unit :=
  _ ← fees_validate (fees c);
  _ ← map_err LatencyError (latency_validate (latency c));
  _ ← validate_specs_entry (fees c) (default_specs c);
  _ ← validate_specs_entries (fees c) (per_underlying c);
  validate_specs_entries (fees c) (per_symbol c).

Definition specs_for (c : MicrostructureConfig) (underlying : string) : ResolvedContractSpecs :=
  match bt_get underlying (per_underlying c) with
  | Some s => s | None => default_specs c
  end.

Definition specs_for_symbol (c : MicrostructureConfig) (symbol : string) :
    ResolvedContractSpecs :=
  match bt_get symbol (per_symbol c) with
  | Some s => s
  | None =>
      match parse_symbol symbol with
      | Ok parsed => specs_for c (ps_underlying parsed)
      | Err _ => default_specs c
      end
  end.

Definition admit_price (c : MicrostructureConfig) (underlying : string) (price : Cents) :
    result PriceBoundError unit :=
  bounds_admit (price_bounds (specs_for c underlying)) price.

Definition admit_price_for_symbol (c : MicrostructureConfig) (symbol : string) (price : Cents) :
    result PriceBoundError unit :=
  bounds_admit (price_bounds (specs_for_symbol c symbol)) price.

Definition admit_order_for_symbol (c : MicrostructureConfig) (symbol : string)
    (limit_price : option Cents) (quantity : Z) : result OrderAdmissionError unit :=
  admit_order (specs_for_symbol c symbol) limit_price quantity.

Definition to_contract_specs (s : ResolvedContractSpecs) :
    result MicrostructureConfigError ContractSpecs :=
  map_err ContractSpecsRejected
    (contract_specs_build (tick_size_cents s) (lot_size s) 1 (max_order_qty s)).

(** [apply_to_underlying]: on an error the book keeps the fee schedule and STP
    mode already set. *)
Definition apply_to_underlying (book : Book) (c : MicrostructureConfig) (underlying : string) :
    Book * result MicrostructureConfigError unit :=
  let book := set_fee_schedule book (to_fee_schedule (fees c)) in
  let book := set_stp_mode book (to_stp_mode (stp c)) in
  match to_contract_specs (specs_for c underlying) with
  | Ok specs => (set_specs book specs, Ok tt)
  | Err e => (book, Err e)
  end.

(** The per-leg fee of the executor ([executor.rs], [per_leg_fee]). *)
Definition per_leg_fee (schedule : option FeeSchedule) (price_ticks quantity : Z)
    (is_maker : bool) : result MoneyError SignedCents :=
  match schedule with
  | None => Ok 0
  | Some schedule =>
      notional ← ok_or Overflow (checked_mul u128 price_ticks quantity);
      fee ← map_err (λ _, Overflow) (calculate_fee schedule notional is_maker);
      ok_or Overflow (narrow i64 fee)
  end.
End config.
