(* ===== verification/Snapshot.v ===== *)
(** Snapshot data ([src/src/exchange/snapshot.rs]): the captures of the book cut
    and of the stores, the metadata a restore validates, and the client-order-id
    idempotency map. *)

From S2P Require Export Envelope.

(** ** Metadata *)

Inductive SnapshotError :=
  | MetadataMismatch (why : string)
  | RebuildFailed (why : string)
  | SnapJournalUnavailable
  | SnapSequenceExhausted.

Record SnapshotMetadata := {
  sm_snapshot_id : string;
  sm_created_at : EventTimestamp;
  sm_schema_version : string;
  sm_lineage_id : LineageId;
  sm_config_fingerprint : string;
}.

Definition SnapshotMetadata_new (snapshot_id : string) (created_at : EventTimestamp)
    (lineage_id : LineageId) (config_fingerprint : string) : SnapshotMetadata :=
  {| sm_snapshot_id := snapshot_id; sm_created_at := created_at;
     sm_schema_version := VENUE_ENVELOPE_SCHEMA; sm_lineage_id := lineage_id;
     sm_config_fingerprint := config_fingerprint |}.

Definition validate_against (m : SnapshotMetadata) (running_lineage : LineageId)
    (running_config_fingerprint : string) : result SnapshotError unit :=
  if negb (String.eqb (sm_schema_version m) VENUE_ENVELOPE_SCHEMA)
  then Err (MetadataMismatch
              ("schema " +:+ sm_schema_version m +:+ " is not the running " +:+
               VENUE_ENVELOPE_SCHEMA))
  else if negb (String.eqb (sm_lineage_id m) running_lineage)
  then Err (MetadataMismatch "snapshot lineage does not match the running venue")
  else if negb (String.eqb (sm_config_fingerprint m) running_config_fingerprint)
  then Err (MetadataMismatch "snapshot config fingerprint does not match the running venue")
  else Ok tt.

(** ** Idempotency *)

(** [IdempotencyKey { account, client_order_id }]. *)
Notation IdempotencyKey := (string * string)%type (only parsing).

Record IdempotencyFingerprint := {
  fp_symbol : Symbol;
  fp_side : Side;
  fp_order_type : OrderType;
  fp_limit_price : option Cents;
  fp_quantity : Z;
  fp_time_in_force : TimeInForce;
}.
#[export] Instance IdempotencyFingerprint_eq_dec : EqDecision IdempotencyFingerprint.
Proof. solve_decision. Defined.

Record IdempotencyEntry := {
  ie_fingerprint : IdempotencyFingerprint;
  ie_order_id : VenueOrderId;
  ie_sequence : SequenceNumber;
  ie_terminal : VenueOutcome;
}.
#[export] Instance IdempotencyEntry_eq_dec : EqDecision IdempotencyEntry.
Proof. solve_decision. Defined.

(** [IdempotencyRecord { key, entry }] and the map of them. *)
Notation IdempotencyRecord := (string * string * IdempotencyEntry)%type (only parsing).
Notation IdempotencyMap := (gmap (string * string) IdempotencyEntry) (only parsing).

Definition idempotency_lookup (m : IdempotencyMap) (key : IdempotencyKey) :
    option IdempotencyEntry := m !! key.

Definition idempotency_record (m : IdempotencyMap) (key : IdempotencyKey)
    (entry : IdempotencyEntry) : IdempotencyMap := <[key := entry]> m.

(** Sorted by account, then by client order id. *)
Definition idempotency_capture (m : IdempotencyMap) : list IdempotencyRecord :=
  sort_by_key (pair_leb String.leb String.leb) fst (map_to_list m).

Definition idempotency_from_records (records : list IdempotencyRecord) : IdempotencyMap :=
  foldl (λ m r, <[r.1 := r.2]> m) ∅ records.

(** ** The cut *)

Record RestingOrderCapture := {
  roc_symbol : Symbol;
  roc_order_id : VenueOrderId;
  roc_account : AccountId;
  roc_owner : Hash32;
  roc_engine_seq : Z;
  roc_side : Side;
  roc_price : Cents;
  roc_quantity : Z;
  roc_time_in_force : TimeInForce;
}.

Record InstrumentStatusCapture := {
  isc_symbol : Symbol;
  isc_status : InstrumentStatus;
}.

(** [models::ExecutionRecord]. *)
Record ExecutionRecord := {
  xr_execution_id : ExecutionId;
  xr_order_id : VenueOrderId;
  xr_account : AccountId;
  xr_symbol : string;
  xr_instrument : Symbol;
  xr_side : Side;
  xr_liquidity : LiquidityFlag;
  xr_quantity : Z;
  xr_price_cents : Cents;
  xr_fee_cents : SignedCents;
  xr_theo_value_cents : Cents;
  xr_edge_cents : SignedCents;
  xr_underlying_sequence : SequenceNumber;
  xr_latency_us : Z;
  xr_executed_at : EventTimestamp;
}.
#[export] Instance ExecutionRecord_eq_dec : EqDecision ExecutionRecord.
Proof. solve_decision. Defined.

Record ExecutionCapture := { ec_ord : Z; ec_record : ExecutionRecord }.

Record PositionCapture := {
  pc_account : AccountId;
  pc_symbol : Symbol;
  pc_underlying : string;
  pc_net_quantity : Z;
  pc_basis : Z;
  pc_cash_ex_fee : Z;
  pc_fees : Z;
}.

Record ExecutorState := {
  resting_orders : list RestingOrderCapture;
  es_idempotency : list IdempotencyRecord;
  es_instrument_statuses : list InstrumentStatusCapture;
}.

Record VenueSnapshot := {
  snap_metadata : SnapshotMetadata;
  snap_executor : ExecutorState;
  snap_executions : list ExecutionCapture;
  snap_positions : list PositionCapture;
}.

(** [Vec::dedup]: consecutive duplicates collapse. *)
Fixpoint dedup (l : list string) : list string :=
  match l with
  | [] => []
  | x :: l' =>
      match l' with
      | [] => [x]
      | y :: _ => if String.eqb x y then dedup l' else x :: dedup l'
      end
  end.

Definition orderbook_count (s : VenueSnapshot) : Z :=
  Z.of_nat (length (dedup (sort_by_key String.leb id
    (roc_symbol <$> resting_orders (snap_executor s))))).

Definition order_count (s : VenueSnapshot) : Z :=
  Z.of_nat (length (resting_orders (snap_executor s))).

(** * Theorems *)

(** ** Capturing and rebuilding the idempotency map *)

Lemma idempotency_capture_perm (m : IdempotencyMap) :
  idempotency_capture m ≡ₚ map_to_list m.
Proof. apply sort_by_key_perm. Qed.

Lemma idempotency_roundtrip (m : IdempotencyMap) :
  idempotency_from_records (idempotency_capture m) = m.
Proof. apply foldl_insert_perm, idempotency_capture_perm. Qed.

(** ** Metadata *)

Lemma validate_against_Ok m lineage fingerprint :
  validate_against m lineage fingerprint = Ok tt ↔
  sm_schema_version m = VENUE_ENVELOPE_SCHEMA ∧ sm_lineage_id m = lineage
  ∧ sm_config_fingerprint m = fingerprint.
Proof.
  unfold validate_against.
  destruct (String.eqb_spec (sm_schema_version m) VENUE_ENVELOPE_SCHEMA); cbn; [|naive_solver].
  destruct (String.eqb_spec (sm_lineage_id m) lineage); cbn; [|naive_solver].
  destruct (String.eqb_spec (sm_config_fingerprint m) fingerprint); cbn; naive_solver.
Qed.
