(* ===== verification/Executor.v ===== *)
(** The matching executor ([src/src/exchange/executor.rs]) and the
    instrument-status registry it gates on ([instrument_status.rs]): the venue's
    view of one underlying over the upstream book.  Every method takes the
    executor state and returns it with its result; the leaves' interior
    mutability becomes the [Book] component of the state.  Hash maps are [gmap]s;
    where the code iterates one, the model iterates [map_to_list]. *)

From S2P Require Export Microstructure Snapshot.

(** ** The instrument-status registry *)

Notation InstrumentStatusRegistry := (gmap string InstrumentStatus) (only parsing).

Inductive InstrumentStatusError :=
  | IllegalTransition (from to : InstrumentStatus).

Section registry.
Context `{Upstream}.

Definition status_of (r : InstrumentStatusRegistry) (symbol : Symbol) : InstrumentStatus :=
  default Active (r !! symbol).

Definition is_accepting_orders (r : InstrumentStatusRegistry) (symbol : Symbol) : bool :=
  status_accepts_orders (status_of r symbol).

Definition try_transition (r : InstrumentStatusRegistry) (symbol : Symbol)
    (to : InstrumentStatus) :
    InstrumentStatusRegistry * result InstrumentStatusError InstrumentStatus :=
  let from := status_of r symbol in
  if negb (can_transition from to) then (r, Err (IllegalTransition from to))
  else (<[symbol := to]> r, Ok to).

(** The [Display] of the error. *)
Definition status_error_display (e : InstrumentStatusError) : string :=
  let 'IllegalTransition from to := e in
  "illegal instrument status transition from " +:+ status_display from +:+ " to " +:+
  status_display to.
End registry.

(** ** Data *)

Record TopOfBook := {
  tob_best_bid : option Cents;
  tob_best_ask : option Cents;
  bid_depth : Z;
  ask_depth : Z;
}.

Record MarketMakerControlKnobs := {
  knob_spread_multiplier : option f64;
  knob_size_scalar : option f64;
  knob_directional_skew : option f64;
  knob_enabled : option bool;
}.

Record RestingRecord := {
  rr_symbol : Symbol;
  rr_venue_order_id : VenueOrderId;
  rr_account : AccountId;
  rr_owner : Hash32;
  rr_side : Side;
}.

Record AddResult := {
  ar_fills : list Fill;
  ar_resting_quantity : Z;
  ar_stp_cancelled : list CancelledLeg;
  ar_reason : string;
}.

(** [actor.rs], [ExecutionContext]. *)
Record ExecutionContext := {
  ctx_underlying : string;
  ctx_lineage_id : LineageId;
  ctx_sequence : SequenceNumber;
  ctx_venue_ts : EventTimestamp;
  ctx_command : VenueCommand;
}.

Record PreparedRestingOrder := {
  pro_symbol : Symbol;
  pro_order_id : VenueOrderId;
  pro_account : AccountId;
  pro_owner : Hash32;
  pro_engine_seq : Z;
  pro_side : Side;
  pro_price : Cents;
  pro_quantity : Z;
  pro_time_in_force : TimeInForce;
}.

Definition REDACTED_INTERNAL_MESSAGE : string := "internal error".
Definition NOT_ORDER_OWNER_REASON : string := "requesting account does not own the order".

(** ** Helpers *)

Definition tif_rests (time_in_force : TimeInForce) : bool :=
  match time_in_force with Gtc | Gtd _ | Day => true | Ioc | Fok => false end.

Definition add_has_mutation (add : AddResult) : bool :=
  negb (bool_decide (ar_fills add = [])) || (0 <? ar_resting_quantity add)
  || negb (bool_decide (ar_stp_cancelled add = [])).

Definition reject_reason (reason : string) : string :=
  if String.eqb reason "" then "order was not fillable and did not rest" else reason.

Definition classify_add_leg (add : AddResult) : AddOutcome :=
  if negb (add_has_mutation add) then AddRejected NotFillable (reject_reason (ar_reason add))
  else if 0 <? ar_resting_quantity add
  then AddRested (ar_fills add) (ar_resting_quantity add) (ar_stp_cancelled add)
  else AddFilled (ar_fills add) (ar_stp_cancelled add).

Section executor.
Context `{Upstream}.

Record CapturedFills := {
  cf_fills : list Fill;
  cf_taker_filled : Z;
  cf_filled_maker_ids : list OrderId;
}.

(** The optional control sink is the list of knobs it received, newest last. *)
Record MatchingExecutor := {
  underlying_book : Book;
  resting : gmap OrderId RestingRecord;
  venue_to_engine : gmap string OrderId;
  idempotency : IdempotencyMap;
  instrument_status : InstrumentStatusRegistry;
  mm_control : option (list MarketMakerControlKnobs);
}.

Definition set_book (x : MatchingExecutor) (b : Book) : MatchingExecutor :=
  {| underlying_book := b; resting := resting x; venue_to_engine := venue_to_engine x;
     idempotency := idempotency x; instrument_status := instrument_status x;
     mm_control := mm_control x |}.
Definition set_registry (x : MatchingExecutor) r v : MatchingExecutor :=
  {| underlying_book := underlying_book x; resting := r; venue_to_engine := v;
     idempotency := idempotency x; instrument_status := instrument_status x;
     mm_control := mm_control x |}.
Definition set_idempotency (x : MatchingExecutor) (m : IdempotencyMap) : MatchingExecutor :=
  {| underlying_book := underlying_book x; resting := resting x;
     venue_to_engine := venue_to_engine x; idempotency := m;
     instrument_status := instrument_status x; mm_control := mm_control x |}.
Definition set_statuses (x : MatchingExecutor) (s : InstrumentStatusRegistry) :
    MatchingExecutor :=
  {| underlying_book := underlying_book x; resting := resting x;
     venue_to_engine := venue_to_engine x; idempotency := idempotency x;
     instrument_status := s; mm_control := mm_control x |}.
Definition set_mm_control (x : MatchingExecutor) s : MatchingExecutor :=
  {| underlying_book := underlying_book x; resting := resting x;
     venue_to_engine := venue_to_engine x; idempotency := idempotency x;
     instrument_status := instrument_status x; mm_control := s |}.

(** ** Construction *)

Definition from_book (underlying_book : Book) : MatchingExecutor :=
  {| underlying_book := underlying_book; resting := ∅; venue_to_engine := ∅;
     idempotency := ∅; instrument_status := ∅; mm_control := None |}.

Definition executor_new (underlying : string) : MatchingExecutor :=
  from_book (book_new underlying).

Definition with_mm_control_sink (x : MatchingExecutor) : MatchingExecutor :=
  set_mm_control x (Some []).

Definition new_with_microstructure (underlying : string) (microstructure : MicrostructureConfig) :
    result MicrostructureConfigError MatchingExecutor :=
  let '(book, r) := apply_to_underlying (book_new underlying) microstructure underlying in
  _ ← r; Ok (from_book book).

Definition underlying (x : MatchingExecutor) : string := book_underlying (underlying_book x).

(** ** Symbol resolution *)

Definition parsed_leaf (p : ParsedSymbol) : Leaf :=
  {| leaf_expiration := ps_expiration p; leaf_strike := ps_strike p;
     leaf_style := ps_option_style p |}.

Definition resolve_leaf_vivify (x : MatchingExecutor) (symbol : Symbol) :
    MatchingExecutor * result string Leaf :=
  match parse_symbol symbol with
  | Err e => (x, Err e)
  | Ok parsed =>
      let expected := underlying x in
      if negb (String.eqb (ps_underlying parsed) expected)
      then (x, Err ("cross-underlying symbol '" +:+ symbol +:+
                    "' does not match underlying '" +:+ expected +:+ "'"))
      else
        let book := get_or_create_expiration (underlying_book x) (ps_expiration parsed) in
        let book := get_or_create_strike book (ps_expiration parsed) (ps_strike parsed) in
        (set_book x book, Ok (parsed_leaf parsed))
  end.

Definition resolve_leaf_read (x : MatchingExecutor) (symbol : Symbol) : option Leaf :=
  match parse_symbol symbol with
  | Err _ => None
  | Ok parsed =>
      if negb (String.eqb (ps_underlying parsed) (underlying x)) then None
      else if negb (has_expiration (underlying_book x) (ps_expiration parsed)) then None
      else if negb (has_strike (underlying_book x) (ps_expiration parsed) (ps_strike parsed))
      then None
      else Some (parsed_leaf parsed)
  end.

Definition depth_or_max (d : result string Z) : Z :=
  match d with Ok d => d | Err _ => int_max u64 end.

Definition top_of_book (x : MatchingExecutor) (symbol : Symbol) : TopOfBook :=
  match resolve_leaf_read x symbol with
  | Some leaf =>
      let book := underlying_book x in
      {| tob_best_bid := best_bid book leaf ≫= narrow u64;
         tob_best_ask := best_ask book leaf ≫= narrow u64;
         bid_depth := depth_or_max (total_bid_depth book leaf);
         ask_depth := depth_or_max (total_ask_depth book leaf) |}
  | None => {| tob_best_bid := None; tob_best_ask := None; bid_depth := 0; ask_depth := 0 |}
  end.

(** ** The registry of resting orders *)

Definition register_resting (x : MatchingExecutor) (engine_id : OrderId) (symbol : Symbol)
    (venue_order_id : VenueOrderId) (account : AccountId) (owner : Hash32) (side : Side) :
    MatchingExecutor :=
  set_registry x
    (<[engine_id := {| rr_symbol := symbol; rr_venue_order_id := venue_order_id;
                       rr_account := account; rr_owner := owner; rr_side := side |}]>
       (resting x))
    (<[venue_order_id := engine_id]> (venue_to_engine x)).

Definition remove_resting (x : MatchingExecutor) (engine_id : OrderId) : MatchingExecutor :=
  match resting x !! engine_id with
  | Some record =>
      set_registry x (delete engine_id (resting x))
        (delete (rr_venue_order_id record) (venue_to_engine x))
  | None => x
  end.

Definition remove_all (x : MatchingExecutor) (ids : list OrderId) : MatchingExecutor :=
  foldl remove_resting x ids.

Definition account_owns (x : MatchingExecutor) (engine_id : OrderId) (account : AccountId) :
    bool :=
  match resting x !! engine_id with
  | Some record => String.eqb (rr_account record) account
  | None => false
  end.

Definition engine_order_id (sequence : SequenceNumber) : OrderId := sequential sequence.

Definition instrument_not_active_reason (symbol : Symbol) (status : InstrumentStatus) : string :=
  "instrument " +:+ symbol +:+ " is " +:+ status_display status +:+
  " and is not accepting orders".

(** [HashSet<OrderId>] *)
Definition owner_resting_ids (book : Book) (leaf : Leaf) (owner : Hash32) : gset OrderId :=
  list_to_set (orders_by_user book leaf owner).

Definition last_trade_seq (book : Book) (leaf : Leaf) : option Z :=
  tr_engine_seq <$> last_trade_result book leaf.

Definition slot_trade_after (book : Book) (leaf : Leaf) (before_seq : option Z) :
    option (TradeResult OrderId) :=
  trade ← last_trade_result book leaf;
  match before_seq with
  | None => Some trade
  | Some before => if before <? tr_engine_seq trade then Some trade else None
  end.

(** ** Fill capture *)

(** The maker's venue id, account and owner, falling back on the engine id. *)
Definition maker_identity (x : MatchingExecutor) (maker : OrderId) :
    VenueOrderId * AccountId * Hash32 :=
  match resting x !! maker with
  | Some record => (rr_venue_order_id record, rr_account record, rr_owner record)
  | None => (order_id_to_string maker, "unknown", 0)
  end.

Fixpoint build_fills_loop (x : MatchingExecutor) (ctx : ExecutionContext)
    (taker_order_id : VenueOrderId) (taker_account : AccountId) (taker_owner : Hash32)
    (fee_schedule : option FeeSchedule) (index : Z) (trades : list (Trade OrderId))
    (fills : list Fill) (taker_filled : Z) : result MoneyError (list Fill * Z) :=
  match trades with
  | [] => Ok (fills, taker_filled)
  | trade :: trades =>
      fill_index ← ok_or Overflow (narrow u32 index);
      let execution_id :=
        execution_id (ctx_lineage_id ctx) (ctx_underlying ctx) (ctx_sequence ctx) fill_index in
      let price_ticks := trade_price trade in
      price ← ok_or Overflow (narrow u64 price_ticks);
      let quantity := trade_quantity trade in
      taker_filled ← ok_or Overflow (checked_add u64 taker_filled quantity);
      let '(maker_order_id, maker_account, maker_owner) :=
        maker_identity x (trade_maker_order_id trade) in
      maker_fee ← per_leg_fee fee_schedule price_ticks quantity true;
      taker_fee ← per_leg_fee fee_schedule price_ticks quantity false;
      let maker_fill :=
        {| fill_execution_id := execution_id; fill_order_id := maker_order_id;
           fill_account := maker_account; fill_owner := maker_owner;
           fill_side := trade_maker_side trade; fill_liquidity := Maker;
           fill_price := price; fill_quantity := quantity; fill_fee := maker_fee |} in
      let taker_fill :=
        {| fill_execution_id := execution_id; fill_order_id := taker_order_id;
           fill_account := taker_account; fill_owner := taker_owner;
           fill_side := trade_taker_side trade; fill_liquidity := Taker;
           fill_price := price; fill_quantity := quantity; fill_fee := taker_fee |} in
      build_fills_loop x ctx taker_order_id taker_account taker_owner fee_schedule
        (index + 1) trades (fills ++ [maker_fill; taker_fill]) taker_filled
  end.

Definition build_fills (x : MatchingExecutor) (ctx : ExecutionContext)
    (trade_result : TradeResult OrderId) (taker_order_id : VenueOrderId)
    (taker_account : AccountId) (taker_owner : Hash32) (fee_schedule : option FeeSchedule) :
    result MoneyError CapturedFills :=
  let match_result := tr_match_result trade_result in
  '(fills, taker_filled) ←
    build_fills_loop x ctx taker_order_id taker_account taker_owner fee_schedule 0
      (mr_trades match_result) [] 0;
  Ok {| cf_fills := fills; cf_taker_filled := taker_filled;
        cf_filled_maker_ids := mr_filled_order_ids match_result |}.

Definition no_fills : CapturedFills :=
  {| cf_fills := []; cf_taker_filled := 0; cf_filled_maker_ids := [] |}.

(** ** Self-trade prevention legs *)

Definition stp_leg (record : RestingRecord) : CancelledLeg :=
  {| leg_order_id := rr_venue_order_id record; leg_owner := rr_owner record;
     leg_symbol := rr_symbol record; leg_side := rr_side record;
     leg_reason := ReasonSelfTradePrevention |}.

Definition stp_removed (before after : gset OrderId) (filled : list OrderId)
    (incoming : OrderId) : list OrderId :=
  filter (λ id, id ≠ incoming ∧ id ∉ after ∧ id ∉ filled) (elements before).

Definition stp_cancelled_diff (x : MatchingExecutor) (before after : gset OrderId)
    (filled : list OrderId) (incoming : OrderId) : MatchingExecutor * list CancelledLeg :=
  let removed := stp_removed before after filled incoming in
  let legs := omap (λ id, stp_leg <$> resting x !! id) removed in
  let legs := sort_by_key String.leb leg_order_id legs in
  (remove_all x removed, legs).

(** ** Adding orders *)

Definition run_add (x : MatchingExecutor) (ctx : ExecutionContext) (leaf : Leaf)
    (symbol : Symbol) (venue_order_id : VenueOrderId) (account : AccountId) (owner : Hash32)
    (side : Side) (limit_price : Cents) (quantity : Z) (time_in_force : TimeInForce) :
    MatchingExecutor * AddResult :=
  let x := set_book x (arm_trade_capture (underlying_book x) leaf true) in
  let book := underlying_book x in
  let engine_id := engine_order_id (ctx_sequence ctx) in
  let stp_active := negb (bool_decide (leaf_stp_mode book leaf = StpNone)) in
  let owner_before := if stp_active then owner_resting_ids book leaf owner else ∅ in
  let before_seq := last_trade_seq book leaf in
  let fee_schedule := leaf_fee_schedule book leaf in
  let '(book, result) :=
    add_limit_order book leaf engine_id side limit_price quantity time_in_force owner in
  let x := set_book x book in
  let succeeded := is_ok result in
  let captured :=
    match result with
    | Ok trade_result =>
        build_fills x ctx trade_result venue_order_id account owner fee_schedule
    | Err _ =>
        match slot_trade_after book leaf before_seq with
        | Some trade_result =>
            build_fills x ctx trade_result venue_order_id account owner fee_schedule
        | None => Ok no_fills
        end
    end in
  let reason := match result with Err e => e | Ok _ => "" end in
  match captured with
  | Err _ =>
      (x, {| ar_fills := []; ar_resting_quantity := 0; ar_stp_cancelled := [];
             ar_reason := REDACTED_INTERNAL_MESSAGE |})
  | Ok captured =>
      let x := remove_all x (cf_filled_maker_ids captured) in
      let '(x, stp_cancelled) :=
        if stp_active then
          stp_cancelled_diff x owner_before (owner_resting_ids book leaf owner)
            (cf_filled_maker_ids captured) engine_id
        else (x, []) in
      let rests := succeeded && tif_rests time_in_force in
      let resting_quantity :=
        if rests then default 0 (checked_sub u64 quantity (cf_taker_filled captured)) else 0 in
      let x :=
        if 0 <? resting_quantity
        then register_resting x engine_id symbol venue_order_id account owner side else x in
      (x, {| ar_fills := cf_fills captured; ar_resting_quantity := resting_quantity;
             ar_stp_cancelled := stp_cancelled; ar_reason := reason |})
  end.

Definition execute_market (x : MatchingExecutor) (ctx : ExecutionContext) (leaf : Leaf)
    (venue_order_id : VenueOrderId) (account : AccountId) (owner : Hash32) (side : Side)
    (quantity : Z) : MatchingExecutor * VenueOutcome :=
  let x := set_book x (arm_trade_capture (underlying_book x) leaf true) in
  let book := underlying_book x in
  let opposite_depth :=
    match side with Buy => total_ask_depth book leaf | Sell => total_bid_depth book leaf end in
  if match opposite_depth with Ok 0 => true | _ => false end
  then (x, MarketDone [] quantity [])
  else
    let engine_id := engine_order_id (ctx_sequence ctx) in
    let stp_active := negb (bool_decide (leaf_stp_mode book leaf = StpNone)) in
    let owner_before := if stp_active then owner_resting_ids book leaf owner else ∅ in
    let before_seq := last_trade_seq book leaf in
    let fee_schedule := leaf_fee_schedule book leaf in
    let '(book, outcome) := submit_market_order book leaf engine_id quantity side owner in
    let x := set_book x book in
    let captured :=
      match outcome with
      | Ok match_result =>
          match trade_result_new (leaf_symbol book leaf) match_result with
          | Ok trade_result =>
              build_fills x ctx trade_result venue_order_id account owner fee_schedule
          | Err _ => Err Overflow
          end
      | Err _ =>
          match slot_trade_after book leaf before_seq with
          | Some trade_result =>
              build_fills x ctx trade_result venue_order_id account owner fee_schedule
          | None => Ok no_fills
          end
      end in
    match captured with
    | Err _ => (x, MarketDone [] quantity [])
    | Ok captured =>
        let x := remove_all x (cf_filled_maker_ids captured) in
        let '(x, stp_cancelled) :=
          if stp_active then
            stp_cancelled_diff x owner_before (owner_resting_ids book leaf owner)
              (cf_filled_maker_ids captured) engine_id
          else (x, []) in
        let unfilled_quantity :=
          default 0 (checked_sub u64 quantity (cf_taker_filled captured)) in
        (x, MarketDone (cf_fills captured) unfilled_quantity stp_cancelled)
    end.

Definition execute_add_order (x : MatchingExecutor) (ctx : ExecutionContext) (symbol : Symbol)
    (venue_order_id : VenueOrderId) (account : AccountId) (owner : Hash32) (side : Side)
    (order_type : OrderType) (limit_price : option Cents) (quantity : Z)
    (time_in_force : TimeInForce) : MatchingExecutor * VenueOutcome :=
  let '(x, leaf) := resolve_leaf_vivify x symbol in
  match leaf with
  | Err reason => (x, Rejected InvalidOrder reason)
  | Ok leaf =>
      if negb (is_accepting_orders (instrument_status x) symbol)
      then (x, Rejected InstrumentNotActive
                 (instrument_not_active_reason symbol
                    (status_of (instrument_status x) symbol)))
      else
        match order_type with
        | Market => execute_market x ctx leaf venue_order_id account owner side quantity
        | Limit =>
            match limit_price with
            | None => (x, Rejected InvalidOrder "limit order requires a limit price")
            | Some price =>
                let '(x, add) :=
                  run_add x ctx leaf symbol venue_order_id account owner side price quantity
                    time_in_force in
                if add_has_mutation add
                then (x, Added (ar_fills add) (ar_resting_quantity add) (ar_stp_cancelled add))
                else (x, Rejected NotFillable (reject_reason (ar_reason add)))
            end
        end
  end.

Definition add_with_idempotency (x : MatchingExecutor) (ctx : ExecutionContext)
    (symbol : Symbol) (order_id : VenueOrderId) (account : AccountId) (owner : Hash32)
    (client_order_id : option ClientOrderId) (side : Side) (order_type : OrderType)
    (limit_price : option Cents) (quantity : Z) (time_in_force : TimeInForce) :
    MatchingExecutor * VenueOutcome :=
  match client_order_id with
  | None =>
      execute_add_order x ctx symbol order_id account owner side order_type limit_price
        quantity time_in_force
  | Some client_order_id =>
      let key := (account, client_order_id) in
      let fingerprint :=
        {| fp_symbol := symbol; fp_side := side; fp_order_type := order_type;
           fp_limit_price := limit_price; fp_quantity := quantity;
           fp_time_in_force := time_in_force |} in
      match idempotency_lookup (idempotency x) key with
      | Some entry =>
          if bool_decide (ie_fingerprint entry = fingerprint)
          then (x, Duplicate (ie_order_id entry) (ie_sequence entry) (ie_terminal entry))
          else (x, Rejected InvalidOrder "client_order_id was reused with a different order")
      | None =>
          let '(x, outcome) :=
            execute_add_order x ctx symbol order_id account owner side order_type limit_price
              quantity time_in_force in
          (set_idempotency x
             (idempotency_record (idempotency x) key
                {| ie_fingerprint := fingerprint; ie_order_id := order_id;
                   ie_sequence := ctx_sequence ctx; ie_terminal := outcome |}),
           outcome)
      end
  end.

(** ** Cancel and replace *)

Definition execute_cancel (x : MatchingExecutor) (symbol : Symbol)
    (venue_order_id : VenueOrderId) (account : AccountId) : MatchingExecutor * VenueOutcome :=
  match resolve_leaf_read x symbol with
  | None => (x, Rejected NotFound "order not found")
  | Some leaf =>
      match venue_to_engine x !! venue_order_id with
      | None => (x, Rejected NotFound "order not found")
      | Some engine_id =>
          if negb (account_owns x engine_id account)
          then (x, Rejected NotOwner NOT_ORDER_OWNER_REASON)
          else
            let '(book, r) := cancel_order (underlying_book x) leaf engine_id in
            let x := set_book x book in
            match r with
            | Ok true => (remove_resting x engine_id, Cancelled venue_order_id)
            | Ok false => (x, Rejected NotResting "order is not resting")
            | Err error => (x, Rejected Internal error)
            end
      end
  end.

Definition execute_replace (x : MatchingExecutor) (ctx : ExecutionContext) (symbol : Symbol)
    (order_id new_order_id : VenueOrderId) (account : AccountId) (side : Side)
    (limit_price : option Cents) (quantity : Z) (time_in_force : TimeInForce) :
    MatchingExecutor * VenueOutcome :=
  let '(x, leaf) := resolve_leaf_vivify x symbol in
  match leaf with
  | Err reason => (x, Rejected InvalidOrder reason)
  | Ok leaf =>
      match venue_to_engine x !! order_id with
      | None => (x, Rejected NotFound "order not found")
      | Some engine_id =>
          if negb (account_owns x engine_id account)
          then (x, Rejected NotOwner NOT_ORDER_OWNER_REASON)
          else
            let owner :=
              match resting x !! engine_id with Some record => rr_owner record | None => 0 end in
            let '(book, r) := cancel_order (underlying_book x) leaf engine_id in
            let x := set_book x book in
            if negb (match r with Ok true => true | _ => false end)
            then (x, Rejected NotResting "order is not resting")
            else
              let x := remove_resting x engine_id in
              match limit_price with
              | Some price =>
                  let '(x, result) :=
                    run_add x ctx leaf symbol new_order_id account owner side price quantity
                      time_in_force in
                  (x, Replaced true (classify_add_leg result))
              | None =>
                  (x, Replaced true
                        (AddRejected InvalidOrder "replacement add requires a limit price"))
              end
      end
  end.

(** ** Lifecycle and sweeps *)

Definition execute_set_instrument_status (x : MatchingExecutor) (symbol : Symbol)
    (status : InstrumentStatus) : MatchingExecutor * VenueOutcome :=
  let '(x, leaf) := resolve_leaf_vivify x symbol in
  match leaf with
  | Err reason => (x, Rejected InvalidOrder reason)
  | Ok _ =>
      let '(registry, r) := try_transition (instrument_status x) symbol status in
      let x := set_statuses x registry in
      match r with
      | Ok applied => (x, InstrumentStatusChanged symbol applied)
      | Err error => (x, Rejected InvalidOrder (status_error_display error))
      end
  end.

Definition mass_cancel_matches (record : RestingRecord) (scope : MassCancelScope)
    (scope_expiry : option string) (cancel_type : MassCancelType)
    (account_scope : option AccountId) : bool :=
  if match account_scope with
     | Some account => negb (String.eqb (rr_account record) account)
     | None => false
     end
  then false
  else
    let type_matches :=
      match cancel_type with
      | CancelAll => true
      | BySide side => bool_decide (rr_side record = side)
      | ByUser owner => rr_owner record =? owner
      end in
    if negb type_matches then false
    else
      match scope with
      | ScopeUnderlying => true
      | ScopeBook symbol => String.eqb (rr_symbol record) symbol
      | ScopeExpiration _ =>
          match parse_symbol (rr_symbol record) with
          | Err _ => false
          | Ok parsed => bool_decide (Some (ps_expiration_str parsed) = scope_expiry)
          end
      | ScopeStrike _ strike =>
          match parse_symbol (rr_symbol record) with
          | Err _ => false
          | Ok parsed =>
              bool_decide (Some (ps_expiration_str parsed) = scope_expiry)
              && (ps_strike parsed =? strike)
          end
      end.

Definition scope_expiration (scope : MassCancelScope) : option ExpirationDate :=
  match scope with
  | ScopeExpiration expiry | ScopeStrike expiry _ => Some expiry
  | ScopeUnderlying | ScopeBook _ => None
  end.

Definition scope_expiry (scope : MassCancelScope) : option string :=
  match scope_expiration scope with
  | Some expiry =>
      match format_expiration_yyyymmdd expiry with Ok s => Some s | Err _ => None end
  | None => None
  end.

Definition sweep_leg (record : RestingRecord) : CancelledLeg :=
  {| leg_order_id := rr_venue_order_id record; leg_owner := rr_owner record;
     leg_symbol := rr_symbol record; leg_side := rr_side record;
     leg_reason := ReasonMassCancel |}.

Fixpoint sweep_loop (x : MatchingExecutor) (targets : list (OrderId * RestingRecord))
    (affected : list CancelledLeg) : MatchingExecutor * list CancelledLeg :=
  match targets with
  | [] => (x, affected)
  | (engine_id, record) :: targets =>
      match resolve_leaf_read x (rr_symbol record) with
      | None => sweep_loop x targets affected
      | Some leaf =>
          let '(book, r) := cancel_order (underlying_book x) leaf engine_id in
          let x := set_book x book in
          match r with
          | Ok true => sweep_loop (remove_resting x engine_id) targets
                         (affected ++ [sweep_leg record])
          | _ => sweep_loop x targets affected
          end
      end
  end.

(** The records a sweep selects, given the order the hash map iterates in. *)
Definition sweep_targets (entries : list (OrderId * RestingRecord)) (scope : MassCancelScope)
    (cancel_type : MassCancelType) (account_scope : option AccountId) :
    list (OrderId * RestingRecord) :=
  sort_by_key String.leb (λ p, rr_venue_order_id p.2)
    (filter (λ p, mass_cancel_matches p.2 scope (scope_expiry scope) cancel_type
                    account_scope = true) entries).

Definition sweep_matching (x : MatchingExecutor) (scope : MassCancelScope)
    (cancel_type : MassCancelType) (account_scope : option AccountId) :
    MatchingExecutor * list CancelledLeg :=
  sweep_loop x (sweep_targets (map_to_list (resting x)) scope cancel_type account_scope) [].

Definition execute_mass_cancel (x : MatchingExecutor) (scope : MassCancelScope)
    (cancel_type : MassCancelType) (account : AccountId) : MatchingExecutor * VenueOutcome :=
  match format_expiration_yyyymmdd <$> scope_expiration scope with
  | Some (Err error) =>
      (x, Rejected InvalidOrder ("mass-cancel scope expiry is unresolvable: " +:+ error))
  | _ =>
      let account_scope :=
        match cancel_type with CancelAll => None | ByUser _ | BySide _ => Some account end in
      let '(x, affected) := sweep_matching x scope cancel_type account_scope in
      (x, MassCancelled affected)
  end.

(** The distinct symbols, in order of first appearance. *)
Fixpoint distinct_symbols (seen : gset string) (symbols : list Symbol) : list Symbol :=
  match symbols with
  | [] => []
  | s :: symbols =>
      if bool_decide (s ∈ seen) then distinct_symbols seen symbols
      else s :: distinct_symbols ({[s]} ∪ seen) symbols
  end.

Fixpoint evict_leaves (x : MatchingExecutor) (cutoff : Z) (leaves : list Symbol)
    (evicted_ids : list OrderId) : MatchingExecutor * list OrderId :=
  match leaves with
  | [] => (x, evicted_ids)
  | symbol :: leaves =>
      match resolve_leaf_read x symbol with
      | None => evict_leaves x cutoff leaves evicted_ids
      | Some leaf =>
          let '(book, r) := evict_expired_orders (underlying_book x) leaf cutoff in
          let x := set_book x book in
          evict_leaves x cutoff leaves
            (match r with Ok ids => evicted_ids ++ ids | Err _ => evicted_ids end)
      end
  end.

Fixpoint evict_records (x : MatchingExecutor) (ids : list OrderId)
    (evicted : list VenueOrderId) : MatchingExecutor * list VenueOrderId :=
  match ids with
  | [] => (x, evicted)
  | engine_id :: ids =>
      match resting x !! engine_id with
      | None => evict_records x ids evicted
      | Some record =>
          evict_records (remove_resting x engine_id) ids
            (evicted ++ [rr_venue_order_id record])
      end
  end.

Definition execute_evict_expired (x : MatchingExecutor) (now_ms : EventTimestamp) :
    MatchingExecutor * VenueOutcome :=
  let leaves := distinct_symbols ∅ ((λ p, rr_symbol p.2) <$> map_to_list (resting x)) in
  let '(x, evicted_ids) := evict_leaves x now_ms leaves [] in
  let '(x, evicted) := evict_records x evicted_ids [] in
  (x, Evicted (sort_by_key String.leb id evicted)).

(** ** Dispatch *)

Definition apply_control (sink : option (list MarketMakerControlKnobs))
    (knobs : MarketMakerControlKnobs) : option (list MarketMakerControlKnobs) :=
  (λ log, log ++ [knobs]) <$> sink.

Definition execute_control (x : MatchingExecutor) (knobs : MarketMakerControlKnobs) :
    MatchingExecutor * VenueOutcome :=
  let x := set_mm_control x (apply_control (mm_control x) knobs) in
  let '(x, swept) :=
    if bool_decide (knob_enabled knobs = Some false)
    then sweep_matching x ScopeUnderlying (ByUser MARKET_MAKER_OWNER) None
    else (x, []) in
  (x, ControlApplied swept).

Definition execute (x : MatchingExecutor) (ctx : ExecutionContext) :
    MatchingExecutor * VenueOutcome :=
  match ctx_command ctx with
  | AddOrder symbol order_id account owner client_order_id side order_type limit_price
      quantity time_in_force _ =>
      add_with_idempotency x ctx symbol order_id account owner client_order_id side order_type
        limit_price quantity time_in_force
  | CancelOrder symbol order_id account => execute_cancel x symbol order_id account
  | Replace symbol order_id new_order_id account _ _ side limit_price quantity time_in_force _ =>
      execute_replace x ctx symbol order_id new_order_id account side limit_price quantity
        time_in_force
  | MarketMakerControl spread_multiplier size_scalar directional_skew enabled =>
      execute_control x
        {| knob_spread_multiplier := spread_multiplier; knob_size_scalar := size_scalar;
           knob_directional_skew := directional_skew; knob_enabled := enabled |}
  | Clock _ | SimStep _ _ _ _ _ => (x, ControlApplied [])
  | SetInstrumentStatus symbol status => execute_set_instrument_status x symbol status
  | MassCancel scope cancel_type account => execute_mass_cancel x scope cancel_type account
  | EvictExpiredOrders now_ms => execute_evict_expired x now_ms
  end.

(** ** Snapshot capture *)

Definition capture_resting (x : MatchingExecutor) (entry : OrderId * RestingRecord) :
    option RestingOrderCapture :=
  let '(engine_id, record) := entry in
  leaf ← resolve_leaf_read x (rr_symbol record);
  order ← get_order (underlying_book x) leaf engine_id;
  engine_seq ← order_id_as_u64 engine_id;
  price_cents ← narrow u64 (ov_price order);
  Some {| roc_symbol := rr_symbol record; roc_order_id := rr_venue_order_id record;
          roc_account := rr_account record; roc_owner := rr_owner record;
          roc_engine_seq := engine_seq; roc_side := ov_side order; roc_price := price_cents;
          roc_quantity := ov_visible_quantity order;
          roc_time_in_force := ov_time_in_force order |}.

(** The non-[Active] statuses of the leaves, by symbol. *)
Definition capture_leaf_status (x : MatchingExecutor) (leaf : Leaf) :
    option InstrumentStatusCapture :=
  let status := leaf_status (underlying_book x) leaf in
  if bool_decide (status = Active) then None
  else
    let symbol := leaf_symbol (underlying_book x) leaf in
    match parse_symbol symbol with
    | Err _ => None
    | Ok parsed => Some {| isc_symbol := to_symbol parsed; isc_status := status |}
    end.

Definition capture_instrument_statuses (x : MatchingExecutor) : list InstrumentStatusCapture :=
  let book := underlying_book x in
  let leaves :=
    expiration ← expirations book;
    strike ← filter (λ k, has_strike book expiration k = true)
               (sort_by_key Z.leb id (strike_prices book expiration));
    [ {| leaf_expiration := expiration; leaf_strike := strike; leaf_style := Call |};
      {| leaf_expiration := expiration; leaf_strike := strike; leaf_style := Put |} ] in
  sort_by_key String.leb isc_symbol (omap (capture_leaf_status x) leaves).

Definition capture_state (x : MatchingExecutor) : ExecutorState :=
  {| resting_orders :=
       sort_by_key Z.leb roc_engine_seq (omap (capture_resting x) (map_to_list (resting x)));
     es_idempotency := idempotency_capture (idempotency x);
     es_instrument_statuses := capture_instrument_statuses x |}.

(** ** Restore *)

Definition prepare_order (expected : string) (capture : RestingOrderCapture) :
    result SnapshotError PreparedRestingOrder :=
  parsed ← map_err
             (λ e, RebuildFailed ("unparseable symbol '" +:+ roc_symbol capture +:+ "': " +:+ e))
             (parse_symbol (roc_symbol capture));
  if negb (String.eqb (ps_underlying parsed) expected)
  then Err (RebuildFailed ("cross-underlying symbol '" +:+ roc_symbol capture +:+
                           "' does not match underlying '" +:+ expected +:+ "'"))
  else Ok {| pro_symbol := roc_symbol capture; pro_order_id := roc_order_id capture;
             pro_account := roc_account capture; pro_owner := roc_owner capture;
             pro_engine_seq := roc_engine_seq capture; pro_side := roc_side capture;
             pro_price := roc_price capture; pro_quantity := roc_quantity capture;
             pro_time_in_force := roc_time_in_force capture |}.

Fixpoint prepare_orders (expected : string) (captures : list RestingOrderCapture) :
    result SnapshotError (list PreparedRestingOrder) :=
  match captures with
  | [] => Ok []
  | capture :: captures =>
      order ← prepare_order expected capture;
      orders ← prepare_orders expected captures;
      Ok (order :: orders)
  end.

Definition rebuild_one (x : MatchingExecutor) (order : PreparedRestingOrder) :
    MatchingExecutor * result SnapshotError unit :=
  let '(x, leaf) := resolve_leaf_vivify x (pro_symbol order) in
  match leaf with
  | Err reason =>
      (x, Err (RebuildFailed ("could not vivify leaf for '" +:+ pro_symbol order +:+ "': " +:+
                              reason)))
  | Ok leaf =>
      let engine_id := sequential (pro_engine_seq order) in
      let '(book, r) :=
        add_limit_order (underlying_book x) leaf engine_id (pro_side order) (pro_price order)
          (pro_quantity order) (pro_time_in_force order) (pro_owner order) in
      let x := set_book x book in
      match r with
      | Err error =>
          (x, Err (RebuildFailed ("re-adding restored order '" +:+ pro_order_id order +:+
                                  "' failed: " +:+ error)))
      | Ok _ =>
          (register_resting x engine_id (pro_symbol order) (pro_order_id order)
             (pro_account order) (pro_owner order) (pro_side order), Ok tt)
      end
  end.

Fixpoint rebuild_from (x : MatchingExecutor) (orders : list PreparedRestingOrder) :
    MatchingExecutor * result SnapshotError unit :=
  match orders with
  | [] => (x, Ok tt)
  | order :: orders =>
      let '(x, r) := rebuild_one x order in
      match r with Err e => (x, Err e) | Ok _ => rebuild_from x orders end
  end.

Fixpoint apply_instrument_statuses (x : MatchingExecutor)
    (captures : list InstrumentStatusCapture) : MatchingExecutor * result SnapshotError unit :=
  match captures with
  | [] => (x, Ok tt)
  | capture :: captures =>
      let '(x, leaf) := resolve_leaf_vivify x (isc_symbol capture) in
      match leaf with
      | Err reason =>
          (x, Err (RebuildFailed ("could not vivify leaf for status restore '" +:+
                                  isc_symbol capture +:+ "': " +:+ reason)))
      | Ok leaf =>
          let '(book, r) := set_status (underlying_book x) leaf (isc_status capture) in
          let x := set_book x book in
          match r with
          | Err error =>
              (x, Err (RebuildFailed ("restoring instrument status " +:+
                                      status_display (isc_status capture) +:+ " for '" +:+
                                      isc_symbol capture +:+ "' failed: " +:+ error)))
          | Ok _ => apply_instrument_statuses x captures
          end
      end
  end.

(** The live executor is only read, for its underlying. *)
Definition prepare_restore (x : MatchingExecutor) (resting : list RestingOrderCapture)
    (idempotency : list IdempotencyRecord)
    (instrument_statuses : list InstrumentStatusCapture) :
    result SnapshotError MatchingExecutor :=
  let expected := underlying x in
  orders ← prepare_orders expected resting;
  let orders := sort_by_key Z.leb pro_engine_seq orders in
  let '(detached, r) := rebuild_from (executor_new expected) orders in
  _ ← r;
  let detached := set_idempotency detached (idempotency_from_records idempotency) in
  let '(detached, r) := apply_instrument_statuses detached instrument_statuses in
  _ ← r;
  Ok detached.

Definition commit_restore (x : MatchingExecutor) (prepared : MatchingExecutor) :
    MatchingExecutor := prepared.
End executor.
