(* ===== verification/ExecutorInv.v ===== *)
(** What each operation of the executor may change, and the invariants that follow.

    Matching only ever shrinks the venue registry, except that one add per command registers
    the order it leaves resting; the idempotency map, the instrument statuses and the control
    sink have one writer each.  These frame facts carry the registry invariant, idempotent
    placement, ownership and isolation of cancels, the sweeps, fill capture and the
    lifecycle gate. *)

From S2P Require Export Executor.

Section frame.
Context `{Upstream}.
Implicit Types x y z : MatchingExecutor.

(** ** Shrinking the registry *)

Definition same_registry x y : Prop :=
  resting x = resting y ∧ venue_to_engine x = venue_to_engine y.

Definition shrinks x y : Prop := ∃ ids, same_registry (remove_all x ids) y.

(** [y] keeps everything of [x] the registry does not hold, the book apart. *)
Definition same_frame x y : Prop :=
  idempotency x = idempotency y ∧ instrument_status x = instrument_status y
  ∧ mm_control x = mm_control y.

Definition evolves x y : Prop := shrinks x y ∧ same_frame x y.

#[export] Instance same_registry_equiv : Equivalence same_registry.
Proof.
  split; unfold same_registry; [done|by intros ?? []|].
  by intros ??? [-> ->] [-> ->].
Qed.

#[export] Instance same_frame_equiv : Equivalence same_frame.
Proof.
  split; unfold same_frame; [done|by intros ?? (? & ? & ?)|].
  by intros ??? (-> & -> & ->) (-> & -> & ->).
Qed.

#[export] Instance remove_resting_proper :
  Proper (same_registry ==> eq ==> same_registry) remove_resting.
Proof.
  intros x y [Hr Hv] e ? <-. unfold remove_resting. rewrite Hr.
  destruct (resting y !! e); [|done]. split; cbn; by rewrite ?Hr, ?Hv.
Qed.

#[export] Instance remove_all_proper :
  Proper (same_registry ==> eq ==> same_registry) remove_all.
Proof.
  intros x y Hxy ids ? <-. unfold remove_all. revert x y Hxy.
  induction ids as [|e ids IH]; cbn; intros x y Hxy; [done|]. apply IH. by rewrite Hxy.
Qed.

Lemma remove_all_app x ids1 ids2 :
  remove_all x (ids1 ++ ids2) = remove_all (remove_all x ids1) ids2.
Proof. apply foldl_app. Qed.

Lemma remove_resting_frame x e : same_frame x (remove_resting x e).
Proof. unfold remove_resting. by destruct (resting x !! e). Qed.

Lemma remove_all_frame x ids : same_frame x (remove_all x ids).
Proof.
  unfold remove_all. revert x. induction ids as [|e ids IH]; intros x; cbn; [done|].
  rewrite <-IH. apply remove_resting_frame.
Qed.

Lemma remove_resting_book x e : underlying_book (remove_resting x e) = underlying_book x.
Proof. unfold remove_resting. by destruct (resting x !! e). Qed.

Lemma remove_all_book x ids : underlying_book (remove_all x ids) = underlying_book x.
Proof.
  unfold remove_all. revert x. induction ids as [|e ids IH]; intros x; cbn; [done|].
  by rewrite IH, remove_resting_book.
Qed.

#[export] Instance evolves_refl : Reflexive evolves.
Proof. intros x. split; [by exists []|done]. Qed.

#[export] Instance evolves_trans : Transitive evolves.
Proof.
  intros x y z [[ids1 H1] F1] [[ids2 H2] F2]. split; [|by transitivity y].
  exists (ids1 ++ ids2). by rewrite remove_all_app, H1, H2.
Qed.

Lemma evolves_set_book x b : evolves x (set_book x b).
Proof. split; [by exists []|done]. Qed.

Lemma evolves_set_book_r x y b : evolves x y → evolves x (set_book y b).
Proof. intros Hxy. transitivity y; [done|]. apply evolves_set_book. Qed.

Lemma evolves_remove x e : evolves x (remove_resting x e).
Proof. split; [by exists [e]|apply remove_resting_frame]. Qed.

Lemma evolves_remove_all x ids : evolves x (remove_all x ids).
Proof. split; [by exists ids|apply remove_all_frame]. Qed.

(** ** Looking up after removals *)

Lemma remove_resting_lookup x e e' :
  resting (remove_resting x e) !! e' = if decide (e = e') then None else resting x !! e'.
Proof.
  unfold remove_resting. destruct (resting x !! e) as [r|] eqn:Hr; cbn.
  - rewrite lookup_delete. by destruct (decide (e = e')).
  - by destruct (decide (e = e')) as [<-|].
Qed.

Lemma remove_all_lookup x ids e :
  resting (remove_all x ids) !! e = if decide (e ∈ ids) then None else resting x !! e.
Proof.
  revert x. induction ids as [|e' ids IH]; intros x; cbn [remove_all foldl].
  { rewrite decide_False; [done|apply not_elem_of_nil]. }
  fold (remove_all (remove_resting x e') ids). rewrite IH, remove_resting_lookup.
  destruct (decide (e ∈ ids)), (decide (e ∈ e' :: ids)), (decide (e' = e)); set_solver.
Qed.

Lemma evolves_lookup x y e r :
  evolves x y → resting y !! e = Some r → resting x !! e = Some r.
Proof.
  intros [[ids [Hr _]] _]. rewrite <-Hr, remove_all_lookup. by case_decide.
Qed.

(** ** The operations *)

Lemma vivify_evolves x symbol : evolves x (resolve_leaf_vivify x symbol).1.
Proof.
  unfold resolve_leaf_vivify. destruct (parse_symbol symbol); [|done].
  case_match; [done|]. apply evolves_set_book.
Qed.

Lemma stp_cancelled_diff_evolves x before after filled incoming :
  evolves x (stp_cancelled_diff x before after filled incoming).1.
Proof. apply evolves_remove_all. Qed.

(** The order an add may leave resting. *)
Definition registers x (ctx : ExecutionContext) (symbol : Symbol) (v : VenueOrderId)
    (account : AccountId) (owner : Hash32) (side : Side) y : Prop :=
  y = register_resting x (engine_order_id (ctx_sequence ctx)) symbol v account owner side.

Lemma run_add_evolves x ctx leaf symbol v account owner side price q tif :
  let '(y, add) := run_add x ctx leaf symbol v account owner side price q tif in
  ∃ x1, evolves x x1 ∧
    ((y = x1 ∧ ar_resting_quantity add ≤ 0) ∨
     (registers x1 ctx symbol v account owner side y ∧ 0 < ar_resting_quantity add)).
Proof.
  unfold run_add. destruct (add_limit_order _ _ _ _ _ _ _ _) as [book r].
  match goal with
  | |- context [match ?c with Ok _ => _ | Err _ => _ end] =>
      destruct c as [captured|err]
  end.
  2: { eexists. split; [|by left]. by do 2 apply evolves_set_book_r. }
  set (x0 := remove_all _ _).
  assert (evolves x x0) as Hx0.
  { transitivity (set_book (set_book x (arm_trade_capture (underlying_book x) leaf true)) book).
    - by do 2 apply evolves_set_book_r.
    - apply evolves_remove_all. }
  assert (∀ b : bool, ∃ x1 legs,
    (if b then stp_cancelled_diff x0 (if b then owner_resting_ids
        (underlying_book (set_book x (arm_trade_capture (underlying_book x) leaf true)))
        leaf owner else ∅) (owner_resting_ids book leaf owner)
        (cf_filled_maker_ids captured) (engine_order_id (ctx_sequence ctx)) else (x0, []))
    = (x1, legs) ∧ evolves x x1) as Hstp.
  { intros [|]; [|by eexists _, _].
    eexists _, _. split; [apply surjective_pairing|].
    transitivity x0; [done|apply stp_cancelled_diff_evolves]. }
  match goal with |- context [negb ?b] => destruct (Hstp (negb b)) as (x1 & legs & -> & Hx1) end.
  cbn [ar_resting_quantity].
  exists x1. split; [done|].
  match goal with |- context [0 <? ?n] => destruct (Z.ltb_spec 0 n) end.
  - right. split; [done|lia].
  - left. split; [done|lia].
Qed.

Lemma execute_market_evolves x ctx leaf v account owner side q :
  evolves x (execute_market x ctx leaf v account owner side q).1.
Proof.
  unfold execute_market. set (x0 := set_book x _).
  assert (evolves x x0) as H0 by apply evolves_set_book.
  match goal with |- context [if ?b then _ else _] => destruct b; [done|] end.
  destruct (submit_market_order _ _ _ _ _ _) as [book r].
  match goal with
  | |- context [match ?c with Ok _ => _ | Err _ => _ end] => destruct c as [captured|err]
  end; [|by apply evolves_set_book_r].
  match goal with |- context [negb ?b] => destruct (negb b) end; cbn [fst].
  - etransitivity; [|apply stp_cancelled_diff_evolves].
    etransitivity; [|apply evolves_remove_all]. by apply evolves_set_book_r.
  - etransitivity; [|apply evolves_remove_all]. by apply evolves_set_book_r.
Qed.

Lemma execute_cancel_evolves x symbol v account :
  evolves x (execute_cancel x symbol v account).1.
Proof.
  unfold execute_cancel. destruct (resolve_leaf_read x symbol) as [leaf|]; [|done].
  destruct (venue_to_engine x !! v) as [e|]; [|done]. case_match; [done|].
  destruct (cancel_order _ _ _) as [book r].
  destruct r as [[|]|]; cbn [fst]; try apply evolves_set_book.
  etransitivity; [apply evolves_set_book|apply evolves_remove].
Qed.

Lemma sweep_loop_evolves x targets affected :
  evolves x (sweep_loop x targets affected).1.
Proof.
  revert x affected. induction targets as [|[e r] targets IH]; intros x affected; cbn; [done|].
  destruct (resolve_leaf_read x (rr_symbol r)) as [leaf|]; [|apply IH].
  destruct (cancel_order _ _ _) as [book ok].
  assert (evolves x (set_book x book)) by apply evolves_set_book.
  destruct ok as [[|]|]; (etransitivity; [|apply IH]); [|done..].
  etransitivity; [done|apply evolves_remove].
Qed.

Lemma evict_leaves_evolves x cutoff leaves ids :
  evolves x (evict_leaves x cutoff leaves ids).1.
Proof.
  revert x ids. induction leaves as [|s leaves IH]; intros x ids; cbn; [done|].
  destruct (resolve_leaf_read x s) as [leaf|]; [|apply IH].
  destruct (evict_expired_orders _ _ _) as [book r].
  etransitivity; [apply evolves_set_book|apply IH].
Qed.

Lemma evict_records_evolves x ids evicted :
  evolves x (evict_records x ids evicted).1.
Proof.
  revert x evicted. induction ids as [|e ids IH]; intros x evicted; cbn; [done|].
  destruct (resting x !! e); [|apply IH].
  etransitivity; [apply evolves_remove|apply IH].
Qed.

Lemma execute_evict_evolves x now_ms : evolves x (execute_evict_expired x now_ms).1.
Proof.
  unfold execute_evict_expired.
  pose proof (evict_leaves_evolves x now_ms
    (distinct_symbols ∅ ((λ p, rr_symbol p.2) <$> map_to_list (resting x))) []) as H1.
  destruct (evict_leaves _ _ _ _) as [x1 ids].
  pose proof (evict_records_evolves x1 ids []) as H2.
  destruct (evict_records _ _ _) as [x2 evicted]. by transitivity x1.
Qed.

Lemma sweep_matching_evolves x scope ct account :
  evolves x (sweep_matching x scope ct account).1.
Proof. apply sweep_loop_evolves. Qed.

Lemma execute_mass_cancel_evolves x scope ct account :
  evolves x (execute_mass_cancel x scope ct account).1.
Proof.
  unfold execute_mass_cancel.
  set (scoped := match ct with CancelAll => None | _ => _ end).
  pose proof (sweep_matching_evolves x scope ct scoped) as Hs.
  destruct (sweep_matching _ _ _ _). by repeat case_match.
Qed.

(** An add or a replace: a shrinking step, then at most one registration under
    the command's own id and account. *)
Definition adds_one x (ctx : ExecutionContext) (v : VenueOrderId) (account : AccountId) y :
    Prop :=
  ∃ x1, evolves x x1 ∧
    (y = x1 ∨ ∃ symbol owner side, registers x1 ctx symbol v account owner side y).

Lemma adds_one_evolves x x1 ctx v account y :
  evolves x x1 → adds_one x1 ctx v account y → adds_one x ctx v account y.
Proof. intros Hx (x2 & Hx2 & Hy). exists x2. split; [by transitivity x1|done]. Qed.

Lemma run_add_adds_one x ctx leaf symbol v account owner side price q tif :
  adds_one x ctx v account
    (run_add x ctx leaf symbol v account owner side price q tif).1.
Proof.
  pose proof (run_add_evolves x ctx leaf symbol v account owner side price q tif) as Ha.
  destruct (run_add _ _ _ _ _ _ _ _ _ _ _) as [y add].
  destruct Ha as (x1 & Hx1 & [[-> _]|[Hy _]]); exists x1; eauto 10.
Qed.

Lemma evolves_adds_one x ctx v account y : evolves x y → adds_one x ctx v account y.
Proof. intros. exists y. auto. Qed.

Lemma execute_add_order_adds_one x ctx symbol v account owner side ot price q tif :
  adds_one x ctx v account
    (execute_add_order x ctx symbol v account owner side ot price q tif).1.
Proof.
  unfold execute_add_order. pose proof (vivify_evolves x symbol) as Hv.
  destruct (resolve_leaf_vivify x symbol) as [x1 leaf]; cbn [fst] in Hv.
  destruct leaf as [leaf|]; [|by apply evolves_adds_one].
  case_match; [by apply evolves_adds_one|]. apply (adds_one_evolves _ _ _ _ _ _ Hv).
  destruct ot.
  - destruct price as [price|]; [|by apply evolves_adds_one].
    pose proof (run_add_adds_one x1 ctx leaf symbol v account owner side price q tif) as Ha.
    destruct (run_add _ _ _ _ _ _ _ _ _ _ _) as [y add]. by case_match.
  - apply evolves_adds_one, execute_market_evolves.
Qed.

Lemma execute_replace_adds_one x ctx symbol v v' account side price q tif :
  adds_one x ctx v' account
    (execute_replace x ctx symbol v v' account side price q tif).1.
Proof.
  unfold execute_replace. pose proof (vivify_evolves x symbol) as Hv.
  destruct (resolve_leaf_vivify x symbol) as [x1 leaf]; cbn [fst] in Hv.
  destruct leaf as [leaf|]; [|by apply evolves_adds_one].
  destruct (venue_to_engine x1 !! v) as [e|]; [|by apply evolves_adds_one].
  case_match; [by apply evolves_adds_one|].
  destruct (cancel_order _ _ _) as [book r].
  case_match; [by apply evolves_adds_one, evolves_set_book_r|].
  assert (evolves x (remove_resting (set_book x1 book) e)) as Hr.
  { etransitivity; [by apply evolves_set_book_r|apply evolves_remove]. }
  destruct price as [price|]; [|by apply evolves_adds_one].
  set (owner := match resting x1 !! e with Some _ => _ | None => _ end).
  pose proof (run_add_adds_one (remove_resting (set_book x1 book) e) ctx leaf symbol v' account
    owner side price q tif) as Ha.
  destruct (run_add _ _ _ _ _ _ _ _ _ _ _) as [y add].
  by apply (adds_one_evolves _ _ _ _ _ _ Hr).
Qed.
End frame.

Section invariant.
Context `{Upstream}.
Implicit Types x y z : MatchingExecutor.

(** The order id a command may bring to rest. *)
Definition new_order (c : VenueCommand) : option VenueOrderId :=
  match c with
  | AddOrder _ v _ _ _ _ _ _ _ _ _ => Some v
  | Replace _ _ v _ _ _ _ _ _ _ _ => Some v
  | _ => None
  end.

(** The requesting account. *)
Definition requester (c : VenueCommand) : option AccountId :=
  match c with
  | AddOrder _ _ a _ _ _ _ _ _ _ _ | CancelOrder _ _ a | Replace _ _ _ a _ _ _ _ _ _ _
  | MassCancel _ _ a => Some a
  | _ => None
  end.

(** ** The one-step effect on the registry *)

Lemma execute_registry x ctx :
  ∃ x1, evolves x x1 ∧
    (same_registry x1 (execute x ctx).1 ∨
     ∃ v account symbol owner side,
       new_order (ctx_command ctx) = Some v ∧ requester (ctx_command ctx) = Some account ∧
       same_registry
         (register_resting x1 (engine_order_id (ctx_sequence ctx)) symbol v account owner side)
         (execute x ctx).1).
Proof.
  unfold execute. destruct (ctx_command ctx) as
    [s v a o co sd ot p q tif stp|s v a|s v v' a co oc sd p q tif stp|sc ct a|s st|now
    |sm ss sk en|now|now u p b k]; cbn [new_order requester].
  - unfold add_with_idempotency.
    pose proof (execute_add_order_adds_one x ctx s v a o sd ot p q tif) as (x1 & Hx1 & Hy).
    destruct (execute_add_order _ _ _ _ _ _ _ _ _ _ _) as [y out]; cbn [fst] in Hy.
    assert (∀ y', same_registry y y' → ∃ x1, evolves x x1 ∧
      (same_registry x1 y' ∨ ∃ v0 account symbol owner side, Some v = Some v0 ∧
         Some a = Some account ∧ same_registry (register_resting x1
           (engine_order_id (ctx_sequence ctx)) symbol v0 account owner side) y')) as Hgo.
    { intros y' Hy'. exists x1. split; [done|]. destruct Hy as [->|(sy & ow & si & ->)].
      - by left.
      - right. by exists v, a, sy, ow, si. }
    destruct co as [co|]; [|by apply Hgo].
    destruct (idempotency_lookup _ _) as [entry|]; [|by apply Hgo].
    exists x. split; [done|]. left. by case_match.
  - exists (execute_cancel x s v a).1. split; [apply execute_cancel_evolves|by left].
  - pose proof (execute_replace_adds_one x ctx s v v' a sd p q tif) as (x1 & Hx1 & Hy).
    exists x1. split; [done|]. destruct Hy as [->|(sy & ow & si & Hy)]; [by left|right].
    exists v', a, sy, ow, si. split_and!; [done..|]. by rewrite Hy.
  - exists (execute_mass_cancel x sc ct a).1.
    split; [apply execute_mass_cancel_evolves|by left].
  - exists x. split; [done|left]. unfold execute_set_instrument_status.
    assert (same_registry x (resolve_leaf_vivify x s).1) as Hv.
    { unfold resolve_leaf_vivify. by repeat case_match. }
    destruct (resolve_leaf_vivify x s) as [x1 leaf]; cbn [fst] in Hv.
    destruct leaf; [|done]. unfold try_transition. by repeat case_match.
  - exists (execute_evict_expired x now).1. split; [apply execute_evict_evolves|by left].
  - unfold execute_control. set (x0 := set_mm_control x _).
    case_bool_decide; [|exists x; split; [done|by left]].
    pose proof (sweep_matching_evolves x0 ScopeUnderlying (ByUser MARKET_MAKER_OWNER) None)
      as [[ids Hs] _].
    destruct (sweep_matching _ _ _ _) as [y swept]; cbn [fst] in *.
    exists (remove_all x ids). split; [apply evolves_remove_all|]. left.
    transitivity (remove_all x0 ids); [|done]. by apply remove_all_proper.
  - exists x. split; [done|by left].
  - exists x. split; [done|by left].
Qed.

(** ** The registry invariant *)

(** The two maps are inverse to each other, and every engine id was minted
    from a sequence below [n]. *)
Record registry_wf (n : Z) x : Prop := {
  wf_v2e v e : venue_to_engine x !! v = Some e ↔
    ∃ r, resting x !! e = Some r ∧ rr_venue_order_id r = v;
  wf_ids e r : resting x !! e = Some r → ∃ k, e = sequential k ∧ k < n;
}.

Lemma registry_wf_same n x y : same_registry x y → registry_wf n x → registry_wf n y.
Proof.
  intros [Hr Hv] [H1 H2]. split; intros v e; rewrite <-Hr; [|apply H2].
  rewrite <-Hv. apply H1.
Qed.

Lemma registry_wf_unique n x e1 e2 r1 r2 :
  registry_wf n x → resting x !! e1 = Some r1 → resting x !! e2 = Some r2 →
  rr_venue_order_id r1 = rr_venue_order_id r2 → e1 = e2.
Proof.
  intros Hwf H1 H2 E.
  assert (venue_to_engine x !! rr_venue_order_id r1 = Some e1)
    by (apply (wf_v2e _ _ Hwf); eauto).
  assert (venue_to_engine x !! rr_venue_order_id r1 = Some e2)
    by (apply (wf_v2e _ _ Hwf); eauto).
  congruence.
Qed.

Lemma registry_wf_remove n x e : registry_wf n x → registry_wf n (remove_resting x e).
Proof.
  intros Hwf. unfold remove_resting. destruct (resting x !! e) as [r|] eqn:Hr; [|done].
  split; cbn.
  - intros v e'. rewrite lookup_delete_Some, (wf_v2e _ _ Hwf). split.
    + intros (Hne & r' & Hr' & <-). exists r'. split; [|done].
      rewrite lookup_delete_ne; [done|]. intros <-. congruence.
    + intros (r' & Hr' & <-). apply lookup_delete_Some in Hr' as [Hne Hr'].
      split; [|by exists r'].
      intros E. apply Hne. by eapply registry_wf_unique.
  - intros e' r' [_ Hr']%lookup_delete_Some. by eapply wf_ids.
Qed.

Lemma registry_wf_remove_all n x ids : registry_wf n x → registry_wf n (remove_all x ids).
Proof.
  unfold remove_all. revert x. induction ids as [|e ids IH]; intros x Hx; cbn; [done|].
  by apply IH, registry_wf_remove.
Qed.

Lemma registry_wf_evolves n x y : evolves x y → registry_wf n x → registry_wf n y.
Proof.
  intros [[ids Hs] _] Hx. eapply registry_wf_same; [done|]. by apply registry_wf_remove_all.
Qed.

Lemma registry_wf_mono n m x : n ≤ m → registry_wf n x → registry_wf m x.
Proof.
  intros Hn [H1 H2]. split; [done|]. intros e r Hr. destruct (H2 e r Hr) as (k & -> & ?).
  exists k. split; [done|lia].
Qed.

Lemma evolves_v2e_None n x y v :
  registry_wf n x → evolves x y → venue_to_engine x !! v = None →
  venue_to_engine y !! v = None.
Proof.
  intros Hx Hxy Hv. apply eq_None_not_Some. intros [e He].
  apply (wf_v2e n y (registry_wf_evolves _ _ _ Hxy Hx)) in He as (r & Hr & Hrv).
  assert (venue_to_engine x !! v = Some e); [|congruence].
  apply (wf_v2e n x Hx). exists r. split; [|done]. by eapply evolves_lookup.
Qed.

Lemma registry_wf_register `{!OrderIdLaws} n x symbol v account owner side :
  registry_wf n x → venue_to_engine x !! v = None →
  registry_wf (n + 1) (register_resting x (engine_order_id n) symbol v account owner side).
Proof.
  intros Hwf Hv.
  assert (resting x !! engine_order_id n = None) as Hn.
  { apply eq_None_not_Some. intros [r Hr]. destruct (wf_ids _ _ Hwf _ _ Hr) as (k & E & Hk).
    apply sequential_inj in E. lia. }
  split; cbn.
  - intros v' e. rewrite lookup_insert. setoid_rewrite lookup_insert.
    destruct (decide (v = v')) as [<-|Hne].
    + split.
      * intros [= <-]. rewrite decide_True by done. by eexists.
      * destruct (decide (engine_order_id n = e)) as [<-|]; [done|].
        intros Hr. apply (wf_v2e _ _ Hwf) in Hr. congruence.
    + rewrite (wf_v2e _ _ Hwf). destruct (decide (engine_order_id n = e)) as [<-|]; [|done].
      split.
      * intros (r & Hr & _). congruence.
      * intros (r & [= <-] & Hr). cbn in Hr. congruence.
  - intros e r. rewrite lookup_insert. case_decide as E.
    + intros _. exists n. split; [done|lia].
    + intros Hr. destruct (wf_ids _ _ Hwf _ _ Hr) as (k & -> & ?).
      exists k. split; [done|lia].
Qed.

Lemma execute_registry_wf `{!OrderIdLaws} n x ctx :
  registry_wf n x → ctx_sequence ctx = n →
  (∀ v, new_order (ctx_command ctx) = Some v → venue_to_engine x !! v = None) →
  registry_wf (n + 1) (execute x ctx).1.
Proof.
  intros Hx <- Hfresh.
  destruct (execute_registry x ctx) as (x1 & Hx1 & [Hs|(v & a & s & o & sd & Hv & _ & Hs)]).
  - eapply registry_wf_same; [done|]. apply (registry_wf_mono (ctx_sequence ctx)); [lia|].
    by eapply registry_wf_evolves.
  - eapply registry_wf_same; [done|]. apply registry_wf_register.
    + by eapply registry_wf_evolves.
    + eapply evolves_v2e_None; [done..|]. by apply Hfresh.
Qed.

(** ** Runs *)

(** The commands of one underlying, executed in sequence order from [n]. *)
Definition context (u : string) (lineage : LineageId) (n : Z) (tc : EventTimestamp * VenueCommand)
    : ExecutionContext :=
  {| ctx_underlying := u; ctx_lineage_id := lineage; ctx_sequence := n;
     ctx_venue_ts := tc.1; ctx_command := tc.2 |}.

Fixpoint run (u : string) (lineage : LineageId) (x : MatchingExecutor) (n : Z)
    (cs : list (EventTimestamp * VenueCommand)) : MatchingExecutor * list VenueOutcome :=
  match cs with
  | [] => (x, [])
  | tc :: cs =>
      let '(x, outcome) := execute x (context u lineage n tc) in
      let '(x, outcomes) := run u lineage x (n + 1) cs in
      (x, outcome :: outcomes)
  end.

Lemma run_cons u lineage x n tc cs :
  (run u lineage x n (tc :: cs)).1 =
    (run u lineage (execute x (context u lineage n tc)).1 (n + 1) cs).1.
Proof. cbn. destruct (execute _ _) as [y o]; cbn [fst]. by destruct (run _ _ _ _ _). Qed.

Lemma execute_new_ids n x ctx v e :
  registry_wf n x → venue_to_engine (execute x ctx).1 !! v = Some e →
  is_Some (venue_to_engine x !! v) ∨ new_order (ctx_command ctx) = Some v.
Proof.
  intros Hx He.
  destruct (execute_registry x ctx) as (x1 & Hx1 & [[_ Hs]|(v' & a & s & o & sd & Hv & _ & [_ Hs])]).
  - left. apply not_eq_None_Some. intros Hn.
    pose proof (evolves_v2e_None _ _ _ _ Hx Hx1 Hn). congruence.
  - rewrite <-Hs in He. cbn in He. rewrite lookup_insert in He.
    destruct (decide (v' = v)) as [<-|]; [by right|]. left. apply not_eq_None_Some. intros Hn.
    pose proof (evolves_v2e_None _ _ _ _ Hx Hx1 Hn). congruence.
Qed.

Definition new_orders (cs : list (EventTimestamp * VenueCommand)) : list VenueOrderId :=
  omap (λ tc, new_order tc.2) cs.

Lemma run_registry_wf `{!OrderIdLaws} u lineage x n cs :
  registry_wf n x → NoDup (new_orders cs) →
  (∀ v, v ∈ new_orders cs → venue_to_engine x !! v = None) →
  registry_wf (n + Z.of_nat (length cs)) (run u lineage x n cs).1.
Proof.
  revert x n. induction cs as [|tc cs IH]; intros x n Hx Hnd Hfresh.
  { cbn. by rewrite Z.add_0_r. }
  rewrite run_cons.
  replace (n + Z.of_nat (length (tc :: cs))) with ((n + 1) + Z.of_nat (length cs))
    by (cbn [length]; lia).
  assert (registry_wf (n + 1) (execute x (context u lineage n tc)).1) as Hx'.
  { apply execute_registry_wf; [done..|]. intros v Hv. cbn in Hv. apply Hfresh.
    unfold new_orders. cbn. rewrite Hv. by left. }
  unfold new_orders in *. cbn in Hnd, Hfresh.
  apply IH; [done| |].
  - destruct (new_order tc.2); [by apply NoDup_cons in Hnd as [_ ?]|done].
  - intros v Hv. apply eq_None_not_Some. intros [e He].
    destruct (execute_new_ids n x _ _ _ Hx He) as [[e' He']|Hv']; cbn in *.
    + rewrite Hfresh in He'; [done|]. destruct (new_order tc.2); [by right|done].
    + rewrite Hv' in Hnd. by apply NoDup_cons in Hnd as [? _].
Qed.

Lemma from_book_wf n b : registry_wf n (from_book b).
Proof.
  split; cbn; intros *.
  - rewrite lookup_empty. split; [done|]. intros (r & Hr & _). by rewrite lookup_empty in Hr.
  - by rewrite lookup_empty.
Qed.

(** ** The idempotency map grows monotonically *)

Lemma execute_idempotency x ctx key entry :
  idempotency x !! key = Some entry → idempotency (execute x ctx).1 !! key = Some entry.
Proof.
  intros Hk. unfold execute. destruct (ctx_command ctx) as
    [s v a o co sd ot p q tif stp|s v a|s v v' a co oc sd p q tif stp|sc ct a|s st|now
    |sm ss sk en|now|now u p b k].
  - unfold add_with_idempotency.
    pose proof (execute_add_order_adds_one x ctx s v a o sd ot p q tif) as (x1 & [_ Hx1] & Hy).
    destruct (execute_add_order _ _ _ _ _ _ _ _ _ _ _) as [y out]; cbn [fst] in Hy.
    assert (idempotency y = idempotency x) as Hid.
    { destruct Hx1 as [-> _]. by destruct Hy as [->|(sy & ow & si & ->)]. }
    destruct co as [co|]; [|cbn [fst]; by rewrite Hid].
    unfold idempotency_lookup. destruct (idempotency x !! (a, co)) as [entry'|] eqn:E;
      [by case_match|].
    cbn. unfold idempotency_record. rewrite Hid. rewrite lookup_insert_ne; [done|congruence].
  - destruct (execute_cancel_evolves x s v a) as [_ [<- _]]. done.
  - destruct (execute_replace_adds_one x ctx s v v' a sd p q tif) as (x1 & [_ [Hx1 _]] & Hy).
    rewrite Hx1 in Hk. destruct Hy as [->|(sy & ow & si & Hy)]; [done|]. by rewrite Hy.
  - destruct (execute_mass_cancel_evolves x sc ct a) as [_ [<- _]]. done.
  - unfold execute_set_instrument_status.
    destruct (vivify_evolves x s) as [_ [Hv _]].
    destruct (resolve_leaf_vivify x s) as [x1 leaf]; cbn [fst] in Hv. rewrite Hv in Hk.
    destruct leaf; [|done]. unfold try_transition. by repeat case_match.
  - destruct (execute_evict_evolves x now) as [_ [<- _]]. done.
  - unfold execute_control. set (x0 := set_mm_control x _).
    case_bool_decide; [|done].
    destruct (sweep_matching_evolves x0 ScopeUnderlying (ByUser MARKET_MAKER_OWNER) None)
      as [_ [Hs _]].
    destruct (sweep_matching _ _ _ _) as [y swept]; cbn [fst] in *. by rewrite <-Hs.
  - done.
  - done.
Qed.

Lemma run_idempotency u lineage x n cs key entry :
  idempotency x !! key = Some entry →
  idempotency (run u lineage x n cs).1 !! key = Some entry.
Proof.
  revert x n. induction cs as [|tc cs IH]; intros x n Hk; [done|].
  rewrite run_cons. by apply IH, execute_idempotency.
Qed.

(** ** Where a resting order comes from *)

Lemma execute_provenance x ctx e r :
  resting (execute x ctx).1 !! e = Some r →
  resting x !! e = Some r ∨
  (e = engine_order_id (ctx_sequence ctx) ∧
   new_order (ctx_command ctx) = Some (rr_venue_order_id r) ∧
   requester (ctx_command ctx) = Some (rr_account r)).
Proof.
  intros Hr.
  destruct (execute_registry x ctx) as (x1 & Hx1 & [[Hs _]|(v & a & s & o & sd & Hv & Ha & [Hs _])]).
  - left. rewrite <-Hs in Hr. by eapply evolves_lookup.
  - rewrite <-Hs in Hr. cbn in Hr. rewrite lookup_insert in Hr. case_decide as E.
    + right. injection Hr as <-. done.
    + left. by eapply evolves_lookup.
Qed.

Lemma run_provenance u lineage x n cs e r :
  resting (run u lineage x n cs).1 !! e = Some r →
  resting x !! e = Some r ∨
  ∃ i tc, cs !! i = Some tc ∧ e = engine_order_id (n + Z.of_nat i) ∧
    new_order tc.2 = Some (rr_venue_order_id r) ∧ requester tc.2 = Some (rr_account r).
Proof.
  revert x n. induction cs as [|tc cs IH]; intros x n Hr; [by left|].
  rewrite run_cons in Hr. destruct (IH _ _ Hr) as [Hx|(i & tc' & Hi & -> & Hv & Ha)].
  - destruct (execute_provenance _ _ _ _ Hx) as [?|(-> & Hv & Ha)]; [by left|right].
    exists 0%nat, tc. cbn in *. by rewrite Z.add_0_r.
  - right. exists (S i), tc'. split_and!; [done| |done..]. f_equal. lia.
Qed.

(** ** Sweeps *)

Lemma sweep_loop_spec x targets affected :
  ∃ swept, swept `sublist_of` targets ∧
    (sweep_loop x targets affected).2 = affected ++ (sweep_leg <$> swept.*2) ∧
    same_registry (remove_all x swept.*1) (sweep_loop x targets affected).1.
Proof.
  revert x affected. induction targets as [|[e r] targets IH]; intros x affected; cbn.
  { exists []. cbn. by rewrite app_nil_r. }
  assert (∀ y, same_registry x y → ∃ swept, swept `sublist_of` (e, r) :: targets ∧
    (sweep_loop y targets affected).2 = affected ++ (sweep_leg <$> swept.*2) ∧
    same_registry (remove_all x swept.*1) (sweep_loop y targets affected).1) as Hskip.
  { intros y Hy. destruct (IH y affected) as (swept & Hsub & Hl & Hs).
    exists swept. split_and!; [by apply sublist_cons|done|]. by rewrite Hy. }
  destruct (resolve_leaf_read x (rr_symbol r)) as [leaf|]; [|by apply Hskip].
  destruct (cancel_order _ _ _) as [book ok].
  destruct ok as [[|]|]; [|by apply Hskip..].
  destruct (IH (remove_resting (set_book x book) e) (affected ++ [sweep_leg r]))
    as (swept & Hsub & Hl & Hs).
  exists ((e, r) :: swept). split_and!.
  - by apply sublist_skip.
  - rewrite Hl. by rewrite <-(assoc_L (++)).
  - cbn. rewrite <-Hs. unfold remove_all. cbn.
    apply remove_all_proper; [|done]. by apply remove_resting_proper.
Qed.

(** What a sweep of [x] selects. *)
Definition selected x scope cancel_type account_scope (e : OrderId) (r : RestingRecord) : Prop :=
  resting x !! e = Some r ∧
  mass_cancel_matches r scope (scope_expiry scope) cancel_type account_scope = true.

Lemma elem_of_sweep_targets x scope ct acc e r :
  (e, r) ∈ sweep_targets (map_to_list (resting x)) scope ct acc ↔ selected x scope ct acc e r.
Proof.
  unfold sweep_targets, selected.
  rewrite elem_of_sort_by_key, list_elem_of_filter, elem_of_map_to_list. cbn. tauto.
Qed.

Lemma NoDup_sweep_targets x scope ct acc :
  NoDup (sweep_targets (map_to_list (resting x)) scope ct acc).
Proof.
  unfold sweep_targets. rewrite sort_by_key_perm. apply NoDup_filter, NoDup_map_to_list.
Qed.

(** The sweep as a whole: the swept records are selected ones, each contributes
    its leg in order of venue id, exactly they leave the registry. *)
Lemma sweep_matching_spec x scope ct acc :
  ∃ swept, NoDup swept ∧
    key_sorted String.leb (λ p, rr_venue_order_id p.2) swept ∧
    (∀ e r, (e, r) ∈ swept → selected x scope ct acc e r) ∧
    (sweep_matching x scope ct acc).2 = sweep_leg <$> swept.*2 ∧
    ∀ e, resting (sweep_matching x scope ct acc).1 !! e =
      if decide (e ∈ swept.*1) then None else resting x !! e.
Proof.
  unfold sweep_matching.
  destruct (sweep_loop_spec x (sweep_targets (map_to_list (resting x)) scope ct acc) [])
    as (swept & Hsub & Hl & [Hs _]).
  exists swept. split_and!.
  - eapply sublist_NoDup; [|done]. apply NoDup_sweep_targets.
  - eapply StronglySorted_sublist; [done|]. by apply sort_by_key_sorted, _.
  - intros e r Hin. apply elem_of_sweep_targets. by eapply elem_of_sublist.
  - done.
  - intros e. rewrite <-Hs. apply remove_all_lookup.
Qed.
End invariant.
