(* ===== verification/Fills.v ===== *)
(** Fill capture: [build_fills] against its specification, a pair of legs per
    trade, and what it means for the quantities and fees of an outcome. *)

From S2P Require Export ExecutorInv Envelope.

Section fills.
Context `{Upstream}.
Implicit Types x y z : MatchingExecutor.

(** The legs of the [i]-th trade of a command. *)
Record trade_legs x (ctx : ExecutionContext) (v : VenueOrderId) (a : AccountId) (o : Hash32)
    (fs : option FeeSchedule) (i : Z) (t : Trade OrderId) (m k : Fill) : Prop := {
  legs_index : has_ty u32 i;
  legs_id_maker : fill_execution_id m =
    execution_id (ctx_lineage_id ctx) (ctx_underlying ctx) (ctx_sequence ctx) i;
  legs_id : fill_execution_id k = fill_execution_id m;
  legs_maker : (fill_order_id m, fill_account m, fill_owner m) =
    maker_identity x (trade_maker_order_id t);
  legs_taker : (fill_order_id k, fill_account k, fill_owner k) = (v, a, o);
  legs_sides : fill_side m = trade_maker_side t ∧ fill_side k = trade_taker_side t;
  legs_liquidity : fill_liquidity m = Maker ∧ fill_liquidity k = Taker;
  legs_price_maker : fill_price m = trade_price t;
  legs_price : fill_price k = fill_price m;
  legs_price_ty : has_ty u64 (fill_price m);
  legs_qty_maker : fill_quantity m = trade_quantity t;
  legs_qty : fill_quantity k = fill_quantity m;
  legs_fee_maker : per_leg_fee fs (trade_price t) (trade_quantity t) true = Ok (fill_fee m);
  legs_fee_taker : per_leg_fee fs (trade_price t) (trade_quantity t) false = Ok (fill_fee k);
}.

(** The fills of a command, trade by trade from index [i]. *)
Inductive fills_of x ctx v a o fs : Z → list (Trade OrderId) → list Fill → Prop :=
  | fills_nil i : fills_of x ctx v a o fs i [] []
  | fills_cons i t ts m k fills :
      trade_legs x ctx v a o fs i t m k →
      fills_of x ctx v a o fs (i + 1) ts fills →
      fills_of x ctx v a o fs i (t :: ts) (m :: k :: fills).

Definition traded (ts : list (Trade OrderId)) : Z := sum_Z (trade_quantity <$> ts).

Lemma build_fills_loop_spec x ctx v a o fs i ts acc n fills n' :
  build_fills_loop x ctx v a o fs i ts acc n = Ok (fills, n') →
  ∃ new, fills = acc ++ new ∧ fills_of x ctx v a o fs i ts new ∧ n' = n + traded ts.
Proof.
  revert i acc n. induction ts as [|t ts IH]; intros i acc n; cbn [build_fills_loop].
  { intros [= <- <-]. exists []. rewrite app_nil_r. split_and!; [done|constructor|].
    unfold traded, sum_Z. cbn. lia. }
  intros Hb. apply bind_Ok in Hb as (fi & Hfi & Hb). apply bind_Ok in Hb as (p & Hp & Hb).
  apply bind_Ok in Hb as (n1 & Hn1 & Hb).
  destruct (maker_identity x (trade_maker_order_id t)) as [[mv ma] mo] eqn:Hm.
  apply bind_Ok in Hb as (mf & Hmf & Hb). apply bind_Ok in Hb as (tf & Htf & Hb).
  simp_narrow. apply IH in Hb as (new & -> & Hnew & ->).
  eexists (_ :: _ :: new). split_and!.
  - by rewrite <-(assoc_L (++)).
  - constructor; [|done]. split; cbn; rewrite ?Hm; done.
  - unfold traded, sum_Z. cbn. lia.
Qed.

Lemma build_fills_spec x ctx tr v a o fs c :
  build_fills x ctx tr v a o fs = Ok c →
  fills_of x ctx v a o fs 0 (mr_trades (tr_match_result tr)) (cf_fills c) ∧
  cf_taker_filled c = traded (mr_trades (tr_match_result tr)) ∧
  cf_filled_maker_ids c = mr_filled_order_ids (tr_match_result tr).
Proof.
  unfold build_fills. intros Hb. apply bind_Ok in Hb as ([fills n] & Hb & Hc).
  injection Hc as <-. apply build_fills_loop_spec in Hb as (new & -> & Hnew & ->).
  cbn. split_and!; [done|lia|done].
Qed.

(** ** Quantities *)

Definition leg_total (l : LiquidityFlag) (fills : list Fill) : Z :=
  sum_Z (fill_quantity <$> filter (λ f, fill_liquidity f = l) fills).

Lemma fills_of_totals x ctx v a o fs i ts fills :
  fills_of x ctx v a o fs i ts fills →
  leg_total Taker fills = traded ts ∧ leg_total Maker fills = traded ts.
Proof.
  induction 1 as [|i t ts m k fills Hl Hf [IH1 IH2]]; [done|].
  destruct Hl. destruct legs_liquidity0 as [Hm Hk].
  unfold leg_total, traded, sum_Z in *. rewrite !filter_cons.
  rewrite !(decide_True _ _ Hk), !(decide_True _ _ Hm).
  rewrite !decide_False by congruence. cbn. lia.
Qed.

(** ** Identities *)

Lemma fills_of_ids x ctx v a o fs i ts fills f :
  fills_of x ctx v a o fs i ts fills → f ∈ fills →
  ∃ j, i ≤ j ∧ has_ty u32 j ∧ fill_execution_id f =
    execution_id (ctx_lineage_id ctx) (ctx_underlying ctx) (ctx_sequence ctx) j.
Proof.
  induction 1 as [|i t ts m k fills Hl Hf IH]; [by intros ?%not_elem_of_nil|].
  destruct Hl. intros [->|[->|Hin]%elem_of_cons]%elem_of_cons.
  - exists i. split_and!; [lia|done..].
  - exists i. split_and!; [lia|done|congruence].
  - destruct (IH Hin) as (j & Hj & ? & ?). exists j. split_and!; [lia|done..].
Qed.

(** The key the executions log stores a leg under. *)
Definition leg_key (f : Fill) : ExecutionId * LiquidityFlag :=
  (fill_execution_id f, fill_liquidity f).

Lemma fills_of_keys x ctx v a o fs i ts fills :
  has_ty u64 (ctx_sequence ctx) →
  fills_of x ctx v a o fs i ts fills → NoDup (leg_key <$> fills).
Proof.
  intros Hs. induction 1 as [|i t ts m k fills Hl Hf IH]; cbn; [constructor|].
  destruct Hl. destruct legs_liquidity0 as [Hm Hk].
  assert (∀ f, f ∈ fills → fill_execution_id f ≠ fill_execution_id m) as Hne.
  { intros f Hin E. destruct (fills_of_ids _ _ _ _ _ _ _ _ _ _ Hf Hin) as (j & ? & ? & Ej).
    rewrite Ej, legs_id_maker0 in E. unfold_int.
    apply execution_id_inj in E as [_ E]; lia. }
  assert (∀ l, (fill_execution_id m, l) ∉ leg_key <$> fills) as Hni.
  { intros l (f & E & Hin)%list_elem_of_fmap. injection E as E _. by eapply Hne. }
  constructor; [|constructor; [|done]].
  - unfold leg_key at 1. rewrite Hm, not_elem_of_cons. split; [|apply Hni].
    unfold leg_key. rewrite Hk. congruence.
  - unfold leg_key at 1. rewrite legs_id0. apply Hni.
Qed.

(** ** The fills of the add paths *)

Lemma fills_of_same x y ctx v a o fs i ts fills :
  resting x = resting y →
  fills_of x ctx v a o fs i ts fills → fills_of y ctx v a o fs i ts fills.
Proof.
  intros Hr. induction 1 as [|i t ts m k fills [] Hf IH]; constructor; [|done].
  split; try done. rewrite legs_maker0. unfold maker_identity. by rewrite Hr.
Qed.

(** [fills] are the captured legs of some trades over the makers of [x]. *)
Definition captured_from x (ctx : ExecutionContext) v a o (fills : list Fill) (n : Z) : Prop :=
  ∃ fs ts, fills_of x ctx v a o fs 0 ts fills ∧ n = traded ts.

Lemma captured_from_nil x ctx v a o : captured_from x ctx v a o [] 0.
Proof. exists None, []. split; [constructor|done]. Qed.

Lemma captured_from_build x y ctx tr v a o fs c :
  resting x = resting y →
  build_fills x ctx tr v a o fs = Ok c →
  captured_from y ctx v a o (cf_fills c) (cf_taker_filled c).
Proof.
  intros Hr (Hf & -> & _)%build_fills_spec. exists fs, (mr_trades (tr_match_result tr)).
  split; [|done]. by eapply fills_of_same.
Qed.

(** What an add reports: its legs, and a resting remainder that makes up the
    quantity together with what was taken. *)
Lemma run_add_fills x ctx leaf symbol v a o sd p q tif :
  let add := (run_add x ctx leaf symbol v a o sd p q tif).2 in
  ∃ n, captured_from x ctx v a o (ar_fills add) n ∧ 0 ≤ ar_resting_quantity add ∧
    (0 < ar_resting_quantity add → n + ar_resting_quantity add = q ∧ tif_rests tif = true).
Proof.
  unfold run_add. destruct (add_limit_order _ _ _ _ _ _ _ _) as [book r].
  set (x0 := set_book (set_book x _) book).
  match goal with
  | |- context [match ?c with Ok _ => _ | Err _ => _ end] =>
      assert (∀ c', c = Ok c' →
        captured_from x ctx v a o (cf_fills c') (cf_taker_filled c')) as Hc
  end.
  { intros c'. destruct r as [tr|e].
    - by apply captured_from_build.
    - destruct (slot_trade_after _ _ _); [by apply captured_from_build|].
      intros [= <-]. apply captured_from_nil. }
  match goal with
  | |- context [match ?c with Ok _ => _ | Err _ => _ end] => destruct c as [captured|err]
  end; cbn.
  2: { exists 0. split; [apply captured_from_nil|lia]. }
  match goal with
  | |- context [let '(_, _) := ?c in _] => destruct c as [x1 legs]
  end. cbn.
  exists (cf_taker_filled captured). split; [by apply Hc|].
  destruct (is_ok r), (tif_rests tif); cbn; try (split; lia).
  destruct (checked_sub u64 q (cf_taker_filled captured)) as [rem|] eqn:E; cbn; [|split; lia].
  simp_narrow. unfold_int. split; [lia|]. split; [lia|done].
Qed.

Lemma execute_market_fills x ctx leaf v a o sd q :
  ∃ fills n legs,
    (execute_market x ctx leaf v a o sd q).2 =
      MarketDone fills (default 0 (checked_sub u64 q n)) legs ∧
    captured_from x ctx v a o fills n ∨
    (execute_market x ctx leaf v a o sd q).2 = MarketDone [] q [].
Proof.
  unfold execute_market. set (x0 := set_book x _).
  match goal with |- context [if ?b then _ else _] => destruct b end.
  { exists [], 0, []. by right. }
  destruct (submit_market_order _ _ _ _ _ _) as [book r].
  match goal with
  | |- context [match ?c with Ok _ => _ | Err _ => _ end] =>
      assert (∀ c', c = Ok c' →
        captured_from x ctx v a o (cf_fills c') (cf_taker_filled c')) as Hc
  end.
  { intros c'. destruct r as [m|e].
    - destruct (trade_result_new _ _); [|done]. by apply captured_from_build.
    - destruct (slot_trade_after _ _ _); [by apply captured_from_build|].
      intros [= <-]. apply captured_from_nil. }
  match goal with
  | |- context [match ?c with Ok _ => _ | Err _ => _ end] => destruct c as [captured|err]
  end; cbn.
  2: { exists [], 0, []. by right. }
  match goal with
  | |- context [let '(_, _) := ?c in _] => destruct c as [x1 legs]
  end. cbn.
  exists (cf_fills captured), (cf_taker_filled captured), legs. left.
  split; [done|]. by apply Hc.
Qed.
End fills.
