(* ===== verification/SampleBook.v ===== *)
(** A small concrete upstream: a price-time matching book over three symbols,
    used to instantiate the parameters at concrete inputs. *)

From S2P Require Export Journal Executor.

Record SOrder := {
  so_id : Z;
  so_side : Side;
  so_price : Z;
  so_qty : Z;
  so_tif : TimeInForce;
  so_owner : Z;
}.

Record SBook := {
  sb_underlying : string;
  sb_strikes : list (ExpirationDate * Z);
  sb_fees : option FeeSchedule;
  sb_stp : STPMode;
  sb_orders : list (Leaf * SOrder);
  sb_last : option (Leaf * TradeResult Z);
  sb_status : list (Leaf * InstrumentStatus);
}.

Definition sb_with_orders (b : SBook) (o : list (Leaf * SOrder)) : SBook :=
  {| sb_underlying := sb_underlying b; sb_strikes := sb_strikes b; sb_fees := sb_fees b;
     sb_stp := sb_stp b; sb_orders := o; sb_last := sb_last b; sb_status := sb_status b |}.
Definition sb_with_strikes (b : SBook) s : SBook :=
  {| sb_underlying := sb_underlying b; sb_strikes := s; sb_fees := sb_fees b;
     sb_stp := sb_stp b; sb_orders := sb_orders b; sb_last := sb_last b;
     sb_status := sb_status b |}.
Definition sb_with_fees (b : SBook) f : SBook :=
  {| sb_underlying := sb_underlying b; sb_strikes := sb_strikes b; sb_fees := Some f;
     sb_stp := sb_stp b; sb_orders := sb_orders b; sb_last := sb_last b;
     sb_status := sb_status b |}.
Definition sb_with_stp (b : SBook) m : SBook :=
  {| sb_underlying := sb_underlying b; sb_strikes := sb_strikes b; sb_fees := sb_fees b;
     sb_stp := m; sb_orders := sb_orders b; sb_last := sb_last b; sb_status := sb_status b |}.
Definition sb_with_last (b : SBook) l : SBook :=
  {| sb_underlying := sb_underlying b; sb_strikes := sb_strikes b; sb_fees := sb_fees b;
     sb_stp := sb_stp b; sb_orders := sb_orders b; sb_last := l; sb_status := sb_status b |}.
Definition sb_with_status (b : SBook) s : SBook :=
  {| sb_underlying := sb_underlying b; sb_strikes := sb_strikes b; sb_fees := sb_fees b;
     sb_stp := sb_stp b; sb_orders := sb_orders b; sb_last := sb_last b; sb_status := s |}.

Definition sample_expiry : ExpirationDate := DateTime 1711699200000.

Definition sample_symbol (u : string) (style : OptionStyle) : ParsedSymbol :=
  {| ps_underlying := u; ps_expiration := sample_expiry; ps_expiration_str := "20240329";
     ps_strike := 50000; ps_option_style := style |}.

Definition sample_parse (s : string) : result string ParsedSymbol :=
  if String.eqb s "BTC-20240329-50000-C" then Ok (sample_symbol "BTC" Call)
  else if String.eqb s "BTC-20240329-50000-P" then Ok (sample_symbol "BTC" Put)
  else if String.eqb s "ETH-20240329-50000-C" then Ok (sample_symbol "ETH" Call)
  else Err "malformed symbol".

Definition sample_to_symbol (p : ParsedSymbol) : string :=
  ps_underlying p +:+ "-20240329-50000-" +:+
  (match ps_option_style p with Call => "C" | Put => "P" end).

Definition crosses (side : Side) (limit : option Z) (o : SOrder) : bool :=
  negb (bool_decide (so_side o = side)) &&
  match limit with
  | None => true
  | Some p => match side with Buy => so_price o <=? p | Sell => p <=? so_price o end
  end.

(** Fills [q] against the makers in priority order. *)
Fixpoint match_makers (taker : Z) (side : Side) (q : Z) (makers : list SOrder) :
    list (Trade Z) * list Z * list SOrder * Z :=
  match makers with
  | [] => ([], [], [], q)
  | m :: makers =>
      if q <=? 0 then ([], [], m :: makers, q)
      else
        let n := Z.min q (so_qty m) in
        let '(ts, done, rest, q') := match_makers taker side (q - n) makers in
        let t := {| trade_price := so_price m; trade_quantity := n;
                    trade_maker_order_id := so_id m; trade_maker_side := so_side m;
                    trade_taker_side := side |} in
        if so_qty m <=? n then (t :: ts, so_id m :: done, rest, q')
        else
          (t :: ts, done,
           {| so_id := so_id m; so_side := so_side m; so_price := so_price m;
              so_qty := so_qty m - n; so_tif := so_tif m; so_owner := so_owner m |} :: rest, q')
    end.

Definition leaf_orders (b : SBook) (l : Leaf) : list SOrder :=
  snd <$> filter (λ p, p.1 = l) (sb_orders b).

Definition set_leaf_orders (b : SBook) (l : Leaf) (os : list SOrder) : SBook :=
  sb_with_orders b (filter (λ p, p.1 ≠ l) (sb_orders b) ++ ((λ o, (l, o)) <$> os)).

(** Best price first, then arrival. *)
Definition priority (side : Side) (os : list SOrder) : list SOrder :=
  sort_by_key Z.leb (λ o, match side with Buy => so_price o | Sell => - so_price o end) os.

(** Matches an incoming order; the self-trade mode removes the owner's own
    opposite orders first. *)
Definition sample_match (b : SBook) (l : Leaf) (id q : Z) (side : Side) (limit : option Z)
    (owner : Z) : SBook * (list (Trade Z) * list Z * Z) :=
  let os := leaf_orders b l in
  let os :=
    if bool_decide (sb_stp b = StpNone) then os
    else filter (λ o, ¬ (so_owner o = owner ∧ so_side o ≠ side)) os in
  let opposite := priority side (filter (λ o, crosses side limit o = true) os) in
  let others := filter (λ o, crosses side limit o = false) os in
  let '(ts, done, rest, rem) := match_makers id side q opposite in
  (set_leaf_orders b l (others ++ rest), (ts, done, rem)).

Definition sample_result (ts : list (Trade Z)) (done : list Z) (seq : Z) : TradeResult Z :=
  {| tr_match_result := {| mr_trades := ts; mr_filled_order_ids := done |};
     tr_engine_seq := seq |}.

Definition sample_add (b : SBook) (l : Leaf) (id : Z) (side : Side) (price q : Z)
    (tif : TimeInForce) (owner : Z) : SBook * result string (TradeResult Z) :=
  let '(b', (ts, done, rem)) := sample_match b l id q side (Some price) owner in
  match tif with
  | Fok => if 0 <? rem then (b, Err "fill or kill")
           else (sb_with_last b' (Some (l, sample_result ts done id)), Ok (sample_result ts done id))
  | Ioc => if 0 <? rem
           then (sb_with_last b' (Some (l, sample_result ts done id)), Err "ioc remainder cancelled")
           else (sb_with_last b' (Some (l, sample_result ts done id)), Ok (sample_result ts done id))
  | _ =>
      let b'' := if 0 <? rem
        then sb_with_orders b' (sb_orders b' ++ [(l, {| so_id := id; so_side := side;
               so_price := price; so_qty := rem; so_tif := tif; so_owner := owner |})])
        else b' in
      (sb_with_last b'' (Some (l, sample_result ts done id)), Ok (sample_result ts done id))
  end.

Definition sample_depth (b : SBook) (l : Leaf) (side : Side) : Z :=
  sum_Z (so_qty <$> filter (λ o, so_side o = side) (leaf_orders b l)).

Definition sample_best (b : SBook) (l : Leaf) (side : Side) : option Z :=
  head (so_price <$> priority (match side with Buy => Sell | Sell => Buy end)
          (filter (λ o, so_side o = side) (leaf_orders b l))).

Definition sample_fee (f : FeeSchedule) (notional : Z) (maker : bool) : result string Z :=
  let bps := if maker then fs_maker_bps f else fs_taker_bps f in
  if fits i128 (notional * bps) then Ok (Z.quot (notional * bps) 10000) else Err "fee overflow".

Definition sample_transition (a b : InstrumentStatus) : bool :=
  bool_decide (a = b) ||
  match a, b with
  | Pending, Active | Active, (Halted | Settling | Expired) | Halted, (Active | Settling | Expired)
  | Settling, Expired => true
  | _, _ => false
  end.

Definition sample_status_display (s : InstrumentStatus) : string :=
  match s with
  | Pending => "Pending" | Active => "Active" | Halted => "Halted" | Settling => "Settling"
  | Expired => "Expired"
  end.

#[export] Instance SampleUpstream : Upstream := {|
  OrderId := Z;
  sequential n := n;
  order_id_as_u64 n := Some n;
  order_id_to_string n := dec n;
  parse_symbol := sample_parse;
  to_symbol := sample_to_symbol;
  format_expiration_yyyymmdd e :=
    match e with DateTime _ => Ok "20240329" | Days _ => Err "relative expiry" end;
  can_transition := sample_transition;
  status_accepts_orders s := bool_decide (s = Active);
  status_display := sample_status_display;
  calculate_fee := sample_fee;
  max_guaranteed_exact_notional f :=
    (2 ^ 127 - 1) / Z.max 1 (Z.max (Z.abs (fs_maker_bps f)) (Z.abs (fs_taker_bps f)));
  Book := SBook;
  ContractSpecs := Z * Z * Z * Z;
  contract_specs_build a b c d :=
    if (a =? 0) || (b =? 0) then Err "zero spec" else Ok (a, b, c, d);
  book_new u :=
    {| sb_underlying := u; sb_strikes := []; sb_fees := None; sb_stp := StpNone;
       sb_orders := []; sb_last := None; sb_status := [] |};
  book_underlying := sb_underlying;
  set_fee_schedule := sb_with_fees;
  set_stp_mode := sb_with_stp;
  set_specs b _ := b;
  get_or_create_expiration b _ := b;
  get_or_create_strike b e k :=
    if bool_decide ((e, k) ∈ sb_strikes b) then b
    else sb_with_strikes b (sb_strikes b ++ [(e, k)]);
  has_expiration b e := bool_decide (e ∈ (sb_strikes b).*1);
  has_strike b e k := bool_decide ((e, k) ∈ sb_strikes b);
  expirations b := remove_dups (sb_strikes b).*1;
  strike_prices b e := (filter (λ p, p.1 = e) (sb_strikes b)).*2;
  leaf_symbol b l :=
    sb_underlying b +:+ "-20240329-50000-" +:+
    (match leaf_style l with Call => "C" | Put => "P" end);
  leaf_status b l := default Active (snd <$> head (filter (λ p, p.1 = l) (sb_status b)));
  leaf_stp_mode b _ := sb_stp b;
  leaf_fee_schedule b _ := sb_fees b;
  orders_by_user b l o := so_id <$> filter (λ x, so_owner x = o) (leaf_orders b l);
  total_bid_depth b l := Ok (sample_depth b l Buy);
  total_ask_depth b l := Ok (sample_depth b l Sell);
  best_bid b l := sample_best b l Buy;
  best_ask b l := sample_best b l Sell;
  last_trade_result b l :=
    match sb_last b with Some (l', t) => if decide (l = l') then Some t else None | None => None end;
  trade_result_new _ m := Ok {| tr_match_result := m; tr_engine_seq := 0 |};
  get_order b l id :=
    o ← head (filter (λ x, so_id x = id) (leaf_orders b l));
    Some {| ov_price := so_price o; ov_side := so_side o; ov_visible_quantity := so_qty o;
            ov_time_in_force := so_tif o |};
  arm_trade_capture b _ _ := b;
  add_limit_order := sample_add;
  submit_market_order b l id q side owner :=
    let '(b, (ts, done, rem)) := sample_match b l id q side None owner in
    (b, Ok {| mr_trades := ts; mr_filled_order_ids := done |});
  cancel_order b l id :=
    let os := leaf_orders b l in
    if bool_decide (id ∈ so_id <$> os)
    then (set_leaf_orders b l (filter (λ x, so_id x ≠ id) os), Ok true) else (b, Ok false);
  evict_expired_orders b l now :=
    let expired x := match so_tif x with Gtd at_ms => at_ms <=? now | _ => false end in
    let os := leaf_orders b l in
    (set_leaf_orders b l (filter (λ x, expired x = false) os),
     Ok (so_id <$> filter (λ x, expired x = true) os));
  set_status b l s := (sb_with_status b ((l, s) :: sb_status b), Ok tt);
|}.

#[export] Instance SampleOrderIdLaws : OrderIdLaws (H := SampleUpstream).
Proof. split. done. Qed.

(** Every record serialises within the ceiling; nothing decodes. *)
#[export] Instance SampleSerde : Serde := {|
  json_len _ := Some 512;
  json_decode _ := None;
|}.

(** ** A concrete session *)

Definition btc_call : Symbol := "BTC-20240329-50000-C".
Definition btc_put : Symbol := "BTC-20240329-50000-P".

Definition limit_add (symbol v account : string) (owner : Z) (co : option string) (side : Side)
    (price q : Z) : VenueCommand :=
  AddOrder symbol v account owner co side Limit (Some price) q Gtc StpNone.

Definition sample_session : list (EventTimestamp * VenueCommand) :=
  [(10, limit_add btc_call "v0" "alice" 1 (Some "a-1") Sell 100 5);
   (11, limit_add btc_call "v1" "bob" 2 (Some "b-1") Buy 100 3);
   (12, limit_add btc_put "v2" "bob" 2 None Sell 90 4);
   (13, limit_add btc_call "v3" "@market-maker" MARKET_MAKER_OWNER None Sell 120 7);
   (14, SetInstrumentStatus btc_put Halted)].
