(* ===== verification/ExecutorProps.v ===== *)
(** The properties of the matching executor, each with a concrete instance over
    [SampleBook]. *)

From S2P Require Export ExecutorInv Fills.
From S2P Require Import SampleBook.

Section props.
Context `{Upstream}.
Implicit Types x y z : MatchingExecutor.

(** ** Fills of a command *)

Lemma execute_add_order_fills x ctx symbol v a o sd ot price q tif :
  ∃ n, captured_from x ctx v a o
         (outcome_fills (execute_add_order x ctx symbol v a o sd ot price q tif).2) n.
Proof.
  unfold execute_add_order.
  assert (resting x = resting (resolve_leaf_vivify x symbol).1) as Hv.
  { unfold resolve_leaf_vivify. by repeat case_match. }
  destruct (resolve_leaf_vivify x symbol) as [x1 leaf]; cbn [fst] in Hv.
  assert (∀ out, outcome_fills out = [] →
    ∃ n, captured_from x ctx v a o (outcome_fills out) n) as Hnil.
  { intros out ->. exists 0. apply captured_from_nil. }
  assert (∀ fills n, captured_from x1 ctx v a o fills n →
    captured_from x ctx v a o fills n) as Hback.
  { intros fills n (fs & ts & Hf & ->). exists fs, ts. split; [|done].
    by eapply fills_of_same. }
  destruct leaf as [leaf|]; [|by apply Hnil]. case_match; [by apply Hnil|].
  destruct ot.
  - destruct price as [price|]; [|by apply Hnil].
    pose proof (run_add_fills x1 ctx leaf symbol v a o sd price q tif) as (n & Hf & _).
    destruct (run_add _ _ _ _ _ _ _ _ _ _ _) as [y add]; cbn [snd] in *.
    case_match; [|by apply Hnil]. exists n. by apply Hback.
  - destruct (execute_market_fills x1 ctx leaf v a o sd q) as (f & n & l & [[-> Hf]| ->]).
    + exists n. by apply Hback.
    + by apply Hnil.
Qed.

Lemma execute_replace_fills x ctx symbol v v' a sd price q tif :
  ∃ y o n, captured_from y ctx v' a o
    (outcome_fills (execute_replace x ctx symbol v v' a sd price q tif).2) n.
Proof.
  unfold execute_replace.
  assert (∀ out, outcome_fills out = [] →
    ∃ y o n, captured_from y ctx v' a o (outcome_fills out) n) as Hnil.
  { intros out ->. exists x, 0, 0. apply captured_from_nil. }
  destruct (resolve_leaf_vivify x symbol) as [x1 leaf].
  destruct leaf as [leaf|]; [|by apply Hnil].
  destruct (venue_to_engine x1 !! v) as [e|]; [|by apply Hnil].
  case_match; [by apply Hnil|].
  destruct (cancel_order _ _ _) as [book r]. case_match; [by apply Hnil|].
  destruct price as [price|]; [|by apply Hnil].
  set (owner := match resting x1 !! e with Some _ => _ | None => _ end).
  pose proof (run_add_fills (remove_resting (set_book x1 book) e) ctx leaf symbol v' a owner sd
    price q tif) as (n & Hf & _).
  destruct (run_add _ _ _ _ _ _ _ _ _ _ _) as [y add]; cbn [snd] in *.
  unfold classify_add_leg.
  destruct (add_has_mutation add); cbn [negb]; [|by apply Hnil].
  destruct (0 <? ar_resting_quantity add); cbn; eauto.
Qed.

Lemma execute_fills x ctx :
  ∃ y v a o n, captured_from y ctx v a o (outcome_fills (execute x ctx).2) n.
Proof.
  assert (∀ out, outcome_fills out = [] →
    ∃ y v a o n, captured_from y ctx v a o (outcome_fills out) n) as Hnil.
  { intros out ->. exists x, "", "", 0, 0. apply captured_from_nil. }
  unfold execute. destruct (ctx_command ctx) as
    [s v a o co sd ot p q tif stp|s v a|s v v' a co oc sd p q tif stp|sc ct a|s st|now
    |sm ss sk en|now|now u p b k].
  - unfold add_with_idempotency.
    pose proof (execute_add_order_fills x ctx s v a o sd ot p q tif) as [n Hf].
    destruct co as [co|]; [|by eauto 10].
    destruct (idempotency_lookup _ _); [case_match; by apply Hnil|].
    destruct (execute_add_order _ _ _ _ _ _ _ _ _ _ _) as [y out]. cbn in *. eauto 10.
  - apply Hnil. unfold execute_cancel. repeat case_match; done.
  - destruct (execute_replace_fills x ctx s v v' a sd p q tif) as (y & o & n & Hf). eauto 10.
  - apply Hnil. unfold execute_mass_cancel. destruct (sweep_matching _ _ _ _).
    repeat case_match; done.
  - apply Hnil. unfold execute_set_instrument_status.
    destruct (resolve_leaf_vivify x s) as [x1 [leaf|]]; [|done].
    destruct (try_transition _ _ _) as [reg [|]]; done.
  - apply Hnil. unfold execute_evict_expired. destruct (evict_leaves _ _ _ _).
    by destruct (evict_records _ _ _).
  - apply Hnil. unfold execute_control. destruct (bool_decide _); [|done].
    by destruct (sweep_matching _ _ _ _).
  - by apply Hnil.
  - by apply Hnil.
Qed.

Lemma execution_keys_unique u lineage x n cs :
  0 ≤ n → has_ty u64 (n + Z.of_nat (length cs)) →
  NoDup (leg_key <$> ((run u lineage x n cs).2 ≫= outcome_fills)).
Proof.
  revert x n.
  assert (∀ cs x n f, f ∈ (run u lineage x n cs).2 ≫= outcome_fills →
    ∃ i j, n ≤ i < n + Z.of_nat (length cs) ∧ has_ty u32 j ∧
      fill_execution_id f = execution_id lineage u i j) as Hids.
  { clear cs. induction cs as [|tc cs IH]; intros x n f; cbn [run snd];
      [by intros ?%not_elem_of_nil|].
    destruct (execute_fills x (context u lineage n tc)) as (y & v & a & o & k & fs & ts & Hf & _).
    destruct (execute x _) as [x1 out]; cbn [snd] in Hf.
    pose proof (IH x1 (n + 1) f) as IH'. destruct (run u lineage x1 (n + 1) cs) as [x2 outs].
    cbn [snd length] in *. rewrite bind_cons. intros [Hin|Hin]%elem_of_app.
    - destruct (fills_of_ids _ _ _ _ _ _ _ _ _ _ Hf Hin) as (j & ? & ? & ->).
      exists n, j. split_and!; try lia; done.
    - destruct (IH' Hin) as (i & j & ? & ? & ->). exists i, j. split_and!; try lia; done. }
  induction cs as [|tc cs IH]; intros x n Hn Hty; [constructor|]. cbn [run].
  destruct (execute_fills x (context u lineage n tc)) as (y & v & a & o & k & fs & ts & Hf & _).
  destruct (execute x _) as [x1 out]; cbn [snd] in Hf.
  pose proof (Hids cs x1 (n + 1)) as Hids'. pose proof (IH x1 (n + 1)) as IH'.
  destruct (run u lineage x1 (n + 1) cs) as [x2 outs].
  cbn [snd] in *. cbn [length] in Hty. unfold_int.
  rewrite bind_cons, fmap_app. apply NoDup_app. split_and!.
  - eapply fills_of_keys; [|done]. cbn. unfold_int. lia.
  - intros key (f & -> & Hin)%list_elem_of_fmap (g & E & Hg)%list_elem_of_fmap.
    destruct (Hids' g Hg) as (i & j & ? & ? & Eg).
    destruct (fills_of_ids _ _ _ _ _ _ _ _ _ _ Hf Hin) as (j' & ? & ? & Ef).
    injection E as E _. rewrite Ef, Eg in E. cbn in E. unfold_int.
    apply execution_id_inj in E as [E _]; lia.
  - apply IH'; lia.
Qed.
(** Every fill a command reports carries an execution id of that command's
    own sequence, the legs of one outcome have pairwise distinct (execution id,
    liquidity) keys, and over a whole run of one lineage no key is reported
    twice: the executions log never overwrites one fill with another. *)
Theorem execution_legs_unique u lineage x n cs :
  0 ≤ n → has_ty u64 (n + Z.of_nat (length cs)) →
  NoDup (leg_key <$> ((run u lineage x n cs).2 ≫= outcome_fills)).
Proof. apply execution_keys_unique. Qed.

(** ** The registry *)


(** ** Idempotent placement *)

Lemma execute_add_order_not_duplicate x ctx symbol v a o sd ot price q tif oid s t :
  (execute_add_order x ctx symbol v a o sd ot price q tif).2 ≠ Duplicate oid s t.
Proof.
  unfold execute_add_order. destruct (resolve_leaf_vivify x symbol) as [x1 [leaf|]]; [|done].
  destruct (negb _); [done|]. destruct ot.
  - destruct price; [|done]. destruct (run_add _ _ _ _ _ _ _ _ _ _ _) as [y add].
    by destruct (add_has_mutation add).
  - destruct (execute_market_fills x1 ctx leaf v a o sd q) as (f & n & l & [[-> _]| ->]); done.
Qed.

(** C1. A placement with a client order id takes effect exactly once: after
    it, whatever commands follow, a resubmission of the same order under the
    same account and client order id (with any new order id, owner and time)
    changes nothing and returns the original order id, sequence and terminal
    outcome, which is never itself a duplicate; and a different order under
    that key is refused, changing nothing. *)
Theorem placement_exactly_once u lineage x n ts symbol v a o co sd ot p q tif stp cs :
  idempotency x !! (a, co) = None →
  let add v o sd ot p q tif stp symbol :=
    AddOrder symbol v a o (Some co) sd ot p q tif stp in
  let first := execute x (context u lineage n (ts, add v o sd ot p q tif stp symbol)) in
  let later := (run u lineage first.1 (n + 1) cs).1 in
  (∀ oid s t, first.2 ≠ Duplicate oid s t) ∧
  (∀ m ts' v' o' stp',
     execute later (context u lineage m (ts', add v' o' sd ot p q tif stp' symbol))
       = (later, Duplicate v n first.2)) ∧
  (∀ m ts' v' o' stp' symbol' sd' ot' p' q' tif',
     (symbol', sd', ot', p', q', tif') ≠ (symbol, sd, ot, p, q, tif) →
     execute later (context u lineage m (ts', add v' o' sd' ot' p' q' tif' stp' symbol'))
       = (later, Rejected InvalidOrder "client_order_id was reused with a different order")).
Proof.
  intros Hk add first later.
  set (fp := {| fp_symbol := symbol; fp_side := sd; fp_order_type := ot;
                fp_limit_price := p; fp_quantity := q; fp_time_in_force := tif |}).
  assert (idempotency first.1 !! (a, co) =
    Some {| ie_fingerprint := fp; ie_order_id := v; ie_sequence := n; ie_terminal := first.2 |}
    ∧ ∀ oid s t, first.2 ≠ Duplicate oid s t) as [Hfirst Hnd].
  { unfold first, add, execute. cbn [ctx_command context snd]. unfold add_with_idempotency.
    unfold idempotency_lookup. rewrite Hk.
    pose proof (execute_add_order_not_duplicate x (context u lineage n
      (ts, AddOrder symbol v a o (Some co) sd ot p q tif stp)) symbol v a o sd ot p q tif).
    destruct (execute_add_order _ _ _ _ _ _ _ _ _ _ _) as [y out]. cbn in *.
    split; [|done]. unfold idempotency_record. by rewrite lookup_insert_eq. }
  pose proof (run_idempotency u lineage first.1 (n + 1) cs _ _ Hfirst) as Hl.
  fold later in Hl. split; [done|]. split.
  - intros. unfold add, execute. cbn [ctx_command context snd]. unfold add_with_idempotency.
    unfold idempotency_lookup. rewrite Hl. cbn [ie_fingerprint].
    by rewrite bool_decide_eq_true_2.
  - intros. unfold add, execute. cbn [ctx_command context snd]. unfold add_with_idempotency.
    unfold idempotency_lookup. rewrite Hl. cbn [ie_fingerprint].
    rewrite bool_decide_eq_false_2; [done|]. unfold fp. congruence.
Qed.

(** ** Ownership *)

(** C14. Only the account that owns a resting order can cancel or replace it: a
    request by another account is rejected, a cancel leaves the executor as it
    was, and a replace changes nothing but the leaf it may have vivified. *)
Theorem foreign_order_untouchable x ctx symbol v v' a sd price q tif e r :
  venue_to_engine x !! v = Some e → resting x !! e = Some r → rr_account r ≠ a →
  (execute_cancel x symbol v a = (x, Rejected NotFound "order not found") ∨
   execute_cancel x symbol v a = (x, Rejected NotOwner NOT_ORDER_OWNER_REASON)) ∧
  (∃ kind reason,
     execute_replace x ctx symbol v v' a sd price q tif =
       ((resolve_leaf_vivify x symbol).1, Rejected kind reason)).
Proof.
  intros Hv Hr Ha.
  assert (∀ y, resting y = resting x → account_owns y e a = false) as Hown.
  { intros y Hy. unfold account_owns. rewrite Hy, Hr. by apply String.eqb_neq. }
  split.
  - unfold execute_cancel. destruct (resolve_leaf_read x symbol); [|by left]. right.
    by rewrite Hv, Hown.
  - unfold execute_replace.
    assert (same_registry x (resolve_leaf_vivify x symbol).1) as [Hs1 Hs2].
    { unfold resolve_leaf_vivify. by repeat case_match. }
    destruct (resolve_leaf_vivify x symbol) as [x1 leaf]; cbn [fst] in *.
    destruct leaf as [leaf|]; [|by eexists _, _].
    rewrite <-Hs2, Hv, Hown by done. by eexists _, _.
Qed.

(** A cancel has effect exactly when the symbol resolves, the order id is
    registered, the requester owns it and the book removes it; then exactly
    that order leaves both maps, and otherwise neither map changes. *)
Theorem cancel_effect x symbol v a :
  let '(y, out) := execute_cancel x symbol v a in
  (out = Cancelled v ↔
     ∃ leaf e r, resolve_leaf_read x symbol = Some leaf ∧ venue_to_engine x !! v = Some e ∧
       resting x !! e = Some r ∧ rr_account r = a ∧
       (cancel_order (underlying_book x) leaf e).2 = Ok true) ∧
  (out = Cancelled v → ∃ e r,
     venue_to_engine x !! v = Some e ∧ resting x !! e = Some r ∧
     resting y = delete e (resting x) ∧
     venue_to_engine y = delete (rr_venue_order_id r) (venue_to_engine x)) ∧
  (out ≠ Cancelled v → same_registry x y ∧ ∃ kind reason, out = Rejected kind reason).
Proof.
  unfold execute_cancel. destruct (resolve_leaf_read x symbol) as [leaf|] eqn:Hl.
  2: { split; [|split; [done|intros _; split; [done|by eexists _, _]]]. split; [done|]. intros (? & ? & ? & ? & _). done. }
  destruct (venue_to_engine x !! v) as [e|] eqn:Hv.
  2: { split; [|split; [done|intros _; split; [done|by eexists _, _]]]. split; [done|]. intros (? & ? & ? & _ & ? & _). done. }
  unfold account_owns. destruct (resting x !! e) as [r|] eqn:Hr.
  2: { split; [|split; [done|intros _; split; [done|by eexists _, _]]]. split; [done|].
       intros (? & e' & ? & _ & [= <-] & ? & _). congruence. }
  destruct (String.eqb_spec (rr_account r) a) as [Ha|Ha]; cbn.
  2: { split; [|split; [done|intros _; split; [done|by eexists _, _]]]. split; [done|].
       intros (? & e' & r' & _ & [= <-] & Hr' & ? & _). congruence. }
  destruct (cancel_order _ _ _) as [book ok] eqn:Hc.
  assert (∀ out, out ≠ Cancelled v → ok ≠ Ok true → (∃ kind reason, out = Rejected kind reason) →
    (out = Cancelled v ↔ ∃ leaf0 e0 r0, Some leaf = Some leaf0 ∧ Some e = Some e0 ∧
       resting x !! e0 = Some r0 ∧ rr_account r0 = a ∧
       (cancel_order (underlying_book x) leaf0 e0).2 = Ok true) ∧
    (out = Cancelled v → ∃ e0 r0, Some e = Some e0 ∧ resting x !! e0 = Some r0 ∧
       resting (set_book x book) = delete e0 (resting x) ∧
       venue_to_engine (set_book x book) = delete (rr_venue_order_id r0) (venue_to_engine x)) ∧
    (out ≠ Cancelled v → same_registry x (set_book x book) ∧
       ∃ kind reason, out = Rejected kind reason)) as Hfail.
  { intros out Hout Hok Hrej. split; [|split; [done|by intros]]. split; [done|].
    intros (l' & e' & ? & [= <-] & [= <-] & _ & _ & Hok'). rewrite Hc in Hok'. done. }
  destruct ok as [[|]|]; [|by apply Hfail; try eexists _, _..].
  split; [|split; [|done]].
  - split; [|done]. intros _. exists leaf, e, r. by rewrite Hc.
  - intros _. exists e, r. unfold remove_resting. cbn. by rewrite Hr.
Qed.

(** ** Sweeps *)

(** A mass cancel reports exactly the orders it removed, one leg each in
    order of venue id; it removes only orders its scope and type select and,
    unless it is the venue-internal sweep of all orders, only orders of the
    requesting account, however many accounts share an STP owner. *)
Theorem mass_cancel_isolation x scope ct a affected y :
  execute_mass_cancel x scope ct a = (y, MassCancelled affected) →
  ∃ swept, affected = sweep_leg <$> swept.*2 ∧
    key_sorted String.leb (λ p, rr_venue_order_id p.2) swept ∧ NoDup swept ∧
    (∀ e r, (e, r) ∈ swept ↔ resting x !! e = Some r ∧ resting y !! e = None) ∧
    (∀ e r, (e, r) ∈ swept →
       mass_cancel_matches r scope (scope_expiry scope) ct None = true ∧
       (ct ≠ CancelAll → rr_account r = a)) ∧
    (∀ e r, resting x !! e = Some r → (e, r) ∉ swept → resting y !! e = Some r).
Proof.
  unfold execute_mass_cancel.
  set (acc := match ct with CancelAll => None | _ => _ end).
  destruct (sweep_matching_spec x scope ct acc) as (swept & Hnd & Hs & Hsel & Hl & Hr).
  destruct (sweep_matching x scope ct acc) as [y' legs]; cbn [fst snd] in *.
  intros E.
  assert (y' = y ∧ legs = affected) as [-> <-].
  { destruct (format_expiration_yyyymmdd <$> scope_expiration scope) as [[|]|];
      injection E; done. }
  exists swept. split_and!; [done..| | |].
  - intros e r. rewrite Hr. split.
    + intros Hin. split; [by apply Hsel|].
      rewrite decide_True; [done|]. apply list_elem_of_fmap. by exists (e, r).
    + intros [Hx Hy]. case_decide as Hin; [|congruence].
      apply list_elem_of_fmap in Hin as ([e' r'] & -> & Hin).
      destruct (Hsel _ _ Hin) as [Hx' _]. cbn in *. congruence.
  - intros e r Hin. destruct (Hsel e r Hin) as [_ Hm].
    unfold mass_cancel_matches in Hm |- *. unfold acc in Hm.
    destruct ct; cbn [negb] in *; [done| |];
      (destruct (String.eqb_spec (rr_account r) a); cbn in Hm; [|done]); done.
  - intros e r Hx Hin. rewrite Hr, decide_False; [done|].
    intros ([e' r'] & -> & Hin')%list_elem_of_fmap. cbn in Hx.
    destruct (Hsel _ _ Hin') as [Hx' _]. rewrite Hx in Hx'. by injection Hx' as ->.
Qed.

(** The hash maps' iteration order never shows: in a well-formed registry the
    targets of a sweep come out in one order however the map is iterated, and the
    legs and the registry left by the self-trade diff do not depend on the order
    its removed ids are visited in. *)
Theorem iteration_order_irrelevant n x scope ct acc entries before after filled incoming ids :
  registry_wf n x →
  entries ≡ₚ map_to_list (resting x) →
  ids ≡ₚ stp_removed before after filled incoming →
  sweep_targets entries scope ct acc =
    sweep_targets (map_to_list (resting x)) scope ct acc ∧
  sort_by_key String.leb leg_order_id (omap (λ id, stp_leg <$> resting x !! id) ids) =
    (stp_cancelled_diff x before after filled incoming).2 ∧
  resting (remove_all x ids) = resting (stp_cancelled_diff x before after filled incoming).1.
Proof.
  intros Hwf He Hids. split_and!.
  - unfold sweep_targets. apply sort_by_key_unique; [apply _| |by rewrite He].
    intros [e1 r1] [e2 r2]. rewrite !list_elem_of_filter, He, !elem_of_map_to_list. cbn.
    intros [_ H1] [_ H2] E. assert (e1 = e2) as -> by by eapply registry_wf_unique.
    congruence.
  - cbn. apply sort_by_key_unique; [apply _| |by rewrite Hids].
    intros l1 l2 (e1 & _ & H1)%list_elem_of_omap (e2 & _ & H2)%list_elem_of_omap.
    apply fmap_Some in H1 as (r1 & H1 & ->), H2 as (r2 & H2 & ->). cbn. intros E.
    assert (e1 = e2) as -> by by eapply registry_wf_unique. congruence.
  - apply map_eq. intros e. cbn. rewrite !remove_all_lookup.
    apply decide_ext. by rewrite Hids.
Qed.

(** A market-maker control reaches the sink; a kill (enabled = false) then
    removes resting orders of the market maker's owner and nobody else's,
    reporting each, and any other control leaves the registry alone. *)
Theorem kill_switch_scoped x knobs :
  let '(y, out) := execute_control x knobs in
  mm_control y = apply_control (mm_control x) knobs ∧
  (knob_enabled knobs ≠ Some false → same_registry x y ∧ out = ControlApplied []) ∧
  (∀ e r, resting x !! e = Some r → rr_owner r ≠ MARKET_MAKER_OWNER →
     resting y !! e = Some r) ∧
  ∃ swept, out = ControlApplied (sweep_leg <$> swept.*2) ∧
    ∀ e r, (e, r) ∈ swept ↔ resting x !! e = Some r ∧ resting y !! e = None.
Proof.
  unfold execute_control. set (x0 := set_mm_control x _).
  destruct (bool_decide_reflect (knob_enabled knobs = Some false)) as [Hk|Hk].
  2: { split; [done|]. split; [done|]. split; [done|]. exists []. split; [done|].
       intros e r. cbn. split; [by intros ?%not_elem_of_nil|]. intros [? ?]. congruence. }
  destruct (sweep_matching_spec x0 ScopeUnderlying (ByUser MARKET_MAKER_OWNER) None)
    as (swept & _ & _ & Hsel & Hl & Hr).
  destruct (sweep_matching_evolves x0 ScopeUnderlying (ByUser MARKET_MAKER_OWNER) None)
    as [_ (_ & _ & Hmm)].
  destruct (sweep_matching _ _ _ _) as [y legs]; cbn [fst snd] in *. subst legs.
  change (resting x0) with (resting x) in Hr.
  assert (∀ e r, (e, r) ∈ swept → resting x !! e = Some r ∧ rr_owner r = MARKET_MAKER_OWNER)
    as Hown.
  { intros e r Hin. destruct (Hsel e r Hin) as [Hx Hm]. split; [done|].
    unfold mass_cancel_matches in Hm. cbn [negb] in Hm.
    destruct (Z.eqb_spec (rr_owner r) MARKET_MAKER_OWNER); [done|].
    cbn in Hm. discriminate. }
  split; [by rewrite <-Hmm|]. split; [done|]. split.
  - intros e r Hx Ho. rewrite Hr, decide_False; [done|].
    intros ([e' r'] & -> & Hin)%list_elem_of_fmap. destruct (Hown _ _ Hin) as [Hx' ?].
    cbn in Hx. congruence.
  - exists swept. split; [done|]. intros e r. rewrite Hr. split.
    + intros Hin. split; [by apply Hown|]. rewrite decide_True; [done|].
      apply list_elem_of_fmap. by exists (e, r).
    + intros [Hx Hy]. case_decide as Hin; [|congruence].
      apply list_elem_of_fmap in Hin as ([e' r'] & -> & Hin).
      destruct (Hown _ _ Hin) as [Hx' _]. cbn in *. congruence.
Qed.

(** ** Quantities *)


(** ** The lifecycle gate *)

(** While an instrument's recorded status does not accept orders, every
    placement into it, limit or market, is refused: nothing is matched, the
    registry and statuses stay, and only the leaf may have been vivified. *)
Theorem halted_refuses_placements x ctx symbol v a o sd ot price q tif :
  is_accepting_orders (instrument_status x) symbol = false →
  ∃ kind reason,
    execute_add_order x ctx symbol v a o sd ot price q tif =
      ((resolve_leaf_vivify x symbol).1, Rejected kind reason) ∧
    (kind = InstrumentNotActive ∨ kind = InvalidOrder).
Proof.
  intros Hh. unfold execute_add_order.
  destruct (vivify_evolves x symbol) as [_ (_ & Hs & _)].
  destruct (resolve_leaf_vivify x symbol) as [x1 [leaf|]]; cbn [fst] in *.
  - rewrite <-Hs, Hh. cbn. eexists _, _. eauto.
  - eexists _, _. eauto.
Qed.

Lemma build_fills_same x y ctx tr v a o fs :
  resting x = resting y → build_fills x ctx tr v a o fs = build_fills y ctx tr v a o fs.
Proof.
  intros Hr. unfold build_fills. f_equal.
  assert (∀ ts i acc n, build_fills_loop x ctx v a o fs i ts acc n =
    build_fills_loop y ctx v a o fs i ts acc n) as ->; [|done].
  induction ts as [|t ts IH]; intros i acc n; [done|]. cbn [build_fills_loop].
  assert (∀ m, maker_identity x m = maker_identity y m) as Hm.
  { intros m. unfold maker_identity. by rewrite Hr. }
  rewrite Hm. destruct (maker_identity y _) as [[mv ma] mo].
  destruct (ok_or Overflow (narrow u32 i)); cbn; [|done].
  destruct (ok_or Overflow (narrow u64 _)); cbn; [|done].
  destruct (ok_or Overflow (checked_add u64 _ _)); cbn; [|done].
  destruct (per_leg_fee fs _ _ true); cbn; [|done].
  destruct (per_leg_fee fs _ _ false); cbn; [|done]. apply IH.
Qed.

Lemma remove_resting_statuses x s e :
  remove_resting (set_statuses x s) e = set_statuses (remove_resting x e) s.
Proof. unfold remove_resting. cbn. by destruct (resting x !! e). Qed.

Lemma remove_all_statuses x s ids :
  remove_all (set_statuses x s) ids = set_statuses (remove_all x ids) s.
Proof.
  unfold remove_all. revert x. induction ids as [|e ids IH]; intros x; cbn; [done|].
  by rewrite remove_resting_statuses, IH.
Qed.

Lemma run_add_statuses x s ctx leaf symbol v a o sd p q tif :
  run_add (set_statuses x s) ctx leaf symbol v a o sd p q tif =
    (set_statuses (run_add x ctx leaf symbol v a o sd p q tif).1 s,
     (run_add x ctx leaf symbol v a o sd p q tif).2).
Proof.
  unfold run_add. cbn [underlying_book set_book set_statuses].
  destruct (add_limit_order _ _ _ _ _ _ _ _) as [book r].
  set (y := set_book (set_book x _) book).
  change (set_book (set_book (set_statuses x s) _) book) with (set_statuses y s).
  assert (∀ tr fs, build_fills (set_statuses y s) ctx tr v a o fs =
    build_fills y ctx tr v a o fs) as Hb by (intros; by apply build_fills_same).
  assert ((match r with
    | Ok tr => build_fills (set_statuses y s) ctx tr v a o (leaf_fee_schedule
        (arm_trade_capture (underlying_book x) leaf true) leaf)
    | Err _ => match slot_trade_after book leaf (last_trade_seq
        (arm_trade_capture (underlying_book x) leaf true) leaf) with
      | Some tr => build_fills (set_statuses y s) ctx tr v a o (leaf_fee_schedule
        (arm_trade_capture (underlying_book x) leaf true) leaf)
      | None => Ok no_fills end end) = (match r with
    | Ok tr => build_fills y ctx tr v a o (leaf_fee_schedule
        (arm_trade_capture (underlying_book x) leaf true) leaf)
    | Err _ => match slot_trade_after book leaf (last_trade_seq
        (arm_trade_capture (underlying_book x) leaf true) leaf) with
      | Some tr => build_fills y ctx tr v a o (leaf_fee_schedule
        (arm_trade_capture (underlying_book x) leaf true) leaf)
      | None => Ok no_fills end end)) as ->.
  { destruct r; [apply Hb|]. destruct (slot_trade_after _ _ _); [apply Hb|done]. }
  match goal with
  | |- context [match ?c with Ok _ => _ | Err _ => _ end] => destruct c as [c'|]
  end; [|done].
  unfold stp_cancelled_diff. rewrite !remove_all_statuses.
  destruct (negb _); cbn; (destruct (0 <? _); [|done]); done.
Qed.

(** A replace does not consult the instrument status: whatever statuses are
    recorded, it cancels, matches and rests the same, so an order can still be
    replaced into, and trade on, an instrument whose gate refuses placements. *)
Theorem replace_ignores_status x s ctx symbol v v' a sd price q tif :
  execute_replace (set_statuses x s) ctx symbol v v' a sd price q tif =
    (set_statuses (execute_replace x ctx symbol v v' a sd price q tif).1 s,
     (execute_replace x ctx symbol v v' a sd price q tif).2).
Proof.
  unfold execute_replace.
  assert (resolve_leaf_vivify (set_statuses x s) symbol =
    (set_statuses (resolve_leaf_vivify x symbol).1 s, (resolve_leaf_vivify x symbol).2)) as ->.
  { unfold resolve_leaf_vivify. cbn. destruct (parse_symbol symbol); [|done].
    unfold underlying. cbn. by destruct (negb _). }
  destruct (resolve_leaf_vivify x symbol) as [x1 [leaf|]]; cbn [fst snd]; [|done].
  cbn [venue_to_engine set_statuses]. destruct (venue_to_engine x1 !! v) as [e|]; [|done].
  unfold account_owns. cbn [resting set_statuses].
  destruct (negb _); [done|]. cbn [underlying_book set_statuses].
  destruct (cancel_order _ _ _) as [book r]. destruct (negb _); [done|].
  destruct price as [price|].
  2: { change (set_book (set_statuses x1 s) book) with (set_statuses (set_book x1 book) s).
       by rewrite remove_resting_statuses. }
  change (set_book (set_statuses x1 s) book) with (set_statuses (set_book x1 book) s).
  rewrite remove_resting_statuses, run_add_statuses.
  by destruct (run_add _ _ _ _ _ _ _ _ _ _ _).
Qed.

End props.

Lemma execution_legs_unique_witness :
  let r := run "BTC" "run-1" (executor_new "BTC") 0 sample_session in
  length (r.2 ≫= outcome_fills) = 2%nat ∧ NoDup (leg_key <$> (r.2 ≫= outcome_fills)).
Proof.
  split; [by vm_compute|].
  apply (execution_legs_unique "BTC" "run-1" (executor_new "BTC") 0 sample_session);
    [lia|vm_compute; split; congruence].
Defined.

(** ** Concrete instances *)

Definition sample_state : MatchingExecutor :=
  (run "BTC" "run-1" (executor_new "BTC") 0 sample_session).1.


Lemma sample_state_wf : registry_wf 5 sample_state.
Proof.
  apply (run_registry_wf "BTC" "run-1" (executor_new "BTC") 0 sample_session).
  - apply from_book_wf.
  - apply (bool_decide_unpack _). by vm_compute.
  - intros. apply lookup_empty.
Qed.

Lemma placement_exactly_once_witness :
  let first := execute (executor_new "BTC")
    (context "BTC" "run-1" 0 (10, limit_add btc_call "v0" "alice" 1 (Some "a-1") Sell 100 5)) in
  let later := (run "BTC" "run-1" first.1 1 (tail sample_session)).1 in
  execute later
    (context "BTC" "run-1" 5 (20, limit_add btc_call "v9" "alice" 1 (Some "a-1") Sell 100 5)) =
    (later, Duplicate "v0" 0 (Added [] 5 [])).
Proof.
  destruct (placement_exactly_once "BTC" "run-1" (executor_new "BTC") 0 10 btc_call "v0" "alice" 1
    "a-1" Sell Limit (Some 100) 5 Gtc StpNone (tail sample_session) (lookup_empty _))
    as (_ & Hdup & _).
  apply (Hdup 5 20 "v9" 1 StpNone).
Defined.

(** Bob can neither cancel nor replace Alice's order. *)
Lemma foreign_order_untouchable_witness :
  execute_cancel sample_state btc_call "v0" "bob" = (sample_state, Rejected NotOwner NOT_ORDER_OWNER_REASON).
Proof.
  destruct (foreign_order_untouchable sample_state (context "BTC" "run-1" 5 (20, Clock 20)) btc_call
    "v0" "v9" "bob" Sell (Some 100) 1 Gtc 0
    {| rr_symbol := btc_call; rr_venue_order_id := "v0"; rr_account := "alice";
       rr_owner := 1; rr_side := Sell |}) as [[Hc|Hc] _]; [by vm_compute..|done| |done].
  exfalso. apply (f_equal (λ r, match r.2 with Rejected k _ => Some k | _ => None end)) in Hc.
  vm_compute in Hc. discriminate Hc.
Defined.

Lemma mass_cancel_isolation_witness :
  ∃ swept : list (Z * RestingRecord),
    [sweep_leg {| rr_symbol := btc_put; rr_venue_order_id := "v2"; rr_account := "bob";
                  rr_owner := 2; rr_side := Sell |}] = sweep_leg <$> swept.*2.
Proof.
  assert ((execute_mass_cancel sample_state ScopeUnderlying (BySide Sell) "bob").2 =
    MassCancelled [sweep_leg {| rr_symbol := btc_put; rr_venue_order_id := "v2";
      rr_account := "bob"; rr_owner := 2; rr_side := Sell |}]) as E by by vm_compute.
  destruct (execute_mass_cancel sample_state ScopeUnderlying (BySide Sell) "bob") as [y out] eqn:Ey.
  cbn in E. subst out.
  destruct (mass_cancel_isolation sample_state ScopeUnderlying (BySide Sell) "bob" _ y Ey)
    as (swept & Hl & _). by exists swept.
Defined.

Lemma iteration_order_irrelevant_witness :
  sweep_targets (reverse (map_to_list (resting sample_state))) ScopeUnderlying CancelAll None =
    sweep_targets (map_to_list (resting sample_state)) ScopeUnderlying CancelAll None.
Proof.
  apply (iteration_order_irrelevant 5 sample_state ScopeUnderlying CancelAll None
    (reverse (map_to_list (resting sample_state))) ∅ ∅ [] (sequential 0)
    (stp_removed ∅ ∅ [] (sequential 0)) sample_state_wf);
    [by rewrite reverse_Permutation|done].
Defined.


Lemma halted_refuses_placements_witness :
  is_accepting_orders (instrument_status sample_state) btc_put = false ∧
  ∃ kind reason,
    execute_add_order sample_state (context "BTC" "run-1" 5 (20, Clock 20)) btc_put "v9" "bob" 2 Buy
      Limit (Some 100) 7 Gtc = ((resolve_leaf_vivify sample_state btc_put).1, Rejected kind reason).
Proof.
  assert (is_accepting_orders (instrument_status sample_state) btc_put = false) as Hh by by vm_compute.
  split; [done|].
  destruct (halted_refuses_placements sample_state (context "BTC" "run-1" 5 (20, Clock 20)) btc_put "v9"
    "bob" 2 Buy Limit (Some 100) 7 Gtc Hh) as (k & r & E & _). by exists k, r.
Defined.

(** On a halted instrument placements are refused while a replacement rests. *)
Example replace_rests_while_halted :
  let halted := (run "BTC" "run-1" sample_state 5
    [(20, SetInstrumentStatus btc_call Halted); (21, limit_add btc_call "v5" "bob" 2 None Buy 90 1);
     (22, limit_add btc_put "v6" "bob" 2 None Buy 80 1)]) in
  halted.2 = [InstrumentStatusChanged btc_call Halted;
              Rejected InstrumentNotActive
                "instrument BTC-20240329-50000-C is Halted and is not accepting orders";
              Rejected InstrumentNotActive
                "instrument BTC-20240329-50000-P is Halted and is not accepting orders"] ∧
  (execute_replace halted.1 (context "BTC" "run-1" 8 (23, Clock 23)) btc_call "v0" "v7" "alice"
     Sell (Some 110) 2 Gtc).2 = Replaced true (AddRested [] 2 []).
Proof. split; by vm_compute. Qed.
