(* ===== verification/ExecutorRestore.v ===== *)
(** Snapshot capture and restore of the matching executor: the rebuilt registry,
    and what a restore does not carry over. *)

From S2P Require Export ExecutorInv.
From S2P Require Import SampleBook.

Section restore.
Context `{Upstream}.
Implicit Types x y z : MatchingExecutor.

(** The registry binding a prepared order is re-registered as. *)
Definition pro_record (o : PreparedRestingOrder) : RestingRecord :=
  {| rr_symbol := pro_symbol o; rr_venue_order_id := pro_order_id o;
     rr_account := pro_account o; rr_owner := pro_owner o; rr_side := pro_side o |}.

Definition pro_binding (o : PreparedRestingOrder) : OrderId * RestingRecord :=
  (sequential (pro_engine_seq o), pro_record o).

Definition insert_all `{Countable K} {A} (l : list (K * A)) (m : gmap K A) : gmap K A :=
  foldl (λ m r, <[r.1 := r.2]> m) m l.

Lemma vivify_registry x s :
  resting (resolve_leaf_vivify x s).1 = resting x ∧
  venue_to_engine (resolve_leaf_vivify x s).1 = venue_to_engine x ∧
  same_frame x (resolve_leaf_vivify x s).1.
Proof. unfold resolve_leaf_vivify. by repeat case_match. Qed.

Lemma rebuild_from_spec x orders y :
  rebuild_from x orders = (y, Ok tt) →
  resting y = insert_all (pro_binding <$> orders) (resting x) ∧
  venue_to_engine y =
    insert_all ((λ o, (pro_order_id o, sequential (pro_engine_seq o))) <$> orders)
      (venue_to_engine x) ∧
  same_frame x y.
Proof.
  revert x. induction orders as [|o orders IH]; intros x; cbn [rebuild_from].
  { by intros [= ->]. }
  unfold rebuild_one. destruct (vivify_registry x (pro_symbol o)) as (Hr & Hv & Hf).
  destruct (resolve_leaf_vivify x (pro_symbol o)) as [x1 [leaf|]]; [|done].
  destruct (add_limit_order _ _ _ _ _ _ _ _) as [book [|]]; [|done].
  intros (HR & HV & HF)%IH. rewrite HR, HV. cbn in *. unfold pro_binding at 1.
  rewrite Hr, Hv. split; [done|]. split; [done|]. by transitivity x1.
Qed.

Lemma apply_statuses_spec x cs y :
  apply_instrument_statuses x cs = (y, Ok tt) → same_registry x y ∧ same_frame x y.
Proof.
  revert x. induction cs as [|c cs IH]; intros x; cbn [apply_instrument_statuses].
  { by intros [= ->]. }
  destruct (vivify_registry x (isc_symbol c)) as (Hr & Hv & Hf).
  destruct (resolve_leaf_vivify x (isc_symbol c)) as [x1 [leaf|]]; [|done].
  destruct (set_status _ _ _) as [book [|]]; [|done].
  intros [[HR HV] HF]%IH. cbn in *. split; [|by transitivity x1].
  split; congruence.
Qed.

Lemma prepare_orders_spec u cs os :
  prepare_orders u cs = Ok os →
  Forall2 (λ c o, pro_symbol o = roc_symbol c ∧ pro_order_id o = roc_order_id c ∧
    pro_account o = roc_account c ∧ pro_owner o = roc_owner c ∧
    pro_engine_seq o = roc_engine_seq c ∧ pro_side o = roc_side c ∧
    pro_price o = roc_price c ∧ pro_quantity o = roc_quantity c ∧
    pro_time_in_force o = roc_time_in_force c) cs os.
Proof.
  revert os. induction cs as [|c cs IH]; intros os; cbn [prepare_orders].
  { intros [= <-]. constructor. }
  intros (o & Ho & (os' & Hos & [= <-])%bind_Ok)%bind_Ok.
  constructor; [|by apply IH]. unfold prepare_order in Ho.
  apply bind_Ok in Ho as (p & _ & Ho). destruct (negb _); [done|]. by injection Ho as <-.
Qed.

(** Every successful restore is a fresh executor with the cut's orders, the
    cut's idempotency records, no instrument status and no control sink. *)
Lemma prepare_restore_spec x cuts idem statuses y :
  prepare_restore x cuts idem statuses = Ok y →
  ∃ os, Forall2 (λ c o, pro_binding o =
           (sequential (roc_engine_seq c),
            {| rr_symbol := roc_symbol c; rr_venue_order_id := roc_order_id c;
               rr_account := roc_account c; rr_owner := roc_owner c; rr_side := roc_side c |}))
          cuts os ∧
    resting y = insert_all (pro_binding <$> sort_by_key Z.leb pro_engine_seq os) ∅ ∧
    venue_to_engine y =
      insert_all ((λ o, (pro_order_id o, sequential (pro_engine_seq o))) <$>
                  sort_by_key Z.leb pro_engine_seq os) ∅ ∧
    idempotency y = idempotency_from_records idem ∧
    instrument_status y = ∅ ∧ mm_control y = None.
Proof.
  unfold prepare_restore. intros (os & Hos & Hy)%bind_Ok. exists os.
  destruct (rebuild_from _ _) as [d1 r1] eqn:E1.
  apply bind_Ok in Hy as ([] & -> & Hy).
  destruct (apply_instrument_statuses _ _) as [d2 r2] eqn:E2.
  apply bind_Ok in Hy as ([] & -> & [= ->]).
  apply rebuild_from_spec in E1 as (HR & HV & F1 & F2 & F3).
  apply apply_statuses_spec in E2 as ([HR2 HV2] & G1 & G2 & G3).
  cbn in *. split_and!.
  - apply prepare_orders_spec in Hos. eapply Forall2_impl; [done|].
    intros c o (E1 & E2 & E3 & E4 & E5 & E6 & _). unfold pro_binding, pro_record.
    congruence.
  - congruence.
  - congruence.
  - done.
  - congruence.
  - congruence.
Qed.

(** The book agrees with the registry: every registered order can be captured
    and rests on its registered side. *)
Definition book_agrees x : Prop :=
  ∀ e r, resting x !! e = Some r →
    ∃ c, capture_resting x (e, r) = Some c ∧ roc_side c = rr_side r.

Definition roc_binding (c : RestingOrderCapture) : OrderId * RestingRecord :=
  (sequential (roc_engine_seq c),
   {| rr_symbol := roc_symbol c; rr_venue_order_id := roc_order_id c;
      rr_account := roc_account c; rr_owner := roc_owner c; rr_side := roc_side c |}).

Lemma capture_resting_fields x e r c :
  capture_resting x (e, r) = Some c →
  roc_symbol c = rr_symbol r ∧ roc_order_id c = rr_venue_order_id r ∧
  roc_account c = rr_account r ∧ roc_owner c = rr_owner r ∧
  order_id_as_u64 e = Some (roc_engine_seq c).
Proof.
  cbn. intros (leaf & _ & (order & _ & (seq & Hs & (p & _ & [= <-])%bind_Some)%bind_Some)
    %bind_Some)%bind_Some. done.
Qed.

Lemma capture_bindings `{!OrderIdLaws} n x :
  registry_wf n x → book_agrees x →
  roc_binding <$> resting_orders (capture_state x) ≡ₚ map_to_list (resting x).
Proof.
  intros Hwf Hag. cbn. rewrite sort_by_key_perm.
  assert (∀ p, p ∈ map_to_list (resting x) →
    ∃ c, capture_resting x p = Some c ∧ roc_binding c = p) as Hc.
  { intros [e r] Hin%elem_of_map_to_list. destruct (Hag e r Hin) as (c & Hc & Hsd).
    exists c. split; [done|].
    apply capture_resting_fields in Hc as (E1 & E2 & E3 & E4 & E5).
    destruct (wf_ids _ _ Hwf e r Hin) as (k & -> & _). rewrite as_u64_sequential in E5.
    injection E5 as E5. unfold roc_binding. rewrite <-E5, E1, E2, E3, E4, Hsd.
    by destruct r. }
  clear Hag. induction (map_to_list (resting x)) as [|p l IH]; [done|].
  cbn [omap list_omap]. destruct (Hc p ltac:(by left)) as (c & -> & Hb). cbn. rewrite Hb.
  constructor. apply IH. intros p' Hp'. apply Hc. by right.
Qed.

Lemma v2e_bindings n x :
  registry_wf n x →
  (λ p : OrderId * RestingRecord, (rr_venue_order_id p.2, p.1)) <$> map_to_list (resting x)
    ≡ₚ map_to_list (venue_to_engine x).
Proof.
  intros Hwf. apply NoDup_Permutation.
  - apply NoDup_fmap_2_strong; [|apply NoDup_map_to_list].
    intros [e1 r1] [e2 r2] H1%elem_of_map_to_list H2%elem_of_map_to_list [= _ E].
    cbn in *. subst. congruence.
  - apply NoDup_map_to_list.
  - intros [v e]. rewrite elem_of_map_to_list, (wf_v2e _ _ Hwf), list_elem_of_fmap. split.
    + intros ([e' r] & [= -> ->] & Hin%elem_of_map_to_list). by exists r.
    + intros (r & Hr & <-). exists (e, r). split; [done|]. by apply elem_of_map_to_list.
Qed.

(** C11. Restoring an executor's own capture gives back its registry: for a
    well-formed executor whose book agrees with it, a restore that succeeds
    rebuilds exactly the same resting records under the same engine ids, the
    same venue-to-engine map and the same idempotency map. *)
Theorem capture_restore_roundtrip `{!OrderIdLaws} n x y :
  registry_wf n x → book_agrees x →
  prepare_restore x (resting_orders (capture_state x)) (es_idempotency (capture_state x))
    (es_instrument_statuses (capture_state x)) = Ok y →
  resting y = resting x ∧ venue_to_engine y = venue_to_engine x ∧
  idempotency y = idempotency x ∧ registry_wf n y.
Proof.
  intros Hwf Hag Hy.
  apply prepare_restore_spec in Hy as (os & Hos & HR & HV & HI & _).
  assert (pro_binding <$> sort_by_key Z.leb pro_engine_seq os ≡ₚ map_to_list (resting x)) as Hb.
  { rewrite sort_by_key_perm, <-(capture_bindings n x) by done.
    apply reflexive_eq. clear -Hos. induction Hos as [|c o cs os Ho Hos IH]; cbn; [done|].
    by rewrite IH, Ho. }
  assert (resting y = resting x) as ER.
  { rewrite HR. unfold insert_all. by apply foldl_insert_perm. }
  assert (venue_to_engine y = venue_to_engine x) as EV.
  { rewrite HV. unfold insert_all. apply foldl_insert_perm.
    rewrite <-(v2e_bindings n x), <-Hb by done. by rewrite <-list_fmap_compose. }
  split_and!; [done|done| |].
  - rewrite HI. apply idempotency_roundtrip.
  - by apply (registry_wf_same n x).
Qed.

(** A restore reopens every instrument: whatever the live executor had
    halted and whatever the snapshot's status list says, the restored
    instrument-status registry is empty, so each symbol reads [Active] at the
    order gate and an order into a halted instrument is no longer refused
    there.  The registry, idempotency map and book are restored; the control
    sink is not. *)
Theorem restore_reactivates_instruments x cuts idem statuses y symbol :
  prepare_restore x cuts idem statuses = Ok y →
  status_of (instrument_status (commit_restore x y)) symbol = Active ∧
  mm_control (commit_restore x y) = None.
Proof.
  intros Hy. apply prepare_restore_spec in Hy as (os & _ & _ & _ & _ & HS & HM).
  unfold status_of, commit_restore. by rewrite HS, lookup_empty.
Qed.
End restore.

Definition sample_live := (run "BTC" "run-1" (executor_new "BTC") 0 sample_session).1.

Lemma sample_live_wf : registry_wf 5 sample_live.
Proof.
  apply (run_registry_wf "BTC" "run-1" (executor_new "BTC") 0 sample_session).
  - apply from_book_wf.
  - apply (bool_decide_unpack _). by vm_compute.
  - intros. apply lookup_empty.
Qed.

Lemma sample_live_agrees : book_agrees sample_live.
Proof.
  intros e r Hr%elem_of_map_to_list. revert e r Hr.
  cut (Forall (λ p : OrderId * RestingRecord, ∃ c, capture_resting sample_live p = Some c ∧
    roc_side c = rr_side p.2) (map_to_list (resting sample_live))).
  { intros Hf e r Hin. rewrite Forall_forall in Hf. apply (Hf _ Hin). }
  match goal with |- Forall _ ?l => let l' := eval vm_compute in l in
    change (Forall (λ p : OrderId * RestingRecord, ∃ c, capture_resting sample_live p = Some c ∧
      roc_side c = rr_side p.2) l') end.
  repeat constructor; eexists; (split; [by vm_compute|done]).
Qed.

Lemma sample_restores :
  ∃ y, prepare_restore sample_live (resting_orders (capture_state sample_live))
         (es_idempotency (capture_state sample_live))
         (es_instrument_statuses (capture_state sample_live)) = Ok y.
Proof.
  assert (is_ok (prepare_restore sample_live (resting_orders (capture_state sample_live))
    (es_idempotency (capture_state sample_live))
    (es_instrument_statuses (capture_state sample_live))) = true) as Hok by by vm_compute.
  destruct (prepare_restore _ _ _ _) as [y|e]; [by exists y|discriminate Hok].
Qed.

Lemma capture_restore_roundtrip_witness :
  ∃ y, resting y = resting sample_live ∧ size (resting sample_live) = 3%nat.
Proof.
  destruct sample_restores as [y E]. exists y.
  destruct (capture_restore_roundtrip 5 sample_live y sample_live_wf sample_live_agrees E)
    as (-> & _). split; [done|by vm_compute].
Defined.

(** The put halted in the live session accepts orders after the restore. *)
Lemma restore_reactivates_instruments_witness :
  status_of (instrument_status sample_live) btc_put = Halted ∧
  ∃ y, status_of (instrument_status (commit_restore sample_live y)) btc_put = Active.
Proof.
  split; [by vm_compute|]. destruct sample_restores as [y E]. exists y.
  apply (restore_reactivates_instruments _ _ _ _ _ _ E).
Defined.
