(* ===== verification/Stores.v ===== *)
(** The store projections ([src/src/exchange/stores.rs]): the executions log, the
    positions ledger with its fold and projection, the mark book, and the fan-out
    that drives them from committed events.  The shared maps are the values
    themselves; every method is one critical section of the single writer. *)

From S2P Require Export Snapshot.

Inductive StoreError := Arithmetic | StoreBackend (why : string).

Definition store_error_display (e : StoreError) : string :=
  match e with
  | Arithmetic => "store arithmetic overflow in the position fold"
  | StoreBackend why => "store backend failure: " +:+ why
  end.

(** ** Marks: the calculator is upstream. *)

Class MarkPriceCalculator := {
  Calculator : Type;
  calculator_default : Calculator;
  update_last_trade_price : Calculator → Z → Calculator;
  update_index_price : Calculator → Z → Calculator;
  advance_mark : Calculator → Calculator;
  current_mark_price : Calculator → option Z;
}.

Section marks.
Context `{MarkPriceCalculator}.

Notation MarkPriceBook := (gmap string Calculator).

Definition on_trade (m : MarkPriceBook) (symbol : Symbol) (price : Cents) : MarkPriceBook :=
  let calc := default calculator_default (m !! symbol) in
  <[symbol := advance_mark (update_last_trade_price calc price)]> m.

Definition set_index_price (m : MarkPriceBook) (symbol : Symbol) (price : Cents) :
    MarkPriceBook :=
  let calc := default calculator_default (m !! symbol) in
  <[symbol := advance_mark (update_index_price calc price)]> m.

Definition mark (m : MarkPriceBook) (symbol : Symbol) : option Cents :=
  calc ← m !! symbol; current_mark_price calc.
End marks.

(** ** Executions *)

Notation ExecKey := (string * LiquidityFlag)%type (only parsing).

Record StoredExecution := { se_ord : Z; se_record : ExecutionRecord }.

Record InMemoryExecutionsStore := {
  records : gmap (string * LiquidityFlag) StoredExecution;
  next_ord : Z;
}.

Definition InMemoryExecutionsStore_new : InMemoryExecutionsStore :=
  {| records := ∅; next_ord := 0 |}.

Definition exec_key (r : ExecutionRecord) : ExecKey := (xr_execution_id r, xr_liquidity r).

Definition execution_leg_belongs (r : ExecutionRecord) (underlying : string) : bool :=
  String.eqb (xr_symbol r) underlying.

(** Appends, or replaces keeping the original insertion order; the counter
    wraps like the atomic's [fetch_add]. *)
Definition exec_record (s : InMemoryExecutionsStore) (r : ExecutionRecord) :
    InMemoryExecutionsStore * result StoreError unit :=
  match records s !! exec_key r with
  | Some existing =>
      ({| records := <[exec_key r := {| se_ord := se_ord existing; se_record := r |}]> (records s);
          next_ord := next_ord s |}, Ok tt)
  | None =>
      ({| records := <[exec_key r := {| se_ord := next_ord s; se_record := r |}]> (records s);
          next_ord := wrapping u64 (next_ord s + 1) |}, Ok tt)
  end.

Definition exec_get_leg (s : InMemoryExecutionsStore) (id : ExecutionId) (l : LiquidityFlag)
    (account : AccountId) : option ExecutionRecord :=
  stored ← records s !! (id, l);
  if String.eqb (xr_account (se_record stored)) account then Some (se_record stored) else None.

Definition exec_get (s : InMemoryExecutionsStore) (id : ExecutionId) (account : AccountId) :
    result StoreError (option ExecutionRecord) :=
  match exec_get_leg s id Taker account with
  | Some r => Ok (Some r)
  | None => Ok (exec_get_leg s id Maker account)
  end.

Record ExecutionFilter := { ef_underlying : option string; ef_limit : option Z }.

Definition leg_matches (account : AccountId) (f : ExecutionFilter) (e : StoredExecution) : bool :=
  String.eqb (xr_account (se_record e)) account &&
  match ef_underlying f with
  | Some underlying => String.eqb (xr_symbol (se_record e)) underlying
  | None => true
  end.

Definition exec_list (s : InMemoryExecutionsStore) (account : AccountId) (f : ExecutionFilter) :
    result StoreError (list ExecutionRecord) :=
  let matched := filter (λ e, leg_matches account f e = true) ((map_to_list (records s)).*2) in
  let out := se_record <$> sort_by_key Z.leb se_ord matched in
  Ok (match ef_limit f with Some n => take (Z.to_nat n) out | None => out end).

Definition exec_len (s : InMemoryExecutionsStore) : Z := Z.of_nat (size (records s)).

Definition exec_capture_for (s : InMemoryExecutionsStore) (underlying : string) :
    list ExecutionCapture :=
  sort_by_key Z.leb ec_ord
    ((λ e, {| ec_ord := se_ord e; ec_record := se_record e |}) <$>
      filter (λ e, execution_leg_belongs (se_record e) underlying = true)
        ((map_to_list (records s)).*2)).

Definition exec_validate_restore (underlying : string) (captures : list ExecutionCapture) :
    result SnapshotError unit :=
  let foreign :=
    length (filter (λ c, execution_leg_belongs (ec_record c) underlying = false) captures) in
  if (0 <? Z.of_nat foreign)
  then Err (RebuildFailed ("executions restore cut for " +:+ underlying +:+ " carries " +:+
                           dec (Z.of_nat foreign) +:+ " leg(s) for another underlying"))
  else Ok tt.

Fixpoint exec_restore_loop (underlying : string) (captures : list ExecutionCapture)
    (m : gmap (string * LiquidityFlag) StoredExecution) (max_ord : Z) :
    gmap (string * LiquidityFlag) StoredExecution * Z :=
  match captures with
  | [] => (m, max_ord)
  | c :: captures =>
      if negb (execution_leg_belongs (ec_record c) underlying)
      then exec_restore_loop underlying captures m max_ord
      else
        exec_restore_loop underlying captures
          (<[exec_key (ec_record c) := {| se_ord := ec_ord c; se_record := ec_record c |}]> m)
          (Z.max max_ord (ec_ord c))
  end.

Definition exec_restore_for (s : InMemoryExecutionsStore) (underlying : string)
    (captures : list ExecutionCapture) : InMemoryExecutionsStore :=
  let retained :=
    filter (λ kv, execution_leg_belongs (se_record kv.2) underlying = false) (records s) in
  let '(m, max_ord) := exec_restore_loop underlying captures retained 0 in
  {| records := m;
     next_ord := match checked_add u64 max_ord 1 with
                 | Some next => Z.max (next_ord s) next
                 | None => next_ord s
                 end |}.

(** ** Positions *)

Record PositionState := {
  ps_state_underlying : string;
  net_quantity : Z;    (* i64 *)
  basis : Z;           (* i128 *)
  cash_ex_fee : Z;     (* i128 *)
  position_fees : Z;   (* i128 *)
}.
#[export] Instance PositionState_eq_dec : EqDecision PositionState.
Proof. solve_decision. Defined.

Definition PositionState_new (underlying : string) : PositionState :=
  {| ps_state_underlying := underlying; net_quantity := 0; basis := 0; cash_ex_fee := 0;
     position_fees := 0 |}.

Definition with_fees (p : PositionState) (v : Z) : PositionState :=
  {| ps_state_underlying := ps_state_underlying p; net_quantity := net_quantity p;
     basis := basis p; cash_ex_fee := cash_ex_fee p; position_fees := v |}.
Definition with_cash (p : PositionState) (v : Z) : PositionState :=
  {| ps_state_underlying := ps_state_underlying p; net_quantity := net_quantity p;
     basis := basis p; cash_ex_fee := v; position_fees := position_fees p |}.
Definition with_basis (p : PositionState) (v : Z) : PositionState :=
  {| ps_state_underlying := ps_state_underlying p; net_quantity := net_quantity p;
     basis := v; cash_ex_fee := cash_ex_fee p; position_fees := position_fees p |}.
Definition with_net (p : PositionState) (v : Z) : PositionState :=
  {| ps_state_underlying := ps_state_underlying p; net_quantity := v;
     basis := basis p; cash_ex_fee := cash_ex_fee p; position_fees := position_fees p |}.

(** A step of the fold that assigns a field: the state is kept on an error, as
    assigned so far. *)
Definition assign (set : PositionState → Z → PositionState) (v : option Z)
    (k : PositionState → PositionState * result StoreError unit) (p : PositionState) :
    PositionState * result StoreError unit :=
  match v with None => (p, Err Arithmetic) | Some v => k (set p v) end.

Definition fold (p : PositionState) (side : Side) (quantity : Z) (price : Cents)
    (fee : SignedCents) : PositionState * result StoreError unit :=
  match
    (qty ← narrow i64 quantity;
     dq ← match side with Buy => Some qty | Sell => checked_neg i64 qty end;
     dqp ← checked_mul i128 dq price;
     Some (dq, dqp))
  with
  | None => (p, Err Arithmetic)
  | Some (dq, dqp) =>
      assign with_fees (checked_add i128 (position_fees p) fee) (λ p,
      assign with_cash (checked_sub i128 (cash_ex_fee p) dqp) (λ p,
        let net := net_quantity p in
        let increasing := (net =? 0) || Bool.eqb (0 <? net) (0 <? dq) in
        if increasing then
          assign with_basis (checked_add i128 (basis p) dqp) (λ p,
          assign with_net (checked_add i64 net dq) (λ p, (p, Ok tt)) p) p
        else
          let net_abs := Z.abs net in
          let dq_abs := Z.abs dq in
          if dq_abs <=? net_abs then
            assign with_basis
              (product ← checked_mul i128 (basis p) dq_abs;
               cost_removed ← checked_div i128 product net_abs;
               checked_sub i128 (basis p) cost_removed) (λ p,
            assign with_net (checked_add i64 net dq) (λ p,
              (if net_quantity p =? 0 then with_basis p 0 else p, Ok tt)) p) p
          else
            assign with_net (checked_add i64 net dq) (λ p,
            assign with_basis (checked_mul i128 (net_quantity p) price) (λ p, (p, Ok tt)) p) p)
        p) p
  end.

Definition to_capture (p : PositionState) (account : AccountId) (symbol : Symbol) :
    PositionCapture :=
  {| pc_account := account; pc_symbol := symbol; pc_underlying := ps_state_underlying p;
     pc_net_quantity := net_quantity p; pc_basis := basis p; pc_cash_ex_fee := cash_ex_fee p;
     pc_fees := position_fees p |}.

Definition from_capture (c : PositionCapture) : PositionState :=
  {| ps_state_underlying := pc_underlying c; net_quantity := pc_net_quantity c;
     basis := pc_basis c; cash_ex_fee := pc_cash_ex_fee c; position_fees := pc_fees c |}.

(** [models::Position]; the venue leaves [delta_exposure] at zero. *)
Record Position := {
  position_account : AccountId;
  position_symbol : Symbol;
  position_underlying : string;
  position_net_quantity : Z;
  avg_price : Cents;
  current_price : option Cents;
  realized_pnl : SignedCents;
  unrealized_pnl : option SignedCents;
}.

Definition project (p : PositionState) (account : AccountId) (symbol : Symbol)
    (mark : option Cents) : result StoreError Position :=
  let net := net_quantity p in
  avg_price ← if net =? 0 then Ok 0
              else ok_or Arithmetic (narrow u64 (Z.abs (basis p) / Z.abs net));
  realized_i ← ok_or Arithmetic
    (v ← checked_sub i128 (cash_ex_fee p) (position_fees p);
     checked_add i128 v (basis p));
  realized_pnl ← ok_or Arithmetic (narrow i64 realized_i);
  '(current_price, unrealized_pnl) ←
    match mark with
    | Some mark =>
        unrealized_i ← ok_or Arithmetic
          (v ← checked_mul i128 net mark;
           checked_sub i128 v (basis p));
        unrealized_pnl ← ok_or Arithmetic (narrow i64 unrealized_i);
        Ok (Some mark, Some unrealized_pnl)
    | None => Ok (None, None)
    end;
  Ok {| position_account := account; position_symbol := symbol;
        position_underlying := ps_state_underlying p; position_net_quantity := net;
        avg_price := avg_price; current_price := current_price;
        realized_pnl := realized_pnl; unrealized_pnl := unrealized_pnl |}.

Record PositionLeg := {
  pl_account : AccountId;
  pl_symbol : Symbol;
  pl_underlying : string;
  pl_side : Side;
  pl_quantity : Z;
  pl_price : Cents;
  pl_fee : SignedCents;
}.

Notation InMemoryPositionsStore := (gmap (string * string) PositionState) (only parsing).

Definition positions_apply (s : InMemoryPositionsStore) (leg : PositionLeg) :
    InMemoryPositionsStore * result StoreError unit :=
  let key := (pl_account leg, pl_symbol leg) in
  let state := default (PositionState_new (pl_underlying leg)) (s !! key) in
  let '(state, r) := fold state (pl_side leg) (pl_quantity leg) (pl_price leg) (pl_fee leg) in
  (<[key := state]> s, r).

Definition positions_get (s : InMemoryPositionsStore) (account : AccountId) (symbol : Symbol)
    (mark : option Cents) : result StoreError (option Position) :=
  match s !! (account, symbol) with
  | Some state => position ← project state account symbol mark; Ok (Some position)
  | None => Ok None
  end.

Fixpoint project_all (entries : list (string * string * PositionState))
    (marks : Symbol → option Cents) : result StoreError (list Position) :=
  match entries with
  | [] => Ok []
  | ((account, symbol), state) :: entries =>
      position ← project state account symbol (marks symbol);
      positions ← project_all entries marks;
      Ok (position :: positions)
  end.

Definition positions_list (s : InMemoryPositionsStore) (account : AccountId)
    (marks : Symbol → option Cents) : result StoreError (list Position) :=
  positions ← project_all (filter (λ e, e.1.1 = account) (map_to_list s)) marks;
  Ok (sort_by_key String.leb position_symbol positions).

Definition position_fold_belongs (fold_underlying underlying : string) : bool :=
  String.eqb fold_underlying underlying.

Definition positions_capture_for (s : InMemoryPositionsStore) (underlying : string) :
    list PositionCapture :=
  sort_by_key (pair_leb String.leb String.leb) (λ c, (pc_account c, pc_symbol c))
    ((λ e, to_capture e.2 e.1.1 e.1.2) <$>
      filter (λ e, position_fold_belongs (ps_state_underlying e.2) underlying = true)
        (map_to_list s)).

Definition positions_validate_restore (underlying : string) (captures : list PositionCapture) :
    result SnapshotError unit :=
  let foreign :=
    length (filter (λ c, position_fold_belongs (pc_underlying c) underlying = false) captures) in
  if (0 <? Z.of_nat foreign)
  then Err (RebuildFailed ("positions restore cut for " +:+ underlying +:+ " carries " +:+
                           dec (Z.of_nat foreign) +:+ " fold(s) for another underlying"))
  else Ok tt.

Definition positions_restore_for (s : InMemoryPositionsStore) (underlying : string)
    (captures : list PositionCapture) : InMemoryPositionsStore :=
  let retained :=
    filter (λ kv, position_fold_belongs (ps_state_underlying kv.2) underlying = false) s in
  foldl (λ m c,
    if negb (position_fold_belongs (pc_underlying c) underlying) then m
    else <[(pc_account c, pc_symbol c) := from_capture c]> m) retained captures.

(** ** The fan-out *)

Record FanOutSealed := { projection : string; detail : string }.

Definition command_symbol (c : VenueCommand) : option Symbol :=
  match c with
  | AddOrder symbol _ _ _ _ _ _ _ _ _ _ | Replace symbol _ _ _ _ _ _ _ _ _ _ => Some symbol
  | _ => None
  end.

(** A fee whose negation overflows records a zero edge. *)
Definition net_of_fee_edge (f : Fill) : SignedCents :=
  default 0 (checked_neg i64 (fill_fee f)).

Definition project_execution (event : VenueEvent) (symbol : Symbol) (underlying : string)
    (fill : Fill) : ExecutionRecord :=
  {| xr_execution_id := fill_execution_id fill; xr_order_id := fill_order_id fill;
     xr_account := fill_account fill; xr_symbol := underlying; xr_instrument := symbol;
     xr_side := fill_side fill; xr_liquidity := fill_liquidity fill;
     xr_quantity := fill_quantity fill; xr_price_cents := fill_price fill;
     xr_fee_cents := fill_fee fill; xr_theo_value_cents := fill_price fill;
     xr_edge_cents := net_of_fee_edge fill;
     xr_underlying_sequence := ev_underlying_sequence event; xr_latency_us := 0;
     xr_executed_at := ev_venue_ts event |}.

Definition fill_leg (symbol : Symbol) (underlying : string) (fill : Fill) : PositionLeg :=
  {| pl_account := fill_account fill; pl_symbol := symbol; pl_underlying := underlying;
     pl_side := fill_side fill; pl_quantity := fill_quantity fill; pl_price := fill_price fill;
     pl_fee := fill_fee fill |}.

Section fanout.
Context `{Upstream, MarkPriceCalculator}.

Record StoreFanOut := {
  executions : InMemoryExecutionsStore;
  positions : InMemoryPositionsStore;
  marks : gmap string Calculator;
  sealed : bool;
}.

Definition StoreFanOut_new : StoreFanOut :=
  {| executions := InMemoryExecutionsStore_new; positions := ∅; marks := ∅; sealed := false |}.

Definition set_stores (f : StoreFanOut) e p : StoreFanOut :=
  {| executions := e; positions := p; marks := marks f; sealed := sealed f |}.
Definition set_marks (f : StoreFanOut) m : StoreFanOut :=
  {| executions := executions f; positions := positions f; marks := m; sealed := sealed f |}.

Definition seal_fan_out (f : StoreFanOut) (projection : string) (error : StoreError) :
    StoreFanOut * result FanOutSealed unit :=
  ({| executions := executions f; positions := positions f; marks := marks f; sealed := true |},
   Err {| projection := projection; detail := store_error_display error |}).

Definition underlying_of (symbol : Symbol) : option string :=
  match parse_symbol symbol with Ok parsed => Some (ps_underlying parsed) | Err _ => None end.

Fixpoint emit_fills (f : StoreFanOut) (event : VenueEvent) (symbol : Symbol)
    (underlying : string) (fills : list Fill) : StoreFanOut * result FanOutSealed unit :=
  match fills with
  | [] => (f, Ok tt)
  | fill :: fills =>
      let '(execs, r) := exec_record (executions f) (project_execution event symbol underlying fill) in
      let f := set_stores f execs (positions f) in
      match r with
      | Err error => seal_fan_out f "executions" error
      | Ok _ =>
          let '(pos, r) := positions_apply (positions f) (fill_leg symbol underlying fill) in
          let f := set_stores f (executions f) pos in
          match r with
          | Err error => seal_fan_out f "positions" error
          | Ok _ => emit_fills f event symbol underlying fills
          end
      end
  end.

(** One mark print per execution. *)
Fixpoint print_marks (m : gmap string Calculator) (symbol : Symbol) (printed : gset string)
    (fills : list Fill) : gmap string Calculator :=
  match fills with
  | [] => m
  | fill :: fills =>
      if bool_decide (fill_execution_id fill ∈ printed) then print_marks m symbol printed fills
      else print_marks (on_trade m symbol (fill_price fill)) symbol
             ({[fill_execution_id fill]} ∪ printed) fills
  end.

Definition emit (f : StoreFanOut) (event : VenueEvent) : StoreFanOut * result FanOutSealed unit :=
  if sealed f
  then (f, Err {| projection := "store";
                  detail := "fan-out already sealed by a prior projection failure" |})
  else
    match command_symbol (ev_command event) with
    | None => (f, Ok tt)
    | Some symbol =>
        let fills := outcome_fills (ev_outcome event) in
        if bool_decide (fills = []) then (f, Ok tt)
        else
          match underlying_of symbol with
          | None => (f, Ok tt)
          | Some underlying =>
              let '(f, r) := emit_fills f event symbol underlying fills in
              match r with
              | Err e => (f, Err e)
              | Ok _ => (set_marks f (print_marks (marks f) symbol ∅ fills), Ok tt)
              end
          end
    end.
(** Emits in order, up to the first failure. *)
Fixpoint emit_all (f : StoreFanOut) (events : list VenueEvent) : StoreFanOut * result FanOutSealed unit :=
  match events with
  | [] => (f, Ok tt)
  | e :: events =>
      let '(f, r) := emit f e in
      match r with Err err => (f, Err err) | Ok _ => emit_all f events end
  end.
End fanout.
