(* ===== verification/StoresProps.v ===== *)
(** Correctness of the store projections: the positions ledger (what the fold computes, the bounds
    of its cost basis, the profit-and-loss identity), what a stream of committed events leaves in
    the executions log and the ledger, the seal of the fan-out, and the per-underlying capture and
    restore. *)

From S2P Require Export Stores Fills ExecutorInv.
From S2P Require Import SampleBook.

(** ** The fold, exactly *)

Definition signed_quantity (side : Side) (quantity : Z) : Z :=
  match side with Buy => quantity | Sell => - quantity end.

Definition leg_dq (l : PositionLeg) : Z := signed_quantity (pl_side l) (pl_quantity l).

(** A successful fold adds the signed quantity, pays for it out of cash, and
    accumulates the fee, whatever the branch. *)
Lemma fold_exact p side q price fee p' :
  fold p side q price fee = (p', Ok tt) →
  net_quantity p' = net_quantity p + signed_quantity side q ∧
  cash_ex_fee p' = cash_ex_fee p - signed_quantity side q * price ∧
  position_fees p' = position_fees p + fee ∧
  ps_state_underlying p' = ps_state_underlying p.
Proof.
  unfold fold, assign.
  destruct (narrow i64 q) as [qty|] eqn:Hq; cbn; [|done]. simp_narrow.
  assert (∃ dq, match side with Buy => Some q | Sell => narrow i64 (- q) end = dq ∧
    ∀ d, dq = Some d → d = signed_quantity side q) as (dq & -> & Hdq).
  { eexists. split; [done|]. destruct side; cbn; intros d Hd; [congruence|].
    apply narrow_Some in Hd as [-> _]. done. }
  destruct dq as [dq|]; cbn; [|done]. specialize (Hdq dq eq_refl). subst dq.
  repeat match goal with
  | |- context [match narrow ?t ?z with Some _ => _ | None => _ end] =>
      let E := fresh "E" in destruct (narrow t z) eqn:E; cbn; [|done]
  | |- context [mbind _ (narrow ?t ?z)] =>
      let E := fresh "E" in destruct (narrow t z) eqn:E; cbn; [|done]
  | |- context [checked_div ?t ?a ?b] =>
      let E := fresh "E" in destruct (checked_div t a b) eqn:E; cbn; [|done]
  | |- context [if ?b then _ else _] => destruct b; cbn
  end; intros [= <-]; simp_narrow; cbn; try (split_and!; lia || done).
Qed.

(** ** The cost basis stays between zero and the dearest entry price *)

(** With entry prices at most [P], the basis has the sign of the net quantity
    and magnitude at most [|net| * P]; a flat position has no basis. *)
Definition basis_bounded (P : Z) (p : PositionState) : Prop :=
  (0 ≤ net_quantity p ∧ 0 ≤ basis p ≤ net_quantity p * P) ∨
  (net_quantity p ≤ 0 ∧ net_quantity p * P ≤ basis p ≤ 0).

Lemma quot_reduce b d n P :
  0 < n → 0 ≤ d ≤ n → 0 ≤ b ≤ n * P → 0 ≤ b - Z.quot (b * d) n ≤ (n - d) * P.
Proof.
  intros Hn Hd Hb. rewrite Z.quot_div_nonneg by nia.
  pose proof (Z.div_mod (b * d) n ltac:(lia)) as Hm.
  pose proof (Z.mod_pos_bound (b * d) n Hn). nia.
Qed.

Lemma basis_bounded_flat P p :
  0 ≤ P → basis_bounded P p → net_quantity p = 0 → basis p = 0.
Proof. unfold basis_bounded. intros ? ? E. rewrite E in *. lia. Qed.

(** The basis the fold computes, as a plain function. *)
Definition next_basis (net b dq price : Z) : Z :=
  if (net =? 0) || Bool.eqb (0 <? net) (0 <? dq) then b + dq * price
  else if Z.abs dq <=? Z.abs net
  then if net + dq =? 0 then 0 else b - Z.quot (b * Z.abs dq) (Z.abs net)
  else (net + dq) * price.

Lemma fold_basis p side q price fee p' :
  fold p side q price fee = (p', Ok tt) →
  basis p' = next_basis (net_quantity p) (basis p) (signed_quantity side q) price.
Proof.
  unfold fold, assign, next_basis.
  destruct (narrow i64 q) as [qty|] eqn:Hq; cbn; [|done]. simp_narrow.
  assert (∃ dq, match side with Buy => Some q | Sell => narrow i64 (- q) end = dq ∧
    ∀ d, dq = Some d → d = signed_quantity side q) as (dq & -> & Hdq).
  { eexists. split; [done|]. destruct side; cbn; intros d Hd; [congruence|].
    apply narrow_Some in Hd as [-> _]. done. }
  destruct dq as [dq|]; cbn; [|done]. specialize (Hdq dq eq_refl). subst dq.
  set (dq := signed_quantity side q).
  destruct (narrow i128 (dq * price)) eqn:E1; cbn; [|done].
  destruct (narrow i128 (position_fees p + fee)) eqn:E2; cbn; [|done].
  destruct (narrow i128 (cash_ex_fee p - _)) eqn:E3; cbn; [|done].
  simp_narrow.
  destruct ((net_quantity p =? 0) || _).
  - destruct (narrow i128 _) eqn:E4; cbn; [|done].
    destruct (narrow i64 _) eqn:E5; cbn; [|done]. simp_narrow. by intros [= <-].
  - destruct (Z.abs dq <=? Z.abs (net_quantity p)).
    + destruct (narrow i128 (basis p * _)) eqn:E4; cbn; [|done]. unfold checked_div.
      destruct (Z.abs (net_quantity p) =? 0) eqn:E5; cbn; [done|].
      destruct (narrow i128 (Z.quot _ _)) eqn:E6; cbn; [|done].
      destruct (narrow i128 (basis p - _)) eqn:E7; cbn; [|done].
      destruct (narrow i64 _) eqn:E8; cbn; [|done]. simp_narrow.
      intros [= <-]. by destruct (net_quantity p + dq =? 0).
    + destruct (narrow i64 _) eqn:E4; cbn; [|done].
      destruct (narrow i128 (_ * price)) eqn:E5; cbn; [|done]. simp_narrow. by intros [= <-].
Qed.

Lemma next_basis_bounded P net b dq price :
  0 ≤ price ≤ P →
  (0 ≤ net ∧ 0 ≤ b ≤ net * P) ∨ (net ≤ 0 ∧ net * P ≤ b ≤ 0) →
  (0 ≤ net + dq ∧ 0 ≤ next_basis net b dq price ≤ (net + dq) * P) ∨
  (net + dq ≤ 0 ∧ (net + dq) * P ≤ next_basis net b dq price ≤ 0).
Proof.
  intros Hp Hb. unfold next_basis.
  destruct (Z.eqb_spec net 0) as [->|Hn]; cbn [orb].
  { assert (b = 0) as -> by lia. destruct (Z.le_ge_cases 0 dq); [left|right]; nia. }
  destruct (Z.ltb_spec 0 net), (Z.ltb_spec 0 dq); cbn [Bool.eqb].
  - left. nia.
  - assert (0 ≤ b ≤ net * P) as Hb' by nia.
    destruct (Z.leb_spec (Z.abs dq) (Z.abs net)).
    + left. destruct (Z.eqb_spec (net + dq) 0); [nia|].
      pose proof (quot_reduce b (Z.abs dq) (Z.abs net) P ltac:(lia) ltac:(lia)) as Hq.
      rewrite (Z.abs_eq net) in * by lia. rewrite (Z.abs_neq dq) in * by lia.
      specialize (Hq ltac:(lia)). nia.
    + right. nia.
  - assert (net * P ≤ b ≤ 0) as Hb' by nia.
    destruct (Z.leb_spec (Z.abs dq) (Z.abs net)).
    + right. destruct (Z.eqb_spec (net + dq) 0); [nia|].
      pose proof (quot_reduce (- b) (Z.abs dq) (Z.abs net) P ltac:(lia) ltac:(lia)) as Hq.
      rewrite (Z.abs_neq net) in * by lia. rewrite (Z.abs_eq dq) in * by lia.
      rewrite (Z.mul_opp_l b dq), Z.quot_opp_l in Hq by lia. specialize (Hq ltac:(lia)). nia.
    + left. nia.
  - right. nia.
Qed.

Lemma fold_basis_bounded P p side q price fee p' :
  0 ≤ price ≤ P → basis_bounded P p → fold p side q price fee = (p', Ok tt) →
  basis_bounded P p'.
Proof.
  intros Hp Hb Hf. unfold basis_bounded. rewrite (fold_basis _ _ _ _ _ _ Hf).
  destruct (fold_exact _ _ _ _ _ _ Hf) as (-> & _). by apply next_basis_bounded.
Qed.

(** ** Sequences of legs *)

Fixpoint fold_legs (p : PositionState) (legs : list PositionLeg) :
    PositionState * result StoreError unit :=
  match legs with
  | [] => (p, Ok tt)
  | l :: legs =>
      let '(p, r) := fold p (pl_side l) (pl_quantity l) (pl_price l) (pl_fee l) in
      match r with Err e => (p, Err e) | Ok _ => fold_legs p legs end
  end.

Definition legs_net (legs : list PositionLeg) : Z := sum_Z (leg_dq <$> legs).
Definition legs_cost (legs : list PositionLeg) : Z :=
  sum_Z ((λ l, leg_dq l * pl_price l) <$> legs).
Definition legs_fees (legs : list PositionLeg) : Z := sum_Z (pl_fee <$> legs).

Lemma fold_legs_exact p legs p' :
  fold_legs p legs = (p', Ok tt) →
  net_quantity p' = net_quantity p + legs_net legs ∧
  cash_ex_fee p' = cash_ex_fee p - legs_cost legs ∧
  position_fees p' = position_fees p + legs_fees legs.
Proof.
  unfold legs_net, legs_cost, legs_fees, sum_Z.
  revert p. induction legs as [|l legs IH]; intros p; cbn [fold_legs].
  { intros [= <-]. cbn. lia. }
  destruct (fold p _ _ _ _) as [p1 r] eqn:Hf. destruct r as [[]|]; [|done].
  intros (H1 & H2 & H3)%IH. apply fold_exact in Hf as (F1 & F2 & F3 & _).
  unfold leg_dq in *. cbn. lia.
Qed.

Lemma fold_legs_bounded P p legs p' :
  Forall (λ l, 0 ≤ pl_price l ≤ P) legs → basis_bounded P p →
  fold_legs p legs = (p', Ok tt) → basis_bounded P p'.
Proof.
  revert p. induction legs as [|l legs IH]; intros p; cbn [fold_legs].
  { by intros _ ? [= <-]. }
  intros [Hl Hls]%Forall_cons Hb. destruct (fold p _ _ _ _) as [p1 r] eqn:Hf.
  destruct r as [[]|]; [|done]. apply IH; [done|]. by eapply fold_basis_bounded.
Qed.

Lemma project_fields p a s m pos :
  project p a s m = Ok pos →
  position_net_quantity pos = net_quantity p ∧
  realized_pnl pos = cash_ex_fee p - position_fees p + basis p ∧
  current_price pos = m ∧
  unrealized_pnl pos = (λ m, net_quantity p * m - basis p) <$> m ∧
  avg_price pos = (if net_quantity p =? 0 then 0 else Z.abs (basis p) / Z.abs (net_quantity p)) ∧
  has_ty i64 (realized_pnl pos).
Proof.
  unfold project. intros (avg & Ha & (r & Hr & (r' & Hr' & ([c u] & Hu & [= <-])%bind_Ok)%bind_Ok)
    %bind_Ok)%bind_Ok.
  apply ok_or_Ok in Hr. apply bind_Some in Hr as (v & Hv & Hr). simp_narrow. cbn.
  assert (avg = if net_quantity p =? 0 then 0 else Z.abs (basis p) / Z.abs (net_quantity p)).
  { destruct (net_quantity p =? 0); [by injection Ha|]. by simp_narrow. }
  destruct m as [m|]; cbn in *.
  - apply bind_Ok in Hu as (w & Hw & Hu). apply ok_or_Ok in Hw.
    apply bind_Some in Hw as (w0 & Hw0 & Hw). apply bind_Ok in Hu as (w1 & Hw1 & Hu).
    simp_narrow. injection Hu as <- <-. split_and!; done.
  - injection Hu as <- <-. split_and!; done.
Qed.

(** * Properties *)

(** The ledger of one position is exact: after any sequence of legs folds
    without error, the net quantity, the cash and the fees are the exact sums over
    the legs, and in every projection realised plus unrealised profit equals the
    cash paid and received, less fees, plus the holding at the mark: the rounding
    of the cost basis moves profit between the two and never changes the total. *)
Theorem position_pnl_identity underlying legs p a s mark pos :
  fold_legs (PositionState_new underlying) legs = (p, Ok tt) →
  project p a s (Some mark) = Ok pos →
  position_net_quantity pos = legs_net legs ∧
  ∃ u, unrealized_pnl pos = Some u ∧
    realized_pnl pos + u = - legs_cost legs - legs_fees legs + legs_net legs * mark.
Proof.
  intros Hf Hp. apply fold_legs_exact in Hf as (H1 & H2 & H3). cbn in *.
  apply project_fields in Hp as (Hn & Hr & _ & Hu & _).
  split; [lia|]. eexists. split; [exact Hu|]. cbn. rewrite Hr, H1, H2, H3. lia.
Qed.

(** With every leg priced in [0, P], the average entry price of the position
    never leaves [0, P] and the position is flat only with a zero cost basis: the
    projection of its average price cannot overflow, and a flat position's
    realised profit is its cash less fees. *)
Theorem position_average_bounded underlying legs p P a s mark pos :
  Forall (λ l, 0 ≤ pl_price l ≤ P) legs → 0 ≤ P →
  fold_legs (PositionState_new underlying) legs = (p, Ok tt) →
  project p a s mark = Ok pos →
  0 ≤ avg_price pos ≤ P ∧
  (legs_net legs = 0 → realized_pnl pos = - legs_cost legs - legs_fees legs ∧ avg_price pos = 0).
Proof.
  intros Hl HP Hf Hp.
  assert (basis_bounded P p) as Hb.
  { eapply fold_legs_bounded; [done| |done]. left. cbn. lia. }
  apply fold_legs_exact in Hf as (H1 & H2 & H3). cbn in *.
  apply project_fields in Hp as (_ & Hr & _ & _ & Ha & _). rewrite Ha.
  pose proof (basis_bounded_flat P p HP Hb) as Hflat. split.
  - destruct (Z.eqb_spec (net_quantity p) 0); [lia|].
    split; [apply Z.div_pos; lia|]. apply Z.div_le_upper_bound; [lia|].
    destruct Hb as [[? ?]|[? ?]].
    + rewrite !Z.abs_eq by lia. lia.
    + rewrite !Z.abs_neq by lia. lia.
  - intros Hz. rewrite Hr, H2, H3, Hflat by lia.
    destruct (Z.eqb_spec (net_quantity p) 0); lia.
Qed.

Definition sample_leg (side : Side) (q price fee : Z) : PositionLeg :=
  {| pl_account := "alice"; pl_symbol := "BTC-20240329-50000-C"; pl_underlying := "BTC";
     pl_side := side; pl_quantity := q; pl_price := price; pl_fee := fee |}.

(** Buy 3 at 100, sell 1 at 150, sell 5 at 90: a close with rounding, then a flip. *)
Definition sample_legs : list PositionLeg :=
  [sample_leg Buy 3 100 2; sample_leg Buy 4 101 1; sample_leg Sell 2 150 0;
   sample_leg Sell 8 90 3].

Definition sample_position : PositionState :=
  (fold_legs (PositionState_new "BTC") sample_legs).1.

Definition sample_projection : Position :=
  {| position_account := "alice"; position_symbol := "BTC-20240329-50000-C";
     position_underlying := "BTC"; position_net_quantity := -3; avg_price := 90;
     current_price := Some 95; realized_pnl := 40; unrealized_pnl := Some (-15) |}.

Lemma position_pnl_identity_witness :
  ∃ u, unrealized_pnl sample_projection = Some u ∧
    realized_pnl sample_projection + u =
      - legs_cost sample_legs - legs_fees sample_legs + legs_net sample_legs * 95.
Proof.
  apply (position_pnl_identity "BTC" sample_legs sample_position "alice" "BTC-20240329-50000-C" 95);
    vm_compute; reflexivity.
Defined.

Lemma position_average_bounded_witness : 0 ≤ avg_price sample_projection ≤ 150.
Proof.
  apply (position_average_bounded "BTC" sample_legs sample_position 150 "alice"
    "BTC-20240329-50000-C" (Some 95)); [|lia|vm_compute; reflexivity..].
  repeat constructor; cbn; lia.
Defined.

(** ** The executions log *)

(** The log after recording [l] from empty: insertion indices in order. *)
Definition stored_list (l : list ExecutionRecord) :
    list ((string * LiquidityFlag) * StoredExecution) :=
  imap (λ i r, (exec_key r, {| se_ord := Z.of_nat i; se_record := r |})) l.

Definition log_of (s : InMemoryExecutionsStore) (l : list ExecutionRecord) : Prop :=
  records s = list_to_map (stored_list l) ∧ next_ord s = Z.of_nat (length l).

Lemma stored_list_snoc l r :
  stored_list (l ++ [r]) = stored_list l ++
    [(exec_key r, {| se_ord := Z.of_nat (length l); se_record := r |})].
Proof.
  unfold stored_list. rewrite imap_app. f_equal. cbn. by rewrite Nat.add_0_r.
Qed.

Lemma stored_list_keys l : (stored_list l).*1 = exec_key <$> l.
Proof. unfold stored_list. rewrite fmap_imap. cbn. apply imap_const. Qed.

Lemma stored_list_records l : se_record <$> (stored_list l).*2 = l.
Proof.
  unfold stored_list. rewrite fmap_imap, fmap_imap. cbn.
  rewrite (imap_const id). apply list_fmap_id.
Qed.

Lemma exec_record_log s l r :
  log_of s l → exec_key r ∉ exec_key <$> l → Z.of_nat (length l) < 2 ^ 64 - 1 →
  (exec_record s r).2 = Ok tt ∧ log_of (exec_record s r).1 (l ++ [r]).
Proof.
  intros [Hs Hn] Hr Hlen. unfold exec_record. rewrite Hs.
  rewrite not_elem_of_list_to_map_1 by by rewrite stored_list_keys.
  split; [done|]. split; cbn.
  - rewrite stored_list_snoc, list_to_map_snoc by by rewrite stored_list_keys.
    by rewrite Hn.
  - rewrite length_app, Hn. unfold wrapping. unfold_int. cbn.
    rewrite Z.mod_small by lia. lia.
Qed.

Lemma stored_sorted l : key_sorted Z.leb se_ord ((stored_list l).*2).
Proof.
  induction l as [|r l IH] using rev_ind; [constructor|].
  rewrite stored_list_snoc, fmap_app. cbn.
  assert (Forall (λ e, se_ord e < Z.of_nat (length l)) ((stored_list l).*2)) as Hlt.
  { clear IH. unfold stored_list. rewrite fmap_imap. cbn. apply Forall_lookup.
    intros i e He. rewrite list_lookup_imap in He. apply fmap_Some in He as (x & Hx & ->).
    apply lookup_lt_Some in Hx. cbn. lia. }
  revert IH Hlt. generalize ((stored_list l).*2). intros es Hes Hlt.
  induction Hes as [|e es Hes IHe He]; cbn.
  - repeat constructor.
  - apply Forall_cons in Hlt as [Hlt Hlts]. constructor; [by apply IHe|].
    apply Forall_app. split; [done|]. constructor; [|constructor]. cbn. lia.
Qed.

Lemma NoDup_stored l : NoDup (exec_key <$> l) → NoDup (stored_list l).*1.
Proof. by rewrite stored_list_keys. Qed.

(** Reading a log back in insertion order. *)
Lemma sorted_selection s l (P : StoredExecution → Prop) `{∀ e, Decision (P e)} :
  log_of s l → NoDup (exec_key <$> l) →
  sort_by_key Z.leb se_ord (filter P ((map_to_list (records s)).*2))
    = filter P ((stored_list l).*2).
Proof.
  intros [-> _] Hnd.
  assert ((map_to_list (list_to_map (M:=gmap _ _) (stored_list l))).*2 ≡ₚ (stored_list l).*2) as Hp.
  { rewrite map_to_list_to_map; [done|]. by apply NoDup_stored. }
  rewrite (sort_by_key_unique Z.leb se_ord _ (filter P (stored_list l).*2)).
  - apply sort_by_key_id. eapply StronglySorted_sublist; [|apply stored_sorted].
    apply sublist_filter.
  - intros e1 e2. rewrite !list_elem_of_filter, Hp. intros [_ H1] [_ H2] E.
    unfold stored_list in H1, H2. rewrite fmap_imap in H1, H2. cbn in *.
    apply elem_of_lookup_imap in H1 as (i1 & r1 & -> & Hi1), H2 as (i2 & r2 & -> & Hi2).
    cbn in *. assert (i1 = i2) as -> by lia. congruence.
  - by rewrite Hp.
Qed.

(** ** The ledger *)

Definition legs_for (a : AccountId) (s : Symbol) (legs : list PositionLeg) : list PositionLeg :=
  filter (λ l, pl_account l = a ∧ pl_symbol l = s) legs.

Definition folded (legs : list PositionLeg) (o : option PositionState) : Prop :=
  match legs with
  | [] => o = None
  | l :: _ => ∃ p, o = Some p ∧
      fold_legs (PositionState_new (pl_underlying l)) legs = (p, Ok tt)
  end.

Definition ledger_of (m : gmap (string * string) PositionState) (legs : list PositionLeg) : Prop :=
  ∀ a s, folded (legs_for a s legs) (m !! (a, s)).

Lemma fold_legs_snoc p legs p' l :
  fold_legs p legs = (p', Ok tt) →
  fold_legs p (legs ++ [l]) = fold p' (pl_side l) (pl_quantity l) (pl_price l) (pl_fee l).
Proof.
  revert p. induction legs as [|l' legs IH]; intros p; cbn.
  { intros [= ->]. destruct (fold p' _ _ _ _) as [p1 [[]|]]; done. }
  destruct (fold p _ _ _ _) as [p1 [[]|]]; [apply IH|done].
Qed.

Lemma positions_apply_ledger m legs l :
  ledger_of m legs → (positions_apply m l).2 = Ok tt →
  ledger_of (positions_apply m l).1 (legs ++ [l]).
Proof.
  intros Hm. unfold positions_apply.
  destruct (fold _ _ _ _ _) as [p r] eqn:Hf. cbn. intros ->.
  intros a s. unfold legs_for. rewrite filter_app, filter_cons. cbn [filter].
  specialize (Hm a s). unfold legs_for in Hm.
  case_decide as Hl.
  - destruct Hl as [<- <-]. rewrite lookup_insert_eq.
    rewrite (filter_nil (λ l0, pl_account l0 = pl_account l ∧ pl_symbol l0 = pl_symbol l)).
    destruct (filter _ legs) as [|l0 ls] eqn:El; cbn [folded app] in *.
    + exists p. split; [done|]. rewrite Hm in Hf. cbn in *. by rewrite Hf.
    + destruct Hm as (p0 & Hp0 & Hfold). rewrite Hp0 in Hf. cbn in Hf.
      exists p. split; [done|]. rewrite app_comm_cons. by erewrite fold_legs_snoc.
  - rewrite filter_nil, app_nil_r.
    rewrite lookup_insert_ne; [done|]. intros [= <- <-]. by apply Hl.
Qed.

(** ** The fan-out *)

Section fanout.
Context `{Upstream, MarkPriceCalculator}.
Implicit Types f : StoreFanOut.

(** What a committed event projects into the stores. *)
Definition event_target (e : VenueEvent) : option (Symbol * string) :=
  symbol ← command_symbol (ev_command e);
  underlying ← underlying_of symbol;
  Some (symbol, underlying).

Definition event_records (e : VenueEvent) : list ExecutionRecord :=
  match event_target e with
  | Some (symbol, underlying) =>
      project_execution e symbol underlying <$> outcome_fills (ev_outcome e)
  | None => []
  end.

Definition event_legs (e : VenueEvent) : list PositionLeg :=
  match event_target e with
  | Some (symbol, underlying) => fill_leg symbol underlying <$> outcome_fills (ev_outcome e)
  | None => []
  end.

(** The stores project exactly these records and legs. *)
Definition projects f (rs : list ExecutionRecord) (ls : list PositionLeg) : Prop :=
  log_of (executions f) rs ∧ ledger_of (positions f) ls ∧ sealed f = false.

Lemma emit_fills_projects f e symbol underlying fills rs ls f' :
  projects f rs ls →
  NoDup (exec_key <$> rs ++ (project_execution e symbol underlying <$> fills)) →
  Z.of_nat (length (rs ++ (project_execution e symbol underlying <$> fills))) < 2 ^ 64 →
  emit_fills f e symbol underlying fills = (f', Ok tt) →
  projects f' (rs ++ (project_execution e symbol underlying <$> fills))
    (ls ++ (fill_leg symbol underlying <$> fills)).
Proof.
  revert f rs ls. induction fills as [|fill fills IH]; intros f rs ls Hp Hnd Hlen;
    cbn [emit_fills fmap list_fmap].
  { intros [= <-]. by rewrite !app_nil_r. }
  cbn [fmap list_fmap] in Hnd, Hlen. rewrite cons_middle, (assoc_L (++)) in Hnd, Hlen.
  destruct Hp as (Hlog & Hled & Hseal).
  destruct (exec_record_log (executions f) rs (project_execution e symbol underlying fill) Hlog)
    as [Hok Hlog'].
  { rewrite fmap_app in Hnd. apply NoDup_app in Hnd as (Hnd & _ & _).
    rewrite fmap_app in Hnd. apply NoDup_app in Hnd as (_ & Hnd & _).
    intros Hin. by eapply Hnd, list_elem_of_singleton. }
  { rewrite !length_app in Hlen. cbn in Hlen. lia. }
  destruct (exec_record _ _) as [execs r1]; cbn [fst snd] in Hok, Hlog'. subst r1.
  cbn [positions set_stores].
  pose proof (positions_apply_ledger (positions f) ls (fill_leg symbol underlying fill) Hled)
    as Hled'.
  destruct (positions_apply _ _) as [pos r2]; cbn [fst snd] in Hled'.
  destruct r2 as [[]|]; [|unfold seal_fan_out; by intros [=]].
  intros He. rewrite cons_middle, (assoc_L (++)).
  rewrite (cons_middle _ ls), (assoc_L (++) ls). eapply IH; [|done..].
  split; [done|]. split; [by apply Hled'|done].
Qed.

Lemma emit_projects f e rs ls f' :
  projects f rs ls →
  NoDup (exec_key <$> rs ++ event_records e) →
  Z.of_nat (length (rs ++ event_records e)) < 2 ^ 64 →
  emit f e = (f', Ok tt) →
  projects f' (rs ++ event_records e) (ls ++ event_legs e).
Proof.
  intros Hp. pose proof Hp as (_ & _ & Hs). unfold emit. rewrite Hs.
  unfold event_records, event_legs, event_target.
  destruct (command_symbol (ev_command e)) as [symbol|]; cbn [mbind option_bind].
  2: { intros _ _ [= <-]. by rewrite !app_nil_r. }
  destruct (bool_decide_reflect (outcome_fills (ev_outcome e) = [])) as [->|Hne].
  { intros _ _ [= <-]. destruct (underlying_of symbol); cbn; by rewrite !app_nil_r. }
  destruct (underlying_of symbol) as [underlying|]; cbn [mbind option_bind].
  2: { intros _ _ [= <-]. by rewrite !app_nil_r. }
  intros Hnd Hlen. destruct (emit_fills _ _ _ _ _) as [f1 r] eqn:Ef.
  destruct r as [[]|]; [|done]. intros [= <-].
  by apply (emit_fills_projects f) with (f' := f1).
Qed.

Lemma emit_all_projects f events rs ls f' :
  projects f rs ls →
  NoDup (exec_key <$> rs ++ (events ≫= event_records)) →
  Z.of_nat (length (rs ++ (events ≫= event_records))) < 2 ^ 64 →
  emit_all f events = (f', Ok tt) →
  projects f' (rs ++ (events ≫= event_records)) (ls ++ (events ≫= event_legs)).
Proof.
  revert f rs ls. induction events as [|e events IH]; intros f rs ls Hp Hnd Hlen;
    cbn [emit_all].
  { intros [= <-]. cbn. by rewrite !app_nil_r. }
  rewrite !bind_cons, !(assoc_L (++)) in *.
  destruct (emit f e) as [f1 r] eqn:Ee. destruct r as [[]|]; [|done].
  apply IH; [|done..]. eapply emit_projects; [done| | |done].
  - rewrite fmap_app in Hnd. by apply NoDup_app in Hnd as [? _].
  - rewrite length_app in Hlen. lia.
Qed.

Lemma projects_new : projects StoreFanOut_new [] [].
Proof. split; [done|]. split; [|done]. intros a s. apply lookup_empty. Qed.

(** ** Properties *)

(** The stores are a faithful projection of the committed events: after any
    stream emitted without a seal (its execution legs distinct, as matching
    guarantees), an account's executions list is exactly its legs in commit
    order, and each position is the fold of exactly that account's and symbol's
    legs, so its net quantity, cash and fees are their sums. *)
Theorem stores_project_events events f a s :
  NoDup (exec_key <$> (events ≫= event_records)) →
  Z.of_nat (length (events ≫= event_records)) < 2 ^ 64 →
  emit_all StoreFanOut_new events = (f, Ok tt) →
  exec_list (executions f) a {| ef_underlying := None; ef_limit := None |} =
    Ok (filter (λ r, xr_account r = a) (events ≫= event_records)) ∧
  let legs := legs_for a s (events ≫= event_legs) in
  (legs = [] → positions f !! (a, s) = None) ∧
  (legs ≠ [] → ∃ p, positions f !! (a, s) = Some p ∧ net_quantity p = legs_net legs ∧
     cash_ex_fee p = - legs_cost legs ∧ position_fees p = legs_fees legs).
Proof.
  intros Hnd Hlen He.
  destruct (emit_all_projects _ _ [] [] _ projects_new Hnd Hlen He) as (Hlog & Hled & _).
  cbn [app] in *. split.
  - unfold exec_list. cbn [ef_limit]. f_equal.
    rewrite (sorted_selection _ (events ≫= event_records)) by done.
    rewrite <-(stored_list_records (events ≫= event_records)) at 2.
    generalize ((stored_list (events ≫= event_records)).*2). intros es.
    induction es as [|e es IH]; [done|]. rewrite filter_cons.
    cbn [fmap list_fmap]. rewrite filter_cons.
    destruct (decide (xr_account (se_record e) = a)) as [Ha|Ha].
    + rewrite decide_True; [cbn; by rewrite IH|].
      unfold leg_matches. cbn. by rewrite Ha, String.eqb_refl.
    + rewrite decide_False; [apply IH|].
      unfold leg_matches. cbn. rewrite andb_true_r. by rewrite String.eqb_eq.
  - specialize (Hled a s). cbn zeta.
    destruct (legs_for a s (events ≫= event_legs)) as [|l ls] eqn:El; [by split|].
    split; [done|]. intros _. destruct Hled as (p & Hp & Hf). exists p.
    apply fold_legs_exact in Hf as (H1 & H2 & H3).
    cbn [net_quantity cash_ex_fee position_fees PositionState_new] in H1, H2, H3.
    split_and!; [done|lia..].
Qed.

Lemma emit_fills_err f e symbol underlying fills f' err :
  sealed f = false → emit_fills f e symbol underlying fills = (f', Err err) → sealed f' = true.
Proof.
  revert f. induction fills as [|fill fills IH]; intros f Hs; cbn [emit_fills]; [done|].
  destruct (exec_record _ _) as [execs [[]|]]; [|by intros [= <- <-]].
  destruct (positions_apply _ _) as [pos [[]|]]; [|by intros [= <- <-]].
  by apply IH.
Qed.

(** The fan-out fails stop: a projection error seals it, and a sealed fan-out
    refuses every later event and changes nothing, so the stores never run ahead
    of a leg they missed; an event that carries no fills of its own (a duplicate,
    a cancel, a sweep, a control) leaves an unsealed fan-out as it was. *)
Theorem fan_out_fail_stop f e later :
  (sealed f = false → ∀ f' err, emit f e = (f', Err err) → sealed f' = true) ∧
  (sealed f = true → later ≠ [] → ∃ err, emit_all f later = (f, Err err)) ∧
  (sealed f = false → outcome_fills (ev_outcome e) = [] → emit f e = (f, Ok tt)).
Proof.
  split_and!.
  - intros Hs f' err. unfold emit. rewrite Hs.
    destruct (command_symbol _); [|done]. destruct (bool_decide _); [done|].
    destruct (underlying_of _); [|done].
    destruct (emit_fills _ _ _ _ _) as [f1 r] eqn:Ef. destruct r; [done|].
    intros [= <- <-]. by eapply emit_fills_err.
  - intros Hs Hl. destruct later as [|e' later]; [done|]. cbn. unfold emit. rewrite Hs.
    by eexists.
  - intros Hs Hf. unfold emit. rewrite Hs, Hf. by destruct (command_symbol _).
Qed.
End fanout.

(** ** Capture and restore of one underlying *)

Definition belongs (u : string) (o : option StoredExecution) : bool :=
  match o with Some e => execution_leg_belongs (se_record e) u | None => false end.

Lemma exec_restore_loop_lookup u cs m max_ord k :
  Forall (λ c, execution_leg_belongs (ec_record c) u = true) cs →
  NoDup (exec_key ∘ ec_record <$> cs) →
  (exec_restore_loop u cs m max_ord).1 !! k =
    match list_find (λ c, exec_key (ec_record c) = k) cs with
    | Some (_, c) => Some {| se_ord := ec_ord c; se_record := ec_record c |}
    | None => m !! k
    end.
Proof.
  revert m max_ord. induction cs as [|c cs IH]; intros m max_ord; cbn [exec_restore_loop];
    [done|].
  intros [Hc Hcs]%Forall_cons [Hk Hnd]%NoDup_cons. rewrite Hc. cbn [negb].
  rewrite IH by done. cbn [list_find]. case_decide as E.
  - destruct (list_find _ cs) as [[i c']|] eqn:Ef; cbn.
    + apply list_find_Some in Ef as (Hi & E' & _). exfalso. apply Hk.
      apply list_elem_of_fmap. exists c'. cbn. split; [congruence|].
      by eapply list_elem_of_lookup_2.
    + by rewrite <-E, lookup_insert_eq.
  - destruct (list_find _ cs) as [[i c']|]; cbn; [done|]. by rewrite lookup_insert_ne.
Qed.

(** The keys of a log name its records. *)
Definition exec_wf (s : InMemoryExecutionsStore) : Prop :=
  ∀ k e, records s !! k = Some e → exec_key (se_record e) = k.

Lemma elem_of_exec_capture s u c :
  exec_wf s →
  c ∈ exec_capture_for s u ↔
    records s !! exec_key (ec_record c) = Some {| se_ord := ec_ord c; se_record := ec_record c |} ∧
    execution_leg_belongs (ec_record c) u = true.
Proof.
  intros Hwf. unfold exec_capture_for. rewrite elem_of_sort_by_key, list_elem_of_fmap. split.
  - intros (e & -> & (Hb & ([k e'] & -> & He%elem_of_map_to_list)%list_elem_of_fmap)
      %list_elem_of_filter). cbn in *. split; [|done].
    rewrite (Hwf _ _ He). by destruct e'.
  - intros [He Hb]. exists {| se_ord := ec_ord c; se_record := ec_record c |}.
    split; [by destruct c|]. apply list_elem_of_filter. split; [done|].
    apply list_elem_of_fmap. eexists (_, _). split; [|by apply elem_of_map_to_list]. done.
Qed.

Lemma NoDup_exec_capture s u : exec_wf s → NoDup (exec_key ∘ ec_record <$> exec_capture_for s u).
Proof.
  intros Hwf. unfold exec_capture_for. rewrite sort_by_key_perm, <-list_fmap_compose. cbn.
  apply NoDup_fmap_2_strong.
  - intros e1 e2 (_ & ([k1 ?] & -> & H1%elem_of_map_to_list)%list_elem_of_fmap)%list_elem_of_filter
      (_ & ([k2 ?] & -> & H2%elem_of_map_to_list)%list_elem_of_fmap)%list_elem_of_filter E.
    cbn in *. rewrite (Hwf _ _ H1), (Hwf _ _ H2) in E. congruence.
  - apply NoDup_filter. apply NoDup_fmap_2_strong; [|apply NoDup_map_to_list].
    intros [k1 e1] [k2 e2] H1%elem_of_map_to_list H2%elem_of_map_to_list E. cbn in E. subst.
    f_equal. rewrite <-(Hwf _ _ H1). by apply Hwf.
Qed.

(** Restoring an underlying's cut into any executions log gives that underlying
    exactly the legs, with their insertion indices, that were captured, drops its
    legs the cut does not hold, and leaves every other underlying's leg as it is
    (a leg of the cut wins a key clash); the cut passes the restore validation. *)
Theorem executions_restore_isolated s live u k :
  exec_wf s →
  let cut := exec_capture_for s u in
  exec_validate_restore u cut = Ok tt ∧
  records (exec_restore_for live u cut) !! k =
    if belongs u (records s !! k) then records s !! k
    else if belongs u (records live !! k) then None else records live !! k.
Proof.
  intros Hwf cut.
  assert (Forall (λ c, execution_leg_belongs (ec_record c) u = true) cut) as Hb.
  { apply Forall_forall. intros c Hc. by apply elem_of_exec_capture in Hc as [_ ?]. }
  split.
  - unfold exec_validate_restore.
    assert (filter (λ c, execution_leg_belongs (ec_record c) u = false) cut = []) as ->; [|done].
    clear -Hb. induction Hb as [|c cs Hc Hcs IH]; [done|].
    rewrite filter_cons_False; [done|]. by rewrite Hc.
  - unfold exec_restore_for.
    pose proof (exec_restore_loop_lookup u cut
      (filter (λ kv, execution_leg_belongs (se_record kv.2) u = false) (records live)) 0 k Hb
      (NoDup_exec_capture s u Hwf)) as Hl.
    destruct (exec_restore_loop u cut _ _) as [m max_ord]. cbn [fst records] in *. rewrite Hl.
    destruct (list_find _ cut) as [[i c]|] eqn:Ef.
    + apply list_find_Some in Ef as (Hi & <- & _). apply list_elem_of_lookup_2 in Hi.
      apply elem_of_exec_capture in Hi as [Hi Hc]; [|done]. rewrite Hi. cbn. by rewrite Hc.
    + apply list_find_None in Ef.
      destruct (belongs u (records s !! k)) eqn:Es.
      * destruct (records s !! k) as [e|] eqn:He; [|done]. exfalso.
        rewrite Forall_forall in Ef.
        apply (Ef {| ec_ord := se_ord e; ec_record := se_record e |}); [|by eapply Hwf].
        apply elem_of_exec_capture; [done|]. cbn. rewrite (Hwf _ _ He), He. by destruct e.
      * rewrite map_lookup_filter. destruct (records live !! k) as [e|]; cbn; [|done].
        destruct (execution_leg_belongs (se_record e) u); by simplify_option_eq.
Qed.

Lemma positions_restore_lookup (u : string) (cs : list PositionCapture)
    (m : gmap (string * string) PositionState) (k : string * string) :
  Forall (λ c, position_fold_belongs (pc_underlying c) u = true) cs →
  NoDup ((λ c, (pc_account c, pc_symbol c)) <$> cs) →
  foldl (λ m c, if negb (position_fold_belongs (pc_underlying c) u) then m
                else <[(pc_account c, pc_symbol c) := from_capture c]> m) m cs !! k =
    match list_find (λ c, (pc_account c, pc_symbol c) = k) cs with
    | Some (_, c) => Some (from_capture c)
    | None => m !! k
    end.
Proof.
  revert m. induction cs as [|c cs IH]; intros m; cbn [foldl]; [done|].
  intros [Hc Hcs]%Forall_cons [Hk Hnd]%NoDup_cons. rewrite Hc. cbn [negb].
  rewrite IH by done. cbn [list_find]. case_decide as E.
  - destruct (list_find _ cs) as [[i c']|] eqn:Ef; cbn.
    + apply list_find_Some in Ef as (Hi & E' & _). exfalso. apply Hk.
      apply list_elem_of_fmap. exists c'. split; [congruence|].
      by eapply list_elem_of_lookup_2.
    + by rewrite <-E, lookup_insert_eq.
  - destruct (list_find _ cs) as [[i c']|]; cbn; [done|]. by rewrite lookup_insert_ne.
Qed.

Definition position_belongs (u : string) (o : option PositionState) : bool :=
  match o with Some p => position_fold_belongs (ps_state_underlying p) u | None => false end.

Lemma elem_of_positions_capture (s : gmap (string * string) PositionState) u c :
  c ∈ positions_capture_for s u ↔
    s !! (pc_account c, pc_symbol c) = Some (from_capture c) ∧
    position_fold_belongs (pc_underlying c) u = true.
Proof.
  unfold positions_capture_for. rewrite elem_of_sort_by_key, list_elem_of_fmap. split.
  - intros ([[a sy] p] & -> & (Hb & Hp%elem_of_map_to_list)%list_elem_of_filter).
    cbn in *. split; [|done]. rewrite Hp. by destruct p.
  - intros [Hp Hb]. exists (pc_account c, pc_symbol c, from_capture c).
    split; [by destruct c|]. apply list_elem_of_filter. split; [done|].
    by apply elem_of_map_to_list.
Qed.

(** Restoring an underlying's positions cut into any ledger gives that
    underlying exactly the folds that were captured, drops its folds the cut does
    not hold, and leaves every other underlying's fold as it is; the cut passes the
    restore validation. *)
Theorem positions_restore_isolated (s live : gmap (string * string) PositionState)
    (u : string) (k : string * string) :
  let cut := positions_capture_for s u in
  positions_validate_restore u cut = Ok tt ∧
  positions_restore_for live u cut !! k =
    if position_belongs u (s !! k) then s !! k
    else if position_belongs u (live !! k) then None else live !! k.
Proof.
  intros cut.
  assert (Forall (λ c, position_fold_belongs (pc_underlying c) u = true) cut) as Hb.
  { apply Forall_forall. intros c Hc. by apply elem_of_positions_capture in Hc as [_ ?]. }
  assert (NoDup ((λ c, (pc_account c, pc_symbol c)) <$> cut)) as Hnd.
  { unfold cut, positions_capture_for. rewrite sort_by_key_perm, <-list_fmap_compose. cbn.
    apply NoDup_fmap_2_strong; [|apply NoDup_filter, NoDup_map_to_list].
    intros [[a1 s1] p1] [[a2 s2] p2] (_ & H1%elem_of_map_to_list)%list_elem_of_filter
      (_ & H2%elem_of_map_to_list)%list_elem_of_filter [= -> ->]. cbn in *. congruence. }
  split.
  - unfold positions_validate_restore.
    assert (filter (λ c, position_fold_belongs (pc_underlying c) u = false) cut = []) as ->;
      [|done].
    clear -Hb. induction Hb as [|c cs Hc Hcs IH]; [done|].
    rewrite filter_cons_False; [done|]. by rewrite Hc.
  - unfold positions_restore_for. rewrite positions_restore_lookup by done.
    destruct (list_find _ cut) as [[i c]|] eqn:Ef.
    + apply list_find_Some in Ef as (Hi & <- & _). apply list_elem_of_lookup_2 in Hi.
      apply elem_of_positions_capture in Hi as [Hi Hc]. rewrite Hi.
      change (position_belongs u (Some (from_capture c)))
        with (position_fold_belongs (pc_underlying c) u). by rewrite Hc.
    + apply list_find_None in Ef.
      destruct (position_belongs u (s !! k)) eqn:Es.
      * destruct (s !! k) as [p|] eqn:Hp; [|done]. exfalso. destruct k as [a sy].
        rewrite Forall_forall in Ef. apply (Ef (to_capture p a sy)); [|done].
        apply elem_of_positions_capture. cbn. split; [|done]. rewrite Hp. by destruct p.
      * rewrite map_lookup_filter. destruct (live !! k) as [p|]; [|done].
        cbn [mbind option_bind position_belongs].
        destruct (position_fold_belongs (ps_state_underlying p) u) eqn:Ep;
          simplify_option_eq; congruence.
Qed.

(** ** Concrete instances *)

#[export] Instance SampleMarks : MarkPriceCalculator := {|
  Calculator := option Z;
  calculator_default := None;
  update_last_trade_price _ p := Some p;
  update_index_price c p := match c with Some _ => c | None => Some p end;
  advance_mark c := c;
  current_mark_price c := c;
|}.

(** The events of the sample session, as the actor builds them. *)
Definition sample_events : list VenueEvent :=
  let r := run "BTC" "run-1" (executor_new "BTC") 0 sample_session in
  imap (λ i p, VenueEvent_new (Z.of_nat i) p.1.1 p.1.2 p.2) (zip sample_session r.2).

Definition sample_fan_out : StoreFanOut := (emit_all StoreFanOut_new sample_events).1.

Lemma stores_project_events_witness :
  exec_list (executions sample_fan_out) "bob" {| ef_underlying := None; ef_limit := None |} =
    Ok (filter (λ r, xr_account r = "bob") (sample_events ≫= event_records)) ∧
  ∃ p, positions sample_fan_out !! ("bob", btc_call) = Some p ∧ net_quantity p = 3.
Proof.
  assert (NoDup (exec_key <$> (sample_events ≫= event_records))) as Hnd.
  { apply (bool_decide_unpack _). by vm_compute. }
  assert (emit_all StoreFanOut_new sample_events = (sample_fan_out, Ok tt)) as He
    by (vm_compute; reflexivity).
  destruct (stores_project_events sample_events sample_fan_out "bob" btc_call Hnd
    ltac:(vm_compute; reflexivity) He) as [Hl [_ Hp]].
  split; [exact Hl|].
  destruct Hp as (p & Hp & Hn & _).
  { intros E. vm_compute in E. discriminate E. }
  exists p. split; [exact Hp|]. rewrite Hn. by vm_compute.
Defined.

Lemma executions_restore_isolated_witness :
  exec_validate_restore "BTC" (exec_capture_for (executions sample_fan_out) "BTC") = Ok tt.
Proof.
  apply (executions_restore_isolated (executions sample_fan_out) InMemoryExecutionsStore_new
    "BTC" ("run-1:BTC:1:0", Maker)).
  intros k e Hk%elem_of_map_to_list. revert k e Hk.
  cut (Forall (λ p : ExecKey * StoredExecution, exec_key (se_record p.2) = p.1)
         (map_to_list (records (executions sample_fan_out)))).
  { intros Hf k e Hin. rewrite Forall_forall in Hf. apply (Hf _ Hin). }
  apply (bool_decide_unpack _). by vm_compute.
Defined.
