(* ===== verification/Actor.v ===== *)
(** The single-writer actor of one underlying ([src/src/exchange/actor.rs]): the
    interfaces it composes, its turn, and the snapshot capture and restore of the
    live venue.  [&mut self] is state passing; the shared client-order-id index is
    the actor's optional component. *)

From S2P Require Export Journal ClOrdIdIndex Executor Stores VenueErrors.

(** ** The interfaces *)

(** [VenueClock]: reading may advance the clock behind the shared reference. *)
Class VenueClock (C : Type) := now_ms : C → EventTimestamp * C.

Class CommandExecutor (E : Type) := executor_execute : E → ExecutionContext → E * VenueOutcome.

Class FanOut (F : Type) := fan_out_emit : F → VenueEvent → F * result FanOutSealed unit.

Record FixedClock := { fixed_instant : EventTimestamp }.
#[export] Instance FixedClock_clock : VenueClock FixedClock := λ c, (fixed_instant c, c).

Record PlaceholderExecutor := {}.
#[export] Instance PlaceholderExecutor_executor : CommandExecutor PlaceholderExecutor :=
  λ x _, (x, Rejected Internal "matching not wired yet (pending #007)").

#[export] Instance MatchingExecutor_executor `{Upstream} : CommandExecutor MatchingExecutor :=
  execute.

Record NoopFanOut := {}.
#[export] Instance NoopFanOut_fan_out : FanOut NoopFanOut := λ f _, (f, Ok tt).

#[export] Instance StoreFanOut_fan_out `{Upstream, MarkPriceCalculator} : FanOut StoreFanOut :=
  emit.

(** The first delegate's failure stops the second. *)
Record TeeFanOut (A B : Type) := { tee_first : A; tee_second : B }.
Arguments tee_first {A B}. Arguments tee_second {A B}.
#[export] Instance TeeFanOut_fan_out `{FanOut A, FanOut B} : FanOut (TeeFanOut A B) := λ f e,
  let '(a, r) := fan_out_emit (tee_first f) e in
  match r with
  | Err err => ({| tee_first := a; tee_second := tee_second f |}, Err err)
  | Ok _ =>
      let '(b, r) := fan_out_emit (tee_second f) e in
      ({| tee_first := a; tee_second := b |}, r)
  end.

(** ** Errors and receipts *)

Record FanoutSummary := { ok_count : Z; fanout_total : Z }.
Definition fully_applied (s : FanoutSummary) : bool := ok_count s =? fanout_total s.

Record Receipt := {
  receipt_sequence : SequenceNumber;
  receipt_venue_ts : EventTimestamp;
  receipt_outcome : option VenueOutcome;
  receipt_fanout : option FanoutSummary;
}.

Definition Receipt_committed (sequence : SequenceNumber) (venue_ts : EventTimestamp)
    (outcome : VenueOutcome) : Receipt :=
  {| receipt_sequence := sequence; receipt_venue_ts := venue_ts;
     receipt_outcome := Some outcome; receipt_fanout := None |}.

Definition Receipt_control (sequence : SequenceNumber) (venue_ts : EventTimestamp) : Receipt :=
  {| receipt_sequence := sequence; receipt_venue_ts := venue_ts;
     receipt_outcome := None; receipt_fanout := None |}.

Definition with_fanout (r : Receipt) (fanout : FanoutSummary) : Receipt :=
  {| receipt_sequence := receipt_sequence r; receipt_venue_ts := receipt_venue_ts r;
     receipt_outcome := receipt_outcome r; receipt_fanout := Some fanout |}.

Inductive SealReason := SealSequenceExhausted | SealJournalUnavailable | SealProjectionFailed.

Definition as_error (r : SealReason) : VenueError :=
  match r with
  | SealSequenceExhausted => SequenceExhausted
  | SealJournalUnavailable | SealProjectionFailed => JournalUnavailable
  end.

Inductive WriteAhead := WaCommitted | WaReuse.

(** ** The actor *)

Record UnderlyingActor {J E F C : Type} := {
  act_underlying : string;
  act_lineage_id : LineageId;
  act_journal : J;
  act_executor : E;
  act_fan_out : F;
  act_clock : C;
  act_next_sequence : SequenceNumber;
  act_epoch : Z;
  act_sealed : option SealReason;
  act_clordid_index : option ClOrdIdIndex;
}.
Arguments UnderlyingActor : clear implicits.

Record ActorConfig := {
  cfg_underlying : string;
  cfg_lineage_id : LineageId;
  cfg_mailbox_capacity : Z;
  cfg_start_sequence : SequenceNumber;
}.

Definition ActorConfig_new (underlying : string) (lineage_id : LineageId) (capacity : Z) :
    ActorConfig :=
  {| cfg_underlying := underlying; cfg_lineage_id := lineage_id;
     cfg_mailbox_capacity := capacity; cfg_start_sequence := SEQUENCE_START |}.

Definition with_start_sequence (c : ActorConfig) (start : SequenceNumber) : ActorConfig :=
  {| cfg_underlying := cfg_underlying c; cfg_lineage_id := cfg_lineage_id c;
     cfg_mailbox_capacity := cfg_mailbox_capacity c; cfg_start_sequence := start |}.

Section actor.
Context {J E F C : Type} `{!VenueJournal J, !CommandExecutor E, !FanOut F, !VenueClock C}.
Notation actor := (UnderlyingActor J E F C).

Definition Actor_new (config : ActorConfig) (journal : J) (executor : E) (fan_out : F)
    (clock : C) : actor :=
  {| act_underlying := cfg_underlying config; act_lineage_id := cfg_lineage_id config;
     act_journal := journal; act_executor := executor; act_fan_out := fan_out;
     act_clock := clock; act_next_sequence := cfg_start_sequence config; act_epoch := 0;
     act_sealed := None; act_clordid_index := None |}.

Definition with_clordid_index (a : actor) (index : option ClOrdIdIndex) : actor :=
  {| act_underlying := act_underlying a; act_lineage_id := act_lineage_id a;
     act_journal := act_journal a; act_executor := act_executor a;
     act_fan_out := act_fan_out a; act_clock := act_clock a;
     act_next_sequence := act_next_sequence a; act_epoch := act_epoch a;
     act_sealed := act_sealed a; act_clordid_index := index |}.

Definition with_clock (a : actor) (c : C) : actor :=
  {| act_underlying := act_underlying a; act_lineage_id := act_lineage_id a;
     act_journal := act_journal a; act_executor := act_executor a;
     act_fan_out := act_fan_out a; act_clock := c;
     act_next_sequence := act_next_sequence a; act_epoch := act_epoch a;
     act_sealed := act_sealed a; act_clordid_index := act_clordid_index a |}.
Definition with_journal (a : actor) (j : J) : actor :=
  {| act_underlying := act_underlying a; act_lineage_id := act_lineage_id a;
     act_journal := j; act_executor := act_executor a;
     act_fan_out := act_fan_out a; act_clock := act_clock a;
     act_next_sequence := act_next_sequence a; act_epoch := act_epoch a;
     act_sealed := act_sealed a; act_clordid_index := act_clordid_index a |}.
Definition with_executor (a : actor) (x : E) : actor :=
  {| act_underlying := act_underlying a; act_lineage_id := act_lineage_id a;
     act_journal := act_journal a; act_executor := x;
     act_fan_out := act_fan_out a; act_clock := act_clock a;
     act_next_sequence := act_next_sequence a; act_epoch := act_epoch a;
     act_sealed := act_sealed a; act_clordid_index := act_clordid_index a |}.
Definition with_fan_out (a : actor) (f : F) : actor :=
  {| act_underlying := act_underlying a; act_lineage_id := act_lineage_id a;
     act_journal := act_journal a; act_executor := act_executor a;
     act_fan_out := f; act_clock := act_clock a;
     act_next_sequence := act_next_sequence a; act_epoch := act_epoch a;
     act_sealed := act_sealed a; act_clordid_index := act_clordid_index a |}.
Definition with_next_sequence (a : actor) (n : SequenceNumber) : actor :=
  {| act_underlying := act_underlying a; act_lineage_id := act_lineage_id a;
     act_journal := act_journal a; act_executor := act_executor a;
     act_fan_out := act_fan_out a; act_clock := act_clock a;
     act_next_sequence := n; act_epoch := act_epoch a;
     act_sealed := act_sealed a; act_clordid_index := act_clordid_index a |}.
Definition with_sealed (a : actor) (r : SealReason) : actor :=
  {| act_underlying := act_underlying a; act_lineage_id := act_lineage_id a;
     act_journal := act_journal a; act_executor := act_executor a;
     act_fan_out := act_fan_out a; act_clock := act_clock a;
     act_next_sequence := act_next_sequence a; act_epoch := act_epoch a;
     act_sealed := Some r; act_clordid_index := act_clordid_index a |}.
Definition with_epoch (a : actor) (n : Z) : actor :=
  {| act_underlying := act_underlying a; act_lineage_id := act_lineage_id a;
     act_journal := act_journal a; act_executor := act_executor a;
     act_fan_out := act_fan_out a; act_clock := act_clock a;
     act_next_sequence := act_next_sequence a; act_epoch := n;
     act_sealed := act_sealed a; act_clordid_index := act_clordid_index a |}.

Definition write_ahead_command (a : actor) (sequence : SequenceNumber)
    (record : JournalRecord) : actor * WriteAhead :=
  let '(j, r) := journal_append (act_journal a) record in
  let a := with_journal a j in
  match r with
  | Ok _ => (a, WaCommitted)
  | Err (Ambiguous _) =>
      if journal_contains (act_journal a) sequence KCommand then (a, WaCommitted)
      else (a, WaReuse)
  | Err _ => (a, WaReuse)
  end.

Definition handle (a : actor) (command : VenueCommand) : actor * result VenueError Receipt :=
  match act_sealed a with
  | Some reason => (a, Err (as_error reason))
  | None =>
      let sequence := act_next_sequence a in
      let '(venue_ts, clock) := now_ms (act_clock a) in
      let a := with_clock a clock in
      let '(a, wa) := write_ahead_command a sequence (command_record sequence venue_ts command) in
      match wa with
      | WaReuse => (a, Err JournalUnavailable)
      | WaCommitted =>
          let '(x, outcome) :=
            executor_execute (act_executor a)
              {| ctx_underlying := act_underlying a; ctx_lineage_id := act_lineage_id a;
                 ctx_sequence := sequence; ctx_venue_ts := venue_ts;
                 ctx_command := command |} in
          let a := with_executor a x in
          let event := VenueEvent_new sequence venue_ts command outcome in
          let '(j, r) := journal_append (act_journal a) (REvent event) in
          let a := with_journal a j in
          match r with
          | Err _ => (with_sealed a SealJournalUnavailable, Err JournalUnavailable)
          | Ok _ =>
              let a :=
                match act_clordid_index a with
                | Some index =>
                    with_clordid_index a
                      (Some (apply_committed_correlation index (ev_underlying_sequence event)
                               (ev_command event) (ev_outcome event)))
                | None => a
                end in
              let '(f, r) := fan_out_emit (act_fan_out a) event in
              let a := with_fan_out a f in
              match r with
              | Err _ => (with_sealed a SealProjectionFailed, Err JournalUnavailable)
              | Ok _ =>
                  let a :=
                    match checked_next sequence with
                    | Some next => with_next_sequence a next
                    | None => with_sealed a SealSequenceExhausted
                    end in
                  (a, Ok (Receipt_committed sequence venue_ts (ev_outcome event)))
              end
          end
      end
  end.
End actor.

(** ** Snapshot and restore of the live venue *)

Section snapshot.
Context {J C : Type} `{!VenueJournal J, !VenueClock C, !Upstream, !MarkPriceCalculator}.
Notation venue := (UnderlyingActor J MatchingExecutor StoreFanOut C).

Definition capture (a : venue) (snapshot_id config_fingerprint : string) :
    venue * VenueSnapshot :=
  let '(created_at, clock) := now_ms (act_clock a) in
  let a := with_clock a clock in
  (a, {| snap_metadata :=
           SnapshotMetadata_new snapshot_id created_at (act_lineage_id a) config_fingerprint;
         snap_executor := capture_state (act_executor a);
         snap_executions := exec_capture_for (executions (act_fan_out a)) (act_underlying a);
         snap_positions := positions_capture_for (positions (act_fan_out a)) (act_underlying a) |}).

Definition sealed_snapshot_error (r : SealReason) : SnapshotError :=
  match r with
  | SealSequenceExhausted => SnapSequenceExhausted
  | SealJournalUnavailable | SealProjectionFailed => SnapJournalUnavailable
  end.

Definition restore (a : venue) (snapshot : VenueSnapshot) (config_fingerprint : string) :
    venue * result SnapshotError Receipt :=
  match validate_against (snap_metadata snapshot) (act_lineage_id a) config_fingerprint with
  | Err e => (a, Err e)
  | Ok _ =>
      match act_sealed a with
      | Some reason => (a, Err (sealed_snapshot_error reason))
      | None =>
          let sequence := act_next_sequence a in
          let '(venue_ts, clock) := now_ms (act_clock a) in
          let a := with_clock a clock in
          match checked_add u64 (act_epoch a) 1 with
          | None => (a, Err SnapSequenceExhausted)
          | Some new_epoch =>
              match checked_next sequence with
              | None => (a, Err SnapSequenceExhausted)
              | Some next_sequence =>
                  match
                    (prepared ← prepare_restore (act_executor a)
                       (resting_orders (snap_executor snapshot))
                       (es_idempotency (snap_executor snapshot))
                       (es_instrument_statuses (snap_executor snapshot));
                     _ ← exec_validate_restore (act_underlying a) (snap_executions snapshot);
                     _ ← positions_validate_restore (act_underlying a) (snap_positions snapshot);
                     Ok prepared)
                  with
                  | Err e => (a, Err e)
                  | Ok prepared =>
                      let marker :=
                        SnapshotRestored_new sequence venue_ts
                          (sm_snapshot_id (snap_metadata snapshot)) new_epoch
                          (act_lineage_id a) in
                      let '(j, r) := journal_append (act_journal a) (REpoch marker) in
                      let a := with_journal a j in
                      match r with
                      | Err _ => (a, Err SnapJournalUnavailable)
                      | Ok _ =>
                          let a := with_executor a (commit_restore (act_executor a) prepared) in
                          let f := act_fan_out a in
                          let f := set_stores f
                            (exec_restore_for (executions f) (act_underlying a)
                               (snap_executions snapshot))
                            (positions_restore_for (positions f) (act_underlying a)
                               (snap_positions snapshot)) in
                          let a := with_fan_out a f in
                          let a := with_epoch a new_epoch in
                          let a := with_next_sequence a next_sequence in
                          (a, Ok (Receipt_control sequence venue_ts))
                      end
                  end
              end
          end
      end
  end.
End snapshot.
