(* ===== verification/ActorInv.v ===== *)
(** The actor's turn over the in-memory journal: what a sequence of turns leaves in
    the journal, the executor and the index, whatever fails on the way. *)

From S2P Require Export Actor ExecutorInv.

(** ** Logs of committed turns *)

Section log.
Context `{Upstream}.
Notation log := (list (EventTimestamp * VenueCommand)).

Context (u : string) (lineage : LineageId).

Lemma run_app x n (l1 l2 : log) :
  (run u lineage x n (l1 ++ l2)).1 =
    (run u lineage (run u lineage x n l1).1 (n + Z.of_nat (length l1)) l2).1.
Proof.
  revert x n. induction l1 as [|tc l1 IH]; intros x n.
  - cbn [app length run fst]. by rewrite Z.add_0_r.
  - cbn [app]. rewrite !run_cons, IH. do 2 f_equal. cbn [length]. lia.
Qed.

(** The event of the turn that runs [tc] at [n] in [x]. *)
Definition turn_event x n (tc : EventTimestamp * VenueCommand) : VenueEvent :=
  VenueEvent_new n tc.1 tc.2 (execute x (context u lineage n tc)).2.

Fixpoint log_events x n (l : log) : list VenueEvent :=
  match l with
  | [] => []
  | tc :: l => turn_event x n tc :: log_events (execute x (context u lineage n tc)).1 (n + 1) l
  end.

(** Each turn's command record, then its event record. *)
Fixpoint log_records x n (l : log) : list JournalRecord :=
  match l with
  | [] => []
  | tc :: l =>
      command_record n tc.1 tc.2 :: REvent (turn_event x n tc)
        :: log_records (execute x (context u lineage n tc)).1 (n + 1) l
  end.

Lemma log_events_snoc x n l tc :
  log_events x n (l ++ [tc]) =
    log_events x n l ++
    [turn_event (run u lineage x n l).1 (n + Z.of_nat (length l)) tc].
Proof.
  revert x n. induction l as [|tc' l IH]; intros x n.
  - cbn [app log_events length run fst]. by rewrite Z.add_0_r.
  - cbn [app log_events length]. rewrite IH, run_cons.
    replace (n + 1 + Z.of_nat (length l)) with (n + Z.of_nat (S (length l))) by lia. done.
Qed.

Lemma log_records_snoc x n l tc :
  log_records x n (l ++ [tc]) =
    log_records x n l ++
    [command_record (n + Z.of_nat (length l)) tc.1 tc.2;
     REvent (turn_event (run u lineage x n l).1 (n + Z.of_nat (length l)) tc)].
Proof.
  revert x n. induction l as [|tc' l IH]; intros x n.
  - cbn [app log_records length run fst]. by rewrite Z.add_0_r.
  - cbn [app log_records length]. rewrite IH, run_cons.
    replace (n + 1 + Z.of_nat (length l)) with (n + Z.of_nat (S (length l))) by lia. done.
Qed.

Lemma log_records_bound x n l r :
  r ∈ log_records x n l → n ≤ record_sequence r < n + Z.of_nat (length l).
Proof.
  revert x n. induction l as [|tc l IH]; intros x n; cbn [log_records length].
  { by intros ?%not_elem_of_nil. }
  intros [->|[->|Hin]%elem_of_cons]%elem_of_cons; cbn; [lia..|].
  apply IH in Hin. lia.
Qed.

(** The index after the log's committed correlations. *)
Fixpoint log_index x n (l : log) (i : ClOrdIdIndex) : ClOrdIdIndex :=
  match l with
  | [] => i
  | tc :: l =>
      log_index (execute x (context u lineage n tc)).1 (n + 1) l
        (apply_committed_correlation i n tc.2 (execute x (context u lineage n tc)).2)
  end.

Lemma log_index_snoc x n l tc i :
  log_index x n (l ++ [tc]) i =
    apply_committed_correlation (log_index x n l i) (n + Z.of_nat (length l)) tc.2
      (execute (run u lineage x n l).1
         (context u lineage (n + Z.of_nat (length l)) tc)).2.
Proof.
  revert x n i. induction l as [|tc' l IH]; intros x n i.
  - cbn [app log_index length run fst]. by rewrite Z.add_0_r.
  - cbn [app log_index length]. rewrite IH, run_cons.
    replace (n + 1 + Z.of_nat (length l)) with (n + Z.of_nat (S (length l))) by lia. done.
Qed.
End log.

(** ** The turn *)

Section actor.
Context {F C : Type} `{!FanOut F, !VenueClock C, !Upstream, !Serde}.
Notation venue_actor := (UnderlyingActor InMemoryVenueJournal MatchingExecutor F C).
Implicit Types a b : venue_actor.

(** A fresh actor: an empty journal, not sealed. *)
Record fresh_actor a : Prop := {
  fresh_records : im_records (act_journal a) = [];
  fresh_index : im_index (act_journal a) = ∅;
  fresh_sealed : act_sealed a = None;
  fresh_next : has_ty u64 (act_next_sequence a);
}.

(** [a] is reached from [a0] by committing the turns [log], and possibly the
    write-ahead and execution of one more whose event could not be journaled
    ([pend]). *)
Record live (a0 : venue_actor) (log pend : list (EventTimestamp * VenueCommand)) a : Prop := {
  live_underlying : act_underlying a = act_underlying a0;
  live_lineage : act_lineage_id a = act_lineage_id a0;
  live_header : im_header (act_journal a) = im_header (act_journal a0);
  live_wf : im_wf (act_journal a);
  live_records : im_records (act_journal a) =
    log_records (act_underlying a0) (act_lineage_id a0) (act_executor a0)
      (act_next_sequence a0) log ++
    ((λ tc, command_record (act_next_sequence a0 + Z.of_nat (length log)) tc.1 tc.2) <$> pend);
  live_executor : act_executor a =
    (run (act_underlying a0) (act_lineage_id a0) (act_executor a0)
       (act_next_sequence a0) (log ++ pend)).1;
  live_clordid : act_clordid_index a =
    log_index (act_underlying a0) (act_lineage_id a0) (act_executor a0)
      (act_next_sequence a0) log <$> act_clordid_index a0;
  live_pend : pend = [] ∨
    (∃ tc, pend = [tc]) ∧ act_sealed a = Some SealJournalUnavailable;
  live_open : act_sealed a = None →
    act_next_sequence a = act_next_sequence a0 + Z.of_nat (length log) ∧
    has_ty u64 (act_next_sequence a);
  live_last : act_next_sequence a0 + Z.of_nat (length log) ≤ 2 ^ 64;
}.

Lemma live_refl a0 : fresh_actor a0 → live a0 [] [] a0.
Proof.
  intros [Hr Hi Hs Hn]. split; cbn [app length fmap list_fmap log_records run fst]; try done.
  - intros k i. rewrite Hi, Hr, lookup_empty. split; [done|]. intros (r & ? & _). done.
  - by destruct (act_clordid_index a0).
  - by left.
  - intros _. rewrite Z.add_0_r. done.
  - unfold_int. lia.
Qed.

Lemma check_record_size_err r e : check_record_size r = Err e → ∀ why, e ≠ Ambiguous why.
Proof.
  unfold check_record_size. intros He why. repeat case_match; by simplify_eq.
Qed.

Lemma im_append_cases j r :
  im_wf j → record_key r ∉ record_key <$> im_records j →
  (∃ e, im_append j r = (j, Err e) ∧ ∀ why, e ≠ Ambiguous why) ∨
  (∃ j', im_append j r = (j', Ok tt) ∧ im_records j' = im_records j ++ [r] ∧
     im_header j' = im_header j ∧ im_wf j').
Proof.
  intros Hwf Hr. destruct (check_record_size r) as [[]|e] eqn:Es.
  - right. pose proof (im_append_wf j r Hwf) as Hwf'.
    assert (im_index j !! record_key r = None) as Hi by by apply im_index_None.
    rewrite (im_append_fresh j r Es Hi) in Hwf' |- *. eexists. split; [done|]. done.
  - left. exists e. unfold im_append. rewrite Es. split; [done|].
    by eapply check_record_size_err.
Qed.

Lemma live_clock a0 log pend a clock :
  live a0 log pend a → live a0 log pend (with_journal (with_clock a clock) (act_journal a)).
Proof. by intros []. Qed.

Notation base_run a0 log :=
  (run (act_underlying a0) (act_lineage_id a0) (act_executor a0) (act_next_sequence a0) log).1.

(** The write-ahead of a live, open actor: refused leaving the journal alone, or
    journaled at the next sequence. *)
Lemma write_ahead_live a0 log a ts c :
  act_sealed a = None → live a0 log [] a →
  let w := write_ahead_command a (act_next_sequence a)
             (command_record (act_next_sequence a) ts c) in
  w = (with_journal a (act_journal a), WaReuse) ∨
  ∃ j, w = (with_journal a j, WaCommitted) ∧ im_wf j ∧
    im_header j = im_header (act_journal a) ∧
    im_records j = im_records (act_journal a) ++
      [command_record (act_next_sequence a) ts c].
Proof.
  intros Hopen [HU HL HH HW HR HX HI HP HO HM]. destruct (HO Hopen) as [Hn Hty].
  cbn [fmap list_fmap] in HR. rewrite app_nil_r in HR.
  unfold write_ahead_command.
  change (journal_append (act_journal a)) with (im_append (act_journal a)).
  destruct (im_append_cases (act_journal a) (command_record (act_next_sequence a) ts c) HW)
    as [(e & -> & He)|(j1 & -> & Hj1 & Hh1 & Hw1)].
  - intros (r & Hk & Hin)%list_elem_of_fmap.
    rewrite HR in Hin. apply log_records_bound in Hin.
    unfold record_key in Hk. cbn in Hk. injection Hk as Hk _. lia.
  - left. destruct e; try done. by destruct (He why).
  - right. by exists j1.
Qed.

(** The event append that follows a journaled command. *)
Lemma event_append_live a0 log a ts c j o :
  act_sealed a = None → live a0 log [] a → im_wf j →
  im_records j = im_records (act_journal a) ++ [command_record (act_next_sequence a) ts c] →
  let w := im_append j (REvent (VenueEvent_new (act_next_sequence a) ts c o)) in
  (∃ e, w = (j, Err e)) ∨
  ∃ j', w = (j', Ok tt) ∧ im_wf j' ∧ im_header j' = im_header j ∧
    im_records j' = im_records j ++
      [REvent (VenueEvent_new (act_next_sequence a) ts c o)].
Proof.
  intros Hopen [HU HL HH HW HR HX HI HP HO HM] Hj Hrec. destruct (HO Hopen) as [Hn Hty].
  cbn [fmap list_fmap] in HR. rewrite app_nil_r in HR.
  destruct (im_append_cases j (REvent (VenueEvent_new (act_next_sequence a) ts c o)) Hj)
    as [(e & -> & He)|(j1 & -> & Hj1 & Hh1 & Hw1)].
  - rewrite Hrec, fmap_app. intros [Hin|Hin]%elem_of_app.
    + apply list_elem_of_fmap in Hin as (r & Hk & Hin).
      rewrite HR in Hin. apply log_records_bound in Hin.
      unfold record_key in Hk. cbn in Hk. injection Hk as Hk _. lia.
    + by apply list_elem_of_singleton in Hin.
  - left. by exists e.
  - right. by exists j1.
Qed.

(** The result of one turn. *)
Definition turn_result a0 log a c b (r : result VenueError Receipt) : Prop :=
  let ts := (now_ms (act_clock a)).1 in
  let n := act_next_sequence a in
  let x := context (act_underlying a) (act_lineage_id a) n (ts, c) in
  (* refused at the write-ahead *)
  (live a0 log [] b ∧ r = Err JournalUnavailable ∧ act_sealed b = None ∧
     act_journal b = act_journal a ∧ act_executor b = act_executor a ∧
     act_fan_out b = act_fan_out a ∧ act_next_sequence b = n) ∨
  (* the event could not be journaled *)
  (live a0 log [(ts, c)] b ∧ r = Err JournalUnavailable ∧
     act_sealed b = Some SealJournalUnavailable ∧ act_fan_out b = act_fan_out a) ∨
  (* committed, and a projection failed *)
  (live a0 (log ++ [(ts, c)]) [] b ∧ r = Err JournalUnavailable ∧
     act_sealed b = Some SealProjectionFailed) ∨
  (* committed *)
  (live a0 (log ++ [(ts, c)]) [] b ∧
     r = Ok (Receipt_committed n ts (execute (act_executor a) x).2) ∧
     fan_out_emit (act_fan_out a)
       (VenueEvent_new n ts c (execute (act_executor a) x).2) = (act_fan_out b, Ok tt) ∧
     (act_sealed b = None ∨ n = int_max u64 ∧ act_sealed b = Some SealSequenceExhausted)).

Lemma live_base a0 log a :
  live a0 log [] a →
  act_executor a = base_run a0 log ∧
  im_records (act_journal a) =
    log_records (act_underlying a0) (act_lineage_id a0) (act_executor a0)
      (act_next_sequence a0) log.
Proof.
  intros [HU HL HH HW HR HX HI HP HO HM]. cbn [fmap list_fmap] in HR.
  by rewrite app_nil_r in HR, HX.
Qed.

(** Journaling both records of a turn extends the log. *)
Lemma live_commit a0 log a ts c j b :
  act_sealed a = None → live a0 log [] a →
  let n := act_next_sequence a in
  let x := context (act_underlying a) (act_lineage_id a) n (ts, c) in
  im_wf j → im_header j = im_header (act_journal a) →
  im_records j = im_records (act_journal a) ++
    [command_record n ts c; REvent (VenueEvent_new n ts c (execute (act_executor a) x).2)] →
  act_underlying b = act_underlying a → act_lineage_id b = act_lineage_id a →
  act_journal b = j → act_executor b = (execute (act_executor a) x).1 →
  act_clordid_index b =
    (λ i, apply_committed_correlation i n c (execute (act_executor a) x).2)
      <$> act_clordid_index a →
  (act_sealed b = None → act_next_sequence b = n + 1 ∧ has_ty u64 (n + 1)) →
  live a0 (log ++ [(ts, c)]) [] b.
Proof.
  intros Hopen Hl n x Hw Hh Hj EU EL EJ EX EI Hs.
  destruct (live_base _ _ _ Hl) as [Hrun Hrec].
  destruct Hl as [HU HL HH HW HR HX HI HP HO HM]. destruct (HO Hopen) as [Hn Hty].
  assert (x = context (act_underlying a0) (act_lineage_id a0)
    (act_next_sequence a0 + Z.of_nat (length log)) (ts, c)) as Ex
    by (unfold x, n; by rewrite HU, HL, Hn).
  assert (n = act_next_sequence a0 + Z.of_nat (length log)) as En by done.
  split; cbn [fmap list_fmap]; rewrite ?app_nil_r.
  - congruence.
  - congruence.
  - congruence.
  - by rewrite EJ.
  - rewrite EJ, Hj, Hrec, log_records_snoc. cbn [fst snd]. unfold turn_event.
    by rewrite <-Ex, <-En, <-Hrun.
  - rewrite EX, run_app, <-Hrun, run_cons, Ex. done.
  - rewrite EI, HI. destruct (act_clordid_index a0) as [i|]; [|done]. cbn. f_equal.
    rewrite log_index_snoc. cbn [snd]. by rewrite <-Ex, <-En, <-Hrun.
  - by left.
  - intros Hsb. rewrite length_app. cbn [length]. destruct (Hs Hsb) as [-> ?].
    split; [lia|done].
  - rewrite length_app. cbn [length]. unfold_int. lia.
Qed.

Lemma handle_live a0 log a c :
  act_sealed a = None → live a0 log [] a →
  turn_result a0 log a c (handle a c).1 (handle a c).2.
Proof.
  intros Hopen Hl. unfold turn_result.
  pose proof Hl as [HU HL HH HW HR HX HI HP HO HM]. destruct (HO Hopen) as [Hn Hty].
  unfold handle. rewrite Hopen. destruct (now_ms (act_clock a)) as [ts clock]. cbn [fst].
  set (n := act_next_sequence a) in *.
  pose proof (live_clock _ _ _ _ clock Hl) as Hlc.
  change (with_journal (with_clock a clock) (act_journal a)) with (with_clock a clock) in Hlc.
  destruct (write_ahead_live a0 log (with_clock a clock) ts c Hopen Hlc)
    as [E|(j & E & Hj & Hh & Hrec)]; cbn [act_next_sequence with_clock] in E; fold n in E;
    rewrite E; clear E.
  { left. by split_and!. }
  right. cbn [act_executor act_underlying act_lineage_id act_journal with_journal with_clock].
  change (executor_execute (act_executor a)) with (execute (act_executor a)).
  set (x := context (act_underlying a) (act_lineage_id a) n (ts, c)).
  change {| ctx_underlying := act_underlying a; ctx_lineage_id := act_lineage_id a;
            ctx_sequence := n; ctx_venue_ts := ts; ctx_command := c |} with x.
  destruct (execute (act_executor a) x) as [y o] eqn:Ex. cbn [snd].
  destruct (event_append_live a0 log (with_clock a clock) ts c j o Hopen Hlc Hj Hrec)
    as [(e & E)|(j' & E & Hj' & Hh' & Hrec')]; cbn [act_next_sequence with_clock] in E;
    fold n in E; cbn [act_journal with_executor with_journal];
    change (journal_append j) with (im_append j); rewrite E; clear E.
  - left. split_and!; try done.
    destruct (live_base _ _ _ Hl) as [Hrun Hbase].
    split; cbn; try done.
    + by rewrite Hh.
    + by rewrite Hrec, <-Hn, <-Hbase.
    + rewrite run_app, <-Hrun, <-Hn, run_cons, <-HU, <-HL. fold n x. by rewrite Ex.
    + by right; split; [eexists|].
  - right. cbn [ev_underlying_sequence ev_command ev_outcome VenueEvent_new].
    assert (im_records j' = im_records (act_journal a) ++
      [command_record n ts c;
       REvent (VenueEvent_new n ts c (execute (act_executor a) x).2)]) as Hrec''.
    { rewrite Hrec', Hrec, Ex. by rewrite <-(assoc_L (++)). }
    assert (im_header j' = im_header (act_journal a)) as Hh'' by by rewrite Hh', Hh.
    set (b0 := match act_clordid_index _ with Some _ => _ | None => _ end).
    assert (act_fan_out b0 = act_fan_out a ∧ act_journal b0 = j' ∧
      act_underlying b0 = act_underlying a ∧ act_lineage_id b0 = act_lineage_id a ∧
      act_executor b0 = y ∧ act_sealed b0 = None ∧
      act_clordid_index b0 = (λ i, apply_committed_correlation i n c o) <$> act_clordid_index a)
      as (Bf & Bj & Bu & Bl & Bx & Bs & Bi).
    { subst b0. cbn [act_clordid_index with_journal with_executor with_clock].
      destruct (act_clordid_index a) eqn:Ei; cbn; rewrite ?Hopen; by split_and!. }
    rewrite Bf. destruct (fan_out_emit (act_fan_out a) _) as [f r] eqn:Ef.
    destruct r as [[]|ferr].
    + right. cbn [fst snd].
      assert (∀ b, act_underlying b = act_underlying a → act_lineage_id b = act_lineage_id a →
        act_journal b = j' → act_executor b = y →
        act_clordid_index b = (λ i, apply_committed_correlation i n c o) <$>
          act_clordid_index a →
        (act_sealed b = None → act_next_sequence b = n + 1 ∧ has_ty u64 (n + 1)) →
        live a0 (log ++ [(ts, c)]) [] b) as Hlive.
      { intros b E1 E2 E3 E4 E5 E6.
        apply (live_commit a0 log a ts c j' b Hopen Hl Hj' Hh'' Hrec''); try done;
          fold n x; by rewrite Ex. }
      destruct (checked_next n) as [next|] eqn:En; unfold checked_next in En; simp_narrow.
      * split_and!; [by apply Hlive|done|done|by left].
      * split_and!; [by apply Hlive|done|done|right].
        split; [|done]. fold n in Hty. unfold_int. lia.
    + left. split_and!; [|done..].
      apply (live_commit a0 log a ts c j' _ Hopen Hl Hj' Hh'' Hrec''); try done;
        cbn; fold n x; by rewrite Ex.
Qed.
End actor.
