(* ===== verification/Recovery.v ===== *)
(** Recovery ([src/src/exchange/recovery.rs]): re-executing a journal into a fresh
    executor, checking each derived event against the stored one, and the
    admission checks replay shares with the live edge. *)

From S2P Require Export Actor.

Section recovery.
Context `{Upstream}.

(** ** Admission *)

Definition check_price_band (config : MicrostructureConfig) (command : VenueCommand) :
    result PriceBoundError unit :=
  let for_symbol symbol price :=
    match parse_symbol symbol with
    | Err _ => Ok tt
    | Ok _ => admit_price_for_symbol config symbol price
    end in
  match command with
  | AddOrder symbol _ _ _ _ _ _ (Some price) _ _ _ => for_symbol symbol price
  | Replace symbol _ _ _ _ _ _ (Some price) _ _ _ => for_symbol symbol price
  | SimStep _ underlying price _ _ => admit_price config underlying price
  | _ => Ok tt
  end.

Definition check_order_admission (config : MicrostructureConfig) (command : VenueCommand) :
    result OrderAdmissionError unit :=
  let for_symbol symbol limit_price quantity :=
    match parse_symbol symbol with
    | Err _ => Ok tt
    | Ok _ => admit_order_for_symbol config symbol limit_price quantity
    end in
  match command with
  | AddOrder symbol _ _ _ _ _ _ limit_price quantity _ _ =>
      for_symbol symbol limit_price quantity
  | Replace symbol _ _ _ _ _ _ limit_price quantity _ _ =>
      for_symbol symbol limit_price quantity
  | SimStep _ underlying price _ _ => map_err PriceBand (admit_price config underlying price)
  | _ => Ok tt
  end.

(** ** Reduction *)

Record Recovered := {
  rec_events : list VenueEvent;
  rec_executor : MatchingExecutor;
  rec_last_sequence : option SequenceNumber;
}.

Definition upgrade_legacy_reject_kind (stored derived : VenueEvent) : VenueEvent :=
  let with_outcome o :=
    {| ev_schema := ev_schema stored; ev_underlying_sequence := ev_underlying_sequence stored;
       ev_venue_ts := ev_venue_ts stored; ev_command := ev_command stored; ev_outcome := o |} in
  match ev_outcome stored, ev_outcome derived with
  | Rejected Internal reason, Rejected derived_kind _ =>
      with_outcome (Rejected derived_kind reason)
  | Replaced cancelled (AddRejected Internal reason), Replaced _ (AddRejected derived_kind _) =>
      with_outcome (Replaced cancelled (AddRejected derived_kind reason))
  | _, _ => stored
  end.

Definition stored_event_matches (stored derived : VenueEvent) : bool :=
  event_eqb stored derived || event_eqb (upgrade_legacy_reject_kind stored derived) derived.

Definition command_records_in_order (records : list JournalRecord) : list JournalCommand :=
  sort_by_key Z.leb jc_sequence
    (omap (λ r, match r with RCommand c => Some c | REvent _ | REpoch _ => None end) records).

Fixpoint stored_event_at (records : list JournalRecord) (sequence : SequenceNumber) :
    option VenueEvent :=
  match records with
  | [] => None
  | REvent event :: records =>
      if ev_underlying_sequence event =? sequence then Some event
      else stored_event_at records sequence
  | _ :: records => stored_event_at records sequence
  end.

(** The admission gate of a replay that carries a configuration. *)
Definition replay_admission (microstructure : option MicrostructureConfig) (command : VenueCommand) :
    result JournalError unit :=
  match microstructure with
  | Some config =>
      map_err (λ e, PriceOutOfBand (admission_display e)) (check_order_admission config command)
  | None => Ok tt
  end.

Fixpoint reduce_loop (records : list JournalRecord) (underlying : string) (lineage : LineageId)
    (microstructure : option MicrostructureConfig) (commands : list JournalCommand)
    (executor : MatchingExecutor) (index : option ClOrdIdIndex) (events : list VenueEvent) :
    option ClOrdIdIndex * result JournalError (MatchingExecutor * list VenueEvent) :=
  match commands with
  | [] => (index, Ok (executor, events))
  | command :: commands =>
      match replay_admission microstructure (jc_command command) with
      | Err e => (index, Err e)
      | Ok _ =>
          let '(executor, outcome) :=
            execute executor
              {| ctx_underlying := underlying; ctx_lineage_id := lineage;
                 ctx_sequence := jc_sequence command; ctx_venue_ts := jc_venue_ts command;
                 ctx_command := jc_command command |} in
          let derived :=
            VenueEvent_new (jc_sequence command) (jc_venue_ts command) (jc_command command)
              outcome in
          if match stored_event_at records (jc_sequence command) with
             | Some stored => negb (stored_event_matches stored derived)
             | None => false
             end
          then (index, Err (Corruption underlying (jc_sequence command)))
          else
            let index :=
              (λ i, apply_committed_correlation i (ev_underlying_sequence derived)
                      (ev_command derived) (ev_outcome derived)) <$> index in
            reduce_loop records underlying lineage microstructure commands executor index
              (events ++ [derived])
      end
  end.

Definition reduce_into_executor (records : list JournalRecord) (executor : MatchingExecutor)
    (underlying : string) (lineage : LineageId) (microstructure : option MicrostructureConfig)
    (index : option ClOrdIdIndex) : option ClOrdIdIndex * result JournalError Recovered :=
  let '(index, r) :=
    reduce_loop records underlying lineage microstructure (command_records_in_order records)
      executor index [] in
  (index,
   '(executor, events) ← r;
   Ok {| rec_events := events; rec_executor := executor;
         rec_last_sequence := max_sequence records |}).

(** The [Display] of a configuration error, whose float formatting is the
    standard library's. *)
Context (config_display : MicrostructureConfigError → string).

Definition recover_from_records (records : list JournalRecord) (underlying : string)
    (lineage : LineageId) (microstructure : option MicrostructureConfig)
    (index : option ClOrdIdIndex) : option ClOrdIdIndex * result JournalError Recovered :=
  match
    match microstructure with
    | None => Ok (executor_new underlying)
    | Some config =>
        map_err (λ e, ConfigRejected (config_display e))
          (new_with_microstructure underlying config)
    end
  with
  | Err e => (index, Err e)
  | Ok executor => reduce_into_executor records executor underlying lineage microstructure index
  end.

Definition recover_inner `{VenueJournal J} (journal : J) (underlying : string)
    (microstructure : option MicrostructureConfig) (index : option ClOrdIdIndex) :
    option ClOrdIdIndex * result JournalError Recovered :=
  let header := journal_header journal in
  if negb (header_is_current_schema header)
  then (index, Err (SchemaTooNew (schema_version header)))
  else
    match journal_read_from journal SEQUENCE_START with
    | Err e => (index, Err e)
    | Ok records =>
        recover_from_records records underlying (header_lineage_id header) microstructure index
    end.

Definition recover `{VenueJournal J} (journal : J) (underlying : string) :=
  (recover_inner journal underlying None None).2.

Definition recover_with_index `{VenueJournal J} (journal : J) (underlying : string)
    (index : ClOrdIdIndex) :=
  recover_inner journal underlying None (Some index).

Definition recover_with_microstructure `{VenueJournal J} (journal : J) (underlying : string)
    (microstructure : MicrostructureConfig) :=
  (recover_inner journal underlying (Some microstructure) None).2.

Definition recover_with_microstructure_and_index `{VenueJournal J} (journal : J)
    (underlying : string) (microstructure : MicrostructureConfig) (index : ClOrdIdIndex) :=
  recover_inner journal underlying (Some microstructure) (Some index).

Definition recover_into `{VenueJournal J} (journal : J) (executor : MatchingExecutor)
    (microstructure : option MicrostructureConfig) (index : option ClOrdIdIndex) :
    option ClOrdIdIndex * result JournalError Recovered :=
  let header := journal_header journal in
  if negb (header_is_current_schema header)
  then (index, Err (SchemaTooNew (schema_version header)))
  else
    match journal_read_from journal SEQUENCE_START with
    | Err e => (index, Err e)
    | Ok records =>
        reduce_into_executor records executor (underlying executor) (header_lineage_id header)
          microstructure index
    end.
End recovery.
