(* ===== verification/RecoveryProps.v ===== *)
(** Recovery correctness: replaying the journal of any live run reproduces the live
    executor, events and index; and over an arbitrary journal recovery succeeds
    exactly when every derived event agrees with the stored one. *)

From S2P Require Export Recovery ActorProps.
From S2P Require Import SampleBook.

Section replay.
Context `{Upstream}.
Context (u : string) (lineage : LineageId).

(** ** The specification of a replay *)

Definition command_context (c : JournalCommand) : ExecutionContext :=
  {| ctx_underlying := u; ctx_lineage_id := lineage; ctx_sequence := jc_sequence c;
     ctx_venue_ts := jc_venue_ts c; ctx_command := jc_command c |}.

Definition derived_event x (c : JournalCommand) : VenueEvent :=
  VenueEvent_new (jc_sequence c) (jc_venue_ts c) (jc_command c)
    (execute x (command_context c)).2.

Fixpoint replay x (cs : list JournalCommand) : MatchingExecutor * list VenueEvent :=
  match cs with
  | [] => (x, [])
  | c :: cs =>
      let '(y, es) := replay (execute x (command_context c)).1 cs in
      (y, derived_event x c :: es)
  end.

Definition correlate (i : ClOrdIdIndex) (e : VenueEvent) : ClOrdIdIndex :=
  apply_committed_correlation i (ev_underlying_sequence e) (ev_command e) (ev_outcome e).

(** The stored event at the derived one's sequence, if any, agrees with it. *)
Definition agrees (records : list JournalRecord) (e : VenueEvent) : bool :=
  match stored_event_at records (ev_underlying_sequence e) with
  | Some stored => stored_event_matches stored e
  | None => true
  end.

Definition admitted (m : option MicrostructureConfig) (c : JournalCommand) : bool :=
  is_ok (replay_admission m (jc_command c)).

Lemma reduce_loop_ok records m cs x i es :
  Forall (λ c, admitted m c = true) cs →
  Forall (λ e, agrees records e = true) (replay x cs).2 →
  reduce_loop records u lineage m cs x i es =
    ((λ i, foldl correlate i (replay x cs).2) <$> i,
     Ok ((replay x cs).1, es ++ (replay x cs).2)).
Proof.
  revert x i es. induction cs as [|c cs IH]; intros x i es; cbn [reduce_loop replay].
  { intros _ _. cbn. rewrite app_nil_r. by destruct i. }
  intros [Hc Hcs]%Forall_cons Hag. unfold admitted in Hc.
  destruct (replay_admission m (jc_command c)) as [[]|]; [|done]. fold (command_context c).
  pose proof (IH (execute x (command_context c)).1) as IH'.
  unfold derived_event in *. destruct (execute x (command_context c)) as [y o].
  cbn [fst snd] in *. destruct (replay y cs) as [z es'] eqn:Er. cbn [fst snd] in *.
  apply Forall_cons in Hag as [He Hag]. unfold agrees in He.
  cbn [ev_underlying_sequence VenueEvent_new] in He.
  assert (match stored_event_at records (jc_sequence c) with
    | Some stored => negb (stored_event_matches stored
        (VenueEvent_new (jc_sequence c) (jc_venue_ts c) (jc_command c) o))
    | None => false end = false) as ->.
  { destruct (stored_event_at records (jc_sequence c)); [|done]. by rewrite He. }
  rewrite IH' by done. rewrite <-(assoc_L (++)). by destruct i.
Qed.

Lemma reduce_loop_err records m cs x i es :
  ¬ (Forall (λ c, admitted m c = true) cs ∧
     Forall (λ e, agrees records e = true) (replay x cs).2) →
  ∃ i' err, reduce_loop records u lineage m cs x i es = (i', Err err) ∧
    ((∃ detail, err = PriceOutOfBand detail) ∨
     ∃ e, e ∈ (replay x cs).2 ∧ agrees records e = false ∧
       err = Corruption u (ev_underlying_sequence e)).
Proof.
  revert x i es. induction cs as [|c cs IH]; intros x i es; cbn [reduce_loop replay].
  { intros []. by split. }
  intros Hbad. rewrite !Forall_cons in Hbad. unfold admitted in Hbad at 1.
  destruct (replay_admission m (jc_command c)) as [[]|err] eqn:Ea.
  2: { eexists _, _. split; [done|]. left. unfold replay_admission in Ea.
       destruct m as [cfg|]; [|done]. unfold map_err in Ea.
       destruct (check_order_admission cfg (jc_command c)); [done|].
       injection Ea as <-. by eexists. }
  fold (command_context c). pose proof (IH (execute x (command_context c)).1) as IH'.
  unfold derived_event in *. destruct (execute x (command_context c)) as [y o].
  cbn [fst snd] in *. destruct (replay y cs) as [z es'] eqn:Er. cbn [fst snd] in *.
  set (e := VenueEvent_new _ _ _ o) in *.
  assert (match stored_event_at records (jc_sequence c) with
    | Some stored => negb (stored_event_matches stored e) | None => false end =
    negb (agrees records e)) as ->.
  { unfold agrees. cbn. by destruct (stored_event_at records (jc_sequence c)). }
  destruct (agrees records e) eqn:Ee; cbn [negb].
  - destruct (IH' ((λ i, correlate i e) <$> i) (es ++ [e])) as (i' & err & E & Herr).
    { rewrite Forall_cons in Hbad. tauto. }
    exists i', err. split; [exact E|]. destruct Herr as [?|(e' & ? & ? & ->)]; [by left|right].
    exists e'. split_and!; [by right|done..].
  - eexists _, _. split; [done|]. right. exists e. split_and!; [by left|done..].
Qed.

(** Recovery over any journal, honest or not, is decided by agreement: it
    succeeds exactly when every command, in sequence order, is admitted and each
    event derived by re-execution agrees with the stored event of its sequence
    (up to the legacy reject-kind upgrade); then it returns exactly the replay.
    Otherwise it fails on an inadmissible command or reports corruption at the
    sequence of a disagreeing event. *)
Theorem recovery_decides_agreement records m x i :
  let commands := command_records_in_order records in
  let good := Forall (λ c, admitted m c = true) commands ∧
              Forall (λ e, agrees records e = true) (replay x commands).2 in
  (good → reduce_into_executor records x u lineage m i =
     ((λ i, foldl correlate i (replay x commands).2) <$> i,
      Ok {| rec_events := (replay x commands).2; rec_executor := (replay x commands).1;
            rec_last_sequence := max_sequence records |})) ∧
  (¬ good → ∃ i' err, reduce_into_executor records x u lineage m i = (i', Err err) ∧
     ((∃ detail, err = PriceOutOfBand detail) ∨
      ∃ e, e ∈ (replay x commands).2 ∧ agrees records e = false ∧
        err = Corruption u (ev_underlying_sequence e))).
Proof.
  unfold reduce_into_executor. split.
  - intros [Ha He]. by rewrite reduce_loop_ok.
  - intros Hbad. destruct (reduce_loop_err records m _ x i [] Hbad) as (i' & err & -> & Herr).
    by exists i', err.
Qed.

(** ** The journal of a log *)

Definition log_commands (n : Z) (l : list (EventTimestamp * VenueCommand)) :
    list JournalCommand :=
  imap (λ i tc, {| jc_sequence := n + Z.of_nat i; jc_venue_ts := tc.1; jc_command := tc.2 |}) l.

Lemma log_commands_cons n tc l :
  log_commands n (tc :: l) =
    {| jc_sequence := n; jc_venue_ts := tc.1; jc_command := tc.2 |} :: log_commands (n + 1) l.
Proof.
  unfold log_commands. cbn. rewrite Z.add_0_r. f_equal. apply imap_ext.
  intros i tc' _. cbn. f_equal. lia.
Qed.

Lemma replay_log x n l :
  replay x (log_commands n l) = ((run u lineage x n l).1, log_events u lineage x n l).
Proof.
  revert x n. induction l as [|tc l IH]; intros x n; [done|].
  rewrite log_commands_cons, run_cons. cbn [replay log_events].
  change (command_context _) with (context u lineage n tc). by rewrite IH.
Qed.

Lemma log_commands_sorted n l : key_sorted Z.leb jc_sequence (log_commands n l).
Proof.
  revert n. induction l as [|tc l IH]; intros n; [constructor|].
  rewrite log_commands_cons. constructor; [apply IH|].
  apply Forall_forall. intros c Hc. cbn. apply Z.leb_le.
  apply elem_of_lookup_imap in Hc as (i & tc' & -> & _). cbn. lia.
Qed.

Notation commands_of :=
  (omap (λ r, match r with RCommand c => Some c | REvent _ | REpoch _ => None end)).

Lemma log_records_commands x n l :
  commands_of (log_records u lineage x n l) = log_commands n l.
Proof.
  revert x n. induction l as [|tc l IH]; intros x n; [done|].
  rewrite log_commands_cons. cbn [log_records omap list_omap command_record]. by rewrite IH.
Qed.

Lemma stored_event_at_skip records rest s :
  (∀ r, r ∈ records → record_sequence r ≠ s) →
  stored_event_at (records ++ rest) s = stored_event_at rest s.
Proof.
  induction records as [|r records IH]; intros Hr; [done|]. cbn [app stored_event_at].
  destruct r as [c|e|m]; cbn; [apply IH; set_solver| |apply IH; set_solver].
  destruct (Z.eqb_spec (ev_underlying_sequence e) s) as [E|_]; [|apply IH; set_solver].
  exfalso. apply (Hr (REvent e)); [by left|done].
Qed.

Lemma stored_event_at_log x n l rest e :
  e ∈ log_events u lineage x n l →
  stored_event_at (log_records u lineage x n l ++ rest) (ev_underlying_sequence e) = Some e.
Proof.
  revert x n. induction l as [|tc l IH]; intros x n; cbn [log_events log_records app];
    [by intros ?%not_elem_of_nil|].
  intros [->|Hin]%elem_of_cons; cbn [stored_event_at command_record].
  - by rewrite Z.eqb_refl.
  - destruct (Z.eqb_spec (ev_underlying_sequence (turn_event u lineage x n tc))
      (ev_underlying_sequence e)) as [E|_]; [|by apply IH].
    exfalso. cbn in E.
    assert (ev_underlying_sequence e ∈ seqZ (n + 1) (Z.of_nat (length l))) as Hs.
    { rewrite <-(log_events_sequences u lineage (execute x (context u lineage n tc)).1).
      by apply list_elem_of_fmap_2. }
    apply elem_of_seqZ in Hs. lia.
Qed.

Lemma log_events_commands x n l e :
  e ∈ log_events u lineage x n l → ∃ tc, tc ∈ l ∧ ev_command e = tc.2.
Proof.
  revert x n. induction l as [|tc l IH]; intros x n; cbn [log_events];
    [by intros ?%not_elem_of_nil|].
  intros [->|Hin]%elem_of_cons; [exists tc; split; [by left|done]|].
  destruct (IH _ _ Hin) as (tc' & ? & ?). exists tc'. split; [by right|done].
Qed.

Lemma log_index_correlate x n l i :
  log_index u lineage x n l i = foldl correlate i (log_events u lineage x n l).
Proof.
  revert x n i. induction l as [|tc l IH]; intros x n i; [done|].
  cbn [log_index log_events foldl]. by rewrite IH.
Qed.

(** Replaying a log's own records, the events of a pending suffix missing. *)
Lemma reduce_log x n l pend m i :
  (length pend ≤ 1)%nat →
  Forall (λ tc, is_ok (replay_admission m tc.2) = true) (l ++ pend) →
  Forall (λ tc, no_nan tc.2) l →
  let records := log_records u lineage x n l ++
    ((λ tc, command_record (n + Z.of_nat (length l)) tc.1 tc.2) <$> pend) in
  reduce_into_executor records x u lineage m i =
    ((λ i, log_index u lineage x n (l ++ pend) i) <$> i,
     Ok {| rec_events := log_events u lineage x n (l ++ pend);
           rec_executor := (run u lineage x n (l ++ pend)).1;
           rec_last_sequence := max_sequence records |}).
Proof.
  intros Hp Ha Hn records.
  assert (command_records_in_order records = log_commands n (l ++ pend)) as Hcmd.
  { unfold command_records_in_order, records. rewrite omap_app, log_records_commands.
    assert (commands_of ((λ tc, command_record (n + Z.of_nat (length l)) tc.1 tc.2) <$> pend)
      = imap (λ i tc, {| jc_sequence := n + Z.of_nat (length l + i); jc_venue_ts := tc.1;
                         jc_command := tc.2 |}) pend) as ->.
    { destruct pend as [|tc [|? ?]]; [done| |cbn in Hp; lia]. cbn. by rewrite Nat.add_0_r. }
    assert (log_commands n l ++ imap (λ i tc, {| jc_sequence := n + Z.of_nat (length l + i);
      jc_venue_ts := tc.1; jc_command := tc.2 |}) pend = log_commands n (l ++ pend)) as ->
      by (unfold log_commands; by rewrite imap_app).
    apply sort_by_key_id, log_commands_sorted. }
  destruct (recovery_decides_agreement records m x i) as [Hok _]. rewrite Hcmd in Hok.
  rewrite replay_log in Hok. cbn [fst snd] in Hok. rewrite Hok.
  - f_equal. destruct i as [i|]; [|done]. cbn. by rewrite log_index_correlate.
  - split.
    + apply Forall_forall. intros c Hc. apply elem_of_lookup_imap in Hc as (k & tc & -> & Htc).
      unfold admitted. cbn. rewrite Forall_forall in Ha. apply Ha.
      by eapply list_elem_of_lookup_2.
    + apply Forall_forall. intros e He. unfold agrees.
      assert (log_events u lineage x n (l ++ pend) = log_events u lineage x n l ++
        log_events u lineage (run u lineage x n l).1 (n + Z.of_nat (length l)) pend) as Hev.
      { destruct pend as [|tc [|? ?]]; [by rewrite !app_nil_r| |cbn in Hp; lia].
        by rewrite log_events_snoc. }
      rewrite Hev in He. apply elem_of_app in He as [He|He].
      * unfold records. rewrite (stored_event_at_log x n l _ e He).
        unfold stored_event_matches. rewrite event_eqb_refl; [done|].
        apply log_events_commands in He as (tc & Htc & ->). rewrite Forall_forall in Hn.
        by apply Hn.
      * assert (ev_underlying_sequence e = n + Z.of_nat (length l)) as Es.
        { destruct pend as [|tc [|? ?]]; [by apply not_elem_of_nil in He| |cbn in Hp; lia].
          cbn in He. by apply list_elem_of_singleton in He as ->. }
        rewrite Es. unfold records. rewrite stored_event_at_skip.
        -- assert (stored_event_at ((λ tc, command_record (n + Z.of_nat (length l)) tc.1 tc.2)
             <$> pend) (n + Z.of_nat (length l)) = None) as ->; [|done].
           clear. by induction pend.
        -- intros r Hr. apply log_records_bound in Hr. lia.
Qed.
End replay.

(** ** Recovering a live run *)

Section live_recovery.
Context {F C : Type} `{!FanOut F, !VenueClock C, !Upstream, !Serde}.
Notation venue_actor := (UnderlyingActor InMemoryVenueJournal MatchingExecutor F C).
Implicit Types a : venue_actor.

Lemma no_nan_dec_transfer (cs : list VenueCommand) l :
  l.*2 `sublist_of` cs → Forall no_nan cs → Forall (λ tc : Z * VenueCommand, no_nan tc.2) l.
Proof.
  intros Hsub Hc. apply Forall_forall. intros tc Htc. rewrite Forall_forall in Hc. apply Hc.
  eapply elem_of_sublist; [|done]. by apply list_elem_of_fmap_2.
Qed.

(** Recovering a journal that holds the turns of a log re-executes them, and the one more
    whose event is missing. *)
Lemma recover_into_log (j : InMemoryVenueJournal) x lineage n log pend m i :
  im_header j = JournalHeader_new lineage →
  im_records j = log_records (underlying x) lineage x n log ++
    ((λ tc, command_record (n + Z.of_nat (length log)) tc.1 tc.2) <$> pend) →
  0 ≤ n → (length pend ≤ 1)%nat →
  Forall (λ tc, is_ok (replay_admission m tc.2) = true) (log ++ pend) →
  Forall (λ tc, no_nan tc.2) log →
  recover_into j x m i =
    (log_index (underlying x) lineage x n (log ++ pend) <$> i,
     Ok {| rec_events := log_events (underlying x) lineage x n (log ++ pend);
           rec_executor := (run (underlying x) lineage x n (log ++ pend)).1;
           rec_last_sequence := max_sequence (im_records j) |}).
Proof.
  intros Hh Hr Hpos Hp Hadm Hn. unfold recover_into.
  change (journal_header j) with (im_header j). rewrite Hh.
  cbn [header_is_current_schema JournalHeader_new schema_version header_lineage_id].
  unfold header_is_current_schema. cbn [schema_version]. rewrite String.eqb_refl. cbn [negb].
  change (journal_read_from j SEQUENCE_START) with (im_read_from j SEQUENCE_START).
  unfold im_read_from. cbv beta iota.
  assert (filter (λ r, SEQUENCE_START ≤ record_sequence r) (im_records j) = im_records j) as ->.
  { apply filter_keep. apply Forall_forall. intros r Hin. unfold SEQUENCE_START.
    rewrite Hr in Hin. apply elem_of_app in Hin as [Hin|Hin].
    - apply log_records_bound in Hin. lia.
    - apply list_elem_of_fmap in Hin as (tc & -> & _). cbn. lia. }
  rewrite Hr. by apply reduce_log.
Qed.

(** Recovering the journal of a run re-executes its turns, and the one more whose event
    could not be journaled. *)
Lemma recover_run a0 cs m :
  fresh_actor a0 →
  journal_header (act_journal a0) = JournalHeader_new (act_lineage_id a0) →
  underlying (act_executor a0) = act_underlying a0 →
  Forall no_nan cs →
  Forall (λ c, is_ok (replay_admission m c) = true) cs →
  let a := (handle_all a0 cs).1 in
  ∃ log pend,
    run_state a0 cs a (acknowledged (handle_all a0 cs).2) log pend ∧
    recover_into (act_journal a) (act_executor a0) m (act_clordid_index a0) =
      (log_index (act_underlying a0) (act_lineage_id a0) (act_executor a0)
         (act_next_sequence a0) (log ++ pend) <$> act_clordid_index a0,
       Ok {| rec_events := log_events (act_underlying a0) (act_lineage_id a0) (act_executor a0)
               (act_next_sequence a0) (log ++ pend);
             rec_executor := act_executor a;
             rec_last_sequence := journal_last_sequence (act_journal a) |}).
Proof.
  intros Hf Hh Hu Hn Hadm a.
  destruct (handle_all_state a0 cs Hf) as (log & pend & Hrun). exists log, pend.
  split; [exact Hrun|]. destruct Hrun as [Hl Hsub _]. fold a in Hl.
  assert ((length pend ≤ 1)%nat) as Hp
    by (destruct (live_pend _ _ _ _ Hl) as [->|[[tc ->] _]]; cbn; lia).
  rewrite (recover_into_log _ _ (act_lineage_id a0) (act_next_sequence a0) log pend).
  - rewrite Hu. change (journal_last_sequence (act_journal a)) with (im_last_sequence (act_journal a)).
    by rewrite (live_executor _ _ _ _ Hl).
  - rewrite (live_header _ _ _ _ Hl). exact Hh.
  - rewrite Hu. apply (live_records _ _ _ _ Hl).
  - pose proof (fresh_next _ Hf). unfold_int. lia.
  - done.
  - apply Forall_forall. intros tc Htc. rewrite Forall_forall in Hadm. apply Hadm.
    eapply elem_of_sublist; [|done]. by apply list_elem_of_fmap_2.
  - eapply no_nan_dec_transfer; [|done]. etransitivity; [|done].
    rewrite fmap_app. by apply sublist_inserts_r.
Qed.

Lemma log_events_filter u lineage x n l :
  (λ e, REvent e) <$> log_events u lineage x n l =
    filter (λ r, record_kind r = KEvent) (log_records u lineage x n l).
Proof.
  revert x n. induction l as [|tc l IH]; intros x n; [done|].
  cbn [log_events log_records fmap list_fmap].
  rewrite filter_cons_False by done. rewrite filter_cons_True by done. f_equal. apply IH.
Qed.

End live_recovery.

(** ** Concrete instances *)


(** A journal whose second event was altered is refused at its sequence. *)
Example tampering_detected :
  let records := im_records (act_journal (handle_all sample_venue sample_commands).1) in
  let tampered := (λ r, match r with
    | REvent e => if ev_underlying_sequence e =? 1
                  then REvent (VenueEvent_new 1 (ev_venue_ts e) (ev_command e) (Added [] 3 []))
                  else r
    | _ => r end) <$> records in
  match (reduce_into_executor tampered (executor_new "BTC") "BTC" "run-1" None None).2 with
  | Err (Corruption u s) => u = "BTC" ∧ s = 1
  | _ => False
  end.
Proof. vm_compute. done. Qed.
