(* ===== verification/MicroProps.v ===== *)
(** Properties of the microstructure: a resolved configuration passes its own
    validation and every profile it serves is usable, order admission is exactly its
    four conditions, and no admitted trade's fee can overflow. *)

From S2P Require Export Microstructure.
From S2P Require Import SampleBook.

(** Documented behaviour of the fee schedule: at or below the guaranteed bound the
    fee is computed without error, with magnitude the floor of
    [notional * |bps| / 10_000] of the leg's rate. *)
Class FeeLaws `{Upstream} : Prop := {
  calculate_fee_exact fs notional maker :
    0 ≤ notional ≤ max_guaranteed_exact_notional fs →
    ∃ fee, calculate_fee fs notional maker = Ok fee ∧
      Z.abs fee = notional * Z.abs (if maker : bool then fs_maker_bps fs else fs_taker_bps fs)
                  / BPS_DENOMINATOR;
}.

(** ** Specs *)

(** What validation guarantees of a resolved spec. *)
Definition specs_ok (s : ResolvedContractSpecs) : Prop :=
  tick_size_cents s ≠ 0 ∧ lot_size s ≠ 0 ∧ min_price_cents s ≠ 0 ∧ max_order_qty s ≠ 0 ∧
  min_price_cents s ≤ max_price_cents s ≤ DB_DOMAIN_CEILING ∧
  max_order_qty s ≤ DB_DOMAIN_CEILING.

(** Closes [verdict = Ok tt ↔ linear condition] once the verdict is computed. *)
Ltac verdict := split; [intros [=]; lia || (repeat split; lia)
                       |intros; reflexivity || (exfalso; lia)].

Lemma specs_validate_ok s : specs_validate s = Ok tt ↔ specs_ok s.
Proof.
  unfold specs_validate, specs_ok. cbn -[DB_DOMAIN_CEILING].
  destruct (Z.eqb_spec (tick_size_cents s) 0); cbn -[DB_DOMAIN_CEILING]; [verdict|].
  destruct (Z.eqb_spec (lot_size s) 0); cbn -[DB_DOMAIN_CEILING]; [verdict|].
  destruct (Z.eqb_spec (min_price_cents s) 0); cbn -[DB_DOMAIN_CEILING]; [verdict|].
  destruct (Z.eqb_spec (max_order_qty s) 0); cbn -[DB_DOMAIN_CEILING]; [verdict|].
  destruct (Z.ltb_spec DB_DOMAIN_CEILING (max_price_cents s)); cbn -[DB_DOMAIN_CEILING]; [verdict|].
  destruct (Z.ltb_spec DB_DOMAIN_CEILING (max_order_qty s)); cbn -[DB_DOMAIN_CEILING]; [verdict|].
  destruct (Z.ltb_spec (max_price_cents s) (min_price_cents s)); verdict.
Qed.

(** ** Admission *)

(** What an order must satisfy. *)
Definition admissible (s : ResolvedContractSpecs) (limit_price : option Cents) (quantity : Z) :
    Prop :=
  (∀ p, limit_price = Some p →
     min_price_cents s ≤ p ≤ max_price_cents s ∧
     (tick_size_cents s ≠ 0 → p mod tick_size_cents s = 0)) ∧
  (lot_size s ≠ 0 → quantity mod lot_size s = 0) ∧
  quantity ≤ max_order_qty s.

(** The first violated condition, in the order band, tick, lot, maximum. *)
Definition violation (s : ResolvedContractSpecs) (limit_price : option Cents) (quantity : Z)
    (e : OrderAdmissionError) : Prop :=
  match e with
  | PriceBand (BelowMin p m) => limit_price = Some p ∧ m = min_price_cents s ∧ p < m
  | PriceBand (AboveMax p m) =>
      limit_price = Some p ∧ m = max_price_cents s ∧ m < p ∧ min_price_cents s ≤ p
  | OffTick p t =>
      limit_price = Some p ∧ t = tick_size_cents s ∧ t ≠ 0 ∧ p mod t ≠ 0 ∧
      min_price_cents s ≤ p ≤ max_price_cents s
  | OffLot q l => q = quantity ∧ l = lot_size s ∧ l ≠ 0 ∧ q mod l ≠ 0
  | AboveMaxQty q m => q = quantity ∧ m = max_order_qty s ∧ m < q
  end.

(** Order admission is exactly its specification: an order is admitted if and
    only if its limit price, when it has one, lies in the band on the tick, its
    quantity is a multiple of the lot and at most the maximum; and a refusal names
    the first condition that fails with the value and bound it failed on. *)
Theorem admit_order_exact s limit_price quantity :
  (admit_order s limit_price quantity = Ok tt ↔ admissible s limit_price quantity) ∧
  ∀ e, admit_order s limit_price quantity = Err e → violation s limit_price quantity e.
Proof.
  unfold admit_order, admissible, bounds_admit, price_bounds, is_multiple_of.
  assert (∀ q, (if negb (lot_size s =? 0) && negb (if lot_size s =? 0 then q =? 0
      else q mod lot_size s =? 0) then Err (OffLot q (lot_size s))
      else if max_order_qty s <? q then Err (AboveMaxQty q (max_order_qty s)) else Ok tt) = Ok tt
    ↔ (lot_size s ≠ 0 → q mod lot_size s = 0) ∧ q ≤ max_order_qty s) as Hq.
  { intros q. destruct (Z.eqb_spec (lot_size s) 0) as [E|E]; cbn.
    - destruct (Z.ltb_spec (max_order_qty s) q); naive_solver lia.
    - destruct (Z.eqb_spec (q mod lot_size s) 0); cbn; [|naive_solver].
      destruct (Z.ltb_spec (max_order_qty s) q); naive_solver lia. }
  assert (∀ q e, (if negb (lot_size s =? 0) && negb (if lot_size s =? 0 then q =? 0
      else q mod lot_size s =? 0) then Err (OffLot q (lot_size s))
      else if max_order_qty s <? q then Err (AboveMaxQty q (max_order_qty s)) else Ok tt) = Err e
    → violation s limit_price q e) as Hqe.
  { intros q e. destruct (Z.eqb_spec (lot_size s) 0) as [E|E]; cbn.
    - destruct (Z.ltb_spec (max_order_qty s) q); [|done]. intros [= <-]. cbn. lia.
    - destruct (Z.eqb_spec (q mod lot_size s) 0); cbn.
      + destruct (Z.ltb_spec (max_order_qty s) q); [|done]. intros [= <-]. cbn. lia.
      + intros [= <-]. cbn. split_and!; done. }
  destruct limit_price as [p|]; cbn.
  2: { rewrite Hq. split; [naive_solver|]. intros e. apply Hqe. }
  destruct (Z.ltb_spec p (min_price_cents s)); cbn.
  { split; [split; [done|]|intros e [= <-]; cbn; split_and!; [done..|lia]].
    intros (Hp & _). destruct (Hp p eq_refl). lia. }
  destruct (Z.ltb_spec (max_price_cents s) p); cbn.
  { split; [split; [done|]|intros e [= <-]; cbn; split_and!; [done..|lia|lia]].
    intros (Hp & _). destruct (Hp p eq_refl). lia. }
  destruct (Z.eqb_spec (tick_size_cents s) 0) as [E|E]; cbn.
  - rewrite Hq. split; [|intros e; apply Hqe]. split; [|naive_solver].
    intros [? ?]. split; [|done]. intros p' [= <-]. split; [lia|done].
  - destruct (Z.eqb_spec (p mod tick_size_cents s) 0) as [Et|Et]; cbn.
    + rewrite Hq. split; [|intros e; apply Hqe]. split; [|naive_solver].
      intros [? ?]. split; [|done]. intros p' [= <-]. split; [lia|done].
    + split; [split; [done|]|intros e [= <-]; cbn; split_and!; [done..|lia|lia]].
      intros (Hp & _). destruct (Hp p eq_refl) as [_ Ht]. by apply Ht in E.
Qed.

(** ** Resolution *)

Section config.
Context `{Upstream}.

(** A profile that resolved: valid, with its widest notional fee-safe. *)
Definition entry_ok (f : FeeConfig) (s : ResolvedContractSpecs) : Prop :=
  validate_specs_entry f s = Ok tt.

Lemma resolve_over_ok c d s : resolve_over c d = Ok s → specs_validate s = Ok tt.
Proof.
  unfold resolve_over. intros ([] & Hv & [= <-])%bind_Ok. done.
Qed.

Lemma resolve_entry_ok f base c s : resolve_entry f base c = Ok s → entry_ok f s.
Proof.
  unfold resolve_entry, entry_ok, validate_specs_entry.
  intros (s' & Hs & (w & Hw & ([] & Hv & [= ->])%bind_Ok)%bind_Ok)%bind_Ok.
  apply resolve_over_ok in Hs. rewrite Hs. cbn. rewrite Hw. done.
Qed.

Definition entries_ok (f : FeeConfig) (l : list (string * ResolvedContractSpecs)) : Prop :=
  Forall (λ e, entry_ok f e.2) l.

Lemma bt_insert_entries_ok f k s l :
  entry_ok f s → entries_ok f l → entries_ok f (bt_insert String.leb k s l).
Proof.
  intros Hs Hl. apply Forall_forall. intros e [->|He]%bt_insert_elem; [done|].
  unfold entries_ok in Hl. rewrite Forall_forall in Hl. by apply Hl.
Qed.

Lemma resolve_underlyings_ok f d entries acc l :
  entries_ok f acc → resolve_underlyings f d entries acc = Ok l → entries_ok f l.
Proof.
  revert acc. induction entries as [|[k c] entries IH]; intros acc Hacc; cbn.
  { by intros [= <-]. }
  destruct (is_ok (parse_symbol k)); [by apply IH|].
  intros (s & Hs & Hl)%bind_Ok. eapply IH; [|done].
  apply bt_insert_entries_ok; [|done]. exact (resolve_entry_ok _ _ _ _ Hs).
Qed.

Lemma resolve_symbols_ok f d pu entries acc l :
  entries_ok f acc → resolve_symbols f d pu entries acc = Ok l → entries_ok f l.
Proof.
  revert acc. induction entries as [|[k c] entries IH]; intros acc Hacc; cbn.
  { by intros [= <-]. }
  destruct (parse_symbol k) as [parsed|]; [|by apply IH].
  intros (s & Hs & Hl)%bind_Ok. eapply IH; [|done].
  apply bt_insert_entries_ok; [|done]. exact (resolve_entry_ok _ _ _ _ Hs).
Qed.

Lemma validate_specs_entries_ok f l : entries_ok f l → validate_specs_entries f l = Ok tt.
Proof.
  induction 1 as [|[k s] l Hs Hl IH]; [done|]. cbn [validate_specs_entries].
  unfold entry_ok in Hs. cbn [snd] in Hs.
  rewrite Hs. exact IH.
Qed.

Lemma latency_resolve_ok l c : latency_resolve l = Ok c → latency_validate c = Ok tt.
Proof.
  unfold latency_resolve. destruct (fl_model l).
  - by intros (us & _ & [= <-])%bind_Ok.
  - intros (mn & _ & (mx & _ & (mn' & Hmn & (mx' & Hmx & Hc)%bind_Ok)%bind_Ok)%bind_Ok)%bind_Ok.
    unfold check_micros in *. simp_narrow.
    destruct (Z.ltb_spec mx mn); [done|]. injection Hc as <-. cbn.
    destruct (Z.ltb_spec mx mn); [lia|done].
  - intros (us & _ & (sg & Hs & [= <-])%bind_Ok)%bind_Ok. unfold sigma_param in Hs.
    apply bind_Ok in Hs as (sg' & _ & ([] & Hc & [= <-])%bind_Ok). done.
  - intros (us & _ & (sg & Hs & [= <-])%bind_Ok)%bind_Ok. unfold sigma_param in Hs.
    apply bind_Ok in Hs as (sg' & _ & ([] & Hc & [= <-])%bind_Ok). done.
Qed.

(** What resolution leaves behind. *)
Lemma resolve_config_parts file specs c :
  resolve_config file specs = Ok c →
  fees_validate (fees c) = Ok tt ∧ latency_validate (latency c) = Ok tt ∧
  entry_ok (fees c) (default_specs c) ∧ entries_ok (fees c) (per_underlying c) ∧
  entries_ok (fees c) (per_symbol c).
Proof.
  unfold resolve_config.
  intros ([] & Hf & (lat & Hlat & (d & Hd & (w & Hw & ([] & Hb & (pu & Hpu & (psy & Hps &
    [= <-])%bind_Ok)%bind_Ok)%bind_Ok)%bind_Ok)%bind_Ok)%bind_Ok)%bind_Ok. cbn.
  split_and!.
  - done.
  - destruct (file_latency file) as [l|]; [|by injection Hlat as <-].
    apply map_err_Ok in Hlat. by eapply latency_resolve_ok.
  - unfold entry_ok, validate_specs_entry. apply resolve_over_ok in Hd.
    rewrite Hd. cbn. rewrite Hw. done.
  - eapply resolve_underlyings_ok; [constructor|done].
  - eapply resolve_symbols_ok; [constructor|done].
Qed.

Lemma specs_for_symbol_ok f c symbol :
  entry_ok f (default_specs c) → entries_ok f (per_underlying c) →
  entries_ok f (per_symbol c) → entry_ok f (specs_for_symbol c symbol).
Proof.
  intros Hd Hu Hs. unfold entries_ok in *. rewrite Forall_forall in Hu, Hs.
  assert (∀ u, entry_ok f (specs_for c u)) as Hfor.
  { intros u. unfold specs_for. destruct (bt_get u (per_underlying c)) as [s|] eqn:E; [|done].
    apply bt_get_elem in E. apply (Hu _ E). }
  unfold specs_for_symbol. destruct (bt_get symbol (per_symbol c)) as [s|] eqn:E.
  - apply bt_get_elem in E. apply (Hs _ E).
  - by destruct (parse_symbol symbol).
Qed.

(** A resolved configuration is self-consistent: it passes its own
    re-validation, its taker fee is never a rebate, and the profile it serves for
    any symbol, through the symbol, underlying, venue-default fallback, has
    non-zero tick, lot, minimum price and maximum quantity, an ordered price band
    and knobs within the durable integer range. *)
Theorem resolved_config_validates file specs c symbol :
  resolve_config file specs = Ok c →
  config_validate c = Ok tt ∧ 0 ≤ taker_bps (fees c) ∧ specs_ok (specs_for_symbol c symbol).
Proof.
  intros Hc. destruct (resolve_config_parts _ _ _ Hc) as (Hf & Hl & Hd & Hu & Hs).
  split_and!.
  - unfold config_validate, mbind, result_bind. rewrite Hf, Hl. cbn [map_err].
    unfold entry_ok in Hd. rewrite Hd, (validate_specs_entries_ok _ _ Hu).
    by apply validate_specs_entries_ok.
  - unfold fees_validate in Hf. destruct (Z.ltb_spec (taker_bps (fees c)) 0); [done|lia].
  - pose proof (specs_for_symbol_ok (fees c) c symbol Hd Hu Hs) as He.
    unfold entry_ok, validate_specs_entry in He. apply bind_Ok in He as ([] & Hv & _).
    by apply specs_validate_ok.
Qed.

End config.

(** ** Concrete configurations *)

#[export] Instance SampleFeeLaws : FeeLaws (H := SampleUpstream).
Proof.
  split. intros fs notional maker [H0 H]. cbn [calculate_fee SampleUpstream].
  cbn [max_guaranteed_exact_notional SampleUpstream] in H.
  set (b := if maker then fs_maker_bps fs else fs_taker_bps fs).
  set (m := Z.max (Z.abs (fs_maker_bps fs)) (Z.abs (fs_taker_bps fs))) in H.
  assert (Z.abs b ≤ m) as Hb by (subst b m; destruct maker; lia).
  assert (notional * Z.max 1 m ≤ 2 ^ 127 - 1) as Hn.
  { etransitivity; [apply Z.mul_le_mono_nonneg_r; [lia|exact H]|].
    rewrite Z.mul_comm. apply Z.mul_div_le. lia. }
  exists (Z.quot (notional * b) 10000). unfold sample_fee. fold b.
  assert (has_ty i128 (notional * b)) as Ht.
  { assert (Z.abs (notional * b) ≤ notional * Z.max 1 m) by (rewrite Z.abs_mul; nia).
    unfold_int. lia. }
  apply fits_spec in Ht. rewrite Ht. split; [done|].
  unfold BPS_DENOMINATOR. rewrite <-Z.quot_abs by done.
  rewrite Z.quot_div_nonneg by lia. by rewrite Z.abs_mul, (Z.abs_eq notional).
Qed.

Definition sample_file : FileMicrostructure :=
  {| file_fees := Some {| maker_bps := -2; taker_bps := 5 |}; file_stp := Some CfgCancelTaker;
     file_specs := None;
     file_latency := Some {| fl_model := ModelUniform; fl_us := None; fl_min_us := Some 10;
       fl_max_us := Some 40; fl_mean_us := None; fl_median_us := None; fl_sigma := None |} |}.

(** An underlying's tick, refined for one of its symbols. *)
Definition sample_specs : list (string * ContractSpecsConfig) :=
  [(btc_call, {| cfg_tick_size_cents := None; cfg_lot_size := Some 10;
                 cfg_min_price_cents := None; cfg_max_price_cents := None;
                 cfg_max_order_qty := Some 500 |});
   ("BTC", {| cfg_tick_size_cents := Some 5; cfg_lot_size := None;
              cfg_min_price_cents := Some 5; cfg_max_price_cents := None;
              cfg_max_order_qty := None |})].

Definition sample_config : MicrostructureConfig :=
  match resolve_config sample_file sample_specs with
  | Ok c => c
  | Err _ => MicrostructureConfig_default
  end.

Lemma sample_config_resolves : resolve_config sample_file sample_specs = Ok sample_config.
Proof. vm_compute. reflexivity. Qed.

(** The symbol entry inherits the underlying's tick and floor whatever the order of
    the entries. *)
Example sample_config_profile :
  specs_for_symbol sample_config btc_call =
    {| tick_size_cents := 5; lot_size := 10; min_price_cents := 5;
       max_price_cents := 100_000_000; max_order_qty := 500 |}.
Proof. vm_compute. reflexivity. Qed.

Lemma resolved_config_validates_witness :
  specs_ok (specs_for_symbol sample_config btc_call).
Proof.
  apply (resolved_config_validates sample_file sample_specs sample_config btc_call
    sample_config_resolves).
Defined.

