(* ===== verification/JournalProps.v ===== *)
(** Properties of the in-memory journal over a whole history of appends: it stores
    at most one record per sequence and kind, appending is idempotent, a conflicting
    record is refused, and reads return the accepted records in append order; and of the
    client-order-id index over a stream of committed commands. *)

From S2P Require Export Journal ClOrdIdIndex.
From S2P Require Import SampleBook.

(** ** Record equality is a partial equivalence *)

Lemma f64_eqb_spec a b :
  f64_eqb a b = true ↔ f64_is_nan a = false ∧ f64_is_nan b = false ∧ f64_ord a = f64_ord b.
Proof.
  unfold f64_eqb, f64_leb. destruct (f64_is_nan a), (f64_is_nan b); cbn;
    rewrite ?andb_false_r, ?andb_true_iff, ?Z.leb_le; (split; [intros; try done|]).
  - intros (? & _); done.
  - by intros [? _].
  - by intros (_ & ? & _).
  - split_and!; [done..|lia].
  - intros (_ & _ & E). lia.
Qed.

Lemma option_f64_eqb_sym a b : option_f64_eqb a b = option_f64_eqb b a.
Proof. destruct a, b; cbn; [|done..]. unfold f64_eqb. apply andb_comm. Qed.

Lemma option_f64_eqb_trans a b c :
  option_f64_eqb a b = true → option_f64_eqb b c = true → option_f64_eqb a c = true.
Proof.
  destruct a, b, c; cbn; try done. rewrite !f64_eqb_spec. intros (? & ? & ?) (? & ? & ?).
  split_and!; congruence.
Qed.

Lemma bool_decide_sym `{EqDecision A} (a b : A) : bool_decide (a = b) = bool_decide (b = a).
Proof. apply bool_decide_ext. split; by intros. Qed.

Lemma command_eqb_sym a b : command_eqb a b = command_eqb b a.
Proof.
  destruct a, b; try apply bool_decide_sym. cbn.
  rewrite (option_f64_eqb_sym spread_multiplier), (option_f64_eqb_sym size_scalar),
    (option_f64_eqb_sym directional_skew), (bool_decide_sym enabled). done.
Qed.

Lemma command_eqb_control a b :
  command_eqb a b = true → a = b ∨
  ∃ s1 z1 d1 e1 s2 z2 d2 e2, a = MarketMakerControl s1 z1 d1 e1 ∧ b = MarketMakerControl s2 z2 d2 e2.
Proof.
  destruct a, b; cbn; intros H;
    try (left; by apply bool_decide_eq_true in H). right. by eauto 12.
Qed.

Lemma command_eqb_trans a b c :
  command_eqb a b = true → command_eqb b c = true → command_eqb a c = true.
Proof.
  intros H1 H2. destruct (command_eqb_control a b H1) as [->|H3]; [done|].
  destruct (command_eqb_control b c H2) as [<-|H4]; [done|].
  destruct H3 as (s1 & z1 & d1 & e1 & s2 & z2 & d2 & e2 & -> & ->).
  destruct H4 as (s3 & z3 & d3 & e3 & s4 & z4 & d4 & e4 & [= -> -> -> ->] & ->).
  cbn in *. rewrite !andb_true_iff, !bool_decide_eq_true in *.
  destruct H1 as (((? & ?) & ?) & ->), H2 as (((? & ?) & ?) & ->).
  split_and!; [by eapply option_f64_eqb_trans..|done].
Qed.

Lemma record_eqb_sym a b : record_eqb a b = record_eqb b a.
Proof.
  destruct a as [[]|[]|], b as [[]|[]|]; cbn; try done.
  - by rewrite (Z.eqb_sym jc_sequence), (Z.eqb_sym jc_venue_ts), command_eqb_sym.
  - unfold event_eqb. cbn. by rewrite (String.eqb_sym ev_schema),
      (Z.eqb_sym ev_underlying_sequence), (Z.eqb_sym ev_venue_ts), command_eqb_sym,
      (bool_decide_sym ev_outcome).
  - apply bool_decide_sym.
Qed.

Lemma record_eqb_trans a b c :
  record_eqb a b = true → record_eqb b c = true → record_eqb a c = true.
Proof.
  destruct a as [[]|[]|], b as [[]|[]|], c as [[]|[]|]; cbn; try done.
  - rewrite !andb_true_iff, !Z.eqb_eq. intros ((-> & ->) & ?) ((-> & ->) & ?).
    split_and!; [done..|by eapply command_eqb_trans].
  - unfold event_eqb. cbn. rewrite !andb_true_iff, !Z.eqb_eq, !String.eqb_eq, !bool_decide_eq_true.
    intros ((((-> & ->) & ->) & ?) & ->) ((((-> & ->) & ->) & ?) & ->).
    split_and!; try done. by eapply command_eqb_trans.
  - rewrite !bool_decide_eq_true. by intros -> ->.
Qed.

(** ** Histories *)

Section history.
Context `{Serde}.

Definition im_run (h : JournalHeader) (rs : list JournalRecord) : InMemoryVenueJournal :=
  foldl (λ j r, (im_append j r).1) (InMemoryVenueJournal_new h) rs.

Lemma im_run_snoc h rs r : im_run h (rs ++ [r]) = (im_append (im_run h rs) r).1.
Proof. unfold im_run. by rewrite foldl_app. Qed.

Lemma im_run_wf h rs : im_wf (im_run h rs).
Proof.
  induction rs as [|r rs IH] using rev_ind; [apply im_wf_new|].
  rewrite im_run_snoc. by apply im_append_wf.
Qed.

(** The specification: the records of the history that are small enough, the first
    of each key, in order. *)
Fixpoint accepted (seen : list (SequenceNumber * RecordKind)) (rs : list JournalRecord) :
    list JournalRecord :=
  match rs with
  | [] => []
  | r :: rs =>
      if is_ok (check_record_size r) && negb (bool_decide (record_key r ∈ seen))
      then r :: accepted (record_key r :: seen) rs
      else accepted seen rs
  end.

Lemma accepted_perm rs seen seen' :
  (∀ k, k ∈ seen ↔ k ∈ seen') → accepted seen rs = accepted seen' rs.
Proof.
  revert seen seen'. induction rs as [|r rs IH]; intros seen seen' Hs; [done|]. cbn.
  rewrite (bool_decide_ext (record_key r ∈ seen) (record_key r ∈ seen')) by apply Hs.
  case_match; [|by apply IH]. f_equal. apply IH. intros k. by rewrite !elem_of_cons, Hs.
Qed.

Lemma run_from_accepted j rs : im_wf j →
  im_records (foldl (λ j r, (im_append j r).1) j rs) =
    im_records j ++ accepted (record_key <$> im_records j) rs.
Proof.
  revert j. induction rs as [|r rs IH]; intros j Hj; cbn [foldl accepted].
  { by rewrite app_nil_r. }
  rewrite IH by by apply im_append_wf.
  destruct (check_record_size r) as [[]|e] eqn:Hs; cbn [is_ok andb].
  2: { unfold im_append. by rewrite Hs. }
  destruct (im_index j !! record_key r) as [i|] eqn:Hi.
  - rewrite bool_decide_eq_true_2; cbn [negb].
    + unfold im_append. rewrite Hs. unfold record_key in Hi. rewrite Hi. by case_match.
    + apply Hj in Hi as (r' & Hr' & <-). apply list_elem_of_fmap. exists r'.
      split; [done|]. by eapply list_elem_of_lookup_2.
  - rewrite im_append_fresh by done. cbn [fst im_records].
    rewrite bool_decide_eq_false_2 by by apply im_index_None. cbn [negb].
    rewrite <-app_assoc. f_equal. cbn. f_equal. apply accepted_perm. intros k.
    rewrite fmap_app, elem_of_app. cbn. rewrite list_elem_of_singleton, elem_of_cons. tauto.
Qed.

(** Appending to a journal that already holds the key. *)
Lemma im_append_known j r s :
  im_wf j → s ∈ im_records j → record_key s = record_key r → check_record_size r = Ok tt →
  im_append j r =
    (j, if record_eqb s r then Ok tt else Err (Conflict (record_sequence r) (record_kind r))).
Proof.
  intros Hj [i Hi]%list_elem_of_lookup Hk Hs. unfold im_append. rewrite Hs.
  assert (im_index j !! (record_sequence r, record_kind r) = Some i) as ->.
  { apply Hj. exists s. done. }
  rewrite Hi. by case_match.
Qed.

Lemma im_append_ok_size j r : (im_append j r).2 = Ok tt → check_record_size r = Ok tt.
Proof. unfold im_append. destruct (check_record_size r) as [[]|]; done. Qed.

(** The journal over any history of appends: it holds, in append order,
    exactly the first acceptable record of each sequence and kind; after an append
    succeeds, appending the same record again succeeds and changes nothing, and any
    other record of that sequence and kind that is not too large is refused as a
    conflict and changes nothing; and a refused append never changes the journal. *)
Theorem journal_append_idempotent h rs r :
  record_no_nan r →
  let j := im_run h rs in
  im_records j = accepted [] rs ∧ NoDup (record_key <$> im_records j) ∧
  (∀ e, (im_append j r).2 = Err e → (im_append j r).1 = j) ∧
  ((im_append j r).2 = Ok tt →
   let j' := (im_append j r).1 in
   im_append j' r = (j', Ok tt) ∧
   ∀ r', record_key r' = record_key r → check_record_size r' = Ok tt →
     record_eqb r r' = false →
     im_append j' r' = (j', Err (Conflict (record_sequence r) (record_kind r)))).
Proof.
  intros Hn j. pose proof (im_run_wf h rs : im_wf j) as Hj. split_and!.
  - apply (run_from_accepted (InMemoryVenueJournal_new h)), im_wf_new.
  - by apply im_wf_NoDup.
  - intros e. apply im_append_err_unchanged.
  - intros Hok j'. pose proof (im_append_wf j r Hj : im_wf j') as Hj'.
    destruct (im_append_ok_stored j r Hj Hn Hok) as (i & s & Hs & Heq & _).
    fold j' in Hs. apply list_elem_of_lookup_2 in Hs as Hin.
    pose proof (record_eqb_key _ _ Heq) as Hk. split.
    + rewrite (im_append_known j' r s); [by rewrite Heq|done..|]. by eapply im_append_ok_size.
    + intros r' Hk' Hs' Hne. rewrite (im_append_known j' r' s); [|done|done|congruence|done].
      destruct (record_eqb s r') eqn:E.
      * rewrite record_eqb_sym in Heq. by rewrite (record_eqb_trans r s r') in Hne.
      * unfold record_key in Hk'. by injection Hk' as -> ->.
Qed.
End history.

Lemma journal_append_idempotent_witness :
  let c := command_record 0 10 (Clock 10) in
  let j := im_run (JournalHeader_new "l") [c; command_record 1 11 (Clock 11); c] in
  im_append j (command_record 1 11 (Clock 12)) = (j, Err (Conflict 1 KCommand)).
Proof.
  destruct (journal_append_idempotent (JournalHeader_new "l")
    [command_record 0 10 (Clock 10); command_record 1 11 (Clock 11); command_record 0 10 (Clock 10)]
    (command_record 1 11 (Clock 11)) I) as (_ & _ & _ & H).
  destruct (H eq_refl) as [_ Hc]. exact (Hc (command_record 1 11 (Clock 12)) eq_refl eq_refl eq_refl).
Defined.

(** * The client-order-id index *)

(** ** The specification: the last accepted publication not since retired *)

(** The correlation a committed command publishes. *)
Definition published (s : SequenceNumber) (c : VenueCommand) (o : VenueOutcome) :
    option ((AccountId * ClientOrderId) * ClOrdIdRecord) :=
  match c, o with
  | AddOrder symbol id a _ (Some d) side _ _ q _ _, (Added _ _ _ | MarketDone _ _ _) =>
      Some ((a, d), {| cr_order_id := id; cr_symbol := symbol; cr_side := side;
                       cr_quantity := q; cr_sequence := s |})
  | Replace symbol _ id a (Some d) _ side _ q _ _, Replaced _ (AddFilled _ _ | AddRested _ _ _) =>
      Some ((a, d), {| cr_order_id := id; cr_symbol := symbol; cr_side := side;
                       cr_quantity := q; cr_sequence := s |})
  | _, _ => None
  end.

(** The correlation a committed command retires. *)
Definition retired (c : VenueCommand) (o : VenueOutcome) : option (AccountId * ClientOrderId) :=
  match c, o with
  | Replace _ _ _ a _ (Some orig) _ _ _ _ _, Replaced true _ => Some (a, orig)
  | _, _ => None
  end.

Notation Committed := (SequenceNumber * VenueCommand * VenueOutcome)%type.
Notation Correlations := (gmap (AccountId * ClientOrderId) ClOrdIdRecord).

Definition drop_key (k : option (AccountId * ClientOrderId)) (m : Correlations) : Correlations :=
  match k with Some k => delete k m | None => m end.
Definition put_key (p : option ((AccountId * ClientOrderId) * ClOrdIdRecord)) (m : Correlations) :
    Correlations :=
  match p with Some (k, r) => <[k := r]> m | None => m end.

(** An unbounded map updated in stream order. *)
Definition correlate (m : Correlations) (e : Committed) : Correlations :=
  let '(s, c, o) := e in put_key (published s c o) (drop_key (retired c o) m).
Definition correlations (log : list Committed) : Correlations := foldl correlate ∅ log.

(** The number of publications of a stream. *)
Definition publication (e : Committed) : Z :=
  let '(s, c, o) := e in match published s c o with Some _ => 1 | None => 0 end.
Definition publications (log : list Committed) : Z := sum_Z (publication <$> log).

(** ** One step *)

(** The index's step is a retirement followed by a bounded publication. *)
Definition retire_opt (x : ClOrdIdIndex) (k : option (AccountId * ClientOrderId)) : ClOrdIdIndex :=
  match k with Some (a, d) => retire x a d | None => x end.
Definition record_opt (x : ClOrdIdIndex)
    (p : option ((AccountId * ClientOrderId) * ClOrdIdRecord)) : ClOrdIdIndex :=
  match p with Some ((a, d), r) => record_or_warn x a d r | None => x end.

Lemma apply_correlation_steps x s c o :
  apply_committed_correlation x s c o =
    record_opt (retire_opt x (retired c o)) (published s c o).
Proof.
  destruct c; try done; cbn.
  - destruct client_order_id; by destruct o.
  - destruct o; try (by destruct client_order_id, orig_client_order_id).
    destruct cancelled, orig_client_order_id, client_order_id; by destruct add.
Qed.

Lemma retire_opt_map x k : ci_map (retire_opt x k) = drop_key k (ci_map x).
Proof.
  destruct k as [[a d]|]; [|done]. cbn. unfold retire.
  destruct (ci_map x !! (a, d)) eqn:E; [|by rewrite delete_id].
  by case_match.
Qed.

Lemma retire_opt_ceilings x k :
  ci_max_entries (retire_opt x k) = ci_max_entries x ∧
  ci_max_per_account (retire_opt x k) = ci_max_per_account x.
Proof. destruct k as [[a d]|]; [|done]. cbn. unfold retire. by repeat case_match. Qed.

Lemma record_opt_ceilings x p :
  ci_max_entries (record_opt x p) = ci_max_entries x ∧
  ci_max_per_account (record_opt x p) = ci_max_per_account x.
Proof.
  destruct p as [[[a d] r]|]; [|done]. cbn. unfold record_or_warn, ci_record.
  by repeat case_match.
Qed.

(** A publication under capacity is stored; at capacity it changes nothing unless
    it overwrites its own key. *)
Lemma record_opt_map x p :
  ci_map (record_opt x p) = put_key p (ci_map x) ∨
  ci_map (record_opt x p) = ci_map x ∧ ∃ k r, p = Some (k, r) ∧ ci_map x !! k = None.
Proof.
  destruct p as [[[a d] r]|]; [|by left]. cbn. unfold record_or_warn, ci_record.
  destruct (ci_map x !! (a, d)) eqn:E; [by left|].
  repeat case_match; by eauto 6.
Qed.

Lemma record_opt_room x p :
  index_wf x → ci_max_per_account x ≤ int_max usize →
  ci_len x < ci_max_entries x → ci_len x < ci_max_per_account x →
  ci_map (record_opt x p) = put_key p (ci_map x).
Proof.
  intros Hwf Hu H1 H2. destruct p as [[[a d] r]|]; [|done]. cbn.
  unfold record_or_warn, ci_record. destruct (ci_map x !! (a, d)); [done|].
  destruct (Z.leb_spec (ci_max_entries x) (ci_len x)); [lia|].
  pose proof (account_entries_le (ci_map x) a) as Hle.
  assert (0 ≤ account_entries (ci_map x) a) by (unfold account_entries; lia).
  rewrite (wf_count _ Hwf a). unfold ci_len in *.
  destruct (Z.leb_spec (ci_max_per_account x) (account_entries (ci_map x) a)); [lia|].
  unfold checked_add. rewrite narrow_fits; [done|]. unfold_int. lia.
Qed.

Lemma put_key_size p m : (size (put_key p m) ≤ size m + (if p then 1 else 0))%nat.
Proof.
  destruct p as [[k r]|]; cbn; [|lia]. rewrite map_size_insert. case_match; cbn; lia.
Qed.

Lemma drop_key_size k m : (size (drop_key k m) ≤ size m)%nat.
Proof. destruct k as [k|]; cbn; [|lia]. rewrite map_size_delete. case_match; cbn; lia. Qed.

Lemma publications_snoc log e : publications (log ++ [e]) = publications log + publication e.
Proof. unfold publications. rewrite fmap_app, sum_Z_app. cbn. lia. Qed.

Lemma publication_nonneg e : 0 ≤ publication e.
Proof. destruct e as [[s c] o]. cbn. case_match; lia. Qed.

Section stream.
Context (max_entries max_per_account : Z).

Local Notation served log := (apply_committed (with_ceilings max_entries max_per_account) log).

Lemma served_snoc log s c o :
  served (log ++ [(s, c, o)]) = apply_committed_correlation (served log) s c o.
Proof. unfold apply_committed. by rewrite foldl_app. Qed.

Lemma correlations_snoc log e : correlations (log ++ [e]) = correlate (correlations log) e.
Proof. unfold correlations. by rewrite foldl_app. Qed.

Lemma served_ceilings log :
  ci_max_entries (served log) = max_entries ∧
  ci_max_per_account (served log) = Z.min max_per_account max_entries.
Proof.
  induction log as [|[[s c] o] log [IH1 IH2]] using rev_ind; [done|].
  rewrite served_snoc, apply_correlation_steps.
  destruct (record_opt_ceilings (retire_opt (served log) (retired c o)) (published s c o))
    as [-> ->].
  by destruct (retire_opt_ceilings (served log) (retired c o)) as [-> ->].
Qed.

Lemma served_wf log : 0 ≤ max_entries → 0 ≤ max_per_account → index_wf (served log).
Proof.
  intros H1 H2. induction log as [|[[s c] o] log IH] using rev_ind.
  - by apply index_wf_new.
  - rewrite served_snoc. by apply apply_correlation_wf.
Qed.

Lemma served_subset log : ci_map (served log) ⊆ correlations log.
Proof.
  induction log as [|[[s c] o] log IH] using rev_ind; [done|].
  rewrite served_snoc, correlations_snoc, apply_correlation_steps. cbn [correlate].
  assert (ci_map (retire_opt (served log) (retired c o)) ⊆
    drop_key (retired c o) (correlations log)) as Hr.
  { rewrite retire_opt_map. destruct (retired c o); [|done]. by apply delete_mono. }
  destruct (record_opt_map (retire_opt (served log) (retired c o)) (published s c o))
    as [->|[-> (k & r & Hp & Hk)]].
  - destruct (published s c o) as [[k r]|]; [|done]. by apply insert_mono.
  - rewrite Hp. cbn. etransitivity; [|by apply insert_mono].
    by apply insert_subseteq.
Qed.

Lemma correlations_size log : Z.of_nat (size (correlations log)) ≤ publications log.
Proof.
  induction log as [|[[s c] o] log IH] using rev_ind; [done|].
  rewrite correlations_snoc, publications_snoc. cbn [correlate publication].
  pose proof (put_key_size (published s c o) (drop_key (retired c o) (correlations log))).
  pose proof (drop_key_size (retired c o) (correlations log)).
  destruct (published s c o); lia.
Qed.

Lemma served_exact log :
  0 ≤ max_entries ≤ int_max usize → publications log ≤ max_entries →
  publications log ≤ max_per_account → ci_map (served log) = correlations log.
Proof.
  intros [H0 Hu]. induction log as [|[[s c] o] log IH] using rev_ind; [done|].
  rewrite publications_snoc. intros Hm Ha.
  pose proof (publication_nonneg (s, c, o)) as Hn.
  pose proof (correlations_size log) as Hsz.
  rewrite served_snoc, correlations_snoc, apply_correlation_steps. cbn [correlate].
  specialize (IH ltac:(lia) ltac:(lia)).
  cbn [publication] in Hm, Ha, Hn. destruct (published s c o) as [p|] eqn:Hp.
  2: { cbn. by rewrite retire_opt_map, IH. }
  pose proof (drop_key_size (retired c o) (correlations log)).
  destruct (served_ceilings log) as [E1 E2].
  destruct (retire_opt_ceilings (served log) (retired c o)) as [E3 E4].
  assert (ci_len (retire_opt (served log) (retired c o)) ≤ publications log) as Hlen.
  { unfold ci_len. rewrite retire_opt_map, IH. lia. }
  rewrite record_opt_room; [by rewrite retire_opt_map, IH| |rewrite E4, E2; lia
    |rewrite E3, E1; lia|rewrite E4, E2; lia].
  destruct (retired c o) as [[a d]|]; [apply retire_wf|]; apply served_wf; lia.
Qed.
End stream.

(** C16. The client-order-id index refines its specification over every stream of
    committed commands: the per-account counters count exactly the entries and both
    ceilings hold; what it resolves is always the last publication of that key not
    since retired, so a ceiling can lose a correlation but never serve a stale or
    foreign one; and while the publications fit the ceilings it loses none. *)
Theorem correlation_index_exact max_entries max_per_account log :
  0 ≤ max_entries ≤ int_max usize → 0 ≤ max_per_account →
  let x := apply_committed (with_ceilings max_entries max_per_account) log in
  index_wf x ∧
  (∀ a d r, resolve x a d = Some r → correlations log !! (a, d) = Some r) ∧
  (publications log ≤ max_entries → publications log ≤ max_per_account →
   ∀ a d, resolve x a d = correlations log !! (a, d)).
Proof.
  intros Hm Ha x. split_and!.
  - apply served_wf; lia.
  - intros a d r Hr. exact (lookup_weaken _ _ _ _ Hr (served_subset _ _ log)).
  - intros H1 H2 a d. unfold resolve. subst x. by rewrite served_exact.
Qed.

(** Bob publishes, replaces under a new id and so retires the first. *)
Definition sample_log : list Committed :=
  [(0, limit_add btc_call "v0" "bob" 2 (Some "b-1") Buy 100 3, Added [] 3 []);
   (1, limit_add btc_call "v1" "carol" 3 (Some "b-1") Buy 90 1, Rejected InvalidOrder "no");
   (2, Replace btc_call "v0" "v2" "bob" (Some "b-2") (Some "b-1") Buy (Some 101) 2 Gtc StpNone,
       Replaced true (AddRested [] 2 []))].

Lemma correlation_index_exact_witness :
  let x := apply_committed (with_ceilings 2 2) sample_log in
  index_wf x ∧ resolve x "bob" "b-1" = None ∧
  resolve x "bob" "b-2" = correlations sample_log !! ("bob", "b-2").
Proof.
  assert (0 ≤ 2 ≤ int_max usize) as H1 by (vm_compute; split; intros [=]).
  assert (0 ≤ 2) as H2 by lia.
  assert (publications sample_log ≤ 2) as H3 by (vm_compute; intros [=]).
  destruct (correlation_index_exact 2 2 sample_log H1 H2) as (Hwf & _ & He).
  split; [exact Hwf|]. split; [|exact (He H3 H3 "bob" "b-2")].
  rewrite (He H3 H3 "bob" "b-1"). reflexivity.
Defined.

(** At the ceiling the new key is lost, the old one still served. *)
Example ceiling_drops_new_key :
  let log := [(0, limit_add btc_call "v0" "bob" 2 (Some "b-1") Buy 100 3, Added [] 3 []);
              (1, limit_add btc_call "v1" "bob" 2 (Some "b-2") Buy 90 1, Added [] 1 [])] in
  let x := apply_committed (with_ceilings 1 5) log in
  resolve x "bob" "b-2" = None ∧ cr_order_id <$> resolve x "bob" "b-1" = Some "v0".
Proof. by vm_compute. Qed.
