(* ===== verification/FixText.v ===== *)
(** Text of the FIX gateway: the byte-level pieces of the Rust standard library the
    gateway uses (UTF-8 validation, unsigned integer parsing, zero-padded
    formatting), the checked digit fold of [src/src/gateway/fix/price.rs] and the
    bounded echo of untrusted values of [limits.rs]. *)

From Stdlib Require Export Ascii.
From S2P Require Export Envelope.

(** ** Bytes *)

(** A [&str] or [&\[u8\]] is a byte string; its bytes are [ascii] values. *)
Notation bytes := String.list_ascii_of_string (only parsing).
Notation text := String.string_of_list_ascii (only parsing).

Definition code (b : ascii) : Z := Z.of_N (N_of_ascii b).
Definition is_digit (b : ascii) : bool := (48 <=? code b) && (code b <=? 57).
Definition digit_value (b : ascii) : Z := code b - 48.

Lemma bytes_app a b : bytes (a +:+ b) = bytes a ++ bytes b.
Proof.
  induction a as [|c a IH]; [done|].
  change (String c a +:+ b) with (String c (a +:+ b)). cbn. by rewrite IH.
Qed.

Lemma bytes_length s : length (bytes s) = String.length s.
Proof. induction s; cbn; congruence. Qed.

(** ** Digits *)

(** [fold_digits]: checked in u128, [None] on a non-digit or an overflow. *)
Fixpoint fold_digits_go (l : list ascii) (acc : Z) : option Z :=
  match l with
  | [] => Some acc
  | b :: l =>
      if negb (is_digit b) then None
      else
        scaled ← checked_mul u128 acc 10;
        acc ← checked_add u128 scaled (digit_value b);
        fold_digits_go l acc
  end.
Definition fold_digits (l : list ascii) : option Z := fold_digits_go l 0.

(** The number a digit string denotes. *)
Definition num_go (acc : Z) (l : list ascii) : Z :=
  foldl (λ acc b, 10 * acc + digit_value b) acc l.
Definition num (l : list ascii) : Z := num_go 0 l.

(** [str::parse] of an unsigned integer type: an optional plus sign, then at least
    one digit, in range. *)
Definition parse_uint (t : int_ty) (s : string) : option Z :=
  let digits := match bytes s with
                | b :: (_ :: _) as l => if code b =? 43 then l else b :: l
                | l => l
                end in
  match digits with
  | [] => None
  | _ => if forallb is_digit digits then narrow t (num digits) else None
  end.

(** ** UTF-8 ([str::from_utf8]) *)

Definition continuation (b : ascii) : bool := (128 <=? code b) && (code b <=? 191).
Definition between (lo hi : Z) (b : ascii) : bool := (lo <=? code b) && (code b <=? hi).

Fixpoint utf8_go (fuel : nat) (l : list ascii) : bool :=
  match fuel, l with
  | _, [] => true
  | O, _ => false
  | S fuel, b :: l =>
      if code b <? 128 then utf8_go fuel l
      else
        match l with
        | b1 :: l1 =>
            if between 194 223 b then continuation b1 && utf8_go fuel l1
            else
              match l1 with
              | b2 :: l2 =>
                  if between 224 239 b then
                    (if code b =? 224 then between 160 191 b1
                     else if code b =? 237 then between 128 159 b1 else continuation b1)
                    && continuation b2 && utf8_go fuel l2
                  else
                    match l2 with
                    | b3 :: l3 =>
                        between 240 244 b
                        && (if code b =? 240 then between 144 191 b1
                            else if code b =? 244 then between 128 143 b1 else continuation b1)
                        && continuation b2 && continuation b3 && utf8_go fuel l3
                    | [] => false
                    end
              | [] => false
              end
        | [] => false
        end
  end.
Definition utf8_valid (s : string) : bool := utf8_go (String.length s) (bytes s).

(** ** Bounded echo ([limits.rs]) *)

Definition MAX_UNTRUSTED_SNIPPET_BYTES : nat := 64.

(** [str::is_char_boundary]: the ends, and every byte that is not a continuation. *)
Definition is_char_boundary (l : list ascii) (i : nat) : bool :=
  match i with
  | O => true
  | _ => match l !! i with
         | Some b => negb (continuation b)
         | None => bool_decide (i = length l)
         end
  end.

Fixpoint char_boundary_below (l : list ascii) (end_ : nat) : nat :=
  match end_ with
  | O => O
  | S n => if is_char_boundary l end_ then end_ else char_boundary_below l n
  end.

Definition truncate_untrusted (value : string) : string :=
  if (String.length value <=? MAX_UNTRUSTED_SNIPPET_BYTES)%nat then value
  else
    let l := bytes value in
    text (take (char_boundary_below l MAX_UNTRUSTED_SNIPPET_BYTES) l) +:+ "...".

(** ** Formatting *)

(** [{:0w$}] of an unsigned integer. *)
Definition pad_dec (w : nat) (n : Z) : string :=
  text (replicate (w - String.length (dec n)) "0"%char) +:+ dec n.

(** * Lemmas *)

Lemma code_inj a b : code a = code b → a = b.
Proof.
  unfold code. intros H. rewrite <-(ascii_N_embedding a), <-(ascii_N_embedding b). f_equal. lia.
Qed.

Lemma is_digit_value b : is_digit b = true → 0 ≤ digit_value b ≤ 9.
Proof. unfold is_digit, digit_value. rewrite andb_true_iff, !Z.leb_le. lia. Qed.

Lemma num_go_app acc a b : num_go acc (a ++ b) = num_go (num_go acc a) b.
Proof. unfold num_go. by rewrite foldl_app. Qed.

Lemma num_go_nonneg acc l : 0 ≤ acc → forallb is_digit l = true → acc ≤ num_go acc l.
Proof.
  revert acc. induction l as [|b l IH]; intros acc Ha; [cbn; lia|].
  change (num_go acc (b :: l)) with (num_go (10 * acc + digit_value b) l). cbn [forallb].
  rewrite andb_true_iff. intros [Hb Hl]. apply is_digit_value in Hb.
  specialize (IH (10 * acc + digit_value b) ltac:(lia) Hl). lia.
Qed.

Lemma num_go_shift acc l :
  num_go acc l = acc * 10 ^ Z.of_nat (length l) + num l.
Proof.
  unfold num. revert acc. induction l as [|b l IH]; intros acc; [cbn; lia|].
  cbn [length]. change (num_go (10 * acc + digit_value b) l = acc * 10 ^ Z.of_nat (S (length l)) +
    num_go (10 * 0 + digit_value b) l).
  rewrite (IH (10 * acc + digit_value b)), (IH (10 * 0 + digit_value b)).
  rewrite Nat2Z.inj_succ, Z.pow_succ_r by lia. lia.
Qed.

Lemma num_bound l : forallb is_digit l = true → 0 ≤ num l < 10 ^ Z.of_nat (length l).
Proof.
  induction l as [|b l IH]; cbn [forallb length]; [intros _; by vm_compute|].
  rewrite andb_true_iff. intros [Hb Hl]. apply is_digit_value in Hb. specialize (IH Hl).
  change (num (b :: l)) with (num_go (10 * 0 + digit_value b) l).
  rewrite num_go_shift, Nat2Z.inj_succ, Z.pow_succ_r by lia. nia.
Qed.

(** The digit fold is exact below its width. *)
Lemma fold_digits_go_spec l acc r :
  0 ≤ acc → fold_digits_go l acc = Some r ↔
    forallb is_digit l = true ∧ r = num_go acc l ∧ (l = [] ∨ num_go acc l ≤ int_max u128).
Proof.
  revert acc. induction l as [|b l IH]; intros acc Ha; cbn [fold_digits_go].
  { split; [intros [= <-]; split_and!; [done..|by left]|by intros (_ & -> & _)]. }
  cbn [forallb num_go foldl]. destruct (is_digit b) eqn:Hb; cbn [negb andb].
  2: { split; [done|by intros (? & _)]. }
  apply is_digit_value in Hb.
  change (foldl _ (10 * acc + digit_value b) l) with (num_go (10 * acc + digit_value b) l).
  split.
  - intros (s & Hs & (a & Hadd & H)%bind_Some)%bind_Some. simp_narrow.
    replace (acc * 10 + digit_value b) with (10 * acc + digit_value b) in H by lia.
    apply IH in H as (Hl & -> & Hr); [|lia]. split_and!; [done..|]. right.
    destruct Hr as [->|]; [|done]. cbn. unfold_int. lia.
  - intros (Hl & -> & [?|Hm]); [done|].
    pose proof (num_go_nonneg (10 * acc + digit_value b) l ltac:(lia) Hl).
    unfold checked_mul. rewrite narrow_fits by (unfold_int; lia). cbn [mbind option_bind].
    unfold checked_add. rewrite narrow_fits by (unfold_int; lia). cbn [mbind option_bind].
    replace (acc * 10 + digit_value b) with (10 * acc + digit_value b) by lia.
    apply IH; [lia|]. split_and!; [done..|by right].
Qed.

Lemma fold_digits_spec l r :
  fold_digits l = Some r ↔
    forallb is_digit l = true ∧ r = num l ∧ num l ≤ int_max u128.
Proof.
  unfold fold_digits. rewrite fold_digits_go_spec by done. split.
  - intros (? & -> & [->|?]); split_and!; try done.
  - intros (? & -> & ?). split_and!; [done..|by right].
Qed.

(** *** Decimal rendering *)

Lemma digit_ascii d :
  0 ≤ d < 10 → is_digit (ascii_of_N (Z.to_N (48 + d))) = true ∧
               digit_value (ascii_of_N (Z.to_N (48 + d))) = d.
Proof.
  intros Hd. unfold is_digit, digit_value, code. rewrite digit_code by lia.
  split; [|lia]. rewrite andb_true_iff, !Z.leb_le. lia.
Qed.

Lemma dec_go_digits fuel n acc :
  forallb is_digit (bytes acc) = true → forallb is_digit (bytes (dec_go fuel n acc)) = true.
Proof.
  revert n acc. induction fuel as [|fuel IH]; intros n acc Hacc; [done|]. cbn [dec_go].
  pose proof (Z.mod_pos_bound n 10 ltac:(lia)).
  case_match; [|apply IH]; cbn [String.list_ascii_of_string forallb];
    by rewrite (proj1 (digit_ascii (n mod 10) ltac:(lia))).
Qed.

Lemma dec_digits n : forallb is_digit (bytes (dec n)) = true.
Proof. by apply dec_go_digits. Qed.

Lemma undec_num s v : undec_go v s = num_go v (bytes s).
Proof. revert v. induction s as [|c s IH]; intros v; cbn; [done|]. by rewrite IH. Qed.

Lemma dec_num n : 0 ≤ n < 10 ^ 40 → num (bytes (dec n)) = n.
Proof.
  intros Hn. transitivity (undec_go 0 (dec n)); [symmetry; apply undec_num|by apply dec_undec].
Qed.

Lemma length_String c s : String.length (String c s) = S (String.length s).
Proof. done. Qed.

(** A number below [10 ^ w] has at most [w] digits. *)
Lemma dec_go_length fuel w n acc :
  0 ≤ n < 10 ^ Z.of_nat w → (1 ≤ w)%nat →
  (String.length (dec_go fuel n acc) ≤ w + String.length acc)%nat.
Proof.
  revert w n acc. induction fuel as [|fuel IH]; intros w n acc Hn Hw; cbn [dec_go]; [lia|].
  destruct (Z.ltb_spec n 10); [cbn; lia|].
  destruct w as [|[|w]]; [lia|cbn in Hn; lia|].
  rewrite Nat2Z.inj_succ, Z.pow_succ_r in Hn by lia.
  etransitivity; [apply (IH (S w))|cbn; lia].
  - split; [apply Z.div_pos; lia|]. apply Z.div_lt_upper_bound; lia.
  - lia.
Qed.

Lemma dec_length w n :
  0 ≤ n < 10 ^ Z.of_nat w → (1 ≤ w)%nat → (String.length (dec n) ≤ w)%nat.
Proof. intros. pose proof (dec_go_length 40 w n EmptyString). cbn in *. unfold dec. lia. Qed.

Lemma dec_go_nonempty fuel n acc :
  (0 < fuel)%nat → (String.length acc < String.length (dec_go fuel n acc))%nat.
Proof.
  revert n acc. induction fuel as [|fuel IH]; intros n acc Hf; [lia|]. cbn [dec_go].
  case_match; [rewrite length_String; lia|].
  destruct fuel as [|fuel]; [cbn [dec_go]; rewrite length_String; lia|].
  etransitivity; [|apply IH; lia]. rewrite length_String. lia.
Qed.

Lemma dec_nonempty n : bytes (dec n) ≠ [].
Proof.
  pose proof (dec_go_nonempty 40 n EmptyString ltac:(lia)) as H. intros E.
  apply (f_equal length) in E. rewrite bytes_length in E. unfold dec in E. rewrite E in H.
  exact (Nat.nlt_0_r _ H).
Qed.

Lemma bytes_text l : bytes (text l) = l.
Proof. apply String.list_ascii_of_string_of_list_ascii. Qed.

Lemma num_zeros k l : num (replicate k "0"%char ++ l) = num l.
Proof. induction k; cbn; [done|]. done. Qed.

Lemma forallb_zeros k : forallb is_digit (replicate k "0"%char) = true.
Proof. by induction k. Qed.

(** Zero padding: digits, the same number, the exact width. *)
Lemma pad_dec_spec w n :
  0 ≤ n < 10 ^ Z.of_nat w → (1 ≤ w ≤ 40)%nat →
  forallb is_digit (bytes (pad_dec w n)) = true ∧ num (bytes (pad_dec w n)) = n ∧
  length (bytes (pad_dec w n)) = w.
Proof.
  intros Hn Hw. unfold pad_dec. rewrite bytes_app, bytes_text.
  pose proof (dec_length w n Hn ltac:(lia)) as Hl. split_and!.
  - by rewrite forallb_app, forallb_zeros, dec_digits.
  - rewrite num_zeros. apply dec_num. split; [lia|].
    eapply Z.lt_le_trans; [apply Hn|]. apply Z.pow_le_mono_r; lia.
  - rewrite length_app, length_replicate, bytes_length. lia.
Qed.

(** Unsigned parsing reads back what formatting writes. *)
Lemma is_digit_not_plus b : is_digit b = true → (code b =? 43) = false.
Proof. unfold is_digit. rewrite andb_true_iff, !Z.leb_le, Z.eqb_neq. lia. Qed.

Lemma parse_uint_dec t n :
  0 ≤ n < 10 ^ 40 → has_ty t n → parse_uint t (dec n) = Some n.
Proof.
  intros Hn Ht. unfold parse_uint. pose proof (dec_digits n) as Hd.
  pose proof (dec_nonempty n) as Hne. pose proof (dec_num n Hn) as Hv.
  destruct (bytes (dec n)) as [|b [|b2 l]] eqn:E; [done| |].
  - rewrite Hd, Hv. by apply narrow_fits.
  - cbn [forallb] in Hd. apply andb_true_iff in Hd as [Hb Hd].
    rewrite (is_digit_not_plus b Hb). cbn [forallb]. rewrite Hb. cbn [andb forallb] in Hd |- *.
    rewrite Hd, Hv. by apply narrow_fits.
Qed.
