(* ===== verification/FixPrice.v ===== *)
(** The FIX price seam ([src/src/gateway/fix/price.rs]): decimal strings to integer
    cents and back, exactly, with the tick check of an instrument.  [fold_digits] and
    the bounded echo are in the file FixText. *)

From S2P Require Export FixText.

Definition CENTS_SCALE : nat := 2.

Inductive PriceSeamError :=
  | PriceEmpty
  | PriceMalformed (value : string)
  | TooManyFractionalDigits (value : string)
  | PriceOutOfRange (value : string)
  | PriceOffTick (cents tick_size_cents : Z)
  | ZeroTick.
#[export] Instance PriceSeamError_eq_dec : EqDecision PriceSeamError.
Proof. solve_decision. Defined.

Definition is_wire_format (e : PriceSeamError) : bool :=
  match e with
  | PriceEmpty | PriceMalformed _ | TooManyFractionalDigits _ | PriceOutOfRange _ => true
  | PriceOffTick _ _ | ZeroTick => false
  end.

(** The scan for the decimal point: every byte a digit, at most one point. *)
Fixpoint scan_dot (l : list ascii) (i : nat) (dot_index : option nat) : option (option nat) :=
  match l with
  | [] => Some dot_index
  | b :: l =>
      if is_digit b then scan_dot l (S i) dot_index
      else if (code b =? 46) && bool_decide (dot_index = None) then scan_dot l (S i) (Some i)
      else None
  end.

(** The fraction padded on the right to the scale. *)
Fixpoint pad_scale (w : nat) (l : list ascii) : list ascii :=
  match w, l with
  | O, _ => []
  | S w, [] => "0"%char :: pad_scale w []
  | S w, b :: l => b :: pad_scale w l
  end.

Definition fractional_cents (frac_bytes : list ascii) : Z :=
  wrapping u64 (default 0 (fold_digits (pad_scale CENTS_SCALE frac_bytes))).

Definition parse_decimal_to_cents (value : string) : result PriceSeamError Cents :=
  if String.eqb value "" then Err PriceEmpty
  else
    let malformed := PriceMalformed (truncate_untrusted value) in
    let bs := bytes value in
    match scan_dot bs 0 None with
    | None => Err malformed
    | Some dot_index =>
        let '(int_bytes, frac_bytes) :=
          match dot_index with
          | Some i => (take i bs, drop (S i) bs)
          | None => (bs, [])
          end in
        if bool_decide (int_bytes = []) then Err malformed
        else if bool_decide (dot_index ≠ None) && bool_decide (frac_bytes = []) then Err malformed
        else if (CENTS_SCALE <? length frac_bytes)%nat
        then Err (TooManyFractionalDigits (truncate_untrusted value))
        else
          let out_of_range := PriceOutOfRange (truncate_untrusted value) in
          int_value ← ok_or out_of_range (fold_digits int_bytes);
          let frac_value := fractional_cents frac_bytes in
          cents_u128 ← ok_or out_of_range
            (scaled ← checked_mul u128 int_value 100; checked_add u128 scaled frac_value);
          ok_or out_of_range (narrow u64 cents_u128)
    end.

Definition render_cents_to_decimal (cents : Cents) : string :=
  let whole := cents / 100 in
  let remainder := cents mod 100 in
  dec whole +:+ "." +:+ pad_dec 2 remainder.

Definition parse_signed_decimal_to_cents (value : string) : result PriceSeamError SignedCents :=
  let '(negative, magnitude) :=
    match bytes value with
    | b :: rest => if code b =? 45 then (true, text rest) else (false, value)
    | [] => (false, value)
    end in
  cents ← parse_decimal_to_cents magnitude;
  signed ← ok_or (PriceOutOfRange (truncate_untrusted value)) (narrow i64 cents);
  Ok (if negative : bool then - signed else signed).

Definition render_signed_cents_to_decimal (value : SignedCents) : string :=
  let magnitude := Z.abs value in
  if value <? 0 then "-" +:+ render_cents_to_decimal magnitude
  else render_cents_to_decimal magnitude.

(** A scale is its non-zero tick. *)
Record PriceScale := { ps_tick_size_cents : Z }.

Definition PriceScale_new (tick_size_cents : Z) : result PriceSeamError PriceScale :=
  if tick_size_cents =? 0 then Err ZeroTick
  else Ok {| ps_tick_size_cents := tick_size_cents |}.

Definition ensure_on_tick (s : PriceScale) (cents : Cents) : result PriceSeamError unit :=
  if is_multiple_of cents (ps_tick_size_cents s) then Ok tt
  else Err (PriceOffTick cents (ps_tick_size_cents s)).

Definition decimal_to_cents (s : PriceScale) (value : string) : result PriceSeamError Cents :=
  cents ← parse_decimal_to_cents value;
  _ ← ensure_on_tick s cents;
  Ok cents.

Definition cents_to_decimal (s : PriceScale) (cents : Cents) : string :=
  render_cents_to_decimal cents.

(** * Theorems *)

(** ** The grammar of a price *)

(** The integer digits, and the digits after the point when there is one. *)
Definition price_parts (l int_part frac_part : list ascii) : Prop :=
  forallb is_digit int_part = true ∧ forallb is_digit frac_part = true ∧
  int_part ≠ [] ∧ (length frac_part ≤ 2)%nat ∧
  (l = int_part ∧ frac_part = [] ∨ l = int_part ++ "."%char :: frac_part ∧ frac_part ≠ []).

(** The cents they denote. *)
Definition price_value (int_part frac_part : list ascii) : Z :=
  100 * num int_part + num frac_part * 10 ^ (2 - Z.of_nat (length frac_part)).

Lemma scan_dot_spec l i d r :
  scan_dot l i d = Some r ↔
    (forallb is_digit l = true ∧ r = d) ∨
    (d = None ∧ ∃ a b, l = a ++ "."%char :: b ∧ forallb is_digit a = true ∧
       forallb is_digit b = true ∧ r = Some (i + length a)%nat).
Proof.
  revert i d. induction l as [|x l IH]; intros i d; cbn [scan_dot forallb].
  { split; [intros [= <-]; by left|]. intros [[_ ->]|(_ & [|??] & ? & [=] & _)]. done. }
  destruct (is_digit x) eqn:Hx; cbn [andb].
  - rewrite IH. split.
    + intros [?|(-> & a & b & -> & Ha & Hb & ->)]; [by left|]. right. split; [done|].
      exists (x :: a), b. cbn. rewrite Hx, Ha. split_and!; [done..|]. f_equal. lia.
    + intros [?|(-> & a & b & Hl & Ha & Hb & ->)]; [by left|]. right. split; [done|].
      destruct a as [|y a]; injection Hl as -> ->; [done|]. cbn in Ha.
      apply andb_true_iff in Ha as [_ Ha]. exists a, b. split_and!; [done..|].
      cbn. f_equal. lia.
  - destruct (Z.eqb_spec (code x) 46) as [Hd|Hd]; cbn [andb].
    2: { split; [done|]. intros [[? _]|(_ & a & b & Hl & Ha & _)]; [done|].
         destruct a as [|y a]; injection Hl as -> ->; [done|]. cbn in Ha. by rewrite Hx in Ha. }
    assert (x = "."%char) as ->.
    { by apply code_inj. }
    destruct d as [d|]; cbn.
    { split; [done|]. intros [[? _]|(? & _)]; done. }
    rewrite IH. split.
    + intros [[Hl ->]|(? & _)]; [|done]. right. split; [done|]. exists [], l. cbn.
      split_and!; [done..|]. f_equal. lia.
    + intros [[? _]|(_ & a & b & Hl & Ha & Hb & ->)]; [done|]. left.
      destruct a as [|y a]; [injection Hl as ->|by injection Hl as <- ->]. split; [done|].
      cbn. f_equal. lia.
Qed.

Lemma pad_scale_spec l :
  (length l ≤ 2)%nat → forallb is_digit l = true →
  forallb is_digit (pad_scale 2 l) = true ∧
  num (pad_scale 2 l) = num l * 10 ^ (2 - Z.of_nat (length l)).
Proof.
  destruct l as [|a [|b [|c l]]]; cbn [length]; intros Hl Hd; [| | |lia].
  - by vm_compute.
  - cbn [forallb] in Hd. cbn [pad_scale forallb]. rewrite andb_true_r in Hd. rewrite Hd.
    split; [done|]. change (num [a; "0"%char]) with (10 * (10 * 0 + digit_value a) + 0).
    change (num [a]) with (10 * 0 + digit_value a). change (10 ^ (2 - Z.of_nat 1)) with 10. lia.
  - split; [done|]. change (2 - Z.of_nat 2) with 0. rewrite Z.pow_0_r, Z.mul_1_r. done.
Qed.

Lemma fractional_cents_spec l :
  (length l ≤ 2)%nat → forallb is_digit l = true →
  fractional_cents l = num l * 10 ^ (2 - Z.of_nat (length l)) ∧ 0 ≤ fractional_cents l < 100.
Proof.
  intros Hl Hd. destruct (pad_scale_spec l Hl Hd) as [Hp Hv].
  pose proof (num_bound _ Hp) as Hb.
  assert (length (pad_scale 2 l) = 2%nat) as Hlen.
  { destruct l as [|a [|b [|c l]]]; done. }
  rewrite Hlen in Hb. change (10 ^ Z.of_nat 2) with 100 in Hb.
  unfold fractional_cents, CENTS_SCALE.
  assert (fold_digits (pad_scale 2 l) = Some (num (pad_scale 2 l))) as ->.
  { apply fold_digits_spec. split_and!; [done..|]. unfold_int. lia. }
  cbn [from_option id]. unfold wrapping. rewrite Z.mod_small by (unfold_int; lia).
  by rewrite <-Hv.
Qed.

Lemma string_eqb_empty s : String.eqb s "" = bool_decide (bytes s = []).
Proof. by destruct s. Qed.

(** The decomposition is unique: a point is not a digit. *)
Lemma price_parts_scan l ip fp :
  price_parts l ip fp ↔
    ∃ d, scan_dot l 0 None = Some d ∧
      (ip, fp) = match d with Some i => (take i l, drop (S i) l) | None => (l, []) end ∧
      ip ≠ [] ∧ (length fp ≤ 2)%nat ∧ (d ≠ None → fp ≠ []).
Proof.
  unfold price_parts. split.
  - intros (Hi & Hf & Hn & Hl & [[-> ->]|[-> Hne]]).
    + exists None. split_and!; try done. apply scan_dot_spec. by left.
    + exists (Some (length ip)). split_and!; [|..|done]; try done.
      * apply scan_dot_spec. right. split; [done|]. exists ip, fp. done.
      * rewrite take_app_length, drop_app_ge by lia.
        by replace (S (length ip) - length ip)%nat with 1%nat by lia.
  - intros (d & Hs & Hd & Hn & Hl & Hne). apply scan_dot_spec in Hs.
    destruct Hs as [[Hl' ->]|(_ & a & b & -> & Ha & Hb & ->)].
    + injection Hd as -> ->. split_and!; [done..|by left].
    + cbn [Nat.add] in Hd. rewrite take_app_length, drop_app_ge in Hd by lia.
      replace (S (length a) - length a)%nat with 1%nat in Hd by lia.
      injection Hd as -> ->. split_and!; [done..|]. right. split; [done|]. by apply Hne.
Qed.

Lemma num_nonneg l : forallb is_digit l = true → 0 ≤ num l.
Proof. intros H. by apply num_bound. Qed.

(** The arithmetic of the two parts. *)
Lemma cents_of_parts (e : PriceSeamError) ip fp c :
  forallb is_digit ip = true → forallb is_digit fp = true → (length fp ≤ 2)%nat →
  (int_value ← ok_or e (fold_digits ip);
   cents_u128 ← ok_or e
     (scaled ← checked_mul u128 int_value 100; checked_add u128 scaled (fractional_cents fp));
   ok_or e (narrow u64 cents_u128)) = Ok c ↔ c = price_value ip fp ∧ has_ty u64 c.
Proof.
  intros Hi Hf Hl. destruct (fractional_cents_spec fp Hl Hf) as [Hv Hb].
  pose proof (num_nonneg ip Hi) as Hn. unfold price_value. rewrite <-Hv. split.
  - intros (i & Hfold & (x & Hx & Hc)%bind_Ok)%bind_Ok.
    apply ok_or_Ok in Hfold, Hx, Hc. apply fold_digits_spec in Hfold as (_ & -> & _).
    apply bind_Some in Hx as (y & Hy & Hx). simp_narrow. split; [lia|done].
  - intros [-> Hc].
    assert (fold_digits ip = Some (num ip)) as ->.
    { apply fold_digits_spec. split_and!; [done..|]. unfold_int. lia. }
    cbn [ok_or mbind result_bind]. unfold checked_mul, checked_add.
    rewrite narrow_fits by (unfold_int; lia). cbn [mbind option_bind].
    rewrite narrow_fits by (unfold_int; lia). cbn [ok_or mbind result_bind].
    rewrite narrow_fits by (unfold_int; lia). cbn. f_equal. lia.
Qed.

(** The scan certifies both parts as digits. *)
Lemma scan_dot_digits l d ip fp :
  scan_dot l 0 None = Some d →
  match d with Some i => (take i l, drop (S i) l) | None => (l, []) end = (ip, fp) →
  forallb is_digit ip = true ∧ forallb is_digit fp = true.
Proof.
  intros [[Hl ->]|(_ & a & b & -> & Ha & Hb & ->)]%scan_dot_spec.
  - by intros [= <- <-].
  - cbn [Nat.add]. rewrite take_app_length, drop_app_ge by lia.
    replace (S (length a) - length a)%nat with 1%nat by lia. by intros [= <- <-].
Qed.

(** What the parser accepts. *)
Lemma parse_decimal_iff s c :
  parse_decimal_to_cents s = Ok c ↔
    ∃ ip fp, price_parts (bytes s) ip fp ∧ c = price_value ip fp ∧ has_ty u64 c.
Proof.
  unfold parse_decimal_to_cents. rewrite string_eqb_empty.
  destruct (bool_decide_reflect (bytes s = [])) as [E|Hne].
  { rewrite E. split; [done|]. intros (ip & fp & (_ & _ & Hn & _ & [[<- _]|[H _]]) & _); [done|].
    by destruct ip. }
  destruct (scan_dot (bytes s) 0 None) as [d|] eqn:Hs.
  2: { split; [done|]. intros (ip & fp & (d & Hs' & _)%price_parts_scan & _). congruence. }
  destruct (match d with Some i => _ | None => _ end) as [ip fp] eqn:Hd.
  assert (∀ ip' fp', price_parts (bytes s) ip' fp' ↔
    ip' = ip ∧ fp' = fp ∧ ip ≠ [] ∧ (length fp ≤ 2)%nat ∧ (d ≠ None → fp ≠ [])) as Hparts.
  { intros ip' fp'. rewrite price_parts_scan. split.
    - intros (d' & Hs' & Hd' & Hn & Hl & Hf). rewrite Hs in Hs'. injection Hs' as <-.
      rewrite Hd in Hd'. injection Hd' as -> ->. done.
    - intros (-> & -> & ? & ? & ?). exists d. done. }
  setoid_rewrite Hparts. destruct (scan_dot_digits _ _ _ _ Hs Hd) as [Hdi Hdf].
  destruct (bool_decide_reflect (ip = [])) as [->|Hip].
  { split; [done|]. intros (? & ? & (_ & _ & ? & _) & _). done. }
  destruct (bool_decide_reflect (d ≠ None)) as [Hdn|Hdn];
    destruct (bool_decide_reflect (fp = [])) as [->|Hfp]; cbn [andb].
  { split; [done|]. intros (? & ? & (_ & _ & _ & _ & Hf) & _). by destruct (Hf Hdn). }
  all: match goal with |- context [(CENTS_SCALE <? ?n)%nat] =>
         destruct (Nat.ltb_spec CENTS_SCALE n) as [Hlen|Hlen] end.
  all: try (split; [done|]; intros (? & ? & (_ & _ & _ & ? & _) & _);
            unfold CENTS_SCALE in Hlen; lia).
  all: unfold CENTS_SCALE in Hlen; rewrite cents_of_parts by done; split;
    [intros [? ?]; eexists _, _; split_and!; try done
    |intros (? & ? & (-> & -> & _) & ? & ?); done].
Qed.

(** Decimal prices are parsed exactly: a string is accepted as [c] cents if and
    only if it is one or more digits, optionally followed by a point and one or two
    digits, [c] is a hundred times the integer part plus the fraction scaled to
    cents, and [c] fits in 64 bits; no other string (sign, exponent, sub-cent
    precision, missing digit, overflow) is ever accepted or rounded. *)
Theorem price_parse_exact s c :
  parse_decimal_to_cents s = Ok c ↔
    ∃ ip fp, price_parts (bytes s) ip fp ∧ c = price_value ip fp ∧ has_ty u64 c.
Proof. apply parse_decimal_iff. Qed.

(** ** Round trips *)

Lemma render_parts c :
  has_ty u64 c → price_parts (bytes (render_cents_to_decimal c))
    (bytes (dec (c / 100))) (bytes (pad_dec 2 (c mod 100))).
Proof.
  intros Hc. pose proof (Z.mod_pos_bound c 100 ltac:(lia)) as Hm.
  destruct (pad_dec_spec 2 (c mod 100)) as (Hd & Hv & Hl); [cbn; lia|lia|].
  unfold render_cents_to_decimal. split_and!; [apply dec_digits|done|apply dec_nonempty|lia|].
  right. rewrite !bytes_app. split; [done|]. intros E. rewrite E in Hl. done.
Qed.

Lemma parse_render c : has_ty u64 c → parse_decimal_to_cents (render_cents_to_decimal c) = Ok c.
Proof.
  intros Hc. pose proof (Z.mod_pos_bound c 100 ltac:(lia)) as Hm.
  destruct (pad_dec_spec 2 (c mod 100)) as (Hd & Hv & Hl); [cbn; lia|lia|].
  apply parse_decimal_iff. eexists _, _. split; [by apply render_parts|]. split; [|done].
  unfold price_value. rewrite Hv, Hl, dec_num.
  - change (10 ^ (2 - Z.of_nat 2)) with 1. pose proof (Z.div_mod c 100). lia.
  - unfold_int. split; [apply Z.div_pos; lia|]. apply Z.div_lt_upper_bound; lia.
Qed.

Lemma render_head c : has_ty u64 c →
  ∃ b l, bytes (render_cents_to_decimal c) = b :: l ∧ is_digit b = true.
Proof.
  intros Hc. destruct (render_parts c Hc) as (Hd & _ & Hn & _ & [[-> _]|[-> _]]);
    destruct (bytes (dec (c / 100))) as [|b l]; try done;
    cbn [forallb] in Hd; apply andb_true_iff in Hd as [Hb _]; by eexists b, _.
Qed.

Lemma text_bytes s : text (bytes s) = s.
Proof. apply String.string_of_list_ascii_of_string. Qed.

Lemma parse_signed_render v :
  has_ty i64 v →
  parse_signed_decimal_to_cents (render_signed_cents_to_decimal v) =
    if v =? int_min i64
    then Err (PriceOutOfRange (truncate_untrusted (render_signed_cents_to_decimal v)))
    else Ok v.
Proof.
  intros Hv. unfold render_signed_cents_to_decimal, parse_signed_decimal_to_cents.
  assert (has_ty u64 (Z.abs v)) as Ha by (unfold_int; lia).
  destruct (Z.ltb_spec v 0) as [Hneg|Hpos].
  - rewrite bytes_app. cbn [String.list_ascii_of_string app]. change (code "-" =? 45) with true.
    cbn iota. rewrite text_bytes, parse_render by done. cbn [mbind result_bind].
    destruct (Z.eqb_spec v (int_min i64)) as [->|Hne]; [done|].
    rewrite narrow_fits by (unfold_int; lia). cbn. f_equal. lia.
  - destruct (render_head _ Ha) as (b & l & E & Hb). rewrite E.
    assert (code b =? 45 = false) as ->.
    { unfold is_digit in Hb. apply andb_true_iff in Hb as [Hb _]. apply Z.leb_le in Hb.
      apply Z.eqb_neq. lia. }
    rewrite parse_render by done. cbn [mbind result_bind].
    destruct (Z.eqb_spec v (int_min i64)) as [->|Hne]; [done|].
    rewrite narrow_fits by (unfold_int; lia). cbn. f_equal. lia.
Qed.

(** The price seam round-trips: every 64-bit cents value renders to a string that
    parses back to it; every signed value does too except the most negative one,
    whose magnitude the signed parser refuses as out of range; and with a tick a
    rendered price is accepted exactly when it lies on the tick. *)
Theorem price_seam_roundtrip :
  (∀ c, has_ty u64 c → parse_decimal_to_cents (render_cents_to_decimal c) = Ok c) ∧
  (∀ v, has_ty i64 v →
     parse_signed_decimal_to_cents (render_signed_cents_to_decimal v) =
       if v =? int_min i64
       then Err (PriceOutOfRange (truncate_untrusted (render_signed_cents_to_decimal v)))
       else Ok v) ∧
  (∀ s c, has_ty u64 c → ps_tick_size_cents s ≠ 0 →
     decimal_to_cents s (cents_to_decimal s c) =
       if c mod ps_tick_size_cents s =? 0 then Ok c
       else Err (PriceOffTick c (ps_tick_size_cents s))).
Proof.
  split_and!; [exact parse_render|exact parse_signed_render|].
  intros s c Hc Ht. unfold decimal_to_cents, cents_to_decimal, ensure_on_tick, is_multiple_of.
    rewrite parse_render by done. cbn [mbind result_bind].
    destruct (Z.eqb_spec (ps_tick_size_cents s) 0); [done|]. by destruct (c mod ps_tick_size_cents s =? 0).
Qed.

(** Concrete strings. *)
Example price_strings :
  parse_decimal_to_cents "500.05" = Ok 50005 ∧ parse_decimal_to_cents "500.5" = Ok 50050 ∧
  parse_decimal_to_cents "500" = Ok 50000 ∧
  parse_decimal_to_cents "500.055" = Err (TooManyFractionalDigits "500.055") ∧
  parse_decimal_to_cents "+5" = Err (PriceMalformed "+5") ∧
  parse_decimal_to_cents "5." = Err (PriceMalformed "5.") ∧
  parse_decimal_to_cents "184467440737095516.16" =
    Err (PriceOutOfRange "184467440737095516.16") ∧
  parse_signed_decimal_to_cents "-0.10" = Ok (-10).
Proof. vm_compute. repeat split. Qed.
