(* ===== verification/FixTime.v ===== *)
(** FIX UTC timestamps ([UtcTimestamp] of [src/src/gateway/fix/header.rs]): the
    structural validation of the wire form, the conversion to and from epoch
    milliseconds, and its correctness. *)

From S2P Require Export FixText.

(** A timestamp is its wire string. *)
Notation UtcTimestamp := string (only parsing).

Definition byte_is (l : list ascii) (i : nat) (c : ascii) : bool :=
  bool_decide (l !! i = Some c).
(** [bytes\[a..b\].iter().all(is_ascii_digit)], within range. *)
Definition digits_at (l : list ascii) (a b : nat) : bool :=
  forallb is_digit (take (b - a) (drop a l)).

Definition is_valid_utc_timestamp (value : string) : bool :=
  let bs := bytes value in
  if (length bs <? 17)%nat then false
  else if negb (digits_at bs 0 8 && byte_is bs 8 "-" && digits_at bs 9 11 && byte_is bs 11 ":"
                && digits_at bs 12 14 && byte_is bs 14 ":" && digits_at bs 15 17)
  then false
  else
    if (length bs =? 17)%nat then true
    else if ((length bs =? 21) || (length bs =? 24) || (length bs =? 27))%nat
    then byte_is bs 17 "." && forallb is_digit (drop 18 bs)
    else false.

(** [civil_from_days]: the year, month and day of a day number. *)
Definition civil_from_days (days : Z) : Z * Z * Z :=
  let z := days + 719_468 in
  let era := Z.quot (if 0 <=? z then z else z - 146_096) 146_097 in
  let doe := z - era * 146_097 in
  let yoe :=
    Z.quot (doe - Z.quot doe 1_460 + Z.quot doe 36_524 - Z.quot doe 146_096) 365 in
  let year := yoe + era * 400 in
  let doy := doe - (365 * yoe + Z.quot yoe 4 - Z.quot yoe 100) in
  let mp := Z.quot (5 * doy + 2) 153 in
  let day := doy - Z.quot (153 * mp + 2) 5 + 1 in
  let month := if mp <? 10 then mp + 3 else mp - 9 in
  (if month <=? 2 then year + 1 else year, month, day).

Definition from_epoch_ms (ms : Z) : UtcTimestamp :=
  let secs := ms / 1_000 in
  let millis := ms mod 1_000 in
  let days := secs / 86_400 in
  let rem := secs mod 86_400 in
  let '(hour, minute, second) := (rem / 3_600, rem mod 3_600 / 60, rem mod 60) in
  let '(year, month, day) := civil_from_days days in
  pad_dec 4 year +:+ pad_dec 2 month +:+ pad_dec 2 day +:+ "-" +:+ pad_dec 2 hour +:+ ":" +:+
  pad_dec 2 minute +:+ ":" +:+ pad_dec 2 second +:+ "." +:+ pad_dec 3 millis.

Definition days_from_civil (year month day : Z) : option Z :=
  y ← (if month <=? 2 then checked_sub i64 year 1 else Some year);
  let era := Z.quot (if 0 <=? y then y else y - 399) 400 in
  base ← checked_mul i64 era 400;
  let yoe := y - base in
  let mp := if 2 <? month then month - 3 else month + 9 in
  m ← checked_mul i64 153 mp;
  m ← checked_add i64 m 2;
  doy ← checked_add i64 (Z.quot m 5) (day - 1);
  doe ← checked_mul i64 yoe 365;
  doe ← checked_add i64 doe (Z.quot yoe 4);
  doe ← checked_sub i64 doe (Z.quot yoe 100);
  doe ← checked_add i64 doe doy;
  days ← checked_mul i64 era 146_097;
  days ← checked_add i64 days doe;
  checked_sub i64 days 719_468.

(** The digits of a byte range as a number: [None] out of range or on a non-digit. *)
Definition read_digits (l : list ascii) (a b : nat) : option Z :=
  if (b <=? length l)%nat then
    foldl (λ acc c, value ← acc;
                    if negb (is_digit c) then None
                    else value ← checked_mul i64 value 10;
                         checked_add i64 value (digit_value c))
      (Some 0) (take (b - a) (drop a l))
  else None.

Definition to_epoch_ms (t : UtcTimestamp) : option Z :=
  let bs := bytes t in
  year ← read_digits bs 0 4;
  month ← read_digits bs 4 6;
  day ← read_digits bs 6 8;
  hour ← read_digits bs 9 11;
  minute ← read_digits bs 12 14;
  second ← read_digits bs 15 17;
  millis ← (if (length bs =? 17)%nat then Some 0 else read_digits bs 18 21);
  days ← days_from_civil year month day;
  secs ← checked_mul i64 days 86_400;
  h ← checked_mul i64 hour 3_600;
  secs ← checked_add i64 secs h;
  m ← checked_mul i64 minute 60;
  secs ← checked_add i64 secs m;
  secs ← checked_add i64 secs second;
  if secs <? 0 then None
  else
    secs ← narrow u64 secs;
    ms ← checked_mul u64 secs 1_000;
    millis ← narrow u64 millis;
    checked_add u64 ms millis.

(** * Theorems *)

(** ** The civil calendar *)

Lemma yoe_bounds doe : 0 ≤ doe ≤ 146_096 →
  let yoe := (doe - doe / 1_460 + doe / 36_524 - doe / 146_096) / 365 in 0 ≤ yoe ≤ 399.
Proof. intros H yoe. subst yoe. Z.to_euclidean_division_equations; lia. Qed.

(** The day of the year lies in its year: by cases on the century and on the last
    day of the era. *)
Lemma doy_bounds doe : 0 ≤ doe ≤ 146_096 →
  let yoe := (doe - doe / 1_460 + doe / 36_524 - doe / 146_096) / 365 in
  0 ≤ doe - (365 * yoe + yoe / 4 - yoe / 100) ≤ 365.
Proof.
  intros H yoe.
  assert (0 ≤ doe / 36_524 ≤ 4) by (Z.to_euclidean_division_equations; lia).
  assert (0 ≤ doe / 146_096 ≤ 1) by (Z.to_euclidean_division_equations; lia).
  assert (0 ≤ yoe / 100 ≤ 3).
  { pose proof (yoe_bounds doe H : 0 ≤ yoe ≤ 399). clearbody yoe.
    Z.to_euclidean_division_equations; lia. }
  assert (doe / 36_524 = 0 ∨ doe / 36_524 = 1 ∨ doe / 36_524 = 2 ∨ doe / 36_524 = 3 ∨
          doe / 36_524 = 4) as HC by lia.
  assert (yoe / 100 = 0 ∨ yoe / 100 = 1 ∨ yoe / 100 = 2 ∨ yoe / 100 = 3) as HD by lia.
  assert (doe / 146_096 = 0 ∨ doe / 146_096 = 1) as HE by lia.
  destruct HC as [HC|[HC|[HC|[HC|HC]]]]; destruct HD as [HD|[HD|[HD|HD]]];
    destruct HE as [HE|HE]; rewrite HD; subst yoe; rewrite ?HC, ?HE in *;
    Z.to_euclidean_division_equations; lia.
Qed.

(** The last day whose year has four digits: 9999-12-31. *)
Definition MAX_FOUR_DIGIT_DAY : Z := 2_932_896.

(** The calendar split into era, year of era and day of year, with its ranges. *)
Lemma civil_parts days :
  0 ≤ days →
  ∃ era yoe doy,
    0 ≤ era ∧ 0 ≤ yoe ≤ 399 ∧ 0 ≤ doy ≤ 365 ∧
    days + 719_468 = era * 146_097 + (365 * yoe + yoe / 4 - yoe / 100 + doy) ∧
    civil_from_days days =
      (let mp := (5 * doy + 2) / 153 in
       let month := if mp <? 10 then mp + 3 else mp - 9 in
       (if month <=? 2 then yoe + era * 400 + 1 else yoe + era * 400, month,
        doy - (153 * mp + 2) / 5 + 1)).
Proof.
  intros Hd. unfold civil_from_days.
  assert (0 ≤ days + 719_468) as Hz by lia. revert Hz. generalize (days + 719_468) as z.
  intros z Hz. destruct (Z.leb_spec 0 z); [|lia]. rewrite (Z.quot_div_nonneg z) by lia.
  assert (0 ≤ z / 146_097) as He by (apply Z.div_pos; lia).
  assert (0 ≤ z - z / 146_097 * 146_097 ≤ 146_096) as Hdoe
    by (Z.to_euclidean_division_equations; lia).
  assert (z = z / 146_097 * 146_097 + (z - z / 146_097 * 146_097)) as Hz' by lia.
  revert Hdoe Hz'. generalize (z - z / 146_097 * 146_097) as doe. intros doe Hdoe Hz'.
  rewrite !(Z.quot_div_nonneg doe) by lia.
  pose proof (yoe_bounds doe Hdoe) as Hy. pose proof (doy_bounds doe Hdoe) as Hdoy.
  cbv zeta in Hy, Hdoy. rewrite (Z.quot_div_nonneg (_ - _)).
  2: { Z.to_euclidean_division_equations; lia. } 2: lia.
  revert Hy Hdoy. generalize ((doe - doe / 1_460 + doe / 36_524 - doe / 146_096) / 365) as yoe.
  intros yoe Hy Hdoy. rewrite !(Z.quot_div_nonneg yoe) by lia.
  exists (z / 146_097), yoe, (doe - (365 * yoe + yoe / 4 - yoe / 100)).
  split_and!; [lia..|].
  rewrite (Z.quot_div_nonneg (5 * _ + 2)) by lia.
  rewrite (Z.quot_div_nonneg (153 * _ + 2)); [done| |lia].
  assert (0 ≤ (5 * (doe - (365 * yoe + yoe / 4 - yoe / 100)) + 2) / 153) by (apply Z.div_pos; lia).
  lia.
Qed.

(** Its inverse, on the parts. *)
Lemma days_from_parts era yoe doy :
  0 ≤ era ≤ 100 → 0 ≤ yoe ≤ 399 → 0 ≤ doy ≤ 365 →
  let mp := (5 * doy + 2) / 153 in
  let month := if mp <? 10 then mp + 3 else mp - 9 in
  days_from_civil (if month <=? 2 then yoe + era * 400 + 1 else yoe + era * 400) month
    (doy - (153 * mp + 2) / 5 + 1) =
  Some (era * 146_097 + (365 * yoe + yoe / 4 - yoe / 100 + doy) - 719_468).
Proof.
  intros He Hy Hdoy mp month.
  assert (0 ≤ mp ≤ 11) as Hmp by (subst mp; Z.to_euclidean_division_equations; lia).
  assert (0 ≤ (153 * mp + 2) / 5 ≤ 400) as Hq by (clearbody mp; Z.to_euclidean_division_equations; lia).
  assert (0 ≤ yoe / 4 ≤ 99 ∧ 0 ≤ yoe / 100 ≤ 3) as Hyq by (Z.to_euclidean_division_equations; lia).
  unfold days_from_civil.
  assert ((if month <=? 2
           then checked_sub i64 (if month <=? 2 then yoe + era * 400 + 1 else yoe + era * 400) 1
           else Some (if month <=? 2 then yoe + era * 400 + 1 else yoe + era * 400)) =
          Some (yoe + era * 400)) as ->.
  { destruct (month <=? 2); [|done]. unfold checked_sub.
    rewrite narrow_fits by (unfold_int; lia). f_equal. lia. }
  assert ((if 2 <? month then month - 3 else month + 9) = mp) as ->.
  { subst month. destruct (Z.ltb_spec mp 10).
    - destruct (Z.ltb_spec 2 (mp + 3)); lia.
    - destruct (Z.ltb_spec 2 (mp - 9)); lia. }
  unfold checked_mul, checked_add, checked_sub. cbn [mbind option_bind].
  rewrite (proj2 (Z.leb_le 0 _)) by lia. rewrite Z.quot_div_nonneg by lia.
  replace ((yoe + era * 400) / 400) with era by (rewrite Z.div_add by lia; rewrite Z.div_small; lia).
  rewrite (narrow_fits i64 (era * 400)) by (unfold_int; lia). cbn [mbind option_bind].
  replace (yoe + era * 400 - era * 400) with yoe by lia.
  rewrite (narrow_fits i64 (153 * mp)) by (unfold_int; lia). cbn [mbind option_bind].
  rewrite (narrow_fits i64 (153 * mp + 2)) by (unfold_int; lia). cbn [mbind option_bind].
  rewrite (Z.quot_div_nonneg (153 * mp + 2)) by lia.
  rewrite (narrow_fits i64 (_ + (_ - 1))) by (unfold_int; lia). cbn [mbind option_bind].
  rewrite (narrow_fits i64 (yoe * 365)) by (unfold_int; lia). cbn [mbind option_bind].
  rewrite !(Z.quot_div_nonneg yoe) by lia.
  repeat (rewrite narrow_fits by (unfold_int; lia); cbn [mbind option_bind]). f_equal. lia.
Qed.

(** What the calendar computes: the ranges of its fields, and its inverse. *)
Lemma civil_spec days :
  0 ≤ days →
  let '(year, month, day) := civil_from_days days in
  1970 ≤ year ≤ days + 2000 ∧ (days ≤ MAX_FOUR_DIGIT_DAY ↔ year ≤ 9999) ∧
  1 ≤ month ≤ 12 ∧ 1 ≤ day ≤ 31 ∧
  (days ≤ MAX_FOUR_DIGIT_DAY → days_from_civil year month day = Some days).
Proof.
  intros Hd. destruct (civil_parts days Hd) as (era & yoe & doy & He & Hy & Hdoy & Hsum & ->).
  cbv zeta. set (mp := (5 * doy + 2) / 153).
  assert (0 ≤ mp ≤ 11) as Hmp by (subst mp; Z.to_euclidean_division_equations; lia).
  assert (1 ≤ doy - (153 * mp + 2) / 5 + 1 ≤ 31) as Hday
    by (subst mp; Z.to_euclidean_division_equations; lia).
  assert ((mp <? 10) = negb (306 <=? doy)) as Hmar.
  { subst mp. destruct (Z.ltb_spec ((5 * doy + 2) / 153) 10), (Z.leb_spec 306 doy); try done;
      Z.to_euclidean_division_equations; lia. }
  assert (days ≤ MAX_FOUR_DIGIT_DAY ↔
    (if (if mp <? 10 then mp + 3 else mp - 9) <=? 2
     then yoe + era * 400 + 1 else yoe + era * 400) ≤ 9999) as Hyear.
  { unfold MAX_FOUR_DIGIT_DAY. rewrite Hmar. destruct (Z.leb_spec 306 doy); cbn [negb].
    - destruct (Z.leb_spec (mp - 9) 2); [|lia]. clearbody mp.
      Z.to_euclidean_division_equations; lia.
    - destruct (Z.leb_spec (mp + 3) 2); [lia|]. clearbody mp.
      Z.to_euclidean_division_equations; lia. }
  split; [|split; [exact Hyear|split; [|split; [exact Hday|]]]].
  - rewrite Hmar. destruct (Z.leb_spec 306 doy); cbn [negb].
    + destruct (Z.leb_spec (mp - 9) 2); [|lia]. clearbody mp. Z.to_euclidean_division_equations; lia.
    + destruct (Z.leb_spec (mp + 3) 2); [lia|]. clearbody mp. Z.to_euclidean_division_equations; lia.
  - destruct (Z.ltb_spec mp 10); lia.
  - intros Hle. unfold MAX_FOUR_DIGIT_DAY in Hle. subst mp. rewrite days_from_parts; [f_equal; lia| |lia|lia].
    Z.to_euclidean_division_equations; lia.
Qed.

(** ** The wire form *)

(** The text of a timestamp is its fields at their offsets. *)
Definition stamp (year month day hour minute second millis : Z) : UtcTimestamp :=
  pad_dec 4 year +:+ pad_dec 2 month +:+ pad_dec 2 day +:+ "-" +:+ pad_dec 2 hour +:+ ":" +:+
  pad_dec 2 minute +:+ ":" +:+ pad_dec 2 second +:+ "." +:+ pad_dec 3 millis.

Definition digits_of (w : nat) (n : Z) (l : list ascii) : Prop :=
  forallb is_digit l = true ∧ num l = n ∧ length l = w.

Lemma stamp_bytes y mo d h mi s ms :
  0 ≤ y < 10 ^ 4 → 0 ≤ mo < 10 ^ 2 → 0 ≤ d < 10 ^ 2 → 0 ≤ h < 10 ^ 2 → 0 ≤ mi < 10 ^ 2 →
  0 ≤ s < 10 ^ 2 → 0 ≤ ms < 10 ^ 3 →
  ∃ ly lmo ld lh lmi ls lms,
    bytes (stamp y mo d h mi s ms) =
      ly ++ lmo ++ ld ++ "-"%char :: lh ++ ":"%char :: lmi ++ ":"%char :: ls ++ "."%char :: lms ∧
    digits_of 4 y ly ∧ digits_of 2 mo lmo ∧ digits_of 2 d ld ∧ digits_of 2 h lh ∧
    digits_of 2 mi lmi ∧ digits_of 2 s ls ∧ digits_of 3 ms lms.
Proof.
  intros. do 7 eexists. unfold stamp. rewrite !bytes_app. cbn [String.list_ascii_of_string app].
  split; [reflexivity|]. unfold digits_of. split_and!; apply pad_dec_spec; (done || lia).
Qed.

Lemma fold_read_digits l acc :
  0 ≤ acc → forallb is_digit l = true → num_go acc l ≤ int_max i64 →
  foldl (λ acc c, value ← acc;
                  if negb (is_digit c) then None
                  else value ← checked_mul i64 value 10;
                       checked_add i64 value (digit_value c)) (Some acc) l =
  Some (num_go acc l).
Proof.
  revert acc. induction l as [|b l IH]; intros acc Ha Hd Hmax; [done|].
  cbn [forallb] in Hd. apply andb_true_iff in Hd as [Hb Hd].
  change (num_go acc (b :: l)) with (num_go (10 * acc + digit_value b) l) in *.
  pose proof (is_digit_value b Hb) as Hv.
  pose proof (num_go_nonneg (10 * acc + digit_value b) l ltac:(lia) Hd) as Hle.
  cbn [foldl mbind option_bind]. rewrite Hb. cbn [negb]. unfold checked_mul.
  rewrite narrow_fits by (unfold_int; lia). cbn [mbind option_bind]. unfold checked_add.
  rewrite narrow_fits by (unfold_int; lia).
  replace (acc * 10 + digit_value b) with (10 * acc + digit_value b) by lia.
  apply IH; [lia|done|done].
Qed.

Lemma read_digits_at l a b pre mid post n :
  l = pre ++ mid ++ post → length pre = a → digits_of (b - a) n mid → (a ≤ b)%nat →
  n ≤ int_max i64 → read_digits l a b = Some n.
Proof.
  intros -> Ha (Hd & Hn & Hl) Hab Hmax. unfold read_digits.
  rewrite (proj2 (Nat.leb_le _ _)) by (rewrite !length_app; lia).
  rewrite drop_app_length' by done. rewrite take_app_length' by done.
  rewrite fold_read_digits; [by unfold num in Hn; rewrite Hn|done|done|].
  unfold num in Hn. by rewrite Hn.
Qed.

Lemma digits_at_mid l a b pre mid post n :
  l = pre ++ mid ++ post → length pre = a → digits_of (b - a) n mid → digits_at l a b = true.
Proof.
  intros -> Ha (Hd & _ & Hl). unfold digits_at.
  rewrite drop_app_length' by done. by rewrite take_app_length' by done.
Qed.

Lemma byte_is_at l i c pre post : l = pre ++ c :: post → length pre = i → byte_is l i c = true.
Proof.
  intros -> <-. unfold byte_is. apply bool_decide_eq_true. by rewrite list_lookup_middle.
Qed.

(** Locates a field, or a separator, of a stamp at its offset. *)
Ltac at_offset := repeat (rewrite <-?app_assoc; cbn [app]); reflexivity.
Ltac offset_is := unfold digits_of in *; repeat (rewrite length_app; cbn [length]); lia.

Section stamp.
Context (ly lmo ld lh lmi ls lms : list ascii) (y mo d h mi s ms : Z).
Context (Dy : digits_of 4 y ly) (Dmo : digits_of 2 mo lmo) (Dd : digits_of 2 d ld)
  (Dh : digits_of 2 h lh) (Dmi : digits_of 2 mi lmi) (Ds : digits_of 2 s ls)
  (Dms : digits_of 3 ms lms).

Definition stamp_list : list ascii :=
  ly ++ lmo ++ ld ++ "-"%char :: lh ++ ":"%char :: lmi ++ ":"%char :: ls ++ "."%char :: lms.

Lemma stamp_list_length : length stamp_list = 21%nat.
Proof using Dy Dmo Dd Dh Dmi Ds Dms.
  unfold stamp_list, digits_of in *. repeat (rewrite length_app; cbn [length]). lia.
Qed.

Lemma stamp_list_valid :
  digits_at stamp_list 0 8 = true ∧ byte_is stamp_list 8 "-" = true ∧
  digits_at stamp_list 9 11 = true ∧ byte_is stamp_list 11 ":" = true ∧
  digits_at stamp_list 12 14 = true ∧ byte_is stamp_list 14 ":" = true ∧
  digits_at stamp_list 15 17 = true ∧ byte_is stamp_list 17 "." = true ∧
  forallb is_digit (drop 18 stamp_list) = true.
Proof using Dy Dmo Dd Dh Dmi Ds Dms.
  unfold stamp_list. split_and!.
  - eapply (digits_at_mid _ _ _ [] (ly ++ lmo ++ ld)); [at_offset|done|].
    unfold digits_of in *. rewrite !forallb_app, !length_app. split_and!; [|reflexivity|lia].
    rewrite !andb_true_iff. tauto.
  - eapply (byte_is_at _ _ _ (ly ++ lmo ++ ld)); [at_offset|offset_is].
  - eapply (digits_at_mid _ _ _ (ly ++ lmo ++ ld ++ ["-"%char]) lh); [at_offset|offset_is|done].
  - eapply (byte_is_at _ _ _ (ly ++ lmo ++ ld ++ "-"%char :: lh)); [at_offset|offset_is].
  - eapply (digits_at_mid _ _ _ (ly ++ lmo ++ ld ++ "-"%char :: lh ++ [":"%char]) lmi);
      [at_offset|offset_is|done].
  - eapply (byte_is_at _ _ _ (ly ++ lmo ++ ld ++ "-"%char :: lh ++ ":"%char :: lmi));
      [at_offset|offset_is].
  - eapply (digits_at_mid _ _ _
      (ly ++ lmo ++ ld ++ "-"%char :: lh ++ ":"%char :: lmi ++ [":"%char]) ls);
      [at_offset|offset_is|done].
  - eapply (byte_is_at _ _ _
      (ly ++ lmo ++ ld ++ "-"%char :: lh ++ ":"%char :: lmi ++ ":"%char :: ls));
      [at_offset|offset_is].
  - replace (ly ++ lmo ++ ld ++ "-"%char :: lh ++ ":"%char :: lmi ++ ":"%char :: ls ++ "."%char :: lms)
      with ((ly ++ lmo ++ ld ++ "-"%char :: lh ++ ":"%char :: lmi ++ ":"%char :: ls ++ ["."%char]) ++ lms)
      by at_offset.
    rewrite drop_app_length' by offset_is. apply Dms.
Qed.

Lemma stamp_list_fields :
  0 ≤ y < 10 ^ 4 → 0 ≤ mo < 100 → 0 ≤ d < 100 → 0 ≤ h < 100 → 0 ≤ mi < 100 → 0 ≤ s < 100 →
  0 ≤ ms < 1000 →
  read_digits stamp_list 0 4 = Some y ∧ read_digits stamp_list 4 6 = Some mo ∧
  read_digits stamp_list 6 8 = Some d ∧ read_digits stamp_list 9 11 = Some h ∧
  read_digits stamp_list 12 14 = Some mi ∧ read_digits stamp_list 15 17 = Some s ∧
  read_digits stamp_list 18 21 = Some ms.
Proof using Dy Dmo Dd Dh Dmi Ds Dms.
  intros. unfold stamp_list. split_and!.
  - eapply (read_digits_at _ _ _ [] ly); [at_offset|done|done|lia|unfold_int; lia].
  - eapply (read_digits_at _ _ _ ly lmo); [at_offset|offset_is|done|lia|unfold_int; lia].
  - eapply (read_digits_at _ _ _ (ly ++ lmo) ld); [at_offset|offset_is|done|lia|unfold_int; lia].
  - eapply (read_digits_at _ _ _ (ly ++ lmo ++ ld ++ ["-"%char]) lh);
      [at_offset|offset_is|done|lia|unfold_int; lia].
  - eapply (read_digits_at _ _ _ (ly ++ lmo ++ ld ++ "-"%char :: lh ++ [":"%char]) lmi);
      [at_offset|offset_is|done|lia|unfold_int; lia].
  - eapply (read_digits_at _ _ _
      (ly ++ lmo ++ ld ++ "-"%char :: lh ++ ":"%char :: lmi ++ [":"%char]) ls);
      [at_offset|offset_is|done|lia|unfold_int; lia].
  - eapply (read_digits_at _ _ _
      (ly ++ lmo ++ ld ++ "-"%char :: lh ++ ":"%char :: lmi ++ ":"%char :: ls ++ ["."%char]) lms []);
      [rewrite app_nil_r; at_offset|offset_is|done|lia|unfold_int; lia].
Qed.
End stamp.

(** ** Round trip *)

(** The last millisecond of the year 9999. *)
Definition MAX_FOUR_DIGIT_MS : Z := 253_402_300_799_999.

Lemma from_epoch_ms_stamp ms :
  from_epoch_ms ms =
    let '(year, month, day) := civil_from_days (ms / 1_000 / 86_400) in
    stamp year month day (ms / 1_000 mod 86_400 / 3_600) (ms / 1_000 mod 86_400 mod 3_600 / 60)
      (ms / 1_000 mod 86_400 mod 60) (ms mod 1_000).
Proof. unfold from_epoch_ms. by destruct (civil_from_days _) as [[? ?] ?]. Qed.

(** A year past 9999 pushes a digit into the separator's place. *)
Lemma stamp_long_year y mo d h mi s ms :
  10 ^ 4 ≤ y < 10 ^ 40 → 0 ≤ mo < 100 → 0 ≤ d < 100 →
  is_valid_utc_timestamp (stamp y mo d h mi s ms) = false.
Proof.
  intros Hy Hmo Hd.
  assert (forallb is_digit (bytes (pad_dec 4 y)) = true ∧ (5 ≤ length (bytes (pad_dec 4 y)))%nat)
    as [Hyd Hyl].
  { unfold pad_dec. rewrite bytes_app, bytes_text, forallb_app, forallb_zeros, dec_digits.
    split; [done|]. pose proof (num_bound _ (dec_digits y)) as Hb. rewrite dec_num in Hb by lia.
    rewrite length_app. destruct (Nat.le_gt_cases 5 (length (bytes (dec y)))); [lia|].
    assert (10 ^ Z.of_nat (length (bytes (dec y))) ≤ 10 ^ 4) by (apply Z.pow_le_mono_r; lia). lia. }
  destruct (pad_dec_spec 2 mo Hmo ltac:(lia)) as (Hmd & _ & Hml).
  destruct (pad_dec_spec 2 d Hd ltac:(lia)) as (Hdd & _ & Hdl).
  set (pre := bytes (pad_dec 4 y) ++ bytes (pad_dec 2 mo) ++ bytes (pad_dec 2 d)).
  assert (∃ post, bytes (stamp y mo d h mi s ms) = pre ++ post) as [post E].
  { eexists. unfold stamp, pre. rewrite !bytes_app, <-!app_assoc. reflexivity. }
  assert (forallb is_digit pre = true ∧ (9 ≤ length pre)%nat) as [Hpd Hpl].
  { subst pre. rewrite !forallb_app, !length_app, Hyd, Hmd, Hdd. split; [done|lia]. }
  unfold is_valid_utc_timestamp. rewrite E.
  destruct (length (pre ++ post) <? 17)%nat; [done|].
  assert (byte_is (pre ++ post) 8 "-" = false) as ->; [|by rewrite andb_false_r].
  unfold byte_is. apply bool_decide_eq_false. rewrite lookup_app_l by lia. intros Hl.
  rewrite forallb_forall in Hpd. by apply list_elem_of_lookup_2, list_elem_of_In, Hpd in Hl.
Qed.

(** Venue timestamps round-trip: every instant of the years 1970 to 9999 formats
    to a string the FIX validation accepts and that parses back to exactly that
    millisecond; every later instant formats to a string the validation refuses, so
    the formatter is not total on the clock's 64-bit range. *)
Theorem utc_timestamp_roundtrip ms :
  has_ty u64 ms →
  (ms ≤ MAX_FOUR_DIGIT_MS →
     is_valid_utc_timestamp (from_epoch_ms ms) = true ∧ to_epoch_ms (from_epoch_ms ms) = Some ms) ∧
  (MAX_FOUR_DIGIT_MS < ms → is_valid_utc_timestamp (from_epoch_ms ms) = false).
Proof.
  intros Hms. assert (0 ≤ ms < 2 ^ 64) as Hr by (unfold_int; lia). clear Hms.
  rewrite from_epoch_ms_stamp. unfold MAX_FOUR_DIGIT_MS.
  set (days := ms / 1_000 / 86_400). set (rem := ms / 1_000 mod 86_400).
  assert (0 ≤ days) as Hd by (subst days; Z.to_euclidean_division_equations; lia).
  assert (days ≤ MAX_FOUR_DIGIT_DAY ↔ ms ≤ 253_402_300_799_999) as Hmax.
  { unfold MAX_FOUR_DIGIT_DAY. subst days. Z.to_euclidean_division_equations; lia. }
  assert (ms = (days * 86_400 + rem) * 1_000 + ms mod 1_000) as Hsplit
    by (subst days rem; Z.to_euclidean_division_equations; lia).
  assert (0 ≤ rem < 86_400) as Hrem by (apply Z.mod_pos_bound; lia).
  pose proof (Z.mod_pos_bound ms 1_000 ltac:(lia)) as Hm.
  pose proof (civil_spec days Hd) as Hc.
  destruct (civil_from_days days) as [[year month] day].
  destruct Hc as (Hy0 & Hy & Hmo & Hda & Hinv).
  set (h := rem / 3_600). set (mi := rem mod 3_600 / 60). set (s := rem mod 60).
  assert (0 ≤ h < 24 ∧ 0 ≤ mi < 60 ∧ 0 ≤ s < 60 ∧ rem = h * 3_600 + mi * 60 + s) as (Hh & Hmi & Hs & Ht)
    by (subst h mi s; clearbody rem; Z.to_euclidean_division_equations; lia).
  clearbody h mi s rem. split.
  - intros Hle. apply Hmax in Hle. pose proof (proj1 Hy Hle) as Hyle.
    destruct (stamp_bytes year month day h mi s (ms mod 1_000))
      as (ly & lmo & ld & lh & lmi & ls & lms & E & Dy & Dmo & Dd & Dh & Dmi & Ds & Dms); [lia..|].
    change (_ = _) with (bytes (stamp year month day h mi s (ms mod 1_000)) =
      stamp_list ly lmo ld lh lmi ls lms) in E.
    pose proof (stamp_list_length _ _ _ _ _ _ _ _ _ _ _ _ _ _ Dy Dmo Dd Dh Dmi Ds Dms) as Hl.
    destruct (stamp_list_valid _ _ _ _ _ _ _ _ _ _ _ _ _ _ Dy Dmo Dd Dh Dmi Ds Dms)
      as (V1 & V2 & V3 & V4 & V5 & V6 & V7 & V8 & V9).
    destruct (stamp_list_fields _ _ _ _ _ _ _ _ _ _ _ _ _ _ Dy Dmo Dd Dh Dmi Ds Dms)
      as (F1 & F2 & F3 & F4 & F5 & F6 & F7); [lia..|].
    split.
    + unfold is_valid_utc_timestamp. by rewrite E, Hl, V1, V2, V3, V4, V5, V6, V7, V8, V9.
    + unfold to_epoch_ms. rewrite E, Hl, F1, F2, F3, F4, F5, F6, F7.
      cbn [mbind option_bind Nat.eqb]. rewrite Hinv by done. cbn [mbind option_bind].
      unfold MAX_FOUR_DIGIT_DAY in Hle. unfold checked_mul, checked_add.
      do 6 (rewrite (narrow_fits i64) by (unfold_int; lia); cbn [mbind option_bind]).
      destruct (Z.ltb_spec (days * 86_400 + h * 3_600 + mi * 60 + s) 0); [lia|].
      do 4 (rewrite (narrow_fits u64) by (unfold_int; lia); cbn [mbind option_bind]).
      f_equal. lia.
  - intros Hgt. assert (¬ year ≤ 9999) as Hlong by (intros ?%Hy%Hmax; lia).
    apply stamp_long_year; [|lia|lia]. assert (days ≤ ms) by lia. lia.
Qed.

(** The first instant of the year 10000, and a leap day. *)
Example utc_timestamps :
  from_epoch_ms 253_402_300_800_000 = "100000101-00:00:00.000" ∧
  from_epoch_ms 1_709_208_000_123 = "20240229-12:00:00.123" ∧
  to_epoch_ms "20240229-12:00:00.123" = Some 1_709_208_000_123.
Proof. by vm_compute. Qed.

Lemma utc_timestamp_roundtrip_witness :
  to_epoch_ms (from_epoch_ms 1_709_208_000_123) = Some 1_709_208_000_123.
Proof.
  refine (proj2 (proj1 (utc_timestamp_roundtrip 1_709_208_000_123 _) _));
    vm_compute; first [split; intros [=]|intros [=]].
Defined.
