(* ===== verification/FixWire.v ===== *)
(** The FIX wire layer ([src/src/gateway/fix/]): decode and encode errors and their
    reject routes ([error.rs]), resource limits ([limits.rs]), the field bag and the
    field writer ([codec.rs]), and the standard header ([header.rs]).

    Framing and the tag-value encoder are the ironfix crates, which are not part of
    this repository: they are the class [FixLib]. *)

From S2P Require Export FixText FixPrice FixTime Upstream.

(** ** The ironfix boundary *)

(** The message types the gateway names, and the rest. *)
Inductive MsgType :=
  | MtLogon | MtLogout | MtHeartbeat | MtTestRequest | MtResendRequest | MtSequenceReset | MtReject
  | MtNewOrderSingle | MtOrderCancelRequest | MtOrderCancelReplaceRequest
  | MtOrderMassCancelRequest | MtOrderStatusRequest
  | MtExecutionReport | MtOrderCancelReject | MtOrderMassCancelReport | MtBusinessMessageReject
  | MtMarketDataRequest | MtMarketDataSnapshotFullRefresh | MtMarketDataIncrementalRefresh
  | MtMarketDataRequestReject
  | MtCustom (raw_type : string)
  | MtOther (as_str : string).
#[export] Instance MsgType_eq_dec : EqDecision MsgType. Proof. solve_decision. Defined.

(** A framed message: what its accessors return. *)
Record RawMessage := {
  raw_begin_string : result string string;
  raw_msg_type : MsgType;
  raw_field_count : Z;
  raw_fields : list (Z * string);
}.

Class FixLib := {
  BEGIN_STRING : string;
  (** [Decoder::decode]. *)
  frame_decode : string → result string RawMessage;
  (** [Encoder]. *)
  Encoder : Type;
  encoder_new : string → Encoder;
  put_str : Encoder → Z → string → Encoder;
  put_uint : Encoder → Z → Z → Encoder;
  put_bool : Encoder → Z → bool → Encoder;
  encoder_finish : Encoder → result string string;
  (** [CompId::new] accepts at most 32 bytes. *)
  comp_id_accepts : string → bool;
}.

(** A [CompId] is its string, a [SeqNum] its number. *)
Notation CompId := string (only parsing).
Notation SeqNum := Z (only parsing).

(** ** Errors ([error.rs]) *)

Inductive FixEncodeError := EncodeFailed (source : string).

Inductive SessionRejectReason :=
  | RequiredTagMissing | ValueIsIncorrectReason | IncorrectDataFormatReason | CompIdProblem
  | SendingTimeAccuracy | InvalidMsgType | TagAppearsMoreThanOnce | IncorrectNumInGroupCount
  | OtherReason (code : Z).
#[export] Instance SessionRejectReason_eq_dec : EqDecision SessionRejectReason.
Proof. solve_decision. Defined.

Definition reason_to_fix (r : SessionRejectReason) : Z :=
  match r with
  | RequiredTagMissing => 1
  | ValueIsIncorrectReason => 5
  | IncorrectDataFormatReason => 6
  | CompIdProblem => 9
  | SendingTimeAccuracy => 10
  | InvalidMsgType => 11
  | TagAppearsMoreThanOnce => 13
  | IncorrectNumInGroupCount => 16
  | OtherReason code => code
  end.

Definition reason_from_fix (code : Z) : SessionRejectReason :=
  match code with
  | 1 => RequiredTagMissing
  | 5 => ValueIsIncorrectReason
  | 6 => IncorrectDataFormatReason
  | 9 => CompIdProblem
  | 10 => SendingTimeAccuracy
  | 11 => InvalidMsgType
  | 13 => TagAppearsMoreThanOnce
  | 16 => IncorrectNumInGroupCount
  | other => OtherReason other
  end.

Inductive FixRejectRoute :=
  | SessionReject (reason : SessionRejectReason) (ref_tag : option Z)
  | BusinessMessageRejectRoute.

Inductive FixDecodeError :=
  | Framing (source : string)
  | BeginStringMismatch (expected actual : string)
  | MissingRequiredField (tag : Z)
  | MissingConditionalField (tag : Z) (condition : string)
  | MissingRequiredChoice (first second : Z)
  | IncorrectDataFormat (tag : Z) (reason : string)
  | ValueIsIncorrect (tag : Z) (value : string)
  | MalformedSymbol (reason : string)
  | PriceError (tag : Z) (source : PriceSeamError)
  | EmptyGroup (count_tag : Z)
  | GroupCountMismatch (count_tag declared decoded : Z)
  | UnsupportedApplicationMsgType (msg_type : string)
  | UnsupportedMsgType (msg_type : string)
  | DuplicateTag (tag : Z)
  | TooManyFields (count max : Z)
  | TooManyGroupEntries (count_tag declared max : Z).

Definition from_symbol_error (err : SymbolError) : FixDecodeError :=
  MalformedSymbol (truncate_untrusted (symbol_error_display err)).

Definition reject_route (e : FixDecodeError) : FixRejectRoute :=
  match e with
  | Framing _ => SessionReject IncorrectDataFormatReason None
  | BeginStringMismatch _ _ => SessionReject IncorrectDataFormatReason (Some 8)
  | MissingRequiredField tag => SessionReject RequiredTagMissing (Some tag)
  | MissingConditionalField tag _ => SessionReject RequiredTagMissing (Some tag)
  | MissingRequiredChoice first _ => SessionReject RequiredTagMissing (Some first)
  | IncorrectDataFormat tag _ => SessionReject IncorrectDataFormatReason (Some tag)
  | ValueIsIncorrect tag _ => SessionReject ValueIsIncorrectReason (Some tag)
  | MalformedSymbol _ => SessionReject ValueIsIncorrectReason (Some 55)
  | PriceError tag _ => SessionReject IncorrectDataFormatReason (Some tag)
  | EmptyGroup count_tag => SessionReject IncorrectNumInGroupCount (Some count_tag)
  | GroupCountMismatch count_tag _ _ => SessionReject IncorrectNumInGroupCount (Some count_tag)
  | UnsupportedMsgType _ => SessionReject InvalidMsgType (Some 35)
  | UnsupportedApplicationMsgType _ => BusinessMessageRejectRoute
  | DuplicateTag tag => SessionReject TagAppearsMoreThanOnce (Some tag)
  | TooManyFields _ _ => SessionReject (OtherReason 99) None
  | TooManyGroupEntries count_tag _ _ => SessionReject IncorrectNumInGroupCount (Some count_tag)
  end.

(** ** Limits ([limits.rs]) *)

Definition MAX_FIELDS_PER_MESSAGE : Z := 4096.
Definition MAX_GROUP_ENTRIES : Z := 1024.
Definition PURE_GROUP_MEMBER_TAGS : list Z := [269; 270; 271; 279; 535].
Definition SYMBOL_TAG : Z := 55.

Definition is_pure_group_member (tag : Z) : bool := existsb (Z.eqb tag) PURE_GROUP_MEMBER_TAGS.

Definition symbol_repeats_in_msg_type (msg_type : MsgType) : bool :=
  match msg_type with
  | MtMarketDataRequest | MtMarketDataIncrementalRefresh => true
  | _ => false
  end.

(** ** Tags ([codec.rs]) *)

Module tags.
Definition BEGIN_STRING : Z := 8.
Definition BODY_LENGTH : Z := 9.
Definition MSG_TYPE : Z := 35.
Definition MSG_SEQ_NUM : Z := 34.
Definition SENDER_COMP_ID : Z := 49.
Definition TARGET_COMP_ID : Z := 56.
Definition SENDING_TIME : Z := 52.
Definition CHECK_SUM : Z := 10.
Definition ENCRYPT_METHOD : Z := 98.
Definition HEART_BT_INT : Z := 108.
Definition USERNAME : Z := 553.
Definition PASSWORD : Z := 554.
Definition RESET_SEQ_NUM_FLAG : Z := 141.
Definition TEXT : Z := 58.
Definition TEST_REQ_ID : Z := 112.
Definition BEGIN_SEQ_NO : Z := 7.
Definition END_SEQ_NO : Z := 16.
Definition NEW_SEQ_NO : Z := 36.
Definition GAP_FILL_FLAG : Z := 123.
Definition REF_SEQ_NUM : Z := 45.
Definition SESSION_REJECT_REASON : Z := 373.
Definition REF_TAG_ID : Z := 371.
Definition REF_MSG_TYPE : Z := 372.
Definition ACCOUNT : Z := 1.
Definition CL_ORD_ID : Z := 11.
Definition ORIG_CL_ORD_ID : Z := 41.
Definition SYMBOL : Z := 55.
Definition SIDE : Z := 54.
Definition TRANSACT_TIME : Z := 60.
Definition ORD_TYPE : Z := 40.
Definition PRICE : Z := 44.
Definition ORDER_QTY : Z := 38.
Definition TIME_IN_FORCE : Z := 59.
Definition EXPIRE_TIME : Z := 126.
Definition ORDER_ID : Z := 37.
Definition EXEC_ID : Z := 17.
Definition EXEC_TYPE : Z := 150.
Definition ORD_STATUS : Z := 39.
Definition LEAVES_QTY : Z := 151.
Definition CUM_QTY : Z := 14.
Definition LAST_QTY : Z := 32.
Definition LAST_PX : Z := 31.
Definition SECONDARY_EXEC_ID : Z := 527.
Definition COMMISSION : Z := 12.
Definition COMM_TYPE : Z := 13.
Definition LAST_LIQUIDITY_IND : Z := 851.
Definition ORD_REJ_REASON : Z := 103.
Definition CXL_REJ_RESPONSE_TO : Z := 434.
Definition CXL_REJ_REASON : Z := 102.
Definition MASS_CANCEL_REQUEST_TYPE : Z := 530.
Definition MASS_CANCEL_RESPONSE : Z := 531.
Definition TOTAL_AFFECTED_ORDERS : Z := 533.
Definition NO_AFFECTED_ORDERS : Z := 534.
Definition AFFECTED_ORDER_ID : Z := 535.
Definition MD_REQ_ID : Z := 262.
Definition SUBSCRIPTION_REQUEST_TYPE : Z := 263.
Definition MARKET_DEPTH : Z := 264.
Definition NO_MD_ENTRY_TYPES : Z := 267.
Definition MD_ENTRY_TYPE : Z := 269.
Definition NO_RELATED_SYM : Z := 146.
Definition RPT_SEQ : Z := 83.
Definition NO_MD_ENTRIES : Z := 268.
Definition MD_ENTRY_PX : Z := 270.
Definition MD_ENTRY_SIZE : Z := 271.
Definition MD_UPDATE_ACTION : Z := 279.
Definition MD_REQ_REJ_REASON : Z := 281.
Definition BUSINESS_REJECT_REASON : Z := 380.
End tags.

(** ** The field bag *)

Notation FieldBag := (list (Z * string)) (only parsing).

Fixpoint bag_find (fields : FieldBag) (tag : Z) : option string :=
  match fields with
  | [] => None
  | (t, value) :: fields => if t =? tag then Some value else bag_find fields tag
  end.

Definition bag_has (fields : FieldBag) (tag : Z) : bool :=
  match bag_find fields tag with Some _ => true | None => false end.

Definition opt_str (fields : FieldBag) (tag : Z) : result FixDecodeError (option string) :=
  match bag_find fields tag with
  | Some value =>
      if utf8_valid value then Ok (Some value)
      else Err (IncorrectDataFormat tag "value is not valid utf-8")
  | None => Ok None
  end.

Definition req_str (fields : FieldBag) (tag : Z) : result FixDecodeError string :=
  o ← opt_str fields tag;
  ok_or (MissingRequiredField tag) o.

Definition opt_u64 (fields : FieldBag) (tag : Z) : result FixDecodeError (option Z) :=
  o ← opt_str fields tag;
  match o with
  | Some t =>
      n ← ok_or (IncorrectDataFormat tag
                   ("'" +:+ truncate_untrusted t +:+ "' is not a valid unsigned integer"))
            (parse_uint u64 t);
      Ok (Some n)
  | None => Ok None
  end.

Definition req_u64 (fields : FieldBag) (tag : Z) : result FixDecodeError Z :=
  o ← opt_u64 fields tag;
  ok_or (MissingRequiredField tag) o.

Definition req_u32 (fields : FieldBag) (tag : Z) : result FixDecodeError Z :=
  value ← req_u64 fields tag;
  ok_or (IncorrectDataFormat tag ("'" +:+ dec value +:+ "' exceeds the 32-bit range"))
    (narrow u32 value).

Definition u16 := IntTy 0 65535.

Definition opt_u16 (fields : FieldBag) (tag : Z) : result FixDecodeError (option Z) :=
  o ← opt_str fields tag;
  match o with
  | Some t =>
      n ← ok_or (IncorrectDataFormat tag
                   ("'" +:+ truncate_untrusted t +:+ "' is not a valid 16-bit reason code"))
            (parse_uint u16 t);
      Ok (Some n)
  | None => Ok None
  end.

Definition req_u16 (fields : FieldBag) (tag : Z) : result FixDecodeError Z :=
  o ← opt_u16 fields tag;
  ok_or (MissingRequiredField tag) o.

Definition opt_bool (fields : FieldBag) (tag : Z) : result FixDecodeError (option bool) :=
  o ← opt_str fields tag;
  match o with
  | Some t =>
      if String.eqb t "Y" then Ok (Some true)
      else if String.eqb t "N" then Ok (Some false)
      else Err (IncorrectDataFormat tag
                  ("'" +:+ truncate_untrusted t +:+ "' is not a FIX boolean (Y/N)"))
  | None => Ok None
  end.

(** The fields after the first occurrence of the count tag. *)
Fixpoint after_tag (fields : FieldBag) (tag : Z) : option FieldBag :=
  match fields with
  | [] => None
  | (t, _) :: fields => if t =? tag then Some fields else after_tag fields tag
  end.

(** The group loop: a delimiter opens an entry, a member extends the open one, any
    other tag ends the group; a member before the first delimiter is an error. *)
Fixpoint group_loop (delimiter_tag : Z) (member_tags : list Z) (fields : FieldBag)
    (groups : list FieldBag) (current : option FieldBag) : option (list FieldBag) :=
  let close := match current with Some entry => groups ++ [entry] | None => groups end in
  match fields with
  | [] => Some close
  | (tag, value) :: fields =>
      if tag =? delimiter_tag then
        group_loop delimiter_tag member_tags fields close (Some [(tag, value)])
      else if existsb (Z.eqb tag) member_tags then
        match current with
        | Some entry =>
            group_loop delimiter_tag member_tags fields groups (Some (entry ++ [(tag, value)]))
        | None => None
        end
      else Some close
  end.

Definition group (fields : FieldBag) (count_tag delimiter_tag : Z) (member_tags : list Z) :
    result FixDecodeError (list FieldBag) :=
  declared ← req_u32 fields count_tag;
  if MAX_GROUP_ENTRIES <? declared
  then Err (TooManyGroupEntries count_tag declared MAX_GROUP_ENTRIES)
  else
    rest ← ok_or (MissingRequiredField count_tag) (after_tag fields count_tag);
    match group_loop delimiter_tag member_tags rest [] None with
    | None => Err (GroupCountMismatch count_tag declared 0)
    | Some groups =>
        let decoded := default (int_max u32) (narrow u32 (Z.of_nat (length groups))) in
        if negb (decoded =? declared) then Err (GroupCountMismatch count_tag declared decoded)
        else Ok groups
    end.

Definition required_group (fields : FieldBag) (count_tag delimiter_tag : Z)
    (member_tags : list Z) : result FixDecodeError (list FieldBag) :=
  groups ← group fields count_tag delimiter_tag member_tags;
  if bool_decide (groups = []) then Err (EmptyGroup count_tag) else Ok groups.

Fixpoint duplicate_loop (symbol_repeatable : bool) (fields : FieldBag) (seen : list Z) :
    result FixDecodeError unit :=
  match fields with
  | [] => Ok tt
  | (tag, _) :: fields =>
      if is_pure_group_member tag || ((tag =? SYMBOL_TAG) && symbol_repeatable)
      then duplicate_loop symbol_repeatable fields seen
      else if existsb (Z.eqb tag) seen
      then Err (DuplicateTag (default (int_max u16) (narrow u16 tag)))
      else duplicate_loop symbol_repeatable fields (seen ++ [tag])
  end.

Definition reject_duplicate_scalar_tags (fields : FieldBag) (symbol_repeatable : bool) :
    result FixDecodeError unit := duplicate_loop symbol_repeatable fields [].

(** ** The field writer *)

Section writer.
Context `{FixLib}.

Definition writer_new (msg_type : string) : Encoder :=
  put_str (encoder_new FixWire.BEGIN_STRING) tags.MSG_TYPE msg_type.
Definition w_str (w : Encoder) (tag : Z) (value : string) : Encoder := put_str w tag value.
Definition w_opt_str (w : Encoder) (tag : Z) (value : option string) : Encoder :=
  match value with Some value => w_str w tag value | None => w end.
Definition w_u64 (w : Encoder) (tag value : Z) : Encoder := put_uint w tag value.
Definition w_opt_u64 (w : Encoder) (tag : Z) (value : option Z) : Encoder :=
  match value with Some value => w_u64 w tag value | None => w end.
Definition w_u16 (w : Encoder) (tag value : Z) : Encoder := put_uint w tag value.
Definition w_opt_u16 (w : Encoder) (tag : Z) (value : option Z) : Encoder :=
  match value with Some value => w_u16 w tag value | None => w end.
Definition w_opt_bool (w : Encoder) (tag : Z) (value : option bool) : Encoder :=
  match value with Some value => put_bool w tag value | None => w end.
Definition writer_finish (w : Encoder) : result FixEncodeError string :=
  map_err EncodeFailed (encoder_finish w).

(** ** The standard header ([header.rs]) *)

Definition UtcTimestamp_parse (tag : Z) (value : string) : result FixDecodeError UtcTimestamp :=
  if is_valid_utc_timestamp value then Ok value
  else Err (IncorrectDataFormat tag
              ("'" +:+ truncate_untrusted value +:+
               "' is not a FIX UTC timestamp (YYYYMMDD-HH:MM:SS[.sss])")).

Record StandardHeader := {
  sender_comp_id : CompId;
  target_comp_id : CompId;
  msg_seq_num : SeqNum;
  sending_time : UtcTimestamp;
}.

Definition decode_comp_id (tag : Z) (value : string) : result FixDecodeError CompId :=
  if comp_id_accepts value then Ok value
  else Err (IncorrectDataFormat tag "comp id exceeds the 32-byte limit").

Definition header_decode (fields : FieldBag) : result FixDecodeError StandardHeader :=
  sender ← req_str fields tags.SENDER_COMP_ID;
  sender_comp_id ← decode_comp_id tags.SENDER_COMP_ID sender;
  target ← req_str fields tags.TARGET_COMP_ID;
  target_comp_id ← decode_comp_id tags.TARGET_COMP_ID target;
  msg_seq_num ← req_u64 fields tags.MSG_SEQ_NUM;
  time ← req_str fields tags.SENDING_TIME;
  sending_time ← UtcTimestamp_parse tags.SENDING_TIME time;
  Ok {| sender_comp_id := sender_comp_id; target_comp_id := target_comp_id;
        msg_seq_num := msg_seq_num; sending_time := sending_time |}.

Definition header_encode (h : StandardHeader) (w : Encoder) : Encoder :=
  let w := w_str w tags.SENDER_COMP_ID (sender_comp_id h) in
  let w := w_str w tags.TARGET_COMP_ID (target_comp_id h) in
  let w := w_u64 w tags.MSG_SEQ_NUM (msg_seq_num h) in
  w_str w tags.SENDING_TIME (sending_time h).
End writer.
