(* ===== verification/FixMessages.v ===== *)
(** The typed FIX messages of the venue dialect: the closed enumerations
    ([src/src/gateway/fix/enums.rs]), the session messages ([session.rs]), the order
    messages ([order.rs]), the reports ([execution.rs]) and the market-data messages
    ([marketdata.rs]), each with its decoder and encoder, and the top-level decoder
    ([mod.rs]). *)

From S2P Require Export FixWire.

(** ** Closed enumerations ([enums.rs]) *)

(** An unknown wire value. *)
Definition closed_enum_error {A} (tag : Z) (other : string) : result FixDecodeError A :=
  Err (ValueIsIncorrect tag (truncate_untrusted other)).

Inductive OrderSide := OsBuy | OsSell.
#[export] Instance OrderSide_eq_dec : EqDecision OrderSide. Proof. solve_decision. Defined.
Definition side_to_fix (v : OrderSide) : string :=
  match v with OsBuy => "1" | OsSell => "2" end.
Definition side_from_fix (value : string) : result FixDecodeError OrderSide :=
  if String.eqb value "1" then Ok OsBuy else
  if String.eqb value "2" then Ok OsSell else
  closed_enum_error 54 value.

Inductive OrdType := OtMarket | OtLimit.
#[export] Instance OrdType_eq_dec : EqDecision OrdType. Proof. solve_decision. Defined.
Definition ord_type_to_fix (v : OrdType) : string :=
  match v with OtMarket => "1" | OtLimit => "2" end.
Definition ord_type_from_fix (value : string) : result FixDecodeError OrdType :=
  if String.eqb value "1" then Ok OtMarket else
  if String.eqb value "2" then Ok OtLimit else
  closed_enum_error 40 value.

Inductive FixTif := TifDay | TifGtc | TifIoc | TifFok | TifGtd.
#[export] Instance FixTif_eq_dec : EqDecision FixTif. Proof. solve_decision. Defined.
Definition tif_to_fix (v : FixTif) : string :=
  match v with TifDay => "0" | TifGtc => "1" | TifIoc => "3" | TifFok => "4" | TifGtd => "6" end.
Definition tif_from_fix (value : string) : result FixDecodeError FixTif :=
  if String.eqb value "0" then Ok TifDay else
  if String.eqb value "1" then Ok TifGtc else
  if String.eqb value "3" then Ok TifIoc else
  if String.eqb value "4" then Ok TifFok else
  if String.eqb value "6" then Ok TifGtd else
  closed_enum_error 59 value.

Inductive ExecType := EtNew | EtTrade | EtCanceled | EtReplaced | EtRejected | EtExpired.
#[export] Instance ExecType_eq_dec : EqDecision ExecType. Proof. solve_decision. Defined.
Definition exec_type_to_fix (v : ExecType) : string :=
  match v with EtNew => "0" | EtTrade => "F" | EtCanceled => "4" | EtReplaced => "5" | EtRejected => "8" | EtExpired => "C" end.
Definition exec_type_from_fix (value : string) : result FixDecodeError ExecType :=
  if String.eqb value "0" then Ok EtNew else
  if String.eqb value "F" then Ok EtTrade else
  if String.eqb value "4" then Ok EtCanceled else
  if String.eqb value "5" then Ok EtReplaced else
  if String.eqb value "8" then Ok EtRejected else
  if String.eqb value "C" then Ok EtExpired else
  closed_enum_error 150 value.

Inductive OrdStatus := StNew | StPartiallyFilled | StFilled | StCanceled | StReplaced | StRejected | StExpired.
#[export] Instance OrdStatus_eq_dec : EqDecision OrdStatus. Proof. solve_decision. Defined.
Definition ord_status_to_fix (v : OrdStatus) : string :=
  match v with StNew => "0" | StPartiallyFilled => "1" | StFilled => "2" | StCanceled => "4" | StReplaced => "5" | StRejected => "8" | StExpired => "C" end.
Definition ord_status_from_fix (value : string) : result FixDecodeError OrdStatus :=
  if String.eqb value "0" then Ok StNew else
  if String.eqb value "1" then Ok StPartiallyFilled else
  if String.eqb value "2" then Ok StFilled else
  if String.eqb value "4" then Ok StCanceled else
  if String.eqb value "5" then Ok StReplaced else
  if String.eqb value "8" then Ok StRejected else
  if String.eqb value "C" then Ok StExpired else
  closed_enum_error 39 value.

Inductive MassCancelRequestType := MqSecurity | MqAll.
#[export] Instance MassCancelRequestType_eq_dec : EqDecision MassCancelRequestType. Proof. solve_decision. Defined.
Definition mass_cancel_request_type_to_fix (v : MassCancelRequestType) : string :=
  match v with MqSecurity => "1" | MqAll => "7" end.
Definition mass_cancel_request_type_from_fix (value : string) : result FixDecodeError MassCancelRequestType :=
  if String.eqb value "1" then Ok MqSecurity else
  if String.eqb value "7" then Ok MqAll else
  closed_enum_error 530 value.

Inductive MassCancelResponse := MrRejected | MrSecurity | MrAll.
#[export] Instance MassCancelResponse_eq_dec : EqDecision MassCancelResponse. Proof. solve_decision. Defined.
Definition mass_cancel_response_to_fix (v : MassCancelResponse) : string :=
  match v with MrRejected => "0" | MrSecurity => "1" | MrAll => "7" end.
Definition mass_cancel_response_from_fix (value : string) : result FixDecodeError MassCancelResponse :=
  if String.eqb value "0" then Ok MrRejected else
  if String.eqb value "1" then Ok MrSecurity else
  if String.eqb value "7" then Ok MrAll else
  closed_enum_error 531 value.

Inductive MdEntryType := MeBid | MeOffer | MeTrade.
#[export] Instance MdEntryType_eq_dec : EqDecision MdEntryType. Proof. solve_decision. Defined.
Definition md_entry_type_to_fix (v : MdEntryType) : string :=
  match v with MeBid => "0" | MeOffer => "1" | MeTrade => "2" end.
Definition md_entry_type_from_fix (value : string) : result FixDecodeError MdEntryType :=
  if String.eqb value "0" then Ok MeBid else
  if String.eqb value "1" then Ok MeOffer else
  if String.eqb value "2" then Ok MeTrade else
  closed_enum_error 269 value.

Inductive SubscriptionRequestType := SrSnapshotPlusUpdates | SrUnsubscribe.
#[export] Instance SubscriptionRequestType_eq_dec : EqDecision SubscriptionRequestType. Proof. solve_decision. Defined.
Definition subscription_request_type_to_fix (v : SubscriptionRequestType) : string :=
  match v with SrSnapshotPlusUpdates => "1" | SrUnsubscribe => "2" end.
Definition subscription_request_type_from_fix (value : string) : result FixDecodeError SubscriptionRequestType :=
  if String.eqb value "1" then Ok SrSnapshotPlusUpdates else
  if String.eqb value "2" then Ok SrUnsubscribe else
  closed_enum_error 263 value.

Inductive MdUpdateAction := UaNew | UaChange | UaDelete.
#[export] Instance MdUpdateAction_eq_dec : EqDecision MdUpdateAction. Proof. solve_decision. Defined.
Definition md_update_action_to_fix (v : MdUpdateAction) : string :=
  match v with UaNew => "0" | UaChange => "1" | UaDelete => "2" end.
Definition md_update_action_from_fix (value : string) : result FixDecodeError MdUpdateAction :=
  if String.eqb value "0" then Ok UaNew else
  if String.eqb value "1" then Ok UaChange else
  if String.eqb value "2" then Ok UaDelete else
  closed_enum_error 279 value.

Inductive CxlRejResponseTo := CrOrderCancelRequest | CrOrderCancelReplaceRequest.
#[export] Instance CxlRejResponseTo_eq_dec : EqDecision CxlRejResponseTo. Proof. solve_decision. Defined.
Definition cxl_rej_response_to_to_fix (v : CxlRejResponseTo) : string :=
  match v with CrOrderCancelRequest => "1" | CrOrderCancelReplaceRequest => "2" end.
Definition cxl_rej_response_to_from_fix (value : string) : result FixDecodeError CxlRejResponseTo :=
  if String.eqb value "1" then Ok CrOrderCancelRequest else
  if String.eqb value "2" then Ok CrOrderCancelReplaceRequest else
  closed_enum_error 434 value.

Inductive LastLiquidityInd := LiMaker | LiTaker.
#[export] Instance LastLiquidityInd_eq_dec : EqDecision LastLiquidityInd. Proof. solve_decision. Defined.
Definition last_liquidity_ind_to_fix (v : LastLiquidityInd) : string :=
  match v with LiMaker => "1" | LiTaker => "2" end.
Definition last_liquidity_ind_from_fix (value : string) : result FixDecodeError LastLiquidityInd :=
  if String.eqb value "1" then Ok LiMaker else
  if String.eqb value "2" then Ok LiTaker else
  closed_enum_error 851 value.

Inductive CommType := CtAbsolute.
#[export] Instance CommType_eq_dec : EqDecision CommType. Proof. solve_decision. Defined.
Definition comm_type_to_fix (v : CommType) : string :=
  match v with CtAbsolute => "3" end.
Definition comm_type_from_fix (value : string) : result FixDecodeError CommType :=
  if String.eqb value "3" then Ok CtAbsolute else
  closed_enum_error 13 value.

(** The default time in force is good till cancelled. *)
Definition tif_from_fix_or_default (value : option string) : result FixDecodeError FixTif :=
  match value with Some raw => tif_from_fix raw | None => Ok TifGtc end.

Section messages.
Context `{Upstream} `{FixLib}.

(** Shared decoding steps. *)
Definition decode_symbol (value : string) : result FixDecodeError Symbol :=
  map_err from_symbol_error (Symbol_parse value).

Definition decode_optional_price (fields : FieldBag) (tag : Z) :
    result FixDecodeError (option Cents) :=
  o ← opt_str fields tag;
  match o with
  | Some raw => c ← map_err (PriceError tag) (parse_decimal_to_cents raw); Ok (Some c)
  | None => Ok None
  end.

(** [match fields.opt_str(tag)? { Some(raw) => Some(f(raw)?), None => None }]. *)
Definition decode_optional {A} (f : string → result FixDecodeError A) (fields : FieldBag)
    (tag : Z) : result FixDecodeError (option A) :=
  o ← opt_str fields tag;
  match o with
  | Some raw => a ← f raw; Ok (Some a)
  | None => Ok None
  end.

Definition w_opt_price (w : Encoder) (tag : Z) (value : option Cents) : Encoder :=
  match value with Some c => w_str w tag (render_cents_to_decimal c) | None => w end.

(** ** Session messages ([session.rs]) *)

Record Logon := {
  lo_header : StandardHeader;
  lo_heart_bt_int : Z;
  lo_username : string;
  lo_password : string;
  lo_reset_seq_num_flag : option bool;
}.

Definition Logon_decode (header : StandardHeader) (fields : FieldBag) :
    result FixDecodeError Logon :=
  encrypt_method ← req_u64 fields tags.ENCRYPT_METHOD;
  if negb (encrypt_method =? 0)
  then Err (ValueIsIncorrect tags.ENCRYPT_METHOD (dec encrypt_method))
  else
    heart_bt_int ← req_u32 fields tags.HEART_BT_INT;
    username ← req_str fields tags.USERNAME;
    password ← req_str fields tags.PASSWORD;
    reset ← opt_bool fields tags.RESET_SEQ_NUM_FLAG;
    Ok {| lo_header := header; lo_heart_bt_int := heart_bt_int; lo_username := username;
          lo_password := password; lo_reset_seq_num_flag := reset |}.

Definition Logon_encode (m : Logon) : result FixEncodeError string :=
  let w := writer_new "A" in
  let w := header_encode (lo_header m) w in
  let w := w_u64 w tags.ENCRYPT_METHOD 0 in
  let w := w_u64 w tags.HEART_BT_INT (lo_heart_bt_int m) in
  let w := w_str w tags.USERNAME (lo_username m) in
  let w := w_str w tags.PASSWORD (lo_password m) in
  let w := w_opt_bool w tags.RESET_SEQ_NUM_FLAG (lo_reset_seq_num_flag m) in
  writer_finish w.

Record Logout := { lg_header : StandardHeader; lg_text : option string }.

Definition Logout_decode (header : StandardHeader) (fields : FieldBag) :
    result FixDecodeError Logout :=
  t ← opt_str fields tags.TEXT;
  Ok {| lg_header := header; lg_text := t |}.

Definition Logout_encode (m : Logout) : result FixEncodeError string :=
  let w := writer_new "5" in
  let w := header_encode (lg_header m) w in
  let w := w_opt_str w tags.TEXT (lg_text m) in
  writer_finish w.

Record Heartbeat := { hb_header : StandardHeader; hb_test_req_id : option string }.

Definition Heartbeat_decode (header : StandardHeader) (fields : FieldBag) :
    result FixDecodeError Heartbeat :=
  t ← opt_str fields tags.TEST_REQ_ID;
  Ok {| hb_header := header; hb_test_req_id := t |}.

Definition Heartbeat_encode (m : Heartbeat) : result FixEncodeError string :=
  let w := writer_new "0" in
  let w := header_encode (hb_header m) w in
  let w := w_opt_str w tags.TEST_REQ_ID (hb_test_req_id m) in
  writer_finish w.

Record TestRequest := { tr_header : StandardHeader; tr_test_req_id : string }.

Definition TestRequest_decode (header : StandardHeader) (fields : FieldBag) :
    result FixDecodeError TestRequest :=
  t ← req_str fields tags.TEST_REQ_ID;
  Ok {| tr_header := header; tr_test_req_id := t |}.

Definition TestRequest_encode (m : TestRequest) : result FixEncodeError string :=
  let w := writer_new "1" in
  let w := header_encode (tr_header m) w in
  let w := w_str w tags.TEST_REQ_ID (tr_test_req_id m) in
  writer_finish w.

Record ResendRequest := {
  rr_header : StandardHeader;
  rr_begin_seq_no : SeqNum;
  rr_end_seq_no : SeqNum;
}.

Definition ResendRequest_decode (header : StandardHeader) (fields : FieldBag) :
    result FixDecodeError ResendRequest :=
  b ← req_u64 fields tags.BEGIN_SEQ_NO;
  e ← req_u64 fields tags.END_SEQ_NO;
  Ok {| rr_header := header; rr_begin_seq_no := b; rr_end_seq_no := e |}.

Definition ResendRequest_encode (m : ResendRequest) : result FixEncodeError string :=
  let w := writer_new "2" in
  let w := header_encode (rr_header m) w in
  let w := w_u64 w tags.BEGIN_SEQ_NO (rr_begin_seq_no m) in
  let w := w_u64 w tags.END_SEQ_NO (rr_end_seq_no m) in
  writer_finish w.

Record SequenceReset := {
  sq_header : StandardHeader;
  sq_new_seq_no : SeqNum;
  sq_gap_fill_flag : option bool;
}.

Definition SequenceReset_decode (header : StandardHeader) (fields : FieldBag) :
    result FixDecodeError SequenceReset :=
  n ← req_u64 fields tags.NEW_SEQ_NO;
  g ← opt_bool fields tags.GAP_FILL_FLAG;
  Ok {| sq_header := header; sq_new_seq_no := n; sq_gap_fill_flag := g |}.

Definition SequenceReset_encode (m : SequenceReset) : result FixEncodeError string :=
  let w := writer_new "4" in
  let w := header_encode (sq_header m) w in
  let w := w_u64 w tags.NEW_SEQ_NO (sq_new_seq_no m) in
  let w := w_opt_bool w tags.GAP_FILL_FLAG (sq_gap_fill_flag m) in
  writer_finish w.

Record Reject := {
  rj_header : StandardHeader;
  rj_ref_seq_num : SeqNum;
  rj_session_reject_reason : option SessionRejectReason;
  rj_ref_tag_id : option Z;
  rj_text : option string;
}.

Definition Reject_decode (header : StandardHeader) (fields : FieldBag) :
    result FixDecodeError Reject :=
  r ← opt_u16 fields tags.SESSION_REJECT_REASON;
  let session_reject_reason := reason_from_fix <$> r in
  s ← req_u64 fields tags.REF_SEQ_NUM;
  t ← opt_u16 fields tags.REF_TAG_ID;
  x ← opt_str fields tags.TEXT;
  Ok {| rj_header := header; rj_ref_seq_num := s;
        rj_session_reject_reason := session_reject_reason; rj_ref_tag_id := t; rj_text := x |}.

Definition Reject_encode (m : Reject) : result FixEncodeError string :=
  let w := writer_new "3" in
  let w := header_encode (rj_header m) w in
  let w := w_u64 w tags.REF_SEQ_NUM (rj_ref_seq_num m) in
  let w := w_opt_u16 w tags.REF_TAG_ID (rj_ref_tag_id m) in
  let w := w_opt_u16 w tags.SESSION_REJECT_REASON
             (reason_to_fix <$> rj_session_reject_reason m) in
  let w := w_opt_str w tags.TEXT (rj_text m) in
  writer_finish w.

(** ** Order messages ([order.rs]) *)

Record NewOrderSingle := {
  no_header : StandardHeader;
  no_cl_ord_id : ClientOrderId;
  no_account : option AccountId;
  no_symbol : Symbol;
  no_side : OrderSide;
  no_transact_time : UtcTimestamp;
  no_ord_type : OrdType;
  no_price : option Cents;
  no_order_qty : Z;
  no_time_in_force : FixTif;
  no_expire_time : option UtcTimestamp;
}.

Definition NewOrderSingle_decode (header : StandardHeader) (fields : FieldBag) :
    result FixDecodeError NewOrderSingle :=
  raw ← req_str fields tags.ORD_TYPE;
  ord_type ← ord_type_from_fix raw;
  price ← decode_optional_price fields tags.PRICE;
  if bool_decide (ord_type = OtLimit) && bool_decide (price = None)
  then Err (MissingConditionalField tags.PRICE "OrdType=2 (Limit)")
  else
    raw ← opt_str fields tags.TIME_IN_FORCE;
    time_in_force ← tif_from_fix_or_default raw;
    expire_time ← decode_optional (UtcTimestamp_parse tags.EXPIRE_TIME) fields tags.EXPIRE_TIME;
    if bool_decide (time_in_force = TifGtd) && bool_decide (expire_time = None)
    then Err (MissingConditionalField tags.EXPIRE_TIME "TimeInForce=6 (GTD)")
    else
      cl_ord_id ← req_str fields tags.CL_ORD_ID;
      account ← opt_str fields tags.ACCOUNT;
      raw ← req_str fields tags.SYMBOL;
      symbol ← decode_symbol raw;
      raw ← req_str fields tags.SIDE;
      side ← side_from_fix raw;
      raw ← req_str fields tags.TRANSACT_TIME;
      transact_time ← UtcTimestamp_parse tags.TRANSACT_TIME raw;
      order_qty ← req_u64 fields tags.ORDER_QTY;
      Ok {| no_header := header; no_cl_ord_id := cl_ord_id; no_account := account;
            no_symbol := symbol; no_side := side; no_transact_time := transact_time;
            no_ord_type := ord_type; no_price := price; no_order_qty := order_qty;
            no_time_in_force := time_in_force; no_expire_time := expire_time |}.

Definition NewOrderSingle_encode (m : NewOrderSingle) : result FixEncodeError string :=
  let w := writer_new "D" in
  let w := header_encode (no_header m) w in
  let w := w_str w tags.CL_ORD_ID (no_cl_ord_id m) in
  let w := w_opt_str w tags.ACCOUNT (no_account m) in
  let w := w_str w tags.SYMBOL (no_symbol m) in
  let w := w_str w tags.SIDE (side_to_fix (no_side m)) in
  let w := w_str w tags.TRANSACT_TIME (no_transact_time m) in
  let w := w_str w tags.ORD_TYPE (ord_type_to_fix (no_ord_type m)) in
  let w := w_opt_price w tags.PRICE (no_price m) in
  let w := w_u64 w tags.ORDER_QTY (no_order_qty m) in
  let w := w_str w tags.TIME_IN_FORCE (tif_to_fix (no_time_in_force m)) in
  let w := w_opt_str w tags.EXPIRE_TIME (no_expire_time m) in
  writer_finish w.

Record OrderCancelRequest := {
  oc_header : StandardHeader;
  oc_orig_cl_ord_id : ClientOrderId;
  oc_cl_ord_id : ClientOrderId;
  oc_symbol : Symbol;
  oc_side : OrderSide;
}.

Definition OrderCancelRequest_decode (header : StandardHeader) (fields : FieldBag) :
    result FixDecodeError OrderCancelRequest :=
  orig ← req_str fields tags.ORIG_CL_ORD_ID;
  cl ← req_str fields tags.CL_ORD_ID;
  raw ← req_str fields tags.SYMBOL;
  symbol ← decode_symbol raw;
  raw ← req_str fields tags.SIDE;
  side ← side_from_fix raw;
  Ok {| oc_header := header; oc_orig_cl_ord_id := orig; oc_cl_ord_id := cl;
        oc_symbol := symbol; oc_side := side |}.

Definition OrderCancelRequest_encode (m : OrderCancelRequest) : result FixEncodeError string :=
  let w := writer_new "F" in
  let w := header_encode (oc_header m) w in
  let w := w_str w tags.ORIG_CL_ORD_ID (oc_orig_cl_ord_id m) in
  let w := w_str w tags.CL_ORD_ID (oc_cl_ord_id m) in
  let w := w_str w tags.SYMBOL (oc_symbol m) in
  let w := w_str w tags.SIDE (side_to_fix (oc_side m)) in
  writer_finish w.

Record OrderCancelReplaceRequest := {
  og_header : StandardHeader;
  og_orig_cl_ord_id : ClientOrderId;
  og_cl_ord_id : ClientOrderId;
  og_symbol : Symbol;
  og_side : OrderSide;
  og_ord_type : OrdType;
  og_price : option Cents;
  og_order_qty : Z;
}.

Definition OrderCancelReplaceRequest_decode (header : StandardHeader) (fields : FieldBag) :
    result FixDecodeError OrderCancelReplaceRequest :=
  raw ← req_str fields tags.ORD_TYPE;
  ord_type ← ord_type_from_fix raw;
  price ← decode_optional_price fields tags.PRICE;
  if bool_decide (ord_type = OtLimit) && bool_decide (price = None)
  then Err (MissingConditionalField tags.PRICE "OrdType=2 (Limit)")
  else
    orig ← req_str fields tags.ORIG_CL_ORD_ID;
    cl ← req_str fields tags.CL_ORD_ID;
    raw ← req_str fields tags.SYMBOL;
    symbol ← decode_symbol raw;
    raw ← req_str fields tags.SIDE;
    side ← side_from_fix raw;
    order_qty ← req_u64 fields tags.ORDER_QTY;
    Ok {| og_header := header; og_orig_cl_ord_id := orig; og_cl_ord_id := cl;
          og_symbol := symbol; og_side := side; og_ord_type := ord_type; og_price := price;
          og_order_qty := order_qty |}.

Definition OrderCancelReplaceRequest_encode (m : OrderCancelReplaceRequest) :
    result FixEncodeError string :=
  let w := writer_new "G" in
  let w := header_encode (og_header m) w in
  let w := w_str w tags.ORIG_CL_ORD_ID (og_orig_cl_ord_id m) in
  let w := w_str w tags.CL_ORD_ID (og_cl_ord_id m) in
  let w := w_str w tags.SYMBOL (og_symbol m) in
  let w := w_str w tags.SIDE (side_to_fix (og_side m)) in
  let w := w_str w tags.ORD_TYPE (ord_type_to_fix (og_ord_type m)) in
  let w := w_opt_price w tags.PRICE (og_price m) in
  let w := w_u64 w tags.ORDER_QTY (og_order_qty m) in
  writer_finish w.

Record OrderMassCancelRequest := {
  oq_header : StandardHeader;
  oq_cl_ord_id : ClientOrderId;
  oq_mass_cancel_request_type : MassCancelRequestType;
  oq_symbol : option Symbol;
}.

Definition OrderMassCancelRequest_decode (header : StandardHeader) (fields : FieldBag) :
    result FixDecodeError OrderMassCancelRequest :=
  raw ← req_str fields tags.MASS_CANCEL_REQUEST_TYPE;
  request_type ← mass_cancel_request_type_from_fix raw;
  symbol ← decode_optional decode_symbol fields tags.SYMBOL;
  if bool_decide (request_type = MqSecurity) && bool_decide (symbol = None)
  then Err (MissingConditionalField tags.SYMBOL "MassCancelRequestType=1 (per security)")
  else
    cl ← req_str fields tags.CL_ORD_ID;
    Ok {| oq_header := header; oq_cl_ord_id := cl;
          oq_mass_cancel_request_type := request_type; oq_symbol := symbol |}.

Definition OrderMassCancelRequest_encode (m : OrderMassCancelRequest) :
    result FixEncodeError string :=
  let w := writer_new "q" in
  let w := header_encode (oq_header m) w in
  let w := w_str w tags.CL_ORD_ID (oq_cl_ord_id m) in
  let w := w_str w tags.MASS_CANCEL_REQUEST_TYPE
             (mass_cancel_request_type_to_fix (oq_mass_cancel_request_type m)) in
  let w := w_opt_str w tags.SYMBOL (oq_symbol m) in
  writer_finish w.

Record OrderStatusRequest := {
  oh_header : StandardHeader;
  oh_order_id : option VenueOrderId;
  oh_cl_ord_id : option ClientOrderId;
  oh_symbol : Symbol;
}.

Definition OrderStatusRequest_decode (header : StandardHeader) (fields : FieldBag) :
    result FixDecodeError OrderStatusRequest :=
  order_id ← opt_str fields tags.ORDER_ID;
  cl_ord_id ← opt_str fields tags.CL_ORD_ID;
  if bool_decide (order_id = None) && bool_decide (cl_ord_id = None)
  then Err (MissingRequiredChoice tags.ORDER_ID tags.CL_ORD_ID)
  else
    raw ← req_str fields tags.SYMBOL;
    symbol ← decode_symbol raw;
    Ok {| oh_header := header; oh_order_id := order_id; oh_cl_ord_id := cl_ord_id;
          oh_symbol := symbol |}.

Definition OrderStatusRequest_encode (m : OrderStatusRequest) : result FixEncodeError string :=
  let w := writer_new "H" in
  let w := header_encode (oh_header m) w in
  let w := w_opt_str w tags.ORDER_ID (oh_order_id m) in
  let w := w_opt_str w tags.CL_ORD_ID (oh_cl_ord_id m) in
  let w := w_str w tags.SYMBOL (oh_symbol m) in
  writer_finish w.

(** ** Reports ([execution.rs]) *)

Record ExecutionReport := {
  er_header : StandardHeader;
  er_order_id : VenueOrderId;
  er_exec_id : ExecutionId;
  er_exec_type : ExecType;
  er_ord_status : OrdStatus;
  er_symbol : Symbol;
  er_side : OrderSide;
  er_leaves_qty : Z;
  er_cum_qty : Z;
  er_last_qty : option Z;
  er_last_px : option Cents;
  er_price : option Cents;
  er_secondary_exec_id : SequenceNumber;
  er_transact_time : UtcTimestamp;
  er_commission : option SignedCents;
  er_comm_type : option CommType;
  er_last_liquidity_ind : option LastLiquidityInd;
  er_ord_rej_reason : option Z;
  er_text : option string;
}.

Definition ExecutionReport_decode (header : StandardHeader) (fields : FieldBag) :
    result FixDecodeError ExecutionReport :=
  commission ← decode_optional
    (λ raw, map_err (PriceError tags.COMMISSION) (parse_signed_decimal_to_cents raw))
    fields tags.COMMISSION;
  comm_type ← decode_optional comm_type_from_fix fields tags.COMM_TYPE;
  _ ← match commission, comm_type with
      | Some _, None => Err (MissingConditionalField tags.COMM_TYPE "Commission (12) is present")
      | None, Some _ => Err (MissingConditionalField tags.COMMISSION "CommType (13) is present")
      | _, _ => Ok tt
      end;
  last_liquidity_ind ←
    decode_optional last_liquidity_ind_from_fix fields tags.LAST_LIQUIDITY_IND;
  order_id ← req_str fields tags.ORDER_ID;
  exec_id ← req_str fields tags.EXEC_ID;
  raw ← req_str fields tags.EXEC_TYPE;
  exec_type ← exec_type_from_fix raw;
  raw ← req_str fields tags.ORD_STATUS;
  ord_status ← ord_status_from_fix raw;
  raw ← req_str fields tags.SYMBOL;
  symbol ← decode_symbol raw;
  raw ← req_str fields tags.SIDE;
  side ← side_from_fix raw;
  leaves_qty ← req_u64 fields tags.LEAVES_QTY;
  cum_qty ← req_u64 fields tags.CUM_QTY;
  last_qty ← opt_u64 fields tags.LAST_QTY;
  last_px ← decode_optional_price fields tags.LAST_PX;
  price ← decode_optional_price fields tags.PRICE;
  secondary_exec_id ← req_u64 fields tags.SECONDARY_EXEC_ID;
  raw ← req_str fields tags.TRANSACT_TIME;
  transact_time ← UtcTimestamp_parse tags.TRANSACT_TIME raw;
  ord_rej_reason ← opt_u16 fields tags.ORD_REJ_REASON;
  t ← opt_str fields tags.TEXT;
  Ok {| er_header := header; er_order_id := order_id; er_exec_id := exec_id;
        er_exec_type := exec_type; er_ord_status := ord_status; er_symbol := symbol;
        er_side := side; er_leaves_qty := leaves_qty; er_cum_qty := cum_qty;
        er_last_qty := last_qty; er_last_px := last_px; er_price := price;
        er_secondary_exec_id := secondary_exec_id; er_transact_time := transact_time;
        er_commission := commission; er_comm_type := comm_type;
        er_last_liquidity_ind := last_liquidity_ind; er_ord_rej_reason := ord_rej_reason;
        er_text := t |}.

Definition ExecutionReport_encode (m : ExecutionReport) : result FixEncodeError string :=
  let w := writer_new "8" in
  let w := header_encode (er_header m) w in
  let w := w_str w tags.ORDER_ID (er_order_id m) in
  let w := w_str w tags.EXEC_ID (er_exec_id m) in
  let w := w_str w tags.EXEC_TYPE (exec_type_to_fix (er_exec_type m)) in
  let w := w_str w tags.ORD_STATUS (ord_status_to_fix (er_ord_status m)) in
  let w := w_str w tags.SYMBOL (er_symbol m) in
  let w := w_str w tags.SIDE (side_to_fix (er_side m)) in
  let w := w_u64 w tags.LEAVES_QTY (er_leaves_qty m) in
  let w := w_u64 w tags.CUM_QTY (er_cum_qty m) in
  let w := w_opt_u64 w tags.LAST_QTY (er_last_qty m) in
  let w := w_opt_price w tags.LAST_PX (er_last_px m) in
  let w := w_opt_price w tags.PRICE (er_price m) in
  let w := w_u64 w tags.SECONDARY_EXEC_ID (er_secondary_exec_id m) in
  let w := w_str w tags.TRANSACT_TIME (er_transact_time m) in
  let w := w_opt_str w tags.COMMISSION (render_signed_cents_to_decimal <$> er_commission m) in
  let w := w_opt_str w tags.COMM_TYPE (comm_type_to_fix <$> er_comm_type m) in
  let w := w_opt_str w tags.LAST_LIQUIDITY_IND
             (last_liquidity_ind_to_fix <$> er_last_liquidity_ind m) in
  let w := w_opt_u16 w tags.ORD_REJ_REASON (er_ord_rej_reason m) in
  let w := w_opt_str w tags.TEXT (er_text m) in
  writer_finish w.

Record OrderCancelReject := {
  ocr_header : StandardHeader;
  ocr_order_id : VenueOrderId;
  ocr_cl_ord_id : ClientOrderId;
  ocr_orig_cl_ord_id : ClientOrderId;
  ocr_ord_status : OrdStatus;
  ocr_cxl_rej_response_to : CxlRejResponseTo;
  ocr_cxl_rej_reason : Z;
  ocr_text : option string;
}.

Definition OrderCancelReject_decode (header : StandardHeader) (fields : FieldBag) :
    result FixDecodeError OrderCancelReject :=
  order_id ← req_str fields tags.ORDER_ID;
  cl ← req_str fields tags.CL_ORD_ID;
  orig ← req_str fields tags.ORIG_CL_ORD_ID;
  raw ← req_str fields tags.ORD_STATUS;
  ord_status ← ord_status_from_fix raw;
  raw ← req_str fields tags.CXL_REJ_RESPONSE_TO;
  response_to ← cxl_rej_response_to_from_fix raw;
  reason ← req_u16 fields tags.CXL_REJ_REASON;
  t ← opt_str fields tags.TEXT;
  Ok {| ocr_header := header; ocr_order_id := order_id; ocr_cl_ord_id := cl;
        ocr_orig_cl_ord_id := orig; ocr_ord_status := ord_status;
        ocr_cxl_rej_response_to := response_to; ocr_cxl_rej_reason := reason; ocr_text := t |}.

Definition OrderCancelReject_encode (m : OrderCancelReject) : result FixEncodeError string :=
  let w := writer_new "9" in
  let w := header_encode (ocr_header m) w in
  let w := w_str w tags.ORDER_ID (ocr_order_id m) in
  let w := w_str w tags.CL_ORD_ID (ocr_cl_ord_id m) in
  let w := w_str w tags.ORIG_CL_ORD_ID (ocr_orig_cl_ord_id m) in
  let w := w_str w tags.ORD_STATUS (ord_status_to_fix (ocr_ord_status m)) in
  let w := w_str w tags.CXL_REJ_RESPONSE_TO
             (cxl_rej_response_to_to_fix (ocr_cxl_rej_response_to m)) in
  let w := w_u16 w tags.CXL_REJ_REASON (ocr_cxl_rej_reason m) in
  let w := w_opt_str w tags.TEXT (ocr_text m) in
  writer_finish w.

(** [for entry in &entries { v.push(f(entry)?) }]. *)
Fixpoint collect {A B} (f : A → result FixDecodeError B) (l : list A) :
    result FixDecodeError (list B) :=
  match l with
  | [] => Ok []
  | a :: l => b ← f a; bs ← collect f l; Ok (b :: bs)
  end.

Record OrderMassCancelReport := {
  mc_header : StandardHeader;
  mc_mass_cancel_response : MassCancelResponse;
  mc_total_affected_orders : Z;
  mc_affected_orders : list VenueOrderId;
}.

Definition OrderMassCancelReport_decode (header : StandardHeader) (fields : FieldBag) :
    result FixDecodeError OrderMassCancelReport :=
  entries ← group fields tags.NO_AFFECTED_ORDERS tags.AFFECTED_ORDER_ID [tags.AFFECTED_ORDER_ID];
  affected ← collect (λ entry, req_str entry tags.AFFECTED_ORDER_ID) entries;
  raw ← req_str fields tags.MASS_CANCEL_RESPONSE;
  response ← mass_cancel_response_from_fix raw;
  total ← req_u32 fields tags.TOTAL_AFFECTED_ORDERS;
  Ok {| mc_header := header; mc_mass_cancel_response := response;
        mc_total_affected_orders := total; mc_affected_orders := affected |}.

Definition OrderMassCancelReport_encode (m : OrderMassCancelReport) :
    result FixEncodeError string :=
  let w := writer_new "r" in
  let w := header_encode (mc_header m) w in
  let w := w_str w tags.MASS_CANCEL_RESPONSE
             (mass_cancel_response_to_fix (mc_mass_cancel_response m)) in
  let w := w_u64 w tags.TOTAL_AFFECTED_ORDERS (mc_total_affected_orders m) in
  let w := w_u64 w tags.NO_AFFECTED_ORDERS (Z.of_nat (length (mc_affected_orders m))) in
  let w := foldl (λ w affected, w_str w tags.AFFECTED_ORDER_ID affected) w
             (mc_affected_orders m) in
  writer_finish w.

Record BusinessMessageReject := {
  bj_header : StandardHeader;
  bj_ref_seq_num : SequenceNumber;
  bj_ref_msg_type : string;
  bj_business_reject_reason : Z;
  bj_text : option string;
}.

Definition BusinessMessageReject_decode (header : StandardHeader) (fields : FieldBag) :
    result FixDecodeError BusinessMessageReject :=
  s ← req_u64 fields tags.REF_SEQ_NUM;
  ty ← req_str fields tags.REF_MSG_TYPE;
  reason ← req_u16 fields tags.BUSINESS_REJECT_REASON;
  t ← opt_str fields tags.TEXT;
  Ok {| bj_header := header; bj_ref_seq_num := s; bj_ref_msg_type := ty;
        bj_business_reject_reason := reason; bj_text := t |}.

Definition BusinessMessageReject_encode (m : BusinessMessageReject) :
    result FixEncodeError string :=
  let w := writer_new "j" in
  let w := header_encode (bj_header m) w in
  let w := w_u64 w tags.REF_SEQ_NUM (bj_ref_seq_num m) in
  let w := w_str w tags.REF_MSG_TYPE (bj_ref_msg_type m) in
  let w := w_u16 w tags.BUSINESS_REJECT_REASON (bj_business_reject_reason m) in
  let w := w_opt_str w tags.TEXT (bj_text m) in
  writer_finish w.

(** ** Market data ([marketdata.rs]) *)

Definition decode_group_price (entry : FieldBag) (tag : Z) : result FixDecodeError Cents :=
  raw ← req_str entry tag;
  map_err (PriceError tag) (parse_decimal_to_cents raw).

Record MarketDataRequest := {
  mv_header : StandardHeader;
  mv_md_req_id : string;
  mv_subscription_request_type : SubscriptionRequestType;
  mv_market_depth : Z;
  mv_entry_types : list MdEntryType;
  mv_symbols : list Symbol;
}.

Definition MarketDataRequest_decode (header : StandardHeader) (fields : FieldBag) :
    result FixDecodeError MarketDataRequest :=
  entry_type_entries ←
    required_group fields tags.NO_MD_ENTRY_TYPES tags.MD_ENTRY_TYPE [tags.MD_ENTRY_TYPE];
  entry_types ← collect (λ entry, raw ← req_str entry tags.MD_ENTRY_TYPE;
                                  md_entry_type_from_fix raw) entry_type_entries;
  symbol_entries ← required_group fields tags.NO_RELATED_SYM tags.SYMBOL [tags.SYMBOL];
  symbols ← collect (λ entry, raw ← req_str entry tags.SYMBOL; decode_symbol raw) symbol_entries;
  md_req_id ← req_str fields tags.MD_REQ_ID;
  raw ← req_str fields tags.SUBSCRIPTION_REQUEST_TYPE;
  request_type ← subscription_request_type_from_fix raw;
  depth ← req_u32 fields tags.MARKET_DEPTH;
  Ok {| mv_header := header; mv_md_req_id := md_req_id;
        mv_subscription_request_type := request_type; mv_market_depth := depth;
        mv_entry_types := entry_types; mv_symbols := symbols |}.

Definition MarketDataRequest_encode (m : MarketDataRequest) : result FixEncodeError string :=
  let w := writer_new "V" in
  let w := header_encode (mv_header m) w in
  let w := w_str w tags.MD_REQ_ID (mv_md_req_id m) in
  let w := w_str w tags.SUBSCRIPTION_REQUEST_TYPE
             (subscription_request_type_to_fix (mv_subscription_request_type m)) in
  let w := w_u64 w tags.MARKET_DEPTH (mv_market_depth m) in
  let w := w_u64 w tags.NO_MD_ENTRY_TYPES (Z.of_nat (length (mv_entry_types m))) in
  let w := foldl (λ w t, w_str w tags.MD_ENTRY_TYPE (md_entry_type_to_fix t)) w
             (mv_entry_types m) in
  let w := w_u64 w tags.NO_RELATED_SYM (Z.of_nat (length (mv_symbols m))) in
  let w := foldl (λ w s, w_str w tags.SYMBOL s) w (mv_symbols m) in
  writer_finish w.

Record SnapshotEntry := { se_entry_type : MdEntryType; se_price : Cents; se_size : Z }.

Record MarketDataSnapshotFullRefresh := {
  mw_header : StandardHeader;
  mw_md_req_id : string;
  mw_symbol : Symbol;
  mw_rpt_seq : SequenceNumber;
  mw_entries : list SnapshotEntry;
}.

Definition decode_snapshot_entry (entry : FieldBag) : result FixDecodeError SnapshotEntry :=
  raw ← req_str entry tags.MD_ENTRY_TYPE;
  ty ← md_entry_type_from_fix raw;
  price ← decode_group_price entry tags.MD_ENTRY_PX;
  size ← req_u64 entry tags.MD_ENTRY_SIZE;
  Ok {| se_entry_type := ty; se_price := price; se_size := size |}.

Definition MarketDataSnapshotFullRefresh_decode (header : StandardHeader) (fields : FieldBag) :
    result FixDecodeError MarketDataSnapshotFullRefresh :=
  entry_bags ← group fields tags.NO_MD_ENTRIES tags.MD_ENTRY_TYPE
                 [tags.MD_ENTRY_TYPE; tags.MD_ENTRY_PX; tags.MD_ENTRY_SIZE];
  entries ← collect decode_snapshot_entry entry_bags;
  md_req_id ← req_str fields tags.MD_REQ_ID;
  raw ← req_str fields tags.SYMBOL;
  symbol ← decode_symbol raw;
  rpt_seq ← req_u64 fields tags.RPT_SEQ;
  Ok {| mw_header := header; mw_md_req_id := md_req_id; mw_symbol := symbol;
        mw_rpt_seq := rpt_seq; mw_entries := entries |}.

Definition write_snapshot_entry (w : Encoder) (entry : SnapshotEntry) : Encoder :=
  let w := w_str w tags.MD_ENTRY_TYPE (md_entry_type_to_fix (se_entry_type entry)) in
  let w := w_str w tags.MD_ENTRY_PX (render_cents_to_decimal (se_price entry)) in
  w_u64 w tags.MD_ENTRY_SIZE (se_size entry).

Definition MarketDataSnapshotFullRefresh_encode (m : MarketDataSnapshotFullRefresh) :
    result FixEncodeError string :=
  let w := writer_new "W" in
  let w := header_encode (mw_header m) w in
  let w := w_str w tags.MD_REQ_ID (mw_md_req_id m) in
  let w := w_str w tags.SYMBOL (mw_symbol m) in
  let w := w_u64 w tags.RPT_SEQ (mw_rpt_seq m) in
  let w := w_u64 w tags.NO_MD_ENTRIES (Z.of_nat (length (mw_entries m))) in
  let w := foldl write_snapshot_entry w (mw_entries m) in
  writer_finish w.

Record IncrementalEntry := {
  ie_update_action : MdUpdateAction;
  ie_entry_type : MdEntryType;
  ie_symbol : Symbol;
  ie_price : Cents;
  ie_size : Z;
}.

Record MarketDataIncrementalRefresh := {
  mx_header : StandardHeader;
  mx_md_req_id : string;
  mx_rpt_seq : SequenceNumber;
  mx_entries : list IncrementalEntry;
}.

Definition decode_incremental_entry (entry : FieldBag) :
    result FixDecodeError IncrementalEntry :=
  raw ← req_str entry tags.MD_UPDATE_ACTION;
  action ← md_update_action_from_fix raw;
  raw ← req_str entry tags.MD_ENTRY_TYPE;
  ty ← md_entry_type_from_fix raw;
  raw ← req_str entry tags.SYMBOL;
  symbol ← decode_symbol raw;
  price ← decode_group_price entry tags.MD_ENTRY_PX;
  size ← req_u64 entry tags.MD_ENTRY_SIZE;
  Ok {| ie_update_action := action; ie_entry_type := ty; ie_symbol := symbol;
        ie_price := price; ie_size := size |}.

Definition MarketDataIncrementalRefresh_decode (header : StandardHeader) (fields : FieldBag) :
    result FixDecodeError MarketDataIncrementalRefresh :=
  entry_bags ← group fields tags.NO_MD_ENTRIES tags.MD_UPDATE_ACTION
                 [tags.MD_UPDATE_ACTION; tags.MD_ENTRY_TYPE; tags.SYMBOL; tags.MD_ENTRY_PX;
                  tags.MD_ENTRY_SIZE];
  entries ← collect decode_incremental_entry entry_bags;
  md_req_id ← req_str fields tags.MD_REQ_ID;
  rpt_seq ← req_u64 fields tags.RPT_SEQ;
  Ok {| mx_header := header; mx_md_req_id := md_req_id; mx_rpt_seq := rpt_seq;
        mx_entries := entries |}.

Definition write_incremental_entry (w : Encoder) (entry : IncrementalEntry) : Encoder :=
  let w := w_str w tags.MD_UPDATE_ACTION (md_update_action_to_fix (ie_update_action entry)) in
  let w := w_str w tags.MD_ENTRY_TYPE (md_entry_type_to_fix (ie_entry_type entry)) in
  let w := w_str w tags.SYMBOL (ie_symbol entry) in
  let w := w_str w tags.MD_ENTRY_PX (render_cents_to_decimal (ie_price entry)) in
  w_u64 w tags.MD_ENTRY_SIZE (ie_size entry).

Definition MarketDataIncrementalRefresh_encode (m : MarketDataIncrementalRefresh) :
    result FixEncodeError string :=
  let w := writer_new "X" in
  let w := header_encode (mx_header m) w in
  let w := w_str w tags.MD_REQ_ID (mx_md_req_id m) in
  let w := w_u64 w tags.RPT_SEQ (mx_rpt_seq m) in
  let w := w_u64 w tags.NO_MD_ENTRIES (Z.of_nat (length (mx_entries m))) in
  let w := foldl write_incremental_entry w (mx_entries m) in
  writer_finish w.

Record MarketDataRequestReject := {
  my_header : StandardHeader;
  my_md_req_id : string;
  my_md_req_rej_reason : Z;
  my_text : option string;
}.

Definition MarketDataRequestReject_decode (header : StandardHeader) (fields : FieldBag) :
    result FixDecodeError MarketDataRequestReject :=
  md_req_id ← req_str fields tags.MD_REQ_ID;
  reason ← req_u16 fields tags.MD_REQ_REJ_REASON;
  t ← opt_str fields tags.TEXT;
  Ok {| my_header := header; my_md_req_id := md_req_id; my_md_req_rej_reason := reason;
        my_text := t |}.

Definition MarketDataRequestReject_encode (m : MarketDataRequestReject) :
    result FixEncodeError string :=
  let w := writer_new "Y" in
  let w := header_encode (my_header m) w in
  let w := w_str w tags.MD_REQ_ID (my_md_req_id m) in
  let w := w_u16 w tags.MD_REQ_REJ_REASON (my_md_req_rej_reason m) in
  let w := w_opt_str w tags.TEXT (my_text m) in
  writer_finish w.

(** ** Every message ([mod.rs]) *)

Inductive DecodedMessage :=
  | DLogon (m : Logon)
  | DLogout (m : Logout)
  | DHeartbeat (m : Heartbeat)
  | DTestRequest (m : TestRequest)
  | DResendRequest (m : ResendRequest)
  | DSequenceReset (m : SequenceReset)
  | DReject (m : Reject)
  | DNewOrderSingle (m : NewOrderSingle)
  | DOrderCancelRequest (m : OrderCancelRequest)
  | DOrderCancelReplaceRequest (m : OrderCancelReplaceRequest)
  | DOrderMassCancelRequest (m : OrderMassCancelRequest)
  | DOrderStatusRequest (m : OrderStatusRequest)
  | DExecutionReport (m : ExecutionReport)
  | DOrderCancelReject (m : OrderCancelReject)
  | DOrderMassCancelReport (m : OrderMassCancelReport)
  | DBusinessMessageReject (m : BusinessMessageReject)
  | DMarketDataRequest (m : MarketDataRequest)
  | DMarketDataSnapshotFullRefresh (m : MarketDataSnapshotFullRefresh)
  | DMarketDataIncrementalRefresh (m : MarketDataIncrementalRefresh)
  | DMarketDataRequestReject (m : MarketDataRequestReject).

Definition message_encode (m : DecodedMessage) : result FixEncodeError string :=
  match m with
  | DLogon m => Logon_encode m
  | DLogout m => Logout_encode m
  | DHeartbeat m => Heartbeat_encode m
  | DTestRequest m => TestRequest_encode m
  | DResendRequest m => ResendRequest_encode m
  | DSequenceReset m => SequenceReset_encode m
  | DReject m => Reject_encode m
  | DNewOrderSingle m => NewOrderSingle_encode m
  | DOrderCancelRequest m => OrderCancelRequest_encode m
  | DOrderCancelReplaceRequest m => OrderCancelReplaceRequest_encode m
  | DOrderMassCancelRequest m => OrderMassCancelRequest_encode m
  | DOrderStatusRequest m => OrderStatusRequest_encode m
  | DExecutionReport m => ExecutionReport_encode m
  | DOrderCancelReject m => OrderCancelReject_encode m
  | DOrderMassCancelReport m => OrderMassCancelReport_encode m
  | DBusinessMessageReject m => BusinessMessageReject_encode m
  | DMarketDataRequest m => MarketDataRequest_encode m
  | DMarketDataSnapshotFullRefresh m => MarketDataSnapshotFullRefresh_encode m
  | DMarketDataIncrementalRefresh m => MarketDataIncrementalRefresh_encode m
  | DMarketDataRequestReject m => MarketDataRequestReject_encode m
  end.

Definition decode_body (msg_type : MsgType) (header : StandardHeader) (fields : FieldBag) :
    result FixDecodeError DecodedMessage :=
  match msg_type with
  | MtLogon => DLogon <$> Logon_decode header fields
  | MtLogout => DLogout <$> Logout_decode header fields
  | MtHeartbeat => DHeartbeat <$> Heartbeat_decode header fields
  | MtTestRequest => DTestRequest <$> TestRequest_decode header fields
  | MtResendRequest => DResendRequest <$> ResendRequest_decode header fields
  | MtSequenceReset => DSequenceReset <$> SequenceReset_decode header fields
  | MtReject => DReject <$> Reject_decode header fields
  | MtNewOrderSingle => DNewOrderSingle <$> NewOrderSingle_decode header fields
  | MtOrderCancelRequest => DOrderCancelRequest <$> OrderCancelRequest_decode header fields
  | MtOrderCancelReplaceRequest =>
      DOrderCancelReplaceRequest <$> OrderCancelReplaceRequest_decode header fields
  | MtOrderMassCancelRequest =>
      DOrderMassCancelRequest <$> OrderMassCancelRequest_decode header fields
  | MtOrderStatusRequest => DOrderStatusRequest <$> OrderStatusRequest_decode header fields
  | MtExecutionReport => DExecutionReport <$> ExecutionReport_decode header fields
  | MtOrderCancelReject => DOrderCancelReject <$> OrderCancelReject_decode header fields
  | MtOrderMassCancelReport =>
      DOrderMassCancelReport <$> OrderMassCancelReport_decode header fields
  | MtBusinessMessageReject =>
      DBusinessMessageReject <$> BusinessMessageReject_decode header fields
  | MtMarketDataRequest => DMarketDataRequest <$> MarketDataRequest_decode header fields
  | MtMarketDataSnapshotFullRefresh =>
      DMarketDataSnapshotFullRefresh <$> MarketDataSnapshotFullRefresh_decode header fields
  | MtMarketDataIncrementalRefresh =>
      DMarketDataIncrementalRefresh <$> MarketDataIncrementalRefresh_decode header fields
  | MtMarketDataRequestReject =>
      DMarketDataRequestReject <$> MarketDataRequestReject_decode header fields
  | MtCustom raw_type => Err (UnsupportedMsgType (truncate_untrusted raw_type))
  | MtOther as_str => Err (UnsupportedApplicationMsgType (truncate_untrusted as_str))
  end.

Definition decode (frame : string) : result FixDecodeError DecodedMessage :=
  raw ← map_err Framing (frame_decode frame);
  begin_string ← map_err Framing (raw_begin_string raw);
  if negb (String.eqb begin_string FixWire.BEGIN_STRING)
  then Err (BeginStringMismatch FixWire.BEGIN_STRING (truncate_untrusted begin_string))
  else if MAX_FIELDS_PER_MESSAGE <? raw_field_count raw
  then Err (TooManyFields (raw_field_count raw) MAX_FIELDS_PER_MESSAGE)
  else
    let fields := raw_fields raw in
    let symbol_repeatable := symbol_repeats_in_msg_type (raw_msg_type raw) in
    _ ← reject_duplicate_scalar_tags fields symbol_repeatable;
    header ← header_decode fields;
    decode_body (raw_msg_type raw) header fields.

Definition header_of (m : DecodedMessage) : StandardHeader :=
  match m with
  | DLogon m => lo_header m
  | DLogout m => lg_header m
  | DHeartbeat m => hb_header m
  | DTestRequest m => tr_header m
  | DResendRequest m => rr_header m
  | DSequenceReset m => sq_header m
  | DReject m => rj_header m
  | DNewOrderSingle m => no_header m
  | DOrderCancelRequest m => oc_header m
  | DOrderCancelReplaceRequest m => og_header m
  | DOrderMassCancelRequest m => oq_header m
  | DOrderStatusRequest m => oh_header m
  | DExecutionReport m => er_header m
  | DOrderCancelReject m => ocr_header m
  | DOrderMassCancelReport m => mc_header m
  | DBusinessMessageReject m => bj_header m
  | DMarketDataRequest m => mv_header m
  | DMarketDataSnapshotFullRefresh m => mw_header m
  | DMarketDataIncrementalRefresh m => mx_header m
  | DMarketDataRequestReject m => my_header m
  end.
End messages.
