(* ===== verification/FixWriter.v ===== *)
(** Messages and frames built from slots, a list of tags with optional values: what the bag
    reads of [codec.rs] return on them, the documented behaviour of the tag-value library the
    round trips rely on, what each writer appends to a frame, and what the decoder's shared
    prologue (framing, begin string, field limit, duplicate check, header) makes of it. *)

From S2P Require Export FixMessages.

#[global] Arguments dec _ : simpl never.
#[global] Arguments pad_dec _ _ : simpl never.
#[global] Arguments parse_uint _ _ : simpl never.
#[global] Arguments utf8_valid _ : simpl never.
#[global] Arguments render_cents_to_decimal _ : simpl never.
#[global] Arguments render_signed_cents_to_decimal _ : simpl never.
#[global] Arguments narrow _ _ : simpl never.

(** ** Slots *)


Fixpoint bag_of (slots : list (Z * option string)) : list (Z * string) :=
  match slots with
  | [] => []
  | (t, Some v) :: slots => (t, v) :: bag_of slots
  | (_, None) :: slots => bag_of slots
  end.

Lemma bag_of_app a b : bag_of (a ++ b) = bag_of a ++ bag_of b.
Proof. induction a as [|[t [v|]] a IH]; cbn; congruence. Qed.

Lemma bag_find_app a b t :
  bag_find (a ++ b) t = match bag_find a t with Some v => Some v | None => bag_find b t end.
Proof. induction a as [|[t' v] a IH]; cbn; [done|]. destruct (t' =? t); [done|exact IH]. Qed.

Lemma bag_find_None a t : t ∉ a.*1 → bag_find a t = None.
Proof.
  induction a as [|[t' v] a IH]; cbn; [done|]. intros [Ht Ha]%not_elem_of_cons.
  destruct (Z.eqb_spec t' t); [by subst|]. by apply IH.
Qed.

Lemma bag_of_tags slots : (bag_of slots).*1 `sublist_of` slots.*1.
Proof.
  induction slots as [|[t [v|]] slots IH]; cbn; by constructor.
Qed.

Lemma elem_of_bag_tags slots t : t ∈ (bag_of slots).*1 → t ∈ slots.*1.
Proof. intros Ht. eapply elem_of_sublist; [exact Ht|apply bag_of_tags]. Qed.

Lemma bag_of_length slots : (length (bag_of slots) ≤ length slots)%nat.
Proof. induction slots as [|[t [v|]] slots IH]; cbn; lia. Qed.

Lemma bag_find_slots slots t o :
  NoDup slots.*1 → (t, o) ∈ slots → bag_find (bag_of slots) t = o.
Proof.
  induction slots as [|[t' v] slots IH]; [by intros _ ?%not_elem_of_nil|].
  cbn [fmap list_fmap fst]. intros [Hn Hd]%NoDup_cons [[= <- <-]|Hin]%elem_of_cons.
  - change (bag_of ((t, o) :: slots)) with (bag_of ([(t, o)] ++ slots)).
    rewrite bag_of_app, bag_find_app.
    destruct o as [x|]; cbn; [by rewrite Z.eqb_refl|].
    apply bag_find_None. by intros ?%elem_of_bag_tags.
  - change (bag_of ((t', v) :: slots)) with (bag_of ([(t', v)] ++ slots)).
    rewrite bag_of_app, bag_find_app.
    assert (t' ≠ t).
    { intros ->. apply Hn, list_elem_of_fmap. by exists (t, o). }
    destruct v as [x|]; cbn; [|by apply IH].
    rewrite (proj2 (Z.eqb_neq _ _)) by done. by apply IH.
Qed.

(** ** UTF-8 of ASCII *)

Definition ascii_only (l : list ascii) : bool := forallb (λ b, code b <? 128) l.

Lemma ascii_utf8_go fuel l :
  (length l ≤ fuel)%nat → ascii_only l = true → utf8_go fuel l = true.
Proof.
  revert fuel. induction l as [|b l IH]; intros [|fuel] Hf; cbn [utf8_go ascii_only forallb];
    [done..|cbn in Hf; lia|]. cbn [length] in Hf.
  rewrite andb_true_iff. intros [-> Hl]. apply IH; [lia|done].
Qed.

Lemma ascii_utf8 s : ascii_only (bytes s) = true → utf8_valid s = true.
Proof. intros. apply ascii_utf8_go; [by rewrite bytes_length|done]. Qed.

Lemma digits_ascii l : forallb is_digit l = true → ascii_only l = true.
Proof.
  unfold ascii_only. rewrite !forallb_forall. intros H b Hb. apply H in Hb.
  unfold is_digit in Hb. apply andb_true_iff in Hb as [_ Hb]. apply Z.leb_le in Hb.
  apply Z.ltb_lt. lia.
Qed.

Lemma ascii_only_app a b : ascii_only (a ++ b) = ascii_only a && ascii_only b.
Proof. apply forallb_app. Qed.

Lemma utf8_dec n : utf8_valid (dec n) = true.
Proof. apply ascii_utf8, digits_ascii, dec_digits. Qed.

Lemma zeros_ascii k : ascii_only (replicate k "0"%char) = true.
Proof. apply digits_ascii, forallb_zeros. Qed.

Lemma pad_dec_ascii w n : ascii_only (bytes (pad_dec w n)) = true.
Proof.
  unfold pad_dec. rewrite bytes_app, bytes_text, ascii_only_app, zeros_ascii.
  apply digits_ascii, dec_digits.
Qed.

Lemma utf8_render c : utf8_valid (render_cents_to_decimal c) = true.
Proof.
  apply ascii_utf8. unfold render_cents_to_decimal. rewrite !bytes_app, !ascii_only_app.
  by rewrite (digits_ascii _ (dec_digits (c / 100))), pad_dec_ascii.
Qed.

Lemma utf8_render_signed c : utf8_valid (render_signed_cents_to_decimal c) = true.
Proof.
  unfold render_signed_cents_to_decimal. case_match; [|apply utf8_render].
  apply ascii_utf8. unfold render_cents_to_decimal. rewrite !bytes_app, !ascii_only_app.
  by rewrite (digits_ascii _ (dec_digits (Z.abs c / 100))), pad_dec_ascii.
Qed.

(** ** Reads *)

Definition utf8_opt (o : option string) : Prop :=
  match o with Some v => utf8_valid v = true | None => True end.

Section reads.
Context (bag : list (Z * string)) (t : Z).

Lemma opt_str_find o : bag_find bag t = o → utf8_opt o → opt_str bag t = Ok o.
Proof. intros E Hu. unfold opt_str. rewrite E. destruct o; cbn in *; [by rewrite Hu|done]. Qed.

Lemma req_str_find v : bag_find bag t = Some v → utf8_valid v = true → req_str bag t = Ok v.
Proof. intros E Hu. unfold req_str. by rewrite (opt_str_find (Some v)). Qed.

Lemma opt_u64_find o :
  bag_find bag t = dec <$> o → (∀ n, o = Some n → has_ty u64 n) → opt_u64 bag t = Ok o.
Proof.
  intros E Hn. unfold opt_u64. rewrite (opt_str_find _ E) by (destruct o; cbn; [apply utf8_dec|done]).
  destruct o as [n|]; cbn; [|done]. specialize (Hn n eq_refl).
  rewrite parse_uint_dec; [done|unfold_int; lia|done].
Qed.

Lemma req_u64_find n : bag_find bag t = Some (dec n) → has_ty u64 n → req_u64 bag t = Ok n.
Proof.
  intros E Hn. unfold req_u64. rewrite (opt_u64_find (Some n)); [done..|]. by intros ? [= <-].
Qed.

Lemma req_u32_find n : bag_find bag t = Some (dec n) → has_ty u32 n → req_u32 bag t = Ok n.
Proof.
  intros E Hn. unfold req_u32. rewrite (req_u64_find n); [|done|unfold_int; lia].
  cbn. by rewrite narrow_fits.
Qed.

Lemma opt_u16_find o :
  bag_find bag t = dec <$> o → (∀ n, o = Some n → has_ty u16 n) → opt_u16 bag t = Ok o.
Proof.
  intros E Hn. unfold opt_u16. rewrite (opt_str_find _ E) by (destruct o; cbn; [apply utf8_dec|done]).
  destruct o as [n|]; cbn; [|done]. specialize (Hn n eq_refl).
  rewrite parse_uint_dec; [done|unfold has_ty, u16 in Hn; cbn in Hn; lia|done].
Qed.

Lemma req_u16_find n : bag_find bag t = Some (dec n) → has_ty u16 n → req_u16 bag t = Ok n.
Proof.
  intros E Hn. unfold req_u16. rewrite (opt_u16_find (Some n)); [done..|]. by intros ? [= <-].
Qed.

Definition bool_field (b : bool) : string := if b then "Y" else "N".

Lemma opt_bool_find o : bag_find bag t = bool_field <$> o → opt_bool bag t = Ok o.
Proof.
  intros E. unfold opt_bool. rewrite (opt_str_find _ E) by (by destruct o as [[]|]).
  by destruct o as [[]|].
Qed.

Lemma opt_price_find o :
  bag_find bag t = render_cents_to_decimal <$> o → (∀ c, o = Some c → has_ty u64 c) →
  decode_optional_price bag t = Ok o.
Proof.
  intros E Hc. unfold decode_optional_price.
  rewrite (opt_str_find _ E) by (destruct o; cbn; [apply utf8_render|done]).
  destruct o as [c|]; cbn; [|done]. by rewrite parse_render by by apply Hc.
Qed.

Lemma optional_find {A} (f : string → result FixDecodeError A) (g : A → string) o :
  bag_find bag t = g <$> o →
  (∀ a, o = Some a → utf8_valid (g a) = true ∧ f (g a) = Ok a) →
  decode_optional f bag t = Ok o.
Proof.
  intros E Hg. unfold decode_optional. destruct o as [a|]; cbn in E.
  - destruct (Hg a eq_refl) as [Hu Hf]. rewrite (opt_str_find (Some (g a)) E Hu). cbn. by rewrite Hf.
  - by rewrite (opt_str_find None E).
Qed.
End reads.

(** ** Duplicates *)

(** The tags the duplicate check compares. *)
Definition scalar_tags (sr : bool) (l : list Z) : list Z :=
  filter (λ t, is_pure_group_member t || ((t =? SYMBOL_TAG) && sr) = false) l.

Lemma duplicate_loop_ok sr fields seen :
  NoDup (seen ++ scalar_tags sr fields.*1) → duplicate_loop sr fields seen = Ok tt.
Proof.
  revert seen. induction fields as [|[t v] fields IH]; intros seen; [done|].
  cbn [duplicate_loop fmap list_fmap fst]. unfold scalar_tags. rewrite filter_cons.
  destruct (is_pure_group_member t || ((t =? SYMBOL_TAG) && sr)) eqn:E; cbn [negb].
  { rewrite decide_False by done. apply IH. }
  rewrite decide_True by done. intros Hn.
  assert (existsb (Z.eqb t) seen = false) as ->.
  { apply not_true_iff_false. intros (x & Hx & ->%Z.eqb_eq)%existsb_exists.
    apply NoDup_app in Hn as (_ & Hn & _). apply (Hn x); [by apply list_elem_of_In|].
    by left. }
  apply IH. by rewrite <-app_assoc.
Qed.

(** ** Groups *)

(** An entry that opens with the delimiter and goes on with members. *)
Definition entry_shape (delimiter : Z) (members : list Z) (entry : list (Z * string)) : Prop :=
  ∃ v rest, entry = (delimiter, v) :: rest ∧
    Forall (λ f, f.1 ≠ delimiter ∧ f.1 ∈ members) rest.

Lemma group_members d ms rest tail groups entry :
  Forall (λ f : Z * string, f.1 ≠ d ∧ f.1 ∈ ms) rest →
  group_loop d ms (rest ++ tail) groups (Some entry) =
    group_loop d ms tail groups (Some (entry ++ rest)).
Proof.
  intros H. revert entry. induction H as [|[t v] rest [Ht Hm] Hr IH]; intros entry; cbn [app].
  { by rewrite app_nil_r. }
  cbn [group_loop fst] in *. rewrite (proj2 (Z.eqb_neq _ _)) by done.
  assert (existsb (Z.eqb t) ms = true) as ->.
  { apply existsb_exists. exists t. split; [by apply list_elem_of_In|apply Z.eqb_refl]. }
  rewrite IH. by rewrite <-app_assoc.
Qed.

Lemma group_loop_entries d ms entries tail groups current :
  Forall (entry_shape d ms) entries →
  match tail with [] => True | (t, _) :: _ => t ≠ d ∧ t ∉ ms end →
  group_loop d ms (concat entries ++ tail) groups current =
    Some (groups ++ option_list current ++ entries).
Proof.
  intros He Ht. revert groups current.
  induction He as [|entry entries (v & rest & -> & Hr) He IH]; intros groups current; cbn [concat].
  - destruct tail as [|[t v] tail]; cbn.
    { destruct current; cbn; by rewrite ?app_nil_r. }
    destruct Ht as [Ht Hm]. rewrite (proj2 (Z.eqb_neq _ _)) by done.
    assert (existsb (Z.eqb t) ms = false) as ->.
    { apply not_true_iff_false. intros (x & Hx & ->%Z.eqb_eq)%existsb_exists.
      by apply Hm, list_elem_of_In. }
    destruct current; cbn; by rewrite ?app_nil_r.
  - cbn [app]. cbn [group_loop]. rewrite Z.eqb_refl, <-app_assoc.
    rewrite group_members by done. rewrite IH. cbn [option_list app].
    destruct current; cbn; by rewrite <-?app_assoc.
Qed.

Lemma after_tag_app a b t :
  t ∉ a.*1 → after_tag (a ++ b) t = after_tag b t.
Proof.
  induction a as [|[t' v] a IH]; cbn; [done|]. intros [Ht Ha]%not_elem_of_cons.
  rewrite (proj2 (Z.eqb_neq _ _)) by done. by apply IH.
Qed.

(** Reading a group whose count precedes its entries. *)
Lemma group_read pre count d ms entries tail :
  count ∉ pre.*1 → (Z.of_nat (length entries) ≤ MAX_GROUP_ENTRIES) →
  Forall (entry_shape d ms) entries →
  match tail with [] => True | (t, _) :: _ => t ≠ d ∧ t ∉ ms end →
  group (pre ++ (count, dec (Z.of_nat (length entries))) :: concat entries ++ tail) count d ms =
    Ok entries.
Proof.
  intros Hp Hl He Ht. unfold group, MAX_GROUP_ENTRIES in *.
  rewrite (req_u32_find _ _ (Z.of_nat (length entries))).
  - cbn [mbind result_bind]. destruct (Z.ltb_spec 1024 (Z.of_nat (length entries))); [lia|].
    rewrite after_tag_app by done. cbn [after_tag]. rewrite Z.eqb_refl. cbn [ok_or mbind result_bind].
    rewrite group_loop_entries by done. cbn [app option_list]; change (option_list None ++ entries) with entries.
    rewrite (narrow_fits u32 (Z.of_nat (length entries))) by (unfold_int; lia). cbn [from_option id].
    by rewrite Z.eqb_refl.
  - rewrite bag_find_app, bag_find_None by done. cbn. by rewrite Z.eqb_refl.
  - unfold_int. lia.
Qed.

(** ** The tag-value library *)

(** Documented behaviour of ironfix: the encoder appends its fields in order, an
    unsigned integer in decimal and a boolean as Y or N, and decoding a finished
    frame gives back the begin string, the message type and those fields between the
    length and the checksum. *)
Class FixLibLaws `{FixLib} := {
  enc_fields : Encoder → list (Z * string);
  enc_begin : Encoder → string;
  msg_type_of : string → MsgType;
  encoder_new_spec b : enc_fields (encoder_new b) = [] ∧ enc_begin (encoder_new b) = b;
  put_str_spec e t v :
    enc_fields (put_str e t v) = enc_fields e ++ [(t, v)] ∧ enc_begin (put_str e t v) = enc_begin e;
  put_uint_spec e t n :
    enc_fields (put_uint e t n) = enc_fields e ++ [(t, dec n)] ∧
    enc_begin (put_uint e t n) = enc_begin e;
  put_bool_spec e t b :
    enc_fields (put_bool e t b) = enc_fields e ++ [(t, bool_field b)] ∧
    enc_begin (put_bool e t b) = enc_begin e;
  msg_type_codes :
    msg_type_of "A" = MtLogon ∧ msg_type_of "5" = MtLogout ∧ msg_type_of "0" = MtHeartbeat ∧
    msg_type_of "1" = MtTestRequest ∧ msg_type_of "2" = MtResendRequest ∧
    msg_type_of "4" = MtSequenceReset ∧ msg_type_of "3" = MtReject ∧
    msg_type_of "D" = MtNewOrderSingle ∧ msg_type_of "F" = MtOrderCancelRequest ∧
    msg_type_of "G" = MtOrderCancelReplaceRequest ∧ msg_type_of "q" = MtOrderMassCancelRequest ∧
    msg_type_of "H" = MtOrderStatusRequest ∧ msg_type_of "8" = MtExecutionReport ∧
    msg_type_of "9" = MtOrderCancelReject ∧ msg_type_of "r" = MtOrderMassCancelReport ∧
    msg_type_of "j" = MtBusinessMessageReject ∧ msg_type_of "V" = MtMarketDataRequest ∧
    msg_type_of "W" = MtMarketDataSnapshotFullRefresh ∧
    msg_type_of "X" = MtMarketDataIncrementalRefresh ∧
    msg_type_of "Y" = MtMarketDataRequestReject;
  finish_decode e frame ty rest :
    encoder_finish e = Ok frame → enc_fields e = (tags.MSG_TYPE, ty) :: rest →
    ∃ raw len sum,
      frame_decode frame = Ok raw ∧ raw_begin_string raw = Ok (enc_begin e) ∧
      raw_msg_type raw = msg_type_of ty ∧
      raw_field_count raw = Z.of_nat (length (raw_fields raw)) ∧
      raw_fields raw =
        (tags.BEGIN_STRING, enc_begin e) :: (tags.BODY_LENGTH, len) :: (tags.MSG_TYPE, ty) ::
          rest ++ [(tags.CHECK_SUM, sum)];
}.

(** Membership in a concrete list of slots. *)
Ltac slot_in := solve [repeat first [apply list_elem_of_here | apply list_elem_of_further]].

Section writer.
Context `{Upstream} `{FixLib} `{!FixLibLaws}.

(** The encoder has written these slots under the venue's begin string. *)
Definition wrote (w : Encoder) (slots : list (Z * option string)) : Prop :=
  enc_fields w = bag_of slots ∧ enc_begin w = FixWire.BEGIN_STRING.

Lemma wrote_new ty : wrote (writer_new ty) [(tags.MSG_TYPE, Some ty)].
Proof.
  unfold writer_new, wrote.
  destruct (put_str_spec (encoder_new FixWire.BEGIN_STRING) tags.MSG_TYPE ty) as [-> ->].
  by destruct (encoder_new_spec FixWire.BEGIN_STRING) as [-> ->].
Qed.

Lemma wrote_str w s t v : wrote w s → wrote (w_str w t v) (s ++ [(t, Some v)]).
Proof.
  intros [Hf Hb]. unfold wrote, w_str. destruct (put_str_spec w t v) as [-> ->].
  by rewrite bag_of_app, Hf.
Qed.

Lemma wrote_u64 w s t n : wrote w s → wrote (w_u64 w t n) (s ++ [(t, Some (dec n))]).
Proof.
  intros [Hf Hb]. unfold wrote, w_u64. destruct (put_uint_spec w t n) as [-> ->].
  by rewrite bag_of_app, Hf.
Qed.

Lemma wrote_u16 w s t n : wrote w s → wrote (w_u16 w t n) (s ++ [(t, Some (dec n))]).
Proof. apply wrote_u64. Qed.

Lemma wrote_none w s t : wrote w s → wrote w (s ++ [(t, None)]).
Proof. intros [Hf Hb]. split; [|done]. by rewrite bag_of_app, app_nil_r. Qed.

Lemma wrote_opt_str w s t o : wrote w s → wrote (w_opt_str w t o) (s ++ [(t, o)]).
Proof. destruct o; [apply wrote_str|apply wrote_none]. Qed.

Lemma wrote_opt_u64 w s t o : wrote w s → wrote (w_opt_u64 w t o) (s ++ [(t, dec <$> o)]).
Proof. destruct o; [apply wrote_u64|apply wrote_none]. Qed.

Lemma wrote_opt_u16 w s t o : wrote w s → wrote (w_opt_u16 w t o) (s ++ [(t, dec <$> o)]).
Proof. apply wrote_opt_u64. Qed.

Lemma wrote_opt_bool w s t o : wrote w s → wrote (w_opt_bool w t o) (s ++ [(t, bool_field <$> o)]).
Proof.
  destruct o as [b|]; [|apply wrote_none]. intros [Hf Hb]. unfold wrote, w_opt_bool.
  destruct (put_bool_spec w t b) as [-> ->]. by rewrite bag_of_app, Hf.
Qed.

Lemma wrote_opt_price w s t o :
  wrote w s → wrote (w_opt_price w t o) (s ++ [(t, render_cents_to_decimal <$> o)]).
Proof. destruct o; [apply wrote_str|apply wrote_none]. Qed.

Lemma wrote_foldl {A} (f : Encoder → A → Encoder) (g : A → list (Z * option string)) w s l :
  (∀ w s a, wrote w s → wrote (f w a) (s ++ g a)) →
  wrote w s → wrote (foldl f w l) (s ++ concat (g <$> l)).
Proof.
  intros Hf. revert w s. induction l as [|a l IH]; intros w s Hw; cbn.
  { by rewrite app_nil_r. }
  rewrite app_assoc. by apply IH, Hf.
Qed.

Definition header_slots (h : StandardHeader) : list (Z * option string) :=
  [(tags.SENDER_COMP_ID, Some (sender_comp_id h));
   (tags.TARGET_COMP_ID, Some (target_comp_id h));
   (tags.MSG_SEQ_NUM, Some (dec (msg_seq_num h)));
   (tags.SENDING_TIME, Some (sending_time h))].

Lemma wrote_header h w s : wrote w s → wrote (header_encode h w) (s ++ header_slots h).
Proof.
  intros Hw. unfold header_encode, header_slots.
  pose proof (wrote_str _ _ tags.SENDING_TIME (sending_time h)
    (wrote_u64 _ _ tags.MSG_SEQ_NUM (msg_seq_num h)
      (wrote_str _ _ tags.TARGET_COMP_ID (target_comp_id h)
        (wrote_str _ _ tags.SENDER_COMP_ID (sender_comp_id h) Hw)))) as Hx.
  rewrite <-!app_assoc in Hx. exact Hx.
Qed.

(** ** Well-formed values *)

(** A string is valid UTF-8, as every Rust string is. *)
Definition str_wf (s : string) : Prop := utf8_valid s = true.
Definition time_wf (t : UtcTimestamp) : Prop := str_wf t ∧ is_valid_utc_timestamp t = true.
(** A canonical symbol: one the symbol parser returns unchanged. *)
Definition sym_wf (s : Symbol) : Prop := str_wf s ∧ Symbol_parse s = Ok s.
Definition opt_ok {A} (P : A → Prop) (o : option A) : Prop :=
  match o with Some a => P a | None => True end.

Definition header_wf (h : StandardHeader) : Prop :=
  (str_wf (sender_comp_id h) ∧ comp_id_accepts (sender_comp_id h) = true) ∧
  (str_wf (target_comp_id h) ∧ comp_id_accepts (target_comp_id h) = true) ∧
  has_ty u64 (msg_seq_num h) ∧ time_wf (sending_time h).

(** ** The decoder's prologue *)

Definition env_slots (ty len : string) (h : StandardHeader) : list (Z * option string) :=
  [(tags.BEGIN_STRING, Some FixWire.BEGIN_STRING); (tags.BODY_LENGTH, Some len);
   (tags.MSG_TYPE, Some ty)] ++ header_slots h.
Definition env_tags : list Z := [8; 9; 35; 49; 56; 34; 52].

Lemma bag_find_slots_app a b t v :
  NoDup a.*1 → (t, Some v) ∈ a → bag_find (bag_of (a ++ b)) t = Some v.
Proof. intros Hn Hin. by rewrite bag_of_app, bag_find_app, (bag_find_slots a t (Some v)). Qed.

Lemma UtcTimestamp_parse_wf tag t : time_wf t → UtcTimestamp_parse tag t = Ok t.
Proof. intros [_ Ht]. unfold UtcTimestamp_parse. by rewrite Ht. Qed.

Lemma header_decode_env ty len h rest :
  header_wf h → header_decode (bag_of (env_slots ty len h ++ rest)) = Ok h.
Proof.
  intros ([Hs Hsa] & [Ht Hta] & Hq & Htime).
  assert (NoDup (env_slots ty len h).*1) as Hn by (change (NoDup env_tags); compute_done).
  assert (∀ t v, (t, Some v) ∈ env_slots ty len h →
    bag_find (bag_of (env_slots ty len h ++ rest)) t = Some v) as Hf
    by (intros; by apply bag_find_slots_app).
  unfold header_decode, decode_comp_id.
  rewrite (req_str_find _ tags.SENDER_COMP_ID (sender_comp_id h)) by
    (first [done|apply Hf; unfold env_slots, header_slots; cbn [app]; slot_in]).
  cbn [mbind result_bind]. rewrite Hsa. cbn [mbind result_bind].
  rewrite (req_str_find _ tags.TARGET_COMP_ID (target_comp_id h)) by
    (first [done|apply Hf; unfold env_slots, header_slots; cbn [app]; slot_in]).
  cbn [mbind result_bind]. rewrite Hta. cbn [mbind result_bind].
  rewrite (req_u64_find _ tags.MSG_SEQ_NUM (msg_seq_num h)) by
    (first [done|apply Hf; unfold env_slots, header_slots; cbn [app]; slot_in]).
  cbn [mbind result_bind].
  rewrite (req_str_find _ tags.SENDING_TIME (sending_time h)) by
    (first [by destruct Htime|apply Hf; unfold env_slots, header_slots; cbn [app]; slot_in]).
  cbn [mbind result_bind]. rewrite UtcTimestamp_parse_wf by done. by destruct h.
Qed.

Lemma scalar_tags_sublist sr slots :
  scalar_tags sr (bag_of slots).*1 `sublist_of` scalar_tags sr slots.*1.
Proof.
  unfold scalar_tags. induction slots as [|[t [v|]] slots IH]; cbn [bag_of fmap list_fmap fst].
  - done.
  - rewrite !filter_cons. case_decide; [by constructor|done].
  - rewrite (filter_cons _ t). case_decide; [by constructor|done].
Qed.

(** A frame written from a header and slots decodes to the body decoder of its
    message type, run on the header and the bag of the frame's slots. *)
Lemma decode_wrote ty h slots w frame :
  wrote w ((tags.MSG_TYPE, Some ty) :: header_slots h ++ slots) → header_wf h →
  (length slots ≤ 4088)%nat →
  NoDup (scalar_tags (symbol_repeats_in_msg_type (msg_type_of ty))
           (env_tags ++ slots.*1 ++ [tags.CHECK_SUM])) →
  writer_finish w = Ok frame →
  ∃ len sum, decode frame =
    decode_body (msg_type_of ty) h
      (bag_of (env_slots ty len h ++ slots ++ [(tags.CHECK_SUM, Some sum)])).
Proof.
  intros [Hw Hb] Hh Hl Hn Hf. unfold writer_finish in Hf.
  destruct (encoder_finish w) as [frame'|e] eqn:E; [|done]. injection Hf as ->.
  cbn [bag_of] in Hw. destruct (finish_decode w frame ty _ E Hw)
    as (raw & len & sum & Hd & Hbs & Hty & Hc & Hfields).
  exists len, sum. unfold decode. rewrite Hd. cbn [map_err mbind result_bind].
  rewrite Hbs, Hb. cbn [map_err mbind result_bind]. rewrite String.eqb_refl. cbn [negb].
  assert (raw_fields raw = bag_of (env_slots ty len h ++ slots ++ [(tags.CHECK_SUM, Some sum)]))
    as Hbag.
  { rewrite Hfields, Hb. unfold env_slots. cbn [app bag_of]. by rewrite !bag_of_app, <-app_assoc. }
  rewrite Hc, Hbag, Hty.
  destruct (Z.ltb_spec MAX_FIELDS_PER_MESSAGE
    (Z.of_nat (length (bag_of (env_slots ty len h ++ slots ++ [(tags.CHECK_SUM, Some sum)])))))
    as [Hlt|_].
  { exfalso. unfold MAX_FIELDS_PER_MESSAGE in Hlt.
    pose proof (bag_of_length (env_slots ty len h ++ slots ++ [(tags.CHECK_SUM, Some sum)])) as Hbl.
    rewrite !length_app in Hbl. unfold env_slots, header_slots in *. cbn [length app] in *. lia. }
  unfold reject_duplicate_scalar_tags. rewrite duplicate_loop_ok.
  - cbn [mbind result_bind]. by rewrite header_decode_env.
  - cbn [app]. eapply sublist_NoDup; [|apply scalar_tags_sublist].
    rewrite !fmap_app. exact Hn.
Qed.

(** The same for a message without groups: each of its slots is found as written. *)
Lemma decode_flat ty h slots w frame :
  wrote w ((tags.MSG_TYPE, Some ty) :: header_slots h ++ slots) → header_wf h →
  writer_finish w = Ok frame →
  (length slots ≤ 4088)%nat → NoDup (env_tags ++ slots.*1 ++ [tags.CHECK_SUM]) →
  ∃ bag, decode frame = decode_body (msg_type_of ty) h bag ∧
    ∀ t o, (t, o) ∈ slots → bag_find bag t = o.
Proof.
  intros Hw Hh Hf Hl Hn.
  destruct (decode_wrote ty h slots w frame) as (len & sum & Hd); [done..| |done|].
  { eapply sublist_NoDup; [exact Hn|]. unfold scalar_tags. apply sublist_filter. }
  eexists. split; [exact Hd|]. intros t o Hin. apply bag_find_slots.
  - rewrite !fmap_app. exact Hn.
  - rewrite !elem_of_app. auto.
Qed.
End writer.
