(* ===== verification/FixRoundTrip.v ===== *)
(** The FIX dialect round-trips: a sample FIX library and messages, and the theorem that
    decoding the frame of a message gives the message back. *)

From S2P Require Export SampleBook FixWriter.

Fixpoint bits_of_pos (p : positive) : string :=
  match p with
  | xI p => String "1"%char (bits_of_pos p)
  | xO p => String "0"%char (bits_of_pos p)
  | xH => EmptyString
  end.

Fixpoint pos_of_bits (s : string) : positive :=
  match s with
  | EmptyString => xH
  | String c s => if Ascii.eqb c "1" then xI (pos_of_bits s) else xO (pos_of_bits s)
  end.

Lemma pos_of_bits_of_pos p : pos_of_bits (bits_of_pos p) = p.
Proof. induction p; cbn; congruence. Qed.

Definition sample_msg_type_of (s : string) : MsgType :=
  let codes :=
    [("A", MtLogon); ("5", MtLogout); ("0", MtHeartbeat); ("1", MtTestRequest);
     ("2", MtResendRequest); ("4", MtSequenceReset); ("3", MtReject); ("D", MtNewOrderSingle);
     ("F", MtOrderCancelRequest); ("G", MtOrderCancelReplaceRequest);
     ("q", MtOrderMassCancelRequest); ("H", MtOrderStatusRequest); ("8", MtExecutionReport);
     ("9", MtOrderCancelReject); ("r", MtOrderMassCancelReport);
     ("j", MtBusinessMessageReject); ("V", MtMarketDataRequest);
     ("W", MtMarketDataSnapshotFullRefresh); ("X", MtMarketDataIncrementalRefresh);
     ("Y", MtMarketDataRequestReject)] in
  match find (λ c, String.eqb c.1 s) codes with
  | Some c => c.2
  | None => MtOther s
  end.

Definition sample_frame := (string * list (Z * string))%type.

Definition sample_raw (f : sample_frame) : result string RawMessage :=
  match f.2 with
  | (_, ty) :: rest =>
      let fields := (8, f.1) :: (9, "0") :: (35, ty) :: rest ++ [(10, "000")] in
      Ok {| raw_begin_string := Ok f.1; raw_msg_type := sample_msg_type_of ty;
            raw_field_count := Z.of_nat (length fields); raw_fields := fields |}
  | [] => Err "no message type"
  end.

#[export] Instance SampleFixLib : FixLib := {|
  BEGIN_STRING := "FIX.4.4";
  frame_decode s :=
    match countable.decode (pos_of_bits s) with
    | Some f => sample_raw f
    | None => Err "malformed frame"
    end;
  Encoder := sample_frame;
  encoder_new b := (b, []);
  put_str e t v := (e.1, e.2 ++ [(t, v)]);
  put_uint e t n := (e.1, e.2 ++ [(t, dec n)]);
  put_bool e t b := (e.1, e.2 ++ [(t, bool_field b)]);
  encoder_finish e := Ok (bits_of_pos (countable.encode e));
  comp_id_accepts s := (String.length s <=? 32)%nat;
|}.

#[export] Instance SampleFixLibLaws : FixLibLaws (H := SampleFixLib).
Proof.
  refine {| enc_fields := snd; enc_begin := fst; msg_type_of := sample_msg_type_of |};
    try done; [by repeat split..|].
  intros [b fields] frame ty rest. cbn. intros [= <-] ->.
  rewrite pos_of_bits_of_pos, decode_encode. unfold sample_raw. cbn.
  eexists _, _, _. split_and!; reflexivity.
Defined.

(** ** Well-formed messages *)

Section well_formed.
Context `{Upstream} `{FixLib}.

Definition Logon_wf (m : Logon) : Prop :=
  has_ty u32 (lo_heart_bt_int m) ∧ str_wf (lo_username m) ∧ str_wf (lo_password m).

Definition ResendRequest_wf (m : ResendRequest) : Prop :=
  has_ty u64 (rr_begin_seq_no m) ∧ has_ty u64 (rr_end_seq_no m).

(** The reason is a named one, or a code without a name. *)
Definition Reject_wf (m : Reject) : Prop :=
  has_ty u64 (rj_ref_seq_num m) ∧
  opt_ok (λ r, has_ty u16 (reason_to_fix r) ∧ reason_from_fix (reason_to_fix r) = r)
    (rj_session_reject_reason m) ∧
  opt_ok (has_ty u16) (rj_ref_tag_id m) ∧ opt_ok str_wf (rj_text m).

Definition NewOrderSingle_wf (m : NewOrderSingle) : Prop :=
  (str_wf (no_cl_ord_id m) ∧ opt_ok str_wf (no_account m) ∧ sym_wf (no_symbol m)) ∧
  time_wf (no_transact_time m) ∧
  opt_ok (has_ty u64) (no_price m) ∧ has_ty u64 (no_order_qty m) ∧
  opt_ok time_wf (no_expire_time m) ∧
  (no_ord_type m = OtLimit → no_price m ≠ None) ∧
  (no_time_in_force m = TifGtd → no_expire_time m ≠ None).

Definition OrderCancelRequest_wf (m : OrderCancelRequest) : Prop :=
  str_wf (oc_orig_cl_ord_id m) ∧ str_wf (oc_cl_ord_id m) ∧ sym_wf (oc_symbol m).

Definition OrderCancelReplaceRequest_wf (m : OrderCancelReplaceRequest) : Prop :=
  str_wf (og_orig_cl_ord_id m) ∧ str_wf (og_cl_ord_id m) ∧ sym_wf (og_symbol m) ∧
  opt_ok (has_ty u64) (og_price m) ∧ has_ty u64 (og_order_qty m) ∧
  (og_ord_type m = OtLimit → og_price m ≠ None).

Definition OrderMassCancelRequest_wf (m : OrderMassCancelRequest) : Prop :=
  str_wf (oq_cl_ord_id m) ∧ opt_ok sym_wf (oq_symbol m) ∧
  (oq_mass_cancel_request_type m = MqSecurity → oq_symbol m ≠ None).

Definition OrderStatusRequest_wf (m : OrderStatusRequest) : Prop :=
  opt_ok str_wf (oh_order_id m) ∧ opt_ok str_wf (oh_cl_ord_id m) ∧ sym_wf (oh_symbol m) ∧
  (oh_order_id m = None → oh_cl_ord_id m ≠ None).

(** The commission travels with its type, and is not the most negative value. *)
Definition ExecutionReport_wf (m : ExecutionReport) : Prop :=
  (str_wf (er_order_id m) ∧ str_wf (er_exec_id m) ∧ sym_wf (er_symbol m)) ∧
  (has_ty u64 (er_leaves_qty m) ∧ has_ty u64 (er_cum_qty m) ∧
   opt_ok (has_ty u64) (er_last_qty m)) ∧
  (opt_ok (has_ty u64) (er_last_px m) ∧ opt_ok (has_ty u64) (er_price m)) ∧
  has_ty u64 (er_secondary_exec_id m) ∧ time_wf (er_transact_time m) ∧
  opt_ok (λ c, has_ty i64 c ∧ c ≠ int_min i64) (er_commission m) ∧
  (er_commission m = None ↔ er_comm_type m = None) ∧
  opt_ok (has_ty u16) (er_ord_rej_reason m) ∧ opt_ok str_wf (er_text m).

Definition OrderCancelReject_wf (m : OrderCancelReject) : Prop :=
  str_wf (ocr_order_id m) ∧ str_wf (ocr_cl_ord_id m) ∧ str_wf (ocr_orig_cl_ord_id m) ∧
  has_ty u16 (ocr_cxl_rej_reason m) ∧ opt_ok str_wf (ocr_text m).

Definition OrderMassCancelReport_wf (m : OrderMassCancelReport) : Prop :=
  has_ty u32 (mc_total_affected_orders m) ∧ Forall str_wf (mc_affected_orders m) ∧
  Z.of_nat (length (mc_affected_orders m)) ≤ MAX_GROUP_ENTRIES.

Definition BusinessMessageReject_wf (m : BusinessMessageReject) : Prop :=
  has_ty u64 (bj_ref_seq_num m) ∧ str_wf (bj_ref_msg_type m) ∧
  has_ty u16 (bj_business_reject_reason m) ∧ opt_ok str_wf (bj_text m).

Definition MarketDataRequest_wf (m : MarketDataRequest) : Prop :=
  str_wf (mv_md_req_id m) ∧ has_ty u32 (mv_market_depth m) ∧
  (mv_entry_types m ≠ [] ∧ Z.of_nat (length (mv_entry_types m)) ≤ MAX_GROUP_ENTRIES) ∧
  (mv_symbols m ≠ [] ∧ Z.of_nat (length (mv_symbols m)) ≤ MAX_GROUP_ENTRIES) ∧
  Forall sym_wf (mv_symbols m).

Definition MarketDataSnapshotFullRefresh_wf (m : MarketDataSnapshotFullRefresh) : Prop :=
  str_wf (mw_md_req_id m) ∧ sym_wf (mw_symbol m) ∧ has_ty u64 (mw_rpt_seq m) ∧
  Z.of_nat (length (mw_entries m)) ≤ MAX_GROUP_ENTRIES ∧
  Forall (λ e, has_ty u64 (se_price e) ∧ has_ty u64 (se_size e)) (mw_entries m).

(** Five fields an entry and eleven others fit the field limit up to 817 entries. *)
Definition MarketDataIncrementalRefresh_wf (m : MarketDataIncrementalRefresh) : Prop :=
  str_wf (mx_md_req_id m) ∧ has_ty u64 (mx_rpt_seq m) ∧
  Z.of_nat (length (mx_entries m)) ≤ 817 ∧
  Forall (λ e, sym_wf (ie_symbol e) ∧ has_ty u64 (ie_price e) ∧ has_ty u64 (ie_size e))
    (mx_entries m).

Definition MarketDataRequestReject_wf (m : MarketDataRequestReject) : Prop :=
  str_wf (my_md_req_id m) ∧ has_ty u16 (my_md_req_rej_reason m) ∧ opt_ok str_wf (my_text m).

Definition body_wf (m : DecodedMessage) : Prop :=
  match m with
  | DLogon m => Logon_wf m
  | DLogout m => opt_ok str_wf (lg_text m)
  | DHeartbeat m => opt_ok str_wf (hb_test_req_id m)
  | DTestRequest m => str_wf (tr_test_req_id m)
  | DResendRequest m => ResendRequest_wf m
  | DSequenceReset m => has_ty u64 (sq_new_seq_no m)
  | DReject m => Reject_wf m
  | DNewOrderSingle m => NewOrderSingle_wf m
  | DOrderCancelRequest m => OrderCancelRequest_wf m
  | DOrderCancelReplaceRequest m => OrderCancelReplaceRequest_wf m
  | DOrderMassCancelRequest m => OrderMassCancelRequest_wf m
  | DOrderStatusRequest m => OrderStatusRequest_wf m
  | DExecutionReport m => ExecutionReport_wf m
  | DOrderCancelReject m => OrderCancelReject_wf m
  | DOrderMassCancelReport m => OrderMassCancelReport_wf m
  | DBusinessMessageReject m => BusinessMessageReject_wf m
  | DMarketDataRequest m => MarketDataRequest_wf m
  | DMarketDataSnapshotFullRefresh m => MarketDataSnapshotFullRefresh_wf m
  | DMarketDataIncrementalRefresh m => MarketDataIncrementalRefresh_wf m
  | DMarketDataRequestReject m => MarketDataRequestReject_wf m
  end.

Definition message_wf (m : DecodedMessage) : Prop := header_wf (header_of m) ∧ body_wf m.
End well_formed.

(** ** Reading a body back *)

Lemma bind_ok {E A B} (x : result E A) a (k : A → result E B) r :
  x = Ok a → k a = r → (x ≫= k) = r.
Proof. by intros -> <-. Qed.

Lemma opt_ok_all {A} (P : A → Prop) o : opt_ok P o → ∀ a, o = Some a → P a.
Proof. by intros ? ? ->. Qed.

Lemma cond_false (P Q : Prop) `{Decision P, Decision Q} :
  (P → ¬ Q) → bool_decide P && bool_decide Q = false.
Proof. intros. repeat case_bool_decide; cbn; tauto. Qed.

Section reading.
Context `{Upstream} `{FixLib}.

Lemma side_of_fix v : side_from_fix (side_to_fix v) = Ok v.
Proof. by destruct v. Qed.
Lemma ord_type_of_fix v : ord_type_from_fix (ord_type_to_fix v) = Ok v.
Proof. by destruct v. Qed.
Lemma tif_of_fix v : tif_from_fix_or_default (Some (tif_to_fix v)) = Ok v.
Proof. by destruct v. Qed.
Lemma exec_type_of_fix v : exec_type_from_fix (exec_type_to_fix v) = Ok v.
Proof. by destruct v. Qed.
Lemma ord_status_of_fix v : ord_status_from_fix (ord_status_to_fix v) = Ok v.
Proof. by destruct v. Qed.
Lemma request_type_of_fix v :
  mass_cancel_request_type_from_fix (mass_cancel_request_type_to_fix v) = Ok v.
Proof. by destruct v. Qed.
Lemma response_of_fix v : mass_cancel_response_from_fix (mass_cancel_response_to_fix v) = Ok v.
Proof. by destruct v. Qed.
Lemma md_entry_type_of_fix v : md_entry_type_from_fix (md_entry_type_to_fix v) = Ok v.
Proof. by destruct v. Qed.
Lemma subscription_of_fix v :
  subscription_request_type_from_fix (subscription_request_type_to_fix v) = Ok v.
Proof. by destruct v. Qed.
Lemma md_update_of_fix v : md_update_action_from_fix (md_update_action_to_fix v) = Ok v.
Proof. by destruct v. Qed.
Lemma response_to_of_fix v : cxl_rej_response_to_from_fix (cxl_rej_response_to_to_fix v) = Ok v.
Proof. by destruct v. Qed.

Lemma decode_symbol_wf s : sym_wf s → decode_symbol s = Ok s.
Proof. intros [_ Hs]. unfold decode_symbol. by rewrite Hs. Qed.

Lemma time_field (bag : list (Z * string)) t tag o :
  bag_find bag t = o → opt_ok time_wf o →
  decode_optional (UtcTimestamp_parse tag) bag t = Ok o.
Proof.
  intros E Ho. apply (optional_find _ _ _ id); [by destruct o|].
  intros a ->. split; [apply Ho|by apply UtcTimestamp_parse_wf].
Qed.

Lemma symbol_field (bag : list (Z * string)) t o :
  bag_find bag t = o → opt_ok sym_wf o → decode_optional decode_symbol bag t = Ok o.
Proof.
  intros E Ho. apply (optional_find _ _ _ id); [by destruct o|].
  intros a ->. split; [apply Ho|by apply decode_symbol_wf].
Qed.

Lemma commission_field (bag : list (Z * string)) t tag o :
  bag_find bag t = render_signed_cents_to_decimal <$> o →
  opt_ok (λ c, has_ty i64 c ∧ c ≠ int_min i64) o →
  decode_optional (λ raw, map_err (PriceError tag) (parse_signed_decimal_to_cents raw)) bag t = Ok o.
Proof.
  intros E Ho. apply (optional_find _ _ _ _ _ E). intros c ->. destruct Ho as [Hc Hm].
  split; [apply utf8_render_signed|]. rewrite parse_signed_render by done.
  by rewrite (proj2 (Z.eqb_neq _ _) Hm).
Qed.

Lemma comm_type_field (bag : list (Z * string)) t o :
  bag_find bag t = comm_type_to_fix <$> o → decode_optional comm_type_from_fix bag t = Ok o.
Proof. intros E. apply (optional_find _ _ _ _ _ E). by intros [] _. Qed.

Lemma liquidity_field (bag : list (Z * string)) t o :
  bag_find bag t = last_liquidity_ind_to_fix <$> o →
  decode_optional last_liquidity_ind_from_fix bag t = Ok o.
Proof. intros E. apply (optional_find _ _ _ _ _ E). by intros [] _. Qed.

Lemma group_price_field (bag : list (Z * string)) t c :
  bag_find bag t = Some (render_cents_to_decimal c) → has_ty u64 c →
  decode_group_price bag t = Ok c.
Proof.
  intros E Hc. unfold decode_group_price. rewrite (req_str_find _ _ _ E (utf8_render c)).
  cbn. by rewrite parse_render.
Qed.
End reading.

(** One read: the field is among the slots [Hb] speaks of, its value is well formed. *)
Ltac field_wf :=
  solve [ assumption | done | apply opt_ok_all; assumption
        | match goal with |- utf8_valid (?f ?x) = true => destruct x; reflexivity end
        | match goal with |- utf8_opt (Some (?f ?x)) => destruct x; reflexivity end
        | match goal with H : sym_wf _ |- _ => apply H end
        | match goal with H : time_wf _ |- _ => apply H end ].
Ltac field Hb lem := eapply bind_ok; [eapply lem; [apply Hb; slot_in|field_wf..]|cbv beta].
Ltac value lem := eapply bind_ok; [eapply lem; field_wf|cbv beta].
Ltac read Hb :=
  lazymatch goal with
  | |- (req_str _ _ ≫= _) = _ => field Hb req_str_find
  | |- (opt_str _ _ ≫= _) = _ => field Hb opt_str_find
  | |- (req_u64 _ _ ≫= _) = _ => field Hb req_u64_find
  | |- (req_u32 _ _ ≫= _) = _ => field Hb req_u32_find
  | |- (opt_u64 _ _ ≫= _) = _ => field Hb opt_u64_find
  | |- (opt_u16 _ _ ≫= _) = _ => field Hb opt_u16_find
  | |- (req_u16 _ _ ≫= _) = _ => field Hb req_u16_find
  | |- (opt_bool _ _ ≫= _) = _ => field Hb opt_bool_find
  | |- (decode_optional_price _ _ ≫= _) = _ => field Hb opt_price_find
  | |- (decode_optional (UtcTimestamp_parse _) _ _ ≫= _) = _ => field Hb time_field
  | |- (decode_optional decode_symbol _ _ ≫= _) = _ => field Hb symbol_field
  | |- (decode_optional comm_type_from_fix _ _ ≫= _) = _ => field Hb comm_type_field
  | |- (decode_optional last_liquidity_ind_from_fix _ _ ≫= _) = _ => field Hb liquidity_field
  | |- (decode_optional _ _ _ ≫= _) = _ => field Hb commission_field
  | |- (decode_group_price _ _ ≫= _) = _ => field Hb group_price_field
  | |- (UtcTimestamp_parse _ _ ≫= _) = _ => value UtcTimestamp_parse_wf
  | |- (decode_symbol _ ≫= _) = _ => value decode_symbol_wf
  | |- (side_from_fix _ ≫= _) = _ => value side_of_fix
  | |- (ord_type_from_fix _ ≫= _) = _ => value ord_type_of_fix
  | |- (tif_from_fix_or_default _ ≫= _) = _ => value tif_of_fix
  | |- (exec_type_from_fix _ ≫= _) = _ => value exec_type_of_fix
  | |- (ord_status_from_fix _ ≫= _) = _ => value ord_status_of_fix
  | |- (mass_cancel_request_type_from_fix _ ≫= _) = _ => value request_type_of_fix
  | |- (mass_cancel_response_from_fix _ ≫= _) = _ => value response_of_fix
  | |- (md_entry_type_from_fix _ ≫= _) = _ => value md_entry_type_of_fix
  | |- (subscription_request_type_from_fix _ ≫= _) = _ => value subscription_of_fix
  | |- (md_update_action_from_fix _ ≫= _) = _ => value md_update_of_fix
  | |- (cxl_rej_response_to_from_fix _ ≫= _) = _ => value response_to_of_fix
  | |- context [bool_decide _ && bool_decide _] => rewrite cond_false by assumption
  | |- (if negb (0 =? 0) then _ else _) = _ => change (negb (0 =? 0)) with false; cbv iota
  end.
Ltac read_all Hb := repeat read Hb; try reflexivity.

(** Peeling the writers of an encoder. *)
Ltac write :=
  repeat first [ eapply wrote_new | eapply wrote_header | eapply wrote_str | eapply wrote_u64
               | eapply wrote_u16 | eapply wrote_opt_str | eapply wrote_opt_u64
               | eapply wrote_opt_u16 | eapply wrote_opt_bool | eapply wrote_opt_price ].

Section round_trip.
Context `{Upstream} `{FixLib} `{!FixLibLaws}.

Lemma wrote_eq w s s' : wrote w s → s = s' → wrote w s'.
Proof. by intros ? <-. Qed.

Lemma decode_back ty h slots w frame r :
  writer_finish w = Ok frame → header_wf h →
  wrote w ((tags.MSG_TYPE, Some ty) :: header_slots h ++ slots) →
  (length slots ≤ 4088)%nat → NoDup (env_tags ++ slots.*1 ++ [tags.CHECK_SUM]) →
  (∀ bag, (∀ t o, (t, o) ∈ slots → bag_find bag t = o) → decode_body (msg_type_of ty) h bag = r) →
  decode frame = r.
Proof.
  intros Hf Hh Hw Hl Hn Hr. destruct (decode_flat _ _ _ _ _ Hw Hh Hf Hl Hn) as (bag & -> & Hb).
  by apply Hr.
Qed.

(** The message type of each code. *)
Ltac code_type :=
  pose proof msg_type_codes as Hcodes; destruct_and! Hcodes;
  match goal with E : msg_type_of ?c = _ |- context [msg_type_of ?c] => rewrite E end.

(** A message without groups: peel the encoder, then read every field. *)
Tactic Notation "flat" reference(enc) reference(dec_) reference(wf) :=
  let Hh := fresh in let Hwf := fresh in let Hf := fresh in
  intros Hh Hwf Hf; unfold enc in Hf; cbn [body_wf] in Hwf; try unfold wf in Hwf; destruct_and? Hwf;
  eapply decode_back;
    [exact Hf | exact Hh | eapply wrote_eq; [write|cbn; reflexivity] | cbn; lia
    | apply (bool_decide_unpack _); vm_compute; exact I
    | let bag := fresh "bag" in let Hb := fresh "Hb" in
      intros bag Hb; code_type; cbn [decode_body];
      match goal with |- ?D <$> ?d = Ok (?D ?m) => assert (d = Ok m) as ->; [|reflexivity] end;
      unfold dec_; read_all Hb; 
      try (match goal with |- Ok _ = Ok ?m => destruct m; reflexivity end) ].

Lemma Logon_back m frame :
  header_wf (lo_header m) → body_wf (DLogon m) → Logon_encode m = Ok frame →
  decode frame = Ok (DLogon m).
Proof. flat Logon_encode Logon_decode Logon_wf. Qed.

Lemma Logout_back m frame :
  header_wf (lg_header m) → body_wf (DLogout m) → Logout_encode m = Ok frame →
  decode frame = Ok (DLogout m).
Proof. flat Logout_encode Logout_decode opt_ok. Qed.

Lemma Heartbeat_back m frame :
  header_wf (hb_header m) → body_wf (DHeartbeat m) → Heartbeat_encode m = Ok frame →
  decode frame = Ok (DHeartbeat m).
Proof. flat Heartbeat_encode Heartbeat_decode opt_ok. Qed.

Lemma TestRequest_back m frame :
  header_wf (tr_header m) → body_wf (DTestRequest m) → TestRequest_encode m = Ok frame →
  decode frame = Ok (DTestRequest m).
Proof. flat TestRequest_encode TestRequest_decode opt_ok. Qed.

Lemma ResendRequest_back m frame :
  header_wf (rr_header m) → body_wf (DResendRequest m) → ResendRequest_encode m = Ok frame →
  decode frame = Ok (DResendRequest m).
Proof. flat ResendRequest_encode ResendRequest_decode ResendRequest_wf. Qed.

Lemma SequenceReset_back m frame :
  header_wf (sq_header m) → body_wf (DSequenceReset m) → SequenceReset_encode m = Ok frame →
  decode frame = Ok (DSequenceReset m).
Proof. flat SequenceReset_encode SequenceReset_decode opt_ok. Qed.

Lemma Reject_back m frame :
  header_wf (rj_header m) → body_wf (DReject m) → Reject_encode m = Ok frame →
  decode frame = Ok (DReject m).
Proof.
  intros Hh Hwf.
  assert (opt_ok (has_ty u16) (reason_to_fix <$> rj_session_reject_reason m) ∧
    reason_from_fix <$> (reason_to_fix <$> rj_session_reject_reason m) =
      rj_session_reject_reason m) as [Hr Hinv].
  { destruct Hwf as (_ & Hr & _). destruct (rj_session_reject_reason m); cbn in *; [|done].
    destruct Hr as [Hr ->]. done. }
  revert Hh Hwf. flat Reject_encode Reject_decode Reject_wf. rewrite Hinv. by destruct m.
Qed.

Lemma NewOrderSingle_back m frame :
  header_wf (no_header m) → body_wf (DNewOrderSingle m) → NewOrderSingle_encode m = Ok frame →
  decode frame = Ok (DNewOrderSingle m).
Proof. flat NewOrderSingle_encode NewOrderSingle_decode NewOrderSingle_wf. Qed.

Lemma OrderCancelRequest_back m frame :
  header_wf (oc_header m) → body_wf (DOrderCancelRequest m) → OrderCancelRequest_encode m = Ok frame →
  decode frame = Ok (DOrderCancelRequest m).
Proof. flat OrderCancelRequest_encode OrderCancelRequest_decode OrderCancelRequest_wf. Qed.

Lemma OrderCancelReplaceRequest_back m frame :
  header_wf (og_header m) → body_wf (DOrderCancelReplaceRequest m) → OrderCancelReplaceRequest_encode m = Ok frame →
  decode frame = Ok (DOrderCancelReplaceRequest m).
Proof. flat OrderCancelReplaceRequest_encode OrderCancelReplaceRequest_decode OrderCancelReplaceRequest_wf. Qed.

Lemma OrderMassCancelRequest_back m frame :
  header_wf (oq_header m) → body_wf (DOrderMassCancelRequest m) → OrderMassCancelRequest_encode m = Ok frame →
  decode frame = Ok (DOrderMassCancelRequest m).
Proof. flat OrderMassCancelRequest_encode OrderMassCancelRequest_decode OrderMassCancelRequest_wf. Qed.

Lemma OrderStatusRequest_back m frame :
  header_wf (oh_header m) → body_wf (DOrderStatusRequest m) → OrderStatusRequest_encode m = Ok frame →
  decode frame = Ok (DOrderStatusRequest m).
Proof. flat OrderStatusRequest_encode OrderStatusRequest_decode OrderStatusRequest_wf. Qed.

Lemma ExecutionReport_back m frame :
  header_wf (er_header m) → body_wf (DExecutionReport m) → ExecutionReport_encode m = Ok frame →
  decode frame = Ok (DExecutionReport m).
Proof.
  intros Hh Hwf.
  assert (∀ e1 e2 : FixDecodeError,
    match er_commission m, er_comm_type m with
    | Some _, None => Err e1 | None, Some _ => Err e2 | _, _ => Ok tt
    end = Ok tt) as Hpair.
  { destruct Hwf as (_ & _ & _ & _ & _ & _ & Hp & _).
    destruct (er_commission m), (er_comm_type m); naive_solver. }
  revert Hh Hwf. flat ExecutionReport_encode ExecutionReport_decode ExecutionReport_wf.
  eapply bind_ok; [apply Hpair|cbv beta]. read_all Hb. by destruct m.
Qed.

Lemma OrderCancelReject_back m frame :
  header_wf (ocr_header m) → body_wf (DOrderCancelReject m) → OrderCancelReject_encode m = Ok frame →
  decode frame = Ok (DOrderCancelReject m).
Proof. flat OrderCancelReject_encode OrderCancelReject_decode OrderCancelReject_wf. Qed.

Lemma BusinessMessageReject_back m frame :
  header_wf (bj_header m) → body_wf (DBusinessMessageReject m) → BusinessMessageReject_encode m = Ok frame →
  decode frame = Ok (DBusinessMessageReject m).
Proof. flat BusinessMessageReject_encode BusinessMessageReject_decode BusinessMessageReject_wf. Qed.

Lemma MarketDataRequestReject_back m frame :
  header_wf (my_header m) → body_wf (DMarketDataRequestReject m) → MarketDataRequestReject_encode m = Ok frame →
  decode frame = Ok (DMarketDataRequestReject m).
Proof. flat MarketDataRequestReject_encode MarketDataRequestReject_decode MarketDataRequestReject_wf. Qed.


(** ** Messages with groups *)

Lemma bag_of_concat {X} (g : X → list (Z * option string)) l :
  bag_of (concat (g <$> l)) = concat ((λ a, bag_of (g a)) <$> l).
Proof. induction l as [|a l IH]; cbn; [done|]. by rewrite bag_of_app, IH. Qed.

Definition tail_ok (d : Z) (ms : list Z) (tail : list (Z * string)) : Prop :=
  match tail with [] => True | (t, _) :: _ => t ≠ d ∧ t ∉ ms end.

(** The group behind its count, in a bag of slots. *)
Lemma group_slots {X} pre count d ms (g : X → list (Z * option string)) l post :
  count ∉ pre.*1 → Z.of_nat (length l) ≤ MAX_GROUP_ENTRIES →
  (∀ a, entry_shape d ms (bag_of (g a))) → tail_ok d ms (bag_of post) →
  group (bag_of (pre ++ (count, Some (dec (Z.of_nat (length l)))) :: concat (g <$> l) ++ post))
    count d ms = Ok ((λ a, bag_of (g a)) <$> l).
Proof.
  intros Hc Hl Hg Ht. rewrite bag_of_app. cbn [bag_of]. rewrite bag_of_app, bag_of_concat.
  rewrite <-(length_fmap (λ a, bag_of (g a)) l). apply group_read; [|by rewrite length_fmap| |done].
  - by intros ?%elem_of_bag_tags.
  - apply Forall_fmap, Forall_true. exact Hg.
Qed.

Lemma scalar_tags_app sr a b : scalar_tags sr (a ++ b) = scalar_tags sr a ++ scalar_tags sr b.
Proof. apply filter_app. Qed.

Lemma scalar_tags_concat {X} sr (g : X → list (Z * option string)) l :
  (∀ a, scalar_tags sr (g a).*1 = []) → scalar_tags sr (concat (g <$> l)).*1 = [].
Proof.
  intros Hg. induction l as [|a l IH]; [done|]. cbn [fmap list_fmap concat].
  rewrite fmap_app, scalar_tags_app, Hg. exact IH.
Qed.

Lemma collect_ok {X} (f : list (Z * string) → result FixDecodeError X) (g : X → list (Z * string)) l :
  Forall (λ a, f (g a) = Ok a) l → collect f (g <$> l) = Ok l.
Proof. induction 1 as [|a l Ha Hl IH]; [done|]. cbn in *. rewrite Ha. cbn. by rewrite IH. Qed.

Lemma scalar_tags_group sr pre count mid post :
  scalar_tags sr mid = [] →
  scalar_tags sr (pre ++ count :: mid ++ post) = scalar_tags sr (pre ++ count :: post).
Proof.
  intros Hm. rewrite !scalar_tags_app. f_equal. unfold scalar_tags in *.
  rewrite !(filter_cons _ count), filter_app, Hm. done.
Qed.

Ltac norm_app := repeat (progress (rewrite <-?app_assoc; cbn [app])).

(** A message whose group follows its other fields. *)
Lemma decode_grouped {X} ty h A count d ms (g : X → list (Z * option string)) l post w frame r :
  writer_finish w = Ok frame → header_wf h →
  wrote w ((tags.MSG_TYPE, Some ty) ::
    header_slots h ++ A ++ (count, Some (dec (Z.of_nat (length l)))) :: concat (g <$> l) ++ post) →
  Z.of_nat (length l) ≤ MAX_GROUP_ENTRIES →
  (length (A ++ (count, Some "") :: concat (g <$> l) ++ post) ≤ 4088)%nat →
  (∀ a, entry_shape d ms (bag_of (g a))) →
  (∀ sum, tail_ok d ms (bag_of (post ++ [(tags.CHECK_SUM, Some sum)]))) →
  count ∉ env_tags ++ A.*1 → NoDup (env_tags ++ A.*1) →
  (∀ a, scalar_tags (symbol_repeats_in_msg_type (msg_type_of ty)) (g a).*1 = []) →
  NoDup (scalar_tags (symbol_repeats_in_msg_type (msg_type_of ty))
           ((env_tags ++ A.*1) ++ count :: post.*1 ++ [tags.CHECK_SUM])) →
  (∀ len sum bag,
     bag = bag_of ((env_slots ty len h ++ A ++
       (count, Some (dec (Z.of_nat (length l)))) :: concat (g <$> l)) ++
       post ++ [(tags.CHECK_SUM, Some sum)]) →
     group bag count d ms = Ok ((λ a, bag_of (g a)) <$> l) →
     (∀ t v, (t, Some v) ∈ A → bag_find bag t = Some v) →
     decode_body (msg_type_of ty) h bag = r) →
  decode frame = r.
Proof.
  intros Hf Hh Hw Hl Hlen Hg Htail Hc Hn Hsc Hnd Hr.
  edestruct (decode_wrote ty h _ w frame Hw Hh) as (len & sum & ->); [| |exact Hf|].
  - rewrite !length_app in *. cbn [length] in *. by rewrite !length_app in *.
  - match goal with |- NoDup (scalar_tags _ ?x) => assert (x =
      (env_tags ++ A.*1) ++ count :: (concat (g <$> l)).*1 ++ post.*1 ++ [tags.CHECK_SUM]) as -> end.
    { rewrite fmap_app, fmap_cons, fmap_app, <-!app_assoc. cbn [app fst].
      by rewrite <-!app_assoc. }
    by rewrite scalar_tags_group by (by apply scalar_tags_concat).
  - apply Hr with len sum; [norm_app; reflexivity| |].
    + match goal with |- group (bag_of ?x) _ _ _ = _ => assert (x = (env_slots ty len h ++ A) ++
        (count, Some (dec (Z.of_nat (length l)))) :: concat (g <$> l) ++
        post ++ [(tags.CHECK_SUM, Some sum)]) as -> by (norm_app; reflexivity) end.
      apply group_slots; [by rewrite fmap_app|done..].
    + intros t v Hin. rewrite <-!app_assoc, (app_assoc (env_slots ty len h)).
      apply bag_find_slots_app; [by rewrite fmap_app|]. rewrite elem_of_app. auto.
Qed.

Lemma length_concat_le {X} (g : X → list (Z * option string)) k l :
  (∀ a, (length (g a) ≤ k)%nat) → (length (concat (g <$> l)) ≤ k * length l)%nat.
Proof.
  intros Hg. induction l as [|a l IH]; cbn; [lia|]. rewrite length_app. specialize (Hg a). lia.
Qed.

Definition affected_slots (id : VenueOrderId) : list (Z * option string) :=
  [(tags.AFFECTED_ORDER_ID, Some id)].

Ltac nodup := apply (bool_decide_unpack _); vm_compute; exact I.
Ltac notin := apply (bool_decide_unpack _); vm_compute; exact I.
Ltac group_length g k :=
  rewrite ?length_app; cbn [length]; rewrite ?length_app; cbn [length];
  pose proof (length_concat_le g k) as Hlc;
  match goal with |- context [concat (g <$> ?l)] =>
    specialize (Hlc l); specialize (Hlc ltac:(intros; cbn; lia)) end;
  unfold MAX_GROUP_ENTRIES in *; lia.

Lemma OrderMassCancelReport_back m frame :
  header_wf (mc_header m) → OrderMassCancelReport_wf m →
  OrderMassCancelReport_encode m = Ok frame → decode frame = Ok (DOrderMassCancelReport m).
Proof.
  intros Hh (Ht & Hids & Hl) Hf.
  eapply (decode_grouped "r" (mc_header m)
    [(tags.MASS_CANCEL_RESPONSE, Some (mass_cancel_response_to_fix (mc_mass_cancel_response m)));
     (tags.TOTAL_AFFECTED_ORDERS, Some (dec (mc_total_affected_orders m)))]
    tags.NO_AFFECTED_ORDERS tags.AFFECTED_ORDER_ID [tags.AFFECTED_ORDER_ID]
    affected_slots (mc_affected_orders m) []); [exact Hf|exact Hh|..].
  - eapply wrote_eq.
    + eapply (wrote_foldl _ affected_slots); [|write]. intros w s a Hw. eapply wrote_eq; [write; exact Hw|done].
    + rewrite app_nil_r. cbn. reflexivity.
  - done.
  - group_length affected_slots 1%nat.
  - intros id. by exists id, [].
  - intros sum. split; notin.
  - notin.
  - nodup.
  - done.
  - code_type. nodup.
  - intros len sum bag _ Hg Hb. code_type. cbn [decode_body].
    assert (OrderMassCancelReport_decode (mc_header m) bag = Ok m) as ->; [|done].
    unfold OrderMassCancelReport_decode. eapply bind_ok; [exact Hg|].
    eapply bind_ok.
    + apply collect_ok. eapply Forall_impl; [exact Hids|]. intros id Hid.
      apply req_str_find; [done|exact Hid].
    + read_all Hb. by destruct m.
Qed.

Definition snapshot_slots (e : SnapshotEntry) : list (Z * option string) :=
  [(tags.MD_ENTRY_TYPE, Some (md_entry_type_to_fix (se_entry_type e)));
   (tags.MD_ENTRY_PX, Some (render_cents_to_decimal (se_price e)));
   (tags.MD_ENTRY_SIZE, Some (dec (se_size e)))].

(** An entry's own bag is read like a message's. *)
Lemma entry_find slots t v :
  NoDup slots.*1 → (t, Some v) ∈ slots → bag_find (bag_of slots) t = Some v.
Proof. intros Hn Hin. by apply (bag_find_slots slots t (Some v)). Qed.

Lemma MarketDataSnapshotFullRefresh_back m frame :
  header_wf (mw_header m) → MarketDataSnapshotFullRefresh_wf m →
  MarketDataSnapshotFullRefresh_encode m = Ok frame →
  decode frame = Ok (DMarketDataSnapshotFullRefresh m).
Proof.
  intros Hh (Hid & Hs & Hq & Hl & He) Hf.
  eapply (decode_grouped "W" (mw_header m)
    [(tags.MD_REQ_ID, Some (mw_md_req_id m)); (tags.SYMBOL, Some (mw_symbol m));
     (tags.RPT_SEQ, Some (dec (mw_rpt_seq m)))]
    tags.NO_MD_ENTRIES tags.MD_ENTRY_TYPE
    [tags.MD_ENTRY_TYPE; tags.MD_ENTRY_PX; tags.MD_ENTRY_SIZE]
    snapshot_slots (mw_entries m) []); [exact Hf|exact Hh|..].
  - eapply wrote_eq.
    + eapply (wrote_foldl _ snapshot_slots); [|write]. intros w s a Hw. eapply wrote_eq; [write; exact Hw|].
      by rewrite <-!app_assoc.
    + rewrite app_nil_r. cbn. reflexivity.
  - done.
  - group_length snapshot_slots 3%nat.
  - intros e. eexists _, _. split; [cbn; reflexivity|notin].
  - intros sum. split; notin.
  - notin.
  - nodup.
  - done.
  - code_type. nodup.
  - intros len sum bag _ Hg Hb. code_type. cbn [decode_body].
    assert (MarketDataSnapshotFullRefresh_decode (mw_header m) bag = Ok m) as ->; [|done].
    unfold MarketDataSnapshotFullRefresh_decode. eapply bind_ok; [exact Hg|].
    eapply bind_ok.
    + apply collect_ok. eapply Forall_impl; [exact He|]. intros e [Hp Hz].
      pose proof (entry_find (snapshot_slots e)) as Hf'. specialize (λ t v, Hf' t v ltac:(nodup)) as Hb'.
      unfold decode_snapshot_entry. unfold snapshot_slots in Hb' at 1. read_all Hb'. by destruct e.
    + read_all Hb. by destruct m.
Qed.

Definition incremental_slots (e : IncrementalEntry) : list (Z * option string) :=
  [(tags.MD_UPDATE_ACTION, Some (md_update_action_to_fix (ie_update_action e)));
   (tags.MD_ENTRY_TYPE, Some (md_entry_type_to_fix (ie_entry_type e)));
   (tags.SYMBOL, Some (ie_symbol e));
   (tags.MD_ENTRY_PX, Some (render_cents_to_decimal (ie_price e)));
   (tags.MD_ENTRY_SIZE, Some (dec (ie_size e)))].

Lemma MarketDataIncrementalRefresh_back m frame :
  header_wf (mx_header m) → MarketDataIncrementalRefresh_wf m →
  MarketDataIncrementalRefresh_encode m = Ok frame →
  decode frame = Ok (DMarketDataIncrementalRefresh m).
Proof.
  intros Hh (Hid & Hq & Hl & He) Hf.
  eapply (decode_grouped "X" (mx_header m)
    [(tags.MD_REQ_ID, Some (mx_md_req_id m)); (tags.RPT_SEQ, Some (dec (mx_rpt_seq m)))]
    tags.NO_MD_ENTRIES tags.MD_UPDATE_ACTION
    [tags.MD_UPDATE_ACTION; tags.MD_ENTRY_TYPE; tags.SYMBOL; tags.MD_ENTRY_PX; tags.MD_ENTRY_SIZE]
    incremental_slots (mx_entries m) []); [exact Hf|exact Hh|..].
  - eapply wrote_eq.
    + eapply (wrote_foldl _ incremental_slots); [|write]. intros w s a Hw.
      eapply wrote_eq; [write; exact Hw|]. by rewrite <-!app_assoc.
    + rewrite app_nil_r. cbn. reflexivity.
  - unfold MAX_GROUP_ENTRIES. lia.
  - group_length incremental_slots 5%nat.
  - intros e. eexists _, _. split; [cbn; reflexivity|notin].
  - intros sum. split; notin.
  - notin.
  - nodup.
  - code_type. done.
  - code_type. nodup.
  - intros len sum bag _ Hg Hb. code_type. cbn [decode_body].
    assert (MarketDataIncrementalRefresh_decode (mx_header m) bag = Ok m) as ->; [|done].
    unfold MarketDataIncrementalRefresh_decode. eapply bind_ok; [exact Hg|].
    eapply bind_ok.
    + apply collect_ok. eapply Forall_impl; [exact He|]. intros e (Hs & Hp & Hz).
      pose proof (entry_find (incremental_slots e)) as Hf'.
      specialize (λ t v, Hf' t v ltac:(nodup)) as Hb'.
      unfold decode_incremental_entry. unfold incremental_slots in Hb' at 1.
      read_all Hb'. by destruct e.
    + read_all Hb. by destruct m.
Qed.

Definition entry_type_slots (e : MdEntryType) : list (Z * option string) :=
  [(tags.MD_ENTRY_TYPE, Some (md_entry_type_to_fix e))].
Definition symbol_slots (s : Symbol) : list (Z * option string) := [(tags.SYMBOL, Some s)].

Lemma concat_tags {X} (g : X → list (Z * option string)) l t t' :
  (∀ a, (g a).*1 = [t']) → t ≠ t' → t ∉ (concat (g <$> l)).*1.
Proof.
  intros Hg Ht. induction l as [|a l IH]; cbn [fmap list_fmap concat]; [apply not_elem_of_nil|].
  rewrite fmap_app, Hg, not_elem_of_app, list_elem_of_singleton. done.
Qed.

Lemma required_ok {X} bag count d ms (f : X → list (Z * string)) l :
  group bag count d ms = Ok (f <$> l) → l ≠ [] → required_group bag count d ms = Ok (f <$> l).
Proof.
  intros Hg Hl. unfold required_group. rewrite Hg. cbn [mbind result_bind].
  rewrite bool_decide_false; [done|]. by destruct l.
Qed.

Lemma MarketDataRequest_back m frame :
  header_wf (mv_header m) → MarketDataRequest_wf m →
  MarketDataRequest_encode m = Ok frame → decode frame = Ok (DMarketDataRequest m).
Proof.
  intros Hh (Hid & Hd & [Hn1 Hl1] & [Hn2 Hl2] & Hs) Hf.
  eapply (decode_grouped "V" (mv_header m)
    [(tags.MD_REQ_ID, Some (mv_md_req_id m));
     (tags.SUBSCRIPTION_REQUEST_TYPE,
      Some (subscription_request_type_to_fix (mv_subscription_request_type m)));
     (tags.MARKET_DEPTH, Some (dec (mv_market_depth m)))]
    tags.NO_MD_ENTRY_TYPES tags.MD_ENTRY_TYPE [tags.MD_ENTRY_TYPE]
    entry_type_slots (mv_entry_types m)
    ((tags.NO_RELATED_SYM, Some (dec (Z.of_nat (length (mv_symbols m))))) ::
      concat (symbol_slots <$> mv_symbols m))); [exact Hf|exact Hh|..].
  - eapply wrote_eq.
    + eapply (wrote_foldl _ symbol_slots).
      { intros w s a Hw. eapply wrote_eq; [write; exact Hw|done]. }
      write. eapply (wrote_foldl _ entry_type_slots); [|write].
      intros w s a Hw. eapply wrote_eq; [write; exact Hw|done].
    + norm_app. reflexivity.
  - done.
  - pose proof (length_concat_le symbol_slots 1 (mv_symbols m) ltac:(intros; cbn; lia)).
    pose proof (length_concat_le entry_type_slots 1 (mv_entry_types m) ltac:(intros; cbn; lia)).
    rewrite ?length_app. cbn [length]. rewrite ?length_app. cbn [length].
    unfold MAX_GROUP_ENTRIES in *. lia.
  - intros e. by eexists _, [].
  - intros sum. split; notin.
  - notin.
  - nodup.
  - done.
  - code_type. rewrite fmap_cons. cbn [fst app].
    match goal with |- NoDup (scalar_tags _ ?x) => assert (x =
      (env_tags ++ [262; 263; 264; 267]) ++ 146 :: (concat (symbol_slots <$> mv_symbols m)).*1 ++ [10])
      as -> by done end.
    rewrite scalar_tags_group by (by apply scalar_tags_concat). nodup.
  - intros len sum bag -> Hg1 Hb. code_type. cbn [decode_body].
    match goal with |- context [MarketDataRequest_decode _ ?bag] =>
      assert (group bag tags.NO_RELATED_SYM tags.SYMBOL [tags.SYMBOL] =
        Ok ((λ a, bag_of (symbol_slots a)) <$> mv_symbols m)) as Hg2 end.
    { rewrite <-app_comm_cons. apply group_slots.
      - rewrite fmap_app, not_elem_of_app. split; [notin|].
        cbn [app]. rewrite !fmap_cons, !not_elem_of_cons. split_and!; [done..|].
        by apply (concat_tags _ _ _ tags.MD_ENTRY_TYPE).
      - done.
      - intros s. by eexists _, [].
      - split; notin. }
    match goal with |- context [MarketDataRequest_decode _ ?bag] => set (b := bag) in * end.
    assert (MarketDataRequest_decode (mv_header m) b = Ok m) as ->; [|done].
    unfold MarketDataRequest_decode. clearbody b.
    eapply bind_ok; [exact (required_ok _ _ _ _ _ _ Hg1 Hn1)|]. eapply bind_ok.
    { apply collect_ok, Forall_true. intros e. cbn. by destruct e. }
    eapply bind_ok; [exact (required_ok _ _ _ _ _ _ Hg2 Hn2)|]. eapply bind_ok.
    { apply collect_ok. eapply Forall_impl; [exact Hs|]. intros s Hsym.
      eapply bind_ok; [apply req_str_find; [done|apply Hsym]|by apply decode_symbol_wf]. }
    read_all Hb. by destruct m.
Qed.

(** C17. Every message of the FIX dialect round-trips: for a well-formed message of any
    of the twenty kinds (strings valid UTF-8, numbers in the range of their type,
    canonical symbols, valid timestamps, conditional fields present, groups within
    their limits), decoding the frame its encoder produced gives the same message
    back, header, optional fields and group entries included. *)
Theorem fix_message_roundtrip m frame :
  message_wf m → message_encode m = Ok frame → decode frame = Ok m.
Proof.
  intros [Hh Hb] He. destruct m; cbn [header_of message_encode] in *;
    [ by apply Logon_back | by apply Logout_back | by apply Heartbeat_back
    | by apply TestRequest_back | by apply ResendRequest_back | by apply SequenceReset_back
    | by apply Reject_back | by apply NewOrderSingle_back | by apply OrderCancelRequest_back
    | by apply OrderCancelReplaceRequest_back | by apply OrderMassCancelRequest_back
    | by apply OrderStatusRequest_back | by apply ExecutionReport_back
    | by apply OrderCancelReject_back | by apply OrderMassCancelReport_back
    | by apply BusinessMessageReject_back | by apply MarketDataRequest_back
    | by apply MarketDataSnapshotFullRefresh_back | by apply MarketDataIncrementalRefresh_back
    | by apply MarketDataRequestReject_back ].
Qed.
End round_trip.

(** A partial fill reported with a rebate, and a subscription to two symbols. *)
Definition sample_fix_header : StandardHeader :=
  {| sender_comp_id := "FAUX"; target_comp_id := "CLIENT"; msg_seq_num := 7;
     sending_time := "20240229-12:00:00.123" |}.

Definition sample_report : ExecutionReport :=
  {| er_header := sample_fix_header; er_order_id := "o-1"; er_exec_id := "e-1";
     er_exec_type := EtTrade; er_ord_status := StPartiallyFilled;
     er_symbol := "BTC-20240329-50000-C"; er_side := OsBuy; er_leaves_qty := 3; er_cum_qty := 2;
     er_last_qty := Some 2; er_last_px := Some 50005; er_price := Some 50010;
     er_secondary_exec_id := 41; er_transact_time := "20240229-12:00:00";
     er_commission := Some (-12); er_comm_type := Some CtAbsolute;
     er_last_liquidity_ind := Some LiMaker; er_ord_rej_reason := None; er_text := None |}.

Definition sample_subscription : MarketDataRequest :=
  {| mv_header := sample_fix_header; mv_md_req_id := "md-1";
     mv_subscription_request_type := SrSnapshotPlusUpdates; mv_market_depth := 10;
     mv_entry_types := [MeBid; MeOffer];
     mv_symbols := ["BTC-20240329-50000-C"; "ETH-20240329-50000-C"] |}.

Ltac wf_compute :=
  repeat (hnf; match goal with
  | |- _ ∧ _ => split
  | |- Forall _ _ => constructor
  end); vm_compute; first [reflexivity | exact I | intros; discriminate].

Lemma fix_message_roundtrip_witness :
  (∃ frame, message_encode (DExecutionReport sample_report) = Ok frame ∧
    decode frame = Ok (DExecutionReport sample_report)) ∧
  (∃ frame, message_encode (DMarketDataRequest sample_subscription) = Ok frame ∧
    decode frame = Ok (DMarketDataRequest sample_subscription)).
Proof.
  split.
  - eexists. split; [reflexivity|].
    apply (fix_message_roundtrip (DExecutionReport sample_report)); [|reflexivity]. wf_compute.
  - eexists. split; [reflexivity|].
    apply (fix_message_roundtrip (DMarketDataRequest sample_subscription)); [|reflexivity].
    wf_compute.
Defined.
