(* ===== verification/FixStore.v ===== *)
(** The FIX session store ([src/src/gateway/fix/store.rs]): the contract every
    backend gives the session (class [FixSessionStore] with its laws), the
    in-memory backend, and its bounds. *)

From S2P Require Export FixWire.

(** ** Keys, counters, log entries *)

Definition FIRST_SEQ_NUM : Z := 1.
Definition MAX_STORED_OUTBOUND_PER_KEY : Z := 4_096.
Definition MAX_STORED_OUTBOUND_BYTES_PER_KEY : Z := 8 * 1024 * 1024.
Definition MAX_RESET_EVENTS_PER_KEY : Z := 1_024.
Definition MAX_SESSION_KEYS : Z := 65_536.

Record SessionKey := { sk_account : AccountId; sk_sender : string; sk_target : string }.
#[export] Instance SessionKey_eq_dec : EqDecision SessionKey. Proof. solve_decision. Defined.
#[export] Instance SessionKey_countable : Countable SessionKey.
Proof.
  refine (inj_countable' (λ k, (sk_account k, sk_sender k, sk_target k))
    (λ k, {| sk_account := k.1.1; sk_sender := k.1.2; sk_target := k.2 |}) _). by intros [].
Defined.

Inductive ResetTrigger := LogonReset | SequenceResetTrigger.

Record SequenceResetEvent := {
  re_at_ms : Z;
  re_trigger : ResetTrigger;
  re_old_next_sender_seq : Z;
  re_old_next_target_seq : Z;
  re_new_next_sender_seq : Z;
  re_new_next_target_seq : Z;
}.

Record StoredOutbound := { so_seq : Z; so_frame : string }.

Inductive SessionStoreError := KeyspaceFull (max : Z) | StoreBackend (reason : string).

Record SessionCounters := { next_sender_seq : Z; next_target_seq : Z }.
Definition default_counters : SessionCounters :=
  {| next_sender_seq := FIRST_SEQ_NUM; next_target_seq := FIRST_SEQ_NUM |}.
Definition set_next_sender (n : Z) (c : SessionCounters) : SessionCounters :=
  {| next_sender_seq := n; next_target_seq := next_target_seq c |}.
Definition set_next_target (n : Z) (c : SessionCounters) : SessionCounters :=
  {| next_sender_seq := next_sender_seq c; next_target_seq := n |}.

(** ** The contract

    A store has a state [S]; an operation that fails leaves it as it was. *)

Class FixSessionStore (S : Type) := {
  load_counters : S → SessionKey → result SessionStoreError SessionCounters;
  save_counters : S → SessionKey → SessionCounters → result SessionStoreError S;
  store_outbound : S → SessionKey → Z → string → result SessionStoreError S;
  store_outbound_and_advance : S → SessionKey → Z → string → Z → result SessionStoreError S;
  outbound_range : S → SessionKey → Z → Z → result SessionStoreError (list StoredOutbound);
  record_reset : S → SessionKey → SequenceResetEvent → SessionCounters → result SessionStoreError S;
  reset_events : S → SessionKey → result SessionStoreError (list SequenceResetEvent);
}.

(** What a session sees of its key: counters, resend log, reset trail. *)
Record KeyView := {
  kv_counters : SessionCounters;
  kv_log : list StoredOutbound;
  kv_resets : list SequenceResetEvent;
}.
Definition empty_view : KeyView :=
  {| kv_counters := default_counters; kv_log := []; kv_resets := [] |}.

Definition in_range (begin end_ : Z) (e : StoredOutbound) : bool :=
  (begin <=? so_seq e) && ((end_ =? 0) || (so_seq e <=? end_)).

Notation log_sorted := (key_sorted Z.leb so_seq).

(** The laws of the contract: an operation changes only the view of its own key; a
    push appends to the log and may evict its oldest entries; a range query returns
    the retained entries in range, ascending. *)
Class FixSessionStoreLaws (S : Type) `{FixSessionStore S} := {
  view : S → SessionKey → KeyView;
  load_spec s k c : load_counters s k = Ok c → c = kv_counters (view s k);
  save_spec s k c s' : save_counters s k c = Ok s' →
    view s' k = {| kv_counters := c; kv_log := kv_log (view s k); kv_resets := kv_resets (view s k) |} ∧
    (∀ k', k' ≠ k → view s' k' = view s k');
  push_spec s k n f s' : store_outbound s k n f = Ok s' →
    (∃ l, l `suffix_of` kv_log (view s k) ++ [{| so_seq := n; so_frame := f |}] ∧
      view s' k = {| kv_counters := kv_counters (view s k); kv_log := l;
                     kv_resets := kv_resets (view s k) |}) ∧
    (∀ k', k' ≠ k → view s' k' = view s k');
  advance_spec s k n f next s' : store_outbound_and_advance s k n f next = Ok s' →
    (∃ l, l `suffix_of` kv_log (view s k) ++ [{| so_seq := n; so_frame := f |}] ∧
      view s' k = {| kv_counters := set_next_sender next (kv_counters (view s k)); kv_log := l;
                     kv_resets := kv_resets (view s k) |}) ∧
    (∀ k', k' ≠ k → view s' k' = view s k');
  range_spec s k b e l : outbound_range s k b e = Ok l →
    log_sorted l ∧ l ≡ₚ filter (λ x, in_range b e x = true) (kv_log (view s k));
  reset_spec s k ev c s' : record_reset s k ev c = Ok s' →
    (∃ r, r `suffix_of` kv_resets (view s k) ++ [ev] ∧ ev ∈ r ∧
      view s' k = {| kv_counters := c; kv_log := kv_log (view s k); kv_resets := r |}) ∧
    (∀ k', k' ≠ k → view s' k' = view s k');
  resets_spec s k l : reset_events s k = Ok l → l = kv_resets (view s k);
}.

(** ** The in-memory backend *)

Record Slot := {
  sl_counters : SessionCounters;
  sl_outbound : list StoredOutbound;
  sl_outbound_bytes : Z;
  sl_resets : list SequenceResetEvent;
}.
Definition default_slot : Slot :=
  {| sl_counters := default_counters; sl_outbound := []; sl_outbound_bytes := 0; sl_resets := [] |}.

(** The eviction loop: the oldest entry goes while a bound is exceeded. *)
Fixpoint evict_outbound (outbound : list StoredOutbound) (bytes : Z) : list StoredOutbound * Z :=
  match outbound with
  | [] => ([], bytes)
  | evicted :: rest =>
      if (MAX_STORED_OUTBOUND_PER_KEY <? Z.of_nat (length outbound))
         || (MAX_STORED_OUTBOUND_BYTES_PER_KEY <? bytes)
      then evict_outbound rest (saturating_sub usize bytes (str_len (so_frame evicted)))
      else (outbound, bytes)
  end.

Definition push_outbound (seq : Z) (frame : string) (s : Slot) : Slot :=
  let outbound := sl_outbound s ++ [{| so_seq := seq; so_frame := frame |}] in
  let bytes := saturating_add usize (sl_outbound_bytes s) (str_len frame) in
  let '(outbound, bytes) := evict_outbound outbound bytes in
  {| sl_counters := sl_counters s; sl_outbound := outbound; sl_outbound_bytes := bytes;
     sl_resets := sl_resets s |}.

Fixpoint evict_resets (resets : list SequenceResetEvent) : list SequenceResetEvent :=
  match resets with
  | [] => []
  | _ :: rest =>
      if MAX_RESET_EVENTS_PER_KEY <? Z.of_nat (length resets) then evict_resets rest else resets
  end.

Definition slot_record_reset (event : SequenceResetEvent) (counters : SessionCounters)
    (s : Slot) : Slot :=
  {| sl_counters := counters; sl_outbound := sl_outbound s;
     sl_outbound_bytes := sl_outbound_bytes s;
     sl_resets := evict_resets (sl_resets s ++ [event]) |}.

Definition slot_set_counters (counters : SessionCounters) (s : Slot) : Slot :=
  {| sl_counters := counters; sl_outbound := sl_outbound s;
     sl_outbound_bytes := sl_outbound_bytes s; sl_resets := sl_resets s |}.

Notation MemoryStore := (gmap SessionKey Slot) (only parsing).

Definition slot_of (slots : MemoryStore) (key : SessionKey) : Slot :=
  default default_slot (slots !! key).

Definition with_slot_mut (slots : MemoryStore) (key : SessionKey) (f : Slot → Slot) :
    result SessionStoreError MemoryStore :=
  if bool_decide (slots !! key = None) && (MAX_SESSION_KEYS <=? Z.of_nat (size slots))
  then Err (KeyspaceFull MAX_SESSION_KEYS)
  else Ok (<[key := f (slot_of slots key)]> slots).

Definition mem_outbound_range (slots : MemoryStore) (key : SessionKey) (begin end_ : Z) :
    list StoredOutbound :=
  match slots !! key with
  | None => []
  | Some slot =>
      sort_by_key Z.leb so_seq (filter (λ e, in_range begin end_ e = true) (sl_outbound slot))
  end.

#[export] Instance InMemoryFixSessionStore : FixSessionStore MemoryStore := {|
  load_counters slots key := Ok (sl_counters (slot_of slots key));
  save_counters slots key counters := with_slot_mut slots key (slot_set_counters counters);
  store_outbound slots key seq frame := with_slot_mut slots key (push_outbound seq frame);
  store_outbound_and_advance slots key seq frame next :=
    with_slot_mut slots key (λ s, let s := push_outbound seq frame s in
                                  slot_set_counters (set_next_sender next (sl_counters s)) s);
  outbound_range slots key begin end_ := Ok (mem_outbound_range slots key begin end_);
  record_reset slots key event counters :=
    with_slot_mut slots key (slot_record_reset event counters);
  reset_events slots key := Ok (sl_resets (slot_of slots key));
|}.

(** ** The in-memory backend meets the contract *)

Definition mem_view (slots : MemoryStore) (key : SessionKey) : KeyView :=
  let s := slot_of slots key in
  {| kv_counters := sl_counters s; kv_log := sl_outbound s; kv_resets := sl_resets s |}.

Lemma with_slot_mut_Ok slots key f slots' :
  with_slot_mut slots key f = Ok slots' ↔
    (slots !! key = None → Z.of_nat (size slots) < MAX_SESSION_KEYS) ∧
    slots' = <[key := f (slot_of slots key)]> slots.
Proof.
  unfold with_slot_mut. destruct (Z.leb_spec MAX_SESSION_KEYS (Z.of_nat (size slots)));
    case_bool_decide; cbn; split; first [intros [= <-]|intros [??]|idtac]; try done;
    try (split; [intros|done]; by try lia); try congruence.
  exfalso. specialize (H1 H0). lia.
Qed.

Lemma with_slot_mut_frame slots key f slots' :
  with_slot_mut slots key f = Ok slots' →
  slot_of slots' key = f (slot_of slots key) ∧
  (∀ k', k' ≠ key → slot_of slots' k' = slot_of slots k').
Proof.
  intros [_ ->]%with_slot_mut_Ok. unfold slot_of.
  split; [by rewrite lookup_insert_eq|]. intros k' Hk. by rewrite lookup_insert_ne.
Qed.

Lemma evict_outbound_suffix l b : (evict_outbound l b).1 `suffix_of` l.
Proof.
  revert b. induction l as [|e l IH]; intros b; cbn [evict_outbound]; [done|].
  case_match; [|done]. by apply suffix_cons_r.
Qed.

Lemma evict_resets_suffix l : evict_resets l `suffix_of` l.
Proof.
  induction l as [|e l IH]; cbn [evict_resets]; [done|]. case_match; [|done].
  by apply suffix_cons_r.
Qed.

Lemma evict_resets_keeps l ev : ev ∈ evict_resets (l ++ [ev]).
Proof.
  induction l as [|e l IH]; cbn [evict_resets app].
  - case_match eqn:E; [apply Z.ltb_lt in E; unfold MAX_RESET_EVENTS_PER_KEY in E; cbn in E; lia|].
    by left.
  - case_match; [done|]. right. rewrite elem_of_app. right. by left.
Qed.

Lemma push_outbound_spec n f s :
  ∃ l, l `suffix_of` sl_outbound s ++ [{| so_seq := n; so_frame := f |}] ∧
    sl_outbound (push_outbound n f s) = l ∧
    sl_counters (push_outbound n f s) = sl_counters s ∧
    sl_resets (push_outbound n f s) = sl_resets s.
Proof.
  unfold push_outbound.
  pose proof (evict_outbound_suffix (sl_outbound s ++ [{| so_seq := n; so_frame := f |}])
    (saturating_add usize (sl_outbound_bytes s) (str_len f))) as Hs.
  destruct (evict_outbound _ _) as [l b]. by exists l.
Qed.

#[export] Instance InMemoryFixSessionStoreLaws : FixSessionStoreLaws MemoryStore.
Proof.
  refine {| view := mem_view |}.
  - by intros s k c [= <-].
  - intros s k c s' [Hk Ho]%with_slot_mut_frame. unfold mem_view. rewrite Hk.
    split; [done|]. intros k' Hk'. by rewrite Ho.
  - intros s k n f s' [Hk Ho]%with_slot_mut_frame. unfold mem_view. rewrite Hk.
    split; [|intros k' Hk'; by rewrite Ho].
    destruct (push_outbound_spec n f (slot_of s k)) as (l & Hl & -> & -> & ->). by exists l.
  - intros s k n f next s' [Hk Ho]%with_slot_mut_frame. unfold mem_view. rewrite Hk.
    split; [|intros k' Hk'; by rewrite Ho].
    destruct (push_outbound_spec n f (slot_of s k)) as (l & Hl & El & Ec & Er).
    exists l. cbn. by rewrite El, Ec, Er.
  - intros s k b e l [= <-]. unfold mem_outbound_range, mem_view, slot_of.
    destruct (s !! k) as [slot|]; cbn; [|split; constructor].
    split; [apply sort_by_key_sorted, _|apply sort_by_key_perm].
  - intros s k ev c s' [Hk Ho]%with_slot_mut_frame. unfold mem_view. rewrite Hk.
    split; [|intros k' Hk'; by rewrite Ho]. eexists. cbn.
    split_and!; [apply evict_resets_suffix|apply evict_resets_keeps|done].
  - by intros s k l [= <-].
Defined.

(** ** Bounds *)

Definition log_bytes (l : list StoredOutbound) : Z := sum_Z ((λ e, str_len (so_frame e)) <$> l).

Record slot_bounded (s : Slot) : Prop := {
  sb_bytes : sl_outbound_bytes s = log_bytes (sl_outbound s);
  sb_max_bytes : sl_outbound_bytes s ≤ MAX_STORED_OUTBOUND_BYTES_PER_KEY;
  sb_entries : Z.of_nat (length (sl_outbound s)) ≤ MAX_STORED_OUTBOUND_PER_KEY;
  sb_resets : Z.of_nat (length (sl_resets s)) ≤ MAX_RESET_EVENTS_PER_KEY;
}.

Lemma log_bytes_nonneg l : 0 ≤ log_bytes l.
Proof. induction l; unfold log_bytes, str_len in *; cbn; [done|]. unfold sum_Z in *. lia. Qed.

Lemma evict_outbound_bounds l :
  log_bytes l ≤ int_max usize →
  let r := evict_outbound l (log_bytes l) in
  r.2 = log_bytes r.1 ∧ r.2 ≤ MAX_STORED_OUTBOUND_BYTES_PER_KEY ∧
  Z.of_nat (length r.1) ≤ MAX_STORED_OUTBOUND_PER_KEY.
Proof.
  induction l as [|e l IH]; intros Hl; cbn [evict_outbound].
  - split; [done|]. unfold MAX_STORED_OUTBOUND_BYTES_PER_KEY, MAX_STORED_OUTBOUND_PER_KEY. cbn. lia.
  - destruct (_ || _) eqn:E.
    + assert (log_bytes (e :: l) = str_len (so_frame e) + log_bytes l) as Hc by done.
      pose proof (log_bytes_nonneg l). assert (0 ≤ str_len (so_frame e)) by (unfold str_len; lia).
      rewrite Hc in *. unfold saturating_sub. cbn [int_min usize u64].
      replace (Z.max 0 _) with (log_bytes l) by lia. apply IH. lia.
    + apply orb_false_iff in E as [E1 E2]. apply Z.ltb_ge in E1, E2. done.
Qed.

(** The newest frame survives its own eviction pass when it fits the byte bound. *)
Lemma evict_outbound_keeps l e :
  log_bytes (l ++ [e]) ≤ int_max usize →
  str_len (so_frame e) ≤ MAX_STORED_OUTBOUND_BYTES_PER_KEY →
  e ∈ (evict_outbound (l ++ [e]) (log_bytes (l ++ [e]))).1.
Proof.
  induction l as [|x l IH]; intros Hl He; cbn [evict_outbound app].
  - destruct (_ || _) eqn:E; [|by left]. exfalso.
    apply orb_true_iff in E as [E|E]; apply Z.ltb_lt in E.
    + unfold MAX_STORED_OUTBOUND_PER_KEY in E. cbn in E. lia.
    + assert (log_bytes [e] = str_len (so_frame e) + 0) as Hb by done.
      cbn [app] in *. rewrite Hb in E. lia.
  - destruct (_ || _) eqn:E; [|right; rewrite elem_of_app; right; by left].
    assert (log_bytes (x :: l ++ [e]) = str_len (so_frame x) + log_bytes (l ++ [e])) as Hc by done.
    pose proof (log_bytes_nonneg (l ++ [e])).
    assert (0 ≤ str_len (so_frame x)) by (unfold str_len; lia).
    cbn [app] in Hl. rewrite Hc in *. unfold saturating_sub. cbn [int_min usize u64].
    replace (Z.max 0 _) with (log_bytes (l ++ [e])) by lia. apply IH; [lia|done].
Qed.

(** The mutators as operations on one key; a refused one changes nothing. *)
Inductive store_op :=
  | OpSave (counters : SessionCounters)
  | OpStore (seq : Z) (frame : string)
  | OpStoreAdvance (seq : Z) (frame : string) (next : Z)
  | OpReset (event : SequenceResetEvent) (counters : SessionCounters).

Definition apply_op (s : gmap SessionKey Slot) (o : SessionKey * store_op) : gmap SessionKey Slot :=
  match match o.2 with
        | OpSave c => save_counters s o.1 c
        | OpStore n f => store_outbound s o.1 n f
        | OpStoreAdvance n f next => store_outbound_and_advance s o.1 n f next
        | OpReset e c => record_reset s o.1 e c
        end with
  | Ok s' => s'
  | Err _ => s
  end.

Definition op_frame (o : store_op) : string :=
  match o with OpStore _ f | OpStoreAdvance _ f _ => f | _ => EmptyString end.

Definition store_bounded (s : gmap SessionKey Slot) : Prop :=
  map_Forall (λ _ slot, slot_bounded slot) s ∧ Z.of_nat (size s) ≤ MAX_SESSION_KEYS.

Lemma default_slot_bounded : slot_bounded default_slot.
Proof. by split; vm_compute. Qed.

Lemma slot_of_bounded s k : store_bounded s → slot_bounded (slot_of s k).
Proof.
  intros [Hs _]. unfold slot_of. destruct (s !! k) eqn:E; cbn; [by eapply Hs|].
  apply default_slot_bounded.
Qed.

Lemma with_slot_mut_bounded s k f :
  store_bounded s → slot_bounded (f (slot_of s k)) →
  store_bounded match with_slot_mut s k f with Ok s' => s' | Err _ => s end.
Proof.
  intros Hs Hf. destruct (with_slot_mut s k f) as [s'|] eqn:E; [|done].
  apply with_slot_mut_Ok in E as [Hk ->]. destruct Hs as [Hs Hn]. split.
  - by apply map_Forall_insert_2.
  - destruct (s !! k) eqn:E.
    + by rewrite map_size_insert_Some by done.
    + rewrite map_size_insert_None by done. specialize (Hk eq_refl). lia.
Qed.

Lemma set_counters_bounded c s : slot_bounded s → slot_bounded (slot_set_counters c s).
Proof. by intros []; split. Qed.

Lemma push_outbound_sum n f s :
  slot_bounded s → str_len f < 2 ^ 63 →
  log_bytes (sl_outbound s ++ [{| so_seq := n; so_frame := f |}]) ≤ int_max usize ∧
  saturating_add usize (sl_outbound_bytes s) (str_len f) =
    log_bytes (sl_outbound s ++ [{| so_seq := n; so_frame := f |}]).
Proof.
  intros [Hb Hm _ _] Hf. unfold saturating_add.
  assert (log_bytes (sl_outbound s ++ [{| so_seq := n; so_frame := f |}]) =
    sl_outbound_bytes s + str_len f) as E.
  { rewrite Hb. unfold log_bytes. rewrite fmap_app, sum_Z_app. cbn. lia. }
  rewrite E. unfold MAX_STORED_OUTBOUND_BYTES_PER_KEY in Hm. cbn [int_max usize u64].
  split; [lia|]. apply Z.min_r. lia.
Qed.

Lemma push_outbound_bounded n f s :
  slot_bounded s → str_len f < 2 ^ 63 → slot_bounded (push_outbound n f s).
Proof.
  intros Hs Hf. destruct (push_outbound_sum n f s Hs Hf) as [Hle E].
  unfold push_outbound. rewrite E. pose proof (evict_outbound_bounds _ Hle) as Hr.
  destruct (evict_outbound _ _) as [l b]. cbn in Hr. destruct Hr as (Hb1 & Hb & Hl), Hs as [_ _ _ Hrs].
  split; cbn; done.
Qed.

Lemma evict_resets_bound l : Z.of_nat (length (evict_resets l)) ≤ MAX_RESET_EVENTS_PER_KEY.
Proof.
  induction l as [|e l IH]; cbn [evict_resets]; [done|].
  destruct (Z.ltb_spec MAX_RESET_EVENTS_PER_KEY (Z.of_nat (length (e :: l)))); [done|lia].
Qed.

Lemma apply_op_bounded s o :
  store_bounded s → str_len (op_frame o.2) < 2 ^ 63 → store_bounded (apply_op s o).
Proof.
  intros Hs Hf. pose proof (slot_of_bounded s o.1 Hs) as Hk. unfold apply_op.
  destruct o as [k [c|n f|n f next|e c]]; cbn [fst snd op_frame] in *;
    apply with_slot_mut_bounded; try done.
  - by apply set_counters_bounded.
  - by apply push_outbound_bounded.
  - by apply set_counters_bounded, push_outbound_bounded.
  - destruct Hk. split; [done..|]. apply evict_resets_bound.
Qed.

(** The in-memory session store is bounded and keeps the newest frame: after any
    sequence of operations (each frame shorter than 2^63 bytes, as every Rust vector
    is) there are at most 65,536 keys, and for each key at most 4,096 retained frames
    of at most 8 MiB together, counted exactly, and at most 1,024 reset events; and
    a frame within the byte bound that an advance stores is still retained after the
    eviction it causes. *)
Theorem memory_store_bounds ops :
  Forall (λ o, str_len (op_frame o.2) < 2 ^ 63) ops →
  let s := foldl apply_op ∅ ops in
  (Z.of_nat (size s) ≤ MAX_SESSION_KEYS ∧
   ∀ k, Z.of_nat (length (sl_outbound (slot_of s k))) ≤ MAX_STORED_OUTBOUND_PER_KEY ∧
     sl_outbound_bytes (slot_of s k) = log_bytes (sl_outbound (slot_of s k)) ∧
     log_bytes (sl_outbound (slot_of s k)) ≤ MAX_STORED_OUTBOUND_BYTES_PER_KEY ∧
     Z.of_nat (length (sl_resets (slot_of s k))) ≤ MAX_RESET_EVENTS_PER_KEY) ∧
  (∀ k n f next s', str_len f ≤ MAX_STORED_OUTBOUND_BYTES_PER_KEY →
     store_outbound_and_advance s k n f next = Ok s' →
     {| so_seq := n; so_frame := f |} ∈ sl_outbound (slot_of s' k) ∧
     next_sender_seq (sl_counters (slot_of s' k)) = next).
Proof.
  intros Hops s. assert (store_bounded s) as Hs.
  { assert (store_bounded ∅) as H0 by by split; [apply map_Forall_empty|vm_compute].
    subst s. revert H0. generalize (∅ : gmap SessionKey Slot). induction Hops as [|o ops Ho _ IH];
      intros s Hs; cbn; [done|]. by apply IH, apply_op_bounded. }
  split_and!.
  - apply Hs.
  - intros k. destruct (slot_of_bounded s k Hs) as [Hb Hm He Hr]. rewrite <-Hb. done.
  - intros k n f next s' Hf [Hk _]%with_slot_mut_frame. rewrite Hk. cbn. split; [|done].
    destruct (push_outbound_sum n f (slot_of s k) (slot_of_bounded s k Hs)) as [Hle E].
    { unfold MAX_STORED_OUTBOUND_BYTES_PER_KEY in Hf. lia. }
    pose proof (evict_outbound_keeps _ _ Hle Hf) as Hin.
    unfold push_outbound. rewrite E. by destruct (evict_outbound _ _).
Qed.

Lemma memory_store_bounds_witness :
  let k := {| sk_account := "a"; sk_sender := "c"; sk_target := "v" |} in
  Z.of_nat (length (sl_outbound (slot_of
    (foldl apply_op ∅ [(k, OpStoreAdvance 1 "one" 2); (k, OpStore 2 "two")]) k))) ≤
      MAX_STORED_OUTBOUND_PER_KEY.
Proof.
  intros k.
  refine (proj1 (proj2 (proj1 (memory_store_bounds
    [(k, OpStoreAdvance 1 "one" 2); (k, OpStore 2 "two")] _)) k)).
  by repeat constructor.
Defined.
