(* ===== verification/FixSession.v ===== *)
(** The FIX acceptor session ([src/src/gateway/fix/fsm.rs], [SessionFsm]): sequence
    counters, logon admission, inbound ordering, permission gating, resend, sequence
    reset, heartbeat ticks, and the registry of live session keys.

    A handler takes the session by [&mut self] over a shared store, and an error
    leaves what was already written: the model is a state monad whose error keeps the
    state.  The store is any [FixSessionStore]. *)

From S2P Require Export FixMessages FixStore VenueErrors.

(** ** The session's data *)

Record SessionConfig := { logon_timeout_ms : Z; max_heart_bt_int_secs : Z }.

Inductive SessionPhase := AwaitingLogon | ActivePhase | AwaitingResend | Closing.
#[export] Instance SessionPhase_eq_dec : EqDecision SessionPhase. Proof. solve_decision. Defined.

Inductive SessionError :=
  | SequenceExhausted
  | StoreFailed (source : SessionStoreError)
  | NoPeer
  | EncodeError (source : FixEncodeError).

Inductive SessionControl := Continue | Close.

Record Reaction := { rx_frames : list string; rx_control : SessionControl }.
Definition reaction_cont : Reaction := {| rx_frames := []; rx_control := Continue |}.
Definition reaction_close_silent : Reaction := {| rx_frames := []; rx_control := Close |}.
Definition reaction_emit (frames : list string) : Reaction :=
  {| rx_frames := frames; rx_control := Continue |}.
Definition reaction_emit_close (frames : list string) : Reaction :=
  {| rx_frames := frames; rx_control := Close |}.

Inductive ActiveDisposition :=
  | Reacted (reaction : Reaction)
  | Route (message : DecodedMessage).

Record SessionFsm := {
  sf_phase : SessionPhase;
  sf_config : SessionConfig;
  sf_account : option AccountId;
  sf_permissions : list Permission;
  sf_session_epoch : Z;
  sf_key : option SessionKey;
  sf_venue_comp : option CompId;
  sf_client_comp : option CompId;
  sf_counters : SessionCounters;
  sf_heart_bt_int_ms : Z;
  sf_accepted_at_ms : Z;
  sf_last_inbound_ms : Z;
  sf_last_outbound_ms : Z;
  sf_awaiting_test_req_since_ms : option Z;
}.

Definition fsm_new (config : SessionConfig) (accepted_at_ms : Z) : SessionFsm :=
  {| sf_phase := AwaitingLogon; sf_config := config; sf_account := None; sf_permissions := [];
     sf_session_epoch := 0; sf_key := None; sf_venue_comp := None; sf_client_comp := None;
     sf_counters := default_counters; sf_heart_bt_int_ms := 0;
     sf_accepted_at_ms := accepted_at_ms; sf_last_inbound_ms := accepted_at_ms;
     sf_last_outbound_ms := accepted_at_ms; sf_awaiting_test_req_since_ms := None |}.

(** Field assignments. *)
Definition set_phase (p : SessionPhase) (s : SessionFsm) : SessionFsm :=
  {| sf_phase := p; sf_config := sf_config s; sf_account := sf_account s;
     sf_permissions := sf_permissions s; sf_session_epoch := sf_session_epoch s;
     sf_key := sf_key s; sf_venue_comp := sf_venue_comp s; sf_client_comp := sf_client_comp s;
     sf_counters := sf_counters s; sf_heart_bt_int_ms := sf_heart_bt_int_ms s;
     sf_accepted_at_ms := sf_accepted_at_ms s; sf_last_inbound_ms := sf_last_inbound_ms s;
     sf_last_outbound_ms := sf_last_outbound_ms s;
     sf_awaiting_test_req_since_ms := sf_awaiting_test_req_since_ms s |}.
Definition set_counters (c : SessionCounters) (s : SessionFsm) : SessionFsm :=
  {| sf_phase := sf_phase s; sf_config := sf_config s; sf_account := sf_account s;
     sf_permissions := sf_permissions s; sf_session_epoch := sf_session_epoch s;
     sf_key := sf_key s; sf_venue_comp := sf_venue_comp s; sf_client_comp := sf_client_comp s;
     sf_counters := c; sf_heart_bt_int_ms := sf_heart_bt_int_ms s;
     sf_accepted_at_ms := sf_accepted_at_ms s; sf_last_inbound_ms := sf_last_inbound_ms s;
     sf_last_outbound_ms := sf_last_outbound_ms s;
     sf_awaiting_test_req_since_ms := sf_awaiting_test_req_since_ms s |}.
(** The identity a logon binds. *)
Definition bind_identity (account : AccountId) (permissions : list Permission) (epoch : Z)
    (heart_bt_int_ms : Z) (key : SessionKey) (s : SessionFsm) : SessionFsm :=
  {| sf_phase := sf_phase s; sf_config := sf_config s; sf_account := Some account;
     sf_permissions := permissions; sf_session_epoch := epoch;
     sf_key := Some key; sf_venue_comp := sf_venue_comp s; sf_client_comp := sf_client_comp s;
     sf_counters := sf_counters s; sf_heart_bt_int_ms := heart_bt_int_ms;
     sf_accepted_at_ms := sf_accepted_at_ms s; sf_last_inbound_ms := sf_last_inbound_ms s;
     sf_last_outbound_ms := sf_last_outbound_ms s;
     sf_awaiting_test_req_since_ms := sf_awaiting_test_req_since_ms s |}.
(** The peer and the time of an inbound message. *)
Definition set_peer (venue client : CompId) (now_ms : Z) (s : SessionFsm) : SessionFsm :=
  {| sf_phase := sf_phase s; sf_config := sf_config s; sf_account := sf_account s;
     sf_permissions := sf_permissions s; sf_session_epoch := sf_session_epoch s;
     sf_key := sf_key s; sf_venue_comp := Some venue; sf_client_comp := Some client;
     sf_counters := sf_counters s; sf_heart_bt_int_ms := sf_heart_bt_int_ms s;
     sf_accepted_at_ms := sf_accepted_at_ms s; sf_last_inbound_ms := now_ms;
     sf_last_outbound_ms := sf_last_outbound_ms s; sf_awaiting_test_req_since_ms := None |}.
(** The outbound counter and the time of an outbound message. *)
Definition set_sent (next : Z) (now_ms : Z) (s : SessionFsm) : SessionFsm :=
  {| sf_phase := sf_phase s; sf_config := sf_config s; sf_account := sf_account s;
     sf_permissions := sf_permissions s; sf_session_epoch := sf_session_epoch s;
     sf_key := sf_key s; sf_venue_comp := sf_venue_comp s; sf_client_comp := sf_client_comp s;
     sf_counters := set_next_sender next (sf_counters s);
     sf_heart_bt_int_ms := sf_heart_bt_int_ms s; sf_accepted_at_ms := sf_accepted_at_ms s;
     sf_last_inbound_ms := sf_last_inbound_ms s; sf_last_outbound_ms := now_ms;
     sf_awaiting_test_req_since_ms := sf_awaiting_test_req_since_ms s |}.
Definition set_awaiting_test_req (since : option Z) (s : SessionFsm) : SessionFsm :=
  {| sf_phase := sf_phase s; sf_config := sf_config s; sf_account := sf_account s;
     sf_permissions := sf_permissions s; sf_session_epoch := sf_session_epoch s;
     sf_key := sf_key s; sf_venue_comp := sf_venue_comp s; sf_client_comp := sf_client_comp s;
     sf_counters := sf_counters s; sf_heart_bt_int_ms := sf_heart_bt_int_ms s;
     sf_accepted_at_ms := sf_accepted_at_ms s; sf_last_inbound_ms := sf_last_inbound_ms s;
     sf_last_outbound_ms := sf_last_outbound_ms s; sf_awaiting_test_req_since_ms := since |}.

(** ** The handler monad *)

Definition SM (S A : Type) : Type :=
  SessionFsm * S → result SessionError A * (SessionFsm * S).

#[export] Instance SM_ret {S} : MRet (SM S) := λ A a w, (Ok a, w).
#[export] Instance SM_bind {S} : MBind (SM S) := λ A B k m w,
  match m w with
  | (Ok a, w) => k a w
  | (Err e, w) => (Err e, w)
  end.

#[export] Instance SM_fmap {S} : FMap (SM S) := λ A B f m, a ← m; mret (f a).

Section monad.
Context {S : Type}.

Definition sm_get : SM S SessionFsm := λ w, (Ok w.1, w).
Definition sm_modify (f : SessionFsm → SessionFsm) : SM S unit := λ w, (Ok tt, (f w.1, w.2)).
Definition sm_lift {A} (r : result SessionError A) : SM S A := λ w, (r, w).
(** A read of the store, a write to it: a failure leaves it as it was. *)
Definition sm_read {A} (f : S → result SessionStoreError A) : SM S A :=
  λ w, (map_err StoreFailed (f w.2), w).
Definition sm_store (f : S → result SessionStoreError S) : SM S unit :=
  λ w, match f w.2 with
       | Ok s => (Ok tt, (w.1, s))
       | Err e => (Err (StoreFailed e), w)
       end.
End monad.

Section fsm.
Context `{Upstream} `{FixLib} {S : Type} `{FixSessionStore S}.
Notation M := (SM S).

(** ** Sending and counting *)

Definition on_inbound (header : StandardHeader) (now_ms : Z) : M unit :=
  sm_modify (set_peer (target_comp_id header) (sender_comp_id header) now_ms).

(** The reply identity. *)
Definition peer : M (CompId * CompId) :=
  s ← sm_get;
  sender ← sm_lift (ok_or NoPeer (sf_venue_comp s));
  target ← sm_lift (ok_or NoPeer (sf_client_comp s));
  mret (sender, target).

Definition out_header (p : CompId * CompId) (seq now_ms : Z) : StandardHeader :=
  {| sender_comp_id := p.1; target_comp_id := p.2; msg_seq_num := seq;
     sending_time := from_epoch_ms now_ms |}.

Definition emit (now_ms : Z) (build : StandardHeader → result FixEncodeError string) : M string :=
  p ← peer;
  s ← sm_get;
  let seq := next_sender_seq (sf_counters s) in
  frame ← sm_lift (map_err EncodeError (build (out_header p seq now_ms)));
  next ← sm_lift (ok_or SequenceExhausted (checked_add u64 seq 1));
  _ ← match sf_key s with
      | Some key => sm_store (λ st, store_outbound_and_advance st key seq frame next)
      | None => mret tt
      end;
  _ ← sm_modify (set_sent next now_ms);
  mret frame.

Definition persist_counters : M unit :=
  s ← sm_get;
  match sf_key s with
  | Some key => sm_store (λ st, save_counters st key (sf_counters s))
  | None => mret tt
  end.

Definition persist_inbound : M unit := persist_counters.

(** The inbound counter moves past the consumed message. *)
Definition bump_target : M unit :=
  s ← sm_get;
  next ← sm_lift (ok_or SequenceExhausted (checked_add u64 (next_target_seq (sf_counters s)) 1));
  sm_modify (λ s, set_counters (set_next_target next (sf_counters s)) s).

Definition end_resend : M unit :=
  s ← sm_get;
  if bool_decide (sf_phase s = AwaitingResend) then sm_modify (set_phase ActivePhase) else mret tt.

Definition advance_inbound_in_memory : M unit := _ ← bump_target; end_resend.
Definition advance_inbound : M unit := _ ← bump_target; persist_counters.
Definition consume_inbound : M unit := _ ← advance_inbound; end_resend.

Definition logout_close (now_ms : Z) (reason : string) : M Reaction :=
  _ ← sm_modify (set_phase Closing);
  frame ← emit now_ms (λ header, Logout_encode {| lg_header := header; lg_text := Some reason |});
  mret (reaction_emit_close [frame]).

Definition emit_resend_request (now_ms begin : Z) : M string :=
  emit now_ms (λ header, ResendRequest_encode
    {| rr_header := header; rr_begin_seq_no := begin; rr_end_seq_no := 0 |}).

(** ** Logon *)

Definition encode_logon_ack (header : StandardHeader) (heart_bt_int_secs : Z)
    (reset_flag : bool) : result FixEncodeError string :=
  let w := writer_new "A" in
  let w := header_encode header w in
  let w := w_u64 w tags.ENCRYPT_METHOD 0 in
  let w := w_u64 w tags.HEART_BT_INT heart_bt_int_secs in
  let w := if reset_flag then w_opt_bool w tags.RESET_SEQ_NUM_FLAG (Some true) else w in
  writer_finish w.

(** The counters a logon resumes with, and the start of the gap it reveals. *)
Definition resume_counters (key : SessionKey) (stored : SessionCounters) (reset_flag : bool)
    (logon_seq now_ms : Z) : M (SessionCounters * option Z) :=
  if reset_flag then
    let event := {| re_at_ms := now_ms; re_trigger := LogonReset;
                    re_old_next_sender_seq := next_sender_seq stored;
                    re_old_next_target_seq := next_target_seq stored;
                    re_new_next_sender_seq := FIRST_SEQ_NUM;
                    re_new_next_target_seq := FIRST_SEQ_NUM |} in
    _ ← sm_store (λ st, record_reset st key event default_counters);
    next ← sm_lift (ok_or SequenceExhausted (checked_add u64 FIRST_SEQ_NUM 1));
    mret (set_next_target next default_counters, None)
  else if logon_seq =? next_target_seq stored then
    next ← sm_lift (ok_or SequenceExhausted (checked_add u64 logon_seq 1));
    mret (set_next_target next stored, None)
  else mret (stored, Some (next_target_seq stored)).

Definition admit_logon (account : AccountId) (permissions : list Permission) (session_epoch : Z)
    (heart_bt_int_secs : Z) (reset_flag : bool) (logon_seq now_ms : Z) : M Reaction :=
  p ← peer;
  let '(sender, target) := p in
  let key := {| sk_account := account; sk_sender := target; sk_target := sender |} in
  stored ← sm_read (λ st, load_counters st key);
  if negb reset_flag && (logon_seq <? next_target_seq stored)
  then logout_close now_ms "MsgSeqNum too low"
  else
    _ ← sm_modify (bind_identity account permissions session_epoch
                     (saturating_mul u64 heart_bt_int_secs 1_000) key);
    r ← resume_counters key stored reset_flag logon_seq now_ms;
    let '(counters, gap_begin) := r in
    _ ← sm_modify (set_counters counters);
    _ ← sm_store (λ st, save_counters st key counters);
    _ ← sm_modify (set_phase match gap_begin with
                             | Some _ => AwaitingResend
                             | None => ActivePhase
                             end);
    ack ← emit now_ms (λ header, encode_logon_ack header heart_bt_int_secs reset_flag);
    match gap_begin with
    | Some begin =>
        resend ← emit_resend_request now_ms begin;
        mret (reaction_emit [ack; resend])
    | None => mret (reaction_emit [ack])
    end.

(** ** Rejects and reports *)

Definition MD_REJ_REASON_INSUFFICIENT_PERMISSIONS : Z := 3.
Definition ORD_REJ_REASON_NOT_AUTHORIZED : Z := 0.
Definition CXL_REJ_REASON_NOT_AUTHORIZED : Z := 2.
Definition TEXT_NOT_AUTHORIZED : string := "insufficient permission".
Definition BUSINESS_REJECT_UNSUPPORTED_MSG_TYPE : Z := 3.

Definition emit_one (now_ms : Z) (build : StandardHeader → result FixEncodeError string) :
    M Reaction :=
  frame ← emit now_ms build;
  mret (reaction_emit [frame]).

Definition session_reject (now_ms : Z) (reason : SessionRejectReason) (ref_tag : option Z) :
    M Reaction :=
  s ← sm_get;
  let ref_seq := next_target_seq (sf_counters s) in
  emit_one now_ms (λ header, Reject_encode
    {| rj_header := header; rj_ref_seq_num := ref_seq; rj_session_reject_reason := Some reason;
       rj_ref_tag_id := ref_tag; rj_text := None |}).

Definition emit_business_reject (ref_seq_num : Z) (ref_msg_type : string) (reason : Z)
    (t : option string) (now_ms : Z) : M Reaction :=
  emit_one now_ms (λ header, BusinessMessageReject_encode
    {| bj_header := header; bj_ref_seq_num := ref_seq_num; bj_ref_msg_type := ref_msg_type;
       bj_business_reject_reason := reason; bj_text := t |}).

Definition reject_decode_error (error : FixDecodeError) (now_ms : Z) : M Reaction :=
  match reject_route error with
  | SessionReject reason ref_tag => session_reject now_ms reason ref_tag
  | BusinessMessageRejectRoute =>
      let ref_msg_type :=
        match error with UnsupportedApplicationMsgType msg_type => msg_type | _ => EmptyString end in
      s ← sm_get;
      emit_business_reject (next_target_seq (sf_counters s)) ref_msg_type
        BUSINESS_REJECT_UNSUPPORTED_MSG_TYPE (Some "unsupported message type") now_ms
  end.

(** A rejected order's report. *)
Definition rejected_report (seq : Z) (symbol : Symbol) (side : OrderSide) (price : option Cents)
    (reason : Z) (t : option string) (now_ms : Z) (header : StandardHeader) : ExecutionReport :=
  {| er_header := header; er_order_id := "NONE"; er_exec_id := "REJECT:" +:+ dec seq;
     er_exec_type := EtRejected; er_ord_status := StRejected; er_symbol := symbol;
     er_side := side; er_leaves_qty := 0; er_cum_qty := 0; er_last_qty := None;
     er_last_px := None; er_price := price; er_secondary_exec_id := 0;
     er_transact_time := from_epoch_ms now_ms; er_commission := None; er_comm_type := None;
     er_last_liquidity_ind := None; er_ord_rej_reason := Some reason; er_text := t |}.

Definition emit_order_rejected_code (symbol : Symbol) (side : OrderSide) (price : option Cents)
    (reason : Z) (t : option string) (now_ms : Z) : M Reaction :=
  s ← sm_get;
  let seq := next_sender_seq (sf_counters s) in
  emit_one now_ms (λ header,
    ExecutionReport_encode (rejected_report seq symbol side price reason t now_ms header)).

Definition cancel_reject (orig cl : ClientOrderId) (response_to : CxlRejResponseTo) (now_ms : Z) :
    M Reaction :=
  emit_one now_ms (λ header, OrderCancelReject_encode
    {| ocr_header := header; ocr_order_id := "NONE"; ocr_cl_ord_id := cl;
       ocr_orig_cl_ord_id := orig; ocr_ord_status := StRejected;
       ocr_cxl_rej_response_to := response_to;
       ocr_cxl_rej_reason := CXL_REJ_REASON_NOT_AUTHORIZED;
       ocr_text := Some TEXT_NOT_AUTHORIZED |}).

Definition emit_mass_cancel_rejected (now_ms : Z) : M Reaction :=
  emit_one now_ms (λ header, OrderMassCancelReport_encode
    {| mc_header := header; mc_mass_cancel_response := MrRejected;
       mc_total_affected_orders := 0; mc_affected_orders := [] |}).

Definition emit_md_request_reject (md_req_id : string) (reason : Z) (t : option string)
    (now_ms : Z) : M Reaction :=
  emit_one now_ms (λ header, MarketDataRequestReject_encode
    {| my_header := header; my_md_req_id := md_req_id; my_md_req_rej_reason := reason;
       my_text := t |}).

Definition emit_md_snapshot (md_req_id : string) (symbol : Symbol) (rpt_seq : Z)
    (entries : list SnapshotEntry) (now_ms : Z) : M string :=
  emit now_ms (λ header, MarketDataSnapshotFullRefresh_encode
    {| mw_header := header; mw_md_req_id := md_req_id; mw_symbol := symbol;
       mw_rpt_seq := rpt_seq; mw_entries := entries |}).

Definition emit_md_incremental (md_req_id : string) (rpt_seq : Z)
    (entries : list IncrementalEntry) (now_ms : Z) : M string :=
  emit now_ms (λ header, MarketDataIncrementalRefresh_encode
    {| mx_header := header; mx_md_req_id := md_req_id; mx_rpt_seq := rpt_seq;
       mx_entries := entries |}).

Definition permission_reject (message : DecodedMessage) (now_ms : Z) : M Reaction :=
  match message with
  | DNewOrderSingle order =>
      emit_order_rejected_code (no_symbol order) (no_side order) (no_price order)
        ORD_REJ_REASON_NOT_AUTHORIZED (Some TEXT_NOT_AUTHORIZED) now_ms
  | DOrderCancelRequest c =>
      cancel_reject (oc_orig_cl_ord_id c) (oc_cl_ord_id c) CrOrderCancelRequest now_ms
  | DOrderCancelReplaceRequest r =>
      cancel_reject (og_orig_cl_ord_id r) (og_cl_ord_id r) CrOrderCancelReplaceRequest now_ms
  | DOrderMassCancelRequest _ => emit_mass_cancel_rejected now_ms
  | DMarketDataRequest r =>
      emit_md_request_reject (mv_md_req_id r) MD_REJ_REASON_INSUFFICIENT_PERMISSIONS
        (Some TEXT_NOT_AUTHORIZED) now_ms
  | _ => mret reaction_cont
  end.

(** ** Resend *)

Definition gap_fill_frame (p : CompId * CompId) (at_seq new_seq_no now_ms : Z) :
    result FixEncodeError string :=
  SequenceReset_encode
    {| sq_header := out_header p at_seq now_ms; sq_new_seq_no := new_seq_no;
       sq_gap_fill_flag := Some true |}.

Definition push_frame (frame : string) (r : result SessionError (list string)) :
    result SessionError (list string) :=
  match r with Ok frames => Ok (frame :: frames) | Err e => Err e end.

(** The resend loop over the sorted cursor; each turn consumes an entry or jumps to
    the next one, so [2 * length cursor + 2] turns of fuel are enough. *)
Fixpoint resend_loop (fuel : nat) (peer : option (CompId * CompId)) (upper now_ms : Z)
    (seq : Z) (cursor : list StoredOutbound) : option (result SessionError (list string)) :=
  match fuel with
  | O => None
  | Datatypes.S fuel =>
      if upper <? seq then Some (Ok [])
      else
        match match cursor with
              | entry :: cursor => if so_seq entry =? seq then Some (entry, cursor) else None
              | [] => None
              end with
        | Some (entry, cursor) =>
            match checked_add u64 seq 1 with
            | None => Some (Err SequenceExhausted)
            | Some next =>
                r ← resend_loop fuel peer upper now_ms next cursor;
                Some (push_frame (so_frame entry) r)
            end
        | None =>
            match match cursor with
                  | entry :: _ => if so_seq entry <=? upper then Some (so_seq entry)
                                  else checked_add u64 upper 1
                  | [] => checked_add u64 upper 1
                  end with
            | None => Some (Err SequenceExhausted)
            | Some gap_end =>
                match peer with
                | None => Some (Err NoPeer)
                | Some p =>
                    match gap_fill_frame p seq gap_end now_ms with
                    | Err e => Some (Err (EncodeError e))
                    | Ok frame =>
                        r ← resend_loop fuel peer upper now_ms gap_end cursor;
                        Some (push_frame frame r)
                    end
                end
            end
        end
  end.

Definition both_comps (s : SessionFsm) : option (CompId * CompId) :=
  v ← sf_venue_comp s; c ← sf_client_comp s; Some (v, c).

(** The last number a resend may cover: what was sent, and what was asked for. *)
Definition resend_upper (s : SessionFsm) (end_ : Z) : Z :=
  let last_sent := Z.max (next_sender_seq (sf_counters s)) FIRST_SEQ_NUM - 1 in
  if end_ =? 0 then last_sent else Z.min end_ last_sent.

Definition serve_resend (resend : ResendRequest) (now_ms : Z) : M Reaction :=
  let begin := rr_begin_seq_no resend in
  let end_ := rr_end_seq_no resend in
  s ← sm_get;
  key ← sm_lift (ok_or NoPeer (sf_key s));
  stored ← sm_read (λ st, outbound_range st key begin end_);
  let upper := resend_upper s end_ in
  frames ← sm_lift (default (Ok []) (resend_loop (2 * length stored + 2) (both_comps s)
                                       upper now_ms begin stored));
  mret (reaction_emit frames).

(** ** Sequence reset *)

Definition handle_sequence_reset (reset : SequenceReset) (now_ms : Z) : M Reaction :=
  let new_seq := sq_new_seq_no reset in
  s ← sm_get;
  key ← sm_lift (ok_or NoPeer (sf_key s));
  let moved := set_next_target new_seq (sf_counters s) in
  if bool_decide (sq_gap_fill_flag reset = Some true) then
    if next_target_seq (sf_counters s) <=? new_seq then
      _ ← sm_modify (set_counters moved);
      _ ← sm_store (λ st, save_counters st key moved);
      _ ← end_resend;
      mret reaction_cont
    else mret reaction_cont
  else
    let event := {| re_at_ms := now_ms; re_trigger := SequenceResetTrigger;
                    re_old_next_sender_seq := next_sender_seq (sf_counters s);
                    re_old_next_target_seq := next_target_seq (sf_counters s);
                    re_new_next_sender_seq := next_sender_seq (sf_counters s);
                    re_new_next_target_seq := new_seq |} in
    _ ← sm_modify (set_counters moved);
    _ ← sm_store (λ st, record_reset st key event moved);
    _ ← end_resend;
    mret reaction_cont.

(** ** Dispatch of an admitted session *)

Definition is_order_entry_mutation (message : DecodedMessage) : bool :=
  match message with
  | DNewOrderSingle _ | DOrderCancelRequest _ | DOrderCancelReplaceRequest _
  | DOrderMassCancelRequest _ => true
  | _ => false
  end.

Definition is_order_entry_message (message : DecodedMessage) : bool :=
  match message with
  | DNewOrderSingle _ | DOrderCancelRequest _ | DOrderCancelReplaceRequest _
  | DOrderMassCancelRequest _ | DOrderStatusRequest _ => true
  | _ => false
  end.

Definition is_application_message (message : DecodedMessage) : bool :=
  is_order_entry_message message ||
  match message with DMarketDataRequest _ => true | _ => false end.

Definition required_permission (message : DecodedMessage) : option Permission :=
  match message with
  | DLogon _ | DLogout _ | DHeartbeat _ | DTestRequest _ | DResendRequest _
  | DSequenceReset _ | DReject _ => None
  | DNewOrderSingle _ | DOrderCancelRequest _ | DOrderCancelReplaceRequest _
  | DOrderMassCancelRequest _ => Some PermTrade
  | _ => Some PermRead
  end.

Definition has_permission (s : SessionFsm) (required : option Permission) : bool :=
  match required with
  | None => true
  | Some required => existsb (λ held, grants held required) (sf_permissions s)
  end.

(** An order naming an account other than the session's. *)
Definition names_other_account (s : SessionFsm) (message : DecodedMessage) : bool :=
  match message with
  | DNewOrderSingle order =>
      match no_account order with
      | Some named => negb (bool_decide (Some named = sf_account s))
      | None => false
      end
  | _ => false
  end.

Definition gate_application (message : DecodedMessage) (now_ms : Z) : M ActiveDisposition :=
  s ← sm_get;
  if negb (has_permission s (required_permission message)) then
    reaction ← permission_reject message now_ms;
    _ ← consume_inbound;
    mret (Reacted reaction)
  else if names_other_account s message then
    reaction ← session_reject now_ms ValueIsIncorrectReason (Some tags.ACCOUNT);
    _ ← consume_inbound;
    mret (Reacted reaction)
  else
    _ ← (if is_order_entry_mutation message then advance_inbound_in_memory else consume_inbound);
    mret (Route message).

Definition dispatch_active_body (message : DecodedMessage) (now_ms : Z) : M Reaction :=
  match message with
  | DSequenceReset _ | DHeartbeat _ | DReject _ => mret reaction_cont
  | DTestRequest test =>
      emit_one now_ms (λ header, Heartbeat_encode
        {| hb_header := header; hb_test_req_id := Some (tr_test_req_id test) |})
  | DResendRequest resend => serve_resend resend now_ms
  | DLogout _ =>
      _ ← sm_modify (set_phase Closing);
      frame ← emit now_ms (λ header, Logout_encode {| lg_header := header; lg_text := None |});
      mret (reaction_emit_close [frame])
  | _ => session_reject now_ms InvalidMsgType (Some 35)
  end.

Definition handle_active (message : DecodedMessage) (now_ms : Z) (revoked : bool) :
    M ActiveDisposition :=
  _ ← on_inbound (header_of message) now_ms;
  if revoked then Reacted <$> logout_close now_ms "account revoked"
  else
    let seq := msg_seq_num (header_of message) in
    match message with
    | DSequenceReset reset => Reacted <$> handle_sequence_reset reset now_ms
    | _ =>
        s ← sm_get;
        let expected := next_target_seq (sf_counters s) in
        if expected <? seq then
          _ ← sm_modify (set_phase AwaitingResend);
          frame ← emit_resend_request now_ms expected;
          mret (Reacted (reaction_emit [frame]))
        else if seq <? expected then mret (Reacted reaction_cont)
        else if is_application_message message then gate_application message now_ms
        else
          reaction ← dispatch_active_body message now_ms;
          _ ← consume_inbound;
          mret (Reacted reaction)
    end.

(** ** The tick *)

Definition tick_heartbeat (now_ms : Z) : M (list string) :=
  s ← sm_get;
  if sf_heart_bt_int_ms s <=? saturating_sub u64 now_ms (sf_last_outbound_ms s) then
    frame ← emit now_ms (λ header, Heartbeat_encode
      {| hb_header := header; hb_test_req_id := None |});
    mret [frame]
  else mret [].

Definition tick_liveness (frames : list string) (now_ms : Z) : M Reaction :=
  s ← sm_get;
  match sf_awaiting_test_req_since_ms s with
  | None =>
      if sf_heart_bt_int_ms s <=? saturating_sub u64 now_ms (sf_last_inbound_ms s) then
        let id := "TR-" +:+ dec (next_sender_seq (sf_counters s)) in
        frame ← emit now_ms (λ header, TestRequest_encode
          {| tr_header := header; tr_test_req_id := id |});
        _ ← sm_modify (set_awaiting_test_req (Some now_ms));
        mret (reaction_emit (frames ++ [frame]))
      else mret (reaction_emit frames)
  | Some since =>
      if sf_heart_bt_int_ms s <=? saturating_sub u64 now_ms since then
        r ← logout_close now_ms "heartbeat timeout";
        mret (reaction_emit_close (frames ++ [default EmptyString (head (rx_frames r))]))
      else mret (reaction_emit frames)
  end.

Definition on_tick (now_ms : Z) (revoked : bool) : M Reaction :=
  s ← sm_get;
  match sf_phase s with
  | AwaitingLogon =>
      if logon_timeout_ms (sf_config s) <=? saturating_sub u64 now_ms (sf_accepted_at_ms s) then
        _ ← sm_modify (set_phase Closing);
        mret reaction_close_silent
      else mret reaction_cont
  | ActivePhase | AwaitingResend =>
      if revoked then logout_close now_ms "account revoked"
      else if sf_heart_bt_int_ms s =? 0 then mret reaction_cont
      else
        frames ← tick_heartbeat now_ms;
        tick_liveness frames now_ms
  | Closing => mret reaction_close_silent
  end.
End fsm.

(** ** Live keys *)

(** The registry of live sessions: a claim of a live key fails, a release frees it. *)
Definition try_claim (live : gset SessionKey) (key : SessionKey) : gset SessionKey * bool :=
  if bool_decide (key ∈ live) then (live, false) else ({[key]} ∪ live, true).
Definition release (live : gset SessionKey) (key : SessionKey) : gset SessionKey :=
  live ∖ {[key]}.
Definition is_live (live : gset SessionKey) (key : SessionKey) : bool := bool_decide (key ∈ live).
