(* ===== verification/FixSessionInv.v ===== *)
(** The session's outbound side: a small program logic for the handlers of
    [FixSession], in which every handler sends a run of consecutively numbered frames,
    stores them under its own key, and keeps the durable counter in step. *)

From S2P Require Export FixSession FixRoundTrip.

Section inv.
Context `{Upstream} `{FixLib} `{!FixLibLaws} {S : Type} `{FixSessionStore S}
  `{!FixSessionStoreLaws S}.
Notation M := (SM S).
Notation World := (SessionFsm * S)%type.

(** ** Frames carry their number *)

(** The frame, read back from the wire, has this MsgSeqNum. *)
Definition carries (frame : string) (n : Z) : Prop :=
  ∃ raw, frame_decode frame = Ok raw ∧
    bag_find (raw_fields raw) tags.MSG_SEQ_NUM = Some (dec n).

Lemma wrote_carries ty h slots w frame :
  wrote w ((tags.MSG_TYPE, Some ty) :: header_slots h ++ slots) →
  writer_finish w = Ok frame → carries frame (msg_seq_num h).
Proof.
  intros [Hw _] Hf. unfold writer_finish in Hf.
  destruct (encoder_finish w) as [f|e] eqn:E; [|done]. injection Hf as ->. cbn [bag_of] in Hw.
  destruct (finish_decode w frame ty _ E Hw) as (raw & len & sum & Hd & _ & _ & _ & Hfields).
  exists raw. split; [done|]. rewrite Hfields. rewrite bag_of_app.
  unfold header_slots. cbn [bag_of app bag_find]. by vm_compute (_ =? _).
Qed.

(** A builder of frames numbered by the header it is given. *)
Definition numbered (build : StandardHeader → result FixEncodeError string) : Prop :=
  ∀ h frame, build h = Ok frame → carries frame (msg_seq_num h).

Tactic Notation "numbers" reference(enc) :=
  intros h frame Hf; unfold enc in Hf; eapply wrote_carries in Hf;
  [exact Hf | eapply wrote_eq; [write | cbn; reflexivity]].

Lemma numbered_logout t : numbered (λ h, Logout_encode {| lg_header := h; lg_text := t |}).
Proof. numbers Logout_encode. Qed.
Lemma numbered_heartbeat t :
  numbered (λ h, Heartbeat_encode {| hb_header := h; hb_test_req_id := t |}).
Proof. numbers Heartbeat_encode. Qed.
Lemma numbered_test_request t :
  numbered (λ h, TestRequest_encode {| tr_header := h; tr_test_req_id := t |}).
Proof. numbers TestRequest_encode. Qed.
Lemma numbered_resend_request b e :
  numbered (λ h, ResendRequest_encode {| rr_header := h; rr_begin_seq_no := b; rr_end_seq_no := e |}).
Proof. numbers ResendRequest_encode. Qed.
Lemma numbered_reject r s t x :
  numbered (λ h, Reject_encode {| rj_header := h; rj_ref_seq_num := r;
    rj_session_reject_reason := s; rj_ref_tag_id := t; rj_text := x |}).
Proof. numbers Reject_encode. Qed.
Lemma numbered_business_reject a b c d :
  numbered (λ h, BusinessMessageReject_encode {| bj_header := h; bj_ref_seq_num := a;
    bj_ref_msg_type := b; bj_business_reject_reason := c; bj_text := d |}).
Proof. numbers BusinessMessageReject_encode. Qed.
Lemma numbered_rejected_report q y s p r t now :
  numbered (λ h, ExecutionReport_encode (rejected_report q y s p r t now h)).
Proof. numbers ExecutionReport_encode. Qed.
Lemma numbered_cancel_reject a b c d e f g :
  numbered (λ h, OrderCancelReject_encode {| ocr_header := h; ocr_order_id := a;
    ocr_cl_ord_id := b; ocr_orig_cl_ord_id := c; ocr_ord_status := d;
    ocr_cxl_rej_response_to := e; ocr_cxl_rej_reason := f; ocr_text := g |}).
Proof. numbers OrderCancelReject_encode. Qed.
Lemma numbered_mass_rejected a b :
  numbered (λ h, OrderMassCancelReport_encode {| mc_header := h; mc_mass_cancel_response := a;
    mc_total_affected_orders := b; mc_affected_orders := [] |}).
Proof. numbers OrderMassCancelReport_encode. Qed.
Lemma numbered_md_reject a b c :
  numbered (λ h, MarketDataRequestReject_encode {| my_header := h; my_md_req_id := a;
    my_md_req_rej_reason := b; my_text := c |}).
Proof. numbers MarketDataRequestReject_encode. Qed.
Lemma numbered_logon_ack n reset : numbered (λ h, encode_logon_ack h n reset).
Proof. destruct reset; numbers encode_logon_ack. Qed.
Lemma numbered_md_snapshot a b c l :
  numbered (λ h, MarketDataSnapshotFullRefresh_encode {| mw_header := h; mw_md_req_id := a;
    mw_symbol := b; mw_rpt_seq := c; mw_entries := l |}).
Proof.
  intros h frame Hf. unfold MarketDataSnapshotFullRefresh_encode in Hf.
  eapply wrote_carries in Hf; [exact Hf|]. eapply wrote_eq.
  - eapply (wrote_foldl _ snapshot_slots); [|write]. intros w s e Hw.
    eapply wrote_eq; [write; exact Hw|]. by rewrite <-!app_assoc.
  - cbn. reflexivity.
Qed.
Lemma numbered_md_incremental a b l :
  numbered (λ h, MarketDataIncrementalRefresh_encode {| mx_header := h; mx_md_req_id := a;
    mx_rpt_seq := b; mx_entries := l |}).
Proof.
  intros h frame Hf. unfold MarketDataIncrementalRefresh_encode in Hf.
  eapply wrote_carries in Hf; [exact Hf|]. eapply wrote_eq.
  - eapply (wrote_foldl _ incremental_slots); [|write]. intros w s e Hw.
    eapply wrote_eq; [write; exact Hw|]. by rewrite <-!app_assoc.
  - cbn. reflexivity.
Qed.

(** ** What a handler does to the world *)

(** The durable view of the session's key. *)
Definition kview (k : SessionKey) (w : World) : KeyView := view w.2 k.
Definition mem_sender (w : World) : Z := next_sender_seq (sf_counters w.1).
Definition durable_sender (k : SessionKey) (w : World) : Z :=
  next_sender_seq (kv_counters (kview k w)).

(** From [w] to [w'] the session sent the frames [l], in order: they are numbered from
    the old counter without a gap, each carries its number, the new counter follows
    them; under the session's key the log gained exactly them (less what was evicted
    from its old end) and a durable counter in step stays in step; no other key is
    touched. *)
Record sent (w w' : World) (l : list StoredOutbound) : Prop := {
  sent_key : sf_key w'.1 = sf_key w.1;
  sent_seqs : so_seq <$> l = seqZ (mem_sender w) (Z.of_nat (length l));
  sent_next : mem_sender w' = mem_sender w + Z.of_nat (length l);
  sent_carries : Forall (λ e, carries (so_frame e) (so_seq e)) l;
  sent_frame k : sf_key w.1 ≠ Some k → kview k w' = kview k w;
  sent_log k : sf_key w.1 = Some k →
    kv_log (kview k w') `suffix_of` kv_log (kview k w) ++ l;
  sent_durable k : sf_key w.1 = Some k → durable_sender k w = mem_sender w →
    durable_sender k w' = mem_sender w';
}.

Lemma sent_refl w : sent w w [].
Proof. split; try done; [cbn; lia|intros; by rewrite app_nil_r]. Qed.

Lemma sent_trans w1 w2 w3 l1 l2 : sent w1 w2 l1 → sent w2 w3 l2 → sent w1 w3 (l1 ++ l2).
Proof.
  intros [K1 S1 N1 C1 F1 L1 D1] [K2 S2 N2 C2 F2 L2 D2]. split.
  - congruence.
  - rewrite fmap_app, S1, S2, N1, length_app, Nat2Z.inj_add, seqZ_app by lia. done.
  - rewrite length_app. lia.
  - by apply Forall_app.
  - intros k Hk. rewrite F2, F1 by congruence. done.
  - intros k Hk. etransitivity; [apply L2; congruence|]. rewrite app_assoc.
    destruct (L1 k Hk) as [x ->]. exists x. by rewrite <-!app_assoc.
  - intros k Hk Hd. apply D2; [congruence|]. by apply D1.
Qed.

(** A change of the world that sends nothing. *)
Lemma sent_nothing w w' :
  sf_key w'.1 = sf_key w.1 → mem_sender w' = mem_sender w →
  (∀ k, sf_key w.1 ≠ Some k → kview k w' = kview k w) →
  (∀ k, sf_key w.1 = Some k → kv_log (kview k w') = kv_log (kview k w) ∧
     (durable_sender k w = mem_sender w → durable_sender k w' = mem_sender w')) →
  sent w w' [].
Proof.
  intros Hk Hm Hf Hl. split; try done; [cbn; lia|..].
  - intros k Hk'. destruct (Hl k Hk') as [-> _]. by rewrite app_nil_r.
  - intros k Hk'. by apply Hl.
Qed.

(** A handler sends frames; [Q] relates its result to them. *)
Definition sends {A} (m : M A) (Q : A → list string → Prop) : Prop :=
  ∀ w r w', m w = (r, w') →
    ∃ l, sent w w' l ∧ match r with Ok a => Q a (so_frame <$> l) | Err _ => True end.

Lemma sends_ret {A} (a : A) (Q : A → list string → Prop) : Q a [] → sends (mret a) Q.
Proof. intros HQ w r w' [= <- <-]. exists []. split; [apply sent_refl|done]. Qed.

Lemma sends_bind {A B} (m : M A) (k : A → M B) (P : A → list string → Prop)
    (Q : B → list string → Prop) :
  sends m P → (∀ a fs, P a fs → sends (k a) (λ b fs', Q b (fs ++ fs'))) → sends (m ≫= k) Q.
Proof.
  intros Hm Hk w r w'. unfold mbind, SM_bind. destruct (m w) as [[a|e] w1] eqn:E.
  - intros E2. destruct (Hm _ _ _ E) as (l1 & Hs1 & HP).
    destruct (Hk a _ HP _ _ _ E2) as (l2 & Hs2 & HQ). exists (l1 ++ l2).
    split; [by eapply sent_trans|]. destruct r; [by rewrite fmap_app|done].
  - intros [= <- <-]. destruct (Hm _ _ _ E) as (l1 & Hs1 & _). by exists l1.
Qed.

(** Composition with a handler that sends nothing. *)
Lemma sends_silent {A B} (m : M A) (k : A → M B) (Q : B → list string → Prop) :
  sends m (λ _ fs, fs = []) → (∀ a, sends (k a) Q) → sends (m ≫= k) Q.
Proof.
  intros Hm Hk. eapply sends_bind; [exact Hm|]. intros a fs ->. apply Hk.
Qed.

Lemma sends_weaken {A} (m : M A) (P Q : A → list string → Prop) :
  sends m P → (∀ a fs, P a fs → Q a fs) → sends m Q.
Proof.
  intros Hm HPQ w r w' E. destruct (Hm _ _ _ E) as (l & Hs & HP). exists l. split; [done|].
  destruct r; auto.
Qed.

Lemma sends_get : sends sm_get (λ _ fs, fs = []).
Proof. intros w r w' [= <- <-]. exists []. split; [apply sent_refl|done]. Qed.

Lemma sends_lift {A} (x : result SessionError A) : sends (sm_lift x) (λ _ fs, fs = []).
Proof. intros w r w' [= <- <-]. exists []. split; [apply sent_refl|by destruct x]. Qed.

Lemma sends_read {A} (f : S → result SessionStoreError A) : sends (sm_read f) (λ _ fs, fs = []).
Proof. intros w r w' [= <- <-]. exists []. split; [apply sent_refl|by destruct (f w.2)]. Qed.

Lemma sends_modify (f : SessionFsm → SessionFsm) :
  (∀ s, sf_key (f s) = sf_key s ∧
    next_sender_seq (sf_counters (f s)) = next_sender_seq (sf_counters s)) →
  sends (sm_modify f) (λ _ fs, fs = []).
Proof.
  intros Hf w r w' [= <- <-]. exists []. split; [|done]. destruct (Hf w.1) as [Hk Hm].
  apply sent_nothing; try done. intros k _. split; [done|].
  unfold mem_sender, durable_sender, kview. cbn. by rewrite Hm.
Qed.

Lemma sends_if {A} (b : bool) (m1 m2 : M A) (Q : A → list string → Prop) :
  sends m1 Q → sends m2 Q → sends (if b then m1 else m2) Q.
Proof. by destruct b. Qed.

Lemma sends_peer : sends peer (λ _ fs, fs = []).
Proof.
  unfold peer. eapply sends_silent; [apply sends_get|]. intros s.
  eapply sends_silent; [apply sends_lift|]. intros v.
  eapply sends_silent; [apply sends_lift|]. intros c. by apply sends_ret.
Qed.

Ltac run := unfold mbind, SM_bind, mret, SM_ret, fmap, SM_fmap, sm_get, sm_lift, sm_read, sm_modify, sm_store in *;
  cbn [fst snd ok_or map_err] in *.

Lemma peer_run (w : World) :
  (∃ p, peer w = (Ok p, w) ∧ both_comps w.1 = Some p) ∨
  (peer w = (Err NoPeer, w) ∧ both_comps w.1 = None).
Proof.
  unfold peer, both_comps. run.
  destruct (sf_venue_comp w.1), (sf_client_comp w.1); cbn; eauto.
Qed.

(** Sending one frame: it fails leaving the world as it was, or it stores the frame
    under the current number and moves on. *)
Lemma emit_run now build (w : World) r w' :
  emit now build w = (r, w') →
  (∃ e, r = Err e ∧ w' = w) ∨
  ∃ p frame st, r = Ok frame ∧ both_comps w.1 = Some p ∧
    build (out_header p (mem_sender w) now) = Ok frame ∧
    has_ty u64 (mem_sender w + 1) ∧ w' = (set_sent (mem_sender w + 1) now w.1, st) ∧
    match sf_key w.1 with
    | Some k => store_outbound_and_advance w.2 k (mem_sender w) frame (mem_sender w + 1) = Ok st
    | None => st = w.2
    end.
Proof.
  unfold emit. intros E. change (mbind ?k peer w) with
    (match peer w with (Ok a, w) => k a w | (Err e, w) => (Err e, w) end) in E.
  destruct (peer_run w) as [(p & Hp & Hc)|[Hp _]]; rewrite Hp in E.
  2: { injection E as <- <-. eauto. }
  run. unfold mem_sender.
  destruct (build _) as [frame|e] eqn:Hb; cbn in E; [|injection E as <- <-; eauto].
  destruct (checked_add u64 _ 1) as [next|] eqn:Hn; cbn in E; [|injection E as <- <-; eauto].
  unfold checked_add in Hn. apply narrow_Some in Hn as [-> Hn].
  destruct (sf_key w.1) as [k|] eqn:Hk.
  - destruct (store_outbound_and_advance _ _ _ _ _) as [st|e] eqn:Hs; cbn in E;
      injection E as <- <-; [|left; by eexists].
    right. exists p, frame, st. done.
  - injection E as <- <-. right. exists p, frame, w.2. done.
Qed.

Lemma emit_sent now build (w : World) frame w' :
  numbered build → emit now build w = (Ok frame, w') →
  sent w w' [{| so_seq := mem_sender w; so_frame := frame |}].
Proof.
  intros Hb [(e & [=] & _)|(p & f & st & [= ->] & Hc & Hf & Ht & -> & Hst)]%emit_run.
  split; cbn [fst snd].
  - done.
  - done.
  - done.
  - repeat constructor. cbn. exact (Hb _ _ Hf).
  - intros k Hk. unfold kview. cbn. destruct (sf_key w.1) as [k'|]; [|by subst].
    apply advance_spec in Hst as [_ Ho]. apply Ho. congruence.
  - intros k Hk. rewrite Hk in Hst. apply advance_spec in Hst as [(l & Hl & Hv) _].
    unfold kview. cbn. by rewrite Hv.
  - intros k Hk Hd. rewrite Hk in Hst. apply advance_spec in Hst as [(l & Hl & Hv) _].
    unfold durable_sender, kview. cbn. by rewrite Hv.
Qed.

Lemma sends_emit now build : numbered build → sends (emit now build) (λ f fs, fs = [f]).
Proof.
  intros Hb w [frame|e] w' E.
  - eexists. split; [by eapply emit_sent|done].
  - apply emit_run in E as [(e' & _ & ->)|(? & ? & ? & [=] & _)].
    exists []. split; [apply sent_refl|done].
Qed.

(** The frames of a reaction are the frames sent. *)
Definition reaction_is (rx : Reaction) (fs : list string) : Prop := rx_frames rx = fs.

Lemma sends_emit_one now build : numbered build → sends (emit_one now build) reaction_is.
Proof.
  intros Hb. unfold emit_one. eapply sends_bind; [by apply sends_emit|].
  intros f fs ->. by apply sends_ret.
Qed.

Lemma sends_persist_counters : sends persist_counters (λ _ fs, fs = []).
Proof.
  intros w r w'. unfold persist_counters. run. intros E. exists [].
  assert (sent w w' []); [|split; [done|by destruct r]].
  destruct (sf_key w.1) as [k|] eqn:Hk; [|injection E as <- <-; apply sent_refl].
  destruct (save_counters _ _ _) as [st|e] eqn:Hs; injection E as <- <-; [|apply sent_refl].
  apply save_spec in Hs as [Hv Ho]. apply sent_nothing; try done.
  - intros k' Hk'. apply Ho. congruence.
  - intros k' [= <-]%(eq_trans (eq_sym Hk)). unfold durable_sender, kview. cbn. by rewrite Hv.
Qed.

Lemma sends_bump_target : sends bump_target (λ _ fs, fs = []).
Proof.
  unfold bump_target. eapply sends_silent; [apply sends_get|]. intros s.
  eapply sends_silent; [apply sends_lift|]. intros n. by apply sends_modify.
Qed.

Lemma sends_end_resend : sends end_resend (λ _ fs, fs = []).
Proof.
  unfold end_resend. eapply sends_silent; [apply sends_get|]. intros s.
  apply sends_if; [by apply sends_modify|by apply sends_ret].
Qed.

Lemma sends_advance_inbound_in_memory : sends advance_inbound_in_memory (λ _ fs, fs = []).
Proof. eapply sends_silent; [apply sends_bump_target|]. intros. apply sends_end_resend. Qed.

Lemma sends_consume_inbound : sends consume_inbound (λ _ fs, fs = []).
Proof.
  eapply sends_silent; [|intros; apply sends_end_resend].
  eapply sends_silent; [apply sends_bump_target|]. intros. apply sends_persist_counters.
Qed.

Lemma sends_logout_close now reason : sends (logout_close now reason) reaction_is.
Proof.
  unfold logout_close. eapply sends_silent; [by apply sends_modify|]. intros _.
  eapply sends_bind; [apply sends_emit, numbered_logout|]. intros f fs ->. by apply sends_ret.
Qed.

Lemma sends_session_reject now reason tag : sends (session_reject now reason tag) reaction_is.
Proof.
  unfold session_reject. eapply sends_silent; [apply sends_get|]. intros s.
  apply sends_emit_one, numbered_reject.
Qed.

Lemma sends_reject_decode_error e now : sends (reject_decode_error e now) reaction_is.
Proof.
  unfold reject_decode_error. destruct (reject_route e); [apply sends_session_reject|].
  eapply sends_silent; [apply sends_get|]. intros s. apply sends_emit_one, numbered_business_reject.
Qed.

Lemma sends_order_rejected a b c d e now :
  sends (emit_order_rejected_code a b c d e now) reaction_is.
Proof.
  unfold emit_order_rejected_code. eapply sends_silent; [apply sends_get|]. intros s.
  apply sends_emit_one, numbered_rejected_report.
Qed.

Lemma sends_permission_reject m now : sends (permission_reject m now) reaction_is.
Proof.
  destruct m; cbn [permission_reject]; try (by apply sends_ret).
  - apply sends_order_rejected.
  - apply sends_emit_one, numbered_cancel_reject.
  - apply sends_emit_one, numbered_cancel_reject.
  - apply sends_emit_one, numbered_mass_rejected.
  - apply sends_emit_one, numbered_md_reject.
Qed.

Lemma sends_serve_resend rr now : sends (serve_resend rr now) (λ _ fs, fs = []).
Proof.
  unfold serve_resend. eapply sends_silent; [apply sends_get|]. intros s.
  eapply sends_silent; [apply sends_lift|]. intros k.
  eapply sends_silent; [apply sends_read|]. intros l.
  eapply sends_silent; [apply sends_lift|]. intros fs. by apply sends_ret.
Qed.

Lemma sends_sequence_reset reset now :
  sends (handle_sequence_reset reset now) (λ rx fs, rx = reaction_cont ∧ fs = []).
Proof.
  intros w r w' E. exists []. revert E. unfold handle_sequence_reset. run.
  destruct (sf_key w.1) as [k|] eqn:Hk; cbn; [|intros [= <- <-]; split; [apply sent_refl|done]].
  set (moved := set_next_target _ _).
  assert (∀ (w1 : World), sf_key w1.1 = sf_key w.1 → mem_sender w1 = mem_sender w →
    (∀ k', k' ≠ k → kview k' w1 = kview k' w) → kv_log (kview k w1) = kv_log (kview k w) →
    (durable_sender k w = mem_sender w → durable_sender k w1 = mem_sender w1) → sent w w1 [])
    as Hsent.
  { intros w1 ? ? Hoth ? ?. apply sent_nothing; [done|done|..].
    - intros k' Hk'. apply Hoth. congruence.
    - intros k' [= <-]%(eq_trans (eq_sym Hk)). done. }
  assert (∀ st, (kv_counters (view st k) = moved) → (∀ k', k' ≠ k → view st k' = view w.2 k') →
    kv_log (view st k) = kv_log (view w.2 k) →
    ∀ w1 r1, end_resend (set_counters moved w.1, st) = (r1, w1) →
    r1 = Ok tt ∧ sent w w1 []) as Hend.
  { intros st Hc Ho Hl w1 r1. unfold end_resend. run.
    destruct (bool_decide _); intros [= <- <-]; (split; [done|]); apply Hsent; try done;
      unfold durable_sender, kview; cbn; by rewrite Hc. }
  assert (sent w (set_counters moved w.1, w.2) []) as Hmoved by (by apply Hsent).
  destruct (bool_decide _); [destruct (_ <=? _)|].
  - destruct (save_counters _ _ _) as [st|e] eqn:Hs; cbn; [|by intros [= <- <-]].
    apply save_spec in Hs as [Hv Ho]. destruct (end_resend _) as [r1 w1] eqn:E1.
    apply Hend in E1 as [-> Hw1]; [|by rewrite Hv|done|by rewrite Hv]. by intros [= <- <-].
  - intros [= <- <-]. split; [apply sent_refl|done].
  - destruct (record_reset _ _ _ _) as [st|e] eqn:Hs; cbn; [|by intros [= <- <-]].
    apply reset_spec in Hs as [(rs & _ & _ & Hv) Ho]. destruct (end_resend _) as [r1 w1] eqn:E1.
    apply Hend in E1 as [-> Hw1]; [|by rewrite Hv|done|by rewrite Hv]. by intros [= <- <-].
Qed.

(** The frames of a disposition; a routed message sends none. *)
Definition disposition_is (d : ActiveDisposition) (fs : list string) : Prop :=
  match d with Reacted rx => rx_frames rx = fs | Route _ => fs = [] end.

Lemma sends_gate m now : sends (gate_application m now) disposition_is.
Proof.
  unfold gate_application. eapply sends_silent; [apply sends_get|]. intros s.
  apply sends_if; [|apply sends_if].
  - eapply sends_bind; [apply sends_permission_reject|]. intros rx fs Hrx.
    eapply sends_silent; [apply sends_consume_inbound|]. intros _. apply sends_ret.
    by rewrite app_nil_r.
  - eapply sends_bind; [apply sends_session_reject|]. intros rx fs Hrx.
    eapply sends_silent; [apply sends_consume_inbound|]. intros _. apply sends_ret.
    by rewrite app_nil_r.
  - eapply sends_silent; [|intros _; by apply sends_ret].
    apply sends_if; [apply sends_advance_inbound_in_memory|apply sends_consume_inbound].
Qed.

(** A resend request is answered by replays, which are not sent anew. *)
Definition is_resend (m : DecodedMessage) : bool :=
  match m with DResendRequest _ => true | _ => false end.

Lemma sends_dispatch m now :
  sends (dispatch_active_body m now)
    (λ rx fs, if is_resend m then fs = [] else reaction_is rx fs).
Proof.
  destruct m; cbn [dispatch_active_body is_resend]; try (by apply sends_ret);
    try apply sends_session_reject.
  - eapply sends_silent; [by apply sends_modify|]. intros _.
    eapply sends_bind; [apply sends_emit, numbered_logout|]. intros f fs ->. by apply sends_ret.
  - apply sends_emit_one, numbered_heartbeat.
  - apply sends_serve_resend.
Qed.

Lemma sends_fmap {A B} (f : A → B) (m : M A) (P : A → list string → Prop)
    (Q : B → list string → Prop) :
  sends m P → (∀ a fs, P a fs → Q (f a) fs) → sends (f <$> m) Q.
Proof.
  intros Hm HPQ. eapply sends_bind; [exact Hm|]. intros a fs Ha. apply sends_ret.
  rewrite app_nil_r. auto.
Qed.

Lemma sends_on_inbound h now : sends (on_inbound h now) (λ _ fs, fs = []).
Proof. by apply sends_modify. Qed.

(** What an inbound message sends: the frames of its reaction, except that the replays
    answering a resend request are not counted. *)
Definition inbound_is (m : DecodedMessage) (d : ActiveDisposition) (fs : list string) : Prop :=
  disposition_is d fs ∨ (is_resend m = true ∧ fs = []).

Lemma sends_handle_active m now revoked :
  sends (handle_active m now revoked) (inbound_is m).
Proof.
  unfold handle_active. eapply sends_silent; [apply sends_on_inbound|]. intros _.
  apply sends_if.
  { eapply sends_fmap; [apply sends_logout_close|]. intros rx fs Hrx. by left. }
  assert (sends (
    s ← sm_get;
    let expected := next_target_seq (sf_counters s) in
    if expected <? msg_seq_num (header_of m) then
      _ ← sm_modify (set_phase AwaitingResend);
      frame ← emit_resend_request now expected;
      mret (Reacted (reaction_emit [frame]))
    else if msg_seq_num (header_of m) <? expected then mret (Reacted reaction_cont)
    else if is_application_message m then gate_application m now
    else
      reaction ← dispatch_active_body m now;
      _ ← consume_inbound;
      mret (Reacted reaction)) (inbound_is m)) as Hrest.
  { eapply sends_silent; [apply sends_get|]. intros s. cbv zeta. repeat apply sends_if.
    - eapply sends_silent; [by apply sends_modify|]. intros _.
      eapply sends_bind; [apply sends_emit, numbered_resend_request|]. intros f fs ->.
      apply sends_ret. by left.
    - apply sends_ret. by left.
    - eapply sends_weaken; [apply sends_gate|]. intros d fs Hd. by left.
    - eapply sends_bind; [apply sends_dispatch|]. intros rx fs Hrx.
      eapply sends_silent; [apply sends_consume_inbound|]. intros _. apply sends_ret.
      rewrite app_nil_r. destruct (is_resend m) eqn:Em; [by right|by left]. }
  destruct m; try exact Hrest.
  eapply sends_fmap; [apply sends_sequence_reset|]. intros rx fs [-> ->]. by left.
Qed.

Lemma sends_tick_heartbeat now : sends (tick_heartbeat now) (λ fs fs', fs = fs').
Proof.
  unfold tick_heartbeat. eapply sends_silent; [apply sends_get|]. intros s.
  apply sends_if; [|by apply sends_ret].
  eapply sends_bind; [apply sends_emit, numbered_heartbeat|]. intros f fs ->. by apply sends_ret.
Qed.

Lemma logout_close_one now reason (w : World) rx w' :
  logout_close now reason w = (Ok rx, w') → ∃ f, rx = reaction_emit_close [f].
Proof.
  unfold logout_close. run. destruct (emit _ _ _) as [[f|e] w1]; intros [= <- <-]. by exists f.
Qed.

Lemma sends_tick_liveness frames now :
  sends (tick_liveness frames now) (λ rx fs, rx_frames rx = frames ++ fs).
Proof.
  unfold tick_liveness. eapply sends_silent; [apply sends_get|]. intros s.
  destruct (sf_awaiting_test_req_since_ms s) as [since|]; apply sends_if.
  - eapply sends_bind with (P := λ rx fs, ∃ f, rx = reaction_emit_close [f] ∧ fs = [f]).
    + intros w [rx|e] w' E.
      * destruct (logout_close_one _ _ _ _ _ E) as (f & ->).
        apply sends_logout_close in E as (l & Hl & Hf). exists l. split; [done|]. by exists f.
      * apply sends_logout_close in E as (l & Hl & _). by exists l.
    + intros rx fs (f & -> & ->). by apply sends_ret.
  - apply sends_ret. cbn. by rewrite app_nil_r.
  - eapply sends_bind; [apply sends_emit, numbered_test_request|]. intros f fs ->.
    eapply sends_silent; [by apply sends_modify|]. intros _. by apply sends_ret.
  - apply sends_ret. cbn. by rewrite app_nil_r.
Qed.

Lemma sends_on_tick now revoked : sends (on_tick now revoked) reaction_is.
Proof.
  unfold on_tick. eapply sends_silent; [apply sends_get|]. intros s.
  assert (sends (if revoked then logout_close now "account revoked"
    else if sf_heart_bt_int_ms s =? 0 then mret reaction_cont
    else frames ← tick_heartbeat now; tick_liveness frames now) reaction_is) as Hlive.
  { apply sends_if; [apply sends_logout_close|apply sends_if; [by apply sends_ret|]].
    eapply sends_bind; [apply sends_tick_heartbeat|]. intros frames fs ->.
    apply sends_tick_liveness. }
  destruct (sf_phase s); try exact Hlive; [|by apply sends_ret].
  apply sends_if; [|by apply sends_ret].
  eapply sends_silent; [by apply sends_modify|]. intros _. by apply sends_ret.
Qed.
End inv.
