(* ===== verification/FixSessionProps.v ===== *)
(** What the FIX session guarantees: outbound numbering, the logon contract, in-order
    inbound delivery, exact resend, liveness of the tick; then concrete sessions over the
    in-memory store, and the stale replay after a logon that resets the sequence numbers. *)

From S2P Require Export FixSessionInv.

Section props.
Context `{Upstream} `{FixLib} `{!FixLibLaws} {S : Type} `{FixSessionStore S}
  `{!FixSessionStoreLaws S}.
Notation M := (SM S).
Notation World := (SessionFsm * S)%type.

(** ** Outbound numbering *)

(** The resend log of a key: strictly ascending, below the next number. *)
Definition log_ok (v : KeyView) : Prop :=
  StronglySorted (λ a b, so_seq a < so_seq b) (kv_log v) ∧
  Forall (λ e, so_seq e < next_sender_seq (kv_counters v)) (kv_log v).

(** An admitted session on [k]: the durable outbound counter is the session's, and the
    log is in order. *)
Definition session_inv (k : SessionKey) (w : World) : Prop :=
  sf_key w.1 = Some k ∧ durable_sender k w = mem_sender w ∧ log_ok (kview k w).

Lemma StronglySorted_app_lt (l1 l2 : list StoredOutbound) b :
  StronglySorted (λ a b, so_seq a < so_seq b) l1 → Forall (λ e, so_seq e < b) l1 →
  so_seq <$> l2 = seqZ b (Z.of_nat (length l2)) →
  StronglySorted (λ a b, so_seq a < so_seq b) (l1 ++ l2) ∧
  Forall (λ e, so_seq e < b + Z.of_nat (length l2)) (l1 ++ l2).
Proof.
  revert l1 b. induction l2 as [|e l2 IH]; intros l1 b Hs Hf Hq.
  { rewrite app_nil_r. split; [done|]. eapply Forall_impl; [exact Hf|]. cbn. lia. }
  cbn [length fmap list_fmap] in Hq. rewrite Nat2Z.inj_succ, seqZ_cons, Z.pred_succ in Hq by lia.
  injection Hq as He Hq. destruct (IH (l1 ++ [e]) (Z.succ b)) as [Hs' Hf'].
  - clear -Hs Hf He. induction Hs as [|x l1 Hs IH Hx]; cbn; [by repeat constructor|].
    apply Forall_cons in Hf as [Hxb Hf]. constructor; [by apply IH|].
    apply Forall_app. split; [done|]. constructor; [lia|done].
  - apply Forall_app. split; [|constructor; [lia|done]].
    eapply Forall_impl; [exact Hf|]. cbn. lia.
  - by rewrite Hq.
  - rewrite <-app_assoc in Hs', Hf'. split; [exact Hs'|].
    eapply Forall_impl; [exact Hf'|]. cbn. lia.
Qed.

Lemma StronglySorted_suffix {A} (R : A → A → Prop) l1 l2 :
  l1 `suffix_of` l2 → StronglySorted R l2 → StronglySorted R l1.
Proof.
  intros [x ->]. apply StronglySorted_sublist. by apply sublist_inserts_l.
Qed.

Lemma sent_log_ok k w w' l :
  sent w w' l → session_inv k w → log_ok (kview k w').
Proof.
  intros Hs (Hk & Hd & Hl & Hb).
  pose proof (sent_durable _ _ _ Hs k Hk Hd) as Hd'. unfold durable_sender in *.
  destruct (StronglySorted_app_lt (kv_log (kview k w)) l (mem_sender w)) as [Hl' Hb'].
  - exact Hl.
  - rewrite <-Hd. exact Hb.
  - apply (sent_seqs _ _ _ Hs).
  - pose proof (sent_log _ _ _ Hs k Hk) as Hsuf. split.
    + by eapply StronglySorted_suffix.
    + rewrite Hd', (sent_next _ _ _ Hs). rewrite Forall_forall in Hb' |- *.
      intros e He. apply Hb'. destruct Hsuf as [x ->]. apply elem_of_app. by right.
Qed.

Lemma sent_inv k w w' l : sent w w' l → session_inv k w → session_inv k w'.
Proof.
  intros Hs Hi. split_and!; [|by apply (sent_durable _ _ _ Hs); apply Hi|by eapply sent_log_ok].
  rewrite (sent_key _ _ _ Hs). apply Hi.
Qed.

(** What happens to an admitted session: a decoded message, an undecodable one, a
    tick, the deferred persist of a routed order, and the frames the router sends. *)
Inductive session_event :=
  | EvInbound (m : DecodedMessage) (now_ms : Z) (revoked : bool)
  | EvDecodeError (error : FixDecodeError) (now_ms : Z)
  | EvTick (now_ms : Z) (revoked : bool)
  | EvPersistInbound
  | EvOrderRejected (symbol : Symbol) (side : OrderSide) (price : option Cents) (reason : Z)
      (t : option string) (now_ms : Z)
  | EvMdReject (md_req_id : string) (reason : Z) (t : option string) (now_ms : Z)
  | EvMdSnapshot (md_req_id : string) (symbol : Symbol) (rpt_seq : Z)
      (entries : list SnapshotEntry) (now_ms : Z)
  | EvMdIncremental (md_req_id : string) (rpt_seq : Z) (entries : list IncrementalEntry)
      (now_ms : Z).

Definition run_event (e : session_event) : M (list string) :=
  match e with
  | EvInbound m now revoked =>
      d ← handle_active m now revoked;
      mret match d with Reacted rx => rx_frames rx | Route _ => [] end
  | EvDecodeError err now => rx ← reject_decode_error err now; mret (rx_frames rx)
  | EvTick now revoked => rx ← on_tick now revoked; mret (rx_frames rx)
  | EvPersistInbound => _ ← persist_inbound; mret []
  | EvOrderRejected s sd p r t now =>
      rx ← emit_order_rejected_code s sd p r t now; mret (rx_frames rx)
  | EvMdReject i r t now => rx ← emit_md_request_reject i r t now; mret (rx_frames rx)
  | EvMdSnapshot i s q l now => f ← emit_md_snapshot i s q l now; mret [f]
  | EvMdIncremental i q l now => f ← emit_md_incremental i q l now; mret [f]
  end.

(** Events up to the first error, which ends the session. *)
Fixpoint run_events (es : list session_event) : M (list string) :=
  match es with
  | [] => mret []
  | e :: es => fs ← run_event e; fs' ← run_events es; mret (fs ++ fs')
  end.

Definition is_resend_event (e : session_event) : bool :=
  match e with EvInbound m _ _ => is_resend m | _ => false end.

Lemma sends_reaction (m : M Reaction) :
  sends m reaction_is → sends (rx ← m; mret (rx_frames rx)) (λ fs fs', fs = fs').
Proof.
  intros Hm. eapply sends_bind; [exact Hm|]. intros rx fs <-. apply sends_ret.
  by rewrite app_nil_r.
Qed.

Lemma sends_frame now build :
  numbered build → sends (f ← emit now build; mret [f] : M (list string)) (λ fs fs', fs = fs').
Proof. intros Hb. eapply sends_bind; [by apply sends_emit|]. intros f fs ->. by apply sends_ret. Qed.

Lemma sends_run_event e :
  sends (run_event e) (λ fs fs', is_resend_event e = false → fs = fs').
Proof.
  destruct e; cbn [run_event is_resend_event].
  - eapply sends_bind; [apply sends_handle_active|]. intros d fs Hd. apply sends_ret.
    rewrite app_nil_r. intros Hr. destruct Hd as [Hd|[Hd _]]; [by destruct d|congruence].
  - eapply sends_weaken; [apply sends_reaction, sends_reject_decode_error|done].
  - eapply sends_weaken; [apply sends_reaction, sends_on_tick|done].
  - eapply sends_silent; [apply sends_persist_counters|]. intros _. by apply sends_ret.
  - eapply sends_weaken; [apply sends_reaction, sends_order_rejected|done].
  - eapply sends_weaken; [apply sends_reaction, sends_emit_one, numbered_md_reject|done].
  - eapply sends_weaken; [apply sends_frame, numbered_md_snapshot|done].
  - eapply sends_weaken; [apply sends_frame, numbered_md_incremental|done].
Qed.

Lemma sends_run_events es :
  sends (run_events es) (λ fs fs', existsb is_resend_event es = false → fs = fs').
Proof.
  induction es as [|e es IH]; cbn [run_events existsb]; [by apply sends_ret|].
  eapply sends_bind; [apply sends_run_event|]. intros fs1 fs1' H1'.
  eapply sends_bind; [exact IH|]. intros fs2 fs2' H2'. apply sends_ret.
  rewrite orb_false_iff, app_nil_r. intros [Ha Hb]. by rewrite H1', H2'.
Qed.

(** C18. Outbound sequence numbers never gap, never repeat and never leave the durable
    counter behind: over any run of an admitted session (inbound messages, undecodable
    frames, ticks, routed replies, up to an error that ends it) the frames the session
    sends are numbered consecutively from its counter and carry that number on the
    wire; the durable counter of its key equals its own, also after an error; the
    key's resend log stays strictly ascending below the counter and gained exactly
    those frames, less the oldest; no other key's state changes; and what a run
    without resend requests returned for transmission is exactly those frames. *)
Theorem fix_session_numbering k es w r w' :
  session_inv k w → run_events es w = (r, w') →
  session_inv k w' ∧ (∀ k', k' ≠ k → kview k' w' = kview k' w) ∧
  ∃ l, so_seq <$> l = seqZ (mem_sender w) (Z.of_nat (length l)) ∧
    mem_sender w' = mem_sender w + Z.of_nat (length l) ∧
    Forall (λ e, carries (so_frame e) (so_seq e)) l ∧
    kv_log (kview k w') `suffix_of` kv_log (kview k w) ++ l ∧
    (∀ fs, r = Ok fs → existsb is_resend_event es = false → fs = so_frame <$> l).
Proof.
  intros Hi E. destruct (sends_run_events es _ _ _ E) as (l & Hs & Hq).
  split_and!; [by eapply sent_inv|..].
  - intros k' Hk'. apply (sent_frame _ _ _ Hs). destruct Hi as (-> & _). congruence.
  - exists l. split_and!.
    + apply (sent_seqs _ _ _ Hs).
    + apply (sent_next _ _ _ Hs).
    + apply (sent_carries _ _ _ Hs).
    + refine (sent_log _ _ _ Hs k _). apply Hi.
    + intros fs ->. exact Hq.
Qed.

(** ** Logon *)

Ltac run := unfold mbind, SM_bind, mret, SM_ret, fmap, SM_fmap, sm_get, sm_lift, sm_read,
  sm_modify, sm_store in *; cbn [fst snd ok_or map_err] in *.

(** The inbound side of the world: what sending leaves alone. *)
Definition mem_target (w : World) : Z := next_target_seq (sf_counters w.1).
Definition durable_target (k : SessionKey) (w : World) : Z :=
  next_target_seq (kv_counters (kview k w)).

Definition same_inbound (w w' : World) : Prop :=
  sf_phase w'.1 = sf_phase w.1 ∧ sf_account w'.1 = sf_account w.1 ∧
  sf_permissions w'.1 = sf_permissions w.1 ∧ mem_target w' = mem_target w ∧
  (∀ k, durable_target k w' = durable_target k w) ∧
  sf_awaiting_test_req_since_ms w'.1 = sf_awaiting_test_req_since_ms w.1 ∧
  sf_heart_bt_int_ms w'.1 = sf_heart_bt_int_ms w.1 ∧
  sf_last_inbound_ms w'.1 = sf_last_inbound_ms w.1 ∧ sf_key w'.1 = sf_key w.1.

Lemma same_inbound_refl w : same_inbound w w.
Proof. done. Qed.

Lemma same_inbound_trans w1 w2 w3 : same_inbound w1 w2 → same_inbound w2 w3 → same_inbound w1 w3.
Proof.
  unfold same_inbound. intros (?&?&?&?&Ht1&?&?&?&?) (?&?&?&?&Ht2&?&?&?&?).
  split_and!; congruence.
Qed.

Lemma emit_inbound now build w r w' : emit now build w = (r, w') → same_inbound w w'.
Proof.
  intros [(e & _ & ->)|(p & f & st & _ & _ & _ & _ & -> & Hst)]%emit_run; [done|].
  unfold same_inbound, mem_target, durable_target, kview. cbn. split_and!; try done.
  intros k. destruct (sf_key w.1) as [k'|]; [|by subst].
  apply advance_spec in Hst as [(l & _ & Hv) Ho].
  destruct (decide (k = k')) as [->|Hne]; [by rewrite Hv|by rewrite Ho].
Qed.

Lemma emit_one_inbound now build w r w' : emit_one now build w = (r, w') → same_inbound w w'.
Proof.
  unfold emit_one. run. destruct (emit now build w) as [[f|e] w1] eqn:E; intros [= <- <-];
    by eapply emit_inbound.
Qed.

(** The key a logon claims. *)
Definition logon_key (account : AccountId) (p : CompId * CompId) : SessionKey :=
  {| sk_account := account; sk_sender := p.2; sk_target := p.1 |}.

(** The counters a logon resumes from. *)
Definition resumed (reset : bool) (seq : Z) (c : SessionCounters) : SessionCounters :=
  if reset then {| next_sender_seq := 1; next_target_seq := 2 |}
  else if seq =? next_target_seq c then set_next_target (seq + 1) c else c.

Definition reveals_gap (reset : bool) (seq : Z) (c : SessionCounters) : bool :=
  negb reset && negb (seq =? next_target_seq c).

Lemma resume_run key stored reset seq now (w : World) r w' :
  resume_counters key stored reset seq now w = (r, w') →
  (∀ k', k' ≠ key → kview k' w' = kview k' w) ∧ w'.1 = w.1 ∧
  match r with
  | Ok (c, gap) =>
      c = resumed reset seq stored ∧
      gap = (if reveals_gap reset seq stored then Some (next_target_seq stored) else None) ∧
      kv_log (kview key w') = kv_log (kview key w)
  | Err _ => True
  end.
Proof.
  unfold resume_counters, resumed, reveals_gap. destruct reset; cbn [negb andb].
  - run. destruct (record_reset _ _ _ _) as [st|e] eqn:E; cbn; [|by intros [= <- <-]].
    apply reset_spec in E as [(rs & _ & _ & Hv) Ho]. intros [= <- <-]. split_and!; try done.
    unfold kview. cbn. by rewrite Hv.
  - destruct (seq =? next_target_seq stored); cbn [negb]; run; [|by intros [= <- <-]].
    destruct (checked_add u64 seq 1) as [n|] eqn:E; cbn; [|by intros [= <- <-]].
    unfold checked_add in E. apply narrow_Some in E as [-> _]. by intros [= <- <-].
Qed.

(** Sending the acknowledgement, and the resend request when there is a gap. *)
Definition logon_replies (now hb : Z) (reset : bool) (gap : option Z) : M Reaction :=
  ack ← emit now (λ header, encode_logon_ack header hb reset);
  match gap with
  | Some begin => resend ← emit_resend_request now begin; mret (reaction_emit [ack; resend])
  | None => mret (reaction_emit [ack])
  end.

Lemma sends_logon_replies now hb reset gap :
  sends (logon_replies now hb reset gap)
    (λ rx fs, rx = reaction_emit fs ∧ length fs = if gap then 2%nat else 1%nat).
Proof.
  unfold logon_replies. eapply sends_bind; [apply sends_emit, numbered_logon_ack|].
  intros ack fs ->. destruct gap as [b|]; [|by apply sends_ret].
  eapply sends_bind; [apply sends_emit, numbered_resend_request|]. intros f fs ->. by apply sends_ret.
Qed.

Lemma logon_replies_inbound now hb reset gap w r w' :
  logon_replies now hb reset gap w = (r, w') → same_inbound w w'.
Proof.
  unfold logon_replies. run.
  destruct (emit now _ w) as [[ack|e] w1] eqn:E; apply emit_inbound in E; [|by intros [= <- <-]].
  destruct gap as [b|]; [|by intros [= <- <-]].
  destruct (emit_resend_request now b w1) as [[f|e] w2] eqn:E2; apply emit_inbound in E2;
    intros [= <- <-]; by eapply same_inbound_trans.
Qed.

(** An admitted logon up to its replies: identity bound, counters resumed and stored. *)
Lemma admit_logon_run account perms epoch hb reset seq now (w : World) p r w' :
  both_comps w.1 = Some p →
  admit_logon account perms epoch hb reset seq now w = (r, w') →
  let key := logon_key account p in
  let c := kv_counters (kview key w) in
  (r = match r with Err e => Err e | Ok x => Ok x end) ∧
  if negb reset && (seq <? next_target_seq c) then
    w' = w ∧ is_ok r = false ∨ logout_close now "MsgSeqNum too low" w = (r, w')
  else
    (is_ok r = false ∧ ∀ k', k' ≠ key → kview k' w' = kview k' w) ∨
    ∃ w1, logon_replies now hb reset
        (if reveals_gap reset seq c then Some (next_target_seq c) else None) w1 = (r, w') ∧
      sf_key w1.1 = Some key ∧ sf_account w1.1 = Some account ∧ sf_permissions w1.1 = perms ∧
      sf_phase w1.1 = (if reveals_gap reset seq c then AwaitingResend else ActivePhase) ∧
      sf_counters w1.1 = resumed reset seq c ∧ kv_counters (kview key w1) = resumed reset seq c ∧
      kv_log (kview key w1) = kv_log (kview key w) ∧
      (∀ k', k' ≠ key → kview k' w1 = kview k' w).
Proof.
  intros Hp E key c. split; [by destruct r|]. revert E. unfold admit_logon.
  change (mbind ?k peer w) with
    (match peer w with (Ok a, w) => k a w | (Err e, w) => (Err e, w) end).
  destruct (peer_run w) as [(p' & -> & Hp')|[_ Hn]]; [|congruence].
  rewrite Hp in Hp'. injection Hp' as <-. destruct p as [sender target].
  change {| sk_account := account; sk_sender := target; sk_target := sender |} with key.
  unfold mbind at 1, SM_bind at 1. unfold sm_read.
  destruct (load_counters w.2 key) as [stored|e] eqn:Hl; cbn [map_err].
  2: { intros [= <- <-]. destruct (_ && _); left; done. }
  apply load_spec in Hl as ->. change (kv_counters (view w.2 key)) with c.
  destruct (negb reset && (seq <? next_target_seq c)) eqn:Hlow; [by right|].
  unfold mbind at 1, SM_bind at 1. unfold sm_modify at 1. cbn [fst snd].
  unfold mbind at 1, SM_bind at 1.
  destruct (resume_counters _ _ _ _ _ _) as [[[c' gap]|e] w2] eqn:Hr;
    apply resume_run in Hr as (Ho & Hf & Hc).
  2: { intros [= <- <-]. left. split; [done|]. intros k' Hk'. by rewrite Ho. }
  destruct Hc as (-> & -> & Hlog).
  unfold mbind at 1, SM_bind at 1. unfold sm_modify at 1. cbn [fst snd].
  unfold mbind at 1, SM_bind at 1. unfold sm_store at 1. cbn [fst snd].
  destruct (save_counters _ _ _) as [st|e] eqn:Hs.
  2: { intros [= <- <-]. left. split; [done|]. intros k' Hk'. by apply Ho. }
  apply save_spec in Hs as [Hv Hso].
  unfold mbind at 1, SM_bind at 1. unfold sm_modify at 1. cbn [fst snd].
  intros E. right. eexists. split; [exact E|]. rewrite Hf. cbn.
  split_and!; try done.
  - by destruct (reveals_gap reset seq c).
  - unfold kview. cbn. by rewrite Hv.
  - unfold kview. cbn. rewrite Hv. exact Hlog.
  - intros k' Hk'. unfold kview. cbn. rewrite Hso by done. by apply Ho.
Qed.

(** The logon contract: a logon never lowers the durable inbound expectation of
    its key unless it carries the reset flag, and touches no other key. A sequence
    number below the stored expectation is answered by a logout and a close, and the
    store, in full, stays as it was. The expected number advances the expectation by
    one and activates the session; a higher one leaves the expectation in place, sends
    a resend request after the acknowledgement and waits for it; the reset flag
    restarts at outbound one and inbound two. The replies are numbered from the
    resumed counter, and memory and store agree on both counters afterwards. *)
Theorem logon_contract account perms epoch hb reset seq now w p r w' :
  both_comps w.1 = Some p → sf_key w.1 = None →
  admit_logon account perms epoch hb reset seq now w = (r, w') →
  let key := logon_key account p in
  let c := kv_counters (kview key w) in
  (∀ k', k' ≠ key → kview k' w' = kview k' w) ∧
  (reset = false → seq < next_target_seq c →
     w'.2 = w.2 ∧ sf_key w'.1 = None ∧
     ∀ rx, r = Ok rx → sf_phase w'.1 = Closing ∧ rx_control rx = Close) ∧
  (reset = true ∨ next_target_seq c ≤ seq → ∀ rx, r = Ok rx →
     let c' := resumed reset seq c in
     let n := if reveals_gap reset seq c then 2 else 1 in
     sf_key w'.1 = Some key ∧ sf_account w'.1 = Some account ∧ sf_permissions w'.1 = perms ∧
     sf_phase w'.1 = (if reveals_gap reset seq c then AwaitingResend else ActivePhase) ∧
     mem_target w' = next_target_seq c' ∧ durable_target key w' = next_target_seq c' ∧
     mem_sender w' = next_sender_seq c' + n ∧ durable_sender key w' = mem_sender w' ∧
     rx_control rx = Continue ∧
     Forall2 carries (rx_frames rx) (seqZ (next_sender_seq c') n) ∧
     (reset = false → next_target_seq c ≤ durable_target key w') ∧
     (reset = false → log_ok (kview key w) → session_inv key w')).
Proof.
  intros Hp Hnk E key c. destruct (admit_logon_run _ _ _ _ _ _ _ _ _ _ _ Hp E) as [_ Hrun].
  fold key c in Hrun. destruct (negb reset && (seq <? next_target_seq c)) eqn:Hlow.
  - apply andb_true_iff in Hlow as [->%negb_true_iff Hlow%Z.ltb_lt].
    assert (w'.2 = w.2 ∧ sf_key w'.1 = None ∧
      ∀ rx, r = Ok rx → sf_phase w'.1 = Closing ∧ rx_control rx = Close) as (Hw & Hk & Hrx).
    { destruct Hrun as [[-> Hr]|Hrun]; [split_and!; try done; by intros rx ->|].
      unfold logout_close in Hrun. run.
      destruct (emit now _ _) as [[f|e] w1] eqn:Ee; injection Hrun as <- <-;
        pose proof Ee as (Hph & _ & _ & _ & _ & _ & _ & _ & Hkey)%emit_inbound;
        apply emit_run in Ee as [(e' & [=] & ->)|(p' & f' & st & [=] & _ & _ & _ & -> & Hst)];
        cbn in *; rewrite ?Hnk in *; try subst;
        (split_and!; [done|done|]; intros rx [=]; by subst). }
    split_and!; [intros k' _; unfold kview; by rewrite Hw|done|]. intros [?|?]; [done|lia].
  - destruct Hrun as [[Hr Ho]|(w1 & Er & Hk & Ha & Hpm & Hph & Hc & Hd & Hlog & Ho)].
    { split_and!; [done| |intros _ rx ->; done].
      intros -> Hlt. apply Z.ltb_lt in Hlt. cbn in Hlow. congruence. }
    pose proof (sends_logon_replies _ _ _ _ _ _ _ Er) as (l & Hs & Hq).
    pose proof (logon_replies_inbound _ _ _ _ _ _ _ Er) as (Sp & Sa & Spm & St & Sd & _ & _ & _ & Sk).
    split_and!.
    + intros k' Hk'. rewrite (sent_frame _ _ _ Hs) by congruence. by apply Ho.
    + intros -> Hlt. apply Z.ltb_lt in Hlt. cbn in Hlow. congruence.
    + intros Hge rx ->. cbv zeta. destruct Hq as [-> Hlen]. rewrite length_fmap in Hlen.
      assert (mem_sender w1 = next_sender_seq (resumed reset seq c)) as Hm
        by (unfold mem_sender; by rewrite Hc).
      assert (Z.of_nat (length l) = if reveals_gap reset seq c then 2 else 1) as Hn
        by (rewrite Hlen; by destruct (reveals_gap reset seq c)).
      assert (durable_sender key w1 = mem_sender w1) as Hds
        by (unfold durable_sender, mem_sender; congruence).
      rewrite <-Hn. split_and!; [congruence|congruence|congruence|congruence|..].
      * rewrite St. unfold mem_target. by rewrite Hc.
      * rewrite Sd. unfold durable_target. by rewrite Hd.
      * rewrite (sent_next _ _ _ Hs). by rewrite Hm.
      * by apply (sent_durable _ _ _ Hs).
      * done.
      * rewrite <-Hm, <-(sent_seqs _ _ _ Hs). cbn. apply Forall2_fmap, Forall_Forall2_diag.
        apply (sent_carries _ _ _ Hs).
      * intros ->. rewrite Sd. unfold durable_target. rewrite Hd. unfold resumed.
        destruct (Z.eqb_spec seq (next_target_seq c)); cbn; lia.
      * intros -> Hlo. eapply sent_inv; [exact Hs|]. split_and!; [done|done|].
        destruct Hlo as [Hl1 Hl2]. unfold log_ok. rewrite Hlog, Hd. split; [done|].
        unfold resumed. destruct (seq =? next_target_seq c); exact Hl2.
Qed.

(** ** Resend *)

Inductive resend_item :=
  | Replay (e : StoredOutbound)
  | GapFill (from to_ : Z).

(** The items cover the numbers from [seq] to [upper], each exactly once, in order. *)
Fixpoint tiles (seq upper : Z) (items : list resend_item) : Prop :=
  match items with
  | [] => upper < seq
  | Replay e :: items => so_seq e = seq ∧ seq ≤ upper ∧ tiles (seq + 1) upper items
  | GapFill a b :: items => a = seq ∧ a < b ≤ upper + 1 ∧ tiles b upper items
  end.

Definition replays (items : list resend_item) : list StoredOutbound :=
  omap (λ i, match i with Replay e => Some e | GapFill _ _ => None end) items.

Definition item_frame (p : CompId * CompId) (now : Z) (i : resend_item) :
    result FixEncodeError string :=
  match i with Replay e => Ok (so_frame e) | GapFill a b => gap_fill_frame p a b now end.

(** The loop's fuel is enough for any cursor, sorted or not. *)
Lemma resend_loop_total fuel p upper now seq cursor :
  (2 * length cursor + (match cursor with e :: _ => if (so_seq e =? seq)%Z then 1 else 2 | [] => 2 end)
     ≤ fuel)%nat →
  resend_loop fuel p upper now seq cursor ≠ None.
Proof.
  revert seq cursor. induction fuel as [|fuel IH]; intros seq cursor Hf.
  { destruct cursor as [|e cursor]; [|destruct (so_seq e =? seq)]; cbn in Hf; lia. }
  cbn [resend_loop]. destruct (upper <? seq) eqn:Hu; [done|].
  destruct cursor as [|e cursor].
  - destruct (checked_add u64 upper 1) as [g|] eqn:Hg; [|done].
    apply narrow_Some in Hg as [-> _]. destruct p as [p|]; [|done].
    destruct (gap_fill_frame _ _ _ _); [|done]. destruct fuel as [|fuel]; [cbn in Hf; lia|].
    cbn [resend_loop]. by rewrite (proj2 (Z.ltb_lt _ _)) by lia.
  - destruct (so_seq e =? seq) eqn:He.
    + destruct (checked_add u64 seq 1) as [n|]; [|done].
      specialize (IH n cursor). destruct (resend_loop _ _ _ _ n cursor); [done|].
      exfalso. apply IH; [|done]. cbn [length] in Hf.
      destruct cursor as [|e' cursor]; [|destruct (so_seq e' =? n)]; cbn [length] in *; lia.
    + destruct (so_seq e <=? upper) eqn:Hle.
      * destruct p as [p|]; [|done]. destruct (gap_fill_frame _ _ _ _); [|done].
        specialize (IH (so_seq e) (e :: cursor)).
        destruct (resend_loop _ _ _ _ (so_seq e) (e :: cursor)); [done|].
        exfalso. apply IH; [|done]. rewrite Z.eqb_refl. lia.
      * destruct (checked_add u64 upper 1) as [g|] eqn:Hg; [|done].
        apply narrow_Some in Hg as [-> _]. destruct p as [p|]; [|done].
        destruct (gap_fill_frame _ _ _ _); [|done]. destruct fuel as [|fuel]; [cbn in Hf; lia|].
        cbn [resend_loop]. by rewrite (proj2 (Z.ltb_lt _ _)) by lia.
Qed.

(** On an ascending cursor within the range the loop tiles it. *)
Lemma resend_loop_spec fuel p upper now seq cursor r :
  upper < int_max u64 → 0 ≤ seq →
  StronglySorted (λ a b, so_seq a < so_seq b) cursor →
  Forall (λ e, seq ≤ so_seq e ≤ upper) cursor →
  resend_loop fuel (Some p) upper now seq cursor = Some r →
  match r with
  | Ok frames => ∃ items, Forall2 (λ i f, item_frame p now i = Ok f) items frames ∧
      tiles seq upper items ∧ replays items = cursor
  | Err e => ∃ e', e = EncodeError e'
  end.
Proof.
  intros Hup. revert seq cursor r. induction fuel as [|fuel IH]; intros seq cursor r Hseq Hs Hc E; [done|].
  cbn [resend_loop] in E. destruct (Z.ltb_spec upper seq) as [Hu|Hu].
  { injection E as <-. exists []. split_and!; [constructor|done|].
    destruct Hc as [|e cursor He]; [done|lia]. }
  assert (∀ b, seq < b → b ≤ upper + 1 → Forall (λ e, b ≤ so_seq e ≤ upper) cursor →
    match gap_fill_frame p seq b now with
    | Err e => Some (Err (EncodeError e))
    | Ok frame => r ← resend_loop fuel (Some p) upper now b cursor; Some (push_frame frame r)
    end = Some r →
    match r with
    | Ok frames => ∃ items, Forall2 (λ i f, item_frame p now i = Ok f) items frames ∧
        tiles seq upper items ∧ replays items = cursor
    | Err e => ∃ e', e = EncodeError e'
    end) as Hgap.
  { intros b Hb Hbu Hcb Eb. destruct (gap_fill_frame p seq b now) as [frame|e] eqn:Hg;
      [|injection Eb as <-; by eexists].
    destruct (resend_loop _ _ _ _ b cursor) as [r'|] eqn:El; [|done]. injection Eb as <-.
    apply IH in El; [|lia|done|done]. destruct r' as [frames|e]; cbn; [|exact El].
    destruct El as (items & Hi & Ht & Hr). exists (GapFill seq b :: items).
    split_and!; [by constructor|cbn; auto with lia|done]. }
  destruct cursor as [|e cursor].
  { unfold checked_add in E. rewrite (narrow_fits u64 (upper + 1)) in E by (unfold_int; lia).
    by apply (Hgap (upper + 1)); [lia|lia| |]. }
  apply StronglySorted_inv in Hs as [Hs Hes]. apply Forall_cons in Hc as [He Hc].
  destruct (Z.eqb_spec (so_seq e) seq) as [Heq|Hne].
  - unfold checked_add in E. rewrite (narrow_fits u64 (seq + 1)) in E by (unfold_int; lia).
    destruct (resend_loop _ _ _ _ (seq + 1) cursor) as [r'|] eqn:El; [|done]. injection E as <-.
    apply IH in El; [|lia|done|].
    + destruct r' as [frames|e']; cbn; [|exact El]. destruct El as (items & Hi & Ht & Hr).
      exists (Replay e :: items). split_and!; [by constructor|done|].
      unfold replays in *. cbn. by rewrite Hr.
    + rewrite Forall_forall in Hc, Hes |- *. intros x Hx. specialize (Hc x Hx). specialize (Hes x Hx).
      lia.
  - rewrite (proj2 (Z.leb_le _ _)) in E by lia. apply (Hgap (so_seq e)); [lia|lia| |done].
    constructor; [lia|]. rewrite Forall_forall in Hc, Hes |- *. intros x Hx.
    specialize (Hc x Hx). specialize (Hes x Hx). lia.
Qed.

Lemma filter_ext_in {A} (P Q : A → Prop) `{∀ x, Decision (P x)} `{∀ x, Decision (Q x)} (l : list A) :
  (∀ x, x ∈ l → P x ↔ Q x) → filter P l = filter Q l.
Proof.
  induction l as [|x l IH]; intros Hpq; [done|]. rewrite !filter_cons.
  rewrite IH by (intros; apply Hpq; by right). specialize (Hpq x ltac:(by left)).
  repeat case_decide; tauto.
Qed.

Lemma sorted_filter_eq (P : StoredOutbound → Prop) `{∀ x, Decision (P x)} l log :
  StronglySorted (λ a b, so_seq a < so_seq b) log → log_sorted l → l ≡ₚ filter P log →
  l = filter P log.
Proof.
  intros Hlog Hl Hp.
  assert (StronglySorted (λ a b, so_seq a < so_seq b) (filter P log)) as Hf.
  { eapply StronglySorted_sublist; [apply sublist_filter|done]. }
  apply (StronglySorted_unique_strong (λ a b, (so_seq a <=? so_seq b) = true)); [|done| |done].
  - intros x y Hx Hy H1' H2'. apply Z.leb_le in H1', H2'. rewrite Hp in Hx.
    clear -Hf Hx Hy H1' H2'. induction Hf as [|z l Hl IH Hz]; [by apply not_elem_of_nil in Hx|].
    rewrite Forall_forall in Hz.
    apply elem_of_cons in Hx as [->|Hx], Hy as [->|Hy]; [done|..|auto].
    + specialize (Hz _ Hy). lia.
    + specialize (Hz _ Hx). lia.
  - clear -Hf. induction Hf as [|z l Hl IH Hz]; constructor; [done|].
    eapply Forall_impl; [exact Hz|]. cbn. intros x ?. apply Z.leb_le. lia.
Qed.


(** ** Inbound order *)

(** What replying leaves alone: the inbound counters and the bound identity. *)
Definition keeps (w w' : World) : Prop :=
  mem_target w' = mem_target w ∧ (∀ k, durable_target k w' = durable_target k w) ∧
  sf_key w'.1 = sf_key w.1 ∧ sf_account w'.1 = sf_account w.1 ∧
  sf_permissions w'.1 = sf_permissions w.1.

Lemma keeps_refl w : keeps w w.
Proof. done. Qed.

Lemma keeps_trans w1 w2 w3 : keeps w1 w2 → keeps w2 w3 → keeps w1 w3.
Proof. unfold keeps. intros (?&?&?&?&?) (?&?&?&?&?). split_and!; congruence. Qed.

Definition handler_keeps {A} (m : M A) : Prop := ∀ w r w', m w = (r, w') → keeps w w'.

Lemma keeps_ret {A} (a : A) : handler_keeps (mret a).
Proof. by intros w r w' [= <- <-]. Qed.

Lemma keeps_bind {A B} (m : M A) (k : A → M B) :
  handler_keeps m → (∀ a, handler_keeps (k a)) → handler_keeps (m ≫= k).
Proof.
  intros Hm Hk w r w'. unfold mbind, SM_bind. destruct (m w) as [[a|e] w1] eqn:E.
  - intros E2. eapply keeps_trans; [by eapply Hm|by eapply Hk].
  - intros [= <- <-]. by eapply Hm.
Qed.

Lemma keeps_get : handler_keeps sm_get.
Proof. by intros w r w' [= <- <-]. Qed.

Lemma keeps_emit_one now build : handler_keeps (emit_one now build).
Proof.
  intros w r w' E. apply emit_one_inbound in E as (_ & Ha & Hp & Ht & Hd & _ & _ & _ & Hk).
  done.
Qed.

Lemma keeps_emit now build : handler_keeps (emit now build).
Proof.
  intros w r w' E. apply emit_inbound in E as (_ & Ha & Hp & Ht & Hd & _ & _ & _ & Hk). done.
Qed.

Lemma keeps_phase p : handler_keeps (sm_modify (set_phase p)).
Proof. by intros w r w' [= <- <-]. Qed.

Lemma keeps_on_inbound h now : handler_keeps (on_inbound h now).
Proof. by intros w r w' [= <- <-]. Qed.

Lemma keeps_end_resend : handler_keeps end_resend.
Proof.
  unfold end_resend. apply keeps_bind; [apply keeps_get|]. intros s.
  case_match; [apply keeps_phase|apply keeps_ret].
Qed.

Lemma keeps_session_reject now reason tag : handler_keeps (session_reject now reason tag).
Proof. apply keeps_bind; [apply keeps_get|]. intros s. apply keeps_emit_one. Qed.

Lemma keeps_permission_reject m now : handler_keeps (permission_reject m now).
Proof.
  destruct m; cbn [permission_reject]; try apply keeps_ret; try apply keeps_emit_one.
  unfold emit_order_rejected_code. apply keeps_bind; [apply keeps_get|]. intros s.
  apply keeps_emit_one.
Qed.

Lemma keeps_serve_resend rr now : handler_keeps (serve_resend rr now).
Proof.
  unfold serve_resend. apply keeps_bind; [apply keeps_get|]. intros s.
  repeat (apply keeps_bind; [by intros w r w' [= <- <-]|intros ?]). apply keeps_ret.
Qed.

Lemma keeps_dispatch m now : handler_keeps (dispatch_active_body m now).
Proof.
  destruct m; cbn [dispatch_active_body]; try apply keeps_ret; try apply keeps_session_reject;
    try apply keeps_emit_one; try apply keeps_serve_resend.
  apply keeps_bind; [apply keeps_phase|]. intros _.
  apply keeps_bind; [apply keeps_emit|]. intros f. apply keeps_ret.
Qed.

(** Consuming a message moves the expectation by one, durably or in memory only. *)
Definition consumed (durable : bool) (w w' : World) : Prop :=
  mem_target w' = mem_target w + 1 ∧ sf_key w'.1 = sf_key w.1 ∧
  sf_account w'.1 = sf_account w.1 ∧ sf_permissions w'.1 = sf_permissions w.1 ∧
  (∀ k, sf_key w.1 = Some k →
     durable_target k w' = if durable then mem_target w + 1 else durable_target k w).

Lemma bump_target_run w u w' :
  bump_target w = (Ok u, w') →
  w' = (set_counters (set_next_target (mem_target w + 1) (sf_counters w.1)) w.1, w.2).
Proof.
  unfold bump_target. run. destruct (checked_add u64 _ 1) as [n|] eqn:E; cbn; [|done].
  apply narrow_Some in E as [-> _]. by intros [= _ <-].
Qed.

Lemma consumed_keeps d w w1 w2 : consumed d w w1 → keeps w1 w2 → consumed d w w2.
Proof.
  unfold consumed, keeps. intros (Ht & Hk & Ha & Hp & Hd) (Kt & Kd & Kk & Ka & Kp).
  split_and!; [congruence..|]. intros k Hs. rewrite Kd. auto.
Qed.

Lemma keeps_consumed d w w1 w2 : keeps w w1 → consumed d w1 w2 → consumed d w w2.
Proof.
  unfold consumed, keeps. intros (Kt & Kd & Kk & Ka & Kp) (Ht & Hk & Ha & Hp & Hd).
  split_and!; [congruence..|]. intros k Hs. rewrite Hd by congruence. rewrite Kt, Kd. done.
Qed.

Lemma advance_in_memory_run w u w' : advance_inbound_in_memory w = (Ok u, w') → consumed false w w'.
Proof.
  unfold advance_inbound_in_memory, mbind, SM_bind.
  destruct (bump_target w) as [[u'|e] w1] eqn:E; [|done]. apply bump_target_run in E as ->.
  intros E. eapply consumed_keeps; [|by eapply keeps_end_resend]. done.
Qed.

Lemma consume_inbound_run w u w' : consume_inbound w = (Ok u, w') → consumed true w w'.
Proof.
  unfold consume_inbound, advance_inbound, mbind, SM_bind.
  destruct (bump_target w) as [[u'|e] w1] eqn:E; [|done]. apply bump_target_run in E as ->.
  destruct (persist_counters _) as [[u''|e] w2] eqn:E2; [|done].
  intros E. apply (consumed_keeps true w w2 w'); [|by eapply keeps_end_resend]. clear E. revert E2.
  unfold persist_counters. run. cbn. destruct (sf_key w.1) as [k|] eqn:Hk; cbn.
  - destruct (save_counters _ _ _) as [st|e] eqn:Hs; intros [= _ <-].
    apply save_spec in Hs as [Hv _]. unfold consumed, durable_target, kview. cbn. rewrite Hk.
    split_and!; try done. intros k' [= <-]. by rewrite Hv.
  - intros [= _ <-]. unfold consumed. cbn. rewrite Hk. split_and!; try done.
Qed.

(** The gate lets a message through to the exchange. *)
Definition admissible (s : SessionFsm) (m : DecodedMessage) : bool :=
  is_application_message m && has_permission s (required_permission m) &&
  negb (names_other_account s m).

Definition not_reset (m : DecodedMessage) : bool :=
  match m with DSequenceReset _ => false | _ => true end.

Lemma gate_run m now w d w' :
  gate_application m now w = (Ok d, w') →
  if has_permission w.1 (required_permission m) && negb (names_other_account w.1 m)
  then d = Route m ∧ consumed (negb (is_order_entry_mutation m)) w w'
  else (∃ rx, d = Reacted rx) ∧ consumed true w w'.
Proof.
  unfold gate_application. unfold mbind at 1, SM_bind at 1, sm_get. cbn [fst].
  destruct (has_permission _ _); cbn [negb andb].
  - destruct (names_other_account _ _); cbn [negb].
    + unfold mbind, SM_bind.
      destruct (session_reject _ _ _ w) as [[rx|e] w1] eqn:E1; [|done].
      destruct (consume_inbound w1) as [[u|e] w2] eqn:E2; [|done]. intros [= <- <-].
      split; [by eexists|]. eapply keeps_consumed; [by eapply keeps_session_reject|].
      by eapply consume_inbound_run.
    + unfold mbind, SM_bind. destruct (is_order_entry_mutation m); cbn [negb].
      * destruct (advance_inbound_in_memory w) as [[u|e] w1] eqn:E1; [|done].
        intros [= <- <-]. split; [done|]. by eapply advance_in_memory_run.
      * destruct (consume_inbound w) as [[u|e] w1] eqn:E1; [|done].
        intros [= <- <-]. split; [done|]. by eapply consume_inbound_run.
  - unfold mbind, SM_bind.
    destruct (permission_reject _ _ w) as [[rx|e] w1] eqn:E1; [|done].
    destruct (consume_inbound w1) as [[u|e] w2] eqn:E2; [|done]. intros [= <- <-].
    split; [by eexists|]. eapply keeps_consumed; [by eapply keeps_permission_reject|].
    by eapply consume_inbound_run.
Qed.

(** One inbound message of an admitted, unrevoked session. *)
Definition ordered_step (m : DecodedMessage) (w : World) (d : ActiveDisposition) (w' : World) :
    Prop :=
  let n := msg_seq_num (header_of m) in
  if mem_target w <? n then
    (∃ f, d = Reacted (reaction_emit [f])) ∧ keeps w w' ∧ sf_phase w'.1 = AwaitingResend
  else if n <? mem_target w then
    d = Reacted reaction_cont ∧ keeps w w' ∧ w'.2 = w.2
  else if admissible w.1 m then d = Route m ∧ consumed (negb (is_order_entry_mutation m)) w w'
  else (∃ rx, d = Reacted rx) ∧ consumed true w w'.

Lemma handle_active_step m now w d w' :
  not_reset m = true → handle_active m now false w = (Ok d, w') → ordered_step m w d w'.
Proof.
  intros Hm. unfold handle_active. unfold mbind at 1, SM_bind at 1, on_inbound at 1, sm_modify at 1.
  cbn [fst snd]. set (w0 := (set_peer _ _ _ w.1, w.2)).
  assert (keeps w w0) as Hk0 by done.
  assert (admissible w0.1 m = admissible w.1 m) as Hadm by done.
  assert (mem_target w0 = mem_target w) as Ht by done.
  assert (∀ d w', (s ← sm_get;
    let expected := next_target_seq (sf_counters s) in
    if expected <? msg_seq_num (header_of m) then
      _ ← sm_modify (set_phase AwaitingResend);
      frame ← emit_resend_request now expected;
      mret (Reacted (reaction_emit [frame]))
    else if msg_seq_num (header_of m) <? expected then mret (Reacted reaction_cont)
    else if is_application_message m then gate_application m now
    else
      reaction ← dispatch_active_body m now;
      _ ← consume_inbound;
      mret (Reacted reaction)) w0 = (Ok d, w') → ordered_step m w d w') as Hrest.
  { clear d w'. intros d w'. unfold mbind at 1, SM_bind at 1, sm_get. cbn [fst]. cbv zeta.
    change (next_target_seq (sf_counters w0.1)) with (mem_target w).
    unfold ordered_step. destruct (mem_target w <? msg_seq_num (header_of m)).
    { unfold mbind, SM_bind, sm_modify. cbn [fst snd].
      destruct (emit_resend_request _ _ _) as [[f|e] w1] eqn:E; [|done]. intros [= <- <-].
      apply emit_inbound in E as (Hp & Ha & Hpm & Htt & Hd & _ & _ & _ & Hk).
      split_and!; [by eexists|done|done]. }
    destruct (msg_seq_num (header_of m) <? mem_target w); [by intros [= <- <-]|].
    rewrite <-Hadm. unfold admissible. destruct (is_application_message m) eqn:Ha; cbn [andb].
    - intros E. apply gate_run in E. destruct (_ && _).
      + destruct E as [-> Hc]. split; [done|]. by eapply keeps_consumed.
      + destruct E as [Hrx Hc]. split; [done|]. by eapply keeps_consumed.
    - unfold mbind, SM_bind.
      destruct (dispatch_active_body m now w0) as [[rx|e] w1] eqn:E1; [|done].
      destruct (consume_inbound w1) as [[u|e] w2] eqn:E2; [|done]. intros [= <- <-].
      split; [by eexists|]. eapply keeps_consumed; [exact Hk0|].
      eapply keeps_consumed; [by eapply keeps_dispatch|]. by eapply consume_inbound_run. }
  destruct m; try exact (Hrest d w'). done.
Qed.

(** A run of inbound messages; the result is what reached the exchange. *)
Fixpoint run_inbound (ms : list (DecodedMessage * Z)) : M (list DecodedMessage) :=
  match ms with
  | [] => mret []
  | (m, now) :: ms =>
      d ← handle_active m now false;
      rest ← run_inbound ms;
      mret (match d with Route m => [m] | Reacted _ => [] end ++ rest)
  end.

(** The numbers a run consumes: the expectation at the start and those after it. *)
Lemma run_inbound_spec ms w routed w' :
  Forall (λ m, not_reset m.1 = true) ms → run_inbound ms w = (Ok routed, w') →
  mem_target w ≤ mem_target w' ∧ routed `sublist_of` ms.*1 ∧
  StronglySorted (λ a b, msg_seq_num (header_of a) < msg_seq_num (header_of b)) routed ∧
  Forall (λ m, mem_target w ≤ msg_seq_num (header_of m) < mem_target w' ∧
               admissible w.1 m = true) routed ∧
  (sf_account w'.1 = sf_account w.1 ∧ sf_permissions w'.1 = sf_permissions w.1).
Proof.
  intros Hms. revert w routed w'. induction Hms as [|[m now] ms Hm Hms IH]; intros w routed w'.
  { intros [= <- <-]. split_and!; try done; constructor. }
  cbn [run_inbound fst] in *. unfold mbind, SM_bind.
  destruct (handle_active m now false w) as [[d|e] w1] eqn:E1; [|done].
  destruct (run_inbound ms w1) as [[rest|e] w2] eqn:E2; [|done]. intros [= <- <-].
  apply handle_active_step in E1; [|done]. apply IH in E2 as (Hle & Hsub & Hsort & Hall & Ha2 & Hp2).
  assert (mem_target w ≤ mem_target w1 ∧ sf_account w1.1 = sf_account w.1 ∧
    sf_permissions w1.1 = sf_permissions w.1 ∧
    ((∃ rx, d = Reacted rx) ∨ d = Route m ∧ msg_seq_num (header_of m) = mem_target w ∧
       mem_target w1 = mem_target w + 1 ∧ admissible w.1 m = true)) as (Hle1 & Ha1 & Hp1 & Hd).
  { unfold ordered_step in E1.
    destruct (Z.ltb_spec (mem_target w) (msg_seq_num (header_of m))).
    { destruct E1 as ([f ->] & (Kt & _ & _ & Ka & Kp) & _). split_and!; [lia|done|done|].
      left. by eexists. }
    destruct (Z.ltb_spec (msg_seq_num (header_of m)) (mem_target w)).
    { destruct E1 as (-> & (Kt & _ & _ & Ka & Kp) & _). split_and!; [lia|done|done|].
      left. by eexists. }
    destruct (admissible w.1 m); destruct E1 as (Hd & Ht & _ & Ka & Kp & _);
      (split_and!; [lia|done|done|]); [right|by left]. split_and!; [done|lia|done|done]. }
  assert (∀ m', admissible w1.1 m' = admissible w.1 m') as Hadm.
  { intros m'. unfold admissible, has_permission, names_other_account. by rewrite Ha1, Hp1. }
  assert (Forall (λ x, mem_target w1 ≤ msg_seq_num (header_of x) < mem_target w2 ∧
    admissible w.1 x = true) rest) as Hall1.
  { eapply Forall_impl; [exact Hall|]. intros x [? Hx]. by rewrite <-Hadm. }
  destruct Hd as [[rx ->]|(-> & Hn & Ht & Hx)]; cbn [app].
  - split_and!; [lia|by constructor|done| |congruence|congruence].
    eapply Forall_impl; [exact Hall1|]. intros x [? ?]. split; [lia|done].
  - split_and!; [lia|by constructor| | |congruence|congruence].
    + constructor; [done|]. eapply Forall_impl; [exact Hall1|]. intros x [? _]. lia.
    + constructor; [split; [lia|done]|].
      eapply Forall_impl; [exact Hall1|]. intros x [? ?]. split; [lia|done].
Qed.

(** Inbound messages reach the exchange in order, at most once, and only when
    permitted. One message: above the expected number it is not consumed and a resend
    is requested; below it, it is ignored and nothing is written; at the expected
    number it is consumed, and it is routed exactly when it is an application message
    whose permission the session holds and which names no other account — with the
    durable expectation left behind for an order-entry mutation until its effect is
    committed. Over a run without sequence resets the routed messages are a
    subsequence of the inbound ones with strictly increasing numbers, all within what
    the run consumed. *)
Theorem inbound_in_order w :
  (∀ m now d w', not_reset m = true → handle_active m now false w = (Ok d, w') →
     ordered_step m w d w') ∧
  (∀ ms routed w', Forall (λ m, not_reset m.1 = true) ms → run_inbound ms w = (Ok routed, w') →
     mem_target w ≤ mem_target w' ∧ routed `sublist_of` ms.*1 ∧
     StronglySorted (λ a b, msg_seq_num (header_of a) < msg_seq_num (header_of b)) routed ∧
     Forall (λ m, mem_target w ≤ msg_seq_num (header_of m) < mem_target w' ∧
                  admissible w.1 m = true) routed).
Proof.
  split.
  - intros. by eapply handle_active_step.
  - intros ms routed w' Hms E. destruct (run_inbound_spec ms w routed w' Hms E)
      as (? & ? & ? & ? & _). done.
Qed.

(** ** The tick *)

Definition live (p : SessionPhase) : Prop := p = ActivePhase ∨ p = AwaitingResend.

Lemma tick_heartbeat_inbound now w fs w' :
  tick_heartbeat now w = (Ok fs, w') → same_inbound w w'.
Proof.
  unfold tick_heartbeat. run. destruct (_ <=? _); [|by intros [= <- <-]].
  destruct (emit now _ w) as [[f|e] w1] eqn:E; intros [= <- <-]. by eapply emit_inbound.
Qed.

Lemma on_tick_live now w r w' :
  live (sf_phase w.1) → sf_heart_bt_int_ms w.1 ≠ 0 → on_tick now false w = (Ok r, w') →
  ∃ fs w1, same_inbound w w1 ∧ tick_liveness fs now w1 = (Ok r, w').
Proof.
  intros Hp Hh. unfold on_tick. unfold mbind at 1, SM_bind at 1, sm_get. cbn [fst].
  assert ((match sf_phase w.1 with
    | AwaitingLogon => false | ActivePhase => true | AwaitingResend => true | Closing => false end)
    = true) as Hph by (by destruct Hp as [-> | ->]).
  rewrite (proj2 (Z.eqb_neq _ _) Hh). unfold mbind, SM_bind.
  destruct (sf_phase w.1); try done;
    (destruct (tick_heartbeat now w) as [[fs|e] w1] eqn:E; [|done]; intros E2;
     exists fs, w1; split; [by eapply tick_heartbeat_inbound|done]).
Qed.

Lemma tick_close fs now w r w' since :
  sf_awaiting_test_req_since_ms w.1 = Some since → sf_heart_bt_int_ms w.1 ≤ now - since →
  tick_liveness fs now w = (Ok r, w') → rx_control r = Close ∧ sf_phase w'.1 = Closing.
Proof.
  intros Hs Hh. unfold tick_liveness. unfold mbind at 1, SM_bind at 1, sm_get. cbn [fst]. rewrite Hs.
  rewrite (proj2 (Z.leb_le _ _)) by (unfold saturating_sub; lia). unfold mbind, SM_bind.
  destruct (logout_close _ _ w) as [[rx|e] w1] eqn:E; [|done]. intros [= <- <-]. split; [done|].
  revert E. unfold logout_close. run.
  destruct (emit now _ _) as [[f|e] w2] eqn:E; intros [= <- <-].
  by apply emit_inbound in E as (Hp & _).
Qed.

Lemma tick_probe fs now w r w' :
  sf_awaiting_test_req_since_ms w.1 = None → 0 < sf_heart_bt_int_ms w.1 →
  tick_liveness fs now w = (Ok r, w') →
  rx_control r = Continue ∧ sf_phase w'.1 = sf_phase w.1 ∧
  sf_heart_bt_int_ms w'.1 = sf_heart_bt_int_ms w.1 ∧
  sf_awaiting_test_req_since_ms w'.1 =
    (if sf_heart_bt_int_ms w.1 <=? now - sf_last_inbound_ms w.1 then Some now else None).
Proof.
  intros Hs Hh. unfold tick_liveness. unfold mbind at 1, SM_bind at 1, sm_get. cbn [fst]. rewrite Hs.
  assert ((sf_heart_bt_int_ms w.1 <=? saturating_sub u64 now (sf_last_inbound_ms w.1)) =
    (sf_heart_bt_int_ms w.1 <=? now - sf_last_inbound_ms w.1)) as ->.
  { unfold saturating_sub. cbn [int_min u64].
    destruct (Z.leb_spec (sf_heart_bt_int_ms w.1) (now - sf_last_inbound_ms w.1));
      [apply Z.leb_le|apply Z.leb_gt]; lia. }
  destruct (_ <=? _); [|by intros [= <- <-]]. run.
  destruct (emit now _ w) as [[f|e] w1] eqn:E; intros [= <- <-].
  apply emit_inbound in E as (Hp & _ & _ & _ & _ & _ & Hb & _). by rewrite <-Hp, <-Hb.
Qed.

End props.

Notation SampleWorld := (SessionFsm * gmap SessionKey Slot)%type (only parsing).

Definition client_header (n t : Z) : StandardHeader :=
  {| sender_comp_id := "CLIENT"; target_comp_id := "FAUX"; msg_seq_num := n;
     sending_time := from_epoch_ms t |}.

Definition sample_config : SessionConfig :=
  {| logon_timeout_ms := 10_000; max_heart_bt_int_secs := 60 |}.

(** A fresh connection that heard a logon, over a store. *)
Definition connected (st : gmap SessionKey Slot) (t : Z) : SampleWorld :=
  (on_inbound (client_header 1 t) t (fsm_new sample_config t, st)).2.

Definition logon_at (reset : bool) (seq t : Z) (w : SampleWorld) :
    result SessionError Reaction * SampleWorld :=
  admit_logon "alice" [PermTrade] 0 30 reset seq t w.

Definition alice_key : SessionKey := logon_key "alice" ("FAUX", "CLIENT").

(** Logged on at one second. *)
Definition admitted : SampleWorld := (logon_at false 1 1_000 (connected ∅ 1_000)).2.

(** What a frame shows on the wire: number, gap-fill target, sending time. *)
Definition shown (frame : string) : option (string * option string * option string) :=
  match frame_decode frame with
  | Ok raw =>
      n ← bag_find (raw_fields raw) tags.MSG_SEQ_NUM;
      Some (n, bag_find (raw_fields raw) tags.NEW_SEQ_NO, bag_find (raw_fields raw) tags.SENDING_TIME)
  | Err _ => None
  end.

Definition resend_all (n t : Z) : DecodedMessage :=
  DResendRequest {| rr_header := client_header n t; rr_begin_seq_no := 1; rr_end_seq_no := 0 |}.

Definition test_request (n t : Z) : DecodedMessage :=
  DTestRequest {| tr_header := client_header n t; tr_test_req_id := "ping" |}.

Definition heartbeat (n t : Z) : DecodedMessage :=
  DHeartbeat {| hb_header := client_header n t; hb_test_req_id := None |}.

Definition order (n t : Z) : DecodedMessage :=
  DNewOrderSingle {| no_header := client_header n t; no_cl_ord_id := "c-1"; no_account := None;
    no_symbol := "BTC-20240329-50000-C"; no_side := OsBuy;
    no_transact_time := from_epoch_ms t; no_ord_type := OtLimit; no_price := Some 100;
    no_order_qty := 1; no_time_in_force := TifGtc; no_expire_time := None |}.

(** A run that evaluates to a success. *)
Lemma ran_ok {A} (x : result SessionError A * SampleWorld) r w :
  x = (r, w) → is_ok x.1 = true → ∃ a, r = Ok a.
Proof. intros -> Hr. destruct r as [a|e]; [by exists a|done]. Qed.

Lemma admitted_inv : session_inv alice_key admitted.
Proof.
  split_and!; [reflexivity|reflexivity|].
  split; vm_compute; repeat constructor.
Defined.

Lemma fix_session_numbering_witness :
  let es := [EvInbound (test_request 2 2_000) 2_000 false; EvInbound (order 3 3_000) 3_000 false;
             EvPersistInbound; EvTick 40_000 false] in
  let w' := (run_events es admitted).2 in
  session_inv alice_key w' ∧ mem_sender w' = 5.
Proof.
  intros es w'. split.
  - destruct (run_events es admitted) as [r x] eqn:E.
    exact (proj1 (fix_session_numbering alice_key es admitted r x admitted_inv E)).
  - vm_compute. reflexivity.
Defined.

Lemma logon_contract_witness :
  sf_phase (logon_at false 5 2_000 (connected admitted.2 2_000)).2.1 = AwaitingResend ∧
  (logon_at false 1 2_000 (connected admitted.2 2_000)).2.2 = admitted.2.
Proof.
  split.
  - destruct (logon_at false 5 2_000 (connected admitted.2 2_000)) as [r w'] eqn:E.
    pose proof (logon_contract "alice" [PermTrade] 0 30 false 5 2_000
      (connected admitted.2 2_000) ("FAUX", "CLIENT") r w' eq_refl eq_refl E) as (_ & _ & Hc).
    destruct (ran_ok (logon_at false 5 2_000 (connected admitted.2 2_000)) r w' E) as [rx Hr];
      [vm_compute; reflexivity|].
    refine (proj1 (proj2 (proj2 (proj2 (Hc _ rx Hr))))). right. vm_compute. discriminate.
  - destruct (logon_at false 1 2_000 (connected admitted.2 2_000)) as [r w'] eqn:E.
    pose proof (logon_contract "alice" [PermTrade] 0 30 false 1 2_000
      (connected admitted.2 2_000) ("FAUX", "CLIENT") r w' eq_refl eq_refl E) as (_ & Hc & _).
    refine (proj1 (Hc eq_refl _)). vm_compute. reflexivity.
Defined.



(** ** Two divergences *)

(** A session that sent two frames, then a new connection that resets the sequence
    numbers and sends two frames of its own. *)
Definition before_reset : SampleWorld :=
  (run_events [EvInbound (test_request 2 2_000) 2_000 false] admitted).2.
Definition after_reset : SampleWorld := (logon_at true 1 9_000 (connected before_reset.2 9_000)).2.

Definition shown_frames (r : result SessionError (list string)) :
    list (option (string * option string * option string)) :=
  match r with Ok l => shown <$> l | Err _ => [] end.

(** A logon with the reset flag restarts the numbers at one but leaves the frames of
    the earlier session in the resend log: a resend request is then answered with the
    old session's frame one instead of the acknowledgement just sent, and, once the
    new session has sent a second frame, with stale frames interleaved with gap fills
    that go backwards, the new second frame never being replayed. *)
Example reset_logon_replays_stale_frames :
  shown_frames (run_events [EvInbound (resend_all 2 11_000) 11_000 false] after_reset).1 =
    [Some ("1", None, Some (from_epoch_ms 1_000))] ∧
  shown_frames (run_events [EvInbound (test_request 2 10_000) 10_000 false;
                            EvInbound (resend_all 3 11_000) 11_000 false] after_reset).1 =
    [Some ("2", None, Some (from_epoch_ms 10_000));
     Some ("1", None, Some (from_epoch_ms 1_000));
     Some ("2", Some "1", Some (from_epoch_ms 11_000));
     Some ("1", None, Some (from_epoch_ms 9_000));
     Some ("2", None, Some (from_epoch_ms 2_000))].
Proof. split; vm_compute; reflexivity. Qed.

Definition sequence_reset (n t : Z) : DecodedMessage :=
  DSequenceReset {| sq_header := client_header 2 t; sq_new_seq_no := n; sq_gap_fill_flag := None |}.

(** A sequence reset without the gap-fill flag moves the durable inbound expectation
    backwards, so the reset logon is not the only path that does. *)
Example sequence_reset_moves_backwards :
  durable_target alice_key admitted = 2 ∧
  durable_target alice_key
    (run_events [EvInbound (heartbeat 2 2_000) 2_000 false;
                 EvInbound (sequence_reset 1 3_000) 3_000 false] admitted).2 = 1.
Proof. split; vm_compute; reflexivity. Qed.
