(* ===== verification/Subscription.v ===== *)
(** The market-data service ([src/src/subscription.rs]): the per-instrument
    aggregate folded from committed events, its snapshots and deltas, and the messages
    it broadcasts.  A [BTreeMap] is a [gmap] listed in key order; an instrument's shard
    guard is one critical section; [broadcast::send] is the list of messages sent. *)

From S2P Require Export VenueErrors Executor.

Inductive BookSide := Bid | Ask.
#[export] Instance BookSide_eq_dec : EqDecision BookSide. Proof. solve_decision. Defined.
#[export] Instance BookSide_countable : Countable BookSide.
Proof.
  refine (inj_countable' (λ s, match s with Bid => true | Ask => false end)
    (λ b, if (b : bool) then Bid else Ask) _). by intros [].
Defined.

(** A price level of one side. *)
Notation Level := (BookSide * Z)%type (only parsing).

(** ** The wire messages ([models.rs]) *)

Inductive SubscriptionChannel := ChOrderbook | ChTrades | ChQuotes | ChPrices | ChFills.
#[export] Instance SubscriptionChannel_eq_dec : EqDecision SubscriptionChannel.
Proof. solve_decision. Defined.

(** The derived discriminant. *)
Definition channel_u8 (c : SubscriptionChannel) : Z :=
  match c with
  | ChOrderbook => 0 | ChTrades => 1 | ChQuotes => 2 | ChPrices => 3 | ChFills => 4
  end.
#[export] Instance SubscriptionChannel_countable : Countable SubscriptionChannel.
Proof.
  refine (inj_countable channel_u8
    (λ z, if z =? 0 then Some ChOrderbook else if z =? 1 then Some ChTrades
          else if z =? 2 then Some ChQuotes else if z =? 3 then Some ChPrices
          else Some ChFills) _).
  by intros [].
Defined.

Record PriceLevelData := { pld_price : Cents; pld_quantity : Z }.
Record PriceLevelChange := { plc_side : BookSide; plc_price : Cents; plc_quantity : Z }.
Record SubscriptionResult := {
  sr_channel : SubscriptionChannel; sr_symbol : option string;
  sr_underlying : option string; sr_status : string }.
Record ActiveSubscription := {
  as_channel : SubscriptionChannel; as_symbol : option string;
  as_underlying : option string; as_depth : option Z }.
#[export] Instance PriceLevelData_eq_dec : EqDecision PriceLevelData.
Proof. solve_decision. Defined.
#[export] Instance PriceLevelChange_eq_dec : EqDecision PriceLevelChange.
Proof. solve_decision. Defined.

Record UnderlyingReplaySummary := {
  urs_underlying : string; urs_event_count : Z; urs_last_sequence : option Z }.
Record ReplayReportResponse := {
  rrr_per_underlying : list UnderlyingReplaySummary; rrr_executions : Z }.

Inductive WsMessage :=
  | WsConnected (message : string)
  | WsHeartbeat (timestamp : EventTimestamp)
  | WsQuote (symbol : Symbol) (expiration : string) (strike : Z) (style : OptionStyle)
      (bid_price ask_price : option Cents) (bid_size ask_size : Z)
  | WsPrice (symbol : string) (price_cents : Cents)
  | WsConfig (enabled : bool) (spread_multiplier size_scalar directional_skew : f64)
      (ok_count total : option Z) (fully_applied : option bool)
  | WsFill (execution_id : ExecutionId) (underlying_sequence : SequenceNumber)
      (venue_ts : EventTimestamp) (liquidity : LiquidityFlag) (symbol : string)
      (instrument : Symbol) (side : Side) (quantity : Z) (price : Cents) (edge : SignedCents)
  | WsOrderbookSnapshot (channel : SubscriptionChannel) (symbol : Symbol) (sequence : Z)
      (bids asks : list PriceLevelData)
  | WsOrderbookDelta (symbol : Symbol) (sequence : Z) (changes : list PriceLevelChange)
  | WsTrade (trade_id : string) (symbol : Symbol) (price : Cents) (quantity : Z)
      (timestamp : EventTimestamp) (maker_order_id taker_order_id : VenueOrderId)
  | WsSubscribed (channel : SubscriptionChannel) (symbol : string)
  | WsUnsubscribed (channel : SubscriptionChannel) (symbol : string)
  | WsBatchSubscribed (request_id : option string) (subscriptions : list SubscriptionResult)
  | WsBatchUnsubscribed (request_id : option string) (subscriptions : list SubscriptionResult)
  | WsSubscriptionList (active : list ActiveSubscription)
  | WsRecordingState (recording : bool)
  | WsReplayComplete (report : ReplayReportResponse)
  | WsResync (channel : SubscriptionChannel) (symbol : string) (sequence : option Z)
  | WsErrorMessage (error : WsError).

(** ** The aggregate of one instrument *)

Record RestingOrder := { ro_side : BookSide; ro_price : Z; ro_remaining : Z }.

Record InstrumentState := {
  is_sequence : Z;
  is_bids : gmap Z Z;
  is_asks : gmap Z Z;
  is_orders : gmap VenueOrderId RestingOrder;
}.

Definition InstrumentState_new : InstrumentState :=
  {| is_sequence := 0; is_bids := ∅; is_asks := ∅; is_orders := ∅ |}.

Definition level (st : InstrumentState) (side : BookSide) : gmap Z Z :=
  match side with Bid => is_bids st | Ask => is_asks st end.

Definition set_level (side : BookSide) (m : gmap Z Z) (st : InstrumentState) : InstrumentState :=
  match side with
  | Bid => {| is_sequence := is_sequence st; is_bids := m; is_asks := is_asks st;
              is_orders := is_orders st |}
  | Ask => {| is_sequence := is_sequence st; is_bids := is_bids st; is_asks := m;
              is_orders := is_orders st |}
  end.
Definition set_orders (m : gmap VenueOrderId RestingOrder) (st : InstrumentState) :
    InstrumentState :=
  {| is_sequence := is_sequence st; is_bids := is_bids st; is_asks := is_asks st;
     is_orders := m |}.
Definition set_sequence (n : Z) (st : InstrumentState) : InstrumentState :=
  {| is_sequence := n; is_bids := is_bids st; is_asks := is_asks st;
     is_orders := is_orders st |}.

Definition qty_at (st : InstrumentState) (side : BookSide) (price : Z) : Z :=
  default 0 (level st side !! price).

(** A state with the levels touched so far ([&mut self], [&mut BTreeSet]). *)
Notation Touched := (InstrumentState * gset (BookSide * Z))%type (only parsing).

Definition rest_order (id : VenueOrderId) (side : BookSide) (price qty : Z) (t : Touched) :
    Touched :=
  let '(st, touched) := t in
  if qty =? 0 then (st, touched)
  else
    let st :=
      set_orders (<[id := {| ro_side := side; ro_price := price; ro_remaining := qty |}]>
                    (is_orders st)) st in
    let entry := default 0 (level st side !! price) in
    (set_level side (<[price := default (int_max u64) (checked_add u64 entry qty)]>
                       (level st side)) st,
     {[ (side, price) ]} ∪ touched).

Definition reduce_level (side : BookSide) (price amount : Z) (t : Touched) : Touched :=
  let '(st, touched) := t in
  let st :=
    match level st side !! price with
    | Some qty =>
        let qty := default 0 (checked_sub u64 qty amount) in
        if qty =? 0 then set_level side (delete price (level st side)) st
        else set_level side (<[price := qty]> (level st side)) st
    | None => st
    end in
  (st, {[ (side, price) ]} ∪ touched).

Definition reduce_order (id : VenueOrderId) (qty : Z) (t : Touched) : Touched :=
  let '(st, touched) := t in
  match is_orders st !! id with
  | None => (st, touched)
  | Some order =>
      let amount := Z.min qty (ro_remaining order) in
      let remaining := default 0 (checked_sub u64 (ro_remaining order) amount) in
      let order := {| ro_side := ro_side order; ro_price := ro_price order;
                      ro_remaining := remaining |} in
      let st := set_orders (<[id := order]> (is_orders st)) st in
      let '(st, touched) := reduce_level (ro_side order) (ro_price order) amount (st, touched) in
      if remaining =? 0 then (set_orders (delete id (is_orders st)) st, touched)
      else (st, touched)
  end.

Definition remove_order (id : VenueOrderId) (t : Touched) : Touched :=
  let '(st, touched) := t in
  match is_orders st !! id with
  | None => (st, touched)
  | Some order =>
      reduce_level (ro_side order) (ro_price order) (ro_remaining order)
        (set_orders (delete id (is_orders st)) st, touched)
  end.

Definition consume_maker_fills (fills : list Fill) (t : Touched) : Touched :=
  foldl (λ t fill, if bool_decide (fill_liquidity fill = Maker)
                   then reduce_order (fill_order_id fill) (fill_quantity fill) t else t) t fills.

(** [for leg in legs { self.remove_order(..) }]. *)
Definition remove_legs (legs : list CancelledLeg) (t : Touched) : Touched :=
  foldl (λ t leg, remove_order (leg_order_id leg) t) t legs.

Definition book_side (side : Side) : BookSide := match side with Buy => Bid | Sell => Ask end.

(** The book effect of an outcome. *)
Definition apply_outcome (command : VenueCommand) (outcome : VenueOutcome) (t : Touched) :
    Touched :=
  match outcome with
  | Added fills resting_quantity stp_cancelled =>
      let t := remove_legs stp_cancelled (consume_maker_fills fills t) in
      match command with
      | AddOrder _ order_id _ _ _ side _ (Some price) _ _ _ =>
          if 0 <? resting_quantity
          then rest_order order_id (book_side side) price resting_quantity t else t
      | _ => t
      end
  | MarketDone fills _ stp_cancelled =>
      remove_legs stp_cancelled (consume_maker_fills fills t)
  | Cancelled order_id => remove_order order_id t
  | Replaced cancelled add =>
      let t :=
        match command with
        | Replace _ order_id _ _ _ _ _ _ _ _ _ =>
            if cancelled then remove_order order_id t else t
        | _ => t
        end in
      match add with
      | AddFilled fills stp_cancelled => remove_legs stp_cancelled (consume_maker_fills fills t)
      | AddRested fills resting_quantity stp_cancelled =>
          let t := remove_legs stp_cancelled (consume_maker_fills fills t) in
          match command with
          | Replace _ _ new_order_id _ _ _ side (Some price) _ _ _ =>
              if 0 <? resting_quantity
              then rest_order new_order_id (book_side side) price resting_quantity t else t
          | _ => t
          end
      | AddRejected _ _ => t
      end
  | MassCancelled affected => remove_legs affected t
  | ControlApplied swept => remove_legs swept t
  | Evicted evicted => foldl (λ t id, remove_order id t) t evicted
  | InstrumentStatusChanged _ _ | Rejected _ _ | Duplicate _ _ _ => t
  end.

(** The derived order of [(BookSide, u64)]: bids first, then by price. *)
Definition level_key (l : Level) : Z * Z := (match l.1 with Bid => 0 | Ask => 1 end, l.2).
Definition touched_list (touched : gset (BookSide * Z)) : list Level :=
  sort_by_key (pair_leb Z.leb Z.leb) level_key (elements touched).

Definition InstrumentState_apply (st : InstrumentState) (command : VenueCommand) (outcome : VenueOutcome) :
    InstrumentState * list PriceLevelChange :=
  let '(st, touched) := apply_outcome command outcome (st, ∅) in
  (st, (λ l, {| plc_side := l.1; plc_price := l.2; plc_quantity := qty_at st l.1 l.2 |}) <$>
         touched_list touched).

(** A [BTreeMap] in key order. *)
Definition btree_list (m : gmap Z Z) : list (Z * Z) := sort_by_key Z.leb fst (map_to_list m).

Definition levels_of (l : list (Z * Z)) (depth : option Z) : list PriceLevelData :=
  let l := (λ kv, {| pld_price := kv.1; pld_quantity := kv.2 |}) <$> l in
  match depth with Some depth => take (Z.to_nat depth) l | None => l end.

Definition instrument_snapshot (st : InstrumentState) (symbol : Symbol) (depth : option Z) :
    WsMessage :=
  WsOrderbookSnapshot ChOrderbook symbol (is_sequence st)
    (levels_of (reverse (btree_list (is_bids st))) depth)
    (levels_of (btree_list (is_asks st)) depth).

(** ** Trade prints *)

Record TradeAccum := {
  ta_maker : option VenueOrderId; ta_taker : option VenueOrderId;
  ta_price : option Cents; ta_quantity : option Z }.

Definition TradeAccum_default : TradeAccum :=
  {| ta_maker := None; ta_taker := None; ta_price := None; ta_quantity := None |}.

Definition accumulate (acc : TradeAccum) (fill : Fill) : TradeAccum :=
  {| ta_maker := match fill_liquidity fill with
                 | Maker => Some (fill_order_id fill) | Taker => ta_maker acc end;
     ta_taker := match fill_liquidity fill with
                 | Taker => Some (fill_order_id fill) | Maker => ta_taker acc end;
     ta_price := Some (fill_price fill);
     ta_quantity := Some (fill_quantity fill) |}.

Definition pair_step (s : list ExecutionId * gmap ExecutionId TradeAccum) (fill : Fill) :
    list ExecutionId * gmap ExecutionId TradeAccum :=
  let '(order, by_exec) := s in
  let '(order, by_exec) :=
    match by_exec !! fill_execution_id fill with
    | Some _ => (order, by_exec)
    | None => (order ++ [fill_execution_id fill],
               <[fill_execution_id fill := TradeAccum_default]> by_exec)
    end in
  match by_exec !! fill_execution_id fill with
  | Some acc => (order, <[fill_execution_id fill := accumulate acc fill]> by_exec)
  | None => (order, by_exec)
  end.

Definition trade_of (symbol : Symbol) (ts : EventTimestamp)
    (by_exec : gmap ExecutionId TradeAccum) (execution_id : ExecutionId) : option WsMessage :=
  acc ← by_exec !! execution_id;
  price ← ta_price acc;
  quantity ← ta_quantity acc;
  maker ← ta_maker acc;
  taker ← ta_taker acc;
  Some (WsTrade execution_id symbol price quantity ts maker taker).

Definition pair_trades (fills : list Fill) (symbol : Symbol) (ts : EventTimestamp) :
    list WsMessage :=
  let '(order, by_exec) := foldl pair_step ([], ∅) fills in
  omap (trade_of symbol ts by_exec) order.

(** ** The manager *)

Definition WS_BROADCAST_CAPACITY : Z := 1_024.
Definition MAX_WS_CONNECTIONS : Z := 1_024.

(** The instruments, the broadcast ring's capacity and the free connection slots. *)
Record OrderbookSubscriptionManager := {
  mg_instruments : gmap Symbol InstrumentState;
  mg_capacity : Z;
  mg_slots : Z;
}.

Definition with_limits (broadcast_capacity max_connections : Z) : OrderbookSubscriptionManager :=
  {| mg_instruments := ∅; mg_capacity := Z.max broadcast_capacity 1;
     mg_slots := Z.max max_connections 1 |}.

Definition set_instruments (m : gmap Symbol InstrumentState) (g : OrderbookSubscriptionManager) :
    OrderbookSubscriptionManager :=
  {| mg_instruments := m; mg_capacity := mg_capacity g; mg_slots := mg_slots g |}.

(** [try_acquire_connection]: a permit is one slot, given back when it is dropped. *)
Definition try_acquire_connection (g : OrderbookSubscriptionManager) :
    OrderbookSubscriptionManager * bool :=
  if 0 <? mg_slots g
  then ({| mg_instruments := mg_instruments g; mg_capacity := mg_capacity g;
           mg_slots := mg_slots g - 1 |}, true)
  else (g, false).

Definition orderbook_snapshot (g : OrderbookSubscriptionManager) (symbol : Symbol)
    (depth : option Z) : WsMessage :=
  match mg_instruments g !! symbol with
  | Some st => instrument_snapshot st symbol depth
  | None => WsOrderbookSnapshot ChOrderbook symbol 0 [] []
  end.

Definition command_symbol (command : VenueCommand) : option Symbol :=
  match command with
  | AddOrder symbol _ _ _ _ _ _ _ _ _ _ | CancelOrder symbol _ _
  | Replace symbol _ _ _ _ _ _ _ _ _ _ | SetInstrumentStatus symbol _
  | MassCancel (ScopeBook symbol) _ _ => Some symbol
  | _ => None
  end.

Definition emit_price (event : VenueEvent) : list WsMessage :=
  match ev_command event, ev_outcome event with
  | SimStep _ _ _ _ _, Rejected _ _ => []
  | SimStep _ underlying price _ _, _ => [WsPrice underlying price]
  | _, _ => []
  end.

Section manager.
Context `{Upstream}.

Definition underlying_of (symbol : Symbol) : option string :=
  match parse_symbol symbol with Ok parsed => Some (ps_underlying parsed) | Err _ => None end.

Definition fill_print (event : VenueEvent) (underlying : string) (symbol : Symbol) (fill : Fill) :
    WsMessage :=
  WsFill (fill_execution_id fill) (ev_underlying_sequence event) (ev_venue_ts event)
    (fill_liquidity fill) underlying symbol (fill_side fill) (fill_quantity fill)
    (fill_price fill) 0.

Definition emit_fills_and_trades (event : VenueEvent) (symbol : Symbol) : list WsMessage :=
  let fills := outcome_fills (ev_outcome event) in
  match fills with
  | [] => []
  | _ =>
      match underlying_of symbol with
      | None => []
      | Some underlying =>
          (fill_print event underlying symbol <$> fills) ++
          pair_trades fills symbol (ev_venue_ts event)
      end
  end.

(** The book effect of an event on one instrument, with its delta: a market-maker
    requote changes the book without a delta. *)
Definition fold_event (st : InstrumentState) (event : VenueEvent) :
    InstrumentState * list PriceLevelChange :=
  let '(st, changes) := InstrumentState_apply st (ev_command event) (ev_outcome event) in
  if bool_decide (changes = []) || is_market_maker_command (ev_command event) then (st, [])
  else (set_sequence (default (int_max u64) (checked_add u64 (is_sequence st) 1)) st, changes).

(** The new state, the sequence of the delta if one was emitted, and the messages. *)
Definition on_committed_event (g : OrderbookSubscriptionManager) (event : VenueEvent) :
    OrderbookSubscriptionManager * option Z * list WsMessage :=
  match command_symbol (ev_command event) with
  | None => (g, None, emit_price event)
  | Some symbol =>
      let st := default InstrumentState_new (mg_instruments g !! symbol) in
      let '(st, changes) := fold_event st event in
      let g := set_instruments (<[symbol := st]> (mg_instruments g)) g in
      let '(delta_sequence, deltas) :=
        match changes with
        | [] => (None, [])
        | _ => (Some (is_sequence st), [WsOrderbookDelta symbol (is_sequence st) changes])
        end in
      (g, delta_sequence, deltas ++ emit_fills_and_trades event symbol)
  end.
End manager.
