(* ===== verification/SubscriptionProps.v ===== *)
(** Properties of the instrument aggregate: an outcome changes no level it does not
    report, every level is the total of the orders resting on it, and each match gives
    one public print. *)

From S2P Require Export Subscription Fills.

(** ** Levels *)

Lemma qty_at_set_orders m st s p : qty_at (set_orders m st) s p = qty_at st s p.
Proof. by destruct s. Qed.

Lemma level_set_orders m st s : level (set_orders m st) s = level st s.
Proof. by destruct s. Qed.

Lemma level_set_level s m st s' :
  level (set_level s m st) s' = if decide (s = s') then m else level st s'.
Proof. by destruct s, s'. Qed.

Lemma orders_set_level s m st : is_orders (set_level s m st) = is_orders st.
Proof. by destruct s. Qed.

Lemma qty_at_set_level s m st s' p :
  qty_at (set_level s m st) s' p =
    if decide (s = s') then default 0 (m !! p) else qty_at st s' p.
Proof. unfold qty_at. rewrite level_set_level. by case_decide. Qed.

(** [t'] extends what [t] has touched, and agrees with it elsewhere. *)
Definition extends (t t' : Touched) : Prop :=
  t.2 ⊆ t'.2 ∧ is_sequence t'.1 = is_sequence t.1 ∧
  ∀ s p, (s, p) ∉ t'.2 → qty_at t'.1 s p = qty_at t.1 s p.

#[export] Instance extends_preorder : PreOrder extends.
Proof.
  split; [done|]. intros t1 t2 t3 (S1 & Q1 & L1) (S2 & Q2 & L2).
  split_and!; [set_solver|congruence|]. intros s p Hn. rewrite L2, L1 by set_solver. done.
Qed.

Lemma rest_order_extends id s p q t : extends t (rest_order id s p q t).
Proof.
  destruct t as [st touched]. unfold rest_order. case_match; [done|].
  split_and!; cbn; [set_solver|by destruct s|]. intros s' p' Hn.
  rewrite qty_at_set_level. case_decide as Hs; [|apply qty_at_set_orders].
  subst s'. rewrite lookup_insert_ne by set_solver. rewrite level_set_orders. done.
Qed.

Lemma reduce_level_extends s p a t : extends t (reduce_level s p a t).
Proof.
  destruct t as [st touched]. unfold reduce_level. split_and!; cbn; [set_solver|..].
  - repeat case_match; by destruct s.
  - intros s' p' Hn. repeat case_match; [..|done]; rewrite qty_at_set_level;
      (case_decide; [subst|done]); rewrite ?lookup_insert_ne, ?lookup_delete_ne by set_solver;
      done.
Qed.

Lemma extends_set_orders st touched m t' :
  extends (set_orders m st, touched) t' → extends (st, touched) t'.
Proof. intros (S1 & Q1 & L1). split_and!; [done|done|]. intros. rewrite L1 by done. apply qty_at_set_orders. Qed.

Lemma reduce_order_extends id q t : extends t (reduce_order id q t).
Proof.
  destruct t as [st touched]. unfold reduce_order. case_match; [|done].
  destruct (reduce_level _ _ _ _) as [st' touched'] eqn:E.
  assert (extends (st, touched) (st', touched')) as He.
  { eapply extends_set_orders. rewrite <-E. apply reduce_level_extends. }
  case_match; [|done]. etrans; [exact He|]. split_and!; [done..|].
  intros. apply qty_at_set_orders.
Qed.

Lemma remove_order_extends id t : extends t (remove_order id t).
Proof.
  destruct t as [st touched]. unfold remove_order. case_match; [|done].
  eapply extends_set_orders, reduce_level_extends.
Qed.

Lemma foldl_extends {A} (f : Touched → A → Touched) l t :
  (∀ t a, extends t (f t a)) → extends t (foldl f t l).
Proof. intros Hf. revert t. induction l as [|a l IH]; intros t; cbn; [done|].
  etrans; [apply Hf|apply IH].
Qed.

Lemma consume_maker_fills_extends fills t : extends t (consume_maker_fills fills t).
Proof. apply foldl_extends. intros. case_match; [apply reduce_order_extends|done]. Qed.

Lemma remove_legs_extends legs t : extends t (remove_legs legs t).
Proof. apply foldl_extends. intros. apply remove_order_extends. Qed.

#[export] Hint Resolve rest_order_extends remove_order_extends consume_maker_fills_extends
  remove_legs_extends : extends.

Lemma after_fills_extends legs fills t :
  extends t (remove_legs legs (consume_maker_fills fills t)).
Proof. etrans; [apply consume_maker_fills_extends|apply remove_legs_extends]. Qed.
#[export] Hint Resolve after_fills_extends : extends.

Lemma apply_outcome_extends c o t : extends t (apply_outcome c o t).
Proof.
  destruct o; cbn [apply_outcome]; auto with extends; try done.
  - repeat case_match; auto with extends; (etrans; [apply after_fills_extends|auto with extends]).
  - set (t1 := match c with Replace _ _ _ _ _ _ _ _ _ _ _ => _ | _ => t end).
    assert (extends t t1) as H1.
    { subst t1. repeat case_match; auto with extends; done. }
    destruct add; (etrans; [exact H1|]); auto with extends; [|done].
    repeat case_match; auto with extends; (etrans; [apply after_fills_extends|auto with extends]).
  - apply foldl_extends. intros. apply remove_order_extends.
Qed.

Lemma elem_of_touched_list l touched : l ∈ touched_list touched ↔ l ∈ touched.
Proof. unfold touched_list. by rewrite elem_of_sort_by_key, elem_of_elements. Qed.

Lemma touched_list_NoDup touched : NoDup (touched_list touched).
Proof. unfold touched_list. rewrite sort_by_key_perm. apply NoDup_elements. Qed.

(** What a command and its outcome report: each changed level once, with its resulting
    quantity; every other level is as it was. *)
Lemma apply_spec st c o st' changes :
  InstrumentState_apply st c o = (st', changes) →
  is_sequence st' = is_sequence st ∧
  NoDup ((λ ch, (plc_side ch, plc_price ch)) <$> changes) ∧
  (∀ ch, ch ∈ changes → plc_quantity ch = qty_at st' (plc_side ch) (plc_price ch)) ∧
  (∀ s p, (s, p) ∉ (λ ch, (plc_side ch, plc_price ch)) <$> changes →
     qty_at st' s p = qty_at st s p).
Proof.
  unfold InstrumentState_apply. destruct (apply_outcome_extends c o (st, ∅)) as (_ & Hq & Hl).
  destruct (apply_outcome _ _ _) as [st1 touched]. cbn in *. intros [= <- <-].
  rewrite <-list_fmap_compose.
  assert ((λ ch, (plc_side ch, plc_price ch)) ∘
            (λ l : BookSide * Z, {| plc_side := l.1; plc_price := l.2;
                                    plc_quantity := qty_at st1 l.1 l.2 |}) <$>
            touched_list touched = touched_list touched) as E.
  { rewrite <-(list_fmap_id (touched_list touched)) at 2. apply list_fmap_ext. by intros ? []. }
  rewrite E. split_and!; [done|apply touched_list_NoDup|..].
  - intros ch (l & -> & _)%list_elem_of_fmap. done.
  - intros s p Hn. apply Hl. by rewrite <-elem_of_touched_list.
Qed.

(** ** Totals *)

Definition contribution (s : BookSide) (p : Z) (o : RestingOrder) : Z :=
  if decide (ro_side o = s ∧ ro_price o = p) then ro_remaining o else 0.

(** What the tracked orders leave at a level. *)
Definition level_total (st : InstrumentState) (s : BookSide) (p : Z) : Z :=
  map_sum (contribution s p) (is_orders st).

Record aggregate_wf (st : InstrumentState) : Prop := {
  wf_remaining id o : is_orders st !! id = Some o → 0 < ro_remaining o;
  wf_level s p : level st s !! p =
    if level_total st s p =? 0 then None else Some (level_total st s p);
  wf_bound s p : level_total st s p ≤ int_max u64;
}.

Lemma level_total_nonneg st s p : aggregate_wf st → 0 ≤ level_total st s p.
Proof.
  intros W. apply map_sum_nonneg. intros id o Ho. unfold contribution.
  apply (wf_remaining _ W) in Ho. case_decide; lia.
Qed.

Lemma level_total_set_level s m st s' p' :
  level_total (set_level s m st) s' p' = level_total st s' p'.
Proof. unfold level_total. by rewrite orders_set_level. Qed.

Lemma aggregate_wf_new : aggregate_wf InstrumentState_new.
Proof.
  split; [done|..]; intros s p; unfold level_total; cbn [InstrumentState_new is_orders];
    rewrite map_sum_empty; [|done]. by destruct s.
Qed.

(** Taking [a] off one level, the orders having shrunk by as much there. *)
Lemma reduce_level_wf st m s p a touched :
  aggregate_wf st → 0 ≤ a →
  (∀ id o, m !! id = Some o → 0 < ro_remaining o) →
  (∀ s' p', level_total (set_orders m st) s' p' =
     level_total st s' p' - if decide (s' = s ∧ p' = p) then a else 0) →
  aggregate_wf (reduce_level s p a (set_orders m st, touched)).1.
Proof.
  intros W Ha Hm Ht. unfold reduce_level.
  assert (∀ s' p', 0 ≤ level_total (set_orders m st) s' p') as Hpos.
  { intros. apply map_sum_nonneg. intros id o Ho. unfold contribution.
    apply Hm in Ho. case_decide; lia. }
  pose proof (Ht s p) as Hsp. rewrite decide_True in Hsp by done.
  pose proof (Hpos s p) as Hp. pose proof (wf_bound _ W s p) as Hb.
  assert (∀ f, (∀ s' p', level (f (set_orders m st)) s' !! p' =
       if decide (s' = s ∧ p' = p)
       then (if level_total st s p - a =? 0 then None else Some (level_total st s p - a))
       else level st s' !! p') → is_orders (f (set_orders m st)) = m →
     aggregate_wf (f (set_orders m st))) as Hgen.
  { intros f Hl Ho.
    assert (∀ s' p', level_total (f (set_orders m st)) s' p' =
       level_total st s' p' - if decide (s' = s ∧ p' = p) then a else 0) as Ht'.
    { intros. rewrite <-Ht. unfold level_total. by rewrite Ho. }
    split.
    - rewrite Ho. exact Hm.
    - intros s' p'. rewrite Hl, Ht'. case_decide as Hs; [by destruct Hs; subst|].
      rewrite Z.sub_0_r. apply (wf_level _ W).
    - intros s' p'. rewrite Ht'. pose proof (wf_bound _ W s' p'). case_decide; lia. }
  rewrite level_set_orders, (wf_level _ W).
  destruct (Z.eqb_spec (level_total st s p) 0) as [E0|E0]; cbn [fst].
  - apply (Hgen (λ x, x)); [|done]. intros s' p'. rewrite level_set_orders.
    case_decide as Hs; [|done]. destruct Hs; subst. rewrite (wf_level _ W), E0. cbn.
    assert (a = 0) as -> by lia. done.
  - assert (checked_sub u64 (level_total st s p) a = Some (level_total st s p - a)) as ->.
    { apply narrow_fits. unfold_int. lia. }
    cbn [default from_option id]. destruct (Z.eqb_spec (level_total st s p - a) 0) as [E1|E1].
    + apply (Hgen (set_level s _)); [|by rewrite orders_set_level].
      intros s' p'. rewrite level_set_level, level_set_orders. destruct (decide (s = s')) as [<-|Hs].
      * destruct (decide (p' = p)) as [->|Hp'].
        -- by rewrite lookup_delete_eq, decide_True by done.
        -- by rewrite lookup_delete_ne, decide_False by (tauto || congruence).
      * by rewrite decide_False by (intros []; congruence).
    + apply (Hgen (set_level s _)); [|by rewrite orders_set_level].
      intros s' p'. rewrite level_set_level, level_set_orders. destruct (decide (s = s')) as [<-|Hs].
      * destruct (decide (p' = p)) as [->|Hp'].
        -- by rewrite lookup_insert_eq, decide_True by done.
        -- by rewrite lookup_insert_ne, decide_False by (tauto || congruence).
      * by rewrite decide_False by (intros []; congruence).
Qed.

(** ** Preservation *)

Lemma contribution_at o : contribution (ro_side o) (ro_price o) o = ro_remaining o.
Proof. unfold contribution. by rewrite decide_True. Qed.

Lemma contribution_other s p o :
  ¬ (s = ro_side o ∧ p = ro_price o) → contribution s p o = 0.
Proof. intros Hn. unfold contribution. rewrite decide_False; [done|]. intros [<- <-]. by apply Hn. Qed.

Lemma contribution_le st id o :
  aggregate_wf st → is_orders st !! id = Some o →
  ro_remaining o ≤ level_total st (ro_side o) (ro_price o).
Proof.
  intros W Ho. unfold level_total. rewrite (map_sum_delete _ _ _ _ Ho), contribution_at.
  assert (0 ≤ map_sum (contribution (ro_side o) (ro_price o)) (delete id (is_orders st))); [|lia].
  apply map_sum_nonneg. intros id' o' [_ Ho']%lookup_delete_Some. unfold contribution.
  apply (wf_remaining _ W) in Ho'. case_decide; lia.
Qed.

Lemma total_delete st id o s p :
  is_orders st !! id = Some o →
  level_total (set_orders (delete id (is_orders st)) st) s p =
    level_total st s p - if decide (s = ro_side o ∧ p = ro_price o) then ro_remaining o else 0.
Proof.
  intros Ho. unfold level_total. cbn. rewrite (map_sum_delete _ (is_orders st) _ _ Ho).
  case_decide as Hs; [destruct Hs; subst; rewrite contribution_at|
    rewrite (contribution_other _ _ _ Hs)]; lia.
Qed.

Lemma total_insert st id o s p :
  is_orders st !! id = None →
  level_total (set_orders (<[id := o]> (is_orders st)) st) s p =
    level_total st s p + if decide (s = ro_side o ∧ p = ro_price o) then ro_remaining o else 0.
Proof.
  intros Ho. unfold level_total. cbn. rewrite map_sum_insert by done.
  case_decide as Hs; [destruct Hs; subst; rewrite contribution_at|
    rewrite (contribution_other _ _ _ Hs)]; lia.
Qed.

Lemma remove_order_wf id t : aggregate_wf t.1 → aggregate_wf (remove_order id t).1.
Proof.
  destruct t as [st touched]. cbn. intros W. destruct (is_orders st !! id) as [o|] eqn:Ho; [|done].
  apply reduce_level_wf; [done|..].
  - apply (wf_remaining _ W) in Ho. lia.
  - intros id' o' [_ Ho']%lookup_delete_Some. by eapply wf_remaining.
  - intros s p. by apply total_delete.
Qed.

(** The order map and the levels are independent parts of the state. *)
Lemma set_orders_reduce_level m2 m1 s p a st touched :
  (set_orders m2 (reduce_level s p a (set_orders m1 st, touched)).1) =
    (reduce_level s p a (set_orders m2 st, touched)).1.
Proof.
  unfold reduce_level. rewrite !level_set_orders. cbn. repeat case_match; by destruct s.
Qed.

Lemma reduce_order_wf oid q t : 0 ≤ q → aggregate_wf t.1 → aggregate_wf (reduce_order oid q t).1.
Proof.
  destruct t as [st touched]. cbn [fst]. intros Hq W. unfold reduce_order.
  destruct (is_orders st !! oid) as [o|] eqn:Ho; [|done].
  pose proof (wf_remaining _ W _ _ Ho) as Hr. pose proof (contribution_le _ _ _ W Ho) as Hle.
  pose proof (wf_bound _ W (ro_side o) (ro_price o)) as Hb.
  set (a := q `min` ro_remaining o). assert (0 ≤ a ≤ ro_remaining o) as Ha by lia.
  assert (checked_sub u64 (ro_remaining o) a = Some (ro_remaining o - a)) as ->.
  { apply narrow_fits. unfold_int. lia. }
  cbn [default from_option id ro_side ro_price].
  set (o' := {| ro_side := ro_side o; ro_price := ro_price o;
                ro_remaining := ro_remaining o - a |}).
  destruct (reduce_level _ _ _ _) as [st' touched'] eqn:E.
  destruct (Z.eqb_spec (ro_remaining o - a) 0) as [E0|E0]; cbn [fst].
  - assert (is_orders st' = <[oid := o']> (is_orders st)) as Hm.
    { apply (f_equal fst) in E. cbn [fst] in E. rewrite <-E. unfold reduce_level.
      repeat case_match; cbn [fst]; rewrite ?orders_set_level; done. }
    rewrite Hm, delete_insert_eq. apply (f_equal fst) in E. cbn [fst] in E.
    rewrite <-E, set_orders_reduce_level. apply reduce_level_wf; [done|lia|..].
    + intros id' o2 [_ Ho']%lookup_delete_Some. by eapply wf_remaining.
    + intros s p. rewrite (total_delete _ _ _ _ _ Ho). case_decide; lia.
  - apply (f_equal fst) in E. cbn [fst] in E. rewrite <-E. apply reduce_level_wf; [done|lia|..].
    + intros id' o2. rewrite lookup_insert_Some. intros [[<- <-]|[_ Ho']]; [cbn; lia|].
      by eapply wf_remaining.
    + intros s p. unfold level_total. cbn [set_orders is_orders].
      rewrite <-insert_delete_eq, map_sum_insert by apply lookup_delete_eq.
      rewrite (map_sum_delete _ (is_orders st) _ _ Ho). unfold contribution. cbn.
      repeat case_decide; naive_solver lia.
Qed.

Lemma rest_order_wf id s p q t :
  aggregate_wf t.1 → 0 < q → is_orders t.1 !! id = None →
  level_total t.1 s p + q ≤ int_max u64 → aggregate_wf (rest_order id s p q t).1.
Proof.
  destruct t as [st touched]. cbn [fst]. intros W Hq Hid Hb. unfold rest_order.
  rewrite (proj2 (Z.eqb_neq q 0)) by lia. cbn [fst].
  pose proof (level_total_nonneg _ s p W) as Hp.
  assert (∀ s' p', level_total (set_orders (<[id := {| ro_side := s; ro_price := p;
      ro_remaining := q |}]> (is_orders st)) st) s' p' =
    level_total st s' p' + if decide (s' = s ∧ p' = p) then q else 0) as Ht.
  { intros. by rewrite total_insert. }
  split; intros *.
  - rewrite orders_set_level. cbn. rewrite lookup_insert_Some.
    intros [[<- <-]|[_ Ho]]; [done|]. by eapply wf_remaining.
  - rewrite level_set_level, !level_set_orders, level_total_set_level, Ht, (wf_level _ W).
    destruct (decide (s = s0)) as [<-|Hs].
    + destruct (decide (p0 = p)) as [->|Hp0].
      * rewrite lookup_insert_eq, decide_True, (proj2 (Z.eqb_neq (level_total st s p + q) 0))
          by (done || lia).
        assert (default 0 (if level_total st s p =? 0 then None else Some (level_total st s p)) =
          level_total st s p) as -> by (destruct (Z.eqb_spec (level_total st s p) 0); [by symmetry|done]).
        assert (checked_add u64 (level_total st s p) q = Some (level_total st s p + q)) as ->;
          [|done]. apply narrow_fits. unfold_int. lia.
      * rewrite lookup_insert_ne, decide_False, Z.add_0_r by (tauto || congruence).
        apply (wf_level _ W).
    + rewrite decide_False, Z.add_0_r by (intros []; congruence). apply (wf_level _ W).
  - rewrite level_total_set_level, Ht. pose proof (wf_bound _ W s0 p0).
    case_decide as Hs; [destruct Hs; subst|]; lia.
Qed.

(** Every order of [st'] is one of [st], at its level and no larger. *)
Definition shrinks (st st' : InstrumentState) : Prop :=
  ∀ id o', is_orders st' !! id = Some o' → ∃ o, is_orders st !! id = Some o ∧
    ro_side o' = ro_side o ∧ ro_price o' = ro_price o ∧ ro_remaining o' ≤ ro_remaining o.

(** A step that keeps a sound aggregate sound and only shrinks it. *)
Definition sheds (t t' : Touched) : Prop :=
  aggregate_wf t.1 → aggregate_wf t'.1 ∧ shrinks t.1 t'.1.

#[export] Instance sheds_preorder : PreOrder sheds.
Proof.
  split.
  - intros t W. split; [done|]. intros id o Ho. by exists o.
  - intros t1 t2 t3 H1 H2 W. destruct (H1 W) as [W2 S1]. destruct (H2 W2) as [W3 S2].
    split; [done|]. intros id o3 Ho3. destruct (S2 _ _ Ho3) as (o2 & Ho2 & ? & ? & ?).
    destruct (S1 _ _ Ho2) as (o & Ho & ? & ? & ?).
    exists o. split_and!; [done|congruence|congruence|lia].
Qed.

Lemma shrinks_total st st' s p :
  aggregate_wf st → shrinks st st' → level_total st' s p ≤ level_total st s p.
Proof.
  intros W S. apply map_sum_mono.
  - intros id o Ho. apply (wf_remaining _ W) in Ho. unfold contribution. case_decide; lia.
  - intros id o' Ho'. destruct (S _ _ Ho') as (o & Ho & Hs & Hp & Hr). exists o.
    split; [done|]. unfold contribution. rewrite Hs, Hp. case_decide; lia.
Qed.

Lemma orders_reduce_level s p a t : is_orders (reduce_level s p a t).1 = is_orders t.1.
Proof. destruct t. unfold reduce_level. repeat case_match; cbn; by rewrite ?orders_set_level. Qed.

Lemma remove_order_sheds oid t : sheds t (remove_order oid t).
Proof.
  intros W. split; [by apply remove_order_wf|]. destruct t as [st touched]. unfold remove_order.
  destruct (is_orders st !! oid) eqn:Ho; [|intros id o Hid; by exists o].
  intros id o'. rewrite orders_reduce_level. cbn. intros [_ Hid]%lookup_delete_Some. by exists o'.
Qed.

Lemma reduce_order_sheds oid q t : 0 ≤ q → sheds t (reduce_order oid q t).
Proof.
  intros Hq W. split; [by apply reduce_order_wf|]. destruct t as [st touched]. unfold reduce_order.
  destruct (is_orders st !! oid) as [o|] eqn:Ho; [|intros id o Hid; by exists o].
  pose proof (wf_remaining _ W _ _ Ho) as Hr.
  assert (checked_sub u64 (ro_remaining o) (q `min` ro_remaining o) =
    Some (ro_remaining o - q `min` ro_remaining o)) as ->.
  { apply narrow_fits. pose proof (contribution_le _ _ _ W Ho).
    pose proof (wf_bound _ W (ro_side o) (ro_price o)). unfold_int. lia. }
  cbn [default from_option id ro_side ro_price].
  destruct (reduce_level _ _ _ _) as [st' touched'] eqn:E.
  assert (is_orders st' = <[oid := {| ro_side := ro_side o; ro_price := ro_price o;
     ro_remaining := ro_remaining o - q `min` ro_remaining o |}]> (is_orders st)) as Hm.
  { apply (f_equal fst) in E. cbn [fst] in E. by rewrite <-E, orders_reduce_level. }
  assert (shrinks st st') as S.
  { intros i o'. rewrite Hm, lookup_insert_Some.
    intros [[<- <-]|[_ Hid]]; [exists o|by exists o']. split_and!; [done..|]. cbn. lia. }
  case_match; [|done]. intros i o'. cbn. intros [_ Hid]%lookup_delete_Some. by apply S.
Qed.

Lemma foldl_sheds {A} (f : Touched → A → Touched) l t :
  Forall (λ a, ∀ t, sheds t (f t a)) l → sheds t (foldl f t l).
Proof.
  intros Hf. revert t. induction Hf as [|a l Ha _ IH]; intros t; cbn; [done|].
  etrans; [apply Ha|apply IH].
Qed.

Lemma remove_legs_sheds legs t : sheds t (remove_legs legs t).
Proof. apply foldl_sheds, Forall_true. intros. apply remove_order_sheds. Qed.

Lemma after_fills_sheds legs fills t :
  Forall (λ f, 0 ≤ fill_quantity f) fills →
  sheds t (remove_legs legs (consume_maker_fills fills t)).
Proof.
  intros Hf. etrans; [|apply remove_legs_sheds]. apply foldl_sheds.
  eapply Forall_impl; [exact Hf|]. cbn. intros f Hq t'.
  case_match; [by apply reduce_order_sheds|done].
Qed.

(** ** Whole outcomes *)

(** The order a command leaves resting: id, side, price, quantity. *)
Definition rested (c : VenueCommand) (o : VenueOutcome) :
    option (VenueOrderId * BookSide * Z * Z) :=
  match o, c with
  | Added _ q _, AddOrder _ id _ _ _ side _ (Some price) _ _ _
  | Replaced _ (AddRested _ q _), Replace _ _ id _ _ _ side (Some price) _ _ _ =>
      if 0 <? q then Some (id, book_side side, price, q) else None
  | _, _ => None
  end.

Definition rest_one (r : option (VenueOrderId * BookSide * Z * Z)) (t : Touched) : Touched :=
  match r with Some (id, s, p, q) => rest_order id s p q t | None => t end.

(** An outcome sheds orders, then rests at most one. *)
Lemma apply_outcome_split c o t :
  Forall (λ f, 0 ≤ fill_quantity f) (outcome_fills o) →
  ∃ t1, sheds t t1 ∧ apply_outcome c o t = rest_one (rested c o) t1.
Proof.
  assert (∀ fills legs t0, Forall (λ f, 0 ≤ fill_quantity f) fills → sheds t t0 →
    sheds t (remove_legs legs (consume_maker_fills fills t0))) as Hf.
  { intros fills legs t0 HF Ht. etrans; [exact Ht|]. by apply after_fills_sheds. }
  destruct o; cbn [apply_outcome outcome_fills rested]; intros HF.
  - eexists. split; [by apply Hf|]. repeat case_match; done.
  - eexists. split; [by apply Hf|]. by repeat case_match.
  - eexists. split; [apply remove_order_sheds|done].
  - set (t1 := match c with Replace _ _ _ _ _ _ _ _ _ _ _ => _ | _ => t end).
    assert (sheds t t1) as H1.
    { subst t1. repeat case_match; first [apply remove_order_sheds|done]. }
    destruct add as [fills stp|fills q stp|].
    + eexists. split; [by apply Hf|]. by repeat case_match.
    + eexists. split; [by apply Hf|]. by repeat case_match.
    + exists t1. split; [done|]. by repeat case_match.
  - eexists. split; [apply remove_legs_sheds|done].
  - by exists t.
  - eexists. split; [|done]. apply foldl_sheds, Forall_true. intros. apply remove_order_sheds.
  - eexists. split; [apply remove_legs_sheds|done].
  - by exists t.
  - by exists t.
Qed.

(** A rest the aggregate can hold: a new id, and room for its quantity. *)
Definition rest_fits (st : InstrumentState)
    (r : option (VenueOrderId * BookSide * Z * Z)) : Prop :=
  match r with
  | Some (id, s, p, q) => is_orders st !! id = None ∧ level_total st s p + q ≤ int_max u64
  | None => True
  end.

Lemma InstrumentState_apply_wf st c o :
  aggregate_wf st → Forall (λ f, 0 ≤ fill_quantity f) (outcome_fills o) →
  rest_fits st (rested c o) → aggregate_wf (InstrumentState_apply st c o).1.
Proof.
  intros W HF Hr. unfold InstrumentState_apply.
  destruct (apply_outcome_split c o (st, ∅) HF) as (t1 & S & ->). destruct (S W) as [W1 S1].
  assert (aggregate_wf (rest_one (rested c o) t1).1) as W2; [|by destruct (rest_one _ _)].
  destruct (rested c o) as [[[[id s] p] q]|] eqn:E; [|done]. destruct Hr as [Hid Hb].
  apply rest_order_wf; [done|..].
  - unfold rested in E. repeat case_match; simplify_eq; by apply Z.ltb_lt.
  - destruct (is_orders t1.1 !! id) eqn:Ho; [|done]. destruct (S1 _ _ Ho) as (o1 & Ho1 & _). cbn in Ho1. congruence.
  - pose proof (shrinks_total _ _ s p W S1). cbn in *. lia.
Qed.

Lemma set_sequence_wf n st : aggregate_wf st → aggregate_wf (set_sequence n st).
Proof. intros [? Hl ?]. split; [done| |done]. intros [] p; [apply (Hl Bid p)|apply (Hl Ask p)]. Qed.

Lemma fold_event_wf st e :
  aggregate_wf st → Forall (λ f, 0 ≤ fill_quantity f) (outcome_fills (ev_outcome e)) →
  rest_fits st (rested (ev_command e) (ev_outcome e)) → aggregate_wf (fold_event st e).1.
Proof.
  intros W HF Hr. pose proof (InstrumentState_apply_wf _ _ _ W HF Hr) as W1. unfold fold_event.
  destruct (InstrumentState_apply _ _ _) as [st' ch]. case_match; [done|].
  by apply set_sequence_wf.
Qed.

(** ** Snapshots *)

(** The states an instrument reaches over committed events: fills of non-negative
    quantity, and each resting order under a new id where its level has room. *)
Inductive aggregated : InstrumentState → Prop :=
  | aggregated_new : aggregated InstrumentState_new
  | aggregated_step st e :
      aggregated st → Forall (λ f, 0 ≤ fill_quantity f) (outcome_fills (ev_outcome e)) →
      rest_fits st (rested (ev_command e) (ev_outcome e)) → aggregated (fold_event st e).1.

Lemma aggregated_wf st : aggregated st → aggregate_wf st.
Proof. induction 1; [apply aggregate_wf_new|by apply fold_event_wf]. Qed.

Lemma btree_list_elem m p q : (p, q) ∈ btree_list m ↔ m !! p = Some q.
Proof. unfold btree_list. by rewrite elem_of_sort_by_key, elem_of_map_to_list. Qed.

Lemma btree_list_sorted m : StronglySorted Z.lt (btree_list m).*1.
Proof.
  assert (key_sorted Z.leb fst (btree_list m)) as Hs by apply sort_by_key_sorted, _.
  assert (NoDup (btree_list m).*1) as Hn.
  { unfold btree_list. rewrite sort_by_key_perm. apply NoDup_fst_map_to_list. }
  revert Hs Hn. generalize (btree_list m). clear.
  induction l as [|[p q] l IH]; cbn; [constructor|].
  intros [Hs Hx]%StronglySorted_inv [Hp Hn]%NoDup_cons. constructor; [by apply IH|].
  apply Forall_forall. intros p' ([p2 q'] & -> & Hin)%list_elem_of_fmap.
  rewrite Forall_forall in Hx. specialize (Hx _ Hin). cbn in *.
  assert (p ≠ p2); [|lia]. intros ->. apply Hp. apply list_elem_of_fmap. by exists (p2, q').
Qed.

Lemma StronglySorted_snoc {A} (R : A → A → Prop) l x :
  StronglySorted R l → Forall (λ y, R y x) l → StronglySorted R (l ++ [x]).
Proof.
  induction 1 as [|y l Hl IH Hy]; cbn; intros HF; [by repeat constructor|].
  apply Forall_cons in HF as [Hyx HF]. constructor; [by apply IH|].
  apply Forall_app. split; [done|]. by constructor.
Qed.

Lemma StronglySorted_reverse {A} (R : A → A → Prop) l :
  StronglySorted R l → StronglySorted (flip R) (reverse l).
Proof.
  induction 1 as [|x l Hl IH Hx]; [constructor|]. rewrite reverse_cons.
  apply StronglySorted_snoc; [done|]. by apply Forall_reverse.
Qed.

(** The levels of one side, best first, exactly those with resting quantity. *)
Definition lists_depth (st : InstrumentState) (s : BookSide) (l : list (Z * Z)) : Prop :=
  StronglySorted (match s with Bid => flip Z.lt | Ask => Z.lt end) l.*1 ∧
  ∀ p q, (p, q) ∈ l ↔ 0 < q ∧ q = level_total st s p.

Lemma level_listed st s p q :
  aggregate_wf st → level st s !! p = Some q ↔ 0 < q ∧ q = level_total st s p.
Proof.
  intros W. rewrite (wf_level _ W). pose proof (level_total_nonneg _ s p W).
  destruct (Z.eqb_spec (level_total st s p) 0); split; [done|lia|intros [= <-]; lia|].
  intros [_ ->]. done.
Qed.


(** ** Prints *)

Section prints.
Context `{Upstream}.

(** One step of the pairing, for the two legs of a match under a new id. *)
Lemma pair_step_match order m f k :
  m !! fill_execution_id f = None → fill_execution_id k = fill_execution_id f →
  fill_liquidity f = Maker → fill_liquidity k = Taker →
  foldl pair_step (order, m) [f; k] =
    (order ++ [fill_execution_id f],
     <[fill_execution_id f :=
         {| ta_maker := Some (fill_order_id f); ta_taker := Some (fill_order_id k);
            ta_price := Some (fill_price k); ta_quantity := Some (fill_quantity k) |}]> m).
Proof.
  intros Hm Hk Lf Lk. cbn [foldl]. unfold pair_step. rewrite Hm, Hk, !lookup_insert_eq.
  rewrite !insert_insert_eq. unfold accumulate. by rewrite Lf, Lk.
Qed.

(** What a trade print says of a match. *)
Definition prints_match x (ctx : ExecutionContext) (v : VenueOrderId) (symbol : Symbol) (ts : EventTimestamp)
    (t : Trade OrderId) (p : WsMessage) : Prop :=
  ∃ j, has_ty u32 j ∧
    p = WsTrade (execution_id (ctx_lineage_id ctx) (ctx_underlying ctx) (ctx_sequence ctx) j)
          symbol (trade_price t) (trade_quantity t) ts
          (maker_identity x (trade_maker_order_id t)).1.1 v.

Lemma pair_fold x ctx v a o fs i trades fills symbol ts order m order' m' :
  has_ty u64 (ctx_sequence ctx) →
  fills_of x ctx v a o fs i trades fills →
  (∀ f, f ∈ fills → m !! fill_execution_id f = None) →
  foldl pair_step (order, m) fills = (order', m') →
  (∀ id, (∀ f, f ∈ fills → fill_execution_id f ≠ id) → m' !! id = m !! id) ∧
  ∃ ids prints, order' = order ++ ids ∧ NoDup ids ∧
    (∀ id, id ∈ ids → ∃ f, f ∈ fills ∧ fill_execution_id f = id) ∧
    omap (trade_of symbol ts m') ids = prints ∧
    Forall2 (prints_match x ctx v symbol ts) trades prints.
Proof.
  intros Hseq Hf. revert order m. induction Hf as [i|i t trades f k fills Hl Hf IH]; intros order m Hm E.
  { injection E as <- <-. split; [done|]. exists [], []. rewrite app_nil_r.
    split_and!; [done|constructor|set_solver|done|constructor]. }
  pose proof (fills_of_keys x ctx v a o fs i (t :: trades) (f :: k :: fills) Hseq
    (fills_cons _ _ _ _ _ _ _ _ _ _ _ _ Hl Hf)) as Hkeys.
  destruct Hl as [Hi Hidf Hidk Hmk Htk _ [Lf Lk] Hpf Hpk _ Hqf Hqk _ _].
  assert (∀ g, g ∈ fills → fill_execution_id g ≠ fill_execution_id f) as Hne.
  { intros g Hg Eg. apply NoDup_cons in Hkeys as [H1 [H2 _]%NoDup_cons].
    destruct (fill_liquidity g) eqn:Lg.
    - apply H1. right. apply list_elem_of_fmap. exists g. unfold leg_key. by rewrite Lf, Lg, Eg.
    - apply H2. apply list_elem_of_fmap. exists g. unfold leg_key. by rewrite Lk, Lg, Eg, Hidk. }
  change (foldl pair_step (order, m) (f :: k :: fills)) with
    (foldl pair_step (foldl pair_step (order, m) [f; k]) fills) in E.
  rewrite pair_step_match in E; [|apply Hm; by left|done..].
  set (acc := {| ta_maker := _ |}) in E.
  apply IH in E as (Hlk & ids & prints & -> & Hnd & Hids & Hpr & HF).
  - assert (m' !! fill_execution_id f = Some acc) as Hacc.
    { rewrite Hlk by done. apply lookup_insert_eq. }
    split.
    + intros id Hid. rewrite Hlk.
      * apply lookup_insert_ne. apply Hid. by left.
      * intros g Hg. apply Hid. by do 2 right.
    + exists (fill_execution_id f :: ids), (WsTrade (fill_execution_id f) symbol (fill_price k)
        (fill_quantity k) ts (fill_order_id f) (fill_order_id k) :: prints).
      split_and!.
      * by rewrite <-(assoc_L (++)).
      * constructor; [|done]. intros (g & Hg & Eg)%Hids. by apply (Hne g).
      * intros id [->|Hin]%elem_of_cons; [exists f; split; [by left|done]|].
        destruct (Hids _ Hin) as (g & Hg & Eg). exists g. split; [by do 2 right|done].
      * cbn. unfold trade_of at 1. rewrite Hacc. cbn. by rewrite Hpr.
      * constructor; [|done]. exists i. split; [done|]. rewrite Hidf, Hpk, Hpf, Hqk, Hqf.
        injection Htk as <- _ _. rewrite <-Hmk. done.
  - intros g Hg. rewrite lookup_insert_ne by (intros E'; by apply (Hne g)).
    apply Hm. by do 2 right.
Qed.

Lemma trade_of_id symbol ts m id p :
  trade_of symbol ts m id = Some p → ∃ price q mk tk, p = WsTrade id symbol price q ts mk tk.
Proof.
  unfold trade_of. destruct (m !! id) as [acc|]; cbn; [|done].
  destruct (ta_price acc), (ta_quantity acc), (ta_maker acc), (ta_taker acc); cbn; try done.
  intros [= <-]. eauto.
Qed.

(** One public print per match.  For the fills the executor captures of a command, the
    trade tape shows the trades of the match result one by one, in order, each once and
    under its own id, with the trade's price and quantity, the maker's venue order id and
    the taker's. *)
Theorem one_print_per_match x ctx tr v a o fs c symbol ts :
  has_ty u64 (ctx_sequence ctx) → build_fills x ctx tr v a o fs = Ok c →
  Forall2 (prints_match x ctx v symbol ts) (mr_trades (tr_match_result tr))
    (pair_trades (cf_fills c) symbol ts) ∧
  NoDup (omap (λ p, match p with WsTrade id _ _ _ _ _ _ => Some id | _ => None end)
           (pair_trades (cf_fills c) symbol ts)).
Proof.
  intros Hs (Hf & _ & _)%build_fills_spec. unfold pair_trades.
  destruct (foldl pair_step ([], ∅) (cf_fills c)) as [order m] eqn:E.
  destruct (pair_fold _ _ _ _ _ _ _ _ _ symbol ts _ _ _ _ Hs Hf (λ _ _, lookup_empty _) E)
    as (_ & ids & prints & -> & Hnd & _ & Hpr & HF). cbn [app]. rewrite Hpr. split; [done|].
  rewrite <-Hpr. clear -Hnd. induction Hnd as [|id ids Hid Hnd IH]; cbn; [constructor|].
  destruct (trade_of symbol ts m id) as [p|] eqn:Hp; cbn; [|done].
  apply trade_of_id in Hp as (? & ? & ? & ? & ->). constructor; [|done].
  intros (p & (id' & Hid' & Hp)%list_elem_of_omap & Hi)%list_elem_of_omap.
  apply trade_of_id in Hp as (? & ? & ? & ? & ->). by injection Hi as ->.
Qed.
End prints.
