(* ===== verification/WsSession.v ===== *)
(** One WebSocket connection ([src/src/gateway/ws/mod.rs], [Connection]): its
    subscriptions and baselines, the filter on the broadcast, the re-snapshot of a
    laggard; and the system it forms with the market-data service, the broadcast ring
    of [tokio] and a client that follows the protocol. *)

From S2P Require Export Subscription.

Definition MAX_SUBSCRIPTIONS_PER_CONNECTION : Z := 256.
Definition MAX_BATCH_SIZE : Z := 64.

(** ** Frames ([protocol.rs]) *)

Record SubscribeParams := {
  sp_channel : SubscriptionChannel; sp_symbol : string; sp_depth : option Z }.
(** A [BatchItem] has the fields of [SubscribeParams]. *)
Record BatchParams := {
  bp_request_id : option string; bp_subscriptions : list SubscribeParams }.

(** The subscription actions; the control actions read the connection's claims only. *)
Inductive ClientAction :=
  | Subscribe (params : SubscribeParams)
  | Unsubscribe (params : SubscribeParams)
  | BatchSubscribe (batch : BatchParams)
  | BatchUnsubscribe (batch : BatchParams)
  | ListSubscriptions.

Definition decode_error (request_id : option string) (message : string) : WsError :=
  {| wse_schema := WS_ERROR_SCHEMA; wse_code := WcBadRequest; wse_category := WgDecode;
     wse_message := message; wse_request_id := request_id; wse_retryable := false;
     wse_retry_after_ms := None; wse_terminal := false |}.

Definition as_validation (e : WsError) : WsError :=
  {| wse_schema := wse_schema e; wse_code := wse_code e; wse_category := WgValidation;
     wse_message := wse_message e; wse_request_id := wse_request_id e;
     wse_retryable := wse_retryable e; wse_retry_after_ms := wse_retry_after_ms e;
     wse_terminal := wse_terminal e |}.

Definition cap_error (request_id : option string) : WsError :=
  as_validation (decode_error request_id "subscription cap reached (max 256 per connection)").
Definition batch_too_large (request_id : option string) : WsError :=
  as_validation (decode_error request_id "batch too large (max 64 items per batch action)").

(** ** The connection *)

Record Connection := {
  cn_subscriptions : gmap (SubscriptionChannel * string) (option Z);
  cn_baselines : gmap string Z;
}.

Definition Connection_new : Connection := {| cn_subscriptions := ∅; cn_baselines := ∅ |}.

Definition set_subscriptions (m : gmap (SubscriptionChannel * string) (option Z))
    (c : Connection) : Connection :=
  {| cn_subscriptions := m; cn_baselines := cn_baselines c |}.
Definition set_baselines (m : gmap string Z) (c : Connection) : Connection :=
  {| cn_subscriptions := cn_subscriptions c; cn_baselines := m |}.

(** [if let WsMessage::OrderbookSnapshot { sequence, .. } = &snapshot
    { self.baselines.insert(key, sequence) }]. *)
Definition rebase (key : string) (snapshot : WsMessage) (c : Connection) : Connection :=
  match snapshot with
  | WsOrderbookSnapshot _ _ sequence _ _ => set_baselines (<[key := sequence]> (cn_baselines c)) c
  | _ => c
  end.

(** The channel, key and sequence a broadcast message is routed by. *)
Definition classify (message : WsMessage) :
    option (SubscriptionChannel * string * option Z) :=
  match message with
  | WsOrderbookDelta symbol sequence _ => Some (ChOrderbook, symbol, Some sequence)
  | WsTrade _ symbol _ _ _ _ _ => Some (ChTrades, symbol, None)
  | WsFill _ _ _ _ _ instrument _ _ _ _ => Some (ChFills, instrument, None)
  | WsPrice symbol _ => Some (ChPrices, symbol, None)
  | WsQuote symbol _ _ _ _ _ _ _ => Some (ChQuotes, symbol, None)
  | _ => None
  end.

(** Named [conn_filter]: [filter] is the standard library's. *)
Definition conn_filter (message : WsMessage) (c : Connection) : Connection * option WsMessage :=
  match classify message with
  | None => (c, None)
  | Some (channel, key, sequence) =>
      match cn_subscriptions c !! (channel, key) with
      | None => (c, None)
      | Some _ =>
          match channel, sequence with
          | ChOrderbook, Some sequence =>
              let baseline := default 0 (cn_baselines c !! key) in
              if sequence <=? baseline then (c, None)
              else (set_baselines (<[key := sequence]> (cn_baselines c)) c, Some message)
          | _, _ => (c, Some message)
          end
      end
  end.

Definition channel_debug (c : SubscriptionChannel) : string :=
  match c with
  | ChOrderbook => "Orderbook" | ChTrades => "Trades" | ChQuotes => "Quotes"
  | ChPrices => "Prices" | ChFills => "Fills"
  end.

Definition list_subscriptions (c : Connection) : WsMessage :=
  let active :=
    (λ e : SubscriptionChannel * string * option Z,
       {| as_channel := e.1.1; as_symbol := Some e.1.2; as_underlying := None;
          as_depth := e.2 |}) <$> map_to_list (cn_subscriptions c) in
  WsSubscriptionList
    (sort_by_key (pair_leb String.leb String.leb)
       (λ a, (default "" (as_symbol a), channel_debug (as_channel a))) active).

Definition first_error (messages : list WsMessage) : option string :=
  head (omap (λ m, match m with WsErrorMessage e => Some (wse_message e) | _ => None end)
         messages).

(** [matches!(m, OrderbookSnapshot { .. } | Error(_))]. *)
Definition is_snapshot_or_error (m : WsMessage) : bool :=
  match m with WsOrderbookSnapshot _ _ _ _ _ | WsErrorMessage _ => true | _ => false end.

(** The levels a client keeps, per symbol. *)
Notation ClientView := (gmap Symbol (gmap (BookSide * Z) Z)) (only parsing).

Section connection.
Context `{Upstream}.

Definition resolve_key (channel : SubscriptionChannel) (symbol : string) :
    result WsError (string * option Symbol) :=
  match channel with
  | ChPrices => Ok (symbol, None)
  | _ =>
      match Symbol_parse symbol with
      | Ok parsed => Ok (parsed, Some parsed)
      | Err e => Err (ws_error (venue_error_from_symbol e) None)
      end
  end.

Definition subscribe (params : SubscribeParams) (g : OrderbookSubscriptionManager)
    (c : Connection) : Connection * list WsMessage :=
  match resolve_key (sp_channel params) (sp_symbol params) with
  | Err e => (c, [WsErrorMessage e])
  | Ok (key, parsed) =>
      let entry := (sp_channel params, key) in
      if bool_decide (cn_subscriptions c !! entry = None)
         && (MAX_SUBSCRIPTIONS_PER_CONNECTION <=? Z.of_nat (size (cn_subscriptions c)))
      then (c, [WsErrorMessage (cap_error None)])
      else
        let c := set_subscriptions (<[entry := sp_depth params]> (cn_subscriptions c)) c in
        let '(c, out) :=
          match sp_channel params, parsed with
          | ChOrderbook, Some symbol =>
              let snapshot := orderbook_snapshot g symbol (sp_depth params) in
              (rebase key snapshot c, [snapshot])
          | _, _ => (c, [])
          end in
        (c, out ++ [WsSubscribed (sp_channel params) key])
  end.

Definition unsubscribe_key (channel : SubscriptionChannel) (symbol : string) : string :=
  match channel with
  | ChPrices => symbol
  | _ => match Symbol_parse symbol with Ok parsed => parsed | Err _ => symbol end
  end.

Definition unsubscribe (channel : SubscriptionChannel) (symbol : string) (c : Connection) :
    Connection * list WsMessage :=
  let key := unsubscribe_key channel symbol in
  let c := set_subscriptions (delete (channel, key) (cn_subscriptions c)) c in
  let c :=
    match channel with
    | ChOrderbook => set_baselines (delete key (cn_baselines c)) c
    | _ => c
    end in
  (c, [WsUnsubscribed channel key]).

Definition batch_step (g : OrderbookSubscriptionManager)
    (s : Connection * list WsMessage * list SubscriptionResult) (item : SubscribeParams) :
    Connection * list WsMessage * list SubscriptionResult :=
  let '(c, out, results) := s in
  let '(c, messages) := subscribe item g c in
  (c, out ++ List.filter is_snapshot_or_error messages,
   results ++ [{| sr_channel := sp_channel item; sr_symbol := Some (sp_symbol item);
                  sr_underlying := None; sr_status := default "ok" (first_error messages) |}]).

Definition batch_subscribe (batch : BatchParams) (g : OrderbookSubscriptionManager)
    (c : Connection) : Connection * list WsMessage :=
  if MAX_BATCH_SIZE <? Z.of_nat (length (bp_subscriptions batch))
  then (c, [WsErrorMessage (batch_too_large (bp_request_id batch))])
  else
    let '(c, out, results) := foldl (batch_step g) (c, [], []) (bp_subscriptions batch) in
    (c, out ++ [WsBatchSubscribed (bp_request_id batch) results]).

Definition batch_unsubscribe (batch : BatchParams) (c : Connection) :
    Connection * list WsMessage :=
  if MAX_BATCH_SIZE <? Z.of_nat (length (bp_subscriptions batch))
  then (c, [WsErrorMessage (batch_too_large (bp_request_id batch))])
  else
    (foldl (λ c item, (unsubscribe (sp_channel item) (sp_symbol item) c).1) c
       (bp_subscriptions batch),
     [WsBatchUnsubscribed (bp_request_id batch)
        ((λ item, {| sr_channel := sp_channel item; sr_symbol := Some (sp_symbol item);
                     sr_underlying := None; sr_status := "ok" |}) <$> bp_subscriptions batch)]).

Definition on_action (action : ClientAction) (g : OrderbookSubscriptionManager)
    (c : Connection) : Connection * list WsMessage :=
  match action with
  | Subscribe params => subscribe params g c
  | Unsubscribe params => unsubscribe (sp_channel params) (sp_symbol params) c
  | BatchSubscribe batch => batch_subscribe batch g c
  | BatchUnsubscribe batch => batch_unsubscribe batch c
  | ListSubscriptions => (c, [list_subscriptions c])
  end.

Definition resync_marker (channel : SubscriptionChannel) (symbol : string)
    (g : OrderbookSubscriptionManager) : WsMessage :=
  WsResync channel symbol
    match channel with
    | ChPrices => None
    | _ =>
        match Symbol_parse symbol with
        | Ok parsed =>
            match orderbook_snapshot g parsed (Some 0) with
            | WsOrderbookSnapshot _ _ sequence _ _ => Some sequence
            | _ => Some 0
            end
        | Err _ => None
        end
    end.

Definition resnapshot_step (g : OrderbookSubscriptionManager) (s : Connection * list WsMessage)
    (e : SubscriptionChannel * string * option Z) : Connection * list WsMessage :=
  let '(c, out) := s in
  let '(channel, key, depth) := e in
  match channel with
  | ChOrderbook =>
      match Symbol_parse key with
      | Ok symbol =>
          let snapshot := orderbook_snapshot g symbol depth in
          (rebase key snapshot c, out ++ [snapshot])
      | Err _ => (c, out)
      end
  | _ => (c, out ++ [resync_marker channel key g])
  end.

Definition resnapshot (g : OrderbookSubscriptionManager) (c : Connection) :
    Connection * list WsMessage :=
  foldl (resnapshot_step g) (c, [])
    (sort_by_key (pair_leb String.leb Z.leb) (λ e, (e.1.2, channel_u8 e.1.1))
       (map_to_list (cn_subscriptions c))).

(** ** The system

    The actor commits events under the instrument's guard and then sends their
    messages, in order ([ws_outbox]); the ring keeps the newest [mg_capacity] of them
    for this receiver, and one that loses a message is told so on its next receive.
    The client keeps, per symbol, the levels the protocol describes: a snapshot
    replaces them, a change sets one, quantity zero removes it. *)

Definition set_change (v : gmap (BookSide * Z) Z) (ch : PriceLevelChange) :
    gmap (BookSide * Z) Z :=
  if plc_quantity ch =? 0 then delete (plc_side ch, plc_price ch) v
  else <[(plc_side ch, plc_price ch) := plc_quantity ch]> v.

Definition set_levels (side : BookSide) (l : list PriceLevelData) (v : gmap (BookSide * Z) Z) :
    gmap (BookSide * Z) Z :=
  foldl (λ v d, <[(side, pld_price d) := pld_quantity d]> v) v l.

Definition client_receive (v : ClientView) (message : WsMessage) : ClientView :=
  match message with
  | WsOrderbookSnapshot _ symbol _ bids asks =>
      <[symbol := set_levels Ask asks (set_levels Bid bids ∅)]> v
  | WsOrderbookDelta symbol _ changes =>
      <[symbol := foldl set_change (default ∅ (v !! symbol)) changes]> v
  | _ => v
  end.

Record WsSystem := {
  ws_manager : OrderbookSubscriptionManager;
  ws_outbox : list WsMessage;
  ws_ring : list WsMessage;
  ws_lagged : bool;
  ws_conn : Connection;
  ws_client : ClientView;
}.

(** [broadcast::Sender::send] as this receiver sees it. *)
Definition ring_push (capacity : Z) (message : WsMessage) (ring : list WsMessage)
    (lagged : bool) : list WsMessage * bool :=
  if capacity <=? Z.of_nat (length ring) then (tail ring ++ [message], true)
  else (ring ++ [message], lagged).

(** The levels an event changes. *)
Definition changed_levels (g : OrderbookSubscriptionManager) (e : VenueEvent) :
    list (BookSide * Z) :=
  match command_symbol (ev_command e) with
  | None => []
  | Some symbol =>
      (λ ch, (plc_side ch, plc_price ch)) <$>
        (InstrumentState_apply (default InstrumentState_new (mg_instruments g !! symbol))
           (ev_command e) (ev_outcome e)).2
  end.

(** The steps of the system; [ok] restricts the events that are committed. *)
Inductive ws_step (ok : OrderbookSubscriptionManager → VenueEvent → Prop) :
    WsSystem → WsSystem → Prop :=
  | step_commit x e g' s ms :
      ok (ws_manager x) e → on_committed_event (ws_manager x) e = (g', s, ms) →
      ws_step ok x {| ws_manager := g'; ws_outbox := ws_outbox x ++ ms; ws_ring := ws_ring x;
                      ws_lagged := ws_lagged x; ws_conn := ws_conn x; ws_client := ws_client x |}
  | step_send x m o r l :
      ws_outbox x = m :: o →
      ring_push (mg_capacity (ws_manager x)) m (ws_ring x) (ws_lagged x) = (r, l) →
      ws_step ok x {| ws_manager := ws_manager x; ws_outbox := o; ws_ring := r;
                      ws_lagged := l; ws_conn := ws_conn x; ws_client := ws_client x |}
  | step_receive x m r c f :
      ws_lagged x = false → ws_ring x = m :: r → conn_filter m (ws_conn x) = (c, f) →
      ws_step ok x {| ws_manager := ws_manager x; ws_outbox := ws_outbox x; ws_ring := r;
                      ws_lagged := false; ws_conn := c;
                      ws_client := from_option (client_receive (ws_client x)) (ws_client x) f |}
  | step_lagged x c out :
      ws_lagged x = true → resnapshot (ws_manager x) (ws_conn x) = (c, out) →
      ws_step ok x {| ws_manager := ws_manager x; ws_outbox := ws_outbox x;
                      ws_ring := ws_ring x; ws_lagged := false; ws_conn := c;
                      ws_client := foldl client_receive (ws_client x) out |}
  | step_action x a c out :
      on_action a (ws_manager x) (ws_conn x) = (c, out) →
      ws_step ok x {| ws_manager := ws_manager x; ws_outbox := ws_outbox x;
                      ws_ring := ws_ring x; ws_lagged := ws_lagged x; ws_conn := c;
                      ws_client := foldl client_receive (ws_client x) out |}
  | step_connect x :
      ws_step ok x {| ws_manager := ws_manager x; ws_outbox := ws_outbox x; ws_ring := [];
                      ws_lagged := false; ws_conn := Connection_new; ws_client := ∅ |}.

Definition ws_initial (capacity connections : Z) : WsSystem :=
  {| ws_manager := with_limits capacity connections; ws_outbox := []; ws_ring := [];
     ws_lagged := false; ws_conn := Connection_new; ws_client := ∅ |}.
End connection.
