(* ===== verification/WsProps.v ===== *)
(** What a subscribed client can rely on: whatever the interleaving of commits, sends,
    deliveries, lag and re-subscription, the deltas it is still owed take its levels to those
    of the book.  Then concrete runs over the sample book: the witnesses of the market-data
    theorems, and a kill switch whose swept quotes stay in the published depth. *)

From S2P Require Export WsSession SubscriptionProps ExecutorProps SampleBook.

(** The symbol grammar: the canonical form of a symbol parses to itself. *)
Class SymbolLaws `{Upstream} : Prop := {
  parse_canonical raw s : Symbol_parse raw = Ok s → Symbol_parse s = Ok s;
}.

(** ** The client's levels *)

Definition view_at (v : gmap (BookSide * Z) Z) (l : BookSide * Z) : Z := default 0 (v !! l).

Lemma view_at_set_change v ch l :
  view_at (set_change v ch) l =
    if decide (l = (plc_side ch, plc_price ch)) then plc_quantity ch else view_at v l.
Proof.
  unfold set_change, view_at. destruct (Z.eqb_spec (plc_quantity ch) 0) as [E|E]; case_decide as Hl.
  - by rewrite Hl, lookup_delete_eq, E.
  - by rewrite lookup_delete_ne.
  - by rewrite Hl, lookup_insert_eq.
  - by rewrite lookup_insert_ne.
Qed.

(** Changes that report the resulting quantity take a level to it. *)
Lemma view_at_changes changes v l (q : Z) :
  (∀ ch, ch ∈ changes → (plc_side ch, plc_price ch) = l → plc_quantity ch = q) →
  (l ∉ (λ ch, (plc_side ch, plc_price ch)) <$> changes → view_at v l = q) →
  view_at (foldl set_change v changes) l = q.
Proof.
  revert v. induction changes as [|ch changes IH]; intros v Hq Hv; cbn; [apply Hv; set_solver|].
  apply IH; [intros; apply Hq; [by right|done]|]. intros Hl. rewrite view_at_set_change.
  case_decide as E; [symmetry in E; apply Hq; [by left|done]|].
  apply Hv. cbn. rewrite not_elem_of_cons. done.
Qed.

Lemma set_levels_other side l v s p :
  (side ≠ s ∨ p ∉ pld_price <$> l) → set_levels side l v !! (s, p) = v !! (s, p).
Proof.
  unfold set_levels. revert v. induction l as [|d l IH]; intros v Hn; cbn; [done|].
  rewrite IH by (cbn in Hn; set_solver). apply lookup_insert_ne. cbn in Hn. set_solver.
Qed.

Lemma set_levels_in side l v p q :
  NoDup (pld_price <$> l) → {| pld_price := p; pld_quantity := q |} ∈ l →
  set_levels side l v !! (side, p) = Some q.
Proof.
  revert v. induction l as [|d l IH]; intros v Hn Hin; [by apply not_elem_of_nil in Hin|].
  cbn in Hn. apply NoDup_cons in Hn as [Hd Hn].
  change (set_levels side l (<[(side, pld_price d) := pld_quantity d]> v) !! (side, p) = Some q).
  apply elem_of_cons in Hin as [<-|Hin].
  - rewrite set_levels_other by (right; done). apply lookup_insert_eq.
  - by apply IH.
Qed.

(** One side of a snapshot sets exactly its levels. *)
Lemma view_at_side side m v p l :
  (∀ x, x ∈ l ↔ x ∈ map_to_list m) → NoDup l.*1 → v !! (side, p) = None →
  view_at (set_levels side (levels_of l None) v) (side, p) = default 0 (m !! p).
Proof.
  intros Hl Hn Hv. unfold view_at, levels_of.
  assert (pld_price <$> ((λ kv, {| pld_price := kv.1; pld_quantity := kv.2 |}) <$> l) = l.*1) as E.
  { rewrite <-list_fmap_compose. by apply list_fmap_ext. }
  destruct (m !! p) as [q|] eqn:Hp.
  - erewrite set_levels_in; [done|by rewrite E|].
    apply list_elem_of_fmap. exists (p, q). split; [done|]. by apply Hl, elem_of_map_to_list.
  - rewrite set_levels_other, Hv; [done|]. right. rewrite E.
    intros ([p' q] & -> & Hin)%list_elem_of_fmap. apply Hl, elem_of_map_to_list in Hin.
    cbn in Hp. congruence.
Qed.

(** The state of an instrument as the manager serves it. *)
Definition served (g : OrderbookSubscriptionManager) (sym : Symbol) : InstrumentState :=
  default InstrumentState_new (mg_instruments g !! sym).

Definition view_of (v : ClientView) (sym : Symbol) : gmap (BookSide * Z) Z :=
  default ∅ (v !! sym).

Lemma btree_list_keys m : NoDup (btree_list m).*1.
Proof. unfold btree_list. rewrite sort_by_key_perm. apply NoDup_fst_map_to_list. Qed.

(** A full snapshot gives the client the book. *)
Lemma snapshot_view g sym v s p :
  view_at (view_of (client_receive v (orderbook_snapshot g sym None)) sym) (s, p) =
    qty_at (served g sym) s p.
Proof.
  unfold orderbook_snapshot, served, view_of, qty_at, client_receive, instrument_snapshot.
  destruct (mg_instruments g !! sym) as [st|]; cbv iota beta; rewrite lookup_insert_eq; [|by destruct s].
  cbn [default from_option id].
  assert (∀ x, x ∈ reverse (btree_list (is_bids st)) ↔ x ∈ map_to_list (is_bids st)) as Hb.
  { intros. unfold btree_list. by rewrite elem_of_reverse, elem_of_sort_by_key. }
  assert (∀ x, x ∈ btree_list (is_asks st) ↔ x ∈ map_to_list (is_asks st)) as Ha.
  { intros. unfold btree_list. by rewrite elem_of_sort_by_key. }
  assert (NoDup (reverse (btree_list (is_bids st))).*1) as Hn.
  { rewrite fmap_reverse, reverse_Permutation. apply btree_list_keys. }
  destruct s; cbn [level].
  - unfold view_at. rewrite set_levels_other by (by left). by apply view_at_side.
  - apply view_at_side; [done|apply btree_list_keys|].
    rewrite set_levels_other; [done|by left].
Qed.

(** ** Deltas in flight *)

Definition delta_of (sym : Symbol) (m : WsMessage) : option (Z * list PriceLevelChange) :=
  match m with
  | WsOrderbookDelta s q changes => if decide (s = sym) then Some (q, changes) else None
  | _ => None
  end.

(** The deltas of [sym] not yet delivered, oldest first. *)
Definition owed (sym : Symbol) (x : WsSystem) : list (Z * list PriceLevelChange) :=
  omap (delta_of sym) (ws_ring x ++ ws_outbox x).

(** The levels once the owed deltas above the baseline are applied. *)
Definition catch_up (v : gmap (BookSide * Z) Z) (baseline : Z)
    (deltas : list (Z * list PriceLevelChange)) : gmap (BookSide * Z) Z :=
  foldl (λ v d, if baseline <? d.1 then foldl set_change v d.2 else v) v deltas.

Definition baseline_of (c : Connection) (sym : Symbol) : Z := default 0 (cn_baselines c !! sym).

(** A market-maker requote does not change this level. *)
Definition mm_quiet (sym : Symbol) (l : BookSide * Z) (g : OrderbookSubscriptionManager)
    (e : VenueEvent) : Prop :=
  is_market_maker_command (ev_command e) = true →
  command_symbol (ev_command e) = Some sym → l ∉ changed_levels g e.

Lemma catch_up_stale v b deltas : Forall (λ d, d.1 ≤ b) deltas → catch_up v b deltas = v.
Proof.
  unfold catch_up. induction 1 as [|d deltas Hd _ IH]; cbn; [done|].
  by rewrite (proj2 (Z.ltb_ge _ _) Hd).
Qed.

Lemma catch_up_app v b d1 d2 : catch_up v b (d1 ++ d2) = catch_up (catch_up v b d1) b d2.
Proof. apply foldl_app. Qed.

(** Raising the baseline below every remaining delta changes nothing. *)
Lemma catch_up_above v b b' deltas :
  Forall (λ d, b < d.1 ∧ b' < d.1) deltas → catch_up v b deltas = catch_up v b' deltas.
Proof.
  unfold catch_up. intros HF. revert v. induction HF as [|d deltas [H1 H2] _ IH]; intros v; cbn; [done|].
  by rewrite (proj2 (Z.ltb_lt _ _) H1), (proj2 (Z.ltb_lt _ _) H2).
Qed.

Section reconstruct.
Context `{HU : Upstream} {HL : SymbolLaws} (sym : Symbol) (l : BookSide * Z).

(** What an event does to the served state of [sym] and to the deltas in flight. *)
Inductive commit_effect (g g' : OrderbookSubscriptionManager) (e : VenueEvent) :
    list (Z * list PriceLevelChange) → Prop :=
  | effect_silent :
      is_sequence (served g' sym) = is_sequence (served g sym) →
      (mm_quiet sym l g e → qty_at (served g' sym) l.1 l.2 = qty_at (served g sym) l.1 l.2) →
      commit_effect g g' e []
  | effect_delta changes :
      is_sequence (served g' sym) = is_sequence (served g sym) + 1 →
      (∀ v, view_at v l = qty_at (served g sym) l.1 l.2 →
         view_at (foldl set_change v changes) l = qty_at (served g' sym) l.1 l.2) →
      commit_effect g g' e [(is_sequence (served g sym) + 1, changes)].

Lemma prints_no_deltas event symbol :
  omap (delta_of sym) (emit_fills_and_trades event symbol) = [].
Proof.
  unfold emit_fills_and_trades. repeat case_match; try done. rewrite omap_app.
  generalize (f :: l0). intros fills.
  assert (omap (delta_of sym) (fill_print event s symbol <$> fills) = []) as ->
    by (induction fills; done).
  unfold pair_trades. destruct (foldl _ _ _) as [order m].
  induction order as [|id order IH]; cbn; [done|].
  destruct (trade_of _ _ _ _) eqn:E; [|done]. cbn.
  apply trade_of_id in E as (? & ? & ? & ? & ->). done.
Qed.

Lemma served_insert g symbol st :
  served (set_instruments (<[symbol := st]> (mg_instruments g)) g) sym =
    if decide (symbol = sym) then st else served g sym.
Proof.
  unfold served. cbn. case_decide as Hs; [subst; by rewrite lookup_insert_eq|].
  by rewrite lookup_insert_ne.
Qed.

Lemma qty_set_sequence n st s p : qty_at (set_sequence n st) s p = qty_at st s p.
Proof. by destruct s. Qed.

Lemma on_committed_event_effect g e g' s ms :
  on_committed_event g e = (g', s, ms) → 0 ≤ is_sequence (served g sym) →
  is_sequence (served g' sym) < int_max u64 →
  commit_effect g g' e (omap (delta_of sym) ms).
Proof.
  unfold on_committed_event. intros E Hpos Hmax.
  destruct (command_symbol (ev_command e)) as [symbol|] eqn:Hc.
  2: { injection E as <- _ <-. unfold emit_price. repeat case_match; by apply effect_silent. }
  fold (served g symbol) in E. unfold fold_event in E.
  destruct (InstrumentState_apply (served g symbol) _ _) as [st changes] eqn:Ha.
  destruct (apply_spec _ _ _ _ _ Ha) as (Hseq & _ & Hq & Hrest).
  destruct (bool_decide (changes = []) || is_market_maker_command (ev_command e)) eqn:Hs.
  { injection E as <- _ <-. rewrite prints_no_deltas in *. apply effect_silent;
      rewrite served_insert; case_decide as Hsym; subst; try done.
    intros Hquiet. apply Hrest. destruct l as [sd p]. cbn.
    apply orb_true_iff in Hs as [Hs%bool_decide_eq_true|Hmm]; [subst; set_solver|].
    specialize (Hquiet Hmm Hc). unfold changed_levels in Hquiet. rewrite Hc in Hquiet.
    fold (served g sym) in Hquiet. by rewrite Ha in Hquiet. }
  apply orb_false_iff in Hs as [Hs%bool_decide_eq_false _].
  destruct changes as [|ch changes]; [done|]. injection E as <- _ <-.
  cbn [app omap list_omap delta_of]. rewrite prints_no_deltas.
  rewrite served_insert in Hmax.
  case_decide as Hsym; [subst symbol|].
  2: { apply effect_silent; rewrite served_insert; by rewrite decide_False. }
  cbn [set_sequence is_sequence] in *. rewrite Hseq in *.
  assert (checked_add u64 (is_sequence (served g sym)) 1 = Some (is_sequence (served g sym) + 1)) as Hadd.
  { unfold checked_add, narrow in *. destruct (fits_reflect u64 (is_sequence (served g sym) + 1)) as [|Hf];
      [done|]. cbn in Hmax. lia. }
  rewrite Hadd in *. cbn [default from_option id] in *. apply effect_delta.
  - by rewrite served_insert, decide_True.
  - intros v Hv. rewrite served_insert, decide_True by done. rewrite qty_set_sequence.
    apply view_at_changes.
    + intros ch' Hin El. rewrite (Hq _ Hin). by rewrite <-El.
    + intros Hn. rewrite Hv. symmetry. apply Hrest. by destruct l.
Qed.

(** ** The connection *)

Record conn_ok (g : OrderbookSubscriptionManager) (deltas : list (Z * list PriceLevelChange))
    (lagged : bool) (c : Connection) (v : ClientView) : Prop := {
  ok_baseline : baseline_of c sym ≤ is_sequence (served g sym);
  ok_canonical key d :
    cn_subscriptions c !! (ChOrderbook, key) = Some d → Symbol_parse key = Ok key;
  ok_synced : cn_subscriptions c !! (ChOrderbook, sym) = Some None → lagged = false →
    view_at (catch_up (view_of v sym) (baseline_of c sym) deltas) l =
      qty_at (served g sym) l.1 l.2;
}.

Lemma snapshot_sequence g symbol depth :
  ∃ bids asks, orderbook_snapshot g symbol depth =
    WsOrderbookSnapshot ChOrderbook symbol (is_sequence (served g symbol)) bids asks.
Proof.
  unfold orderbook_snapshot, served.
  destruct (mg_instruments g !! symbol); by eexists _, _.
Qed.

(** What a fresh snapshot of [symbol] does to the connection and the client. *)
Lemma rebase_snapshot g symbol depth c v :
  let snap := orderbook_snapshot g symbol depth in
  (baseline_of (rebase symbol snap c) sym =
     if decide (symbol = sym) then is_sequence (served g sym) else baseline_of c sym) ∧
  cn_subscriptions (rebase symbol snap c) = cn_subscriptions c ∧
  (symbol ≠ sym → view_of (client_receive v snap) sym = view_of v sym).
Proof.
  destruct (snapshot_sequence g symbol depth) as (bids & asks & E). cbn zeta. rewrite E. cbn.
  unfold baseline_of, view_of. cbn. split_and!; [|done|].
  - case_decide as Hs; [subst; by rewrite lookup_insert_eq|by rewrite lookup_insert_ne].
  - intros Hs. by rewrite lookup_insert_ne.
Qed.

Context (g : OrderbookSubscriptionManager) (deltas : list (Z * list PriceLevelChange))
  (Hpos : 0 ≤ is_sequence (served g sym))
  (Hle : Forall (λ d, d.1 ≤ is_sequence (served g sym)) deltas).

(** A connection just given a full snapshot is in step, whatever it is still owed. *)
Lemma snapshot_synced v :
  view_at (catch_up (view_of (client_receive v (orderbook_snapshot g sym None)) sym)
    (is_sequence (served g sym)) deltas) l = qty_at (served g sym) l.1 l.2.
Proof using Hle. rewrite catch_up_stale by done. destruct l. apply snapshot_view. Qed.

Lemma snapshot_is symbol depth : is_snapshot_or_error (orderbook_snapshot g symbol depth) = true.
Proof. by destruct (snapshot_sequence g symbol depth) as (? & ? & ->). Qed.

(** A message that leaves the client's levels alone. *)
Definition quiet_message (m : WsMessage) : Prop := ∀ v, client_receive v m = v.

Ltac quiet_messages :=
  repeat (apply Forall_nil_2 || apply Forall_cons_2); rewrite ?snapshot_is; done.

Lemma subscribe_ok params lagged c v c' out :
  conn_ok g deltas lagged c v → subscribe params g c = (c', out) →
  conn_ok g deltas lagged c' (foldl client_receive v out) ∧
  Forall (λ m, is_snapshot_or_error m = false → quiet_message m) out.
Proof using Hle Hpos HL.
  intros [Hb Hc Hs]. unfold subscribe.
  destruct (resolve_key (sp_channel params) (sp_symbol params)) as [[key parsed]|e] eqn:Hk.
  2: { intros [= <- <-]. split; [by split|]. quiet_messages. }
  case_match; [intros [= <- <-]; split; [by split|]; quiet_messages|].
  destruct (decide (sp_channel params = ChOrderbook)) as [Hch|Hch].
  - rewrite Hch in *. cbn in Hk. destruct (Symbol_parse (sp_symbol params)) as [s|] eqn:Hp; [|done].
    injection Hk as <- <-. intros [= <- <-].
    set (c1 := set_subscriptions _ c).
    destruct (rebase_snapshot g s (sp_depth params) c1 v) as (Eb & Es & Ev).
    split; [|quiet_messages]. cbn [foldl client_receive]. split.
    + rewrite Eb. case_decide; [lia|done].
    + intros key d. rewrite Es. cbn. rewrite lookup_insert_Some.
      intros [[[= <-] _]|[_ Hd]]; [by eapply parse_canonical|by eapply Hc].
    + rewrite Es, Eb. cbn. intros Hsub Hlag. destruct (decide (s = sym)) as [->|Hne].
      * rewrite lookup_insert_eq in Hsub. injection Hsub as ->. apply snapshot_synced.
      * rewrite lookup_insert_ne in Hsub by congruence. rewrite Ev by done. by apply Hs.
  - assert (∀ c2, (c2, [WsSubscribed (sp_channel params) key]) = (c', out) →
      c2 = set_subscriptions (<[(sp_channel params, key) := sp_depth params]> (cn_subscriptions c)) c →
      conn_ok g deltas lagged c' (foldl client_receive v out) ∧
      Forall (λ m, is_snapshot_or_error m = false → quiet_message m) out) as Hgen.
    { intros c2 [= <- <-] ->. split; [|quiet_messages]. split; cbn.
      - done.
      - intros key' d. rewrite lookup_insert_ne by congruence. by apply Hc.
      - rewrite lookup_insert_ne by congruence. by apply Hs. }
    intros E. destruct (sp_channel params); [done|..]; (eapply Hgen; [exact E|done]).
Qed.

Lemma unsubscribe_ok channel symbol lagged c v c' out :
  conn_ok g deltas lagged c v → unsubscribe channel symbol c = (c', out) →
  conn_ok g deltas lagged c' v ∧ foldl client_receive v out = v.
Proof using Hpos.
  intros [Hb Hc Hs] [= <- <-]. split; [|done].
  generalize (unsubscribe_key channel symbol). intros key.
  assert (∀ k d, delete (channel, key) (cn_subscriptions c) !! (ChOrderbook, k) = Some d →
    cn_subscriptions c !! (ChOrderbook, k) = Some d ∧ (channel, key) ≠ (ChOrderbook, k)) as Hd.
  { intros k d [Hne Hk]%lookup_delete_Some. done. }
  destruct (decide (channel = ChOrderbook)) as [->|Hch].
  - split; cbn.
    + unfold baseline_of. cbn. destruct (decide (key = sym)) as [->|Hk];
        [by rewrite lookup_delete_eq|by rewrite lookup_delete_ne].
    + intros k d [? _]%Hd. by eapply Hc.
    + intros [Hsub Hne]%Hd Hlag. unfold baseline_of. cbn.
      rewrite lookup_delete_ne by congruence. by apply Hs.
  - assert (∀ c2, cn_subscriptions c2 = delete (channel, key) (cn_subscriptions c) →
      cn_baselines c2 = cn_baselines c → conn_ok g deltas lagged c2 v) as Hgen.
    { intros c2 E1 E2. split; unfold baseline_of; rewrite ?E1, ?E2.
      - done.
      - intros k d [? _]%Hd. by eapply Hc.
      - intros [Hsub _]%Hd. by apply Hs. }
    destruct channel; [done|..]; by apply Hgen.
Qed.

(** Dropping the messages that leave the client alone changes nothing. *)
Lemma foldl_receive_filter v ms :
  Forall (λ m, is_snapshot_or_error m = false → quiet_message m) ms →
  foldl client_receive v (List.filter is_snapshot_or_error ms) = foldl client_receive v ms.
Proof using.
  intros HF. revert v. induction HF as [|m ms Hm _ IH]; intros v; cbn; [done|].
  destruct (is_snapshot_or_error m) eqn:E; cbn; [apply IH|]. by rewrite (Hm eq_refl v).
Qed.

Lemma batch_subscribe_ok batch lagged c v c' out :
  conn_ok g deltas lagged c v → batch_subscribe batch g c = (c', out) →
  conn_ok g deltas lagged c' (foldl client_receive v out).
Proof using Hle Hpos HL.
  intros Hok. unfold batch_subscribe. case_match; [by intros [= <- <-]|].
  destruct (foldl (batch_step g) (c, [], []) (bp_subscriptions batch)) as [[c2 out2] rs] eqn:E.
  intros [= <- <-]. rewrite foldl_app. cbn.
  assert (∀ items c1 out1 rs1, conn_ok g deltas lagged c1 (foldl client_receive v out1) →
    foldl (batch_step g) (c1, out1, rs1) items = (c2, out2, rs) →
    conn_ok g deltas lagged c2 (foldl client_receive v out2)) as Hgen.
  { clear -Hle Hpos HL. induction items as [|item items IH]; intros c1 out1 rs1 H1; cbn [foldl].
    { by intros [= -> -> _]. }
    cbn [batch_step]. destruct (subscribe item g c1) as [c3 ms] eqn:Es.
    destruct (subscribe_ok _ _ _ _ _ _ H1 Es) as [H3 Hq]. apply IH.
    by rewrite foldl_app, foldl_receive_filter. }
  by apply (Hgen (bp_subscriptions batch) c [] []).
Qed.

Lemma on_action_ok a lagged c v c' out :
  conn_ok g deltas lagged c v → on_action a g c = (c', out) →
  conn_ok g deltas lagged c' (foldl client_receive v out).
Proof using Hle Hpos HL.
  intros Hok. destruct a as [params|params|batch|batch|]; cbn [on_action].
  - intros E. by eapply subscribe_ok.
  - intros E. destruct (unsubscribe_ok _ _ _ _ _ _ _ Hok E) as [? ->]. done.
  - by apply batch_subscribe_ok.
  - unfold batch_unsubscribe. case_match; intros [= <- <-]; [done|]. cbn.
    generalize (bp_subscriptions batch). intros items. revert c Hok.
    induction items as [|item items IH]; intros c Hok; cbn; [done|].
    apply IH. exact (proj1 (unsubscribe_ok (sp_channel item) (sp_symbol item) _ _ _ _ _ Hok
      (surjective_pairing _))).
  - by intros [= <- <-].
Qed.

(** The loop of [resnapshot]: the subscriptions stay, and an entry of [sym] puts the
    client in step. *)
Lemma resnapshot_loop c0 c1 v items c v1 out1 out :
  conn_ok g deltas true c1 v1 → cn_subscriptions c1 = cn_subscriptions c0 →
  (∀ e, e ∈ items → cn_subscriptions c0 !! e.1 = Some e.2) →
  v1 = foldl client_receive v out1 →
  foldl (resnapshot_step g) (c1, out1) items = (c, out) →
  cn_subscriptions c = cn_subscriptions c0 ∧
  conn_ok g deltas true c (foldl client_receive v out) ∧
  (cn_subscriptions c0 !! (ChOrderbook, sym) = Some None →
   (ChOrderbook, sym, None) ∈ items ∨
     view_at (catch_up (view_of v1 sym) (baseline_of c1 sym) deltas) l =
       qty_at (served g sym) l.1 l.2 →
   view_at (catch_up (view_of (foldl client_receive v out) sym) (baseline_of c sym) deltas) l =
     qty_at (served g sym) l.1 l.2).
Proof using Hle Hpos HL.
  revert c1 v1 out1. induction items as [|[[channel key] depth] items IH];
    intros c1 v1 out1 Hok Hsub Hitems -> E; cbn [foldl] in E.
  { injection E as <- <-. split_and!; [done|done|]. intros _ [?%not_elem_of_nil|?]; done. }
  assert (∀ e, e ∈ items → cn_subscriptions c0 !! e.1 = Some e.2) as Hrest
    by (intros; apply Hitems; by right).
  assert (cn_subscriptions c0 !! (channel, key) = Some depth) as Hkey
    by (apply (Hitems (channel, key, depth)); by left).
  destruct (decide (channel = ChOrderbook)) as [->|Hch].
  - cbn [resnapshot_step] in E.
    assert (Symbol_parse key = Ok key) as Hp by (eapply ok_canonical; [exact Hok|by rewrite Hsub]).
    rewrite Hp in E. destruct (rebase_snapshot g key depth c1 (foldl client_receive v out1)) as (Eb & Es & Ev).
    destruct Hok as [Hb Hc _].
    eapply IH in E as (? & ? & Hfin); [| |congruence|done|by rewrite foldl_app].
    2: { split; [|by rewrite Es|done]. rewrite Eb. case_decide; [lia|done]. }
    split_and!; [done..|]. intros Hs Hor. apply Hfin; [done|]. cbn [foldl].
    destruct (decide (key = sym)) as [->|Hne].
    + assert (depth = None) as -> by congruence. right. rewrite Eb. apply snapshot_synced.
    + rewrite Eb, Ev by done. destruct Hor as [[?|?]%elem_of_cons|?]; [congruence|by left|by right].
  - assert (resnapshot_step g (c1, out1) (channel, key, depth) =
      (c1, out1 ++ [resync_marker channel key g])) as Estep by by destruct channel.
    rewrite Estep in E. eapply IH in E as (? & ? & Hfin); [|exact Hok|done|done|by rewrite foldl_app].
    split_and!; [done..|]. intros Hs Hor. apply Hfin; [done|]. cbn [foldl].
    destruct Hor as [[?|?]%elem_of_cons|?]; [congruence|by left|by right].
Qed.

Lemma resnapshot_ok c v c' out :
  conn_ok g deltas true c v → resnapshot g c = (c', out) →
  conn_ok g deltas false c' (foldl client_receive v out).
Proof using Hle Hpos HL.
  intros Hok E. eapply (resnapshot_loop c c v) in E as (Es & Hok' & Hfin);
    [|exact Hok|done| |done].
  2: { intros [k d]. rewrite elem_of_sort_by_key, elem_of_map_to_list. done. }
  destruct Hok' as [Hb Hc _]. split; [done..|]. rewrite Es. intros Hs _. apply Hfin; [done|].
  left. by rewrite elem_of_sort_by_key, elem_of_map_to_list.
Qed.
End reconstruct.

(** ** The system's invariant *)

Ltac simp_sys :=
  unfold owed in *; cbn [ws_manager ws_outbox ws_ring ws_lagged ws_conn ws_client] in *.

Section system.
Context `{HU : Upstream} {HL : SymbolLaws} (sym : Symbol) (l : BookSide * Z).
Notation seq_of g := (is_sequence (served g sym)).

(** The owed deltas are the last ones, in order, up to the book's sequence. *)
Definition owed_in_order (g : OrderbookSubscriptionManager)
    (deltas : list (Z * list PriceLevelChange)) : Prop :=
  deltas.*1 = seqZ (seq_of g - Z.of_nat (length deltas) + 1) (Z.of_nat (length deltas)).

Record sys_inv (x : WsSystem) : Prop := {
  inv_pos : 0 ≤ seq_of (ws_manager x);
  inv_order : owed_in_order (ws_manager x) (owed sym x);
  inv_conn : conn_ok sym l (ws_manager x) (owed sym x) (ws_lagged x) (ws_conn x) (ws_client x);
}.

Lemma owed_le g deltas : owed_in_order g deltas → Forall (λ d, d.1 ≤ seq_of g) deltas.
Proof.
  intros Ho. assert (Forall (λ q, q ≤ seq_of g) deltas.*1) as HF.
  { rewrite Ho. apply Forall_forall. intros q Hq%elem_of_seqZ. lia. }
  by rewrite Forall_fmap in HF.
Qed.

Lemma owed_tail g d deltas :
  owed_in_order g (d :: deltas) →
  owed_in_order g deltas ∧ Forall (λ d', d.1 < d'.1) deltas.
Proof.
  unfold owed_in_order. cbn [fmap list_fmap length]. rewrite seqZ_cons by lia.
  intros [= Hd Hr]. rewrite Nat2Z.inj_succ in *.
  assert (deltas.*1 = seqZ (seq_of g - Z.of_nat (length deltas) + 1) (Z.of_nat (length deltas))) as E.
  { rewrite Hr. f_equal; lia. }
  split; [exact E|]. assert (Forall (λ q, d.1 < q) deltas.*1) as HF.
  { rewrite E. apply Forall_forall. intros q Hq%elem_of_seqZ. lia. }
  by rewrite Forall_fmap in HF.
Qed.

Lemma owed_snoc g g' deltas changes :
  owed_in_order g deltas → seq_of g' = seq_of g + 1 →
  owed_in_order g' (deltas ++ [(seq_of g + 1, changes)]).
Proof.
  unfold owed_in_order. intros E E'. rewrite fmap_app, E, length_app, E'. cbn.
  rewrite Nat2Z.inj_add. cbn. rewrite (seqZ_app _ (Z.of_nat (length deltas)) 1) by lia.
  rewrite (seqZ_cons _ 1) by lia. f_equal; [f_equal; lia|]. f_equal. lia.
Qed.

Lemma commit_mono g e g' s ms :
  on_committed_event g e = (g', s, ms) → seq_of g' < int_max u64 → seq_of g < int_max u64.
Proof.
  unfold on_committed_event. destruct (command_symbol (ev_command e)) as [symbol|];
    [|by intros [= <- _ _]].
  fold (served g symbol). unfold fold_event.
  destruct (InstrumentState_apply (served g symbol) _ _) as [st ch] eqn:Ha.
  destruct (apply_spec _ _ _ _ _ Ha) as (Hq & _).
  assert (∀ st' ch', (if bool_decide (ch = []) || is_market_maker_command (ev_command e)
     then (st, []) else (set_sequence (default (int_max u64) (checked_add u64 (is_sequence st) 1)) st, ch))
     = (st', ch') → is_sequence st' < int_max u64 → is_sequence (served g symbol) < int_max u64) as Hmono.
  { intros st' ch'. case_match; intros [= <- <-]; [by rewrite Hq|]. rewrite <-Hq. cbn.
    unfold checked_add, narrow. destruct (fits u64 (is_sequence st + 1)); cbn; lia. }
  destruct (if _ || _ then _ else _) as [st' ch'] eqn:E. specialize (Hmono _ _ eq_refl).
  destruct ch' as [|c1 ch']; intros [= <- _ _]; rewrite served_insert;
    (case_decide as Hs; [subst; apply Hmono|done]).
Qed.

Lemma inv_commit g g' e o r lagged c v s ms :
  sys_inv {| ws_manager := g; ws_outbox := o; ws_ring := r; ws_lagged := lagged;
             ws_conn := c; ws_client := v |} →
  mm_quiet sym l g e → on_committed_event g e = (g', s, ms) → seq_of g' < int_max u64 →
  sys_inv {| ws_manager := g'; ws_outbox := o ++ ms; ws_ring := r; ws_lagged := lagged;
             ws_conn := c; ws_client := v |}.
Proof.
  intros [Hpos Hord [Hb Hc Hs]] Hquiet E Hmax. simp_sys.
  pose proof (on_committed_event_effect sym l _ _ _ _ _ E Hpos Hmax) as Heff.
  assert (omap (delta_of sym) (r ++ o ++ ms) =
    omap (delta_of sym) (r ++ o) ++ omap (delta_of sym) ms) as Eo by by rewrite (assoc_L (++)), omap_app.
  revert Hord Hs Eo. generalize (omap (delta_of sym) (r ++ o)). intros ds Hord Hs Eo.
  inversion Heff as [Hsq Hqt Hnil|changes Hsq Hqt Hds].
  - rewrite <-Hnil, app_nil_r in Eo. split; simp_sys; rewrite ?Eo, ?Hsq; [lia| |].
    + unfold owed_in_order in *. by rewrite Hsq.
    + split; [by rewrite Hsq|done|]. intros. rewrite Hqt by done. by apply Hs.
  - rewrite <-Hds in Eo. split; simp_sys; rewrite ?Eo; [lia|by eapply owed_snoc|].
    split; [lia|done|]. intros H1 H2. rewrite catch_up_app.
    unfold catch_up at 1. cbn [foldl fst snd]. rewrite (proj2 (Z.ltb_lt _ _)) by lia.
    apply Hqt. by apply Hs.
Qed.

(** A delivery: the filter skips what the baseline covers and applies the rest. *)
Lemma inv_receive g o m r c v c' f :
  sys_inv {| ws_manager := g; ws_outbox := o; ws_ring := m :: r; ws_lagged := false;
             ws_conn := c; ws_client := v |} →
  conn_filter m c = (c', f) →
  sys_inv {| ws_manager := g; ws_outbox := o; ws_ring := r; ws_lagged := false;
             ws_conn := c'; ws_client := from_option (client_receive v) v f |}.
Proof.
  intros [Hpos Hord [Hb Hc Hs]] E. simp_sys. cbn [app omap list_omap] in Hord, Hs.
  assert (cn_subscriptions c' = cn_subscriptions c) as Esub.
  { unfold conn_filter in E. repeat case_match; by simplify_eq. }
  destruct (delta_of sym m) as [[q changes]|] eqn:Hm.
  - destruct m; try done. cbn in Hm. case_decide; [|done]. simplify_eq.
    destruct (owed_tail _ _ _ Hord) as [Hord' Habove].
    pose proof (owed_le _ _ Hord) as Hle. apply Forall_cons_1 in Hle as [Hle _]. cbn in Hle, Habove.
    unfold conn_filter in E. cbn in E. fold (baseline_of c sym) in E.
    destruct (cn_subscriptions c !! (ChOrderbook, sym)) as [d|] eqn:Hd.
    2: { simplify_eq. split; [done|exact Hord'|]. split; [done|done|]. cbn. rewrite Hd. done. }
    destruct (Z.leb_spec q (baseline_of c sym)); simplify_eq; cbn [from_option].
    + split; [done|exact Hord'|]. split; [done|done|]. cbn. intros Hd' _. rewrite Hd in Hd'.
      specialize (Hs Hd' eq_refl). unfold catch_up in Hs. cbn [foldl fst] in Hs.
      by rewrite (proj2 (Z.ltb_ge _ _)) in Hs by lia.
    + split; [done|exact Hord'|]. unfold baseline_of. split; cbn [ws_conn ws_client ws_manager].
      * unfold baseline_of. cbn. by rewrite lookup_insert_eq.
      * done.
      * cbn. intros Hd' _. rewrite Hd in Hd'. specialize (Hs Hd' eq_refl).
        unfold catch_up in Hs at 1. cbn [foldl fst snd] in Hs.
        rewrite (proj2 (Z.ltb_lt _ _)) in Hs by lia.
        unfold view_of, baseline_of in *. cbn in *. rewrite !lookup_insert_eq. cbn.
        rewrite <-Hs. f_equal. symmetry. apply catch_up_above.
        eapply Forall_impl; [exact Habove|]. cbn. lia.
  - assert (baseline_of c' sym = baseline_of c sym ∧
      view_of (from_option (client_receive v) v f) sym = view_of v sym) as [Eb Ev].
    { unfold conn_filter in E. destruct m; cbn in E, Hm; try case_decide; try done;
        repeat case_match; simplify_eq; try done.
      cbn. unfold baseline_of, view_of. cbn. by rewrite !lookup_insert_ne. }
    split; [done|exact Hord|]. split; cbn; rewrite ?Eb, ?Ev, ?Esub; done.
Qed.

Lemma inv_step x y :
  ws_step (mm_quiet sym l) x y → seq_of (ws_manager y) < int_max u64 →
  seq_of (ws_manager x) < int_max u64 ∧ (sys_inv x → sys_inv y).
Proof.
  intros Hstep. destruct Hstep as [x e g' s ms Hq E|x m o r lg Ho E|x m r c f Hlg Hr E|x c out Hlg E
    |x a c out E|x]; intros Hmax; destruct x as [g ob ring lagged conn client]; simp_sys.
  - split; [by eapply commit_mono|]. intros I. by eapply inv_commit.
  - subst ob. split; [done|]. unfold ring_push in E. intros [Hpos Hord Hok]. simp_sys.
    destruct (mg_capacity g <=? Z.of_nat (length ring)); simplify_eq.
    + destruct ring as [|m0 ring]; simp_sys.
      * cbn [tail app] in *. split; [done|exact Hord|]. by destruct Hok.
      * cbn [tail]. split; simp_sys; [done| |].
        -- rewrite <-(assoc_L (++)). cbn [app omap list_omap] in *.
           destruct (delta_of sym m0); [by eapply owed_tail|done].
        -- by destruct Hok.
    + split; simp_sys; [done|..]; by rewrite <-(assoc_L (++)).
  - subst. split; [done|]. intros I. by eapply inv_receive.
  - subst. split; [done|]. intros [Hpos Hord Hok]. simp_sys. split; simp_sys; [done..|].
    eapply resnapshot_ok; [done|by apply owed_le|exact Hok|done].
  - split; [done|]. intros [Hpos Hord Hok]. simp_sys. split; simp_sys; [done..|].
    eapply on_action_ok; [done|by apply owed_le|exact Hok|done].
  - split; [done|]. intros [Hpos Hord Hok]. simp_sys. cbn [app]. rewrite omap_app in Hord.
    split; simp_sys; [done| |].
    + cbn [app]. revert Hord. generalize (omap (delta_of sym) ring) as d1. intros d1.
      induction d1 as [|d d1 IH]; cbn [app]; [done|]. intros Hord. apply IH. by eapply owed_tail.
    + by split.
Qed.

Lemma inv_initial capacity connections : sys_inv (ws_initial capacity connections).
Proof.
  split; [done..|]. split; [done|..]; by intros ?.
Qed.

Lemma inv_reachable capacity connections x :
  rtc (ws_step (mm_quiet sym l)) (ws_initial capacity connections) x →
  seq_of (ws_manager x) < int_max u64 → sys_inv x.
Proof.
  intros Hr. revert x Hr.
  apply (rtc_ind_r (λ x, seq_of (ws_manager x) < int_max u64 → sys_inv x)); [intros; apply inv_initial|].
  intros x y _ Hstep IH Hmax. destruct (inv_step _ _ Hstep Hmax) as [Hx Hinv]. auto.
Qed.

End system.

(** ** What is never published *)

(** The commands that sweep orders of more than one contract. *)
Definition is_hierarchy_sweep (c : VenueCommand) : bool :=
  match c with
  | MassCancel (ScopeBook _) _ _ => false
  | MassCancel _ _ _ | EvictExpiredOrders _ | MarketMakerControl _ _ _ _ => true
  | _ => false
  end.

(** Whatever a sweep over the hierarchy removed from the books — a cancel-all, an expiry
    sweep, a kill switch — the aggregates stay as they were and no delta is sent. *)
Lemma hierarchy_sweep_not_published `{Upstream} g e :
  is_hierarchy_sweep (ev_command e) = true → on_committed_event g e = (g, None, []).
Proof. unfold on_committed_event, emit_price. by destruct (ev_command e) as [| | |[]| | | | |]. Qed.

#[export] Instance SampleSymbolLaws : SymbolLaws (H := SampleUpstream).
Proof.
  split. intros raw s. unfold Symbol_parse. cbn. unfold sample_parse.
  repeat (case_match; [by intros [= <-]|]). done.
Qed.

(** ** Runs of the system as a function *)

Inductive WsAct :=
  | DoCommit (e : VenueEvent) | DoSend | DoReceive | DoLagged | DoAction (a : ClientAction).

Definition ws_do (x : WsSystem) (act : WsAct) : option WsSystem :=
  let upd g o r l c v :=
    {| ws_manager := g; ws_outbox := o; ws_ring := r; ws_lagged := l; ws_conn := c;
       ws_client := v |} in
  match act with
  | DoCommit e =>
      if is_market_maker_command (ev_command e) then None
      else
        let '(g, _, ms) := on_committed_event (ws_manager x) e in
        Some (upd g (ws_outbox x ++ ms) (ws_ring x) (ws_lagged x) (ws_conn x) (ws_client x))
  | DoSend =>
      match ws_outbox x with
      | [] => None
      | m :: o =>
          let '(r, l) := ring_push (mg_capacity (ws_manager x)) m (ws_ring x) (ws_lagged x) in
          Some (upd (ws_manager x) o r l (ws_conn x) (ws_client x))
      end
  | DoReceive =>
      match ws_lagged x, ws_ring x with
      | false, m :: r =>
          let '(c, f) := conn_filter m (ws_conn x) in
          Some (upd (ws_manager x) (ws_outbox x) r false c
                  (from_option (client_receive (ws_client x)) (ws_client x) f))
      | _, _ => None
      end
  | DoLagged =>
      if ws_lagged x then
        let '(c, out) := resnapshot (ws_manager x) (ws_conn x) in
        Some (upd (ws_manager x) (ws_outbox x) (ws_ring x) false c
                (foldl client_receive (ws_client x) out))
      else None
  | DoAction a =>
      let '(c, out) := on_action a (ws_manager x) (ws_conn x) in
      Some (upd (ws_manager x) (ws_outbox x) (ws_ring x) (ws_lagged x) c
              (foldl client_receive (ws_client x) out))
  end.

Lemma ws_do_step sym l x act y : ws_do x act = Some y → ws_step (mm_quiet sym l) x y.
Proof.
  destruct act; cbn [ws_do].
  - destruct (is_market_maker_command (ev_command e)) eqn:Hm; [done|].
    destruct (on_committed_event _ _) as [[g s] ms] eqn:E. intros [= <-].
    eapply step_commit; [|exact E]. unfold mm_quiet. congruence.
  - destruct (ws_outbox x) eqn:Ho; [done|]. destruct (ring_push _ _ _ _) eqn:E. intros [= <-].
    by eapply step_send.
  - destruct (ws_lagged x) eqn:Hl; [done|]. destruct (ws_ring x) eqn:Hr; [done|].
    destruct (conn_filter _ _) eqn:E. intros [= <-]. by eapply step_receive.
  - destruct (ws_lagged x) eqn:Hl; [|done]. destruct (resnapshot _ _) eqn:E. intros [= <-].
    by apply step_lagged.
  - destruct (on_action _ _ _) eqn:E. intros [= <-]. by eapply step_action.
Qed.

Definition ws_run (x : WsSystem) (acts : list WsAct) : option WsSystem :=
  foldl (λ o act, x ← o; ws_do x act) (Some x) acts.

Lemma ws_run_rtc sym l acts x y :
  ws_run x acts = Some y → rtc (ws_step (mm_quiet sym l)) x y.
Proof.
  unfold ws_run. revert x. induction acts as [|act acts IH]; intros x; cbn [foldl mbind option_bind].
  { by intros [= ->]. }
  destruct (ws_do x act) as [z|] eqn:E.
  - intros Hz%IH. eapply rtc_l; [by eapply ws_do_step|done].
  - assert (∀ acts, foldl (λ o act, o ≫= λ x, ws_do x act) None acts = None) as ->; [|done].
    clear. induction acts; done.
Qed.

(** ** A session *)

Definition sample_events : list VenueEvent :=
  zip_with (λ tc io, VenueEvent_new io.1 tc.1 tc.2 io.2) sample_session
    (imap (λ i o, (Z.of_nat i, o))
       (run "BTC" "run-1" (executor_new "BTC") 0 sample_session).2).

Definition event_at (i : nat) : VenueEvent :=
  default (VenueEvent_new 0 0 (Clock 0) (Evicted [])) (sample_events !! i).

(** Alice's offer is committed; the client subscribes; Bob's order trades against it and
    floods a ring of two messages; the client is told it lagged and is re-snapshotted. *)
Definition sample_run : list WsAct :=
  [DoCommit (event_at 0);
   DoAction (Subscribe {| sp_channel := ChOrderbook; sp_symbol := btc_call; sp_depth := None |});
   DoSend; DoReceive; DoCommit (event_at 1); DoSend; DoReceive; DoSend; DoSend; DoSend;
   DoLagged; DoReceive; DoReceive].

Definition sample_end : WsSystem :=
  default (ws_initial 2 1) (ws_run (ws_initial 2 1) sample_run).


(** ** Depth and prints *)

Definition sample_instrument : InstrumentState :=
  (fold_event (fold_event InstrumentState_new (event_at 0)).1 (event_at 1)).1.


Definition sample_trade : TradeResult Z :=
  {| tr_match_result :=
       {| mr_trades := [{| trade_price := 100; trade_quantity := 3; trade_maker_order_id := 0;
                           trade_maker_side := Sell; trade_taker_side := Buy |}];
          mr_filled_order_ids := [] |};
     tr_engine_seq := 1 |}.

Definition sample_first : MatchingExecutor :=
  (run "BTC" "run-1" (executor_new "BTC") 0 (take 1 sample_session)).1.

Lemma one_print_per_match_witness :
  ∃ c, build_fills sample_first (context "BTC" "run-1" 1 (11, Clock 11)) sample_trade
         "v1" "bob" 2 None = Ok c ∧
    length (pair_trades (cf_fills c) btc_call 11) = 1%nat.
Proof.
  destruct (build_fills sample_first (context "BTC" "run-1" 1 (11, Clock 11)) sample_trade
              "v1" "bob" 2 None) as [c|e] eqn:E.
  - exists c. split; [done|].
    destruct (one_print_per_match sample_first (context "BTC" "run-1" 1 (11, Clock 11)) sample_trade
      "v1" "bob" 2 None c btc_call 11) as [HF _]; [vm_compute; split; congruence|exact E|].
    by apply Forall2_length in HF.
  - apply (f_equal is_ok) in E. vm_compute in E. discriminate E.
Defined.

(** ** The kill switch *)

(** The market maker's offer of the session rests; the kill switch sweeps it from the
    executor; the depth published for the contract still shows it. *)
Example kill_switch_leaves_depth :
  let g := foldl (λ g e, (on_committed_event g e).1.1) (with_limits 2 1) sample_events in
  let x := (run "BTC" "run-1" (executor_new "BTC") 0 sample_session).1 in
  let kill := MarketMakerControl None None None (Some false) in
  let '(x', o) := execute x (context "BTC" "run-1" 5 (20, kill)) in
  let '(g', delta, ms) := on_committed_event g (VenueEvent_new 5 20 kill o) in
  o = ControlApplied [{| leg_order_id := "v3"; leg_owner := MARKET_MAKER_OWNER;
                         leg_symbol := btc_call; leg_side := Sell;
                         leg_reason := ReasonMassCancel |}] ∧
  delta = None ∧ ms = [] ∧
  orderbook_snapshot g' btc_call None =
    WsOrderbookSnapshot ChOrderbook btc_call 2 []
      [{| pld_price := 100; pld_quantity := 2 |}; {| pld_price := 120; pld_quantity := 7 |}].
Proof. vm_compute. split_and!; reflexivity. Qed.
