(* ===== verification/Mailbox.v ===== *)
(** The actor's mailbox ([src/src/exchange/actor.rs]: [ActorHandle], [ActorShutdown],
    [run], [process]): callers on any thread enqueue on a bounded channel, the actor task
    takes one message at a time, and an explicit shutdown error-drains the queue.  The
    task and its callers interleave; a turn ([handle]) has no suspension point and is one
    step.  A reply slot is the message's id.

    Then the mailbox over the in-memory journal: concurrent callers see one contiguous
    sequence; and concrete interleavings, the witnesses of the mailbox theorems. *)

From S2P Require Export Actor ActorProps SampleBook.

Section mailbox.
Context {J E F C : Type} `{!VenueJournal J, !CommandExecutor E, !FanOut F, !VenueClock C}.
Notation actor := (UnderlyingActor J E F C).

Record JournalSnapshot := {
  js_last_sequence : option SequenceNumber;
  js_records : list JournalRecord;
}.

(** [ActorMessage], without its reply slot. *)
Inductive ActorMessage :=
  | MsgCommand (command : VenueCommand)
  | MsgSnapshot.

Inductive Reply :=
  | RepCommand (r : result VenueError Receipt)
  | RepSnapshot (r : result VenueError JournalSnapshot).

Definition process (a : actor) (message : ActorMessage) : actor * Reply :=
  match message with
  | MsgCommand command => let '(a, r) := handle a command in (a, RepCommand r)
  | MsgSnapshot =>
      (a, RepSnapshot
            match journal_read_from (act_journal a) SEQUENCE_START with
            | Ok records =>
                Ok {| js_last_sequence := journal_last_sequence (act_journal a);
                      js_records := records |}
            | Err _ => Err JournalUnavailable
            end)
  end.

Definition failed (message : ActorMessage) (e : VenueError) : Reply :=
  match message with MsgCommand _ => RepCommand (Err e) | MsgSnapshot => RepSnapshot (Err e) end.

Definition reject_shutting_down (message : ActorMessage) : Reply := failed message ShuttingDown.

(** Where the task is: at its [select!], with a message in hand before the recheck of the
    shutdown token, draining, or gone. *)
Inductive TaskState :=
  | Selecting
  | InHand (id : nat) (message : ActorMessage)
  | Draining
  | Stopped.

Record Mailbox := {
  mb_capacity : Z;
  mb_queue : list (nat * ActorMessage);
  mb_closed : bool;
  mb_cancelled : bool;
  mb_senders : nat;
  mb_task : TaskState;
  mb_actor : actor;
  (** The replies sent, the messages the queue accepted, the calls turned away at the
      door: histories, in order. *)
  mb_replies : list (nat * Reply);
  mb_accepted : list (nat * ActorMessage);
  mb_bounced : list (nat * Reply);
}.

(** [spawn_underlying_actor_with_clordid_index]: one handle, an empty channel. *)
Definition spawn (config : ActorConfig) (journal : J) (executor : E) (fan_out : F) (clock : C)
    (clordid_index : option ClOrdIdIndex) : Mailbox :=
  {| mb_capacity := Z.max (cfg_mailbox_capacity config) 1; mb_queue := []; mb_closed := false;
     mb_cancelled := false; mb_senders := 1; mb_task := Selecting;
     mb_actor :=
       with_clordid_index (Actor_new config journal executor fan_out clock) clordid_index;
     mb_replies := []; mb_accepted := []; mb_bounced := [] |}.

Definition stopped_error (s : Mailbox) : VenueError :=
  if mb_cancelled s then ShuttingDown else JournalUnavailable.

Definition with_queue (q : list (nat * ActorMessage)) (s : Mailbox) : Mailbox :=
  {| mb_capacity := mb_capacity s; mb_queue := q; mb_closed := mb_closed s;
     mb_cancelled := mb_cancelled s; mb_senders := mb_senders s; mb_task := mb_task s;
     mb_actor := mb_actor s; mb_replies := mb_replies s; mb_accepted := mb_accepted s;
     mb_bounced := mb_bounced s |}.
Definition with_task (t : TaskState) (s : Mailbox) : Mailbox :=
  {| mb_capacity := mb_capacity s; mb_queue := mb_queue s; mb_closed := mb_closed s;
     mb_cancelled := mb_cancelled s; mb_senders := mb_senders s; mb_task := t;
     mb_actor := mb_actor s; mb_replies := mb_replies s; mb_accepted := mb_accepted s;
     mb_bounced := mb_bounced s |}.
(** Closing the receiver, by [rx.close()] or by dropping it. *)
Definition with_closed (s : Mailbox) : Mailbox :=
  {| mb_capacity := mb_capacity s; mb_queue := mb_queue s; mb_closed := true;
     mb_cancelled := mb_cancelled s; mb_senders := mb_senders s; mb_task := mb_task s;
     mb_actor := mb_actor s; mb_replies := mb_replies s; mb_accepted := mb_accepted s;
     mb_bounced := mb_bounced s |}.
Definition with_senders (n : nat) (s : Mailbox) : Mailbox :=
  {| mb_capacity := mb_capacity s; mb_queue := mb_queue s; mb_closed := mb_closed s;
     mb_cancelled := mb_cancelled s; mb_senders := n; mb_task := mb_task s;
     mb_actor := mb_actor s; mb_replies := mb_replies s; mb_accepted := mb_accepted s;
     mb_bounced := mb_bounced s |}.
Definition accept (id : nat) (m : ActorMessage) (s : Mailbox) : Mailbox :=
  {| mb_capacity := mb_capacity s; mb_queue := mb_queue s ++ [(id, m)];
     mb_closed := mb_closed s; mb_cancelled := mb_cancelled s; mb_senders := mb_senders s;
     mb_task := mb_task s; mb_actor := mb_actor s; mb_replies := mb_replies s;
     mb_accepted := mb_accepted s ++ [(id, m)]; mb_bounced := mb_bounced s |}.
Definition bounce (id : nat) (r : Reply) (s : Mailbox) : Mailbox :=
  {| mb_capacity := mb_capacity s; mb_queue := mb_queue s; mb_closed := mb_closed s;
     mb_cancelled := mb_cancelled s; mb_senders := mb_senders s; mb_task := mb_task s;
     mb_actor := mb_actor s; mb_replies := mb_replies s; mb_accepted := mb_accepted s;
     mb_bounced := mb_bounced s ++ [(id, r)] |}.
Definition answer (id : nat) (r : Reply) (a : actor) (s : Mailbox) : Mailbox :=
  {| mb_capacity := mb_capacity s; mb_queue := mb_queue s; mb_closed := mb_closed s;
     mb_cancelled := mb_cancelled s; mb_senders := mb_senders s; mb_task := mb_task s;
     mb_actor := a; mb_replies := mb_replies s ++ [(id, r)]; mb_accepted := mb_accepted s;
     mb_bounced := mb_bounced s |}.

(** [ActorShutdown::shutdown]. *)
Definition shutdown (s : Mailbox) : Mailbox :=
  {| mb_capacity := mb_capacity s; mb_queue := mb_queue s; mb_closed := mb_closed s;
     mb_cancelled := true; mb_senders := mb_senders s; mb_task := mb_task s;
     mb_actor := mb_actor s; mb_replies := mb_replies s; mb_accepted := mb_accepted s;
     mb_bounced := mb_bounced s |}.

(** [ActorHandle::submit] and [snapshot] up to the wait on the reply: [try_send]. *)
Definition submit (id : nat) (m : ActorMessage) (s : Mailbox) : Mailbox :=
  if mb_closed s then bounce id (failed m (stopped_error s)) s
  else if mb_capacity s <=? Z.of_nat (length (mb_queue s))
  then bounce id (failed m RateLimited) s
  else accept id m s.

(** One step of [run], the actor's task.  At the [select!] the cancelled branch is
    polled first; the other branch waits while the queue is empty and a sender lives.
    [None] is a wait, or the end of the task. *)
Definition run_step (s : Mailbox) : option Mailbox :=
  match mb_task s with
  | Selecting =>
      if mb_cancelled s then Some (with_task Draining (with_closed s))
      else
        match mb_queue s with
        | (id, m) :: q => Some (with_task (InHand id m) (with_queue q s))
        | [] => if (mb_senders s =? 0)%nat then Some (with_task Stopped (with_closed s)) else None
        end
  | InHand id m =>
      if mb_cancelled s
      then Some (with_task Selecting (answer id (reject_shutting_down m) (mb_actor s) s))
      else
        let '(a, r) := process (mb_actor s) m in
        Some (with_task Selecting (answer id r a s))
  | Draining =>
      match mb_queue s with
      | (id, m) :: q => Some (answer id (reject_shutting_down m) (mb_actor s) (with_queue q s))
      | [] => Some (with_task Stopped s)
      end
  | Stopped => None
  end.

(** The interleaving of the task with its callers and the lifecycle owner. *)
Inductive mailbox_step : Mailbox → Mailbox → Prop :=
  | step_submit id m s : (0 < mb_senders s)%nat → mailbox_step s (submit id m s)
  | step_clone s : (0 < mb_senders s)%nat → mailbox_step s (with_senders (S (mb_senders s)) s)
  | step_drop s n : mb_senders s = S n → mailbox_step s (with_senders n s)
  | step_shutdown s : mailbox_step s (shutdown s)
  | step_task s s' : run_step s = Some s' → mailbox_step s s'.

(** * Theorems *)

(** The abstract service: one message after another. *)
Fixpoint serve_all (a : actor) (ms : list (nat * ActorMessage)) : actor * list (nat * Reply) :=
  match ms with
  | [] => (a, [])
  | (id, m) :: ms =>
      let '(a, r) := process a m in
      let '(a, rs) := serve_all a ms in
      (a, (id, r) :: rs)
  end.

Definition refusals (ms : list (nat * ActorMessage)) : list (nat * Reply) :=
  (λ im, (im.1, reject_shutting_down im.2)) <$> ms.

Definition in_hand (s : Mailbox) : list (nat * ActorMessage) :=
  match mb_task s with InHand id m => [(id, m)] | _ => [] end.

(** A mailbox after [served] and then [refused]. *)
Record mailbox_inv (a0 : actor) (s : Mailbox) (served refused : list (nat * ActorMessage)) :
    Prop := {
  inv_accepted : mb_accepted s = served ++ refused ++ in_hand s ++ mb_queue s;
  inv_actor : mb_actor s = (serve_all a0 served).1;
  inv_replies : mb_replies s = (serve_all a0 served).2 ++ refusals refused;
  inv_refused : refused ≠ [] → mb_cancelled s = true;
  inv_capacity : 1 ≤ mb_capacity s;
  inv_bound : Z.of_nat (length (mb_queue s)) ≤ mb_capacity s;
  inv_closed : mb_closed s = true ↔ mb_task s = Draining ∨ mb_task s = Stopped;
  inv_stopped : mb_task s = Stopped → mb_queue s = [];
  inv_draining : mb_task s = Draining → mb_cancelled s = true;
}.

Lemma serve_all_snoc a ms id m :
  serve_all a (ms ++ [(id, m)]) =
    ((process (serve_all a ms).1 m).1,
     (serve_all a ms).2 ++ [(id, (process (serve_all a ms).1 m).2)]).
Proof.
  revert a. induction ms as [|[i m'] ms IH]; intros a; cbn.
  - by destruct (process a m).
  - destruct (process a m') as [a1 r1]. rewrite IH. by destruct (serve_all a1 ms).
Qed.

Lemma refusals_snoc ms id m :
  refusals (ms ++ [(id, m)]) = refusals ms ++ [(id, reject_shutting_down m)].
Proof. unfold refusals. by rewrite fmap_app. Qed.

Lemma mailbox_spawn_inv config j x f c i :
  mailbox_inv (mb_actor (spawn config j x f c i)) (spawn config j x f c i) [] [].
Proof. split; cbn; try done; [lia..|]. split; [done|]. by intros []. Qed.

(** The state after a refusal: [m] leaves the hand or the queue. *)
Lemma run_step_inv a0 s s' served refused :
  mailbox_inv a0 s served refused → run_step s = Some s' →
  ∃ served' refused', mailbox_inv a0 s' served' refused' ∧
    served `prefix_of` served' ∧ (mb_cancelled s = true → served' = served).
Proof.
  intros I. destruct s as [cap q cl ca sn t a rp ac bo]. unfold run_step. cbn.
  destruct I as [I1 I2 I3 I4 I5 I6 I7 I8 I9]. unfold in_hand in I1. cbn in *.
  destruct t as [|id m| |].
  - destruct ca.
    { intros [= <-]. exists served, refused. split_and!; [|done|done].
      split; cbn; try done; tauto. }
    destruct q as [|[id m] q].
    { case_match; [|done]. intros [= <-]. exists served, refused.
      split_and!; [|done|done]. split; cbn; try done; try tauto. }
    intros [= <-]. exists served, refused. split_and!; [|done|done].
    split; cbn in *; try done; [lia|]. rewrite I7. split; intros [|]; done.
  - destruct ca.
    + intros [= <-]. exists served, (refused ++ [(id, m)]). split_and!; [|done|done].
      split; cbn; try done.
      * by rewrite I1, <-(assoc_L (++)).
      * by rewrite I3, refusals_snoc, (assoc_L (++)).
      * rewrite I7. split; intros [|]; done.
    + destruct (process a m) as [a' r] eqn:Hp. intros [= <-].
      assert (refused = []) as -> by (destruct refused; [done|by specialize (I4 ltac:(done))]).
      exists (served ++ [(id, m)]), []. split_and!; [|by exists [(id, m)]|done].
      split; cbn; try done.
      * by rewrite I1, <-(assoc_L (++)).
      * by rewrite serve_all_snoc, <-I2, Hp.
      * rewrite I3, serve_all_snoc, <-I2, Hp. cbn. by rewrite !app_nil_r.
      * rewrite I7. split; intros [|]; done.
  - destruct q as [|[id m] q].
    + intros [= <-]. exists served, refused. split_and!; [|done|done].
      split; cbn; try done. rewrite I7. tauto.
    + intros [= <-]. exists served, (refused ++ [(id, m)]). split_and!; [|done|done].
      split; cbn in *; try done; [..|lia].
      * by rewrite I1, <-(assoc_L (++)).
      * by rewrite I3, refusals_snoc, (assoc_L (++)).
      * intros _. by apply I9.
  - done.
Qed.

Lemma mailbox_step_inv a0 s s' served refused :
  mailbox_inv a0 s served refused → mailbox_step s s' →
  ∃ served' refused', mailbox_inv a0 s' served' refused' ∧
    served `prefix_of` served' ∧ (mb_cancelled s = true → served' = served) ∧
    (mb_cancelled s = true → mb_cancelled s' = true).
Proof.
  intros I Hs. destruct Hs as [id m s Hn|s Hn|s n Hn|s|s s' Hrun].
  - exists served, refused. split_and!; [|done..|].
    + unfold submit. destruct (mb_closed s) eqn:Hcl; [by destruct I|].
      destruct (Z.leb_spec (mb_capacity s) (Z.of_nat (length (mb_queue s)))); [by destruct I|].
      destruct I as [I1 I2 I3 I4 I5 I6 I7 I8 I9]. split; cbn; try done.
      * rewrite I1. unfold in_hand. cbn. by rewrite !(assoc_L (++)).
      * rewrite length_app. cbn. lia.
      * intros Ht. exfalso. assert (mb_closed s = true) by (apply I7; by right). congruence.
    + unfold submit. by repeat case_match.
  - exists served, refused. split_and!; [by destruct I|done..].
  - exists served, refused. split_and!; [by destruct I|done..].
  - exists served, refused. split_and!; [|done..]. by destruct I.
  - destruct (run_step_inv _ _ _ _ _ I Hrun) as (sv & rf & I' & Hp & Hc).
    exists sv, rf. split_and!; [done..|]. unfold run_step in Hrun. repeat case_match; by simplify_eq.
Qed.

Lemma mailbox_reach_inv a0 s s' served refused :
  mailbox_inv a0 s served refused → rtc mailbox_step s s' →
  ∃ served' refused', mailbox_inv a0 s' served' refused' ∧ served `prefix_of` served' ∧
    (mb_cancelled s = true → served' = served ∧ mb_cancelled s' = true).
Proof.
  intros I Hr. revert served refused I. induction Hr as [s|s s1 s' Hs _ IH]; intros served refused I.
  - exists served, refused. done.
  - destruct (mailbox_step_inv _ _ _ _ _ I Hs) as (sv & rf & I1 & Hp & Hc & Hk).
    destruct (IH _ _ I1) as (sv' & rf' & I' & Hp' & Hc'). exists sv', rf'.
    split_and!; [done|by etrans|]. intros Hcan. destruct (Hc' (Hk Hcan)) as [-> ?].
    split; [by apply Hc|done].
Qed.

Lemma mailbox_capacity s s' : mailbox_step s s' → mb_capacity s' = mb_capacity s.
Proof.
  intros [ | | | |s1 s2 Hrun]; try done.
  - unfold submit. by repeat case_match.
  - unfold run_step in Hrun. repeat case_match; by simplify_eq.
Qed.

(** C8. The actor serialises its callers.  Whatever the interleaving of submissions,
    snapshot requests, handle clones and drops, shutdown and the task's own steps: the
    actor is in the state, and each reply is the one, of serving the messages the queue
    accepted one by one in arrival order, up to a point after which — only under an
    explicit shutdown — each is answered that the venue is shutting down, unserved; every
    accepted message is answered exactly once or is still in hand or queued; the queue
    never exceeds its capacity; and a task that ended left no accepted message without
    its reply. *)
Theorem mailbox_serialises config journal executor fan_out clock index s :
  let s0 := spawn config journal executor fan_out clock index in
  rtc mailbox_step s0 s →
  ∃ served refused,
    mb_accepted s = served ++ refused ++ in_hand s ++ mb_queue s ∧
    mb_actor s = (serve_all (mb_actor s0) served).1 ∧
    mb_replies s = (serve_all (mb_actor s0) served).2 ++ refusals refused ∧
    (refused ≠ [] → mb_cancelled s = true) ∧
    Z.of_nat (length (mb_queue s)) ≤ Z.max (cfg_mailbox_capacity config) 1 ∧
    (mb_task s = Stopped → mb_accepted s = served ++ refused).
Proof.
  intros s0 Hr.
  assert (mb_capacity s = mb_capacity s0) as Hcap.
  { clear -Hr. induction Hr as [|s1 s2 s3 Hs _ IH]; [done|]. rewrite IH. by apply mailbox_capacity. }
  destruct (mailbox_reach_inv _ _ _ _ _ (mailbox_spawn_inv _ _ _ _ _ _) Hr)
    as (served & refused & I & _ & _).
  exists served, refused. destruct I as [I1 I2 I3 I4 I5 I6 I7 I8 I9].
  split_and!; [done..|by rewrite Hcap in I6|]. intros Ht. rewrite I1, (I8 Ht). unfold in_hand.
  rewrite Ht. by rewrite !app_nil_r.
Qed.

(** ** Progress *)

(** The task running alone for at most [n] steps. *)
Fixpoint run_task (n : nat) (s : Mailbox) : Mailbox :=
  match n with
  | O => s
  | S n => match run_step s with Some s' => run_task n s' | None => s end
  end.

Definition task_measure (s : Mailbox) : nat :=
  2 * length (mb_queue s) +
  match mb_task s with InHand _ _ => 4 | Selecting => 3 | Draining => 2 | Stopped => 0 end.

Lemma run_step_measure s s' : run_step s = Some s' → (task_measure s' < task_measure s)%nat.
Proof.
  destruct s as [cap q cl ca sn t a rp ac bo]. unfold run_step, task_measure. cbn.
  destruct t as [|id m| |]; [destruct ca; [|destruct q as [|[i m] q]]|destruct ca|destruct q as [|[i m] q]|];
    repeat case_match; intros; simplify_eq; cbn; lia.
Qed.

Lemma run_task_rtc n s : rtc mailbox_step s (run_task n s).
Proof.
  revert s. induction n as [|n IH]; intros s; cbn; [done|].
  destruct (run_step s) eqn:Hs; [|done]. eapply rtc_l; [by apply step_task|apply IH].
Qed.

Lemma run_task_ends n s : (task_measure s ≤ n)%nat → run_step (run_task n s) = None.
Proof.
  revert s. induction n as [|n IH]; intros s Hn; cbn.
  - destruct (run_step s) eqn:Hs; [|done]. apply run_step_measure in Hs. lia.
  - destruct (run_step s) as [s'|] eqn:Hs; [|done]. apply IH. apply run_step_measure in Hs. lia.
Qed.

Lemma serve_all_ids a ms : (serve_all a ms).2.*1 = ms.*1.
Proof.
  revert a. induction ms as [|[id m] ms IH]; intros a; cbn; [done|].
  destruct (process a m) as [a1 r]. specialize (IH a1). destruct (serve_all a1 ms). cbn in *. by f_equal.
Qed.

Lemma refusals_ids ms : (refusals ms).*1 = ms.*1.
Proof. unfold refusals. rewrite <-list_fmap_compose. by apply list_fmap_ext. Qed.

End mailbox.

Arguments Mailbox : clear implicits.

Section composed.
Context {F C : Type} `{!FanOut F, !VenueClock C, !Upstream, !Serde}.
Notation venue_actor := (UnderlyingActor InMemoryVenueJournal MatchingExecutor F C).

Definition commands_of (ms : list (nat * ActorMessage)) : list VenueCommand :=
  omap (λ im, match im.2 with MsgCommand c => Some c | MsgSnapshot => None end) ms.

Definition results_of (rs : list (nat * Reply)) : list (result VenueError Receipt) :=
  omap (λ ir, match ir.2 with RepCommand r => Some r | RepSnapshot _ => None end) rs.

(** Snapshot requests leave the actor alone, so the service is the sequential run. *)
Lemma serve_all_handle_all (a : venue_actor) ms :
  (serve_all a ms).1 = (handle_all a (commands_of ms)).1 ∧
  results_of (serve_all a ms).2 = (handle_all a (commands_of ms)).2.
Proof.
  revert a. induction ms as [|[id [c|]] ms IH]; intros a; [done|..]; cbn [serve_all process].
  - destruct (handle a c) as [a1 r] eqn:Hh. specialize (IH a1).
    change (commands_of ((id, MsgCommand c) :: ms)) with (c :: commands_of ms).
    cbn [handle_all]. rewrite Hh. destruct (serve_all a1 ms) as [a2 rs].
    destruct (handle_all a1 (commands_of ms)) as [a3 rs'].
    destruct IH as [IH1 IH2]. cbn [fst snd] in *. split; [done|].
    change (r :: results_of rs = r :: rs'). by f_equal.
  - specialize (IH a). destruct (serve_all a ms) as [a2 rs]. done.
Qed.

(** The receipts concurrent callers get carry the sequences from the starting one
    upwards, in reply order, without a gap or a repeat. *)
Corollary concurrent_receipts_contiguous config journal (executor : MatchingExecutor) (fan_out : F)
    (clock : C) index s :
  fresh_actor (mb_actor (spawn config journal executor fan_out clock index)) →
  rtc mailbox_step (spawn config journal executor fan_out clock index) s →
  let receipts := acknowledged (results_of (mb_replies s)) in
  receipt_sequence <$> receipts =
    seqZ (cfg_start_sequence config) (Z.of_nat (length receipts)).
Proof.
  intros Hf Hr.
  destruct (mailbox_reach_inv _ _ _ _ _ (mailbox_spawn_inv _ _ _ _ _ _) Hr)
    as (served & refused & I & _ & _).
  set (a0 := mb_actor (spawn config journal executor fan_out clock index)) in *.
  assert (acknowledged (results_of (mb_replies s)) =
    acknowledged (handle_all a0 (commands_of served)).2) as E.
  { rewrite (inv_replies _ _ _ _ I). unfold results_of. rewrite omap_app.
    fold (results_of (serve_all a0 served).2). rewrite (proj2 (serve_all_handle_all a0 served)).
    unfold acknowledged. rewrite omap_app.
    assert (omap (λ r : result VenueError Receipt, match r with Ok x => Some x | Err _ => None end)
      (omap (λ ir, match ir.2 with RepCommand r => Some r | RepSnapshot _ => None end)
         (refusals refused)) = []) as ->; [|by rewrite app_nil_r].
    clear. induction refused as [|[id []] ms IH]; done. }
  cbn zeta. rewrite E.
  by apply receipts_contiguous.
Qed.
End composed.

(** * A concrete interleaving *)

Definition sample_mailbox : Mailbox InMemoryVenueJournal MatchingExecutor StoreFanOut FixedClock :=
  spawn (ActorConfig_new "BTC" "run-1" 64)
    (InMemoryVenueJournal_new (JournalHeader_new "run-1")) (executor_new "BTC")
    StoreFanOut_new {| fixed_instant := 10 |} (Some with_default_ceiling).

Inductive MailboxAct :=
  | DoSubmit (id : nat) (m : ActorMessage) | DoTask | DoShutdown.

Definition mailbox_do (s : Mailbox InMemoryVenueJournal MatchingExecutor StoreFanOut FixedClock)
    (act : MailboxAct) : Mailbox InMemoryVenueJournal MatchingExecutor StoreFanOut FixedClock :=
  match act with
  | DoSubmit id m => if (0 <? mb_senders s)%nat then submit id m s else s
  | DoTask => default s (run_step s)
  | DoShutdown => shutdown s
  end.

Lemma mailbox_do_rtc s acts : rtc mailbox_step s (foldl mailbox_do s acts).
Proof.
  revert s. induction acts as [|act acts IH]; intros s; [reflexivity|]. cbn.
  transitivity (mailbox_do s act); [|apply IH]. destruct act; cbn [mailbox_do].
  - destruct (Nat.ltb_spec 0 (mb_senders s)); [|reflexivity]. by apply rtc_once, step_submit.
  - destruct (run_step s) eqn:E; cbn; [|reflexivity]. by apply rtc_once, step_task.
  - apply rtc_once, step_shutdown.
Qed.

(** Four callers' commands and a snapshot request: two commands and the snapshot are
    served, the shutdown catches the third command in the task's hand and the fourth in
    the queue, and a late call is bounced. *)
Definition sample_acts : list MailboxAct :=
  match sample_commands with
  | c1 :: c2 :: c3 :: c4 :: _ =>
      [DoSubmit 1 (MsgCommand c1); DoSubmit 2 (MsgCommand c2); DoTask; DoSubmit 3 MsgSnapshot;
       DoTask; DoTask; DoTask; DoTask; DoSubmit 4 (MsgCommand c3); DoTask;
       DoSubmit 5 (MsgCommand c4); DoTask; DoShutdown;
       DoTask; DoTask; DoTask; DoTask; DoSubmit 6 MsgSnapshot]
  | _ => []
  end.

(** The shutdown is requested with a message in hand and one queued. *)
Definition sample_midway := foldl mailbox_do sample_mailbox (take 13 sample_acts).
Definition sample_run := foldl mailbox_do sample_midway (drop 13 sample_acts).

Lemma sample_run_reached : rtc mailbox_step sample_mailbox sample_run.
Proof. transitivity sample_midway; apply mailbox_do_rtc. Qed.

Lemma mailbox_serialises_witness :
  (mb_replies sample_run).*1 = [1; 2; 3; 4; 5]%nat ∧ mb_task sample_run = Stopped ∧
  (mb_bounced sample_run) = [(6%nat, RepSnapshot (Err ShuttingDown))] ∧
  ∃ served refused,
    mb_accepted sample_run = served ++ refused ∧
    mb_replies sample_run = (serve_all (mb_actor sample_mailbox) served).2 ++ refusals refused.
Proof.
  split_and!; [by vm_compute..|].
  destruct (mailbox_serialises _ _ _ _ _ _ _ sample_run_reached)
    as (served & refused & _ & _ & Hr & _ & _ & Hs).
  exists served, refused. split; [|done]. apply Hs. by vm_compute.
Defined.


(** The concurrent callers' receipts, on the run above. *)
Example sample_run_receipts :
  receipt_sequence <$> acknowledged (results_of (mb_replies sample_run)) = [0; 1].
Proof. by vm_compute. Qed.
