(* ===== verification/RateLimit.v ===== *)
(** The rate limiter ([src/src/auth.rs]): permission tiers, per-tier budgets, a sliding
    window of admissions per key, and a ceiling on the number of keys; and what a run of it
    admits, and why it refuses.

    The code reads its clock once per check and once more in the inline sweep; the two
    readings are arguments.  The gate and the map's shard locks make a check one step. *)

From stdpp Require Export gmap.
From S2P Require Export VenueErrors.

Definition RATE_LIMIT_WINDOW_MS : Z := 60000.
Definition DEFAULT_RATE_LIMIT_PER_WINDOW : Z := 100.
Definition DEFAULT_MAX_RATE_LIMIT_KEYS : Z := 100000.

Inductive RateLimitTier := TierRead | TierTrade | TierAdmin.
#[export] Instance RateLimitTier_eq_dec : EqDecision RateLimitTier.
Proof. solve_decision. Defined.

(** The derived order, by [repr(u8)]. *)
Definition tier_u8 (t : RateLimitTier) : Z :=
  match t with TierRead => 0 | TierTrade => 1 | TierAdmin => 2 end.

Definition tier_of (permission : Permission) : RateLimitTier :=
  match permission with
  | PermAdmin => TierAdmin | PermTrade => TierTrade | PermRead => TierRead
  end.

Definition tier_max (a b : RateLimitTier) : RateLimitTier :=
  if tier_u8 a <=? tier_u8 b then b else a.

Definition from_permissions (permissions : list Permission) : RateLimitTier :=
  match tier_of <$> permissions with
  | [] => TierRead
  | t :: ts => foldl tier_max t ts
  end.

Record RateLimitBudgets := {
  bud_window_ms : Z; bud_read : Z; bud_trade : Z; bud_admin : Z }.

Definition limit_for (b : RateLimitBudgets) (tier : RateLimitTier) : Z :=
  match tier with
  | TierRead => bud_read b | TierTrade => bud_trade b | TierAdmin => bud_admin b
  end.

Definition uniform (limit : Z) : RateLimitBudgets :=
  {| bud_window_ms := RATE_LIMIT_WINDOW_MS; bud_read := limit; bud_trade := limit;
     bud_admin := limit |}.

(** [std::net::IpAddr], an address by its bits. *)
Inductive IpAddr := V4 (octets : Z) | V6 (segments : Z).
#[export] Instance IpAddr_eq_dec : EqDecision IpAddr.
Proof. solve_decision. Defined.

Inductive RateLimitKey :=
  | KeyAccount (account : AccountId) (revocation_epoch : Z) (tier : RateLimitTier)
  | KeyPeer (peer : IpAddr).

#[export] Instance RateLimitKey_eq_dec : EqDecision RateLimitKey.
Proof. solve_decision. Defined.
#[export] Instance RateLimitKey_countable : Countable RateLimitKey.
Proof.
  apply (inj_countable'
    (λ k, match k with
          | KeyAccount a e t => inl (a, e, tier_u8 t)
          | KeyPeer (V4 o) => inr (inl o)
          | KeyPeer (V6 s) => inr (inr s)
          end)
    (λ c, match c with
          | inl (a, e, t) =>
              KeyAccount a e (if t =? 0 then TierRead else if t =? 1 then TierTrade else TierAdmin)
          | inr (inl o) => KeyPeer (V4 o)
          | inr (inr s) => KeyPeer (V6 s)
          end)).
  intros [a e []|[o|s]]; reflexivity.
Defined.

Record RateLimitDecision := {
  rd_allowed : bool; rd_limit : Z; rd_remaining : Z; rd_reset_ms : Z;
  rd_retry_after_ms : option Z }.

(** The rate-limit headers a response carries. *)
Definition apply_headers (d : RateLimitDecision) : list (string * Z) :=
  [("x-ratelimit-limit", rd_limit d); ("x-ratelimit-remaining", rd_remaining d);
   ("x-ratelimit-reset", rd_reset_ms d)] ++
  match rd_retry_after_ms d with
  | Some ms => [("retry-after", (ms + 999) / 1000)]
  | None => []
  end.

Record RateLimiter := {
  rl_budgets : RateLimitBudgets;
  rl_max_keys : Z;
  rl_windows : gmap RateLimitKey (list Z);
}.

Definition with_budgets_and_capacity (budgets : RateLimitBudgets) (max_keys : Z) : RateLimiter :=
  {| rl_budgets := budgets; rl_max_keys := Z.max max_keys 1; rl_windows := ∅ |}.
Definition with_budgets (budgets : RateLimitBudgets) : RateLimiter :=
  with_budgets_and_capacity budgets DEFAULT_MAX_RATE_LIMIT_KEYS.

Definition with_windows (w : gmap RateLimitKey (list Z)) (rl : RateLimiter) : RateLimiter :=
  {| rl_budgets := rl_budgets rl; rl_max_keys := rl_max_keys rl; rl_windows := w |}.

Definition limit_for_key (b : RateLimitBudgets) (key : RateLimitKey) : Z :=
  limit_for b match key with KeyAccount _ _ tier => tier | KeyPeer _ => TierRead end.

(** What [decide] keeps: a future timestamp is within the window. *)
Definition retained (now window_ms recorded : Z) : bool :=
  match checked_sub u64 now recorded with Some age => age <? window_ms | None => true end.

(** What [sweep_expired] keeps. *)
Definition unexpired (now window_ms recorded : Z) : bool :=
  match checked_sub u64 now recorded with Some age => age <? window_ms | None => false end.

Definition list_min (l : list Z) : option Z :=
  match l with [] => None | x :: l => Some (foldl Z.min x l) end.

Definition decide_window (timestamps : list Z) (now limit window_ms : Z) :
    list Z * RateLimitDecision :=
  let timestamps := List.filter (retained now window_ms) timestamps in
  let used := Z.of_nat (length timestamps) in
  let oldest := default now (list_min timestamps) in
  let reset_ms := default (int_max u64) (checked_add u64 oldest window_ms) in
  if used <? limit then
    let remaining := default 0 (checked_sub u64 limit (used + 1)) in
    (timestamps ++ [now],
     {| rd_allowed := true; rd_limit := limit;
        rd_remaining := default (int_max u32) (narrow u32 remaining);
        rd_reset_ms := reset_ms; rd_retry_after_ms := None |})
  else
    (timestamps,
     {| rd_allowed := false; rd_limit := limit; rd_remaining := 0; rd_reset_ms := reset_ms;
        rd_retry_after_ms := Some (default 0 (checked_sub u64 reset_ms now)) |}).

Definition denied_capacity (now limit window_ms : Z) : RateLimitDecision :=
  {| rd_allowed := false; rd_limit := limit; rd_remaining := 0;
     rd_reset_ms := default (int_max u64) (checked_add u64 now window_ms);
     rd_retry_after_ms := Some window_ms |}.

Definition sweep_windows (now window_ms : Z) (w : gmap RateLimitKey (list Z)) :
    gmap RateLimitKey (list Z) :=
  omap (λ timestamps,
    match List.filter (unexpired now window_ms) timestamps with
    | [] => None
    | timestamps => Some timestamps
    end) w.

Definition sweep_expired (now : Z) (rl : RateLimiter) : RateLimiter :=
  with_windows (sweep_windows now (bud_window_ms (rl_budgets rl)) (rl_windows rl)) rl.

Definition check_and_record_status (key : RateLimitKey) (now sweep_now : Z) (rl : RateLimiter) :
    RateLimiter * RateLimitDecision :=
  let limit := limit_for_key (rl_budgets rl) key in
  let window_ms := bud_window_ms (rl_budgets rl) in
  match rl_windows rl !! key with
  | Some timestamps =>
      let '(timestamps, d) := decide_window timestamps now limit window_ms in
      (with_windows (<[key := timestamps]> (rl_windows rl)) rl, d)
  | None =>
      let rl :=
        if rl_max_keys rl <=? Z.of_nat (size (rl_windows rl)) then sweep_expired sweep_now rl
        else rl in
      if rl_max_keys rl <=? Z.of_nat (size (rl_windows rl))
      then (rl, denied_capacity now limit window_ms)
      else
        let '(timestamps, d) :=
          decide_window (default [] (rl_windows rl !! key)) now limit window_ms in
        (with_windows (<[key := timestamps]> (rl_windows rl)) rl, d)
  end.

(** ** Runs *)

Inductive RlEvent :=
  | RlCheck (key : RateLimitKey) (now sweep_now : Z)
  | RlSweep (now : Z).

(** The clock readings of an event, in the order they are taken. *)
Definition readings (e : RlEvent) : list Z :=
  match e with RlCheck _ now sweep_now => [now; sweep_now] | RlSweep now => [now] end.

Record RlRecord := { rr_key : RateLimitKey; rr_now : Z; rr_decision : RateLimitDecision }.

Definition rl_step (s : RateLimiter * list RlRecord) (e : RlEvent) :
    RateLimiter * list RlRecord :=
  match e with
  | RlCheck key now sweep_now =>
      let '(rl, d) := check_and_record_status key now sweep_now s.1 in
      (rl, s.2 ++ [{| rr_key := key; rr_now := now; rr_decision := d |}])
  | RlSweep now => (sweep_expired now s.1, s.2)
  end.

Definition rl_run (rl : RateLimiter) (es : list RlEvent) : RateLimiter * list RlRecord :=
  foldl rl_step (rl, []) es.

(** The instants at which [key] was admitted. *)
Definition admitted_at (key : RateLimitKey) (h : list RlRecord) : list Z :=
  omap (λ r, if bool_decide (rr_key r = key) && rd_allowed (rr_decision r)
             then Some (rr_now r) else None) h.

(** The admissions of [key] still in the window at [now]. *)
Definition live_at (key : RateLimitKey) (now window_ms : Z) (h : list RlRecord) : list Z :=
  List.filter (λ r, now - r <? window_ms) (admitted_at key h).

(** The keys other than [key] with an admission in the window. *)
Definition live_keys (key : RateLimitKey) (now window_ms : Z) (h : list RlRecord) :
    gset RateLimitKey :=
  list_to_set (List.filter (λ k, bool_decide (k ≠ key) && bool_decide (live_at k now window_ms h ≠ []))
    (rr_key <$> h)).

(** ** Lists *)

Lemma filter_filter_impl {A} (P Q : A → bool) l :
  (∀ x, x ∈ l → Q x = true → P x = true) → List.filter Q (List.filter P l) = List.filter Q l.
Proof.
  induction l as [|x l IH]; intros HQ; cbn; [done|].
  assert (List.filter Q (List.filter P l) = List.filter Q l) as E
    by (apply IH; intros y Hy; apply HQ; by right).
  specialize (HQ x ltac:(left)).
  destruct (P x) eqn:HP; cbn; rewrite ?E; [done|]. destruct (Q x); [|done]. by discriminate HQ.
Qed.

Lemma filter_length_mono {A} (P Q : A → bool) l :
  (∀ x, x ∈ l → P x = true → Q x = true) →
  (length (List.filter P l) ≤ length (List.filter Q l))%nat.
Proof.
  induction l as [|x l IH]; intros HQ; cbn; [done|].
  assert (length (List.filter P l) ≤ length (List.filter Q l))%nat
    by (apply IH; intros y Hy; apply HQ; by right).
  specialize (HQ x ltac:(left)).
  destruct (P x), (Q x); cbn; try lia.
Qed.

Lemma filter_all {A} (P : A → bool) l : (∀ x, x ∈ l → P x = true) → List.filter P l = l.
Proof.
  induction l as [|x l IH]; intros H; cbn; [done|].
  rewrite (H x) by left. f_equal. apply IH. intros y Hy. apply H. by right.
Qed.

Lemma filter_none {A} (P : A → bool) l : (∀ x, x ∈ l → P x = false) → List.filter P l = [].
Proof.
  induction l as [|x l IH]; intros H; cbn; [done|].
  rewrite (H x) by left. apply IH. intros y Hy. apply H. by right.
Qed.

Lemma elem_of_filter_bool {A} (P : A → bool) l x : x ∈ List.filter P l ↔ x ∈ l ∧ P x = true.
Proof. rewrite !list_elem_of_In. apply filter_In. Qed.

Lemma filter_ext_elem {A} (P Q : A → bool) l :
  (∀ x, x ∈ l → P x = Q x) → List.filter P l = List.filter Q l.
Proof. intros H. apply List.filter_ext_in. intros x Hx. apply H. by apply list_elem_of_In. Qed.

Lemma foldl_min_le x l : foldl Z.min x l ≤ x ∧ ∀ y, y ∈ l → foldl Z.min x l ≤ y.
Proof.
  revert x. induction l as [|y l IH]; intros x; cbn; [split; [done|by intros ? ?%not_elem_of_nil]|].
  destruct (IH (Z.min x y)) as [H1 H2]. split; [lia|].
  intros z [->|Hz]%elem_of_cons; [lia|by apply H2].
Qed.

Lemma foldl_min_elem x l : foldl Z.min x l ∈ x :: l.
Proof.
  revert x. induction l as [|y l IH]; intros x; cbn; [by left|].
  specialize (IH (Z.min x y)). apply elem_of_cons in IH as [E|E].
  - rewrite E. destruct (Z.min_spec x y) as [[_ ->]|[_ ->]]; [by left|right; by left].
  - right. by right.
Qed.

Lemma list_min_spec l m : list_min l = Some m → m ∈ l ∧ ∀ y, y ∈ l → m ≤ y.
Proof.
  destruct l as [|x l]; [done|]. cbn. intros [= <-]. split; [apply foldl_min_elem|].
  destruct (foldl_min_le x l) as [H1 H2]. intros y [->|Hy]%elem_of_cons; [done|by apply H2].
Qed.

(** ** One window *)

Section window.
Context (w : Z) (Hw : 0 ≤ w).
Definition in_window (now r : Z) : bool := now - r <? w.

Lemma retained_spec now r : 0 ≤ r ≤ now → has_ty u64 now → retained now w r = in_window now r.
Proof.
  intros Hr Hn. unfold retained, checked_sub, in_window.
  rewrite narrow_fits; [done|]. unfold has_ty in *. cbn in *. lia.
Qed.

Lemma unexpired_spec now r : 0 ≤ r ≤ now → has_ty u64 now → unexpired now w r = in_window now r.
Proof.
  intros Hr Hn. unfold unexpired, checked_sub, in_window.
  rewrite narrow_fits; [done|]. unfold has_ty in *. cbn in *. lia.
Qed.

(** The decision on the timestamps a key retains. *)
Lemma decide_window_spec ts now limit ts' d :
  (∀ r, r ∈ ts → 0 ≤ r ≤ now) → has_ty u64 now → has_ty u64 (now + w) → has_ty u32 limit →
  decide_window ts now limit w = (ts', d) →
  let live := List.filter (in_window now) ts in
  (rd_allowed d = true ∧ Z.of_nat (length live) < limit ∧ ts' = live ++ [now] ∧
   rd_remaining d = limit - Z.of_nat (length live) - 1) ∨
  (rd_allowed d = false ∧ limit ≤ Z.of_nat (length live) ∧ ts' = live ∧
   rd_retry_after_ms d = Some (default now (list_min live) + w - now)).
Proof.
  intros Hts Hn Hnw Hl. unfold decide_window.
  rewrite (filter_ext_elem (retained now w) (in_window now)) by (intros; apply retained_spec; auto).
  set (live := List.filter (in_window now) ts). cbn zeta.
  unfold has_ty in Hn, Hnw, Hl; cbn in Hn, Hnw, Hl.
  destruct (Z.ltb_spec (Z.of_nat (length live)) limit); intros [= <- <-]; cbn.
  - left. split_and!; try done. unfold checked_sub.
    rewrite (narrow_fits u64) by (unfold has_ty; cbn; lia). cbn [default].
    rewrite narrow_fits by (unfold has_ty; cbn; lia). cbn. lia.
  - right. split_and!; try done. f_equal.
    assert (0 ≤ default now (list_min live) ≤ now ∧ now ≤ default now (list_min live) + w) as [H1 H2].
    { destruct (list_min live) as [m|] eqn:E; cbn; [|lia].
      apply list_min_spec in E as [E _]. apply elem_of_filter_bool in E as [E1 E2].
      unfold in_window in E2. specialize (Hts m E1). lia. }
    unfold checked_add, checked_sub. rewrite (narrow_fits _ (_ + w)) by (unfold has_ty; cbn; lia).
    cbn. rewrite narrow_fits by (unfold has_ty; cbn; lia). done.
Qed.

(** When the window has room again. *)
Lemma retry_exact l now limit :
  (∀ r, r ∈ l → r ≤ now) → 0 < limit →
  let live := List.filter (in_window now) l in
  Z.of_nat (length live) = limit → ∀ now', now ≤ now' →
  Z.of_nat (length (List.filter (in_window now') l)) < limit ↔
    now + (default now (list_min live) + w - now) ≤ now'.
Proof.
  intros Hl Hlim live Hlen now' Hnow.
  assert (List.filter (in_window now') l = List.filter (in_window now') live) as ->.
  { symmetry. apply filter_filter_impl. unfold in_window. intros r _. lia. }
  destruct (list_min live) as [m|] eqn:Hm.
  2: { destruct live; [cbn in Hlen; lia|done]. }
  apply list_min_spec in Hm as [Hm Hmin]. cbn. split; intros H.
  - destruct (decide (now + (m + w - now) ≤ now')) as [|Hn]; [done|exfalso].
    rewrite filter_all in H; [lia|]. intros r Hr. specialize (Hmin r Hr). unfold in_window. lia.
  - assert (in_window now' m = false) as Hf by (unfold in_window; lia).
    clear -Hm Hf Hlen. rewrite <-Hlen. clear Hlen. induction live as [|x live IH]; cbn.
    { by apply not_elem_of_nil in Hm. }
    apply elem_of_cons in Hm as [<-|Hm]; [rewrite Hf|].
    + pose proof (List.filter_length_le (in_window now') live). lia.
    + specialize (IH Hm). destruct (in_window now' x); cbn; lia.
Qed.
End window.

(** ** Runs *)

Lemma admitted_at_snoc k h x :
  admitted_at k (h ++ [x]) =
    admitted_at k h ++
    (if bool_decide (rr_key x = k) && rd_allowed (rr_decision x) then [rr_now x] else []).
Proof. unfold admitted_at. rewrite omap_app. f_equal. cbn. by destruct (_ && _). Qed.

Lemma admitted_at_key k h r : r ∈ admitted_at k h → k ∈ rr_key <$> h.
Proof.
  intros (x & Hx & E)%list_elem_of_omap. apply list_elem_of_fmap.
  case_bool_decide as Hk; [|done]. by exists x.
Qed.

Section runs.
Context (b : RateLimitBudgets) (max_keys : Z).
Notation w := (bud_window_ms b).
Notation cap := (Z.max max_keys 1).

(** Why a check was admitted or refused, given the records before it. *)
Definition verdict (h : list RlRecord) (x : RlRecord) : Prop :=
  let live := live_at (rr_key x) (rr_now x) w h in
  let limit := limit_for_key b (rr_key x) in
  if rd_allowed (rr_decision x)
  then Z.of_nat (length live) < limit ∧
       rd_remaining (rr_decision x) = limit - Z.of_nat (length live) - 1
  else
    (Z.of_nat (length live) = limit ∧
     ∃ retry, rd_retry_after_ms (rr_decision x) = Some retry ∧
       (0 < limit → ∀ later, rr_now x ≤ later →
          (Z.of_nat (length (live_at (rr_key x) later w h)) < limit ↔ rr_now x + retry ≤ later))) ∨
    (live = [] ∧ cap ≤ Z.of_nat (size (live_keys (rr_key x) (rr_now x) w h))).

(** A limiter after the records [h], its last clock reading being [t]. *)
Record rl_inv (rl : RateLimiter) (h : list RlRecord) (t : Z) : Prop := {
  ri_budgets : rl_budgets rl = b;
  ri_max_keys : rl_max_keys rl = cap;
  ri_size : Z.of_nat (size (rl_windows rl)) ≤ cap;
  ri_window : ∀ k t', t ≤ t' →
    List.filter (in_window w t') (default [] (rl_windows rl !! k)) = live_at k t' w h;
  ri_times : ∀ k r, r ∈ default [] (rl_windows rl !! k) → 0 ≤ r ≤ t;
  ri_admitted : ∀ k r, r ∈ admitted_at k h → 0 ≤ r ≤ t;
  ri_live : ∀ k t', t ≤ t' → Z.of_nat (length (live_at k t' w h)) ≤ limit_for_key b k;
  ri_sliding : ∀ k t0,
    Z.of_nat (length (List.filter (λ r, (t0 <=? r) && (r <? t0 + w)) (admitted_at k h)))
      ≤ limit_for_key b k;
  ri_verdicts : ∀ h1 x h2, h = h1 ++ x :: h2 → verdict h1 x;
}.

Definition budgets_ok : Prop :=
  0 ≤ w ∧ ∀ tier, has_ty u32 (limit_for b tier).

Lemma limit_ok k : budgets_ok → has_ty u32 (limit_for_key b k).
Proof. intros [_ H]. unfold limit_for_key. apply H. Qed.

Lemma live_at_mono k t t' h :
  t ≤ t' → List.filter (in_window w t') (live_at k t w h) = live_at k t' w h.
Proof. intros Ht. apply filter_filter_impl. unfold in_window. intros r _. lia. Qed.

Lemma rl_inv_later rl h t t' : rl_inv rl h t → t ≤ t' → rl_inv rl h t'.
Proof.
  intros [] Ht. split; try done; intros.
  - apply ri_window0. lia.
  - specialize (ri_times0 _ _ H). lia.
  - specialize (ri_admitted0 _ _ H). lia.
  - apply ri_live0. lia.
Qed.

Lemma rl_inv_new t : budgets_ok → 0 ≤ t → rl_inv (with_budgets_and_capacity b max_keys) [] t.
Proof.
  intros Hb Ht. assert (∀ k, 0 ≤ limit_for_key b k) as Hl
    by (intros k; apply limit_ok; done).
  split; cbn; try done.
  - rewrite map_size_empty. lia.
  - intros k r. rewrite lookup_empty. by intros ?%not_elem_of_nil.
  - by intros k r ?%not_elem_of_nil.
  - by intros [] x h2.
Qed.

Lemma sweep_windows_lookup now (m : gmap RateLimitKey (list Z)) k :
  default [] (sweep_windows now w m !! k) =
    List.filter (unexpired now w) (default [] (m !! k)).
Proof.
  unfold sweep_windows. rewrite lookup_omap. destruct (m !! k) as [ts|]; cbn; [|done].
  by destruct (List.filter (unexpired now w) ts) eqn:E.
Qed.

Lemma sweep_windows_size now (m : gmap RateLimitKey (list Z)) :
  (size (sweep_windows now w m) ≤ size m)%nat.
Proof.
  rewrite <-!size_dom. apply subseteq_size. intros k. rewrite !elem_of_dom.
  unfold sweep_windows. rewrite lookup_omap. intros [ts Hts]. destruct (m !! k); [done|].
  by discriminate Hts.
Qed.

Lemma sweep_inv rl h t now :
  rl_inv rl h t → t ≤ now → has_ty u64 now → rl_inv (sweep_expired now rl) h now.
Proof.
  intros I Ht Hnow. pose proof (rl_inv_later _ _ _ _ I Ht) as [].
  assert (∀ k, List.filter (unexpired now w) (default [] (rl_windows rl !! k)) =
    List.filter (in_window w now) (default [] (rl_windows rl !! k))) as Hf.
  { intros k. apply filter_ext_elem. intros r Hr. apply unexpired_spec; [|done]. by eapply ri_times0. }
  split; cbn; try done; rewrite ?ri_budgets0.
  - pose proof (sweep_windows_size now (rl_windows rl)). lia.
  - intros k t' Ht'. rewrite sweep_windows_lookup, Hf, ri_window0 by done. by apply live_at_mono.
  - intros k r. rewrite sweep_windows_lookup, Hf. intros [Hr _]%elem_of_filter_bool. by eapply ri_times0.
Qed.

(** Every key a full limiter still tracks after a sweep has a live admission. *)
Lemma sweep_full rl h t now now0 key :
  rl_inv rl h t → t ≤ now0 → now0 ≤ now → has_ty u64 now → rl_windows rl !! key = None →
  (size (rl_windows (sweep_expired now rl)) ≤ size (live_keys key now0 w h))%nat.
Proof.
  intros I Ht Hn Hnow Hkey. rewrite <-size_dom. apply subseteq_size. intros k.
  rewrite elem_of_dom. cbn. rewrite (ri_budgets _ _ _ I). unfold sweep_windows.
  rewrite lookup_omap. intros [ts' Hts]. destruct (rl_windows rl !! k) as [ts|] eqn:Hk; [|done].
  cbn in Hts. destruct (List.filter (unexpired now w) ts) as [|r rs] eqn:Hf; [done|].
  assert (r ∈ List.filter (unexpired now w) ts) as Hr by (rewrite Hf; left).
  apply elem_of_filter_bool in Hr as [Hr Hu].
  assert (r ∈ default [] (rl_windows rl !! k)) as Hr' by by rewrite Hk.
  pose proof (ri_times _ _ _ I _ _ Hr') as Htimes.
  rewrite unexpired_spec in Hu by (done || lia).
  assert (r ∈ live_at k now0 w h) as Hlive.
  { rewrite <-(ri_window _ _ _ I) by done. apply elem_of_filter_bool. split; [done|].
    unfold in_window in *. lia. }
  unfold live_keys. apply elem_of_list_to_set, elem_of_filter_bool. split.
  - apply elem_of_filter_bool in Hlive as [Ha _]. by eapply admitted_at_key.
  - rewrite !bool_decide_true; [done|..]; [by intros E; rewrite E in Hlive; apply not_elem_of_nil in Hlive|].
    intros ->. congruence.
Qed.

Lemma live_at_snoc k t' h x :
  live_at k t' w (h ++ [x]) =
    live_at k t' w h ++
    (if bool_decide (rr_key x = k) && rd_allowed (rr_decision x)
     then List.filter (in_window w t') [rr_now x] else []).
Proof.
  unfold live_at. rewrite admitted_at_snoc, List.filter_app. f_equal. by destruct (_ && _).
Qed.

Lemma verdicts_snoc h x :
  (∀ h1 y h2, h = h1 ++ y :: h2 → verdict h1 y) → verdict h x →
  ∀ h1 y h2, h ++ [x] = h1 ++ y :: h2 → verdict h1 y.
Proof.
  intros Hh Hx h1 y h2 E. destruct h2 as [|z h2 _] using rev_ind.
  - apply app_inj_tail in E as [-> ->]. done.
  - rewrite app_comm_cons, (assoc_L (++)) in E. apply app_inj_tail in E as [-> ->]. by eapply Hh.
Qed.

(** A check refused for want of a key slot leaves every window as it is. *)
Lemma refused_inv rl h now x :
  rl_inv rl h now → rd_allowed (rr_decision x) = false → verdict h x → rl_inv rl (h ++ [x]) now.
Proof.
  intros [] Hd Hv.
  assert (∀ k, admitted_at k (h ++ [x]) = admitted_at k h) as E.
  { intros k. rewrite admitted_at_snoc. rewrite Hd, andb_false_r. by rewrite app_nil_r. }
  split; try done; unfold live_at; intros; rewrite ?E in *; eauto.
  by eapply verdicts_snoc.
Qed.

(** What the invariant says of one key, from the reading [now] on. *)
Record key_inv (rl : RateLimiter) (h : list RlRecord) (now : Z) (key : RateLimitKey) : Prop := {
  ki_window : ∀ t', now ≤ t' →
    List.filter (in_window w t') (default [] (rl_windows rl !! key)) = live_at key t' w h;
  ki_times : ∀ r, r ∈ default [] (rl_windows rl !! key) → 0 ≤ r ≤ now;
  ki_admitted : ∀ r, r ∈ admitted_at key h → 0 ≤ r ≤ now;
  ki_live : ∀ t', now ≤ t' → Z.of_nat (length (live_at key t' w h)) ≤ limit_for_key b key;
}.

Lemma rl_inv_key rl h t key : rl_inv rl h t → key_inv rl h t key.
Proof. intros []. split; eauto. Qed.

(** A check decided on the key's window: the verdict and the key's new window. *)
Lemma decided_key rl h now key ts' d :
  budgets_ok → key_inv rl h now key → has_ty u64 now → has_ty u64 (now + w) →
  decide_window (default [] (rl_windows rl !! key)) now (limit_for_key b key) w = (ts', d) →
  let x := {| rr_key := key; rr_now := now; rr_decision := d |} in
  verdict h x ∧ key_inv (with_windows (<[key := ts']> (rl_windows rl)) rl) (h ++ [x]) now key ∧
  (rd_allowed d = true → Z.of_nat (length (live_at key now w h)) < limit_for_key b key).
Proof.
  intros Hb [Kw Kt Ka Kl] Hn Hnw Hd x. pose proof (limit_ok key Hb) as Hlim.
  pose proof (decide_window_spec w (proj1 Hb) _ now _ _ _ Kt Hn Hnw Hlim Hd) as Hspec.
  cbn zeta in Hspec. rewrite Kw in Hspec by done.
  set (live := live_at key now w h) in Hspec.
  pose proof (Kl now ltac:(done)) as Hll. fold live in Hll.
  assert (0 ≤ now) as Hn0 by (unfold has_ty in Hn; cbn in Hn; lia).
  assert (admitted_at key (h ++ [x]) = admitted_at key h ++ if rd_allowed d then [now] else []) as Ha.
  { rewrite admitted_at_snoc. cbn. by rewrite bool_decide_true. }
  assert (∀ t', now ≤ t' → List.filter (in_window w t') ts' = live_at key t' w (h ++ [x])) as Hwin.
  { intros t' Ht'. unfold live_at at 1. rewrite Ha, List.filter_app.
    change (List.filter (λ r, t' - r <? w) (admitted_at key h)) with (live_at key t' w h).
    rewrite <-(live_at_mono key now t') by done. fold live.
    destruct Hspec as [(-> & _ & -> & _)|(-> & _ & -> & _)]; [by rewrite List.filter_app|].
    by rewrite app_nil_r. }
  split_and!.
  - unfold verdict. cbn. fold live. destruct Hspec as [(-> & ? & _ & ?)|(-> & Hge & _ & Hr)]; [done|].
    left. split; [lia|]. eexists. split; [done|]. intros Hpos later Hlater.
    apply (retry_exact w (admitted_at key h) now (limit_for_key b key)); [|done| |done].
    + intros r Hr'. by apply Ka.
    + change (Z.of_nat (length live) = limit_for_key b key). lia.
  - assert (∀ r, r ∈ live ++ [now] → 0 ≤ r ≤ now) as Hln.
    { intros r [[Hr _]%elem_of_filter_bool|Hr]%elem_of_app; [by apply Ka|].
      apply list_elem_of_singleton in Hr as ->. lia. }
    split; cbn; rewrite ?lookup_insert_eq; [done|..]; cbn.
    + intros r Hr. apply Hln. destruct Hspec as [(_ & _ & -> & _)|(_ & _ & -> & _)]; [done|].
      apply elem_of_app. by left.
    + intros r. rewrite Ha. intros [Hr|Hr]%elem_of_app; [by apply Ka|].
      destruct (rd_allowed d); [|by apply not_elem_of_nil in Hr].
      apply list_elem_of_singleton in Hr as ->. lia.
    + intros t' Ht'. rewrite <-Hwin by done.
      pose proof (List.filter_length_le (in_window w t') ts').
      destruct Hspec as [(_ & ? & -> & _)|(_ & _ & -> & _)]; [rewrite length_app in *; cbn in *|]; lia.
  - intros Hal. by destruct Hspec as [(_ & ? & _)|(E & _)]; [|congruence].
Qed.

Lemma decided_inv rl h t now key ts' d :
  budgets_ok → rl_inv rl h t → now ≤ t → key_inv rl h now key →
  has_ty u64 now → has_ty u64 (now + w) →
  Z.of_nat (size (<[key := ts']> (rl_windows rl))) ≤ cap →
  decide_window (default [] (rl_windows rl !! key)) now (limit_for_key b key) w = (ts', d) →
  rl_inv (with_windows (<[key := ts']> (rl_windows rl)) rl)
    (h ++ [{| rr_key := key; rr_now := now; rr_decision := d |}]) t.
Proof.
  intros Hb I Ht K Hn Hnw Hsize Hd.
  destruct (decided_key _ _ _ _ _ _ Hb K Hn Hnw Hd) as (Hv & [Kw Kt Ka Kl] & Hallow).
  set (x := {| rr_key := key; rr_now := now; rr_decision := d |}) in *.
  assert (∀ k', k' ≠ key → admitted_at k' (h ++ [x]) = admitted_at k' h) as Hother.
  { intros k' Hk'. rewrite admitted_at_snoc. cbn.
    rewrite bool_decide_false by done. by rewrite app_nil_r. }
  destruct I. split; try done. 6: by apply verdicts_snoc.
  all: unfold live_at in *; intros k; intros;
    (destruct (decide (k = key)) as [->|Hk];
      [|rewrite ?Hother in * by done; cbn in *; rewrite ?lookup_insert_ne in * by done; by eauto]).
  - apply Kw. lia.
  - specialize (Kt r H). lia.
  - specialize (Ka r H). lia.
  - apply Kl. lia.
  - rewrite admitted_at_snoc. cbn. rewrite bool_decide_true by done. cbn.
    rewrite List.filter_app, length_app. specialize (ri_sliding0 key t0).
    destruct (rd_allowed d) eqn:Hal; cbn; [|lia].
    destruct ((t0 <=? now) && (now <? t0 + w)) eqn:E; cbn; [|lia].
    specialize (Hallow eq_refl).
    pose proof (filter_length_mono (λ r, (t0 <=? r) && (r <? t0 + w)) (λ r, now - r <? w)
      (admitted_at key h) ltac:(intros ? _; cbn; lia)). lia.
Qed.

Lemma check_inv rl h t key now sweep_now :
  budgets_ok → rl_inv rl h t → t ≤ now → now ≤ sweep_now →
  has_ty u64 now → has_ty u64 (now + w) → has_ty u64 sweep_now →
  let s := rl_step (rl, h) (RlCheck key now sweep_now) in rl_inv s.1 s.2 sweep_now.
Proof.
  intros Hb I Ht Hs Hn Hnw Hsn. cbn [rl_step fst snd].
  pose proof (rl_inv_later _ _ _ _ I Ht) as I1.
  pose proof (rl_inv_key _ _ _ key I1) as K.
  unfold check_and_record_status. rewrite (ri_budgets _ _ _ I), (ri_max_keys _ _ _ I).
  destruct (rl_windows rl !! key) as [ts|] eqn:Hkey.
  { destruct (decide_window ts now (limit_for_key b key) w) as [ts' d] eqn:Hd. cbn.
    apply (rl_inv_later _ _ now); [|done]. apply (decided_inv _ _ _ _ _ _ _ Hb I1); try done.
    - rewrite map_size_insert_Some by done. apply (ri_size _ _ _ I).
    - by rewrite Hkey. }
  set (rl1 := if cap <=? Z.of_nat (size (rl_windows rl)) then sweep_expired sweep_now rl else rl).
  assert (rl_inv rl1 h sweep_now) as I2.
  { unfold rl1. case_match; [apply (sweep_inv _ _ t); [done|lia|done]|].
    by apply (rl_inv_later _ _ now). }
  assert (rl_windows rl1 !! key = None) as Hkey1.
  { unfold rl1. case_match; [|done]. cbn. unfold sweep_windows. by rewrite lookup_omap, Hkey. }
  rewrite (ri_max_keys _ _ _ I2).
  destruct (Z.leb_spec cap (Z.of_nat (size (rl_windows rl1)))) as [Hfull|Hroom].
  - cbn. apply refused_inv; [done|done|]. unfold verdict. cbn. right. split.
    + rewrite <-(ki_window _ _ _ _ K) by done. by rewrite Hkey.
    + etrans; [exact Hfull|]. apply inj_le. revert Hfull. unfold rl1. case_match; [|lia].
      intros _. by apply (sweep_full _ _ t).
  - rewrite Hkey1. cbn [default].
    destruct (decide_window [] now (limit_for_key b key) w) as [ts' d] eqn:Hd. cbn.
    apply (decided_inv _ _ _ _ _ _ _ Hb I2); try done.
    + destruct K as [Kw Kt Ka Kl]. split; rewrite ?Hkey1, ?Hkey in *; done.
    + rewrite map_size_insert_None by done. lia.
    + by rewrite Hkey1.
Qed.

(** Clock readings that never go back and leave room for a window before the clock's end. *)
Definition readings_ok (es : list RlEvent) : Prop :=
  StronglySorted Z.le (es ≫= readings) ∧
  ∀ t, t ∈ es ≫= readings → 0 ≤ t ∧ t + w ≤ int_max u64.

Lemma run_inv rl h t es :
  budgets_ok → rl_inv rl h t → StronglySorted Z.le (t :: es ≫= readings) → 0 ≤ t →
  (∀ t, t ∈ es ≫= readings → 0 ≤ t ∧ t + w ≤ int_max u64) →
  ∃ t', let s := foldl rl_step (rl, h) es in rl_inv s.1 s.2 t'.
Proof.
  intros Hb. revert rl h t. induction es as [|e es IH]; intros rl h t I Hsort Ht Hok; [by exists t|].
  pose proof (proj1 Hb) as Hw.
  destruct e as [key now sweep_now|now]; cbn [mbind list_bind readings app] in *.
  - assert (has_ty u64 now ∧ has_ty u64 (now + w) ∧ has_ty u64 sweep_now) as (?&?&?).
    { pose proof (Hok now ltac:(left)). pose proof (Hok sweep_now ltac:(right; left)).
      unfold has_ty. cbn in *. lia. }
    apply StronglySorted_inv in Hsort as [Hsort Ht1].
    apply StronglySorted_inv in Hsort as [Hsort Ht2].
    apply Forall_cons in Ht1 as [Ht1 _]. apply Forall_cons in Ht2 as [Ht2 _].
    pose proof (check_inv _ _ _ key _ _ Hb I Ht1 Ht2) as I'. cbn [foldl].
    destruct (rl_step (rl, h) (RlCheck key now sweep_now)) as [rl' h'].
    apply (IH rl' h' sweep_now); [by apply I'|done|lia|].
    intros r Hr. apply Hok. do 2 right. done.
  - assert (has_ty u64 now) as Hnow.
    { pose proof (Hok now ltac:(left)). unfold has_ty. cbn in *. lia. }
    apply StronglySorted_inv in Hsort as [Hsort Ht1]. apply Forall_cons in Ht1 as [Ht1 _].
    apply (IH _ _ now); [by apply (sweep_inv _ _ t)|done|lia|].
    intros r Hr. apply Hok. by right.
Qed.

(** C23. The rate limiter is an exact sliding window with bounded memory.  Whatever checks
    and sweeps run, with clock readings that do not go back: no window of the configured
    length holds more admissions of a key than its tier's budget, wherever the window
    starts; the number of tracked keys never exceeds the ceiling; a check is refused only
    when the key has spent its whole budget within the last window — and then the
    retry-after it is given is exact: with no further admission there is room from that
    instant on and not before — or when the key has no admission in the window and as many
    other keys as the ceiling have; and an admission reports the budget that is left. *)
Theorem rate_limit_sliding_window es :
  budgets_ok → readings_ok es →
  let s := rl_run (with_budgets_and_capacity b max_keys) es in
  Z.of_nat (size (rl_windows s.1)) ≤ cap ∧
  (∀ k t0, Z.of_nat (length (List.filter (λ r, (t0 <=? r) && (r <? t0 + w)) (admitted_at k s.2)))
     ≤ limit_for_key b k) ∧
  (∀ h1 x h2, s.2 = h1 ++ x :: h2 → verdict h1 x).
Proof.
  intros Hb [Hsort Hok].
  destruct (run_inv (with_budgets_and_capacity b max_keys) [] 0 es) as (t' & I); try done.
  - by apply rl_inv_new.
  - constructor; [done|]. apply Forall_forall. intros r Hr. apply Hok in Hr. lia.
  - destruct I. done.
Qed.
End runs.

(** ** A concrete run *)

Definition sample_budgets : RateLimitBudgets :=
  {| bud_window_ms := 1000; bud_read := 1; bud_trade := 3; bud_admin := 5 |}.

Definition sample_checks : list RlEvent :=
  [RlCheck (KeyPeer (V4 1)) 0 0; RlCheck (KeyPeer (V4 1)) 10 10; RlCheck (KeyPeer (V4 2)) 20 20;
   RlCheck (KeyPeer (V6 3)) 30 31; RlCheck (KeyPeer (V4 1)) 1000 1000; RlSweep 1020;
   RlCheck (KeyAccount "alice" 0 TierTrade) 1021 1021].

Lemma rate_limit_sliding_window_witness :
  let s := rl_run (with_budgets_and_capacity sample_budgets 2) sample_checks in
  ((λ x, (rd_allowed (rr_decision x), rd_retry_after_ms (rr_decision x))) <$> s.2) =
    [(true, None); (false, Some 990); (true, None); (false, Some 1000); (true, None);
     (true, None)] ∧
  Z.of_nat (size (rl_windows s.1)) ≤ 2 ∧
  Z.of_nat (length (List.filter (λ r, (0 <=? r) && (r <? 0 + 1000)) (admitted_at (KeyPeer (V4 1)) s.2)))
    ≤ 1.
Proof.
  split; [by vm_compute|].
  destruct (rate_limit_sliding_window sample_budgets 2 sample_checks) as (Hs & Hw & _).
  - split; [done|]. by intros [].
  - split.
    + cbn. repeat (constructor; [|repeat (constructor; [lia|]); constructor]). constructor.
    + cbn. intros t Ht. repeat (apply elem_of_cons in Ht as [->|Ht]; [lia|]).
      by apply not_elem_of_nil in Ht.
  - split; [exact Hs|]. exact (Hw (KeyPeer (V4 1)) 0).
Defined.
