(* ===== verification/Auth.v ===== *)
(** Accounts, credentials and admission ([src/src/auth.rs]): the claims of a bearer token,
    the account registry with its revocation epochs, the FIX login, the single-use WebSocket
    tickets, and the admission of a request.  Token signing and password hashing are
    libraries: the class [CredentialLib].  Time of day and randomness are arguments. *)

From stdpp Require Export gmap.
From S2P Require Export RateLimit.

Definition WS_TICKET_TTL_SECS : Z := 30.
Definition MAX_WS_TICKETS : Z := 65536.
Definition EXEMPT_PATHS : list string := ["/health"].
Definition ARGON2_M_COST_KIB : Z := 19456.
Definition ARGON2_T_COST : Z := 2.
Definition ARGON2_P_COST : Z := 1.
Definition DEFAULT_TOKEN_TTL_SECS : Z := 3600.
Definition FIX_LOGIN_TIMING_DUMMY : string := "fauxchange-fix-login-timing-equalisation-dummy".

Record Claims := {
  cl_sub : AccountId; cl_permissions : list Permission; cl_iat : Z; cl_exp : Z;
  cl_revocation_epoch : Z }.
#[export] Instance Claims_eq_dec : EqDecision Claims.
Proof. solve_decision. Defined.

Definition claims_has_permission (c : Claims) (required : Permission) : bool :=
  existsb (λ held, grants held required) (cl_permissions c).

Inductive AuthError :=
  | KeyLoad (what : string) | Signing | BootstrapDisabled | BootstrapMismatch | DevKeyRefused
  | PasswordHashFailed | Provisioning (what : string) | UnknownAccount | AccountRevoked
  | TokenLifetime.
#[export] Instance AuthError_eq_dec : EqDecision AuthError.
Proof. solve_decision. Defined.

(** [Argon2Hasher]. *)
Record Argon2Hasher := {
  ah_pepper : option string; ah_m_cost : Z; ah_t_cost : Z; ah_p_cost : Z }.

Definition Argon2Hasher_new (pepper : option string) : Argon2Hasher :=
  {| ah_pepper := match pepper with Some EmptyString => None | _ => pepper end;
     ah_m_cost := ARGON2_M_COST_KIB; ah_t_cost := ARGON2_T_COST; ah_p_cost := ARGON2_P_COST |}.

(** What [jsonwebtoken] and [argon2] do for the code: signing and checking a token under
    the process's key (the check reads the time of day for [exp]); hashing a password with a
    fresh salt, parsing a stored hash, its cost parameters, verifying a password against it.
    [None] is the library's error. *)
Class CredentialLib := {
  jwt_encode : Claims → option string;
  jwt_decode : Z → string → option Claims;
  argon_hash : Argon2Hasher → Z → string → option string;
  argon_parse : string → bool;
  argon_params : string → option (Z * Z * Z);
  argon_verify : Argon2Hasher → string → string → option bool;
}.

(** ** Bytes *)

Definition as_bytes (s : string) : list Z :=
  (λ c, Z.of_N (Ascii.N_of_ascii c)) <$> String.list_ascii_of_string s.

Definition constant_time_eq (a b : list Z) : bool :=
  if negb (length a =? length b)%nat then false
  else foldl (λ diff xy, Z.lor diff (Z.lxor xy.1 xy.2)) 0 (zip a b) =? 0.

Definition hex_char (d : Z) : Ascii.ascii :=
  match String.get (Z.to_nat d) "0123456789abcdef" with
  | Some c => c
  | None => Ascii.zero
  end.

Definition hex_encode_lower (data : list Z) : string :=
  String.string_of_list_ascii
    (data ≫= λ byte, [hex_char (Z.shiftr byte 4); hex_char (Z.land byte 15)]).

(** ** The account registry *)

Record CompIdBinding := { cb_sender_comp_id : string; cb_target_comp_id : string }.
Record Credentials := {
  cr_fix_username : option string; cr_password_hash : option string;
  cr_fix_comp_ids : option CompIdBinding }.
Record Account := {
  acc_id : AccountId; acc_owner : Hash32; acc_permissions : list Permission;
  acc_credentials : Credentials; acc_revocation_epoch : Z }.
Record AccountProvision := {
  ap_id : AccountId; ap_owner : Hash32; ap_permissions : list Permission;
  ap_fix_username : option string; ap_fix_password : option string;
  ap_fix_comp_ids : option CompIdBinding }.

Inductive PasswordVerification := Verified | VerifiedRehash (fresh : string) | RejectedPassword.

Inductive FixLoginOutcome :=
  | Authenticated (account : AccountId) (permissions : list Permission)
  | LoginRejected.

(** [BootstrapGate]. *)
Record BootstrapGate := { bg_secret : option string }.

Definition authorize (gate : BootstrapGate) (presented : string) : result AuthError unit :=
  match bg_secret gate with
  | None => Err BootstrapDisabled
  | Some secret =>
      if constant_time_eq (as_bytes secret) (as_bytes presented) then Ok tt
      else Err BootstrapMismatch
  end.

(** [JwtAuth] with the library's keys left out; [DevMode] is its flag. *)
Record JwtAuth := { jwt_is_dev : bool }.

Definition release_gated (dev_mode : bool) (jwt : JwtAuth) : result AuthError JwtAuth :=
  if jwt_is_dev jwt && negb dev_mode then Err DevKeyRefused else Ok jwt.

Record AccountRegistry := {
  reg_hasher : Argon2Hasher;
  reg_by_id : gmap AccountId Account;
  reg_by_fix_username : gmap string AccountId;
  reg_login_timing_dummy : option (option string);
}.

Definition AccountRegistry_new (hasher : Argon2Hasher) : AccountRegistry :=
  {| reg_hasher := hasher; reg_by_id := ∅; reg_by_fix_username := ∅;
     reg_login_timing_dummy := None |}.

Definition with_by_id (m : gmap AccountId Account) (r : AccountRegistry) : AccountRegistry :=
  {| reg_hasher := reg_hasher r; reg_by_id := m; reg_by_fix_username := reg_by_fix_username r;
     reg_login_timing_dummy := reg_login_timing_dummy r |}.
Definition with_usernames (m : gmap string AccountId) (r : AccountRegistry) : AccountRegistry :=
  {| reg_hasher := reg_hasher r; reg_by_id := reg_by_id r; reg_by_fix_username := m;
     reg_login_timing_dummy := reg_login_timing_dummy r |}.
Definition with_dummy (d : option (option string)) (r : AccountRegistry) : AccountRegistry :=
  {| reg_hasher := reg_hasher r; reg_by_id := reg_by_id r;
     reg_by_fix_username := reg_by_fix_username r; reg_login_timing_dummy := d |}.

Definition with_epoch (epoch : Z) (a : Account) : Account :=
  {| acc_id := acc_id a; acc_owner := acc_owner a; acc_permissions := acc_permissions a;
     acc_credentials := acc_credentials a; acc_revocation_epoch := epoch |}.
Definition with_password_hash (h : string) (a : Account) : Account :=
  {| acc_id := acc_id a; acc_owner := acc_owner a; acc_permissions := acc_permissions a;
     acc_credentials :=
       {| cr_fix_username := cr_fix_username (acc_credentials a); cr_password_hash := Some h;
          cr_fix_comp_ids := cr_fix_comp_ids (acc_credentials a) |};
     acc_revocation_epoch := acc_revocation_epoch a |}.

Definition insert_account (a : Account) (r : AccountRegistry) :
    AccountRegistry * result AuthError unit :=
  if is_market_maker_account (acc_id a) then
    (r, Err (Provisioning "reserved market-maker account id"))
  else if acc_owner a =? MARKET_MAKER_OWNER then
    (r, Err (Provisioning "reserved market-maker owner hash"))
  else if bool_decide (is_Some (reg_by_id r !! acc_id a)) then
    (r, Err (Provisioning "duplicate account id"))
  else
    match cr_fix_username (acc_credentials a) with
    | Some username =>
        if bool_decide (is_Some (reg_by_fix_username r !! username)) then
          (r, Err (Provisioning "duplicate FIX username"))
        else
          let r := with_usernames (<[username := acc_id a]> (reg_by_fix_username r)) r in
          (with_by_id (<[acc_id a := a]> (reg_by_id r)) r, Ok tt)
    | None => (with_by_id (<[acc_id a := a]> (reg_by_id r)) r, Ok tt)
    end.

Class RevocationOracle (R : Type) := current_revocation_epoch : R → AccountId → option Z.
#[export] Instance AccountRegistry_oracle : RevocationOracle AccountRegistry :=
  λ r account, acc_revocation_epoch <$> reg_by_id r !! account.

Definition account (r : AccountRegistry) (id : AccountId) : option Account := reg_by_id r !! id.

Definition account_by_fix_username (r : AccountRegistry) (username : string) : option Account :=
  id ← reg_by_fix_username r !! username; account r id.

Definition revoke (id : AccountId) (r : AccountRegistry) : AccountRegistry * option Z :=
  match reg_by_id r !! id with
  | None => (r, None)
  | Some entry =>
      let next := default (int_max u64) (checked_add u64 (acc_revocation_epoch entry) 1) in
      (with_by_id (<[id := with_epoch next entry]> (reg_by_id r)) r, Some next)
  end.

(** ** WebSocket tickets *)

Record WsTicketEntry := { te_claims : Claims; te_expires_at_secs : Z }.
Record WsTicketStore := { ts_tickets : gmap string WsTicketEntry; ts_max_tickets : Z }.

Definition WsTicketStore_new (max_tickets : Z) : WsTicketStore :=
  {| ts_tickets := ∅; ts_max_tickets := Z.max max_tickets 1 |}.
Definition with_tickets (m : gmap string WsTicketEntry) (s : WsTicketStore) : WsTicketStore :=
  {| ts_tickets := m; ts_max_tickets := ts_max_tickets s |}.

Definition sweep_tickets (now_secs : Z) (s : WsTicketStore) : WsTicketStore :=
  with_tickets (filter (λ e, now_secs < te_expires_at_secs e.2) (ts_tickets s)) s.

(** [random] is what the operating system's generator fills the 32 bytes with. *)
Definition mint_opaque_ticket (random : option (list Z)) : result VenueError string :=
  match random with Some data => Ok (hex_encode_lower data) | None => Err VOverflow end.

Definition mint_ticket (claims : Claims) (now_secs : Z) (random : option (list Z))
    (s : WsTicketStore) : WsTicketStore * result VenueError string :=
  match checked_add u64 now_secs WS_TICKET_TTL_SECS with
  | None => (s, Err VOverflow)
  | Some expires_at_secs =>
      match mint_opaque_ticket random with
      | Err e => (s, Err e)
      | Ok ticket =>
          let s := sweep_tickets now_secs s in
          if ts_max_tickets s <=? Z.of_nat (size (ts_tickets s)) then (s, Err RateLimited)
          else
            (with_tickets
               (<[ticket := {| te_claims := claims; te_expires_at_secs := expires_at_secs |}]>
                  (ts_tickets s)) s, Ok ticket)
      end
  end.

Definition redeem (ticket : string) (now_secs : Z) (s : WsTicketStore) :
    WsTicketStore * option Claims :=
  match ts_tickets s !! ticket with
  | None => (s, None)
  | Some entry =>
      (with_tickets (delete ticket (ts_tickets s)) s,
       if now_secs <? te_expires_at_secs entry then Some (te_claims entry) else None)
  end.

(** ** Admission *)

Record Authorized := { au_claims : Claims }.

Inductive Admission :=
  | Exempt
  | AdmissionGranted (identity : Authorized) (rate_limit : RateLimitDecision)
  | AdmissionRejected (error : VenueError) (rate_limit : option RateLimitDecision).

(** [AuthService] without the revocation oracle, which it shares. *)
Record AuthService := {
  as_jwt : JwtAuth; as_rate_limiter : RateLimiter; as_ws_tickets : WsTicketStore }.

Definition AuthService_new (jwt : JwtAuth) (rate_limiter : RateLimiter) : AuthService :=
  {| as_jwt := jwt; as_rate_limiter := rate_limiter;
     as_ws_tickets := WsTicketStore_new MAX_WS_TICKETS |}.
Definition with_limiter (rl : RateLimiter) (a : AuthService) : AuthService :=
  {| as_jwt := as_jwt a; as_rate_limiter := rl; as_ws_tickets := as_ws_tickets a |}.
Definition with_ws_tickets (s : WsTicketStore) (a : AuthService) : AuthService :=
  {| as_jwt := as_jwt a; as_rate_limiter := as_rate_limiter a; as_ws_tickets := s |}.

Definition is_exempt (path : string) : bool := existsb (String.eqb path) EXEMPT_PATHS.

Definition account_key (c : Claims) : RateLimitKey :=
  KeyAccount (cl_sub c) (cl_revocation_epoch c) (from_permissions (cl_permissions c)).

(** The instants an operation reads: the rate limiter's clock, twice, and the time of
    day in seconds. *)
Record Clocks := { ck_now : Z; ck_sweep : Z; ck_secs : Z }.

Section auth.
Context `{!CredentialLib}.

Definition verify_token (now_secs : Z) (token : string) : result VenueError Claims :=
  ok_or Unauthorized (jwt_decode now_secs token).

Definition mint_token (gate : BootstrapGate) (presented_secret : string) (claims : Claims) :
    result AuthError string :=
  _ ← authorize gate presented_secret; ok_or Signing (jwt_encode claims).

Definition hash_password (h : Argon2Hasher) (salt : Z) (plaintext : string) :
    result AuthError string :=
  ok_or PasswordHashFailed (argon_hash h salt plaintext).

Definition needs_rehash (h : Argon2Hasher) (stored : string) : bool :=
  match argon_params stored with
  | Some (m_cost, t_cost, p_cost) =>
      (m_cost <? ah_m_cost h) || (t_cost <? ah_t_cost h) || (p_cost <? ah_p_cost h)
  | None => true
  end.

Definition verify_password (h : Argon2Hasher) (salt : Z) (plaintext stored_phc : string) :
    result AuthError PasswordVerification :=
  if negb (argon_parse stored_phc) then Err PasswordHashFailed
  else
    match argon_verify h plaintext stored_phc with
    | Some true =>
        if needs_rehash h stored_phc then VerifiedRehash <$> hash_password h salt plaintext
        else Ok Verified
    | Some false => Ok RejectedPassword
    | None => Err PasswordHashFailed
    end.

Definition provision_account (salt : Z) (p : AccountProvision) (r : AccountRegistry) :
    AccountRegistry * result AuthError unit :=
  match
    match ap_fix_password p with
    | Some plaintext => Some <$> hash_password (reg_hasher r) salt plaintext
    | None => Ok None
    end
  with
  | Err e => (r, Err e)
  | Ok password_hash =>
      insert_account
        {| acc_id := ap_id p; acc_owner := ap_owner p; acc_permissions := ap_permissions p;
           acc_credentials :=
             {| cr_fix_username := ap_fix_username p; cr_password_hash := password_hash;
                cr_fix_comp_ids := ap_fix_comp_ids p |};
           acc_revocation_epoch := 0 |} r
  end.

Definition mint_for_account (r : AccountRegistry) (gate : BootstrapGate) (id : AccountId)
    (presented_secret : string) (issued_at_secs ttl_secs : Z) : result AuthError string :=
  _ ← authorize gate presented_secret;
  resolved ← ok_or UnknownAccount (account r id);
  if 0 <? acc_revocation_epoch resolved then Err AccountRevoked
  else
    exp ← ok_or TokenLifetime (checked_add u64 issued_at_secs ttl_secs);
    mint_token gate presented_secret
      {| cl_sub := acc_id resolved; cl_permissions := acc_permissions resolved;
         cl_iat := issued_at_secs; cl_exp := exp;
         cl_revocation_epoch := acc_revocation_epoch resolved |}.

(** The hash work of a rejected login; only the cached dummy changes. *)
Definition run_login_timing_dummy (salt : Z) (r : AccountRegistry) : AccountRegistry :=
  match reg_login_timing_dummy r with
  | Some _ => r
  | None =>
      with_dummy (Some (argon_hash (reg_hasher r) salt FIX_LOGIN_TIMING_DUMMY)) r
  end.

Definition verify_fix_password (salt : Z) (fix_username password : string)
    (r : AccountRegistry) : AccountRegistry * FixLoginOutcome :=
  match reg_by_fix_username r !! fix_username with
  | None => (run_login_timing_dummy salt r, LoginRejected)
  | Some account_id =>
      match reg_by_id r !! account_id with
      | None => (run_login_timing_dummy salt r, LoginRejected)
      | Some entry =>
          match cr_password_hash (acc_credentials entry) with
          | None => (run_login_timing_dummy salt r, LoginRejected)
          | Some stored_hash =>
              match verify_password (reg_hasher r) salt password stored_hash with
              | Ok Verified => (r, Authenticated account_id (acc_permissions entry))
              | Ok (VerifiedRehash fresh) =>
                  (with_by_id
                     (alter (with_password_hash fresh) account_id (reg_by_id r)) r,
                   Authenticated account_id (acc_permissions entry))
              | Ok RejectedPassword | Err _ => (r, LoginRejected)
              end
          end
      end
  end.

Section admission.
Context {R : Type} `{!RevocationOracle R}.

(** [Some(current) if claims.revocation_epoch >= current]. *)
Definition epoch_current (oracle : R) (claims : Claims) : bool :=
  match current_revocation_epoch oracle (cl_sub claims) with
  | Some current => current <=? cl_revocation_epoch claims
  | None => false
  end.

Definition check_limit (key : RateLimitKey) (ck : Clocks) (a : AuthService) :
    AuthService * RateLimitDecision :=
  let '(rl, decision) :=
    check_and_record_status key (ck_now ck) (ck_sweep ck) (as_rate_limiter a) in
  (with_limiter rl a, decision).

Definition admit_bearer (oracle : R) (path : string) (bearer : option string) (peer : IpAddr)
    (required : Permission) (ck : Clocks) (a : AuthService) : AuthService * Admission :=
  if is_exempt path then (a, Exempt)
  else
    let verified :=
      match bearer with
      | Some token =>
          match verify_token (ck_secs ck) token with Ok c => Some c | Err _ => None end
      | None => None
      end in
    let key := match verified with Some claims => account_key claims | None => KeyPeer peer end in
    let '(a, decision) := check_limit key ck a in
    if negb (rd_allowed decision) then (a, AdmissionRejected RateLimited (Some decision))
    else
      match verified with
      | None => (a, AdmissionRejected Unauthorized (Some decision))
      | Some claims =>
          if negb (epoch_current oracle claims)
          then (a, AdmissionRejected Unauthorized (Some decision))
          else if negb (claims_has_permission claims required)
          then (a, AdmissionRejected (Forbidden required) (Some decision))
          else (a, AdmissionGranted {| au_claims := claims |} decision)
      end.

Definition mint_ws_ticket (claims : Claims) (now_secs : Z) (random : option (list Z))
    (a : AuthService) : AuthService * result VenueError string :=
  let '(s, r) := mint_ticket claims now_secs random (as_ws_tickets a) in
  (with_ws_tickets s a, r).

Definition admit_ws_ticket (oracle : R) (ticket : string) (peer : IpAddr) (ck : Clocks)
    (a : AuthService) : AuthService * Admission :=
  let '(s, redeemed) := redeem ticket (ck_secs ck) (as_ws_tickets a) in
  let a := with_ws_tickets s a in
  match redeemed with
  | None =>
      let '(a, decision) := check_limit (KeyPeer peer) ck a in
      (a, AdmissionRejected Unauthorized (Some decision))
  | Some claims =>
      let '(a, decision) := check_limit (account_key claims) ck a in
      if negb (rd_allowed decision) then (a, AdmissionRejected RateLimited (Some decision))
      else if cl_exp claims <=? ck_secs ck
      then (a, AdmissionRejected Unauthorized (Some decision))
      else if negb (epoch_current oracle claims)
      then (a, AdmissionRejected Unauthorized (Some decision))
      else (a, AdmissionGranted {| au_claims := claims |} decision)
  end.

Definition revalidate_session (oracle : R) (claims : Claims) (now_secs : Z) :
    result VenueError unit :=
  if cl_exp claims <=? now_secs then Err Unauthorized
  else if epoch_current oracle claims then Ok tt else Err Unauthorized.
End admission.
End auth.

(** ** At the gateway ([gateway/rest/middleware.rs], [gateway/rest/meta.rs]) *)

Definition require (auth : Authorized) (required : Permission) : result VenueError unit :=
  if claims_has_permission (au_claims auth) required then Ok tt else Err (Forbidden required).

Definition map_mint_error (e : AuthError) : VenueError :=
  match e with
  | BootstrapDisabled | BootstrapMismatch => Unauthorized
  | UnknownAccount | AccountRevoked => VNotFound "account"
  | _ => VOverflow
  end.

Definition is_trimmed_ascii (c : Ascii.ascii) : bool :=
  let n := Ascii.nat_of_ascii c in ((n =? 32) || ((9 <=? n) && (n <=? 13)))%nat.

Fixpoint trim_start (l : list Ascii.ascii) : list Ascii.ascii :=
  match l with c :: l' => if is_trimmed_ascii c then trim_start l' else l | [] => [] end.

Definition trim (s : string) : string :=
  String.string_of_list_ascii
    (reverse (trim_start (reverse (trim_start (String.list_ascii_of_string s))))).

Definition strip_prefix (prefix s : string) : option string :=
  if String.prefix prefix s
  then Some (String.substring (String.length prefix) (String.length s - String.length prefix) s)
  else None.

(** [value] is the header as visible ASCII text, if it is. *)
Definition extract_bearer (value : option string) : option string :=
  value ← value;
  rest ← match strip_prefix "Bearer " value with
         | Some r => Some r
         | None => strip_prefix "bearer " value
         end;
  let token := trim rest in
  match token with EmptyString => None | _ => Some token end.
