(* ===== verification/AuthProps.v ===== *)
(** What admission guarantees: admitted identities are registered, unrevoked and hold the
    permission; a WebSocket ticket admits once and in time; a FIX login accepts exactly the
    provisioned passwords. *)

From S2P Require Export Auth RateLimit.

(** What is relied on of the two libraries: a token checks only as the claims it was signed
    for; a hash verifies exactly the password it was made from, whatever its cost parameters,
    under the same pepper. *)
Class CredentialLaws `{!CredentialLib} : Prop := {
  jwt_decode_encode c tok now c' :
    jwt_encode c = Some tok → jwt_decode now tok = Some c' → c' = c;
  argon_hash_total h salt p : is_Some (argon_hash h salt p);
  argon_hash_parse h salt p phc : argon_hash h salt p = Some phc → argon_parse phc = true;
  argon_hash_verify h h' salt p phc p' :
    ah_pepper h = ah_pepper h' → argon_hash h' salt p = Some phc →
    argon_verify h p' phc = Some (String.eqb p' p);
}.

(** ** Constant-time comparison *)

Lemma lor_xor_fold_zero acc l :
  0 ≤ acc → Forall (λ xy : Z * Z, 0 ≤ xy.1 ∧ 0 ≤ xy.2) l →
  foldl (λ diff xy, Z.lor diff (Z.lxor xy.1 xy.2)) acc l = 0 ↔
    acc = 0 ∧ Forall (λ xy, xy.1 = xy.2) l.
Proof.
  revert acc. induction l as [|[x y] l IH]; intros acc Hacc Hl; cbn.
  { split; [by intros ->|by intros []]. }
  apply Forall_cons in Hl as [[Hx Hy] Hl]. cbn in Hx, Hy.
  rewrite IH; [|apply Z.lor_nonneg; split; [done|by apply Z.lxor_nonneg]|done].
  rewrite Z.lor_eq_0_iff, Z.lxor_eq_0_iff, Forall_cons. cbn. tauto.
Qed.

Lemma zip_all_eq (a b : list Z) :
  length a = length b → Forall (λ xy, xy.1 = xy.2) (zip a b) ↔ a = b.
Proof.
  revert b. induction a as [|x a IH]; intros [|y b]; cbn; try done; intros [= Hl].
  rewrite Forall_cons, IH by done. cbn. split; [by intros [-> ->]|by intros [= -> ->]].
Qed.

Lemma as_bytes_nonneg s : Forall (λ b, 0 ≤ b) (as_bytes s).
Proof. apply Forall_fmap, Forall_forall. intros c _. cbn. lia. Qed.

Lemma as_bytes_inj a b : as_bytes a = as_bytes b → a = b.
Proof.
  intros E. rewrite <-(String.string_of_list_ascii_of_string a),
    <-(String.string_of_list_ascii_of_string b). f_equal.
  apply (list_fmap_eq_inj (λ c, Z.of_N (Ascii.N_of_ascii c))); [|done].
  intros c d H%N2Z.inj. rewrite <-(Ascii.ascii_N_embedding c), H. apply Ascii.ascii_N_embedding.
Qed.

Lemma constant_time_eq_spec a b :
  constant_time_eq (as_bytes a) (as_bytes b) = String.eqb a b.
Proof.
  unfold constant_time_eq.
  destruct (Nat.eqb_spec (length (as_bytes a)) (length (as_bytes b))) as [Hl|Hl]; cbn [negb].
  - apply eq_true_iff_eq. rewrite Z.eqb_eq, String.eqb_eq, lor_xor_fold_zero; [|done|].
    + rewrite zip_all_eq by done. split; [intros [_ ?]; by apply as_bytes_inj|by intros ->].
    + apply Forall_forall. intros [x y] Hxy.
      pose proof (elem_of_zip_l _ _ _ _ Hxy). pose proof (elem_of_zip_r _ _ _ _ Hxy).
      pose proof (as_bytes_nonneg a) as Ha. pose proof (as_bytes_nonneg b) as Hb.
      rewrite Forall_forall in Ha, Hb. cbn. auto.
  - symmetry. apply String.eqb_neq. by intros ->.
Qed.

Section props.
Context `{!CredentialLib, !CredentialLaws}.

(** ** The system of the credential plane *)

Record AuthSystem := {
  sy_registry : AccountRegistry;
  sy_service : AuthService;
  sy_gate : BootstrapGate;
  (** The tokens handed out, and the claims of the admitted identities. *)
  sy_issued : list string;
  sy_sessions : list Claims;
}.

Definition admitted_claims (r : Admission) : list Claims :=
  match r with AdmissionGranted identity _ => [au_claims identity] | _ => [] end.

(** A bearer is a token the venue issued, or does not verify: signatures are not forged. *)
Definition unforged (s : AuthSystem) (bearer : option string) : Prop :=
  ∀ tok now c, bearer = Some tok → jwt_decode now tok = Some c → tok ∈ sy_issued s.

Definition sy_admit (s : AuthSystem) := admit_bearer (sy_registry s).
Definition sy_admit_ws (s : AuthSystem) := admit_ws_ticket (sy_registry s).

Inductive auth_step : AuthSystem → AuthSystem → Prop :=
  | step_provision s salt p :
      auth_step s
        {| sy_registry := (provision_account salt p (sy_registry s)).1;
           sy_service := sy_service s; sy_gate := sy_gate s; sy_issued := sy_issued s;
           sy_sessions := sy_sessions s |}
  | step_issue s id secret now ttl tok :
      mint_for_account (sy_registry s) (sy_gate s) id secret now ttl = Ok tok →
      auth_step s
        {| sy_registry := sy_registry s; sy_service := sy_service s; sy_gate := sy_gate s;
           sy_issued := tok :: sy_issued s; sy_sessions := sy_sessions s |}
  | step_request s path bearer peer required ck a r :
      unforged s bearer → sy_admit s path bearer peer required ck (sy_service s) = (a, r) →
      auth_step s
        {| sy_registry := sy_registry s; sy_service := a; sy_gate := sy_gate s;
           sy_issued := sy_issued s; sy_sessions := admitted_claims r ++ sy_sessions s |}
  | step_ticket s claims now random a r :
      claims ∈ sy_sessions s → mint_ws_ticket claims now random (sy_service s) = (a, r) →
      auth_step s
        {| sy_registry := sy_registry s; sy_service := a; sy_gate := sy_gate s;
           sy_issued := sy_issued s; sy_sessions := sy_sessions s |}
  | step_ws s ticket peer ck a r :
      sy_admit_ws s ticket peer ck (sy_service s) = (a, r) →
      auth_step s
        {| sy_registry := sy_registry s; sy_service := a; sy_gate := sy_gate s;
           sy_issued := sy_issued s; sy_sessions := admitted_claims r ++ sy_sessions s |}
  | step_login s salt username password :
      auth_step s
        {| sy_registry := (verify_fix_password salt username password (sy_registry s)).1;
           sy_service := sy_service s; sy_gate := sy_gate s; sy_issued := sy_issued s;
           sy_sessions := sy_sessions s |}
  | step_revoke s id :
      auth_step s
        {| sy_registry := (revoke id (sy_registry s)).1; sy_service := sy_service s;
           sy_gate := sy_gate s; sy_issued := sy_issued s; sy_sessions := sy_sessions s |}.

Definition auth_initial (hasher : Argon2Hasher) (gate : BootstrapGate) (jwt : JwtAuth)
    (rl : RateLimiter) : AuthSystem :=
  {| sy_registry := AccountRegistry_new hasher; sy_service := AuthService_new jwt rl;
     sy_gate := gate; sy_issued := []; sy_sessions := [] |}.

(** ** The registry *)

(** [r'] comes later than [r]: accounts stay, with their permissions, and epochs only grow. *)
Definition registry_le (r r' : AccountRegistry) : Prop :=
  ∀ id e, reg_by_id r !! id = Some e → ∃ e', reg_by_id r' !! id = Some e' ∧
    acc_permissions e' = acc_permissions e ∧ acc_revocation_epoch e ≤ acc_revocation_epoch e'.

#[local] Instance registry_le_preorder : PreOrder registry_le.
Proof.
  split; [intros r id e He; by exists e|].
  intros r1 r2 r3 H12 H23 id e He. destruct (H12 id e He) as (e2 & He2 & Hp & Hl).
  destruct (H23 id e2 He2) as (e3 & He3 & Hp3 & Hl3). exists e3. split_and!; [done|congruence|lia].
Qed.

Definition account_ok (id : AccountId) (e : Account) : Prop :=
  acc_id e = id ∧ is_market_maker_account id = false ∧ acc_owner e ≠ MARKET_MAKER_OWNER ∧
  0 ≤ acc_revocation_epoch e ≤ int_max u64.
Definition registry_ok (r : AccountRegistry) : Prop := map_Forall account_ok (reg_by_id r).

Lemma insert_account_ok a r :
  registry_ok r → 0 ≤ acc_revocation_epoch a ≤ int_max u64 →
  registry_ok (insert_account a r).1 ∧ registry_le r (insert_account a r).1.
Proof.
  intros Hr Ha. unfold insert_account.
  destruct (is_market_maker_account (acc_id a)) eqn:Hmm; [done|].
  destruct (Z.eqb_spec (acc_owner a) MARKET_MAKER_OWNER) as [|Ho]; [done|].
  case_bool_decide as Hd; [done|].
  apply eq_None_not_Some in Hd.
  assert (registry_ok (with_by_id (<[acc_id a := a]> (reg_by_id r)) r) ∧
          registry_le r (with_by_id (<[acc_id a := a]> (reg_by_id r)) r)) as [H1 H2].
  { split.
    - apply map_Forall_insert_2; [done|by apply Hr].
    - intros id e He. cbn. rewrite lookup_insert_ne by congruence. by exists e. }
  destruct (cr_fix_username (acc_credentials a)); [|done]. case_bool_decide; [done|]. split; done.
Qed.

Lemma provision_account_ok salt p r :
  registry_ok r → registry_ok (provision_account salt p r).1 ∧
  registry_le r (provision_account salt p r).1.
Proof.
  intros Hr. unfold provision_account. case_match; [|done]. apply insert_account_ok; [done|].
  cbn. lia.
Qed.

Lemma revoke_ok id r :
  registry_ok r → registry_ok (revoke id r).1 ∧ registry_le r (revoke id r).1.
Proof.
  intros Hr. unfold revoke. destruct (reg_by_id r !! id) as [e|] eqn:He; [|done]. cbn.
  destruct (map_Forall_lookup_1 _ _ _ _ Hr He) as (Hid & Hmm & Ho & Hep).
  set (next := default _ _).
  assert (acc_revocation_epoch e ≤ next ≤ int_max u64) as Hn.
  { unfold next, checked_add. destruct (narrow u64 _) as [n|] eqn:Hn.
    - apply narrow_Some in Hn as [-> [? ?]]. cbn in *. lia.
    - cbn in *. lia. }
  clearbody next. cbn in Hn, Hep. split.
  - apply map_Forall_insert_2; [|done]. split_and!; cbn; try done; lia.
  - intros id' e' He'. destruct (decide (id' = id)) as [->|Hne]; cbn.
    + rewrite lookup_insert_eq. simplify_eq. eexists. split_and!; [done|done|cbn; lia].
    + rewrite lookup_insert_ne by done. by exists e'.
Qed.

Lemma login_dummy_ok salt r :
  registry_ok r → registry_ok (run_login_timing_dummy salt r) ∧
  registry_le r (run_login_timing_dummy salt r).
Proof.
  intros Hr. unfold run_login_timing_dummy.
  case_match; (split; [done|intros id e He; by exists e]).
Qed.

Lemma login_ok salt u p r :
  registry_ok r → registry_ok (verify_fix_password salt u p r).1 ∧
  registry_le r (verify_fix_password salt u p r).1.
Proof.
  intros Hr. pose proof (login_dummy_ok salt r Hr). unfold verify_fix_password.
  assert (registry_ok r ∧ registry_le r r) as Hid by by split.
  destruct (reg_by_fix_username r !! u) as [id|]; [|done].
  destruct (reg_by_id r !! id) as [e|] eqn:He; [|done].
  destruct (cr_password_hash (acc_credentials e)); [|done].
  destruct (verify_password _ _ _ _) as [[|fresh|]|]; [done| |done|done]. clear Hid. cbn. split.
  - intros id' e' He'. cbn in He'. destruct (decide (id' = id)) as [->|Hne].
    + rewrite lookup_alter_eq, He in He'. simplify_eq/=. apply (Hr id e He).
    + rewrite lookup_alter_ne in He' by done. by apply Hr.
  - intros id' e' He'. cbn. destruct (decide (id' = id)) as [->|Hne].
    + rewrite lookup_alter_eq, He. simplify_eq. by eexists.
    + rewrite lookup_alter_ne by done. by exists e'.
Qed.

(** ** Admission *)

(** Claims as the venue hands them out. *)
Definition claims_ok (r : AccountRegistry) (c : Claims) : Prop :=
  ∃ e, reg_by_id r !! cl_sub c = Some e ∧ acc_permissions e = cl_permissions c ∧
    cl_revocation_epoch c = 0.

Lemma claims_ok_le r r' c : registry_le r r' → claims_ok r c → claims_ok r' c.
Proof.
  intros Hle (e & He & Hp & Hz). destruct (Hle _ _ He) as (e' & He' & Hp' & _).
  exists e'. split_and!; congruence.
Qed.

Record auth_inv (s : AuthSystem) : Prop := {
  ai_registry : registry_ok (sy_registry s);
  ai_issued : ∀ tok now c, tok ∈ sy_issued s → jwt_decode now tok = Some c →
    claims_ok (sy_registry s) c;
  ai_tickets : ∀ t e, ts_tickets (as_ws_tickets (sy_service s)) !! t = Some e →
    claims_ok (sy_registry s) (te_claims e);
  ai_sessions : ∀ c, c ∈ sy_sessions s → claims_ok (sy_registry s) c;
}.

Lemma mint_for_account_claims r gate id secret now ttl tok now' c :
  registry_ok r → mint_for_account r gate id secret now ttl = Ok tok →
  jwt_decode now' tok = Some c → claims_ok r c.
Proof.
  intros Hr Hm Hd. unfold mint_for_account in Hm.
  apply bind_Ok in Hm as (u1 & _ & Hm). apply bind_Ok in Hm as (e & He & Hm).
  apply ok_or_Ok in He. unfold account in He.
  destruct (map_Forall_lookup_1 _ _ _ _ Hr He) as (Hid & _ & _ & Hep).
  destruct (Z.ltb_spec 0 (acc_revocation_epoch e)); [done|].
  apply bind_Ok in Hm as (x & _ & Hm). unfold mint_token in Hm.
  apply bind_Ok in Hm as (u2 & _ & Hm). apply ok_or_Ok in Hm.
  rewrite (jwt_decode_encode _ _ _ _ Hm Hd). exists e. cbn.
  rewrite Hid. split_and!; [done|done|lia].
Qed.

(** Every way an admission by token can end in [AdmissionGranted]. *)
Lemma admit_admitted (s : AuthSystem) path bearer peer required ck a a' identity d :
  sy_admit s path bearer peer required ck a = (a', AdmissionGranted identity d) →
  ∃ tok, bearer = Some tok ∧ jwt_decode (ck_secs ck) tok = Some (au_claims identity) ∧
    epoch_current (sy_registry s) (au_claims identity) = true ∧
    claims_has_permission (au_claims identity) required = true ∧ rd_allowed d = true.
Proof.
  unfold sy_admit, admit_bearer. case_match; [done|].
  destruct bearer as [tok|].
  2: { destruct (check_limit _ _ _) as [a1 d1]. by destruct (rd_allowed d1). }
  unfold verify_token. destruct (jwt_decode (ck_secs ck) tok) as [c|] eqn:Hc; cbn [ok_or];
    destruct (check_limit _ _ _) as [a1 d1]; destruct (rd_allowed d1) eqn:Hd; cbn [negb]; try done.
  destruct (epoch_current _ _) eqn:He; cbn [negb]; [|done].
  destruct (claims_has_permission c required) eqn:Hp; cbn [negb]; [|done].
  intros [= <- <- <-]. by exists tok.
Qed.

Lemma admit_ws_admitted (s : AuthSystem) ticket peer ck a a' identity d :
  sy_admit_ws s ticket peer ck a = (a', AdmissionGranted identity d) →
  ∃ e, ts_tickets (as_ws_tickets a) !! ticket = Some e ∧ te_claims e = au_claims identity ∧
    ck_secs ck < te_expires_at_secs e ∧ ck_secs ck < cl_exp (au_claims identity) ∧
    epoch_current (sy_registry s) (au_claims identity) = true ∧ rd_allowed d = true.
Proof.
  unfold sy_admit_ws, admit_ws_ticket, redeem.
  destruct (ts_tickets (as_ws_tickets a) !! ticket) as [e|] eqn:He.
  2: { by destruct (check_limit _ _ _). }
  destruct (Z.ltb_spec (ck_secs ck) (te_expires_at_secs e)).
  2: { by destruct (check_limit _ _ _). }
  destruct (check_limit _ _ _) as [a1 d1]. destruct (rd_allowed d1) eqn:Hd; cbn [negb]; [|done].
  destruct (Z.leb_spec (cl_exp (te_claims e)) (ck_secs ck)); [done|].
  destruct (epoch_current _ _) eqn:Hep; cbn [negb]; [|done].
  intros [= <- <- <-]. by exists e.
Qed.

Lemma check_limit_tickets key ck a : as_ws_tickets (check_limit key ck a).1 = as_ws_tickets a.
Proof. unfold check_limit. by destruct (check_and_record_status _ _ _ _). Qed.

Lemma admit_tickets s path bearer peer required ck a :
  as_ws_tickets (sy_admit s path bearer peer required ck a).1 = as_ws_tickets a.
Proof.
  unfold sy_admit, admit_bearer. case_match; [done|]. set (key := match _ with Some _ => _ | None => _ end).
  pose proof (check_limit_tickets key ck a). destruct (check_limit key ck a) as [a1 d1]. cbn in *.
  by repeat case_match.
Qed.

Lemma admit_ws_tickets s ticket peer ck a t e :
  ts_tickets (as_ws_tickets (sy_admit_ws s ticket peer ck a).1) !! t = Some e →
  ts_tickets (as_ws_tickets a) !! t = Some e ∧ t ≠ ticket.
Proof.
  unfold sy_admit_ws, admit_ws_ticket.
  assert (∀ x, ts_tickets (redeem ticket (ck_secs ck) (as_ws_tickets a)).1 !! t = Some x →
    ts_tickets (as_ws_tickets a) !! t = Some x ∧ t ≠ ticket) as Hr.
  { intros x. unfold redeem. destruct (ts_tickets (as_ws_tickets a) !! ticket) eqn:He; cbn.
    - intros [? ?]%lookup_delete_Some. done.
    - intros Hx. split; [done|]. congruence. }
  destruct (redeem ticket (ck_secs ck) (as_ws_tickets a)) as [st [c|]]; cbn [fst] in Hr;
    [set (key := account_key c)|set (key := KeyPeer peer)];
    pose proof (check_limit_tickets key ck (with_ws_tickets st a)) as Ht;
    destruct (check_limit key ck (with_ws_tickets st a)) as [a1 d1]; cbn in Ht;
    intros Hl; apply Hr; revert Hl; [repeat case_match|]; cbn; by rewrite Ht.
Qed.

Lemma mint_ticket_tickets claims now random st t e :
  ts_tickets (mint_ticket claims now random st).1 !! t = Some e →
  ts_tickets st !! t = Some e ∨ te_claims e = claims.
Proof.
  unfold mint_ticket. case_match; [|by left]. case_match; [|by left].
  assert (∀ x, ts_tickets (sweep_tickets now st) !! t = Some x → ts_tickets st !! t = Some x) as Hs.
  { intros x. cbn. by intros [? _]%map_lookup_filter_Some. }
  case_match; [left; by apply Hs|]. cbn.
  intros [[<- <-]|[_ Hl]]%lookup_insert_Some; [by right|left; by apply Hs].
Qed.

Lemma auth_inv_registry s r' :
  auth_inv s → registry_ok r' ∧ registry_le (sy_registry s) r' →
  auth_inv {| sy_registry := r'; sy_service := sy_service s; sy_gate := sy_gate s;
              sy_issued := sy_issued s; sy_sessions := sy_sessions s |}.
Proof. intros [] [Hr Hle]. split; cbn; eauto using claims_ok_le. Qed.

Lemma auth_step_inv s s' :
  auth_inv s → auth_step s s' → auth_inv s' ∧ registry_le (sy_registry s) (sy_registry s').
Proof.
  intros I Hs. pose proof (ai_registry _ I) as Hr.
  destruct Hs as [s salt p|s id secret now ttl tok Hm|s path bearer peer req ck a r Hu Ha
    |s claims now random a r Hc Ha|s ticket peer ck a r Ha|s salt u p|s id].
  - split; [apply auth_inv_registry; [done|]|]; by apply provision_account_ok.
  - split; [|done]. destruct I as [I1 I2 I3 I4]. split; cbn; try done.
    intros tok' now' c [->|Hin]%elem_of_cons Hd; [|by eapply I2].
    by eapply mint_for_account_claims.
  - split; [|done]. pose proof (admit_tickets s path bearer peer req ck (sy_service s)) as Ht.
    rewrite Ha in Ht. cbn in Ht. destruct I as [I1 I2 I3 I4]. split; cbn; try done.
    + rewrite Ht. intros t e He. by apply (I3 t e).
    + intros c [Hc|Hc]%elem_of_app; [|by apply I4]. destruct r as [|identity d|]; cbn in Hc;
        [by apply not_elem_of_nil in Hc| |by apply not_elem_of_nil in Hc].
      apply list_elem_of_singleton in Hc as ->.
      apply admit_admitted in Ha as (tok & Hb & Hd & _). by eapply I2; [eapply Hu|].
  - split; [|done]. destruct I as [I1 I2 I3 I4]. unfold mint_ws_ticket in Ha.
    pose proof (mint_ticket_tickets claims now random (as_ws_tickets (sy_service s))) as Ht.
    destruct (mint_ticket _ _ _ _) as [st r']. simplify_eq/=. split; cbn; try done.
    intros t e He. apply Ht in He as [He| ->]; [by eapply I3|by apply I4].
  - split; [|done]. destruct I as [I1 I2 I3 I4]. split; cbn; try done.
    + intros t e He. pose proof (admit_ws_tickets s ticket peer ck (sy_service s) t e) as Ht.
      rewrite Ha in Ht. by eapply I3, Ht.
    + intros c [Hc|Hc]%elem_of_app; [|by apply I4]. destruct r as [|identity d|]; cbn in Hc;
        [by apply not_elem_of_nil in Hc| |by apply not_elem_of_nil in Hc].
      apply list_elem_of_singleton in Hc as ->.
      apply admit_ws_admitted in Ha as (e & He & <- & _). by eapply I3.
  - split; [apply auth_inv_registry; [done|]|]; by apply login_ok.
  - split; [apply auth_inv_registry; [done|]|]; by apply revoke_ok.
Qed.

Lemma auth_reach_inv s s' :
  auth_inv s → rtc auth_step s s' → auth_inv s' ∧ registry_le (sy_registry s) (sy_registry s').
Proof.
  intros I Hr. induction Hr as [s|s1 s2 s3 Hs _ IH]; [done|].
  destruct (auth_step_inv _ _ I Hs) as [I2 Hle]. destruct (IH I2) as [I3 Hle3].
  split; [done|by etrans].
Qed.

Lemma auth_initial_inv hasher gate jwt rl : auth_inv (auth_initial hasher gate jwt rl).
Proof.
  split; cbn.
  - apply map_Forall_empty.
  - by intros tok now c ?%not_elem_of_nil.
  - intros t e. by rewrite lookup_empty.
  - by intros c ?%not_elem_of_nil.
Qed.

(** A registered account that was never revoked, under the permissions it was given, and
    not the market maker's. *)
Definition authentic (r : AccountRegistry) (c : Claims) : Prop :=
  ∃ e, reg_by_id r !! cl_sub c = Some e ∧ acc_revocation_epoch e = 0 ∧
    acc_permissions e = cl_permissions c ∧ is_market_maker_account (cl_sub c) = false ∧
    acc_owner e ≠ MARKET_MAKER_OWNER.

Lemma epoch_current_authentic r c :
  registry_ok r → claims_ok r c → epoch_current r c = true → authentic r c.
Proof.
  intros Hr (e & He & Hp & Hz) Hc. unfold epoch_current, current_revocation_epoch in Hc.
  cbn in Hc. unfold AccountRegistry_oracle in Hc. rewrite He in Hc. cbn in Hc.
  destruct (map_Forall_lookup_1 _ _ _ _ Hr He) as (_ & Hmm & Ho & Hep).
  exists e. split_and!; try done. lia.
Qed.

(** C24. Only authentic identities are admitted, on every path.  Whatever was provisioned,
    issued, requested, redeemed, logged in or revoked before, and as long as signatures are
    not forged: an identity admitted by a bearer token, by a WebSocket ticket or on the
    revalidation of a live socket is a registered account, never the market maker's, with
    exactly the permissions it was provisioned with and the required one among them, that
    has never been revoked; so once an account is revoked none of its tokens, tickets or
    sessions is admitted again, and no new token is issued for it. *)
Theorem admitted_identity_authentic hasher gate jwt rl s :
  rtc auth_step (auth_initial hasher gate jwt rl) s →
  (∀ path bearer peer required ck a identity d,
     unforged s bearer →
     sy_admit s path bearer peer required ck (sy_service s) = (a, AdmissionGranted identity d) →
     authentic (sy_registry s) (au_claims identity) ∧
     claims_has_permission (au_claims identity) required = true ∧ rd_allowed d = true) ∧
  (∀ ticket peer ck a identity d,
     sy_admit_ws s ticket peer ck (sy_service s) = (a, AdmissionGranted identity d) →
     authentic (sy_registry s) (au_claims identity) ∧
     ck_secs ck < cl_exp (au_claims identity) ∧ rd_allowed d = true) ∧
  (∀ c now, c ∈ sy_sessions s → revalidate_session (sy_registry s) c now = Ok tt →
     authentic (sy_registry s) c ∧ now < cl_exp c) ∧
  (∀ id e, reg_by_id (sy_registry s) !! id = Some e → 0 < acc_revocation_epoch e →
     ∀ s', rtc auth_step s s' →
       (∀ c, authentic (sy_registry s') c → cl_sub c ≠ id) ∧
       ∀ secret now ttl tok,
         mint_for_account (sy_registry s') (sy_gate s') id secret now ttl ≠ Ok tok).
Proof.
  intros Hr. destruct (auth_reach_inv _ _ (auth_initial_inv _ _ _ _) Hr) as [I _].
  pose proof (ai_registry _ I) as Hreg. split_and!.
  - intros path bearer peer required ck a identity d Hu Ha.
    apply admit_admitted in Ha as (tok & -> & Hd & He & Hp & Hal). split_and!; [|done..].
    apply epoch_current_authentic; [done| |done]. eapply (ai_issued _ I); [by eapply Hu|done].
  - intros ticket peer ck a identity d Ha.
    apply admit_ws_admitted in Ha as (e & Ht & Hc & _ & Hx & He & Hal). split_and!; [|done..].
    apply epoch_current_authentic; [done| |done]. rewrite <-Hc. by eapply (ai_tickets _ I).
  - intros c now Hc Hv. unfold revalidate_session in Hv.
    destruct (Z.leb_spec (cl_exp c) now); [done|]. split; [|done].
    destruct (epoch_current (sy_registry s) c) eqn:He; [|done].
    apply epoch_current_authentic; [done| |done]. by apply (ai_sessions _ I).
  - intros id e He Hpos s' Hr'. destruct (auth_reach_inv _ _ I Hr') as [I' Hle].
    destruct (Hle _ _ He) as (e' & He' & _ & Hep). split.
    + intros c (e2 & He2 & Hz & _) <-. simplify_eq. lia.
    + intros secret now ttl tok Hm. unfold mint_for_account in Hm.
      apply bind_Ok in Hm as (u1 & _ & Hm). apply bind_Ok in Hm as (e2 & He2 & Hm).
      apply ok_or_Ok in He2. unfold account in He2. rewrite He' in He2. injection He2 as <-.
      destruct (Z.ltb_spec 0 (acc_revocation_epoch e')); [done|lia].
Qed.

(** ** Tickets *)

Inductive TicketEvent :=
  | Minting (claims : Claims) (now : Z) (random : option (list Z)) (r : result VenueError string)
  | Redemption (ticket : string) (now : Z) (r : option Claims).

Inductive TicketOp :=
  | OpMint (claims : Claims) (now : Z) (random : option (list Z))
  | OpRedeem (ticket : string) (now : Z).

Definition ticket_op_now (op : TicketOp) : Z :=
  match op with OpMint _ now _ => now | OpRedeem _ now => now end.

Definition ticket_step (s : WsTicketStore * list TicketEvent) (op : TicketOp) :
    WsTicketStore * list TicketEvent :=
  match op with
  | OpMint c now random =>
      let '(st, r) := mint_ticket c now random s.1 in (st, s.2 ++ [Minting c now random r])
  | OpRedeem t now => let '(st, r) := redeem t now s.1 in (st, s.2 ++ [Redemption t now r])
  end.

(** The claims a ticket stands for, and until when, by the history alone: the last
    successful mint of it, unless it was presented since. *)
Fixpoint outstanding (t : string) (h : list TicketEvent) : option (Claims * Z) :=
  match h with
  | [] => None
  | Redemption t' _ _ :: h => if String.eqb t' t then None else outstanding t h
  | Minting c now _ (Ok t') :: h =>
      if String.eqb t' t then Some (c, now + WS_TICKET_TTL_SECS) else outstanding t h
  | Minting _ _ _ (Err _) :: h => outstanding t h
  end.

(** The store holds what is outstanding and not expired by the last reading [now]. *)
Record ticket_inv (s : WsTicketStore) (h : list TicketEvent) (now max : Z) : Prop := {
  ti_max : ts_max_tickets s = max;
  ti_size : Z.of_nat (size (ts_tickets s)) ≤ max;
  ti_sound : ∀ t e, ts_tickets s !! t = Some e →
    outstanding t (rev h) = Some (te_claims e, te_expires_at_secs e);
  ti_complete : ∀ t c x, outstanding t (rev h) = Some (c, x) → now < x →
    ts_tickets s !! t = Some {| te_claims := c; te_expires_at_secs := x |};
}.

Lemma ticket_sweep_inv s h now now' max :
  ticket_inv s h now max → now ≤ now' → ticket_inv (sweep_tickets now' s) h now' max.
Proof.
  intros [I1 I2 I3 I4] Hn. split; cbn; [done| | |].
  - etrans; [|exact I2]. apply inj_le. rewrite <-!size_dom. apply subseteq_size, dom_filter_subseteq.
  - intros t e [He _]%map_lookup_filter_Some. by apply I3.
  - intros t c x Ho Hx. apply map_lookup_filter_Some. split; [|done]. apply I4; [done|lia].
Qed.

Lemma ticket_step_inv s h op now max :
  ticket_inv s h now max → now ≤ ticket_op_now op → 1 ≤ max →
  let s' := ticket_step (s, h) op in ticket_inv s'.1 s'.2 (ticket_op_now op) max.
Proof.
  intros I Hn Hmax. destruct op as [c t0 random|t t0]; cbn [ticket_step ticket_op_now fst snd] in *.
  - unfold mint_ticket. destruct (checked_add u64 t0 WS_TICKET_TTL_SECS) as [x|] eqn:Hx.
    2: { destruct I as [I1 I2 I3 I4]. split; cbn; rewrite ?rev_unit; cbn; eauto.
         intros t c' x' Ho Hlt. apply I4; [done|lia]. }
    apply narrow_Some in Hx as [-> _].
    destruct (mint_opaque_ticket random) as [tk|e].
    2: { destruct I as [I1 I2 I3 I4]. split; cbn; rewrite ?rev_unit; cbn; eauto.
         intros t c' x' Ho Hlt. apply I4; [done|lia]. }
    pose proof (ticket_sweep_inv _ _ _ _ _ I Hn) as [I1 I2 I3 I4].
    destruct (Z.leb_spec (ts_max_tickets (sweep_tickets t0 s))
      (Z.of_nat (size (ts_tickets (sweep_tickets t0 s))))) as [Hf|Hf]; cbn [fst snd].
    { split; rewrite ?rev_unit; cbn [outstanding]; done. }
    rewrite I1 in Hf. split; rewrite ?rev_unit; cbn [outstanding ts_tickets with_tickets]; [done|..].
    + rewrite map_size_insert. unfold id. case_match; lia.
    + intros t e. destruct (String.eqb_spec tk t) as [<-|Hne].
      * rewrite lookup_insert_eq. by intros [= <-].
      * rewrite lookup_insert_ne by done. apply I3.
    + intros t c' x'. destruct (String.eqb_spec tk t) as [<-|Hne].
      * rewrite lookup_insert_eq. by intros [= <- <-].
      * rewrite lookup_insert_ne by done. apply I4.
  - destruct I as [I1 I2 I3 I4]. unfold redeem.
    destruct (ts_tickets s !! t) as [e|] eqn:He; cbn [fst snd];
      (split; rewrite ?rev_unit; cbn [outstanding ts_tickets with_tickets ts_max_tickets]; [done|..]).
    + rewrite map_size_delete, He. cbn. lia.
    + intros t' e'. destruct (String.eqb_spec t t') as [<-|Hne].
      * by rewrite lookup_delete_eq.
      * rewrite lookup_delete_ne by done. apply I3.
    + intros t' c x. destruct (String.eqb_spec t t') as [<-|Hne]; [done|].
      rewrite lookup_delete_ne by done. intros. apply I4; [done|lia].
    + done.
    + intros t' e'. destruct (String.eqb_spec t t') as [<-|Hne]; [congruence|apply I3].
    + intros t' c x. destruct (String.eqb_spec t t') as [<-|Hne]; [done|].
      intros. apply I4; [done|lia].
Qed.

(** What a presentation of ticket [t] at [now] must yield after the history [h]. *)
Definition presented (h : list TicketEvent) (t : string) (now : Z) : option Claims :=
  match outstanding t (rev h) with
  | Some (c, x) => if now <? x then Some c else None
  | None => None
  end.

Lemma redeem_presented s h now max t now' :
  ticket_inv s h now max → now ≤ now' → (redeem t now' s).2 = presented h t now'.
Proof.
  intros [_ _ I3 I4] Hn. unfold redeem, presented.
  destruct (ts_tickets s !! t) as [e|] eqn:He; cbn.
  - by rewrite (I3 _ _ He).
  - destruct (outstanding t (rev h)) as [[c x]|] eqn:Ho; [|done].
    destruct (Z.ltb_spec now' x); [|done]. rewrite (I4 _ _ _ Ho) in He; [done|lia].
Qed.

Definition ticket_run (max_tickets : Z) (ops : list TicketOp) : WsTicketStore * list TicketEvent :=
  foldl ticket_step (WsTicketStore_new max_tickets, []) ops.

Definition presentations_ok (h : list TicketEvent) : Prop :=
  ∀ h1 t now r h2, h = h1 ++ Redemption t now r :: h2 → r = presented h1 t now.

Lemma ticket_run_inv s h now max ops :
  ticket_inv s h now max → presentations_ok h → 1 ≤ max →
  StronglySorted Z.le (now :: (ticket_op_now <$> ops)) →
  ∃ now', let r := foldl ticket_step (s, h) ops in
    ticket_inv r.1 r.2 now' max ∧ presentations_ok r.2.
Proof.
  intros I Hp Hmax Hs. revert s h now I Hp Hs.
  induction ops as [|op ops IH]; intros s h now I Hp Hs; [by exists now|].
  apply StronglySorted_inv in Hs as [Hs Hle]. apply Forall_cons in Hle as [Hle _].
  pose proof (ticket_step_inv _ _ op _ _ I Hle Hmax) as I'. cbn [foldl].
  assert (presentations_ok (ticket_step (s, h) op).2) as Hp'.
  { destruct op as [c t0 random|t t0]; cbn [ticket_step fst snd ticket_op_now] in *.
    - destruct (mint_ticket c t0 random s) as [st r']. cbn. intros h1 t now1 r h2 E.
      destruct h2 as [|ev h2 _] using rev_ind; [by apply app_inj_tail in E as [_ E]|].
      rewrite app_comm_cons, (assoc_L (++)) in E. apply app_inj_tail in E as [-> _]. by eapply Hp.
    - pose proof (redeem_presented _ _ _ _ t t0 I Hle) as Hr.
      destruct (redeem t t0 s) as [st r']. cbn in *. intros h1 t1 now1 r h2 E.
      destruct h2 as [|ev h2 _] using rev_ind.
      + by apply app_inj_tail in E as [-> [= -> -> ->]].
      + rewrite app_comm_cons, (assoc_L (++)) in E. apply app_inj_tail in E as [-> _]. by eapply Hp. }
  destruct (ticket_step (s, h) op) as [s1 h1]. by apply (IH s1 h1 (ticket_op_now op)).
Qed.

(** A WebSocket ticket admits once and in time.  Over any sequence of mints and
    presentations with a clock that does not go back: a presentation is honoured exactly
    when the ticket was minted, has not been presented since, and is within its thirty
    seconds, and it then yields the claims it was minted for; and the store never holds
    more than its ceiling. *)
Theorem ws_ticket_single_use max_tickets ops :
  StronglySorted Z.le (ticket_op_now <$> ops) →
  let s := ticket_run max_tickets ops in
  Z.of_nat (size (ts_tickets s.1)) ≤ Z.max max_tickets 1 ∧
  (∀ h1 t now r h2, s.2 = h1 ++ Redemption t now r :: h2 → r = presented h1 t now).
Proof.
  intros Hs. set (now := match ops with op :: _ => ticket_op_now op | [] => 0 end).
  destruct (ticket_run_inv (WsTicketStore_new max_tickets) [] now (Z.max max_tickets 1) ops)
    as (now' & I & Hp).
  - split; cbn; [done|rewrite map_size_empty; lia|intros t e; by rewrite lookup_empty|done].
  - intros h1 t n r h2 E. by destruct h1.
  - lia.
  - subst now. destruct ops as [|op ops]; [repeat constructor|]. constructor; [done|].
    apply StronglySorted_inv in Hs as [_ Hs]. by constructor.
  - split; [apply (ti_size _ _ _ _ I)|done].
Qed.

(** ** FIX logins *)

Inductive RegistryOp :=
  | OpProvision (salt : Z) (p : AccountProvision)
  (** The insertion of an account hashed earlier, under other cost parameters. *)
  | OpRestore (h : Argon2Hasher) (salt : Z) (p : AccountProvision)
  | OpLogin (salt : Z) (username password : string)
  | OpRevoke (id : AccountId).

Definition restore_account (h : Argon2Hasher) (salt : Z) (p : AccountProvision)
    (r : AccountRegistry) : AccountRegistry * result AuthError unit :=
  match ap_fix_password p ≫= argon_hash h salt with
  | password_hash =>
      insert_account
        {| acc_id := ap_id p; acc_owner := ap_owner p; acc_permissions := ap_permissions p;
           acc_credentials :=
             {| cr_fix_username := ap_fix_username p; cr_password_hash := password_hash;
                cr_fix_comp_ids := ap_fix_comp_ids p |};
           acc_revocation_epoch := 0 |} r
  end.

(** The registry, and the provisions it accepted. *)
Definition registry_step (s : AccountRegistry * list AccountProvision) (op : RegistryOp) :
    AccountRegistry * list AccountProvision :=
  match op with
  | OpProvision salt p =>
      match provision_account salt p s.1 with
      | (r, Ok _) => (r, p :: s.2)
      | (r, Err _) => (r, s.2)
      end
  | OpRestore h salt p =>
      match restore_account h salt p s.1 with
      | (r, Ok _) => (r, p :: s.2)
      | (r, Err _) => (r, s.2)
      end
  | OpLogin salt u p => ((verify_fix_password salt u p s.1).1, s.2)
  | OpRevoke id => ((revoke id s.1).1, s.2)
  end.

(** The stored hash is one of the provisioned password under the pepper. *)
Definition hash_for (pepper password hash : option string) : Prop :=
  match password, hash with
  | Some p, Some phc => ∃ h salt, ah_pepper h = pepper ∧ argon_hash h salt p = Some phc
  | None, None => True
  | _, _ => False
  end.

Record login_inv (r : AccountRegistry) (accepted : list AccountProvision) : Prop := {
  li_username : ∀ u id, reg_by_fix_username r !! u = Some id →
    ∃ p, p ∈ accepted ∧ ap_fix_username p = Some u ∧ ap_id p = id;
  li_accepted : ∀ p, p ∈ accepted →
    (∀ u, ap_fix_username p = Some u → reg_by_fix_username r !! u = Some (ap_id p)) ∧
    ∃ e, reg_by_id r !! ap_id p = Some e ∧ acc_permissions e = ap_permissions p ∧
      hash_for (ah_pepper (reg_hasher r)) (ap_fix_password p)
        (cr_password_hash (acc_credentials e));
  li_unique : ∀ p q, p ∈ accepted → q ∈ accepted → ap_id p = ap_id q → p = q;
}.

(** Replacing an account by one with the same permissions and a hash of the same password. *)
Lemma login_inv_replace r accepted id e e' m :
  login_inv r accepted → reg_by_id r !! id = Some e → acc_permissions e' = acc_permissions e →
  (∀ pw, hash_for (ah_pepper (reg_hasher r)) pw (cr_password_hash (acc_credentials e)) →
         hash_for (ah_pepper (reg_hasher r)) pw (cr_password_hash (acc_credentials e'))) →
  m = <[id := e']> (reg_by_id r) → login_inv (with_by_id m r) accepted.
Proof.
  intros [I1 I2 I3] He Hp Hh ->. split; cbn; [done| |done].
  intros p Hin. destruct (I2 p Hin) as [Hu (e0 & He0 & Hp0 & Hh0)]. split; [done|].
  destruct (decide (ap_id p = id)) as [Hid|Hid].
  - exists e'. rewrite Hid, lookup_insert_eq. rewrite Hid, He in He0. injection He0 as <-.
    split_and!; [done|congruence|by apply Hh].
  - exists e0. by rewrite lookup_insert_ne.
Qed.

Lemma restore_login_inv h salt p r accepted :
  login_inv r accepted → ah_pepper h = ah_pepper (reg_hasher r) →
  ∀ r' x, restore_account h salt p r = (r', x) →
  login_inv r' (match x with Ok _ => p :: accepted | Err _ => accepted end).
Proof.
  intros I Hpep r' x. unfold restore_account.
  assert (hash_for (ah_pepper (reg_hasher r)) (ap_fix_password p)
    (ap_fix_password p ≫= argon_hash h salt)) as Hph.
  { destruct (ap_fix_password p) as [pw|]; [|done]. cbn.
    destruct (argon_hash_total h salt pw) as [phc Hphc]. rewrite Hphc. cbn. by exists h, salt. }
  set (a := Build_Account _ _ _ _ _). unfold insert_account.
  destruct (is_market_maker_account (acc_id a)); [by intros [= <- <-]|].
  destruct (acc_owner a =? MARKET_MAKER_OWNER); [by intros [= <- <-]|].
  case_bool_decide as Hd; [by intros [= <- <-]|]. apply eq_None_not_Some in Hd. cbn in Hd.
  destruct I as [I1 I2 I3].
  assert (∀ q, q ∈ accepted → ap_id q ≠ ap_id p) as Hne.
  { intros q Hq E. destruct (I2 q Hq) as [_ (e & He & _)]. congruence. }
  assert (∀ rr, reg_by_id rr = <[ap_id p := a]> (reg_by_id r) →
    (∀ u id, reg_by_fix_username rr !! u = Some id →
       (ap_fix_username p = Some u ∧ ap_id p = id) ∨ reg_by_fix_username r !! u = Some id) →
    (∀ u id, reg_by_fix_username r !! u = Some id → reg_by_fix_username rr !! u = Some id) →
    (∀ u, ap_fix_username p = Some u → reg_by_fix_username rr !! u = Some (ap_id p)) →
    reg_hasher rr = reg_hasher r → login_inv rr (p :: accepted)) as Hins.
  { intros rr Hid Hu1 Hu2 Hu3 Hh. split; rewrite ?Hh.
    - intros u id [[? ?]|Hl]%Hu1; [exists p; split; [by left|done]|].
      destruct (I1 _ _ Hl) as (q & Hq & ?). exists q. split; [by right|done].
    - intros q [->|Hq]%elem_of_cons.
      + split; [done|]. exists a. by rewrite Hid, lookup_insert_eq.
      + destruct (I2 q Hq) as [Hqu (e & He & Hpe & Hhe)]. split; [eauto|]. exists e.
        rewrite Hid, lookup_insert_ne; [done|]. intros E. by apply (Hne q Hq).
    - intros q1 q2 [->|H1]%elem_of_cons [->|H2]%elem_of_cons E; [done| | |by apply I3].
      + by destruct (Hne q2 H2).
      + by destruct (Hne q1 H1). }
  cbn [acc_credentials cr_fix_username a]. destruct (ap_fix_username p) as [u|] eqn:Hu.
  - case_bool_decide as Hdu; intros [= <- <-]; [done|]. apply eq_None_not_Some in Hdu.
    apply Hins; cbn; [done|..].
    + intros u' id [[<- <-]|[_ Hl]]%lookup_insert_Some; [by left|by right].
    + intros u' id Hl. rewrite lookup_insert_ne; [done|congruence].
    + intros u' [= <-]. by rewrite lookup_insert_eq.
    + done.
  - intros [= <- <-]. apply Hins; cbn; try done. by right.
Qed.

(** Provisioning is the restoration of a hash made by the registry's own hasher. *)
Lemma provision_restore salt p r :
  provision_account salt p r = restore_account (reg_hasher r) salt p r.
Proof.
  unfold provision_account, restore_account, hash_password.
  destruct (ap_fix_password p) as [pw|]; [|done]. cbn.
  by destruct (argon_hash_total (reg_hasher r) salt pw) as [phc ->].
Qed.

Lemma verify_password_hash h salt pw h0 salt0 p0 phc :
  ah_pepper h = ah_pepper h0 → argon_hash h0 salt0 p0 = Some phc →
  (p0 = pw ∧ (verify_password h salt pw phc = Ok Verified ∨
     ∃ fresh, verify_password h salt pw phc = Ok (VerifiedRehash fresh) ∧
       argon_hash h salt pw = Some fresh)) ∨
  (p0 ≠ pw ∧ verify_password h salt pw phc = Ok RejectedPassword).
Proof.
  intros Hpep Hh. unfold verify_password, hash_password.
  rewrite (argon_hash_parse _ _ _ _ Hh), (argon_hash_verify _ _ _ _ _ pw Hpep Hh). cbn [negb].
  destruct (String.eqb_spec pw p0) as [<-|Hne]; [|by right]. left. split; [done|].
  destruct (needs_rehash h phc); [right|by left].
  destruct (argon_hash_total h salt pw) as [fresh Hf]. exists fresh. rewrite Hf. done.
Qed.

Lemma login_login_inv salt u pw r accepted :
  login_inv r accepted → login_inv (verify_fix_password salt u pw r).1 accepted.
Proof.
  intros I. assert (login_inv (run_login_timing_dummy salt r) accepted) as Id.
  { unfold run_login_timing_dummy. destruct I. by case_match. }
  unfold verify_fix_password.
  destruct (reg_by_fix_username r !! u) as [id|]; [|done].
  destruct (reg_by_id r !! id) as [e|] eqn:He; [|done].
  destruct (cr_password_hash (acc_credentials e)) as [phc|] eqn:Hphc; [|done].
  destruct (verify_password (reg_hasher r) salt pw phc) as [[|fresh|]|] eqn:Hv; [done| |done|done].
  cbn [fst]. apply (login_inv_replace r accepted id e (with_password_hash fresh e)); [done..| |].
  - intros pw0 Hh. unfold hash_for in *. rewrite Hphc in Hh. cbn. destruct pw0 as [p0|]; [|done].
    destruct Hh as (h0 & salt0 & Hpep & Hh).
    destruct (verify_password_hash (reg_hasher r) salt pw _ _ _ _ (eq_sym Hpep) Hh)
      as [[-> [E|(f & E & Hf)]]|[_ E]]; rewrite Hv in E; simplify_eq.
    by exists (reg_hasher r), salt.
  - apply map_eq. intros i. destruct (decide (i = id)) as [->|Hne].
    + by rewrite lookup_alter_eq, He, lookup_insert_eq.
    + by rewrite lookup_alter_ne, lookup_insert_ne.
Qed.

Lemma revoke_login_inv id r accepted :
  login_inv r accepted → login_inv (revoke id r).1 accepted.
Proof.
  intros I. unfold revoke. destruct (reg_by_id r !! id) as [e|] eqn:He; [|done]. cbn [fst].
  eapply login_inv_replace; [exact I|exact He| | |reflexivity]; done.
Qed.

Definition registry_run (hasher : Argon2Hasher) (ops : list RegistryOp) :
    AccountRegistry * list AccountProvision :=
  foldl registry_step (AccountRegistry_new hasher, []) ops.

(** Restored accounts were hashed under the registry's pepper. *)
Definition same_pepper (hasher : Argon2Hasher) (op : RegistryOp) : Prop :=
  match op with OpRestore h _ _ => ah_pepper h = ah_pepper hasher | _ => True end.

Lemma registry_step_hasher s op : reg_hasher (registry_step s op).1 = reg_hasher s.1.
Proof.
  assert (∀ a r, reg_hasher (insert_account a r).1 = reg_hasher r) as Hi.
  { intros a r. unfold insert_account. by repeat case_match. }
  destruct op as [salt p|h salt p|salt u p|id]; cbn [registry_step].
  - rewrite provision_restore. unfold restore_account.
    pose proof (Hi (Build_Account (ap_id p) (ap_owner p) (ap_permissions p)
      (Build_Credentials (ap_fix_username p)
         (ap_fix_password p ≫= argon_hash (reg_hasher s.1) salt) (ap_fix_comp_ids p)) 0) s.1) as Hreg.
    destruct (insert_account _ _) as [r [[]|e]]; exact Hreg.
  - unfold restore_account.
    pose proof (Hi (Build_Account (ap_id p) (ap_owner p) (ap_permissions p)
      (Build_Credentials (ap_fix_username p)
         (ap_fix_password p ≫= argon_hash h salt) (ap_fix_comp_ids p)) 0) s.1) as Hreg.
    destruct (insert_account _ _) as [r [[]|e]]; exact Hreg.
  - cbn. unfold verify_fix_password, run_login_timing_dummy. by repeat case_match.
  - cbn. unfold revoke. by case_match.
Qed.

Lemma registry_run_inv hasher ops :
  Forall (same_pepper hasher) ops →
  login_inv (registry_run hasher ops).1 (registry_run hasher ops).2 ∧
  reg_hasher (registry_run hasher ops).1 = hasher.
Proof.
  intros Hops. unfold registry_run.
  assert (reg_hasher (AccountRegistry_new hasher, @nil AccountProvision).1 = hasher) as Hh by done.
  assert (login_inv (AccountRegistry_new hasher, @nil AccountProvision).1
    (AccountRegistry_new hasher, @nil AccountProvision).2) as I.
  { split; cbn.
    - intros u id. by rewrite lookup_empty.
    - by intros p ?%not_elem_of_nil.
    - by intros p q ?%not_elem_of_nil. }
  revert Hh I. generalize (AccountRegistry_new hasher, @nil AccountProvision).
  induction Hops as [|op ops Hop Hops IH]; intros s Hh I; [done|]. cbn [foldl].
  apply IH; clear IH; [by rewrite registry_step_hasher|].
  destruct op as [salt p|h salt p|salt u p|id]; cbn [registry_step].
  - rewrite provision_restore.
    destruct (restore_account _ salt p s.1) as [r [[]|e]] eqn:E;
      by apply (restore_login_inv _ _ _ _ _ I eq_refl _ _ E).
  - cbn in Hop. rewrite <-Hh in Hop.
    destruct (restore_account _ salt p s.1) as [r [[]|e]] eqn:E;
      by apply (restore_login_inv _ _ _ _ _ I Hop _ _ E).
  - by apply login_login_inv.
  - by apply revoke_login_inv.
Qed.

(** A FIX login accepts exactly the provisioned passwords.  After any sequence of
    provisionings and restorations (refused ones included), logins (which may replace a stored hash by a
    stronger one) and revocations: a username and a password authenticate an account with
    given permissions exactly when the account was provisioned with that username, that
    password and those permissions. *)
Theorem fix_login_exact hasher ops salt u pw id permissions :
  Forall (same_pepper hasher) ops →
  let s := registry_run hasher ops in
  (verify_fix_password salt u pw s.1).2 = Authenticated id permissions ↔
  ∃ p, p ∈ s.2 ∧ ap_fix_username p = Some u ∧ ap_fix_password p = Some pw ∧ ap_id p = id ∧
    ap_permissions p = permissions.
Proof.
  intros Hops s. destruct (registry_run_inv hasher ops Hops) as [[I1 I2 I3] _]. fold s in I1, I2, I3.
  unfold verify_fix_password. destruct (reg_by_fix_username s.1 !! u) as [id0|] eqn:Hu.
  2: { split; [done|]. intros (p & Hp & Hpu & _). destruct (I2 p Hp) as [Hq _].
       rewrite (Hq _ Hpu) in Hu. done. }
  destruct (I1 _ _ Hu) as (p & Hp & Hpu & <-).
  destruct (I2 p Hp) as [_ (e & He & Hpe & Hh)]. rewrite He.
  assert (∀ q, q ∈ s.2 → ap_fix_username q = Some u → q = p) as Huniq.
  { intros q Hq Hqu. apply I3; [done..|]. destruct (I2 q Hq) as [Hq' _].
    rewrite (Hq' _ Hqu) in Hu. by simplify_eq. }
  assert ((∃ q, q ∈ s.2 ∧ ap_fix_username q = Some u ∧ ap_fix_password q = Some pw ∧
      ap_id q = id ∧ ap_permissions q = permissions) ↔
    (ap_fix_password p = Some pw ∧ ap_id p = id ∧ ap_permissions p = permissions)) as ->.
  { split; [|intros (? & ? & ?); by exists p].
    intros (q & Hq & Hqu & ? & ? & ?). by rewrite (Huniq q Hq Hqu) in *. }
  unfold hash_for in Hh. destruct (ap_fix_password p) as [p0|];
    destruct (cr_password_hash (acc_credentials e)) as [phc|]; try done; [|naive_solver].
  destruct Hh as (h0 & salt0 & Hpep & Hh).
  destruct (verify_password_hash (reg_hasher s.1) salt pw _ _ _ _ (eq_sym Hpep) Hh)
    as [[-> [E|(f & E & Hf)]]|[Hne E]]; rewrite E; cbn [snd]; rewrite ?Hpe; naive_solver.
Qed.
End props.
