(* ===== verification/AuthSample.v ===== *)
(** A concrete token and password library, and concrete runs of the credential plane: the
    witnesses of the admission theorems. *)

From Stdlib Require Import Ascii.
From S2P Require Export AuthProps.

(** ** Tokens that spell out their claims *)

Fixpoint positive_bits (p : positive) : string :=
  match p with
  | xH => EmptyString
  | xO p => String "0"%char (positive_bits p)
  | xI p => String "1"%char (positive_bits p)
  end.

Fixpoint bits_positive (s : string) : positive :=
  match s with
  | EmptyString => xH
  | String c s => if Ascii.eqb c "1"%char then xI (bits_positive s) else xO (bits_positive s)
  end.

Lemma bits_positive_bits p : bits_positive (positive_bits p) = p.
Proof. induction p as [p IH|p IH|]; cbn; by rewrite ?IH. Qed.

Definition permission_u8 (p : Permission) : Z :=
  match p with PermRead => 0 | PermTrade => 1 | PermAdmin => 2 end.
Definition u8_permission (z : Z) : Permission :=
  if z =? 0 then PermRead else if z =? 1 then PermTrade else PermAdmin.

Definition spell_claims (c : Claims) : string :=
  positive_bits (encode (cl_sub c, permission_u8 <$> cl_permissions c, cl_iat c, cl_exp c,
                         cl_revocation_epoch c)).

Definition read_claims (s : string) : option Claims :=
  (λ t : string * list Z * Z * Z * Z,
     let '(sub, permissions, iat, exp, epoch) := t in
     {| cl_sub := sub; cl_permissions := u8_permission <$> permissions; cl_iat := iat;
        cl_exp := exp; cl_revocation_epoch := epoch |}) <$> decode (bits_positive s).

Lemma read_spell c : read_claims (spell_claims c) = Some c.
Proof.
  unfold read_claims, spell_claims. rewrite bits_positive_bits, decode_encode. cbn.
  destruct c as [sub ps iat exp epoch]. cbn. do 2 f_equal.
  induction ps as [|[] ps IH]; cbn; by rewrite ?IH.
Qed.

(** Hashes that spell out the password behind a mark of their strength. *)
Definition sample_hash (h : Argon2Hasher) (salt : Z) (p : string) : option string :=
  Some (String (if ARGON2_M_COST_KIB <=? ah_m_cost h then "S"%char else "W"%char) p).

#[export] Instance SampleCredentialLib : CredentialLib := {
  jwt_encode c := Some (spell_claims c);
  jwt_decode now tok :=
    match read_claims tok with
    | Some c => if now <? cl_exp c then Some c else None
    | None => None
    end;
  argon_hash := sample_hash;
  argon_parse phc := match phc with String _ _ => true | EmptyString => false end;
  argon_params phc :=
    match phc with
    | String "S"%char _ => Some (ARGON2_M_COST_KIB, ARGON2_T_COST, ARGON2_P_COST)
    | String _ _ => Some (1024, 1, 1)
    | EmptyString => None
    end;
  argon_verify h p' phc :=
    match phc with String _ p => Some (String.eqb p' p) | EmptyString => None end;
}.

#[export] Instance SampleCredentialLaws : CredentialLaws.
Proof.
  split.
  - intros c tok now c' [= <-]. cbn. rewrite read_spell. case_match; [|done]. by intros [= <-].
  - intros h salt p. by eexists.
  - intros h salt p phc [= <-]. done.
  - intros h h' salt p phc p' _ [= <-]. done.
Qed.

(** ** A run: provision, issue, admission, ticket, revoke *)

Definition alice : AccountProvision :=
  {| ap_id := "alice"; ap_owner := 7; ap_permissions := [PermRead; PermTrade];
     ap_fix_username := Some "alice-fix"; ap_fix_password := Some "correct horse";
     ap_fix_comp_ids := None |}.

Definition at_secs (t : Z) : Clocks := {| ck_now := t * 1000; ck_sweep := t * 1000; ck_secs := t |}.

Definition auth0 : AuthSystem :=
  auth_initial (Argon2Hasher_new None) {| bg_secret := Some "hunter2" |}
    {| jwt_is_dev := false |} (with_budgets sample_budgets).

Definition auth1 : AuthSystem :=
  {| sy_registry := (provision_account 1 alice (sy_registry auth0)).1;
     sy_service := sy_service auth0; sy_gate := sy_gate auth0; sy_issued := []; sy_sessions := [] |}.

Definition alice_token : string :=
  match mint_for_account (sy_registry auth1) (sy_gate auth1) "alice" "hunter2" 100 3600 with
  | Ok tok => tok
  | Err _ => ""
  end.

Definition auth2 : AuthSystem :=
  {| sy_registry := sy_registry auth1; sy_service := sy_service auth1; sy_gate := sy_gate auth1;
     sy_issued := [alice_token]; sy_sessions := [] |}.

Definition alice_request :=
  sy_admit auth2 "/api/v1/orders" (Some alice_token) (V4 1) PermTrade (at_secs 200)
    (sy_service auth2).

Definition auth3 : AuthSystem :=
  {| sy_registry := sy_registry auth2; sy_service := alice_request.1; sy_gate := sy_gate auth2;
     sy_issued := [alice_token]; sy_sessions := admitted_claims alice_request.2 ++ sy_sessions auth2 |}.

Definition auth4 : AuthSystem :=
  {| sy_registry := (revoke "alice" (sy_registry auth3)).1; sy_service := sy_service auth3;
     sy_gate := sy_gate auth3; sy_issued := [alice_token]; sy_sessions := sy_sessions auth3 |}.

Lemma auth2_reached : rtc auth_step auth0 auth2.
Proof.
  eapply rtc_l; [apply (step_provision auth0 1 alice)|]. apply rtc_once.
  apply (step_issue auth1 "alice" "hunter2" 100 3600). reflexivity.
Qed.

Lemma alice_unforged : unforged auth2 (Some alice_token).
Proof. intros tok now c [= <-] _. by left. Qed.

Lemma auth4_reached : rtc auth_step auth2 auth4.
Proof.
  eapply rtc_l.
  - apply (step_request auth2 "/api/v1/orders" (Some alice_token) (V4 1) PermTrade (at_secs 200)
      alice_request.1 alice_request.2 alice_unforged (surjective_pairing _)).
  - apply rtc_once, (step_revoke auth3).
Qed.

(** The permission that is missing is named; the required one admits; after the revocation
    the same token is refused. *)
Lemma admitted_identity_authentic_witness :
  (∃ identity d, alice_request.2 = AdmissionGranted identity d ∧
     authentic (sy_registry auth2) (au_claims identity)) ∧
  (sy_admit auth2 "/admin" (Some alice_token) (V4 1) PermAdmin (at_secs 200)
     (sy_service auth2)).2 ≠ Exempt ∧
  (∀ c, authentic (sy_registry auth4) c → cl_sub c ≠ "alice").
Proof.
  destruct (admitted_identity_authentic _ _ _ _ _ auth2_reached) as (Hadmit & _ & _ & _).
  assert (rtc auth_step auth0 auth4) as Hr by (etrans; [exact auth2_reached|exact auth4_reached]).
  destruct (admitted_identity_authentic _ _ _ _ _ Hr) as (_ & _ & _ & Hrev).
  split_and!.
  - destruct alice_request as [a r] eqn:E.
    assert (r = alice_request.2) as Er by by rewrite E.
    vm_compute in Er. subst r. eexists _, _. split; [reflexivity|].
    by eapply Hadmit; [exact alice_unforged|exact E].
  - by vm_compute.
  - assert (∃ e, reg_by_id (sy_registry auth4) !! "alice" = Some e ∧ 0 < acc_revocation_epoch e)
      as (e & He & Hpos).
    { eexists. split; [vm_compute; reflexivity|vm_compute; reflexivity]. }
    apply (Hrev "alice" e He Hpos auth4 (rtc_refl _ _)).
Defined.

(** ** Tickets *)

Definition alice_claims : Claims :=
  {| cl_sub := "alice"; cl_permissions := [PermRead]; cl_iat := 0; cl_exp := 1000;
     cl_revocation_epoch := 0 |}.

(** Redeemed once, refused the second time; the second ticket is presented too late. *)
Definition ticket_ops : list TicketOp :=
  [OpMint alice_claims 10 (Some [161; 11]); OpMint alice_claims 12 (Some [162; 12]);
   OpRedeem "a10b" 20; OpRedeem "a10b" 21; OpRedeem "a20c" 42].

Lemma ws_ticket_single_use_witness :
  omap (λ e, match e with Redemption _ _ r => Some r | _ => None end) (ticket_run 8 ticket_ops).2 =
    [Some alice_claims; None; None] ∧
  Z.of_nat (size (ts_tickets (ticket_run 8 ticket_ops).1)) ≤ 8.
Proof.
  split; [by vm_compute|].
  apply (ws_ticket_single_use 8 ticket_ops).
  repeat (constructor; [|repeat (constructor; [done|]); constructor]). constructor.
Defined.

(** ** Logins *)

(** Alice's stored hash was made under weaker parameters; her first login replaces it. *)
Definition login_ops : list RegistryOp :=
  [OpRestore {| ah_pepper := None; ah_m_cost := 1024; ah_t_cost := 1; ah_p_cost := 1 |} 5 alice;
   OpLogin 6 "alice-fix" "correct horse"; OpProvision 7 alice; OpRevoke "alice"].

Lemma fix_login_exact_witness :
  (verify_fix_password 8 "alice-fix" "correct horse"
     (registry_run (Argon2Hasher_new None) login_ops).1).2 =
    Authenticated "alice" [PermRead; PermTrade] ∧
  (cr_password_hash ∘ acc_credentials <$>
     reg_by_id (registry_run (Argon2Hasher_new None) login_ops).1 !! "alice") =
    Some (Some "Scorrect horse").
Proof.
  split; [|by vm_compute].
  apply (fix_login_exact (Argon2Hasher_new None) login_ops).
  - repeat constructor.
  - exists alice. split; [vm_compute; by left|done].
Defined.

(** ** A guess is not throttled

    [admit_ws_ticket] charges a failed presentation to the peer, but honours a presentation
    whatever the peer's budget: a peer that is over it still redeems the right ticket. *)
Example ticket_guess_not_throttled :
  let service := AuthService_new {| jwt_is_dev := false |} (with_budgets sample_budgets) in
  let '(service, _) := mint_ws_ticket alice_claims 10 (Some [161; 11]) service in
  let '(service, first) := admit_ws_ticket (sy_registry auth1) "0000" (V4 9) (at_secs 11) service in
  let '(service, second) := admit_ws_ticket (sy_registry auth1) "0001" (V4 9) (at_secs 11) service in
  let '(service, third) := admit_ws_ticket (sy_registry auth1) "a10b" (V4 9) (at_secs 11) service in
  match first, second, third with
  | AdmissionRejected Unauthorized (Some d1), AdmissionRejected Unauthorized (Some d2), AdmissionGranted _ _ =>
      (rd_allowed d1, rd_allowed d2) = (true, false)
  | _, _, _ => False
  end.
Proof. by vm_compute. Qed.
