(* ===== verification/Rng.v ===== *)
(** The seeded generator ([src/src/rng.rs]) and the latency draw it feeds
    ([microstructure/latency.rs]): FNV-1a, the SplitMix64 finaliser and stream.  The draws
    that go through floating point ([next_unit], [standard_normal]) are the parameter
    [float_draw]. *)

From S2P Require Export Microstructure.

Definition FNV_OFFSET_BASIS : Z := 0xcbf29ce484222325.
Definition FNV_PRIME : Z := 0x00000100000001B3.
Definition SPLITMIX_GAMMA : Z := 0x9E3779B97F4A7C15.
Definition LATENCY_SUBSTREAM_DOMAIN : Z := 0x466175784C617443.

Definition fnv1a_64 (data : list Z) : Z :=
  foldl (λ hash byte, wrapping u64 (Z.lxor hash byte * FNV_PRIME)) FNV_OFFSET_BASIS data.

Definition mix64 (z : Z) : Z :=
  let z := wrapping u64 (Z.lxor z (Z.shiftr z 30) * 0xBF58476D1CE4E5B9) in
  let z := wrapping u64 (Z.lxor z (Z.shiftr z 27) * 0x94D049BB133111EB) in
  Z.lxor z (Z.shiftr z 31).

Record SplitMix64 := { sm_state : Z }.

Definition from_state (state : Z) : SplitMix64 := {| sm_state := state |}.

Definition keyed (run_seed domain : Z) (keys : list (list Z)) : SplitMix64 :=
  from_state
    (foldl (λ acc key, mix64 (Z.lxor acc (fnv1a_64 key))) (mix64 (Z.lxor run_seed domain)) keys).

Definition next_u64 (rng : SplitMix64) : Z * SplitMix64 :=
  let state := wrapping u64 (sm_state rng + SPLITMIX_GAMMA) in
  (mix64 state, from_state state).

Definition keyed_latency (run_seed : Z) (session_id : list Z) (msg_seq : Z) : SplitMix64 :=
  let acc := mix64 (Z.lxor run_seed LATENCY_SUBSTREAM_DOMAIN) in
  let acc := mix64 (Z.lxor acc (fnv1a_64 session_id)) in
  from_state (mix64 (Z.lxor acc msg_seq)).

(** [min + (next % width)]: an unchecked addition, so it wraps in a release build. *)
Definition draw_uniform (rng : SplitMix64) (min max : Z) : Z :=
  if max <=? min then min
  else
    match checked_add u64 (max - min) 1 with
    | Some width => wrapping u64 (min + (next_u64 rng).1 mod width)
    | None => (next_u64 rng).1
    end.

Definition is_enabled (c : LatencyConfig) : bool :=
  match c with LatDisabled => false | _ => true end.

Definition draw (float_draw : LatencyConfig → SplitMix64 → Z) (c : LatencyConfig)
    (run_seed : Z) (session_id : list Z) (msg_seq : Z) : Z :=
  match c with
  | LatDisabled => 0
  | LatFixed us => us
  | LatUniform min_us max_us =>
      draw_uniform (keyed_latency run_seed session_id msg_seq) min_us max_us
  | _ => float_draw c (keyed_latency run_seed session_id msg_seq)
  end.

(** * Theorems *)

(** ** The finaliser is a bijection of 64-bit words *)

Lemma u64_mod z : wrapping u64 z = z mod 2 ^ 64.
Proof. reflexivity. Qed.

Lemma shiftr_fix d k : 0 < k → 0 ≤ d → Z.shiftr d k = d → d = 0.
Proof.
  intros Hk Hd E. rewrite Z.shiftr_div_pow2 in E by lia.
  destruct (Z.eq_dec d 0) as [|Hne]; [done|].
  assert (d / 2 ^ k < d); [|lia]. apply Z.div_lt; [lia|]. apply Z.pow_gt_1; lia.
Qed.

(** [z ^ (z >> k)] determines [z]: the difference of two preimages is its own shift. *)
Lemma xorshift_inj k a b :
  0 < k → 0 ≤ a → 0 ≤ b →
  Z.lxor a (Z.shiftr a k) = Z.lxor b (Z.shiftr b k) → a = b.
Proof.
  intros Hk Ha Hb E. apply Z.lxor_eq. apply (shiftr_fix _ k Hk); [by apply Z.lxor_nonneg|].
  apply Z.bits_inj'. intros i Hi. apply (f_equal (λ z, Z.testbit z i)) in E.
  rewrite !Z.lxor_spec, !Z.shiftr_spec in E by done.
  rewrite Z.shiftr_spec, !Z.lxor_spec by done.
  destruct (Z.testbit a i), (Z.testbit b i), (Z.testbit a (i + k)), (Z.testbit b (i + k)); done.
Qed.

(** A product by an odd constant determines the word: the constant has an inverse. *)
Lemma mul_inj c inv a b :
  wrapping u64 (c * inv) = 1 → 0 ≤ a < 2 ^ 64 → 0 ≤ b < 2 ^ 64 →
  wrapping u64 (a * c) = wrapping u64 (b * c) → a = b.
Proof.
  rewrite !u64_mod. intros Hinv Ha Hb E.
  apply (f_equal (λ z, (z * inv) mod 2 ^ 64)) in E.
  rewrite !Z.mul_mod_idemp_l, <-!Z.mul_assoc in E by done.
  rewrite !(Z.mul_mod _ (c * inv)), Hinv, !Z.mul_1_r, !Z.mod_mod in E by done.
  by rewrite !Z.mod_small in E.
Qed.

Lemma lxor_shiftr_range k z : 0 ≤ k → 0 ≤ z < 2 ^ 64 → 0 ≤ Z.lxor z (Z.shiftr z k) < 2 ^ 64.
Proof.
  intros Hk Hz. split.
  - by apply Z.lxor_nonneg, iff_sym, Z.shiftr_nonneg.
  - destruct (Z.eq_dec (Z.lxor z (Z.shiftr z k)) 0) as [->|Hne]; [done|].
    assert (0 ≤ Z.shiftr z k) as Hsh by (apply Z.shiftr_nonneg; lia).
    assert (0 < Z.lxor z (Z.shiftr z k)) as Hpos.
    { assert (0 ≤ Z.lxor z (Z.shiftr z k)); [|lia]. apply Z.lxor_nonneg. lia. }
    apply Z.log2_lt_pow2; [done|].
    eapply Z.le_lt_trans; [apply Z.log2_lxor; lia|].
    assert (∀ y, 0 ≤ y < 2 ^ 64 → Z.log2 y < 64) as Hl.
    { intros y Hy. destruct (Z.eq_dec y 0) as [->|]; [done|]. apply Z.log2_lt_pow2; lia. }
    apply Z.max_lub_lt; apply Hl; [done|]. split; [done|].
    rewrite Z.shiftr_div_pow2 by done. apply Z.div_lt_upper_bound; [lia|].
    assert (0 < 2 ^ k) by (apply Z.pow_pos_nonneg; lia). nia.
Qed.

Lemma wrapping_range z : 0 ≤ wrapping u64 z < 2 ^ 64.
Proof. rewrite u64_mod. by apply Z.mod_pos_bound. Qed.

(** The finaliser loses nothing: distinct words have distinct images. *)
Lemma mix64_inj a b : 0 ≤ a < 2 ^ 64 → 0 ≤ b < 2 ^ 64 → mix64 a = mix64 b → a = b.
Proof.
  intros Ha Hb E. unfold mix64 in E.
  apply xorshift_inj in E; [|done|apply wrapping_range..].
  apply (mul_inj _ 0x319642b2d24d8ec3) in E; [|by vm_compute|by apply lxor_shiftr_range, wrapping_range..].
  apply xorshift_inj in E; [|done|apply wrapping_range..].
  apply (mul_inj _ 0x96de1b173f119089) in E; [|by vm_compute|by apply lxor_shiftr_range..].
  apply xorshift_inj in E; [done|done|lia..].
Qed.

Lemma mix64_range z : 0 ≤ z < 2 ^ 64 → 0 ≤ mix64 z < 2 ^ 64.
Proof. intros Hz. by apply lxor_shiftr_range, wrapping_range. Qed.

(** ** The stream *)

Fixpoint stream (n : nat) (rng : SplitMix64) : list Z :=
  match n with
  | O => []
  | S n => let '(x, rng) := next_u64 rng in x :: stream n rng
  end.

Lemma stream_lookup n rng i x :
  stream n rng !! i = Some x →
  (i < n)%nat ∧ x = mix64 (wrapping u64 (sm_state rng + (Z.of_nat i + 1) * SPLITMIX_GAMMA)).
Proof.
  revert rng i. induction n as [|n IH]; intros rng i; [done|]. cbn [stream next_u64].
  destruct i as [|i]; cbn [lookup list_lookup].
  - intros [= <-]. split; [lia|]. by rewrite Z.mul_1_l.
  - intros [Hi ->]%IH. split; [lia|]. f_equal. cbn [sm_state from_state].
    rewrite !u64_mod, Z.add_mod_idemp_l by done. f_equal. lia.
Qed.

(** The generator repeats no word within its period of 2^64 draws. *)
Theorem stream_no_repeat n rng : Z.of_nat n ≤ 2 ^ 64 → NoDup (stream n rng).
Proof.
  intros Hn. apply NoDup_alt. intros i j x Hi Hj.
  apply stream_lookup in Hi as [Hi ->]. apply stream_lookup in Hj as [Hj E].
  apply mix64_inj in E; [|apply wrapping_range..]. rewrite !u64_mod in E.
  assert ((Z.of_nat i * SPLITMIX_GAMMA) mod 2 ^ 64 = (Z.of_nat j * SPLITMIX_GAMMA) mod 2 ^ 64) as E2.
  { apply (f_equal (λ z, (z - sm_state rng - SPLITMIX_GAMMA) mod 2 ^ 64)) in E.
    assert (∀ k, ((sm_state rng + (k + 1) * SPLITMIX_GAMMA) mod 2 ^ 64 - sm_state rng
      - SPLITMIX_GAMMA) mod 2 ^ 64 = (k * SPLITMIX_GAMMA) mod 2 ^ 64) as Hk.
    { intros k. rewrite <-Z.sub_add_distr, Zminus_mod_idemp_l. f_equal. lia. }
    by rewrite !Hk in E. }
  apply (mul_inj SPLITMIX_GAMMA 0xf1de83e19937733d) in E2; [lia|by vm_compute|lia..].
Qed.

(** ** The draw stays in its band *)

Lemma draw_uniform_band rng min max :
  0 ≤ min → min ≤ max → max < 2 ^ 64 → min ≤ draw_uniform rng min max ≤ max.
Proof.
  intros H0 Hle Hmax. unfold draw_uniform. destruct (Z.leb_spec max min); [lia|].
  destruct (checked_add u64 (max - min) 1) as [width|] eqn:Hw.
  - apply narrow_Some in Hw as [-> _].
    pose proof (Z.mod_pos_bound (next_u64 rng).1 (max - min + 1) ltac:(lia)).
    rewrite u64_mod, Z.mod_small by lia. lia.
  - apply narrow_None in Hw. unfold has_ty in Hw. cbn in Hw.
    assert (min = 0 ∧ max = 2 ^ 64 - 1) as [-> ->] by lia.
    pose proof (mix64_range _ (wrapping_range (sm_state rng + SPLITMIX_GAMMA))). cbn. lia.
Qed.
