(* ===== verification/Ingress.v ===== *)
(** The ingress reorder buffer ([src/src/microstructure/ingress.rs]) and its use at the edge
    of the venue ([state.rs], [submit_reordered], [release_ingress]): an order is held until
    the venue clock has passed its deadline, and orders are released in key order.  The
    buffer's [BTreeMap] is a map read in ascending key order.

    Proved: one global release order, nothing lost, a bounded buffer. *)

From stdpp Require Export gmap.
From S2P Require Export Rng VenueErrors.

Definition MAX_INGRESS_OFFSET_US : Z := 3600000000.
Definition DEFAULT_INGRESS_BUFFER_CAPACITY : Z := 4096.
Definition DEFAULT_MAX_INGRESS_PER_SESSION : Z := 512.

Record IngressStamp := { is_session_id : string; is_msg_seq : Z }.

Record ReleaseKey := {
  rk_deadline_us : Z; rk_session_id : string; rk_arrival_sequence : Z }.
#[export] Instance ReleaseKey_eq_dec : EqDecision ReleaseKey.
Proof. solve_decision. Defined.
#[export] Instance ReleaseKey_countable : Countable ReleaseKey.
Proof.
  apply (inj_countable'
    (λ k, (rk_deadline_us k, rk_session_id k, rk_arrival_sequence k))
    (λ t, {| rk_deadline_us := t.1.1; rk_session_id := t.1.2; rk_arrival_sequence := t.2 |})).
  by intros [].
Defined.

(** The derived order: deadline, then session, then arrival. *)
Definition release_key_tuple (k : ReleaseKey) : Z * (string * Z) :=
  (rk_deadline_us k, (rk_session_id k, rk_arrival_sequence k)).
Definition release_key_leb : Z * (string * Z) → Z * (string * Z) → bool :=
  pair_leb Z.leb (pair_leb String.leb Z.leb).
Definition key_leb (a b : ReleaseKey) : bool :=
  release_key_leb (release_key_tuple a) (release_key_tuple b).
Definition key_ltb (a b : ReleaseKey) : bool := negb (key_leb b a).

Definition release_deadline_us (now_ms offset : Z) : option Z :=
  let offset_us := Z.min offset MAX_INGRESS_OFFSET_US in
  base_us ← checked_mul u64 now_ms 1000; checked_add u64 base_us offset_us.

Section buffer.
Context {T : Type}.

Record IngressReorderBuffer := {
  ib_pending : gmap ReleaseKey T;
  ib_capacity : Z;
  ib_per_session : gmap string Z;
  ib_max_per_session : Z;
}.

Definition clamp (x lo hi : Z) : Z := Z.min (Z.max x lo) hi.

Definition with_ceilings (capacity max_per_session : Z) : IngressReorderBuffer :=
  let capacity := Z.max capacity 1 in
  let fairness_ceiling := Z.max (capacity / 2) 1 in
  {| ib_pending := ∅; ib_capacity := capacity; ib_per_session := ∅;
     ib_max_per_session := clamp max_per_session 1 fairness_ceiling |}.
Definition IngressReorderBuffer_new (capacity : Z) : IngressReorderBuffer :=
  with_ceilings capacity DEFAULT_MAX_INGRESS_PER_SESSION.

Definition with_pending (p : gmap ReleaseKey T) (s : gmap string Z) (b : IngressReorderBuffer) :
    IngressReorderBuffer :=
  {| ib_pending := p; ib_capacity := ib_capacity b; ib_per_session := s;
     ib_max_per_session := ib_max_per_session b |}.

(** [false] is [IngressBufferFull]. *)
Definition ib_insert (key : ReleaseKey) (payload : T) (b : IngressReorderBuffer) :
    IngressReorderBuffer * bool :=
  let is_new_key := bool_decide (ib_pending b !! key = None) in
  let session_count := default 0 (ib_per_session b !! rk_session_id key) in
  if is_new_key && (ib_capacity b <=? Z.of_nat (size (ib_pending b))) then (b, false)
  else if is_new_key && (ib_max_per_session b <=? session_count) then (b, false)
  else
    let pending := <[key := payload]> (ib_pending b) in
    if is_new_key then
      (with_pending pending
         (<[rk_session_id key := default session_count (checked_add usize session_count 1)]>
            (ib_per_session b)) b, true)
    else (with_pending pending (ib_per_session b) b, true).

(** One drained entry frees its session's slot. *)
Definition free_slot (per_session : gmap string Z) (key : ReleaseKey) : gmap string Z :=
  match per_session !! rk_session_id key with
  | Some count =>
      match checked_sub usize count 1 with
      | Some next => <[rk_session_id key := next]> per_session
      | None => per_session
      end
  | None => per_session
  end.

Definition in_key_order (m : gmap ReleaseKey T) : list (ReleaseKey * T) :=
  sort_by_key release_key_leb (λ e, release_key_tuple e.1) (map_to_list m).

Definition drain_below (now_us : Z) (b : IngressReorderBuffer) :
    IngressReorderBuffer * list (ReleaseKey * T) :=
  let boundary :=
    {| rk_deadline_us := now_us; rk_session_id := EmptyString; rk_arrival_sequence := 0 |} in
  let remainder := filter (λ e, key_leb boundary e.1 = true) (ib_pending b) in
  let due := in_key_order (filter (λ e, key_leb boundary e.1 = false) (ib_pending b)) in
  let per_session := foldl free_slot (ib_per_session b) due.*1 in
  (with_pending remainder (filter (λ e, e.2 ≠ 0) per_session) b, due).
End buffer.

Arguments IngressReorderBuffer : clear implicits.

(** ** At the edge of the venue *)

(** [ingress_now_us]: the venue instant in microseconds. *)
Definition ingress_now_us (now_ms : Z) : Z :=
  default (int_max u64) (checked_mul u64 now_ms 1000).

(** [next_arrival_sequence] and the counter behind [next_rest_ingress_stamp]: the value
    handed out and the counter after it. *)
Definition next_counter (current : Z) : result VenueError (Z * Z) :=
  match checked_add u64 current 1 with
  | None => Err SequenceExhausted
  | Some next => Ok (current, next)
  end.

Definition is_bufferable_ingress (c : VenueCommand) : bool :=
  match c with
  | AddOrder _ _ _ _ _ _ _ _ _ _ _ | CancelOrder _ _ _ | Replace _ _ _ _ _ _ _ _ _ _ _ => true
  | _ => false
  end.

(** The ingress of one underlying: its buffer, and the arrival counter it shares with the
    other underlyings. *)
Record IngressChannel := {
  ic_buffer : IngressReorderBuffer (VenueCommand * nat);
  ic_arrival_counter : Z;
}.

(** [submit_reordered] from the latency draw to the insertion, at the venue instant
    [now_ms]: the order waits under a reply slot [reply]. *)
Definition admit_ingress (now_ms offset : Z) (stamp : IngressStamp) (command : VenueCommand)
    (reply : nat) (c : IngressChannel) : IngressChannel * result VenueError ReleaseKey :=
  match release_deadline_us now_ms offset with
  | None => (c, Err VOverflow)
  | Some deadline_us =>
      match next_counter (ic_arrival_counter c) with
      | Err e => (c, Err e)
      | Ok (arrival_sequence, counter) =>
          let key :=
            {| rk_deadline_us := deadline_us; rk_session_id := is_session_id stamp;
               rk_arrival_sequence := arrival_sequence |} in
          match ib_insert key (command, reply) (ic_buffer c) with
          | (b, true) => ({| ic_buffer := b; ic_arrival_counter := counter |}, Ok key)
          | (b, false) => ({| ic_buffer := b; ic_arrival_counter := counter |}, Err RateLimited)
          end
      end
  end.

(** [release_ingress] up to the submission of what is due, in order. *)
Definition release_ingress (now_ms : Z) (c : IngressChannel) :
    IngressChannel * list (ReleaseKey * (VenueCommand * nat)) :=
  let '(b, due) := drain_below (ingress_now_us now_ms) (ic_buffer c) in
  ({| ic_buffer := b; ic_arrival_counter := ic_arrival_counter c |}, due).

#[local] Notation leb := release_key_leb.

Lemma release_key_tuple_inj a b : release_key_tuple a = release_key_tuple b → a = b.
Proof. destruct a, b. by intros [= -> -> ->]. Qed.

Lemma key_leb_deadline a b : key_leb a b = true → rk_deadline_us a ≤ rk_deadline_us b.
Proof.
  unfold key_leb, release_key_leb, pair_leb. cbn.
  destruct (Z.leb_spec (rk_deadline_us a) (rk_deadline_us b)); [done|]. done.
Qed.

Lemma deadline_key_leb a b : rk_deadline_us a < rk_deadline_us b → key_leb a b = true.
Proof.
  intros Hlt. unfold key_leb, release_key_leb, pair_leb. cbn.
  destruct (Z.leb_spec (rk_deadline_us a) (rk_deadline_us b)); [|lia].
  by destruct (Z.leb_spec (rk_deadline_us b) (rk_deadline_us a)); [lia|].
Qed.

(** The boundary of a drain: the keys below it are those whose deadline has passed. *)
Lemma boundary_spec now k :
  0 ≤ rk_arrival_sequence k →
  key_leb {| rk_deadline_us := now; rk_session_id := EmptyString; rk_arrival_sequence := 0 |} k
    = false ↔ rk_deadline_us k < now.
Proof.
  intros Ha. unfold key_leb, release_key_leb, pair_leb. cbn.
  destruct (Z.leb_spec now (rk_deadline_us k)) as [H1|H1]; [|by split].
  destruct (Z.leb_spec (rk_deadline_us k) now) as [H2|H2]; [|split; [done|lia]].
  assert (String.leb EmptyString (rk_session_id k) = true) as Hs
    by (by destruct (rk_session_id k)).
  rewrite Hs. destruct (String.leb (rk_session_id k) EmptyString); [|split; [done|lia]].
  destruct (Z.leb_spec 0 (rk_arrival_sequence k)); [split; [done|lia]|lia].
Qed.

Section props.
Context {T : Type}.
Notation buffer := (IngressReorderBuffer T).

(** Entries of a session. *)
Definition session_entries (s : string) (m : gmap ReleaseKey T) : gmap ReleaseKey T :=
  filter (λ e, rk_session_id e.1 = s) m.

Record buffer_inv (b : buffer) (capacity max_per_session : Z) : Prop := {
  bi_capacity : ib_capacity b = capacity;
  bi_max : ib_max_per_session b = max_per_session;
  bi_bound : Z.of_nat (size (ib_pending b)) ≤ capacity;
  bi_count : ∀ s, default 0 (ib_per_session b !! s) =
    Z.of_nat (size (session_entries s (ib_pending b)));
  bi_session : ∀ s, Z.of_nat (size (session_entries s (ib_pending b))) ≤ max_per_session;
  bi_nonzero : ∀ s, ib_per_session b !! s ≠ Some 0;
}.

Lemma with_ceilings_inv capacity max_per_session :
  let b := with_ceilings (T := T) capacity max_per_session in
  buffer_inv b (ib_capacity b) (ib_max_per_session b) ∧ 1 ≤ ib_max_per_session b ≤ ib_capacity b.
Proof.
  cbn. assert (1 ≤ clamp max_per_session 1 (Z.max (Z.max capacity 1 / 2) 1) ≤ Z.max capacity 1).
  { unfold clamp. assert (Z.max capacity 1 / 2 ≤ Z.max capacity 1) by (apply Z.div_le_upper_bound; lia).
    lia. }
  split; [|done]. split; cbn; try done.
  - rewrite map_size_empty. lia.
  - intros s. unfold session_entries. rewrite map_filter_empty, map_size_empty. cbn. lia.
Qed.

Lemma session_entries_insert s key payload (m : gmap ReleaseKey T) :
  m !! key = None →
  size (session_entries s (<[key := payload]> m)) =
    (size (session_entries s m) + if decide (rk_session_id key = s) then 1 else 0)%nat.
Proof.
  intros Hk. unfold session_entries. rewrite map_filter_insert. cbn.
  destruct (decide (rk_session_id key = s)).
  - rewrite map_size_insert_None; [lia|]. apply map_lookup_filter_None. by left.
  - rewrite map_filter_delete. cbn. rewrite delete_id; [lia|].
    apply map_lookup_filter_None. by left.
Qed.

Lemma session_entries_replace s key payload old (m : gmap ReleaseKey T) :
  m !! key = Some old →
  size (session_entries s (<[key := payload]> m)) = size (session_entries s m).
Proof.
  intros Hk. unfold session_entries. rewrite map_filter_insert. cbn.
  destruct (decide (rk_session_id key = s)).
  - apply map_size_insert_Some. exists old. by apply map_lookup_filter_Some.
  - rewrite map_filter_delete, delete_id; [done|]. apply map_lookup_filter_None. by right.
Qed.

Lemma insert_inv key payload (b : buffer) capacity max_per_session :
  buffer_inv b capacity max_per_session → max_per_session ≤ capacity → capacity < int_max usize →
  buffer_inv (ib_insert key payload b).1 capacity max_per_session.
Proof.
  intros [I1 I2 I3 I4 I5 I6] Hm Hc. unfold ib_insert. rewrite I1, I2, I4.
  set (n := Z.of_nat (size (session_entries (rk_session_id key) (ib_pending b)))) in *.
  case_bool_decide as Hnew; cbn [andb].
  - destruct (Z.leb_spec capacity (Z.of_nat (size (ib_pending b)))); [done|].
    destruct (Z.leb_spec max_per_session n); [done|]. cbn [fst].
    unfold checked_add. rewrite narrow_fits by (unfold has_ty in *; cbn in *; lia). cbn [default].
    split; cbn; try done.
    + rewrite map_size_insert_None by done. lia.
    + intros s. rewrite session_entries_insert by done.
      destruct (decide (rk_session_id key = s)) as [<-|Hne].
      * rewrite lookup_insert_eq. cbn. lia.
      * rewrite lookup_insert_ne by done. rewrite I4. lia.
    + intros s. rewrite session_entries_insert by done.
      destruct (decide (rk_session_id key = s)) as [<-|Hne]; [lia|]. specialize (I5 s). lia.
    + intros s [[_ E]|[_ Hs]]%lookup_insert_Some; [lia|by apply (I6 s)].
  - apply not_eq_None_Some in Hnew as [old Hold]. split; cbn; try done.
    + by rewrite map_size_insert_Some.
    + intros s. by rewrite (session_entries_replace _ _ _ old).
    + intros s. by rewrite (session_entries_replace _ _ _ old).
Qed.

Lemma insert_spec key payload (b : buffer) capacity max_per_session :
  buffer_inv b capacity max_per_session → ib_pending b !! key = None →
  (ib_insert key payload b).2 = true ↔
    Z.of_nat (size (ib_pending b)) < capacity ∧
    Z.of_nat (size (session_entries (rk_session_id key) (ib_pending b))) < max_per_session.
Proof.
  intros [I1 I2 I3 I4 I5 I6] Hnew. unfold ib_insert. rewrite I1, I2, I4.
  rewrite bool_decide_true by done. cbn [andb].
  destruct (Z.leb_spec capacity (Z.of_nat (size (ib_pending b)))); cbn; [split; [done|lia]|].
  destruct (Z.leb_spec max_per_session
    (Z.of_nat (size (session_entries (rk_session_id key) (ib_pending b))))); cbn; split; try done; lia.
Qed.

(** Draining frees exactly the drained sessions' slots. *)
Lemma free_slots_spec (m due : gmap ReleaseKey T) (ps : gmap string Z) keys :
  keys ≡ₚ (map_to_list due).*1 → due ⊆ m →
  (∀ s, default 0 (ps !! s) = Z.of_nat (size (session_entries s m))) →
  Z.of_nat (size m) ≤ int_max usize →
  ∀ s, default 0 (foldl free_slot ps keys !! s) =
    Z.of_nat (size (session_entries s (m ∖ due))).
Proof.
  revert m due ps. induction keys as [|k keys IH]; intros m due ps Hperm Hsub Hps Hsize s; cbn.
  - apply Permutation_nil_l in Hperm. symmetry in Hperm.
    apply fmap_nil_inv, map_to_list_empty_iff in Hperm as ->.
    by rewrite map_difference_empty.
  - assert (is_Some (due !! k)) as [x Hx].
    { assert (k ∈ (map_to_list due).*1) as Hk by (rewrite <-Hperm; left).
      apply list_elem_of_fmap in Hk as ([k' x] & -> & Hk). exists x. by apply elem_of_map_to_list. }
    assert (m !! k = Some x) as Hm by by eapply lookup_weaken.
    assert (m ∖ due = delete k m ∖ delete k due) as ->.
    { apply map_eq. intros i. rewrite !lookup_difference. destruct (decide (i = k)) as [->|Hne].
      - by rewrite Hx, !lookup_delete_eq.
      - by rewrite !lookup_delete_ne. }
    apply IH.
    + rewrite <-(insert_delete_id due k x) in Hperm by done.
      rewrite map_to_list_insert in Hperm by apply lookup_delete_eq. cbn in Hperm.
      by apply Permutation_cons_inv in Hperm.
    + by apply delete_mono.
    + intros s'. unfold free_slot. 
      assert (size (session_entries s' (delete k m)) =
        (size (session_entries s' m) - if decide (rk_session_id k = s') then 1 else 0))%nat as Hd.
      { rewrite <-(insert_delete_id m k x) at 2 by done.
        rewrite session_entries_insert by apply lookup_delete_eq. lia. }
      assert (size (session_entries s' m) ≤ size m)%nat as Hle.
      { unfold session_entries. rewrite <-!size_dom. apply subseteq_size, dom_filter_subseteq. }
      rewrite Hd. destruct (decide (rk_session_id k = s')) as [Hs'|Hne].
      * assert (0 < size (session_entries s' m))%nat as Hpos.
        { apply Nat.neq_0_lt_0, (map_size_ne_0_lookup_2 _ k). exists x.
          unfold session_entries. by apply map_lookup_filter_Some. }
        specialize (Hps s'). rewrite Hs'.
        destruct (ps !! s') as [c|] eqn:Hc; cbn in Hps; [|lia].
        unfold checked_sub. rewrite narrow_fits by (unfold has_ty; cbn in *; lia).
        rewrite lookup_insert_eq. cbn. lia.
      * rewrite Nat.sub_0_r, <-Hps. destruct (ps !! rk_session_id k) as [c|]; [|done].
        destruct (checked_sub usize c 1); [|done]. by rewrite lookup_insert_ne.
    + rewrite map_size_delete, Hm. cbn in *. lia.
Qed.

Lemma in_key_order_perm (m : gmap ReleaseKey T) : in_key_order m ≡ₚ map_to_list m.
Proof. apply sort_by_key_perm. Qed.

Definition boundary (now_us : Z) : ReleaseKey :=
  {| rk_deadline_us := now_us; rk_session_id := EmptyString; rk_arrival_sequence := 0 |}.
Definition due_now (now_us : Z) (m : gmap ReleaseKey T) : gmap ReleaseKey T :=
  filter (λ e, key_leb (boundary now_us) e.1 = false) m.
Definition not_due (now_us : Z) (m : gmap ReleaseKey T) : gmap ReleaseKey T :=
  filter (λ e, key_leb (boundary now_us) e.1 = true) m.

Lemma not_due_difference now m : not_due now m = m ∖ due_now now m.
Proof.
  apply map_eq. intros k. apply option_eq. intros x. unfold not_due, due_now.
  rewrite lookup_difference_Some, map_lookup_filter_Some, map_lookup_filter_None. cbn.
  destruct (key_leb (boundary now) k); naive_solver.
Qed.

Lemma drain_inv now (b : buffer) capacity max_per_session :
  buffer_inv b capacity max_per_session → capacity ≤ int_max usize →
  buffer_inv (drain_below now b).1 capacity max_per_session.
Proof.
  intros [I1 I2 I3 I4 I5 I6] Hc. unfold drain_below. cbn [fst].
  fold (boundary now). change (filter (λ e, key_leb (boundary now) e.1 = true) (ib_pending b))
    with (not_due now (ib_pending b)).
  change (filter (λ e, key_leb (boundary now) e.1 = false) (ib_pending b))
    with (due_now now (ib_pending b)).
  pose proof (free_slots_spec (ib_pending b) (due_now now (ib_pending b)) (ib_per_session b)
    (in_key_order (due_now now (ib_pending b))).*1) as Hf.
  rewrite <-not_due_difference in Hf.
  specialize (Hf ltac:(by rewrite in_key_order_perm) ltac:(apply map_filter_subseteq) I4 ltac:(lia)).
  set (ps := foldl free_slot _ _) in *.
  assert (∀ s, size (session_entries s (not_due now (ib_pending b))) ≤
    size (session_entries s (ib_pending b)))%nat as Hle.
  { intros s. unfold session_entries, not_due. rewrite <-!size_dom.
    apply subseteq_size. intros k. rewrite !elem_of_dom. intros [x Hx]. exists x.
    apply map_lookup_filter_Some in Hx as [[Hx _]%map_lookup_filter_Some Hs].
    by apply map_lookup_filter_Some. }
  split; cbn; try done.
  - assert (size (not_due now (ib_pending b)) ≤ size (ib_pending b))%nat.
    { rewrite <-!size_dom. apply subseteq_size, dom_filter_subseteq. }
    lia.
  - intros s. rewrite <-Hf. destruct (ps !! s) as [c|] eqn:Hps.
    + destruct (decide (c = 0)) as [->|Hne]; cbn.
      * assert (filter (λ e : string * Z, e.2 ≠ 0) ps !! s = None) as ->; [|done].
        apply map_lookup_filter_None. right. intros c Hc'. rewrite Hps in Hc'.
        injection Hc' as <-. cbn. tauto.
      * assert (filter (λ e : string * Z, e.2 ≠ 0) ps !! s = Some c) as ->; [|done].
        by apply map_lookup_filter_Some.
    + assert (filter (λ e : string * Z, e.2 ≠ 0) ps !! s = None) as ->; [|done].
      apply map_lookup_filter_None. by left.
  - intros s. specialize (Hle s). specialize (I5 s). lia.
  - intros s [_ H]%map_lookup_filter_Some. done.
Qed.

Lemma drain_result now (b : buffer) :
  ib_pending (drain_below now b).1 = not_due now (ib_pending b) ∧
  (drain_below now b).2 = in_key_order (due_now now (ib_pending b)).
Proof. done. Qed.
End props.

(** ** A channel over time *)

Inductive IngressEvent :=
  | EvAdmit (now_ms offset : Z) (stamp : IngressStamp) (command : VenueCommand) (reply : nat)
  (** Another underlying's order takes an arrival number. *)
  | EvOther (now_ms : Z)
  | EvRelease (now_ms : Z).

Definition event_now (e : IngressEvent) : Z :=
  match e with EvAdmit now _ _ _ _ | EvOther now | EvRelease now => now end.

Notation payload := (VenueCommand * nat)%type.

Record IngressRun := {
  ir_channel : IngressChannel;
  (** The admitted orders, with their admission instant; the released ones, in order; the
      instant of the last release. *)
  ir_accepted : list (Z * (ReleaseKey * payload));
  ir_released : list (ReleaseKey * payload);
  ir_last_release : Z;
}.

Definition ingress_step (s : IngressRun) (e : IngressEvent) : IngressRun :=
  match e with
  | EvAdmit now offset stamp command reply =>
      let '(c, r) := admit_ingress now offset stamp command reply (ir_channel s) in
      {| ir_channel := c;
         ir_accepted :=
           match r with
           | Ok key => ir_accepted s ++ [(now, (key, (command, reply)))]
           | Err _ => ir_accepted s
           end;
         ir_released := ir_released s; ir_last_release := ir_last_release s |}
  | EvOther _ =>
      {| ir_channel :=
           {| ic_buffer := ic_buffer (ir_channel s);
              ic_arrival_counter :=
                match next_counter (ic_arrival_counter (ir_channel s)) with
                | Ok (_, n) => n | Err _ => ic_arrival_counter (ir_channel s) end |};
         ir_accepted := ir_accepted s; ir_released := ir_released s;
         ir_last_release := ir_last_release s |}
  | EvRelease now =>
      let '(c, due) := release_ingress now (ir_channel s) in
      {| ir_channel := c; ir_accepted := ir_accepted s; ir_released := ir_released s ++ due;
         ir_last_release := now |}
  end.

Definition ingress_initial (capacity max_per_session : Z) : IngressRun :=
  {| ir_channel :=
       {| ic_buffer := with_ceilings capacity max_per_session; ic_arrival_counter := 0 |};
     ir_accepted := []; ir_released := []; ir_last_release := 0 |}.

Definition ingress_run (capacity max_per_session : Z) (es : list IngressEvent) : IngressRun :=
  foldl ingress_step (ingress_initial capacity max_per_session) es.

Notation key_lt := (λ a b : ReleaseKey * payload, key_ltb a.1 b.1 = true).

Record ingress_inv (s : IngressRun) (capacity max_per_session now : Z) : Prop := {
  gi_buffer : buffer_inv (ic_buffer (ir_channel s)) capacity max_per_session;
  gi_counter : 0 ≤ ic_arrival_counter (ir_channel s);
  gi_accepted : (ir_accepted s).*2 ≡ₚ
    ir_released s ++ map_to_list (ib_pending (ic_buffer (ir_channel s)));
  gi_fresh : ∀ e, e ∈ ir_accepted s →
    0 ≤ rk_arrival_sequence e.2.1 < ic_arrival_counter (ir_channel s);
  gi_horizon : ∀ e, e ∈ ir_accepted s →
    rk_deadline_us e.2.1 ≤ e.1 * 1000 + MAX_INGRESS_OFFSET_US;
  gi_sorted : StronglySorted key_lt (ir_released s);
  gi_released : ∀ e, e ∈ ir_released s → rk_deadline_us e.1 < ingress_now_us (ir_last_release s);
  gi_pending : ∀ k x, ib_pending (ic_buffer (ir_channel s)) !! k = Some x →
    ingress_now_us (ir_last_release s) ≤ rk_deadline_us k;
  gi_now : ir_last_release s ≤ now;
}.

Lemma ingress_now_us_mono a b : 0 ≤ a → a ≤ b → ingress_now_us a ≤ ingress_now_us b.
Proof.
  intros Ha Hab. unfold ingress_now_us, checked_mul, narrow.
  destruct (fits_reflect u64 (a * 1000)), (fits_reflect u64 (b * 1000)); cbn [default];
    unfold_int; unfold id; lia.
Qed.

Lemma release_deadline_bounds now offset d :
  0 ≤ now → 0 ≤ offset → release_deadline_us now offset = Some d →
  ingress_now_us now ≤ d ≤ now * 1000 + MAX_INGRESS_OFFSET_US.
Proof.
  intros Hn Ho. unfold release_deadline_us, ingress_now_us.
  destruct (checked_mul u64 now 1000) as [base|] eqn:Hb; cbn; [|done].
  apply narrow_Some in Hb as [-> _]. intros Hd. apply narrow_Some in Hd as [-> _].
  unfold MAX_INGRESS_OFFSET_US. lia.
Qed.

Lemma key_ltb_deadline a b : rk_deadline_us a < rk_deadline_us b → key_ltb a b = true.
Proof.
  intros Hlt. unfold key_ltb. destruct (key_leb b a) eqn:E; [|done].
  apply key_leb_deadline in E. lia.
Qed.

Lemma map_to_list_union `{Countable K} {A} (m1 m2 : gmap K A) :
  m1 ##ₘ m2 → map_to_list (m1 ∪ m2) ≡ₚ map_to_list m1 ++ map_to_list m2.
Proof.
  intros Hd. apply NoDup_Permutation.
  - apply NoDup_map_to_list.
  - apply NoDup_app. split_and!; try apply NoDup_map_to_list.
    intros [k x] H1%elem_of_map_to_list H2%elem_of_map_to_list.
    by apply (map_disjoint_spec m1 m2) with k x x in H1.
  - intros [k x]. rewrite elem_of_app, !elem_of_map_to_list. by apply lookup_union_Some.
Qed.

(** Draining a map of distinct keys gives a strictly increasing list. *)
Lemma in_key_order_sorted (m : gmap ReleaseKey payload) :
  StronglySorted key_lt (in_key_order m).
Proof.
  pose proof (sort_by_key_sorted leb (λ e : ReleaseKey * payload, release_key_tuple e.1)
    (map_to_list m)) as Hs. fold (in_key_order m) in Hs. unfold key_sorted in Hs.
  assert (NoDup (in_key_order m).*1) as Hnd.
  { rewrite in_key_order_perm. apply NoDup_fst_map_to_list. }
  revert Hs Hnd. generalize (in_key_order m). intros l. induction l as [|x l IH]; intros Hs Hnd;
    [constructor|].
  apply StronglySorted_inv in Hs as [Hs Hx]. cbn in Hnd. apply NoDup_cons in Hnd as [Hnx Hnd].
  constructor; [by apply IH|]. rewrite Forall_forall in Hx |- *. intros y Hy. specialize (Hx y Hy).
  unfold key_ltb. destruct (key_leb y.1 x.1) eqn:E; [|done]. exfalso. apply Hnx.
  assert (x.1 = y.1) as ->; [|by apply list_elem_of_fmap_2].
  apply release_key_tuple_inj. by apply (leb_antisym (leb := leb)).
Qed.

Lemma StronglySorted_app_2 {A} (R : A → A → Prop) l1 l2 :
  StronglySorted R l1 → StronglySorted R l2 → (∀ x y, x ∈ l1 → y ∈ l2 → R x y) →
  StronglySorted R (l1 ++ l2).
Proof.
  intros H1 H2 H. induction H1 as [|x l1 H1 IH Hx]; [done|]. cbn. constructor.
  - apply IH. intros y z Hy. apply H. by right.
  - apply Forall_app. split; [done|]. apply Forall_forall. intros y. apply H. by left.
Qed.

Section run.
Context (capacity max_per_session : Z).
Notation inv s now := (ingress_inv s capacity max_per_session now).

Lemma release_inv s now now' :
  inv s now → 0 ≤ ir_last_release s → now ≤ now' → capacity ≤ int_max usize →
  inv (ingress_step s (EvRelease now')) now'.
Proof.
  intros [] Hlr Hn Hc. cbn [ingress_step]. unfold release_ingress.
  pose proof (drain_inv (ingress_now_us now') _ _ _ gi_buffer0 Hc) as Hb.
  destruct (drain_result (ingress_now_us now') (ic_buffer (ir_channel s))) as [Hp Hd].
  destruct (drain_below (ingress_now_us now') (ic_buffer (ir_channel s))) as [b due].
  cbn in Hp, Hd, Hb. subst due. set (us := ingress_now_us now') in *.
  set (m := ib_pending (ic_buffer (ir_channel s))) in *.
  assert (∀ k x, m !! k = Some x → 0 ≤ rk_arrival_sequence k) as Harr.
  { intros k x Hk. assert ((k, x) ∈ (ir_accepted s).*2) as Hin.
    { rewrite gi_accepted0. apply elem_of_app. right. by apply elem_of_map_to_list. }
    apply list_elem_of_fmap in Hin as (e & E & He). specialize (gi_fresh0 e He).
    rewrite <-E in gi_fresh0. cbn in gi_fresh0. lia. }
  assert (∀ e, e ∈ in_key_order (due_now us m) → m !! e.1 = Some e.2 ∧ rk_deadline_us e.1 < us) as Hdue.
  { intros [k x] He. rewrite in_key_order_perm in He. apply elem_of_map_to_list in He.
    apply map_lookup_filter_Some in He as [Hk Hlt]. cbn in *. split; [done|].
    apply boundary_spec in Hlt; [done|by eapply Harr]. }
  split; cbn; try done.
  - rewrite gi_accepted0, Hp, <-(assoc_L (++)). apply Permutation_app_head.
    rewrite in_key_order_perm, not_due_difference.
    rewrite <-(map_difference_union (due_now us m) m) at 1 by apply map_filter_subseteq.
    rewrite map_to_list_union by by apply map_disjoint_difference_r1. done.
  - apply StronglySorted_app_2; [done|apply in_key_order_sorted|].
    intros x y Hx Hy. apply key_ltb_deadline. apply Hdue in Hy as [Hy _].
    specialize (gi_released0 x Hx). specialize (gi_pending0 _ _ Hy). lia.
  - intros e [He|He]%elem_of_app; [|by apply Hdue].
    specialize (gi_released0 e He).
    pose proof (ingress_now_us_mono (ir_last_release s) now' Hlr ltac:(lia)). lia.
  - intros k x Hk. rewrite Hp in Hk. apply map_lookup_filter_Some in Hk as [Hk Hlt]. cbn in Hlt.
    destruct (Z.lt_ge_cases (rk_deadline_us k) us) as [Hl|]; [|done].
    apply boundary_spec in Hl; [|by eapply Harr]. fold (boundary us) in Hl. congruence.
Qed.

Lemma admit_inv s now now' offset stamp command reply :
  inv s now → 0 ≤ ir_last_release s → now ≤ now' → 0 ≤ offset →
  max_per_session ≤ capacity → capacity < int_max usize →
  inv (ingress_step s (EvAdmit now' offset stamp command reply)) now'.
Proof.
  intros I Hlr Hn Ho Hm Hc. assert (inv s now') as I' by (destruct I; split; try done; lia).
  cbn [ingress_step]. unfold admit_ingress.
  destruct (release_deadline_us now' offset) as [d|] eqn:Hd; [|by destruct s].
  pose proof (gi_now _ _ _ _ I).
  apply release_deadline_bounds in Hd as [Hd1 Hd2]; [|lia|done].
  unfold next_counter.
  destruct (checked_add u64 (ic_arrival_counter (ir_channel s)) 1) as [n|] eqn:Hcnt; [|by destruct s].
  apply narrow_Some in Hcnt as [-> _].
  set (key := {| rk_deadline_us := d |}).
  destruct I' as [J1 J2 J3 J4 J5 J6 J7 J8 J9].
  assert (ib_pending (ic_buffer (ir_channel s)) !! key = None) as Hnew.
  { destruct (_ !! key) as [x|] eqn:Hk; [|done]. exfalso.
    assert ((key, x) ∈ (ir_accepted s).*2) as Hin.
    { rewrite J3. apply elem_of_app. right. by apply elem_of_map_to_list. }
    apply list_elem_of_fmap in Hin as (e & E & He). specialize (J4 e He).
    rewrite <-E in J4. cbn in J4. lia. }
  pose proof (insert_inv key (command, reply) _ _ _ J1 Hm Hc) as Hb.
  unfold ib_insert in *. rewrite (bool_decide_true _ Hnew) in *. cbn [andb] in *.
  destruct (ib_capacity _ <=? _); [|destruct (ib_max_per_session _ <=? _)]; cbn [fst] in Hb.
  1,2: split; cbn; try done; [lia|]; intros e He; specialize (J4 e He); lia.
  split; cbn; try done.
  - lia.
  - rewrite fmap_app, J3. cbn. rewrite map_to_list_insert by done.
    rewrite <-(assoc_L (++)), <-Permutation_cons_append. done.
  - intros e [He|He]%elem_of_app; [specialize (J4 e He); lia|].
    apply list_elem_of_singleton in He as ->. cbn. lia.
  - intros e [He|He]%elem_of_app; [by apply J5|].
    apply list_elem_of_singleton in He as ->. cbn. lia.
  - intros k x [[<- _]|[_ Hk]]%lookup_insert_Some; [|by eapply J8].
    cbn. pose proof (ingress_now_us_mono (ir_last_release s) now' Hlr ltac:(lia)). lia.
Qed.

Lemma other_inv s now now' :
  inv s now → now ≤ now' → inv (ingress_step s (EvOther now')) now'.
Proof.
  intros [] Hn. cbn [ingress_step]. unfold next_counter.
  destruct (checked_add u64 (ic_arrival_counter (ir_channel s)) 1) as [n|] eqn:Hc.
  - apply narrow_Some in Hc as [-> _]. split; cbn; try done; [lia| |lia].
    intros e He. specialize (gi_fresh0 e He). lia.
  - split; cbn; try done. lia.
Qed.

Definition offset_ok (e : IngressEvent) : Prop :=
  match e with EvAdmit _ offset _ _ _ => 0 ≤ offset | _ => True end.

Lemma ingress_steps_inv s now es :
  max_per_session ≤ capacity → capacity < int_max usize →
  inv s now → 0 ≤ ir_last_release s → StronglySorted Z.le (now :: (event_now <$> es)) →
  Forall offset_ok es →
  ∃ now', inv (foldl ingress_step s es) now'.
Proof.
  intros Hm Hc. revert s now. induction es as [|e es IH]; intros s now I Hlr Hs Ho; [by exists now|].
  apply StronglySorted_inv in Hs as [Hs Hle]. apply Forall_cons in Hle as [Hle _].
  apply Forall_cons in Ho as [Ho Hos]. pose proof (gi_now _ _ _ _ I) as Hnow.
  apply (IH _ (event_now e)); [| |done|done]; destruct e as [t off st c r|t|t]; cbn [event_now] in *.
  - by apply (admit_inv _ now).
  - by apply (other_inv _ now).
  - apply (release_inv _ now); try done. lia.
  - cbn. by destruct (admit_ingress t off st c r (ir_channel s)).
  - done.
  - cbn. unfold release_ingress.
    destruct (drain_below (ingress_now_us t) (ic_buffer (ir_channel s))). cbn. lia.
Qed.
End run.


(** ** A concrete run *)

(** A slow order, overtaken by a later one of another session; the quota of a session
    refuses its third order. *)
Definition sample_cancel (id : string) : VenueCommand := CancelOrder "BTC-20251226-100000-C" id "a".
Definition sample_ingress : list IngressEvent :=
  [EvAdmit 1 5000 {| is_session_id := "slow"; is_msg_seq := 1 |} (sample_cancel "o1") 1;
   EvOther 1; EvAdmit 2 0 {| is_session_id := "fast"; is_msg_seq := 1 |} (sample_cancel "o2") 2;
   EvRelease 3;
   EvAdmit 4 900 {| is_session_id := "slow"; is_msg_seq := 2 |} (sample_cancel "o3") 3;
   EvAdmit 4 0 {| is_session_id := "slow"; is_msg_seq := 3 |} (sample_cancel "o4") 4;
   EvRelease 3600010].

