(* ===== verification/SimClock.v ===== *)
(** The venue clock ([src/src/simulation/clock.rs]): a virtual instant held in an atomic and
    only ever moved forward, by steps, by jumps or by tracking the wall.  Callers interleave
    at their atomic accesses. *)

From S2P Require Export Envelope Actor.

Definition DEFAULT_ACCEL_MULTIPLIER : Z := 60.
Definition DEFAULT_STEP_INTERVAL_MS : Z := 60000.
Definition DEFAULT_CLOCK_START_MS : Z := 1735689600000.

Inductive ClockMode :=
  | Realtime
  | Accelerated (multiplier : Z)
  | Stepped (step_ms : Z).

Definition as_token (m : ClockMode) : string :=
  match m with
  | Realtime => "realtime" | Accelerated _ => "accelerated" | Stepped _ => "stepped"
  end.

Record VenueClockConfig := { cc_mode : ClockMode; cc_start_ms : Z }.

Definition VenueClockConfig_default : VenueClockConfig :=
  {| cc_mode := Realtime; cc_start_ms := DEFAULT_CLOCK_START_MS |}.

Definition normalise_mode (m : ClockMode) : ClockMode :=
  match m with
  | Realtime => Realtime
  | Accelerated multiplier => Accelerated (Z.max multiplier 1)
  | Stepped step_ms => Stepped (Z.max step_ms 1)
  end.

Record SimClock := {
  sc_mode : ClockMode; sc_start_ms : Z; sc_current_ms : Z; sc_wall_anchor_ms : Z }.

Definition SimClock_new (config : VenueClockConfig) : SimClock :=
  {| sc_mode := normalise_mode (cc_mode config); sc_start_ms := cc_start_ms config;
     sc_current_ms := cc_start_ms config; sc_wall_anchor_ms := 0 |}.

Definition with_current (now : Z) (c : SimClock) : SimClock :=
  {| sc_mode := sc_mode c; sc_start_ms := sc_start_ms c; sc_current_ms := now;
     sc_wall_anchor_ms := sc_wall_anchor_ms c |}.
Definition with_anchor (anchor : Z) (c : SimClock) : SimClock :=
  {| sc_mode := sc_mode c; sc_start_ms := sc_start_ms c; sc_current_ms := sc_current_ms c;
     sc_wall_anchor_ms := anchor |}.

(** [now_ms], the seam of the actors and of the rate limiter. *)
#[export] Instance SimClock_clock : VenueClock SimClock := λ c, (sc_current_ms c, c).

(** ** One call at a time *)

Definition advance_to (target_ms : Z) (c : SimClock) : SimClock * Z :=
  if target_ms <=? sc_current_ms c then (c, sc_current_ms c)
  else (with_current target_ms c, target_ms).

Definition step_target (step_ms current : Z) : Z :=
  default (int_max u64) (checked_add u64 current step_ms).

Definition step (c : SimClock) : SimClock * Z :=
  match sc_mode c with
  | Stepped step_ms => advance_to (step_target step_ms (sc_current_ms c)) c
  | Realtime | Accelerated _ => (c, sc_current_ms c)
  end.

Definition wall_anchor (wall_now_ms : Z) (c : SimClock) : SimClock * Z :=
  if negb (sc_wall_anchor_ms c =? 0) then (c, sc_wall_anchor_ms c)
  else let anchor := Z.max wall_now_ms 1 in (with_anchor anchor c, anchor).

Definition mode_multiplier (m : ClockMode) : option Z :=
  match m with
  | Realtime => Some 1
  | Accelerated multiplier => Some multiplier
  | Stepped _ => None
  end.

Definition wall_target (start_ms multiplier anchor wall_now_ms : Z) : Z :=
  let wall_elapsed := default 0 (checked_sub u64 wall_now_ms anchor) in
  let virtual_elapsed := default (int_max u64) (checked_mul u64 wall_elapsed multiplier) in
  default (int_max u64) (checked_add u64 start_ms virtual_elapsed).

Definition track_wall (wall_now_ms : Z) (c : SimClock) : SimClock * Z :=
  match mode_multiplier (sc_mode c) with
  | None => (c, sc_current_ms c)
  | Some multiplier =>
      let '(c, anchor) := wall_anchor wall_now_ms c in
      advance_to (wall_target (sc_start_ms c) multiplier anchor wall_now_ms) c
  end.

(** ** Interleaved calls

    A caller of [advance_to] loads the instant and retries its compare-exchange until it
    wins or the instant is already past; [step] loads once more before it. *)

Inductive ClockOp := OpAdvanceTo (target_ms : Z) | OpStep | OpTrackWall (wall_now_ms : Z).

Inductive Caller :=
  | Calling (op : ClockOp)
  | Entering (target_ms : Z)
  | Looping (target_ms observed : Z)
  (** Returned [result]; a call that had no target has [None]. *)
  | Returned (target_ms : option Z) (result : Z).

(** The moves of one caller; the weak compare-exchange may fail for no reason. *)
Inductive caller_step : SimClock → Caller → SimClock → Caller → Prop :=
  | call_advance c t : caller_step c (Calling (OpAdvanceTo t)) c (Entering t)
  | call_step c step_ms :
      sc_mode c = Stepped step_ms →
      caller_step c (Calling OpStep) c (Entering (step_target step_ms (sc_current_ms c)))
  | call_step_read c :
      (∀ step_ms, sc_mode c ≠ Stepped step_ms) →
      caller_step c (Calling OpStep) c (Returned None (sc_current_ms c))
  | call_track c multiplier wall c' anchor :
      mode_multiplier (sc_mode c) = Some multiplier → wall_anchor wall c = (c', anchor) →
      caller_step c (Calling (OpTrackWall wall)) c'
        (Entering (wall_target (sc_start_ms c) multiplier anchor wall))
  | call_track_read c wall :
      mode_multiplier (sc_mode c) = None →
      caller_step c (Calling (OpTrackWall wall)) c (Returned None (sc_current_ms c))
  | enter c t : caller_step c (Entering t) c (Looping t (sc_current_ms c))
  | loop_past c t observed :
      t ≤ observed → caller_step c (Looping t observed) c (Returned (Some t) observed)
  | loop_win c t :
      sc_current_ms c < t →
      caller_step c (Looping t (sc_current_ms c)) (with_current t c) (Returned (Some t) t)
  | loop_retry c t observed :
      observed < t → caller_step c (Looping t observed) c (Looping t (sc_current_ms c)).

Inductive clock_step : SimClock * list Caller → SimClock * list Caller → Prop :=
  | clock_step_caller c c' calls i x x' :
      calls !! i = Some x → caller_step c x c' x' →
      clock_step (c, calls) (c', <[i := x']> calls).

(** * Theorems *)

(** What a caller has seen of the clock is not ahead of it. *)
Definition caller_ok (c : SimClock) (x : Caller) : Prop :=
  match x with
  | Looping _ observed => observed ≤ sc_current_ms c
  | Returned (Some t) result => t ≤ result ≤ sc_current_ms c
  | Returned None result => result ≤ sc_current_ms c
  | _ => True
  end.

Lemma caller_step_mono c x c' x' :
  caller_step c x c' x' → caller_ok c x →
  sc_current_ms c ≤ sc_current_ms c' ∧ caller_ok c' x' ∧
  (sc_current_ms c' = sc_current_ms c ∨ x' = Returned (Some (sc_current_ms c')) (sc_current_ms c')).
Proof.
  intros Hs Hok. destruct Hs as [| | |c m wall c' anchor Hm Ha| | | | |]; cbn in *;
    try (split_and!; first [lia|by left|by right|done]).
  unfold wall_anchor in Ha. case_match; simplify_eq/=; split_and!; first [lia|by left|done].
Qed.

Lemma clock_steps_mono c calls c' calls' :
  rtc clock_step (c, calls) (c', calls') → Forall (caller_ok c) calls →
  sc_current_ms c ≤ sc_current_ms c' ∧ Forall (caller_ok c') calls' ∧
  length calls' = length calls ∧
  (sc_current_ms c' = sc_current_ms c ∨
   ∃ i, calls' !! i = Some (Returned (Some (sc_current_ms c')) (sc_current_ms c'))) ∧
  (∀ i t r, calls !! i = Some (Returned t r) → calls' !! i = Some (Returned t r)).
Proof.
  enough (∀ s s', rtc clock_step s s' → Forall (caller_ok s.1) s.2 →
    sc_current_ms s.1 ≤ sc_current_ms s'.1 ∧ Forall (caller_ok s'.1) s'.2 ∧
    length s'.2 = length s.2 ∧
    (sc_current_ms s'.1 = sc_current_ms s.1 ∨
     ∃ i, s'.2 !! i = Some (Returned (Some (sc_current_ms s'.1)) (sc_current_ms s'.1))) ∧
    (∀ i t r, s.2 !! i = Some (Returned t r) → s'.2 !! i = Some (Returned t r))) as Hall
    by exact (Hall (c, calls) (c', calls')).
  clear c calls c' calls'. intros s s' Hr.
  induction Hr as [s|s1 s2 s3 Hs _ IH]; intros Hok.
  - split_and!; [lia|done|done|by left|done].
  - destruct Hs as [c c2 calls i x x' Hx Hs]. cbn [fst snd] in *.
    destruct (caller_step_mono _ _ _ _ Hs) as (Hle & Hx' & Hlast).
    { by eapply Forall_lookup_1 in Hok. }
    assert (Forall (caller_ok c2) (<[i := x']> calls)) as Hok2.
    { apply Forall_insert; [|done]. eapply Forall_impl; [exact Hok|].
      intros [| | |[t|] r]; cbn; lia. }
    destruct (IH Hok2) as (Hle2 & Hok3 & Hlen & Hlast2 & Hret).
    rewrite length_insert in Hlen. split_and!; [lia|done|done| |].
    + destruct Hlast2 as [E|(j & Hj)]; [|right; by exists j].
      rewrite E. destruct Hlast as [->|Hxr]; [by left|]. right. exists i. apply Hret.
      rewrite Hxr. rewrite list_lookup_insert_eq; [done|]. by eapply lookup_lt_Some.
    + intros j t r Hj. apply Hret. destruct (decide (j = i)) as [->|Hne].
      * rewrite Hx in Hj. injection Hj as ->. by inversion Hs.
      * by rewrite list_lookup_insert_ne.
Qed.

(** The venue clock never goes back, whoever advances it.  Whatever the interleaving
    of concurrent advances, steps and wall readings: the instant never decreases; every
    call returns an instant at or past its target that the clock has reached; and the
    clock is never moved except to the target of a call that has returned it — so once
    all calls have returned it stands at the furthest of their targets, or where it was. *)
Theorem clock_never_goes_back config ops c calls :
  rtc clock_step (SimClock_new config, Calling <$> ops) (c, calls) →
  cc_start_ms config ≤ sc_current_ms c ∧
  (∀ c' calls', rtc clock_step (c, calls) (c', calls') → sc_current_ms c ≤ sc_current_ms c') ∧
  (∀ i t r, calls !! i = Some (Returned (Some t) r) → t ≤ r ≤ sc_current_ms c) ∧
  (sc_current_ms c = cc_start_ms config ∨
   ∃ i, calls !! i = Some (Returned (Some (sc_current_ms c)) (sc_current_ms c))).
Proof.
  intros Hr. destruct (clock_steps_mono _ _ _ _ Hr) as (Hle & Hok & _ & Hlast & _).
  { apply Forall_fmap, Forall_forall. done. }
  split_and!; [done| | |done].
  - intros c' calls' Hr'. by destruct (clock_steps_mono _ _ _ _ Hr' Hok).
  - intros i t r Hi. by eapply Forall_lookup_1 in Hok; [|exact Hi].
Qed.

(** One call at a time, a step moves the clock by exactly its interval. *)
Lemma step_exact c step_ms :
  sc_mode c = Stepped step_ms → 1 ≤ step_ms → 0 ≤ sc_current_ms c →
  sc_current_ms c + step_ms ≤ int_max u64 →
  step c = (with_current (sc_current_ms c + step_ms) c, sc_current_ms c + step_ms).
Proof.
  intros Hm Hs Hc Hb. unfold step, advance_to, step_target. rewrite Hm. unfold checked_add.
  rewrite narrow_fits by (unfold has_ty; cbn in *; lia). cbn [default]. unfold id.
  by destruct (Z.leb_spec (sc_current_ms c + step_ms) (sc_current_ms c)); [lia|].
Qed.

Lemma clock_step_to c c' calls calls' i x x' :
  calls !! i = Some x → caller_step c x c' x' → <[i := x']> calls = calls' →
  clock_step (c, calls) (c', calls').
Proof. intros Hx Hs <-. by eapply clock_step_caller. Qed.

(** Caller [i] makes the move [m]. *)
Tactic Notation "call" constr(i) uconstr(m) :=
  eapply (clock_step_to _ _ _ _ i); [reflexivity|by apply m|reflexivity].

(** The calls of the interleaved system taken one after another are the sequential ones. *)
Lemma advance_to_run c t :
  ∃ r, rtc clock_step (c, [Calling (OpAdvanceTo t)]) ((advance_to t c).1, [Returned (Some t) r]) ∧
    r = (advance_to t c).2.
Proof.
  unfold advance_to. exists (if t <=? sc_current_ms c then sc_current_ms c else t).
  split; [|by case_match].
  eapply rtc_l; [call 0%nat call_advance|].
  eapply rtc_l; [call 0%nat enter|].
  apply rtc_once. destruct (Z.leb_spec t (sc_current_ms c)).
  - call 0%nat loop_past.
  - call 0%nat loop_win.
Qed.

(** Two concurrent steps can move the clock by one interval only: both take the same
    target before either wins. *)
Example concurrent_steps_collapse :
  rtc clock_step
    (SimClock_new {| cc_mode := Stepped 10; cc_start_ms := 100 |}, [Calling OpStep; Calling OpStep])
    (with_current 110 (SimClock_new {| cc_mode := Stepped 10; cc_start_ms := 100 |}),
     [Returned (Some 110) 110; Returned (Some 110) 110]).
Proof.
  eapply rtc_l; [call 0%nat (call_step _ 10)|].
  eapply rtc_l; [call 1%nat (call_step _ 10)|].
  eapply rtc_l; [call 0%nat enter|].
  eapply rtc_l; [call 0%nat (loop_win _ 110)|].
  eapply rtc_l; [call 1%nat enter|].
  apply rtc_once. call 1%nat (loop_past _ 110 110).
Qed.

Lemma clock_never_goes_back_witness :
  ∃ c calls,
    rtc clock_step
      (SimClock_new {| cc_mode := Stepped 10; cc_start_ms := 100 |},
       Calling <$> [OpStep; OpStep]) (c, calls) ∧
    100 ≤ sc_current_ms c ∧ sc_current_ms c = 110 ∧
    (∀ i t r, calls !! i = Some (Returned (Some t) r) → t ≤ r ≤ sc_current_ms c).
Proof.
  eexists _, _. split; [exact concurrent_steps_collapse|].
  destruct (clock_never_goes_back _ [OpStep; OpStep] _ _ concurrent_steps_collapse)
    as (Hs & _ & Ht & _).
  split_and!; [exact Hs|done|exact Ht].
Defined.
