(* ===== verification/Expiry.v ===== *)
(** The expiry schedule ([src/src/simulation/expiry.rs]): the operational instants of an
    expiration, its phase at a venue instant, and the commands of a phase change. *)

From S2P Require Export Envelope.

Definition MS_PER_DAY : Z := 86400000.
Definition DEFAULT_EXPIRY_OFFSET_MS : Z := 8 * 3600000.
Definition DEFAULT_SETTLEMENT_OFFSET_MS : Z := 8 * 3600000 + 30 * 60000.
Definition EXPIRY_ROLL_ACCOUNT : AccountId := "venue-expiry-scheduler".

Inductive ExpiryScheduleError :=
  | OffsetOutOfDay (offset_ms : Z)
  | SettlementBeforeExpiry (expiry_ms settlement_ms : Z).

Inductive ExpiryPhase := PhPreExpiry | PhSettling | PhExpired.
#[export] Instance ExpiryPhase_eq_dec : EqDecision ExpiryPhase. Proof. solve_decision. Defined.

(** The derived order, by discriminant. *)
Definition phase_rank (p : ExpiryPhase) : Z :=
  match p with PhPreExpiry => 0 | PhSettling => 1 | PhExpired => 2 end.
Definition phase_leb (a b : ExpiryPhase) : bool := phase_rank a <=? phase_rank b.

Record ExpirySchedule := { expiry_offset_ms : Z; settlement_offset_ms : Z }.

Definition ExpirySchedule_default : ExpirySchedule :=
  {| expiry_offset_ms := DEFAULT_EXPIRY_OFFSET_MS;
     settlement_offset_ms := DEFAULT_SETTLEMENT_OFFSET_MS |}.

Definition in_day (offset : Z) : bool := (0 <=? offset) && (offset <? MS_PER_DAY).

Definition ExpirySchedule_new (expiry settlement : Z) :
    result ExpiryScheduleError ExpirySchedule :=
  if negb (in_day expiry) then Err (OffsetOutOfDay expiry)
  else if negb (in_day settlement) then Err (OffsetOutOfDay settlement)
  else if settlement <? expiry then Err (SettlementBeforeExpiry expiry settlement)
  else Ok {| expiry_offset_ms := expiry; settlement_offset_ms := settlement |}.

(** [div_euclid] by a positive divisor. *)
Definition operational_instants (s : ExpirySchedule) (expiration : ExpirationDate) :
    option (Z * Z) :=
  match expiration with
  | DateTime expiration_ms =>
      let day_ms := expiration_ms / MS_PER_DAY * MS_PER_DAY in
      Some (day_ms + expiry_offset_ms s, day_ms + settlement_offset_ms s)
  | Days _ => None
  end.

Definition phase_at (s : ExpirySchedule) (expiration : ExpirationDate) (now_ms : Z) :
    option ExpiryPhase :=
  '(expiry_instant, settlement_instant) ← operational_instants s expiration;
  Some (if settlement_instant <=? now_ms then PhExpired
        else if expiry_instant <=? now_ms then PhSettling else PhPreExpiry).

Definition set_statuses (symbols : list Symbol) (status : InstrumentStatus) : list VenueCommand :=
  (λ symbol, SetInstrumentStatus symbol status) <$> symbols.

Definition transition_commands (expiration : ExpirationDate) (symbols : list Symbol)
    (from to : ExpiryPhase) : list VenueCommand :=
  if phase_leb to from then []
  else
    (if negb (phase_leb PhSettling from) then
       MassCancel (ScopeExpiration expiration) CancelAll EXPIRY_ROLL_ACCOUNT
         :: set_statuses symbols Settling
     else []) ++
    (if phase_leb PhExpired to then set_statuses symbols Expired else []).

(** * Theorems *)

Lemma phase_leb_refl p : phase_leb p p = true.
Proof. by destruct p. Qed.

Lemma phase_leb_trans a b c : phase_leb a b = true → phase_leb b c = true → phase_leb a c = true.
Proof. unfold phase_leb. rewrite !Z.leb_le. lia. Qed.

Lemma phase_leb_antisym a b : phase_leb a b = true → phase_leb b a = true → a = b.
Proof. by destruct a, b. Qed.

Lemma phase_leb_total a b : phase_leb a b = true ∨ phase_leb b a = true.
Proof. destruct a, b; cbn; tauto. Qed.

(** An accepted schedule keeps both instants inside the expiration's own day, in order. *)
Lemma schedule_instants expiry settlement s expiration_ms :
  ExpirySchedule_new expiry settlement = Ok s →
  ∃ e m, operational_instants s (DateTime expiration_ms) = Some (e, m) ∧ e ≤ m ∧
    e / MS_PER_DAY = expiration_ms / MS_PER_DAY ∧ m / MS_PER_DAY = expiration_ms / MS_PER_DAY.
Proof.
  unfold ExpirySchedule_new, in_day.
  destruct (Z.leb_spec 0 expiry), (Z.ltb_spec expiry MS_PER_DAY),
    (Z.leb_spec 0 settlement), (Z.ltb_spec settlement MS_PER_DAY); cbn [negb andb]; try done.
  destruct (Z.ltb_spec settlement expiry); [done|]. intros [= <-]. cbn.
  eexists _, _. split; [done|]. split; [lia|]. unfold MS_PER_DAY in *.
  split; rewrite Z.add_comm, Z.div_add by lia; rewrite Z.div_small; lia.
Qed.

(** The phase only moves forward with the instant. *)
Lemma phase_at_mono s expiration a b p q :
  expiry_offset_ms s ≤ settlement_offset_ms s → a ≤ b →
  phase_at s expiration a = Some p → phase_at s expiration b = Some q → phase_leb p q = true.
Proof.
  intros Hs Hab. unfold phase_at. destruct expiration as [|ms]; cbn; [done|].
  intros [= <-] [= <-].
  set (d := ms / MS_PER_DAY * MS_PER_DAY).
  destruct (Z.leb_spec (d + settlement_offset_ms s) a),
    (Z.leb_spec (d + expiry_offset_ms s) a),
    (Z.leb_spec (d + settlement_offset_ms s) b),
    (Z.leb_spec (d + expiry_offset_ms s) b); try done; lia.
Qed.

(** Changing phase in two steps issues the commands of the direct change. *)
Lemma transition_compose expiration symbols a b c :
  phase_leb a b = true → phase_leb b c = true →
  transition_commands expiration symbols a c =
    transition_commands expiration symbols a b ++ transition_commands expiration symbols b c.
Proof. destruct a, b, c; cbn; try done; intros _ _; by rewrite ?app_nil_r. Qed.
