(* ===== verification/Venue.v ===== *)
(** The venue over its actors ([src/src/state.rs]): routing of a command to the actor of its
    underlying, the fan-outs (venue-global commands, mass cancels, clock advances), the
    ingress of client orders through the reorder buffers, and the expiry roll.  One call at
    a time: the calls of other tasks in between are not part of this model.

    The actors of the venue share stores, index and clock: [ActorService] is what the venue
    uses of them, over a shared state [S]. *)

From stdpp Require Export gmap.
From S2P Require Export Recovery Ingress SimClock Expiry.

(** [ActorHandle::submit] and the wait for its receipt. *)
Class ActorService (S A : Type) :=
  actor_submit : SimClock → S → A → VenueCommand → S * A * result VenueError Receipt.

(** A fan-out is the actor's own, over projections all actors write: [P] is what is behind
    the shared references. *)
Class SharedProjection (F P : Type) := {
  projection_load : P → F → F;
  projection_store : F → P;
}.

Record StoreProjections `{MarkPriceCalculator} := {
  sp_executions : InMemoryExecutionsStore;
  sp_positions : InMemoryPositionsStore;
  sp_marks : gmap string Calculator;
}.

#[export] Instance StoreFanOut_projection `{MarkPriceCalculator} :
  SharedProjection StoreFanOut StoreProjections := {|
  projection_load p f :=
    {| executions := sp_executions p; positions := sp_positions p; marks := sp_marks p;
       sealed := sealed f |};
  projection_store f :=
    {| sp_executions := executions f; sp_positions := positions f; sp_marks := marks f |};
|}.

#[export] Instance TeeFanOut_projection `{SharedProjection A P, SharedProjection B Q} :
  SharedProjection (TeeFanOut A B) (P * Q) := {|
  projection_load p f :=
    {| tee_first := projection_load p.1 (tee_first f);
       tee_second := projection_load p.2 (tee_second f) |};
  projection_store f := (projection_store (tee_first f), projection_store (tee_second f));
|}.

(** What the actors of a venue hold in common: each turn reads and writes the one copy. *)
Record SharedState (P : Type) := {
  sh_projections : P; sh_clordid_index : option ClOrdIdIndex }.
Arguments sh_projections {P}. Arguments sh_clordid_index {P}.

Definition share_in `{SharedProjection F P} {J E} (clock : SimClock) (shared : SharedState P)
    (a : UnderlyingActor J E F SimClock) : UnderlyingActor J E F SimClock :=
  with_clordid_index
    (with_fan_out (with_clock a clock)
       (projection_load (sh_projections shared) (act_fan_out a)))
    (sh_clordid_index shared).
Definition share_out `{SharedProjection F P} {J E} (a : UnderlyingActor J E F SimClock) :
    SharedState P :=
  {| sh_projections := projection_store (act_fan_out a);
     sh_clordid_index := act_clordid_index a |}.

#[export] Instance UnderlyingActor_service
    `{VenueJournal J, CommandExecutor E, FanOut F, SharedProjection F P} :
    ActorService (SharedState P) (UnderlyingActor J E F SimClock) :=
  λ clock shared a command,
    let '(a, r) := handle (share_in clock shared a) command in (share_out a, a, r).

(** A virtual instant fanned to every actor, and a phase change of the venue. *)
Record ClockAdvance := {
  ca_now_ms : EventTimestamp;
  ca_correlation_id : Z;
  ca_per_underlying : list (string * result VenueError Receipt);
}.

Definition committed_count (a : ClockAdvance) : nat :=
  length (filter (λ e, is_ok e.2 = true) (ca_per_underlying a)).
Definition is_partial (a : ClockAdvance) : bool :=
  negb (committed_count a =? 0)%nat &&
  negb (committed_count a =? length (ca_per_underlying a))%nat.

Record ExpiryRollReport := { rr_settling : Z; rr_expired : Z; rr_commands_issued : Z }.
Definition ExpiryRollReport_default : ExpiryRollReport :=
  {| rr_settling := 0; rr_expired := 0; rr_commands_issued := 0 |}.
Record ExpiryRollFailure := {
  rf_underlying : string; rf_expiration_ms : Z; rf_attempted_phase : ExpiryPhase;
  rf_reason : string }.
Inductive ExpiryRollError := RollPartial (report : ExpiryRollReport) (failures : list ExpiryRollFailure).

Record SweptLeg := { sl_leg : CancelledLeg; sl_sequence : SequenceNumber }.
Record MassCancelDelivery := { md_swept : list SweptLeg; md_fanout : FanoutSummary }.

Definition is_venue_global (c : VenueCommand) : bool :=
  match c with
  | MarketMakerControl _ _ _ _ | EvictExpiredOrders _ => true
  | MassCancel scope _ _ => match scope with ScopeBook _ => false | _ => true end
  | _ => false
  end.

Definition swept_legs_of (r : Receipt) : list SweptLeg :=
  match receipt_outcome r with
  | Some (MassCancelled affected) =>
      (λ leg, {| sl_leg := leg; sl_sequence := receipt_sequence r |}) <$> affected
  | _ => []
  end.

Definition not_hosted (underlying : string) : VenueError :=
  VNotFound ("underlying '" +:+ underlying +:+ "' is not hosted by this venue").

Definition count_up (t : int_ty) (n : Z) : Z := default n (checked_add t n 1).

Definition string_bytes (s : string) : list Z :=
  (λ c, Z.of_N (Ascii.N_of_ascii c)) <$> String.list_ascii_of_string s.

Definition expiry_key_leb : string * Z → string * Z → bool := pair_leb String.leb Z.leb.
#[export] Instance expiry_key_total_leb : TotalLeb expiry_key_leb.
Proof. exact _. Qed.

Section venue.
Context {S A : Type} `{!ActorService S A, !Upstream}.
(** The draws of the latency model that go through floating point. *)
Context (float_draw : LatencyConfig → SplitMix64 → Z).

Record Venue := {
  v_underlyings : gmap string A;
  v_shared : S;
  v_clock : SimClock;
  v_seed : Z;
  v_microstructure : MicrostructureConfig;
  v_correlation_counter : Z;
  v_expiry_phases : gmap (string * Z) ExpiryPhase;
  v_ingress : gmap string (IngressReorderBuffer (VenueCommand * nat));
  v_arrival_counter : Z;
  v_rest_ingress_counter : Z;
  (** The receipts sent to the callers waiting at ingress, oldest first. *)
  v_replies : list (nat * result VenueError Receipt);
}.

Definition with_actors (m : gmap string A) (s : S) (v : Venue) : Venue :=
  {| v_underlyings := m; v_shared := s; v_clock := v_clock v; v_seed := v_seed v;
     v_microstructure := v_microstructure v; v_correlation_counter := v_correlation_counter v;
     v_expiry_phases := v_expiry_phases v; v_ingress := v_ingress v;
     v_arrival_counter := v_arrival_counter v;
     v_rest_ingress_counter := v_rest_ingress_counter v; v_replies := v_replies v |}.
Definition with_venue_clock (c : SimClock) (v : Venue) : Venue :=
  {| v_underlyings := v_underlyings v; v_shared := v_shared v; v_clock := c; v_seed := v_seed v;
     v_microstructure := v_microstructure v; v_correlation_counter := v_correlation_counter v;
     v_expiry_phases := v_expiry_phases v; v_ingress := v_ingress v;
     v_arrival_counter := v_arrival_counter v;
     v_rest_ingress_counter := v_rest_ingress_counter v; v_replies := v_replies v |}.
Definition with_correlation (n : Z) (v : Venue) : Venue :=
  {| v_underlyings := v_underlyings v; v_shared := v_shared v; v_clock := v_clock v;
     v_seed := v_seed v; v_microstructure := v_microstructure v; v_correlation_counter := n;
     v_expiry_phases := v_expiry_phases v; v_ingress := v_ingress v;
     v_arrival_counter := v_arrival_counter v;
     v_rest_ingress_counter := v_rest_ingress_counter v; v_replies := v_replies v |}.
Definition with_phases (m : gmap (string * Z) ExpiryPhase) (v : Venue) : Venue :=
  {| v_underlyings := v_underlyings v; v_shared := v_shared v; v_clock := v_clock v;
     v_seed := v_seed v; v_microstructure := v_microstructure v;
     v_correlation_counter := v_correlation_counter v; v_expiry_phases := m;
     v_ingress := v_ingress v; v_arrival_counter := v_arrival_counter v;
     v_rest_ingress_counter := v_rest_ingress_counter v; v_replies := v_replies v |}.
Definition with_channel (ticker : string) (c : IngressChannel) (v : Venue) : Venue :=
  {| v_underlyings := v_underlyings v; v_shared := v_shared v; v_clock := v_clock v;
     v_seed := v_seed v; v_microstructure := v_microstructure v;
     v_correlation_counter := v_correlation_counter v; v_expiry_phases := v_expiry_phases v;
     v_ingress := <[ticker := ic_buffer c]> (v_ingress v);
     v_arrival_counter := ic_arrival_counter c;
     v_rest_ingress_counter := v_rest_ingress_counter v; v_replies := v_replies v |}.
Definition with_rest_counter (n : Z) (v : Venue) : Venue :=
  {| v_underlyings := v_underlyings v; v_shared := v_shared v; v_clock := v_clock v;
     v_seed := v_seed v; v_microstructure := v_microstructure v;
     v_correlation_counter := v_correlation_counter v; v_expiry_phases := v_expiry_phases v;
     v_ingress := v_ingress v; v_arrival_counter := v_arrival_counter v;
     v_rest_ingress_counter := n; v_replies := v_replies v |}.
Definition send_reply (reply : nat) (r : result VenueError Receipt) (v : Venue) : Venue :=
  {| v_underlyings := v_underlyings v; v_shared := v_shared v; v_clock := v_clock v;
     v_seed := v_seed v; v_microstructure := v_microstructure v;
     v_correlation_counter := v_correlation_counter v; v_expiry_phases := v_expiry_phases v;
     v_ingress := v_ingress v; v_arrival_counter := v_arrival_counter v;
     v_rest_ingress_counter := v_rest_ingress_counter v; v_replies := v_replies v ++ [(reply, r)] |}.

Definition underlyings (v : Venue) : list string :=
  sort_by_key String.leb id (map_to_list (v_underlyings v)).*1.

(** [handle_for], and the submission on the handle it gives. *)
Definition handle_for (v : Venue) (underlying : string) : result VenueError A :=
  ok_or (not_hosted underlying) (v_underlyings v !! underlying).

Definition submit_to (underlying : string) (command : VenueCommand) (v : Venue) :
    Venue * result VenueError Receipt :=
  match handle_for v underlying with
  | Err e => (v, Err e)
  | Ok a =>
      let '(s, a, r) := actor_submit (v_clock v) (v_shared v) a command in
      (with_actors (<[underlying := a]> (v_underlyings v)) s v, r)
  end.

Definition next_correlation_id (v : Venue) : Venue * Z :=
  (with_correlation (wrapping u64 (v_correlation_counter v + 1)) v, v_correlation_counter v).

(** The underlying a command is routed to. *)
Definition route (command : VenueCommand) : result VenueError string :=
  let of_symbol symbol :=
    parsed ← map_err VInvalidOrder (parse_symbol symbol); Ok (ps_underlying parsed) in
  match command with
  | AddOrder symbol _ _ _ _ _ _ _ _ _ _ | CancelOrder symbol _ _
  | Replace symbol _ _ _ _ _ _ _ _ _ _ | SetInstrumentStatus symbol _
  | MassCancel (ScopeBook symbol) _ _ => of_symbol symbol
  | SimStep _ underlying _ _ _ => Ok underlying
  | MassCancel _ _ _ | EvictExpiredOrders _ | MarketMakerControl _ _ _ _ | Clock _ =>
      Err (VInvalidOrder
             "command carries no single routable underlying for the per-underlying submit path")
  end.

Definition admit_command_price (v : Venue) (command : VenueCommand) : result VenueError unit :=
  map_err (λ e, VInvalidOrder (admission_display e))
    (check_order_admission (v_microstructure v) command).

Fixpoint global_loop (command : VenueCommand) (tickers : list string) (v : Venue)
    (committed : option Receipt) (first_error : option VenueError) (ok_count : Z) :
    Venue * (option Receipt * option VenueError * Z) :=
  match tickers with
  | [] => (v, (committed, first_error, ok_count))
  | ticker :: tickers =>
      let '(v, result) := submit_to ticker command v in
      match result with
      | Ok receipt =>
          global_loop command tickers v (Some receipt) first_error (count_up usize ok_count)
      | Err error =>
          global_loop command tickers v committed
            (match first_error with None => Some error | Some e => Some e end) ok_count
      end
  end.

Definition submit_venue_global (command : VenueCommand) (v : Venue) :
    Venue * result VenueError Receipt :=
  let '(v, correlation_id) := next_correlation_id v in
  let tickers := underlyings v in
  match tickers with
  | [] => (v, Err (VNotFound "no hosted underlyings for a venue-global command"))
  | _ =>
      let '(v, (committed, first_error, n)) := global_loop command tickers v None None 0 in
      let summary := {| ok_count := n; fanout_total := Z.of_nat (length tickers) |} in
      (v, match committed, first_error with
          | Some receipt, _ => Ok (with_fanout receipt summary)
          | None, Some error => Err error
          | None, None => Err JournalUnavailable
          end)
  end.

Definition submit (command : VenueCommand) (v : Venue) : Venue * result VenueError Receipt :=
  match admit_command_price v command with
  | Err e => (v, Err e)
  | Ok _ =>
      if is_venue_global command then submit_venue_global command v
      else
        match route command with
        | Err e => (v, Err e)
        | Ok underlying => submit_to underlying command v
        end
  end.

Definition submit_set_instrument_status (symbol : Symbol) (status : InstrumentStatus) :
    Venue → Venue * result VenueError Receipt :=
  submit (SetInstrumentStatus symbol status).

Definition evict_expired_orders (now_ms : Z) : Venue → Venue * result VenueError Receipt :=
  submit (EvictExpiredOrders now_ms).

(** ** Mass cancels *)

Fixpoint mass_cancel_loop (command : VenueCommand) (tickers : list string) (v : Venue)
    (aggregated : list SweptLeg) (first_error : option VenueError) (ok_count : Z) :
    Venue * (list SweptLeg * option VenueError * Z) :=
  match tickers with
  | [] => (v, (aggregated, first_error, ok_count))
  | ticker :: tickers =>
      let '(v, result) := submit_to ticker command v in
      match result with
      | Ok receipt =>
          mass_cancel_loop command tickers v (aggregated ++ swept_legs_of receipt) first_error
            (count_up usize ok_count)
      | Err error =>
          mass_cancel_loop command tickers v aggregated
            (match first_error with None => Some error | Some e => Some e end) ok_count
      end
  end.

Definition submit_mass_cancel (command : VenueCommand) (v : Venue) :
    Venue * result VenueError MassCancelDelivery :=
  match command with
  | MassCancel _ _ _ =>
      if negb (is_venue_global command) then
        match route command with
        | Err e => (v, Err e)
        | Ok underlying =>
            let '(v, r) := submit_to underlying command v in
            (v, receipt ← r;
                Ok {| md_swept := swept_legs_of receipt;
                      md_fanout := {| ok_count := 1; fanout_total := 1 |} |})
        end
      else
        let '(v, correlation_id) := next_correlation_id v in
        let tickers := underlyings v in
        match tickers with
        | [] => (v, Err (VNotFound "no hosted underlyings for a venue-global mass cancel"))
        | _ =>
            let total := Z.of_nat (length tickers) in
            let '(v, (aggregated, first_error, n)) := mass_cancel_loop command tickers v [] None 0 in
            (v, if n =? 0 then Err (default JournalUnavailable first_error)
                else Ok {| md_swept := aggregated;
                           md_fanout := {| ok_count := n; fanout_total := total |} |})
        end
  | _ => (v, Err (VInvalidOrder "submit_mass_cancel requires a MassCancel command"))
  end.

(** ** Ingress *)

Definition bufferable_underlying (command : VenueCommand) : result VenueError string :=
  match command with
  | AddOrder symbol _ _ _ _ _ _ _ _ _ _ | CancelOrder symbol _ _
  | Replace symbol _ _ _ _ _ _ _ _ _ _ =>
      parsed ← map_err VInvalidOrder (parse_symbol symbol); Ok (ps_underlying parsed)
  | _ => Err (VInvalidOrder "command is not bufferable ingress")
  end.

Definition channel_of (v : Venue) (ticker : string) : option IngressChannel :=
  (λ b, {| ic_buffer := b; ic_arrival_counter := v_arrival_counter v |}) <$>
    v_ingress v !! ticker.

(** The rest of [release_ingress]: what is due goes to the actor, and its receipt to the
    waiting caller. *)
Definition forward_due (ticker : string) (v : Venue)
    (due : list (ReleaseKey * (VenueCommand * nat))) : Venue :=
  foldl (λ v e, let '(_, (command, reply)) := e in
                let '(v, receipt) := submit_to ticker command v in
                send_reply reply receipt v) v due.

Definition release_channel (ticker : string) (v : Venue) : Venue :=
  match channel_of v ticker with
  | None => v
  | Some channel =>
      let '(channel, due) := release_ingress (sc_current_ms (v_clock v)) channel in
      forward_due ticker (with_channel ticker channel v) due
  end.

Definition release_all_ingress (v : Venue) : Venue :=
  foldl (λ v ticker, release_channel ticker v) v (underlyings v).

(** The caller is answered at once on an error, and otherwise when its order is released. *)
Definition submit_reordered (command : VenueCommand) (stamp : IngressStamp) (reply : nat)
    (v : Venue) : Venue :=
  match
    (_ ← admit_command_price v command;
     underlying ← bufferable_underlying command;
     channel ← ok_or (not_hosted underlying) (channel_of v underlying);
     Ok (underlying, channel))
  with
  | Err e => send_reply reply (Err e) v
  | Ok (underlying, channel) =>
      let offset :=
        draw float_draw (latency (v_microstructure v)) (v_seed v)
          (string_bytes (is_session_id stamp)) (is_msg_seq stamp) in
      let '(channel, r) :=
        admit_ingress (sc_current_ms (v_clock v)) offset stamp command reply channel in
      let v := with_channel underlying channel v in
      match r with
      | Err e => send_reply reply (Err e) v
      | Ok _ => release_channel underlying v
      end
  end.

Definition submit_with_ingress (command : VenueCommand) (stamp : IngressStamp) (reply : nat)
    (v : Venue) : Venue :=
  if is_enabled (latency (v_microstructure v)) && is_bufferable_ingress command
  then submit_reordered command stamp reply v
  else let '(v, r) := submit command v in send_reply reply r v.

Definition next_rest_ingress_stamp (account : AccountId) (v : Venue) :
    Venue * result VenueError IngressStamp :=
  match next_counter (v_rest_ingress_counter v) with
  | Err e => (v, Err e)
  | Ok (msg_seq, next) =>
      (with_rest_counter next v, Ok {| is_session_id := account; is_msg_seq := msg_seq |})
  end.

(** ** The clock *)

Definition fan_clock (now_ms : Z) (v : Venue) : Venue * ClockAdvance :=
  let '(v, correlation_id) := next_correlation_id v in
  let '(v, per_underlying) :=
    foldl (λ acc ticker,
             let '(v, results) := acc in
             let '(v, r) := submit_to ticker (Clock now_ms) v in (v, results ++ [(ticker, r)]))
      (v, []) (underlyings v) in
  (v, {| ca_now_ms := now_ms; ca_correlation_id := correlation_id;
         ca_per_underlying := per_underlying |}).

Definition advance_clock_step (v : Venue) : Venue * ClockAdvance :=
  let '(clock, now_ms) := step (v_clock v) in
  let '(v, advance) := fan_clock now_ms (with_venue_clock clock v) in
  (release_all_ingress v, advance).

Definition advance_clock_to (target_ms : Z) (v : Venue) : Venue * ClockAdvance :=
  let '(clock, now_ms) := advance_to target_ms (v_clock v) in
  let '(v, advance) := fan_clock now_ms (with_venue_clock clock v) in
  (release_all_ingress v, advance).

(** ** The expiry roll *)

Notation group := ((string * Z) * (ExpirationDate * list Symbol))%type.

(** The symbols the index lists, grouped by underlying and instant. *)
Definition add_to_groups (groups : list group) (raw : string) : list group :=
  match parse_symbol raw with
  | Err _ => groups
  | Ok parsed =>
      match ps_expiration parsed with
      | Days _ => groups
      | DateTime key_ms =>
          match Symbol_parse raw with
          | Err _ => groups
          | Ok symbol =>
              let key := (ps_underlying parsed, key_ms) in
              let '(expiration, symbols) :=
                default (ps_expiration parsed, []) (bt_get key groups) in
              bt_insert expiry_key_leb key (expiration, symbols ++ [symbol]) groups
          end
      end
  end.

Definition expiry_groups (listed : list string) : list group := foldl add_to_groups [] listed.

(** Submits in order, stopping at the first rejection. *)
Fixpoint submit_until_rejected (commands : list VenueCommand) (v : Venue) (committed : Z) :
    Venue * (Z * option VenueError) :=
  match commands with
  | [] => (v, (committed, None))
  | command :: commands =>
      let '(v, r) := submit command v in
      match r with
      | Ok _ => submit_until_rejected commands v (count_up usize committed)
      | Err error => (v, (committed, Some error))
      end
  end.

Definition count_phase (target : ExpiryPhase) (report : ExpiryRollReport) : ExpiryRollReport :=
  match target with
  | PhSettling =>
      {| rr_settling := count_up usize (rr_settling report); rr_expired := rr_expired report;
         rr_commands_issued := rr_commands_issued report |}
  | PhExpired =>
      {| rr_settling := rr_settling report; rr_expired := count_up usize (rr_expired report);
         rr_commands_issued := rr_commands_issued report |}
  | PhPreExpiry => report
  end.
Definition count_commands (n : Z) (report : ExpiryRollReport) : ExpiryRollReport :=
  {| rr_settling := rr_settling report; rr_expired := rr_expired report;
     rr_commands_issued :=
       default (rr_commands_issued report) (checked_add usize (rr_commands_issued report) n) |}.

Definition last_phase (v : Venue) (key : string * Z) : ExpiryPhase :=
  default PhPreExpiry (v_expiry_phases v !! key).

Definition roll_group (schedule : ExpirySchedule) (now_ms : Z)
    (acc : Venue * (ExpiryRollReport * list ExpiryRollFailure)) (g : group) :
    Venue * (ExpiryRollReport * list ExpiryRollFailure) :=
  let '(v, (report, failures)) := acc in
  let '((underlying, key_ms), (expiration, symbols)) := g in
  match phase_at schedule expiration now_ms with
  | None => acc
  | Some target =>
      let symbols := sort_by_key String.leb id symbols in
      let last := last_phase v (underlying, key_ms) in
      if phase_leb target last then acc
      else
        let '(v, (committed, rejection)) :=
          submit_until_rejected (transition_commands expiration symbols last target) v 0 in
        let report := count_commands committed report in
        match rejection with
        | Some error =>
            (v, (report, failures ++
                   [{| rf_underlying := underlying; rf_expiration_ms := key_ms;
                       rf_attempted_phase := target; rf_reason := redacted_message error |}]))
        | None =>
            (with_phases (<[(underlying, key_ms) := target]> (v_expiry_phases v)) v,
             (count_phase target report, failures))
        end
  end.

Definition run_expiry_roll (schedule : ExpirySchedule) (now_ms : Z) (listed : list string)
    (v : Venue) : Venue * result ExpiryRollError ExpiryRollReport :=
  let '(v, (report, failures)) :=
    foldl (roll_group schedule now_ms) (v, (ExpiryRollReport_default, []))
      (expiry_groups listed) in
  (v, match failures with
      | [] => Ok report
      | _ => Err (RollPartial report failures)
      end).
End venue.

Arguments Venue : clear implicits.
