(* ===== verification/VenueProps.v ===== *)
(** What the venue does with a command: which actors see it and what the caller is told; and how
    an expiry roll moves the phases: only forward, to the phase of the instant, and a roll that
    reports success has nothing left to do. *)

From S2P Require Export Venue.

Section props.
Context {S A : Type} {AS : ActorService S A} {US : Upstream}.
Context (float_draw : LatencyConfig → SplitMix64 → Z).
Notation venue := (Venue S A).
Implicit Types v w : venue.

(** * Deliveries *)

(** One turn of one actor, at a reading of the clock. *)
Definition delivery : Type := SimClock * (string * VenueCommand).

Definition deliver (st : gmap string A * S) (d : delivery) : gmap string A * S :=
  let '(m, s) := st in
  let '(clock, (ticker, command)) := d in
  match m !! ticker with
  | None => (m, s)
  | Some a =>
      let '(s, a, _) := actor_submit clock s a command in (<[ticker := a]> m, s)
  end.

Definition actors v : gmap string A * S := (v_underlyings v, v_shared v).

Definition admissible (config : MicrostructureConfig) (c : VenueCommand) : Prop :=
  is_ok (check_order_admission config c) = true.

(** The actors that may see a command: its own underlying's, or all of them. *)
Definition addressed (ticker : string) (c : VenueCommand) : Prop :=
  route c = Ok ticker ∨ is_venue_global c = true ∨ ∃ now, c = Clock now.

Definition delivery_ok (hosted : gset string) (config : MicrostructureConfig) (d : delivery) :
    Prop :=
  d.2.1 ∈ hosted ∧ addressed d.2.1 d.2.2 ∧ admissible config d.2.2.

(** The waiting orders were admitted, and wait at the actor they are addressed to. *)
Record ingress_ok v : Prop := {
  io_hosted : dom (v_ingress v) ⊆ dom (v_underlyings v);
  io_pending : ∀ ticker b key command reply,
    v_ingress v !! ticker = Some b → ib_pending b !! key = Some (command, reply) →
    route command = Ok ticker ∧ admissible (v_microstructure v) command;
}.

(** [w] is [v] after the turns [log]. *)
Record reaches v (log : list delivery) w : Prop := {
  re_actors : actors w = foldl deliver (actors v) log;
  re_config : v_microstructure w = v_microstructure v;
  re_hosted : dom (v_underlyings w) = dom (v_underlyings v);
  re_log : Forall (delivery_ok (dom (v_underlyings v)) (v_microstructure v)) log;
  re_ingress : ingress_ok v → ingress_ok w;
}.

Lemma reaches_refl v : reaches v [] v.
Proof. by split. Qed.

Lemma reaches_trans v log w log' x :
  reaches v log w → reaches w log' x → reaches v (log ++ log') x.
Proof.
  intros [A1 C1 H1 L1 I1] [A2 C2 H2 L2 I2]. split.
  - by rewrite foldl_app, A2, A1.
  - by rewrite C2, C1.
  - by rewrite H2, H1.
  - rewrite C1, H1 in L2. by apply Forall_app.
  - auto.
Qed.

(** A change that leaves actors, shared state, configuration and buffers alone. *)
Lemma reaches_same v w :
  actors w = actors v → v_microstructure w = v_microstructure v → v_ingress w = v_ingress v →
  reaches v [] w.
Proof.
  intros E C I. injection E as Em Es. split; [by unfold actors; rewrite Em, Es|done|by rewrite Em|
    constructor|].
  intros [H1 H2]. split; [by rewrite I, Em|]. rewrite I, C. exact H2.
Qed.

Lemma submit_to_reaches ticker c v :
  addressed ticker c → admissible (v_microstructure v) c →
  ∃ log, reaches v log (submit_to ticker c v).1.
Proof.
  intros Haddr Hadm. unfold submit_to, handle_for.
  destruct (v_underlyings v !! ticker) as [a|] eqn:Ha; cbn; [|exists []; apply reaches_refl].
  destruct (actor_submit (v_clock v) (v_shared v) a c) as [[s a'] r] eqn:E.
  exists [(v_clock v, (ticker, c))].
  assert (ticker ∈ dom (v_underlyings v)) as Hin by (apply elem_of_dom; by eexists).
  split; cbn.
  - by rewrite Ha, E.
  - done.
  - rewrite dom_insert_L. set_solver.
  - apply Forall_singleton. by split_and!.
  - intros [H1 H2]. split; [|exact H2]. cbn. rewrite dom_insert_L. set_solver.
Qed.

Lemma admitted_clock config now : admissible config (Clock now).
Proof. done. Qed.

Lemma admitted_global config c : is_venue_global c = true → admissible config c.
Proof. by destruct c. Qed.

Lemma reaches_replies v r x : reaches v [] (send_reply r x v).
Proof. by apply reaches_same. Qed.

(** A loop of turns reaches what its steps reach. *)
Lemma foldl_reaches {X B} (proj : X → venue) (f : X → B → X) (l : list B) x :
  (∀ y b log, b ∈ l → reaches (proj x) log (proj y) →
     ∃ log', reaches (proj y) log' (proj (f y b))) →
  ∃ log, reaches (proj x) log (proj (foldl f x l)).
Proof.
  revert x. induction l as [|b l IH]; intros x Hf; cbn; [exists []; apply reaches_refl|].
  destruct (Hf x b [] ltac:(by left) (reaches_refl _)) as [l1 H1].
  destruct (IH (f x b)) as [l2 H2].
  { intros y b' log Hb' Hy. apply (Hf y b' (l1 ++ log)); [by right|by eapply reaches_trans]. }
  exists (l1 ++ l2). by eapply reaches_trans.
Qed.

Lemma next_correlation_reaches v : reaches v [] (next_correlation_id v).1.
Proof. by apply reaches_same. Qed.

Lemma reaches_after v log w x :
  reaches v log w → (∃ log', reaches w log' x) → ∃ log, reaches v log x.
Proof. intros H [log' H']. eexists. by eapply reaches_trans. Qed.

Lemma global_loop_reaches c tickers v committed first_error n :
  is_venue_global c = true →
  ∃ log, reaches v log (global_loop c tickers v committed first_error n).1.
Proof.
  intros Hg. revert v committed first_error n.
  induction tickers as [|t tickers IH]; intros v committed first_error n; cbn;
    [exists []; apply reaches_refl|].
  destruct (submit_to_reaches t c v) as [log Hlog];
    [by right; left|by apply admitted_global|].
  destruct (submit_to t c v) as [w [r|e]]; (eapply reaches_after; [exact Hlog|apply IH]).
Qed.

Lemma mass_cancel_loop_reaches c tickers v swept first_error n :
  is_venue_global c = true →
  ∃ log, reaches v log (mass_cancel_loop c tickers v swept first_error n).1.
Proof.
  intros Hg. revert v swept first_error n.
  induction tickers as [|t tickers IH]; intros v swept first_error n; cbn;
    [exists []; apply reaches_refl|].
  destruct (submit_to_reaches t c v) as [log Hlog];
    [by right; left|by apply admitted_global|].
  destruct (submit_to t c v) as [w [r|e]]; (eapply reaches_after; [exact Hlog|apply IH]).
Qed.

Lemma submit_reaches c v : ∃ log, reaches v log (submit c v).1.
Proof.
  unfold submit, admit_command_price.
  destruct (check_order_admission (v_microstructure v) c) as [[]|e] eqn:Hadm; cbn;
    [|exists []; apply reaches_refl].
  destruct (is_venue_global c) eqn:Hg.
  - unfold submit_venue_global. cbn [next_correlation_id].
    eapply reaches_after; [apply (next_correlation_reaches v)|]. cbn [next_correlation_id fst].
    set (w := with_correlation _ v). destruct (underlyings w) as [|t ts] eqn:Ht;
      [exists []; apply reaches_refl|]. rewrite <-Ht.
    pose proof (global_loop_reaches c (underlyings w) w None None 0 Hg) as Hl.
    by destruct (global_loop _ _ _ _ _ _) as [x [[committed first] n]].
  - destruct (route c) as [u|e] eqn:Hr; [|exists []; apply reaches_refl].
    apply submit_to_reaches; [by left|]. unfold admissible. by rewrite Hadm.
Qed.

Lemma submit_mass_cancel_reaches c v : ∃ log, reaches v log (submit_mass_cancel c v).1.
Proof.
  destruct c; try (exists []; apply reaches_refl). unfold submit_mass_cancel.
  destruct (is_venue_global _) eqn:Hg; cbn [negb].
  - cbn [next_correlation_id].
    eapply reaches_after; [apply (next_correlation_reaches v)|]. cbn [next_correlation_id fst].
    set (w := with_correlation _ v). destruct (underlyings w) as [|t ts] eqn:Ht;
      [exists []; apply reaches_refl|]. rewrite <-Ht.
    pose proof (mass_cancel_loop_reaches _ (underlyings w) w [] None 0 Hg) as Hl.
    by destruct (mass_cancel_loop _ _ _ _ _ _) as [x [[swept first] n]].
  - destruct (route _) as [u|e] eqn:Hr; [|exists []; apply reaches_refl].
    destruct (submit_to_reaches u _ v (or_introl Hr)) as [log Hl]; [done|].
    destruct (submit_to _ _ v) as [w r]. by exists log.
Qed.

Lemma fan_clock_reaches now v : ∃ log, reaches v log (fan_clock now v).1.
Proof.
  unfold fan_clock. cbn [next_correlation_id].
  eapply reaches_after; [apply (next_correlation_reaches v)|]. cbn [next_correlation_id fst].
  set (w := with_correlation _ v).
  pose proof (foldl_reaches fst
    (λ acc t, let '(v, rs) := acc in
       let '(v, r) := submit_to t (Clock now) v in (v, rs ++ [(t, r)])) (underlyings w) (w, []))
    as [log Hl].
  { intros [y rs] t log _ _. cbn.
    destruct (submit_to_reaches t (Clock now) y) as [log' Hl'];
      [by right; right; eexists|apply admitted_clock|].
    exists log'. by destruct (submit_to t (Clock now) y). }
  exists log. by destruct (foldl _ _ _).
Qed.

(** ** Ingress *)

Lemma with_channel_reaches ticker c v b0 :
  v_ingress v !! ticker = Some b0 →
  (∀ key command reply, ib_pending (ic_buffer c) !! key = Some (command, reply) →
     ingress_ok v → route command = Ok ticker ∧ admissible (v_microstructure v) command) →
  reaches v [] (with_channel ticker c v).
Proof.
  intros Hb Hc. split; [done|done|done|constructor|].
  intros Hok. destruct (Hok) as [H1 H2]. split; cbn.
  - rewrite dom_insert_L. apply elem_of_dom_2 in Hb. set_solver.
  - intros t b key command reply [[<- <-]|[Hne Ht]]%lookup_insert_Some.
    + intros Hk. by eapply Hc.
    + by apply H2.
Qed.

Lemma forward_due_reaches ticker due v :
  Forall (λ e, route e.2.1 = Ok ticker ∧ admissible (v_microstructure v) e.2.1) due →
  ∃ log, reaches v log (forward_due ticker v due).
Proof.
  intros Hdue. unfold forward_due. apply (foldl_reaches (λ v, v)).
  intros y [key [command reply]] log Hin Hy. rewrite Forall_forall in Hdue.
  destruct (Hdue _ Hin) as [Hr Ha]. cbn in Hr, Ha.
  destruct (submit_to_reaches ticker command y) as [log' Hl];
    [by left|by rewrite (re_config _ _ _ Hy)|].
  destruct (submit_to ticker command y) as [x r]. exists (log' ++ []).
  eapply reaches_trans; [exact Hl|apply reaches_replies].
Qed.

Lemma drained_pending {T} now (b : IngressReorderBuffer T) key x :
  (key, x) ∈ (drain_below now b).2 ∨ ib_pending (drain_below now b).1 !! key = Some x →
  ib_pending b !! key = Some x.
Proof.
  unfold drain_below. cbn. intros [H|H].
  - unfold in_key_order in H. rewrite elem_of_sort_by_key in H.
    apply elem_of_map_to_list in H. by apply map_lookup_filter_Some in H as [? _].
  - by apply map_lookup_filter_Some in H as [? _].
Qed.

Lemma release_channel_reaches ticker v :
  ingress_ok v → ∃ log, reaches v log (release_channel ticker v).
Proof.
  intros Hok. unfold release_channel, channel_of.
  destruct (v_ingress v !! ticker) as [b|] eqn:Hb; cbn [fmap option_fmap option_map];
    [|exists []; apply reaches_refl].
  unfold release_ingress. cbn [ic_buffer ic_arrival_counter].
  pose proof (drained_pending (ingress_now_us (sc_current_ms (v_clock v))) b) as Hd.
  destruct (drain_below _ b) as [b' due]. cbn [fst snd] in Hd.
  eapply reaches_after.
  - apply (with_channel_reaches ticker
      {| ic_buffer := b'; ic_arrival_counter := v_arrival_counter v |} v b Hb).
    cbn. intros key command reply Hk _.
    eapply io_pending; [done|exact Hb|]. apply Hd. by right.
  - apply forward_due_reaches. apply Forall_forall. intros [key [command reply]] Hin. cbn.
    eapply io_pending; [done|exact Hb|]. apply Hd. by left.
Qed.

Lemma release_all_reaches v : ingress_ok v → ∃ log, reaches v log (release_all_ingress v).
Proof.
  intros Hok. unfold release_all_ingress. apply (foldl_reaches (λ v, v)).
  intros y t log _ Hy. apply release_channel_reaches. by eapply re_ingress.
Qed.

Lemma ib_insert_pending {T} key (x : T) b k y :
  ib_pending (ib_insert key x b).1 !! k = Some y → (k = key ∧ y = x) ∨ ib_pending b !! k = Some y.
Proof.
  unfold ib_insert. repeat case_match; cbn; try (by right).
  all: intros [[-> ->]|[_ H']]%lookup_insert_Some; [by left|by right].
Qed.

Lemma admit_ingress_pending now offset stamp command reply c k y :
  ib_pending (ic_buffer (admit_ingress now offset stamp command reply c).1) !! k = Some y →
  y = (command, reply) ∨ ib_pending (ic_buffer c) !! k = Some y.
Proof.
  unfold admit_ingress. destruct (release_deadline_us now offset) as [d|]; [|by right].
  destruct (next_counter (ic_arrival_counter c)) as [[n n']|e]; [|by right].
  pose proof (ib_insert_pending {| rk_deadline_us := d; rk_session_id := is_session_id stamp;
    rk_arrival_sequence := n |} (command, reply) (ic_buffer c) k y) as Hi.
  destruct (ib_insert _ _ _) as [b []]; cbn in *; naive_solver.
Qed.

Lemma bufferable_route c u : bufferable_underlying c = Ok u → route c = Ok u.
Proof. by destruct c. Qed.

Lemma submit_reordered_reaches c stamp reply v :
  ingress_ok v → ∃ log, reaches v log (submit_reordered float_draw c stamp reply v).
Proof.
  intros Hok. unfold submit_reordered, admit_command_price.
  destruct (check_order_admission (v_microstructure v) c) as [[]|e] eqn:Hadm; cbn;
    [|exists []; apply reaches_replies].
  destruct (bufferable_underlying c) as [u|e] eqn:Hu; cbn; [|exists []; apply reaches_replies].
  unfold channel_of. destruct (v_ingress v !! u) as [b|] eqn:Hb; cbn;
    [|exists []; apply reaches_replies].
  match goal with |- context [admit_ingress ?a ?b ?c ?d ?e ?f] =>
    pose proof (admit_ingress_pending a b c d e f) as Hp;
    destruct (admit_ingress a b c d e f) as [channel r] end. cbn [fst ic_buffer] in Hp.
  assert (reaches v [] (with_channel u channel v)) as Hw.
  { apply (with_channel_reaches _ _ _ b Hb). intros key command reply' Hk _.
    apply Hp in Hk as [[= -> ->]|Hk].
    - split; [by apply bufferable_route|]. unfold admissible. by rewrite Hadm.
    - by eapply io_pending. }
  destruct r as [key|e].
  - eapply reaches_after; [exact Hw|]. apply release_channel_reaches. by eapply re_ingress.
  - eexists. eapply reaches_trans; [exact Hw|apply reaches_replies].
Qed.

Lemma submit_with_ingress_reaches c stamp reply v :
  ingress_ok v → ∃ log, reaches v log (submit_with_ingress float_draw c stamp reply v).
Proof.
  intros Hok. unfold submit_with_ingress. destruct (_ && _).
  - by apply submit_reordered_reaches.
  - destruct (submit_reaches c v) as [log Hl]. destruct (submit c v) as [w r].
    eexists. eapply reaches_trans; [exact Hl|apply reaches_replies].
Qed.

(** ** The clock and the roll *)

Lemma advance_reaches clock now v :
  ingress_ok v →
  ∃ log, reaches v log
    (release_all_ingress (fan_clock now (with_venue_clock clock v)).1).
Proof.
  intros Hok. assert (reaches v [] (with_venue_clock clock v)) as H0 by by apply reaches_same.
  eapply reaches_after; [exact H0|].
  destruct (fan_clock_reaches now (with_venue_clock clock v)) as [log Hl].
  eapply reaches_after; [exact Hl|]. apply release_all_reaches.
  eapply re_ingress; [exact Hl|]. by eapply re_ingress.
Qed.

Lemma submit_until_rejected_reaches cs v n :
  ∃ log, reaches v log (submit_until_rejected cs v n).1.
Proof.
  revert v n. induction cs as [|c cs IH]; intros v n; cbn; [exists []; apply reaches_refl|].
  destruct (submit_reaches c v) as [log Hl]. destruct (submit c v) as [w [r|e]].
  - eapply reaches_after; [exact Hl|apply IH].
  - by exists log.
Qed.

Lemma roll_group_reaches schedule now acc g :
  ∃ log, reaches acc.1 log (roll_group schedule now acc g).1.
Proof.
  destruct acc as [v [report failures]], g as [[u key_ms] [expiration symbols]]. cbn.
  destruct (phase_at schedule expiration now) as [target|]; [|exists []; apply reaches_refl].
  destruct (phase_leb _ _); [exists []; apply reaches_refl|].
  destruct (submit_until_rejected_reaches
    (transition_commands expiration (sort_by_key String.leb id symbols)
       (last_phase v (u, key_ms)) target) v 0) as [log Hl].
  destruct (submit_until_rejected _ v 0) as [w [n [e|]]]; cbn; [by exists log|].
  eexists. eapply reaches_trans; [exact Hl|]. by apply reaches_same.
Qed.

Lemma run_expiry_roll_reaches schedule now listed v :
  ∃ log, reaches v log (run_expiry_roll schedule now listed v).1.
Proof.
  unfold run_expiry_roll.
  destruct (foldl_reaches fst (roll_group schedule now) (expiry_groups listed)
    (v, (ExpiryRollReport_default, []))) as [log Hl].
  { intros y g log _ _. apply roll_group_reaches. }
  exists log. destruct (foldl _ _ _) as [w [report [|f fs]]]; exact Hl.
Qed.

(** * Any sequence of calls *)

Inductive VenueOp :=
  | OpSubmit (c : VenueCommand)
  | OpMassCancel (c : VenueCommand)
  | OpSetStatus (symbol : Symbol) (status : InstrumentStatus)
  | OpEvict (now_ms : Z)
  | OpIngress (c : VenueCommand) (stamp : IngressStamp) (reply : nat)
  | OpRestStamp (account : AccountId)
  | OpClockStep
  | OpClockTo (target_ms : Z)
  (** The cadence driver: the clock follows the wall, and what is due is released. *)
  | OpCadence (wall_now_ms : Z)
  | OpRoll (schedule : ExpirySchedule) (now_ms : Z) (listed : list string).

Definition venue_op v (op : VenueOp) : venue :=
  match op with
  | OpSubmit c => (submit c v).1
  | OpMassCancel c => (submit_mass_cancel c v).1
  | OpSetStatus symbol status => (submit_set_instrument_status symbol status v).1
  | OpEvict now_ms => (evict_expired_orders now_ms v).1
  | OpIngress c stamp reply => submit_with_ingress float_draw c stamp reply v
  | OpRestStamp account => (next_rest_ingress_stamp account v).1
  | OpClockStep => (advance_clock_step v).1
  | OpClockTo target_ms => (advance_clock_to target_ms v).1
  | OpCadence wall_now_ms =>
      release_all_ingress (with_venue_clock (track_wall wall_now_ms (v_clock v)).1 v)
  | OpRoll schedule now_ms listed => (run_expiry_roll schedule now_ms listed v).1
  end.

Lemma venue_op_reaches v op : ingress_ok v → ∃ log, reaches v log (venue_op v op).
Proof.
  intros Hok. destruct op as [c|c|sym st|now|c stamp reply|acct| |t|wall|sch now listed]; cbn.
  - apply (submit_reaches c).
  - apply (submit_mass_cancel_reaches c).
  - apply (submit_reaches (SetInstrumentStatus sym st)).
  - apply (submit_reaches (EvictExpiredOrders now)).
  - by apply submit_with_ingress_reaches.
  - unfold next_rest_ingress_stamp. exists [].
    destruct (next_counter _) as [[n n']|e]; [by apply reaches_same|apply reaches_refl].
  - unfold advance_clock_step. destruct (step (v_clock v)) as [clock now].
    pose proof (advance_reaches clock now v Hok) as Hl. by destruct (fan_clock _ _).
  - unfold advance_clock_to. destruct (advance_to t (v_clock v)) as [clock now].
    pose proof (advance_reaches clock now v Hok) as Hl. by destruct (fan_clock _ _).
  - set (w := with_venue_clock _ v). assert (reaches v [] w) as H0 by by apply reaches_same.
    eapply reaches_after; [exact H0|]. apply release_all_reaches. by eapply re_ingress.
  - apply run_expiry_roll_reaches.
Qed.

(** C4. Nothing reaches a book but admitted commands, through the actor they are addressed
    to.  Whatever calls a venue serves — submissions, mass cancels, ingress with its delays,
    clock advances, expiry rolls — its actors and their shared state are those left by a
    sequence of actor turns, each on a hosted underlying, with a command routed to that
    underlying (or addressed to all: venue-global or a clock instant) and admitted by the
    venue's price and size limits; the hosted set and the limits never change. *)
Theorem only_admitted_commands_reach_actors v ops :
  ingress_ok v →
  let w := foldl venue_op v ops in
  ∃ log, (v_underlyings w, v_shared w) = foldl deliver (v_underlyings v, v_shared v) log ∧
    (∀ clock ticker command, (clock, (ticker, command)) ∈ log →
       ticker ∈ dom (v_underlyings v) ∧ addressed ticker command ∧
       admissible (v_microstructure v) command) ∧
    dom (v_underlyings w) = dom (v_underlyings v) ∧ v_microstructure w = v_microstructure v.
Proof.
  intros Hok. cbn zeta.
  destruct (foldl_reaches (λ v, v) venue_op ops v) as [log [Hact Hcfg Hdom Hlog _]].
  { intros y op log _ Hy. apply venue_op_reaches. by eapply re_ingress. }
  exists log. split_and!; [exact Hact| |done|done].
  intros clock t c Hin. rewrite Forall_forall in Hlog. exact (Hlog _ Hin).
Qed.

(** * Fan-outs *)

(** The reference: one turn per ticker, the replies in order. *)
Fixpoint turns (c : VenueCommand) (tickers : list string) v :
    venue * list (result VenueError Receipt) :=
  match tickers with
  | [] => (v, [])
  | t :: tickers =>
      let '(v, r) := submit_to t c v in
      let '(v, rs) := turns c tickers v in (v, r :: rs)
  end.

Definition committed_of (rs : list (result VenueError Receipt)) : list Receipt :=
  omap (λ r, match r with Ok receipt => Some receipt | Err _ => None end) rs.
Definition errors_of (rs : list (result VenueError Receipt)) : list VenueError :=
  omap (λ r, match r with Ok _ => None | Err e => Some e end) rs.

Lemma turns_length c ts v : length (turns c ts v).2 = length ts.
Proof.
  revert v. induction ts as [|t ts IH]; intros v; cbn; [done|].
  destruct (submit_to t c v) as [w r]. specialize (IH w). destruct (turns c ts w). cbn in *. lia.
Qed.

Lemma committed_errors_length rs :
  (length (committed_of rs) + length (errors_of rs) = length rs)%nat.
Proof.
  induction rs as [|[] rs IH]; [done| |]; cbn [committed_of errors_of omap list_omap length] in *;
    fold (committed_of rs) (errors_of rs) in *; lia.
Qed.

Lemma count_up_usize n : 0 ≤ n → n + 1 < 2 ^ 64 → count_up usize n = n + 1.
Proof.
  intros H0 Hn. unfold count_up, checked_add. by rewrite narrow_fits by (unfold_int; lia).
Qed.

Lemma last_cons_default {X} (x : X) l : last (x :: l) = Some (default x (last l)).
Proof.
  revert x. induction l as [|y l IH]; intros x; [done|].
  change (last (x :: y :: l)) with (last (y :: l)). by rewrite !IH.
Qed.

Lemma global_loop_turns c ts v committed first_error n :
  0 ≤ n → n + Z.of_nat (length ts) < 2 ^ 64 →
  global_loop c ts v committed first_error n =
    ((turns c ts v).1,
     (match last (committed_of (turns c ts v).2) with Some r => Some r | None => committed end,
      match first_error with Some e => Some e | None => head (errors_of (turns c ts v).2) end,
      n + Z.of_nat (length (committed_of (turns c ts v).2)))).
Proof.
  revert v committed first_error n.
  induction ts as [|t ts IH]; intros v committed first_error n H0 Hn; cbn [global_loop turns].
  { cbn. rewrite Z.add_0_r. by destruct first_error. }
  cbn [length] in Hn. destruct (submit_to t c v) as [w [r|e]].
  - rewrite count_up_usize by lia. rewrite IH by lia. destruct (turns c ts w) as [x rs].
    cbn [fst snd]. change (committed_of (Ok r :: rs)) with (r :: committed_of rs).
    change (errors_of (Ok r :: rs)) with (errors_of rs). rewrite last_cons_default. cbn [length].
    do 2 f_equal; [|lia]. f_equal. by destruct (last (committed_of rs)).
  - rewrite IH by lia. destruct (turns c ts w) as [x rs]. cbn [fst snd].
    change (committed_of (Err e :: rs)) with (committed_of rs).
    change (errors_of (Err e :: rs)) with (e :: errors_of rs). by destruct first_error.
Qed.

Lemma mass_cancel_loop_turns c ts v swept first_error n :
  0 ≤ n → n + Z.of_nat (length ts) < 2 ^ 64 →
  mass_cancel_loop c ts v swept first_error n =
    ((turns c ts v).1,
     (swept ++ (committed_of (turns c ts v).2 ≫= swept_legs_of),
      match first_error with Some e => Some e | None => head (errors_of (turns c ts v).2) end,
      n + Z.of_nat (length (committed_of (turns c ts v).2)))).
Proof.
  revert v swept first_error n.
  induction ts as [|t ts IH]; intros v swept first_error n H0 Hn; cbn [mass_cancel_loop turns].
  { cbn. rewrite Z.add_0_r, app_nil_r. by destruct first_error. }
  cbn [length] in Hn. destruct (submit_to t c v) as [w [r|e]].
  - rewrite count_up_usize by lia. rewrite IH by lia. destruct (turns c ts w) as [x rs].
    cbn [fst snd]. change (committed_of (Ok r :: rs)) with (r :: committed_of rs).
    change (errors_of (Ok r :: rs)) with (errors_of rs). cbn [length].
    rewrite bind_cons, (assoc_L (++)). do 2 f_equal. lia.
  - rewrite IH by lia. destruct (turns c ts w) as [x rs]. cbn [fst snd].
    change (committed_of (Err e :: rs)) with (committed_of rs).
    change (errors_of (Err e :: rs)) with (e :: errors_of rs). by destruct first_error.
Qed.

(** Each ticker of a fan-out takes one turn, on the state its actor had before. *)
Lemma turns_each c ts v i t :
  NoDup ts → ts !! i = Some t → is_Some (v_underlyings v !! t) →
  ∃ a s s' a' r, v_underlyings v !! t = Some a ∧
    actor_submit (v_clock v) s a c = (s', a', r) ∧
    v_underlyings (turns c ts v).1 !! t = Some a' ∧ (turns c ts v).2 !! i = Some r.
Proof.
  assert (∀ ts v t, t ∉ ts → v_underlyings (turns c ts v).1 !! t = v_underlyings v !! t) as Hout.
  { clear. intros ts. induction ts as [|t' ts IH]; intros v t Hnin; cbn; [done|].
    apply not_elem_of_cons in Hnin as [Hne Hnin]. unfold submit_to, handle_for.
    destruct (v_underlyings v !! t') as [a|] eqn:Ha; cbn.
    - destruct (actor_submit _ _ _ _) as [[s a'] r].
      specialize (IH (with_actors (<[t' := a']> (v_underlyings v)) s v) t Hnin).
      destruct (turns c ts _). cbn in *. by rewrite IH, lookup_insert_ne by done.
    - specialize (IH v t Hnin). by destruct (turns c ts v). }
  revert v i. induction ts as [|t' ts IH]; intros v i Hnd Hi Hh; [done|].
  apply NoDup_cons in Hnd as [Hnin Hnd]. destruct i as [|i]; cbn in Hi |- *.
  - injection Hi as ->. destruct Hh as [a Ha]. unfold submit_to, handle_for. rewrite Ha. cbn.
    destruct (actor_submit (v_clock v) (v_shared v) a c) as [[s' a'] r] eqn:E.
    pose proof (Hout ts (with_actors (<[t := a']> (v_underlyings v)) s' v) t Hnin) as Ho.
    destruct (turns c ts _) as [w rs]. cbn in *. rewrite lookup_insert_eq in Ho.
    by exists a, (v_shared v), s', a', r.
  - assert (t ≠ t') as Hne by (intros ->; apply Hnin; by eapply list_elem_of_lookup_2).
    unfold submit_to, handle_for.
    destruct (v_underlyings v !! t') as [a0|] eqn:Ha0; cbn.
    + destruct (actor_submit _ _ a0 c) as [[s' a'] r'].
      destruct (IH (with_actors (<[t' := a']> (v_underlyings v)) s' v) i Hnd Hi)
        as (a & s & s2 & a2 & r & H1 & H2 & H3 & H4); [cbn; by rewrite lookup_insert_ne|].
      cbn in H1. rewrite lookup_insert_ne in H1 by done.
      destruct (turns c ts _) as [w rs]. cbn in *. by exists a, s, s2, a2, r.
    + destruct (IH v i Hnd Hi Hh) as (a & s & s2 & a2 & r & H1 & H2 & H3 & H4).
      destruct (turns c ts _) as [w rs]. cbn in *. by exists a, s, s2, a2, r.
Qed.

Lemma underlyings_perm v : underlyings v ≡ₚ (map_to_list (v_underlyings v)).*1.
Proof. apply sort_by_key_perm. Qed.

Lemma underlyings_NoDup v : NoDup (underlyings v).
Proof. rewrite underlyings_perm. apply NoDup_fst_map_to_list. Qed.

Lemma elem_of_underlyings v t : t ∈ underlyings v ↔ is_Some (v_underlyings v !! t).
Proof.
  rewrite underlyings_perm, list_elem_of_fmap. split.
  - intros ([k a] & -> & Hin). exists a. by apply elem_of_map_to_list.
  - intros [a Ha]. exists (t, a). split; [done|]. by apply elem_of_map_to_list.
Qed.

Definition fanout_of (rs : list (result VenueError Receipt)) : FanoutSummary :=
  {| ok_count := Z.of_nat (length (committed_of rs)); fanout_total := Z.of_nat (length rs) |}.

(** C26. A venue-global command runs once on every hosted underlying, and the caller is told
    exactly how far it got.  The underlyings take their one turn each in ticker order; the
    receipt is the last committed one and its summary counts the commits out of all the
    turns, so it says fully applied exactly when every turn committed; a mass cancel also
    returns every leg swept by a committed turn, under that turn's sequence, in order; an
    error, the first one, is returned only when no turn committed. *)
Theorem fanout_reported_exactly c v :
  is_venue_global c = true → v_underlyings v ≠ ∅ →
  Z.of_nat (size (v_underlyings v)) < 2 ^ 64 →
  let start := (next_correlation_id v).1 in
  let w := (turns c (underlyings v) start).1 in
  let rs := (turns c (underlyings v) start).2 in
  (∀ i t, underlyings v !! i = Some t →
     ∃ a s s' a' r, v_underlyings v !! t = Some a ∧ actor_submit (v_clock v) s a c = (s', a', r) ∧
       v_underlyings w !! t = Some a' ∧ rs !! i = Some r) ∧
  (∀ t, t ∈ underlyings v ↔ is_Some (v_underlyings v !! t)) ∧
  (fully_applied (fanout_of rs) = true ↔ errors_of rs = []) ∧
  match last (committed_of rs) with
  | Some receipt =>
      submit c v = (w, Ok (with_fanout receipt (fanout_of rs))) ∧
      (∀ scope kind account, c = MassCancel scope kind account →
         submit_mass_cancel c v =
           (w, Ok {| md_swept := committed_of rs ≫= swept_legs_of; md_fanout := fanout_of rs |}))
  | None =>
      ∃ e, head (errors_of rs) = Some e ∧ submit c v = (w, Err e) ∧
        (∀ scope kind account, c = MassCancel scope kind account →
           submit_mass_cancel c v = (w, Err e))
  end.
Proof.
  intros Hg Hne Hsize start w rs.
  assert (length (underlyings v) = size (v_underlyings v)) as Hlen.
  { rewrite underlyings_perm, length_fmap. apply length_map_to_list. }
  assert (length rs = length (underlyings v)) as Hrs by apply turns_length.
  pose proof (committed_errors_length rs) as Hce.
  split_and!.
  - intros i t Hi. apply (turns_each c (underlyings v) start i t (underlyings_NoDup v) Hi).
    apply elem_of_underlyings. by eapply list_elem_of_lookup_2.
  - apply elem_of_underlyings.
  - unfold fully_applied, fanout_of. cbn. rewrite Z.eqb_eq. split.
    + intros E. apply length_zero_iff_nil. lia.
    + intros E. rewrite E in Hce. cbn in Hce. lia.
  - assert (∃ t ts, underlyings v = t :: ts) as (t0 & ts0 & Hts).
    { destruct (underlyings v) as [|t ts]; [|by eexists _, _].
      exfalso. apply Hne, map_size_empty_iff. by rewrite <-Hlen. }
    assert (submit c v = submit_venue_global c v) as ->.
    { unfold submit, admit_command_price. pose proof (admitted_global (v_microstructure v) c Hg) as Ha.
      unfold admissible in Ha. destruct (check_order_admission _ c); [|done]. cbn. by rewrite Hg. }
    unfold submit_venue_global. cbn [next_correlation_id]. fold start.
    change (underlyings (with_correlation _ v)) with (underlyings v).
    change (with_correlation (wrapping u64 (v_correlation_counter v + 1)) v) with start.
    assert (global_loop c (underlyings v) start None None 0 =
      (w, (last (committed_of rs), head (errors_of rs), Z.of_nat (length (committed_of rs))))) as Hl.
    { rewrite global_loop_turns by lia. fold w rs. rewrite Z.add_0_l. by destruct (last _). }
    rewrite Hts, <-Hts, Hl. rewrite <-Hrs. fold (fanout_of rs).
    assert (∀ scope kind account, c = MassCancel scope kind account →
      submit_mass_cancel c v =
        (w, if Z.of_nat (length (committed_of rs)) =? 0
            then Err (default JournalUnavailable (head (errors_of rs)))
            else Ok {| md_swept := committed_of rs ≫= swept_legs_of; md_fanout := fanout_of rs |}))
      as Hmc.
    { intros scope kind account ->. unfold submit_mass_cancel. rewrite Hg. cbn [negb next_correlation_id].
      change (underlyings (with_correlation _ v)) with (underlyings v).
      change (with_correlation (wrapping u64 (v_correlation_counter v + 1)) v) with start.
      rewrite Hts, <-Hts. rewrite mass_cancel_loop_turns by lia. fold w rs.
      rewrite Z.add_0_l, <-Hrs. by fold (fanout_of rs). }
    destruct (last (committed_of rs)) as [receipt|] eqn:Hlast.
    + split; [done|]. intros scope kind account E. rewrite (Hmc _ _ _ E).
      destruct (committed_of rs); [done|]. by rewrite (proj2 (Z.eqb_neq _ _)) by (cbn; lia).
    + apply last_None in Hlast. rewrite Hlast in Hce, Hmc. cbn in Hce, Hmc.
      destruct (errors_of rs) as [|e es] eqn:He; [cbn in Hce; rewrite Hts in Hrs; cbn in Hrs; lia|].
      exists e. split; [done|]. split; [done|]. exact Hmc.
Qed.
End props.

Section roll.
Context {S A : Type} {AS : ActorService S A} {US : Upstream}.
Notation venue := (Venue S A).
Notation group := ((string * Z) * (ExpirationDate * list Symbol))%type.
Implicit Types v w : venue.

(** ** A submission does not touch the phases *)

Lemma submit_to_phases t c v : v_expiry_phases (submit_to t c v).1 = v_expiry_phases v.
Proof.
  unfold submit_to, handle_for. destruct (v_underlyings v !! t) as [a|]; [cbn|done].
  by destruct (actor_submit _ _ a c) as [[s a'] r].
Qed.

Lemma global_loop_phases c ts v committed e n :
  v_expiry_phases (global_loop c ts v committed e n).1 = v_expiry_phases v.
Proof.
  revert v committed e n. induction ts as [|t ts IH]; intros v committed e n; cbn; [done|].
  pose proof (submit_to_phases t c v) as Hp. destruct (submit_to t c v) as [w [r|e']];
    cbn in Hp; by rewrite IH.
Qed.

Lemma submit_phases c v : v_expiry_phases (submit c v).1 = v_expiry_phases v.
Proof.
  unfold submit. destruct (admit_command_price v c); [|done]. destruct (is_venue_global c).
  - unfold submit_venue_global. cbn [next_correlation_id].
    set (w := with_correlation _ v). pose proof (global_loop_phases c (underlyings w) w None None 0) as Hp.
    destruct (underlyings w) as [|t ts]; [done|].
    by destruct (global_loop _ _ _ _ _ _) as [x [[committed e] n]].
  - destruct (route c); [|done]. apply submit_to_phases.
Qed.

Lemma submit_until_rejected_phases cs v n :
  v_expiry_phases (submit_until_rejected cs v n).1 = v_expiry_phases v.
Proof.
  revert v n. induction cs as [|c cs IH]; intros v n; cbn; [done|].
  pose proof (submit_phases c v) as Hp. destruct (submit c v) as [w [r|e]]; cbn in *; [|done].
  by rewrite IH.
Qed.

(** ** The groups *)

Record groups_ok (gs : list group) : Prop := {
  go_wf : bt_wf expiry_key_leb gs;
  go_date : ∀ key e ss, (key, (e, ss)) ∈ gs → e = DateTime key.2;
}.

(** A listed symbol with an absolute expiration falls in the group [key]. *)
Definition in_group (raw : string) (key : string * Z) : Prop :=
  ∃ parsed, parse_symbol raw = Ok parsed ∧ ps_underlying parsed = key.1 ∧
    ps_expiration parsed = DateTime key.2.

Lemma add_to_groups_spec gs raw :
  groups_ok gs →
  groups_ok (add_to_groups gs raw) ∧
  (∀ key, is_Some (bt_get key gs) ∨ in_group raw key → is_Some (bt_get key (add_to_groups gs raw))).
Proof.
  intros [Hwf Hdate]. unfold add_to_groups, in_group.
  destruct (parse_symbol raw) as [parsed|e] eqn:Hp.
  2: { split; [by split|]. intros key [?|(? & ? & _)]; [done|congruence]. }
  destruct (ps_expiration parsed) as [d|ms] eqn:He.
  { split; [by split|]. intros key [?|(? & ? & _ & ?)]; [done|congruence]. }
  unfold Symbol_parse. rewrite Hp. cbn [map_err].
  set (key := (ps_underlying parsed, ms)).
  assert ((default (DateTime ms, []) (bt_get key gs)).1 = DateTime ms) as Hd.
  { destruct (bt_get key gs) as [[e ss]|] eqn:Hg; [|done]. cbn. apply bt_get_elem in Hg.
    by apply Hdate in Hg. }
  destruct (default _ _) as [e ss]. cbn in Hd. subst e. cbn. split.
  - split; [by apply bt_insert_wf; [apply _|]|]. intros key' e ss' [[= -> -> ->]|Hin]%bt_insert_elem; [done|].
    by eapply Hdate.
  - intros key' Hk. destruct (decide (key' = key)) as [->|Hne].
    + rewrite bt_get_insert_eq. by eexists.
    + rewrite bt_get_insert_ne by done. destruct Hk as [|(? & [= <-] & Hu & Hx)]; [done|].
      exfalso. apply Hne. destruct key' as [u' ms']. cbn in Hu, Hx. subst key. congruence.
Qed.

Lemma expiry_groups_spec listed :
  groups_ok (expiry_groups listed) ∧
  ∀ raw key, raw ∈ listed → in_group raw key → is_Some (bt_get key (expiry_groups listed)).
Proof.
  unfold expiry_groups.
  assert (∀ gs, groups_ok gs →
    groups_ok (foldl add_to_groups gs listed) ∧
    ∀ key, is_Some (bt_get key gs) ∨ (∃ raw, raw ∈ listed ∧ in_group raw key) →
      is_Some (bt_get key (foldl add_to_groups gs listed))) as Hall.
  { induction listed as [|raw listed IH]; intros gs Hok; cbn.
    { split; [done|]. intros key [?|(raw & ?%not_elem_of_nil & _)]; done. }
    destruct (add_to_groups_spec gs raw Hok) as [Hok' Hk].
    destruct (IH _ Hok') as [H1 H2]. split; [done|]. intros key Hkey. apply H2.
    destruct Hkey as [?|(r & [->|Hr]%elem_of_cons & Hin)]; [left; by apply Hk; left|
      left; by apply Hk; right|right; by exists r]. }
  destruct (Hall []) as [H1 H2]; [split; [constructor|by intros ??? ?%not_elem_of_nil]|].
  split; [done|]. intros raw key Hr Hin. apply H2. right. by exists raw.
Qed.

(** ** One group, then all of them *)

Definition failed_at (key : string * Z) (f : ExpiryRollFailure) : bool :=
  bool_decide ((rf_underlying f, rf_expiration_ms f) = key).

(** What the roll did for one expiration. *)
Definition rolled (target : option ExpiryPhase) (before after : ExpiryPhase)
    (failures : list ExpiryRollFailure) : Prop :=
  match target with
  | None => after = before ∧ failures = []
  | Some p =>
      if phase_leb p before then after = before ∧ failures = []
      else (after = p ∧ failures = []) ∨
           (after = before ∧ ∃ f, failures = [f] ∧ rf_attempted_phase f = p)
  end.

Lemma roll_group_spec schedule now v report failures g w report' failures' :
  g.2.1 = DateTime g.1.2 →
  roll_group schedule now (v, (report, failures)) g = (w, (report', failures')) →
  ∃ fs, failures' = failures ++ fs ∧
    (∀ f, f ∈ fs → (rf_underlying f, rf_expiration_ms f) = g.1) ∧
    (∀ key, key ≠ g.1 → last_phase w key = last_phase v key) ∧
    rolled (phase_at schedule (DateTime g.1.2) now) (last_phase v g.1) (last_phase w g.1) fs.
Proof.
  destruct g as [[u ms] [e ss]]. cbn [fst snd]. intros -> Hr. unfold roll_group in Hr.
  unfold rolled. destruct (phase_at schedule (DateTime ms) now) as [p|].
  2: { simplify_eq. exists []. rewrite app_nil_r. by repeat (split; [by try intros ? ?%not_elem_of_nil|]). }
  destruct (phase_leb p (last_phase v (u, ms))) eqn:Hle.
  { simplify_eq. exists []. rewrite app_nil_r.
    by repeat (split; [by try intros ? ?%not_elem_of_nil|]). }
  match type of Hr with context [submit_until_rejected ?cs v 0] =>
    pose proof (submit_until_rejected_phases cs v 0) as Hp;
    destruct (submit_until_rejected cs v 0) as [x [n [err|]]] end; cbn in Hp; simplify_eq.
  - eexists [_]. split; [done|]. split; [by intros f ->%list_elem_of_singleton|].
    unfold last_phase. rewrite Hp. split; [done|]. right. split; [done|]. eexists. by split.
  - exists []. rewrite app_nil_r. split; [done|]. split; [by intros f ?%not_elem_of_nil|].
    unfold last_phase. cbn. split.
    + intros key Hne. by rewrite lookup_insert_ne, Hp.
    + left. by rewrite lookup_insert_eq.
Qed.

Lemma roll_groups_spec schedule now gs v report failures w report' failures' :
  NoDup gs.*1 → (∀ g, g ∈ gs → g.2.1 = DateTime g.1.2) →
  foldl (roll_group schedule now) (v, (report, failures)) gs = (w, (report', failures')) →
  ∃ fs, failures' = failures ++ fs ∧
    (∀ f, f ∈ fs → (rf_underlying f, rf_expiration_ms f) ∈ gs.*1) ∧
    (∀ key, key ∉ gs.*1 → last_phase w key = last_phase v key) ∧
    (∀ key, key ∈ gs.*1 →
       rolled (phase_at schedule (DateTime key.2) now) (last_phase v key) (last_phase w key)
         (filter (λ f, failed_at key f = true) fs)).
Proof.
  revert v report failures. induction gs as [|g gs IH]; intros v report failures Hnd Hd Hf.
  { cbn in Hf. simplify_eq. exists []. rewrite app_nil_r.
    split_and!; [done|by intros f ?%not_elem_of_nil|done|by intros key ?%not_elem_of_nil]. }
  cbn [foldl] in Hf. cbn in Hnd. apply NoDup_cons in Hnd as [Hnin Hnd].
  destruct (roll_group schedule now (v, (report, failures)) g) as [x [report1 failures1]] eqn:Hg.
  destruct (roll_group_spec _ _ _ _ _ _ _ _ _ (Hd g ltac:(by left)) Hg)
    as (fs1 & -> & Hk1 & Hout1 & Hroll1).
  destruct (IH x report1 (failures ++ fs1) Hnd) as (fs2 & -> & Hk2 & Hout2 & Hroll2);
    [intros g' ?; apply Hd; by right|done|].
  exists (fs1 ++ fs2). split_and!.
  - by rewrite (assoc_L (++)).
  - intros f [Hin|Hin]%elem_of_app; cbn; [rewrite (Hk1 f Hin); by left|right; by apply Hk2].
  - intros key [Hne Hnin']%not_elem_of_cons. rewrite Hout2 by done. by apply Hout1.
  - intros key Hin. rewrite filter_app. cbn in Hin. apply elem_of_cons in Hin as [->|Hin].
    + rewrite (Hout2 _ Hnin).
      assert (filter (λ f, failed_at g.1 f = true) fs2 = []) as ->.
      { apply filter_drop, Forall_forall. intros f Hf2 Hfa.
        unfold failed_at in Hfa. apply bool_decide_eq_true in Hfa. apply Hnin.
        rewrite <-Hfa. by apply Hk2. }
      assert (filter (λ f, failed_at g.1 f = true) fs1 = fs1) as ->; [|by rewrite app_nil_r].
      apply filter_keep, Forall_forall. intros f Hf1. unfold failed_at.
      apply bool_decide_eq_true. by apply Hk1.
    + assert (key ≠ g.1) as Hne by (intros ->; done).
      assert (filter (λ f, failed_at key f = true) fs1 = []) as ->.
      { apply filter_drop, Forall_forall. intros f Hf1 Hfa.
        unfold failed_at in Hfa. apply bool_decide_eq_true in Hfa. rewrite (Hk1 f Hf1) in Hfa.
        congruence. }
      cbn. rewrite <-(Hout1 key Hne). by apply Hroll2.
Qed.

(** With every phase already reached, a roll submits nothing. *)
Lemma roll_groups_idle schedule now gs v acc :
  (∀ g, g ∈ gs → g.2.1 = DateTime g.1.2) →
  (∀ key p, key ∈ gs.*1 → phase_at schedule (DateTime key.2) now = Some p →
     phase_leb p (last_phase v key) = true) →
  foldl (roll_group schedule now) (v, acc) gs = (v, acc).
Proof.
  intros Hd Hp. induction gs as [|g gs IH]; [done|]. cbn [foldl].
  assert (roll_group schedule now (v, acc) g = (v, acc)) as ->.
  { destruct g as [[u ms] [e ss]]. specialize (Hd _ ltac:(by left)) as E. cbn in E. subst e.
    destruct acc as [report failures]. unfold roll_group.
    destruct (phase_at schedule (DateTime ms) now) as [p|] eqn:Hph; [|done].
    by rewrite (Hp (u, ms) p) by (try done; cbn; by left). }
  apply IH; [intros g' ?; apply Hd; by right|intros key p ?; apply Hp; by right].
Qed.

End roll.
