(* ===== verification/Boot.v ===== *)
(** Bringing the venue up ([src/src/state.rs], [AppState::new]): recovery of each underlying
    from its durable journal, the run lineage, the rebuilding of the stores, and the
    actors.  The database is the parameter [JournalDatabase]. *)

From Stdlib Require Import Ascii.
From stdpp Require Import gmap.
From S2P Require Export Venue.

Inductive DbError :=
  | DbConnect
  | DbMigrate
  | DbQuery (operation : string)
  | DbValueRange (field : string)
  | DbUnavailable
  | DbHeaderMismatch (stored supplied : string).
#[export] Instance DbError_eq_dec : EqDecision DbError. Proof. solve_decision. Defined.

(** The journals of a database: read for recovery, and opened for writing under a header
    that must agree with the stored one. *)
Class JournalDatabase (D J : Type) := {
  open_for_recovery : D → string → result DbError J;
  open_journal : D → string → JournalHeader → result DbError J;
}.

Inductive AppStateError :=
  | BootDb (e : DbError)
  | BootMicrostructure (e : MicrostructureConfigError)
  | BootRecovery (underlying : string) (source : JournalError)
  | BootLineageConflict (first_underlying first_lineage underlying lineage : string)
  | BootSequenceExhausted (underlying : string) (sequence : Z)
  | BootProjectionFailed (underlying projection detail : string).

(** ** What the market maker and the simulator are handed back *)

Record RecoveredMmLeg := {
  rm_underlying : string; rm_symbol : Symbol; rm_order_id : VenueOrderId; rm_is_buy : bool;
  rm_price_cents : Z; rm_quantity : Z; rm_seq : Z }.

Record RecoveredProducerState := {
  rp_legs : gmap (Symbol * bool) RecoveredMmLeg;
  rp_next_seq_floor : Z;
  rp_controls : list MarketMakerControlKnobs;
  rp_sim_steps : Z;
  rp_last_now_ms : option Z;
}.

(** What follows the last occurrence of [pat], a nonempty string. *)
Fixpoint rsplit_after (pat s : string) : option string :=
  match s with
  | EmptyString => None
  | String c s' =>
      match rsplit_after pat s' with
      | Some r => Some r
      | None =>
          if String.prefix pat s
          then Some (String.substring (String.length pat) (String.length s) s)
          else None
      end
  end.

(** [str::parse::<u64>]: digits, after at most one plus sign. *)
Definition digit_of (c : Ascii.ascii) : option Z :=
  let d := Z.of_N (Ascii.N_of_ascii c) - 48 in
  if (0 <=? d) && (d <=? 9) then Some d else None.
Definition parse_digits (l : list Ascii.ascii) : option Z :=
  foldl (λ acc c, n ← acc; d ← digit_of c; m ← checked_mul u64 n 10; checked_add u64 m d)
    (Some 0) l.
Definition parse_u64 (s : string) : option Z :=
  match String.list_ascii_of_string s with
  | [] => None
  | c :: l =>
      if bool_decide (c = "+"%char) then match l with [] => None | _ => parse_digits l end
      else parse_digits (c :: l)
  end.

Definition parse_mm_seq (order_id : string) : option Z :=
  seq ← rsplit_after ":MM:" order_id; parse_u64 seq.

Definition last_recovered_reference_price (events : list VenueEvent) (underlying : string) :
    option Z :=
  head (omap (λ e, match ev_command e with
                   | SimStep _ step_underlying price _ _ =>
                       if String.eqb step_underlying underlying then Some price else None
                   | _ => None
                   end) (reverse events)).

Record ProducerFold := {
  pf_latest : gmap (Symbol * bool) RecoveredMmLeg;
  pf_max_seq : option Z;
  pf_controls : list MarketMakerControlKnobs;
  pf_sim_steps : Z;
  pf_last_now_ms : option Z;
}.

Definition fold_producer (underlying : string) (p : ProducerFold) (event : VenueEvent) :
    ProducerFold :=
  let p :=
    {| pf_latest := pf_latest p; pf_max_seq := pf_max_seq p; pf_controls := pf_controls p;
       pf_sim_steps := pf_sim_steps p; pf_last_now_ms := Some (ev_venue_ts event) |} in
  match ev_command event with
  | AddOrder symbol order_id account _ _ side _ limit_price quantity _ _ =>
      if is_market_maker_account account then
        match parse_mm_seq order_id with
        | None => p
        | Some seq =>
            let is_buy := bool_decide (side = Buy) in
            {| pf_latest :=
                 <[(symbol, is_buy) :=
                     {| rm_underlying := underlying; rm_symbol := symbol;
                        rm_order_id := order_id; rm_is_buy := is_buy;
                        rm_price_cents := default 0 limit_price; rm_quantity := quantity;
                        rm_seq := seq |}]> (pf_latest p);
               pf_max_seq :=
                 Some (match pf_max_seq p with None => seq | Some current => Z.max current seq end);
               pf_controls := pf_controls p; pf_sim_steps := pf_sim_steps p;
               pf_last_now_ms := pf_last_now_ms p |}
        end
      else p
  | MarketMakerControl spread_multiplier size_scalar directional_skew enabled =>
      {| pf_latest := pf_latest p; pf_max_seq := pf_max_seq p;
         pf_controls := pf_controls p ++
           [{| knob_spread_multiplier := spread_multiplier; knob_size_scalar := size_scalar;
               knob_directional_skew := directional_skew; knob_enabled := enabled |}];
         pf_sim_steps := pf_sim_steps p; pf_last_now_ms := pf_last_now_ms p |}
  | SimStep _ step_underlying _ _ _ =>
      if String.eqb step_underlying underlying then
        {| pf_latest := pf_latest p; pf_max_seq := pf_max_seq p; pf_controls := pf_controls p;
           pf_sim_steps := count_up usize (pf_sim_steps p); pf_last_now_ms := pf_last_now_ms p |}
      else p
  | _ => p
  end.

Definition recovered_producer_state (events : list VenueEvent) (underlying : string) :
    RecoveredProducerState :=
  let p :=
    foldl (fold_producer underlying)
      {| pf_latest := ∅; pf_max_seq := None; pf_controls := []; pf_sim_steps := 0;
         pf_last_now_ms := None |} events in
  {| rp_legs := pf_latest p;
     rp_next_seq_floor :=
       match pf_max_seq p with
       | Some seq => default (int_max u64) (checked_add u64 seq 1)
       | None => 0
       end;
     rp_controls := pf_controls p; rp_sim_steps := pf_sim_steps p;
     rp_last_now_ms := pf_last_now_ms p |}.

(** ** The venue *)

Record AppStateConfig := {
  ac_underlyings : list string;
  ac_lineage_id : LineageId;
  ac_mailbox_capacity : Z;
  ac_clock : VenueClockConfig;
  ac_seed : Z;
  ac_microstructure : MicrostructureConfig;
  ac_ingress_buffer_capacity : Z;
}.

Section boot.
Context {D J W Q : Type} `{!JournalDatabase D J, !VenueJournal J, !Upstream}
  `{!MarkPriceCalculator, !FanOut W, !SharedProjection W Q}.
(** The in-memory journal, and a market-data fan-out over its subscriptions. *)
Context (ephemeral : JournalHeader → J) (ws_new : Q → W).

Notation fan_out := (TeeFanOut StoreFanOut W).
Notation venue_actor := (UnderlyingActor J MatchingExecutor fan_out SimClock).
Notation projections := (StoreProjections * Q)%type.

Record RecoveredUnderlying := { ru_recovered : Recovered; ru_persisted_lineage : LineageId }.

Definition recover_underlying (db : option D) (config : MicrostructureConfig) (ticker : string)
    (index : ClOrdIdIndex) : result AppStateError (option RecoveredUnderlying * ClOrdIdIndex) :=
  match db with
  | None => Ok (None, index)
  | Some pool =>
      match open_for_recovery pool ticker with
      | Ok journal =>
          executor ← map_err BootMicrostructure (new_with_microstructure ticker config);
          match recover_into journal executor (Some config) (Some index) with
          | (_, Err source) => Err (BootRecovery ticker source)
          | (recovered_index, Ok recovered) =>
              Ok (match rec_last_sequence recovered with
                  | Some _ =>
                      Some {| ru_recovered := recovered;
                              ru_persisted_lineage := header_lineage_id (journal_header journal) |}
                  | None => None
                  end, default index recovered_index)
          end
      | Err e =>
          if decide (e = DbValueRange "journal header") then Ok (None, index) else Err (BootDb e)
      end
  end.

(** The hosted tickers in configuration order, without duplicates, and what was recovered. *)
Fixpoint recover_all (db : option D) (config : MicrostructureConfig) (tickers : list string)
    (ordered : list string) (recovered : gmap string RecoveredUnderlying) (index : ClOrdIdIndex) :
    result AppStateError (list string * gmap string RecoveredUnderlying * ClOrdIdIndex) :=
  match tickers with
  | [] => Ok (ordered, recovered, index)
  | ticker :: tickers =>
      if decide (ticker ∈ ordered) then recover_all db config tickers ordered recovered index
      else
        '(r, index) ← recover_underlying db config ticker index;
        recover_all db config tickers (ordered ++ [ticker])
          (match r with Some entry => <[ticker := entry]> recovered | None => recovered end) index
  end.

Fixpoint resolve_lineage (recovered : gmap string RecoveredUnderlying) (ordered : list string)
    (resolved : option (string * LineageId)) : result AppStateError (option (string * LineageId)) :=
  match ordered with
  | [] => Ok resolved
  | ticker :: ordered =>
      match recovered !! ticker with
      | None => resolve_lineage recovered ordered resolved
      | Some entry =>
          match resolved with
          | None =>
              resolve_lineage recovered ordered (Some (ticker, ru_persisted_lineage entry))
          | Some (first_ticker, first_lineage) =>
              if String.eqb first_lineage (ru_persisted_lineage entry)
              then resolve_lineage recovered ordered resolved
              else Err (BootLineageConflict first_ticker first_lineage ticker
                          (ru_persisted_lineage entry))
          end
      end
  end.

(** A fan-out of its own over the shared stores. *)
Definition store_fan_out (p : StoreProjections) : StoreFanOut :=
  projection_load p StoreFanOut_new.

Definition rebuild_stores_from_events (stores : StoreProjections) (events : list VenueEvent) :
    result FanOutSealed StoreProjections :=
  match emit_all (store_fan_out stores) events with
  | (f, Ok _) => Ok (projection_store f)
  | (_, Err e) => Err e
  end.

(** The loop state of the bring-up: the actors, the shared projections, and what the
    producers are handed back. *)
Record BringUp := {
  bu_actors : gmap string venue_actor;
  bu_projections : projections;
  bu_recovered : gset string;
  bu_reference_prices : gmap string Z;
  bu_producers : gmap string RecoveredProducerState;
}.

Definition journal_for (db : option D) (ticker : string) (header : JournalHeader) :
    result AppStateError J :=
  match db with
  | Some pool => map_err BootDb (open_journal pool ticker header)
  | None => Ok (ephemeral header)
  end.

Definition new_actor (config : ActorConfig) (journal : J) (executor : MatchingExecutor)
    (p : projections) (clock : SimClock) (index : ClOrdIdIndex) : venue_actor :=
  with_clordid_index
    (Actor_new config journal executor
       {| tee_first := store_fan_out p.1; tee_second := ws_new p.2 |} clock)
    (Some index).

Definition bring_up_recovered (config : AppStateConfig) (db : option D) (lineage_id : LineageId)
    (clock : SimClock) (index : ClOrdIdIndex) (ticker : string) (recovered : Recovered)
    (b : BringUp) : result AppStateError BringUp :=
  last ← ok_or (BootRecovery ticker (Backend "recovery last_sequence missing on a non-empty stream"))
           (rec_last_sequence recovered);
  start ← ok_or (BootSequenceExhausted ticker last) (checked_next last);
  stores ← map_err (λ e, BootProjectionFailed ticker (projection e) (detail e))
             (rebuild_stores_from_events (bu_projections b).1 (rec_events recovered));
  pool ← ok_or (BootDb DbUnavailable) db;
  journal ← map_err BootDb (open_journal pool ticker (JournalHeader_new lineage_id));
  let actor_config :=
    with_start_sequence (ActorConfig_new ticker lineage_id (ac_mailbox_capacity config)) start in
  let p := (stores, (bu_projections b).2) in
  Ok {| bu_actors :=
          <[ticker := new_actor actor_config journal (rec_executor recovered) p clock index]>
            (bu_actors b);
        bu_projections := p;
        bu_recovered := bu_recovered b ∪ {[ticker]};
        bu_reference_prices :=
          match last_recovered_reference_price (rec_events recovered) ticker with
          | Some price => <[ticker := price]> (bu_reference_prices b)
          | None => bu_reference_prices b
          end;
        bu_producers :=
          <[ticker := recovered_producer_state (rec_events recovered) ticker]> (bu_producers b) |}.

Definition bring_up_fresh (config : AppStateConfig) (db : option D) (lineage_id : LineageId)
    (clock : SimClock) (index : ClOrdIdIndex) (ticker : string) (b : BringUp) :
    result AppStateError BringUp :=
  journal ← journal_for db ticker (JournalHeader_new lineage_id);
  executor ← map_err BootMicrostructure
               (new_with_microstructure ticker (ac_microstructure config));
  let actor_config := ActorConfig_new ticker lineage_id (ac_mailbox_capacity config) in
  Ok {| bu_actors :=
          <[ticker := new_actor actor_config journal executor (bu_projections b) clock index]>
            (bu_actors b);
        bu_projections := bu_projections b; bu_recovered := bu_recovered b;
        bu_reference_prices := bu_reference_prices b; bu_producers := bu_producers b |}.

Fixpoint bring_up (config : AppStateConfig) (db : option D) (lineage_id : LineageId)
    (clock : SimClock) (index : ClOrdIdIndex) (recovered : gmap string RecoveredUnderlying)
    (ordered : list string) (b : BringUp) : result AppStateError BringUp :=
  match ordered with
  | [] => Ok b
  | ticker :: ordered =>
      b ← match recovered !! ticker with
          | Some entry =>
              bring_up_recovered config db lineage_id clock index ticker (ru_recovered entry) b
          | None => bring_up_fresh config db lineage_id clock index ticker b
          end;
      bring_up config db lineage_id clock index recovered ordered b
  end.

(** The venue, the lineage it runs under and the bring-up it came from, over subscriptions
    [subscriptions].  The credentials, the market maker and the simulator the constructor
    also wires up are not part of this model of the venue. *)
Definition AppState_new (config : AppStateConfig) (db : option D) (subscriptions : Q) :
    result AppStateError (Venue (SharedState projections) venue_actor * LineageId * BringUp) :=
  _ ← map_err BootMicrostructure (config_validate (ac_microstructure config));
  let clock := SimClock_new (ac_clock config) in
  '(ordered, recovered, index) ←
    recover_all db (ac_microstructure config) (ac_underlyings config) [] ∅ with_default_ceiling;
  resolved ← resolve_lineage recovered ordered None;
  let lineage_id :=
    match resolved with Some (_, persisted) => persisted | None => ac_lineage_id config end in
  b ← bring_up config db lineage_id clock index recovered ordered
        {| bu_actors := ∅; bu_projections := (projection_store StoreFanOut_new, subscriptions);
           bu_recovered := ∅; bu_reference_prices := ∅; bu_producers := ∅ |};
  Ok ({| v_underlyings := bu_actors b;
         v_shared := {| sh_projections := bu_projections b; sh_clordid_index := Some index |};
         v_clock := clock; v_seed := ac_seed config; v_microstructure := ac_microstructure config;
         v_correlation_counter := 0; v_expiry_phases := ∅;
         v_ingress :=
           (λ _, IngressReorderBuffer_new (ac_ingress_buffer_capacity config)) <$> bu_actors b;
         v_arrival_counter := 0; v_rest_ingress_counter := 0; v_replies := [] |},
      lineage_id, b).
End boot.
