(* ===== verification/BootProps.v ===== *)
(** A restart: the venue brought up over a journal is the venue that wrote it. *)

From S2P Require Export RecoveryProps Boot.

(** ** The last sequence of a log *)

Lemma max_sequence_spec l m :
  (∃ r, r ∈ l ∧ record_sequence r = m) → (∀ r, r ∈ l → record_sequence r ≤ m) →
  max_sequence l = Some m.
Proof.
  destruct l as [|r0 l]; [by intros (? & ?%not_elem_of_nil & _)|]. cbn. intros Hex Hle. f_equal.
  assert (record_sequence r0 ≤ m) as H0 by (apply Hle; left).
  assert (record_sequence r0 = m ∨ ∃ r, r ∈ l ∧ record_sequence r = m) as Hm.
  { destruct Hex as (r & [->|Hr]%elem_of_cons & E); [by left|right; by exists r]. }
  assert (∀ r, r ∈ l → record_sequence r ≤ m) as Hl by (intros r ?; apply Hle; by right).
  clear Hex Hle. revert H0 Hm. generalize (record_sequence r0). clear r0.
  induction l as [|r l IH]; intros k H0 Hm; cbn.
  { destruct Hm as [|(? & ?%not_elem_of_nil & _)]; done. }
  apply IH; [intros r' ?; apply Hl; by right|specialize (Hl r ltac:(by left)); lia|].
  specialize (Hl r ltac:(by left)).
  destruct Hm as [->|(r' & [->|Hr']%elem_of_cons & E)]; [left; lia|left; lia|right; by exists r'].
Qed.

Section log.
Context `{Upstream}.

Lemma log_records_snoc_sequence u lineage x n l tc :
  command_record (n + Z.of_nat (length l)) tc.1 tc.2 ∈ log_records u lineage x n (l ++ [tc]).
Proof.
  revert x n. induction l as [|tc' l IH]; intros x n.
  - cbn [app log_records length]. rewrite Z.add_0_r. left.
  - cbn [app log_records length]. right. right.
    replace (n + Z.of_nat (S (length l))) with (n + 1 + Z.of_nat (length l)) by lia. apply IH.
Qed.

Lemma max_sequence_log u lineage x n log pend :
  (length pend ≤ 1)%nat → log ++ pend ≠ [] →
  max_sequence
    (log_records u lineage x n log ++
     ((λ tc, command_record (n + Z.of_nat (length log)) tc.1 tc.2) <$> pend)) =
    Some (n + Z.of_nat (length (log ++ pend)) - 1).
Proof.
  intros Hp Hne. apply max_sequence_spec.
  - destruct pend as [|tc pend].
    + cbn [fmap list_fmap]. rewrite !app_nil_r in Hne |- *.
      destruct log as [|tc log _] using rev_ind; [done|].
      exists (command_record (n + Z.of_nat (length log)) tc.1 tc.2). split.
      * apply log_records_snoc_sequence.
      * rewrite !length_app. cbn. lia.
    + exists (command_record (n + Z.of_nat (length log)) tc.1 tc.2).
      destruct pend; [|cbn in Hp; lia]. split.
      * apply elem_of_app. right. cbn. left.
      * rewrite !length_app. cbn. lia.
  - intros r [Hr|Hr]%elem_of_app.
    + apply log_records_bound in Hr. rewrite length_app. lia.
    + apply list_elem_of_fmap in Hr as (tc & -> & Hin). rewrite length_app. cbn.
      destruct pend; [by apply not_elem_of_nil in Hin|cbn; lia].
Qed.
End log.

(** ** The fan-out *)

Section fan_out.
Context `{Upstream, MarkPriceCalculator}.

Lemma emit_fills_sealed f e symbol u fills f' :
  emit_fills f e symbol u fills = (f', Ok tt) → sealed f' = sealed f.
Proof.
  revert f. induction fills as [|fill fills IH]; intros f; cbn; [by intros [= ->]|].
  destruct (exec_record _ _) as [execs [[]|err]]; [|done].
  destruct (positions_apply _ _) as [pos [[]|err]]; [|done]. intros Hf. by apply IH in Hf.
Qed.

Lemma emit_sealed f e f' : emit f e = (f', Ok tt) → sealed f = false ∧ sealed f' = false.
Proof.
  unfold emit. destruct (sealed f) eqn:Hs; [done|].
  destruct (command_symbol (ev_command e)) as [symbol|]; [|by intros [= <-]].
  case_bool_decide; [by intros [= <-]|].
  destruct (underlying_of symbol) as [u|]; [|by intros [= <-]].
  destruct (emit_fills f e symbol u _) as [f1 [[]|err]] eqn:Hf; [|done].
  intros [= <-]. cbn. apply emit_fills_sealed in Hf. by rewrite Hf.
Qed.

Lemma emit_all_sealed f es f' :
  sealed f = false → emit_all f es = (f', Ok tt) → sealed f' = false.
Proof.
  revert f. induction es as [|e es IH]; intros f Hs; cbn; [by intros [= <-]|].
  destruct (emit f e) as [f1 [[]|err]] eqn:He; [|done].
  apply IH. by eapply emit_sealed.
Qed.

Lemma store_fan_out_id f : sealed f = false → store_fan_out (projection_store f) = f.
Proof. destruct f. by intros [= ->]. Qed.

Lemma tee_emits `{FanOut W} (f f' : TeeFanOut StoreFanOut W) es :
  emits f es = (f', Ok tt) → emit_all (tee_first f) es = (tee_first f', Ok tt).
Proof.
  revert f. induction es as [|e es IH]; intros f; cbn [emits emit_all]; [by intros [= <-]|].
  unfold fan_out_emit at 1, TeeFanOut_fan_out. unfold fan_out_emit at 1, StoreFanOut_fan_out.
  destruct (emit (tee_first f) e) as [a [[]|err]]; [|done].
  destruct (fan_out_emit (tee_second f) e) as [b [[]|err]]; [|done].
  intros Hf. by apply IH in Hf.
Qed.
End fan_out.

(** ** The epoch *)

Lemma handle_epoch `{VenueJournal J, CommandExecutor E, FanOut F, VenueClock C}
    (a : UnderlyingActor J E F C) c : act_epoch (handle a c).1 = act_epoch a.
Proof.
  unfold handle. destruct (act_sealed a); [done|]. destruct (now_ms (act_clock a)) as [ts clock].
  unfold write_ahead_command. cbn [act_journal with_clock].
  destruct (journal_append (act_journal a) _) as [j r].
  set (wa := match r with Ok _ => _ | Err _ => _ end).
  assert (act_epoch wa.1 = act_epoch a) as Hw.
  { subst wa. destruct r as [[]|[]]; try done. by destruct (journal_contains _ _ _). }
  destruct wa as [a1 [|]]; cbn [fst] in Hw; [|done].
  destruct (executor_execute _ _) as [x o].
  destruct (journal_append _ (REvent _)) as [j2 [[]|e]]; [|done].
  cbn [act_clordid_index with_journal with_executor].
  set (a2 := match act_clordid_index a1 with Some _ => _ | None => _ end).
  assert (act_epoch a2 = act_epoch a) as Ha2 by (subst a2; by destruct (act_clordid_index a1)).
  destruct (fan_out_emit _ _) as [f [[]|e]]; [|done]. by destruct (checked_next _).
Qed.

(** ** The restart *)

Section restart.
Context {D W Q : Type} {US : Upstream} {MP : MarkPriceCalculator} {SD : Serde} {FW : FanOut W}
  {SW : SharedProjection W Q} {JD : JournalDatabase D InMemoryVenueJournal}.
Context (ephemeral : JournalHeader → InMemoryVenueJournal) (ws_new : Q → W).
Notation fan_out := (TeeFanOut StoreFanOut W).
Notation venue_actor := (UnderlyingActor InMemoryVenueJournal MatchingExecutor fan_out SimClock).
Implicit Types a : venue_actor.

(** The database holds the journal of one run of the underlying. *)
Definition durable (db : D) (u lineage : string) (j : InMemoryVenueJournal) : Prop :=
  im_header j = JournalHeader_new lineage ∧ open_for_recovery db u = Ok j ∧
  open_journal db u (JournalHeader_new lineage) = Ok j.

(** The actor of a new process in the state of [a], over the journal [j]: it has a clock and
    a market-data feed of its own. *)
Definition resumed a (j : InMemoryVenueJournal) (clock : SimClock) (subscriptions : Q) :
    venue_actor :=
  {| act_underlying := act_underlying a; act_lineage_id := act_lineage_id a; act_journal := j;
     act_executor := act_executor a;
     act_fan_out :=
       {| tee_first := tee_first (act_fan_out a); tee_second := ws_new subscriptions |};
     act_clock := clock; act_next_sequence := act_next_sequence a; act_epoch := act_epoch a;
     act_sealed := None; act_clordid_index := act_clordid_index a |}.

Definition resumes (config : AppStateConfig) (db : D) (subscriptions : Q) (u lineage : string)
    a (j : InMemoryVenueJournal) : Prop :=
  ∃ v b, AppState_new ephemeral ws_new config (Some db) subscriptions = Ok (v, lineage, b) ∧
    v_underlyings v = {[ u := resumed a j (SimClock_new (ac_clock config)) subscriptions ]} ∧
    v_shared v =
      {| sh_projections := (projection_store (tee_first (act_fan_out a)), subscriptions);
         sh_clordid_index := act_clordid_index a |}.

Lemma boot_log config db q u x0 lineage j log pend f a :
  config_validate (ac_microstructure config) = Ok tt →
  ac_underlyings config = [u] →
  new_with_microstructure u (ac_microstructure config) = Ok x0 → underlying x0 = u →
  durable db u lineage j →
  im_records j = log_records u lineage x0 0 log ++
    ((λ tc, command_record (0 + Z.of_nat (length log)) tc.1 tc.2) <$> pend) →
  (length pend ≤ 1)%nat → log ++ pend ≠ [] →
  Forall (λ tc, is_ok (replay_admission (Some (ac_microstructure config)) tc.2) = true)
    (log ++ pend) →
  Forall (λ tc, no_nan tc.2) log →
  Z.of_nat (length (log ++ pend)) < 2 ^ 64 →
  emit_all StoreFanOut_new (log_events u lineage x0 0 (log ++ pend)) = (f, Ok tt) →
  act_underlying a = u → act_lineage_id a = lineage →
  act_executor a = (run u lineage x0 0 (log ++ pend)).1 →
  tee_first (act_fan_out a) = f →
  act_next_sequence a = Z.of_nat (length (log ++ pend)) → act_epoch a = 0 →
  act_clordid_index a = Some (log_index u lineage x0 0 (log ++ pend) with_default_ceiling) →
  resumes config db q u lineage a j.
Proof.
  intros Hval Hus Hx0 Hu (Hh & Ho1 & Ho2) Hr Hp Hne Hadm Hnan Hlen Hemit Au Al Ax Af An Ae Ai.
  pose proof (recover_into_log j x0 lineage 0 log pend (Some (ac_microstructure config))
    (Some with_default_ceiling)) as Hrec.
  rewrite Hu in Hrec. specialize (Hrec Hh Hr ltac:(lia) Hp Hadm Hnan).
  rewrite Hr, max_sequence_log in Hrec by done. rewrite Z.add_0_l in Hrec.
  assert (0 < length (log ++ pend))%nat as Hpos.
  { apply Nat.neq_0_lt_0. by intros ?%nil_length_inv. }
  assert (sealed f = false) as Hs by by eapply (emit_all_sealed StoreFanOut_new).
  unfold resumes, AppState_new. rewrite Hval. cbn [map_err mbind result_bind].
  rewrite Hus. cbn [recover_all]. rewrite decide_False by apply not_elem_of_nil.
  unfold recover_underlying. rewrite Ho1, Hx0. cbn [map_err mbind result_bind].
  rewrite Hrec. cbn [mbind result_bind rec_last_sequence default fmap option_fmap option_map].
  cbn [recover_all mbind result_bind app resolve_lineage]. rewrite lookup_insert_eq.
  cbn [mbind result_bind bring_up]. rewrite lookup_insert_eq.
  change (header_lineage_id (journal_header j)) with (header_lineage_id (im_header j)).
  rewrite Hh. cbn [ru_recovered ru_persisted_lineage header_lineage_id JournalHeader_new].
  unfold bring_up_recovered. cbn [rec_last_sequence ok_or mbind result_bind].
  unfold checked_next, checked_add. rewrite narrow_fits by (unfold_int; lia).
  cbn [ok_or mbind result_bind bu_projections fst snd rec_events].
  unfold rebuild_stores_from_events. rewrite store_fan_out_id by done. rewrite Hemit.
  cbn [map_err mbind result_bind ok_or]. change {| schema_version := VENUE_ENVELOPE_SCHEMA; header_lineage_id := lineage |} with (JournalHeader_new lineage). rewrite Ho2. cbn [map_err mbind result_bind].
  eexists _, _. split; [done|]. cbn [v_underlyings v_shared bu_actors bu_projections].
  split.
  - rewrite insert_empty. f_equal. unfold new_actor, resumed, with_clordid_index, Actor_new. cbn.
    rewrite Au, Al, Ax, Af, An, Ae, Ai. destruct f. cbn in Hs |- *. subst. f_equal. lia.
  - by rewrite Af, Ai.
Qed.

Lemma handle_all_epoch a cs : act_epoch (handle_all a cs).1 = act_epoch a.
Proof.
  revert a. induction cs as [|c cs IH]; intros a; cbn; [done|].
  pose proof (handle_epoch a c) as He. destruct (handle a c) as [b r]. cbn in He.
  specialize (IH b). destruct (handle_all b cs). cbn in *. congruence.
Qed.

Lemma admitted_sublist (m : option MicrostructureConfig) (cs : list VenueCommand)
    (l : list (Z * VenueCommand)) :
  l.*2 `sublist_of` cs → Forall (λ c, is_ok (replay_admission m c) = true) cs →
  Forall (λ tc, is_ok (replay_admission m tc.2) = true) l.
Proof.
  intros Hsub Hc. apply Forall_forall. intros tc Htc. rewrite Forall_forall in Hc. apply Hc.
  eapply elem_of_sublist; [|done]. by apply list_elem_of_fmap_2.
Qed.

(** A fresh actor, as brought up over an empty database. *)
Definition first_actor (u lineage : string) (capacity : Z) (x0 : MatchingExecutor)
    (subscriptions : Q) (clock : SimClock) : venue_actor :=
  new_actor ws_new (ActorConfig_new u lineage capacity)
    (InMemoryVenueJournal_new (JournalHeader_new lineage)) x0
    (projection_store StoreFanOut_new, subscriptions) clock with_default_ceiling.

Lemma first_actor_fresh u lineage capacity x0 q clock :
  fresh_actor (first_actor u lineage capacity x0 q clock).
Proof. by split. Qed.

End restart.
