(* ===== verification/VenueSample.v ===== *)
(** Concrete venues: the witnesses of the venue's theorems, a partial fan-out that an expiry
    roll takes for a commit, and a restart. *)

From S2P Require Import SampleBook ActorProps VenueProps BootProps.

Definition book_actor : Type :=
  UnderlyingActor InMemoryVenueJournal MatchingExecutor StoreFanOut SimClock.

(** An actor behind a mailbox that is full for its next [mb_full] messages. *)
Record MailboxActor := { mb_full : nat; mb_served : book_actor }.

#[export] Instance MailboxActor_service : ActorService (SharedState StoreProjections) MailboxActor :=
  λ clock shared a command,
    match mb_full a with
    | Datatypes.S n => (shared, {| mb_full := n; mb_served := mb_served a |}, Err RateLimited)
    | O =>
        let '(shared, b, r) := actor_submit clock shared (mb_served a) command in
        (shared, {| mb_full := 0; mb_served := b |}, r)
    end.

Definition sample_clock : SimClock :=
  SimClock_new {| cc_mode := Stepped 1000; cc_start_ms := 10 |}.

Definition sample_actor (underlying : string) (full : nat) : MailboxActor :=
  {| mb_full := full;
     mb_served :=
       Actor_new (ActorConfig_new underlying "run-1" 64)
         (InMemoryVenueJournal_new (JournalHeader_new "run-1")) (executor_new underlying)
         StoreFanOut_new sample_clock |}.

Definition sample_app (latency : LatencyConfig) :
    Venue (SharedState StoreProjections) MailboxActor :=
  {| v_underlyings := {[ "BTC" := sample_actor "BTC" 0; "ETH" := sample_actor "ETH" 0 ]};
     v_shared := {| sh_projections := projection_store StoreFanOut_new;
                   sh_clordid_index := Some with_default_ceiling |};
     v_clock := sample_clock; v_seed := 42;
     v_microstructure :=
       {| fees := fees MicrostructureConfig_default; stp := StpOff; default_specs := baseline;
          per_underlying := []; per_symbol := []; latency := latency |};
     v_correlation_counter := 0; v_expiry_phases := ∅;
     v_ingress := {[ "BTC" := IngressReorderBuffer_new 8; "ETH" := IngressReorderBuffer_new 8 ]};
     v_arrival_counter := 0; v_rest_ingress_counter := 0; v_replies := [] |}.

Lemma sample_app_ingress_ok latency : ingress_ok (sample_app latency).
Proof.
  split.
  - apply (bool_decide_unpack _). by vm_compute.
  - intros t b key c reply Ht Hk. exfalso. cbn in Ht.
    assert (b = IngressReorderBuffer_new 8) as ->.
    { apply lookup_insert_Some in Ht as [[_ <-]|[_ Ht]]; [done|].
      by apply lookup_singleton_Some in Ht as [_ <-]. }
    change ((∅ : gmap ReleaseKey (VenueCommand * nat)) !! key = Some (c, reply)) in Hk.
    by rewrite lookup_empty in Hk.
Qed.

Definition no_float (c : LatencyConfig) (g : SplitMix64) : Z := 0.

Definition eth_call : Symbol := "ETH-20240329-50000-C".
Definition sample_listed : list string := [btc_call; eth_call].

(** An order held at ingress for five milliseconds, released by the clock. *)
Definition sample_calls : list VenueOp :=
  [OpIngress (limit_add btc_call "v0" "alice" 1 (Some "a-1") Sell 100 5)
     {| is_session_id := "alice"; is_msg_seq := 1 |} 0;
   OpClockTo 1010; OpSubmit (SetInstrumentStatus eth_call Active);
   OpRoll ExpirySchedule_default 1711699200000 sample_listed].

Example held_order_committed :
  let w := foldl (venue_op no_float) (sample_app (LatFixed 5000)) sample_calls in
  (λ e, (e.1, match e.2 with Ok r => receipt_outcome r | Err _ => None end)) <$> v_replies w =
    [(0%nat, Some (Added [] 5 []))].
Proof. vm_compute. reflexivity. Qed.

Lemma only_admitted_commands_reach_actors_witness :
  let v := sample_app (LatFixed 5000) in
  let w := foldl (venue_op no_float) v sample_calls in
  length (v_replies w) = 1%nat ∧
  ∃ log, (v_underlyings w, v_shared w) = foldl deliver (v_underlyings v, v_shared v) log ∧
    (∀ clock ticker command, (clock, (ticker, command)) ∈ log →
       ticker ∈ dom (v_underlyings v) ∧ addressed ticker command ∧
       admissible (v_microstructure v) command).
Proof.
  split; [by vm_compute|].
  destruct (only_admitted_commands_reach_actors no_float (sample_app (LatFixed 5000)) sample_calls
    (sample_app_ingress_ok _)) as (log & H1 & H2 & _).
  exists log. split; [exact H1|exact H2].
Defined.

(** A kill switch while the mailbox of one underlying is full: reported as one of two. *)
Definition busy_app : Venue (SharedState StoreProjections) MailboxActor :=
  with_actors {[ "BTC" := sample_actor "BTC" 1; "ETH" := sample_actor "ETH" 0 ]}
    (v_shared (sample_app LatDisabled)) (sample_app LatDisabled).

Lemma fanout_reported_exactly_witness :
  match submit (MarketMakerControl None None None (Some false)) busy_app with
  | (_, Ok r) => receipt_fanout r = Some {| ok_count := 1; fanout_total := 2 |}
  | _ => False
  end.
Proof.
  destruct (fanout_reported_exactly (MarketMakerControl None None None (Some false)) busy_app)
    as (_ & _ & _ & Hs); [done|done|by vm_compute|].
  match type of Hs with match ?x with _ => _ end => destruct x as [r|] eqn:E end.
  - destruct Hs as [-> _]. by vm_compute.
  - exfalso. vm_compute in E. discriminate E.
Defined.

(** The mass cancel of an expiry roll finds the mailbox of its own underlying full; that the
    other underlying committed is enough for the roll to go on and record the expiration as
    settling, its order still resting, and no later roll sweeps it. *)
Definition resting_app : Venue (SharedState StoreProjections) MailboxActor :=
  (submit (limit_add btc_call "v0" "alice" 1 (Some "a-1") Sell 100 5) (sample_app LatDisabled)).1.
Definition resting_busy_app : Venue (SharedState StoreProjections) MailboxActor :=
  with_actors
    (alter (λ a, {| mb_full := 1; mb_served := mb_served a |}) "BTC" (v_underlyings resting_app))
    (v_shared resting_app) resting_app.

Definition still_resting (v : Venue (SharedState StoreProjections) MailboxActor) : nat :=
  match v_underlyings v !! "BTC" with
  | Some a => size (resting (act_executor (mb_served a)))
  | None => 0
  end.

Example settling_with_resting_order :
  let instant := 1711699200000 / MS_PER_DAY * MS_PER_DAY + DEFAULT_EXPIRY_OFFSET_MS in
  let '(w, r) := run_expiry_roll ExpirySchedule_default instant [btc_call] resting_busy_app in
  r = Ok {| rr_settling := 1; rr_expired := 0; rr_commands_issued := 2 |} ∧
  last_phase w ("BTC", 1711699200000) = PhSettling ∧ still_resting w = 1%nat ∧
  still_resting (run_expiry_roll ExpirySchedule_default (instant + MS_PER_DAY) [btc_call] w).1
    = 1%nat.
Proof. vm_compute. split_and!; reflexivity. Qed.

(** ** A restart *)

(** A database of one journal, and a market-data feed that keeps nothing. *)
#[export] Instance OneJournal : JournalDatabase InMemoryVenueJournal InMemoryVenueJournal := {
  open_for_recovery db _ := Ok db;
  open_journal db _ _ := Ok db;
}.
#[export] Instance Noop_projection : SharedProjection NoopFanOut unit := {
  projection_load _ f := f;
  projection_store _ := tt;
}.

Definition no_feed (_ : unit) : NoopFanOut := Build_NoopFanOut.

Definition boot_config : AppStateConfig :=
  {| ac_underlyings := ["BTC"]; ac_lineage_id := "run-2"; ac_mailbox_capacity := 64;
     ac_clock := {| cc_mode := Stepped 1000; cc_start_ms := 5000 |}; ac_seed := 42;
     ac_microstructure := v_microstructure (sample_app LatDisabled);
     ac_ingress_buffer_capacity := 8 |}.

Definition boot_executor : MatchingExecutor :=
  match new_with_microstructure "BTC" (ac_microstructure boot_config) with
  | Ok x => x
  | Err _ => executor_new "BTC"
  end.

Definition old_process :
    UnderlyingActor InMemoryVenueJournal MatchingExecutor (TeeFanOut StoreFanOut NoopFanOut)
      SimClock :=
  (handle_all (first_actor no_feed "BTC" "run-1" 64 boot_executor tt sample_clock)
     sample_commands).1.

