(* ===== verification/OrderModels.v ===== *)
(** The order wire models ([src/src/models.rs]): requests and responses of the order routes,
    and the shape rules every order surface shares. *)

From S2P Require Export VenueErrors Actor.

Inductive DtoSide := DtoBuy | DtoSell.
Inductive DtoTif := DtoGtc | DtoIoc | DtoFok | DtoGtd.
Definition DtoTif_default : DtoTif := DtoGtc.
Inductive LimitOrderStatus := LimitAccepted | LimitFilled | LimitPartial | LimitRejected.
Inductive MarketOrderStatus := MarketFilled | MarketPartial | MarketRejected.
Inductive BulkOrderStatus := BulkAccepted | BulkRejected.
#[export] Instance DtoTif_eq_dec : EqDecision DtoTif. Proof. solve_decision. Defined.
#[export] Instance LimitOrderStatus_eq_dec : EqDecision LimitOrderStatus.
Proof. solve_decision. Defined.
#[export] Instance MarketOrderStatus_eq_dec : EqDecision MarketOrderStatus.
Proof. solve_decision. Defined.
#[export] Instance BulkOrderStatus_eq_dec : EqDecision BulkOrderStatus.
Proof. solve_decision. Defined.

Definition MAX_PRICE_CENTS : Z := 1_000_000_000_000.
Definition MAX_ORDER_QUANTITY : Z := 1_000_000.
Definition MAX_BULK_ORDER_ITEMS : Z := 500.
Definition MAX_BULK_CANCEL_ITEMS : Z := 500.

(** ** Shape *)

Definition validate_order_shape (order_type : OrderType) (limit_price : option Cents)
    (quantity : Z) : result VenueError unit :=
  if quantity =? 0 then Err (VInvalidOrder "order quantity must be positive")
  else if MAX_ORDER_QUANTITY <? quantity then
    Err (VInvalidOrder ("order quantity " +:+ dec quantity +:+ " exceeds MAX_ORDER_QUANTITY ("
                          +:+ dec MAX_ORDER_QUANTITY +:+ ")"))
  else
    match order_type, limit_price with
    | Limit, None => Err (VInvalidOrder "limit order requires a limit price")
    | Market, Some _ => Err (VInvalidOrder "market order must not carry a limit price")
    | Limit, Some price =>
        if price =? 0 then Err (VInvalidOrder "limit price must be positive")
        else if MAX_PRICE_CENTS <? price then
          Err (VInvalidOrder ("limit price " +:+ dec price +:+ " cents exceeds MAX_PRICE_CENTS ("
                                +:+ dec MAX_PRICE_CENTS +:+ ")"))
        else Ok tt
    | Market, None => Ok tt
    end.

Definition validate_gtd_expiry (time_in_force : DtoTif) (gtd_expires_at : option EventTimestamp)
    (now : EventTimestamp) : result VenueError unit :=
  match time_in_force, gtd_expires_at with
  | DtoGtd, Some expiry =>
      if now <? expiry then Ok tt
      else Err (VInvalidOrder ("GTD expiry " +:+ dec expiry
              +:+ " ms must be strictly in the future (venue-clock now " +:+ dec now +:+ " ms)"))
  | DtoGtd, None => Err (VInvalidOrder "GTD order requires a gtd_expires_at instant")
  | _, Some _ => Err (VInvalidOrder "gtd_expires_at is only valid with a GTD time-in-force")
  | _, None => Ok tt
  end.

(** ** Requests *)

Record PlaceLimitOrderRequest := {
  plo_side : DtoSide; plo_price : Cents; plo_quantity : Z; plo_time_in_force : option DtoTif;
  plo_gtd_expires_at : option EventTimestamp; plo_client_order_id : option ClientOrderId }.

Definition plo_validate (r : PlaceLimitOrderRequest) (now : EventTimestamp) :
    result VenueError unit :=
  _ ← validate_order_shape Limit (Some (plo_price r)) (plo_quantity r);
  validate_gtd_expiry (default DtoTif_default (plo_time_in_force r)) (plo_gtd_expires_at r) now.

Record PlaceMarketOrderRequest := {
  pmo_side : DtoSide; pmo_quantity : Z; pmo_client_order_id : option ClientOrderId }.

Definition pmo_validate (r : PlaceMarketOrderRequest) : result VenueError unit :=
  validate_order_shape Market None (pmo_quantity r).

Record BulkOrderItem := {
  bi_symbol : Symbol; bi_side : DtoSide; bi_price : Cents; bi_quantity : Z;
  bi_time_in_force : option DtoTif; bi_gtd_expires_at : option EventTimestamp;
  bi_client_order_id : option ClientOrderId }.

Definition bi_validate (i : BulkOrderItem) (now : EventTimestamp) : result VenueError unit :=
  _ ← validate_order_shape Limit (Some (bi_price i)) (bi_quantity i);
  validate_gtd_expiry (default DtoTif_default (bi_time_in_force i)) (bi_gtd_expires_at i) now.

Record BulkOrderRequest := { br_orders : list BulkOrderItem; br_atomic : bool }.

Record ModifyOrderRequest := { mo_price : option Cents; mo_quantity : option Z }.
Record CancelAllQuery := {
  caq_underlying : option string; caq_expiration : option string; caq_side : option DtoSide;
  caq_style : option OptionStyle }.

(** ** Responses *)

Record PlaceLimitOrderResponse := {
  lr_order_id : VenueOrderId; lr_status : LimitOrderStatus; lr_filled_quantity : Z;
  lr_remaining_quantity : Z; lr_sequence : SequenceNumber; lr_message : string }.

Record FillPrint := { print_price : Cents; print_quantity : Z }.
Record PlaceMarketOrderResponse := {
  mr_order_id : VenueOrderId; mr_status : MarketOrderStatus; mr_filled_quantity : Z;
  mr_remaining_quantity : Z; mr_average_price : option Cents; mr_sequence : SequenceNumber;
  mr_fills : list FillPrint }.

Record CancelOrderResponse := {
  co_success : bool; co_sequence : SequenceNumber; co_message : string }.

Record BulkOrderResultItem := {
  bo_index : Z; bo_order_id : option VenueOrderId; bo_sequence : option SequenceNumber;
  bo_status : BulkOrderStatus; bo_error : option string }.
Record BulkOrderResponse := {
  bo_success_count : Z; bo_failure_count : Z; bo_results : list BulkOrderResultItem;
  bo_rolled_back : bool; bo_rollback_warnings : list string }.

Record BulkCancelResultItem := {
  bc_order_id : VenueOrderId; bc_canceled : bool; bc_error : option string }.
Record BulkCancelResponse := {
  bc_success_count : Z; bc_failure_count : Z; bc_results : list BulkCancelResultItem }.

Record CancelAllResponse := {
  al_canceled_count : Z; al_failed_count : Z; al_fully_applied : bool; al_ok_underlyings : Z;
  al_total_underlyings : Z }.

(** ** What the shape rules give *)

Lemma validate_order_shape_ok order_type limit_price quantity :
  has_ty u64 quantity → (∀ p, limit_price = Some p → has_ty u64 p) →
  validate_order_shape order_type limit_price quantity = Ok tt →
  0 < quantity ≤ MAX_ORDER_QUANTITY ∧
  match order_type with
  | Limit => ∃ p, limit_price = Some p ∧ 0 < p ≤ MAX_PRICE_CENTS
  | Market => limit_price = None
  end.
Proof.
  intros [? _] Hp. unfold validate_order_shape.
  destruct (Z.eqb_spec quantity 0); [done|].
  destruct (Z.ltb_spec MAX_ORDER_QUANTITY quantity); [done|].
  destruct order_type, limit_price as [p|]; try done.
  - specialize (Hp p eq_refl) as [? _].
    destruct (Z.eqb_spec p 0); [done|]. destruct (Z.ltb_spec MAX_PRICE_CENTS p); [done|].
    intros _. split; [cbn in *; lia|]. exists p. split; [done|cbn in *; lia].
  - intros _. split; [cbn in *; lia|done].
Qed.

(** The product of an accepted price and quantity fits the fee's 64-bit arithmetic. *)
Lemma accepted_notional_fits price quantity :
  0 < price ≤ MAX_PRICE_CENTS → 0 < quantity ≤ MAX_ORDER_QUANTITY → has_ty i64 (price * quantity).
Proof. unfold MAX_PRICE_CENTS, MAX_ORDER_QUANTITY. intros. split; cbn; nia. Qed.
