(* ===== verification/Gateway.v ===== *)
(** What the handlers of a gateway do to the venue, as programs.

    A handler runs concurrently with other handlers and with the actors, and is suspended
    wherever it awaits a receipt.  It is a tree whose nodes are its calls into the shared
    state ([AppState]) and whose branches are the answers: what a theorem states of every
    [trace] of the tree holds whatever the other tasks of the process do in between.  [run]
    executes a handler against a venue nobody else uses, which the samples do. *)

From S2P Require Export OrderModels Venue Auth FixStore Subscription.

(** What a receiver of the market-data broadcast finds ([tokio::sync::broadcast]). *)
Inductive Received :=
  | ReceivedMessage (message : WsMessage) | ReceivedEmpty | ReceivedLagged | ReceivedClosed.

(** The calls, each with the type of its answer: the venue and its stores ([state.rs]), the
    process-wide order counter ([gateway/rest/support.rs]), the limiter and the accounts
    ([auth.rs]), the live FIX sessions, the market-data broadcast, and the frames handed to
    the socket writer, [false] when it is gone. *)
Inductive GatewayCall : Type → Type :=
  | CallNow : GatewayCall EventTimestamp
  | CallLineage : GatewayCall LineageId
  | CallAccount (id : AccountId) : GatewayCall (option Account)
  | CallResolve (account : AccountId) (client_order_id : ClientOrderId) :
      GatewayCall (option ClOrdIdRecord)
  | CallExecutions (account : AccountId) (filter : ExecutionFilter) :
      GatewayCall (result StoreError (list ExecutionRecord))
  | CallOrderNumber : GatewayCall Z
  | CallIngressStamp (account : AccountId) : GatewayCall (result VenueError IngressStamp)
  | CallSubmit (command : VenueCommand) (stamp : IngressStamp) :
      GatewayCall (result VenueError Receipt)
  | CallMassCancel (command : VenueCommand) : GatewayCall (result VenueError MassCancelDelivery)
  | CallAllowed (key : RateLimitKey) : GatewayCall bool
  | CallFixLogin (username password : string) : GatewayCall (option FixLoginOutcome)
  | CallRevocationEpoch (id : AccountId) : GatewayCall (option Z)
  | CallClaimSession (key : SessionKey) : GatewayCall bool
  | CallReleaseSession (key : SessionKey) : GatewayCall unit
  | CallOrderbook (symbol : Symbol) (depth : option Z) : GatewayCall WsMessage
  | CallListen : GatewayCall unit
  | CallReceive : GatewayCall Received
  | CallSend (frame : string) : GatewayCall bool.

Inductive Prog (R : Type) : Type :=
  | Done (r : R)
  | Invoke {X : Type} (call : GatewayCall X) (k : X → Prog R).
Arguments Done {R} r.
Arguments Invoke {R X} call k.

Fixpoint prog_bind {R Q} (p : Prog R) (f : R → Prog Q) : Prog Q :=
  match p with
  | Done r => f r
  | Invoke call k => Invoke call (λ x, prog_bind (k x) f)
  end.

Definition call {X} (c : GatewayCall X) : Prog X := Invoke c Done.

(** [let x = e.await], [let x = e?] and a failing [return]. *)
Notation "'await' x ':=' p 'in' k" := (prog_bind p (λ x, k))
  (at level 200, x binder, p at level 100, k at level 200, right associativity) : stdpp_scope.
Notation "'try' x ':=' r 'in' k" := (match r with Ok x => k | Err e => Done (Err e) end)
  (at level 200, x pattern, r at level 100, k at level 200, right associativity) : stdpp_scope.

(** ** Traces *)

Inductive Answered := | Ans {X : Type} (call : GatewayCall X) (answer : X).
Inductive Called := | Asked {X : Type} (call : GatewayCall X).

(** [steps p t p']: after the calls and answers of [t], what is left of [p] is [p']. *)
Inductive steps {R} : Prog R → list Answered → Prog R → Prop :=
  | steps_none p : steps p [] p
  | steps_call {X} (c : GatewayCall X) k x t p :
      steps (k x) t p → steps (Invoke c k) (Ans c x :: t) p.

(** After the history [h] every call [p] makes is one [I] allows after the calls before it,
    and its result one [Post] allows. *)
Fixpoint obeys {R} (I : list Answered → Called → Prop) (Post : list Answered → R → Prop)
    (h : list Answered) (p : Prog R) : Prop :=
  match p with
  | Done r => Post h r
  | Invoke c k => I h (Asked c) ∧ ∀ x, obeys I Post (h ++ [Ans c x]) (k x)
  end.

Lemma obeys_bind {R Q} I (Mid : list Answered → R → Prop) (Post : list Answered → Q → Prop) h p f :
  obeys I Mid h p → (∀ h' r, Mid h' r → obeys I Post h' (f r)) →
  obeys I Post h (prog_bind p f).
Proof.
  revert h. induction p as [r|X c k IH]; intros h Hp Hf; cbn in *; [by apply Hf|].
  destruct Hp as [Hc Hk]. split; [done|]. intros x. by apply IH.
Qed.

Lemma obeys_mono {R} I (Mid Post : list Answered → R → Prop) h p :
  obeys I Mid h p → (∀ h' r, Mid h' r → Post h' r) → obeys I Post h p.
Proof.
  revert h. induction p as [r|X c k IH]; intros h Hp Hf; cbn in *; [by apply Hf|].
  destruct Hp as [Hc Hk]. split; [done|]. intros x. by apply IH.
Qed.

Lemma obeys_steps {R} I (Post : list Answered → R → Prop) h p t p' :
  obeys I Post h p → steps p t p' → obeys I Post (h ++ t) p'.
Proof.
  intros Hp Ht. revert h Hp. induction Ht as [p|X c k x t p Ht IH]; intros h Hp.
  - by rewrite app_nil_r.
  - destruct Hp as [_ Hk]. specialize (IH _ (Hk x)). by rewrite <-app_assoc in IH.
Qed.

(** ** Execution alone *)

(** A venue, the accounts and the counters of the process; the result is [None] where the
    handler waits for a receipt that has not come. *)
Class ReadableStores (S : Type) := {
  read_clordid_index : S → option ClOrdIdIndex;
  read_executions : S → InMemoryExecutionsStore;
}.

#[export] Instance SharedState_readable `{MarkPriceCalculator} :
  ReadableStores (SharedState StoreProjections) := {|
  read_clordid_index := sh_clordid_index;
  read_executions s := sp_executions (sh_projections s);
|}.

Section run.
Context {S A : Type} `{!ActorService S A, !ReadableStores S, !Upstream, !CredentialLib}.
Context (float_draw : LatencyConfig → SplitMix64 → Z).

Record AppState := {
  as_venue : Venue S A;
  as_accounts : AccountRegistry;
  as_lineage : LineageId;
  as_order_counter : Z;
  as_limiter : RateLimiter;
  as_sessions : gset SessionKey;
  as_feed : OrderbookSubscriptionManager;
  as_inbox : list Received;
  as_sent : list string;
}.

Definition with_venue (v : Venue S A) (s : AppState) : AppState :=
  {| as_venue := v; as_accounts := as_accounts s; as_lineage := as_lineage s;
     as_order_counter := as_order_counter s; as_limiter := as_limiter s;
     as_sessions := as_sessions s; as_feed := as_feed s; as_inbox := as_inbox s;
     as_sent := as_sent s |}.
Definition with_accounts (r : AccountRegistry) (s : AppState) : AppState :=
  {| as_venue := as_venue s; as_accounts := r; as_lineage := as_lineage s;
     as_order_counter := as_order_counter s; as_limiter := as_limiter s;
     as_sessions := as_sessions s; as_feed := as_feed s; as_inbox := as_inbox s;
     as_sent := as_sent s |}.
Definition with_order_counter (n : Z) (s : AppState) : AppState :=
  {| as_venue := as_venue s; as_accounts := as_accounts s; as_lineage := as_lineage s;
     as_order_counter := n; as_limiter := as_limiter s; as_sessions := as_sessions s;
     as_feed := as_feed s; as_inbox := as_inbox s; as_sent := as_sent s |}.
Definition with_limits_used (l : RateLimiter) (s : AppState) : AppState :=
  {| as_venue := as_venue s; as_accounts := as_accounts s; as_lineage := as_lineage s;
     as_order_counter := as_order_counter s; as_limiter := l; as_sessions := as_sessions s;
     as_feed := as_feed s; as_inbox := as_inbox s; as_sent := as_sent s |}.
Definition with_sessions (live : gset SessionKey) (s : AppState) : AppState :=
  {| as_venue := as_venue s; as_accounts := as_accounts s; as_lineage := as_lineage s;
     as_order_counter := as_order_counter s; as_limiter := as_limiter s; as_sessions := live;
     as_feed := as_feed s; as_inbox := as_inbox s; as_sent := as_sent s |}.
Definition with_inbox (inbox : list Received) (s : AppState) : AppState :=
  {| as_venue := as_venue s; as_accounts := as_accounts s; as_lineage := as_lineage s;
     as_order_counter := as_order_counter s; as_limiter := as_limiter s;
     as_sessions := as_sessions s; as_feed := as_feed s; as_inbox := inbox;
     as_sent := as_sent s |}.
Definition with_sent (sent : list string) (s : AppState) : AppState :=
  {| as_venue := as_venue s; as_accounts := as_accounts s; as_lineage := as_lineage s;
     as_order_counter := as_order_counter s; as_limiter := as_limiter s;
     as_sessions := as_sessions s; as_feed := as_feed s; as_inbox := as_inbox s;
     as_sent := sent |}.

Definition resolve_client_order_id (s : AppState) (id : AccountId) (c : ClientOrderId) :
    option ClOrdIdRecord :=
  x ← read_clordid_index (v_shared (as_venue s)); resolve x id c.

Definition answer {X} (s : AppState) (c : GatewayCall X) : option (AppState * X) :=
  match c with
  | CallNow => Some (s, sc_current_ms (v_clock (as_venue s)))
  | CallLineage => Some (s, as_lineage s)
  | CallAccount id => Some (s, account (as_accounts s) id)
  | CallResolve id c => Some (s, resolve_client_order_id s id c)
  | CallExecutions id f => Some (s, exec_list (read_executions (v_shared (as_venue s))) id f)
  | CallOrderNumber =>
      Some (with_order_counter (wrapping u64 (as_order_counter s + 1)) s, as_order_counter s)
  | CallIngressStamp id =>
      let '(v, r) := next_rest_ingress_stamp id (as_venue s) in Some (with_venue v s, r)
  | CallSubmit command stamp =>
      let reply := length (v_replies (as_venue s)) in
      let v := submit_with_ingress float_draw command stamp reply (as_venue s) in
      '(_, r) ← list_find (λ e, e.1 = reply) (v_replies v); Some (with_venue v s, r.2)
  | CallMassCancel command =>
      let '(v, r) := submit_mass_cancel command (as_venue s) in Some (with_venue v s, r)
  | CallAllowed key =>
      let now := sc_current_ms (v_clock (as_venue s)) in
      let '(l, decision) := check_and_record_status key now now (as_limiter s) in
      Some (with_limits_used l s, rd_allowed decision)
  | CallFixLogin username password =>
      let '(r, outcome) := verify_fix_password 0 username password (as_accounts s) in
      Some (with_accounts r s, Some outcome)
  | CallRevocationEpoch id => Some (s, current_revocation_epoch (as_accounts s) id)
  | CallClaimSession key =>
      if bool_decide (key ∈ as_sessions s) then Some (s, false)
      else Some (with_sessions ({[key]} ∪ as_sessions s) s, true)
  | CallReleaseSession key => Some (with_sessions (as_sessions s ∖ {[key]}) s, tt)
  | CallOrderbook symbol depth => Some (s, orderbook_snapshot (as_feed s) symbol depth)
  | CallListen => Some (with_inbox [] s, tt)
  | CallReceive =>
      match as_inbox s with
      | [] => Some (s, ReceivedEmpty)
      | m :: inbox => Some (with_inbox inbox s, m)
      end
  | CallSend frame => Some (with_sent (as_sent s ++ [frame]) s, true)
  end.

Fixpoint run {R} (p : Prog R) (s : AppState) : option (AppState * R) :=
  match p with
  | Done r => Some (s, r)
  | Invoke c k => '(s, x) ← answer s c; run (k x) s
  end.

(** The first [n] calls of a handler, with what is left of it. *)
Fixpoint run_calls {R} (n : nat) (p : Prog R) (s : AppState) : list Answered * (Prog R * AppState) :=
  match n, p with
  | Datatypes.S n, Invoke c k =>
      match answer s c with
      | Some (s, x) => let '(t, q) := run_calls n (k x) s in (Ans c x :: t, q)
      | None => ([], (p, s))
      end
  | _, _ => ([], (p, s))
  end.

Lemma run_calls_steps {R} n (p : Prog R) s : steps p (run_calls n p s).1 (run_calls n p s).2.1.
Proof.
  revert p s. induction n as [|n IH]; [intros; constructor|]. intros [r|X c k] s; cbn.
  - constructor.
  - destruct (answer s c) as [[s1 x]|]; [|constructor].
    specialize (IH (k x) s1). destruct (run_calls n (k x) s1) as [t q]. by constructor.
Qed.
End run.
