(* ===== verification/RestOrders.v ===== *)
(** The REST order routes ([src/src/gateway/rest/orders.rs] and [support.rs]): each handler a
    program over the venue. *)

From Stdlib Require Import Ascii.
From S2P Require Export Gateway.

(** ** Helpers ([support.rs]) *)

Definition seam_side (side : DtoSide) : Side :=
  match side with DtoBuy => Buy | DtoSell => Sell end.

Definition style_char (style : OptionStyle) : string :=
  match style with Call => "C" | Put => "P" end.

Definition parse_style (segment : string) : result VenueError OptionStyle :=
  if String.eqb segment "call" then Ok Call
  else if String.eqb segment "put" then Ok Put
  else Err (VInvalidOrder ("option style must be 'call' or 'put', got '" +:+ segment +:+ "'")).

Definition seam_tif (tif : DtoTif) (gtd_expires_at : option EventTimestamp) :
    result VenueError TimeInForce :=
  match tif with
  | DtoGtc => Ok Gtc
  | DtoIoc => Ok Ioc
  | DtoFok => Ok Fok
  | DtoGtd =>
      match gtd_expires_at with
      | Some ts => Ok (Gtd ts)
      | None => Err (VInvalidOrder "GTD order requires a gtd_expires_at instant")
      end
  end.

Definition mint_order_id (lineage : LineageId) (underlying : string) : Prog VenueOrderId :=
  await n := call CallOrderNumber in
  Done (lineage +:+ ":" +:+ underlying +:+ ":g" +:+ dec n +:+ ":0").

Definition owner_for (id : AccountId) : Prog (result VenueError Hash32) :=
  await a := call (CallAccount id) in Done (ok_or Unauthorized (acc_owner <$> a)).

Definition add_order_command (symbol : Symbol) (order_id : VenueOrderId) (account : AccountId)
    (owner : Hash32) (client_order_id : option ClientOrderId) (side : Side)
    (order_type : OrderType) (limit_price : option Cents) (quantity : Z)
    (time_in_force : TimeInForce) : VenueCommand :=
  AddOrder symbol order_id account owner client_order_id side order_type limit_price quantity
    time_in_force StpNone.

Definition ExecutionFilter_default : ExecutionFilter :=
  {| ef_underlying := None; ef_limit := None |}.

Definition immediate_execution_records (account : AccountId) (order_id : VenueOrderId)
    (sequence : SequenceNumber) : Prog (list ExecutionRecord) :=
  await records := call (CallExecutions account ExecutionFilter_default) in
  match records with
  | Ok records =>
      Done (filter (λ r, xr_order_id r = order_id ∧ xr_underlying_sequence r = sequence
                         ∧ xr_liquidity r = Taker) records)
  | Err _ => Done []
  end.

Definition taker_legs_for_order (account : AccountId) (order_id : VenueOrderId) :
    Prog (list ExecutionRecord) :=
  await records := call (CallExecutions account ExecutionFilter_default) in
  match records with
  | Ok records => Done (filter (λ r, xr_order_id r = order_id ∧ xr_liquidity r = Taker) records)
  | Err _ => Done []
  end.

(** [try_fold(0u64, checked_add)]. *)
Fixpoint total_u64 (acc : Z) (l : list Z) : option Z :=
  match l with
  | [] => Some acc
  | q :: l => acc ← checked_add u64 acc q; total_u64 acc l
  end.

Definition filled_of (fills : list (Cents * Z)) : result VenueError Z :=
  ok_or VOverflow (total_u64 0 fills.*2).

Definition replay_terminal (account : AccountId) (order_id : VenueOrderId) :
    Prog (result VenueError (list (Cents * Z) * Z)) :=
  await legs := taker_legs_for_order account order_id in
  let fills := (λ leg, (xr_price_cents leg, xr_quantity leg)) <$> legs in
  try filled := filled_of fills in Done (Ok (fills, filled)).

Fixpoint vwap_loop (fills : list (Cents * Z)) (total_qty notional : Z) :
    result VenueError (Z * Z) :=
  match fills with
  | [] => Ok (total_qty, notional)
  | (price, qty) :: fills =>
      leg ← ok_or VOverflow (checked_mul u128 price qty);
      total_qty ← ok_or VOverflow (checked_add u128 total_qty qty);
      notional ← ok_or VOverflow (checked_add u128 notional leg);
      vwap_loop fills total_qty notional
  end.

Definition vwap_cents (fills : list (Cents * Z)) : result VenueError (option Cents) :=
  '(total_qty, notional) ← vwap_loop fills 0 0;
  if total_qty =? 0 then Ok None
  else
    vwap ← ok_or VOverflow (narrow u64 (notional / total_qty)); Ok (Some vwap).

(** ** Outcomes ([orders.rs]) *)

Definition remaining (total taken : Z) : Z := default 0 (checked_sub u64 total taken).

Definition limit_status (tif : DtoTif) (filled quantity : Z) : LimitOrderStatus * string :=
  if quantity <=? filled then (LimitFilled, "order filled")
  else
    match tif with
    | DtoFok =>
        if filled =? 0 then (LimitRejected, "fill-or-kill not fillable; killed")
        else (LimitPartial, "fill-or-kill partial; remainder killed")
    | DtoIoc =>
        if filled =? 0 then (LimitRejected, "immediate-or-cancel not marketable; killed")
        else (LimitPartial, "immediate-or-cancel partial; remainder canceled")
    | DtoGtc | DtoGtd =>
        if filled =? 0 then (LimitAccepted, "order accepted; resting")
        else (LimitPartial, "order partially filled; remainder resting")
    end.

Definition market_status (filled quantity : Z) : MarketOrderStatus :=
  if filled =? 0 then MarketRejected
  else if quantity <=? filled then MarketFilled else MarketPartial.

(** The receipt of a retry carries the original identity. *)
Definition rendered (receipt : Receipt) (order_id : VenueOrderId) :
    VenueOrderId * SequenceNumber :=
  match receipt_outcome receipt with
  | Some outcome => rendered_identity outcome order_id (receipt_sequence receipt)
  | None => (order_id, receipt_sequence receipt)
  end.

(** The retry an earlier placement answers: the same contract, side and quantity. *)
Definition same_placement (record : ClOrdIdRecord) (symbol : Symbol) (side : Side)
    (quantity : Z) : bool :=
  String.eqb (cr_symbol record) symbol && bool_decide (cr_side record = side)
  && (cr_quantity record =? quantity).

Definition earlier_placement (id : AccountId) (client_order_id : option ClientOrderId)
    (symbol : Symbol) (side : Side) (quantity : Z) : Prog (option ClOrdIdRecord) :=
  match client_order_id with
  | None => Done None
  | Some c =>
      await record := call (CallResolve id c) in
      Done (r ← record; if same_placement r symbol side quantity then Some r else None)
  end.

Section routes.
Context `{!Upstream}.

Definition build_symbol (underlying expiration : string) (strike : Z) (style : OptionStyle) :
    result VenueError Symbol :=
  map_err venue_error_from_symbol
    (Symbol_parse (underlying +:+ "-" +:+ expiration +:+ "-" +:+ dec strike +:+ "-"
                     +:+ style_char style)).

Record ContractPath := {
  cp_underlying : string; cp_expiration : string; cp_strike : Z; cp_style : string }.

Definition contract_symbol (path : ContractPath) : result VenueError Symbol :=
  style ← parse_style (cp_style path);
  build_symbol (cp_underlying path) (cp_expiration path) (cp_strike path) style.

Definition limit_outcome (tif : DtoTif) (quantity : Z) (receipt : Receipt) :
    result VenueError (LimitOrderStatus * Z * string) :=
  match terminal <$> receipt_outcome receipt with
  | Some (Rejected _ reason) => Ok (LimitRejected, 0, reason)
  | outcome =>
      filled ← filled_of (default [] (taker_fill_legs <$> outcome));
      let '(status, message) := limit_status tif filled quantity in
      Ok (status, filled, message)
  end.

Definition place_limit_order (auth : Authorized) (path : ContractPath)
    (request : PlaceLimitOrderRequest) : Prog (result VenueError PlaceLimitOrderResponse) :=
  try _ := require auth PermTrade in
  await now := call CallNow in
  try _ := plo_validate request now in
  try symbol := contract_symbol path in
  let id := cl_sub (au_claims auth) in
  let side := seam_side (plo_side request) in
  let quantity := plo_quantity request in
  let tif := default DtoTif_default (plo_time_in_force request) in
  await earlier := earlier_placement id (plo_client_order_id request) symbol side quantity in
  match earlier with
  | Some record =>
      await replayed := replay_terminal id (cr_order_id record) in
      try (_, filled) := replayed in
      let '(status, message) := limit_status tif filled quantity in
      Done (Ok {| lr_order_id := cr_order_id record; lr_status := status;
                  lr_filled_quantity := filled; lr_remaining_quantity := remaining quantity filled;
                  lr_sequence := cr_sequence record; lr_message := message |})
  | None =>
      await owner := owner_for id in
      try owner := owner in
      try time_in_force := seam_tif tif (plo_gtd_expires_at request) in
      await lineage := call CallLineage in
      await order_id := mint_order_id lineage (cp_underlying path) in
      await stamp := call (CallIngressStamp id) in
      try stamp := stamp in
      await receipt :=
        call (CallSubmit (add_order_command symbol order_id id owner (plo_client_order_id request)
                            side Limit (Some (plo_price request)) quantity time_in_force) stamp) in
      try receipt := receipt in
      try (status, filled, message) := limit_outcome tif quantity receipt in
      let '(order_id, sequence) := rendered receipt order_id in
      Done (Ok {| lr_order_id := order_id; lr_status := status; lr_filled_quantity := filled;
                  lr_remaining_quantity := remaining quantity filled; lr_sequence := sequence;
                  lr_message := message |})
  end.

Definition fill_prints (fills : list (Cents * Z)) : list FillPrint :=
  (λ f, {| print_price := f.1; print_quantity := f.2 |}) <$> fills.

Definition market_response (order_id : VenueOrderId) (sequence : SequenceNumber) (quantity : Z)
    (fills : list (Cents * Z)) : result VenueError PlaceMarketOrderResponse :=
  filled ← filled_of fills;
  average_price ← vwap_cents fills;
  Ok {| mr_order_id := order_id; mr_status := market_status filled quantity;
        mr_filled_quantity := filled; mr_remaining_quantity := remaining quantity filled;
        mr_average_price := average_price; mr_sequence := sequence;
        mr_fills := fill_prints fills |}.

Definition place_market_order (auth : Authorized) (path : ContractPath)
    (request : PlaceMarketOrderRequest) : Prog (result VenueError PlaceMarketOrderResponse) :=
  try _ := require auth PermTrade in
  try _ := pmo_validate request in
  try symbol := contract_symbol path in
  let id := cl_sub (au_claims auth) in
  let side := seam_side (pmo_side request) in
  let quantity := pmo_quantity request in
  await earlier := earlier_placement id (pmo_client_order_id request) symbol side quantity in
  match earlier with
  | Some record =>
      await replayed := replay_terminal id (cr_order_id record) in
      try (fills, _) := replayed in
      Done (market_response (cr_order_id record) (cr_sequence record) quantity fills)
  | None =>
      await owner := owner_for id in
      try owner := owner in
      await lineage := call CallLineage in
      await order_id := mint_order_id lineage (cp_underlying path) in
      await stamp := call (CallIngressStamp id) in
      try stamp := stamp in
      await receipt :=
        call (CallSubmit (add_order_command symbol order_id id owner (pmo_client_order_id request)
                            side Market None quantity Ioc) stamp) in
      try receipt := receipt in
      let '(order_id, sequence) := rendered receipt order_id in
      let fills := default [] (taker_fill_legs <$> receipt_outcome receipt) in
      Done (market_response order_id sequence quantity fills)
  end.

Definition cancel_order (auth : Authorized) (path : ContractPath) (order_id : string) :
    Prog (result VenueError CancelOrderResponse) :=
  try _ := require auth PermTrade in
  try symbol := contract_symbol path in
  let id := cl_sub (au_claims auth) in
  await stamp := call (CallIngressStamp id) in
  try stamp := stamp in
  await receipt := call (CallSubmit (CancelOrder symbol order_id id) stamp) in
  try receipt := receipt in
  let '(success, message) :=
    match receipt_outcome receipt with
    | Some (Cancelled _) => (true, "order cancelled")
    | Some (Rejected _ _) => (false, CANCEL_REJECT_MASKED_REASON)
    | _ => (true, "cancel accepted and sequenced")
    end in
  Done (Ok {| co_success := success; co_sequence := receipt_sequence receipt;
              co_message := message |}).

Definition modify_order (auth : Authorized) (path : ContractPath) (order_id : string)
    (request : ModifyOrderRequest) : Prog (result VenueError unit) :=
  try _ := require auth PermTrade in
  Done (Err (VInvalidOrder
    ("order modification requires the resting order's side and time-in-force, which the "
       +:+ "book-read path does not yet expose; cancel and re-place instead"))).

(** ** Bulk placement *)

Definition bulk_rejected (index : Z) (error : VenueError) : BulkOrderResultItem :=
  {| bo_index := index; bo_order_id := None; bo_sequence := None; bo_status := BulkRejected;
     bo_error := Some (redacted_message error) |}.
Definition bulk_accepted (index : Z) (order_id : VenueOrderId) (sequence : SequenceNumber) :
    BulkOrderResultItem :=
  {| bo_index := index; bo_order_id := Some order_id; bo_sequence := Some sequence;
     bo_status := BulkAccepted; bo_error := None |}.

(** The results so far, the orders placed, and whether an atomic batch was abandoned. *)
Record BulkProgress := {
  bp_results : list BulkOrderResultItem;
  bp_placed : list (Symbol * VenueOrderId);
  bp_aborted : bool;
}.

(** The checks of an item before it is submitted: its ticker and time in force. *)
Definition bulk_item_checked (item : BulkOrderItem) (now : EventTimestamp) :
    result VenueError (string * TimeInForce) :=
  _ ← bi_validate item now;
  parsed ← map_err VUpstream (parse_symbol (bi_symbol item));
  tif ← seam_tif (default DtoTif_default (bi_time_in_force item)) (bi_gtd_expires_at item);
  Ok (ps_underlying parsed, tif).

Fixpoint bulk_loop (id : AccountId) (owner : Hash32) (now : EventTimestamp) (atomic : bool)
    (index : Z) (items : list BulkOrderItem) (p : BulkProgress) :
    Prog (result VenueError BulkProgress) :=
  match items with
  | [] => Done (Ok p)
  | item :: items =>
      let reject error :=
        let p := {| bp_results := bp_results p ++ [bulk_rejected index error];
                    bp_placed := bp_placed p; bp_aborted := atomic |} in
        if atomic then Done (Ok p) else bulk_loop id owner now atomic (index + 1) items p in
      match bulk_item_checked item now with
      | Err error => reject error
      | Ok (underlying, tif) =>
          await lineage := call CallLineage in
          await order_id := mint_order_id lineage underlying in
          await stamp := call (CallIngressStamp id) in
          try stamp := stamp in
          await receipt :=
            call (CallSubmit
              (add_order_command (bi_symbol item) order_id id owner (bi_client_order_id item)
                 (seam_side (bi_side item)) Limit (Some (bi_price item)) (bi_quantity item) tif)
              stamp) in
          match receipt with
          | Ok receipt =>
              bulk_loop id owner now atomic (index + 1) items
                {| bp_results := bp_results p ++
                                   [bulk_accepted index order_id (receipt_sequence receipt)];
                   bp_placed := bp_placed p ++ [(bi_symbol item, order_id)];
                   bp_aborted := bp_aborted p |}
          | Err error => reject error
          end
      end
  end.

Fixpoint rollback_loop (id : AccountId) (placed : list (Symbol * VenueOrderId))
    (warnings : list string) : Prog (list string) :=
  match placed with
  | [] => Done warnings
  | (symbol, order_id) :: placed =>
      await stamp := call (CallIngressStamp id) in
      match stamp with
      | Err error =>
          rollback_loop id placed
            (warnings ++ ["rollback cancel of " +:+ order_id +:+ " could not be stamped: "
                            +:+ redacted_message error])
      | Ok stamp =>
          await receipt := call (CallSubmit (CancelOrder symbol order_id id) stamp) in
          rollback_loop id placed
            (match receipt with
             | Ok _ => warnings
             | Err error =>
                 warnings ++ ["rollback cancel of " +:+ order_id +:+ " failed: "
                                +:+ redacted_message error]
             end)
      end
  end.

(** [success_count] counts what was placed, and is zeroed by a rollback. *)
Definition bulk_response (p : BulkProgress) (rolled_back : bool) (warnings : list string) :
    BulkOrderResponse :=
  let success_count := if rolled_back then 0 else Z.of_nat (length (bp_placed p)) in
  {| bo_success_count := success_count;
     bo_failure_count := Z.of_nat (length (bp_results p)) - success_count;
     bo_results := bp_results p; bo_rolled_back := rolled_back;
     bo_rollback_warnings := warnings |}.

Definition bulk_place_orders (auth : Authorized) (request : BulkOrderRequest) :
    Prog (result VenueError BulkOrderResponse) :=
  try _ := require auth PermTrade in
  let n := Z.of_nat (length (br_orders request)) in
  if MAX_BULK_ORDER_ITEMS <? n then
    Done (Err (VInvalidOrder ("bulk order exceeds MAX_BULK_ORDER_ITEMS ("
                                +:+ dec MAX_BULK_ORDER_ITEMS +:+ "); got " +:+ dec n)))
  else
    let id := cl_sub (au_claims auth) in
    await owner := owner_for id in
    try owner := owner in
    await now := call CallNow in
    await progress :=
      bulk_loop id owner now (br_atomic request) 0 (br_orders request)
        {| bp_results := []; bp_placed := []; bp_aborted := false |} in
    try p := progress in
    if br_atomic request && bp_aborted p then
      await warnings := rollback_loop id (bp_placed p) [] in
      Done (Ok (bulk_response p true warnings))
    else Done (Ok (bulk_response p false [])).

Definition bulk_cancel_orders (auth : Authorized) (order_ids : list VenueOrderId) :
    Prog (result VenueError BulkCancelResponse) :=
  try _ := require auth PermTrade in
  let n := Z.of_nat (length order_ids) in
  if MAX_BULK_CANCEL_ITEMS <? n then
    Done (Err (VInvalidOrder ("bulk cancel exceeds MAX_BULK_CANCEL_ITEMS ("
                                +:+ dec MAX_BULK_CANCEL_ITEMS +:+ "); got " +:+ dec n)))
  else
    let results :=
      (λ order_id, {| bc_order_id := order_id; bc_canceled := false;
                      bc_error := Some ("cancel-by-id needs the order's contract symbol; the "
                                          +:+ "by-id order index is not yet wired") |})
        <$> order_ids in
    Done (Ok {| bc_success_count := 0; bc_failure_count := Z.of_nat (length results);
                bc_results := results |}).

Definition cancel_all_orders (auth : Authorized) (query : CancelAllQuery) :
    Prog (result VenueError CancelAllResponse) :=
  try _ := require auth PermTrade in
  if bool_decide (is_Some (caq_underlying query)) || bool_decide (is_Some (caq_expiration query))
     || bool_decide (is_Some (caq_side query)) || bool_decide (is_Some (caq_style query)) then
    Done (Err (VInvalidOrder
      "filtered cancel-all is not supported; omit filters for an owner-scoped cancel-all"))
  else
    let id := cl_sub (au_claims auth) in
    await owner := owner_for id in
    try owner := owner in
    await delivery := call (CallMassCancel (MassCancel ScopeUnderlying (ByUser owner) id)) in
    try delivery := delivery in
    Done (Ok {| al_canceled_count := Z.of_nat (length (md_swept delivery));
                al_failed_count := 0; al_fully_applied := fully_applied (md_fanout delivery);
                al_ok_underlyings := ok_count (md_fanout delivery);
                al_total_underlyings := fanout_total (md_fanout delivery) |}).
(** No route reads a resting order. *)
Record OrderListQuery := {
  oq_underlying : option string; oq_side : option DtoSide; oq_limit : option Z;
  oq_offset : option Z }.
Record OrderListResponse := { ol_orders : list unit; ol_total : Z; ol_limit : Z; ol_offset : Z }.

Definition list_orders (query : OrderListQuery) : OrderListResponse :=
  {| ol_orders := []; ol_total := 0; ol_limit := default 0 (oq_limit query);
     ol_offset := default 0 (oq_offset query) |}.
Definition get_order (order_id : string) : result VenueError unit := Err (VNotFound order_id).

(** ** The routes together ([mod.rs]) *)

Inductive OrderRequest :=
  | PlaceLimit (path : ContractPath) (request : PlaceLimitOrderRequest)
  | PlaceMarket (path : ContractPath) (request : PlaceMarketOrderRequest)
  | CancelOne (path : ContractPath) (order_id : string)
  | ModifyOne (path : ContractPath) (order_id : string) (request : ModifyOrderRequest)
  | PlaceBulk (request : BulkOrderRequest)
  | CancelBulk (order_ids : list VenueOrderId)
  | CancelEvery (query : CancelAllQuery).

Inductive OrderResponse :=
  | LimitPlaced (r : PlaceLimitOrderResponse)
  | MarketPlaced (r : PlaceMarketOrderResponse)
  | OneCancelled (r : CancelOrderResponse)
  | OneModified
  | BulkPlaced (r : BulkOrderResponse)
  | BulkCancelled (r : BulkCancelResponse)
  | EveryCancelled (r : CancelAllResponse).

Definition respond {R} (f : R → OrderResponse) (p : Prog (result VenueError R)) :
    Prog (result VenueError OrderResponse) :=
  prog_bind p (λ r, Done (f <$> r)).

Definition order_route (auth : Authorized) (r : OrderRequest) :
    Prog (result VenueError OrderResponse) :=
  match r with
  | PlaceLimit path request => respond LimitPlaced (place_limit_order auth path request)
  | PlaceMarket path request => respond MarketPlaced (place_market_order auth path request)
  | CancelOne path order_id => respond OneCancelled (cancel_order auth path order_id)
  | ModifyOne path order_id request =>
      respond (λ _, OneModified) (modify_order auth path order_id request)
  | PlaceBulk request => respond BulkPlaced (bulk_place_orders auth request)
  | CancelBulk order_ids => respond BulkCancelled (bulk_cancel_orders auth order_ids)
  | CancelEvery query => respond EveryCancelled (cancel_all_orders auth query)
  end.

End routes.
