(* ===== verification/RestProps.v ===== *)
(** The REST order routes: on whose behalf they act, what they report of an order, and how a
    bulk placement accounts for its items.  The theorems are about every trace of a handler,
    that is, whatever the venue and the other requests answer. *)

From S2P Require Export RestOrders.

(** ** Submissions *)

Definition submission (a : Answered) : option (VenueCommand * result VenueError Receipt) :=
  match a with
  | @Ans X c x =>
      match c in GatewayCall X return X → option (VenueCommand * result VenueError Receipt) with
      | CallSubmit command _ => λ r, Some (command, r)
      | _ => λ _, None
      end x
  end.
Definition submissions (t : list Answered) : list (VenueCommand * result VenueError Receipt) :=
  omap submission t.

Lemma submissions_app t u : submissions (t ++ u) = submissions t ++ submissions u.
Proof. apply omap_app. Qed.

(** ** On whose behalf *)

Definition registered_owner (h : list Answered) (id : AccountId) (owner : Hash32) : Prop :=
  ∃ a, Ans (CallAccount id) (Some a) ∈ h ∧ acc_owner a = owner.

Definition minted (h : list Answered) (order_id : VenueOrderId) : Prop :=
  ∃ lineage underlying n, Ans CallLineage lineage ∈ h ∧ Ans CallOrderNumber n ∈ h ∧
    order_id = lineage +:+ ":" +:+ underlying +:+ ":g" +:+ dec n +:+ ":0".

Definition unexpired (h : list Answered) (tif : TimeInForce) : Prop :=
  match tif with Gtd ts => ∃ now, Ans CallNow now ∈ h ∧ now < ts | _ => True end.

(** A command may be submitted on behalf of [id] after the calls [h]. *)
Definition own_command (id : AccountId) (h : list Answered) (command : VenueCommand) : Prop :=
  match command with
  | AddOrder _ order_id account owner _ _ order_type limit_price quantity tif stp =>
      account = id ∧ registered_owner h id owner ∧ stp = StpNone ∧
      is_ok (validate_order_shape order_type limit_price quantity) = true ∧
      unexpired h tif ∧ minted h order_id
  | CancelOrder _ _ account => account = id
  | MassCancel scope cancel_type account =>
      scope = ScopeUnderlying ∧ account = id ∧
      ∃ owner, cancel_type = ByUser owner ∧ registered_owner h id owner
  | _ => False
  end.

Definition own_call (auth : Authorized) (h : list Answered) (c : Called) : Prop :=
  let id := cl_sub (au_claims auth) in
  claims_has_permission (au_claims auth) PermTrade = true ∧
  match c with
  | Asked (CallSubmit command stamp) =>
      own_command id h command ∧ last h = Some (Ans (CallIngressStamp id) (Ok stamp))
  | Asked (CallMassCancel command) => own_command id h command
  | Asked (CallAccount account) | Asked (CallResolve account _)
  | Asked (CallExecutions account _) | Asked (CallIngressStamp account) => account = id
  | Asked CallNow | Asked CallLineage | Asked CallOrderNumber => True
  | _ => False
  end.

Definition any_result {R} (h : list Answered) (r : R) : Prop := True.

Section routes.
Context `{!Upstream}.

(** ** Walking a handler *)

Lemma respond_obeys {R} I (f : R → OrderResponse) p h :
  obeys I any_result h p → obeys I any_result h (respond f p).
Proof. intros. by eapply obeys_bind. Qed.

Lemma require_ok auth p u : require auth p = Ok u → claims_has_permission (au_claims auth) p = true.
Proof. unfold require. by destruct (claims_has_permission _ _). Qed.

Lemma prefix_snoc {X} (h : list X) a : h `prefix_of` h ++ [a].
Proof. by apply prefix_app_r. Qed.
Lemma in_snoc {X} (h : list X) a : a ∈ h ++ [a].
Proof. apply elem_of_app. right. by apply list_elem_of_singleton. Qed.
Lemma in_prefix {X} (h h' : list X) a : h `prefix_of` h' → a ∈ h → a ∈ h'.
Proof. intros [u ->] ?. apply elem_of_app. by left. Qed.

Section own.
Context (auth : Authorized).
Context (Htrade : claims_has_permission (au_claims auth) PermTrade = true).
Notation me := (cl_sub (au_claims auth)).
Notation own := (obeys (own_call auth)).

Lemma earlier_placement_own h c symbol side quantity :
  own (λ h' _, h `prefix_of` h') h (earlier_placement me c symbol side quantity).
Proof.
  destruct c as [c|]; cbn; [|done]. split; [by split|]. intros x. apply prefix_snoc.
Qed.

Lemma replay_terminal_own h order_id : own any_result h (replay_terminal me order_id).
Proof.
  cbn. split; [by split|]. intros [records|e]; cbn [prog_bind]; [by case_match|done].
Qed.

Lemma owner_for_own h :
  own (λ h' r, h `prefix_of` h' ∧ ∀ o, r = Ok o → registered_owner h' me o) h (owner_for me).
Proof.
  cbn. split; [by split|]. intros a. split; [apply prefix_snoc|]. intros o Ho.
  destruct a as [a|]; [|done]. injection Ho as <-. exists a. split; [apply in_snoc|done].
Qed.

(** Walks the rest of a handler: destructs what it branches on, lets every call answer
    anything, and closes the calls that only name the account. *)
Ltac walk :=
  repeat first
    [ exact I
    | match goal with
      | |- own_call _ _ (Asked (CallSubmit _ _)) => fail 1
      | |- own_call _ _ _ => by split
      | |- obeys _ _ _ (match ?r with Ok _ => _ | Err _ => _ end) => destruct r eqn:?
      | |- obeys _ _ _ (match ?r with None => _ | Some _ => _ end) => destruct r eqn:?
      | |- obeys _ _ _ (if ?b then _ else _) => destruct b eqn:?
      | |- obeys _ _ _ (let '(_, _) := ?p in _) => destruct p eqn:?
      | |- _ ∧ ∀ _, _ => split; [|intros ?]
      end
    | progress cbn [obeys prog_bind call any_result mint_order_id] ].

Lemma unexpired_checked h now tif expires time_in_force u :
  Ans CallNow now ∈ h → validate_gtd_expiry tif expires now = Ok u →
  seam_tif tif expires = Ok time_in_force → unexpired h time_in_force.
Proof.
  intros Hin Hv Hs. destruct tif, expires as [ts|]; try discriminate; injection Hs as <-; try done.
  cbn in Hv. destruct (Z.ltb_spec now ts); [|done]. by exists now.
Qed.

Lemma minted_here h lineage underlying n order_id :
  Ans CallLineage lineage ∈ h → Ans CallOrderNumber n ∈ h →
  order_id = lineage +:+ ":" +:+ underlying +:+ ":g" +:+ dec n +:+ ":0" → minted h order_id.
Proof. intros. by exists lineage, underlying, n. Qed.

Lemma result_bind_ok {E X Y} (r : result E X) (f : X → result E Y) y :
  (r ≫= f) = Ok y → ∃ x, r = Ok x ∧ f x = Ok y.
Proof. destruct r; [|done]. intros. by eexists. Qed.

Lemma registered_owner_prefix h h' id owner :
  h `prefix_of` h' → registered_owner h id owner → registered_owner h' id owner.
Proof. intros Hp (a & Ha & Ho). exists a. split; [by eapply in_prefix|done]. Qed.

Ltac prefix_history := repeat first [apply prefix_snoc | etrans; [|apply prefix_snoc] | done].

Lemma placed_own h h0 symbol order_id owner c side order_type price quantity tif stamp :
  h0 `prefix_of` h → registered_owner h0 me owner → unexpired h0 tif → minted h order_id →
  is_ok (validate_order_shape order_type price quantity) = true →
  own_call auth (h ++ [Ans (CallIngressStamp me) (Ok stamp)])
    (Asked (CallSubmit (add_order_command symbol order_id me owner c side order_type price
                          quantity tif) stamp)).
Proof.
  intros Hp Ho Hu (l & u & n & Hl & Hn & Hm) Hv. split; [done|]. split; [|by rewrite last_snoc].
  cbn. split_and!; try done.
  - eapply registered_owner_prefix; [|done]. by apply prefix_app_r.
  - destruct tif; try done. destruct Hu as (now & Hin & ?). exists now. split; [|done].
    apply elem_of_app. left. by eapply in_prefix.
  - exists l, u, n. by split_and!; [apply elem_of_app; left..|].
Qed.

Lemma place_limit_order_own path request :
  own any_result [] (place_limit_order auth path request).
Proof.
  unfold place_limit_order. walk.
  eapply obeys_bind; [apply earlier_placement_own|]. intros h1 [record|] H1.
  - eapply obeys_bind; [apply replay_terminal_own|]. intros h2 [[fills filled]|e] _; walk.
  - eapply obeys_bind; [apply owner_for_own|]. intros h2 r [H2 Ho]. walk.
    apply result_bind_ok in Heqr0 as (? & Hv & Hg).
    eapply (placed_own _ h2); [prefix_history|by apply Ho| | |by rewrite Hv].
    + eapply unexpired_checked; [|exact Hg|done].
      eapply in_prefix; [done|]. eapply in_prefix; [done|]. apply in_snoc.
    + eapply minted_here; [..|reflexivity]; [apply elem_of_app; left|]; apply in_snoc.
Qed.

Lemma place_market_order_own path request :
  own any_result [] (place_market_order auth path request).
Proof.
  unfold place_market_order. walk.
  eapply obeys_bind; [apply earlier_placement_own|]. intros h1 [record|] H1.
  - eapply obeys_bind; [apply replay_terminal_own|]. intros h2 [[fills filled]|e] _; walk.
  - eapply obeys_bind; [apply owner_for_own|]. intros h2 r [H2 Ho]. walk.
    eapply (placed_own _ h2); [prefix_history|by apply Ho|done| |].
    + eapply minted_here; [..|reflexivity]; [apply elem_of_app; left|]; apply in_snoc.
    + match goal with E : pmo_validate _ = _ |- _ => unfold pmo_validate in E; by rewrite E end.
Qed.
Lemma cancel_command_own h symbol order_id stamp :
  own_call auth (h ++ [Ans (CallIngressStamp me) (Ok stamp)])
    (Asked (CallSubmit (CancelOrder symbol order_id me) stamp)).
Proof. split; [done|]. split; [done|]. by rewrite last_snoc. Qed.

Lemma cancel_order_own path order_id : own any_result [] (cancel_order auth path order_id).
Proof. unfold cancel_order. walk. apply cancel_command_own. Qed.

Lemma cancel_all_orders_own query : own any_result [] (cancel_all_orders auth query).
Proof.
  unfold cancel_all_orders. walk.
  eapply obeys_bind; [apply owner_for_own|]. intros h r [_ Ho]. walk.
  split; [done|]. split_and!; [done..|]. eexists. split; [done|]. by apply Ho.
Qed.

Lemma bulk_loop_own owner now atomic items index p h h0 :
  h0 `prefix_of` h → registered_owner h0 me owner → Ans CallNow now ∈ h0 →
  own any_result h (bulk_loop me owner now atomic index items p).
Proof.
  intros Hp Ho Hn. revert index p h Hp. induction items as [|item items IH]; intros index p h Hp;
    [done|]. cbn [bulk_loop].
  destruct (bulk_item_checked item now) as [[underlying tif]|error] eqn:E;
    [|destruct atomic; [done|by apply IH]].
  unfold bulk_item_checked in E. apply result_bind_ok in E as (u & Hv & E).
  apply result_bind_ok in E as (parsed & _ & E). apply result_bind_ok in E as (tif' & Hs & [= <- <-]).
  apply result_bind_ok in Hv as (? & Hv & Hg). walk.
  - eapply (placed_own _ h0); [|done| | |by rewrite Hv].
    + etrans; [done|]. prefix_history.
    + by eapply unexpired_checked.
    + eapply minted_here; [..|reflexivity]; [apply elem_of_app; left|]; apply in_snoc.
  - apply IH. etrans; [exact Hp|prefix_history].
  - apply IH. etrans; [exact Hp|prefix_history].
Qed.

Lemma rollback_loop_own placed warnings h : own any_result h (rollback_loop me placed warnings).
Proof.
  revert warnings h. induction placed as [|[symbol order_id] placed IH]; intros warnings h;
    [done|]. cbn [rollback_loop]. walk; [by apply cancel_command_own|apply IH..].
Qed.

Lemma bulk_place_orders_own request : own any_result [] (bulk_place_orders auth request).
Proof.
  unfold bulk_place_orders. walk.
  eapply obeys_bind; [apply owner_for_own|]. intros h r [_ Ho]. walk.
  eapply obeys_bind.
  - eapply bulk_loop_own; [done| |apply in_snoc].
    eapply registered_owner_prefix; [apply prefix_snoc|]. by apply Ho.
  - intros h' r' _. walk. eapply obeys_bind; [apply rollback_loop_own|]. by intros.
Qed.
End own.

Lemma order_route_own auth request :
  obeys (own_call auth) any_result [] (order_route auth request).
Proof.
  destruct (claims_has_permission (au_claims auth) PermTrade) eqn:Htrade.
  - destruct request; apply respond_obeys.
    + by apply place_limit_order_own.
    + by apply place_market_order_own.
    + by apply cancel_order_own.
    + unfold modify_order. by destruct (require _ _).
    + by apply bulk_place_orders_own.
    + unfold bulk_cancel_orders. destruct (require _ _); [|done]. by case_match.
    + by apply cancel_all_orders_own.
  - destruct request; apply respond_obeys;
      unfold place_limit_order, place_market_order, cancel_order, modify_order,
        bulk_place_orders, bulk_cancel_orders, cancel_all_orders, require; by rewrite Htrade.
Qed.

(** C28. Every call an order route makes, in every execution, is made with the trade permission
    and on behalf of the authenticated account: orders carry the account and the owner it is
    registered under, a shape the venue accepts, an expiry in the future and a freshly minted
    id; cancels and sweeps name the account and its owner; every command is stamped for the
    account just before; reads are of the account's own data. *)
Theorem rest_orders_on_own_behalf auth request t X (c : GatewayCall X) k :
  steps (order_route auth request) t (Invoke c k) → own_call auth t (Asked c).
Proof.
  intros Ht. pose proof (obeys_steps _ _ _ _ _ _ (order_route_own auth request) Ht) as H1.
  by destruct H1.
Qed.
End routes.
