(* ===== verification/RestReports.v ===== *)
(** What the REST order routes report: a limit order's response against its receipt or the
    original placement of a retry, and the account a bulk placement gives of its items; then the
    order routes on a concrete venue, and what a restart and a rejected item show. *)

From S2P Require Import SampleBook ActorProps VenueProps VenueSample RateLimit AuthSample.
From S2P Require Export RestProps.

(** [ends Post h p]: whatever is answered to [p] after the history [h], its result is as
    [Post] says. *)
Notation ends := (obeys (λ _ _, True)).

Lemma ends_steps {R} (Post : list Answered → R → Prop) p t r :
  ends Post [] p → steps p t (Done r) → Post t r.
Proof. intros Hp Ht. exact (obeys_steps _ _ _ _ _ _ Hp Ht). Qed.

(** The tail of a handler that only computes. *)
Ltac compute_tail :=
  repeat first
    [ done
    | match goal with
      | |- obeys _ _ _ (match ?r with Ok _ => _ | Err _ => _ end) => destruct r eqn:?
      | |- obeys _ _ _ (let '(_, _) := ?p in _) => destruct p eqn:?
      | |- _ ∧ ∀ _, _ => split; [done|intros ?]
      end
    | progress cbn [obeys prog_bind call mint_order_id owner_for] ].

(** ** Quantities *)

Lemma total_u64_ok l acc n : has_ty u64 acc → total_u64 acc l = Some n → has_ty u64 n ∧ n = acc + foldr Z.add 0 l.
Proof.
  revert acc. induction l as [|q l IH]; cbn; intros acc Ha.
  - intros [= <-]. split; [done|lia].
  - unfold checked_add, narrow. destruct (fits u64 (acc + q)) eqn:E; cbn; [|done].
    intros [? ->]%IH; [split; [done|lia]|]. by apply fits_spec in E.
Qed.

Definition filled_total (fills : list (Cents * Z)) : Z := foldr Z.add 0 fills.*2.

Lemma filled_of_ok fills n : filled_of fills = Ok n → n = filled_total fills ∧ 0 ≤ n.
Proof.
  unfold filled_of. destruct (total_u64 0 fills.*2) eqn:E; [|done]. intros [= <-].
  apply total_u64_ok in E as [[? _] ->]; [|by split]. cbn in *. by split.
Qed.

Lemma remaining_exact total taken :
  has_ty u64 total → 0 ≤ taken → remaining total taken = Z.max 0 (total - taken).
Proof.
  intros [H1 H2] Ht. unfold remaining, checked_sub, narrow.
  destruct (fits u64 (total - taken)) eqn:E.
  - apply fits_spec in E as [? _]. cbn in *. lia.
  - assert (¬ has_ty u64 (total - taken)) as Hn by (rewrite <-fits_spec; by rewrite E).
    unfold has_ty in Hn. cbn in *. lia.
Qed.

(** ** Limit orders *)

(** The status a response may carry for what was filled of an order. *)
Definition status_fits (tif : DtoTif) (filled quantity : Z) (s : LimitOrderStatus) : Prop :=
  match s with
  | LimitFilled => quantity ≤ filled
  | LimitPartial => 0 < filled < quantity
  | LimitAccepted => filled = 0 ∧ 0 < quantity ∧ (tif = DtoGtc ∨ tif = DtoGtd)
  | LimitRejected => filled = 0 ∧ 0 < quantity ∧ (tif = DtoIoc ∨ tif = DtoFok)
  end.

Lemma limit_status_fits tif filled quantity :
  0 ≤ filled → status_fits tif filled quantity (limit_status tif filled quantity).1.
Proof.
  intros Hf. unfold limit_status. destruct (Z.leb_spec quantity filled); [done|].
  destruct tif, (Z.eqb_spec filled 0); cbn; try lia; split_and!; auto; lia.
Qed.

(** The fills of an order in the answer of the executions log. *)
Definition recorded_fills (answer : result StoreError (list ExecutionRecord))
    (order_id : VenueOrderId) : list (Cents * Z) :=
  match answer with
  | Ok records =>
      (λ leg, (xr_price_cents leg, xr_quantity leg)) <$>
        filter (λ r, xr_order_id r = order_id ∧ xr_liquidity r = Taker) records
  | Err _ => []
  end.

(** The answers of the helper programs; none of them submits anything. *)
Lemma earlier_placement_ends h id c symbol side quantity :
  ends (λ h' r, submissions h' = submissions h ∧
          ∀ record, r = Some record → ∃ c', c = Some c' ∧
            Ans (CallResolve id c') (Some record) ∈ h' ∧
            same_placement record symbol side quantity = true)
    h (earlier_placement id c symbol side quantity).
Proof.
  destruct c as [c|]; [|done]. cbn. split; [done|]. intros x. split; [by rewrite submissions_app, app_nil_r|].
  intros record Hr. destruct x as [x|]; [|done]. cbn in Hr.
  destruct (same_placement x _ _ _) eqn:E; [|done]. injection Hr as <-.
  exists c. split_and!; [done|apply in_snoc|done].
Qed.

Lemma replay_terminal_ends h id order_id :
  ends (λ h' r, h `prefix_of` h' ∧ submissions h' = submissions h ∧
          ∀ fills filled, r = Ok (fills, filled) →
            ∃ answer, Ans (CallExecutions id ExecutionFilter_default) answer ∈ h' ∧
              fills = recorded_fills answer order_id ∧ filled = filled_total fills ∧ 0 ≤ filled)
    h (replay_terminal id order_id).
Proof.
  cbn. split; [done|]. intros answer.
  set (h' := h ++ [_]).
  assert (ends (λ h' r, h `prefix_of` h' ∧ submissions h' = submissions h ∧
          ∀ fills filled, r = Ok (fills, filled) →
            ∃ answer, Ans (CallExecutions id ExecutionFilter_default) answer ∈ h' ∧
              fills = recorded_fills answer order_id ∧ filled = filled_total fills ∧ 0 ≤ filled)
    h' (try filled := filled_of (recorded_fills answer order_id) in
        Done (Ok (recorded_fills answer order_id, filled)))) as Hends.
  { assert (h `prefix_of` h') by apply prefix_snoc.
    assert (submissions h' = submissions h) by (by subst h'; rewrite submissions_app, app_nil_r).
    destruct (filled_of _) as [n|e] eqn:E; cbn; split_and!; try done.
    intros fills filled [= <- <-]. apply filled_of_ok in E as [-> ?].
    exists answer. split_and!; try done. apply in_snoc. }
  by destruct answer.
Qed.

Section limit.
Context `{!Upstream}.
Context (auth : Authorized) (path : ContractPath) (request : PlaceLimitOrderRequest).
Notation me := (cl_sub (au_claims auth)).
Notation tif := (default DtoTif_default (plo_time_in_force request)).
Notation quantity := (plo_quantity request).

Definition retried (t : list Answered) (r : PlaceLimitOrderResponse) : Prop :=
  ∃ c record answer, plo_client_order_id request = Some c ∧
    Ans (CallResolve me c) (Some record) ∈ t ∧
    cr_side record = seam_side (plo_side request) ∧ cr_quantity record = quantity ∧
    Ok (cr_symbol record) = contract_symbol path ∧
    Ans (CallExecutions me ExecutionFilter_default) answer ∈ t ∧
    submissions t = [] ∧ lr_order_id r = cr_order_id record ∧ lr_sequence r = cr_sequence record ∧
    lr_filled_quantity r = filled_total (recorded_fills answer (cr_order_id record)) ∧
    status_fits tif (lr_filled_quantity r) quantity (lr_status r).

Definition placed (t : list Answered) (r : PlaceLimitOrderResponse) : Prop :=
  ∃ symbol order_id owner time_in_force receipt,
    submissions t =
      [(add_order_command symbol order_id me owner (plo_client_order_id request)
          (seam_side (plo_side request)) Limit (Some (plo_price request)) quantity time_in_force,
        Ok receipt)] ∧
    Ok symbol = contract_symbol path ∧
    (lr_order_id r, lr_sequence r) = rendered receipt order_id ∧
    match terminal <$> receipt_outcome receipt with
    | Some (Rejected _ reason) =>
        lr_status r = LimitRejected ∧ lr_filled_quantity r = 0 ∧ lr_message r = reason
    | outcome =>
        lr_filled_quantity r = filled_total (default [] (taker_fill_legs <$> outcome)) ∧
        status_fits tif (lr_filled_quantity r) quantity (lr_status r)
    end.

Lemma limit_outcome_exact receipt status filled message :
  limit_outcome tif quantity receipt = Ok (status, filled, message) →
  0 ≤ filled ∧
  match terminal <$> receipt_outcome receipt with
  | Some (Rejected _ reason) => status = LimitRejected ∧ filled = 0 ∧ message = reason
  | outcome =>
      filled = filled_total (default [] (taker_fill_legs <$> outcome)) ∧
      status_fits tif filled quantity status
  end.
Proof.
  unfold limit_outcome.
  set (o := terminal <$> receipt_outcome receipt).
  assert (∀ fills, (filled ← filled_of fills;
     let '(status, message) := limit_status tif filled quantity in
     Ok (status, filled, message)) = Ok (status, filled, message) →
     0 ≤ filled ∧ filled = filled_total fills ∧ status_fits tif filled quantity status) as Hrun.
  { intros fills (n & Hn & He)%result_bind_ok. apply filled_of_ok in Hn as [-> Hn].
    pose proof (limit_status_fits tif _ quantity Hn) as Hs.
    destruct (limit_status _ _ _) as [s m]. by injection He as <- <- <-. }
  destruct o as [[]|]; try apply Hrun. by intros [= <- <- <-].
Qed.

Lemma place_limit_order_ends :
  has_ty u64 quantity →
  ends (λ t r, ∀ r', r = Ok r' →
          lr_remaining_quantity r' = Z.max 0 (quantity - lr_filled_quantity r') ∧
          (retried t r' ∨ placed t r')) [] (place_limit_order auth path request).
Proof.
  intros Hq. unfold place_limit_order. compute_tail.
  eapply obeys_bind; [apply earlier_placement_ends|]. intros h1 [record|] [Hs H1].
  - destruct (H1 record eq_refl) as (c & Hc & Hin & Hsame). clear H1.
    unfold same_placement in Hsame. apply andb_true_iff in Hsame as [Hsame Hqty].
    apply andb_true_iff in Hsame as [Hsym Hside%bool_decide_eq_true].
    apply String.eqb_eq in Hsym. apply Z.eqb_eq in Hqty.
    eapply obeys_bind; [apply replay_terminal_ends|]. intros h2 [[fills filled]|e] (Hp & Hs2 & H2);
      [|done].
    destruct (H2 _ _ eq_refl) as (answer & Hans & -> & -> & Hn).
    pose proof (limit_status_fits tif _ quantity Hn) as Hfit. destruct (limit_status _ _ _) as [st m].
    intros r' [= <-]. cbn. split; [by apply remaining_exact|]. left.
    exists c, record, answer. split_and!; try done; [by eapply in_prefix|by rewrite Hsym|].
    by rewrite Hs2, Hs.
  - compute_tail. intros r' [= <-].
    match goal with E : limit_outcome _ _ _ = _ |- _ => apply limit_outcome_exact in E as [? ?] end.
    cbn. split; [by apply remaining_exact|]. right.
    do 5 eexists. split_and!; [|done|by symmetry|done].
    by rewrite !submissions_app, Hs.
Qed.

(** C29. A successful limit placement reports exactly what happened: either it repeats an
    earlier placement of the same client order id, contract, side and quantity, submits
    nothing, and reports the original identity and the fills recorded for it, or it submits
    the requested order once and reports the identity and the taker fills of the receipt
    (the engine's reason when it rejected the order).  The remaining quantity and the status
    fit what is filled. *)
Theorem limit_order_reported_exactly t r :
  has_ty u64 quantity →
  steps (place_limit_order auth path request) t (Done (Ok r)) →
  lr_remaining_quantity r = Z.max 0 (quantity - lr_filled_quantity r) ∧ (retried t r ∨ placed t r).
Proof.
  intros Hq Ht. by apply (ends_steps _ _ _ _ (place_limit_order_ends Hq) Ht).
Qed.
End limit.

(** ** Bulk placement *)

Definition submitted_add (s : VenueCommand * result VenueError Receipt) :
    option (Symbol * VenueOrderId * SequenceNumber) :=
  match s with
  | (AddOrder symbol order_id _ _ _ _ _ _ _ _ _, Ok receipt) =>
      Some (symbol, order_id, receipt_sequence receipt)
  | _ => None
  end.
Definition is_add (c : VenueCommand) : bool :=
  match c with AddOrder _ _ _ _ _ _ _ _ _ _ _ => true | _ => false end.

(** The order id and the sequence of an accepted result. *)
Definition accepted (r : BulkOrderResultItem) : option (option VenueOrderId * option SequenceNumber) :=
  match bo_status r with BulkAccepted => Some (bo_order_id r, bo_sequence r) | BulkRejected => None end.

Definition last_rejected (results : list BulkOrderResultItem) : Prop :=
  ∃ r, last results = Some r ∧ bo_status r = BulkRejected.

(** What the loop's progress says of the orders submitted so far. *)
Record progress_of (adds : list (VenueCommand * result VenueError Receipt)) (p : BulkProgress) :
    Prop := {
  pg_adds : Forall (λ s, is_add s.1 = true) adds;
  pg_indices : bo_index <$> bp_results p = seqZ 0 (Z.of_nat (length (bp_results p)));
  pg_placed : bp_placed p = (λ e, e.1) <$> omap submitted_add adds;
  pg_accepted :
    omap accepted (bp_results p) = (λ e, (Some e.1.2, Some e.2)) <$> omap submitted_add adds;
}.

Lemma progress_reject adds adds' p error atomic :
  progress_of adds p → Forall (λ s, is_add s.1 = true) adds' → omap submitted_add adds' = [] →
  progress_of (adds ++ adds')
    {| bp_results := bp_results p ++ [bulk_rejected (Z.of_nat (length (bp_results p))) error];
       bp_placed := bp_placed p; bp_aborted := atomic |}.
Proof.
  intros [Ha Hi Hp Hr] Ha' Hn. split; cbn.
  - by apply Forall_app.
  - rewrite fmap_app, Hi, length_app. cbn. rewrite Nat2Z.inj_add, seqZ_app by lia. done.
  - by rewrite omap_app, Hn, app_nil_r.
  - by rewrite !omap_app, Hn, Hr, !app_nil_r.
Qed.

Lemma progress_accept adds p symbol order_id id owner c side ot price q tif receipt aborted :
  progress_of adds p →
  progress_of
    (adds ++ [(add_order_command symbol order_id id owner c side ot price q tif, Ok receipt)])
    {| bp_results := bp_results p ++
         [bulk_accepted (Z.of_nat (length (bp_results p))) order_id (receipt_sequence receipt)];
       bp_placed := bp_placed p ++ [(symbol, order_id)]; bp_aborted := aborted |}.
Proof.
  intros [Ha Hi Hp Hr]. split; cbn.
  - apply Forall_app. split; [done|]. by constructor.
  - rewrite fmap_app, Hi, length_app. cbn. rewrite Nat2Z.inj_add, seqZ_app by lia. done.
  - by rewrite omap_app, fmap_app, Hp.
  - by rewrite !omap_app, fmap_app, Hr.
Qed.

Section bulk.
Context `{!Upstream}.

(** The loop's result: all items done, or an atomic batch abandoned at a rejected item. *)
Definition loop_done (h0 : list Answered) (atomic : bool) (n : nat) (h : list Answered)
    (r : result VenueError BulkProgress) : Prop :=
  ∀ p, r = Ok p → ∃ adds, submissions h = submissions h0 ++ adds ∧ progress_of adds p ∧
    if bp_aborted p then atomic = true ∧ last_rejected (bp_results p)
    else length (bp_results p) = n.

Lemma bulk_loop_ends id owner now atomic h0 items index p h adds :
  index = Z.of_nat (length (bp_results p)) →
  submissions h = submissions h0 ++ adds → progress_of adds p → bp_aborted p = false →
  ends (loop_done h0 atomic (length (bp_results p) + length items)) h
    (bulk_loop id owner now atomic index items p).
Proof.
  revert index p h adds. induction items as [|item items IH]; intros index p h adds -> Hs Hp Ha.
  { cbn. intros ? [= <-]. exists adds. split_and!; [done..|]. rewrite Ha. lia. }
  assert (∀ p' h' adds', submissions h' = submissions h0 ++ adds' → progress_of adds' p' →
     bp_aborted p' = false → length (bp_results p') = S (length (bp_results p)) →
     ends (loop_done h0 atomic (length (bp_results p) + length (item :: items))) h'
       (bulk_loop id owner now atomic (Z.of_nat (length (bp_results p)) + 1) items p')) as Hnext.
  { intros p' h' adds' Hs' Hp' Ha' Hl. cbn [length]. rewrite <-Nat.add_succ_comm, <-Hl.
    apply (IH _ _ _ adds'); [lia|done..]. }
  assert (∀ h' error adds', submissions h' = submissions h ++ adds' →
     Forall (λ s, is_add s.1 = true) adds' → omap submitted_add adds' = [] →
     ends (loop_done h0 atomic (length (bp_results p) + length (item :: items))) h'
       (let p' := {| bp_results := bp_results p ++
                       [bulk_rejected (Z.of_nat (length (bp_results p))) error];
                    bp_placed := bp_placed p; bp_aborted := atomic |} in
        if atomic then Done (Ok p')
        else bulk_loop id owner now atomic (Z.of_nat (length (bp_results p)) + 1) items p'))
    as Hrej.
  { intros h' error adds' Hs' Hadd Hnone.
    pose proof (progress_reject adds adds' p error atomic Hp Hadd Hnone) as Hp'.
    assert (submissions h' = submissions h0 ++ (adds ++ adds')) as Hs2
      by (by rewrite Hs', Hs, app_assoc).
    destruct atomic; cbn -[bulk_loop].
    - intros ? [= <-]. eexists. split_and!; [done..|]. cbn. split; [done|].
      eexists. by rewrite last_snoc.
    - apply (Hnext _ _ _ Hs2 Hp' eq_refl). cbn. rewrite length_app. cbn. lia. }
  cbn [bulk_loop]. destruct (bulk_item_checked item now) as [[underlying tif]|error].
  - compute_tail.
    + eapply Hnext; [|by apply progress_accept|done|cbn; rewrite length_app; cbn; lia].
      rewrite !submissions_app, Hs. cbn. by rewrite !app_nil_r, <-app_assoc.
    + eapply (Hrej _ _ [(_, _)]); [rewrite !submissions_app; cbn; by rewrite !app_nil_r|by apply Forall_singleton|done].
  - by apply (Hrej _ _ []); [rewrite app_nil_r|constructor|].
Qed.

(** Every placed order is cancelled, or a warning says it was not. *)
Definition rolled_back_by (id : AccountId) (placed : list (Symbol * VenueOrderId))
    (warnings : nat) (h0 h : list Answered) (r : list string) : Prop :=
  ∃ cancels, submissions h = submissions h0 ++ cancels ∧
    cancels.*1 `sublist_of` ((λ e, CancelOrder e.1 e.2 id) <$> placed) ∧
    (length r + length (filter (λ s, is_ok s.2 = true) cancels) = warnings + length placed)%nat.

Lemma rollback_loop_ends id placed warnings h :
  ends (rolled_back_by id placed (length warnings) h) h (rollback_loop id placed warnings).
Proof.
  revert warnings h. induction placed as [|[symbol order_id] placed IH]; intros warnings h.
  { cbn. exists []. split_and!; [by rewrite app_nil_r|done|cbn; lia]. }
  cbn [rollback_loop]. compute_tail.
  - eapply obeys_mono; [apply IH|]. intros h' r (cancels & Hs & Hsub & Hl).
    exists ((CancelOrder symbol order_id id, x0) :: cancels). split_and!.
    + rewrite Hs, !submissions_app. cbn. by rewrite app_nil_r, <-app_assoc.
    + cbn. by constructor.
    + destruct x0; [rewrite filter_cons_True by done|rewrite filter_cons_False by done];
        rewrite ?length_app in Hl; cbn in *; lia.
  - eapply obeys_mono; [apply IH|]. intros h' r (cancels & Hs & Hsub & Hl).
    exists cancels. split_and!.
    + by rewrite Hs, submissions_app, app_nil_r.
    + cbn. by constructor.
    + rewrite length_app in Hl. cbn in *. lia.
Qed.

Definition bulk_accounted (auth : Authorized) (request : BulkOrderRequest) (t : list Answered)
    (r : BulkOrderResponse) : Prop :=
  ∃ adds cancels, submissions t = adds ++ cancels ∧ Forall (λ s, is_add s.1 = true) adds ∧
    let orders := omap submitted_add adds in
    bo_index <$> bo_results r = seqZ 0 (Z.of_nat (length (bo_results r))) ∧
    omap accepted (bo_results r) = (λ e, (Some e.1.2, Some e.2)) <$> orders ∧
    bo_success_count r + bo_failure_count r = Z.of_nat (length (bo_results r)) ∧
    if bo_rolled_back r then
      br_atomic request = true ∧ last_rejected (bo_results r) ∧ bo_success_count r = 0 ∧
      cancels.*1 `sublist_of`
        ((λ e, CancelOrder e.1.1 e.1.2 (cl_sub (au_claims auth))) <$> orders) ∧
      (length (bo_rollback_warnings r) + length (filter (λ s, is_ok s.2 = true) cancels) =
         length orders)%nat
    else
      cancels = [] ∧ bo_rollback_warnings r = [] ∧
      length (bo_results r) = length (br_orders request) ∧
      bo_success_count r = Z.of_nat (length orders).

Lemma bulk_place_orders_ends auth request :
  ends (λ t r, ∀ r', r = Ok r' → bulk_accounted auth request t r') []
    (bulk_place_orders auth request).
Proof.
  unfold bulk_place_orders. destruct (require _ _); [|done].
  destruct (MAX_BULK_ORDER_ITEMS <? _); [done|]. cbn [owner_for]. compute_tail.
  eapply obeys_bind; [apply (bulk_loop_ends _ _ _ _ [] _ _ _ _ []); [done|done|by split|done]|].
  intros h r Hr. compute_tail. destruct (Hr _ eq_refl) as (adds & Hs & [Ha Hi Hp Hac] & Hend).
  destruct (bp_aborted val1).
  - destruct Hend as [Hat Hlast]. rewrite Hat. cbn.
    eapply obeys_bind; [apply rollback_loop_ends|]. intros h' warnings (cancels & Hs' & Hsub & Hl).
    intros r' [= <-]. exists adds, cancels. cbn. split_and!; try done; [by rewrite Hs', Hs|lia|..].
    + by rewrite Hp, <-list_fmap_compose in Hsub.
    + rewrite Hl, Hp. cbn. by rewrite length_fmap.
  - rewrite andb_false_r. intros r' [= <-]. exists adds, []. cbn in *.
    split_and!; try done; [by rewrite app_nil_r|lia|]. by rewrite Hp, length_fmap.
Qed.

(** A bulk placement accounts for every item: results are indexed in request order, the
    accepted ones carry the id and the sequence of the orders the venue committed a receipt
    for, and the two counts add up.  Without a rollback every item has its result and the
    successes are the committed orders; an atomic batch that meets a rejected item stops
    there, reports no success, and each order already placed is either cancelled, in order, or
    has a warning. *)
Theorem bulk_orders_accounted auth request t r :
  steps (bulk_place_orders auth request) t (Done (Ok r)) → bulk_accounted auth request t r.
Proof. intros Ht. by apply (ends_steps _ _ _ _ (bulk_place_orders_ends auth request) Ht). Qed.
End bulk.

Definition SampleState : Type := AppState (S := SharedState StoreProjections) (A := MailboxActor).

Definition rest_app : SampleState :=
  {| as_venue := sample_app LatDisabled; as_accounts := sy_registry auth1; as_lineage := "run-1";
     as_order_counter := 0; as_limiter := with_budgets sample_budgets; as_sessions := ∅;
     as_feed := with_limits 64 8; as_inbox := []; as_sent := [] |}.

Definition trader : Authorized :=
  {| au_claims := {| cl_sub := "alice"; cl_permissions := [PermTrade]; cl_iat := 0; cl_exp := 1000;
                     cl_revocation_epoch := 0 |} |}.
Definition btc_path : ContractPath :=
  {| cp_underlying := "BTC"; cp_expiration := "20240329"; cp_strike := 50000;
     cp_style := "call" |}.

Definition sell (price quantity : Z) (c : option ClientOrderId) : PlaceLimitOrderRequest :=
  {| plo_side := DtoSell; plo_price := price; plo_quantity := quantity; plo_time_in_force := None;
     plo_gtd_expires_at := None; plo_client_order_id := c |}.
Definition sell_item (price quantity : Z) : BulkOrderItem :=
  {| bi_symbol := btc_call; bi_side := DtoSell; bi_price := price; bi_quantity := quantity;
     bi_time_in_force := None; bi_gtd_expires_at := None; bi_client_order_id := None |}.

(** The venue after a handler, and its response. *)
Definition serve {R} (p : Prog (result VenueError R)) (s : SampleState) :
    SampleState * option (result VenueError R) :=
  match run no_float p s with Some (s, r) => (s, Some r) | None => (s, None) end.

Example limit_order_rests :
  (serve (place_limit_order trader btc_path (sell 100 5 (Some "a-1"))) rest_app).2 =
    Some (Ok {| lr_order_id := "run-1:BTC:g0:0"; lr_status := LimitAccepted;
                lr_filled_quantity := 0; lr_remaining_quantity := 5; lr_sequence := 0;
                lr_message := "order accepted; resting" |}).
Proof. vm_compute. reflexivity. Qed.

(** Where a handler stands after [n] calls, and its finished response. *)
Definition pending_call {R} (q : list Answered * (Prog R * SampleState))
    (P : list Answered → Called → Prop) : Prop :=
  match q.2.1 with Invoke c k => P q.1 (Asked c) | Done _ => False end.
Definition is_pending {R} (q : list Answered * (Prog R * SampleState)) : bool :=
  match q.2.1 with Invoke _ _ => true | Done _ => false end.
Definition response {R} (q : list Answered * (Prog (result VenueError R) * SampleState)) :
    option (result VenueError R) :=
  match q.2.1 with Done r => Some r | Invoke _ _ => None end.

Lemma response_done {R} q (r : result VenueError R) : response q = Some r → q.2.1 = Done r.
Proof. destruct q as [t [[] s]]; cbn; [|done]. by intros [= ->]. Qed.

Definition sample_request : PlaceLimitOrderRequest := sell 100 5 (Some "a-1").

Lemma rest_orders_on_own_behalf_witness :
  let q := run_calls no_float 6 (order_route trader (PlaceLimit btc_path sample_request)) rest_app in
  length q.1 = 6%nat ∧ pending_call q (own_call trader).
Proof.
  intros q. assert (is_pending q = true) as Hp by (vm_compute; reflexivity).
  assert (length q.1 = 6%nat) as Hl by (vm_compute; reflexivity). split; [exact Hl|].
  pose proof (run_calls_steps no_float 6 (order_route trader (PlaceLimit btc_path sample_request))
    rest_app) as Hs. change (steps (order_route trader (PlaceLimit btc_path sample_request)) q.1 q.2.1) in Hs.
  clearbody q. destruct q as [t [[r|X c k] s]]; [discriminate Hp|].
  exact (rest_orders_on_own_behalf trader _ t X c k Hs).
Defined.

Lemma limit_order_reported_exactly_witness :
  let q := run_calls no_float 20 (place_limit_order trader btc_path sample_request) rest_app in
  ∃ r, response q = Some (Ok r) ∧ lr_status r = LimitAccepted ∧
    (retried trader btc_path sample_request q.1 r ∨ placed trader btc_path sample_request q.1 r).
Proof.
  intros q. eexists. split; [vm_compute; reflexivity|]. split; [reflexivity|].
  apply (limit_order_reported_exactly trader btc_path sample_request); [split; cbn; lia|].
  rewrite <-(response_done q) by (vm_compute; reflexivity). apply run_calls_steps.
Defined.

(** An atomic batch whose second item is refused: the first order is taken back. *)
Definition atomic_batch : BulkOrderRequest :=
  {| br_orders := [sell_item 100 5; sell_item 0 5; sell_item 120 5]; br_atomic := true |}.

Lemma bulk_orders_accounted_witness :
  let q := run_calls no_float 20 (bulk_place_orders trader atomic_batch) rest_app in
  ∃ r, response q = Some (Ok r) ∧ bo_rolled_back r = true ∧ length (submissions q.1) = 2%nat ∧
    bulk_accounted trader atomic_batch q.1 r.
Proof.
  intros q. eexists. split; [vm_compute; reflexivity|]. split_and!; [reflexivity|by vm_compute|].
  apply (bulk_orders_accounted trader atomic_batch).
  rewrite <-(response_done q) by (vm_compute; reflexivity). apply run_calls_steps.
Defined.

(** The retry of a placement answers for the original order, and nothing is journaled. *)
Example retry_answers_original :
  let '(s, r) := serve (place_limit_order trader btc_path sample_request) rest_app in
  let '(s', r') := serve (place_limit_order trader btc_path sample_request) s in
  r' = r ∧ as_order_counter s' = as_order_counter s.
Proof. vm_compute. split; reflexivity. Qed.

(** The order counter of the gateway starts again with the process, in the same lineage: the
    id minted first after a restart is the one of an order that may still rest.  Here the
    first order can no longer be cancelled. *)
Definition cancel (order_id : string) : Prog (result VenueError CancelOrderResponse) :=
  cancel_order trader btc_path order_id.
Definition restarted (s : SampleState) : SampleState := with_order_counter 0 s.

Example restart_mints_id_again :
  let '(s, r1) := serve (place_limit_order trader btc_path (sell 100 5 None)) rest_app in
  let '(s, r2) := serve (place_limit_order trader btc_path (sell 120 7 None)) (restarted s) in
  let '(s, c1) := serve (cancel "run-1:BTC:g0:0") s in
  let '(s, c2) := serve (cancel "run-1:BTC:g0:0") s in
  (lr_order_id <$> (r ← r1; match r with Ok r => Some r | Err _ => None end)) =
    Some "run-1:BTC:g0:0" ∧
  (lr_order_id <$> (r ← r2; match r with Ok r => Some r | Err _ => None end)) =
    Some "run-1:BTC:g0:0" ∧
  (co_success <$> (r ← c1; match r with Ok r => Some r | Err _ => None end)) = Some true ∧
  (co_success <$> (r ← c2; match r with Ok r => Some r | Err _ => None end)) = Some false ∧
  still_resting (as_venue s) = 1%nat.
Proof. vm_compute. split_and!; reflexivity. Qed.

(** Orders the engine refuses count as accepted: on a halted contract an atomic batch is
    reported placed in full. *)
Definition halted_app : SampleState :=
  with_venue (submit_set_instrument_status btc_call Halted (as_venue rest_app)).1 rest_app.

Example bulk_rejection_counted_accepted :
  let '(s, r) := serve (bulk_place_orders trader
    {| br_orders := [sell_item 100 5; sell_item 120 5]; br_atomic := true |}) halted_app in
  (r ≫= λ r, match r with Ok r => Some (bo_success_count r, bo_failure_count r, bo_rolled_back r)
                        | Err _ => None end) = Some (2, 0, false) ∧
  still_resting (as_venue s) = 0%nat.
Proof. vm_compute. split; reflexivity. Qed.
