(* ===== verification/OrderFlow.v ===== *)
(** The FIX order flow between the wire and the venue ([src/src/gateway/fix/order_flow.rs]):
    decoded requests to commands, receipts and executions to report specifications; and the
    projection of market data onto FIX entries ([md_projection.rs]).  Proved of it: the
    quantities, statuses and identities of the report stream of a placement. *)

From S2P Require Export FixMessages RestOrders Subscription Envelope RestReports.

Definition ORD_REJ_REASON_DUPLICATE : Z := 6.
Definition DUPLICATE_CLORDID_TEXT : string := "client_order_id reused with a different order".
Definition FIX_CANCEL_REJECT_MASKED_REASON : string := "unknown order".

(** ** Commands *)

Definition fix_seam_side (side : OrderSide) : Side :=
  match side with OsBuy => Buy | OsSell => Sell end.
Definition fix_side (side : Side) : OrderSide :=
  match side with Buy => OsBuy | Sell => OsSell end.
Definition liquidity_ind (flag : LiquidityFlag) : LastLiquidityInd :=
  match flag with Maker => LiMaker | Taker => LiTaker end.

Definition seam_time_in_force (tif : FixTif) (expire_time : option UtcTimestamp) :
    result VenueError TimeInForce :=
  match tif with
  | TifDay => Ok Day
  | TifGtc => Ok Gtc
  | TifIoc => Ok Ioc
  | TifFok => Ok Fok
  | TifGtd =>
      expire ← ok_or (VInvalidOrder "GTD order requires ExpireTime (126)") expire_time;
      ms ← ok_or (VInvalidOrder "GTD ExpireTime (126) is before the Unix epoch")
             (to_epoch_ms expire);
      Ok (Gtd ms)
  end.

Definition fix_tif_rests (tif : TimeInForce) : bool :=
  match tif with Gtc | Gtd _ | Day => true | Ioc | Fok => false end.

Definition to_add_command (order : NewOrderSingle) (order_id : VenueOrderId) (account : AccountId)
    (owner : Hash32) : result VenueError VenueCommand :=
  '(order_type, limit_price, time_in_force) ←
    match no_ord_type order with
    | OtMarket => Ok (Market, None, Ioc)
    | OtLimit =>
        tif ← seam_time_in_force (no_time_in_force order) (no_expire_time order);
        Ok (Limit, no_price order, tif)
    end;
  Ok (add_order_command (no_symbol order) order_id account owner (Some (no_cl_ord_id order))
        (fix_seam_side (no_side order)) order_type limit_price (no_order_qty order) time_in_force).

Definition to_cancel_command (cancel : OrderCancelRequest) (account : AccountId)
    (target : VenueOrderId) : VenueCommand :=
  CancelOrder (oc_symbol cancel) target account.

(** The price a replace carries: none for a market order. *)
Definition replace_price (replace : OrderCancelReplaceRequest) : option Cents :=
  match og_ord_type replace with OtLimit => og_price replace | OtMarket => None end.

Definition to_replace_command (replace : OrderCancelReplaceRequest) (account : AccountId)
    (target new_order_id : VenueOrderId) : VenueCommand :=
  Replace (og_symbol replace) target new_order_id account (Some (og_cl_ord_id replace))
    (Some (og_orig_cl_ord_id replace)) (fix_seam_side (og_side replace)) (replace_price replace)
    (og_order_qty replace) Gtc StpNone.

Definition ord_rej_reason (reason : FixRejectReason) : Z :=
  match reason with
  | ReasonInvalid => 11
  | ReasonNotFound => 5
  | ReasonAuthorization => 6
  | ReasonThrottle => 99
  | ReasonInternal => 99
  end.

Definition cxl_rej_reason (reason : FixRejectReason) : Z :=
  match reason with
  | ReasonNotFound => 1
  | ReasonInvalid | ReasonAuthorization | ReasonThrottle | ReasonInternal => 2
  end.

(** ** Reports *)

Record ExecReportSpec := {
  es_order_id : VenueOrderId;
  es_exec_id : ExecutionId;
  es_exec_type : ExecType;
  es_ord_status : OrdStatus;
  es_symbol : Symbol;
  es_side : OrderSide;
  es_leaves_qty : Z;
  es_cum_qty : Z;
  es_last_qty : option Z;
  es_last_px : option Cents;
  es_price : option Cents;
  es_secondary_exec_id : SequenceNumber;
  es_transact_time : UtcTimestamp;
  es_commission : option SignedCents;
  es_comm_type : option CommType;
  es_last_liquidity_ind : option LastLiquidityInd;
  es_ord_rej_reason : option Z;
  es_text : option string;
}.

Definition into_report (s : ExecReportSpec) (header : StandardHeader) : ExecutionReport :=
  {| er_header := header; er_order_id := es_order_id s; er_exec_id := es_exec_id s;
     er_exec_type := es_exec_type s; er_ord_status := es_ord_status s; er_symbol := es_symbol s;
     er_side := es_side s; er_leaves_qty := es_leaves_qty s; er_cum_qty := es_cum_qty s;
     er_last_qty := es_last_qty s; er_last_px := es_last_px s; er_price := es_price s;
     er_secondary_exec_id := es_secondary_exec_id s; er_transact_time := es_transact_time s;
     er_commission := es_commission s; er_comm_type := es_comm_type s;
     er_last_liquidity_ind := es_last_liquidity_ind s; er_ord_rej_reason := es_ord_rej_reason s;
     er_text := es_text s |}.

(** A report without a fill. *)
Definition plain_spec (order_id : VenueOrderId) (exec_id : ExecutionId) (exec_type : ExecType)
    (ord_status : OrdStatus) (symbol : Symbol) (side : OrderSide) (leaves_qty cum_qty : Z)
    (price : option Cents) (sequence : SequenceNumber) (transact_time : UtcTimestamp) :
    ExecReportSpec :=
  {| es_order_id := order_id; es_exec_id := exec_id; es_exec_type := exec_type;
     es_ord_status := ord_status; es_symbol := symbol; es_side := side;
     es_leaves_qty := leaves_qty; es_cum_qty := cum_qty; es_last_qty := None; es_last_px := None;
     es_price := price; es_secondary_exec_id := sequence; es_transact_time := transact_time;
     es_commission := None; es_comm_type := None; es_last_liquidity_ind := None;
     es_ord_rej_reason := None; es_text := None |}.

(** [checked_add(..).unwrap_or(cum)], [checked_sub(..).unwrap_or(0)], [u32::try_from(..)]. *)
Definition add_or_keep (cum quantity : Z) : Z := default cum (checked_add u64 cum quantity).
Definition sub_or_zero (quantity cum : Z) : Z := default 0 (checked_sub u64 quantity cum).
Definition leg_index (n : nat) : Z := default (int_max u32) (narrow u32 (Z.of_nat n)).

Section placement.
Context (accept_exec_type : ExecType) (accept_ord_status : OrdStatus) (symbol : Symbol)
  (side : OrderSide) (quantity : Z) (price : option Cents) (order_id : VenueOrderId)
  (sequence : SequenceNumber) (venue_ts : EventTimestamp) (lineage : LineageId)
  (underlying : string) (tif : TimeInForce).

Definition trade_spec (cum : Z) (leg : ExecutionRecord) : ExecReportSpec :=
  {| es_order_id := order_id; es_exec_id := xr_execution_id leg; es_exec_type := EtTrade;
     es_ord_status := if quantity <=? cum then StFilled else StPartiallyFilled;
     es_symbol := symbol; es_side := side; es_leaves_qty := sub_or_zero quantity cum;
     es_cum_qty := cum; es_last_qty := Some (xr_quantity leg);
     es_last_px := Some (xr_price_cents leg); es_price := price;
     es_secondary_exec_id := sequence; es_transact_time := from_epoch_ms (xr_executed_at leg);
     es_commission := Some (xr_fee_cents leg); es_comm_type := Some CtAbsolute;
     es_last_liquidity_ind := Some (liquidity_ind (xr_liquidity leg));
     es_ord_rej_reason := None; es_text := None |}.

Fixpoint trade_specs (legs : list ExecutionRecord) (cum : Z) : list ExecReportSpec * Z :=
  match legs with
  | [] => ([], cum)
  | leg :: legs =>
      let cum := add_or_keep cum (xr_quantity leg) in
      let '(specs, filled) := trade_specs legs cum in
      (trade_spec cum leg :: specs, filled)
  end.

Definition render_placement_reports (taker_legs : list ExecutionRecord) : list ExecReportSpec :=
  let command_ts := from_epoch_ms venue_ts in
  let leg_count := length taker_legs in
  let accept_index := leg_index leg_count in
  let terminal_index := leg_index (S leg_count) in
  let '(trades, filled) := trade_specs taker_legs 0 in
  plain_spec order_id (execution_id lineage underlying sequence accept_index) accept_exec_type
    accept_ord_status symbol side quantity 0 price sequence command_ts ::
  trades ++
  (if (filled <? quantity) && negb (fix_tif_rests tif) then
     [plain_spec order_id (execution_id lineage underlying sequence terminal_index) EtCanceled
        StCanceled symbol side 0 filled price sequence command_ts]
   else []).
End placement.

Definition render_new_order_reports (order : NewOrderSingle) (order_id : VenueOrderId)
    (sequence : SequenceNumber) (venue_ts : EventTimestamp) (lineage : LineageId)
    (underlying : string) (tif : TimeInForce) (taker_legs : list ExecutionRecord) :
    list ExecReportSpec :=
  render_placement_reports EtNew StNew (no_symbol order) (no_side order) (no_order_qty order)
    (no_price order) order_id sequence venue_ts lineage underlying tif taker_legs.

Definition render_replace_reports (replace : OrderCancelReplaceRequest)
    (new_order_id : VenueOrderId) (sequence : SequenceNumber) (venue_ts : EventTimestamp)
    (lineage : LineageId) (underlying : string) (taker_legs : list ExecutionRecord) :
    list ExecReportSpec :=
  render_placement_reports EtReplaced StReplaced (og_symbol replace) (og_side replace)
    (og_order_qty replace) (replace_price replace) new_order_id sequence venue_ts lineage
    underlying Gtc taker_legs.

Definition render_cancel_report (symbol : Symbol) (side : OrderSide) (order_id : VenueOrderId)
    (sequence : SequenceNumber) (venue_ts : EventTimestamp) (lineage : LineageId)
    (underlying : string) : ExecReportSpec :=
  plain_spec order_id (execution_id lineage underlying sequence 0) EtCanceled StCanceled symbol
    side 0 0 None sequence (from_epoch_ms venue_ts).

Definition render_mass_cancel_leg_report (symbol : Symbol) (side : OrderSide)
    (order_id : VenueOrderId) (sequence : SequenceNumber) (venue_ts : EventTimestamp)
    (lineage : LineageId) (underlying : string) (index : Z) : ExecReportSpec :=
  plain_spec order_id (execution_id lineage underlying sequence index) EtCanceled StCanceled
    symbol side 0 0 None sequence (from_epoch_ms venue_ts).

Definition render_status_report (symbol : Symbol) (side : OrderSide) (order_id : VenueOrderId)
    (quantity cum : Z) (read_ts : EventTimestamp) (last_leg : option ExecutionRecord)
    (lineage : LineageId) (underlying : string) : ExecReportSpec :=
  let ord_status :=
    if (quantity <=? cum) && (0 <? quantity) then StFilled
    else if 0 <? cum then StPartiallyFilled else StNew in
  let exec_type := if 0 <? cum then EtTrade else EtNew in
  let sequence := default 0 (xr_underlying_sequence <$> last_leg) in
  let transact_time := from_epoch_ms (default read_ts (xr_executed_at <$> last_leg)) in
  {| es_order_id := order_id; es_exec_id := execution_id lineage underlying sequence 0;
     es_exec_type := exec_type; es_ord_status := ord_status; es_symbol := symbol;
     es_side := side; es_leaves_qty := sub_or_zero quantity cum; es_cum_qty := cum;
     es_last_qty := xr_quantity <$> last_leg; es_last_px := xr_price_cents <$> last_leg;
     es_price := None; es_secondary_exec_id := sequence; es_transact_time := transact_time;
     es_commission := None; es_comm_type := None; es_last_liquidity_ind := None;
     es_ord_rej_reason := None; es_text := None |}.

(** ** Market data *)

Record RequestedSides := { rs_bids : bool; rs_asks : bool }.

Definition requests_trade_tape (entry_types : list MdEntryType) : bool :=
  existsb (λ e, match e with MeTrade => true | _ => false end) entry_types.

Definition from_entry_types (entry_types : list MdEntryType) : RequestedSides :=
  foldl (λ sides e,
           match e with
           | MeBid => {| rs_bids := true; rs_asks := rs_asks sides |}
           | MeOffer => {| rs_bids := rs_bids sides; rs_asks := true |}
           | MeTrade => sides
           end) {| rs_bids := false; rs_asks := false |} entry_types.

Definition sides_any (s : RequestedSides) : bool := rs_bids s || rs_asks s.
Definition includes (s : RequestedSides) (side : BookSide) : bool :=
  match side with Bid => rs_bids s | Ask => rs_asks s end.
Definition entry_type_for (side : BookSide) : MdEntryType :=
  match side with Bid => MeBid | Ask => MeOffer end.

Definition snapshot_entries (bids asks : list PriceLevelData) (sides : RequestedSides) :
    list SnapshotEntry :=
  let entries entry_type levels :=
    (λ l, {| se_entry_type := entry_type; se_price := pld_price l; se_size := pld_quantity l |})
      <$> (levels : list PriceLevelData) in
  (if rs_bids sides then entries MeBid bids else []) ++
  (if rs_asks sides then entries MeOffer asks else []).

Definition incremental_entry (symbol : Symbol) (change : PriceLevelChange) : IncrementalEntry :=
  {| ie_update_action := if plc_quantity change =? 0 then UaDelete else UaChange;
     ie_entry_type := entry_type_for (plc_side change); ie_symbol := symbol;
     ie_price := plc_price change; ie_size := plc_quantity change |}.

Definition incremental_entries (symbol : Symbol) (changes : list PriceLevelChange)
    (sides : RequestedSides) : list IncrementalEntry :=
  incremental_entry symbol <$> filter (λ c, includes sides (plc_side c) = true) changes.

Definition snapshot_projection (ws : WsMessage) (sides : RequestedSides) :
    option (Z * list SnapshotEntry) :=
  match ws with
  | WsOrderbookSnapshot _ _ sequence bids asks =>
      Some (sequence, snapshot_entries bids asks sides)
  | _ => None
  end.

Definition incremental_projection (ws : WsMessage) (sides : RequestedSides) :
    option (Z * list IncrementalEntry) :=
  match ws with
  | WsOrderbookDelta symbol sequence changes =>
      Some (sequence, incremental_entries symbol changes sides)
  | _ => None
  end.

Lemma add_or_keep_exact cum q : has_ty u64 (cum + q) → add_or_keep cum q = cum + q.
Proof. intros H. unfold add_or_keep, checked_add. by rewrite narrow_fits. Qed.
Lemma sub_or_zero_exact quantity cum :
  has_ty u64 quantity → 0 ≤ cum ≤ quantity → sub_or_zero quantity cum = quantity - cum.
Proof.
  intros [? ?] ?. unfold sub_or_zero, checked_sub. rewrite narrow_fits; [done|].
  split; cbn in *; lia.
Qed.
Lemma leg_index_exact n : Z.of_nat n ≤ int_max u32 → leg_index n = Z.of_nat n.
Proof. intros ?. unfold leg_index. rewrite narrow_fits; [done|]. split; cbn in *; lia. Qed.

Definition legs_total (legs : list ExecutionRecord) : Z := foldr Z.add 0 (xr_quantity <$> legs).

Lemma legs_total_take legs k :
  Forall (λ l, 0 < xr_quantity l) legs → 0 ≤ legs_total (take k legs) ≤ legs_total legs.
Proof.
  unfold legs_total. intros H. revert k. induction H as [|l legs Hl _ IH]; intros k.
  - by rewrite take_nil.
  - destruct k; cbn; [specialize (IH 0%nat); cbn in IH; lia|]. specialize (IH k). lia.
Qed.

Section stream.
Context (accept_exec_type : ExecType) (accept_ord_status : OrdStatus) (symbol : Symbol)
  (side : OrderSide) (quantity : Z) (price : option Cents) (order_id : VenueOrderId)
  (sequence : SequenceNumber) (venue_ts : EventTimestamp) (lineage : LineageId)
  (underlying : string) (tif : TimeInForce) (legs : list ExecutionRecord).
Context (Hquantity : has_ty u64 quantity).
(** The legs are those of one placement: positive, no more than the order, numbered from
    zero under its sequence. *)
Context (Hpositive : Forall (λ l, 0 < xr_quantity l) legs).
Context (Hbound : legs_total legs ≤ quantity).
Context (Hids : imap (λ i _, execution_id lineage underlying sequence (Z.of_nat i)) legs =
                xr_execution_id <$> legs).
Context (Hcount : Z.of_nat (length legs) < int_max u32).
Context (Hsequence : has_ty u64 sequence).

Notation reports := (render_placement_reports accept_exec_type accept_ord_status symbol side
  quantity price order_id sequence venue_ts lineage underlying tif legs).
Notation trades := (trade_specs symbol side quantity price order_id sequence).

Lemma trade_specs_exact l cum :
  Forall (λ l, 0 < xr_quantity l) l → 0 ≤ cum → cum + legs_total l ≤ quantity →
  (trades l cum).2 = cum + legs_total l ∧
  (trades l cum).1 =
    imap (λ k leg, trade_spec symbol side quantity price order_id sequence
                     (cum + legs_total (take (S k) l)) leg) l.
Proof.
  intros H. revert cum. induction H as [|leg l Hl Hf IH]; intros cum Hc Hq.
  { unfold legs_total. cbn. split; [lia|done]. }
  unfold legs_total in Hq. cbn in Hq. change (foldr Z.add 0 (xr_quantity <$> l)) with (legs_total l) in Hq.
  pose proof (legs_total_take l 0 Hf) as Ht.
  assert (add_or_keep cum (xr_quantity leg) = cum + xr_quantity leg) as Ha.
  { apply add_or_keep_exact. destruct Hquantity. split; cbn in *; lia. }
  cbn [trade_specs]. rewrite Ha.
  destruct (IH (cum + xr_quantity leg)) as [H1 H2]; [lia|lia|].
  destruct (trades l (cum + xr_quantity leg)) as [specs filled]. cbn in *. subst filled specs. split.
  - unfold legs_total. cbn. fold (legs_total l). change (foldr Z.add 0 (xr_quantity <$> l)) with (legs_total l). lia.
  - f_equal.
    + unfold legs_total. cbn. by rewrite Z.add_0_r.
    + apply imap_ext. intros k x _. cbn. unfold legs_total. cbn. f_equal. lia.
Qed.
Notation total := (legs_total legs).
Notation closed_short := ((total <? quantity) && negb (fix_tif_rests tif)).
Notation accept_report :=
  (plain_spec order_id (execution_id lineage underlying sequence (Z.of_nat (length legs)))
     accept_exec_type accept_ord_status symbol side quantity 0 price sequence
     (from_epoch_ms venue_ts)).
Notation trade_report k leg :=
  (trade_spec symbol side quantity price order_id sequence (legs_total (take (S k) legs)) leg).
Notation closing_report :=
  (plain_spec order_id (execution_id lineage underlying sequence (Z.of_nat (S (length legs))))
     EtCanceled StCanceled symbol side 0 total price sequence (from_epoch_ms venue_ts)).

Lemma reports_shape :
  reports = accept_report :: imap (λ k leg, trade_report k leg) legs ++
              (if closed_short then [closing_report] else []).
Proof.
  unfold render_placement_reports. rewrite !leg_index_exact by lia.
  destruct (trade_specs_exact legs 0 Hpositive ltac:(lia) ltac:(lia)) as [H1 H2].
  destruct (trades legs 0) as [specs filled]. cbn in H1, H2. subst. done.
Qed.

Lemma report_ids :
  es_exec_id <$> reports =
    execution_id lineage underlying sequence <$>
      (Z.of_nat (length legs) :: seqZ 0 (Z.of_nat (length legs)) ++
       (if closed_short then [Z.of_nat (S (length legs))] else [])).
Proof.
  rewrite reports_shape. cbn [fmap list_fmap]. f_equal. rewrite !fmap_app. f_equal.
  - transitivity (xr_execution_id <$> legs).
    { rewrite fmap_imap. apply (imap_const xr_execution_id). }
    rewrite <-Hids. apply list_eq. intros k. rewrite list_lookup_imap, list_lookup_fmap.
    destruct (legs !! k) as [leg|] eqn:E; cbn.
    + apply lookup_lt_Some in E. by rewrite lookup_seqZ_lt by lia.
    + apply lookup_ge_None in E. by rewrite lookup_seqZ_ge by lia.
  - by destruct closed_short.
Qed.
Lemma report_ids_distinct : NoDup (es_exec_id <$> reports).
Proof.
  rewrite report_ids. set (n := Z.of_nat (length legs)).
  assert (0 ≤ n < 2 ^ 32) as Hn by (cbn in Hcount; lia).
  assert (∀ i, i ∈ n :: seqZ 0 n ++ (if closed_short then [Z.of_nat (S (length legs))] else []) →
     0 ≤ i < 10 ^ 40) as Hr.
  { intros i. rewrite elem_of_cons, elem_of_app, elem_of_seqZ. intros [->|[?|Hi]]; [lia|lia|].
    destruct closed_short; [|by apply elem_of_nil in Hi]. apply list_elem_of_singleton in Hi. lia. }
  apply NoDup_fmap_2_strong.
  - intros i j Hi Hj E. destruct Hsequence. cbn in *.
    apply execution_id_inj in E as [_ ->]; [done|lia|by apply Hr|lia|by apply Hr].
  - apply NoDup_cons. split.
    + rewrite elem_of_app, elem_of_seqZ. intros [?|Hi]; [lia|].
      destruct closed_short; [|by apply elem_of_nil in Hi]. apply list_elem_of_singleton in Hi. lia.
    + apply NoDup_app. split; [apply NoDup_seqZ|]. split; [|destruct closed_short; [apply NoDup_singleton|apply NoDup_nil_2]].
      intros i Hi Hj. apply elem_of_seqZ in Hi.
      destruct closed_short; [|by apply elem_of_nil in Hj]. apply list_elem_of_singleton in Hj. lia.
Qed.

(** What the [k]-th report says, and nothing else is sent. *)
Definition report_exact (k : nat) (r : ExecReportSpec) : Prop :=
  es_cum_qty r = legs_total (take k legs) ∧
  match (k, legs !! (k - 1)%nat) with
  | (O, _) => es_exec_type r = accept_exec_type ∧ es_leaves_qty r = quantity
  | (_, Some leg) =>
      es_exec_type r = EtTrade ∧ es_exec_id r = xr_execution_id leg ∧
      es_last_qty r = Some (xr_quantity leg) ∧ es_last_px r = Some (xr_price_cents leg) ∧
      es_leaves_qty r = quantity - es_cum_qty r ∧
      es_ord_status r = if decide (es_leaves_qty r = 0) then StFilled else StPartiallyFilled
  | (_, None) =>
      es_exec_type r = EtCanceled ∧ es_leaves_qty r = 0 ∧ total < quantity ∧
      fix_tif_rests tif = false
  end.

(** The execution reports of a placement tell its history: first the acceptance of the whole
    quantity, then one trade report per fill with the running quantity filled and the rest
    still open, marked filled exactly when nothing is left, and, exactly when an order that
    may not rest is left unfilled, a final cancellation; all under distinct execution ids. *)
Theorem placement_reports_exact :
  NoDup (es_exec_id <$> reports) ∧
  length reports = (1 + length legs + if closed_short then 1 else 0)%nat ∧
  (∀ k r, reports !! k = Some r →
     es_order_id r = order_id ∧ es_secondary_exec_id r = sequence ∧ report_exact k r).
Proof.
  split; [apply report_ids_distinct|]. rewrite reports_shape. split.
  { cbn. rewrite length_app, length_imap. by destruct closed_short. }
  intros [|k] r.
  - intros [= <-]. repeat split.
  - rewrite lookup_cons_ne_0, lookup_app, list_lookup_imap, length_imap by done.
    unfold report_exact. cbn [Nat.pred].
    replace (S k - 1)%nat with k by lia.
    destruct (legs !! k) as [leg|] eqn:E; cbn [fmap option_fmap option_map].
    + intros [= <-]. pose proof (legs_total_take legs (S k) Hpositive) as Ht.
      cbn -[take]. rewrite sub_or_zero_exact by (done || lia). split_and!; try done.
      destruct (Z.leb_spec quantity (legs_total (take (S k) legs))), (decide _); done || lia.
    + apply lookup_ge_None in E.
      destruct closed_short eqn:Ec; [|by rewrite lookup_nil].
      apply andb_true_iff in Ec as [?%Z.ltb_lt Hr%negb_true_iff].
      intros Hk. apply list_lookup_singleton_Some in Hk as [_ <-].
      cbn -[take]. rewrite take_ge by lia. split_and!; done.
Qed.
End stream.
