(* ===== verification/FixGateway.v ===== *)
(** The FIX session over the venue ([src/src/gateway/fix/fsm.rs], [VenueFixSession]): logon
    against the registry, the routing of application messages to the venue, the tracking of
    the orders placed in the session, and its market-data subscriptions.

    A handler is a program over the venue ([Gateway]) that carries the session and the
    session store; the store is touched only under the session's own key, which the session
    holds exclusively. *)

From S2P Require Export OrderFlow FixSession.

Definition MAX_TRACKED_ORDERS_PER_SESSION : Z := 100_000.
Definition MAX_MD_SYMBOLS_PER_SESSION : Z := 256.
Definition MAX_MD_FRAMES_PER_CYCLE : Z := 512.
Definition MD_REJ_REASON_DUPLICATE : Z := 1.
Definition MD_REJ_REASON_INSUFFICIENT_BANDWIDTH : Z := 2.
Definition MD_REJ_REASON_UNSUPPORTED_ENTRY_TYPE : Z := 8.

(** ** The session's data *)

Record OrderFingerprint := {
  of_symbol : Symbol; of_side : OrderSide; of_ord_type : OrdType; of_price : option Cents;
  of_order_qty : Z; of_time_in_force : FixTif; of_expire_time : option UtcTimestamp }.
#[export] Instance OrderFingerprint_eq_dec : EqDecision OrderFingerprint.
Proof. solve_decision. Defined.

Definition of_new_order (order : NewOrderSingle) : OrderFingerprint :=
  {| of_symbol := no_symbol order; of_side := no_side order; of_ord_type := no_ord_type order;
     of_price := no_price order; of_order_qty := no_order_qty order;
     of_time_in_force := no_time_in_force order; of_expire_time := no_expire_time order |}.
Definition of_replace (replace : OrderCancelReplaceRequest) : OrderFingerprint :=
  {| of_symbol := og_symbol replace; of_side := og_side replace;
     of_ord_type := og_ord_type replace; of_price := og_price replace;
     of_order_qty := og_order_qty replace; of_time_in_force := TifGtc; of_expire_time := None |}.

Record PlacedOrder := {
  po_order_id : VenueOrderId; po_symbol : Symbol; po_side : OrderSide; po_quantity : Z;
  po_fingerprint : OrderFingerprint }.
Record ResolvedOrder := {
  rso_order_id : VenueOrderId; rso_symbol : Symbol; rso_side : OrderSide; rso_quantity : Z }.

Definition resolved (p : PlacedOrder) : ResolvedOrder :=
  {| rso_order_id := po_order_id p; rso_symbol := po_symbol p; rso_side := po_side p;
     rso_quantity := po_quantity p |}.
Definition from_index (r : ClOrdIdRecord) : ResolvedOrder :=
  {| rso_order_id := cr_order_id r; rso_symbol := cr_symbol r;
     rso_side := match cr_side r with Buy => OsBuy | Sell => OsSell end;
     rso_quantity := cr_quantity r |}.

Record MdSymbolSub := {
  ms_md_req_id : string; ms_sides : RequestedSides; ms_depth : option Z; ms_baseline : Z }.
Definition with_baseline (n : Z) (m : MdSymbolSub) : MdSymbolSub :=
  {| ms_md_req_id := ms_md_req_id m; ms_sides := ms_sides m; ms_depth := ms_depth m;
     ms_baseline := n |}.

Record VenueFixSession := {
  vf_peer : IpAddr;
  vf_fsm : SessionFsm;
  vf_lease : option SessionKey;
  vf_placed : gmap ClientOrderId PlacedOrder;
  (** The subscribed symbols; the receiver is the session's own. *)
  vf_market_data : option (gmap Symbol MdSymbolSub);
}.

Definition with_fsm (f : SessionFsm) (v : VenueFixSession) : VenueFixSession :=
  {| vf_peer := vf_peer v; vf_fsm := f; vf_lease := vf_lease v; vf_placed := vf_placed v;
     vf_market_data := vf_market_data v |}.
Definition with_lease (l : SessionKey) (v : VenueFixSession) : VenueFixSession :=
  {| vf_peer := vf_peer v; vf_fsm := vf_fsm v; vf_lease := Some l; vf_placed := vf_placed v;
     vf_market_data := vf_market_data v |}.
Definition with_placed (m : gmap ClientOrderId PlacedOrder) (v : VenueFixSession) :
    VenueFixSession :=
  {| vf_peer := vf_peer v; vf_fsm := vf_fsm v; vf_lease := vf_lease v; vf_placed := m;
     vf_market_data := vf_market_data v |}.
Definition with_market_data (m : option (gmap Symbol MdSymbolSub)) (v : VenueFixSession) :
    VenueFixSession :=
  {| vf_peer := vf_peer v; vf_fsm := vf_fsm v; vf_lease := vf_lease v; vf_placed := vf_placed v;
     vf_market_data := m |}.

(** ** Handlers *)

Definition FM (S A : Type) : Type :=
  VenueFixSession * S → Prog (result SessionError A * (VenueFixSession * S)).

#[export] Instance FM_ret {S} : MRet (FM S) := λ A a w, Done (Ok a, w).
#[export] Instance FM_bind {S} : MBind (FM S) := λ A B k m w,
  prog_bind (m w) (λ o, match o with
                        | (Ok a, w) => k a w
                        | (Err e, w) => Done (Err e, w)
                        end).

Section handlers.
Context {S : Type}.

Definition fm_get : FM S VenueFixSession := λ w, Done (Ok w.1, w).
Definition fm_modify (f : VenueFixSession → VenueFixSession) : FM S unit :=
  λ w, Done (Ok tt, (f w.1, w.2)).
Definition fm_lift {A} (r : result SessionError A) : FM S A := λ w, Done (r, w).
(** A call into the venue, a program of calls, a handler with its error as a value, a step of
    the protocol machine. *)
Definition fm_call {X} (c : GatewayCall X) : FM S X := λ w, Invoke c (λ x, Done (Ok x, w)).
Definition fm_prog {A} (p : Prog A) : FM S A := λ w, prog_bind p (λ a, Done (Ok a, w)).
Definition fm_result {A} (m : FM S A) : FM S (result SessionError A) := λ w,
  prog_bind (m w) (λ o, Done (Ok o.1, o.2)).
Definition fm_fsm {A} (m : SM S A) : FM S A := λ w,
  let '(r, (f, s)) := m (vf_fsm w.1, w.2) in Done (r, (with_fsm f w.1, s)).
End handlers.

Section session.
Context `{Upstream} `{FixLib} {S : Type} `{FixSessionStore S}.
Notation M := (FM S).

Definition underlying_of_symbol (symbol : Symbol) : string :=
  match parse_symbol symbol with Ok parsed => ps_underlying parsed | Err _ => EmptyString end.

(** ** Reports through the protocol machine *)

Fixpoint emit_specs (specs : list ExecReportSpec) (now_ms : Z) : SM S (list string) :=
  match specs with
  | [] => mret []
  | spec :: specs =>
      frame ← emit now_ms (λ header, ExecutionReport_encode (into_report spec header));
      frames ← emit_specs specs now_ms;
      mret (frame :: frames)
  end.

Definition emit_report_specs (specs : list ExecReportSpec) (now_ms : Z) : SM S Reaction :=
  frames ← emit_specs specs now_ms; mret (reaction_emit frames).

Definition emit_order_rejected (symbol : Symbol) (side : OrderSide) (price : option Cents)
    (reject : FixReject) (now_ms : Z) : SM S Reaction :=
  emit_order_rejected_code symbol side price (ord_rej_reason (fr_reason reject)) (fr_text reject)
    now_ms.

Definition emit_cancel_reject_error (order_id : VenueOrderId) (orig cl : ClientOrderId)
    (response_to : CxlRejResponseTo) (ord_status : OrdStatus) (reject : FixReject) (now_ms : Z) :
    SM S Reaction :=
  emit_one now_ms (λ header, OrderCancelReject_encode
    {| ocr_header := header; ocr_order_id := order_id; ocr_cl_ord_id := cl;
       ocr_orig_cl_ord_id := orig; ocr_ord_status := ord_status;
       ocr_cxl_rej_response_to := response_to;
       ocr_cxl_rej_reason := cxl_rej_reason (fr_reason reject); ocr_text := fr_text reject |}).

Definition emit_mass_cancel_accepted (response : MassCancelResponse)
    (affected_orders : list VenueOrderId) (specs : list ExecReportSpec) (now_ms : Z) :
    SM S Reaction :=
  total ← sm_lift (ok_or SequenceExhausted (narrow u32 (Z.of_nat (length affected_orders))));
  report ← emit now_ms (λ header, OrderMassCancelReport_encode
    {| mc_header := header; mc_mass_cancel_response := response;
       mc_total_affected_orders := total; mc_affected_orders := affected_orders |});
  frames ← emit_specs specs now_ms;
  mret (reaction_emit (report :: frames)).
(** ** Session context *)

Definition session_account : M (option AccountId) := v ← fm_get; mret (sf_account (vf_fsm v)).

(** Runs [k] for the account of a logged-on session. *)
Definition with_account (k : AccountId → M Reaction) : M Reaction :=
  account ← session_account;
  match account with None => mret reaction_cont | Some account => k account end.

Definition rate_limited : M bool :=
  v ← fm_get;
  let fsm := vf_fsm v in
  match sf_account fsm with
  | None => mret true
  | Some account =>
      allowed ← fm_call (CallAllowed (KeyAccount account (sf_session_epoch fsm)
                                        (from_permissions (sf_permissions fsm))));
      mret (negb allowed)
  end.

Definition session_revoked : M bool :=
  v ← fm_get;
  match sf_account (vf_fsm v) with
  | None => mret false
  | Some account =>
      current ← fm_call (CallRevocationEpoch account);
      mret (match current with
            | Some current => sf_session_epoch (vf_fsm v) <? current
            | None => true
            end)
  end.

Definition track_placed (cl_ord_id : ClientOrderId) (placed : PlacedOrder) : M unit :=
  fm_modify (λ v,
    if (MAX_TRACKED_ORDERS_PER_SESSION <=? Z.of_nat (size (vf_placed v)))
       && negb (bool_decide (is_Some (vf_placed v !! cl_ord_id)))
    then v
    else with_placed (<[cl_ord_id := placed]> (vf_placed v)) v).

Definition forget_placed (cl_ord_id : ClientOrderId) : M unit :=
  fm_modify (λ v, with_placed (delete cl_ord_id (vf_placed v)) v).

Definition resolve_order (account : AccountId) (cl_ord_id : ClientOrderId) :
    M (option ResolvedOrder) :=
  v ← fm_get;
  match vf_placed v !! cl_ord_id with
  | Some placed => mret (Some (resolved placed))
  | None => record ← fm_call (CallResolve account cl_ord_id); mret (from_index <$> record)
  end.

Definition ingress_stamp (message : DecodedMessage) : M IngressStamp :=
  v ← fm_get;
  mret {| is_session_id := default "fix" (sf_client_comp (vf_fsm v));
          is_msg_seq := msg_seq_num (header_of message) |}.

Definition render_tracked_status (order : ResolvedOrder) (now_ms : Z) : M Reaction :=
  with_account (λ account,
    legs ← fm_prog (taker_legs_for_order account (rso_order_id order));
    let cum := foldl (λ acc leg, add_or_keep acc (xr_quantity leg)) 0 legs in
    lineage ← fm_call CallLineage;
    let spec := render_status_report (rso_symbol order) (rso_side order) (rso_order_id order)
                  (rso_quantity order) cum now_ms (last legs) lineage
                  (underlying_of_symbol (rso_symbol order)) in
    fm_fsm (emit_report_specs [spec] now_ms)).

(** ** New orders *)

Definition reject_new_order (order : NewOrderSingle) (error : VenueError) (now_ms : Z) :
    M Reaction :=
  fm_fsm (emit_order_rejected (no_symbol order) (no_side order) (no_price order)
            (fix_reject error CtxNewOrder) now_ms).

Definition reject_new_order_outcome (order : NewOrderSingle) (reason : string) (now_ms : Z) :
    M Reaction :=
  fm_fsm (emit_order_rejected_code (no_symbol order) (no_side order) (no_price order)
            (ord_rej_reason ReasonInvalid) (Some reason) now_ms).

(** What a new order is checked for before it is submitted: its owner, its underlying, its
    time in force. *)
Definition new_order_tif (order : NewOrderSingle) : result VenueError TimeInForce :=
  match no_ord_type order with
  | OtMarket => Ok Ioc
  | OtLimit => seam_time_in_force (no_time_in_force order) (no_expire_time order)
  end.

Definition report_new_order (order : NewOrderSingle) (account : AccountId)
    (order_id : VenueOrderId) (underlying : string) (tif : TimeInForce) (receipt : Receipt)
    (now_ms : Z) : M Reaction :=
  match receipt_outcome receipt with
  | Some (Rejected _ reason) => reject_new_order_outcome order reason now_ms
  | _ =>
      _ ← track_placed (no_cl_ord_id order)
            {| po_order_id := order_id; po_symbol := no_symbol order; po_side := no_side order;
               po_quantity := no_order_qty order; po_fingerprint := of_new_order order |};
      legs ← fm_prog (immediate_execution_records account order_id (receipt_sequence receipt));
      lineage ← fm_call CallLineage;
      fm_fsm (emit_report_specs
                (render_new_order_reports order order_id (receipt_sequence receipt)
                   (receipt_venue_ts receipt) lineage underlying tif legs) now_ms)
  end.

Definition submit_new_order (order : NewOrderSingle) (account : AccountId) (stamp : IngressStamp)
    (now_ms : Z) : M Reaction :=
  limited ← rate_limited;
  if (limited : bool) then reject_new_order order RateLimited now_ms
  else
    owner ← fm_prog (owner_for account);
    match owner with
    | Err error => reject_new_order order error now_ms
    | Ok owner =>
        match map_err VUpstream (parse_symbol (no_symbol order)), new_order_tif order with
        | Err error, _ | Ok _, Err error => reject_new_order order error now_ms
        | Ok parsed, Ok tif =>
            let underlying := ps_underlying parsed in
            lineage ← fm_call CallLineage;
            order_id ← fm_prog (mint_order_id lineage underlying);
            match to_add_command order order_id account owner with
            | Err error => reject_new_order order error now_ms
            | Ok command =>
                receipt ← fm_call (CallSubmit command stamp);
                match receipt with
                | Err error => reject_new_order order error now_ms
                | Ok receipt =>
                    reaction ← report_new_order order account order_id underlying tif receipt now_ms;
                    _ ← fm_fsm persist_inbound;
                    mret reaction
                end
            end
        end
    end.

Definition route_new_order (order : NewOrderSingle) (stamp : IngressStamp) (now_ms : Z) :
    M Reaction :=
  with_account (λ account,
    v ← fm_get;
    match vf_placed v !! no_cl_ord_id order with
    | Some placed =>
        if bool_decide (po_fingerprint placed = of_new_order order)
        then render_tracked_status (resolved placed) now_ms
        else fm_fsm (emit_order_rejected_code (no_symbol order) (no_side order) (no_price order)
                       ORD_REJ_REASON_DUPLICATE (Some DUPLICATE_CLORDID_TEXT) now_ms)
    | None => submit_new_order order account stamp now_ms
    end).

(** ** Cancels and replaces *)

Definition reject_cancel (order_id : VenueOrderId) (orig cl : ClientOrderId)
    (response_to : CxlRejResponseTo) (error : VenueError) (now_ms : Z) : M Reaction :=
  fm_fsm (emit_cancel_reject_error order_id orig cl response_to StRejected
            (fix_reject error CtxCancelReplace) now_ms).

Definition masked_cancel_error (kind : RejectKind) : VenueError :=
  masked_cancel_reject kind FIX_CANCEL_REJECT_MASKED_REASON.

Definition reject_replace_add (order_id : VenueOrderId) (orig cl : ClientOrderId)
    (reason : string) (now_ms : Z) : M Reaction :=
  fm_fsm (emit_cancel_reject_error order_id orig cl CrOrderCancelReplaceRequest StCanceled
            (fix_reject (VInvalidOrder reason) CtxCancelReplace) now_ms).

Definition route_cancel (cancel : OrderCancelRequest) (stamp : IngressStamp) (now_ms : Z) :
    M Reaction :=
  with_account (λ account,
    let reject order_id error :=
      reject_cancel order_id (oc_orig_cl_ord_id cancel) (oc_cl_ord_id cancel)
        CrOrderCancelRequest error now_ms in
    limited ← rate_limited;
    if (limited : bool) then reject "NONE" RateLimited
    else
      found ← resolve_order account (oc_orig_cl_ord_id cancel);
      match found with
      | None => reject "NONE" (VNotFound FIX_CANCEL_REJECT_MASKED_REASON)
      | Some order =>
          receipt ← fm_call (CallSubmit (to_cancel_command cancel account (rso_order_id order)) stamp);
          match receipt with
          | Err error => reject (rso_order_id order) error
          | Ok receipt =>
              reaction ←
                match receipt_outcome receipt with
                | Some (Rejected kind reason) =>
                    reject (rso_order_id order) (masked_cancel_error kind)
                | _ =>
                    lineage ← fm_call CallLineage;
                    let spec := render_cancel_report (rso_symbol order) (rso_side order)
                                  (rso_order_id order) (receipt_sequence receipt)
                                  (receipt_venue_ts receipt) lineage
                                  (underlying_of_symbol (rso_symbol order)) in
                    _ ← forget_placed (oc_orig_cl_ord_id cancel);
                    fm_fsm (emit_report_specs [spec] now_ms)
                end;
              _ ← fm_fsm persist_inbound;
              mret reaction
          end
      end).

Definition report_replace (replace : OrderCancelReplaceRequest) (account : AccountId)
    (target new_order_id : VenueOrderId) (underlying : string) (receipt : Receipt) (now_ms : Z) :
    M Reaction :=
  match receipt_outcome receipt with
  | Some (Rejected kind reason) =>
      reject_cancel target (og_orig_cl_ord_id replace) (og_cl_ord_id replace)
        CrOrderCancelReplaceRequest (masked_cancel_error kind) now_ms
  | Some (Replaced cancelled (AddRejected _ reason)) =>
      _ ← (if (cancelled : bool) then forget_placed (og_orig_cl_ord_id replace) else mret tt);
      reject_replace_add target (og_orig_cl_ord_id replace) (og_cl_ord_id replace) reason now_ms
  | _ =>
      _ ← forget_placed (og_orig_cl_ord_id replace);
      _ ← track_placed (og_cl_ord_id replace)
            {| po_order_id := new_order_id; po_symbol := og_symbol replace;
               po_side := og_side replace; po_quantity := og_order_qty replace;
               po_fingerprint := of_replace replace |};
      legs ← fm_prog (immediate_execution_records account new_order_id (receipt_sequence receipt));
      lineage ← fm_call CallLineage;
      fm_fsm (emit_report_specs
                (render_replace_reports replace new_order_id (receipt_sequence receipt)
                   (receipt_venue_ts receipt) lineage underlying legs) now_ms)
  end.

Definition route_replace (replace : OrderCancelReplaceRequest) (stamp : IngressStamp)
    (now_ms : Z) : M Reaction :=
  with_account (λ account,
    let reject order_id error :=
      reject_cancel order_id (og_orig_cl_ord_id replace) (og_cl_ord_id replace)
        CrOrderCancelReplaceRequest error now_ms in
    limited ← rate_limited;
    if (limited : bool) then reject "NONE" RateLimited
    else
      found ← resolve_order account (og_orig_cl_ord_id replace);
      match found with
      | None => reject "NONE" (VNotFound FIX_CANCEL_REJECT_MASKED_REASON)
      | Some order =>
          let underlying := underlying_of_symbol (og_symbol replace) in
          lineage ← fm_call CallLineage;
          new_order_id ← fm_prog (mint_order_id lineage underlying);
          receipt ← fm_call (CallSubmit
            (to_replace_command replace account (rso_order_id order) new_order_id) stamp);
          match receipt with
          | Err error => reject (rso_order_id order) error
          | Ok receipt =>
              reaction ← report_replace replace account (rso_order_id order) new_order_id
                           underlying receipt now_ms;
              _ ← fm_fsm persist_inbound;
              mret reaction
          end
      end).
(** ** Mass cancels and status *)

(** A swept order leaves the tracked ones; its report carries the running index. *)
Fixpoint mass_cancel_specs (affected : list SweptLeg) (lineage : LineageId) (now_ms : Z)
    (index : Z) : M (list ExecReportSpec) :=
  match affected with
  | [] => mret []
  | swept :: affected =>
      let leg := sl_leg swept in
      v ← fm_get;
      let tracked := list_find (λ e, po_order_id e.2 = leg_order_id leg)
                       (map_to_list (vf_placed v)) in
      _ ← match tracked with Some (_, (c, _)) => forget_placed c | None => mret tt end;
      let spec := render_mass_cancel_leg_report (leg_symbol leg) (fix_side (leg_side leg))
                    (leg_order_id leg) (sl_sequence swept) now_ms lineage
                    (underlying_of_symbol (leg_symbol leg)) index in
      next ← fm_lift (ok_or SequenceExhausted (checked_add u32 index 1));
      specs ← mass_cancel_specs affected lineage now_ms next;
      mret (spec :: specs)
  end.

Definition render_mass_cancel (response : MassCancelResponse) (affected : list SweptLeg)
    (now_ms : Z) : M Reaction :=
  lineage ← fm_call CallLineage;
  let affected_ids := (λ s, leg_order_id (sl_leg s)) <$> affected in
  specs ← mass_cancel_specs affected lineage now_ms 0;
  fm_fsm (emit_mass_cancel_accepted response affected_ids specs now_ms).

Definition mass_cancel_scope (request : OrderMassCancelRequest) :
    option (MassCancelScope * MassCancelResponse) :=
  match oq_mass_cancel_request_type request with
  | MqAll => Some (ScopeUnderlying, MrAll)
  | MqSecurity => symbol ← oq_symbol request; Some (ScopeBook symbol, MrSecurity)
  end.

Definition route_mass_cancel (request : OrderMassCancelRequest) (now_ms : Z) : M Reaction :=
  with_account (λ account,
    let reject := fm_fsm (emit_mass_cancel_rejected now_ms) in
    limited ← rate_limited;
    if (limited : bool) then reject
    else
      owner ← fm_prog (owner_for account);
      match owner, mass_cancel_scope request with
      | Err _, _ | Ok _, None => reject
      | Ok owner, Some (scope, response) =>
          delivery ← fm_call (CallMassCancel (MassCancel scope (ByUser owner) account));
          match delivery with
          | Ok delivery =>
              reaction ← render_mass_cancel response (md_swept delivery) now_ms;
              _ ← fm_fsm persist_inbound;
              mret reaction
          | Err _ => reject
          end
      end).

Definition route_status (status : OrderStatusRequest) (now_ms : Z) : M Reaction :=
  with_account (λ account,
    v ← fm_get;
    found ←
      match oh_order_id status, oh_cl_ord_id status with
      | Some order_id, _ =>
          mret ((λ e, resolved e.2) <$>
                  list_find (λ p, po_order_id p = order_id) (map_to_list (vf_placed v)).*2)
      | None, Some cl_ord_id => resolve_order account cl_ord_id
      | None, None => mret None
      end;
    match found with
    | None =>
        fm_fsm (emit_order_rejected (oh_symbol status) OsBuy None
          (fix_reject (VNotFound "order not found or not readable") CtxNewOrder) now_ms)
    | Some order => render_tracked_status order now_ms
    end).

(** ** Market data *)

Definition md_symbols (v : VenueFixSession) : gmap Symbol MdSymbolSub :=
  default ∅ (vf_market_data v).

Definition md_req_id_active (v : VenueFixSession) (md_req_id : string) : bool :=
  existsb (λ e, String.eqb (ms_md_req_id e.2) md_req_id) (map_to_list (md_symbols v)).

Definition market_depth_to_option (market_depth : Z) : option Z :=
  if market_depth =? 0 then None else Some market_depth.

(** Why a subscription is refused, with its reason code. *)
Definition md_refusal (v : VenueFixSession) (request : MarketDataRequest) : option (Z * string) :=
  let symbols := md_symbols v in
  if requests_trade_tape (mv_entry_types request) then
    Some (MD_REJ_REASON_UNSUPPORTED_ENTRY_TYPE,
          "Trade (269=2) market data is not served over FIX; request only Bid/Offer")
  else if negb (sides_any (from_entry_types (mv_entry_types request))) then
    Some (MD_REJ_REASON_UNSUPPORTED_ENTRY_TYPE, "only Bid/Offer market data is served over FIX")
  else if md_req_id_active v (mv_md_req_id request) then
    Some (MD_REJ_REASON_DUPLICATE, "duplicate MDReqID")
  else if negb (bool_decide (NoDup (mv_symbols request))) then
    Some (MD_REJ_REASON_DUPLICATE, "duplicate symbol within the market-data request")
  else if existsb (λ s, bool_decide (is_Some (symbols !! s))) (mv_symbols request) then
    Some (MD_REJ_REASON_DUPLICATE,
          "symbol already subscribed on this session; unsubscribe (263=2) before re-subscribing")
  else
    let new_symbols := filter (λ s, symbols !! s = None) (mv_symbols request) in
    if MAX_MD_SYMBOLS_PER_SESSION <?
         saturating_add usize (Z.of_nat (size symbols)) (Z.of_nat (length new_symbols)) then
      Some (MD_REJ_REASON_INSUFFICIENT_BANDWIDTH, "market-data subscription limit reached")
    else None.

Fixpoint subscribe_symbols (symbols : list Symbol) (md_req_id : string) (sides : RequestedSides)
    (depth : option Z) (now_ms : Z) : M (list string) :=
  match symbols with
  | [] => mret []
  | symbol :: symbols =>
      snapshot ← fm_call (CallOrderbook symbol depth);
      let projection := snapshot_projection snapshot sides in
      let baseline := default 0 (fst <$> projection) in
      _ ← fm_modify (λ v,
            with_market_data
              ((<[symbol := {| ms_md_req_id := md_req_id; ms_sides := sides; ms_depth := depth;
                               ms_baseline := baseline |}]>) <$> vf_market_data v) v);
      frame ←
        match projection with
        | Some (sequence, entries) =>
            frame ← fm_fsm (emit_md_snapshot md_req_id symbol sequence entries now_ms);
            mret [frame]
        | None => mret []
        end;
      frames ← subscribe_symbols symbols md_req_id sides depth now_ms;
      mret (frame ++ frames)
  end.

Definition subscribe_market_data (request : MarketDataRequest) (now_ms : Z) : M Reaction :=
  v ← fm_get;
  match md_refusal v request with
  | Some (reason, text) =>
      fm_fsm (emit_md_request_reject (mv_md_req_id request) reason (Some text) now_ms)
  | None =>
      _ ← match vf_market_data v with
          | None => _ ← fm_call CallListen; fm_modify (with_market_data (Some ∅))
          | Some _ => mret tt
          end;
      frames ← subscribe_symbols (mv_symbols request) (mv_md_req_id request)
                 (from_entry_types (mv_entry_types request))
                 (market_depth_to_option (mv_market_depth request)) now_ms;
      mret (reaction_emit frames)
  end.

Definition unsubscribe_market_data (request : MarketDataRequest) : M Reaction :=
  _ ← fm_modify (λ v,
        match vf_market_data v with
        | None => v
        | Some symbols =>
            let symbols := foldl (λ m s, delete s m) symbols (mv_symbols request) in
            with_market_data (if bool_decide (symbols = ∅) then None else Some symbols) v
        end);
  mret reaction_cont.

Definition route_market_data (request : MarketDataRequest) (now_ms : Z) : M Reaction :=
  match mv_subscription_request_type request with
  | SrSnapshotPlusUpdates => subscribe_market_data request now_ms
  | SrUnsubscribe => unsubscribe_market_data request
  end.

Definition rebase_symbol (symbol : Symbol) (sequence : Z) (v : VenueFixSession) :
    VenueFixSession :=
  with_market_data (alter (with_baseline sequence) symbol <$> vf_market_data v) v.

Fixpoint resnapshot_loop (subs : list (Symbol * MdSymbolSub)) (now_ms : Z) : M (list string) :=
  match subs with
  | [] => mret []
  | (symbol, sub) :: subs =>
      snapshot ← fm_call (CallOrderbook symbol (ms_depth sub));
      frame ←
        match snapshot_projection snapshot (ms_sides sub) with
        | Some (sequence, entries) =>
            frame ← fm_fsm (emit_md_snapshot (ms_md_req_id sub) symbol sequence entries now_ms);
            _ ← fm_modify (rebase_symbol symbol sequence);
            mret [frame]
        | None => mret []
        end;
      frames ← resnapshot_loop subs now_ms;
      mret (frame ++ frames)
  end.

Definition resnapshot_subscriptions (now_ms : Z) : M (list string) :=
  v ← fm_get; resnapshot_loop (map_to_list (md_symbols v)) now_ms.

(** What was received in one cycle: the messages, and how it ended. *)
Inductive DrainEnd := DrainedAll | DrainLagged | DrainClosed.

Fixpoint receive_pending (budget : nat) : Prog (list WsMessage * DrainEnd) :=
  match budget with
  | O => Done ([], DrainedAll)
  | Datatypes.S budget =>
      await received := call CallReceive in
      match received with
      | ReceivedMessage message =>
          await rest := receive_pending budget in Done (message :: rest.1, rest.2)
      | ReceivedEmpty => Done ([], DrainedAll)
      | ReceivedLagged => Done ([], DrainLagged)
      | ReceivedClosed => Done ([], DrainClosed)
      end
  end.

Definition forward_delta (message : WsMessage) (now_ms : Z) : M (list string) :=
  match message with
  | WsOrderbookDelta symbol sequence changes =>
      v ← fm_get;
      match md_symbols v !! symbol with
      | None => mret []
      | Some sub =>
          if sequence <=? ms_baseline sub then mret []
          else
            _ ← fm_modify (rebase_symbol symbol sequence);
            match incremental_entries symbol changes (ms_sides sub) with
            | [] => mret []
            | entries =>
                frame ← fm_fsm (emit_md_incremental (ms_md_req_id sub) sequence entries now_ms);
                mret [frame]
            end
      end
  | _ => mret []
  end.

Fixpoint forward_deltas (messages : list WsMessage) (now_ms : Z) : M (list string) :=
  match messages with
  | [] => mret []
  | message :: messages =>
      frame ← forward_delta message now_ms;
      frames ← forward_deltas messages now_ms;
      mret (frame ++ frames)
  end.

Definition drain_market_data (now_ms : Z) : M (list string) :=
  v ← fm_get;
  match vf_market_data v with
  | None => mret []
  | Some _ =>
      received ← fm_prog (receive_pending (Z.to_nat MAX_MD_FRAMES_PER_CYCLE));
      match received.2 with
      | DrainClosed => _ ← fm_modify (with_market_data None); mret []
      | DrainLagged => resnapshot_subscriptions now_ms
      | DrainedAll => forward_deltas received.1 now_ms
      end
  end.

Definition append_market_data (result : M Reaction) (now_ms : Z) : M Reaction :=
  reaction ← result;
  v ← fm_get;
  match rx_control reaction, vf_market_data v with
  | Close, _ | _, None => mret reaction
  | Continue, Some _ =>
      md_frames ← drain_market_data now_ms;
      mret {| rx_frames := rx_frames reaction ++ md_frames; rx_control := Continue |}
  end.
(** ** Logon *)

(** The account a verified password gives, its revocation and its counterparty binding, in
    the order they are checked; the text of the refusal. *)
Definition comp_ids_bound (account : Account) (header : StandardHeader) : bool :=
  match cr_fix_comp_ids (acc_credentials account) with
  | Some binding =>
      String.eqb (cb_sender_comp_id binding) (sender_comp_id header)
      && String.eqb (cb_target_comp_id binding) (target_comp_id header)
  | None => false
  end.

Definition logon_account (account : option Account) (header : StandardHeader) :
    result string Account :=
  match account with
  | None => Err "authentication failed"
  | Some account =>
      if 0 <? acc_revocation_epoch account then Err "account revoked"
      else if negb (comp_ids_bound account header) then Err "session binding violation"
      else Ok account
  end.

Definition handle_logon (logon : Logon) (now_ms : Z) : M Reaction :=
  v ← fm_get;
  let refuse text := fm_fsm (logout_close now_ms text) in
  allowed ← fm_call (CallAllowed (KeyPeer (vf_peer v)));
  if negb allowed then refuse "logon rate limited"
  else if (lo_heart_bt_int logon =? 0)
          || (max_heart_bt_int_secs (sf_config (vf_fsm v)) <? lo_heart_bt_int logon)
  then refuse "unacceptable heartbeat interval"
  else
    outcome ← fm_call (CallFixLogin (lo_username logon) (lo_password logon));
    match outcome with
    | Some (Authenticated account_id _) =>
        found ← fm_call (CallAccount account_id);
        match logon_account found (lo_header logon) with
        | Err text => refuse text
        | Ok account =>
            let header := lo_header logon in
            let key := {| sk_account := acc_id account; sk_sender := sender_comp_id header;
                          sk_target := target_comp_id header |} in
            claimed ← fm_call (CallClaimSession key);
            if negb claimed then refuse "session already active"
            else
              admitted ← fm_result (fm_fsm
                (admit_logon (acc_id account) (acc_permissions account)
                   (acc_revocation_epoch account) (lo_heart_bt_int logon)
                   (default false (lo_reset_seq_num_flag logon)) (msg_seq_num header) now_ms));
              match admitted with
              | Ok reaction => _ ← fm_modify (with_lease key); mret reaction
              | Err e => _ ← fm_call (CallReleaseSession key); fm_lift (Err e)
              end
        end
    | Some LoginRejected | None => refuse "authentication failed"
    end.

(** ** The session's entry points *)

Definition route_order (message : DecodedMessage) (now_ms : Z) : M Reaction :=
  stamp ← ingress_stamp message;
  match message with
  | DNewOrderSingle order => route_new_order order stamp now_ms
  | DOrderCancelRequest cancel => route_cancel cancel stamp now_ms
  | DOrderCancelReplaceRequest replace => route_replace replace stamp now_ms
  | DOrderMassCancelRequest request => route_mass_cancel request now_ms
  | DOrderStatusRequest status => route_status status now_ms
  | DMarketDataRequest request => route_market_data request now_ms
  | _ => mret reaction_cont
  end.

Definition react_to_message (message : DecodedMessage) (now_ms : Z) : M Reaction :=
  v ← fm_get;
  match sf_phase (vf_fsm v) with
  | AwaitingLogon =>
      match message with
      | DLogon logon =>
          _ ← fm_fsm (on_inbound (lo_header logon) now_ms);
          handle_logon logon now_ms
      | other =>
          _ ← fm_fsm (on_inbound (header_of other) now_ms);
          fm_fsm (logout_close now_ms "expected Logon")
      end
  | ActivePhase | AwaitingResend =>
      revoked ← session_revoked;
      disposition ← fm_fsm (handle_active message now_ms revoked);
      match disposition with
      | Reacted reaction => mret reaction
      | Route order => route_order order now_ms
      end
  | Closing => mret reaction_close_silent
  end.

(** The frames go to the writer until it is gone; an error closes the session. *)
Fixpoint send_frames (frames : list string) (control : SessionControl) : Prog SessionControl :=
  match frames with
  | [] => Done control
  | frame :: frames =>
      await sent := call (CallSend frame) in
      if (sent : bool) then send_frames frames control else Done Close
  end.

Definition flush (m : M Reaction) (w : VenueFixSession * S) :
    Prog (SessionControl * (VenueFixSession * S)) :=
  await o := m w in
  match o with
  | (Err _, w) => Done (Close, w)
  | (Ok reaction, w) =>
      await control := send_frames (rx_frames reaction) (rx_control reaction) in
      Done (control, w)
  end.

Definition on_message (message : DecodedMessage) (w : VenueFixSession * S) :
    Prog (SessionControl * (VenueFixSession * S)) :=
  await now_ms := call CallNow in
  flush (append_market_data (react_to_message message now_ms) now_ms) w.

Definition on_decode_error (error : FixDecodeError) (w : VenueFixSession * S) :
    Prog (SessionControl * (VenueFixSession * S)) :=
  await now_ms := call CallNow in
  flush
    (v ← fm_get;
     match sf_phase (vf_fsm v) with
     | AwaitingLogon | Closing => mret reaction_close_silent
     | ActivePhase | AwaitingResend => fm_fsm (reject_decode_error error now_ms)
     end) w.

Definition on_session_tick (w : VenueFixSession * S) :
    Prog (SessionControl * (VenueFixSession * S)) :=
  await now_ms := call CallNow in
  flush
    (append_market_data
       (revoked ← session_revoked; fm_fsm (on_tick now_ms revoked)) now_ms) w.

(** The lease of a session ends with it. *)
Definition session_drop (v : VenueFixSession) : Prog unit :=
  match vf_lease v with Some key => call (CallReleaseSession key) | None => Done tt end.

Definition session_new (peer : IpAddr) (config : SessionConfig) : Prog VenueFixSession :=
  await accepted_at_ms := call CallNow in
  Done {| vf_peer := peer; vf_fsm := fsm_new config accepted_at_ms; vf_lease := None;
          vf_placed := ∅; vf_market_data := None |}.
End session.
