(* ===== verification/FixGatewayProps.v ===== *)
(** What a FIX message does to the venue. *)

From S2P Require Export FixGateway FixSessionProps RestProps.

Section props.
Context `{Upstream} `{FixLib} {S : Type} `{FixSessionStore S} `{!FixSessionStoreLaws S}.
Notation M := (FM S).
Notation World := (VenueFixSession * S)%type.

(** ** Handlers that obey *)

Definition fobeys {A} (I : list Answered → Called → Prop)
    (Post : list Answered → A → World → Prop) (h : list Answered) (m : M A) (w : World) : Prop :=
  obeys I (λ h' o, match o with (Ok a, w') => Post h' a w' | (Err _, _) => True end) h (m w).

Lemma fobeys_bind {A B} I (Mid : list Answered → A → World → Prop) Post h (m : M A)
    (k : A → M B) w :
  fobeys I Mid h m w → (∀ h' a w', Mid h' a w' → fobeys I Post h' (k a) w') →
  fobeys I Post h (m ≫= k) w.
Proof.
  intros Hm Hk. unfold fobeys, mbind, FM_bind. eapply obeys_bind; [exact Hm|].
  intros h' [[a|e] w'] Hmid; [by apply Hk|done].
Qed.

Lemma fobeys_mono {A} I (Mid Post : list Answered → A → World → Prop) h (m : M A) w :
  fobeys I Mid h m w → (∀ h' a w', Mid h' a w' → Post h' a w') → fobeys I Post h m w.
Proof. intros Hm Hi. eapply obeys_mono; [exact Hm|]. intros h' [[a|e] w']; [apply Hi|done]. Qed.

Lemma obeys_weaken {R} (I J : list Answered → Called → Prop) (Post : list Answered → R → Prop) h p :
  (∀ h' c, I h' c → J h' c) → obeys I Post h p → obeys J Post h p.
Proof.
  intros Hi. revert h. induction p as [r|X c k IH]; intros h Hp; cbn in *; [done|].
  destruct Hp as [Hc Hk]. split; [by apply Hi|]. intros x. by apply IH.
Qed.
(** ** The message an active session lets through *)

(** The counters may move; who the session is does not. *)
Definition same_session (s s' : SessionFsm) : Prop :=
  sf_account s' = sf_account s ∧ sf_permissions s' = sf_permissions s ∧
  sf_session_epoch s' = sf_session_epoch s ∧ sf_client_comp s' = sf_client_comp s.

Lemma bump_same (w : SessionFsm * S) u w' : bump_target w = (Ok u, w') → same_session w.1 w'.1.
Proof. by intros ->%bump_target_run. Qed.
Lemma end_resend_same (w : SessionFsm * S) r w' : end_resend w = (r, w') → same_session w.1 w'.1.
Proof.
  unfold end_resend, mbind, SM_bind, sm_get. cbn [fst].
  destruct (bool_decide _); by intros [= <- <-].
Qed.
Lemma persist_same (w : SessionFsm * S) r w' : persist_counters w = (r, w') → same_session w.1 w'.1.
Proof.
  unfold persist_counters, mbind, SM_bind, sm_get. cbn [fst].
  destruct (sf_key w.1); [|by intros [= <- <-]]. unfold sm_store.
  destruct (save_counters _ _ _); by intros [= <- <-].
Qed.

Lemma same_session_trans s1 s2 s3 : same_session s1 s2 → same_session s2 s3 → same_session s1 s3.
Proof. unfold same_session. intros (?&?&?&?) (?&?&?&?). split_and!; congruence. Qed.

Lemma gate_same m now (w : SessionFsm * S) m' w' :
  gate_application m now w = (Ok (Route m'), w') → m' = m ∧ same_session w.1 w'.1.
Proof.
  unfold gate_application. unfold mbind at 1, SM_bind at 1, sm_get. cbn [fst].
  destruct (negb (has_permission _ _)).
  { unfold mbind, SM_bind. destruct (permission_reject _ _ w) as [[?|?] w1]; [|done].
    by destruct (consume_inbound w1) as [[?|?] ?]. }
  destruct (names_other_account _ _).
  { unfold mbind, SM_bind. destruct (session_reject _ _ _ w) as [[?|?] w1]; [|done].
    by destruct (consume_inbound w1) as [[?|?] ?]. }
  unfold mbind, SM_bind. destruct (is_order_entry_mutation m).
  - destruct (advance_inbound_in_memory w) as [[u|e] w1] eqn:E; [|done]. intros [= <- <-].
    split; [done|]. unfold advance_inbound_in_memory, mbind, SM_bind in E.
    destruct (bump_target w) as [[u1|e1] w2] eqn:E2; [|done].
    eapply same_session_trans; [by eapply bump_same|by eapply end_resend_same].
  - destruct (consume_inbound w) as [[u|e] w1] eqn:E; [|done]. intros [= <- <-].
    split; [done|]. unfold consume_inbound, advance_inbound, mbind, SM_bind in E.
    destruct (bump_target w) as [[u1|e1] w2] eqn:E2; [|done].
    destruct (persist_counters w2) as [[u2|e2] w3] eqn:E3; [|done].
    eapply same_session_trans; [by eapply bump_same|].
    eapply same_session_trans; [by eapply persist_same|by eapply end_resend_same].
Qed.

Record let_through (m : DecodedMessage) (revoked : bool) (s s' : SessionFsm) : Prop := {
  lt_revoked : revoked = false;
  lt_application : is_application_message m = true;
  lt_permission : has_permission s (required_permission m) = true;
  lt_account : names_other_account s m = false;
  lt_number : msg_seq_num (header_of m) = next_target_seq (sf_counters s);
  lt_same : sf_account s' = sf_account s ∧ sf_permissions s' = sf_permissions s ∧
            sf_session_epoch s' = sf_session_epoch s ∧
            sf_client_comp s' = Some (sender_comp_id (header_of m));
}.

Lemma handle_active_routes m now revoked (w : SessionFsm * S) m' w' :
  handle_active m now revoked w = (Ok (Route m'), w') → m' = m ∧ let_through m revoked w.1 w'.1.
Proof.
  destruct revoked.
  { unfold handle_active, fmap, SM_fmap, mbind, SM_bind. cbn.
    by destruct (logout_close _ _ _) as [[?|?] ?]. }
  destruct (not_reset m) eqn:Hm.
  2: { destruct m; try discriminate. unfold handle_active, fmap, SM_fmap, mbind, SM_bind. cbn.
       by destruct (handle_sequence_reset _ _ _) as [[?|?] ?]. }
  intros E. pose proof (handle_active_step _ _ _ _ _ Hm E) as Hs. unfold ordered_step in Hs.
  destruct (Z.ltb_spec (mem_target w) (msg_seq_num (header_of m)));
    [by destruct Hs as ((? & ?) & _)|].
  destruct (Z.ltb_spec (msg_seq_num (header_of m)) (mem_target w)); [by destruct Hs|].
  destruct (admissible w.1 m) eqn:Ha; [|by destruct Hs as ((? & ?) & _)].
  destruct Hs as [[= ->] _]. split; [done|]. unfold admissible in Ha.
  apply andb_true_iff in Ha as [Ha Hn%negb_true_iff]. apply andb_true_iff in Ha as [Ha Hp].
  assert (sf_account w'.1 = sf_account w.1 ∧ sf_permissions w'.1 = sf_permissions w.1 ∧
    sf_session_epoch w'.1 = sf_session_epoch w.1 ∧
    sf_client_comp w'.1 = Some (sender_comp_id (header_of m))) as Hsame.
  { revert E. unfold handle_active. unfold mbind at 1, SM_bind at 1, on_inbound at 1, sm_modify at 1.
    cbn [fst snd]. set (w0 := (set_peer _ _ _ w.1, w.2)).
    assert (∀ d w', (s ← sm_get;
       let expected := next_target_seq (sf_counters s) in
       if expected <? msg_seq_num (header_of m) then
         _ ← sm_modify (set_phase AwaitingResend);
         frame ← emit_resend_request now expected;
         mret (Reacted (reaction_emit [frame]))
       else if msg_seq_num (header_of m) <? expected then mret (Reacted reaction_cont)
       else if is_application_message m then gate_application m now
       else
         reaction ← dispatch_active_body m now;
         _ ← consume_inbound;
         mret (Reacted reaction)) w0 = (Ok (Route d), w') → same_session w0.1 w'.1) as Hrest.
    { intros d w2. unfold mbind at 1, SM_bind at 1, sm_get. cbn [fst]. cbv zeta.
      change (next_target_seq (sf_counters w0.1)) with (mem_target w).
      rewrite (proj2 (Z.ltb_ge (mem_target w) _)) by lia.
      rewrite (proj2 (Z.ltb_ge (msg_seq_num (header_of m)) _)) by lia. rewrite Ha.
      by intros [_ Hg]%gate_same. }
    destruct m; try discriminate Ha; exact (Hrest _ _). }
  split; try done. unfold mem_target in *. lia.
Qed.
(** ** Handlers without effect on the venue *)

Definition public (c : Called) : Prop :=
  match c with
  | Asked CallNow | Asked CallLineage | Asked (CallOrderbook _ _) | Asked CallListen
  | Asked CallReceive | Asked (CallSend _) => True
  | _ => False
  end.

Definition harmless (a : AccountId) (c : Called) : Prop :=
  match c with
  | Asked (CallExecutions id _) => id = a
  | c => public c
  end.

(** Calls that allow the public ones, and those that allow an account's own executions. *)
Class Public (I : Called → Prop) := public_allowed c : public c → I c.
Class OwnExecutions (a : AccountId) (I : Called → Prop) :=
  own_executions f : I (Asked (CallExecutions a f)).
#[export] Instance public_public : Public public.
Proof. by intros c. Qed.
#[export] Instance harmless_public a : Public (harmless a).
Proof. by intros [? []]. Qed.
#[export] Instance harmless_own a : OwnExecutions a (harmless a).
Proof. by intros f. Qed.

Section quiet.
Context (I : Called → Prop) `{!Public I} (a : AccountId) `{!OwnExecutions a I}.
Definition quiet {A} (m : M A) : Prop :=
  ∀ h w, fobeys (λ _, I) (λ _ _ _, True) h m w.

Lemma quiet_ret {A} (x : A) : quiet (mret x).
Proof. done. Qed.
Lemma quiet_bind {A B} (m : M A) (k : A → M B) : quiet m → (∀ x, quiet (k x)) → quiet (m ≫= k).
Proof. intros Hm Hk h w. eapply fobeys_bind; [apply Hm|]. intros. apply Hk. Qed.
Lemma quiet_get : quiet fm_get.
Proof. done. Qed.
Lemma quiet_modify f : quiet (fm_modify f).
Proof. done. Qed.
Lemma quiet_lift {A} (r : result SessionError A) : quiet (fm_lift r).
Proof. intros h w. cbn. by destruct r. Qed.
Lemma quiet_fsm {A} (m : SM S A) : quiet (fm_fsm m).
Proof. intros h w. unfold fobeys, fm_fsm. by destruct (m _) as [[x|e] [f s]]. Qed.
Lemma quiet_call {X} (c : GatewayCall X) : I (Asked c) → quiet (fm_call c).
Proof. by split. Qed.
Lemma quiet_prog {A} (p : Prog A) :
  (∀ h, obeys (λ _, I) any_result h p) → quiet (fm_prog p).
Proof. intros Hp h w. unfold fobeys, fm_prog. by eapply obeys_bind. Qed.

Lemma quiet_legs order_id : quiet (fm_prog (taker_legs_for_order a order_id)).
Proof. apply quiet_prog. intros h. cbn. split; [apply own_executions|]. by intros [?|?]. Qed.
Lemma quiet_records order_id n : quiet (fm_prog (immediate_execution_records a order_id n)).
Proof. apply quiet_prog. intros h. cbn. split; [apply own_executions|]. by intros [?|?]. Qed.

Ltac quieten :=
  repeat first
    [ apply quiet_ret | apply quiet_get | apply quiet_modify | apply quiet_lift
    | apply quiet_fsm | apply quiet_legs | apply quiet_records | (apply quiet_call, public_allowed; exact Logic.I)
    | (apply quiet_bind; [|intros ?])
    | match goal with
      | |- quiet (match ?x with _ => _ end) => destruct x
      | |- quiet (let _ := _ in _) => cbv zeta
      end
    | assumption ].

Lemma quiet_report_new_order order order_id u tif receipt now :
  quiet (report_new_order order a order_id u tif receipt now).
Proof. unfold report_new_order, track_placed, reject_new_order_outcome. quieten. Qed.

Lemma quiet_report_replace replace target new_id u receipt now :
  quiet (report_replace replace a target new_id u receipt now).
Proof.
  unfold report_replace, track_placed, forget_placed, reject_cancel, reject_replace_add. quieten.
Qed.

Lemma quiet_mass_cancel_specs affected lineage now index :
  quiet (mass_cancel_specs affected lineage now index).
Proof.
  revert index. induction affected as [|swept affected IH]; intros index; cbn [mass_cancel_specs];
    unfold forget_placed; quieten; apply IH.
Qed.

Lemma quiet_render_mass_cancel response affected now :
  quiet (render_mass_cancel response affected now).
Proof. unfold render_mass_cancel. quieten. apply quiet_mass_cancel_specs. Qed.

Lemma quiet_resnapshot now : quiet (resnapshot_subscriptions now).
Proof.
  unfold resnapshot_subscriptions. apply quiet_bind; [apply quiet_get|]. intros v.
  generalize (map_to_list (md_symbols v)). intros subs.
  induction subs as [|[symbol sub] subs IH]; cbn [resnapshot_loop]; quieten.
Qed.

Lemma quiet_forward messages now : quiet (forward_deltas messages now).
Proof.
  induction messages as [|message messages IH]; cbn [forward_deltas]; unfold forward_delta; quieten.
Qed.

Lemma quiet_receive n : quiet (fm_prog (receive_pending n)).
Proof.
  apply quiet_prog. induction n as [|n IH]; intros h; [done|]. cbn [receive_pending].
  cbn. split; [by apply public_allowed|]. intros [message| | |]; [|done..]. eapply obeys_bind; [apply IH|]. done.
Qed.

Lemma quiet_drain now : quiet (drain_market_data now).
Proof.
  unfold drain_market_data. apply quiet_bind; [apply quiet_get|]. intros v.
  destruct (vf_market_data v); [|apply quiet_ret].
  apply quiet_bind; [apply quiet_receive|]. intros [messages []].
  - apply quiet_forward.
  - apply quiet_resnapshot.
  - quieten.
Qed.

Lemma quiet_subscribe request now : quiet (subscribe_market_data request now).
Proof.
  unfold subscribe_market_data. quieten.
  generalize (from_entry_types (mv_entry_types request)); intros sides.
  generalize (market_depth_to_option (mv_market_depth request)); intros depth.
  induction (mv_symbols request) as [|symbol symbols IH]; cbn [subscribe_symbols]; quieten.
Qed.

Lemma quiet_market_data request now : quiet (route_market_data request now).
Proof.
  unfold route_market_data, unsubscribe_market_data.
  destruct (mv_subscription_request_type request); [apply quiet_subscribe|]. quieten.
Qed.

Lemma quiet_flush_frames frames control h :
  obeys (λ _, I) any_result h (send_frames frames control).
Proof.
  revert h. induction frames as [|frame frames IH]; intros h; [done|].
  cbn. split; [by apply public_allowed|]. intros []; [apply IH|done].
Qed.

Lemma quiet_status_of order now h w :
  sf_account (vf_fsm w.1) = Some a →
  fobeys (λ _, I) (λ _ _ _, True) h (render_tracked_status order now) w.
Proof.
  intros Ha. unfold render_tracked_status, with_account, session_account.
  unfold fobeys, mbind, FM_bind, fm_get. cbn [prog_bind fst mret FM_ret]. unfold mret, FM_ret.
  cbn [prog_bind]. rewrite Ha.
  apply (quiet_bind (fm_prog (taker_legs_for_order a (rso_order_id order)))); [apply quiet_legs|].
  intros legs. quieten.
Qed.
End quiet.
End props.
