(* ===== verification/FixEffects.v ===== *)
(** A FIX message makes at most one command, the one it asks for, on behalf of the session;
    who a FIX connection may log on as, and what becomes of the claim on its session. *)

From S2P Require Export FixGatewayProps.

(** The commands submitted so far, mass cancels included. *)
Definition is_effect (a : Answered) : bool :=
  match a with @Ans _ c _ => match c with CallSubmit _ _ | CallMassCancel _ => true | _ => false end end.
Definition no_effect (h : list Answered) : Prop := Forall (λ a, is_effect a = false) h.

Section effects.
Context `{Upstream} `{FixLib} {S : Type} `{FixSessionStore S} `{!FixSessionStoreLaws S}.
Notation M := (FM S).
Notation World := (VenueFixSession * S)%type.

(** The order a client order id of the session names. *)
Definition known_target (v : VenueFixSession) (a : AccountId) (orig : ClientOrderId)
    (h : list Answered) (target : VenueOrderId) : Prop :=
  match vf_placed v !! orig with
  | Some placed => po_order_id placed = target
  | None => ∃ r, Ans (CallResolve a orig) (Some r) ∈ h ∧ cr_order_id r = target
  end.

(** The command a message asks for. *)
Definition asked_command (v : VenueFixSession) (a : AccountId) (h : list Answered)
    (m : DecodedMessage) (c : VenueCommand) : Prop :=
  match m with
  | DNewOrderSingle order =>
      vf_placed v !! no_cl_ord_id order = None ∧
      ∃ order_id owner, registered_owner h a owner ∧ minted h order_id ∧
        to_add_command order order_id a owner = Ok c
  | DOrderCancelRequest cancel =>
      ∃ target, known_target v a (oc_orig_cl_ord_id cancel) h target ∧
        c = to_cancel_command cancel a target
  | DOrderCancelReplaceRequest replace =>
      ∃ target order_id, known_target v a (og_orig_cl_ord_id replace) h target ∧
        minted h order_id ∧ c = to_replace_command replace a target order_id
  | DOrderMassCancelRequest request =>
      ∃ scope response owner, mass_cancel_scope request = Some (scope, response) ∧
        registered_owner h a owner ∧ c = MassCancel scope (ByUser owner) a
  | _ => False
  end.

(** The session may have the message acted upon. *)
Definition entitled (v : VenueFixSession) (a : AccountId) (h : list Answered)
    (m : DecodedMessage) : Prop :=
  let s := vf_fsm v in
  has_permission s (Some PermTrade) = true ∧ names_other_account s m = false ∧
  msg_seq_num (header_of m) = next_target_seq (sf_counters s) ∧
  (∃ epoch, Ans (CallRevocationEpoch a) (Some epoch) ∈ h ∧ epoch ≤ sf_session_epoch s) ∧
  Ans (CallAllowed (KeyAccount a (sf_session_epoch s) (from_permissions (sf_permissions s)))) true
    ∈ h.

Definition fix_call_allowed (v : VenueFixSession) (a : AccountId) (m : DecodedMessage)
    (h : list Answered) (c : Called) : Prop :=
  match c with
  | Asked (CallSubmit command stamp) =>
      entitled v a h m ∧ asked_command v a h m command ∧ no_effect h ∧
      stamp = {| is_session_id := sender_comp_id (header_of m);
                 is_msg_seq := msg_seq_num (header_of m) |}
  | Asked (CallMassCancel command) =>
      entitled v a h m ∧ asked_command v a h m command ∧ no_effect h
  | Asked (CallAccount id) | Asked (CallResolve id _) | Asked (CallExecutions id _)
  | Asked (CallRevocationEpoch id) => id = a
  | Asked (CallAllowed key) =>
      key = KeyAccount a (sf_session_epoch (vf_fsm v)) (from_permissions (sf_permissions (vf_fsm v)))
  | Asked (CallFixLogin _ _) | Asked (CallClaimSession _) | Asked (CallReleaseSession _)
  | Asked (CallIngressStamp _) => False
  | _ => True
  end.

Section message.
Context (v0 : VenueFixSession) (a : AccountId) (m : DecodedMessage).
Notation allowed := (fix_call_allowed v0 a m).
Notation fany := (λ _ _ _, True).
Notation quiet := (quiet (harmless a)).

Lemma harmless_allowed h c : harmless a c → allowed h c.
Proof. by destruct c as [? []]. Qed.

Lemma quiet_allowed {A} (k : M A) h w : quiet k → fobeys allowed fany h k w.
Proof. intros Hq. eapply obeys_weaken; [|apply (Hq h w)]. intros h' c. apply harmless_allowed. Qed.

(** The session as the gate left it. *)
Definition through (w : World) : Prop :=
  sf_account (vf_fsm w.1) = Some a ∧
  sf_permissions (vf_fsm w.1) = sf_permissions (vf_fsm v0) ∧
  sf_session_epoch (vf_fsm w.1) = sf_session_epoch (vf_fsm v0) ∧
  sf_client_comp (vf_fsm w.1) = Some (sender_comp_id (header_of m)) ∧
  vf_placed w.1 = vf_placed v0.

(** What the gate checked, and what was answered to it. *)
Definition gated (h : list Answered) : Prop :=
  has_permission (vf_fsm v0) (required_permission m) = true ∧
  names_other_account (vf_fsm v0) m = false ∧
  msg_seq_num (header_of m) = next_target_seq (sf_counters (vf_fsm v0)) ∧
  (∃ epoch, Ans (CallRevocationEpoch a) (Some epoch) ∈ h ∧
     epoch ≤ sf_session_epoch (vf_fsm v0)) ∧ no_effect h.

Lemma no_effect_snoc h x : no_effect h → is_effect x = false → no_effect (h ++ [x]).
Proof. intros. apply Forall_app. split; [done|]. by constructor. Qed.

Lemma gated_snoc h x : gated h → is_effect x = false → gated (h ++ [x]).
Proof.
  intros (Hp & Hn & Hs & (e & He & Hle) & Hh) Hx. split_and!; try done; [|by apply no_effect_snoc].
  exists e. split; [apply elem_of_app; by left|done].
Qed.

Lemma entitled_of h :
  gated h → required_permission m = Some PermTrade →
  Ans (CallAllowed (KeyAccount a (sf_session_epoch (vf_fsm v0))
         (from_permissions (sf_permissions (vf_fsm v0))))) true ∈ h → entitled v0 a h m.
Proof. intros (Hp & Hn & Hs & He & _) Hreq Hal. rewrite Hreq in Hp. done. Qed.

Lemma with_account_runs h (k : AccountId → M Reaction) w I Post :
  through w → fobeys I Post h (k a) w → fobeys I Post h (with_account k) w.
Proof.
  intros (Ha & _) Hk. unfold with_account, session_account, fobeys, mbind, FM_bind, fm_get, mret, FM_ret.
  cbn [prog_bind fst]. by rewrite Ha.
Qed.

(** The limiter answers; what follows knows that it allowed the message. *)
Lemma rate_limited_runs {B} h (k : bool → M B) w :
  through w →
  (∀ h' b, b = false →
     h' = h ++ [Ans (CallAllowed (KeyAccount a (sf_session_epoch (vf_fsm v0))
                                   (from_permissions (sf_permissions (vf_fsm v0))))) true] →
     fobeys allowed fany h' (k b) w) →
  quiet (k true) → fobeys allowed fany h (rate_limited ≫= k) w.
Proof.
  intros (Ha & Hperm & He & _) Hk Hq.
  unfold rate_limited, fobeys, mbind, FM_bind, fm_get, fm_call, mret, FM_ret.
  cbn [prog_bind fst]. rewrite Ha, Hperm, He. cbn [prog_bind obeys]. split; [done|].
  intros []; cbn [negb prog_bind]; [by apply Hk|]. by apply (quiet_allowed (k true)).
Qed.

(** ** Histories that grow without an effect *)

Definition extends (h h' : list Answered) : Prop := ∃ u, h' = h ++ u ∧ no_effect u.

Lemma extends_refl h : extends h h.
Proof. exists []. split; [by rewrite app_nil_r|constructor]. Qed.
Lemma extends_snoc h h' x : extends h h' → is_effect x = false → extends h (h' ++ [x]).
Proof.
  intros (u & -> & Hu) Hx. exists (u ++ [x]). rewrite app_assoc. split; [done|].
  by apply no_effect_snoc.
Qed.
Lemma extends_in h h' x : extends h h' → x ∈ h → x ∈ h'.
Proof. intros (u & -> & _) ?. apply elem_of_app. by left. Qed.
Lemma extends_gated h h' : extends h h' → gated h → gated h'.
Proof.
  intros He (Hp & Hn & Hs & (e & Hin & Hle) & Hh). split_and!; try done.
  - exists e. split; [by eapply extends_in|done].
  - destruct He as (u & -> & Hu). by apply Forall_app.
Qed.

Notation allowance :=
  (Ans (CallAllowed (KeyAccount a (sf_session_epoch (vf_fsm v0))
         (from_permissions (sf_permissions (vf_fsm v0))))) true).

Lemma owner_runs h (w : World) :
  fobeys allowed (λ h' r w', extends h h' ∧ w' = w ∧ ∀ o, r = Ok o → registered_owner h' a o)
    h (fm_prog (owner_for a)) w.
Proof.
  cbn. split; [done|]. intros x. split; [by apply extends_snoc, eq_refl; apply extends_refl|].
  split; [done|]. intros o Ho. destruct x as [x|]; [|done]. injection Ho as <-. exists x.
  split; [apply in_snoc|done].
Qed.

Lemma mint_runs {A} h u (w : World) (k : LineageId → VenueOrderId → M A) Post :
  (∀ h' lineage order_id, extends h h' → minted h' order_id →
     fobeys allowed Post h' (k lineage order_id) w) →
  fobeys allowed Post h
    (lineage ← fm_call CallLineage; order_id ← fm_prog (mint_order_id lineage u); k lineage order_id) w.
Proof.
  intros Hk. cbn. split; [done|]. intros lineage. split; [done|]. intros n. apply Hk.
  - apply extends_snoc; [|done]. apply extends_snoc; [|done]. apply extends_refl.
  - exists lineage, u, n. split_and!; [|apply in_snoc|done].
    apply elem_of_app. left. apply in_snoc.
Qed.

Lemma resolve_runs h orig w :
  through w →
  fobeys allowed
    (λ h' found w', extends h h' ∧ w' = w ∧
       ∀ order, found = Some order → known_target v0 a orig h' (rso_order_id order))
    h (resolve_order a orig) w.
Proof.
  intros (_ & _ & _ & _ & Hplaced). unfold resolve_order, known_target, fobeys, mbind, FM_bind, fm_get.
  cbn [prog_bind fst]. rewrite Hplaced. destruct (vf_placed v0 !! orig) as [placed|]; cbn.
  - split; [apply extends_refl|]. split; [done|]. by intros order [= <-].
  - split; [done|]. intros record. split; [apply extends_snoc; [apply extends_refl|done]|].
    split; [done|]. intros order Ho. apply fmap_Some in Ho as (r & -> & ->).
    exists r. split; [apply in_snoc|done].
Qed.

(** The one command, and what follows it. *)
Lemma effect_runs {X A} (c : GatewayCall X) h (k : X → M A) (w : World) :
  allowed h (Asked c) → (∀ x, quiet (k x)) → fobeys allowed fany h (fm_call c ≫= k) w.
Proof.
  intros Hc Hk. unfold fobeys, mbind, FM_bind, fm_call. cbn. split; [exact Hc|].
  intros x. by apply quiet_allowed.
Qed.

(** ** The handlers *)

Notation stamp :=
  {| is_session_id := sender_comp_id (header_of m); is_msg_seq := msg_seq_num (header_of m) |}.
Notation acts r := (∀ h w, through w → gated h → fobeys allowed fany h r w).

Lemma entitled_after h h' :
  gated h → required_permission m = Some PermTrade → extends (h ++ [allowance]) h' →
  entitled v0 a h' m ∧ no_effect h'.
Proof.
  intros Hg Hreq He. assert (extends h h') as He'.
  { destruct He as (u & -> & Hu). exists ([allowance] ++ u). rewrite app_assoc. split; [done|].
    by constructor. }
  pose proof (extends_gated _ _ He' Hg) as Hg'. split.
  - apply (entitled_of h'); [done..|]. apply (extends_in _ _ _ He), in_snoc.
  - by destruct Hg' as (_ & _ & _ & _ & ?).
Qed.

Lemma extends_trans h1 h2 h3 : extends h1 h2 → extends h2 h3 → extends h1 h3.
Proof.
  intros (u & -> & Hu) (u' & -> & Hu'). exists (u ++ u'). rewrite app_assoc. split; [done|].
  by apply Forall_app.
Qed.

Lemma registered_extends h h' id owner :
  extends h h' → registered_owner h id owner → registered_owner h' id owner.
Proof. intros He (x & Hx & Ho). exists x. split; [by eapply extends_in|done]. Qed.
Lemma known_extends h h' orig target :
  extends h h' → known_target v0 a orig h target → known_target v0 a orig h' target.
Proof.
  intros He. unfold known_target. destruct (vf_placed v0 !! orig); [done|].
  intros (r & Hr & Ht). exists r. split; [by eapply extends_in|done].
Qed.

Lemma get_runs {A} h (k : VenueFixSession → M A) (w : World) Post :
  fobeys allowed Post h (k w.1) w → fobeys allowed Post h (fm_get ≫= k) w.
Proof. done. Qed.

Lemma stamp_runs {A} h (k : IngressStamp → M A) (w : World) Post :
  through w → fobeys allowed Post h (k stamp) w → fobeys allowed Post h (ingress_stamp m ≫= k) w.
Proof.
  intros (_ & _ & _ & Hc & _) Hk. unfold fobeys, mbind, FM_bind, ingress_stamp, fm_get, mret, FM_ret.
  unfold mbind, FM_bind. cbn [prog_bind fst]. by rewrite Hc.
Qed.

Lemma rejected_runs {A} (k : SM S A) h w : fobeys allowed fany h (fm_fsm k) w.
Proof. apply quiet_allowed, quiet_fsm. Qed.

Lemma submitted_runs {A} h0 h c (k : result VenueError Receipt → M A) w :
  gated h0 → required_permission m = Some PermTrade → extends (h0 ++ [allowance]) h →
  asked_command v0 a h m c → (∀ x, quiet (k x)) →
  fobeys allowed fany h (fm_call (CallSubmit c stamp) ≫= k) w.
Proof.
  intros Hg Hreq He Hc Hk. destruct (entitled_after _ _ Hg Hreq He).
  by apply effect_runs; [split_and!|].
Qed.

Lemma route_new_order_acts order now :
  m = DNewOrderSingle order → acts (route_new_order order stamp now).
Proof.
  intros Hm h w Hw Hg. apply with_account_runs; [done|].
  apply get_runs.
  destruct (vf_placed w.1 !! no_cl_ord_id order) as [placed|] eqn:Hplaced.
  { destruct (bool_decide _); [|by apply rejected_runs].
    eapply obeys_weaken; [|apply (quiet_status_of (harmless a) a); apply Hw]. intros ??. apply harmless_allowed. }
  apply rate_limited_runs; [done| |apply quiet_fsm]. intros h1 b -> ->.
  eapply fobeys_bind; [apply owner_runs|]. intros h2 [owner|error] w2 (H2 & -> & Ho);
    [|by apply rejected_runs].
  destruct (map_err _ _) as [parsed|error]; [|by apply rejected_runs].
  destruct (new_order_tif order) as [tif|error]; [|by apply rejected_runs].
  apply mint_runs. intros h3 lineage order_id H3 Hmint.
  destruct (to_add_command _ _ _ _) as [c|error] eqn:Hc; [|by apply rejected_runs].
  eapply submitted_runs; [done|by rewrite Hm|by eapply extends_trans| |].
  - rewrite Hm. split; [by destruct Hw as (_ & _ & _ & _ & <-)|]. exists order_id, owner.
    split_and!; try done. eapply registered_extends; [done|]. by apply Ho.
  - intros [receipt|error]; [|apply quiet_fsm].
    apply quiet_bind; [apply quiet_report_new_order; apply _|]. intros reaction.
    apply quiet_bind; [apply quiet_fsm|intros; apply quiet_ret].
Qed.

Lemma quiet_confirmed (r : M Reaction) :
  quiet r → quiet (reaction ← r; _ ← fm_fsm persist_inbound; mret reaction).
Proof.
  intros Hr. apply quiet_bind; [done|]. intros reaction.
  apply quiet_bind; [apply quiet_fsm|intros; apply quiet_ret].
Qed.

Lemma route_cancel_acts cancel now :
  m = DOrderCancelRequest cancel → acts (route_cancel cancel stamp now).
Proof.
  intros Hm h w Hw Hg. apply with_account_runs; [done|]. cbv zeta.
  apply rate_limited_runs; [done| |apply quiet_fsm]. intros h1 b -> ->.
  eapply fobeys_bind; [by apply resolve_runs|]. intros h2 [order|] w2 (H2 & -> & Ho);
    [|by apply rejected_runs].
  eapply submitted_runs; [done|by rewrite Hm|done| |].
  - rewrite Hm. exists (rso_order_id order). split; [by apply Ho|done].
  - intros [receipt|error]; [|apply quiet_fsm]. apply quiet_confirmed.
    destruct (receipt_outcome receipt) as [[]|]; try apply quiet_fsm;
      (apply quiet_bind; [by apply quiet_call|]; intros lineage;
       apply quiet_bind; [apply quiet_modify|]; intros; apply quiet_fsm).
Qed.

Lemma route_replace_acts replace now :
  m = DOrderCancelReplaceRequest replace → acts (route_replace replace stamp now).
Proof.
  intros Hm h w Hw Hg. apply with_account_runs; [done|]. cbv zeta.
  apply rate_limited_runs; [done| |apply quiet_fsm]. intros h1 b -> ->.
  eapply fobeys_bind; [by apply resolve_runs|]. intros h2 [order|] w2 (H2 & -> & Ho);
    [|by apply rejected_runs].
  apply mint_runs. intros h3 lineage order_id H3 Hmint.
  eapply submitted_runs; [done|by rewrite Hm|by eapply extends_trans| |].
  - rewrite Hm. exists (rso_order_id order), order_id. split_and!; try done.
    eapply known_extends; [done|]. by apply Ho.
  - intros [receipt|error]; [|apply quiet_fsm]. apply quiet_confirmed, (quiet_report_replace (harmless a) a).
Qed.

Lemma route_mass_cancel_acts request now :
  m = DOrderMassCancelRequest request → acts (route_mass_cancel request now).
Proof.
  intros Hm h w Hw Hg. apply with_account_runs; [done|]. cbv zeta.
  apply rate_limited_runs; [done| |apply quiet_fsm]. intros h1 b -> ->.
  eapply fobeys_bind; [apply owner_runs|]. intros h2 [owner|error] w2 (H2 & -> & Ho);
    [|by apply rejected_runs].
  destruct (mass_cancel_scope request) as [[scope response]|] eqn:Hs;
    [|by apply rejected_runs].
  destruct (entitled_after _ _ Hg ltac:(by rewrite Hm) H2). apply effect_runs.
  - split_and!; try done. rewrite Hm. exists scope, response, owner. split_and!; try done. by apply Ho.
  - intros [delivery|error]; [|apply quiet_fsm]. apply quiet_confirmed, quiet_render_mass_cancel; apply _.
Qed.

Lemma route_status_acts status now : acts (route_status status now).
Proof.
  intros h w Hw Hg. apply with_account_runs; [done|].
  apply get_runs.
  eapply (fobeys_bind _ (λ h' _ w', w' = w)).
  - destruct (oh_order_id status); [done|]. destruct (oh_cl_ord_id status); [|done].
    eapply fobeys_mono; [by apply resolve_runs|]. by intros ??? (_ & -> & _).
  - intros h' [order|] w' ->; [|by apply rejected_runs].
    eapply obeys_weaken; [|apply (quiet_status_of (harmless a) a); apply Hw]. intros ??. apply harmless_allowed.
Qed.

Lemma route_order_acts now : acts (route_order m now).
Proof.
  intros h w Hw Hg. apply stamp_runs; [done|].
  destruct m eqn:Hm; try done; rewrite <-Hm in *.
  - by apply route_new_order_acts.
  - by apply route_cancel_acts.
  - by apply route_replace_acts.
  - by apply route_mass_cancel_acts.
  - by apply route_status_acts.
  - apply quiet_allowed, quiet_market_data; apply _.
Qed.

(** ** The entry point *)

Lemma revoked_runs {A} h (k : bool → M A) (w : World) Post :
  sf_account (vf_fsm w.1) = Some a →
  (∀ current : option Z,
     fobeys allowed Post (h ++ [Ans (CallRevocationEpoch a) current])
       (k (match current with
           | Some current => sf_session_epoch (vf_fsm w.1) <? current
           | None => true
           end)) w) →
  fobeys allowed Post h (session_revoked ≫= k) w.
Proof.
  intros Ha Hk. unfold fobeys, mbind, FM_bind, session_revoked, fm_get, fm_call.
  unfold mbind, FM_bind, mret, FM_ret. cbn [prog_bind fst]. rewrite Ha. cbn [prog_bind obeys].
  split; [done|]. intros current. apply Hk.
Qed.

Lemma react_acts now :
  sf_account (vf_fsm v0) = Some a → sf_phase (vf_fsm v0) ≠ AwaitingLogon →
  ∀ s, fobeys allowed fany [Ans CallNow now] (react_to_message m now) (v0, s).
Proof.
  intros Ha Hphase s. unfold react_to_message. apply get_runs. cbn [fst].
  assert (fobeys allowed fany [Ans CallNow now]
    (revoked ← session_revoked;
     disposition ← fm_fsm (handle_active m now revoked);
     match disposition with
     | Reacted reaction => mret reaction
     | Route order => route_order order now
     end) (v0, s)) as Hactive.
  { apply revoked_runs; [done|]. intros current. cbn [fst].
    remember (match current with Some c => _ | None => _ end) as revoked eqn:Hrev.
    unfold fobeys, mbind, FM_bind, fm_fsm. cbn [fst snd].
    destruct (handle_active m now revoked (vf_fsm v0, s)) as [[[reaction|m']|e] [f s']] eqn:E;
      [done| |done].
    cbn [prog_bind]. apply handle_active_routes in E as [-> L]. destruct L as [Lr _ Lp Ln Ls (La & Lpe & Le & Lc)].
    apply (route_order_acts now); [split_and!; try done; cbn in *; congruence|].
    split_and!; try done.
    - subst revoked. destruct current as [epoch|]; [|done]. apply Z.ltb_ge in Lr. exists epoch.
      split; [|done]. apply list_elem_of_In. right; by left.
    - by repeat constructor. }
  destruct (sf_phase (vf_fsm v0)); [done|exact Hactive..|done].
Qed.

Lemma flush_acts (r : M Reaction) h w :
  fobeys allowed fany h r w → obeys allowed any_result h (flush r w).
Proof.
  intros Hr. unfold flush. eapply obeys_bind; [exact Hr|]. intros h' [[reaction|e] w'] _; [|done].
  eapply obeys_bind; [|done]. eapply obeys_weaken; [|apply (quiet_flush_frames (harmless a))].
  intros ??. apply harmless_allowed.
Qed.

Lemma append_acts (r : M Reaction) now h w :
  fobeys allowed fany h r w → fobeys allowed fany h (append_market_data r now) w.
Proof.
  intros Hr. eapply fobeys_bind; [exact Hr|]. intros h' reaction w' _. apply quiet_allowed.
  apply quiet_bind; [apply quiet_get|]. intros v.
  destruct (rx_control reaction), (vf_market_data v); try apply quiet_ret.
  apply quiet_bind; [apply quiet_drain; apply _|]. intros. apply quiet_ret.
Qed.
End message.

(** C30. A message to a FIX session that is logged on has at most one effect on the venue: in
    every execution, whatever the venue answers, the session submits one command or one mass
    cancel, the one the message asks for - a new order under its own account, the owner
    registered for it and a fresh order id, or a change of an order the session placed or its
    account's index names - stamped with the message's own number, and only after the venue
    answered that the session is not revoked and its rate allows it, with the trade permission,
    in sequence, and naming no other account; it reads nothing but its own account's data. *)
Theorem fix_message_one_command v s a m t X (c : GatewayCall X) k :
  sf_account (vf_fsm v) = Some a → sf_phase (vf_fsm v) ≠ AwaitingLogon →
  steps (on_message m (v, s)) t (Invoke c k) → fix_call_allowed v a m t (Asked c).
Proof.
  intros Ha Hphase Ht.
  assert (obeys (fix_call_allowed v a m) any_result [] (on_message m (v, s))) as Ho.
  { unfold on_message. cbn [prog_bind call obeys]. split; [done|]. intros now.
    apply flush_acts, append_acts. by apply react_acts. }
  pose proof (obeys_steps _ _ _ _ _ _ Ho Ht) as H3. by destruct H3.
Qed.
End effects.

(** The claims won. *)
Definition is_claim (a : Answered) : bool :=
  match a with
  | @Ans X c x =>
      match c in GatewayCall X return X → bool with
      | CallClaimSession _ => λ won, won
      | _ => λ _, false
      end x
  end.
Definition unclaimed (h : list Answered) : Prop := Forall (λ a, is_claim a = false) h.

Lemma unclaimed_no h key : unclaimed h → Ans (CallClaimSession key) true ∈ h → False.
Proof. intros Hu Hin. by apply (proj1 (Forall_forall _ _) Hu) in Hin. Qed.
Lemma unclaimed_snoc h a : unclaimed h → is_claim a = false → unclaimed (h ++ [a]).
Proof. intros. apply Forall_app. split; [done|]. by constructor. Qed.

Section logon.
Context `{Upstream} `{FixLib} {S : Type} `{FixSessionStore S} `{!FixSessionStoreLaws S}.
Notation M := (FM S).
Notation World := (VenueFixSession * S)%type.

(** What was answered before a session key is claimed: the limiter let the peer try, the
    password of the logon was verified for an account that is not revoked and whose
    counterparty binding is the logon's. *)
Definition logon_verified (v : VenueFixSession) (m : DecodedMessage) (h : list Answered)
    (key : SessionKey) : Prop :=
  ∃ logon id permissions account,
    m = DLogon logon ∧ Ans (CallAllowed (KeyPeer (vf_peer v))) true ∈ h ∧
    Ans (CallFixLogin (lo_username logon) (lo_password logon)) (Some (Authenticated id permissions)) ∈ h ∧
    Ans (CallAccount id) (Some account) ∈ h ∧ acc_revocation_epoch account ≤ 0 ∧
    comp_ids_bound account (lo_header logon) = true ∧ sk_account key = acc_id account ∧
    sk_sender key = sender_comp_id (lo_header logon) ∧
    sk_target key = target_comp_id (lo_header logon).

Definition logon_call (v : VenueFixSession) (m : DecodedMessage) (h : list Answered)
    (c : Called) : Prop :=
  match c with
  | Asked (CallAllowed key) => key = KeyPeer (vf_peer v)
  | Asked (CallFixLogin username password) =>
      ∃ logon, m = DLogon logon ∧ username = lo_username logon ∧ password = lo_password logon ∧
        Ans (CallAllowed (KeyPeer (vf_peer v))) true ∈ h
  | Asked (CallAccount id) =>
      ∃ username password permissions,
        Ans (CallFixLogin username password) (Some (Authenticated id permissions)) ∈ h
  | Asked (CallClaimSession key) => logon_verified v m h key
  | Asked (CallReleaseSession key) => Ans (CallClaimSession key) true ∈ h
  | c => public c
  end.

Definition logged_on (v : VenueFixSession) : Prop :=
  ∃ key, vf_lease v = Some key ∧ sf_account (vf_fsm v) = Some (sk_account key) ∧
    (sf_phase (vf_fsm v) = ActivePhase ∨ sf_phase (vf_fsm v) = AwaitingResend).

(** The claims won, and where they are: with the session, or given back. *)
Definition claims_kept (v : VenueFixSession) (m : DecodedMessage) (h : list Answered)
    (v' : VenueFixSession) : Prop :=
  (∀ key, Ans (CallClaimSession key) true ∈ h →
     vf_lease v' = Some key ∨ Ans (CallReleaseSession key) tt ∈ h) ∧
  (∀ key, vf_lease v' = Some key →
     Ans (CallClaimSession key) true ∈ h ∧ logon_verified v m h key).

(** A connection before its logon. *)
Definition not_logged_on (v : VenueFixSession) : Prop :=
  sf_phase (vf_fsm v) = AwaitingLogon ∧ vf_lease v = None ∧ vf_market_data v = None.

(** ** The protocol machine *)

Lemma logout_close_control now text (w : SessionFsm * S) rx w' :
  logout_close now text w = (Ok rx, w') → rx_control rx = Close.
Proof.
  unfold logout_close, mbind, SM_bind, sm_modify. destruct (FixSession.emit _ _ _) as [[f|e] w1]; [|done].
  by intros [= <- _].
Qed.

Lemma admit_logon_control id perms epoch hb reset seq now p (w : SessionFsm * S) rx w' :
  both_comps w.1 = Some p → admit_logon id perms epoch hb reset seq now w = (Ok rx, w') →
  rx_control rx = Continue →
  sf_account w'.1 = Some id ∧ (sf_phase w'.1 = ActivePhase ∨ sf_phase w'.1 = AwaitingResend).
Proof.
  intros Hp E Hc. destruct (admit_logon_run _ _ _ _ _ _ _ _ _ _ _ Hp E) as [_ Hrun].
  destruct (negb reset && _).
  - destruct Hrun as [[_ ?]|Hrun]; [done|]. apply logout_close_control in Hrun. congruence.
  - destruct Hrun as [[? _]|(w1 & Er & _ & Ha & _ & Hph & _)]; [done|].
    apply logon_replies_inbound in Er as (Sp & Sa & _). rewrite Sp, Sa, Ha, Hph. split; [done|].
    destruct (reveals_gap _ _ _); [by right|by left].
Qed.

(** ** The logon *)

Section one.
Context (v0 : VenueFixSession) (m : DecodedMessage) (H0v : not_logged_on v0).
Notation Post := (λ (h : list Answered) (o : result SessionError Reaction * World),
  claims_kept v0 m h o.2.1 ∧ vf_market_data o.2.1 = None ∧
  ∀ rx, o.1 = Ok rx → rx_control rx = Continue → logged_on o.2.1).

Lemma called {X} I (Q : list Answered → result SessionError Reaction * World → Prop) h
    (c : GatewayCall X) (k : X → M Reaction) (w : World) :
  I h (Asked c) → (∀ x, obeys I Q (h ++ [Ans c x]) (k x w)) → obeys I Q h ((fm_call c ≫= k) w).
Proof. by split. Qed.

Lemma refused I h now text (w : World) :
  unclaimed h → vf_lease w.1 = None → vf_market_data w.1 = None →
  obeys I Post h (fm_fsm (logout_close now text) w).
Proof.
  intros Hu Hl Hm. unfold fm_fsm. destruct (logout_close _ _ _) as [r [f s]] eqn:E. cbn.
  unfold claims_kept. cbn. rewrite Hl. split_and!; try done.
  - intros key Hk. by apply (unclaimed_no _ _ Hu) in Hk.
  - intros rx -> Hc. apply logout_close_control in E. congruence.
Qed.

Lemma handle_logon_obeys logon now (w : World) p h :
  m = DLogon logon → unclaimed h → vf_peer w.1 = vf_peer v0 → vf_lease w.1 = None →
  vf_market_data w.1 = None → both_comps (vf_fsm w.1) = Some p →
  obeys (logon_call v0 m) Post h (handle_logon logon now w).
Proof.
  intros Hm Hu Hpeer Hl Hmd Hp. unfold handle_logon. unfold mbind at 1, FM_bind at 1, fm_get.
  cbn [prog_bind fst]. rewrite Hpeer. apply called; [done|]. intros allowed.
  assert (unclaimed (h ++ [Ans (CallAllowed (KeyPeer (vf_peer v0))) allowed])) as Hu1
    by by apply unclaimed_snoc.
  destruct allowed; [|by apply refused]. cbn [negb].
  destruct (_ || _); [by apply refused|].
  apply called; [exists logon; by split_and!; [..|apply in_snoc]|]. intros outcome.
  set (h2 := (h ++ _) ++ _). assert (unclaimed h2) as Hu2 by by apply unclaimed_snoc.
  destruct outcome as [[id perms|]|]; try by apply refused.
  assert (Ans (CallFixLogin (lo_username logon) (lo_password logon)) (Some (Authenticated id perms)) ∈ h2)
    as Hlogin by apply in_snoc.
  assert (Ans (CallAllowed (KeyPeer (vf_peer v0))) true ∈ h2) as Hal
    by (apply elem_of_app; left; apply in_snoc).
  clearbody h2. apply called; [by eexists _, _, _|]. intros found.
  assert (unclaimed (h2 ++ [Ans (CallAccount id) found])) as Hu3 by by apply unclaimed_snoc.
  destruct (logon_account found (lo_header logon)) as [account|text] eqn:Ha; [|by apply refused].
  unfold logon_account in Ha. destruct found as [x|]; [|done].
  destruct (Z.ltb_spec 0 (acc_revocation_epoch x)); [done|].
  destruct (comp_ids_bound x (lo_header logon)) eqn:Hb; [|done]. cbn in Ha. injection Ha as <-.
  cbv zeta. match goal with |- context [CallClaimSession ?k] => set (key := k) end.
  set (h3 := h2 ++ _). fold h3 in Hu3.
  assert (logon_verified v0 m h3 key) as Hv.
  { exists logon, id, perms, x. split_and!; try done; try apply in_snoc; apply elem_of_app; by left. }
  clearbody h3. apply called; [exact Hv|]. intros claimed.
  destruct claimed; cbn [negb]; [|by apply refused; [apply unclaimed_snoc|..]].
  assert (∀ k, Ans (CallClaimSession k) true ∈ h3 ++ [Ans (CallClaimSession key) true] → k = key) as Honly.
  { intros k [Hk|Hk%list_elem_of_singleton]%elem_of_app; [by apply (unclaimed_no _ _ Hu3) in Hk|].
    by injection Hk. }
  assert (Ans (CallClaimSession key) true ∈ h3 ++ [Ans (CallClaimSession key) true]) as Hwon
    by apply in_snoc.
  assert (logon_verified v0 m (h3 ++ [Ans (CallClaimSession key) true]) key) as Hv'.
  { destruct Hv as (lo & i & pm & a & ? & ? & ? & ? & ?). exists lo, i, pm, a.
    split_and!; try tauto; apply elem_of_app; by left. }
  set (h4 := h3 ++ _) in *. clearbody h4. unfold mbind, FM_bind, fm_result, fm_fsm.
  destruct (admit_logon _ _ _ _ _ _ _ _) as [[rx|e] [f s]] eqn:E.
  - cbn. unfold claims_kept. cbn. split_and!; try done.
    + intros k ->%Honly. by left.
    + by intros k [= <-].
    + intros rx' [= <-] Hc.
      destruct (admit_logon_control _ _ _ _ _ _ _ p (vf_fsm w.1, w.2) _ _ Hp E Hc) as [Hacc Hph].
      exists key. by split_and!.
  - cbn. split; [done|]. intros []. unfold claims_kept. cbn. rewrite Hl. split_and!; try done.
    intros k Hk. right. apply elem_of_app in Hk as [Hk|Hk].
    + apply Honly in Hk as ->. apply in_snoc.
    + by apply list_elem_of_singleton in Hk.
Qed.

Lemma claims_kept_snoc h a v : is_claim a = false → claims_kept v0 m h v → claims_kept v0 m (h ++ [a]) v.
Proof.
  intros Ha [K1 K2]. split.
  - intros key [Hk|Hk%list_elem_of_singleton]%elem_of_app; [|by subst].
    destruct (K1 key Hk); [by left|right]. apply elem_of_app. by left.
  - intros key (Hk & lo & i & pm & x & ? & ? & ? & ? & ?)%K2. split; [apply elem_of_app; by left|].
    exists lo, i, pm, x. split_and!; try tauto; apply elem_of_app; by left.
Qed.

Lemma send_frames_obeys frames control v h :
  claims_kept v0 m h v → (control = Continue → logged_on v) →
  obeys (logon_call v0 m) (λ h' c, claims_kept v0 m h' v ∧ (c = Continue → logged_on v)) h
    (send_frames frames control).
Proof.
  revert h. induction frames as [|frame frames IH]; intros h Hk Hc; [done|]. cbn.
  split; [done|]. intros []; [apply IH; [by apply claims_kept_snoc|done]|].
  split; [by apply claims_kept_snoc|done].
Qed.

Lemma heard I (Q : list Answered → result SessionError Reaction * World → Prop) h header now
    (k : unit → M Reaction) (w : World) :
  obeys I Q h (k tt (with_fsm (set_peer (target_comp_id header) (sender_comp_id header) now
                                 (vf_fsm w.1)) w.1, w.2)) →
  obeys I Q h ((fm_fsm (on_inbound header now) ≫= k) w).
Proof. done. Qed.

Lemma react_obeys now s :
  obeys (logon_call v0 m) Post [Ans CallNow now] (react_to_message m now (v0, s)).
Proof.
  destruct H0v as (Hphase & Hl & Hmd). unfold react_to_message. unfold mbind at 1, FM_bind at 1, fm_get.
  cbn [prog_bind fst]. rewrite Hphase.
  assert (unclaimed [Ans CallNow now]) as Hu by by repeat constructor.
  destruct m eqn:Hm; apply heard; rewrite <-Hm; try by apply refused.
  by eapply handle_logon_obeys.
Qed.
End one.

(** C31. A FIX connection logs on only as the account it proved to be, and holds the session's
    claim exactly while it is logged on. In every execution of its first message, whatever is
    answered, a session key is claimed only for an account whose password was verified in this
    logon, after the limiter let the peer try, that is not revoked and whose registered
    counterparty ids are the logon's; nothing is submitted, and no account but the verified one
    is looked up. A claim won is in the end the session's lease or released, also when the
    session store fails; and a connection that goes on is logged on, under its lease's
    account. *)
Theorem fix_logon_verified v s m t q :
  not_logged_on v → steps (on_message m (v, s)) t q →
  match q with
  | Invoke c k => logon_call v m t (Asked c)
  | Done (control, (v', s')) =>
      claims_kept v m t v' ∧ (control = Continue → logged_on v')
  end.
Proof.
  intros Hv Ht.
  assert (obeys (logon_call v m)
    (λ h o, claims_kept v m h o.2.1 ∧ (o.1 = Continue → logged_on o.2.1)) [] (on_message m (v, s))) as Ho.
  { unfold on_message. cbn [prog_bind call obeys]. split; [done|]. intros now.
    unfold flush, append_market_data, mbind at 1, FM_bind at 1.
    set (Mid := λ h (o : result SessionError Reaction * World), claims_kept v m h o.2.1 ∧
      ∀ rx, o.1 = Ok rx → rx_control rx = Continue → logged_on o.2.1).
    eapply (obeys_bind _ Mid); [eapply obeys_bind; [by apply react_obeys|]|].
    - intros h [[rx|e] w'] HP; [|split; [apply HP|done]]. unfold mbind, FM_bind, fm_get. cbn [prog_bind].
      destruct HP as (Hk & Hmd & Hc). cbn [fst snd] in *. rewrite Hmd.
      assert (obeys (logon_call v m) Mid h (FM_ret _ rx w')) as Hr by done.
      by destruct (rx_control rx).
    - intros h [[rx|e] w'] [Hk Hc]; [|done]. eapply obeys_bind.
      + apply send_frames_obeys; [exact Hk|]. by apply Hc.
      + by intros h' control [? ?]. }
  pose proof (obeys_steps _ _ _ _ _ _ Ho Ht) as Hq. destruct q as [[control [v' s']]|X c k]; [done|].
  by destruct Hq.
Qed.
End logon.
