(* ===== verification/FixGatewaySample.v ===== *)
(** FIX sessions on a concrete venue: the witnesses of their theorems, and what a retry of
    another session's order shows. *)

From S2P Require Import SampleBook ActorProps VenueProps VenueSample RateLimit.
From S2P Require Import AuthSample FixRoundTrip FixSessionProps RestReports OrderFlow.
From S2P Require Import FixEffects.

(** The session of [FixSessionProps], logged on over the venue of [RestReports]. *)
Definition fix_session : VenueFixSession :=
  {| vf_peer := V4 1; vf_fsm := admitted.1; vf_lease := Some alice_key; vf_placed := ∅;
     vf_market_data := None |}.
Definition fix_world : VenueFixSession * gmap SessionKey Slot := (fix_session, admitted.2).

Definition sell_order (n : Z) (c : ClientOrderId) (price : option Cents) (quantity : Z)
    (tif : FixTif) (expire : option UtcTimestamp) : DecodedMessage :=
  DNewOrderSingle {| no_header := client_header n 2_000; no_cl_ord_id := c; no_account := None;
    no_symbol := btc_call; no_side := OsSell; no_transact_time := from_epoch_ms 2_000;
    no_ord_type := OtLimit; no_price := price; no_order_qty := quantity;
    no_time_in_force := tif; no_expire_time := expire |}.

(** The frames a session has written, as field lists. *)
Definition field (tag : Z) (frame : string) : option string :=
  match frame_decode frame with Ok raw => bag_find (raw_fields raw) tag | Err _ => None end.

Definition frames_sent (s : SampleState) : list (list (option string)) :=
  (λ frame, (λ t, field t frame) <$> [tags.MSG_TYPE; tags.ORD_STATUS; tags.ORDER_ID]) <$> as_sent s.

(** A session that hears messages one after the other; a new session over the same venue. *)
Fixpoint hear (ms : list DecodedMessage) (s : SampleState)
    (w : VenueFixSession * gmap SessionKey Slot) :
    option (SampleState * (VenueFixSession * gmap SessionKey Slot)) :=
  match ms with
  | [] => Some (s, w)
  | m :: ms => '(s, (_, w)) ← run no_float (on_message m w) s; hear ms s w
  end.
Definition hear_anew (ms : list DecodedMessage) (s : SampleState) :
    option (SampleState * (VenueFixSession * gmap SessionKey Slot)) :=
  hear ms (with_sent [] s) fix_world.

(** An order that is accepted, then one refused for its quantity. *)
Definition gtc_order (n : Z) : DecodedMessage := sell_order n "c-1" (Some 100) 5 TifGtc None.
Definition cancel_order_c1 (n : Z) : DecodedMessage :=
  DOrderCancelRequest {| oc_header := client_header n 3_000; oc_orig_cl_ord_id := "c-1";
    oc_cl_ord_id := "c-2"; oc_symbol := btc_call; oc_side := OsSell |}.

Example fix_order_reported_new :
  (λ o, frames_sent o.1) <$> hear [gtc_order 2] rest_app fix_world =
    Some [[Some "8"; Some "0"; Some "run-1:BTC:g0:0"]].
Proof. vm_compute. reflexivity. Qed.

Example fix_order_refused :
  (λ o, frames_sent o.1) <$>
    hear [sell_order 2 "c-1" (Some 100) 2_000_000 TifGtc None] rest_app fix_world =
    Some [[Some "8"; Some "8"; Some "NONE"]].
Proof. vm_compute. reflexivity. Qed.

Lemma fix_message_one_command_witness :
  let q := run_calls no_float 6 (on_message (gtc_order 2) fix_world) rest_app in
  (match q.2.1 with Invoke (CallSubmit _ _) _ => true | _ => false end) = true ∧
  pending_call q (fix_call_allowed fix_session "alice" (gtc_order 2)).
Proof.
  intros q.
  assert ((match q.2.1 with Invoke (CallSubmit _ _) _ => true | _ => false end) = true) as Hp
    by (vm_compute; reflexivity).
  split; [exact Hp|].
  pose proof (run_calls_steps no_float 6 (on_message (gtc_order 2) fix_world) rest_app) as Hs.
  change (steps (on_message (gtc_order 2) fix_world) q.1 q.2.1) in Hs.
  clearbody q. destruct q as [t [[r|X c k] s]]; [discriminate Hp|].
  refine (fix_message_one_command fix_session admitted.2 "alice" (gtc_order 2) t X c k _ _ Hs).
  - vm_compute. reflexivity.
  - vm_compute. discriminate.
Defined.

(** Two fills of a buy for ten that may not rest. *)
Definition sample_leg (index quantity price : Z) : ExecutionRecord :=
  {| xr_execution_id := execution_id "run-1" "BTC" 7 index; xr_order_id := "run-1:BTC:g1:0";
     xr_account := "alice"; xr_symbol := "BTC"; xr_instrument := btc_call; xr_side := Buy;
     xr_liquidity := Taker; xr_quantity := quantity; xr_price_cents := price; xr_fee_cents := 1;
     xr_theo_value_cents := price; xr_edge_cents := 0; xr_underlying_sequence := 7;
     xr_latency_us := 0; xr_executed_at := 2_000 |}.
Definition sample_reports : list ExecReportSpec :=
  render_placement_reports EtNew StNew btc_call OsBuy 10 (Some 100) "run-1:BTC:g1:0" 7 2_000
    "run-1" "BTC" Ioc [sample_leg 0 3 90; sample_leg 1 4 95].

Lemma placement_reports_exact_witness :
  ((λ r, (es_ord_status r, es_cum_qty r, es_leaves_qty r)) <$> sample_reports) =
    [(StNew, 0, 10); (StPartiallyFilled, 3, 7); (StPartiallyFilled, 7, 3); (StCanceled, 7, 0)] ∧
  NoDup (es_exec_id <$> sample_reports).
Proof.
  split; [vm_compute; reflexivity|].
  refine (proj1 (placement_reports_exact EtNew StNew btc_call OsBuy 10 (Some 100) "run-1:BTC:g1:0"
    7 2_000 "run-1" "BTC" Ioc [sample_leg 0 3 90; sample_leg 1 4 95] _ _ _ _ _ _)).
  - split; cbn; lia.
  - repeat constructor.
  - cbn. lia.
  - reflexivity.
  - cbn. lia.
  - split; cbn; lia.
Defined.

(** ** What the samples show *)

(** An order good until a moment long past is accepted over FIX, and rests. *)
Example fix_past_expiry_rests :
  (λ o, (frames_sent o.1, still_resting (as_venue o.1))) <$>
    hear [sell_order 2 "c-1" (Some 100) 5 TifGtd (Some (from_epoch_ms 1))] rest_app fix_world =
    Some ([[Some "8"; Some "0"; Some "run-1:BTC:g0:0"]], 1%nat) ∧
  1 < sc_current_ms (v_clock (as_venue rest_app)).
Proof. split; vm_compute; reflexivity. Qed.

(** A client that reconnects and sends its order again is told that a new order was accepted
    under a new id; no such order exists, and a cancel by its client order id goes to it, not
    to the order that rests. *)
Example fix_retry_on_new_session_phantom :
  (λ o, (frames_sent o.1, still_resting (as_venue o.1))) <$>
    ('(s, _) ← hear [gtc_order 2] rest_app fix_world;
     hear_anew [gtc_order 2; cancel_order_c1 3] s) =
    Some ([[Some "8"; Some "0"; Some "run-1:BTC:g1:0"];
           [Some "9"; Some "8"; Some "run-1:BTC:g1:0"]], 1%nat).
Proof. vm_compute. reflexivity. Qed.

(** ** A logon *)

Definition fix_alice : AccountProvision :=
  {| ap_id := "alice"; ap_owner := 7; ap_permissions := [PermRead; PermTrade];
     ap_fix_username := Some "alice-fix"; ap_fix_password := Some "correct horse";
     ap_fix_comp_ids := Some {| cb_sender_comp_id := "CLIENT"; cb_target_comp_id := "FAUX" |} |}.
Definition fix_app : SampleState :=
  with_accounts (provision_account 1 fix_alice (sy_registry auth0)).1 rest_app.
Definition connection : VenueFixSession :=
  {| vf_peer := V4 1; vf_fsm := fsm_new sample_config 10; vf_lease := None; vf_placed := ∅;
     vf_market_data := None |}.
Definition logon_with (password : string) : DecodedMessage :=
  DLogon {| lo_header := client_header 1 1_000; lo_heart_bt_int := 30; lo_username := "alice-fix";
            lo_password := password; lo_reset_seq_num_flag := None |}.

Definition finished (q : list Answered *
    (Prog (SessionControl * (VenueFixSession * gmap SessionKey Slot)) * SampleState)) :
    option (SessionControl * (VenueFixSession * gmap SessionKey Slot)) :=
  match q.2.1 with Done r => Some r | Invoke _ _ => None end.

Lemma fix_logon_verified_witness :
  let q := run_calls no_float 9 (on_message (logon_with "correct horse") (connection, ∅)) fix_app in
  ∃ v s, finished q = Some (Continue, (v, s)) ∧
    claims_kept connection (logon_with "correct horse") q.1 v ∧ logged_on v.
Proof.
  intros q. assert (finished q = Some (Continue, default (connection, ∅) (snd <$> finished q))) as Hf
    by (vm_compute; reflexivity).
  destruct (default (connection, ∅) (snd <$> finished q)) as [v s]. exists v, s. split; [exact Hf|].
  pose proof (run_calls_steps no_float 9 (on_message (logon_with "correct horse") (connection, ∅))
    fix_app) as Hs.
  pose proof (fix_logon_verified connection ∅ (logon_with "correct horse") q.1 q.2.1
    ltac:(split_and!; reflexivity) Hs) as Hq.
  clearbody q. destruct q as [t [[r|X c k] s']]; [|discriminate Hf].
  injection Hf as ->. destruct Hq as [Hk Hc]. split; [exact Hk|]. by apply Hc.
Defined.

(** A wrong password closes the connection; a second logon finds the session claimed. *)
Example fix_logon_refused :
  ((λ o, (o.2.1, frames_sent o.1)) <$>
     run no_float (on_message (logon_with "wrong") (connection, ∅)) fix_app) =
    Some (Close, [[Some "5"; None; None]]) ∧
  (('(s, _) ← run no_float (on_message (logon_with "correct horse") (connection, ∅)) fix_app;
    (λ o, o.2.1) <$> run no_float (on_message (logon_with "correct horse") (connection, ∅)) s)) =
    Some Close.
Proof. split; vm_compute; reflexivity. Qed.
