(* ===== verification/F64.v ===== *)
(** The arithmetic of [f64]: binary64 values by their bit patterns (as in [Envelope]), with
    the correctly rounded operations of the standard library's [SpecFloat], and Rust's
    conversions, [round], [max] and [clamp]. *)

From Stdlib Require Import SpecFloat.
From S2P Require Export Envelope.

Definition F64_SIGN : Z := 2 ^ 63.
Definition F64_HIDDEN : Z := 2 ^ 52.
Definition F64_INFINITY : f64 := 0x7FF0000000000000.
Definition F64_NAN : f64 := 0x7FF8000000000000.

Definition f64_decode (x : f64) : spec_float :=
  let sign := Z.testbit x 63 in
  let exponent := Z.land (Z.shiftr x 52) 0x7FF in
  let fraction := Z.land x (F64_HIDDEN - 1) in
  if exponent =? 0x7FF then if fraction =? 0 then S754_infinity sign else S754_nan
  else if exponent =? 0 then
    match fraction with Zpos m => S754_finite sign m (-1074) | _ => S754_zero sign end
  else S754_finite sign (Z.to_pos (F64_HIDDEN + fraction)) (exponent - 1075).

Definition f64_encode (x : spec_float) : f64 :=
  let signed (s : bool) magnitude := if s then F64_SIGN + magnitude else magnitude in
  wrapping u64
    match x with
    | S754_zero s => signed s 0
    | S754_infinity s => signed s F64_INFINITY
    | S754_nan => F64_NAN
    | S754_finite s m e =>
        if Zpos m <? F64_HIDDEN then signed s (Zpos m)
        else signed s (Z.shiftl (e + 1075) 52 + (Zpos m - F64_HIDDEN))
    end.

Definition f64_lift (f : spec_float → spec_float → spec_float) (a b : f64) : f64 :=
  f64_encode (f (f64_decode a) (f64_decode b)).
Definition f64_add : f64 → f64 → f64 := f64_lift (SFadd 53 1024).
Definition f64_sub : f64 → f64 → f64 := f64_lift (SFsub 53 1024).
Definition f64_mul : f64 → f64 → f64 := f64_lift (SFmul 53 1024).
Definition f64_div : f64 → f64 → f64 := f64_lift (SFdiv 53 1024).

(** [n as f64]; the decimal literal [p / q], correctly rounded while [p] and [q] are exact. *)
Definition f64_of_Z (n : Z) : f64 := f64_encode (binary_normalize 53 1024 n 0 false).
Definition f64_lit (p q : Z) : f64 := f64_div (f64_of_Z p) (f64_of_Z q).

Definition f64_is_finite (x : f64) : bool := f64_magnitude x <? F64_INFINITY.
Definition f64_ltb (a b : f64) : bool :=
  negb (f64_is_nan a) && negb (f64_is_nan b) && (f64_ord a <? f64_ord b).
Definition f64_abs (x : f64) : f64 := f64_magnitude x.

(** [f64::max], [f64::clamp], [(min..=max).contains]. *)
Definition f64_max (a b : f64) : f64 :=
  if f64_is_nan a then b else if f64_ltb a b then b else a.
Definition f64_clamp (x min max : f64) : f64 :=
  let x := if f64_ltb x min then min else x in
  if f64_ltb max x then max else x.
Definition f64_contains (min max x : f64) : bool := f64_leb min x && f64_leb x max.

(** The integer part of a finite value, towards zero. *)
Definition f64_trunc (x : spec_float) : Z :=
  match x with
  | S754_finite s m e => let n := Z.shiftl (Zpos m) e in if s then - n else n
  | _ => 0
  end.

(** [x as i64] and [x as u64]: truncation, saturating, zero for a NaN. *)
Definition f64_as (t : int_ty) (x : f64) : Z :=
  match f64_decode x with
  | S754_nan => 0
  | S754_infinity s => if s then int_min t else int_max t
  | v => Z.max (int_min t) (Z.min (int_max t) (f64_trunc v))
  end.

(** [f64::round]: to the nearest integer, halves away from zero. *)
Definition f64_round (x : f64) : f64 :=
  match f64_decode x with
  | S754_finite s m e =>
      if 0 <=? e then x
      else
        let n := Z.shiftr (Zpos m + 2 ^ (- e - 1)) (- e) in
        if n =? 0 then f64_encode (S754_zero s)
        else f64_encode (binary_normalize 53 1024 (if s then - n else n) 0 s)
  | _ => x
  end.

(** ** Checks against known values *)

Example literals :
  (f64_lit 1 10, f64_lit 10 1, f64_of_Z 1, f64_lit (-1) 1) =
    (SPREAD_MULTIPLIER_MIN, SPREAD_MULTIPLIER_MAX, SIZE_SCALAR_MAX, DIRECTIONAL_SKEW_MIN).
Proof. vm_compute. reflexivity. Qed.

(** [0.1 + 0.2 == 0.30000000000000004]; [i64::MAX as f64] is [2^63]; the cast back saturates. *)
Example rounding_known :
  f64_add (f64_lit 1 10) (f64_lit 2 10) = 0x3FD3333333333334 ∧
  f64_of_Z (2 ^ 63 - 1) = f64_of_Z (2 ^ 63) ∧ f64_as i64 (f64_of_Z (2 ^ 63)) = 2 ^ 63 - 1 ∧
  f64_as u64 (f64_round (f64_lit 5 2)) = 3 ∧ f64_as i64 (f64_round (f64_lit (-5) 2)) = -3 ∧
  f64_as u64 (f64_lit (-1) 2) = 0.
Proof. vm_compute. split_and!; reflexivity. Qed.

(** ** Ranges *)

Lemma f64_as_range t x : int_min t ≤ 0 ≤ int_max t → int_min t ≤ f64_as t x ≤ int_max t.
Proof. intros Ht. unfold f64_as. destruct (f64_decode x) as [|[]| |]; lia. Qed.

Lemma f64_not_ltb a b :
  f64_is_nan a = false → f64_is_nan b = false → f64_ltb a b = false → f64_ord b ≤ f64_ord a.
Proof. intros Ha Hb. unfold f64_ltb. rewrite Ha, Hb. cbn. intros ?%Z.ltb_ge. done. Qed.

(** A clamped value lies in its range, unless it is not a number. *)
Lemma f64_clamp_range x min max :
  f64_is_nan x = false → f64_leb min max = true → f64_contains min max (f64_clamp x min max) = true.
Proof.
  unfold f64_contains, f64_clamp, f64_ltb, f64_leb. intros Hx Hm.
  apply andb_true_iff in Hm as [[Hn1%negb_true_iff Hn2%negb_true_iff]%andb_true_iff Hle%Z.leb_le].
  repeat (rewrite ?Hx, ?Hn1, ?Hn2; cbn [negb andb];
          match goal with |- context [?a <? ?b] => destruct (Z.ltb_spec a b); [try lia|] end || idtac).
  all: rewrite ?Hx, ?Hn1, ?Hn2; cbn [negb andb]; by rewrite !(proj2 (Z.leb_le _ _)) by lia.
Qed.

(** ** Casts of values at least one *)

Lemma f64_as_at_least_one t x :
  0 ≤ x < 2 ^ 64 → int_min t ≤ 0 → 1 ≤ int_max t → f64_is_nan x = false →
  f64_ord (f64_of_Z 1) ≤ f64_ord x → 1 ≤ f64_as t x.
Proof.
  intros Hx Hmin Hmax Hn Ho. assert (f64_ord (f64_of_Z 1) = 0x3FF0000000000000) as E1 by reflexivity.
  rewrite E1 in Ho. unfold f64_ord in Ho.
  assert (f64_magnitude x = x mod 2 ^ 63) as Hmag.
  { unfold f64_magnitude. change (2 ^ 63 - 1) with (Z.ones 63). by rewrite Z.land_ones. }
  pose proof (Z.mod_pos_bound x (2 ^ 63) ltac:(lia)).
  destruct (Z.testbit x 63) eqn:Hs; [lia|].
  assert (x < 2 ^ 63) as Hx63.
  { apply Z.nle_gt. intros Hge. assert (x / 2 ^ 63 = 1) as Hq by (symmetry; apply (Z.div_unique _ _ _ (x - 2 ^ 63)); lia).
    rewrite Z.testbit_eqb, Hq in Hs by lia. done. }
  rewrite Hmag, Z.mod_small in Ho by lia.
  assert (Z.land (Z.shiftr x 52) 0x7FF = x / 2 ^ 52) as He.
  { rewrite Z.shiftr_div_pow2 by lia. change 0x7FF with (Z.ones 11). rewrite Z.land_ones by lia.
    apply Z.mod_small. split; [apply Z.div_pos; lia|]. apply Z.div_lt_upper_bound; lia. }
  assert (Z.land x (F64_HIDDEN - 1) = x mod 2 ^ 52) as Hf.
  { unfold F64_HIDDEN. change (2 ^ 52 - 1) with (Z.ones 52). by rewrite Z.land_ones. }
  assert (1023 ≤ x / 2 ^ 52) as Hexp by (apply Z.div_le_lower_bound; lia).
  pose proof (Z.mod_pos_bound x (2 ^ 52) ltac:(lia)) as Hfr.
  unfold f64_as, f64_decode. rewrite Hs, He, Hf.
  destruct (Z.eqb_spec (x / 2 ^ 52) 0x7FF).
  { destruct (Z.eqb_spec (x mod 2 ^ 52) 0) as [|Hnz]; [done|]. exfalso.
    unfold f64_is_nan in Hn. rewrite Hmag, Z.mod_small in Hn by lia.
    apply Z.ltb_ge in Hn. pose proof (Z.div_mod x (2 ^ 52) ltac:(lia)). lia. }
  destruct (Z.eqb_spec (x / 2 ^ 52) 0); [lia|]. cbn [f64_trunc].
  rewrite Z2Pos.id by (unfold F64_HIDDEN; lia).
  assert (1 ≤ Z.shiftl (F64_HIDDEN + x mod 2 ^ 52) (x / 2 ^ 52 - 1075)); [|lia].
  destruct (Z.le_gt_cases 0 (x / 2 ^ 52 - 1075)).
  - rewrite Z.shiftl_mul_pow2 by done. unfold F64_HIDDEN.
    assert (0 < 2 ^ (x / 2 ^ 52 - 1075)) by (apply Z.pow_pos_nonneg; lia). nia.
  - rewrite Z.shiftl_div_pow2 by lia. apply Z.div_le_lower_bound; [apply Z.pow_pos_nonneg; lia|].
    rewrite Z.mul_1_r. unfold F64_HIDDEN.
    assert (2 ^ (- (x / 2 ^ 52 - 1075)) ≤ 2 ^ 52) by (apply Z.pow_le_mono_r; lia). lia.
Qed.

Lemma f64_of_one_number : f64_is_nan (f64_of_Z 1) = false ∧ 0 ≤ f64_of_Z 1 < 2 ^ 64.
Proof. vm_compute. split_and!; done. Qed.

(** [x.max(1.0) as _] is at least one, whatever [x]. *)
Lemma f64_max_one t x :
  0 ≤ x < 2 ^ 64 → int_min t ≤ 0 → 1 ≤ int_max t → 1 ≤ f64_as t (f64_max x (f64_of_Z 1)).
Proof.
  intros Hx Hmin Hmax. destruct f64_of_one_number as [Hn1 H1].
  unfold f64_max. destruct (f64_is_nan x) eqn:Hn; [by apply f64_as_at_least_one|].
  destruct (f64_ltb x (f64_of_Z 1)) eqn:E; [by apply f64_as_at_least_one|].
  apply f64_as_at_least_one; try done. by apply f64_not_ltb.
Qed.

(** Every operation yields a 64-bit pattern. *)
Lemma f64_encode_range v : 0 ≤ f64_encode v < 2 ^ 64.
Proof. unfold f64_encode. apply Z.mod_pos_bound. lia. Qed.
