(* ===== verification/Quoter.v ===== *)
(** The market maker's quoting ([src/src/market_maker/config.rs], [pricer.rs], [quoter.rs],
    [persona.rs]): the range-validated knobs, the theoretical value (priced by
    [optionstratlib], the parameter [PricingLib]), the two-sided quote in cents computed in
    binary64, and the seeded jitter of a persona. *)

From S2P Require Export F64 Rng Venue.

(** ** Knobs ([config.rs]) *)

Definition validate_control_value (field : string) (value min max : f64) : result string f64 :=
  if f64_contains min max value then Ok value else Err field.

Definition validate_control_knobs (spread_multiplier size_scalar directional_skew : option f64) :
    result string unit :=
  let check field value min max :=
    match value with
    | Some value => _ ← validate_control_value field value min max; Ok tt
    | None => Ok tt
    end in
  _ ← check "spread_multiplier" spread_multiplier SPREAD_MULTIPLIER_MIN SPREAD_MULTIPLIER_MAX;
  _ ← check "size_scalar" size_scalar SIZE_SCALAR_MIN SIZE_SCALAR_MAX;
  check "directional_skew" directional_skew DIRECTIONAL_SKEW_MIN DIRECTIONAL_SKEW_MAX.

Record MarketMakerConfig := {
  mc_enabled : bool; mc_spread_multiplier : f64; mc_size_scalar : f64;
  mc_directional_skew : f64; mc_symbol_enabled : gmap string bool }.

Definition MarketMakerConfig_default : MarketMakerConfig :=
  {| mc_enabled := true; mc_spread_multiplier := f64_of_Z 1; mc_size_scalar := f64_of_Z 1;
     mc_directional_skew := 0; mc_symbol_enabled := ∅ |}.

Inductive MarketMakerEvent :=
  | QuoteUpdated (symbol : string) (strike_cents : Z) (style : string) (bid_price ask_price : Cents)
      (bid_size ask_size : Z)
  | OrderFilled (order_id : VenueOrderId) (execution_id : option ExecutionId) (symbol side : string)
      (quantity : Z) (price : Cents) (edge : Z)
  | ConfigChanged (enabled : bool) (spread_multiplier size_scalar directional_skew : f64)
  | PriceUpdated (symbol : string) (price_cents : Z).

(** ** Pricing ([pricer.rs]) *)

Inductive Greek := TheoreticalValue | Delta | Gamma | Vega | Theta.

Record OptionPricer := { pr_risk_free_rate : f64; pr_default_iv : f64 }.

(** [optionstratlib]: the value of a European option for positive finite inputs (rate, spot,
    strike, volatility, days), when it can be computed; and the days of a relative expiry. *)
Class PricingLib := {
  price_option : Greek → f64 → f64 → f64 → f64 → f64 → OptionStyle → option f64;
  days_to_f64 : Z → f64;
}.

Definition DEFAULT_RISK_FREE_RATE : f64 := f64_lit 5 100.
Definition DEFAULT_IV : f64 := f64_lit 30 100.
Definition OptionPricer_default : OptionPricer :=
  {| pr_risk_free_rate := DEFAULT_RISK_FREE_RATE; pr_default_iv := DEFAULT_IV |}.

Definition finite (value : f64) : option f64 := if f64_is_finite value then Some value else None.
Definition finite_positive (x : f64) : bool := f64_is_finite x && f64_ltb 0 x.

Section pricing.
Context `{PricingLib}.

Definition priced (what : Greek) (p : OptionPricer) (spot strike days_to_expiry : f64)
    (style : OptionStyle) (iv : option f64) : option f64 :=
  let sigma := default (pr_default_iv p) iv in
  if negb (finite_positive spot) || negb (finite_positive strike) || negb (finite_positive sigma)
     || negb (finite_positive days_to_expiry)
  then None
  else value ← price_option what (pr_risk_free_rate p) spot strike sigma days_to_expiry style;
       finite value.
Definition theoretical_value := priced TheoreticalValue.
Definition delta := priced Delta.
Definition gamma := priced Gamma.
Definition vega := priced Vega.
Definition theta := priced Theta.

(** ** Quotes ([quoter.rs]) *)

Definition BPS_DENOMINATOR : f64 := f64_of_Z 10_000.
Definition SKEW_PRICE_WEIGHT : f64 := f64_lit 5 10.
Definition SKEW_SIZE_WEIGHT : f64 := f64_lit 3 10.
Definition DEFAULT_BASE_SPREAD_BPS : Z := 100.
Definition DEFAULT_BASE_SIZE : Z := 10.

Record QuoteParams := {
  qp_bid_price : Cents; qp_ask_price : Cents; qp_bid_size : Z; qp_ask_size : Z;
  qp_theo_price : Cents }.
Record QuoteInput := {
  qi_spot_cents : Z; qi_strike_cents : Z; qi_days_to_expiry : f64; qi_style : OptionStyle;
  qi_spread_multiplier : f64; qi_size_scalar : f64; qi_directional_skew : f64;
  qi_iv : option f64 }.
Record Quoter := { qt_pricer : OptionPricer; qt_base_spread_bps : Z; qt_base_size : Z }.

Definition Quoter_default : Quoter :=
  {| qt_pricer := OptionPricer_default; qt_base_spread_bps := DEFAULT_BASE_SPREAD_BPS;
     qt_base_size := DEFAULT_BASE_SIZE |}.

(** [i64] arithmetic of a release build. *)
Definition wrap_i64 (n : Z) : Z := (n + 2 ^ 63) mod 2 ^ 64 - 2 ^ 63.

(** The theoretical value in cents, refused beyond the range of the spread arithmetic. *)
Definition theo_cents_of (theo : f64) : option Z :=
  let theo_scaled := f64_mul theo (f64_of_Z 100) in
  if negb (f64_is_finite theo_scaled) || f64_ltb theo_scaled 0 then None
  else
    let theo_cents := f64_round theo_scaled in
    if f64_contains 0 (f64_of_Z (2 ^ 63 - 1)) theo_cents then Some (f64_as u64 theo_cents)
    else None.

Definition half_spread_cents (q : Quoter) (spread_multiplier : f64) (theo_cents : Z) : Z :=
  let half_spread_bps :=
    f64_max (f64_div (f64_mul (f64_of_Z (qt_base_spread_bps q)) spread_multiplier) (f64_of_Z 2)) 0 in
  f64_as i64
    (f64_max (f64_div (f64_mul (f64_of_Z theo_cents) half_spread_bps) BPS_DENOMINATOR) (f64_of_Z 1)).

Definition skew_adjustment (half_spread_cents : Z) (directional_skew : f64) (style : OptionStyle) :
    Z :=
  let shift := f64_as i64
    (f64_mul (f64_mul (f64_of_Z half_spread_cents) directional_skew) SKEW_PRICE_WEIGHT) in
  match style with Call => shift | Put => wrap_i64 (- shift) end.

(** The two legs, floored so that the bid is positive and the ask above it. *)
Definition quote_legs (theo_cents half_spread_cents adjustment : Z) : Z * Z :=
  let theo_i := wrap_i64 theo_cents in
  let bid_i := Z.max (wrap_i64 (wrap_i64 (theo_i - half_spread_cents) + adjustment)) 1 in
  let ask_i := Z.max (wrap_i64 (wrap_i64 (theo_i + half_spread_cents) + adjustment))
                     (wrap_i64 (bid_i + 1)) in
  (wrapping u64 bid_i, wrapping u64 ask_i).

Definition quote_sizes (base_size : Z) (size_scalar directional_skew : f64) : Z * Z :=
  let base_size := f64_as u64 (f64_max (f64_mul (f64_of_Z base_size) size_scalar) (f64_of_Z 1)) in
  let skew_size_factor :=
    f64_sub (f64_of_Z 1) (f64_mul (f64_abs directional_skew) SKEW_SIZE_WEIGHT) in
  let reduced := f64_as u64 (f64_mul (f64_of_Z base_size) skew_size_factor) in
  let '(bid_size, ask_size) :=
    if f64_ltb 0 directional_skew then (base_size, reduced)
    else if f64_ltb directional_skew 0 then (reduced, base_size)
    else (base_size, base_size) in
  (Z.max bid_size 1, Z.max ask_size 1).

Definition generate_quote (q : Quoter) (input : QuoteInput) : option QuoteParams :=
  let cents n := f64_div (f64_of_Z n) (f64_of_Z 100) in
  theo ← theoretical_value (qt_pricer q) (cents (qi_spot_cents input))
           (cents (qi_strike_cents input)) (qi_days_to_expiry input) (qi_style input) (qi_iv input);
  theo_cents ← theo_cents_of theo;
  let half_spread := half_spread_cents q (qi_spread_multiplier input) theo_cents in
  let adjustment := skew_adjustment half_spread (qi_directional_skew input) (qi_style input) in
  let '(bid_price, ask_price) := quote_legs theo_cents half_spread adjustment in
  let '(bid_size, ask_size) :=
    quote_sizes (qt_base_size q) (qi_size_scalar input) (qi_directional_skew input) in
  Some {| qp_bid_price := bid_price; qp_ask_price := ask_price; qp_bid_size := bid_size;
          qp_ask_size := ask_size; qp_theo_price := theo_cents |}.
End pricing.

(** The difference in 128 bits, clamped into 64. *)
Definition calculate_edge (fill_price_cents theo_cents : Z) (is_buy : bool) : Z :=
  let edge := if is_buy then theo_cents - fill_price_cents else fill_price_cents - theo_cents in
  Z.max (int_min i64) (Z.min (int_max i64) edge).

(** ** Personas ([persona.rs]) *)

Definition PERSONA_JITTER_DOMAIN : Z := 0x4661757850657273.
Definition PERSONA_SIZE_JITTER : f64 := f64_lit 20 100.
Definition PERSONA_SKEW_JITTER : f64 := f64_lit 5 100.

Record PersonaConfig := {
  pc_base_spread_bps : Z; pc_base_size : Z; pc_spread_multiplier : f64; pc_size_scalar : f64;
  pc_directional_skew : f64 }.

Definition PersonaConfig_try_new (base_spread_bps base_size : Z)
    (spread_multiplier size_scalar directional_skew : f64) : result string PersonaConfig :=
  spread_multiplier ← validate_control_value "spread_multiplier" spread_multiplier
                        SPREAD_MULTIPLIER_MIN SPREAD_MULTIPLIER_MAX;
  size_scalar ← validate_control_value "size_scalar" size_scalar SIZE_SCALAR_MIN SIZE_SCALAR_MAX;
  directional_skew ← validate_control_value "directional_skew" directional_skew
                       DIRECTIONAL_SKEW_MIN DIRECTIONAL_SKEW_MAX;
  Ok {| pc_base_spread_bps := base_spread_bps; pc_base_size := base_size;
        pc_spread_multiplier := spread_multiplier; pc_size_scalar := size_scalar;
        pc_directional_skew := directional_skew |}.

Definition PersonaConfig_default : PersonaConfig :=
  {| pc_base_spread_bps := DEFAULT_BASE_SPREAD_BPS; pc_base_size := DEFAULT_BASE_SIZE;
     pc_spread_multiplier := f64_of_Z 1; pc_size_scalar := f64_of_Z 1; pc_directional_skew := 0 |}.

Record PersonaJitterDraw := { jd_size_factor : f64; jd_skew_delta : f64 }.
Definition jitter_identity : PersonaJitterDraw :=
  {| jd_size_factor := f64_of_Z 1; jd_skew_delta := 0 |}.

Definition F64_MANTISSA_SCALE : f64 := f64_of_Z (2 ^ 53).
Definition next_unit (rng : SplitMix64) : f64 * SplitMix64 :=
  let '(x, rng) := next_u64 rng in (f64_div (f64_of_Z (Z.shiftr x 11)) F64_MANTISSA_SCALE, rng).

Definition jitter_draw (run_seed : Z) (persona symbol : string) : PersonaJitterDraw :=
  let rng := keyed run_seed PERSONA_JITTER_DOMAIN [string_bytes persona; string_bytes symbol] in
  let '(u_size, rng) := next_unit rng in
  let '(u_skew, rng) := next_unit rng in
  {| jd_size_factor := f64_sub (f64_of_Z 1) (f64_mul PERSONA_SIZE_JITTER u_size);
     jd_skew_delta :=
       f64_mul PERSONA_SKEW_JITTER (f64_sub (f64_mul (f64_of_Z 2) u_skew) (f64_of_Z 1)) |}.
