(* ===== verification/MarketMaker.v ===== *)
(** The market-maker engine ([src/src/market_maker/engine.rs]), the sink its commands flow
    through ([sink.rs]) and the late-bound control hub ([control_hub.rs]).

    The engine is a state record; a call is a function from the state before it to the state
    after it, which records the commands handed to the sink ([mm_sent]) and the events
    broadcast ([mm_events]), oldest first.  The calls run one at a time: the engine serialises
    its maps by locks, and no call holds one across a send. *)

From S2P Require Export Quoter Recovery Boot.

Definition MILLIS_PER_DAY : f64 := f64_of_Z 86_400_000.

Record QuotableInstrument := {
  in_symbol : Symbol; in_underlying : string; in_expiration : ExpirationDate;
  in_strike_cents : Z; in_style : OptionStyle; in_iv : option f64;
  in_persona : option PersonaConfig; in_persona_name : option string }.

Record RestingQuote := {
  rq_underlying : string; rq_symbol : Symbol; rq_is_buy : bool; rq_theo_cents : Z;
  rq_quantity : Z }.
Definition with_quantity (n : Z) (q : RestingQuote) : RestingQuote :=
  {| rq_underlying := rq_underlying q; rq_symbol := rq_symbol q; rq_is_buy := rq_is_buy q;
     rq_theo_cents := rq_theo_cents q; rq_quantity := n |}.

(** The resting leg ids of an instrument, bid and ask. *)
Notation LegSlots := (option VenueOrderId * option VenueOrderId)%type (only parsing).
Definition leg_slot (is_buy : bool) (s : LegSlots) : option VenueOrderId :=
  if is_buy then s.1 else s.2.
Definition set_leg_slot (is_buy : bool) (id : option VenueOrderId) (s : LegSlots) : LegSlots :=
  if is_buy then (id, s.2) else (s.1, id).
Definition leg_ids (s : LegSlots) : list VenueOrderId := option_list s.1 ++ option_list s.2.

Record MarketMakerEngine := {
  mm_lineage : LineageId;
  mm_quoter : Quoter;
  mm_run_seed : Z;
  mm_config : MarketMakerConfig;
  mm_prices : gmap string Z;
  mm_instruments : gmap string (list QuotableInstrument);
  mm_legs : gmap Symbol LegSlots;
  mm_resting : gmap VenueOrderId RestingQuote;
  mm_next_order_seq : Z;
  mm_venue_now_ms : Z;
  mm_muted : bool;
  mm_sent : list VenueCommand;
  mm_events : list MarketMakerEvent;
}.

Section engine.
Context `{Upstream} `{PricingLib}.

Definition set_config (c : MarketMakerConfig) (e : MarketMakerEngine) : MarketMakerEngine :=
  {| mm_lineage := mm_lineage e; mm_quoter := mm_quoter e; mm_run_seed := mm_run_seed e;
     mm_config := c; mm_prices := mm_prices e; mm_instruments := mm_instruments e;
     mm_legs := mm_legs e; mm_resting := mm_resting e; mm_next_order_seq := mm_next_order_seq e;
     mm_venue_now_ms := mm_venue_now_ms e; mm_muted := mm_muted e; mm_sent := mm_sent e;
     mm_events := mm_events e |}.
Definition set_prices (p : gmap string Z) (e : MarketMakerEngine) : MarketMakerEngine :=
  {| mm_lineage := mm_lineage e; mm_quoter := mm_quoter e; mm_run_seed := mm_run_seed e;
     mm_config := mm_config e; mm_prices := p; mm_instruments := mm_instruments e;
     mm_legs := mm_legs e; mm_resting := mm_resting e; mm_next_order_seq := mm_next_order_seq e;
     mm_venue_now_ms := mm_venue_now_ms e; mm_muted := mm_muted e; mm_sent := mm_sent e;
     mm_events := mm_events e |}.
Definition set_instruments (i : gmap string (list QuotableInstrument)) (e : MarketMakerEngine) :
    MarketMakerEngine :=
  {| mm_lineage := mm_lineage e; mm_quoter := mm_quoter e; mm_run_seed := mm_run_seed e;
     mm_config := mm_config e; mm_prices := mm_prices e; mm_instruments := i;
     mm_legs := mm_legs e; mm_resting := mm_resting e; mm_next_order_seq := mm_next_order_seq e;
     mm_venue_now_ms := mm_venue_now_ms e; mm_muted := mm_muted e; mm_sent := mm_sent e;
     mm_events := mm_events e |}.
(** The two tracking maps, which change together. *)
Definition set_tracked (l : gmap Symbol LegSlots) (r : gmap VenueOrderId RestingQuote)
    (e : MarketMakerEngine) : MarketMakerEngine :=
  {| mm_lineage := mm_lineage e; mm_quoter := mm_quoter e; mm_run_seed := mm_run_seed e;
     mm_config := mm_config e; mm_prices := mm_prices e; mm_instruments := mm_instruments e;
     mm_legs := l; mm_resting := r; mm_next_order_seq := mm_next_order_seq e;
     mm_venue_now_ms := mm_venue_now_ms e; mm_muted := mm_muted e; mm_sent := mm_sent e;
     mm_events := mm_events e |}.
Definition set_next_order_seq (n : Z) (e : MarketMakerEngine) : MarketMakerEngine :=
  {| mm_lineage := mm_lineage e; mm_quoter := mm_quoter e; mm_run_seed := mm_run_seed e;
     mm_config := mm_config e; mm_prices := mm_prices e; mm_instruments := mm_instruments e;
     mm_legs := mm_legs e; mm_resting := mm_resting e; mm_next_order_seq := n;
     mm_venue_now_ms := mm_venue_now_ms e; mm_muted := mm_muted e; mm_sent := mm_sent e;
     mm_events := mm_events e |}.
Definition set_venue_now_ms (n : Z) (e : MarketMakerEngine) : MarketMakerEngine :=
  {| mm_lineage := mm_lineage e; mm_quoter := mm_quoter e; mm_run_seed := mm_run_seed e;
     mm_config := mm_config e; mm_prices := mm_prices e; mm_instruments := mm_instruments e;
     mm_legs := mm_legs e; mm_resting := mm_resting e; mm_next_order_seq := mm_next_order_seq e;
     mm_venue_now_ms := n; mm_muted := mm_muted e; mm_sent := mm_sent e;
     mm_events := mm_events e |}.
Definition set_muted (b : bool) (e : MarketMakerEngine) : MarketMakerEngine :=
  {| mm_lineage := mm_lineage e; mm_quoter := mm_quoter e; mm_run_seed := mm_run_seed e;
     mm_config := mm_config e; mm_prices := mm_prices e; mm_instruments := mm_instruments e;
     mm_legs := mm_legs e; mm_resting := mm_resting e; mm_next_order_seq := mm_next_order_seq e;
     mm_venue_now_ms := mm_venue_now_ms e; mm_muted := b; mm_sent := mm_sent e;
     mm_events := mm_events e |}.
Definition enqueue (cs : list VenueCommand) (e : MarketMakerEngine) : MarketMakerEngine :=
  {| mm_lineage := mm_lineage e; mm_quoter := mm_quoter e; mm_run_seed := mm_run_seed e;
     mm_config := mm_config e; mm_prices := mm_prices e; mm_instruments := mm_instruments e;
     mm_legs := mm_legs e; mm_resting := mm_resting e; mm_next_order_seq := mm_next_order_seq e;
     mm_venue_now_ms := mm_venue_now_ms e; mm_muted := mm_muted e; mm_sent := mm_sent e ++ cs;
     mm_events := mm_events e |}.
Definition broadcast (ev : MarketMakerEvent) (e : MarketMakerEngine) : MarketMakerEngine :=
  {| mm_lineage := mm_lineage e; mm_quoter := mm_quoter e; mm_run_seed := mm_run_seed e;
     mm_config := mm_config e; mm_prices := mm_prices e; mm_instruments := mm_instruments e;
     mm_legs := mm_legs e; mm_resting := mm_resting e; mm_next_order_seq := mm_next_order_seq e;
     mm_venue_now_ms := mm_venue_now_ms e; mm_muted := mm_muted e; mm_sent := mm_sent e;
     mm_events := mm_events e ++ [ev] |}.

Definition DEFAULT_MM_RUN_SEED : Z := 0.
Definition MarketMakerEngine_new (lineage : LineageId) (quoter : Quoter) : MarketMakerEngine :=
  {| mm_lineage := lineage; mm_quoter := quoter; mm_run_seed := DEFAULT_MM_RUN_SEED;
     mm_config := MarketMakerConfig_default; mm_prices := ∅; mm_instruments := ∅; mm_legs := ∅;
     mm_resting := ∅; mm_next_order_seq := 0; mm_venue_now_ms := 0; mm_muted := false;
     mm_sent := []; mm_events := [] |}.
Definition with_run_seed (seed : Z) (e : MarketMakerEngine) : MarketMakerEngine :=
  {| mm_lineage := mm_lineage e; mm_quoter := mm_quoter e; mm_run_seed := seed;
     mm_config := mm_config e; mm_prices := mm_prices e; mm_instruments := mm_instruments e;
     mm_legs := mm_legs e; mm_resting := mm_resting e; mm_next_order_seq := mm_next_order_seq e;
     mm_venue_now_ms := mm_venue_now_ms e; mm_muted := mm_muted e; mm_sent := mm_sent e;
     mm_events := mm_events e |}.

(** ** Registration *)

Definition register_resolved (symbol : Symbol) (iv : option f64) (persona : option PersonaConfig)
    (persona_name : option string) (e : MarketMakerEngine) : MarketMakerEngine :=
  match parse_symbol symbol with
  | Err _ => e
  | Ok parsed =>
      let iv := v ← iv; if f64_is_finite v && f64_ltb 0 v then Some v else None in
      let underlying := ps_underlying parsed in
      let instrument :=
        {| in_symbol := symbol; in_underlying := underlying;
           in_expiration := ps_expiration parsed;
           in_strike_cents := saturating_mul u64 (ps_strike parsed) 100;
           in_style := ps_option_style parsed; in_iv := iv; in_persona := persona;
           in_persona_name := persona_name |} in
      let registered := default [] (mm_instruments e !! underlying) in
      if existsb (λ i, String.eqb (in_symbol i) symbol) registered
      then set_instruments (<[underlying := registered]> (mm_instruments e)) e
      else set_instruments (<[underlying := registered ++ [instrument]]> (mm_instruments e)) e
  end.
Definition register_instrument (symbol : Symbol) := register_resolved symbol None None None.
Definition register_instrument_with_iv (symbol : Symbol) (iv : option f64) :=
  register_resolved symbol iv None None.
Definition register_instrument_with_persona (symbol : Symbol) (iv : option f64)
    (persona_name : string) (persona : PersonaConfig) :=
  register_resolved symbol iv (Some persona) (Some persona_name).
Definition registered_count (underlying : string) (e : MarketMakerEngine) : nat :=
  length (default [] (mm_instruments e !! underlying)).

(** ** Quoting *)

Definition add_command (symbol : Symbol) (order_id : VenueOrderId) (side : Side) (price : Cents)
    (quantity : Z) : VenueCommand :=
  AddOrder symbol order_id MARKET_MAKER_ACCOUNT MARKET_MAKER_OWNER None side Limit (Some price)
    quantity Gtc StpNone.
Definition cancel_command (symbol : Symbol) (order_id : VenueOrderId) : VenueCommand :=
  CancelOrder symbol order_id MARKET_MAKER_ACCOUNT.

Definition mm_order_id (lineage : LineageId) (seq : Z) : VenueOrderId :=
  lineage +:+ ":MM:" +:+ dec seq.
Definition mint_mm_order_id (e : MarketMakerEngine) : MarketMakerEngine * VenueOrderId :=
  (set_next_order_seq (wrapping u64 (mm_next_order_seq e + 1)) e,
   mm_order_id (mm_lineage e) (mm_next_order_seq e)).

Definition days_to_expiry (now_ms : Z) (expiration : ExpirationDate) : option f64 :=
  match expiration with
  | DateTime expiry_ms =>
      now ← narrow i64 now_ms;
      remaining_ms ← checked_sub i64 expiry_ms now;
      if remaining_ms <=? 0 then None else Some (f64_div (f64_of_Z remaining_ms) MILLIS_PER_DAY)
  | Days days => let value := days_to_f64 days in if f64_ltb 0 value then Some value else None
  end.

(** The quoter and the knobs an instrument quotes with: its persona under the jitter, or the
    engine's own quoter, with the global configuration laid over. *)
Definition quote_basis (e : MarketMakerEngine) (i : QuotableInstrument) :
    Quoter * f64 * f64 * f64 * PersonaJitterDraw :=
  match in_persona i with
  | Some persona =>
      ({| qt_pricer := qt_pricer (mm_quoter e); qt_base_spread_bps := pc_base_spread_bps persona;
          qt_base_size := pc_base_size persona |},
       pc_spread_multiplier persona, pc_size_scalar persona, pc_directional_skew persona,
       jitter_draw (mm_run_seed e) (default "default" (in_persona_name i)) (in_symbol i))
  | None => (mm_quoter e, f64_of_Z 1, f64_of_Z 1, 0, jitter_identity)
  end.

Definition quote_for (e : MarketMakerEngine) (i : QuotableInstrument) (spot_cents : Z)
    (config : MarketMakerConfig) : option QuoteParams :=
  days ← days_to_expiry (mm_venue_now_ms e) (in_expiration i);
  let '(quoter, base_spread_multiplier, base_size_scalar, base_skew, jitter) := quote_basis e i in
  generate_quote quoter
    {| qi_spot_cents := spot_cents; qi_strike_cents := in_strike_cents i;
       qi_days_to_expiry := days; qi_style := in_style i;
       qi_spread_multiplier :=
         f64_clamp (f64_mul base_spread_multiplier (mc_spread_multiplier config))
           SPREAD_MULTIPLIER_MIN SPREAD_MULTIPLIER_MAX;
       qi_size_scalar :=
         f64_clamp (f64_mul (f64_mul base_size_scalar (mc_size_scalar config))
                      (jd_size_factor jitter)) 0 (f64_of_Z 1);
       qi_directional_skew :=
         f64_clamp (f64_add (f64_add base_skew (mc_directional_skew config))
                      (jd_skew_delta jitter)) DIRECTIONAL_SKEW_MIN DIRECTIONAL_SKEW_MAX;
       qi_iv := in_iv i |}.

Definition style_label (style : OptionStyle) : string :=
  match style with Call => "call" | Put => "put" end.

Definition update_quote (i : QuotableInstrument) (spot_cents : Z) (config : MarketMakerConfig)
    (e : MarketMakerEngine) : MarketMakerEngine :=
  match quote_for e i spot_cents config with
  | None => e
  | Some params =>
      let symbol := in_symbol i in
      let prior := default (None, None) (mm_legs e !! symbol) in
      let resting := foldl (λ r id, delete id r) (mm_resting e) (leg_ids prior) in
      let '(e, bid_id) := mint_mm_order_id e in
      let '(e, ask_id) := mint_mm_order_id e in
      let quote is_buy quantity :=
        {| rq_underlying := in_underlying i; rq_symbol := symbol; rq_is_buy := is_buy;
           rq_theo_cents := qp_theo_price params; rq_quantity := quantity |} in
      let resting := <[ask_id := quote false (qp_ask_size params)]>
                       (<[bid_id := quote true (qp_bid_size params)]> resting) in
      let e := set_tracked (<[symbol := (Some bid_id, Some ask_id)]> (mm_legs e)) resting e in
      let e := enqueue ((cancel_command symbol <$> leg_ids prior) ++
                        [add_command symbol bid_id Buy (qp_bid_price params) (qp_bid_size params);
                         add_command symbol ask_id Sell (qp_ask_price params) (qp_ask_size params)])
                 e in
      broadcast (QuoteUpdated symbol (in_strike_cents i) (style_label (in_style i))
                   (qp_bid_price params) (qp_ask_price params) (qp_bid_size params)
                   (qp_ask_size params)) e
  end.

Definition requote_symbol (underlying : string) (e : MarketMakerEngine) : MarketMakerEngine :=
  match mm_prices e !! underlying with
  | None => e
  | Some price_cents =>
      let config := mm_config e in
      foldl (λ e i, update_quote i price_cents config e) e
        (default [] (mm_instruments e !! underlying))
  end.

Definition is_symbol_enabled (underlying : string) (e : MarketMakerEngine) : bool :=
  default true (mc_symbol_enabled (mm_config e) !! underlying).

(** The underlyings are visited in the iteration order of the price map, [underlyings]. *)
Definition requote_all (underlyings : list string) (e : MarketMakerEngine) : MarketMakerEngine :=
  if negb (mc_enabled (mm_config e)) then e
  else foldl (λ e u, if is_symbol_enabled u e then requote_symbol u e else e) e underlyings.

Definition update_price (underlying : string) (price_cents : Z) (e : MarketMakerEngine) :
    MarketMakerEngine :=
  let e := broadcast (PriceUpdated underlying price_cents)
             (set_prices (<[underlying := price_cents]> (mm_prices e)) e) in
  if mm_muted e then e
  else if mc_enabled (mm_config e) && is_symbol_enabled underlying e
  then requote_symbol underlying e else e.

Definition seed_reference_price (underlying : string) (price_cents : Z) (e : MarketMakerEngine) :
    MarketMakerEngine :=
  broadcast (PriceUpdated underlying price_cents)
    (set_prices (<[underlying := price_cents]> (mm_prices e)) e).

(** ** Cancels and fills *)

Definition cancel_orders (orders : list (VenueOrderId * RestingQuote)) (e : MarketMakerEngine) :
    MarketMakerEngine :=
  enqueue ((λ o, cancel_command (rq_symbol o.2) o.1) <$> orders) e.

Definition cancel_all_orders (e : MarketMakerEngine) : MarketMakerEngine :=
  let orders := sort_by_key String.leb fst (map_to_list (mm_resting e)) in
  cancel_orders orders (set_tracked ∅ ∅ e).

Definition cancel_symbol_orders (underlying : string) (e : MarketMakerEngine) :
    MarketMakerEngine :=
  let orders := sort_by_key String.leb fst
    (filter (λ o, rq_underlying o.2 = underlying) (map_to_list (mm_resting e))) in
  cancel_orders orders
    (set_tracked (foldl (λ l o, delete (rq_symbol o.2) l) (mm_legs e) orders)
       (foldl (λ r o, delete o.1 r) (mm_resting e) orders) e).

(** The slots of an instrument after its order [id] is gone. *)
Definition clear_slot (is_buy : bool) (id : VenueOrderId) (s : LegSlots) : option LegSlots :=
  let s := if bool_decide (leg_slot is_buy s = Some id) then set_leg_slot is_buy None s else s in
  if bool_decide (s = (None, None)) then None else Some s.

Definition on_order_filled (order_id : VenueOrderId) (execution_id : option ExecutionId)
    (fill_price_cents quantity : Z) (e : MarketMakerEngine) : MarketMakerEngine :=
  if quantity =? 0 then e
  else
    match mm_resting e !! order_id with
    | None => e
    | Some quote =>
        let remaining := rq_quantity quote in
        let '(quote, e) :=
          if remaining <=? quantity then
            (quote, set_tracked
                      (match mm_legs e !! rq_symbol quote with
                       | Some slots => partial_alter (λ _, clear_slot (rq_is_buy quote) order_id slots)
                                         (rq_symbol quote) (mm_legs e)
                       | None => mm_legs e
                       end)
                      (delete order_id (mm_resting e)) e)
          else
            let quote := with_quantity (remaining - quantity) quote in
            (quote, set_tracked (mm_legs e) (<[order_id := quote]> (mm_resting e)) e) in
        broadcast
          (OrderFilled order_id execution_id (rq_symbol quote)
             (if rq_is_buy quote then "buy" else "sell") (Z.min quantity remaining)
             fill_price_cents (calculate_edge fill_price_cents (rq_theo_cents quote) (rq_is_buy quote)))
          e
    end.

(** ** Controls *)

Definition broadcast_config_change (e : MarketMakerEngine) : MarketMakerEngine :=
  let c := mm_config e in
  broadcast (ConfigChanged (mc_enabled c) (mc_spread_multiplier c) (mc_size_scalar c)
               (mc_directional_skew c)) e.

Definition with_enabled (b : bool) (c : MarketMakerConfig) : MarketMakerConfig :=
  {| mc_enabled := b; mc_spread_multiplier := mc_spread_multiplier c;
     mc_size_scalar := mc_size_scalar c; mc_directional_skew := mc_directional_skew c;
     mc_symbol_enabled := mc_symbol_enabled c |}.
Definition with_spread_multiplier (x : f64) (c : MarketMakerConfig) : MarketMakerConfig :=
  {| mc_enabled := mc_enabled c; mc_spread_multiplier := x; mc_size_scalar := mc_size_scalar c;
     mc_directional_skew := mc_directional_skew c; mc_symbol_enabled := mc_symbol_enabled c |}.
Definition with_size_scalar (x : f64) (c : MarketMakerConfig) : MarketMakerConfig :=
  {| mc_enabled := mc_enabled c; mc_spread_multiplier := mc_spread_multiplier c;
     mc_size_scalar := x; mc_directional_skew := mc_directional_skew c;
     mc_symbol_enabled := mc_symbol_enabled c |}.
Definition with_directional_skew (x : f64) (c : MarketMakerConfig) : MarketMakerConfig :=
  {| mc_enabled := mc_enabled c; mc_spread_multiplier := mc_spread_multiplier c;
     mc_size_scalar := mc_size_scalar c; mc_directional_skew := x;
     mc_symbol_enabled := mc_symbol_enabled c |}.
Definition with_symbol_enabled (u : string) (b : bool) (c : MarketMakerConfig) :
    MarketMakerConfig :=
  {| mc_enabled := mc_enabled c; mc_spread_multiplier := mc_spread_multiplier c;
     mc_size_scalar := mc_size_scalar c; mc_directional_skew := mc_directional_skew c;
     mc_symbol_enabled := <[u := b]> (mc_symbol_enabled c) |}.

Definition set_enabled (enabled : bool) (e : MarketMakerEngine) : MarketMakerEngine :=
  let e := set_config (with_enabled enabled (mm_config e)) e in
  let e := if enabled then e else cancel_all_orders e in
  broadcast_config_change e.

Definition set_symbol_enabled (underlying : string) (enabled : bool) (e : MarketMakerEngine) :
    MarketMakerEngine :=
  let e := set_config (with_symbol_enabled underlying enabled (mm_config e)) e in
  if enabled then e else cancel_symbol_orders underlying e.

(** A live knob: refused out of range, else written, announced and quoted with. *)
Definition set_knob (field : string) (min max : f64) (write : f64 → MarketMakerConfig → MarketMakerConfig)
    (underlyings : list string) (value : f64) (e : MarketMakerEngine) :
    MarketMakerEngine * result string unit :=
  match validate_control_value field value min max with
  | Err error => (e, Err error)
  | Ok value =>
      (requote_all underlyings
         (broadcast_config_change (set_config (write value (mm_config e)) e)), Ok tt)
  end.
Definition set_spread_multiplier :=
  set_knob "spread_multiplier" SPREAD_MULTIPLIER_MIN SPREAD_MULTIPLIER_MAX with_spread_multiplier.
Definition set_size_scalar :=
  set_knob "size_scalar" SIZE_SCALAR_MIN SIZE_SCALAR_MAX with_size_scalar.
Definition set_directional_skew :=
  set_knob "directional_skew" DIRECTIONAL_SKEW_MIN DIRECTIONAL_SKEW_MAX with_directional_skew.

(** A sequenced knob: written when in range and different. *)
Definition apply_knob (field : string) (min max : f64) (read : MarketMakerConfig → f64)
    (write : f64 → MarketMakerConfig → MarketMakerConfig) (value : option f64)
    (c : MarketMakerConfig * bool) : MarketMakerConfig * bool :=
  match value with
  | None => c
  | Some value =>
      match validate_control_value field value min max with
      | Ok valid => if negb (f64_eqb (read c.1) valid) then (write valid c.1, true) else c
      | Err _ => c
      end
  end.

Definition apply_sequenced_control (knobs : MarketMakerControlKnobs) (e : MarketMakerEngine) :
    MarketMakerEngine :=
  let c := (mm_config e, false) in
  let c := apply_knob "spread_multiplier" SPREAD_MULTIPLIER_MIN SPREAD_MULTIPLIER_MAX
             mc_spread_multiplier with_spread_multiplier (knob_spread_multiplier knobs) c in
  let c := apply_knob "size_scalar" SIZE_SCALAR_MIN SIZE_SCALAR_MAX mc_size_scalar
             with_size_scalar (knob_size_scalar knobs) c in
  let c := apply_knob "directional_skew" DIRECTIONAL_SKEW_MIN DIRECTIONAL_SKEW_MAX
             mc_directional_skew with_directional_skew (knob_directional_skew knobs) c in
  let c :=
    match knob_enabled knobs with
    | Some enabled =>
        if bool_decide (mc_enabled c.1 = enabled) then c else (with_enabled enabled c.1, true)
    | None => c
    end in
  let e := set_config c.1 e in
  if c.2 then broadcast_config_change e else e.

(** ** Recovery *)

Definition restore_leg (e : MarketMakerEngine) (leg : RecoveredMmLeg) : MarketMakerEngine :=
  set_tracked
    (<[rm_symbol leg := set_leg_slot (rm_is_buy leg) (Some (rm_order_id leg))
                          (default (None, None) (mm_legs e !! rm_symbol leg))]> (mm_legs e))
    (<[rm_order_id leg :=
         {| rq_underlying := rm_underlying leg; rq_symbol := rm_symbol leg;
            rq_is_buy := rm_is_buy leg; rq_theo_cents := rm_price_cents leg;
            rq_quantity := rm_quantity leg |}]> (mm_resting e)) e.
Definition restore_recovered_producer (legs : list RecoveredMmLeg) (next_seq_floor : Z)
    (e : MarketMakerEngine) : MarketMakerEngine :=
  let e := foldl restore_leg e legs in
  set_next_order_seq (Z.max (mm_next_order_seq e) next_seq_floor) e.
End engine.

(** ** The sink ([sink.rs]) and the control hub ([control_hub.rs]) *)

Definition DEFAULT_SINK_CAPACITY : Z := 4_096.

(** A bounded queue that drops what does not fit, or comes after it is closed. *)
Record CommandSink := { cs_capacity : Z; cs_open : bool; cs_queue : list VenueCommand }.
Definition sink_with_capacity (capacity : Z) : CommandSink :=
  {| cs_capacity := Z.max capacity 1; cs_open := true; cs_queue := [] |}.
Definition sink_enqueue (command : VenueCommand) (s : CommandSink) : CommandSink :=
  if cs_open s && (Z.of_nat (length (cs_queue s)) <? cs_capacity s)
  then {| cs_capacity := cs_capacity s; cs_open := true; cs_queue := cs_queue s ++ [command] |}
  else s.

Section forwarder.
Context `{Upstream}.

Definition routable_underlying (command : VenueCommand) : option string :=
  match command with
  | AddOrder symbol _ _ _ _ _ _ _ _ _ _ | CancelOrder symbol _ _
  | Replace symbol _ _ _ _ _ _ _ _ _ _ =>
      match parse_symbol symbol with Ok parsed => Some (ps_underlying parsed) | Err _ => None end
  | _ => None
  end.

(** The actor a command of the queue is submitted to, if it is. *)
Definition forward_to (hosted : list string) (config : MicrostructureConfig)
    (command : VenueCommand) : option string :=
  underlying ← routable_underlying command;
  if existsb (String.eqb underlying) hosted && is_ok (check_price_band config command)
  then Some underlying else None.
End forwarder.

(** The hub hands controls to the engine first bound to it. *)
Definition hub_bind {E} (engine : E) (hub : option E) : option E :=
  match hub with Some bound => Some bound | None => Some engine end.
Definition hub_apply_control `{Upstream} `{PricingLib} (knobs : MarketMakerControlKnobs)
    (hub : option MarketMakerEngine) : option MarketMakerEngine :=
  apply_sequenced_control knobs <$> hub.
