(* ===== verification/MarketMakerProps.v ===== *)
(** The market maker accounts for its orders: whatever it placed is tracked, cancelled or
    filled, and its quotes do not cross; then a maker at work, and the theoretical value at the
    edge of the signed range, past which its cents wrap. *)

From S2P Require Export MarketMaker Envelope.
From S2P Require Import SampleBook.

Definition added (cs : list VenueCommand) : list VenueOrderId :=
  omap (λ c, match c with AddOrder _ id _ _ _ _ _ _ _ _ _ => Some id | _ => None end) cs.
Definition cancelled (cs : list VenueCommand) : list VenueOrderId :=
  omap (λ c, match c with CancelOrder _ id _ => Some id | _ => None end) cs.

Definition tracked (r : gmap VenueOrderId RestingQuote) : list VenueOrderId :=
  (map_to_list r).*1.

Lemma tracked_insert r id q : r !! id = None → tracked (<[id := q]> r) ≡ₚ id :: tracked r.
Proof. intros Hr. unfold tracked. by rewrite map_to_list_insert. Qed.
Lemma tracked_delete r id q : r !! id = Some q → tracked r ≡ₚ id :: tracked (delete id r).
Proof. intros Hr. unfold tracked. by rewrite <-(map_to_list_delete r id q). Qed.
Lemma tracked_update r id q q' : r !! id = Some q → tracked (<[id := q']> r) ≡ₚ tracked r.
Proof.
  intros Hr. rewrite (tracked_delete r id q) by done.
  rewrite <-insert_delete_eq. apply tracked_insert, lookup_delete_eq.
Qed.
Lemma elem_of_tracked r id : id ∈ tracked r ↔ is_Some (r !! id).
Proof.
  unfold tracked. rewrite list_elem_of_fmap. split.
  - intros ([i q] & -> & Hin%elem_of_map_to_list). by exists q.
  - intros [q Hq]. exists (id, q). by rewrite elem_of_map_to_list.
Qed.

Section props.
Context `{Upstream} `{PricingLib}.

(** ** The tracking invariant *)

(** The order ids the engine knows are, each once, tracked, cancelled or filled; the two maps
    name the same orders, at most one on each side of an instrument. *)
Record tracking (known filled : list VenueOrderId) (e : MarketMakerEngine) : Prop := {
  tk_once : NoDup known;
  tk_accounted : known ≡ₚ tracked (mm_resting e) ++ cancelled (mm_sent e) ++ filled;
  tk_legs : ∀ sym s b id, mm_legs e !! sym = Some s → leg_slot b s = Some id →
    ∃ q, mm_resting e !! id = Some q ∧ rq_symbol q = sym ∧ rq_is_buy q = b;
  tk_resting : ∀ id q, mm_resting e !! id = Some q →
    ∃ s, mm_legs e !! rq_symbol q = Some s ∧ leg_slot (rq_is_buy q) s = Some id;
  tk_underlying : ∀ id q, mm_resting e !! id = Some q →
    ∃ parsed, parse_symbol (rq_symbol q) = Ok parsed ∧ ps_underlying parsed = rq_underlying q;
}.

Definition instrument_ok (i : QuotableInstrument) : Prop :=
  ∃ parsed, parse_symbol (in_symbol i) = Ok parsed ∧ ps_underlying parsed = in_underlying i.
Definition instruments_ok (e : MarketMakerEngine) : Prop :=
  ∀ u l i, mm_instruments e !! u = Some l → i ∈ l → instrument_ok i.

(** The known ids were minted in this lineage below the counter, or recovered from it. *)
Definition minted_below (lineage : LineageId) (n : Z) (id : VenueOrderId) : Prop :=
  ∃ k, id = mm_order_id lineage k ∧ 0 ≤ k < n.

Lemma mm_order_id_inj lineage a b :
  0 ≤ a < 2 ^ 64 → 0 ≤ b < 2 ^ 64 → mm_order_id lineage a = mm_order_id lineage b → a = b.
Proof.
  intros ? ? E. unfold mm_order_id in E. apply append_cancel_l, append_cancel_l in E.
  apply dec_inj in E; lia.
Qed.

Lemma tracking_fresh known filled e id :
  tracking known filled e → id ∉ known → mm_resting e !! id = None.
Proof.
  intros Ht Hid. apply eq_None_not_Some. intros Hs. apply Hid.
  rewrite (tk_accounted _ _ _ Ht), elem_of_app, elem_of_tracked. by left.
Qed.

Lemma leg_ids_slot s id : id ∈ leg_ids s ↔ ∃ b, leg_slot b s = Some id.
Proof.
  assert (∀ o : option VenueOrderId, id ∈ option_list o ↔ o = Some id) as Ho.
  { intros [x|]; cbn; [rewrite list_elem_of_singleton|rewrite elem_of_nil]; naive_solver. }
  unfold leg_ids. rewrite elem_of_app, !Ho. split.
  - intros [E|E]; [by exists true|by exists false].
  - intros ([] & E); [by left|by right].
Qed.

(** *** Adding a leg *)

Definition add_leg (sym : Symbol) (id : VenueOrderId) (q : RestingQuote) (e : MarketMakerEngine) :
    MarketMakerEngine :=
  set_tracked
    (<[sym := set_leg_slot (rq_is_buy q) (Some id) (default (None, None) (mm_legs e !! sym))]>
       (mm_legs e)) (<[id := q]> (mm_resting e)) e.

Lemma slot_set b b' id s :
  leg_slot b (set_leg_slot b' id s) = if bool_decide (b = b') then id else leg_slot b s.
Proof. by destruct b, b'. Qed.

Lemma add_leg_tracking known filled e sym id q :
  tracking known filled e → id ∉ known → rq_symbol q = sym →
  leg_slot (rq_is_buy q) (default (None, None) (mm_legs e !! sym)) = None →
  (∃ parsed, parse_symbol sym = Ok parsed ∧ ps_underlying parsed = rq_underlying q) →
  tracking (known ++ [id]) filled (add_leg sym id q e).
Proof.
  intros Ht Hid Hsym Hfree Hu. pose proof (tracking_fresh _ _ _ _ Ht Hid) as Hnone.
  split; cbn [mm_legs mm_resting mm_sent add_leg set_tracked].
  - apply NoDup_app. split; [apply Ht|]. split; [|apply NoDup_singleton].
    intros x Hx ->%list_elem_of_singleton. done.
  - rewrite tracked_insert by done. rewrite (tk_accounted _ _ _ Ht). by rewrite (Permutation_app_comm _ [id]).
  - intros sym' s b id' Hl Hs. destruct (decide (sym' = sym)) as [->|Hne].
    + rewrite lookup_insert_eq in Hl. injection Hl as <-. rewrite slot_set in Hs.
      case_bool_decide as Hb.
      * injection Hs as <-. exists q. by rewrite lookup_insert_eq.
      * destruct (mm_legs e !! sym) as [s|] eqn:E; [|by destruct b].
        destruct (tk_legs _ _ _ Ht _ _ _ _ E Hs) as (q' & Hq' & ? & ?). exists q'.
        rewrite lookup_insert_ne by congruence. done.
    + rewrite lookup_insert_ne in Hl by done.
      destruct (tk_legs _ _ _ Ht _ _ _ _ Hl Hs) as (q' & Hq' & ? & ?). exists q'.
      rewrite lookup_insert_ne by congruence. done.
  - intros id' q' Hq'. destruct (decide (id' = id)) as [->|Hne].
    + rewrite lookup_insert_eq in Hq'. injection Hq' as <-. rewrite Hsym, lookup_insert_eq.
      eexists. split; [done|]. by rewrite slot_set, bool_decide_eq_true_2.
    + rewrite lookup_insert_ne in Hq' by done.
      destruct (tk_resting _ _ _ Ht _ _ Hq') as (s & Hl & Hs).
      destruct (decide (rq_symbol q' = sym)) as [E|]; [|rewrite lookup_insert_ne by done; by eexists].
      rewrite E in Hl |- *. rewrite lookup_insert_eq. eexists. split; [done|]. rewrite slot_set.
      rewrite Hl in Hfree |- *. case_bool_decide as Hb; [|done].
      rewrite Hb in Hs. cbn in Hfree. congruence.
  - intros id' q' Hq'. destruct (decide (id' = id)) as [->|Hne].
    + rewrite lookup_insert_eq in Hq'. injection Hq' as <-. by rewrite Hsym.
    + rewrite lookup_insert_ne in Hq' by done. by eapply tk_underlying.
Qed.

(** *** Dropping legs *)

Definition delete_ids (ids : list VenueOrderId) (r : gmap VenueOrderId RestingQuote) :
    gmap VenueOrderId RestingQuote := foldl (λ r id, delete id r) r ids.

Lemma delete_ids_lookup ids r id :
  delete_ids ids r !! id = if decide (id ∈ ids) then None else r !! id.
Proof.
  revert r. induction ids as [|x ids IH]; intros r; cbn [delete_ids foldl].
  { by destruct (decide (id ∈ [])) as [?%elem_of_nil|]. }
  change (foldl _ (delete x r) ids) with (delete_ids ids (delete x r)). rewrite IH.
  destruct (decide (id ∈ ids)), (decide (id ∈ x :: ids)) as [Hin|Hin];
    try (by exfalso; apply Hin; apply elem_of_cons; right); try done.
  - apply elem_of_cons in Hin as [->|?]; [|done]. apply lookup_delete_eq.
  - rewrite lookup_delete_ne; [done|]. intros ->. apply Hin, elem_of_cons. by left.
Qed.

Lemma delete_ids_tracked ids r :
  NoDup ids → (∀ id, id ∈ ids → is_Some (r !! id)) → tracked r ≡ₚ ids ++ tracked (delete_ids ids r).
Proof.
  intros Hn. revert r. induction Hn as [|x ids Hx Hn IH]; intros r Hr; [done|].
  destruct (Hr x) as [q Hq]; [apply elem_of_cons; by left|].
  rewrite (tracked_delete r x q Hq). cbn [app delete_ids foldl]. constructor. apply IH.
  intros id Hid. rewrite lookup_delete_ne by congruence. apply Hr, elem_of_cons. by right.
Qed.

Lemma drop_tracking known filled filled' ids e e' :
  tracking known filled e → NoDup ids → (∀ id, id ∈ ids → is_Some (mm_resting e !! id)) →
  mm_resting e' = delete_ids ids (mm_resting e) →
  cancelled (mm_sent e') ++ filled' ≡ₚ ids ++ cancelled (mm_sent e) ++ filled →
  (∀ sym s' b id, mm_legs e' !! sym = Some s' → leg_slot b s' = Some id →
     id ∉ ids ∧ ∃ s, mm_legs e !! sym = Some s ∧ leg_slot b s = Some id) →
  (∀ sym s b id, mm_legs e !! sym = Some s → leg_slot b s = Some id → id ∉ ids →
     ∃ s', mm_legs e' !! sym = Some s' ∧ leg_slot b s' = Some id) →
  tracking known filled' e'.
Proof.
  intros Ht Hn Hr E Hc Hl1 Hl2.
  assert (∀ id, mm_resting e' !! id = if decide (id ∈ ids) then None else mm_resting e !! id) as Hlook
    by (intros id; rewrite E; apply delete_ids_lookup).
  split.
  - apply Ht.
  - rewrite (tk_accounted _ _ _ Ht), (delete_ids_tracked ids) by done. rewrite <-E, Hc.
    rewrite !(assoc_L (++)). by rewrite (Permutation_app_comm ids).
  - intros sym s' b id Hl Hs. destruct (Hl1 _ _ _ _ Hl Hs) as (Hid & s & Hl' & Hs').
    rewrite Hlook, decide_False by done. by eapply tk_legs.
  - intros id q Hq. rewrite Hlook in Hq. destruct (decide (id ∈ ids)); [done|].
    destruct (tk_resting _ _ _ Ht _ _ Hq) as (s & Hl & Hs). by eapply Hl2.
  - intros id q Hq. rewrite Hlook in Hq. destruct (decide (id ∈ ids)); [done|]. by eapply tk_underlying.
Qed.

Lemma cancelled_cancels {X} (f : X → Symbol) (g : X → VenueOrderId) l :
  cancelled ((λ x, cancel_command (f x) (g x)) <$> l) = g <$> l.
Proof. induction l as [|x l IH]; [done|]. cbn. f_equal. apply IH. Qed.
Lemma cancelled_app l k : cancelled (l ++ k) = cancelled l ++ cancelled k.
Proof. apply omap_app. Qed.
Lemma added_app l k : added (l ++ k) = added l ++ added k.
Proof. apply omap_app. Qed.

Lemma leg_ids_nodup known filled e sym :
  tracking known filled e → NoDup (leg_ids (default (None, None) (mm_legs e !! sym))).
Proof.
  intros Ht. destruct (mm_legs e !! sym) as [[[b|] [a|]]|] eqn:E; cbn;
    [|apply NoDup_singleton|apply NoDup_singleton|apply NoDup_nil_2|apply NoDup_nil_2].
  apply NoDup_cons. split; [|apply NoDup_singleton]. intros ->%list_elem_of_singleton.
  destruct (tk_legs _ _ _ Ht sym _ true _ E eq_refl) as (q & Hq & _ & Hb).
  destruct (tk_legs _ _ _ Ht sym _ false _ E eq_refl) as (q' & Hq' & _ & Hb'). congruence.
Qed.

(** The legs of an instrument, taken back. *)
Definition retire (sym : Symbol) (e : MarketMakerEngine) : MarketMakerEngine :=
  let prior := leg_ids (default (None, None) (mm_legs e !! sym)) in
  enqueue (cancel_command sym <$> prior)
    (set_tracked (delete sym (mm_legs e)) (delete_ids prior (mm_resting e)) e).

Lemma retire_tracking known filled e sym :
  tracking known filled e → tracking known filled (retire sym e).
Proof.
  intros Ht. set (prior := leg_ids (default (None, None) (mm_legs e !! sym))).
  assert (∀ id, id ∈ prior ↔ ∃ s b, mm_legs e !! sym = Some s ∧ leg_slot b s = Some id) as Hprior.
  { intros id. unfold prior. rewrite leg_ids_slot. destruct (mm_legs e !! sym) as [s|]; cbn.
    - naive_solver.
    - split; [intros [[] ?]; done|naive_solver]. }
  apply (drop_tracking _ filled _ prior e); cbn [mm_legs mm_resting mm_sent retire enqueue set_tracked].
  - done.
  - by eapply leg_ids_nodup.
  - intros id (s & b & Hl & Hs)%Hprior. destruct (tk_legs _ _ _ Ht _ _ _ _ Hl Hs) as (q & -> & _). by eexists.
  - done.
  - rewrite cancelled_app, (cancelled_cancels (λ _, sym) (λ x, x)), list_fmap_id. fold prior.
    by rewrite (Permutation_app_comm _ prior), (assoc_L (++)).
  - intros sym' s b id Hl Hs. apply lookup_delete_Some in Hl as [Hne Hl]. split; [|by eexists].
    intros (s' & b' & Hl' & Hs')%Hprior.
    destruct (tk_legs _ _ _ Ht _ _ _ _ Hl Hs) as (q & Hq & Hsy & _).
    destruct (tk_legs _ _ _ Ht _ _ _ _ Hl' Hs') as (q' & Hq' & Hsy' & _). congruence.
  - intros sym' s b id Hl Hs Hid. exists s. split; [|done]. rewrite lookup_delete_ne; [done|].
    intros ->. apply Hid, Hprior. eauto.
Qed.

(** ** The engine's invariant *)

Section run.
Context (base : Z) (recovered : list VenueOrderId).

Definition known (e : MarketMakerEngine) : list VenueOrderId := recovered ++ added (mm_sent e).
Definition minted_count (e : MarketMakerEngine) : Z := base + Z.of_nat (length (added (mm_sent e))).

(** The order counter is a 64-bit one; nothing is said once it has gone round. *)
Record maker_inv (filled : list VenueOrderId) (e : MarketMakerEngine) : Prop := {
  mi_tracking : tracking (known e) filled e;
  mi_minted : Forall (minted_below (mm_lineage e) (mm_next_order_seq e)) (known e);
  mi_next : mm_next_order_seq e = minted_count e;
}.
Definition maker_ok (filled : list VenueOrderId) (e : MarketMakerEngine) : Prop :=
  0 ≤ base ∧ instruments_ok e ∧ (minted_count e < 2 ^ 64 → maker_inv filled e).

Lemma tracking_ext ids filled e e' :
  mm_legs e' = mm_legs e → mm_resting e' = mm_resting e →
  cancelled (mm_sent e') = cancelled (mm_sent e) → tracking ids filled e → tracking ids filled e'.
Proof. intros E1 E2 E3 []. split; rewrite ?E1, ?E2, ?E3; done. Qed.

(** Calls that leave orders, counter and instruments alone. *)
Lemma maker_ok_same filled e e' :
  mm_legs e' = mm_legs e → mm_resting e' = mm_resting e → mm_sent e' = mm_sent e →
  mm_next_order_seq e' = mm_next_order_seq e → mm_lineage e' = mm_lineage e →
  mm_instruments e' = mm_instruments e → maker_ok filled e → maker_ok filled e'.
Proof.
  intros E1 E2 E3 E4 E5 E6 (Hb & Hi & Hinv). unfold maker_ok, minted_count, instruments_ok in *.
  rewrite E3, E6. split; [done|]. split; [done|]. intros Hlt. destruct (Hinv Hlt) as [Ht Hm Hn].
  split; unfold known, minted_count in *; rewrite ?E3, ?E4, ?E5; try done.
  by eapply tracking_ext; [..|rewrite E3|].
Qed.

Lemma minted_below_mono lineage n n' id :
  n ≤ n' → minted_below lineage n id → minted_below lineage n' id.
Proof. intros Hn (k & -> & ?). exists k. split; [done|lia]. Qed.

Lemma minted_fresh lineage n ids k :
  Forall (minted_below lineage n) ids → n ≤ k < 2 ^ 64 → mm_order_id lineage k ∉ ids.
Proof.
  intros Hall Hk Hin. apply (proj1 (Forall_forall _ _) Hall) in Hin as (j & E & Hj).
  apply mm_order_id_inj in E; lia.
Qed.

Lemma update_quote_ok filled i spot config e :
  instrument_ok i → maker_ok filled e → maker_ok filled (update_quote i spot config e).
Proof.
  intros Hi (Hb & Hins & Hinv). unfold update_quote.
  destruct (quote_for e i spot config) as [params|]; [|done]. cbv zeta. cbn [mint_mm_order_id].
  set (e' := broadcast _ _). set (prior := leg_ids (default (None, None) (mm_legs e !! in_symbol i))). set (n := mm_next_order_seq e).
  set (n1 := wrapping u64 (n + 1)).
  assert (added (mm_sent e') = added (mm_sent e) ++ [mm_order_id (mm_lineage e) n; mm_order_id (mm_lineage e) n1])
    as Hadded.
  { cbn. rewrite added_app. f_equal. unfold added. rewrite omap_app.
    replace (omap _ (cancel_command (in_symbol i) <$> prior)) with (@nil VenueOrderId); [done|].
    clear. by induction prior. }
  split; [done|]. split; [exact Hins|]. intros Hlt. unfold minted_count in Hlt. rewrite Hadded in Hlt.
  rewrite length_app in Hlt. cbn [length] in Hlt.
  destruct Hinv as [Ht Hm Hn]; [unfold minted_count; lia|]. unfold minted_count in Hn. fold n in Hn.
  assert (n1 = n + 1) as En1.
  { unfold n1, wrapping. apply Z.mod_small. change (int_max u64 + 1) with (2 ^ 64). lia. }
  fold n in Hm. set (bid := mm_order_id (mm_lineage e) n) in *. set (ask := mm_order_id (mm_lineage e) n1) in *.
  assert (bid ∉ known e) as Hbid by (eapply minted_fresh; [done|lia]).
  assert (ask ∉ known e ++ [bid]) as Hask.
  { apply (minted_fresh (mm_lineage e) n1); [|lia]. apply Forall_app. split.
    - eapply Forall_impl; [done|]. intros id. apply minted_below_mono. lia.
    - repeat constructor. exists n. split; [done|lia]. }
  assert (known e' = (known e ++ [bid]) ++ [ask]) as Hknown.
  { unfold known. rewrite Hadded. by rewrite <-!(assoc_L (++)). }
  split.
  - rewrite Hknown. destruct Hi as (parsed & Hp & Hu).
    pose proof (retire_tracking _ _ _ (in_symbol i) Ht) as Hr.
    set (quote := λ (is_buy : bool) quantity, {| rq_underlying := in_underlying i;
      rq_symbol := in_symbol i; rq_is_buy := is_buy; rq_theo_cents := qp_theo_price params;
      rq_quantity := quantity |}) in *.
    apply (add_leg_tracking _ _ _ (in_symbol i) bid (quote true (qp_bid_size params))) in Hr;
      [|done|done|cbn; by rewrite lookup_delete_eq|by exists parsed].
    apply (add_leg_tracking _ _ _ (in_symbol i) ask (quote false (qp_ask_size params))) in Hr;
      [|done|done|cbn; by rewrite lookup_insert_eq, lookup_delete_eq|by exists parsed].
    eapply tracking_ext; [| |..|exact Hr].
    + cbn. rewrite lookup_insert_eq, lookup_delete_eq. cbn. by rewrite insert_insert_eq, insert_delete_eq.
    + done.
    + cbn. fold prior. rewrite !cancelled_app. cbn. by rewrite app_nil_r.
  - rewrite Hknown. change (mm_lineage e') with (mm_lineage e).
    change (mm_next_order_seq e') with (wrapping u64 (n1 + 1)).
    assert (wrapping u64 (n1 + 1) = n + 2) as ->.
    { unfold wrapping. change (int_max u64 + 1) with (2 ^ 64). rewrite Z.mod_small; lia. }
    rewrite !Forall_app. split_and!; [|repeat constructor..].
    + eapply Forall_impl; [done|]. intros id. apply minted_below_mono. lia.
    + exists n. split; [done|lia].
    + exists n1. split; [done|lia].
  - change (mm_next_order_seq e') with (wrapping u64 (n1 + 1)). unfold minted_count. rewrite Hadded, length_app.
    cbn [length]. unfold wrapping. change (int_max u64 + 1) with (2 ^ 64). rewrite Z.mod_small; lia.
Qed.

Lemma orders_sorted_perm l : sort_by_key String.leb fst l ≡ₚ (l : list (VenueOrderId * RestingQuote)).
Proof. apply sort_by_key_perm. Qed.

Lemma added_cancels orders :
  added ((λ o : VenueOrderId * RestingQuote, cancel_command (rq_symbol o.2) o.1) <$> orders) = [].
Proof. by induction orders. Qed.

(** Taking back a set of orders, with the legs that name them. *)
Lemma cancel_orders_ok filled orders legs e :
  let ids := orders.*1 in
  NoDup ids → (∀ o, o ∈ orders → mm_resting e !! o.1 = Some o.2) →
  (∀ sym s' b id, legs !! sym = Some s' → leg_slot b s' = Some id →
     id ∉ ids ∧ ∃ s, mm_legs e !! sym = Some s ∧ leg_slot b s = Some id) →
  (maker_inv filled e → ∀ sym s b id, mm_legs e !! sym = Some s → leg_slot b s = Some id → id ∉ ids →
     ∃ s', legs !! sym = Some s' ∧ leg_slot b s' = Some id) →
  maker_ok filled e →
  maker_ok filled (cancel_orders orders (set_tracked legs (delete_ids ids (mm_resting e)) e)).
Proof.
  intros ids Hn Hr Hl1 Hl2 (Hb & Hins & Hinv).
  assert (added (mm_sent (cancel_orders orders (set_tracked legs (delete_ids ids (mm_resting e)) e))) =
    added (mm_sent e)) as Hadded.
  { cbn. by rewrite added_app, added_cancels, app_nil_r. }
  split; [done|]. split; [exact Hins|]. unfold minted_count. rewrite Hadded. intros Hlt.
  specialize (Hinv Hlt). pose proof Hinv as [Ht Hm Hnx].
  split; unfold known, minted_count in *; rewrite ?Hadded; [|exact Hm|exact Hnx].
  eapply (drop_tracking _ filled filled ids e); try done.
  - intros id Hid. unfold ids in Hid. apply list_elem_of_fmap in Hid as (o & -> & Ho).
    rewrite (Hr o Ho). by eexists.
  - cbn. rewrite cancelled_app, (cancelled_cancels (λ o, rq_symbol o.2) fst). fold ids.
    by rewrite (Permutation_app_comm _ ids), (assoc_L (++)).
  - by apply Hl2.
Qed.

Lemma cancel_all_orders_ok filled e : maker_ok filled e → maker_ok filled (cancel_all_orders e).
Proof.
  intros Hok. set (orders := sort_by_key String.leb fst (map_to_list (mm_resting e))).
  assert (∀ o, o ∈ orders ↔ mm_resting e !! o.1 = Some o.2) as Hin.
  { intros [id q]. unfold orders. rewrite orders_sorted_perm. apply elem_of_map_to_list. }
  assert (delete_ids orders.*1 (mm_resting e) = ∅) as Hempty.
  { apply map_empty. intros id. rewrite delete_ids_lookup. destruct (decide _) as [|Hno]; [done|].
    apply eq_None_not_Some. intros [q Hq]. apply Hno, list_elem_of_fmap. exists (id, q).
    split; [done|]. by apply Hin. }
  unfold cancel_all_orders. fold orders.
  replace (set_tracked ∅ ∅ e) with (set_tracked ∅ (delete_ids orders.*1 (mm_resting e)) e)
    by (by rewrite Hempty).
  apply cancel_orders_ok; try done.
  - unfold orders. rewrite orders_sorted_perm. apply NoDup_fst_map_to_list.
  - intros o. by rewrite Hin.
  - intros Hinv sym s b id Hl Hs Hno. exfalso. apply Hno.
    destruct (tk_legs _ _ _ (mi_tracking _ _ Hinv) _ _ _ _ Hl Hs) as (q & Hq & _).
    apply list_elem_of_fmap. exists (id, q). split; [done|]. by apply Hin.
Qed.

Lemma foldl_delete_symbols (orders : list (VenueOrderId * RestingQuote)) legs sym s :
  foldl (λ l o, delete (rq_symbol o.2) l) legs orders !! sym = Some s ↔
  (legs : gmap Symbol LegSlots) !! sym = Some s ∧ sym ∉ (λ o, rq_symbol o.2) <$> orders.
Proof.
  revert legs. induction orders as [|o orders IH]; intros legs; cbn.
  { rewrite elem_of_nil. naive_solver. }
  rewrite IH, lookup_delete_Some, elem_of_cons. naive_solver.
Qed.

Lemma cancel_symbol_orders_ok filled u e :
  maker_ok filled e → maker_ok filled (cancel_symbol_orders u e).
Proof.
  intros Hok. destruct (Z.lt_ge_cases (minted_count e) (2 ^ 64)) as [Hlt|Hge].
  2: { destruct Hok as (? & ? & _). split_and!; [done..|]. unfold minted_count in *. cbn.
       rewrite added_app, added_cancels, app_nil_r. lia. }
  pose proof (proj2 (proj2 Hok) Hlt) as Hinv. pose proof (mi_tracking _ _ Hinv) as Ht.
  set (orders := sort_by_key String.leb fst
    (filter (λ o, rq_underlying o.2 = u) (map_to_list (mm_resting e)))).
  assert (∀ o, o ∈ orders ↔ rq_underlying o.2 = u ∧ mm_resting e !! o.1 = Some o.2) as Hin.
  { intros [id q]. unfold orders. rewrite orders_sorted_perm, list_elem_of_filter.
    by rewrite elem_of_map_to_list. }
  assert (∀ id q, mm_resting e !! id = Some q →
    (id ∈ orders.*1 ↔ rq_symbol q ∈ (λ o, rq_symbol o.2) <$> orders)) as Hboth.
  { intros id q Hq. rewrite !list_elem_of_fmap. split.
    - intros ([id' q'] & -> & Ho). exists (id', q'). split; [|done]. apply Hin in Ho as [_ Ho]. cbn in *. congruence.
    - intros ([id' q'] & E & Ho). exists (id, q). split; [done|]. apply Hin in Ho as [Hu Ho].
      apply Hin. split; [|done]. cbn in *.
      destruct (tk_underlying _ _ _ Ht _ _ Hq) as (p & Hp & <-).
      destruct (tk_underlying _ _ _ Ht _ _ Ho) as (p' & Hp' & Hu'). congruence. }
  unfold cancel_symbol_orders. fold orders.
  replace (foldl (λ r o, delete o.1 r) (mm_resting e) orders) with (delete_ids orders.*1 (mm_resting e)).
  2: { unfold delete_ids. generalize (mm_resting e). clear. induction orders as [|o orders IH]; intros r; [done|].
       cbn. apply IH. }
  apply cancel_orders_ok; try done.
  - unfold orders. rewrite orders_sorted_perm. eapply sublist_NoDup;
      [apply (NoDup_fst_map_to_list (mm_resting e))|apply fmap_sublist, sublist_filter].
  - intros o [_ Ho]%Hin. done.
  - intros sym s b id [Hl Hsym]%foldl_delete_symbols Hs. split; [|by eexists].
    destruct (tk_legs _ _ _ Ht _ _ _ _ Hl Hs) as (q & Hq & <- & _). by rewrite (Hboth id q Hq).
  - intros _ sym s b id Hl Hs Hno. exists s. split; [|done]. apply foldl_delete_symbols. split; [done|].
    destruct (tk_legs _ _ _ Ht _ _ _ _ Hl Hs) as (q & Hq & <- & _). by rewrite <-(Hboth id q Hq).
Qed.

(** The order a fill notification completes. *)
Definition completes (id : VenueOrderId) (quantity : Z) (e : MarketMakerEngine) :
    list VenueOrderId :=
  match mm_resting e !! id with
  | Some q => if negb (quantity =? 0) && (rq_quantity q <=? quantity) then [id] else []
  | None => []
  end.

Lemma clear_slot_spec b id s b' id' :
  leg_slot b s = Some id →
  (∃ s', clear_slot b id s = Some s' ∧ leg_slot b' s' = Some id') ↔
  leg_slot b' s = Some id' ∧ b' ≠ b.
Proof.
  intros Hs. unfold clear_slot. rewrite (bool_decide_eq_true_2 (leg_slot b s = Some id)) by done.
  destruct b, b', s as [[x|] [y|]]; cbn in *; simplify_eq; try case_bool_decide; simplify_eq; naive_solver.
Qed.

Lemma on_order_filled_ok filled id execution price quantity e :
  maker_ok filled e →
  maker_ok (filled ++ completes id quantity e) (on_order_filled id execution price quantity e).
Proof.
  intros Hok. unfold on_order_filled, completes.
  destruct (Z.eqb_spec quantity 0).
  { cbn. destruct (mm_resting e !! id); by rewrite app_nil_r. }
  destruct (mm_resting e !! id) as [q|] eqn:Hq; [|by rewrite app_nil_r]. cbn [negb andb].
  destruct Hok as (Hb & Hins & Hinv). destruct (Z.leb_spec (rq_quantity q) quantity).
  - split; [done|]. split; [exact Hins|]. intros Hlt. specialize (Hinv Hlt).
    destruct Hinv as [Ht Hm Hn]. split; [|exact Hm|exact Hn].
    destruct (tk_resting _ _ _ Ht _ _ Hq) as (s & Hl & Hs).
    eapply (drop_tracking _ filled _ [id] e).
    + exact Ht.
    + apply NoDup_singleton.
    + intros x ->%list_elem_of_singleton. by eexists.
    + done.
    + cbn. rewrite (Permutation_app_comm filled), !(assoc_L (++)).
      by rewrite (Permutation_app_comm _ [id]).
    + cbn [mm_legs broadcast set_tracked]. rewrite Hl. intros sym s' b id' Hl' Hs'.
      destruct (decide (sym = rq_symbol q)) as [->|Hne].
      * rewrite lookup_partial_alter_eq in Hl'.
        destruct (proj1 (clear_slot_spec _ _ _ b id' Hs)) as [Hb' Hne]; [by exists s'|].
        split; [|by exists s]. intros ->%list_elem_of_singleton.
        destruct (tk_legs _ _ _ Ht _ _ _ _ Hl Hb') as (q' & Hq' & _ & Hbq). congruence.
      * rewrite lookup_partial_alter_ne in Hl' by done. split; [|by exists s'].
        intros ->%list_elem_of_singleton.
        destruct (tk_legs _ _ _ Ht _ _ _ _ Hl' Hs') as (q' & Hq' & ? & _). congruence.
    + cbn [mm_legs broadcast set_tracked]. rewrite Hl. intros sym s' b id' Hl' Hs' Hid.
      destruct (decide (sym = rq_symbol q)) as [->|Hne].
      * rewrite lookup_partial_alter_eq. apply (clear_slot_spec _ _ _ b id' Hs).
        rewrite Hl in Hl'. injection Hl' as ->. split; [done|]. intros ->. apply Hid.
        apply list_elem_of_singleton. congruence.
      * rewrite lookup_partial_alter_ne by done. by exists s'.
  - rewrite app_nil_r. split; [done|]. split; [exact Hins|]. intros Hlt. specialize (Hinv Hlt).
    destruct Hinv as [Ht Hm Hn]. split; [|exact Hm|exact Hn].
    set (q' := with_quantity _ q).
    assert (∀ id' x, <[id := q']> (mm_resting e) !! id' = Some x →
      ∃ y, mm_resting e !! id' = Some y ∧ rq_symbol y = rq_symbol x ∧ rq_is_buy y = rq_is_buy x ∧
        rq_underlying y = rq_underlying x) as Hsame.
    { intros id' x Hx. destruct (decide (id' = id)) as [->|].
      - rewrite lookup_insert_eq in Hx. injection Hx as <-. by exists q.
      - rewrite lookup_insert_ne in Hx by done. by exists x. }
    split; cbn [mm_legs mm_resting mm_sent broadcast set_tracked].
    + apply Ht.
    + etrans; [apply Ht|]. by rewrite (tracked_update _ id q).
    + intros sym s b id' Hl Hs. destruct (tk_legs _ _ _ Ht _ _ _ _ Hl Hs) as (y & Hy & E1 & E2).
      destruct (decide (id' = id)) as [->|].
      * exists q'. rewrite lookup_insert_eq. split; [done|]. cbn. by simplify_eq.
      * exists y. by rewrite lookup_insert_ne.
    + intros id' x (y & Hy & <- & <- & _)%Hsame. by eapply tk_resting.
    + intros id' x (y & Hy & <- & _ & <-)%Hsame. by eapply tk_underlying.
Qed.

(** ** Calls *)

Inductive MakerCall :=
  | McRegister (symbol : Symbol) (iv : option f64) (persona : option PersonaConfig)
      (persona_name : option string)
  | McClock (now_ms : Z) | McMute (muted : bool)
  | McPrice (underlying : string) (price_cents : Z) | McSeedPrice (underlying : string) (price_cents : Z)
  | McEnable (enabled : bool) | McEnableSymbol (underlying : string) (enabled : bool)
  | McSpread (order : list string) (value : f64) | McSize (order : list string) (value : f64)
  | McSkew (order : list string) (value : f64)
  | McCancelAll | McCancelSymbol (underlying : string)
  | McFilled (id : VenueOrderId) (execution : option ExecutionId) (price quantity : Z)
  | McControl (knobs : MarketMakerControlKnobs).

Definition maker_call (c : MakerCall) (e : MarketMakerEngine) : MarketMakerEngine :=
  match c with
  | McRegister symbol iv persona name => register_resolved symbol iv persona name e
  | McClock now_ms => set_venue_now_ms now_ms e
  | McMute muted => set_muted muted e
  | McPrice underlying price => update_price underlying price e
  | McSeedPrice underlying price => seed_reference_price underlying price e
  | McEnable enabled => set_enabled enabled e
  | McEnableSymbol underlying enabled => set_symbol_enabled underlying enabled e
  | McSpread order value => (set_spread_multiplier order value e).1
  | McSize order value => (set_size_scalar order value e).1
  | McSkew order value => (set_directional_skew order value e).1
  | McCancelAll => cancel_all_orders e
  | McCancelSymbol underlying => cancel_symbol_orders underlying e
  | McFilled id execution price quantity => on_order_filled id execution price quantity e
  | McControl knobs => apply_sequenced_control knobs e
  end.

Definition maker_filled (c : MakerCall) (e : MarketMakerEngine) : list VenueOrderId :=
  match c with McFilled id _ _ quantity => completes id quantity e | _ => [] end.

(** A run of calls: the engine after it and the orders filled in it, oldest first. *)
Fixpoint maker_run (cs : list MakerCall) (e : MarketMakerEngine) (filled : list VenueOrderId) :
    MarketMakerEngine * list VenueOrderId :=
  match cs with
  | [] => (e, filled)
  | c :: cs => maker_run cs (maker_call c e) (filled ++ maker_filled c e)
  end.

Lemma update_quote_instruments i spot config e :
  mm_instruments (update_quote i spot config e) = mm_instruments e.
Proof. unfold update_quote. by destruct (quote_for _ _ _ _). Qed.

Lemma requote_symbol_ok filled u e : maker_ok filled e → maker_ok filled (requote_symbol u e).
Proof.
  intros Hok. unfold requote_symbol. destruct (mm_prices e !! u) as [price|]; [|done].
  assert (∀ i, i ∈ default [] (mm_instruments e !! u) → instrument_ok i) as Hall.
  { intros i Hi. destruct Hok as (_ & Hins & _). destruct (mm_instruments e !! u) as [l|] eqn:E.
    - by eapply Hins. - by apply elem_of_nil in Hi. }
  revert Hok Hall. generalize (mm_config e). intros config.
  generalize (default [] (mm_instruments e !! u)). intros l. revert e.
  induction l as [|i l IH]; intros e Hok Hall; [done|]. cbn. apply IH.
  - apply update_quote_ok; [|done]. apply Hall, elem_of_cons. by left.
  - intros j Hj. apply Hall, elem_of_cons. by right.
Qed.

Lemma requote_all_ok filled us e : maker_ok filled e → maker_ok filled (requote_all us e).
Proof.
  intros Hok. unfold requote_all. destruct (negb _); [done|]. revert e Hok.
  induction us as [|u us IH]; intros e Hok; [done|]. cbn. apply IH.
  destruct (is_symbol_enabled u e); [by apply requote_symbol_ok|done].
Qed.

Ltac same_orders := match goal with Hok : maker_ok _ _ |- _ => eapply maker_ok_same; [..|exact Hok]; done end.

Lemma set_knob_ok field lo hi write filled us value e :
  maker_ok filled e → maker_ok filled (set_knob field lo hi write us value e).1.
Proof.
  intros Hok. unfold set_knob. destruct (validate_control_value _ _ _ _); [|done].
  apply requote_all_ok. by same_orders.
Qed.

Lemma register_resolved_ok filled symbol iv persona name e :
  maker_ok filled e → maker_ok filled (register_resolved symbol iv persona name e).
Proof.
  intros (Hb & Hins & Hinv). unfold register_resolved.
  destruct (parse_symbol symbol) as [parsed|] eqn:Hp; [|done]. cbv zeta.
  set (u := ps_underlying parsed).
  assert (∀ i, i ∈ default [] (mm_instruments e !! u) → instrument_ok i) as Hall.
  { intros i Hi. destruct (mm_instruments e !! u) as [l|] eqn:E.
    - by eapply Hins. - by apply elem_of_nil in Hi. }
  assert (∀ l', (∀ i, i ∈ l' → instrument_ok i) →
    maker_ok filled (set_instruments (<[u := l']> (mm_instruments e)) e)) as Hset.
  { intros l' Hl'. split; [done|]. split.
    2: { intros Hlt. destruct (Hinv Hlt) as [Ht Hm Hn]. split; [|exact Hm|exact Hn].
         eapply tracking_ext; [..|exact Ht]; done. }
    intros u' l i Hl Hi. cbn in Hl. apply lookup_insert_Some in Hl as [[_ <-]|[_ Hl]]; [by apply Hl'|].
    by eapply Hins. }
  destruct (existsb _ _); apply Hset; [done|]. intros i [Hi| ->%list_elem_of_singleton]%elem_of_app;
    [by apply Hall|]. by exists parsed.
Qed.

Lemma apply_sequenced_control_ok filled knobs e :
  maker_ok filled e → maker_ok filled (apply_sequenced_control knobs e).
Proof.
  intros Hok. unfold apply_sequenced_control. cbv zeta.
  match goal with |- context [set_config (fst ?x) e] => generalize x end.
  intros [c []]; by same_orders.
Qed.

Lemma maker_call_ok filled c e :
  maker_ok filled e → maker_ok (filled ++ maker_filled c e) (maker_call c e).
Proof.
  intros Hok. destruct c; cbn [maker_call maker_filled]; rewrite ?app_nil_r; try (by same_orders).
  - by apply register_resolved_ok.
  - unfold update_price. destruct (mm_muted _); [by same_orders|].
    destruct (_ && _); [apply requote_symbol_ok|]; by same_orders.
  - unfold set_enabled. destruct enabled; [by same_orders|].
    eapply maker_ok_same; [..|apply (cancel_all_orders_ok filled (set_config (with_enabled false (mm_config e)) e))];
      try done. by same_orders.
  - unfold set_symbol_enabled. destruct enabled; [by same_orders|].
    apply cancel_symbol_orders_ok. by same_orders.
  - by apply set_knob_ok.
  - by apply set_knob_ok.
  - by apply set_knob_ok.
  - by apply cancel_all_orders_ok.
  - by apply cancel_symbol_orders_ok.
  - by apply on_order_filled_ok.
  - by apply apply_sequenced_control_ok.
Qed.

Lemma maker_run_ok cs e filled :
  maker_ok filled e → maker_ok (maker_run cs e filled).2 (maker_run cs e filled).1.
Proof.
  revert e filled. induction cs as [|c cs IH]; intros e filled Hok; [done|].
  cbn. apply IH. by apply maker_call_ok.
Qed.
End run.

(** ** Recovery *)

Definition leg_of (l : RecoveredMmLeg) : Symbol * bool := (rm_symbol l, rm_is_buy l).
Definition free (e : MarketMakerEngine) (k : Symbol * bool) : Prop :=
  leg_slot k.2 (default (None, None) (mm_legs e !! k.1)) = None.

Lemma restore_legs_tracking legs ids e :
  tracking ids [] e → NoDup (ids ++ (rm_order_id <$> legs)) → NoDup (leg_of <$> legs) →
  Forall (λ l, free e (leg_of l)) legs →
  Forall (λ l, ∃ parsed, parse_symbol (rm_symbol l) = Ok parsed ∧
                 ps_underlying parsed = rm_underlying l) legs →
  tracking (ids ++ (rm_order_id <$> legs)) [] (foldl restore_leg e legs) ∧
  (∀ k, k ∉ leg_of <$> legs → free e k → free (foldl restore_leg e legs) k).
Proof.
  revert ids e. induction legs as [|l legs IH]; intros ids e Ht Hids Hks Hfree Hu.
  { cbn. by rewrite app_nil_r. }
  cbn [fmap list_fmap foldl] in *. apply NoDup_cons in Hks as [Hl Hks].
  apply Forall_cons in Hfree as [Hf Hfree]. apply Forall_cons in Hu as [Hul Hu].
  assert (∀ k, k ≠ leg_of l → free e k → free (restore_leg e l) k) as Hstep.
  { intros [sym b] Hk Hfr. unfold free in *. cbn in *.
    destruct (decide (sym = rm_symbol l)) as [->|]; [|by rewrite lookup_insert_ne].
    rewrite lookup_insert_eq. cbn. rewrite slot_set. case_bool_decide as Hb; [|done].
    by rewrite Hb in Hk. }
  rewrite (cons_middle (rm_order_id l) ids), (assoc_L (++)) in Hids |- *.
  destruct (IH (ids ++ [rm_order_id l]) (restore_leg e l)) as [IH1 IH2].
  - eapply (add_leg_tracking _ _ _ (rm_symbol l) (rm_order_id l)
      {| rq_underlying := rm_underlying l; rq_symbol := rm_symbol l; rq_is_buy := rm_is_buy l;
         rq_theo_cents := rm_price_cents l; rq_quantity := rm_quantity l |}) in Ht; try done.
    apply NoDup_app in Hids as (Hids & _ & _). apply NoDup_app in Hids as (_ & Hids & _).
    intros Hin. by apply (Hids _ Hin), list_elem_of_singleton.
  - done.
  - done.
  - rewrite Forall_forall in Hfree |- *. intros l' Hl'. apply Hstep; [|by apply Hfree].
    intros E. apply Hl. rewrite <-E. by apply list_elem_of_fmap_2.
  - done.
  - split; [done|]. intros k Hk Hfr. rewrite elem_of_cons in Hk. apply IH2; [tauto|].
    apply Hstep; [tauto|done].
Qed.

Lemma restore_legs_same legs e :
  mm_sent (foldl restore_leg e legs) = mm_sent e ∧ mm_lineage (foldl restore_leg e legs) = mm_lineage e ∧
  mm_next_order_seq (foldl restore_leg e legs) = mm_next_order_seq e ∧
  mm_instruments (foldl restore_leg e legs) = mm_instruments e.
Proof. revert e. induction legs as [|l legs IH]; intros e; [done|]. apply (IH (restore_leg e l)). Qed.

(** The engine of a process that hands back, underlying by underlying, the legs of the
    recovered books and the floors of their order counters. *)
Definition maker_boot (lineage : LineageId) (quoter : Quoter) (recovered : list (list RecoveredMmLeg * Z)) :
    MarketMakerEngine :=
  foldl (λ e r, restore_recovered_producer r.1 r.2 e) (MarketMakerEngine_new lineage quoter) recovered.

Definition recovered_legs (recovered : list (list RecoveredMmLeg * Z)) : list RecoveredMmLeg :=
  concat recovered.*1.
Definition recovered_ids (recovered : list (list RecoveredMmLeg * Z)) : list VenueOrderId :=
  rm_order_id <$> recovered_legs recovered.

(** What recovery hands back: at most one leg on each side of an instrument, each with an id
    of this lineage below the floor that comes with it, and its own underlying. *)
Record recovery_ok (lineage : LineageId) (recovered : list (list RecoveredMmLeg * Z)) : Prop := {
  ro_ids : NoDup (recovered_ids recovered);
  ro_legs : NoDup (leg_of <$> recovered_legs recovered);
  ro_underlying : Forall (λ l, ∃ parsed, parse_symbol (rm_symbol l) = Ok parsed ∧
    ps_underlying parsed = rm_underlying l) (recovered_legs recovered);
  ro_floors : Forall (λ r, Forall (λ l, minted_below lineage r.2 (rm_order_id l)) r.1) recovered;
}.

Lemma maker_boot_shape lineage quoter recovered :
  let e := maker_boot lineage quoter recovered in
  let e' := foldl restore_leg (MarketMakerEngine_new lineage quoter) (recovered_legs recovered) in
  mm_legs e = mm_legs e' ∧ mm_resting e = mm_resting e' ∧ mm_sent e = [] ∧
  mm_lineage e = lineage ∧ mm_instruments e = ∅ ∧ 0 ≤ mm_next_order_seq e ∧
  Forall (λ r, r.2 ≤ mm_next_order_seq e) recovered.
Proof.
  unfold maker_boot, recovered_legs. set (e0 := MarketMakerEngine_new lineage quoter).
  assert (∀ a b, mm_legs a = mm_legs b → mm_resting a = mm_resting b → ∀ legs,
    mm_legs (foldl restore_leg a legs) = mm_legs (foldl restore_leg b legs) ∧
    mm_resting (foldl restore_leg a legs) = mm_resting (foldl restore_leg b legs)) as Hcong.
  { intros a b E1 E2 legs. revert a b E1 E2. induction legs as [|l legs IH]; intros a b E1 E2; [done|].
    cbn. apply IH; cbn; by rewrite ?E1, ?E2. }
  assert (∀ n, mm_legs e0 = mm_legs (set_next_order_seq n e0)) as _ by done.
  induction recovered as [|[legs floor] recovered IH] using rev_ind; [by repeat split|].
  rewrite foldl_snoc, fmap_app, concat_app, foldl_app. cbn [fmap list_fmap concat].
  rewrite app_nil_r. destruct IH as (H1 & H2 & H3 & H4 & H5 & H6 & H7).
  set (e := foldl _ e0 recovered) in *. set (e' := foldl restore_leg e0 _) in *.
  destruct (restore_legs_same legs e) as (S1 & S2 & S3 & S4).
  destruct (Hcong e e' H1 H2 legs) as [C1 C2]. cbn [restore_recovered_producer fst snd].
  unfold restore_recovered_producer. cbn. rewrite S1, S2, S3, S4.
  split_and!; try done; [lia|]. apply Forall_app. split; [|repeat constructor; cbn; lia].
  eapply Forall_impl; [exact H7|]. intros r Hr. cbn in *. lia.
Qed.

Lemma maker_boot_ok lineage quoter recovered :
  recovery_ok lineage recovered →
  let e := maker_boot lineage quoter recovered in
  maker_ok (mm_next_order_seq e) (recovered_ids recovered) [] e.
Proof.
  intros [Hids Hlegs Hu Hf] e.
  destruct (maker_boot_shape lineage quoter recovered) as (H1 & H2 & H3 & H4 & H5 & H6 & H7).
  fold e in H1, H2, H3, H4, H5, H6, H7. split; [done|]. split; [by intros u l i; rewrite H5, lookup_empty|].
  intros _. split; unfold known, minted_count; rewrite H3; cbn [added omap list_omap]; rewrite ?app_nil_r.
  - set (e0 := MarketMakerEngine_new lineage quoter) in *.
    assert (tracking [] [] e0) as Ht0.
    { split; [apply NoDup_nil_2|done|..]; intros *; cbn; by rewrite lookup_empty. }
    destruct (restore_legs_tracking (recovered_legs recovered) [] e0 Ht0 Hids Hlegs) as [Ht _]; [|done|].
    { apply Forall_forall. intros l _. unfold free. cbn. rewrite lookup_empty. by destruct (rm_is_buy l). }
    eapply tracking_ext; [exact H1|exact H2| |exact Ht]. rewrite H3.
    by rewrite (proj1 (restore_legs_same _ _)).
  - rewrite H4. unfold recovered_ids, recovered_legs. apply Forall_fmap, Forall_concat, Forall_fmap.
    rewrite Forall_forall in Hf, H7 |- *. intros r Hr. specialize (H7 _ Hr).
    eapply Forall_impl; [by apply Hf|]. intros l. by apply minted_below_mono.
  - cbn. lia.
Qed.

(** C32. The market maker never loses an order. From a start on recovered books, through any
    calls - registrations, price moves, requotes, knobs, kill switches, sweeps, fill
    notifications, sequenced controls - every order it was handed back or has placed is, exactly
    once, still tracked, cancelled by a command it sent, or filled; an order id is placed once
    and cancelled at most once; and at most one tracked bid and one tracked ask stand on each
    instrument. *)
Theorem maker_orders_accounted lineage quoter recovered cs :
  recovery_ok lineage recovered →
  let e0 := maker_boot lineage quoter recovered in
  let '(e, filled) := maker_run cs e0 [] in
  let placed := recovered_ids recovered ++ added (mm_sent e) in
  mm_next_order_seq e0 + Z.of_nat (length (added (mm_sent e))) < 2 ^ 64 →
  NoDup placed ∧
  placed ≡ₚ tracked (mm_resting e) ++ cancelled (mm_sent e) ++ filled ∧
  ∀ id1 id2 q1 q2, mm_resting e !! id1 = Some q1 → mm_resting e !! id2 = Some q2 →
    rq_symbol q1 = rq_symbol q2 → rq_is_buy q1 = rq_is_buy q2 → id1 = id2.
Proof.
  intros Hr e0. pose proof (maker_run_ok _ _ cs e0 [] (maker_boot_ok lineage quoter recovered Hr)) as Hok.
  destruct (maker_run cs e0 []) as [e filled]. cbn [fst snd] in Hok. intros placed Hlt.
  destruct Hok as (_ & _ & Hinv). destruct (Hinv Hlt) as [Ht _ _]. split_and!; [apply Ht..|].
  intros id1 id2 q1 q2 Hq1 Hq2 Es Eb.
  destruct (tk_resting _ _ _ Ht _ _ Hq1) as (s1 & Hl1 & Hs1).
  destruct (tk_resting _ _ _ Ht _ _ Hq2) as (s2 & Hl2 & Hs2). congruence.
Qed.

(** ** Quotes *)

Lemma half_spread_positive q m theo : 1 ≤ half_spread_cents q m theo ≤ int_max i64.
Proof.
  unfold half_spread_cents. split; [apply f64_max_one; [apply f64_encode_range|done|done]|].
  apply f64_as_range. by vm_compute.
Qed.

Lemma wrap_i64_fits n : has_ty i64 n → wrap_i64 n = n.
Proof.
  intros [H1 H2]. cbn in H1, H2. unfold wrap_i64. rewrite Z.mod_small; lia.
Qed.

Lemma quote_sizes_positive base size skew :
  1 ≤ (quote_sizes base size skew).1 ∧ 1 ≤ (quote_sizes base size skew).2.
Proof.
  unfold quote_sizes. destruct (f64_ltb 0 skew); [cbn; lia|]. destruct (f64_ltb skew 0); cbn; lia.
Qed.

(** C33. A quote is two-sided and never crossed: whenever the theoretical value, the half spread
    and the skew stay within a quarter of the signed 64-bit range, no step of the computation
    overflows, the bid is the value less the half spread, shifted by the skew and at least one
    cent, the ask is the value plus the half spread, shifted alike and at least one cent above
    the bid, the two stand twice the half spread apart unless a floor binds, and both sizes are
    positive. *)
Theorem quote_never_crosses q input p :
  generate_quote q input = Some p →
  let theo := qp_theo_price p in
  let half := half_spread_cents q (qi_spread_multiplier input) theo in
  let shift := skew_adjustment half (qi_directional_skew input) (qi_style input) in
  0 ≤ theo < 2 ^ 61 → half < 2 ^ 61 → Z.abs shift < 2 ^ 61 →
  qp_bid_price p = Z.max (theo - half + shift) 1 ∧
  qp_ask_price p = Z.max (theo + half + shift) (qp_bid_price p + 1) ∧
  1 ≤ qp_bid_price p < qp_ask_price p ∧
  (1 ≤ theo - half + shift → qp_ask_price p - qp_bid_price p = 2 * half) ∧
  1 ≤ qp_bid_size p ∧ 1 ≤ qp_ask_size p.
Proof.
  unfold generate_quote. intros E. cbv zeta. revert E.
  destruct (theoretical_value _ _ _ _ _ _) as [value|]; [|done]. cbn [mbind option_bind].
  destruct (theo_cents_of value) as [cents|]; [|done]. cbn [mbind option_bind].
  destruct (quote_legs _ _ _) as [bid ask] eqn:Hlegs.
  pose proof (quote_sizes_positive (qt_base_size q) (qi_size_scalar input)
    (qi_directional_skew input)) as Hsizes.
  destruct (quote_sizes _ _ _) as [bid_size ask_size]. intros [= <-]. cbn in *.
  set (half := half_spread_cents _ _ _) in *.
  set (shift := skew_adjustment _ _ _) in *. intros Ht Hh Hs.
  pose proof (half_spread_positive q (qi_spread_multiplier input) cents) as [Hp _]. fold half in Hp.
  assert (wrap_i64 cents = cents) as Ec by (apply wrap_i64_fits; split; cbn; lia).
  assert (wrap_i64 (wrap_i64 (cents - half) + shift) = cents - half + shift) as Eb.
  { rewrite (wrap_i64_fits (cents - half)) by (split; cbn; lia). apply wrap_i64_fits. split; cbn; lia. }
  assert (wrap_i64 (wrap_i64 (cents + half) + shift) = cents + half + shift) as Ea.
  { rewrite (wrap_i64_fits (cents + half)) by (split; cbn; lia). apply wrap_i64_fits. split; cbn; lia. }
  unfold quote_legs in Hlegs. rewrite Ec, Eb, Ea in Hlegs.
  rewrite (wrap_i64_fits (Z.max _ 1 + 1)) in Hlegs by (split; cbn; lia).
  assert (∀ n, 0 ≤ n < 2 ^ 64 → wrapping u64 n = n) as Hw.
  { intros n Hn. unfold wrapping. change (int_max u64 + 1) with (2 ^ 64). by apply Z.mod_small. }
  rewrite !Hw in Hlegs by lia. injection Hlegs as <- <-. lia.
Qed.

(** ** The kill switch *)

(** While the maker is disabled it places nothing: only enabling calls let it quote again. *)
Definition enables (c : MakerCall) : bool :=
  match c with
  | McEnable enabled => enabled
  | McControl knobs => bool_decide (knob_enabled knobs = Some true)
  | _ => false
  end.

Lemma requote_all_disabled us e : mc_enabled (mm_config e) = false → requote_all us e = e.
Proof. intros E. unfold requote_all. by rewrite E. Qed.

Lemma apply_knob_enabled field lo hi read write value c :
  (∀ x c, mc_enabled (write x c) = mc_enabled c) →
  mc_enabled (apply_knob field lo hi read write value c).1 = mc_enabled c.1.
Proof.
  intros Hw. unfold apply_knob. destruct value as [x|]; [|done].
  destruct (validate_control_value _ _ _ _) as [y|]; [|done]. destruct (negb _); [apply Hw|done].
Qed.

(** A disabled maker that tracks nothing: no call but an enabling one changes that, or sends. *)
Definition quiesced (e : MarketMakerEngine) : Prop :=
  mc_enabled (mm_config e) = false ∧ mm_resting e = ∅.

Lemma quiesced_cancels (p : VenueOrderId * RestingQuote → Prop) `{!∀ o, Decision (p o)} :
  sort_by_key String.leb fst (filter p (map_to_list (∅ : gmap VenueOrderId RestingQuote))) = [].
Proof. by rewrite map_to_list_empty. Qed.

Lemma quiesced_call c e :
  enables c = false → quiesced e →
  quiesced (maker_call c e) ∧ mm_sent (maker_call c e) = mm_sent e.
Proof.
  intros Hc [He Hr].
  assert (∀ field lo hi write us value, (∀ x c, mc_enabled (write x c) = mc_enabled c) →
    quiesced (set_knob field lo hi write us value e).1 ∧
    mm_sent (set_knob field lo hi write us value e).1 = mm_sent e) as Hknob.
  { intros field lo hi write us value Hw. unfold set_knob.
    destruct (validate_control_value _ _ _ _); [|done]. cbn [fst].
    rewrite requote_all_disabled by (cbn; by rewrite Hw). split; [|done]. split; [|done].
    cbn. by rewrite Hw. }
  assert (∀ u e, mm_resting e = ∅ → mc_enabled (mm_config e) = false →
    quiesced (cancel_symbol_orders u e) ∧ mm_sent (cancel_symbol_orders u e) = mm_sent e) as Hsym.
  { intros u e' Hr' He'. unfold cancel_symbol_orders. rewrite Hr', quiesced_cancels.
    by split; [|apply app_nil_r]. }
  assert (∀ e, mm_resting e = ∅ → mc_enabled (mm_config e) = false →
    quiesced (cancel_all_orders e) ∧ mm_sent (cancel_all_orders e) = mm_sent e) as Hall.
  { intros e' Hr' He'. unfold cancel_all_orders. rewrite Hr', map_to_list_empty.
    by split; [|apply app_nil_r]. }
  destruct c; cbn [maker_call]; try (by apply Hknob); try (by apply Hsym); try (by apply Hall);
    try done.
  - unfold register_resolved. destruct (parse_symbol symbol); [|done]. by destruct (existsb _ _).
  - unfold update_price. cbn. rewrite He. cbn. by destruct (mm_muted e).
  - destruct enabled; [done|]. by apply (Hall (set_config (with_enabled false (mm_config e)) e)).
  - unfold set_symbol_enabled. destruct enabled; [done|].
    by apply (Hsym underlying (set_config (with_symbol_enabled underlying false (mm_config e)) e)).
  - unfold on_order_filled. rewrite Hr, lookup_empty. by destruct (quantity =? 0).
  - unfold apply_sequenced_control. cbv zeta.
    match goal with |- context [set_config (fst ?x) e] =>
      assert (mc_enabled x.1 = false) as Hx; [|generalize dependent x] end.
    { apply bool_decide_eq_false in Hc. destruct (knob_enabled knobs) as [[]|]; [done| |].
      - case_bool_decide; cbn; [|done]. by rewrite !apply_knob_enabled.
      - by rewrite !apply_knob_enabled. }
    intros [c []] Hx; done.
Qed.

Lemma quiesced_run cs e filled :
  Forall (λ c, enables c = false) cs → quiesced e →
  quiesced (maker_run cs e filled).1 ∧ mm_sent (maker_run cs e filled).1 = mm_sent e.
Proof.
  intros Hcs. revert e filled. induction Hcs as [|c cs Hc _ IH]; intros e filled He; [done|].
  destruct (quiesced_call c e Hc He) as [He' Hs]. cbn. rewrite <-Hs. by apply IH.
Qed.

(** The kill switch empties the maker and holds: disabling it cancels, each once and in
    order of id, exactly the orders it tracks; and until a call enables it again no call - a
    price move, a knob, a sequenced control, a sweep, a late fill - makes it send anything or
    track anything. *)
Theorem kill_switch_holds cs e :
  Forall (λ c, enables c = false) cs →
  let e' := (maker_run (McEnable false :: cs) e []).1 in
  mc_enabled (mm_config e') = false ∧ mm_resting e' = ∅ ∧
  ∃ orders, orders ≡ₚ map_to_list (mm_resting e) ∧ key_sorted String.leb fst orders ∧
    mm_sent e' = mm_sent e ++ ((λ o, cancel_command (rq_symbol o.2) o.1) <$> orders).
Proof.
  intros Hcs.
  destruct (quiesced_run cs (set_enabled false e) [] Hcs ltac:(done)) as [[H1 H2] H3].
  cbn. cbn in H1, H2, H3. split_and!; [done..|].
  exists (sort_by_key String.leb fst (map_to_list (mm_resting e))).
  split_and!; [apply sort_by_key_perm|apply sort_by_key_sorted, _|done].
Qed.
End props.

Definition btc_call_quote : Symbol := "BTC-20240329-50000-C".

(** A pricing library that values every option at [value] and counts whole days. *)
Definition flat_pricing (value : f64) : PricingLib :=
  {| price_option what rate spot strike sigma days style := Some value; days_to_f64 := f64_of_Z |}.

Definition sample_recovered : list (list RecoveredMmLeg * Z) :=
  [([{| rm_underlying := "BTC"; rm_symbol := btc_call_quote; rm_order_id := "run-1:MM:3";
        rm_is_buy := true; rm_price_cents := 480; rm_quantity := 10; rm_seq := 7 |}], 4)].

Lemma sample_recovery_ok : recovery_ok "run-1" sample_recovered.
Proof.
  split; cbn.
  - apply NoDup_singleton.
  - apply NoDup_singleton.
  - repeat constructor. by exists (sample_symbol "BTC" Call).
  - repeat constructor. exists 3. by vm_compute.
Qed.

Definition sample_calls : list MakerCall :=
  [McRegister btc_call_quote None None None; McClock 1_711_000_000_000; McPrice "BTC" 5_000_000;
   McPrice "BTC" 5_010_000; McFilled "run-1:MM:6" None 495 4; McFilled "run-1:MM:7" None 505 10].

Section samples.
Local Instance five_dollars : PricingLib := flat_pricing (f64_of_Z 5).

Definition sample_run : MarketMakerEngine * list VenueOrderId :=
  maker_run sample_calls (maker_boot "run-1" Quoter_default sample_recovered) [].
Definition sample_maker : MarketMakerEngine := sample_run.1.

Lemma maker_orders_accounted_witness :
  recovery_ok "run-1" sample_recovered ∧
  ["run-1:MM:3"; "run-1:MM:4"; "run-1:MM:5"; "run-1:MM:6"; "run-1:MM:7"] ≡ₚ
    tracked (mm_resting sample_maker) ++ cancelled (mm_sent sample_maker) ++ ["run-1:MM:7"].
Proof.
  split; [apply sample_recovery_ok|].
  pose proof (maker_orders_accounted "run-1" Quoter_default sample_recovered sample_calls
    sample_recovery_ok) as Hok. cbv zeta in Hok. fold sample_run in Hok.
  assert (sample_run.2 = ["run-1:MM:7"]) as E by by vm_compute.
  pose proof (surjective_pairing sample_run : sample_run = (sample_maker, sample_run.2)) as Hrun.
  rewrite E in Hrun. rewrite Hrun in Hok.
  destruct Hok as (_ & Hp & _); [by vm_compute|]. etransitivity; [|exact Hp]. reflexivity.
Defined.

Definition sample_sent (cs : list MakerCall) : list VenueCommand :=
  mm_sent (maker_run cs sample_maker []).1.

Lemma kill_switch_holds_witness :
  Forall (λ c, enables c = false) [McPrice "BTC" 6_000_000; McSpread ["BTC"] (f64_of_Z 2)] ∧
  sample_sent [McEnable false; McPrice "BTC" 6_000_000; McSpread ["BTC"] (f64_of_Z 2)] =
    mm_sent sample_maker ++ [cancel_command btc_call_quote "run-1:MM:6"].
Proof.
  assert (Forall (λ c, enables c = false) [McPrice "BTC" 6_000_000; McSpread ["BTC"] (f64_of_Z 2)])
    as Hcs by repeat constructor.
  split; [exact Hcs|].
  destruct (kill_switch_holds _ sample_maker Hcs) as (_ & _ & orders & Hp & _ & Hs).
  unfold sample_sent. rewrite Hs. f_equal.
  assert (map_to_list (mm_resting sample_maker) =
    [("run-1:MM:6", {| rq_underlying := "BTC"; rq_symbol := btc_call_quote; rq_is_buy := true;
                       rq_theo_cents := 500; rq_quantity := 6 |})]) as E by by vm_compute.
  rewrite E in Hp. by apply Permutation_singleton_r in Hp as ->.
Defined.

Definition sample_input : QuoteInput :=
  {| qi_spot_cents := 5_000_000; qi_strike_cents := 5_000_000; qi_days_to_expiry := f64_of_Z 7;
     qi_style := Call; qi_spread_multiplier := f64_of_Z 2; qi_size_scalar := f64_of_Z 1;
     qi_directional_skew := f64_lit 1 2; qi_iv := None |}.
Definition sample_quote : QuoteParams :=
  {| qp_bid_price := 496; qp_ask_price := 506; qp_bid_size := 10; qp_ask_size := 8;
     qp_theo_price := 500 |}.

Lemma quote_never_crosses_witness :
  generate_quote Quoter_default sample_input = Some sample_quote ∧
  1 ≤ qp_bid_price sample_quote < qp_ask_price sample_quote.
Proof.
  assert (generate_quote Quoter_default sample_input = Some sample_quote) as E by by vm_compute.
  split; [exact E|]. pose proof (quote_never_crosses Quoter_default sample_input sample_quote E) as Hq.
  clear E. cbv zeta in Hq.
  destruct Hq as (_ & _ & Hq & _); [vm_compute; repeat split; congruence..|exact Hq].
Defined.
End samples.

(** The guard admits a value of [2^63] cents, [i64::MAX] having no binary64 of its own, and the
    cast to [i64] turns it into the most negative integer: the ask wraps and falls to the floor
    one cent above the bid, both below the value they should straddle. *)
Example quote_value_wraps :
  @generate_quote (flat_pricing (f64_div (f64_of_Z (2 ^ 63)) (f64_of_Z 100))) Quoter_default
    sample_input =
  Some {| qp_bid_price := 9154196746578364988; qp_ask_price := 9154196746578364989;
          qp_bid_size := 10; qp_ask_size := 8; qp_theo_price := 2 ^ 63 |}.
Proof. vm_compute. reflexivity. Qed.
