(* ===== verification/ConfigModel.v ===== *)
(** The configuration ([src/src/config.rs]): four layers - defaults, file, environment, command
    line - merged field by field and validated into one record, and the seed manifest,
    microstructure and rate limits a file declares.

    Reading and parsing TOML and socket addresses, and the calendar of the upstream symbol
    grammar, are the classes [ConfigLib] and [SymbolCalendar].  A [BTreeMap] is its list of
    entries in key order. *)

From Stdlib Require Import Ascii.
From S2P Require Export Microstructure Auth Boot SimClock Expiry Quoter.

(** ** Constants *)

Definition DEFAULT_HTTP_ADDR : string := "0.0.0.0:8080".
Definition DEFAULT_FIX_ADDR : string := "0.0.0.0:9878".
Definition DEFAULT_FIX_ENABLED : bool := false.
Definition DEFAULT_FIX_CONNECTION_CAP : Z := 256.
Definition DEFAULT_FIX_MAILBOX_DEPTH : Z := 256.
Definition DEFAULT_FIX_MAX_FRAME_BYTES : Z := 256 * 1024.
Definition FIX_MAX_CONNECTION_CAP : Z := 65_536.
Definition FIX_MAX_MAILBOX_DEPTH : Z := 65_536.
Definition FIX_MIN_MAX_FRAME_BYTES : Z := 512.
Definition FIX_MAX_MAX_FRAME_BYTES : Z := 16 * 1024 * 1024.
Definition DEFAULT_FIX_IDLE_TIMEOUT_SECS : Z := 30.
Definition FIX_MIN_IDLE_TIMEOUT_SECS : Z := 1.
Definition FIX_MAX_IDLE_TIMEOUT_SECS : Z := 86_400.
Definition DEFAULT_FIX_LOGON_TIMEOUT_SECS : Z := 10.
Definition FIX_MIN_LOGON_TIMEOUT_SECS : Z := 1.
Definition FIX_MAX_LOGON_TIMEOUT_SECS : Z := 300.
Definition DEFAULT_FIX_MAX_HEART_BT_INT_SECS : Z := 60.
Definition FIX_MIN_MAX_HEART_BT_INT_SECS : Z := 1.
Definition FIX_MAX_MAX_HEART_BT_INT_SECS : Z := 3_600.
Definition FIX_MAX_AGGREGATE_FRAME_BYTES : Z := 1024 * 1024 * 1024.
Definition DEFAULT_SEED : Z := 0.
Definition DEFAULT_RATE_LIMIT_WINDOW_SECS : Z := 60.
Definition RATE_LIMIT_MAX_WINDOW_SECS : Z := 86_400.
Definition DEFAULT_EXPIRY_TIME : string := "08:00:00".
Definition DEFAULT_SETTLEMENT_TIME : string := "08:30:00".
Definition LINEAGE_PREFIX : string := "fauxchange".
Definition DEFAULT_DB_POOL_MAX_CONNECTIONS : Z := 10.
Definition DEFAULT_DB_SLOW_ACQUIRE_MS : Z := 500.
Definition REDACTED : string := "<redacted>".

(** ** Small types *)

(** A string whose [Debug] and [Display] are [REDACTED]. *)
Record Secret := { expose : string }.
Definition secret_display (s : Secret) : string := REDACTED.

Inductive CfgClockMode := CmRealtime | CmAccelerated | CmStepped.
Definition clock_as_str (m : CfgClockMode) : string :=
  match m with
  | CmRealtime => "realtime" | CmAccelerated => "accelerated" | CmStepped => "stepped"
  end.
Definition clock_from_token (token : string) : option CfgClockMode :=
  if String.eqb token "realtime" then Some CmRealtime
  else if String.eqb token "accelerated" then Some CmAccelerated
  else if String.eqb token "stepped" then Some CmStepped else None.
Definition DEFAULT_CLOCK : CfgClockMode := CmRealtime.

Inductive LogFormat := LfJson | LfPretty.
Definition log_as_str (f : LogFormat) : string :=
  match f with LfJson => "json" | LfPretty => "pretty" end.
Definition log_from_token (token : string) : option LogFormat :=
  if String.eqb token "json" then Some LfJson
  else if String.eqb token "pretty" then Some LfPretty else None.
Definition DEFAULT_LOG_FORMAT : LogFormat := LfPretty.

Inductive PersistenceBackend := InMemory | Postgres.
Definition backend_as_str (b : PersistenceBackend) : string :=
  match b with InMemory => "in-memory" | Postgres => "postgres" end.

Inductive ConfigError :=
  | FileRead (path source : string)
  | UnknownKey (key : string)
  | TomlParse (message : string)
  | BadAddress (field value reason : string)
  | InvalidClock (value : string)
  | InvalidLogFormat (value : string)
  | BadSeed (value : string)
  | BadPersistenceValue (field value : string)
  | BadClockValue (field value : string)
  | BadFixValue (field value reason : string)
  | BadRateLimitValue (field value reason : string)
  | BadOperationalTime (field value : string)
  | OperationalSettlementBeforeExpiry (expiry settlement : string)
  | OperationalTimeNotBeforeIdentity (field value : string)
  | MissingCliValue (flag : string)
  | UnknownCliFlag (flag : string)
  | SeedDaysExpiry (underlying value : string)
  | SeedInvalidExpiry (underlying value reason : string)
  | SeedInvalidStrikeLadder (underlying reason : string)
  | SeedInvalidInstrument (underlying reason : string)
  | SeedInvalidAccount (id reason : string)
  | SeedInvalidPersona (reason : string)
  | MicrostructureRefused (e : MicrostructureConfigError).

(** ** Operational times *)

Definition IDENTITY_EXPIRY_SECS : Z := 23 * 3_600 + 59 * 60 + 59.

Record OperationalTime := { secs_since_midnight : Z }.

Definition from_hms (hour minute second : Z) : option OperationalTime :=
  if (23 <? hour) || (59 <? minute) || (59 <? second) then None
  else Some {| secs_since_midnight := hour * 3_600 + minute * 60 + second |}.

(** [str::split] at a character. *)
Fixpoint split_at (sep : Ascii.ascii) (l : list Ascii.ascii) : list (list Ascii.ascii) :=
  match l with
  | [] => [[]]
  | c :: l =>
      if bool_decide (c = sep) then [] :: split_at sep l
      else match split_at sep l with
           | piece :: pieces => (c :: piece) :: pieces
           | [] => [[c]]
           end
  end.
Definition split_str (sep : Ascii.ascii) (s : string) : list string :=
  String.string_of_list_ascii <$> split_at sep (String.list_ascii_of_string s).

(** [str::parse] at the unsigned widths. *)
Definition parse_uint (t : int_ty) (s : string) : option Z := n ← parse_u64 s; narrow t n.

Definition parse_time (raw : string) : option OperationalTime :=
  match split_str ":"%char (trim raw) with
  | hour :: minute :: second :: rest =>
      hour ← parse_uint u32 hour;
      minute ← parse_uint u32 minute;
      second ← parse_uint u32 second;
      match rest with [] => from_hms hour minute second | _ => None end
  | _ => None
  end.

Definition two_digits (n : Z) : string := if n <? 10 then "0" +:+ dec n else dec n.
Definition time_display (t : OperationalTime) : string :=
  let s := secs_since_midnight t in
  two_digits (s / 3_600) +:+ ":" +:+ two_digits (s mod 3_600 / 60) +:+ ":" +:+
  two_digits (s mod 60).

(** ** The resolved configuration *)

Record RateLimitConfig := {
  rlc_window_secs : Z; rlc_read_per_window : Z; rlc_trade_per_window : Z;
  rlc_admin_per_window : Z }.
Definition RateLimitConfig_default : RateLimitConfig :=
  {| rlc_window_secs := DEFAULT_RATE_LIMIT_WINDOW_SECS;
     rlc_read_per_window := DEFAULT_RATE_LIMIT_PER_WINDOW;
     rlc_trade_per_window := DEFAULT_RATE_LIMIT_PER_WINDOW;
     rlc_admin_per_window := DEFAULT_RATE_LIMIT_PER_WINDOW |}.

Fixpoint first_zero_budget (l : list (string * Z)) : result ConfigError unit :=
  match l with
  | [] => Ok tt
  | (field, value) :: l =>
      if value =? 0
      then Err (BadRateLimitValue field (dec value) "must be a positive per-window budget")
      else first_zero_budget l
  end.
Definition rate_limits_validate (c : RateLimitConfig) : result ConfigError unit :=
  if rlc_window_secs c =? 0
  then Err (BadRateLimitValue "window_secs" (dec (rlc_window_secs c))
              "must be a positive number of seconds")
  else if RATE_LIMIT_MAX_WINDOW_SECS <? rlc_window_secs c
  then Err (BadRateLimitValue "window_secs" (dec (rlc_window_secs c))
              ("must be at or below " +:+ dec RATE_LIMIT_MAX_WINDOW_SECS +:+ " seconds"))
  else first_zero_budget [("read_per_window", rlc_read_per_window c);
                          ("trade_per_window", rlc_trade_per_window c);
                          ("admin_per_window", rlc_admin_per_window c)].
Definition to_budgets (c : RateLimitConfig) : RateLimitBudgets :=
  {| bud_window_ms := default (int_max u64) (checked_mul u64 (rlc_window_secs c) 1_000);
     bud_read := rlc_read_per_window c; bud_trade := rlc_trade_per_window c;
     bud_admin := rlc_admin_per_window c |}.

Record PersistenceConfig := {
  cfg_database_url : option Secret; cfg_pool_max_connections : Z; cfg_slow_acquire_ms : Z }.
Definition is_persistent (p : PersistenceConfig) : bool := bool_decide (is_Some (cfg_database_url p)).
Definition backend (p : PersistenceConfig) : PersistenceBackend :=
  if is_persistent p then Postgres else InMemory.
Definition connection_url (p : PersistenceConfig) : option string := expose <$> cfg_database_url p.

Record ClockConfig := {
  cfg_mode : CfgClockMode; cfg_multiplier : Z; cfg_step_interval_ms : Z }.
Definition to_venue_clock_config (c : ClockConfig) (start_ms : Z) : VenueClockConfig :=
  {| cc_mode :=
       match cfg_mode c with
       | CmRealtime => Realtime
       | CmAccelerated => Accelerated (cfg_multiplier c)
       | CmStepped => Stepped (cfg_step_interval_ms c)
       end;
     cc_start_ms := start_ms |}.

Record ExpiryLifecycleConfig := {
  cfg_expiry_time : OperationalTime; cfg_settlement_time : OperationalTime }.

Definition lineage_of_seed (seed : Z) : LineageId := LINEAGE_PREFIX +:+ "-seed-" +:+ dec seed.

(** ** The seed manifest *)

Definition DEFAULT_SEED_VOLATILITY : f64 := f64_lit 20 100.

Record SeedPersona := {
  sp_base_spread_bps : Z; sp_base_size : Z; sp_spread_multiplier : f64; sp_size_scalar : f64;
  sp_directional_skew : f64 }.
Definition to_persona_config (p : SeedPersona) : PersonaConfig :=
  {| pc_base_spread_bps := sp_base_spread_bps p; pc_base_size := sp_base_size p;
     pc_spread_multiplier := sp_spread_multiplier p; pc_size_scalar := sp_size_scalar p;
     pc_directional_skew := sp_directional_skew p |}.

Record SeedInstrumentSet := {
  si_underlying : string; si_opening_price : Cents; si_contracts : list Symbol;
  si_persona : option string }.
Record SeedManifest := {
  sm_accounts : list AccountProvision; sm_instruments : list SeedInstrumentSet;
  sm_personas : list (string * SeedPersona); sm_default_persona : option string }.
Definition SeedManifest_default : SeedManifest :=
  {| sm_accounts := []; sm_instruments := []; sm_personas := []; sm_default_persona := None |}.
Definition manifest_is_empty (m : SeedManifest) : bool :=
  match sm_accounts m, sm_instruments m with [], [] => true | _, _ => false end.
Definition effective_persona (m : SeedManifest) : option SeedPersona :=
  name ← sm_default_persona m; bt_get name (sm_personas m).
Definition underlyings (m : SeedManifest) : list string := si_underlying <$> sm_instruments m.
Definition contract_count (m : SeedManifest) : nat :=
  sum_list ((λ s, length (si_contracts s)) <$> sm_instruments m).

(** ** The file *)

Record FileFix := {
  ff_fix_addr : option string; ff_enabled : option bool; ff_connection_cap : option Z;
  ff_mailbox_depth : option Z; ff_max_frame_bytes : option Z; ff_idle_timeout_secs : option Z;
  ff_logon_timeout_secs : option Z; ff_max_heart_bt_int_secs : option Z }.
Record FilePersistence := {
  fp_database_url : option string; fp_pool_max_connections : option Z;
  fp_slow_acquire_ms : option Z }.
Record FileClock := {
  fc_mode : option string; fc_multiplier : option Z; fc_step_interval_ms : option Z }.
Record FileExpiryLifecycle := {
  fe_expiry_time : option string; fe_settlement_time : option string }.
Record FileAccount := {
  fa_permissions : list Permission; fa_owner : option string; fa_fix_username : option string;
  fa_fix_password : option string; fa_fix_sender_comp_id : option string;
  fa_fix_target_comp_id : option string }.
Record FileInstrument := {
  fi_opening_price_cents : Z; fi_expirations : list string; fi_strikes : list Z;
  fi_styles : option (list string); fi_persona : option string;
  fi_specs : option ContractSpecsConfig }.
Record FilePersona := {
  fpe_base_spread_bps : option Z; fpe_base_size : option Z; fpe_spread_multiplier : option f64;
  fpe_size_scalar : option f64; fpe_directional_skew : option f64 }.
Record FileMarketMaker := {
  fm_default_persona : option string; fm_personas : option (list (string * FilePersona)) }.
(** [server], [determinism], [auth] and [logging] have one optional key each.  The section
    [microstructure] is [FileMicrostructure] and its table [instrument_specs]. *)
Record FileConfig := {
  f_server : option (option string); f_fix : option FileFix;
  f_persistence : option FilePersistence; f_clock : option FileClock;
  f_expiry_lifecycle : option FileExpiryLifecycle; f_determinism : option (option Z);
  f_auth : option (option string); f_logging : option (option string);
  f_accounts : option (list (string * FileAccount));
  f_instruments : option (list (string * FileInstrument));
  f_market_maker : option FileMarketMaker;
  f_microstructure : option (FileMicrostructure * option (list (string * ContractSpecsConfig)));
  f_rate_limits : option RateLimitConfig }.

(** A TOML error: its message without a snippet, and the byte it starts at. *)
Record TomlError := { te_message : string; te_start : option Z }.

Class ConfigLib := {
  SocketAddr : Type;
  parse_socket_addr : string → result string SocketAddr;
  socket_addr_display : SocketAddr → string;
  f64_display : f64 → string;
  toml_from_str : string → result TomlError FileConfig;
  read_to_string : string → result string string;
}.

Record FixConfig `{ConfigLib} := {
  cfg_fix_enabled : bool; cfg_fix_addr : SocketAddr; cfg_connection_cap : Z;
  cfg_mailbox_depth : Z; cfg_max_frame_bytes : Z; cfg_idle_timeout_secs : Z;
  cfg_logon_timeout_secs : Z; cfg_max_heart_bt_int_secs : Z }.
Record Config `{ConfigLib} := {
  cfg_http_addr : SocketAddr; cfg_fix : FixConfig; cfg_persistence : PersistenceConfig;
  cfg_clock : ClockConfig; cfg_expiry_lifecycle : ExpiryLifecycleConfig; cfg_seed_value : Z;
  cfg_bootstrap_secret : option Secret; cfg_log_format : LogFormat; cfg_seed : SeedManifest;
  cfg_microstructure : MicrostructureConfig; cfg_rate_limits : RateLimitConfig }.
