(* ===== verification/Seed.v ===== *)
(** The seed of a venue: what the [[accounts]], [[instruments]] and [[market_maker]] sections of
    a file resolve to ([src/src/config.rs]), and how the accounts are provisioned
    ([src/src/seed.rs]). *)

From S2P Require Export ConfigModel.

(** ** Personas and accounts *)

(** Traversal of a [BTreeMap] that stops at the first error. *)
Fixpoint try_each {E A B} (f : A → result E B) (l : list A) : result E (list B) :=
  match l with
  | [] => Ok []
  | x :: l => y ← f x; ys ← try_each f l; Ok (y :: ys)
  end.

Definition hex_digit (c : Ascii.ascii) : option Z :=
  let n := Z.of_N (Ascii.N_of_ascii c) in
  if (48 <=? n) && (n <=? 57) then Some (n - 48)
  else if (97 <=? n) && (n <=? 102) then Some (n - 87)
  else if (65 <=? n) && (n <=? 70) then Some (n - 55) else None.

(** A 32-byte hash as the integer its bytes spell, the first the most significant. *)
Definition hash_of_bytes (bytes : list Z) : Hash32 := foldl (λ acc b, acc * 256 + b) 0 bytes.

Fixpoint hex_bytes (l : list Ascii.ascii) : option (list Z) :=
  match l with
  | [] => Some []
  | a :: b :: l => hi ← hex_digit a; lo ← hex_digit b; bs ← hex_bytes l; Some ((16 * hi + lo) :: bs)
  | _ => None
  end.

Definition parse_owner_hex (id hex : string) : result ConfigError Hash32 :=
  let hex := String.list_ascii_of_string (trim hex) in
  if negb (length hex =? 64)%nat || negb (forallb (λ c, bool_decide (is_Some (hex_digit c))) hex)
  then Err (SeedInvalidAccount id "owner must be a 64-character hex string (32 bytes)")
  else bytes ← ok_or (SeedInvalidAccount id "owner is not valid hex") (hex_bytes hex);
       Ok (hash_of_bytes bytes).

(** [u8::rotate_left]. *)
Definition rotate_left_u8 (b r : Z) : Z :=
  Z.lor (Z.land (Z.shiftl b r) 255) (Z.shiftr b (8 - r)).

Definition stir (bytes : list Z) (index : nat) (byte : Z) : list Z :=
  alter (λ slot, Z.lxor slot (rotate_left_u8 byte (Z.of_nat (index mod 8)))) (index mod 32)%nat bytes.
Definition owner_bytes (id : list Z) : list Z :=
  let bytes := foldl (λ bytes ib, stir bytes ib.1 ib.2) (replicate 32 0) (imap pair id) in
  let len_byte := Z.of_nat (length id mod 256) in
  imap (λ index slot, Z.lxor slot (Z.lxor len_byte (Z.of_nat index))) bytes.
Definition derive_owner (id : string) : Hash32 := hash_of_bytes (owner_bytes (string_bytes id)).

Definition resolve_account (id : string) (a : FileAccount) : result ConfigError AccountProvision :=
  if bool_decide (fa_permissions a = [])
  then Err (SeedInvalidAccount id "at least one permission is required")
  else
    owner ← match fa_owner a with
            | Some hex => parse_owner_hex id hex
            | None => Ok (derive_owner id)
            end;
    if bool_decide (is_Some (fa_fix_password a)) && negb (bool_decide (is_Some (fa_fix_username a)))
    then Err (SeedInvalidAccount id "fix_password requires fix_username")
    else
      fix_comp_ids ←
        match fa_fix_sender_comp_id a, fa_fix_target_comp_id a with
        | Some sender, Some target =>
            Ok (Some {| cb_sender_comp_id := sender; cb_target_comp_id := target |})
        | None, None => Ok None
        | _, _ =>
            Err (SeedInvalidAccount id
                   "fix_sender_comp_id and fix_target_comp_id must be set together")
        end;
      Ok {| ap_id := id; ap_owner := owner; ap_permissions := fa_permissions a;
            ap_fix_username := fa_fix_username a; ap_fix_password := fa_fix_password a;
            ap_fix_comp_ids := fix_comp_ids |}.

Section seed.
Context `{Upstream} `{SymbolCalendar} `{ConfigLib}.

Definition check_persona_knob (knob persona : string) (value min max : f64) :
    result ConfigError f64 :=
  if negb (f64_is_finite value) || f64_ltb value min || f64_ltb max value
  then Err (SeedInvalidPersona
              ("persona '" +:+ persona +:+ "' knob " +:+ knob +:+ "=" +:+ f64_display value +:+
               " is not finite or is outside [" +:+ f64_display min +:+ ", " +:+
               f64_display max +:+ "]"))
  else Ok value.

Definition resolve_persona (name : string) (p : FilePersona) : result ConfigError SeedPersona :=
  spread ← check_persona_knob "spread_multiplier" name
             (default (f64_of_Z 1) (fpe_spread_multiplier p)) SPREAD_MULTIPLIER_MIN
             SPREAD_MULTIPLIER_MAX;
  size ← check_persona_knob "size_scalar" name (default (f64_of_Z 1) (fpe_size_scalar p))
           SIZE_SCALAR_MIN SIZE_SCALAR_MAX;
  skew ← check_persona_knob "directional_skew" name (default 0 (fpe_directional_skew p))
           DIRECTIONAL_SKEW_MIN DIRECTIONAL_SKEW_MAX;
  let base_size := default DEFAULT_BASE_SIZE (fpe_base_size p) in
  if base_size =? 0
  then Err (SeedInvalidPersona ("persona '" +:+ name +:+ "' base_size must be positive"))
  else Ok {| sp_base_spread_bps := default DEFAULT_BASE_SPREAD_BPS (fpe_base_spread_bps p);
             sp_base_size := base_size; sp_spread_multiplier := spread; sp_size_scalar := size;
             sp_directional_skew := skew |}.

(** ** Instruments *)

(** The strike ladder as a [BTreeSet], refused at the first zero or repeated strike. *)
Fixpoint collect_strikes (underlying : string) (strikes : list Z) (set : list Z) :
    result ConfigError (list Z) :=
  match strikes with
  | [] => Ok set
  | strike :: strikes =>
      if strike =? 0 then Err (SeedInvalidStrikeLadder underlying "a strike is zero")
      else if bool_decide (strike ∈ set)
      then Err (SeedInvalidStrikeLadder underlying ("duplicate strike " +:+ dec strike))
      else collect_strikes underlying strikes (insert_by_key Z.leb id strike set)
  end.

Definition is_digit_char (c : Ascii.ascii) : bool :=
  let n := Ascii.nat_of_ascii c in ((48 <=? n) && (n <=? 57))%nat.

Definition parse_seed_expiry (underlying raw : string) : result ConfigError ExpirationDate :=
  let trimmed := trim raw in
  let chars := String.list_ascii_of_string trimmed in
  candidate ← map_err (SeedInvalidExpiry underlying raw)
                (if (length chars =? 8)%nat && forallb is_digit_char chars
                 then parse_yyyymmdd trimmed "" else expiration_from_string trimmed);
  map_err (λ error, match error with
                    | RelativeExpiryRefused => SeedDaysExpiry underlying raw
                    | other => SeedInvalidExpiry underlying raw (symbol_error_display other)
                    end)
    (validate_venue_expiry candidate).

(** [Vec::dedup_by] on the first component. *)
Fixpoint dedup_key {A} (l : list (string * A)) : list (string * A) :=
  match l with
  | x :: ((y :: _) as l') =>
      match dedup_key l' with
      | z :: rest => if String.eqb x.1 z.1 then x :: rest else x :: z :: rest
      | [] => [x]
      end
  | l => l
  end.

(** ASCII lower case. *)
Definition lower_char (c : Ascii.ascii) : Ascii.ascii :=
  let n := Ascii.nat_of_ascii c in
  if ((65 <=? n) && (n <=? 90))%nat then Ascii.ascii_of_nat (n + 32) else c.
Definition to_ascii_lowercase (s : string) : string :=
  String.string_of_list_ascii (lower_char <$> String.list_ascii_of_string s).

Fixpoint collect_styles (underlying : string) (l : list string) (has_call has_put : bool) :
    result ConfigError (bool * bool) :=
  match l with
  | [] => Ok (has_call, has_put)
  | style :: l =>
      let style := to_ascii_lowercase (trim style) in
      if String.eqb style "call" || String.eqb style "c"
      then collect_styles underlying l true has_put
      else if String.eqb style "put" || String.eqb style "p"
      then collect_styles underlying l has_call true
      else Err (SeedInvalidInstrument underlying
                  ("unknown option style '" +:+ style +:+ "' (expected call or put)"))
  end.
Definition resolve_styles (underlying : string) (styles : option (list string)) :
    result ConfigError (list OptionStyle) :=
  match styles with
  | None => Ok [Call; Put]
  | Some [] =>
      Err (SeedInvalidInstrument underlying
             "styles list is empty; omit it to seed both call and put")
  | Some l =>
      '(has_call, has_put) ← collect_styles underlying l false false;
      Ok ((if (has_call : bool) then [Call] else []) ++ (if (has_put : bool) then [Put] else []))
  end.

Definition map_instrument_symbol_error (underlying : string) (e : SymbolError) : ConfigError :=
  match e with
  | InvalidSymbol _ reason => SeedInvalidInstrument underlying reason
  | RelativeExpiryRefused => SeedDaysExpiry underlying "(resolved expiry)"
  | other => SeedInvalidExpiry underlying "(resolved expiry)" (symbol_error_display other)
  end.

Definition dated_expiry (underlying raw : string) : result ConfigError (string * ExpirationDate) :=
  date ← parse_seed_expiry underlying raw;
  yyyymmdd ← map_err (SeedInvalidExpiry underlying raw) (format_expiration_yyyymmdd date);
  Ok (yyyymmdd, date).

Definition resolve_instrument (personas : list (string * SeedPersona))
    (default_persona : option string) (underlying : string) (i : FileInstrument) :
    result ConfigError SeedInstrumentSet :=
  if fi_opening_price_cents i =? 0
  then Err (SeedInvalidInstrument underlying "opening_price_cents must be positive")
  else if bool_decide (fi_expirations i = [])
  then Err (SeedInvalidInstrument underlying "at least one expiration is required")
  else if bool_decide (fi_strikes i = [])
  then Err (SeedInvalidStrikeLadder underlying "the strike ladder is empty")
  else
    strikes ← collect_strikes underlying (fi_strikes i) [];
    persona ←
      match fi_persona i with
      | Some name =>
          if bool_decide (is_Some (bt_get name personas)) then Ok (Some name)
          else Err (SeedInvalidPersona ("instrument '" +:+ underlying +:+
                                        "' references undefined persona '" +:+ name +:+ "'"))
      | None => Ok default_persona
      end;
    expirations ← try_each (dated_expiry underlying) (fi_expirations i);
    let expirations := dedup_key (sort_by_key String.leb fst expirations) in
    styles ← resolve_styles underlying (fi_styles i);
    contracts ← try_each
      (λ '(date, strike, style),
         map_err (map_instrument_symbol_error underlying)
           (ins_symbol <$> Instrument_try_new underlying date strike style Active))
      (date ← expirations.*2; strike ← strikes; style ← styles; [(date, strike, style)]);
    Ok {| si_underlying := underlying; si_opening_price := fi_opening_price_cents i;
          si_contracts := contracts; si_persona := persona |}.

(** ** The manifest *)

Definition resolve_seed_manifest (accounts : option (list (string * FileAccount)))
    (instruments : option (list (string * FileInstrument)))
    (market_maker : option FileMarketMaker) : result ConfigError SeedManifest :=
  personas ← try_each (λ '(name, p), resolved ← resolve_persona name p; Ok (name, resolved))
               (default [] (mm ← market_maker; fm_personas mm));
  default_persona ←
    match mm ← market_maker; fm_default_persona mm with
    | Some name =>
        if bool_decide (is_Some (bt_get name personas)) then Ok (Some name)
        else Err (SeedInvalidPersona ("default_persona '" +:+ name +:+
                    "' is not defined under [market_maker.personas]"))
    | None => Ok (match personas with [(name, _)] => Some name | _ => None end)
    end;
  accounts ← try_each (λ '(id, a), resolve_account id a) (default [] accounts);
  instruments ← try_each (λ '(u, i), resolve_instrument personas default_persona u i)
                  (default [] instruments);
  Ok {| sm_accounts := accounts; sm_instruments := instruments; sm_personas := personas;
        sm_default_persona := default_persona |}.

Definition seed_manifest (f : FileConfig) : result ConfigError SeedManifest :=
  resolve_seed_manifest (f_accounts f) (f_instruments f) (f_market_maker f).
End seed.

(** ** Provisioning ([seed.rs]) *)

Inductive SeedError :=
  | SeedAccount (e : AuthError)
  | AccountConflict (id : string)
  | InstrumentPriceConflict (underlying : string) (existing requested : Z)
  | UnknownUnderlying (underlying : string)
  | SeedPersonaError (reason : string).

Section provisioning.
Context `{!CredentialLib}.

(** Each new account is given the salt [salt] draws for it; an account already there is left
    alone when it agrees, and refused when it does not. *)
Fixpoint provision_seed_accounts (salt : AccountId → Z) (provisions : list AccountProvision)
    (provisioned unchanged : Z) (r : AccountRegistry) :
    AccountRegistry * result SeedError (Z * Z) :=
  match provisions with
  | [] => (r, Ok (provisioned, unchanged))
  | p :: provisions =>
      match account r (ap_id p) with
      | Some existing =>
          if negb (bool_decide (acc_permissions existing = ap_permissions p))
             || negb (bool_decide (cr_fix_username (acc_credentials existing) = ap_fix_username p))
          then (r, Err (AccountConflict (ap_id p)))
          else provision_seed_accounts salt provisions provisioned (unchanged + 1) r
      | None =>
          match provision_account (salt (ap_id p)) p r with
          | (r, Err e) => (r, Err (SeedAccount e))
          | (r, Ok tt) => provision_seed_accounts salt provisions (provisioned + 1) unchanged r
          end
      end
  end.
End provisioning.
