(* ===== verification/Config.v ===== *)
(** The layered configuration ([src/src/config.rs]): defaults, file, environment and command line
    merged field by field, validated, and rendered without its secrets. *)

From Stdlib Require Import Ascii.
From S2P Require Export Seed.

(** ** Layers *)

Record RawConfig := {
  raw_http_addr : option string; raw_fix_addr : option string; raw_fix_enabled : option string;
  raw_fix_connection_cap : option string; raw_fix_mailbox_depth : option string;
  raw_fix_max_frame_bytes : option string; raw_fix_idle_timeout_secs : option string;
  raw_fix_logon_timeout_secs : option string; raw_fix_max_heart_bt_int_secs : option string;
  raw_database_url : option string; raw_db_pool_max_connections : option string;
  raw_db_slow_acquire_ms : option string; raw_clock : option string;
  raw_clock_multiplier : option string; raw_clock_step_interval_ms : option string;
  raw_expiry_time : option string; raw_settlement_time : option string;
  raw_seed : option string; raw_bootstrap_secret : option string;
  raw_log_format : option string }.

Definition RawConfig_default : RawConfig :=
  {| raw_http_addr := None; raw_fix_addr := None; raw_fix_enabled := None;
     raw_fix_connection_cap := None; raw_fix_mailbox_depth := None;
     raw_fix_max_frame_bytes := None; raw_fix_idle_timeout_secs := None;
     raw_fix_logon_timeout_secs := None; raw_fix_max_heart_bt_int_secs := None;
     raw_database_url := None; raw_db_pool_max_connections := None;
     raw_db_slow_acquire_ms := None; raw_clock := None; raw_clock_multiplier := None;
     raw_clock_step_interval_ms := None; raw_expiry_time := None; raw_settlement_time := None;
     raw_seed := None; raw_bootstrap_secret := None; raw_log_format := None |}.

Definition bool_display (b : bool) : string := if b then "true" else "false".

Definition default_layer : RawConfig :=
  {| raw_http_addr := Some DEFAULT_HTTP_ADDR; raw_fix_addr := Some DEFAULT_FIX_ADDR;
     raw_fix_enabled := Some (bool_display DEFAULT_FIX_ENABLED);
     raw_fix_connection_cap := Some (dec DEFAULT_FIX_CONNECTION_CAP);
     raw_fix_mailbox_depth := Some (dec DEFAULT_FIX_MAILBOX_DEPTH);
     raw_fix_max_frame_bytes := Some (dec DEFAULT_FIX_MAX_FRAME_BYTES);
     raw_fix_idle_timeout_secs := Some (dec DEFAULT_FIX_IDLE_TIMEOUT_SECS);
     raw_fix_logon_timeout_secs := Some (dec DEFAULT_FIX_LOGON_TIMEOUT_SECS);
     raw_fix_max_heart_bt_int_secs := Some (dec DEFAULT_FIX_MAX_HEART_BT_INT_SECS);
     raw_database_url := None;
     raw_db_pool_max_connections := Some (dec DEFAULT_DB_POOL_MAX_CONNECTIONS);
     raw_db_slow_acquire_ms := Some (dec DEFAULT_DB_SLOW_ACQUIRE_MS);
     raw_clock := Some (clock_as_str DEFAULT_CLOCK);
     raw_clock_multiplier := Some (dec DEFAULT_ACCEL_MULTIPLIER);
     raw_clock_step_interval_ms := Some (dec DEFAULT_STEP_INTERVAL_MS);
     raw_expiry_time := Some DEFAULT_EXPIRY_TIME;
     raw_settlement_time := Some DEFAULT_SETTLEMENT_TIME;
     raw_seed := Some (dec DEFAULT_SEED); raw_bootstrap_secret := None;
     raw_log_format := Some (log_as_str DEFAULT_LOG_FORMAT) |}.

Definition over (other self : option string) : option string :=
  match other with Some value => Some value | None => self end.

Definition overlay (self other : RawConfig) : RawConfig :=
  let pick (f : RawConfig → option string) := over (f other) (f self) in
  {| raw_http_addr := pick raw_http_addr; raw_fix_addr := pick raw_fix_addr;
     raw_fix_enabled := pick raw_fix_enabled;
     raw_fix_connection_cap := pick raw_fix_connection_cap;
     raw_fix_mailbox_depth := pick raw_fix_mailbox_depth;
     raw_fix_max_frame_bytes := pick raw_fix_max_frame_bytes;
     raw_fix_idle_timeout_secs := pick raw_fix_idle_timeout_secs;
     raw_fix_logon_timeout_secs := pick raw_fix_logon_timeout_secs;
     raw_fix_max_heart_bt_int_secs := pick raw_fix_max_heart_bt_int_secs;
     raw_database_url := pick raw_database_url;
     raw_db_pool_max_connections := pick raw_db_pool_max_connections;
     raw_db_slow_acquire_ms := pick raw_db_slow_acquire_ms; raw_clock := pick raw_clock;
     raw_clock_multiplier := pick raw_clock_multiplier;
     raw_clock_step_interval_ms := pick raw_clock_step_interval_ms;
     raw_expiry_time := pick raw_expiry_time; raw_settlement_time := pick raw_settlement_time;
     raw_seed := pick raw_seed; raw_bootstrap_secret := pick raw_bootstrap_secret;
     raw_log_format := pick raw_log_format |}.

(** An environment variable set to the empty string is as good as unset. *)
Definition pick_env (get : string → option string) (key : string) : option string :=
  value ← get key; if String.eqb value "" then None else Some value.

Definition raw_from_env (get : string → option string) : RawConfig :=
  let pick := pick_env get in
  {| raw_http_addr := pick "FAUXCHANGE_HTTP_ADDR"; raw_fix_addr := pick "FAUXCHANGE_FIX_ADDR";
     raw_fix_enabled := None; raw_fix_connection_cap := None; raw_fix_mailbox_depth := None;
     raw_fix_max_frame_bytes := None; raw_fix_idle_timeout_secs := None;
     raw_fix_logon_timeout_secs := None; raw_fix_max_heart_bt_int_secs := None;
     raw_database_url := pick "DATABASE_URL";
     raw_db_pool_max_connections := pick "FAUXCHANGE_DB_MAX_CONNECTIONS";
     raw_db_slow_acquire_ms := pick "FAUXCHANGE_DB_SLOW_ACQUIRE_MS";
     raw_clock := pick "FAUXCHANGE_CLOCK"; raw_clock_multiplier := None;
     raw_clock_step_interval_ms := None; raw_expiry_time := None; raw_settlement_time := None;
     raw_seed := pick "FAUXCHANGE_SEED"; raw_bootstrap_secret := pick "AUTH_BOOTSTRAP_SECRET";
     raw_log_format := pick "FAUXCHANGE_LOG_FORMAT" |}.

(** An optional key of an optional section. *)
Definition in_section {S A} (key : S → option A) (section : option S) : option A :=
  s ← section; key s.

Definition into_raw (f : FileConfig) : RawConfig :=
  {| raw_http_addr := mjoin (f_server f); raw_fix_addr := in_section ff_fix_addr (f_fix f);
     raw_fix_enabled := bool_display <$> in_section ff_enabled (f_fix f);
     raw_fix_connection_cap := dec <$> in_section ff_connection_cap (f_fix f);
     raw_fix_mailbox_depth := dec <$> in_section ff_mailbox_depth (f_fix f);
     raw_fix_max_frame_bytes := dec <$> in_section ff_max_frame_bytes (f_fix f);
     raw_fix_idle_timeout_secs := dec <$> in_section ff_idle_timeout_secs (f_fix f);
     raw_fix_logon_timeout_secs := dec <$> in_section ff_logon_timeout_secs (f_fix f);
     raw_fix_max_heart_bt_int_secs := dec <$> in_section ff_max_heart_bt_int_secs (f_fix f);
     raw_database_url := in_section fp_database_url (f_persistence f);
     raw_db_pool_max_connections := dec <$> in_section fp_pool_max_connections (f_persistence f);
     raw_db_slow_acquire_ms := dec <$> in_section fp_slow_acquire_ms (f_persistence f);
     raw_clock := in_section fc_mode (f_clock f);
     raw_clock_multiplier := dec <$> in_section fc_multiplier (f_clock f);
     raw_clock_step_interval_ms := dec <$> in_section fc_step_interval_ms (f_clock f);
     raw_expiry_time := in_section fe_expiry_time (f_expiry_lifecycle f);
     raw_settlement_time := in_section fe_settlement_time (f_expiry_lifecycle f);
     raw_seed := dec <$> mjoin (f_determinism f); raw_bootstrap_secret := mjoin (f_auth f);
     raw_log_format := mjoin (f_logging f) |}.

(** ** The command line *)

(** [str::split_once] at the first equals sign. *)
Fixpoint split_once_eq (s : string) : option (string * string) :=
  match s with
  | EmptyString => None
  | String c s =>
      if bool_decide (c = "="%char) then Some (EmptyString, s)
      else '(a, b) ← split_once_eq s; Some (String c a, b)
  end.

Record CliLayer := { cli_config_path : option string; cli_raw : RawConfig }.

Definition cli_flags : list string :=
  ["--config"; "--http-addr"; "--fix-addr"; "--database-url"; "--db-max-connections";
   "--db-slow-acquire-ms"; "--clock"; "--seed"; "--log-format"].

(** The field a flag writes. *)
Definition cli_write (flag value : string) (r : RawConfig) : RawConfig :=
  let set (name : string) (f : RawConfig → option string) :=
    if String.eqb flag name then Some value else f r in
  {| raw_http_addr := set "--http-addr" raw_http_addr;
     raw_fix_addr := set "--fix-addr" raw_fix_addr;
     raw_fix_enabled := raw_fix_enabled r; raw_fix_connection_cap := raw_fix_connection_cap r;
     raw_fix_mailbox_depth := raw_fix_mailbox_depth r;
     raw_fix_max_frame_bytes := raw_fix_max_frame_bytes r;
     raw_fix_idle_timeout_secs := raw_fix_idle_timeout_secs r;
     raw_fix_logon_timeout_secs := raw_fix_logon_timeout_secs r;
     raw_fix_max_heart_bt_int_secs := raw_fix_max_heart_bt_int_secs r;
     raw_database_url := set "--database-url" raw_database_url;
     raw_db_pool_max_connections := set "--db-max-connections" raw_db_pool_max_connections;
     raw_db_slow_acquire_ms := set "--db-slow-acquire-ms" raw_db_slow_acquire_ms;
     raw_clock := set "--clock" raw_clock; raw_clock_multiplier := raw_clock_multiplier r;
     raw_clock_step_interval_ms := raw_clock_step_interval_ms r;
     raw_expiry_time := raw_expiry_time r; raw_settlement_time := raw_settlement_time r;
     raw_seed := set "--seed" raw_seed; raw_bootstrap_secret := raw_bootstrap_secret r;
     raw_log_format := set "--log-format" raw_log_format |}.

Definition cli_set (flag value : string) (l : CliLayer) : CliLayer :=
  if String.eqb flag "--config" then {| cli_config_path := Some value; cli_raw := cli_raw l |}
  else {| cli_config_path := cli_config_path l; cli_raw := cli_write flag value (cli_raw l) |}.

(** A flag takes its value inline, or consumes the next argument. *)
Fixpoint parse_cli_from (args : list string) (l : CliLayer) : result ConfigError CliLayer :=
  match args with
  | [] => Ok l
  | arg :: args =>
      let '(flag, inline) :=
        match split_once_eq arg with
        | Some (flag, value) => (flag, Some value)
        | None => (arg, None)
        end in
      if negb (bool_decide (flag ∈ cli_flags)) then Err (UnknownCliFlag flag)
      else
        match inline, args with
        | Some value, _ => parse_cli_from args (cli_set flag value l)
        | None, value :: args => parse_cli_from args (cli_set flag value l)
        | None, [] => Err (MissingCliValue flag)
        end
  end.
Definition parse_cli (args : list string) : result ConfigError CliLayer :=
  parse_cli_from args {| cli_config_path := None; cli_raw := RawConfig_default |}.

(** ** Validation *)

Definition parse_clock (value : option string) : result ConfigError CfgClockMode :=
  let value := default (clock_as_str DEFAULT_CLOCK) value in
  ok_or (InvalidClock value) (clock_from_token value).
Definition parse_log_format (value : option string) : result ConfigError LogFormat :=
  let value := default (log_as_str DEFAULT_LOG_FORMAT) value in
  ok_or (InvalidLogFormat value) (log_from_token value).
Definition parse_seed (value : option string) : result ConfigError Z :=
  let value := default (dec DEFAULT_SEED) value in
  ok_or (BadSeed value) (parse_uint u64 (trim value)).

Definition parse_pool_u32 (field : string) (value : option string) (dflt : Z) :
    result ConfigError Z :=
  let value := default (dec dflt) value in
  n ← ok_or (BadPersistenceValue field value) (parse_uint u32 (trim value)); Ok (Z.max n 1).
Definition parse_pool_u64 (field : string) (value : option string) (dflt : Z) :
    result ConfigError Z :=
  let value := default (dec dflt) value in
  ok_or (BadPersistenceValue field value) (parse_uint u64 (trim value)).
Definition parse_clock_u32 (field : string) (value : option string) (dflt : Z) :
    result ConfigError Z :=
  let value := default (dec dflt) value in
  n ← ok_or (BadClockValue field value) (parse_uint u32 (trim value)); Ok (Z.max n 1).
Definition parse_clock_u64 (field : string) (value : option string) (dflt : Z) :
    result ConfigError Z :=
  let value := default (dec dflt) value in
  n ← ok_or (BadClockValue field value) (parse_uint u64 (trim value)); Ok (Z.max n 1).

Definition parse_fix_bool (field : string) (value : option string) (dflt : bool) :
    result ConfigError bool :=
  let value := default (bool_display dflt) value in
  let token := trim value in
  if String.eqb token "true" then Ok true
  else if String.eqb token "false" then Ok false
  else Err (BadFixValue field value "expected a boolean (true / false)").

Definition parse_fix_usize (field : string) (value : option string) (dflt min max : Z) :
    result ConfigError Z :=
  let value := default (dec dflt) value in
  parsed ← ok_or (BadFixValue field value "expected a non-negative integer")
             (parse_uint usize (trim value));
  if (parsed <? min) || (max <? parsed)
  then Err (BadFixValue field value
              ("expected an integer in " +:+ dec min +:+ "..=" +:+ dec max))
  else Ok parsed.
(** [u64] and [usize] have the same width. *)
Definition parse_fix_u64 := parse_fix_usize.

Definition parse_operational_time (field : string) (value : option string) (dflt : string) :
    result ConfigError OperationalTime :=
  let value := default dflt value in
  ok_or (BadOperationalTime field value) (parse_time value).

Definition parse_expiry_lifecycle (expiry_time settlement_time : option string) :
    result ConfigError ExpiryLifecycleConfig :=
  expiry ← parse_operational_time "expiry_time" expiry_time DEFAULT_EXPIRY_TIME;
  settlement ← parse_operational_time "settlement_time" settlement_time DEFAULT_SETTLEMENT_TIME;
  let before_identity field time :=
    if IDENTITY_EXPIRY_SECS <=? secs_since_midnight time
    then Err (OperationalTimeNotBeforeIdentity field (time_display time)) else Ok tt in
  _ ← before_identity "expiry_time" expiry;
  _ ← before_identity "settlement_time" settlement;
  if secs_since_midnight settlement <? secs_since_midnight expiry
  then Err (OperationalSettlementBeforeExpiry (time_display expiry) (time_display settlement))
  else Ok {| cfg_expiry_time := expiry; cfg_settlement_time := settlement |}.

Section config.
Context `{Upstream} `{SymbolCalendar} `{ConfigLib}.

Definition parse_addr (field : string) (value : option string) : result ConfigError SocketAddr :=
  let value := default "" value in
  map_err (BadAddress field value) (parse_socket_addr value).

(** The read buffers of all connections together. *)
Definition check_aggregate (connection_cap max_frame_bytes : Z) : result ConfigError unit :=
  let over_aggregate :=
    match checked_mul usize connection_cap max_frame_bytes with
    | Some product => FIX_MAX_AGGREGATE_FRAME_BYTES <? product
    | None => true
    end in
  if over_aggregate
  then Err (BadFixValue "connection_cap"
              (dec connection_cap +:+ " × " +:+ dec max_frame_bytes +:+ " max_frame_bytes")
              ("connection_cap × max_frame_bytes exceeds the " +:+
               dec FIX_MAX_AGGREGATE_FRAME_BYTES +:+ "-byte aggregate ceiling"))
  else Ok tt.

Definition validate (r : RawConfig) : result ConfigError Config :=
  http_addr ← parse_addr "http_addr" (raw_http_addr r);
  fix_addr ← parse_addr "fix_addr" (raw_fix_addr r);
  fix_enabled ← parse_fix_bool "enabled" (raw_fix_enabled r) DEFAULT_FIX_ENABLED;
  connection_cap ← parse_fix_usize "connection_cap" (raw_fix_connection_cap r)
                     DEFAULT_FIX_CONNECTION_CAP 1 FIX_MAX_CONNECTION_CAP;
  mailbox_depth ← parse_fix_usize "mailbox_depth" (raw_fix_mailbox_depth r)
                    DEFAULT_FIX_MAILBOX_DEPTH 1 FIX_MAX_MAILBOX_DEPTH;
  max_frame_bytes ← parse_fix_usize "max_frame_bytes" (raw_fix_max_frame_bytes r)
                      DEFAULT_FIX_MAX_FRAME_BYTES FIX_MIN_MAX_FRAME_BYTES FIX_MAX_MAX_FRAME_BYTES;
  idle_timeout_secs ← parse_fix_u64 "idle_timeout_secs" (raw_fix_idle_timeout_secs r)
                        DEFAULT_FIX_IDLE_TIMEOUT_SECS FIX_MIN_IDLE_TIMEOUT_SECS
                        FIX_MAX_IDLE_TIMEOUT_SECS;
  logon_timeout_secs ← parse_fix_u64 "logon_timeout_secs" (raw_fix_logon_timeout_secs r)
                         DEFAULT_FIX_LOGON_TIMEOUT_SECS FIX_MIN_LOGON_TIMEOUT_SECS
                         FIX_MAX_LOGON_TIMEOUT_SECS;
  max_heart_bt ← parse_fix_u64 "max_heart_bt_int_secs" (raw_fix_max_heart_bt_int_secs r)
                   DEFAULT_FIX_MAX_HEART_BT_INT_SECS FIX_MIN_MAX_HEART_BT_INT_SECS
                   FIX_MAX_MAX_HEART_BT_INT_SECS;
  let max_heart_bt := default FIX_MAX_MAX_HEART_BT_INT_SECS (narrow u32 max_heart_bt) in
  _ ← check_aggregate connection_cap max_frame_bytes;
  mode ← parse_clock (raw_clock r);
  multiplier ← parse_clock_u32 "multiplier" (raw_clock_multiplier r) DEFAULT_ACCEL_MULTIPLIER;
  step_interval_ms ← parse_clock_u64 "step_interval_ms" (raw_clock_step_interval_ms r)
                       DEFAULT_STEP_INTERVAL_MS;
  expiry_lifecycle ← parse_expiry_lifecycle (raw_expiry_time r) (raw_settlement_time r);
  format ← parse_log_format (raw_log_format r);
  seed ← parse_seed (raw_seed r);
  pool_max_connections ← parse_pool_u32 "pool_max_connections" (raw_db_pool_max_connections r)
                           DEFAULT_DB_POOL_MAX_CONNECTIONS;
  slow_acquire_ms ← parse_pool_u64 "slow_acquire_ms" (raw_db_slow_acquire_ms r)
                      DEFAULT_DB_SLOW_ACQUIRE_MS;
  Ok {| cfg_http_addr := http_addr;
        cfg_fix := {| cfg_fix_enabled := fix_enabled; cfg_fix_addr := fix_addr;
                      cfg_connection_cap := connection_cap; cfg_mailbox_depth := mailbox_depth;
                      cfg_max_frame_bytes := max_frame_bytes;
                      cfg_idle_timeout_secs := idle_timeout_secs;
                      cfg_logon_timeout_secs := logon_timeout_secs;
                      cfg_max_heart_bt_int_secs := max_heart_bt |};
        cfg_persistence := {| cfg_database_url := Build_Secret <$> raw_database_url r;
                              cfg_pool_max_connections := pool_max_connections;
                              cfg_slow_acquire_ms := slow_acquire_ms |};
        cfg_clock := {| cfg_mode := mode; cfg_multiplier := multiplier;
                        cfg_step_interval_ms := step_interval_ms |};
        cfg_expiry_lifecycle := expiry_lifecycle; cfg_seed_value := seed;
        cfg_bootstrap_secret := Build_Secret <$> raw_bootstrap_secret r;
        cfg_log_format := format; cfg_seed := SeedManifest_default;
        cfg_microstructure := MicrostructureConfig_default;
        cfg_rate_limits := RateLimitConfig_default |}.

Definition assemble (file env cli : RawConfig) : result ConfigError Config :=
  validate (overlay (overlay (overlay default_layer file) env) cli).

(** ** The file's own sections *)

(** The specs of the seed instruments, overridden by the dedicated table. *)
Definition collect_instrument_specs (f : FileConfig) : list (string * ContractSpecsConfig) :=
  let of_instruments := omap (λ '(u, i), pair u <$> fi_specs i) (default [] (f_instruments f)) in
  let overrides := default [] (m ← f_microstructure f; m.2) in
  foldl (λ m e, bt_insert String.leb e.1 e.2 m) [] (of_instruments ++ overrides).
Definition FileMicrostructure_default : FileMicrostructure :=
  {| file_fees := None; file_stp := None; file_specs := None; file_latency := None |}.
Definition microstructure_config (f : FileConfig) : result ConfigError MicrostructureConfig :=
  map_err MicrostructureRefused
    (resolve_config (default FileMicrostructure_default (fst <$> f_microstructure f))
       (collect_instrument_specs f)).
Definition rate_limits_config (f : FileConfig) : result ConfigError RateLimitConfig :=
  let config := default RateLimitConfig_default (f_rate_limits f) in
  _ ← rate_limits_validate config; Ok config.

(** ** Errors of the file *)

Definition SECRET_KEY_TOKENS : list string :=
  ["fix_password"; "bootstrap_secret"; "database_url"; "password"].

(** [str::find] followed by the text after the match. *)
Fixpoint find_after (marker s : string) : option string :=
  match Auth.strip_prefix marker s with
  | Some rest => Some rest
  | None => match s with EmptyString => None | String _ s => find_after marker s end
  end.
Definition contains (token s : string) : bool := bool_decide (is_Some (find_after token s)).

Fixpoint up_to (stop : Ascii.ascii) (s : string) : option string :=
  match s with
  | EmptyString => None
  | String c s => if bool_decide (c = stop) then Some EmptyString else String c <$> up_to stop s
  end.
Definition extract_unknown_field (text : string) : option string :=
  rest ← find_after "unknown field `" text; up_to "`"%char rest.

(** A byte that starts a character of UTF-8. *)
Definition is_char_start (c : Ascii.ascii) : bool :=
  let n := Ascii.nat_of_ascii c in ((n <? 128) || (192 <=? n))%nat.
Fixpoint line_col_from (s : string) (offset byte_index line column : Z) : Z * Z :=
  match s with
  | EmptyString => (line, column)
  | String c s =>
      if negb (is_char_start c) then line_col_from s (offset + 1) byte_index line column
      else if byte_index <=? offset then (line, column)
      else if bool_decide (c = "010"%char)
      then line_col_from s (offset + 1) byte_index (line + 1) 1
      else line_col_from s (offset + 1) byte_index line (column + 1)
  end.
Definition line_col (contents : string) (byte_index : Z) : Z * Z :=
  line_col_from contents 0 byte_index 1 1.

Definition QUOTE : Ascii.ascii := "034"%char.
(** [inside] tells, within a quoted literal, whether it has shown any contents. *)
Fixpoint scrub (inside : option bool) (s : string) : string :=
  match s, inside with
  | EmptyString, None => EmptyString
  | EmptyString, Some had_contents =>
      (if had_contents then REDACTED else "") +:+ String QUOTE EmptyString
  | String c s, None => String c (scrub (if bool_decide (c = QUOTE) then Some false else None) s)
  | String c s, Some had_contents =>
      if bool_decide (c = QUOTE)
      then (if had_contents then REDACTED else "") +:+ String c (scrub None s)
      else scrub (Some true) s
  end.
Definition scrub_secret_literals (message : string) : string :=
  if existsb (λ token, contains token (to_ascii_lowercase message)) SECRET_KEY_TOKENS
  then scrub None message else message.

Definition map_toml_error (error : TomlError) (contents : string) : ConfigError :=
  match extract_unknown_field (te_message error) with
  | Some key => UnknownKey key
  | None =>
      let scrubbed := scrub_secret_literals (te_message error) in
      TomlParse
        match te_start error with
        | Some start =>
            let '(line, column) := line_col contents start in
            "TOML parse error at line " +:+ dec line +:+ ", column " +:+ dec column +:+ ": " +:+
            scrubbed
        | None => "TOML parse error: " +:+ scrubbed
        end
  end.
Definition parse_file_config (contents : string) : result ConfigError FileConfig :=
  map_err (λ e, map_toml_error e contents) (toml_from_str contents).
Definition read_file_config (path : string) : result ConfigError FileConfig :=
  contents ← map_err (FileRead path) (read_to_string path); parse_file_config contents.

(** ** Loading *)

Definition with_sections (seed : SeedManifest) (microstructure : MicrostructureConfig)
    (rate_limits : RateLimitConfig) (c : Config) : Config :=
  {| cfg_http_addr := cfg_http_addr c; cfg_fix := cfg_fix c;
     cfg_persistence := cfg_persistence c; cfg_clock := cfg_clock c;
     cfg_expiry_lifecycle := cfg_expiry_lifecycle c; cfg_seed_value := cfg_seed_value c;
     cfg_bootstrap_secret := cfg_bootstrap_secret c; cfg_log_format := cfg_log_format c;
     cfg_seed := seed; cfg_microstructure := microstructure; cfg_rate_limits := rate_limits |}.

Definition load_file (path : option string) :
    result ConfigError (RawConfig * SeedManifest * MicrostructureConfig * RateLimitConfig) :=
  match path with
  | Some path =>
      file ← read_file_config path;
      seed ← seed_manifest file;
      microstructure ← microstructure_config file;
      rate_limits ← rate_limits_config file;
      Ok (into_raw file, seed, microstructure, rate_limits)
  | None =>
      Ok (RawConfig_default, SeedManifest_default, MicrostructureConfig_default,
          RateLimitConfig_default)
  end.

Definition load_from (args : list string) (env : string → option string) :
    result ConfigError Config :=
  cli ← parse_cli args;
  '(file, seed, microstructure, rate_limits) ← load_file (cli_config_path cli);
  config ← assemble file (raw_from_env env) (cli_raw cli);
  Ok (with_sections seed microstructure rate_limits config).

Definition secret_or_unset (s : option Secret) : string :=
  match s with Some secret => secret_display secret | None => "<unset>" end.

Definition render_effective (c : Config) : string :=
  "server.http_addr=" +:+ socket_addr_display (cfg_http_addr c) +:+
  " fix.enabled=" +:+ bool_display (cfg_fix_enabled (cfg_fix c)) +:+
  " fix.fix_addr=" +:+ socket_addr_display (cfg_fix_addr (cfg_fix c)) +:+
  " fix.connection_cap=" +:+ dec (cfg_connection_cap (cfg_fix c)) +:+
  " fix.mailbox_depth=" +:+ dec (cfg_mailbox_depth (cfg_fix c)) +:+
  " fix.max_frame_bytes=" +:+ dec (cfg_max_frame_bytes (cfg_fix c)) +:+
  " fix.idle_timeout_secs=" +:+ dec (cfg_idle_timeout_secs (cfg_fix c)) +:+
  " persistence.backend=" +:+ backend_as_str (backend (cfg_persistence c)) +:+
  " persistence.database_url=" +:+ secret_or_unset (cfg_database_url (cfg_persistence c)) +:+
  " persistence.pool_max_connections=" +:+ dec (cfg_pool_max_connections (cfg_persistence c)) +:+
  " persistence.slow_acquire_ms=" +:+ dec (cfg_slow_acquire_ms (cfg_persistence c)) +:+
  " clock.mode=" +:+ clock_as_str (cfg_mode (cfg_clock c)) +:+
  " expiry_lifecycle.expiry_time=" +:+ time_display (cfg_expiry_time (cfg_expiry_lifecycle c)) +:+
  " expiry_lifecycle.settlement_time=" +:+
    time_display (cfg_settlement_time (cfg_expiry_lifecycle c)) +:+
  " determinism.seed=" +:+ dec (cfg_seed_value c) +:+
  " rate_limits.window_secs=" +:+ dec (rlc_window_secs (cfg_rate_limits c)) +:+
  " rate_limits.read_per_window=" +:+ dec (rlc_read_per_window (cfg_rate_limits c)) +:+
  " rate_limits.trade_per_window=" +:+ dec (rlc_trade_per_window (cfg_rate_limits c)) +:+
  " rate_limits.admin_per_window=" +:+ dec (rlc_admin_per_window (cfg_rate_limits c)) +:+
  " auth.bootstrap_secret=" +:+ secret_or_unset (cfg_bootstrap_secret c) +:+
  " logging.format=" +:+ log_as_str (cfg_log_format c).
End config.
