(* ===== verification/ConfigProps.v ===== *)
(** The configuration a venue starts with is valid, takes each setting from the innermost layer
    that has it, and never shows its secrets; the seed it declares is well formed, and seeding
    twice provisions once. *)

From Stdlib Require Import Ascii.
From S2P Require Export Config MicroProps.

(** ** Values in range *)

Lemma parse_uint_range t s n : parse_uint t s = Some n → has_ty t n.
Proof. unfold parse_uint. intros (m & _ & Hn)%bind_Some. apply narrow_Some in Hn as [-> ?]. done. Qed.

Lemma parse_fix_range field value dflt min max n :
  parse_fix_usize field value dflt min max = Ok n → min ≤ n ≤ max.
Proof.
  unfold parse_fix_usize. intros (x & _ & E)%bind_Ok.
  destruct (Z.ltb_spec x min); [done|]. destruct (Z.ltb_spec max x); [done|].
  cbn in E. simp_result. lia.
Qed.

Lemma parse_at_least_one {E} (e : E) t s n :
  1 ≤ int_max t → (m ← ok_or e (parse_uint t s); Ok (Z.max m 1)) = Ok n → 1 ≤ n ≤ int_max t.
Proof.
  intros Ht (m & Hm & [= <-])%bind_Ok. apply ok_or_Ok, parse_uint_range in Hm as [_ ?]. lia.
Qed.

Lemma from_hms_range h m s t :
  0 ≤ h → 0 ≤ m → 0 ≤ s → from_hms h m s = Some t → 0 ≤ secs_since_midnight t < 86_400.
Proof.
  unfold from_hms. intros Hh Hm Hs. destruct (Z.ltb_spec 23 h); [done|].
  destruct (Z.ltb_spec 59 m); [done|]. destruct (Z.ltb_spec 59 s); [done|]. intros [= <-]. cbn. lia.
Qed.

Lemma parse_time_range raw t : parse_time raw = Some t → 0 ≤ secs_since_midnight t < 86_400.
Proof.
  unfold parse_time. destruct (split_str _ _) as [|h [|m [|s rest]]]; try done.
  intros (h' & Hh & (m' & Hm & (s' & Hs & E)%bind_Some)%bind_Some)%bind_Some.
  destruct rest; [|done].
  apply parse_uint_range in Hh as [? _], Hm as [? _], Hs as [? _]. by apply (from_hms_range h' m' s').
Qed.

Definition lifecycle_ok (c : ExpiryLifecycleConfig) : Prop :=
  0 ≤ secs_since_midnight (cfg_expiry_time c) ≤ secs_since_midnight (cfg_settlement_time c) ∧
  secs_since_midnight (cfg_settlement_time c) < IDENTITY_EXPIRY_SECS.

Lemma parse_expiry_lifecycle_ok e s c : parse_expiry_lifecycle e s = Ok c → lifecycle_ok c.
Proof.
  unfold parse_expiry_lifecycle, parse_operational_time.
  intros (e' & He & (s' & Hs & (u1 & H1 & (u2 & H2 & H3)%bind_Ok)%bind_Ok)%bind_Ok)%bind_Ok.
  apply ok_or_Ok, parse_time_range in He, Hs.
  destruct (Z.leb_spec IDENTITY_EXPIRY_SECS (secs_since_midnight s')); [done|].
  destruct (Z.ltb_spec (secs_since_midnight s') (secs_since_midnight e')); [done|].
  injection H3 as <-. split; cbn; lia.
Qed.

Record fix_config_ok `{ConfigLib} (c : FixConfig) : Prop := {
  fco_cap : 1 ≤ cfg_connection_cap c ≤ FIX_MAX_CONNECTION_CAP;
  fco_mailbox : 1 ≤ cfg_mailbox_depth c ≤ FIX_MAX_MAILBOX_DEPTH;
  fco_frame : FIX_MIN_MAX_FRAME_BYTES ≤ cfg_max_frame_bytes c ≤ FIX_MAX_MAX_FRAME_BYTES;
  fco_idle : 1 ≤ cfg_idle_timeout_secs c ≤ FIX_MAX_IDLE_TIMEOUT_SECS;
  fco_logon : 1 ≤ cfg_logon_timeout_secs c ≤ FIX_MAX_LOGON_TIMEOUT_SECS;
  fco_heart : 1 ≤ cfg_max_heart_bt_int_secs c ≤ FIX_MAX_MAX_HEART_BT_INT_SECS;
  fco_aggregate : cfg_connection_cap c * cfg_max_frame_bytes c ≤ FIX_MAX_AGGREGATE_FRAME_BYTES;
}.

(** The settings of the layered part. *)
Record settings_ok `{ConfigLib} (c : Config) : Prop := {
  so_fix : fix_config_ok (cfg_fix c);
  so_multiplier : 1 ≤ cfg_multiplier (cfg_clock c) ≤ int_max u32;
  so_step : 1 ≤ cfg_step_interval_ms (cfg_clock c) ≤ int_max u64;
  so_lifecycle : lifecycle_ok (cfg_expiry_lifecycle c);
  so_seed : has_ty u64 (cfg_seed_value c);
  so_pool : 1 ≤ cfg_pool_max_connections (cfg_persistence c) ≤ int_max u32;
  so_slow : has_ty u64 (cfg_slow_acquire_ms (cfg_persistence c));
}.

Section validate.
Context `{Upstream} `{SymbolCalendar} `{ConfigLib}.

Lemma check_aggregate_ok cap frame u :
  check_aggregate cap frame = Ok u → cap * frame ≤ FIX_MAX_AGGREGATE_FRAME_BYTES.
Proof.
  unfold check_aggregate. destruct (checked_mul _ _ _) as [p|] eqn:E; [|done].
  unfold checked_mul in E. apply narrow_Some in E as [-> _].
  destruct (Z.ltb_spec FIX_MAX_AGGREGATE_FRAME_BYTES (cap * frame)); done.
Qed.

Lemma validate_settings_ok r c : validate r = Ok c → settings_ok c.
Proof.
  unfold validate. intros Hc. repeat apply bind_Ok in Hc as (? & ? & Hc). injection Hc as <-.
  repeat match goal with
  | E : parse_fix_usize _ _ _ _ _ = Ok _ |- _ => apply parse_fix_range in E
  | E : parse_fix_u64 _ _ _ _ _ = Ok _ |- _ => apply parse_fix_range in E
  | E : check_aggregate _ _ = Ok _ |- _ => apply check_aggregate_ok in E
  | E : parse_expiry_lifecycle _ _ = Ok _ |- _ => apply parse_expiry_lifecycle_ok in E
  | E : parse_clock_u32 _ _ _ = Ok _ |- _ => apply parse_at_least_one in E; [|done]
  | E : parse_clock_u64 _ _ _ = Ok _ |- _ => apply parse_at_least_one in E; [|done]
  | E : parse_pool_u32 _ _ _ = Ok _ |- _ => apply parse_at_least_one in E; [|done]
  | E : parse_pool_u64 _ _ _ = Ok _ |- _ => apply ok_or_Ok, parse_uint_range in E
  | E : parse_seed _ = Ok _ |- _ => apply ok_or_Ok, parse_uint_range in E
  end.
  split; cbn; try done. split; cbn; try done.
  rewrite narrow_fits by (split; cbn in *; unfold FIX_MIN_MAX_HEART_BT_INT_SECS,
    FIX_MAX_MAX_HEART_BT_INT_SECS in *; lia). done.
Qed.

(** The instants the expiry scheduler is built from, in milliseconds of the day. *)
Lemma lifecycle_schedules c :
  lifecycle_ok c →
  ExpirySchedule_new (secs_since_midnight (cfg_expiry_time c) * 1000)
    (secs_since_midnight (cfg_settlement_time c) * 1000) =
  Ok {| expiry_offset_ms := secs_since_midnight (cfg_expiry_time c) * 1000;
        settlement_offset_ms := secs_since_midnight (cfg_settlement_time c) * 1000 |}.
Proof.
  unfold lifecycle_ok, IDENTITY_EXPIRY_SECS. intros [Hl Hr]. unfold ExpirySchedule_new, in_day, MS_PER_DAY.
  repeat match goal with
  | |- context [?a <=? ?b] => rewrite (proj2 (Z.leb_le a b)) by lia
  | |- context [?a <? 86400000] => rewrite (proj2 (Z.ltb_lt a 86400000)) by lia
  end.
  cbn. by rewrite (proj2 (Z.ltb_ge _ _)) by lia.
Qed.
End validate.

(** ** The seed *)

Lemma try_each_Forall2 {E A B} (f : A → result E B) l ys :
  try_each f l = Ok ys ↔ Forall2 (λ x y, f x = Ok y) l ys.
Proof.
  revert ys. induction l as [|x l IH]; intros ys; cbn.
  - split; [by intros [= <-]|by intros ->%Forall2_nil_inv_l].
  - split.
    + intros (y & Hy & (ys' & Hys & [= <-])%bind_Ok)%bind_Ok. constructor; [done|]. by apply IH.
    + intros (y & ys' & Hy & Hys & ->)%Forall2_cons_inv_l. rewrite Hy. cbn.
      by rewrite (proj2 (IH ys')).
Qed.

Lemma try_each_Forall {E A B} (f : A → result E B) (P : B → Prop) l ys :
  (∀ x y, f x = Ok y → P y) → try_each f l = Ok ys → Forall P ys.
Proof.
  intros Hf Hys%try_each_Forall2. induction Hys; constructor; eauto.
Qed.

Definition account_provision_ok (p : AccountProvision) : Prop :=
  ap_permissions p ≠ [] ∧ (is_Some (ap_fix_password p) → is_Some (ap_fix_username p)).

Definition persona_ok (p : SeedPersona) : Prop :=
  sp_base_size p ≠ 0 ∧
  f64_contains SPREAD_MULTIPLIER_MIN SPREAD_MULTIPLIER_MAX (sp_spread_multiplier p) = true ∧
  f64_contains SIZE_SCALAR_MIN SIZE_SCALAR_MAX (sp_size_scalar p) = true ∧
  f64_contains DIRECTIONAL_SKEW_MIN DIRECTIONAL_SKEW_MAX (sp_directional_skew p) = true.

Record manifest_ok (m : SeedManifest) : Prop := {
  mo_accounts : Forall account_provision_ok (sm_accounts m);
  mo_personas : Forall (λ np, persona_ok np.2) (sm_personas m);
  mo_default : ∀ name, sm_default_persona m = Some name → is_Some (bt_get name (sm_personas m));
  mo_instruments : Forall (λ s, si_opening_price s ≠ 0 ∧ si_contracts s ≠ [] ∧
    ∀ name, si_persona s = Some name → is_Some (bt_get name (sm_personas m))) (sm_instruments m);
}.

Lemma resolve_account_ok id a p : resolve_account id a = Ok p → account_provision_ok p.
Proof.
  unfold resolve_account. case_bool_decide as Hp; [done|].
  intros (owner & _ & E)%bind_Ok.
  destruct (bool_decide (is_Some (fa_fix_password a))) eqn:Hpw; cbn in E.
  - destruct (bool_decide (is_Some (fa_fix_username a))) eqn:Hu; [|done]. cbn in E.
    apply bind_Ok in E as (ids & _ & [= <-]). split; [done|]. intros _. by apply bool_decide_eq_true in Hu.
  - apply bind_Ok in E as (ids & _ & [= <-]). split; [done|].
    intros Hs. by apply bool_decide_eq_false in Hpw.
Qed.

Section manifest.
Context `{Upstream} `{SymbolCalendar} `{ConfigLib}.

Lemma check_persona_knob_ok knob name x min max y :
  f64_is_nan min = false → f64_is_nan max = false →
  check_persona_knob knob name x min max = Ok y → f64_contains min max y = true.
Proof.
  intros Hmin Hmax. unfold check_persona_knob.
  destruct (f64_is_finite x) eqn:Hf; [|done]. cbn.
  destruct (f64_ltb x min) eqn:H1'; [done|]. destruct (f64_ltb max x) eqn:H2'; [done|].
  intros [= <-].
  assert (f64_is_nan x = false) as Hn.
  { unfold f64_is_finite, F64_INFINITY in Hf. unfold f64_is_nan. apply Z.ltb_lt in Hf.
    apply Z.ltb_ge. cbn. lia. }
  apply f64_not_ltb in H1', H2'; try done. unfold f64_contains, f64_leb.
  rewrite Hn, Hmin, Hmax. cbn. apply andb_true_iff. by split; apply Z.leb_le.
Qed.

Lemma resolve_persona_ok name p q : resolve_persona name p = Ok q → persona_ok q.
Proof.
  unfold resolve_persona.
  intros (sp & H1' & (sz & H2' & (sk & H3' & E)%bind_Ok)%bind_Ok)%bind_Ok.
  apply check_persona_knob_ok in H1', H2', H3'; try done.
  destruct (Z.eqb_spec (default DEFAULT_BASE_SIZE (fpe_base_size p)) 0); [done|].
  injection E as <-. by split.
Qed.

Lemma collect_strikes_nonempty u l set r : collect_strikes u l set = Ok r → l ≠ [] ∨ set ≠ [] → r ≠ [].
Proof.
  revert set. induction l as [|x l IH]; intros set; cbn; [intros [= <-]; tauto|].
  destruct (x =? 0); [done|]. case_bool_decide; [done|]. intros Hr _. apply (IH _ Hr). right.
  intros E. by apply (f_equal length) in E; rewrite (Permutation_length (insert_by_key_perm _ _ _ _)) in E.
Qed.

Lemma dedup_key_nonempty {A} (l : list (string * A)) : l ≠ [] → dedup_key l ≠ [].
Proof.
  destruct l as [|x [|y l]]; [done..|]. intros _.
  change (dedup_key (x :: y :: l)) with
    (match dedup_key (y :: l) with
     | z :: rest => if String.eqb x.1 z.1 then x :: rest else x :: z :: rest
     | [] => [x]
     end).
  destruct (dedup_key (y :: l)); [done|]. by destruct (String.eqb _ _).
Qed.

Lemma resolve_styles_nonempty u styles r : resolve_styles u styles = Ok r → r ≠ [].
Proof.
  assert (∀ l c p r, collect_styles u l c p = Ok r → l ≠ [] ∨ c = true ∨ p = true →
    r.1 = true ∨ r.2 = true) as Hc.
  { induction l as [|x l IH]; intros c p r'; cbn; [intros [= <-]; cbn; tauto|].
    intros E _. destruct (_ || _); [apply (IH _ _ _ E); tauto|].
    destruct (_ || _); [apply (IH _ _ _ E); tauto|done]. }
  destruct styles as [[|x l]|]; cbn [resolve_styles]; [done| |by intros [= <-]].
  intros ([c p] & E & [= <-])%bind_Ok. apply Hc in E; [|by left]. cbn in E. destruct c, p; cbn; naive_solver.
Qed.

Lemma resolve_instrument_ok personas dflt u i s :
  (∀ name, dflt = Some name → is_Some (bt_get name personas)) →
  resolve_instrument personas dflt u i = Ok s →
  si_opening_price s ≠ 0 ∧ si_contracts s ≠ [] ∧
  ∀ name, si_persona s = Some name → is_Some (bt_get name personas).
Proof.
  intros Hd. unfold resolve_instrument.
  destruct (Z.eqb_spec (fi_opening_price_cents i) 0); [done|].
  case_bool_decide as Hexp; [done|]. case_bool_decide as Hstr; [done|].
  intros (strikes & Hs & (persona & Hp & (exps & He & (styles & Hst & (cs & Hcs & [= <-])%bind_Ok)
    %bind_Ok)%bind_Ok)%bind_Ok)%bind_Ok.
  cbn. split_and!; [done| |].
  - apply collect_strikes_nonempty in Hs; [|by left]. apply resolve_styles_nonempty in Hst.
    assert (dedup_key (sort_by_key String.leb fst exps) ≠ []) as Hde.
    { apply dedup_key_nonempty. intros E. apply (f_equal length) in E.
      rewrite (Permutation_length (sort_by_key_perm _ _ _)) in E.
      apply try_each_Forall2, Forall2_length in He. destruct (fi_expirations i); [done|].
      cbn in *. lia. }
    destruct (dedup_key _) as [|d ds]; [done|]. destruct strikes as [|k ks]; [done|].
    destruct styles as [|t ts]; [done|]. apply try_each_Forall2, Forall2_length in Hcs.
    intros ->. cbn in Hcs. done.
  - destruct (fi_persona i) as [name'|]; [|by injection Hp as <-].
    case_bool_decide as Hin; [|done]. injection Hp as <-. by intros ? [= <-].
Qed.

Lemma seed_manifest_ok f m : seed_manifest f = Ok m → manifest_ok m.
Proof.
  unfold seed_manifest, resolve_seed_manifest.
  intros (ps & Hps & (d & Hd & (accts & Ha & (insts & Hi & [= <-])%bind_Ok)%bind_Ok)%bind_Ok)%bind_Ok.
  assert (∀ name, d = Some name → is_Some (bt_get name ps)) as Hdef.
  { destruct (f_market_maker f ≫= fm_default_persona) as [name|].
    - case_bool_decide; [|done]. injection Hd as <-. by intros ? [= <-].
    - injection Hd as <-. destruct ps as [|[n p] [|]]; [done| |done].
      intros ? [= <-]. cbn. by rewrite decide_True by done. }
  split; cbn.
  - eapply try_each_Forall, Ha. intros [id a] p. apply resolve_account_ok.
  - eapply try_each_Forall, Hps. intros [n p] q (r & Hr & [= <-])%bind_Ok.
    by eapply resolve_persona_ok.
  - done.
  - eapply try_each_Forall, Hi. intros [u i] s. by apply resolve_instrument_ok.
Qed.
End manifest.

(** ** What a venue starts with *)

Definition rate_limits_ok (c : RateLimitConfig) : Prop :=
  rlc_window_secs c ≠ 0 ∧ rlc_window_secs c ≤ RATE_LIMIT_MAX_WINDOW_SECS ∧
  rlc_read_per_window c ≠ 0 ∧ rlc_trade_per_window c ≠ 0 ∧ rlc_admin_per_window c ≠ 0.

Lemma rate_limits_validate_ok c u : rate_limits_validate c = Ok u → rate_limits_ok c.
Proof.
  unfold rate_limits_validate, rate_limits_ok. cbn [first_zero_budget].
  destruct (Z.eqb_spec (rlc_window_secs c) 0); [done|].
  destruct (Z.ltb_spec RATE_LIMIT_MAX_WINDOW_SECS (rlc_window_secs c)); [done|].
  destruct (Z.eqb_spec (rlc_read_per_window c) 0); [done|].
  destruct (Z.eqb_spec (rlc_trade_per_window c) 0); [done|].
  by destruct (Z.eqb_spec (rlc_admin_per_window c) 0).
Qed.

Section load.
Context `{Upstream} `{SymbolCalendar} `{ConfigLib}.

(** The venue's own default, or what its validation admits. *)
Definition microstructure_ok (c : MicrostructureConfig) : Prop :=
  c = MicrostructureConfig_default ∨ config_validate c = Ok tt.

Lemma load_file_ok path raw seed micro rl :
  load_file path = Ok (raw, seed, micro, rl) →
  manifest_ok seed ∧ microstructure_ok micro ∧ rate_limits_ok rl.
Proof.
  unfold load_file. destruct path as [path|].
  - intros (f & _ & (m & Hm & (c & Hc & (r & Hr & [= <- <- <- <-])%bind_Ok)%bind_Ok)%bind_Ok)%bind_Ok.
    unfold microstructure_config in Hc. apply map_err_Ok in Hc.
    unfold rate_limits_config in Hr. apply bind_Ok in Hr as (u & Hu & [= <-]).
    split_and!; [by eapply seed_manifest_ok| |by eapply rate_limits_validate_ok].
    destruct (resolved_config_validates _ _ _ EmptyString Hc) as [Hv _]. by right.
  - intros [= <- <- <- <-]. split_and!; [by split|by left|by repeat split].
Qed.

(** C34. A configuration that loads is valid, whatever the file, the environment and the command
    line say: the FIX listener's caps and timeouts are in range and its read buffers stay below
    the aggregate ceiling, clock and pool settings are positive, the operational times order as
    expiry, settlement, identity and give the expiry scheduler, the rate limits and the
    microstructure pass their own validation, and the seed names permissions, prices, contracts
    and personas that exist. *)
Theorem loaded_config_valid args env c :
  load_from args env = Ok c →
  settings_ok c ∧
  is_ok (ExpirySchedule_new
           (secs_since_midnight (cfg_expiry_time (cfg_expiry_lifecycle c)) * 1000)
           (secs_since_midnight (cfg_settlement_time (cfg_expiry_lifecycle c)) * 1000)) = true ∧
  (∀ start_ms, normalise_mode (cc_mode (to_venue_clock_config (cfg_clock c) start_ms)) =
               cc_mode (to_venue_clock_config (cfg_clock c) start_ms)) ∧
  microstructure_ok (cfg_microstructure c) ∧
  rate_limits_ok (cfg_rate_limits c) ∧
  manifest_ok (cfg_seed c).
Proof.
  unfold load_from, assemble.
  intros (cli & _ & ([[[raw seed] micro] rl] & Hf & (c' & Hc & [= <-])%bind_Ok)%bind_Ok)%bind_Ok.
  apply load_file_ok in Hf as (Hm & Hv & Hr). apply validate_settings_ok in Hc.
  split_and!; try done.
  - destruct Hc. by split.
  - cbn. by rewrite lifecycle_schedules by apply Hc.
  - intros start_ms. cbn. pose proof (so_multiplier _ Hc) as [? _]. pose proof (so_step _ Hc) as [? _].
    unfold to_venue_clock_config. cbn. destruct (cfg_mode _); cbn; f_equal; lia.
Qed.

(** ** Layers *)

(** The settings of a layer. *)
Definition raw_fields : list (RawConfig → option string) :=
  [raw_http_addr; raw_fix_addr; raw_fix_enabled; raw_fix_connection_cap; raw_fix_mailbox_depth;
   raw_fix_max_frame_bytes; raw_fix_idle_timeout_secs; raw_fix_logon_timeout_secs;
   raw_fix_max_heart_bt_int_secs; raw_database_url; raw_db_pool_max_connections;
   raw_db_slow_acquire_ms; raw_clock; raw_clock_multiplier; raw_clock_step_interval_ms;
   raw_expiry_time; raw_settlement_time; raw_seed; raw_bootstrap_secret; raw_log_format].

Definition first_some (l : list (option string)) : option string := foldr over None l.

Lemma overlay_field f a b : f ∈ raw_fields → f (overlay a b) = over (f b) (f a).
Proof.
  intros Hf. repeat (apply elem_of_cons in Hf as [->|Hf]; [reflexivity|]).
  by apply elem_of_nil in Hf.
Qed.

(** Two layers that agree on every setting are the same. *)
Lemma raw_config_ext a b : (∀ f, f ∈ raw_fields → f a = f b) → a = b.
Proof.
  intros Hf. assert (Forall (λ f, f a = f b) raw_fields) as H' by by apply Forall_forall.
  repeat (apply Forall_cons in H' as [? H']). destruct a, b. cbn in *. clear Hf. by f_equal.
Qed.

(** Each setting comes from the innermost layer that has it: the configuration assembled
    from a file, an environment and a command line is the one validated from, field by field,
    the command line's value, else the environment's, else the file's, else the default. *)
Theorem layers_take_precedence file env cli merged :
  (∀ f, f ∈ raw_fields → f merged = first_some [f cli; f env; f file; f default_layer]) →
  assemble file env cli = validate merged.
Proof.
  intros Hm. unfold assemble. f_equal. apply raw_config_ext. intros f Hf.
  rewrite (Hm f Hf), !overlay_field by exact Hf. cbn [first_some foldr].
  by destruct (f cli), (f env), (f file), (f default_layer).
Qed.

(** ** Secrets *)

Definition redact (s : Secret) : Secret := {| expose := EmptyString |}.

(** A configuration without the contents of its secrets. *)
Definition without_secrets (c : Config) : Config :=
  {| cfg_http_addr := cfg_http_addr c; cfg_fix := cfg_fix c;
     cfg_persistence :=
       {| cfg_database_url := redact <$> cfg_database_url (cfg_persistence c);
          cfg_pool_max_connections := cfg_pool_max_connections (cfg_persistence c);
          cfg_slow_acquire_ms := cfg_slow_acquire_ms (cfg_persistence c) |};
     cfg_clock := cfg_clock c; cfg_expiry_lifecycle := cfg_expiry_lifecycle c;
     cfg_seed_value := cfg_seed_value c;
     cfg_bootstrap_secret := redact <$> cfg_bootstrap_secret c;
     cfg_log_format := cfg_log_format c; cfg_seed := SeedManifest_default;
     cfg_microstructure := cfg_microstructure c; cfg_rate_limits := cfg_rate_limits c |}.

(** What is left of a message when the contents of its quoted literals are blanked. *)
Fixpoint blank (inside : option bool) (s : string) : string :=
  match s, inside with
  | EmptyString, None => EmptyString
  | EmptyString, Some had_contents => if had_contents then "*" else EmptyString
  | String c s, None => String c (blank (if bool_decide (c = QUOTE) then Some false else None) s)
  | String c s, Some had_contents =>
      if bool_decide (c = QUOTE)
      then (if had_contents then "*" else EmptyString) +:+ String c (blank None s)
      else blank (Some true) s
  end.

Lemma scrub_blank s inside :
  scrub inside s =
  match inside with
  | None => scrub None (blank None s)
  | Some false => scrub (Some false) (blank (Some false) s)
  | Some true => scrub (Some false) (blank (Some true) s)
  end.
Proof.
  revert inside. induction s as [|c s IH]; intros [[]|]; cbn; try done.
  - case_bool_decide as Hc; cbn; [|apply (IH (Some true))].
    subst c. cbn. by rewrite (IH None).
  - case_bool_decide as Hc; cbn; [|apply (IH (Some true))].
    subst c. cbn. by rewrite (IH None).
  - f_equal. case_bool_decide as Hc; [apply (IH (Some false))|apply (IH None)].
Qed.

Definition names_secret (message : string) : bool :=
  existsb (λ token, contains token (to_ascii_lowercase message)) SECRET_KEY_TOKENS.

(** Secrets are not shown: the effective configuration renders the same whatever the
    database URL, the bootstrap secret and the seeded passwords contain; and of a parse error
    that names a secret key, what is printed does not depend on the contents of any quoted
    literal. *)
Theorem secrets_not_rendered c m1 m2 :
  render_effective c = render_effective (without_secrets c) ∧
  (names_secret m1 = true → names_secret m2 = true → blank None m1 = blank None m2 →
   scrub_secret_literals m1 = scrub_secret_literals m2).
Proof.
  split.
  - unfold render_effective, backend, is_persistent, secret_or_unset. cbn.
    by destruct (cfg_database_url _), (cfg_bootstrap_secret c).
  - unfold names_secret, scrub_secret_literals. intros -> -> Hb.
    by rewrite (scrub_blank m1 None), (scrub_blank m2 None), Hb.
Qed.
End load.

(** ** Times of day *)

Lemma split_at_app sep a b :
  sep ∉ a → split_at sep (a ++ sep :: b) = a :: split_at sep b.
Proof.
  induction a as [|c a IH]; intros Hsep; cbn; [by rewrite bool_decide_true|].
  apply not_elem_of_cons in Hsep as [Hc Ha]. rewrite bool_decide_false by congruence.
  by rewrite (IH Ha).
Qed.

Lemma split_at_last sep a : sep ∉ a → split_at sep a = [a].
Proof.
  induction a as [|c a IH]; intros Hsep; cbn; [done|].
  apply not_elem_of_cons in Hsep as [Hc Ha]. rewrite bool_decide_false by congruence.
  by rewrite (IH Ha).
Qed.

Definition unspaced (l : list Ascii.ascii) : bool := forallb (λ c, negb (is_trimmed_ascii c)) l.

(** A two-digit field: no separator, no surrounding space, and it reads back. *)
Definition field_ok (n : Z) : bool :=
  let l := String.list_ascii_of_string (two_digits n) in
  bool_decide (":"%char ∉ l) && unspaced l &&
  bool_decide (parse_uint u32 (two_digits n) = Some n).

Lemma field_ok_all n : 0 ≤ n < 60 → field_ok n = true.
Proof.
  intros Hn. assert (forallb (λ k, field_ok (Z.of_nat k)) (seq 0 60) = true) as Hall by by vm_compute.
  rewrite forallb_forall in Hall. rewrite <-(Z2Nat.id n) by lia. apply Hall, in_seq. lia.
Qed.

Lemma trim_start_id l : unspaced l = true → trim_start l = l.
Proof. destruct l as [|c l]; [done|]. cbn. by destruct (is_trimmed_ascii c). Qed.

Lemma trim_id s : unspaced (String.list_ascii_of_string s) = true → trim s = s.
Proof.
  intros Hs. unfold trim. rewrite (trim_start_id _ Hs), trim_start_id.
  - rewrite reverse_involutive. apply String.string_of_list_ascii_of_string.
  - unfold unspaced in *. rewrite forallb_forall in *. intros c Hc. apply Hs.
    by rewrite <-list_elem_of_In, elem_of_reverse, list_elem_of_In in Hc.
Qed.

Lemma list_ascii_app a b :
  String.list_ascii_of_string (a +:+ b) =
  String.list_ascii_of_string a ++ String.list_ascii_of_string b.
Proof. induction a as [|c a IH]; cbn; [reflexivity|]. rewrite <-IH. reflexivity. Qed.

(** Every operational time survives its own rendering. *)
Lemma time_roundtrip t :
  0 ≤ secs_since_midnight t < 86_400 → parse_time (time_display t) = Some t.
Proof.
  destruct t as [s]. cbn. intros Hs.
  assert (0 ≤ s / 3600 < 24) as Hh by (split; [apply Z.div_pos|apply Z.div_lt_upper_bound]; lia).
  pose proof (Z.mod_pos_bound s 3600 ltac:(lia)) as Hr. pose proof (Z.mod_pos_bound s 60 ltac:(lia)) as Hsec.
  assert (0 ≤ s mod 3600 / 60 < 60) as Hm by (split; [apply Z.div_pos|apply Z.div_lt_upper_bound]; lia).
  unfold parse_time, time_display. cbn [secs_since_midnight].
  remember (s / 3600) as h eqn:Eh. remember (s mod 3600 / 60) as m eqn:Em.
  remember (s mod 60) as c eqn:Ec.
  pose proof (field_ok_all h ltac:(lia)) as Fh. pose proof (field_ok_all m ltac:(lia)) as Fm.
  pose proof (field_ok_all c ltac:(lia)) as Fc. unfold field_ok in Fh, Fm, Fc.
  apply andb_true_iff in Fh as [[Ch%bool_decide_eq_true Th]%andb_true_iff Ph%bool_decide_eq_true].
  apply andb_true_iff in Fm as [[Cm%bool_decide_eq_true Tm]%andb_true_iff Pm%bool_decide_eq_true].
  apply andb_true_iff in Fc as [[Cc%bool_decide_eq_true Tc]%andb_true_iff Pc%bool_decide_eq_true].
  rewrite trim_id.
  2:{ rewrite !list_ascii_app. cbn. unfold unspaced in *. rewrite forallb_app. cbn.
      rewrite forallb_app. cbn. by rewrite Th, Tm, Tc. }
  unfold split_str. rewrite !list_ascii_app. cbn [String.list_ascii_of_string app].
  rewrite split_at_app by done. rewrite split_at_app by done. rewrite split_at_last by done.
  cbn [fmap list_fmap]. rewrite !String.string_of_list_ascii_of_string, Ph. cbn. rewrite Pm. cbn.
  rewrite Pc. cbn. unfold from_hms.
  rewrite (proj2 (Z.ltb_ge 23 h)), (proj2 (Z.ltb_ge 59 m)), (proj2 (Z.ltb_ge 59 c)) by lia. cbn.
  do 2 f_equal. subst h m c.
  pose proof (Z.div_mod s 3600 ltac:(lia)). pose proof (Z.div_mod (s mod 3600) 60 ltac:(lia)).
  assert (s mod 3600 mod 60 = s mod 60) by (apply Z.mod_mod_divide; by exists 60).
  lia.
Qed.

(** ** Provisioning *)

Lemma insert_account_done a r r' :
  insert_account a r = (r', Ok tt) →
  account r (acc_id a) = None ∧ account r' (acc_id a) = Some a ∧
  ∀ id, id ≠ acc_id a → account r' id = account r id.
Proof.
  unfold insert_account, account. destruct (is_market_maker_account _); [done|].
  destruct (_ =? _); [done|]. case_bool_decide as Hn; [done|]. intros E.
  assert (reg_by_id r !! acc_id a = None) as Hnone by (by apply eq_None_not_Some).
  assert (reg_by_id r' = <[acc_id a := a]> (reg_by_id r)) as ->.
  { destruct (cr_fix_username (acc_credentials a)); [case_bool_decide; [done|]|]; by injection E as <-. }
  split_and!; [done|by rewrite lookup_insert_eq|]. intros id Hid. by rewrite lookup_insert_ne.
Qed.

(** An account agrees with its provision. *)
Definition agrees (r : AccountRegistry) (p : AccountProvision) : Prop :=
  ∃ a, account r (ap_id p) = Some a ∧ acc_permissions a = ap_permissions p ∧
       cr_fix_username (acc_credentials a) = ap_fix_username p.

Section provisioning.
Context `{!CredentialLib}.

Lemma provision_account_done salt p r r' :
  provision_account salt p r = (r', Ok tt) →
  account r (ap_id p) = None ∧ agrees r' p ∧ ∀ id, id ≠ ap_id p → account r' id = account r id.
Proof.
  unfold provision_account. intros E.
  assert (∃ hash, insert_account
    {| acc_id := ap_id p; acc_owner := ap_owner p; acc_permissions := ap_permissions p;
       acc_credentials := {| cr_fix_username := ap_fix_username p; cr_password_hash := hash;
                             cr_fix_comp_ids := ap_fix_comp_ids p |};
       acc_revocation_epoch := 0 |} r = (r', Ok tt)) as (hash & (Hn & Hs & Ho)%insert_account_done).
  { destruct (ap_fix_password p); [|by exists None].
    destruct (hash_password _ _ _) as [hash|]; [by exists (Some hash)|done]. }
  split_and!; [done| |done]. by eexists; split_and!.
Qed.

Lemma provision_agreeing salt ps n u r :
  Forall (agrees r) ps →
  provision_seed_accounts salt ps n u r = (r, Ok (n, u + Z.of_nat (length ps))).
Proof.
  intros Hps. revert u. induction Hps as [|p ps (a & Ha & Hp & Hf) _ IH]; intros u; cbn;
    [by rewrite Z.add_0_r|].
  rewrite Ha, (bool_decide_true _ Hp), (bool_decide_true _ Hf). cbn. rewrite IH.
  by replace (u + 1 + Z.of_nat (length ps)) with (u + Z.of_nat (S (length ps))) by lia.
Qed.

Lemma provision_seed_accounts_ok salt ps n u r r' n' u' :
  provision_seed_accounts salt ps n u r = (r', Ok (n', u')) →
  n' + u' = n + u + Z.of_nat (length ps) ∧ Forall (agrees r') ps ∧
  ∀ id a, account r id = Some a → account r' id = Some a.
Proof.
  revert n u r. induction ps as [|p ps IH]; intros n u r; cbn.
  - intros [= <- <- <-]. split_and!; [lia|constructor|done].
  - destruct (account r (ap_id p)) as [a|] eqn:Ha.
    + case_bool_decide as Hp; [|done]. case_bool_decide as Hf; [|done]. cbn.
      intros (Hn & Hps & Hk)%IH. split_and!; [lia| |done]. constructor; [|done].
      exists a. split_and!; [by apply Hk|done..].
    + destruct (provision_account _ _ _) as [r1 [[]|]] eqn:E; [|done].
      apply provision_account_done in E as (_ & (a & Ha1 & Hp & Hf) & Ho).
      intros (Hn & Hps & Hk)%IH. split_and!; [lia| |].
      * constructor; [|done]. exists a. split_and!; [by apply Hk|done..].
      * intros id b Hb. apply Hk. rewrite Ho; [done|]. intros ->. congruence.
Qed.

(** Seeding twice is seeding once: when the seed accounts are provisioned, every account
    that was there keeps its record, every seeded account is there with its permissions and its
    FIX username, and provisioning the same seed again, with whatever salts, changes nothing and
    counts every account as unchanged. *)
Theorem seeding_idempotent salt salt' ps r r' n u :
  provision_seed_accounts salt ps 0 0 r = (r', Ok (n, u)) →
  n + u = Z.of_nat (length ps) ∧
  (∀ id a, account r id = Some a → account r' id = Some a) ∧
  Forall (agrees r') ps ∧
  provision_seed_accounts salt' ps 0 0 r' = (r', Ok (0, Z.of_nat (length ps))).
Proof.
  intros (Hn & Hps & Hk)%provision_seed_accounts_ok. split_and!; [lia|done|done|].
  by rewrite provision_agreeing.
Qed.
End provisioning.
