(* ===== verification/ConfigSample.v ===== *)
(** Concrete configurations: the witnesses of the configuration's theorems, and two account ids
    that derive one owner. *)

From S2P Require Import SampleBook AuthSample ConfigProps.

Definition bob_account : FileAccount :=
  {| fa_permissions := [PermRead; PermTrade]; fa_owner := None; fa_fix_username := Some "bob-fix";
     fa_fix_password := Some "hunter2"; fa_fix_sender_comp_id := None;
     fa_fix_target_comp_id := None |}.
Definition calm_persona : FilePersona :=
  {| fpe_base_spread_bps := Some 80; fpe_base_size := None; fpe_spread_multiplier := None;
     fpe_size_scalar := Some (f64_lit 1 2); fpe_directional_skew := None |}.

Definition sample_file_config : FileConfig :=
  {| f_server := None;
     f_fix := Some {| ff_fix_addr := None; ff_enabled := Some true; ff_connection_cap := Some 32;
                      ff_mailbox_depth := None; ff_max_frame_bytes := None;
                      ff_idle_timeout_secs := None; ff_logon_timeout_secs := None;
                      ff_max_heart_bt_int_secs := None |};
     f_persistence := Some {| fp_database_url := Some "postgres://venue:secret@db/venue";
                              fp_pool_max_connections := Some 0; fp_slow_acquire_ms := None |};
     f_clock := Some {| fc_mode := Some "stepped"; fc_multiplier := None;
                        fc_step_interval_ms := Some 250 |};
     f_expiry_lifecycle := None; f_determinism := Some (Some 11); f_auth := None;
     f_logging := None; f_accounts := Some [("bob", bob_account)];
     f_instruments :=
       Some [("BTC", {| fi_opening_price_cents := 5_000_000; fi_expirations := ["20240329"];
                        fi_strikes := [50_000]; fi_styles := Some ["Call"]; fi_persona := None;
                        fi_specs := None |})];
     f_market_maker :=
       Some {| fm_default_persona := None; fm_personas := Some [("calm", calm_persona)] |};
     f_microstructure := Some (sample_file, Some sample_specs);
     f_rate_limits := None |}.

#[export] Instance SampleConfigLib : ConfigLib := {
  SocketAddr := string;
  parse_socket_addr s := if contains ":" s then Ok s else Err "invalid socket address syntax";
  socket_addr_display s := s;
  f64_display x := dec x;
  toml_from_str s :=
    if String.eqb s "venue" then Ok sample_file_config
    else Err {| te_message := "expected a table"; te_start := Some 0 |};
  read_to_string path :=
    if String.eqb path "venue.toml" then Ok "venue" else Err "no such file";
}.

#[export] Instance SampleCalendar : SymbolCalendar := {
  parse_yyyymmdd s _ := if String.eqb s "20240329" then Ok sample_expiry else Err "no such day";
  expiration_from_string s := Err "unrecognised expiry";
  parsed_symbol_try_new underlying yyyymmdd strike style :=
    Ok {| ps_underlying := underlying; ps_expiration := sample_expiry;
          ps_expiration_str := yyyymmdd; ps_strike := strike; ps_option_style := style |};
}.

Definition sample_args : list string := ["--config"; "venue.toml"; "--seed=7"].
Definition sample_env (key : string) : option string :=
  if String.eqb key "FAUXCHANGE_SEED" then Some "9"
  else if String.eqb key "FAUXCHANGE_CLOCK" then Some EmptyString else None.

Definition sample_loaded : result ConfigError Config := load_from sample_args sample_env.

(** The seed of the command line, the clock of the file (the environment's is empty), the pool
    raised to one connection, the seed's only persona taken for its instrument. *)
Example sample_loads :
  (λ c, (cfg_seed_value c, cfg_mode (cfg_clock c), cfg_step_interval_ms (cfg_clock c),
         cfg_pool_max_connections (cfg_persistence c), underlyings (cfg_seed c),
         si_persona <$> sm_instruments (cfg_seed c), si_contracts <$> sm_instruments (cfg_seed c)))
    <$> sample_loaded =
  Ok (7, CmStepped, 250, 1, ["BTC"], [Some "calm"], [["BTC-20240329-50000-C"]]).
Proof. vm_compute. reflexivity. Qed.

Lemma loaded_config_valid_witness :
  ∃ c, load_from sample_args sample_env = Ok c ∧ settings_ok c ∧ manifest_ok (cfg_seed c) ∧
       cfg_seed_value c = 7.
Proof.
  pose proof sample_loads as Hs. unfold sample_loaded in Hs.
  destruct (load_from sample_args sample_env) as [c|] eqn:E; [|discriminate Hs].
  exists c. destruct (loaded_config_valid _ _ _ E) as (Hc & _ & _ & _ & _ & Hm).
  injection Hs as Hseed _ _ _ _ _ _. by split_and!.
Defined.

Lemma layers_take_precedence_witness :
  let cli := cli_write "--seed" "7" RawConfig_default in
  let env := raw_from_env sample_env in
  let file := into_raw sample_file_config in
  let merged := overlay (overlay (overlay default_layer file) env) cli in
  raw_seed merged = Some "7" ∧ raw_clock merged = Some "stepped" ∧
  raw_log_format merged = Some "pretty" ∧ assemble file env cli = validate merged.
Proof.
  cbv zeta. split_and!; [reflexivity..|].
  apply layers_take_precedence. intros f Hf. rewrite !overlay_field by exact Hf.
  cbn [first_some foldr]. by destruct (f _), (f _), (f _), (f _).
Defined.

Lemma secrets_not_rendered_witness :
  let quoted v := "invalid value for password: " +:+ String QUOTE (v +:+ String QUOTE EmptyString) in
  scrub_secret_literals (quoted "hunter2") = "invalid value for password: " +:+
    String QUOTE ("<redacted>" +:+ String QUOTE EmptyString) ∧
  scrub_secret_literals (quoted "hunter2") = scrub_secret_literals (quoted "correct horse").
Proof.
  cbv zeta. split; [by vm_compute|].
  assert (∃ c, load_from sample_args sample_env = Ok c) as [c _].
  { pose proof sample_loads as Hs. unfold sample_loaded in Hs.
    destruct (load_from sample_args sample_env) as [c|]; [by exists c|discriminate Hs]. }
  apply (proj2 (secrets_not_rendered c _ _)); by vm_compute.
Defined.

(** Alice is there already; Bob is provisioned. *)
Definition seed_accounts : list AccountProvision :=
  [alice; {| ap_id := "bob"; ap_owner := derive_owner "bob"; ap_permissions := [PermRead];
             ap_fix_username := None; ap_fix_password := None; ap_fix_comp_ids := None |}].

Lemma seeding_idempotent_witness :
  ∃ r, provision_seed_accounts (λ _, 1) seed_accounts 0 0 (sy_registry auth1) = (r, Ok (1, 1)) ∧
       provision_seed_accounts (λ _, 2) seed_accounts 0 0 r = (r, Ok (0, 2)).
Proof.
  destruct (provision_seed_accounts (λ _, 1) seed_accounts 0 0 (sy_registry auth1)) as [r res] eqn:E.
  assert (res = Ok (1, 1)) as Hres by (apply (f_equal snd) in E; by vm_compute in E).
  rewrite Hres in E. exists r. split; [by rewrite Hres|].
  apply (seeding_idempotent (λ _, 1) (λ _, 2) _ _ _ _ _ E).
Defined.

(** Beyond 32 bytes the bytes of an id fold onto each other: swapping two that share a slot
    derives the same owner, so the two accounts share self-trade prevention. *)
Example owner_collision :
  let id a b := a +:+ "-market-making-desk-of-the-bank" +:+ b in
  String.length (id "a" "b") = 33%nat ∧ id "a" "b" ≠ id "b" "a" ∧
  derive_owner (id "a" "b") = derive_owner (id "b" "a").
Proof. vm_compute. split_and!; [reflexivity|intros [=]|reflexivity]. Qed.
