(* ===== verification/Replay.v ===== *)
(** Record and replay ([src/src/simulation/manifest.rs], [replay.rs], the fingerprint of
    [src/src/microstructure/config.rs], and the control plane of [state.rs] and
    [gateway/rest/replay.rs]): a scenario bundle carries the journals of a run with the inputs
    that fix it, and the driver re-executes it into fresh books and stores.

    The versions of the linked crates are the class [Dependencies]; the JSON decoder of a
    bundle is an argument.  A replay runs on its own copy of everything. *)

From Stdlib Require Import Ascii SpecFloat.
From S2P Require Export Recovery Boot Mailbox ConfigModel Subscription F64.

(** ** The fingerprint of a configuration *)

Definition stp_token (m : StpMode) : string :=
  match m with
  | StpOff => "off" | CfgCancelTaker => "cancel_taker" | CfgCancelMaker => "cancel_maker"
  | CfgCancelBoth => "cancel_both"
  end.

Definition specs_fragment (s : ResolvedContractSpecs) : string :=
  "t" +:+ dec (tick_size_cents s) +:+ "l" +:+ dec (lot_size s) +:+
  "min" +:+ dec (min_price_cents s) +:+ "max" +:+ dec (max_price_cents s) +:+
  "q" +:+ dec (max_order_qty s).

(** [m * 2^e] in millionths, to the nearest, halves to even. *)
Definition millionths (m e : Z) : Z :=
  let scaled := m * 10 ^ 6 in
  if 0 <=? e then Z.shiftl scaled e
  else
    let unit := 2 ^ (- e) in
    let q := scaled / unit in
    let twice := 2 * (scaled mod unit) in
    if (unit <? twice) || ((twice =? unit) && Z.odd q) then q + 1 else q.

Fixpoint pad_zeros (n : nat) (s : string) : string :=
  match n with O => s | S n => "0" +:+ pad_zeros n s end.
Definition six_digits (n : Z) : string :=
  let s := dec n in pad_zeros (6 - String.length s) s.

(** [format!("{:.6}", _)] of a float: its exact value, rounded. *)
Definition fmt_sigma (sigma : f64) : string :=
  let sign (s : bool) : string := if s then "-" else "" in
  match f64_decode sigma with
  | S754_nan => "NaN"
  | S754_infinity s => sign s +:+ "inf"
  | S754_zero s => sign s +:+ "0.000000"
  | S754_finite s m e =>
      let n := millionths (Zpos m) e in
      sign s +:+ dec_go 400 (n / 10 ^ 6) EmptyString +:+ "." +:+ six_digits (n mod 10 ^ 6)
  end.

Definition fingerprint_fragment (l : LatencyConfig) : string :=
  match l with
  | LatDisabled => ""
  | LatFixed us => ";latency=fixed(us" +:+ dec us +:+ ")"
  | LatUniform min_us max_us =>
      ";latency=uniform(min" +:+ dec min_us +:+ "max" +:+ dec max_us +:+ ")"
  | LatNormal mean_us sigma =>
      ";latency=normal(mean" +:+ dec mean_us +:+ "sigma" +:+ fmt_sigma sigma +:+ ")"
  | LatLognormal median_us sigma =>
      ";latency=lognormal(median" +:+ dec median_us +:+ "sigma" +:+ fmt_sigma sigma +:+ ")"
  end.

#[export] Instance ResolvedContractSpecs_eq_dec : EqDecision ResolvedContractSpecs.
Proof. solve_decision. Defined.
#[export] Instance FeeConfig_eq_dec : EqDecision FeeConfig. Proof. solve_decision. Defined.
#[export] Instance StpMode_eq_dec : EqDecision StpMode. Proof. solve_decision. Defined.

Definition latency_eqb (a b : LatencyConfig) : bool :=
  match a, b with
  | LatDisabled, LatDisabled => true
  | LatFixed us, LatFixed us' => us =? us'
  | LatUniform min max, LatUniform min' max' => (min =? min') && (max =? max')
  | LatNormal mean sigma, LatNormal mean' sigma' => (mean =? mean') && f64_eqb sigma sigma'
  | LatLognormal median sigma, LatLognormal median' sigma' =>
      (median =? median') && f64_eqb sigma sigma'
  | _, _ => false
  end.
Definition config_eqb (a b : MicrostructureConfig) : bool :=
  bool_decide (fees a = fees b) && bool_decide (stp a = stp b) &&
  bool_decide (default_specs a = default_specs b) &&
  bool_decide (per_underlying a = per_underlying b) &&
  bool_decide (per_symbol a = per_symbol b) && latency_eqb (latency a) (latency b).

Definition DEFAULT_MICROSTRUCTURE_FINGERPRINT : string := "microstructure.default.v1".

Definition fragments (prefix : string) (specs : list (string * ResolvedContractSpecs)) : string :=
  foldl (λ out e, out +:+ ";" +:+ prefix +:+ e.1 +:+ "=" +:+ specs_fragment e.2) "" specs.

Definition fingerprint (c : MicrostructureConfig) : string :=
  if config_eqb c MicrostructureConfig_default then DEFAULT_MICROSTRUCTURE_FINGERPRINT
  else
    "microstructure.v1;fees=m" +:+ dec_signed (maker_bps (fees c)) +:+
    "/t" +:+ dec_signed (taker_bps (fees c)) +:+ ";stp=" +:+ stp_token (stp c) +:+
    ";specs.*=" +:+ specs_fragment (default_specs c) +:+
    fragments "specs." (per_underlying c) +:+ fragments "specs.sym." (per_symbol c) +:+
    fingerprint_fragment (latency c).

(** ** The run manifest *)

Class Dependencies := { optionstratlib_VERSION : string }.
Definition CARGO_PKG_VERSION : string := "0.4.0".

Record DependencyVersions := {
  dv_fauxchange : string; dv_optionstratlib : string; dv_envelope_schema : string }.
#[export] Instance DependencyVersions_eq_dec : EqDecision DependencyVersions.
Proof. solve_decision. Defined.

Definition parse_major_minor (version : string) : option (Z * Z) :=
  plus ← head (split_str "+"%char version);
  core ← head (split_str "-"%char plus);
  match split_str "."%char core with
  | [major; minor; patch] =>
      major ← parse_u64 major;
      minor ← parse_u64 minor;
      _ ← parse_u64 patch;
      Some (major, minor)
  | _ => None
  end.

Definition fauxchange_versions_compatible (running recorded : string) : bool :=
  match parse_major_minor running, parse_major_minor recorded with
  | Some (run_major, run_minor), Some (rec_major, rec_minor) =>
      if negb (run_major =? rec_major) then false
      else if run_major =? 0 then run_minor =? rec_minor
      else rec_minor <=? run_minor
  | _, _ => false
  end.

Section manifest.
Context `{Dependencies}.

Definition DependencyVersions_current : DependencyVersions :=
  {| dv_fauxchange := CARGO_PKG_VERSION; dv_optionstratlib := optionstratlib_VERSION;
     dv_envelope_schema := VENUE_ENVELOPE_SCHEMA |}.

Definition matches_current (v : DependencyVersions) : bool :=
  bool_decide (v = DependencyVersions_current).

Definition first_mismatch (v : DependencyVersions) : option (string * string * string) :=
  let current := DependencyVersions_current in
  list_find (λ e, negb (String.eqb e.1.2 e.2))
    [("fauxchange", dv_fauxchange current, dv_fauxchange v);
     ("optionstratlib", dv_optionstratlib current, dv_optionstratlib v);
     ("envelope_schema", dv_envelope_schema current, dv_envelope_schema v)]
  ≫= λ found, Some found.2.

Definition first_incompatibility (v : DependencyVersions) : option (string * string * string) :=
  let current := DependencyVersions_current in
  if negb (String.eqb (dv_envelope_schema v) (dv_envelope_schema current))
  then Some ("envelope_schema", dv_envelope_schema current, dv_envelope_schema v)
  else if negb (fauxchange_versions_compatible (dv_fauxchange current) (dv_fauxchange v))
  then Some ("fauxchange", dv_fauxchange current, dv_fauxchange v)
  else None.

Record RunManifest := {
  rm_seed : Z; rm_clock_mode : string; rm_instrument_seed : Z;
  rm_microstructure_fingerprint : string; rm_versions : DependencyVersions }.

Definition RunManifest_new (seed : Z) (mode : ClockMode) : RunManifest :=
  {| rm_seed := seed; rm_clock_mode := as_token mode; rm_instrument_seed := seed;
     rm_microstructure_fingerprint := DEFAULT_MICROSTRUCTURE_FINGERPRINT;
     rm_versions := DependencyVersions_current |}.
Definition with_instrument_seed (seed : Z) (m : RunManifest) : RunManifest :=
  {| rm_seed := rm_seed m; rm_clock_mode := rm_clock_mode m; rm_instrument_seed := seed;
     rm_microstructure_fingerprint := rm_microstructure_fingerprint m;
     rm_versions := rm_versions m |}.
Definition with_microstructure_fingerprint (fp : string) (m : RunManifest) : RunManifest :=
  {| rm_seed := rm_seed m; rm_clock_mode := rm_clock_mode m;
     rm_instrument_seed := rm_instrument_seed m; rm_microstructure_fingerprint := fp;
     rm_versions := rm_versions m |}.
Definition manifest_summary (m : RunManifest) : string :=
  "seed=" +:+ dec (rm_seed m) +:+ " clock_mode=" +:+ rm_clock_mode m.

(** The manifest a venue records as it is brought up. *)
Definition boot_manifest (config : AppStateConfig) : RunManifest :=
  with_microstructure_fingerprint (fingerprint (ac_microstructure config))
    (RunManifest_new (ac_seed config) (sc_mode (SimClock_new (ac_clock config)))).
End manifest.

(** ** Errors *)

Inductive ReplayError :=
  | RpJournalCorruption (underlying : string) (sequence : SequenceNumber)
  | RpSchemaRefused (found : string)
  | RpVersionMismatch (kind expected found : string)
  | RpBundleDecode (detail : string)
  | RpBackend (operation : string)
  | RpResourceLimit (limit : string) (found ceiling : Z)
  | RpConfigRejected (detail : string)
  | RpPriceOutOfBand (detail : string).

Definition record_kind_debug (k : RecordKind) : string :=
  match k with KCommand => "Command" | KEvent => "Event" | KEpoch => "Epoch" end.

Definition replay_from_journal (underlying : string) (error : JournalError) : ReplayError :=
  match error with
  | Corruption underlying sequence => RpJournalCorruption underlying sequence
  | SchemaTooNew found => RpSchemaRefused found
  | Backend operation => RpBackend operation
  | Conflict sequence kind =>
      RpBundleDecode ("conflicting record at underlying " +:+ underlying +:+ " sequence " +:+
                      dec sequence +:+ " kind " +:+ record_kind_debug kind)
  | AppendFailed detail | Ambiguous detail =>
      RpBundleDecode ("underlying " +:+ underlying +:+ ": " +:+ detail)
  | ResourceLimit limit found ceiling => RpResourceLimit limit found ceiling
  | ConfigRejected detail => RpConfigRejected ("underlying " +:+ underlying +:+ ": " +:+ detail)
  | PriceOutOfBand detail => RpPriceOutOfBand ("underlying " +:+ underlying +:+ ": " +:+ detail)
  end.

Definition replay_error_display (e : ReplayError) : string :=
  match e with
  | RpJournalCorruption underlying sequence =>
      "journal corruption at underlying " +:+ underlying +:+ " sequence " +:+ dec sequence
  | RpSchemaRefused found =>
      "journal schema " +:+ found +:+ " is newer than this binary understands"
  | RpVersionMismatch kind expected found =>
      "scenario bundle " +:+ kind +:+ " mismatch: expected " +:+ expected +:+ ", found " +:+ found
  | RpBundleDecode detail => "scenario bundle could not be decoded: " +:+ detail
  | RpBackend operation => "replay journal backend failed: " +:+ operation
  | RpResourceLimit limit found ceiling =>
      "scenario bundle " +:+ limit +:+ " ceiling exceeded: " +:+ dec found +:+ " over " +:+
      dec ceiling
  | RpConfigRejected detail => "scenario bundle microstructure config rejected: " +:+ detail
  | RpPriceOutOfBand detail => "scenario bundle order rejected at venue admission: " +:+ detail
  end.

Definition venue_error_from_replay (e : ReplayError) : VenueError :=
  match e with
  | RpBackend _ => JournalUnavailable
  | _ => VInvalidOrder (replay_error_display e)
  end.

(** ** The scenario bundle *)

Definition SCENARIO_BUNDLE_SCHEMA : string := "scenario-bundle.v1".
Definition MAX_BUNDLE_BYTES : Z := 64 * 1024 * 1024.

Record JournalStream := {
  js_underlying : string; js_header : JournalHeader; js_stream_records : list JournalRecord }.

Record ScenarioBundle := {
  sb_schema : string; sb_manifest : RunManifest; sb_microstructure : MicrostructureConfig;
  sb_streams : list JournalStream }.

Definition ScenarioBundle_new (manifest : RunManifest) (streams : list JournalStream) :
    ScenarioBundle :=
  {| sb_schema := SCENARIO_BUNDLE_SCHEMA; sb_manifest := manifest;
     sb_microstructure := MicrostructureConfig_default; sb_streams := streams |}.
Definition with_microstructure (c : MicrostructureConfig) (b : ScenarioBundle) : ScenarioBundle :=
  {| sb_schema := sb_schema b; sb_manifest := sb_manifest b; sb_microstructure := c;
     sb_streams := sb_streams b |}.
Definition is_current_schema (b : ScenarioBundle) : bool :=
  String.eqb (sb_schema b) SCENARIO_BUNDLE_SCHEMA.

(** serde_json's decoder, or its message. *)
Definition from_json (decode : string → result string ScenarioBundle) (json : string) :
    result ReplayError ScenarioBundle :=
  if MAX_BUNDLE_BYTES <? str_len json
  then Err (RpResourceLimit "bundle_bytes" (str_len json) MAX_BUNDLE_BYTES)
  else map_err RpBundleDecode (decode json).

Section driver.
Context `{Upstream, MarkPriceCalculator, Serde, Dependencies}.
Context (config_display : MicrostructureConfigError → string).

Fixpoint append_all (underlying : string) (journal : InMemoryVenueJournal)
    (records : list JournalRecord) : result ReplayError InMemoryVenueJournal :=
  match records with
  | [] => Ok journal
  | record :: records =>
      _ ← map_err (replay_from_journal underlying) (check_record_size record);
      match journal_append journal record with
      | (_, Err error) => Err (replay_from_journal underlying error)
      | (journal, Ok _) => append_all underlying journal records
      end
  end.

Definition build_journal (s : JournalStream) : result ReplayError InMemoryVenueJournal :=
  append_all (js_underlying s) (InMemoryVenueJournal_new (js_header s)) (js_stream_records s).

(** ** The report *)

Record UnderlyingReplay := {
  ur_underlying : string; ur_events : list VenueEvent; ur_last_sequence : option SequenceNumber;
  ur_executor : MatchingExecutor }.

Definition replay_top_of_book (r : UnderlyingReplay) (symbol : Symbol) : TopOfBook :=
  top_of_book (ur_executor r) symbol.
Definition event_count (r : UnderlyingReplay) : Z := Z.of_nat (length (ur_events r)).
Definition replay_summary (r : UnderlyingReplay) : UnderlyingReplaySummary :=
  {| urs_underlying := ur_underlying r; urs_event_count := event_count r;
     urs_last_sequence := ur_last_sequence r |}.

(** The stores are shared by the streams: the report holds what they hold at the end. *)
Record ReplayReport := {
  rr_per_underlying : list UnderlyingReplay; rr_stores : StoreProjections }.

Definition report_underlying (underlying : string) (r : ReplayReport) : option UnderlyingReplay :=
  find (λ u, String.eqb (ur_underlying u) underlying) (rr_per_underlying r).
Definition total_events (r : ReplayReport) : Z := sum_Z (event_count <$> rr_per_underlying r).
Definition to_response (r : ReplayReport) : ReplayReportResponse :=
  {| rrr_per_underlying := replay_summary <$> rr_per_underlying r;
     rrr_executions := exec_len (sp_executions (rr_stores r)) |}.

(** ** The driver *)

(** The fan-out of one stream, up to the event it seals on. *)
Fixpoint project_events (underlying : string) (f : StoreFanOut) (events : list VenueEvent) :
    result ReplayError StoreFanOut :=
  match events with
  | [] => Ok f
  | event :: events =>
      match emit f event with
      | (f, Ok _) => project_events underlying f events
      | (_, Err _) => Err (RpJournalCorruption underlying (ev_underlying_sequence event))
      end
  end.

Definition replay_recover (microstructure : option MicrostructureConfig)
    (journal : InMemoryVenueJournal) (underlying : string) : result JournalError Recovered :=
  match microstructure with
  | None => recover config_display journal underlying
  | Some config => recover_with_microstructure config_display journal underlying config
  end.

Fixpoint replay_ordered (microstructure : option MicrostructureConfig) (stores : StoreProjections)
    (streams : list JournalStream) : result ReplayError ReplayReport :=
  match streams with
  | [] => Ok {| rr_per_underlying := []; rr_stores := stores |}
  | stream :: streams =>
      journal ← build_journal stream;
      recovered ← map_err (replay_from_journal (js_underlying stream))
                    (replay_recover microstructure journal (js_underlying stream));
      f ← project_events (js_underlying stream) (store_fan_out stores) (rec_events recovered);
      report ← replay_ordered microstructure (projection_store f) streams;
      Ok {| rr_per_underlying :=
              {| ur_underlying := js_underlying stream; ur_events := rec_events recovered;
                 ur_last_sequence := rec_last_sequence recovered;
                 ur_executor := rec_executor recovered |} :: rr_per_underlying report;
            rr_stores := rr_stores report |}
  end.

Definition replay_streams_inner (streams : list JournalStream)
    (microstructure : option MicrostructureConfig) : result ReplayError ReplayReport :=
  replay_ordered microstructure (projection_store StoreFanOut_new)
    (sort_by_key String.leb js_underlying streams).
Definition replay_streams (streams : list JournalStream) := replay_streams_inner streams None.
Definition replay_streams_with_microstructure (streams : list JournalStream)
    (microstructure : MicrostructureConfig) :=
  replay_streams_inner streams (Some microstructure).

Definition verify_bundle_versions (b : ScenarioBundle) : result ReplayError unit :=
  if negb (is_current_schema b)
  then Err (RpVersionMismatch "bundle_schema" SCENARIO_BUNDLE_SCHEMA (sb_schema b))
  else
    match first_incompatibility (rm_versions (sb_manifest b)) with
    | Some (field, expected, found) => Err (RpVersionMismatch field expected found)
    | None => Ok tt
    end.

Definition verify_bundle_microstructure (b : ScenarioBundle) : result ReplayError unit :=
  _ ← map_err (λ e, RpConfigRejected (config_display e)) (config_validate (sb_microstructure b));
  let carried := fingerprint (sb_microstructure b) in
  let recorded := rm_microstructure_fingerprint (sb_manifest b) in
  if negb (String.eqb carried recorded)
  then Err (RpVersionMismatch "microstructure_fingerprint" recorded carried)
  else Ok tt.

Definition replay_bundle (b : ScenarioBundle) : result ReplayError ReplayReport :=
  _ ← verify_bundle_versions b;
  _ ← verify_bundle_microstructure b;
  replay_streams_with_microstructure (sb_streams b) (sb_microstructure b).
End driver.

(** ** The control plane of the venue *)

(** [RecordingController]: [swap] and [load] of one flag. *)
Record RecordingController := { recording : bool }.
Definition RecordingController_default : RecordingController := {| recording := true |}.
Definition set_recording (on : bool) (c : RecordingController) : RecordingController * bool :=
  ({| recording := on |}, recording c).

(** [ActorHandle::snapshot], and the wait for its reply. *)
Class SnapshotService (A : Type) := actor_snapshot : A → result VenueError JournalSnapshot.

#[export] Instance UnderlyingActor_snapshots
    `{VenueJournal J, CommandExecutor E, FanOut F, VenueClock C} :
    SnapshotService (UnderlyingActor J E F C) :=
  λ a, match (process a MsgSnapshot).2 with RepSnapshot r => r | RepCommand _ => Err JournalUnavailable end.

Section control_plane.
Context {S A : Type} `{!SnapshotService A, !Upstream, !Dependencies}.
Notation venue := (Venue S A).

(** What the coordinator keeps beside the venue's actors. *)
Record ReplayPlane := { rp_lineage_id : LineageId; rp_manifest : RunManifest;
                        rp_recording : RecordingController }.

Definition journal_snapshot (underlying : string) (v : venue) :
    result VenueError JournalSnapshot :=
  a ← handle_for v underlying; actor_snapshot a.

Fixpoint export_streams (header : JournalHeader) (tickers : list string) (v : venue) :
    result VenueError (list JournalStream) :=
  match tickers with
  | [] => Ok []
  | ticker :: tickers =>
      snapshot ← journal_snapshot ticker v;
      streams ← export_streams header tickers v;
      Ok ({| js_underlying := ticker; js_header := header;
             js_stream_records := js_records snapshot |} :: streams)
  end.

Definition export_bundle (p : ReplayPlane) (v : venue) : result VenueError ScenarioBundle :=
  streams ← export_streams (JournalHeader_new (rp_lineage_id p)) (Venue.underlyings v) v;
  Ok (with_microstructure (v_microstructure v) (ScenarioBundle_new (rp_manifest p) streams)).

(** [gateway/rest/replay.rs]. *)
Record RecordingStateResponse := { rsr_recording : bool }.
Definition get_record_status (p : ReplayPlane) : RecordingStateResponse :=
  {| rsr_recording := recording (rp_recording p) |}.
Definition set_record (auth : Authorized) (enabled : bool) (p : ReplayPlane) :
    ReplayPlane * result VenueError RecordingStateResponse :=
  match require auth PermAdmin with
  | Err e => (p, Err e)
  | Ok _ =>
      let p := {| rp_lineage_id := rp_lineage_id p; rp_manifest := rp_manifest p;
                  rp_recording := (set_recording enabled (rp_recording p)).1 |} in
      (p, Ok (get_record_status p))
  end.
Definition rest_export_bundle (auth : Authorized) (p : ReplayPlane) (v : venue) :
    result VenueError ScenarioBundle :=
  _ ← require auth PermAdmin; export_bundle p v.

(** [AppState::replay_bundle]: the replay runs on a blocking thread, whose failure to finish is
    an answer of its own. *)
Definition state_replay_bundle `{MarkPriceCalculator, Serde}
    (config_display : MicrostructureConfigError → string) (joined : bool) (b : ScenarioBundle) :
    result ReplayError ReplayReport :=
  if joined then replay_bundle config_display b else Err (RpBackend "replay task join").
Definition rest_replay_bundle `{MarkPriceCalculator, Serde}
    (config_display : MicrostructureConfigError → string) (joined : bool) (auth : Authorized)
    (b : ScenarioBundle) : result VenueError ReplayReportResponse :=
  _ ← require auth PermAdmin;
  report ← map_err venue_error_from_replay (state_replay_bundle config_display joined b);
  Ok (to_response report).
End control_plane.

(** ** The snapshot routes ([gateway/rest/admin.rs]) *)

Record CreateSnapshotResponse := {
  cs_success : bool; cs_snapshot_id : string; cs_orderbooks_saved : Z; cs_orders_saved : Z;
  cs_orderbooks_failed : Z; cs_timestamp : EventTimestamp }.

Section admin.
Context {S A : Type} `{!SnapshotService A, !Upstream}.
Notation venue := (Venue S A).

(** Books saved, commands they hold, books that failed. *)
Fixpoint count_snapshots (tickers : list string) (v : venue) (saved orders failed : Z) :
    result VenueError (Z * Z * Z) :=
  match tickers with
  | [] => Ok (saved, orders, failed)
  | ticker :: tickers =>
      match journal_snapshot ticker v with
      | Ok snapshot =>
          saved ← ok_or VOverflow (checked_add u64 saved 1);
          let commands :=
            Z.of_nat (length (filter (λ r, record_kind r = KCommand) (js_records snapshot))) in
          orders ← ok_or VOverflow (checked_add u64 orders commands);
          count_snapshots tickers v saved orders failed
      | Err _ =>
          failed ← ok_or VOverflow (checked_add u64 failed 1);
          count_snapshots tickers v saved orders failed
      end
  end.

(** With the process-wide counter of the snapshots taken, an [AtomicU64]. *)
Definition create_snapshot (auth : Authorized) (lineage_id : LineageId) (counter : Z) (v : venue) :
    Z * result VenueError CreateSnapshotResponse :=
  match _ ← require auth PermAdmin; count_snapshots (Venue.underlyings v) v 0 0 0 with
  | Err e => (counter, Err e)
  | Ok (saved, orders, failed) =>
      (wrapping u64 (counter + 1),
       Ok {| cs_success := failed =? 0;
             cs_snapshot_id := lineage_id +:+ "-snap-" +:+ dec counter;
             cs_orderbooks_saved := saved; cs_orders_saved := orders;
             cs_orderbooks_failed := failed; cs_timestamp := 0 |})
  end.

Definition list_snapshots (auth : Authorized) : result VenueError (list string * Z) :=
  _ ← require auth PermAdmin; Ok ([], 0).
Definition get_snapshot (auth : Authorized) (snapshot_id : string) : result VenueError unit :=
  _ ← require auth PermAdmin; Err (VNotFound snapshot_id).
Definition restore_snapshot (auth : Authorized) (snapshot_id : string) : result VenueError unit :=
  _ ← require auth PermAdmin; Err (VNotFound snapshot_id).
End admin.
