(* ===== verification/ReplayProps.v ===== *)
(** What a bundle's replay gives back: the exported journals of a venue re-execute to its
    books and events, through the gates of version, configuration and integrity. *)

From S2P Require Export Replay RecoveryProps VenueProps StoresProps.
From S2P Require Import SampleBook BootProps VenueSample.

(** ** An actor behind shared state *)

Section shared_actor.
Context {F P : Type} {FO : FanOut F} {SP : SharedProjection F P} {US : Upstream} {SD : Serde}.
Notation venue_actor := (UnderlyingActor InMemoryVenueJournal MatchingExecutor F SimClock).
Implicit Types a b : venue_actor.

Notation alone a := (with_clordid_index a None).

(** The write-ahead of a turn leaves everything but the journal. *)
Lemma write_ahead_shape a s r :
  ∃ j wa, write_ahead_command a s r = (with_journal a j, wa) ∧
    j = (im_append (act_journal a) r).1 ∧
    ∀ i, write_ahead_command (with_clordid_index a i) s r =
      (with_clordid_index (with_journal a j) i, wa).
Proof.
  unfold write_ahead_command. cbn [act_journal with_clordid_index].
  change (journal_append (act_journal a)) with (im_append (act_journal a)).
  destruct (im_append (act_journal a) r) as [j [[]|e]]; [by eexists _, _|].
  cbn [act_journal with_journal with_clordid_index].
  destruct e; [by eexists _, _|destruct (journal_contains j s KCommand)|by eexists _, _..];
    by eexists _, _.
Qed.

(** The index is written, and never read, by a turn. *)
Lemma handle_alone a c :
  (handle (alone a) c).2 = (handle a c).2 ∧
  alone (handle (alone a) c).1 = alone (handle a c).1.
Proof.
  unfold handle. cbn [act_sealed with_clordid_index]. destruct (act_sealed a); [done|].
  cbn [act_clock with_clordid_index]. destruct (now_ms (act_clock a)) as [ts clock].
  cbn [act_next_sequence with_clordid_index].
  change (with_clock (alone a) clock) with (alone (with_clock a clock)).
  destruct (write_ahead_shape (with_clock a clock) (act_next_sequence a)
    (command_record (act_next_sequence a) ts c)) as (j & wa & -> & _ & Hi).
  rewrite Hi. destruct wa; [|done].
  cbn [act_executor act_underlying act_lineage_id with_journal with_clock with_clordid_index].
  destruct (executor_execute _ _) as [x o]. cbn [act_journal with_executor with_journal].
  cbn [act_journal with_clordid_index with_journal with_clock].
  destruct (journal_append j _) as [j' [[]|e]]; [|done].
  cbn [act_clordid_index with_journal with_executor with_clock with_clordid_index].
  destruct (act_clordid_index a); cbn [act_fan_out with_clordid_index with_journal
    with_executor with_clock]; (destruct (fan_out_emit _ _) as [f [[]|e]]; [|done]);
    by destruct (checked_next _).
Qed.

(** [a] has, since [a0], run turns whose commands are all [ok]. *)
Definition ran (ok : VenueCommand → Prop) a0 a : Prop :=
  ∃ log pend, live a0 log pend (alone a) ∧ Forall (λ tc, ok tc.2) (log ++ pend) ∧
    Forall (λ r, check_record_size r = Ok tt) (im_records (act_journal a)).

Lemma im_append_sized j r :
  Forall (λ r, check_record_size r = Ok tt) (im_records j) →
  Forall (λ r, check_record_size r = Ok tt) (im_records (im_append j r).1).
Proof.
  intros Hj. unfold im_append. destruct (check_record_size r) as [[]|] eqn:E; [|done].
  repeat case_match; try done. cbn. apply Forall_app. split; [done|]. by apply Forall_singleton.
Qed.

Lemma handle_sized a c :
  Forall (λ r, check_record_size r = Ok tt) (im_records (act_journal a)) →
  Forall (λ r, check_record_size r = Ok tt) (im_records (act_journal (handle a c).1)).
Proof.
  intros Ha. unfold handle. destruct (act_sealed a); [done|].
  destruct (now_ms (act_clock a)) as [ts clock].
  destruct (write_ahead_shape (with_clock a clock) (act_next_sequence a)
    (command_record (act_next_sequence a) ts c)) as (j & wa & -> & Hj & _).
  pose proof (im_append_sized _ (command_record (act_next_sequence a) ts c) Ha) as Hsz.
  cbn [act_journal with_clock] in Hj. rewrite <-Hj in Hsz. clear Hj. destruct wa; [|done].
  destruct (executor_execute _ _) as [x o]. cbn [act_journal with_executor with_journal].
  set (ev := VenueEvent_new _ _ _ _).
  change (journal_append j (REvent ev)) with (im_append j (REvent ev)).
  pose proof (im_append_sized j (REvent ev) Hsz) as Hj'.
  destruct (im_append j (REvent ev)) as [j' [[]|e]]; [|done]. cbn [fst] in Hj'.
  set (b := match act_clordid_index _ with Some _ => _ | None => _ end).
  assert (act_journal b = j') as Hb by (subst b; by case_match). rewrite <-Hb in Hj'.
  destruct (fan_out_emit (act_fan_out b) _) as [f [[]|e]]; [|done].
  by destruct (checked_next _).
Qed.

Lemma live_shared a0 log pend a clock (shared : SharedState P) :
  live a0 log pend (alone a) → live a0 log pend (alone (share_in clock shared a)).
Proof. by intros []. Qed.

Lemma ran_turn ok a0 a clock (shared : SharedState P) c :
  ok c → ran ok a0 a → ran ok a0 (handle (share_in clock shared a) c).1.
Proof.
  intros Hc (log & pend & Hl & Hok & Hsz). set (a' := share_in clock shared a).
  pose proof (live_shared _ _ _ _ clock shared Hl : live a0 log pend (alone a')) as Hl'.
  pose proof (handle_sized a' c Hsz) as Hsz'.
  destruct (handle_alone a' c) as [_ Ha].
  destruct (act_sealed a') as [why|] eqn:Hs.
  { assert (handle a' c = (a', Err (as_error why))) as -> by by unfold handle; rewrite Hs.
    by exists log, pend. }
  assert (pend = []) as -> by (destruct (live_pend _ _ _ _ Hl') as [?|[_ E]]; [done|]; change (act_sealed a' = Some SealJournalUnavailable) in E; congruence).
  pose proof (handle_live a0 log (alone a') c Hs Hl') as Ht. unfold turn_result in Ht.
  destruct (handle (alone a') c) as [b r]. cbn [fst snd] in *.
  assert (∀ log' pend', live a0 log' pend' b → live a0 log' pend' (alone (handle a' c).1)) as Hback.
  { intros l p Hb. rewrite <-Ha.
    assert (act_clordid_index b = None) as Hi.
    { rewrite (live_clordid _ _ _ _ Hb). pose proof (live_clordid _ _ _ _ Hl) as Hi.
      cbn in Hi. by destruct (act_clordid_index a0). }
    destruct b. cbn in Hi. by subst. }
  rewrite app_nil_r in Hok.
  set (ts := (now_ms (act_clock (alone a'))).1) in Ht. clearbody ts.
  assert (Forall (λ tc : Z * VenueCommand, ok tc.2) (log ++ [(ts, c)])) as Hok'.
  { apply Forall_app. split; [done|]. by apply Forall_singleton. }
  destruct Ht as [(Hb & _)|[(Hb & _)|[(Hb & _)|(Hb & _)]]]; apply Hback in Hb;
    eexists _, _; (split; [exact Hb|]); rewrite ?app_nil_r; done.
Qed.
End shared_actor.

(** ** The ledger of positions and marks

    What the projections keep per symbol, as a fold of small steps: steps of different
    symbols commute, refusals included, so the order in which the events of different
    underlyings are projected does not matter. *)

Section ledger.
Context {US : Upstream} {MP : MarkPriceCalculator}.

Notation ledger := (gmap (string * string) PositionState * gmap string Calculator)%type.

Inductive LedgerStep := LsLeg (leg : PositionLeg) | LsPrint (symbol : Symbol) (price : Cents).

Definition ls_symbol (o : LedgerStep) : Symbol :=
  match o with LsLeg leg => pl_symbol leg | LsPrint symbol _ => symbol end.

Definition ledger_step (l : ledger) (o : LedgerStep) : option ledger :=
  match o with
  | LsLeg leg =>
      match positions_apply l.1 leg with (p, Ok _) => Some (p, l.2) | (_, Err _) => None end
  | LsPrint symbol price => Some (l.1, on_trade l.2 symbol price)
  end.

Fixpoint ledger_run (l : ledger) (os : list LedgerStep) : option ledger :=
  match os with [] => Some l | o :: os => l ← ledger_step l o; ledger_run l os end.

Fixpoint print_steps (symbol : Symbol) (printed : gset string) (fills : list Fill) :
    list LedgerStep :=
  match fills with
  | [] => []
  | fill :: fills =>
      if bool_decide (fill_execution_id fill ∈ printed) then print_steps symbol printed fills
      else LsPrint symbol (fill_price fill)
             :: print_steps symbol ({[fill_execution_id fill]} ∪ printed) fills
  end.

Definition event_steps (e : VenueEvent) : list LedgerStep :=
  match event_target e with
  | Some (symbol, underlying) =>
      (LsLeg ∘ fill_leg symbol underlying <$> outcome_fills (ev_outcome e)) ++
      print_steps symbol ∅ (outcome_fills (ev_outcome e))
  | None => []
  end.

Definition ledger_of_stores (p : StoreProjections) : ledger := (sp_positions p, sp_marks p).
Notation ledger_of_fan_out f := (ledger_of_stores (projection_store f)).

Lemma ledger_run_app l os os' :
  ledger_run l (os ++ os') = ledger_run l os ≫= λ l, ledger_run l os'.
Proof.
  revert l. induction os as [|o os IH]; intros l; [done|]. cbn.
  destruct (ledger_step l o); [apply IH|done].
Qed.

Lemma ledger_run_prints l symbol printed fills :
  ledger_run l (print_steps symbol printed fills) =
    Some (l.1, print_marks l.2 symbol printed fills).
Proof.
  revert l printed. induction fills as [|fill fills IH]; intros [ps ms] printed; [done|]. cbn.
  case_bool_decide; [apply IH|]. cbn. by rewrite IH.
Qed.

Lemma emit_fills_ledger f e symbol u fills :
  match emit_fills f e symbol u fills with
  | (f', Ok _) => sealed f' = sealed f ∧ marks f' = marks f ∧
      ledger_run (ledger_of_fan_out f) (LsLeg ∘ fill_leg symbol u <$> fills) =
        Some (ledger_of_fan_out f')
  | (_, Err _) =>
      ledger_run (ledger_of_fan_out f) (LsLeg ∘ fill_leg symbol u <$> fills) = None
  end.
Proof.
  revert f. induction fills as [|fill fills IH]; intros f; cbn; [done|].
  unfold exec_record. destruct (records _ !! _); cbn;
    (destruct (positions_apply (positions f) _) as [p [[]|]]; cbn; [|done]; apply IH).
Qed.

Lemma emit_ledger f e :
  sealed f = false →
  match emit f e with
  | (f', Ok _) => sealed f' = false ∧
      ledger_run (ledger_of_fan_out f) (event_steps e) = Some (ledger_of_fan_out f')
  | (_, Err _) => ledger_run (ledger_of_fan_out f) (event_steps e) = None
  end.
Proof.
  intros Hs. unfold emit, event_steps, event_target. rewrite Hs.
  destruct (command_symbol (ev_command e)) as [symbol|]; [|done]. cbn [mbind option_bind].
  case_bool_decide as Hf.
  { rewrite Hf. by destruct (underlying_of symbol). }
  destruct (underlying_of symbol) as [u|]; [|done]. cbn [mbind option_bind].
  pose proof (emit_fills_ledger f e symbol u (outcome_fills (ev_outcome e))) as H.
  destruct (emit_fills _ _ _ _ _) as [f' [[]|]]; rewrite ledger_run_app.
  - destruct H as (Hs' & Hm & ->). cbn. rewrite ledger_run_prints. split; [congruence|done].
  - by rewrite H.
Qed.

Lemma ledger_step_comm l o o' :
  ls_symbol o ≠ ls_symbol o' →
  (ledger_step l o ≫= λ l, ledger_step l o') = (ledger_step l o' ≫= λ l, ledger_step l o).
Proof.
  destruct l as [ps ms]. destruct o as [leg|s p], o' as [leg'|s' p']; cbn; intros Hne.
  - unfold positions_apply.
    assert ((pl_account leg, pl_symbol leg) ≠ (pl_account leg', pl_symbol leg')) as Hk by congruence.
    destruct (fold (default _ (ps !! (pl_account leg, pl_symbol leg))) _ _ _ _) as [q [[]|]] eqn:E;
      destruct (fold (default _ (ps !! (pl_account leg', pl_symbol leg'))) _ _ _ _) as [q' [[]|]] eqn:E';
      cbn; rewrite ?lookup_insert_ne, ?E, ?E' by done; cbn; try done.
    do 2 f_equal. by apply insert_insert_ne.
  - by destruct (positions_apply ps leg) as [q [[]|]].
  - by destruct (positions_apply ps leg') as [q [[]|]].
  - unfold on_trade. do 2 f_equal. rewrite !lookup_insert_ne by done. by apply insert_insert_ne.
Qed.

Lemma ledger_run_comm l o os :
  Forall (λ o', ls_symbol o ≠ ls_symbol o') os →
  ledger_run l (o :: os) = ledger_run l (os ++ [o]).
Proof.
  intros Hos. revert l. induction Hos as [|o' os Ho Hos IH]; intros l; [done|]. cbn [app].
  cbn [ledger_run]. pose proof (ledger_step_comm l o o' Ho) as Hc.
  destruct (ledger_step l o) as [l1|], (ledger_step l o') as [l2|]; cbn in *; try done.
  - rewrite <-IH. cbn. by rewrite Hc.
  - by rewrite Hc.
  - rewrite <-IH. cbn. by rewrite <-Hc.
Qed.

(** A class of steps whose symbols no other step has can be run first. *)
Lemma ledger_run_split (Q : LedgerStep → Prop) `{∀ o, Decision (Q o)} l os :
  (∀ o o', Q o → ¬ Q o' → ls_symbol o ≠ ls_symbol o') →
  ledger_run l os = ledger_run l (filter Q os ++ filter (λ o, ¬ Q o) os).
Proof.
  intros HQ. revert l. induction os as [|o os IH]; intros l; [done|].
  rewrite !filter_cons. destruct (decide (Q o)) as [Ho|Ho].
  - rewrite decide_False by tauto. cbn. destruct (ledger_step l o); [apply IH|done].
  - rewrite decide_True by done. rewrite cons_middle, (assoc_L (++)), ledger_run_app.
    rewrite <-ledger_run_comm.
    + cbn. destruct (ledger_step l o) as [l'|]; [|done]. cbn. rewrite IH. apply ledger_run_app.
    + apply Forall_forall. intros o' [Ho' _]%list_elem_of_filter. intros E. by apply (HQ o' o).
Qed.

(** *** Streams *)

Definition steps_of (H : list (string * VenueEvent)) : list LedgerStep :=
  H ≫= λ h, event_steps h.2.
Definition stream_of (t : string) (H : list (string * VenueEvent)) : list VenueEvent :=
  (filter (λ h, h.1 = t) H).*2.
(** Each event is tagged with the underlying its projection belongs to. *)
Definition tagged (H : list (string * VenueEvent)) : Prop :=
  Forall (λ h, Forall (λ o, underlying_of (ls_symbol o) = Some h.1) (event_steps h.2)) H.

Lemma filter_steps (Q : LedgerStep → Prop) `{∀ o, Decision (Q o)}
    (R : string * VenueEvent → Prop) `{∀ h, Decision (R h)} G :
  Forall (λ h, Forall (λ o, Q o ↔ R h) (event_steps h.2)) G →
  filter Q (steps_of G) = steps_of (filter R G).
Proof.
  unfold steps_of. induction 1 as [|h G Hh _ IH]; [done|].
  rewrite bind_cons, filter_app, IH, filter_cons. case_decide as Hr.
  - rewrite bind_cons. f_equal. apply filter_keep. eapply Forall_impl; [exact Hh|]. cbn. tauto.
  - assert (filter Q (event_steps h.2) = []) as ->; [|done].
    clear IH. induction Hh as [|o os Ho _ IH]; [done|]. rewrite filter_cons_False by tauto. done.
Qed.

Lemma ledger_run_streams l (ts : list string) (G : list (string * VenueEvent)) :
  NoDup ts → tagged G → Forall (λ h, h.1 ∈ ts) G →
  ledger_run l (steps_of G) = ledger_run l (ts ≫= λ t, stream_of t G ≫= event_steps).
Proof.
  revert l G. induction ts as [|t ts IH]; intros l G Hnd Ht Hin.
  { destruct Hin as [|h G Hh]; [done|]. by apply not_elem_of_nil in Hh. }
  apply NoDup_cons in Hnd as [Hnin Hnd]. rewrite bind_cons.
  assert (∀ G' : list (string * VenueEvent), G'.*2 ≫= event_steps = steps_of G') as Hb.
  { intros K. unfold steps_of. induction K as [|g K IHK]; [done|]. by rewrite fmap_cons, !bind_cons, IHK. }
  rewrite (ledger_run_split (λ o, underlying_of (ls_symbol o) = Some t)).
  2: { intros o o' Ho Ho' E. rewrite <-E in Ho'. done. }
  cbn beta. rewrite !ledger_run_app, (Hb (filter (λ h, h.1 = t) G) : stream_of t G ≫= event_steps = _).
  rewrite (filter_steps (λ o, underlying_of (ls_symbol o) = Some t) (λ h, h.1 = t)),
    (filter_steps (λ o, underlying_of (ls_symbol o) ≠ Some t) (λ h, h.1 ≠ t)).
  2, 3: eapply Forall_impl; [exact Ht|]; cbn; intros h Hh; eapply Forall_impl; [exact Hh|];
    cbn; intros o ->; split; congruence.
  destruct (ledger_run l (steps_of (filter (λ h, h.1 = t) G))) as [l'|]; [|done]. cbn.
  rewrite IH; [|done| |].
  - f_equal. assert (∀ t', t' ∈ ts → stream_of t' (filter (λ h, h.1 ≠ t) G) = stream_of t' G) as Hs.
    { intros t' Ht'. unfold stream_of. f_equal. apply list_filter_filter_l. intros h -> ->. by apply Hnin. }
    clear - Hs. induction ts as [|t' ts IH]; [done|]. rewrite !bind_cons, Hs by left. f_equal.
    apply IH. intros. apply Hs. by right.
  - apply Forall_forall. intros h [_ Hh]%list_elem_of_filter. unfold tagged in Ht.
    rewrite Forall_forall in Ht. by apply Ht.
  - apply Forall_forall. intros h [Hn Hh]%list_elem_of_filter. rewrite Forall_forall in Hin.
    apply Hin in Hh. by apply elem_of_cons in Hh as [?|?].
Qed.

Lemma project_events_ledger u f es l' :
  sealed f = false → ledger_run (ledger_of_stores (projection_store f)) (es ≫= event_steps) = Some l' →
  ∃ f', project_events u f es = Ok f' ∧ ledger_of_stores (projection_store f') = l'.
Proof.
  revert f. induction es as [|e es IH]; intros f Hs; cbn [project_events].
  { intros [= <-]. by exists f. }
  rewrite bind_cons, ledger_run_app. pose proof (emit_ledger f e Hs) as He.
  destruct (emit f e) as [f' [[]|]]; [|by rewrite He].
  destruct He as [Hs' ->]. cbn. by apply IH.
Qed.
End ledger.

(** ** The venue *)

Lemma event_steps_tagged `{Upstream, MarkPriceCalculator} t (e : VenueEvent) :
  addressed t (ev_command e) →
  Forall (λ o, underlying_of (ls_symbol o) = Some t) (event_steps e).
Proof.
  intros Ha. unfold event_steps, event_target.
  destruct (command_symbol (ev_command e)) as [symbol|] eqn:Hc; [|done]. cbn [mbind option_bind].
  destruct (underlying_of symbol) as [u|] eqn:Hu; [|done]. cbn [mbind option_bind].
  assert (u = t) as ->.
  { destruct Ha as [Hr|[Hg|[now Hn]]]; destruct (ev_command e); try done;
      cbn in Hc; injection Hc as ->; cbn in Hr; unfold underlying_of in Hu;
      by destruct (parse_symbol symbol); simplify_eq/=. }
  apply Forall_app. split.
  - apply Forall_fmap, Forall_forall. intros fill _. done.
  - generalize (∅ : gset string). induction (outcome_fills (ev_outcome e)) as [|fill fills IH];
      intros printed; cbn; [done|]. case_bool_decide; [apply IH|]. constructor; [done|apply IH].
Qed.

Definition journal_events (j : InMemoryVenueJournal) : list VenueEvent :=
  omap (λ r, match r with REvent e => Some e | _ => None end) (im_records j).

Section venue.
Context {W Q : Type} {FW : FanOut W} {SW : SharedProjection W Q} {US : Upstream}
  {MP : MarkPriceCalculator} {SD : Serde}.
Notation fan_out := (TeeFanOut StoreFanOut W).
Notation venue_actor := (UnderlyingActor InMemoryVenueJournal MatchingExecutor fan_out SimClock).
Notation shared := (SharedState (StoreProjections * Q)).
Notation alone a := (with_clordid_index a None).
Implicit Types a b : venue_actor.

Lemma live_journal_events a0 log a :
  live a0 log [] a →
  journal_events (act_journal a) = log_events (act_underlying a0) (act_lineage_id a0)
    (act_executor a0) (act_next_sequence a0) log.
Proof.
  intros Hl. destruct (live_base _ _ _ Hl) as [_ Hr]. unfold journal_events. rewrite Hr.
  apply log_records_events.
Qed.

(** One turn of an actor that is not sealed after it: nothing happened, or one event was
    journaled and projected. *)
Lemma ran_step ok a0 a clock (s : shared) c :
  ran ok a0 a →
  let a' := share_in clock s a in let b := (handle a' c).1 in
  act_sealed b = None →
  act_sealed a = None ∧
  (journal_events (act_journal b) = journal_events (act_journal a) ∧ act_fan_out b = act_fan_out a' ∨
   ∃ e, ev_command e = c ∧
     journal_events (act_journal b) = journal_events (act_journal a) ++ [e] ∧
     fan_out_emit (act_fan_out a') e = (act_fan_out b, Ok tt)).
Proof.
  intros (log & pend & Hl & _) a' b Hb. assert (act_sealed a' = None) as Hs.
  { destruct (act_sealed a') as [why|] eqn:E; [|done]. exfalso.
    subst b. unfold handle in Hb. rewrite E in Hb. change (act_sealed a' = None) in Hb. congruence. }
  split; [exact Hs|].
  pose proof (live_shared _ _ _ _ clock s Hl : live a0 log pend (alone a')) as Hl'.
  assert (pend = []) as ->.
  { destruct (live_pend _ _ _ _ Hl') as [?|[_ E]]; [done|].
    change (act_sealed a' = Some SealJournalUnavailable) in E. congruence. }
  pose proof (handle_live a0 log (alone a') c Hs Hl') as Ht. unfold turn_result in Ht.
  destruct (handle_alone a' c) as [_ Ha]. fold b in Ha.
  set (d := (handle (alone a') c).1) in *.
  assert (act_journal d = act_journal b ∧ act_fan_out d = act_fan_out b ∧ act_sealed d = None)
    as (Hj & Hf & Hd).
  { split_and!; [change (act_journal (alone d) = act_journal (alone b))
      |change (act_fan_out (alone d) = act_fan_out (alone b))
      |change (act_sealed (alone d) = None)]; rewrite Ha; done. }
  rewrite <-Hj, <-Hf. change (act_journal a) with (act_journal (alone a')).
  change (act_fan_out a') with (act_fan_out (alone a')).
  destruct Ht as [(_ & _ & _ & -> & _ & -> & _)|[(_ & _ & ? & _)|[(_ & _ & ?)|(Hlb & _ & Hfe & _)]]];
    [by left|congruence|congruence|].
  right. eexists. split; [|split; [|exact Hfe]]; [done|].
  rewrite (live_journal_events _ _ _ Hlb), (live_journal_events _ _ _ Hl'), log_events_snoc.
  f_equal. unfold turn_event. cbn [fst snd].
  destruct (live_base _ _ _ Hl') as [<- _]. destruct (live_open _ _ _ _ Hl' Hs) as [<- _].
  by rewrite (live_underlying _ _ _ _ Hl'), (live_lineage _ _ _ _ Hl').
Qed.

(** What the turns of a venue leave, from the actors [m0]. *)
Record recorded (ok : VenueCommand → Prop) (m0 : gmap string venue_actor)
    (m : gmap string venue_actor) (s : shared) : Prop := {
  rc_hosted : dom m = dom m0;
  rc_ran t a : m !! t = Some a → ∃ a0, m0 !! t = Some a0 ∧ ran ok (alone a0) a;
  rc_stores : (∀ t a, m !! t = Some a → act_sealed a = None) →
    ∃ G, tagged G ∧ Forall (λ h, h.1 ∈ dom m) G ∧
      (∀ t a, m !! t = Some a → journal_events (act_journal a) = stream_of t G) ∧
      ledger_run (∅, ∅) (steps_of G) = Some (ledger_of_stores (sh_projections s).1);
}.

Definition unstarted (m0 : gmap string venue_actor) (s0 : shared) : Prop :=
  (∀ t a, m0 !! t = Some a → fresh_actor a) ∧
  (sh_projections s0).1 = projection_store StoreFanOut_new.

Lemma recorded_refl ok m0 s0 : unstarted m0 s0 → recorded ok m0 m0 s0.
Proof.
  intros [Hf Hs]. split; [done| |].
  - intros t a Ha. exists a. split; [done|]. exists [], []. destruct (Hf t a Ha) as [Hr Hi Hse Hn].
    split_and!; [|done|by rewrite Hr]. by apply live_refl.
  - intros _. exists []. split_and!; [constructor|constructor| |by rewrite Hs].
    intros t a Ha. destruct (Hf t a Ha) as [Hr _ _ _]. unfold journal_events. by rewrite Hr.
Qed.

Lemma stream_of_snoc t u G e :
  stream_of t (G ++ [(u, e)]) = stream_of t G ++ (if decide (u = t) then [e] else []).
Proof.
  unfold stream_of. rewrite filter_app, fmap_app. f_equal. rewrite filter_cons. cbn.
  by case_decide.
Qed.

(** The projection of an event into shared stores. *)
Lemma shared_emit_ledger (s : shared) a clock e b :
  fan_out_emit (act_fan_out (share_in clock s a)) e = (act_fan_out b, Ok tt) →
  ledger_run (ledger_of_stores (sh_projections s).1) (event_steps e) =
    Some (ledger_of_stores (sh_projections (share_out b)).1).
Proof.
  unfold fan_out_emit, TeeFanOut_fan_out.
  set (f := tee_first (act_fan_out (share_in clock s a))).
  assert (ledger_of_stores (projection_store f) = ledger_of_stores (sh_projections s).1) as <-
    by done.
  unfold fan_out_emit at 1, StoreFanOut_fan_out.
  destruct (sealed f) eqn:Hs; [unfold emit; by rewrite Hs|].
  pose proof (emit_ledger f e Hs) as He. destruct (emit f e) as [f' [[]|]]; [|done].
  destruct He as [_ ->]. destruct (fan_out_emit (tee_second _) e) as [w r].
  intros [= Hb ->]. cbn. by rewrite <-Hb.
Qed.

Lemma recorded_deliver ok m0 m s d :
  ok d.2.2 → addressed d.2.1 d.2.2 → recorded ok m0 m s →
  recorded ok m0 (deliver (m, s) d).1 (deliver (m, s) d).2.
Proof.
  destruct d as [clock [t c]]. cbn [fst snd]. intros Hc Haddr [Hdom Hran Hst]. unfold deliver.
  destruct (m !! t) as [a|] eqn:Ha; [|by split].
  unfold actor_submit, UnderlyingActor_service.
  destruct (Hran t a Ha) as (a0 & Ha0 & Hra).
  pose proof (ran_turn ok _ a clock s c Hc Hra) as Hrb.
  pose proof (ran_step ok _ a clock s c Hra) as Hstep. cbn zeta in Hstep.
  destruct (handle (share_in clock s a) c) as [b r]. cbn [fst snd] in *.
  split.
  - rewrite dom_insert_L, Hdom. apply subseteq_union_1_L, singleton_subseteq_l.
    rewrite <-Hdom. by apply elem_of_dom.
  - intros t' a' [[<- <-]|[Hne Ha']]%lookup_insert_Some; [by exists a0|by apply Hran].
  - intros Hopen. destruct (Hstep (Hopen t b ltac:(by rewrite lookup_insert_eq))) as [Hsa Hev].
    destruct Hst as (G & Htag & Hin & Hstr & Hrun).
    { intros t' a' Ha'. destruct (decide (t' = t)) as [->|Hne]; [congruence|].
      apply (Hopen t'). by rewrite lookup_insert_ne. }
    assert (∀ h : string * VenueEvent, h.1 ∈ dom m → h.1 ∈ dom (<[t:=b]> m)) as Hmono.
    { intros h Hh. rewrite dom_insert. set_solver. }
    destruct Hev as [[Hj Hf]|(e & He & Hj & Hf)].
    + exists G. split_and!; [done|by eapply Forall_impl| |].
      * intros t' a' [[<- <-]|[Hne Ha']]%lookup_insert_Some; [|by apply Hstr].
        rewrite Hj. by apply Hstr.
      * rewrite Hrun. unfold share_out. cbn. by rewrite Hf.
    + exists (G ++ [(t, e)]). split_and!.
      * apply Forall_app. split; [done|]. apply Forall_singleton. cbn.
        apply event_steps_tagged. by rewrite He.
      * apply Forall_app. split; [by eapply Forall_impl|]. apply Forall_singleton. cbn.
        rewrite dom_insert. set_solver.
      * intros t' a' [[<- <-]|[Hne Ha']]%lookup_insert_Some; rewrite stream_of_snoc.
        -- rewrite decide_True by done. rewrite Hj. f_equal. by apply Hstr.
        -- rewrite decide_False by done. rewrite app_nil_r. by apply Hstr.
      * unfold steps_of. rewrite bind_app, bind_cons, app_nil_r, ledger_run_app.
        fold (steps_of G). rewrite Hrun. cbn [mbind option_bind snd].
        by eapply shared_emit_ledger.
Qed.

Lemma recorded_log ok m0 s0 (log : list delivery) :
  unstarted m0 s0 → Forall (λ d, ok d.2.2 ∧ addressed d.2.1 d.2.2) log →
  recorded ok m0 (foldl deliver (m0, s0) log).1 (foldl deliver (m0, s0) log).2.
Proof.
  intros Hf. induction log as [|d log IH] using rev_ind; intros Hlog; [by apply recorded_refl|].
  apply Forall_app in Hlog as [Hlog [Hc Ha]%Forall_singleton]. rewrite foldl_app. cbn [foldl].
  destruct (foldl deliver (m0, s0) log) as [m s]. by apply recorded_deliver, IH.
Qed.

(** *** The driver *)

Section driver.
Context {DP : Dependencies} (config_display : MicrostructureConfigError → string).

Lemma append_all_ok u j rs :
  im_wf j → Forall (λ r, check_record_size r = Ok tt) rs →
  NoDup (record_key <$> im_records j ++ rs) →
  ∃ j', append_all u j rs = Ok j' ∧ im_header j' = im_header j ∧
    im_records j' = im_records j ++ rs.
Proof.
  revert j. induction rs as [|r rs IH]; intros j Hj Hs Hnd; cbn [append_all].
  { exists j. by rewrite app_nil_r. }
  apply Forall_cons in Hs as [Hr Hs]. rewrite Hr. cbn [map_err mbind result_bind].
  change (journal_append j r) with (im_append j r).
  rewrite cons_middle, (assoc_L (++)) in Hnd.
  pose proof (im_append_wf j r Hj) as Hj'.
  rewrite im_append_fresh in Hj' |- *; [|done| |done|].
  2, 3: apply im_index_None; [done|]; rewrite fmap_app in Hnd; apply NoDup_app in Hnd as [Hnd _];
    rewrite fmap_app in Hnd; apply NoDup_app in Hnd as (_ & Hd & _); intros Hin;
    by apply (Hd _ Hin), list_elem_of_singleton.
  cbn [fst] in Hj'. destruct (IH _ Hj' Hs Hnd) as (j' & -> & Hh & Hrec). exists j'. split; [done|].
  cbn in Hh, Hrec. split; [done|]. by rewrite Hrec, <-(assoc_L (++)).
Qed.

Definition bootable (config : MicrostructureConfig) (lineage t : string) a : Prop :=
  act_underlying a = t ∧ act_lineage_id a = lineage ∧
  im_header (act_journal a) = JournalHeader_new lineage ∧ act_next_sequence a = SEQUENCE_START ∧
  new_with_microstructure t config = Ok (act_executor a) ∧ underlying (act_executor a) = t.

Definition replayable (config : MicrostructureConfig) (c : VenueCommand) : Prop :=
  admissible config c ∧ no_nan c.

Lemma replayable_admission config c :
  replayable config c → is_ok (replay_admission (Some config) c) = true.
Proof.
  intros [Ha _]. unfold admissible in Ha. unfold replay_admission.
  by destruct (check_order_admission config c).
Qed.

Definition exported (lineage t : string) a : JournalStream :=
  {| js_underlying := t; js_header := JournalHeader_new lineage;
     js_stream_records := im_records (act_journal a) |}.

(** The stream of one actor re-executes to its books and events. *)
Lemma stream_replays config lineage t a0 a :
  bootable config lineage t a0 → ran (replayable config) (alone a0) a → act_sealed a = None →
  ∃ j, build_journal (exported lineage t a) = Ok j ∧
    replay_recover config_display (Some config) j t =
      Ok {| rec_events := journal_events (act_journal a); rec_executor := act_executor a;
            rec_last_sequence := im_last_sequence (act_journal a) |}.
Proof.
  intros (Hu & Hlin & Hh & Hn & Hx & Hux) (log & pend & Hl & Hok & Hsz) Hs.
  assert (pend = []) as ->.
  { destruct (live_pend _ _ _ _ Hl) as [?|[_ E]]; [done|].
    change (act_sealed a = Some SealJournalUnavailable) in E. congruence. }
  rewrite app_nil_r in Hok.
  pose proof (live_journal_events _ _ _ Hl) as Hev.
  destruct (live_base _ _ _ Hl) as [Hrun Hrec]. pose proof (live_wf _ _ _ _ Hl) as Hwf.
  cbn [act_journal act_underlying act_lineage_id act_executor act_next_sequence with_clordid_index]
    in Hev, Hrun, Hrec, Hwf. rewrite Hu, Hlin, Hn in Hev, Hrun, Hrec.
  destruct (append_all_ok t (InMemoryVenueJournal_new (JournalHeader_new lineage))
    (im_records (act_journal a)) (im_wf_new _) Hsz (im_wf_NoDup _ Hwf)) as (j & Hj & Hjh & Hjr).
  exists j. split; [exact Hj|]. cbn in Hjh, Hjr.
  assert (replay_recover config_display (Some config) j t =
    (recover_into j (act_executor a0) (Some config) None).2) as ->.
  { unfold replay_recover, recover_with_microstructure, recover_inner, recover_into,
      recover_from_records. rewrite Hx, Hux. cbn [map_err].
    destruct (negb _); [done|]. by destruct (journal_read_from j SEQUENCE_START). }
  rewrite (recover_into_log j (act_executor a0) lineage SEQUENCE_START log []); rewrite ?app_nil_r.
  - cbn [snd]. by rewrite Hux, <-Hrun, <-Hev, Hjr.
  - done.
  - rewrite Hjr, Hrec, Hux. cbn. by rewrite ?app_nil_r.
  - done.
  - cbn. lia.
  - eapply Forall_impl; [exact Hok|]. intros tc. apply replayable_admission.
  - eapply Forall_impl; [exact Hok|]. by intros tc [_ ?].
Qed.

(** What a replay reports of one actor. *)
Definition mirror (t : string) a : UnderlyingReplay :=
  {| ur_underlying := t; ur_events := journal_events (act_journal a);
     ur_last_sequence := im_last_sequence (act_journal a); ur_executor := act_executor a |}.

Lemma replay_ordered_ok config lineage (tas : list (string * venue_actor)) p l' :
  Forall (λ ta, ∃ a0, bootable config lineage ta.1 a0 ∧
    ran (replayable config) (alone a0) ta.2 ∧ act_sealed ta.2 = None) tas →
  ledger_run (ledger_of_stores p)
    (tas ≫= λ ta, journal_events (act_journal ta.2) ≫= event_steps) = Some l' →
  ∃ p', replay_ordered config_display (Some config) p
      ((λ ta, exported lineage ta.1 ta.2) <$> tas) =
    Ok {| rr_per_underlying := (λ ta, mirror ta.1 ta.2) <$> tas; rr_stores := p' |} ∧
    ledger_of_stores p' = l'.
Proof.
  intros Ht. revert p. induction Ht as [|[t a] tas (a0 & Hb & Hr & Hs) _ IH]; intros p.
  { intros [= <-]. by exists p. }
  rewrite bind_cons, ledger_run_app. cbn [fst snd] in *.
  destruct (ledger_run (ledger_of_stores p) (journal_events (act_journal a) ≫= event_steps))
    as [l1|] eqn:E; [|done]. cbn [mbind option_bind]. intros Hl'.
  rewrite fmap_cons. cbn [replay_ordered fst snd].
  destruct (stream_replays config lineage t a0 a Hb Hr Hs) as (j & -> & Hrec).
  cbn [mbind result_bind]. change (js_underlying (exported lineage t a)) with t. rewrite Hrec.
  cbn [map_err mbind result_bind rec_events].
  destruct (project_events_ledger t (store_fan_out p) (journal_events (act_journal a)) l1)
    as (f & -> & Hf); [done|exact E|]. cbn [mbind result_bind].
  rewrite <-Hf in Hl'. destruct (IH _ Hl') as (p' & -> & Hp'). by exists p'.
Qed.

(** *** The bundle of a venue *)

Notation venue_state := (Venue shared venue_actor).

Definition hosted_actors (v : venue_state) : list (string * venue_actor) :=
  omap (λ t, (t,.) <$> v_underlyings v !! t) (Venue.underlyings v).

Lemma hosted_actors_spec (v : venue_state) :
  (hosted_actors v).*1 = Venue.underlyings v ∧
  Forall (λ ta, v_underlyings v !! ta.1 = Some ta.2) (hosted_actors v).
Proof.
  unfold hosted_actors.
  assert (Forall (λ t, is_Some (v_underlyings v !! t)) (Venue.underlyings v)) as Hall.
  { apply Forall_forall. intros t. apply elem_of_underlyings. }
  induction Hall as [|t ts [a Ha] _ [IH1 IH2]]; [done|]. cbn. rewrite Ha. cbn.
  split; [by f_equal|by constructor].
Qed.

Lemma ran_read_all ok a0 a :
  0 ≤ act_next_sequence a0 → ran ok a0 a →
  actor_snapshot a = Ok {| js_last_sequence := im_last_sequence (act_journal a);
                           js_records := im_records (act_journal a) |}.
Proof.
  intros Hn (log & pend & Hl & _). unfold actor_snapshot, UnderlyingActor_snapshots. cbn.
  do 2 f_equal. apply filter_keep. apply Forall_forall. intros r Hr. unfold SEQUENCE_START.
  pose proof (live_records _ _ _ _ Hl) as Hrec. cbn in Hrec. rewrite Hrec in Hr.
  apply elem_of_app in Hr as [Hr|Hr]; [apply log_records_bound in Hr; lia|].
  apply list_elem_of_fmap in Hr as (tc & -> & _). cbn. lia.
Qed.

Lemma export_streams_ok lineage (v : venue_state) (tas : list (string * venue_actor)) :
  Forall (λ ta, v_underlyings v !! ta.1 = Some ta.2 ∧
    actor_snapshot ta.2 = Ok {| js_last_sequence := im_last_sequence (act_journal ta.2);
                                js_records := im_records (act_journal ta.2) |}) tas →
  export_streams (JournalHeader_new lineage) tas.*1 v =
    Ok ((λ ta, exported lineage ta.1 ta.2) <$> tas).
Proof.
  induction 1 as [|[t a] tas [Ha Hs] _ IH]; [done|]. rewrite !fmap_cons. cbn [export_streams].
  unfold journal_snapshot, handle_for. cbn [fst snd] in *. rewrite Ha. cbn [ok_or mbind result_bind].
  rewrite Hs. cbn [mbind result_bind]. rewrite IH. done.
Qed.

Lemma exported_sorted lineage (v : venue_state) :
  sort_by_key String.leb js_underlying ((λ ta, exported lineage ta.1 ta.2) <$> hosted_actors v) =
    (λ ta, exported lineage ta.1 ta.2) <$> hosted_actors v.
Proof.
  apply sort_by_key_id.
  pose proof (sort_by_key_sorted String.leb id (map_to_list (v_underlyings v)).*1) as Hs.
  change (sort_by_key String.leb id _) with (Venue.underlyings v) in Hs.
  rewrite <-(proj1 (hosted_actors_spec v)) in Hs. unfold key_sorted in *.
  induction (hosted_actors v) as [|[t a] tas IH]; [constructor|].
  rewrite !fmap_cons in *. apply StronglySorted_inv in Hs as [Hs Ht].
  constructor; [by apply IH|]. apply Forall_fmap. by apply Forall_fmap in Ht.
Qed.

(** The inputs a venue records for its replay. *)
Definition recorded_inputs (p : ReplayPlane) (v : venue_state) : Prop :=
  rm_versions (rp_manifest p) = DependencyVersions_current ∧
  rm_microstructure_fingerprint (rp_manifest p) = fingerprint (v_microstructure v) ∧
  config_validate (v_microstructure v) = Ok tt.

Lemma bundle_gates p v streams :
  recorded_inputs p v →
  let b := with_microstructure (v_microstructure v) (ScenarioBundle_new (rp_manifest p) streams) in
  verify_bundle_versions b = Ok tt ∧ verify_bundle_microstructure config_display b = Ok tt.
Proof.
  intros (Hv & Hf & Hc) b. split.
  - unfold verify_bundle_versions, is_current_schema. cbn [sb_schema sb_manifest with_microstructure
      ScenarioBundle_new b]. rewrite String.eqb_refl, Hv. cbn [negb].
    unfold first_incompatibility. cbn [dv_envelope_schema dv_fauxchange DependencyVersions_current].
    rewrite String.eqb_refl. cbn [negb].
    by replace (fauxchange_versions_compatible CARGO_PKG_VERSION CARGO_PKG_VERSION) with true
      by (by vm_compute).
  - unfold verify_bundle_microstructure. cbn [sb_microstructure sb_manifest with_microstructure
      ScenarioBundle_new b]. rewrite Hc, Hf, String.eqb_refl. done.
Qed.

End driver.
End venue.

(** ** What a replay vouches for *)

Section vouched.
Context `{Upstream, MarkPriceCalculator, Serde, Dependencies}.
Context (config_display : MicrostructureConfigError → string).

(** [r] is the re-execution of the stream [s]: its commands in sequence order, each admitted,
    no stored event at odds with the one derived at its sequence. *)
Definition verified (config : MicrostructureConfig) (s : JournalStream) (r : UnderlyingReplay) :
    Prop :=
  header_is_current_schema (js_header s) = true ∧ ur_underlying r = js_underlying s ∧
  ∃ j x0, build_journal s = Ok j ∧ new_with_microstructure (js_underlying s) config = Ok x0 ∧
    let records := filter (λ r, SEQUENCE_START ≤ record_sequence r) (im_records j) in
    let run := replay (js_underlying s) (header_lineage_id (js_header s)) x0
                 (command_records_in_order records) in
    Forall (λ c, admitted (Some config) c = true) (command_records_in_order records) ∧
    Forall (λ e, agrees records e = true) run.2 ∧
    ur_executor r = run.1 ∧ ur_events r = run.2.

Lemma append_all_header u j rs j' : append_all u j rs = Ok j' → im_header j' = im_header j.
Proof.
  revert j. induction rs as [|r rs IH]; intros j; cbn [append_all]; [by intros [= ->]|].
  destruct (map_err _ _) as [[]|]; [|done]. cbn [mbind result_bind].
  pose proof (append_header (VenueJournalLaws := InMemoryVenueJournal_laws) j r) as Hh.
  destruct (journal_append j r) as [j1 [[]|]]; [|done].
  intros Hj. rewrite (IH _ Hj). exact Hh.
Qed.

Lemma replay_recover_verified config s j rec :
  build_journal s = Ok j →
  replay_recover config_display (Some config) j (js_underlying s) = Ok rec →
  verified config s
    {| ur_underlying := js_underlying s; ur_events := rec_events rec;
       ur_last_sequence := rec_last_sequence rec; ur_executor := rec_executor rec |}.
Proof.
  intros Hj. pose proof (append_all_header _ _ _ _ Hj) as Hh. cbn in Hh.
  unfold replay_recover, recover_with_microstructure, recover_inner.
  change (journal_header j) with (im_header j). rewrite Hh.
  destruct (header_is_current_schema (js_header s)) eqn:Hs; cbn [negb]; [|done].
  change (journal_read_from j SEQUENCE_START) with (im_read_from j SEQUENCE_START).
  unfold im_read_from, recover_from_records. cbv beta iota.
  destruct (new_with_microstructure _ config) as [x0|e] eqn:Hx; cbn [map_err]; [|done].
  set (records := filter (λ r, SEQUENCE_START ≤ record_sequence r) (im_records j)). intros Hr.
  destruct (recovery_decides_agreement (js_underlying s) (header_lineage_id (js_header s))
    records (Some config) x0 None) as [Hok Hbad]. cbn zeta in Hok, Hbad.
  match type of Hok with ?P → _ => destruct (decide P) as [HP|HP] end.
  - rewrite Hok in Hr by done. cbn [snd] in Hr. injection Hr as <-.
    split_and!; [done..|]. exists j, x0. destruct HP. by split_and!.
  - destruct (Hbad HP) as (i' & err & E & _). by rewrite E in Hr.
Qed.

(** Nothing unchecked is replayed.  A replayed bundle had the driver's schema, the
    envelope schema of the binary, a compatible crate version, and a valid configuration whose
    fingerprint its manifest records; each of its streams, in underlying order, had the
    current journal schema, no record too large or in conflict with another, only commands
    its configuration admits, and no stored event that re-execution contradicts; and the
    report holds the books and events of exactly that re-execution. *)
Theorem replayed_bundle_verified b report :
  replay_bundle config_display b = Ok report →
  sb_schema b = SCENARIO_BUNDLE_SCHEMA ∧
  dv_envelope_schema (rm_versions (sb_manifest b)) = VENUE_ENVELOPE_SCHEMA ∧
  fauxchange_versions_compatible CARGO_PKG_VERSION
    (dv_fauxchange (rm_versions (sb_manifest b))) = true ∧
  config_validate (sb_microstructure b) = Ok tt ∧
  fingerprint (sb_microstructure b) = rm_microstructure_fingerprint (sb_manifest b) ∧
  Forall2 (verified (sb_microstructure b))
    (sort_by_key String.leb js_underlying (sb_streams b)) (rr_per_underlying report).
Proof.
  unfold replay_bundle, verify_bundle_versions, verify_bundle_microstructure, is_current_schema.
  destruct (String.eqb_spec (sb_schema b) SCENARIO_BUNDLE_SCHEMA) as [Hs|]; cbn [negb]; [|done].
  unfold first_incompatibility.
  cbn [dv_envelope_schema dv_fauxchange DependencyVersions_current].
  destruct (String.eqb_spec (dv_envelope_schema (rm_versions (sb_manifest b)))
    VENUE_ENVELOPE_SCHEMA) as [Hv|]; cbn [negb]; [|done].
  destruct (fauxchange_versions_compatible _ _) eqn:Hc; cbn [negb mbind result_bind]; [|done].
  destruct (config_validate (sb_microstructure b)) as [[]|] eqn:Hcv; cbn [map_err]; [|done].
  destruct (String.eqb_spec (fingerprint (sb_microstructure b))
    (rm_microstructure_fingerprint (sb_manifest b))) as [Hf|]; cbn [negb]; [|done].
  intros Hr. split_and!; [done..|].
  unfold replay_streams_with_microstructure, replay_streams_inner in Hr. revert Hr.
  generalize (sort_by_key String.leb js_underlying (sb_streams b)) as streams.
  generalize (projection_store StoreFanOut_new) as p. intros p streams. revert p report.
  induction streams as [|s streams IH]; intros p report; cbn [replay_ordered].
  { intros [= <-]. constructor. }
  destruct (build_journal s) as [j|] eqn:Hj; cbn [mbind result_bind]; [|done].
  destruct (replay_recover _ _ _ _) as [rec|] eqn:Hrec; cbn [map_err mbind result_bind]; [|done].
  destruct (project_events _ _ _) as [f|]; cbn [mbind result_bind]; [|done].
  destruct (replay_ordered _ _ _ streams) as [report'|] eqn:Hrest; cbn [mbind result_bind]; [|done].
  intros [= <-]. constructor; [by eapply replay_recover_verified|exact (IH _ _ Hrest)].
Qed.

(** The gates of version. *)
Lemma versions_directional M m p m' running recorded :
  parse_major_minor running = Some (M, m) → parse_major_minor recorded = Some (p, m') →
  fauxchange_versions_compatible running recorded = true ↔
    p = M ∧ (M = 0 → m' = m) ∧ (M ≠ 0 → m' ≤ m).
Proof.
  intros Hr Hc. unfold fauxchange_versions_compatible. rewrite Hr, Hc.
  destruct (Z.eqb_spec M p) as [<-|]; cbn [negb]; [|split; [done|intros [? _]; congruence]].
  destruct (Z.eqb_spec M 0) as [->|HM].
  - rewrite Z.eqb_eq. naive_solver.
  - rewrite Z.leb_le. naive_solver.
Qed.
End vouched.

(** ** Concrete bundles *)

#[export] Instance SampleDependencies : Dependencies := {| optionstratlib_VERSION := "0.15.2" |}.
Definition no_display (_ : MicrostructureConfigError) : string := "rejected".

Definition recorded_actor (t : string) :
    UnderlyingActor InMemoryVenueJournal MatchingExecutor (TeeFanOut StoreFanOut NoopFanOut)
      SimClock :=
  first_actor no_feed t "run-1" 64
    (match new_with_microstructure t (ac_microstructure boot_config) with
     | Ok x => x | Err _ => executor_new t
     end) tt sample_clock.

Definition recorded_venue :
    Venue (SharedState (StoreProjections * unit))
      (UnderlyingActor InMemoryVenueJournal MatchingExecutor (TeeFanOut StoreFanOut NoopFanOut)
        SimClock) :=
  {| v_underlyings := {[ "BTC" := recorded_actor "BTC"; "ETH" := recorded_actor "ETH" ]};
     v_shared := {| sh_projections := (projection_store StoreFanOut_new, tt);
                   sh_clordid_index := Some with_default_ceiling |};
     v_clock := sample_clock; v_seed := 42; v_microstructure := ac_microstructure boot_config;
     v_correlation_counter := 0; v_expiry_phases := ∅; v_ingress := ∅; v_arrival_counter := 0;
     v_rest_ingress_counter := 0; v_replies := [] |}.

Definition recorded_plane : ReplayPlane :=
  {| rp_lineage_id := "run-1"; rp_manifest := boot_manifest boot_config;
     rp_recording := RecordingController_default |}.

(** The trades of two underlyings, interleaved. *)
Definition recorded_turns : list delivery :=
  (λ e, (sample_clock, e)) <$>
    [("BTC", limit_add btc_call "v0" "alice" 1 (Some "a-1") Sell 100 5);
     ("ETH", limit_add eth_call "v1" "alice" 1 None Sell 70 2);
     ("BTC", limit_add btc_call "v2" "bob" 2 None Buy 100 3);
     ("ETH", limit_add eth_call "v3" "bob" 2 None Buy 70 2);
     ("BTC", Clock 20)].

Definition recorded_after :=
  let '(m, s) := foldl deliver (v_underlyings recorded_venue, v_shared recorded_venue)
                   recorded_turns in
  with_actors m s recorded_venue.

Lemma recorded_lookup t a :
  v_underlyings recorded_venue !! t = Some a → (t = "BTC" ∨ t = "ETH") ∧ a = recorded_actor t.
Proof.
  change (v_underlyings recorded_venue) with
    (<["BTC" := recorded_actor "BTC"]> {[ "ETH" := recorded_actor "ETH" ]} : gmap string _).
  intros [[<- <-]|[_ [<- <-]%lookup_singleton_Some]]%lookup_insert_Some; split; auto.
Qed.

Lemma recorded_bootable t :
  t = "BTC" ∨ t = "ETH" → bootable (v_microstructure recorded_venue) "run-1" t (recorded_actor t).
Proof.
  intros Ht. unfold bootable. do 4 (split; [reflexivity|]). split.
  - unfold recorded_actor, first_actor, new_actor, Actor_new, with_clordid_index.
    cbn [act_executor]. change (v_microstructure recorded_venue) with (ac_microstructure boot_config).
    destruct (new_with_microstructure t _) as [x|e] eqn:E; [reflexivity|].
    apply (f_equal is_ok) in E. destruct Ht as [-> | ->]; vm_compute in E; discriminate E.
  - destruct Ht as [-> | ->]; vm_compute; reflexivity.
Qed.


Definition latency_only (l : LatencyConfig) : MicrostructureConfig :=
  {| fees := fees MicrostructureConfig_default; stp := StpOff; default_specs := baseline;
     per_underlying := []; per_symbol := []; latency := l |}.

(** Two latency models with different spreads and one fingerprint: the spread is printed to six
    places. *)
Example fingerprint_blind_to_small_sigma :
  let narrow := LatNormal 500 (f64_lit 1 10000000) in
  let wide := LatNormal 500 (f64_lit 2 10000000) in
  latency_validate narrow = Ok tt ∧ latency_validate wide = Ok tt ∧
  latency_eqb narrow wide = false ∧
  fingerprint (latency_only narrow) = fingerprint (latency_only wide).
Proof. vm_compute. split_and!; reflexivity. Qed.

(** Known renderings. *)
Example fmt_sigma_known :
  fmt_sigma (f64_lit 1 4) = "0.250000" ∧ fmt_sigma (f64_lit 1 10) = "0.100000" ∧
  fmt_sigma (f64_lit 1 128) = "0.007812" ∧ fmt_sigma (f64_lit 3 128) = "0.023438" ∧
  fmt_sigma (f64_lit 12345 100) = "123.450000" ∧ fmt_sigma F64_NAN = "NaN".
Proof. vm_compute. split_and!; reflexivity. Qed.

Example versions_known :
  parse_major_minor "1.2.3" = Some (1, 2) ∧ parse_major_minor "0.1.0-mismatch" = Some (0, 1) ∧
  parse_major_minor "1.2.3.4" = None ∧ parse_major_minor "" = None ∧
  fauxchange_versions_compatible "1.5.0" "1.2.0" = true ∧
  fauxchange_versions_compatible "1.0.0" "1.99.0" = false ∧
  fauxchange_versions_compatible "0.7.3" "0.7.0" = true.
Proof. vm_compute. split_and!; reflexivity. Qed.

(** A snapshot counts every journaled command as an order. *)
Example snapshot_counts_commands :
  let admin := {| au_claims := {| cl_sub := "ops"; cl_permissions := [PermAdmin]; cl_iat := 0;
                                  cl_exp := 0; cl_revocation_epoch := 0 |} |} in
  match (create_snapshot admin "run-1" 0 recorded_after).2 with
  | Ok r => (cs_orderbooks_saved r, cs_orders_saved r, cs_success r) = (2, 5, true)
  | Err _ => False
  end.
Proof. vm_compute. reflexivity. Qed.

Lemma replayed_bundle_verified_witness :
  match export_bundle recorded_plane recorded_after with
  | Ok b => fingerprint (sb_microstructure b) = rm_microstructure_fingerprint (sb_manifest b)
  | Err _ => False
  end.
Proof.
  destruct (export_bundle recorded_plane recorded_after) as [b|e] eqn:Hb.
  - destruct (replay_bundle no_display b) as [report|e] eqn:Hr.
    + apply (replayed_bundle_verified no_display b report Hr).
    + exfalso. apply (f_equal (λ r, match r with Ok b => is_ok (replay_bundle no_display b) | Err _ => true end)) in Hb.
      rewrite Hr in Hb. vm_compute in Hb. discriminate Hb.
  - apply (f_equal is_ok) in Hb. vm_compute in Hb. discriminate Hb.
Defined.
