(* ===== verification/Simulator.v ===== *)
(** Synthetic prices and sessions ([src/src/simulation/]): the price walks ([walk.rs]), the
    simulator that serves them ([simulator.rs]), the bounded sink onto the sequenced path and its
    forwarder ([sink.rs]), chain synthesis ([session.rs]), and the seeding phase that opens a
    venue ([src/src/seed.rs]).

    The walk generator, its number types and the smile of [optionstratlib] are the class
    [WalkLib]; a generation draws from the process's entropy, so its result depends on which
    generation of the run it is. *)

From S2P Require Export ConfigModel MarketMaker Seed SimClock Venue FixTime.

(** ** Walks ([walk.rs]) *)

Inductive SimError :=
  | InvalidParameter (reason : string)
  | WalkFailed (reason : string)
  | NonRepresentablePrice (dollars : f64)
  | SimUnknownUnderlying (underlying : string)
  | TimelineExhausted
  | ChainSynthesisFailed (reason : string).

Inductive WalkTypeConfig := GeometricBrownian | MeanReverting | JumpDiffusion.

Class WalkLib := {
  (** The number types of the library; [positive_new] refuses what is not positive. *)
  Positive : Type;
  Decimal : Type;
  positive_new : f64 → result string Positive;
  positive_to_f64 : Positive → f64;
  decimal_from_f64_retain : f64 → option Decimal;
  (** The generators: time step, drift, volatility; the mean they revert to with its speed; the
      intensity, mean and volatility of jumps; then the path's length, its start, and the
      entropy of the call. *)
  geometric_brownian : Positive → Decimal → Positive → Z → f64 → Z → result string (list f64);
  mean_reverting : Positive → Positive → Positive → Positive → Z → f64 → Z →
    result string (list f64);
  jump_diffusion : Positive → Decimal → Positive → Positive → Decimal → Positive → Z → f64 → Z →
    result string (list f64);
  (** The smile: base volatility, skew, curvature, strike and spot. *)
  adjust_volatility : Positive → Decimal → Decimal → Positive → Positive → option Positive;
}.

Definition MILLIS_PER_YEAR : f64 := f64_of_Z (365 * 24 * 60 * 60 * 1_000).
Definition MEAN_REVERT_SPEED : f64 := f64_of_Z 1.
Definition JUMP_INTENSITY : f64 := f64_of_Z 12.
Definition JUMP_MEAN : f64 := f64_of_Z 0.
Definition JUMP_VOLATILITY : f64 := f64_lit 1 10.
Definition MIN_PATH_STEPS : Z := 2.
Definition F64_MIN_POSITIVE : f64 := 0x0010000000000000.

(** [10.0 / 100.0]: cents as dollars. *)
Definition dollars_of (cents : Cents) : f64 := f64_div (f64_of_Z cents) (f64_of_Z 100).

Definition dollars_to_cents (dollars : f64) : result SimError Cents :=
  if negb (f64_is_finite dollars) || f64_ltb dollars 0 then Err (NonRepresentablePrice dollars)
  else
    let cents := f64_round (f64_mul dollars (f64_of_Z 100)) in
    if negb (f64_contains 0 (f64_of_Z (int_max u64)) cents)
    then Err (NonRepresentablePrice dollars)
    else Ok (f64_as u64 cents).

Fixpoint prices_to_cents (prices : list f64) : result SimError (list Cents) :=
  match prices with
  | [] => Ok []
  | price :: prices =>
      cents ← dollars_to_cents price;
      path ← prices_to_cents prices;
      Ok (cents :: path)
  end.

Section walk.
Context `{WalkLib, ConfigLib}.

Definition sim_positive (value : f64) : result SimError Positive :=
  if negb (finite_positive value)
  then Err (InvalidParameter ("expected a finite, strictly-positive value, got " +:+
                              f64_display value))
  else map_err (λ error, InvalidParameter ("expected a positive value: " +:+ error))
         (positive_new value).
Definition sim_decimal (value : f64) : result SimError Decimal :=
  ok_or (InvalidParameter ("value is not a finite decimal: " +:+ f64_display value))
    (decimal_from_f64_retain value).

(** The mapped walk, ready to generate. *)
Definition to_walk_type (walk_type : WalkTypeConfig) (dt : Positive) (drift : Decimal)
    (volatility mean : Positive) : result SimError (Z → f64 → Z → result string (list f64)) :=
  match walk_type with
  | GeometricBrownian => Ok (geometric_brownian dt drift volatility)
  | MeanReverting =>
      speed ← sim_positive MEAN_REVERT_SPEED;
      Ok (mean_reverting dt volatility speed mean)
  | JumpDiffusion =>
      intensity ← sim_positive JUMP_INTENSITY;
      jump_mean ← sim_decimal JUMP_MEAN;
      jump_volatility ← sim_positive JUMP_VOLATILITY;
      Ok (jump_diffusion dt drift volatility intensity jump_mean jump_volatility)
  end.

Definition generate_path (walk_type : WalkTypeConfig) (initial_price : Cents)
    (drift volatility : f64) (step_ms size : Z) (entropy : Z) : result SimError (list Cents) :=
  let start_dollars := dollars_of initial_price in
  dt ← sim_positive (f64_div (f64_of_Z step_ms) MILLIS_PER_YEAR);
  drift_dec ← sim_decimal drift;
  vol ← sim_positive volatility;
  mean ← sim_positive (f64_max start_dollars F64_MIN_POSITIVE);
  walk ← to_walk_type walk_type dt drift_dec vol mean;
  prices ← map_err WalkFailed (walk (Z.max size MIN_PATH_STEPS) start_dollars entropy);
  prices_to_cents prices.
End walk.

(** ** The seam onto the sequencer *)

Class StepSink (K : Type) :=
  apply_step : EventTimestamp → string → Cents → option Cents → option Cents → K → K * bool.

Definition DEFAULT_STEP_SINK_CAPACITY : Z := 4_096.

(** The bounded channel to the forwarder task, and the price bands. *)
Record VenueStepSink := {
  vs_capacity : Z; vs_open : bool; vs_queue : list VenueCommand;
  vs_microstructure : MicrostructureConfig }.
Definition step_sink_with_capacity (microstructure : MicrostructureConfig) (capacity : Z) :
    VenueStepSink :=
  {| vs_capacity := Z.max capacity 1; vs_open := true; vs_queue := [];
     vs_microstructure := microstructure |}.
Definition with_step_queue (q : list VenueCommand) (s : VenueStepSink) : VenueStepSink :=
  {| vs_capacity := vs_capacity s; vs_open := vs_open s; vs_queue := q;
     vs_microstructure := vs_microstructure s |}.

#[export] Instance VenueStepSink_sink : StepSink VenueStepSink :=
  λ now_ms underlying price bid ask s,
    match admit_price (vs_microstructure s) underlying price with
    | Err _ => (s, false)
    | Ok _ =>
        if vs_open s && (Z.of_nat (length (vs_queue s)) <? vs_capacity s)
        then (with_step_queue (vs_queue s ++ [SimStep now_ms underlying price bid ask]) s, true)
        else (s, false)
    end.

Section forwarder.
Context {S A : Type} `{!ActorService S A, !Upstream} `{PricingLib}.

(** One command of the queue: submitted, and only once committed driving the market maker. *)
Definition forward_step (command : VenueCommand) (v : Venue S A) (engine : MarketMakerEngine) :
    Venue S A * MarketMakerEngine :=
  match command with
  | SimStep now_ms underlying price _ _ =>
      match v_underlyings v !! underlying with
      | None => (v, engine)
      | Some _ =>
          match submit_to underlying command v with
          | (v, Err _) => (v, engine)
          | (v, Ok _) => (v, update_price underlying price (set_venue_now_ms now_ms engine))
          end
      end
  | _ => (v, engine)
  end.
End forwarder.

(** ** The simulator ([simulator.rs]) *)

Definition DEFAULT_PRICE_CHANNEL_CAPACITY : Z := 1_024.
Definition DEFAULT_HORIZON_STEPS : Z := 43_200.
Definition DEFAULT_STEP_MS : Z := 60_000.
Definition DEFAULT_START_MS : Z := 1_735_689_600_000.

Record AssetConfig := {
  as_underlying : string; as_initial_price : Cents; as_drift : f64; as_volatility : f64;
  as_walk_type : WalkTypeConfig }.
Definition AssetConfig_new (underlying : string) (initial_price : Cents) (volatility : f64)
    (walk_type : WalkTypeConfig) : AssetConfig :=
  {| as_underlying := underlying; as_initial_price := initial_price; as_drift := f64_of_Z 0;
     as_volatility := volatility; as_walk_type := walk_type |}.
Definition with_drift (drift : f64) (a : AssetConfig) : AssetConfig :=
  {| as_underlying := as_underlying a; as_initial_price := as_initial_price a; as_drift := drift;
     as_volatility := as_volatility a; as_walk_type := as_walk_type a |}.

(** The tick interval is the wall loop's. *)
Record SimulationConfig := {
  sim_horizon_steps : Z; sim_step_ms : Z; sim_start_ms : Z; sim_price_channel_capacity : Z }.
Definition SimulationConfig_default : SimulationConfig :=
  {| sim_horizon_steps := DEFAULT_HORIZON_STEPS; sim_step_ms := DEFAULT_STEP_MS;
     sim_start_ms := DEFAULT_START_MS;
     sim_price_channel_capacity := DEFAULT_PRICE_CHANNEL_CAPACITY |}.

Record PriceUpdate := {
  pu_underlying : string; pu_price : Cents; pu_now_ms : EventTimestamp }.

Record AssetState := {
  at_config : AssetConfig; at_path : list Cents; at_cursor : Z; at_current : Cents;
  at_dormant : bool }.
Definition set_current (price : Cents) (a : AssetState) : AssetState :=
  {| at_config := at_config a; at_path := at_path a; at_cursor := at_cursor a;
     at_current := price; at_dormant := false |}.
Definition set_cursor (cursor : Z) (a : AssetState) : AssetState :=
  {| at_config := at_config a; at_path := at_path a; at_cursor := cursor;
     at_current := at_current a; at_dormant := at_dormant a |}.
Definition set_path (path : list Cents) (a : AssetState) : AssetState :=
  {| at_config := at_config a; at_path := path; at_cursor := 0; at_current := at_current a;
     at_dormant := false |}.
Definition set_dormant (a : AssetState) : AssetState :=
  {| at_config := at_config a; at_path := at_path a; at_cursor := at_cursor a;
     at_current := at_current a; at_dormant := true |}.

Section simulator.
Context {K : Type} `{!StepSink K, !WalkLib, !ConfigLib}.

(** With everything sent on the broadcast, oldest first, and the generations drawn. *)
Record PriceSimulator := {
  ps_sink : K; ps_config : SimulationConfig; ps_assets : gmap string AssetState;
  ps_published : list PriceUpdate; ps_clock : SimClock; ps_stopped : bool; ps_draws : Z }.

Definition with_sink (k : K) (published : list PriceUpdate) (s : PriceSimulator) :
    PriceSimulator :=
  {| ps_sink := k; ps_config := ps_config s; ps_assets := ps_assets s; ps_published := published;
     ps_clock := ps_clock s; ps_stopped := ps_stopped s; ps_draws := ps_draws s |}.
Definition with_assets (assets : gmap string AssetState) (draws : Z) (s : PriceSimulator) :
    PriceSimulator :=
  {| ps_sink := ps_sink s; ps_config := ps_config s; ps_assets := assets;
     ps_published := ps_published s; ps_clock := ps_clock s; ps_stopped := ps_stopped s;
     ps_draws := draws |}.
Definition with_sim_clock (c : SimClock) (s : PriceSimulator) : PriceSimulator :=
  {| ps_sink := ps_sink s; ps_config := ps_config s; ps_assets := ps_assets s;
     ps_published := ps_published s; ps_clock := c; ps_stopped := ps_stopped s;
     ps_draws := ps_draws s |}.
Definition stop (s : PriceSimulator) : PriceSimulator :=
  {| ps_sink := ps_sink s; ps_config := ps_config s; ps_assets := ps_assets s;
     ps_published := ps_published s; ps_clock := ps_clock s; ps_stopped := true;
     ps_draws := ps_draws s |}.

Definition asset_path (config : SimulationConfig) (asset : AssetConfig) (from : Cents)
    (entropy : Z) : result SimError (list Cents) :=
  generate_path (as_walk_type asset) from (as_drift asset) (as_volatility asset)
    (sim_step_ms config) (sim_horizon_steps config) entropy.

Definition new_asset (config : SimulationConfig) (entropy : Z) (asset : AssetConfig) : AssetState :=
  let '(path, dormant) :=
    match asset_path config asset (as_initial_price asset) entropy with
    | Ok path => (path, false)
    | Err _ => ([], true)
    end in
  {| at_config := asset; at_path := path; at_cursor := 0; at_current := as_initial_price asset;
     at_dormant := dormant |}.

Definition PriceSimulator_new (assets : list AssetConfig) (config : SimulationConfig) (sink : K)
    (clock : SimClock) : PriceSimulator :=
  {| ps_sink := sink; ps_config := config;
     ps_assets :=
       (foldl (λ '(m, draws) asset,
                 (<[as_underlying asset := new_asset config draws asset]> m, draws + 1))
          (∅, 0) assets).1;
     ps_published := []; ps_clock := clock; ps_stopped := false;
     ps_draws := Z.of_nat (length assets) |}.

Definition get_price (s : PriceSimulator) (underlying : string) : option Cents :=
  at_current <$> ps_assets s !! underlying.
Definition get_all_prices (s : PriceSimulator) : gmap string Cents := at_current <$> ps_assets s.
Definition sim_underlyings (s : PriceSimulator) : list string :=
  sort_by_key String.leb id (map_to_list (ps_assets s)).*1.

(** Onto the sequenced path first; published only if admitted. *)
Definition emit_step (now_ms : EventTimestamp) (underlying : string) (price : Cents)
    (s : PriceSimulator) : PriceSimulator :=
  let '(sink, admitted) := apply_step now_ms underlying price None None (ps_sink s) in
  if admitted
  then with_sink sink
         (ps_published s ++
            [{| pu_underlying := underlying; pu_price := price; pu_now_ms := now_ms |}]) s
  else with_sink sink (ps_published s) s.

Definition set_price (underlying : string) (price : Cents) (s : PriceSimulator) :
    PriceSimulator * result SimError unit :=
  match ps_assets s !! underlying with
  | None => (s, Err (SimUnknownUnderlying underlying))
  | Some a =>
      let s := with_assets (<[underlying := set_current price a]> (ps_assets s)) (ps_draws s) s in
      (emit_step (sc_current_ms (ps_clock s)) underlying price s, Ok tt)
  end.

Definition restore_cursor (underlying : string) (cursor : Z) (last_price : Cents)
    (s : PriceSimulator) : PriceSimulator * result SimError unit :=
  match ps_assets s !! underlying with
  | None => (s, Err (SimUnknownUnderlying underlying))
  | Some a =>
      let a := set_current last_price
                 (set_cursor (Z.min cursor (Z.of_nat (length (at_path a)))) a) in
      (with_assets (<[underlying := a]> (ps_assets s)) (ps_draws s) s, Ok tt)
  end.

Definition regenerate (underlying : string) (s : PriceSimulator) : PriceSimulator * bool :=
  match ps_assets s !! underlying with
  | None => (s, false)
  | Some a =>
      match asset_path (ps_config s) (at_config a) (at_current a) (ps_draws s) with
      | Ok fresh =>
          (with_assets (<[underlying := set_path fresh a]> (ps_assets s)) (ps_draws s + 1) s, true)
      | Err _ =>
          (with_assets (<[underlying := set_dormant a]> (ps_assets s)) (ps_draws s + 1) s, false)
      end
  end.

(** What one pass under the lock finds. *)
Inductive Served := Gone | Exhausted | Price (price : Cents).
Definition serve (underlying : string) (s : PriceSimulator) : PriceSimulator * Served :=
  match ps_assets s !! underlying with
  | None => (s, Gone)
  | Some a =>
      if at_dormant a then (s, Gone)
      else
        match at_path a !! Z.to_nat (at_cursor a), checked_add usize (at_cursor a) 1 with
        | Some price, Some next =>
            let a := set_current price (set_cursor next a) in
            (with_assets (<[underlying := a]> (ps_assets s)) (ps_draws s) s, Price price)
        | _, _ => (s, Exhausted)
        end
  end.

(** The loop of [next_price], for [fuel] passes; [None] is out of fuel. *)
Fixpoint next_price (fuel : nat) (underlying : string) (s : PriceSimulator) :
    option (PriceSimulator * option Cents) :=
  match fuel with
  | O => None
  | Datatypes.S fuel =>
      match serve underlying s with
      | (s, Gone) => Some (s, None)
      | (s, Price price) => Some (s, Some price)
      | (s, Exhausted) =>
          match regenerate underlying s with
          | (s, false) => Some (s, None)
          | (s, true) => next_price fuel underlying s
          end
      end
  end.

(** Two passes always do ([next_price_returns]). *)
Definition next_price_now (underlying : string) (s : PriceSimulator) :
    PriceSimulator * option Cents :=
  default (s, None) (next_price 2 underlying s).

Definition step_asset (now_ms : EventTimestamp) (s : PriceSimulator) (underlying : string) :
    PriceSimulator :=
  let '(s, price) := next_price_now underlying s in
  match price with Some price => emit_step now_ms underlying price s | None => s end.

Definition step_once (s : PriceSimulator) : PriceSimulator :=
  if ps_stopped s then s
  else foldl (step_asset (sc_current_ms (ps_clock s))) s (sim_underlyings s).

(** [SimClock::tick], at a reading of the wall, and the step that follows. *)
Definition tick_once (wall_now_ms : Z) (s : PriceSimulator) : PriceSimulator :=
  if ps_stopped s then s else step_once (with_sim_clock (track_wall wall_now_ms (ps_clock s)).1 s).
End simulator.
Arguments PriceSimulator : clear implicits.

(** ** Sessions ([session.rs]) *)

Module Session.

Definition MILLIS_PER_DAY : Z := 24 * 60 * 60 * 1_000.
Definition DEFAULT_CHAIN_SIZE : Z := 11.
Definition DEFAULT_SMILE_CURVE : f64 := f64_of_Z 0.
Definition DEFAULT_SKEW_SLOPE : f64 := f64_of_Z 0.
Definition DEFAULT_SPREAD : f64 := f64_lit 2 100.
Definition DEFAULT_DIVIDEND_YIELD : f64 := f64_of_Z 0.
Definition DEFAULT_RISK_FREE_RATE : f64 := f64_lit 5 100.
Definition DEFAULT_STRIKE_INTERVAL_FRACTION : f64 := f64_lit 1 100.

Record SessionConfig := {
  ss_underlying : string; ss_initial_price : Cents; ss_days_to_expiration : f64;
  ss_volatility : f64; ss_risk_free_rate : f64; ss_dividend_yield : f64;
  ss_walk_type : WalkTypeConfig; ss_strike_interval : Z; ss_chain_size : Z;
  ss_smile_curve : f64; ss_skew_slope : f64; ss_spread : f64 }.

Definition default_strike_interval (initial_price : Cents) : Z :=
  let interval := f64_round (f64_mul (dollars_of initial_price) DEFAULT_STRIKE_INTERVAL_FRACTION) in
  if f64_is_finite interval && f64_leb (f64_of_Z 1) interval then f64_as u64 interval else 1.

Definition SessionConfig_new (underlying : string) (initial_price : Cents)
    (days_to_expiration volatility : f64) (walk_type : WalkTypeConfig) : SessionConfig :=
  {| ss_underlying := underlying; ss_initial_price := initial_price;
     ss_days_to_expiration := days_to_expiration; ss_volatility := volatility;
     ss_risk_free_rate := DEFAULT_RISK_FREE_RATE; ss_dividend_yield := DEFAULT_DIVIDEND_YIELD;
     ss_walk_type := walk_type; ss_strike_interval := default_strike_interval initial_price;
     ss_chain_size := DEFAULT_CHAIN_SIZE; ss_smile_curve := DEFAULT_SMILE_CURVE;
     ss_skew_slope := DEFAULT_SKEW_SLOPE; ss_spread := DEFAULT_SPREAD |}.

Definition to_asset_config (c : SessionConfig) : AssetConfig :=
  AssetConfig_new (ss_underlying c) (ss_initial_price c) (ss_volatility c) (ss_walk_type c).

Record SynthesizedStrike := { sk_strike : Z; sk_call : Symbol; sk_put : Symbol; sk_iv : f64 }.
Record SynthesizedChain := {
  sy_underlying : string; sy_expiration : ExpirationDate; sy_spot : Cents;
  sy_strikes : list SynthesizedStrike }.

Definition instruments (c : SynthesizedChain) : list (Symbol * f64) :=
  s ← sy_strikes c; [(sk_call s, sk_iv s); (sk_put s, sk_iv s)].
Definition chain_contract_count (c : SynthesizedChain) : Z :=
  Z.of_nat (length (sy_strikes c)) * 2.

(** The calendar date of a day number, on wrapping [i64]s. *)
Definition civil_from_days (z : Z) : Z * Z * Z :=
  let w := wrap_i64 in
  let z := w (z + 719_468) in
  let era := Z.quot (if 0 <=? z then z else w (z - 146_096)) 146_097 in
  let doe := w (z - w (era * 146_097)) in
  let yoe :=
    Z.quot (w (w (w (doe - Z.quot doe 1_460) + Z.quot doe 36_524) - Z.quot doe 146_096)) 365 in
  let y := w (yoe + w (era * 400)) in
  let doy := w (doe - w (w (w (365 * yoe) + Z.quot yoe 4) - Z.quot yoe 100)) in
  let mp := Z.quot (w (w (5 * doy) + 2)) 153 in
  let d := wrapping u32 (w (w (doy - Z.quot (w (w (153 * mp) + 2)) 5) + 1)) in
  let m := wrapping u32 (if mp <? 10 then w (mp + 3) else w (mp - 9)) in
  (if m <=? 2 then w (y + 1) else y, m, d).

(** [{:04}] of a signed integer, the sign counting for its width. *)
Definition pad_signed (width : nat) (n : Z) : string :=
  if n <? 0 then "-" +:+ pad_dec (width - 1) (- n) else pad_dec width n.

Section session.
Context `{Upstream, SymbolCalendar, WalkLib, ConfigLib}.

Definition require_finite (name : string) (value : f64) : result SimError unit :=
  if f64_is_finite value then Ok tt
  else Err (InvalidParameter (name +:+ " must be finite, got " +:+ f64_display value)).
Definition require_finite_positive (name : string) (value : f64) : result SimError unit :=
  if finite_positive value then Ok tt
  else Err (InvalidParameter (name +:+ " must be finite and positive, got " +:+ f64_display value)).
Definition require_finite_nonneg (name : string) (value : f64) : result SimError unit :=
  if f64_is_finite value && f64_leb 0 value then Ok tt
  else Err (InvalidParameter (name +:+ " must be finite and non-negative, got " +:+
                              f64_display value)).

Definition session_validate (c : SessionConfig) : result SimError unit :=
  if String.eqb (trim (ss_underlying c)) EmptyString
  then Err (InvalidParameter "underlying must not be empty")
  else if ss_initial_price c =? 0 then Err (InvalidParameter "initial_price must be > 0")
  else
    _ ← require_finite_positive "days_to_expiration" (ss_days_to_expiration c);
    _ ← require_finite_positive "volatility" (ss_volatility c);
    _ ← require_finite "risk_free_rate" (ss_risk_free_rate c);
    _ ← require_finite_nonneg "dividend_yield" (ss_dividend_yield c);
    _ ← require_finite "smile_curve" (ss_smile_curve c);
    _ ← require_finite "skew_slope" (ss_skew_slope c);
    _ ← require_finite_positive "spread" (ss_spread c);
    if ss_strike_interval c =? 0 then Err (InvalidParameter "strike_interval must be >= 1")
    else if ss_chain_size c =? 0 then Err (InvalidParameter "chain_size must be >= 1")
    else Ok tt.

Definition named_positive (name : string) (value : f64) : result SimError Positive :=
  _ ← require_finite_positive name value;
  map_err (λ error, InvalidParameter (name +:+ ": " +:+ error)) (positive_new value).
Definition named_decimal (name : string) (value : f64) : result SimError Decimal :=
  ok_or (InvalidParameter (name +:+ " is not a finite decimal: " +:+ f64_display value))
    (decimal_from_f64_retain value).

Definition expiry_yyyymmdd (base_now_ms : Z) (days_to_expiration : f64) : result SimError string :=
  if negb (finite_positive days_to_expiration)
  then Err (InvalidParameter ("days_to_expiration must be finite and positive, got " +:+
                              f64_display days_to_expiration))
  else
    let base_days := base_now_ms / MILLIS_PER_DAY in
    expiry_days ← ok_or (InvalidParameter "expiry day count overflow")
                    (checked_add i64 base_days (f64_as i64 (f64_round days_to_expiration)));
    let '(year, month, day) := civil_from_days expiry_days in
    Ok (pad_signed 4 year +:+ pad_dec 2 month +:+ pad_dec 2 day).

Definition contract_symbol (underlying yyyymmdd : string) (strike : Z) (style : OptionStyle) :
    result SimError Symbol :=
  let raw := underlying +:+ "-" +:+ yyyymmdd +:+ "-" +:+ dec strike +:+ "-" +:+
             match style with Call => "C" | Put => "P" end in
  map_err (λ e, ChainSynthesisFailed ("symbol " +:+ raw +:+ " invalid: " +:+
                                      symbol_error_display e)) (Symbol_parse raw).

Definition at_the_money (spot_dollars : f64) (interval : Z) : result SimError Z :=
  let steps := f64_round (f64_div spot_dollars (f64_of_Z interval)) in
  if negb (f64_is_finite steps && f64_leb (f64_of_Z 1) steps &&
           f64_leb steps (f64_of_Z (int_max u32)))
  then Err (InvalidParameter "spot is out of range for the strike interval")
  else ok_or (InvalidParameter "strike grid overflows: spot x interval too large")
         (checked_mul u64 (f64_as u64 steps) interval).

(** The strike of index [i], on [i64]s. *)
Definition grid_strike (atm half interval i : Z) : result SimError Z :=
  ok_or (InvalidParameter "strike grid overflows: chain size x interval too large")
    (steps ← checked_sub i64 i half;
     offset ← checked_mul i64 steps interval;
     checked_add i64 atm offset).

Definition synthesize_strike (underlying yyyymmdd : string) (strike : Z)
    (base_vol : Positive) (skew smile : Decimal) (spot : Positive) :
    result SimError SynthesizedStrike :=
  strike_positive ← named_positive "strike" (f64_of_Z strike);
  iv ← ok_or (InvalidParameter ("smile produced a non-finite IV at strike " +:+ dec strike))
         (vol ← adjust_volatility base_vol skew smile strike_positive spot;
          let iv := positive_to_f64 vol in
          if finite_positive iv then Some iv else None);
  call ← contract_symbol underlying yyyymmdd strike Call;
  put ← contract_symbol underlying yyyymmdd strike Put;
  Ok {| sk_strike := strike; sk_call := call; sk_put := put; sk_iv := iv |}.

(** The indices from [i], [n] of them; a strike that is not positive is skipped. *)
Fixpoint synthesize_grid (underlying yyyymmdd : string) (atm half interval : Z)
    (base_vol : Positive) (skew smile : Decimal) (spot : Positive) (i : Z) (n : nat) :
    result SimError (list SynthesizedStrike) :=
  match n with
  | O => Ok []
  | Datatypes.S n =>
      strike ← grid_strike atm half interval i;
      if strike <=? 0
      then synthesize_grid underlying yyyymmdd atm half interval base_vol skew smile spot (i + 1) n
      else
        s ← synthesize_strike underlying yyyymmdd strike base_vol skew smile spot;
        rest ← synthesize_grid underlying yyyymmdd atm half interval base_vol skew smile spot
                 (i + 1) n;
        Ok (s :: rest)
  end.

Definition synthesize_chain (config : SessionConfig) (base_now_ms : Z) :
    result SimError SynthesizedChain :=
  _ ← session_validate config;
  let spot_dollars := dollars_of (ss_initial_price config) in
  if negb (finite_positive spot_dollars)
  then Err (InvalidParameter ("spot is not finite and positive: " +:+ f64_display spot_dollars))
  else
    spot ← named_positive "spot" spot_dollars;
    base_vol ← named_positive "volatility" (ss_volatility config);
    skew ← named_decimal "skew_slope" (ss_skew_slope config);
    smile ← named_decimal "smile_curve" (ss_smile_curve config);
    yyyymmdd ← expiry_yyyymmdd base_now_ms (ss_days_to_expiration config);
    expiration ← map_err (λ e, ChainSynthesisFailed ("expiry " +:+ yyyymmdd +:+
                                                     " unresolvable: " +:+ e))
                   (parse_yyyymmdd yyyymmdd EmptyString);
    expiration ← map_err (λ e, ChainSynthesisFailed ("expiry " +:+ yyyymmdd +:+
                              " is not replay-stable: " +:+ symbol_error_display e))
                   (validate_venue_expiry expiration);
    let interval := ss_strike_interval config in
    interval_signed ← ok_or (InvalidParameter "strike interval exceeds the signed strike range")
                        (narrow i64 interval);
    atm ← at_the_money spot_dollars interval;
    atm_signed ← ok_or (InvalidParameter "ATM strike exceeds the signed strike range")
                   (narrow i64 atm);
    let half := ss_chain_size config / 2 in
    strikes ← synthesize_grid (ss_underlying config) yyyymmdd atm_signed half interval_signed
                base_vol skew smile spot 0 (Z.to_nat (wrap_i64 (ss_chain_size config)));
    match strikes with
    | [] => Err (ChainSynthesisFailed "no positive strikes were materialised")
    | _ =>
        Ok {| sy_underlying := ss_underlying config; sy_expiration := expiration;
              sy_spot := ss_initial_price config; sy_strikes := strikes |}
    end.
End session.
End Session.

(** ** Driving the simulator *)

Section phases.
Context {K : Type} `{!StepSink K, !WalkLib, !ConfigLib, !Upstream, !PricingLib, !CredentialLib}.

(** *** The seeding phase ([seed.rs]) *)

Record SeedReport := {
  sd_accounts_provisioned : Z; sd_accounts_unchanged : Z; sd_underlyings_seeded : Z;
  sd_contracts_registered : Z }.
Definition seed_summary (r : SeedReport) : string :=
  "accounts_provisioned=" +:+ dec (sd_accounts_provisioned r) +:+
  " accounts_unchanged=" +:+ dec (sd_accounts_unchanged r) +:+
  " underlyings_seeded=" +:+ dec (sd_underlyings_seeded r) +:+
  " contracts_registered=" +:+ dec (sd_contracts_registered r).

Definition asset_configs (manifest : SeedManifest) : list AssetConfig :=
  (λ set, AssetConfig_new (si_underlying set) (si_opening_price set) DEFAULT_SEED_VOLATILITY
            GeometricBrownian) <$> sm_instruments manifest.

Definition seed_persona_of (manifest : SeedManifest) (set : SeedInstrumentSet) :
    option (string * PersonaConfig) :=
  name ← si_persona set;
  persona ← bt_get name (sm_personas manifest);
  Some (name, to_persona_config persona).

Definition register_set (manifest : SeedManifest) (set : SeedInstrumentSet)
    (e : MarketMakerEngine) : MarketMakerEngine :=
  foldl (λ e symbol,
           match seed_persona_of manifest set with
           | Some (name, config) => register_instrument_with_persona symbol None name config e
           | None => register_instrument symbol e
           end) e (si_contracts set).

Fixpoint register_sets (recovered : gset string) (manifest : SeedManifest)
    (sets : list SeedInstrumentSet) (e : MarketMakerEngine) :
    MarketMakerEngine * result SeedError unit :=
  match sets with
  | [] => (e, Ok tt)
  | set :: sets =>
      match (if bool_decide (si_underlying set ∈ recovered) then None
             else existing ← mm_prices e !! si_underlying set;
                  if existing =? si_opening_price set then None else Some existing) with
      | Some existing =>
          (e, Err (InstrumentPriceConflict (si_underlying set) existing (si_opening_price set)))
      | None => register_sets recovered manifest sets (register_set manifest set e)
      end
  end.

Definition seed_error_of (underlying : string) (e : SimError) : SeedError :=
  match e with
  | SimUnknownUnderlying _ => UnknownUnderlying underlying
  | InvalidParameter reason => SeedPersonaError ("invalid walk parameter: " +:+ reason)
  | WalkFailed reason => SeedPersonaError ("walk generation failed: " +:+ reason)
  | NonRepresentablePrice dollars =>
      SeedPersonaError ("walk produced a non-representable price: " +:+ f64_display dollars)
  | TimelineExhausted => SeedPersonaError "simulation virtual timeline exhausted"
  | ChainSynthesisFailed reason => SeedPersonaError ("chain synthesis failed: " +:+ reason)
  end.

Fixpoint open_sets (recovered : gset string) (sets : list SeedInstrumentSet)
    (s : PriceSimulator K) : PriceSimulator K * result SeedError unit :=
  match sets with
  | [] => (s, Ok tt)
  | set :: sets =>
      if bool_decide (si_underlying set ∈ recovered) then open_sets recovered sets s
      else
        match set_price (si_underlying set) (si_opening_price set) s with
        | (s, Err e) => (s, Err (seed_error_of (si_underlying set) e))
        | (s, Ok _) => open_sets recovered sets s
        end
  end.

(** Without the wait for the requotes to settle, which changes nothing. *)
Definition apply_seed_phase (salt : AccountId → Z) (recovered : gset string)
    (manifest : SeedManifest) (r : AccountRegistry) (e : MarketMakerEngine)
    (s : PriceSimulator K) :
    AccountRegistry * MarketMakerEngine * PriceSimulator K * result SeedError SeedReport :=
  match provision_seed_accounts salt (sm_accounts manifest) 0 0 r with
  | (r, Err err) => (r, e, s, Err err)
  | (r, Ok (provisioned, unchanged)) =>
      match register_sets recovered manifest (sm_instruments manifest) e with
      | (e, Err err) => (r, e, s, Err err)
      | (e, Ok _) =>
          match open_sets recovered (sm_instruments manifest) s with
          | (s, Err err) => (r, e, s, Err err)
          | (s, Ok _) =>
              (r, e, s,
               Ok {| sd_accounts_provisioned := provisioned; sd_accounts_unchanged := unchanged;
                     sd_underlyings_seeded := Z.of_nat (length (sm_instruments manifest));
                     sd_contracts_registered := Z.of_nat (contract_count manifest) |})
          end
      end
  end.

(** *** Stepped sessions ([state.rs]) *)

Definition materialize_session (chain : Session.SynthesizedChain) (e : MarketMakerEngine)
    (s : PriceSimulator K) : MarketMakerEngine * PriceSimulator K * result SimError Z :=
  let instruments := Session.instruments chain in
  let e := foldl (λ e i, register_instrument_with_iv i.1 (Some i.2) e) e instruments in
  match set_price (Session.sy_underlying chain) (Session.sy_spot chain) s with
  | (s, Err err) => (e, s, Err err)
  | (s, Ok _) => (e, s, Ok (Z.of_nat (length instruments)))
  end.

(** The simulator reads the venue's clock. *)
Definition step_session {S A} `{!ActorService S A} (v : Venue S A) (s : PriceSimulator K) :
    Venue S A * PriceSimulator K * ClockAdvance :=
  let '(v, advance) := advance_clock_step v in
  (v, step_once (with_sim_clock (v_clock v) s), advance).
End phases.
