(* ===== verification/SimulatorProps.v ===== *)
(** What the simulator promises: its loop returns, a published price is one admitted step on its
    way to its actor, the market maker moves only with journaled steps, and a synthesized
    chain is a grid of valid contracts. *)

From S2P Require Export Simulator ReplayProps.
From S2P Require Import MarketMakerProps ConfigSample SampleBook BootProps VenueSample.

(** ** The walk *)

(** Documented behaviour of the generators: a path of the requested length. *)
Class WalkLaws `{WalkLib} : Prop := {
  geometric_length dt drift vol size start entropy l :
    geometric_brownian dt drift vol size start entropy = Ok l → Z.of_nat (length l) = size;
  reverting_length dt vol speed mean size start entropy l :
    mean_reverting dt vol speed mean size start entropy = Ok l → Z.of_nat (length l) = size;
  jump_length dt drift vol intensity jmean jvol size start entropy l :
    jump_diffusion dt drift vol intensity jmean jvol size start entropy = Ok l →
    Z.of_nat (length l) = size;
}.

Lemma prices_to_cents_ok prices path :
  prices_to_cents prices = Ok path →
  length path = length prices ∧ Forall2 (λ p c, dollars_to_cents p = Ok c) prices path.
Proof.
  revert path. induction prices as [|p prices IH]; intros path; cbn; [by intros [= <-]|].
  intros (c & Hc & H)%bind_Ok. apply bind_Ok in H as (rest & Hr & [= <-]).
  apply IH in Hr as [Hl Hf]. split; [cbn; lia|]. by constructor.
Qed.

Lemma dollars_to_cents_ok dollars c :
  dollars_to_cents dollars = Ok c →
  f64_is_finite dollars = true ∧ f64_ltb dollars 0 = false ∧ has_ty u64 c.
Proof.
  unfold dollars_to_cents. destruct (f64_is_finite dollars); [|done].
  destruct (f64_ltb dollars 0); [done|]. cbn [negb orb].
  destruct (f64_contains _ _ _); [|done]. cbn [negb]. intros [= <-].
  split_and!; [done..|]. apply f64_as_range. unfold_int. lia.
Qed.

Section walk.
Context `{WalkLib, !WalkLaws, ConfigLib}.

Lemma generate_path_length walk from drift vol step_ms size entropy path :
  generate_path walk from drift vol step_ms size entropy = Ok path →
  Z.of_nat (length path) = Z.max size MIN_PATH_STEPS.
Proof.
  unfold generate_path. intros (dt & _ & Hg)%bind_Ok.
  apply bind_Ok in Hg as (dr & _ & Hg). apply bind_Ok in Hg as (v & _ & Hg).
  apply bind_Ok in Hg as (mean & _ & Hg). apply bind_Ok in Hg as (w & Hw & Hg).
  apply bind_Ok in Hg as (prices & Hp & Hg). apply prices_to_cents_ok in Hg as [-> _].
  destruct walk; cbn in Hw.
  - injection Hw as <-. destruct (geometric_brownian _ _ _ _ _ _) eqn:E; [|done].
    injection Hp as <-. by eapply geometric_length.
  - apply bind_Ok in Hw as (speed & _ & [= <-]).
    destruct (mean_reverting _ _ _ _ _ _ _) eqn:E; [|done]. injection Hp as <-.
    by eapply reverting_length.
  - apply bind_Ok in Hw as (i & _ & Hw). apply bind_Ok in Hw as (jm & _ & Hw).
    apply bind_Ok in Hw as (jv & _ & [= <-]).
    destruct (jump_diffusion _ _ _ _ _ _ _ _ _) eqn:E; [|done]. injection Hp as <-.
    by eapply jump_length.
Qed.
End walk.

(** ** The loop of [next_price] *)

Section loop.
Context {K : Type} `{!StepSink K, !WalkLib, !WalkLaws, !ConfigLib}.
Implicit Types s : PriceSimulator K.

(** The reference: a dormant or unknown asset has no price; a path serves its next one; an
    exhausted path is replaced, from the last price, by one that serves its first, or, if the
    walk fails, the asset goes dormant. *)
Definition next_price_spec (underlying : string) s : PriceSimulator K * option Cents :=
  match ps_assets s !! underlying with
  | None => (s, None)
  | Some a =>
      if at_dormant a then (s, None)
      else
        let with_asset a draws := with_assets (<[underlying := a]> (ps_assets s)) draws s in
        match at_path a !! Z.to_nat (at_cursor a), checked_add usize (at_cursor a) 1 with
        | Some price, Some next =>
            (with_asset (set_current price (set_cursor next a)) (ps_draws s), Some price)
        | _, _ =>
            match asset_path (ps_config s) (at_config a) (at_current a) (ps_draws s) with
            | Err _ => (with_asset (set_dormant a) (ps_draws s + 1), None)
            | Ok path =>
                match path with
                | [] => (s, None)
                | price :: _ =>
                    (with_asset (set_current price (set_cursor 1 (set_path path a)))
                       (ps_draws s + 1), Some price)
                end
            end
        end
  end.

(** The price loop returns.  [next_price] takes its lock at most twice, whatever state the
    simulator is in, and does what its reference says: it serves the path in order, and past
    its end continues from the last price on a fresh path, or leaves the asset dormant. *)
Theorem next_price_returns fuel underlying s :
  next_price (2 + fuel) underlying s = Some (next_price_spec underlying s).
Proof.
  unfold next_price_spec. cbn [Nat.add next_price]. unfold serve at 1.
  destruct (ps_assets s !! underlying) as [a|] eqn:Ha; [|done].
  destruct (at_dormant a) eqn:Hd; [done|].
  assert (match regenerate underlying s with
    | (s, false) => Some (s, None)
    | (s, true) =>
        match serve underlying s with
        | (s, Gone) => Some (s, None)
        | (s, Exhausted) =>
            match regenerate underlying s with
            | (s, true) => next_price fuel underlying s
            | (s, false) => Some (s, None)
            end
        | (s, Price price) => Some (s, Some price)
        end
    end = Some (match asset_path (ps_config s) (at_config a) (at_current a) (ps_draws s) with
       | Err _ => (with_assets (<[underlying := set_dormant a]> (ps_assets s)) (ps_draws s + 1) s, None)
       | Ok path =>
           match path with
           | [] => (s, None)
           | price :: _ =>
               (with_assets (<[underlying := set_current price (set_cursor 1 (set_path path a))]>
                  (ps_assets s)) (ps_draws s + 1) s, Some price)
           end
       end)) as Hregen.
  { unfold regenerate at 1. rewrite Ha.
    destruct (asset_path _ _ _ _) as [path|e] eqn:Hp; [|done].
    apply generate_path_length in Hp. unfold MIN_PATH_STEPS in Hp.
    destruct path as [|price path]; [cbn in Hp; lia|].
    unfold serve, with_assets. cbn [ps_assets ps_draws ps_sink ps_config ps_published ps_clock ps_stopped].
    rewrite lookup_insert_eq. cbn [at_dormant set_path at_path at_cursor].
    change ((price :: path) !! Z.to_nat 0) with (Some price).
    change (checked_add usize 0 1) with (Some 1). cbv beta iota zeta.
    by rewrite insert_insert_eq. }
  destruct (at_path a !! Z.to_nat (at_cursor a)) as [price|]; [|exact Hregen].
  destruct (checked_add usize (at_cursor a) 1); [done|exact Hregen].
Qed.
End loop.

(** ** From the simulator to the actors *)

Section pipeline.
Context {S A : Type} `{!ActorService S A, !Upstream, !PricingLib, !WalkLib, !ConfigLib}.

(** The simulator over its sink, the venue and the maker the forwarder task drives, and what
    that task has taken off the queue. *)
Record Pipeline := {
  pl_sim : PriceSimulator VenueStepSink; pl_venue : Venue S A; pl_engine : MarketMakerEngine;
  pl_forwarded : list VenueCommand }.

Inductive PipelineOp :=
  | PoSetPrice (underlying : string) (price : Cents)
  | PoRestore (underlying : string) (cursor : Z) (last_price : Cents)
  | PoStep
  | PoTick (wall_now_ms : Z)
  | PoStop
  (** One turn of the forwarder task. *)
  | PoForward
  (** Anything else that happens to the venue, the maker and the clock. *)
  | PoElsewhere (v : Venue S A) (e : MarketMakerEngine) (c : SimClock).

Definition on_sim (f : PriceSimulator VenueStepSink → PriceSimulator VenueStepSink) (y : Pipeline) :
    Pipeline :=
  {| pl_sim := f (pl_sim y); pl_venue := pl_venue y; pl_engine := pl_engine y;
     pl_forwarded := pl_forwarded y |}.

Definition pipeline_op (y : Pipeline) (op : PipelineOp) : Pipeline :=
  match op with
  | PoSetPrice underlying price => on_sim (λ s, (set_price underlying price s).1) y
  | PoRestore underlying cursor price => on_sim (λ s, (restore_cursor underlying cursor price s).1) y
  | PoStep => on_sim step_once y
  | PoTick wall => on_sim (tick_once wall) y
  | PoStop => on_sim stop y
  | PoForward =>
      match vs_queue (ps_sink (pl_sim y)) with
      | [] => y
      | c :: q =>
          let '(v, e) := forward_step c (pl_venue y) (pl_engine y) in
          {| pl_sim := with_sink (with_step_queue q (ps_sink (pl_sim y)))
                         (ps_published (pl_sim y)) (pl_sim y);
             pl_venue := v; pl_engine := e; pl_forwarded := pl_forwarded y ++ [c] |}
      end
  | PoElsewhere v e c =>
      {| pl_sim := with_sim_clock c (pl_sim y); pl_venue := v; pl_engine := e;
         pl_forwarded := pl_forwarded y |}
  end.

Definition step_of (u : PriceUpdate) : VenueCommand :=
  SimStep (pu_now_ms u) (pu_underlying u) (pu_price u) None None.

Record conserved (micro : MicrostructureConfig) (capacity : Z) (forwarded : list VenueCommand)
    (s : PriceSimulator VenueStepSink) : Prop := {
  cv_steps : step_of <$> ps_published s = forwarded ++ vs_queue (ps_sink s);
  cv_band : Forall (λ u, admit_price micro (pu_underlying u) (pu_price u) = Ok tt)
              (ps_published s);
  cv_room : Z.of_nat (length (vs_queue (ps_sink s))) ≤ capacity;
  cv_micro : vs_microstructure (ps_sink s) = micro;
  cv_capacity : vs_capacity (ps_sink s) = capacity;
}.

Lemma emit_conserved micro capacity fw now u p (s : PriceSimulator VenueStepSink) :
  conserved micro capacity fw s → conserved micro capacity fw (emit_step now u p s).
Proof.
  intros [Hs Hb Hr Hm Hc]. unfold emit_step, apply_step, VenueStepSink_sink.
  rewrite Hm. destruct (admit_price micro u p) as [[]|e] eqn:Ha; [|by split].
  rewrite Hc. destruct (vs_open (ps_sink s) && _) eqn:E; [|by split].
  apply andb_true_iff in E as [_ E%Z.ltb_lt]. split; cbn; try done.
  - by rewrite fmap_app, Hs, <-(assoc_L (++)).
  - apply Forall_app. split; [done|]. by apply Forall_singleton.
  - rewrite length_app. cbn. lia.
Qed.

Lemma assets_conserved micro capacity fw assets draws (s : PriceSimulator VenueStepSink) :
  conserved micro capacity fw s → conserved micro capacity fw (with_assets assets draws s).
Proof. by intros []. Qed.

Lemma next_price_same fuel u (s s' : PriceSimulator VenueStepSink) p :
  next_price fuel u s = Some (s', p) →
  ∃ assets draws, s' = with_assets assets draws s.
Proof.
  assert (s = with_assets (ps_assets s) (ps_draws s) s) as Hs by by destruct s.
  revert s Hs. induction fuel as [|fuel IH]; intros s Hs; cbn [next_price]; [done|].
  unfold serve. destruct (ps_assets s !! u) as [a|] eqn:Ha; [|intros [= <- _]; eauto].
  destruct (at_dormant a); [intros [= <- _]; eauto|].
  assert (match regenerate u s with
    | (s, true) => next_price fuel u s | (s, false) => Some (s, None) end = Some (s', p) →
    ∃ assets draws, s' = with_assets assets draws s) as Hr.
  { unfold regenerate. rewrite Ha. destruct (asset_path _ _ _ _); [|intros [= <- _]; eauto].
    intros (assets & draws & ->)%IH; [|done]. eauto. }
  destruct (at_path a !! _); [|exact Hr]. destruct (checked_add usize (at_cursor a) 1); [|exact Hr].
  intros [= <- _]. eauto.
Qed.

Lemma step_once_conserved micro capacity fw (s : PriceSimulator VenueStepSink) :
  conserved micro capacity fw s → conserved micro capacity fw (step_once s).
Proof.
  unfold step_once. destruct (ps_stopped s); [done|].
  generalize (sc_current_ms (ps_clock s)) as now. generalize (sim_underlyings s) as us.
  intros us now. revert s. induction us as [|u us IH]; intros s Hs; [done|]. cbn [foldl].
  apply IH. unfold step_asset, next_price_now.
  destruct (next_price 2 u s) as [[s' p]|] eqn:E; cbn [default]; [|done].
  apply next_price_same in E as (assets & draws & ->).
  apply (assets_conserved _ _ _ assets draws) in Hs.
  destruct p; [by apply emit_conserved|done].
Qed.

(** C36. Nothing is published that is not on its way to its actor.  Over any run of the price
    service - walked and manual prices, restores, stops, turns of the forwarder, whatever else
    happens in between - the broadcast prices are, one for one and in order, the steps the
    forwarder has taken to their actors followed by those waiting in its queue, which never
    holds more than its capacity; and every one of them lies in the venue's price band. *)
Theorem published_steps_conserved y ops :
  ps_published (pl_sim y) = [] → vs_queue (ps_sink (pl_sim y)) = [] → pl_forwarded y = [] →
  0 ≤ vs_capacity (ps_sink (pl_sim y)) →
  let z := foldl pipeline_op y ops in
  step_of <$> ps_published (pl_sim z) = pl_forwarded z ++ vs_queue (ps_sink (pl_sim z)) ∧
  Z.of_nat (length (vs_queue (ps_sink (pl_sim z)))) ≤ vs_capacity (ps_sink (pl_sim y)) ∧
  Forall (λ u, admit_price (vs_microstructure (ps_sink (pl_sim y))) (pu_underlying u)
                 (pu_price u) = Ok tt) (ps_published (pl_sim z)).
Proof.
  intros Hp Hq Hf Hc. cbn zeta.
  set (micro := vs_microstructure (ps_sink (pl_sim y))).
  set (capacity := vs_capacity (ps_sink (pl_sim y))) in *.
  assert (conserved micro capacity (pl_forwarded y) (pl_sim y)) as Hy.
  { split; [by rewrite Hp, Hq, Hf|by rewrite Hp|by rewrite Hq|done|done]. }
  clearbody micro capacity. clear Hp Hq Hf Hc.
  assert (conserved micro capacity (pl_forwarded (foldl pipeline_op y ops))
    (pl_sim (foldl pipeline_op y ops))) as [? ? ? _ _]; [|done].
  revert y Hy. induction ops as [|op ops IH]; intros y Hy; [done|]. cbn [foldl]. apply IH.
  destruct op as [u p|u n p| |wall| | |v e c]; cbn.
  - unfold set_price. destruct (ps_assets (pl_sim y) !! u); [|done]. by apply emit_conserved, assets_conserved.
  - unfold restore_cursor. destruct (ps_assets (pl_sim y) !! u); [|done]. by apply assets_conserved.
  - by apply step_once_conserved.
  - unfold tick_once. destruct (ps_stopped (pl_sim y)); [done|]. apply step_once_conserved. by destruct Hy.
  - by destruct Hy.
  - destruct (vs_queue (ps_sink (pl_sim y))) as [|c q] eqn:Eq; [done|].
    destruct (forward_step c _ _) as [v e]. destruct Hy as [Hs Hb Hr Hm Hc].
    rewrite Eq in Hs, Hr. split; cbn; try done.
    + by rewrite Hs, <-(assoc_L (++)).
    + cbn in Hr. lia.
  - by destruct Hy.
Qed.
End pipeline.

(** ** The maker and the journal *)

Lemma update_quote_prices `{Upstream, PricingLib} i spot config (e : MarketMakerEngine) :
  mm_prices (update_quote i spot config e) = mm_prices e.
Proof. unfold update_quote. by destruct (quote_for e i spot config). Qed.

Lemma update_price_prices `{Upstream, PricingLib} u p (e : MarketMakerEngine) :
  mm_prices (update_price u p e) = <[u := p]> (mm_prices e).
Proof.
  unfold update_price.
  set (e1 := broadcast _ _). assert (mm_prices e1 = <[u := p]> (mm_prices e)) as He by done.
  destruct (mm_muted e1); [done|]. destruct (_ && _); [|done]. rewrite <-He. clear He.
  unfold requote_symbol. destruct (mm_prices e1 !! u) as [price|]; [|done].
  generalize (mm_config e1) as config. generalize (default [] (mm_instruments e1 !! u)) as quoted.
  intros quoted config. generalize e1. induction quoted as [|i quoted IH]; intros e2; [done|]. cbn [foldl].
  rewrite IH. apply update_quote_prices.
Qed.

Section maker.
Context {F P : Type} {FO : FanOut F} {SP : SharedProjection F P} {US : Upstream} {SD : Serde}
  {PL : PricingLib} (float_draw : LatencyConfig → SplitMix64 → Z).
Notation venue_actor := (UnderlyingActor InMemoryVenueJournal MatchingExecutor F SimClock).
Notation venue_state := (Venue (SharedState P) venue_actor).
Notation alone a := (with_clordid_index a None).
Implicit Types m : gmap string venue_actor.

Definition all_ran m : Prop :=
  ∀ t a, m !! t = Some a → ∃ a0, ran (λ _, True) a0 a.

(** The command is in the journal of the underlying's actor. *)
Definition journal_has m (u : string) (c : VenueCommand) : Prop :=
  ∃ a n ts, m !! u = Some a ∧ command_record n ts c ∈ im_records (act_journal a).

Lemma im_append_keeps j r : im_records j `prefix_of` im_records (im_append j r).1.
Proof.
  unfold im_append. destruct (check_record_size r); [|done].
  repeat case_match; try done. cbn. by apply prefix_app_r.
Qed.

Lemma handle_keeps (a : venue_actor) c :
  im_records (act_journal a) `prefix_of` im_records (act_journal (handle a c).1).
Proof.
  unfold handle. destruct (act_sealed a); [done|].
  destruct (now_ms (act_clock a)) as [ts clock].
  destruct (write_ahead_shape (with_clock a clock) (act_next_sequence a)
    (command_record (act_next_sequence a) ts c)) as (j & wa & -> & Hj & _).
  assert (im_records (act_journal a) `prefix_of` im_records j) as Hk
    by (rewrite Hj; apply im_append_keeps). clear Hj.
  destruct wa; [|done].
  destruct (executor_execute _ _) as [x o]. cbn [act_journal with_executor with_journal].
  set (ev := VenueEvent_new _ _ _ _).
  change (journal_append j (REvent ev)) with (im_append j (REvent ev)).
  pose proof (im_append_keeps j (REvent ev)) as Hk2.
  assert (im_records (act_journal a) `prefix_of` im_records (im_append j (REvent ev)).1) as Hk3
    by by etransitivity.
  destruct (im_append j (REvent ev)) as [j' [[]|e]]; [|done].
  set (b := match act_clordid_index _ with Some _ => _ | None => _ end).
  assert (act_journal b = j') as Hb by (subst b; by case_match). cbn [fst] in Hk3. rewrite <-Hb in Hk3.
  destruct (fan_out_emit (act_fan_out b) _) as [f [[]|e]]; [|done].
  by destruct (checked_next _).
Qed.

(** A receipt is given only for a journaled command. *)
Lemma handle_journals a0 (a : venue_actor) c r :
  ran (λ _, True) a0 a → (handle a c).2 = Ok r →
  ∃ n ts, command_record n ts c ∈ im_records (act_journal (handle a c).1).
Proof.
  intros (log & pend & Hl & _) Hr. destruct (handle_alone a c) as [Hr' Ha].
  destruct (act_sealed a) as [why|] eqn:Hs; [unfold handle in Hr; by rewrite Hs in Hr|].
  assert (pend = []) as ->.
  { destruct (live_pend _ _ _ _ Hl) as [?|[_ E]]; [done|].
    change (act_sealed a = Some SealJournalUnavailable) in E. congruence. }
  pose proof (handle_live a0 log (alone a) c Hs Hl) as Ht. unfold turn_result in Ht.
  rewrite Hr', Hr in Ht. destruct Ht as [(_ & ? & _)|[(_ & ? & _)|[(_ & ? & _)|(Hb & _)]]]; try done.
  destruct (live_base _ _ _ Hb) as [_ Hrec].
  assert (act_journal (handle (alone a) c).1 = act_journal (handle a c).1) as Hj.
  { change (act_journal (alone (handle (alone a) c).1) = act_journal (alone (handle a c).1)).
    by rewrite Ha. }
  rewrite Hj in Hrec. eexists _, _. rewrite Hrec, log_records_snoc. apply elem_of_app. right. by left.
Qed.

Lemma deliver_journals m (s : SharedState P) d :
  all_ran m →
  all_ran (deliver (m, s) d).1 ∧
  (∀ u c, journal_has m u c → journal_has (deliver (m, s) d).1 u c) ∧
  (∀ a r, m !! d.2.1 = Some a → (actor_submit d.1 s a d.2.2).2 = Ok r →
     journal_has (deliver (m, s) d).1 d.2.1 d.2.2).
Proof.
  intros Hm. destruct d as [clock [t c]]. cbn [fst snd deliver].
  destruct (m !! t) as [a|] eqn:Ha; [|by split_and!].
  destruct (Hm t a Ha) as (a0 & Hra). unfold actor_submit, UnderlyingActor_service.
  pose proof (ran_turn _ a0 a clock s c I Hra) as Hrb.
  assert (ran (λ _, True) a0 (share_in clock s a)) as Hrs.
  { destruct Hra as (log & pend & Hl & Hok & Hsz). exists log, pend.
    split; [by apply live_shared|done]. }
  pose proof (handle_journals a0 (share_in clock s a) c) as Hj.
  pose proof (handle_keeps (share_in clock s a) c) as Hk.
  destruct (handle (share_in clock s a) c) as [b r] eqn:Eh. cbn [fst snd] in *. split_and!.
  - intros t' a' [[<- <-]|[Hne Ha']]%lookup_insert_Some; [by exists a0|by apply (Hm t')].
  - intros u c' (a' & n & ts & Ha' & Hin). destruct (decide (u = t)) as [->|Hne].
    + exists b, n, ts. rewrite lookup_insert_eq. split; [done|].
      rewrite Ha in Ha'. injection Ha' as <-. destruct Hk as [k Hk].
      change (im_records (act_journal (share_in clock s a))) with (im_records (act_journal a)) in Hk.
      rewrite Hk. apply elem_of_app. by left.
    + exists a', n, ts. by rewrite lookup_insert_ne.
  - intros a' r' [= <-]. rewrite Eh. cbn [snd]. intros ->. destruct (Hj r' Hrs eq_refl) as (n & ts & Hin). exists b, n, ts.
    by rewrite lookup_insert_eq.
Qed.

(** Calls of the venue, and turns of the forwarder task. *)
Inductive MakerEvent := MeCall (op : VenueOp) | MeForward (command : VenueCommand).

Definition maker_event (st : venue_state * MarketMakerEngine) (ev : MakerEvent) :
    venue_state * MarketMakerEngine :=
  match ev with
  | MeCall op => (venue_op float_draw st.1 op, st.2)
  | MeForward command => forward_step command st.1 st.2
  end.

Definition follows (prices0 : gmap string Z) (st : venue_state * MarketMakerEngine) : Prop :=
  ∀ u p, mm_prices st.2 !! u = Some p →
    prices0 !! u = Some p ∨
    ∃ now bid ask, journal_has (v_underlyings st.1) u (SimStep now u p bid ask).

Lemma delivers_journal m (s : SharedState P) (log : list delivery) :
  all_ran m →
  all_ran (foldl deliver (m, s) log).1 ∧
  (∀ u c, journal_has m u c → journal_has (foldl deliver (m, s) log).1 u c).
Proof.
  revert m s. induction log as [|d log IH]; intros m s Hm; [done|]. cbn [foldl].
  destruct (deliver_journals m s d Hm) as (H1 & H2 & _).
  destruct (deliver (m, s) d) as [m' s']. cbn [fst] in *. destruct (IH m' s' H1) as [H3 H4].
  split; [done|]. intros u c Hc. by apply H4, H2.
Qed.

(** C37. The market maker follows the journal.  However the calls of a venue and the turns of
    the simulation's forwarder interleave, each reference price the maker holds is one it held
    at the start or the price of a step in the journal of that underlying's actor: a step the
    sequencer refused moves no quote, and no requote can precede its step. *)
Theorem maker_follows_journal v0 e0 events :
  all_ran (v_underlyings v0) → ingress_ok v0 →
  follows (mm_prices e0) (foldl maker_event (v0, e0) events).
Proof.
  intros Hran Hin.
  assert (follows (mm_prices e0) (v0, e0)) as H0 by by left.
  revert H0. generalize (mm_prices e0) as p0. intros p0 Hf.
  revert v0 e0 Hran Hin Hf. induction events as [|ev events IH]; intros v e Hran Hin Hf; [done|].
  cbn [foldl]. destruct ev as [op|command]; cbn [maker_event fst snd].
  - destruct (venue_op_reaches float_draw v op Hin) as (log & [Hact _ _ _ Hok]).
    unfold actors in Hact.
    destruct (delivers_journal (v_underlyings v) (v_shared v) log Hran) as [H1 H2].
    rewrite <-Hact in H1, H2. cbn [fst] in H1, H2. apply IH; [done|by apply Hok|].
    intros u p Hp. destruct (Hf u p Hp) as [?|(now & bid & ask & Hj)]; [by left|right].
    exists now, bid, ask. by apply H2.
  - unfold forward_step. destruct command as [| | | | | | | |now u p bid ask]; try (by apply IH).
    destruct (v_underlyings v !! u) as [a|] eqn:Ha; [|by apply IH].
    unfold submit_to, handle_for. rewrite Ha. cbn [ok_or].
    pose proof (deliver_journals (v_underlyings v) (v_shared v)
      (v_clock v, (u, SimStep now u p bid ask)) Hran) as (H1 & H2 & H3).
    cbn [fst snd deliver] in H1, H2, H3. rewrite Ha in H1, H2, H3.
    destruct (actor_submit (v_clock v) (v_shared v) a _) as [[s' b] r] eqn:Es. cbn [fst snd] in *.
    assert (∀ w : venue_state, v_underlyings w = <[u := b]> (v_underlyings v) →
      v_ingress w = v_ingress v → v_microstructure w = v_microstructure v → ingress_ok w) as Hok.
    { intros w Hw Hi Hm. destruct Hin as [Hd Hp]. split.
      - rewrite Hi, Hw, dom_insert_L. set_solver.
      - intros t b' key c reply. rewrite Hi, Hm. apply Hp. }
    set (w := with_actors (<[u := b]> (v_underlyings v)) s' v).
    destruct r as [r|err]; apply IH; [exact H1|by apply Hok| |exact H1|by apply Hok|].
    + intros u' p'. cbn [fst snd]. rewrite update_price_prices.
      intros [[<- <-]|[Hne Hp]]%lookup_insert_Some.
      * right. exists now, bid, ask. apply (H3 a r); [done|by rewrite Es].
      * destruct (Hf u' p' Hp) as [?|(now' & bid' & ask' & Hj)]; [by left|right].
        exists now', bid', ask'. by apply H2.
    + intros u' p' Hp. destruct (Hf u' p' Hp) as [?|(now' & bid' & ask' & Hj)]; [by left|right].
      exists now', bid', ask'. by apply H2.
Qed.
End maker.

(** ** Chain synthesis *)

Import Session.

(** The day of the month, from the day of the year. *)
Lemma month_day_bounds doy :
  0 ≤ doy ≤ 365 →
  let mp := (5 * doy + 2) / 153 in 0 ≤ mp ≤ 11 ∧ 1 ≤ doy - (153 * mp + 2) / 5 + 1 ≤ 31.
Proof. intros H mp. subst mp. split; Z.to_euclidean_division_equations; lia. Qed.

(** Drops the innermost wrap whose operand is seen to fit. *)
Ltac no_wrap :=
  match goal with
  | |- context [wrap_i64 ?e] =>
      lazymatch e with context [wrap_i64 _] => fail | _ => idtac end;
      rewrite (wrap_i64_fits e) by (split; cbn; lia)
  end.

(** On the days a clock can reach, the calendar is that of the FIX timestamps. *)
Lemma session_civil days :
  0 ≤ days ≤ 2 ^ 62 → Session.civil_from_days days = FixTime.civil_from_days days.
Proof.
  intros Hd. unfold Session.civil_from_days, FixTime.civil_from_days.
  repeat no_wrap.
  set (z := days + 719468). assert (719468 ≤ z ≤ 2 ^ 62 + 719468) as Hz by lia. clearbody z.
  rewrite !(proj2 (Z.leb_le 0 z)), !(Z.quot_div_nonneg z) by lia.
  pose proof (Z.div_mod z 146097 ltac:(lia)) as Hz'.
  pose proof (Z.mod_pos_bound z 146097 ltac:(lia)) as Hmod.
  pose proof (Z.mul_div_le z 146097 ltac:(lia)) as Hle.
  set (era := z / 146097) in *. clearbody era.
  repeat no_wrap.
  assert (0 ≤ z - era * 146097 ≤ 146096) as Hdoe by lia.
  assert (0 ≤ era ≤ 2 ^ 46) as Hera by lia.
  set (doe := z - era * 146097) in *. clearbody doe. clear Hz Hz' Hmod Hle Hd.
  pose proof (yoe_bounds doe Hdoe) as Hy. pose proof (doy_bounds doe Hdoe) as Hdoy. cbv zeta in *.
  assert (0 ≤ doe / 1460 ≤ doe ∧ 0 ≤ doe / 36524 ≤ 4 ∧ 0 ≤ doe / 146096 ≤ 1) as (H1 & H2 & H3)
    by (Z.to_euclidean_division_equations; lia).
  rewrite !(Z.quot_div_nonneg doe) by lia.
  repeat no_wrap.
  assert (0 ≤ doe - doe / 1460 + doe / 36524 - doe / 146096) as Hn
    by (clear - Hdoe; Z.to_euclidean_division_equations; lia).
  set (n := doe - doe / 1460 + doe / 36524 - doe / 146096) in *. clearbody n.
  rewrite !(Z.quot_div_nonneg n) by lia. set (yoe := n / 365) in *. clearbody yoe.
  rewrite !(Z.quot_div_nonneg yoe) by lia.
  assert (0 ≤ yoe / 4 ≤ 100 ∧ 0 ≤ yoe / 100 ≤ 4) as [H4 H5]
    by (Z.to_euclidean_division_equations; lia).
  repeat no_wrap.
  set (doy := doe - (365 * yoe + yoe / 4 - yoe / 100)) in *. clearbody doy.
  pose proof (month_day_bounds doy Hdoy) as [Hmp Hday]. cbv zeta in *.
  repeat no_wrap.
  rewrite !(Z.quot_div_nonneg (5 * doy + 2)) by lia.
  set (mp := (5 * doy + 2) / 153) in *. clearbody mp.
  repeat no_wrap.
  rewrite !(Z.quot_div_nonneg (153 * mp + 2)) by lia.
  repeat no_wrap.
  unfold wrapping. change (int_max u32 + 1) with (2 ^ 32).
  destruct (Z.ltb_spec mp 10); rewrite !Z.mod_small by lia; done.
Qed.

(** The strikes a grid keeps: the positive ones, in order. *)
Definition kept_strikes (atm half interval i : Z) (n : nat) : list Z :=
  filter (λ k, 0 < k) ((λ j, atm + (j - half) * interval) <$> seqZ i (Z.of_nat n)).

Section chain.
Context `{Upstream, SymbolCalendar, WalkLib, ConfigLib}.
Context (underlying yyyymmdd : string) (base_vol : Positive) (skew smile : Decimal)
        (spot : Positive).

(** What a synthesized strike is made of. *)
Definition strike_contracts (s : SynthesizedStrike) : Prop :=
  contract_symbol underlying yyyymmdd (sk_strike s) Call = Ok (sk_call s) ∧
  contract_symbol underlying yyyymmdd (sk_strike s) Put = Ok (sk_put s) ∧
  finite_positive (sk_iv s) = true.

Lemma grid_strike_spec atm half interval i k :
  grid_strike atm half interval i = Ok k → k = atm + (i - half) * interval.
Proof.
  unfold grid_strike. intros Hk%ok_or_Ok.
  apply bind_Some in Hk as (steps & [-> _]%narrow_Some & Hk).
  by apply bind_Some in Hk as (offset & [-> _]%narrow_Some & [-> _]%narrow_Some).
Qed.

Lemma synthesize_strike_spec k s :
  synthesize_strike underlying yyyymmdd k base_vol skew smile spot = Ok s →
  sk_strike s = k ∧ strike_contracts s.
Proof.
  unfold synthesize_strike. intros (kp & _ & Hs)%bind_Ok.
  apply bind_Ok in Hs as (iv & Hiv%ok_or_Ok & Hs).
  apply bind_Some in Hiv as (vol & _ & Hiv). cbv zeta in Hiv.
  destruct (finite_positive (positive_to_f64 vol)) eqn:Hpos; [|done].
  injection Hiv as <-.
  apply bind_Ok in Hs as (call & Hc & Hs). apply bind_Ok in Hs as (put & Hp & [= <-]). done.
Qed.

Lemma synthesize_grid_spec atm half interval i n strikes :
  synthesize_grid underlying yyyymmdd atm half interval base_vol skew smile spot i n = Ok strikes →
  sk_strike <$> strikes = kept_strikes atm half interval i n ∧ Forall strike_contracts strikes.
Proof.
  unfold kept_strikes. revert i strikes. induction n as [|n IH]; intros i strikes;
    cbn [synthesize_grid].
  - intros [= <-]. done.
  - intros (k & ->%grid_strike_spec & Hg)%bind_Ok.
    rewrite seqZ_cons by lia.
    replace (Z.pred (Z.of_nat (Datatypes.S n))) with (Z.of_nat n) by lia.
    change (Z.succ i) with (i + 1). rewrite fmap_cons.
    rewrite filter_cons. destruct (Z.leb_spec (atm + (i - half) * interval) 0).
    + rewrite decide_False by lia. by apply IH in Hg.
    + rewrite decide_True by lia.
      apply bind_Ok in Hg as (s & [Hk Hc]%synthesize_strike_spec & Hg).
      apply bind_Ok in Hg as (rest & [Hr Hf]%IH & [= <-]).
      rewrite fmap_cons, Hk, Hr. split; [done|by constructor].
Qed.
End chain.

Lemma f64_round_range x : 0 ≤ x < 2 ^ 64 → 0 ≤ f64_round x < 2 ^ 64.
Proof.
  intros Hx. unfold f64_round. destruct (f64_decode x) as [| | |s m e]; try done.
  destruct (0 <=? e); [done|]. destruct (_ =? 0); apply f64_encode_range.
Qed.

Section synthesized.
Context `{Upstream, SymbolCalendar, WalkLib, ConfigLib}.

Lemma at_the_money_spec spot interval atm :
  at_the_money spot interval = Ok atm → has_ty u64 interval → interval ≠ 0 →
  0 < atm ∧ (interval | atm).
Proof.
  unfold at_the_money. intros Hatm [Hi _] Hne. cbn in Hi. cbv zeta in Hatm.
  pose proof (f64_round_range (f64_div spot (f64_of_Z interval)) (f64_encode_range _)) as Hr.
  set (steps := f64_round (f64_div spot (f64_of_Z interval))) in *. clearbody steps.
  destruct (f64_is_finite steps && _ && _) eqn:E; [|done].
  apply andb_prop in E as [[_ E]%andb_prop _]. unfold f64_leb in E.
  apply andb_prop in E as [[_ Hnan%negb_true_iff]%andb_prop Hle%Z.leb_le]. cbn [negb] in Hatm.
  apply ok_or_Ok, narrow_Some in Hatm as [-> _].
  split; [|apply Z.divide_factor_r].
  assert (1 ≤ f64_as u64 steps) by (apply f64_as_at_least_one; done || by vm_compute). nia.
Qed.

(** The expiry text is the calendar date of the day number. *)
Lemma expiry_yyyymmdd_spec base_now_ms days text :
  expiry_yyyymmdd base_now_ms days = Ok text →
  let expiry_days := base_now_ms / MILLIS_PER_DAY + f64_as i64 (f64_round days) in
  0 ≤ expiry_days ≤ MAX_FOUR_DIGIT_DAY →
  ∃ year month day,
    text = pad_dec 4 year +:+ pad_dec 2 month +:+ pad_dec 2 day ∧
    1970 ≤ year ≤ 9999 ∧ 1 ≤ month ≤ 12 ∧ 1 ≤ day ≤ 31 ∧
    days_from_civil year month day = Some expiry_days.
Proof.
  unfold expiry_yyyymmdd. destruct (finite_positive days); [|done]. cbv zeta. cbn [negb].
  intros (n & [-> _]%ok_or_Ok%narrow_Some & Htext)%bind_Ok Hmax.
  rewrite session_civil in Htext by (unfold MAX_FOUR_DIGIT_DAY in Hmax; lia).
  pose proof (civil_spec _ (proj1 Hmax)) as Hc.
  destruct (FixTime.civil_from_days _) as [[year month] day].
  destruct Hc as (Hy & Hy' & Hm & Hd & Hdays). injection Htext as <-.
  exists year, month, day. unfold pad_signed. rewrite (proj2 (Z.ltb_ge year 0)) by lia.
  assert (year ≤ 9999) by (apply Hy'; lia). split_and!; try lia; [done|]. apply Hdays; lia.
Qed.

(** The multiple of the interval at the middle of the grid is kept. *)
Lemma atm_kept atm interval size :
  0 < atm → 0 < size →
  atm ∈ kept_strikes atm (size / 2) interval 0 (Z.to_nat size).
Proof.
  intros Ha Hs. unfold kept_strikes. apply list_elem_of_filter. split; [done|].
  apply list_elem_of_fmap. exists (size / 2). split; [lia|]. rewrite Z2Nat.id by lia.
  apply elem_of_seqZ. split; [by apply Z.div_pos; lia|]. apply Z.div_lt; lia.
Qed.

Lemma session_sizes c u :
  session_validate c = Ok u → ss_strike_interval c ≠ 0 ∧ ss_chain_size c ≠ 0.
Proof.
  unfold session_validate. destruct (String.eqb _ _); [done|]. destruct (_ =? 0); [done|].
  intros Hv. repeat (apply bind_Ok in Hv as (? & _ & Hv)).
  destruct (Z.eqb_spec (ss_strike_interval c) 0); [done|].
  by destruct (Z.eqb_spec (ss_chain_size c) 0).
Qed.

(** A synthesized chain is a grid: its strikes are, in order, the positive ones of the
    equally spaced grid around a multiple of the interval, that multiple among them; every
    strike has a call and a put of its underlying and expiry and a finite positive implied
    volatility; and, up to year 9999, the expiry date is the base date plus the rounded
    number of days. *)
Theorem synthesized_chain_grid (config : SessionConfig) (base_now_ms : Z) chain :
  has_ty u64 (ss_strike_interval config) → has_ty usize (ss_chain_size config) →
  synthesize_chain config base_now_ms = Ok chain →
  let interval := ss_strike_interval config in
  let size := ss_chain_size config in
  let expiry_days := base_now_ms / MILLIS_PER_DAY +
                     f64_as i64 (f64_round (ss_days_to_expiration config)) in
  ∃ atm yyyymmdd expiration,
    (sk_strike <$> sy_strikes chain =
       filter (λ k, 0 < k) ((λ j, atm + (j - size / 2) * interval) <$> seqZ 0 size)) ∧
    0 < atm ∧ (interval | atm) ∧ atm ∈ (sk_strike <$> sy_strikes chain) ∧
    Forall (strike_contracts (ss_underlying config) yyyymmdd) (sy_strikes chain) ∧
    sy_underlying chain = ss_underlying config ∧ sy_spot chain = ss_initial_price config ∧
    parse_yyyymmdd yyyymmdd EmptyString = Ok expiration ∧
    validate_venue_expiry expiration = Ok (sy_expiration chain) ∧
    (0 ≤ expiry_days ≤ MAX_FOUR_DIGIT_DAY →
     ∃ year month day,
       yyyymmdd = pad_dec 4 year +:+ pad_dec 2 month +:+ pad_dec 2 day ∧
       1970 ≤ year ≤ 9999 ∧ 1 ≤ month ≤ 12 ∧ 1 ≤ day ≤ 31 ∧
       days_from_civil year month day = Some expiry_days).
Proof.
  intros Hi Hn Hchain interval size expiry_days. unfold synthesize_chain in Hchain.
  apply bind_Ok in Hchain as ([] & Hval & Hchain). cbv zeta in Hchain.
  destruct (finite_positive (dollars_of _)) eqn:Hspot; [cbn [negb] in Hchain|done].
  apply bind_Ok in Hchain as (spot & _ & Hchain).
  apply bind_Ok in Hchain as (base_vol & _ & Hchain).
  apply bind_Ok in Hchain as (skew & _ & Hchain).
  apply bind_Ok in Hchain as (smile & _ & Hchain).
  apply bind_Ok in Hchain as (text & Htext & Hchain).
  apply bind_Ok in Hchain as (expiration & Hexp%map_err_Ok & Hchain).
  apply bind_Ok in Hchain as (canonical & Hcan%map_err_Ok & Hchain).
  apply bind_Ok in Hchain as (signed & [-> _]%ok_or_Ok%narrow_Some & Hchain).
  apply bind_Ok in Hchain as (atm & Hatm & Hchain).
  apply bind_Ok in Hchain as (atm' & [-> _]%ok_or_Ok%narrow_Some & Hchain).
  apply bind_Ok in Hchain as (strikes & Hgrid & Hchain).
  assert (interval ≠ 0 ∧ size ≠ 0) as [Hi0 Hn0] by (subst interval size; by eapply session_sizes).
  apply at_the_money_spec in Hatm as [Hpos Hdiv]; [|done..].
  apply synthesize_grid_spec in Hgrid as [Hstrikes Hcontracts].
  assert (0 < size < 2 ^ 63) as Hsize.
  { destruct Hn as [Hn Hn']. cbn in Hn, Hn'. fold size in Hn, Hn', Hstrikes.
    split; [lia|]. apply Z.nle_gt. intros Hbig. unfold wrap_i64 in Hstrikes.
    replace (Z.to_nat _) with 0%nat in Hstrikes.
    - by destruct strikes.
    - symmetry. apply Z2Nat.nonpos.
      rewrite <-(Z.mod_unique (size + 2 ^ 63) (2 ^ 64) 1 (size - 2 ^ 63)); lia. }
  fold size in Hstrikes. rewrite wrap_i64_fits in Hstrikes by (split; cbn; lia).
  exists atm, text, expiration. destruct strikes as [|s strikes]; [done|]. injection Hchain as <-.
  cbn [sy_strikes sy_underlying sy_spot sy_expiration].
  split_and!; try done.
  - rewrite Hstrikes. unfold kept_strikes. by rewrite Z2Nat.id by lia.
  - rewrite Hstrikes. apply atm_kept; lia.
  - by apply expiry_yyyymmdd_spec.
Qed.
End synthesized.

(** ** A concrete simulator *)

(** Generators that hold the price, an implied volatility without a smile. *)
#[export] Instance SampleWalkLib : WalkLib := {
  Positive := f64; Decimal := f64;
  positive_new x := if finite_positive x then Ok x else Err "must be positive";
  positive_to_f64 x := x;
  decimal_from_f64_retain x := if f64_is_finite x then Some x else None;
  geometric_brownian dt drift vol size start entropy :=
    if size <? 0 then Err "negative size" else Ok (replicate (Z.to_nat size) start);
  mean_reverting dt vol speed mean size start entropy :=
    if size <? 0 then Err "negative size" else Ok (replicate (Z.to_nat size) start);
  jump_diffusion dt drift vol intensity jmean jvol size start entropy :=
    if size <? 0 then Err "negative size" else Ok (replicate (Z.to_nat size) start);
  adjust_volatility base skew smile strike spot := Some base;
}.

#[export] Instance SampleWalkLaws : WalkLaws.
Proof.
  split; cbn; intros; destruct (Z.ltb_spec size 0); simplify_eq; rewrite length_replicate; lia.
Qed.

Definition sample_horizon : SimulationConfig :=
  {| sim_horizon_steps := 2; sim_step_ms := DEFAULT_STEP_MS; sim_start_ms := DEFAULT_START_MS;
     sim_price_channel_capacity := 1 |}.
Definition sample_asset : AssetConfig :=
  AssetConfig_new "BTC" 5_000_000 (f64_lit 1 2) GeometricBrownian.
Definition sample_simulator (capacity : Z) : PriceSimulator VenueStepSink :=
  PriceSimulator_new [sample_asset] sample_horizon
    (step_sink_with_capacity (v_microstructure recorded_venue) capacity) sample_clock.

(** Past the end of its path the loop serves the first price of a fresh one. *)
Lemma next_price_returns_witness :
  let s := step_once (step_once (sample_simulator 8)) in
  ps_draws s = 1 ∧
  (λ r, (ps_draws r.1, r.2)) <$> next_price 2 "BTC" s = Some (2, Some 5_000_000).
Proof.
  cbv zeta. split; [by vm_compute|].
  rewrite (next_price_returns 0). by vm_compute.
Defined.

Section samples.
Local Instance five_dollar_options : PricingLib := flat_pricing (f64_of_Z 5).

Definition sample_pipeline : Pipeline :=
  {| pl_sim := sample_simulator 2; pl_venue := recorded_venue;
     pl_engine := MarketMakerEngine_new "run-1" Quoter_default; pl_forwarded := [] |}.

(** An override in the band and one above it, a walked step, one the queue has no room for. *)
Definition sample_ops :
    list (PipelineOp (S := SharedState (StoreProjections * unit))
            (A := UnderlyingActor InMemoryVenueJournal MatchingExecutor
                    (TeeFanOut StoreFanOut NoopFanOut) SimClock)) :=
  [PoSetPrice "BTC" 5_100_000; PoSetPrice "BTC" 200_000_000; PoStep; PoStep; PoForward].

Lemma published_steps_conserved_witness :
  let z := foldl pipeline_op sample_pipeline sample_ops in
  pu_price <$> ps_published (pl_sim z) = [5_100_000; 5_000_000] ∧
  pl_forwarded z ++ vs_queue (ps_sink (pl_sim z)) =
    [SimStep 10 "BTC" 5_100_000 None None; SimStep 10 "BTC" 5_000_000 None None].
Proof.
  cbv zeta. split; [by vm_compute|].
  destruct (published_steps_conserved sample_pipeline sample_ops) as (H & _ & _);
    [reflexivity..|by vm_compute|].
  rewrite <-H. by vm_compute.
Defined.

Lemma maker_follows_journal_witness :
  let events := [MeForward (SimStep 10 "BTC" 5_100_000 None None);
                 MeCall (OpSubmit (SetInstrumentStatus btc_call Active));
                 MeForward (SimStep 10 "DOGE" 7 None None)] in
  let st := foldl (maker_event no_float)
              (recorded_venue, MarketMakerEngine_new "run-1" Quoter_default) events in
  mm_prices st.2 !! "DOGE" = None ∧
  ∃ now bid ask, journal_has (v_underlyings st.1) "BTC" (SimStep now "BTC" 5_100_000 bid ask).
Proof.
  cbv zeta. split; [by vm_compute|].
  destruct (maker_follows_journal no_float recorded_venue
    (MarketMakerEngine_new "run-1" Quoter_default)
    [MeForward (SimStep 10 "BTC" 5_100_000 None None);
     MeCall (OpSubmit (SetInstrumentStatus btc_call Active));
     MeForward (SimStep 10 "DOGE" 7 None None)]) with (u := "BTC") (p := 5_100_000)
    as [Hp|Hj].
  - intros t a [_ ->]%recorded_lookup. exists (with_clordid_index (recorded_actor t) None), [], [].
    assert (fresh_actor (recorded_actor t)) as [Hr Hi Hs Hn] by apply first_actor_fresh.
    split_and!; [by apply live_refl|constructor|constructor].
  - split; [done|]. intros t b key c reply Hb. exfalso.
    change ((∅ : gmap string (IngressReorderBuffer payload)) !! t = Some b) in Hb. by rewrite lookup_empty in Hb.
  - by vm_compute.
  - vm_compute in Hp. discriminate Hp.
  - exact Hj.
Defined.

(** A session over 20 days, a grid of two strikes of which only one is positive. *)
Definition sample_session : SessionConfig :=
  {| ss_underlying := "BTC"; ss_initial_price := 5_000_000;
     ss_days_to_expiration := f64_of_Z 20; ss_volatility := f64_lit 1 2;
     ss_risk_free_rate := DEFAULT_RISK_FREE_RATE; ss_dividend_yield := DEFAULT_DIVIDEND_YIELD;
     ss_walk_type := GeometricBrownian; ss_strike_interval := 50_000; ss_chain_size := 2;
     ss_smile_curve := DEFAULT_SMILE_CURVE; ss_skew_slope := DEFAULT_SKEW_SLOPE;
     ss_spread := DEFAULT_SPREAD |}.

Lemma synthesized_chain_grid_witness :
  match synthesize_chain sample_session 1_710_000_000_000 with
  | Ok chain =>
      (∃ atm, sk_strike <$> sy_strikes chain =
         filter (λ k, 0 < k) ((λ j, atm + (j - 1) * 50_000) <$> seqZ 0 2)) ∧
      sk_strike <$> sy_strikes chain = [50_000] ∧
      (sk_call <$> sy_strikes chain) = [btc_call] ∧ sy_expiration chain = sample_expiry
  | Err _ => False
  end.
Proof.
  assert (has_ty u64 (ss_strike_interval sample_session)) as Hi by by vm_compute.
  assert (has_ty usize (ss_chain_size sample_session)) as Hn by by vm_compute.
  destruct (synthesize_chain sample_session 1_710_000_000_000) as [chain|e] eqn:E.
  - destruct (synthesized_chain_grid sample_session 1_710_000_000_000 chain Hi Hn E)
      as (atm & _ & _ & Hs & _).
    apply (f_equal (λ r, match r with
      | Ok c => Some (sk_strike <$> sy_strikes c, sk_call <$> sy_strikes c, sy_expiration c)
      | Err _ => None end)) in E.
    vm_compute in E. injection E as E1 E2 E3. split; [exists atm; exact Hs|].
    split_and!; symmetry; [exact E1|exact E2|exact E3].
  - apply (f_equal is_ok) in E. vm_compute in E. discriminate E.
Defined.

(** An override outside the price band reports success and moves the price read back, and
    nothing is published or queued for the journal. *)
Example override_outside_band :
  let '(s, r) := set_price "BTC" 200_000_000 (sample_simulator 8) in
  r = Ok tt ∧ get_price s "BTC" = Some 200_000_000 ∧ ps_published s = [] ∧
  vs_queue (ps_sink s) = [].
Proof. vm_compute. split_and!; reflexivity. Qed.

(** A step is published when it is queued; a full mailbox can still refuse it afterwards, and it
    is in no journal. *)
Example published_and_refused :
  let s := step_once (sample_simulator 8) in
  let '(v, e) := foldl (λ st c, forward_step c st.1 st.2)
                   (busy_app, MarketMakerEngine_new "run-1" Quoter_default)
                   (vs_queue (ps_sink s)) in
  pu_price <$> ps_published s = [5_000_000] ∧ mm_prices e !! "BTC" = None ∧
  ((λ a, im_records (act_journal (mb_served a))) <$> v_underlyings v !! "BTC") = Some [].
Proof. vm_compute. split_and!; reflexivity. Qed.

(** An opening price and two walked steps: the cursor is restored past a price the walk never
    served. *)
Example restored_cursor_counts_overrides :
  let y := foldl pipeline_op sample_pipeline
             [PoSetPrice "BTC" 5_100_000; PoForward; PoStep; PoForward] in
  (at_cursor <$> ps_assets (pl_sim y) !! "BTC") = Some 1 ∧
  ((λ a, rp_sim_steps (recovered_producer_state (journal_events (act_journal a)) "BTC"))
     <$> v_underlyings (pl_venue y) !! "BTC") = Some 2.
Proof. vm_compute. split; reflexivity. Qed.

(** A number of days that passes the checked sum and overflows the calendar, here wrapping to a
    date before the era. *)
Example expiry_overflows :
  let days := f64_of_Z (2 ^ 63 - 22 * 1024) in
  match checked_add i64 (1_735_689_600_000 / MILLIS_PER_DAY) (f64_as i64 (f64_round days)) with
  | Some n => fits i64 (n + 719_468) = false ∧ (Session.civil_from_days n).1.1 < 0
  | None => False
  end.
Proof. vm_compute. split; reflexivity. Qed.
End samples.
