(* ===== verification/RestViews.v ===== *)
(** The REST routes that are not about orders ([src/src/gateway/rest/]): controls
    ([controls.rs]), price overrides ([prices.rs]), the account's positions and executions
    ([account.rs]), hierarchy and market data ([market.rs]), statistics, tokens and tickets
    ([meta.rs]), and the middleware in front of them.

    Each handler makes at most one call to the venue, so it is a function of the venue it
    finds.  The symbols of the shared index of the order-book library are an argument. *)

From S2P Require Export RestOrders Quoter FixTime.

(** ** Wire models ([models.rs]) *)

Record SystemControlResponse := {
  scr_master_enabled : bool; scr_spread_multiplier : f64; scr_size_scalar : f64;
  scr_directional_skew : f64 }.
Record KillSwitchResponse := {
  ks_success : bool; ks_message : string; ks_master_enabled : bool; ks_ok_count : Z;
  ks_total : Z; ks_fully_applied : bool }.
Record UpdateParametersRequest := {
  upq_spread_multiplier : option f64; upq_size_scalar : option f64;
  upq_directional_skew : option f64 }.
Record UpdateParametersResponse := {
  upr_success : bool; upr_spread_multiplier : f64; upr_size_scalar : f64;
  upr_directional_skew : f64; upr_ok_count : Z; upr_total : Z; upr_fully_applied : bool }.
Record InstrumentToggleResponse := {
  itr_success : bool; itr_symbol : Symbol; itr_enabled : bool; itr_sequence : SequenceNumber }.

Record InsertPriceRequest := {
  ipq_symbol : string; ipq_price : Cents; ipq_bid : option Cents; ipq_ask : option Cents;
  ipq_volume : option Z }.
Record InsertPriceResponse := {
  ipr_success : bool; ipr_symbol : string; ipr_price_cents : Cents;
  ipr_timestamp : EventTimestamp }.
Record LatestPriceResponse := {
  lp_symbol : string; lp_price_cents : Cents; lp_bid_cents : option Cents;
  lp_ask_cents : option Cents; lp_volume : option Z; lp_timestamp : EventTimestamp }.

Record PositionSummary := {
  psm_total_unrealized_pnl : SignedCents; psm_total_realized_pnl : SignedCents;
  psm_net_delta : f64; psm_position_count : Z; psm_unpriced_count : Z }.
Record PositionsListResponse := {
  plr_positions : list Position; plr_summary : PositionSummary }.
Record ExecutionSummary := {
  xs_total_executions : Z; xs_total_volume : Z; xs_total_edge : SignedCents;
  xs_maker_ratio : f64 }.
Record ExecutionsQuery := {
  xq_from : option string; xq_to : option string; xq_underlying : option string;
  xq_limit : option Z }.
Record ExecutionsListResponse := {
  xlr_executions : list ExecutionRecord; xlr_summary : ExecutionSummary }.

Record UnderlyingSummary := {
  us_symbol : string; us_expiration_count : Z; us_total_strike_count : Z;
  us_total_order_count : Z }.
Record ExpirationSummary := {
  es_expiration : string; es_strike_count : Z; es_total_order_count : Z }.
Record QuoteResponse := {
  qr_bid_price : option Cents; qr_bid_size : Z; qr_ask_price : option Cents; qr_ask_size : Z;
  qr_timestamp : EventTimestamp }.
Record StrikeSummary := {
  ss_strike : Z; ss_call_order_count : Z; ss_put_order_count : Z; ss_call_quote : QuoteResponse;
  ss_put_quote : QuoteResponse }.
Record OptionQuoteData := {
  oq_bid : option Cents; oq_ask : option Cents; oq_bid_size : Z; oq_ask_size : Z;
  oq_last_trade : option Cents; oq_volume : Z; oq_delta : option f64; oq_iv : option f64 }.
Record ChainStrikeRow := { cs_strike : Z; cs_call : OptionQuoteData; cs_put : OptionQuoteData }.
Record OptionChainResponse := {
  oc_underlying : string; oc_expiration : string; oc_spot_price : option Cents;
  oc_atm_strike : option Z; oc_chain : list ChainStrikeRow }.
(** The strikes and the term structure of the surface are always empty. *)
Record VolatilitySurfaceResponse := {
  vs_underlying : string; vs_spot_price : option Cents; vs_timestamp : EventTimestamp;
  vs_expirations : list string; vs_strikes : list Z }.
Record OrderBookSnapshotResponse := {
  ob_symbol : Symbol; ob_total_bid_depth : Z; ob_total_ask_depth : Z; ob_bid_level_count : Z;
  ob_ask_level_count : Z; ob_order_count : Z; ob_quote : QuoteResponse }.
Inductive OhlcInterval := OneMinute | FiveMinutes | FifteenMinutes | OneHour | FourHours | OneDay.
Definition interval_seconds (i : OhlcInterval) : Z :=
  match i with
  | OneMinute => 60 | FiveMinutes => 300 | FifteenMinutes => 900 | OneHour => 3_600
  | FourHours => 14_400 | OneDay => 86_400
  end.
Record OhlcBar := {
  bar_timestamp : Z; bar_open : Cents; bar_high : Cents; bar_low : Cents; bar_close : Cents;
  bar_volume : Z; bar_trade_count : Z }.
Record OhlcQuery := {
  ohq_interval : OhlcInterval; ohq_from : option Z; ohq_to : option Z; ohq_limit : option Z }.
Record OhlcResponse := {
  oh_symbol : Symbol; oh_interval : OhlcInterval; oh_bars : list OhlcBar }.
Record SpreadMetrics := { sm_current : option Cents; sm_spread_bps : option f64 }.
Record DepthMetrics := { dm_bid_depth_total : Z; dm_ask_depth_total : Z; dm_imbalance : f64 }.
Record PriceMetrics := {
  pm_mid_price : option f64; pm_micro_price : option f64; pm_vwap_bid : option Cents;
  pm_vwap_ask : option Cents }.
Record ImpactMetrics := { im_avg_price : option Cents; im_slippage_bps : option f64 }.
Record MarketImpactMetrics := { mi_buy : ImpactMetrics; mi_sell : ImpactMetrics }.
Record OrderbookMetricsResponse := {
  obm_symbol : Symbol; obm_timestamp : EventTimestamp; obm_spread : SpreadMetrics;
  obm_depth : DepthMetrics; obm_prices : PriceMetrics; obm_market_impact : MarketImpactMetrics }.

Record GlobalStatsResponse := {
  gs_underlying_count : Z; gs_total_expirations : Z; gs_total_strikes : Z; gs_total_orders : Z }.
Record TokenRequest := {
  tq_account : AccountId; tq_secret : string; tq_ttl_secs : option Z }.
Record TokenResponse := { tk_token : string; tk_expires_at : string }.
Record WsTicketResponse := {
  wt_ticket : string; wt_expires_at : string; wt_expires_in_secs : Z }.

(** ** Controls ([controls.rs]) *)

Section controls.
Context {S A : Type} `{!ActorService S A, !Upstream}.
Notation venue := (Venue S A).
Notation handler R := (venue → venue * result VenueError R).

(** An early return; a submission and what is made of its receipt. *)
Definition admin_only {R} (auth : Authorized) (k : handler R) : handler R := λ v,
  match require auth PermAdmin with Err e => (v, Err e) | Ok _ => k v end.
Definition submitted {R} (command : VenueCommand) (k : Receipt → result VenueError R) :
    handler R := λ v,
  match submit command v with (v, Err e) => (v, Err e) | (v, Ok receipt) => (v, k receipt) end.

(** Fixed, whatever the market maker does. *)
Definition get_controls : SystemControlResponse :=
  {| scr_master_enabled := true; scr_spread_multiplier := f64_of_Z 1;
     scr_size_scalar := f64_of_Z 1; scr_directional_skew := f64_of_Z 0 |}.

Definition fanout_of (receipt : Receipt) : FanoutSummary :=
  default {| ok_count := 1; fanout_total := 1 |} (receipt_fanout receipt).

Definition kill_switch_response (receipt : Receipt) (master_enabled : bool) (what : string) :
    KillSwitchResponse :=
  let fanout := fanout_of receipt in
  let fully := fully_applied fanout in
  {| ks_success := fully;
     ks_message :=
       if fully then what +:+ " updated"
       else what +:+ " partially applied to " +:+ dec (ok_count fanout) +:+ "/" +:+
            dec (fanout_total fanout) +:+ " underlyings";
     ks_master_enabled := master_enabled; ks_ok_count := ok_count fanout;
     ks_total := fanout_total fanout; ks_fully_applied := fully |}.

Definition kill_switch (auth : Authorized) (enabled : bool) : handler KillSwitchResponse :=
  admin_only auth
    (submitted (MarketMakerControl None None None (Some enabled))
       (λ receipt, Ok (kill_switch_response receipt enabled "kill switch"))).
Definition set_enabled (auth : Authorized) (enabled : bool) : handler KillSwitchResponse :=
  admin_only auth
    (submitted (MarketMakerControl None None None (Some enabled))
       (λ receipt, Ok (kill_switch_response receipt enabled "enable state"))).

Definition update_parameters (auth : Authorized) (q : UpdateParametersRequest) :
    handler UpdateParametersResponse :=
  admin_only auth (λ v,
    match validate_control_knobs (upq_spread_multiplier q) (upq_size_scalar q)
            (upq_directional_skew q) with
    | Err reason => (v, Err (VInvalidOrder reason))
    | Ok _ =>
        submitted (MarketMakerControl (upq_spread_multiplier q) (upq_size_scalar q)
                     (upq_directional_skew q) None)
          (λ receipt,
             let fanout := fanout_of receipt in
             Ok {| upr_success := fully_applied fanout;
                   upr_spread_multiplier := default (f64_of_Z 1) (upq_spread_multiplier q);
                   upr_size_scalar := default (f64_of_Z 1) (upq_size_scalar q);
                   upr_directional_skew := default (f64_of_Z 0) (upq_directional_skew q);
                   upr_ok_count := ok_count fanout; upr_total := fanout_total fanout;
                   upr_fully_applied := fully_applied fanout |}) v
    end).

Definition list_instrument_controls : list unit := [].

(** [str::rsplit_once('-')]. *)
Fixpoint rsplit_dash (s : string) : option (string * string) :=
  match s with
  | EmptyString => None
  | String c rest =>
      match rsplit_dash rest with
      | Some (prefix, suffix) => Some (String c prefix, suffix)
      | None => if Ascii.eqb c "-"%char then Some (EmptyString, rest) else None
      end
  end.

Definition parse_contract_symbol (raw : string) : result VenueError Symbol :=
  match Symbol_parse raw with
  | Ok symbol => Ok symbol
  | Err e =>
      match rsplit_dash raw with
      | Some (prefix, style_word) =>
          style ← parse_style style_word;
          map_err venue_error_from_symbol (Symbol_parse (prefix +:+ "-" +:+ style_char style))
      | None => Err (venue_error_from_symbol e)
      end
  end.

Definition toggle_instrument (auth : Authorized) (raw : string) (enabled : bool) :
    handler InstrumentToggleResponse :=
  admin_only auth (λ v,
    match parse_contract_symbol raw with
    | Err e => (v, Err e)
    | Ok symbol =>
        submitted (SetInstrumentStatus symbol (if enabled then Active else Halted))
          (λ receipt,
             match receipt_outcome receipt with
             | Some (Rejected _ reason) => Err (InstrumentHalted reason)
             | _ =>
                 Ok {| itr_success := true; itr_symbol := symbol; itr_enabled := enabled;
                       itr_sequence := receipt_sequence receipt |}
             end) v
    end).

(** ** Prices ([prices.rs]) *)

Definition insert_price (auth : Authorized) (q : InsertPriceRequest) :
    handler InsertPriceResponse :=
  admin_only auth
    (submitted (SimStep 0 (ipq_symbol q) (ipq_price q) (ipq_bid q) (ipq_ask q))
       (λ receipt,
          Ok {| ipr_success := true; ipr_symbol := ipq_symbol q; ipr_price_cents := ipq_price q;
                ipr_timestamp := receipt_venue_ts receipt |})).
Definition list_prices : list LatestPriceResponse := [].
Definition get_price (symbol : string) : result VenueError LatestPriceResponse :=
  Err (VNotFound symbol).
End controls.

(** ** The account's positions and executions ([account.rs]) *)

(** The sum of [i64]s in an [i128]. *)
Fixpoint sum_from (acc : Z) (values : list Z) : result VenueError Z :=
  match values with
  | [] => Ok acc
  | value :: values =>
      acc ← ok_or VOverflow (checked_add i128 acc value);
      sum_from acc values
  end.
Definition sum_signed (values : list SignedCents) : result VenueError SignedCents :=
  acc ← sum_from 0 values; ok_or VOverflow (narrow i64 acc).

(** [Iterator::sum] of floats starts at minus zero; the exposure of a position is zero. *)
Definition sum_f64 (values : list f64) : f64 := foldl f64_add F64_SIGN values.

Definition summarize_positions (positions : list Position) : result VenueError PositionSummary :=
  total_realized ← sum_signed (realized_pnl <$> positions);
  total_unrealized ← sum_signed (omap unrealized_pnl positions);
  Ok {| psm_total_unrealized_pnl := total_unrealized;
        psm_total_realized_pnl := total_realized;
        psm_net_delta :=
          sum_f64 ((λ _, f64_of_Z 0) <$> filter (λ p, is_Some (unrealized_pnl p)) positions);
        psm_position_count := Z.of_nat (length positions);
        psm_unpriced_count := Z.of_nat (length (filter (λ p, current_price p = None) positions)) |}.

Fixpoint volume_from (total : Z) (records : list ExecutionRecord) : result VenueError Z :=
  match records with
  | [] => Ok total
  | record :: records =>
      total ← ok_or VOverflow (checked_add u64 total (xr_quantity record));
      volume_from total records
  end.

Definition summarize_executions (records : list ExecutionRecord) :
    result VenueError ExecutionSummary :=
  total_volume ← volume_from 0 records;
  total_edge ← sum_signed (xr_edge_cents <$> records);
  let maker_count := Z.of_nat (length (filter (λ r, xr_liquidity r = Maker) records)) in
  Ok {| xs_total_executions := Z.of_nat (length records); xs_total_volume := total_volume;
        xs_total_edge := total_edge;
        xs_maker_ratio :=
          match records with
          | [] => f64_of_Z 0
          | _ => f64_div (f64_of_Z maker_count) (f64_of_Z (Z.of_nat (length records)))
          end |}.

Section account.
Context `{MarkPriceCalculator, Upstream}.

Definition account_of (auth : Authorized) : AccountId := cl_sub (au_claims auth).

Definition list_positions (auth : Authorized) (underlying : option string)
    (stores : StoreProjections) : result VenueError PositionsListResponse :=
  positions ← map_err (λ _, VOverflow)
                (positions_list (sp_positions stores) (account_of auth) (mark (sp_marks stores)));
  let positions :=
    match underlying with
    | Some underlying => filter (λ p, position_underlying p = underlying) positions
    | None => positions
    end in
  summary ← summarize_positions positions;
  Ok {| plr_positions := positions; plr_summary := summary |}.

Definition get_position (auth : Authorized) (raw : string) (stores : StoreProjections) :
    result VenueError Position :=
  symbol ← map_err venue_error_from_symbol (Symbol_parse raw);
  found ← map_err (λ _, VOverflow)
            (positions_get (sp_positions stores) (account_of auth) symbol
               (mark (sp_marks stores) symbol));
  ok_or (VNotFound symbol) found.

Definition list_executions (auth : Authorized) (q : ExecutionsQuery) (stores : StoreProjections) :
    result VenueError ExecutionsListResponse :=
  executions ← map_err (λ _, VOverflow)
                 (exec_list (sp_executions stores) (account_of auth)
                    {| ef_underlying := xq_underlying q; ef_limit := xq_limit q |});
  summary ← summarize_executions executions;
  Ok {| xlr_executions := executions; xlr_summary := summary |}.

Definition get_execution (auth : Authorized) (execution_id : string) (stores : StoreProjections) :
    result VenueError ExecutionRecord :=
  found ← map_err (λ _, VOverflow)
            (exec_get (sp_executions stores) execution_id (account_of auth));
  ok_or (VNotFound execution_id) found.
End account.

(** ** Hierarchy and market data ([market.rs]) *)

Definition manifest_refused (kind : string) (serving : bool) : VenueError :=
  VInvalidOrder
    (if serving
     then "runtime " +:+ kind +:+ " create/delete is refused: the instrument set is a " +:+
          "seed-time manifest input, immutable once the venue is serving (a new run is " +:+
          "required to change it)"
     else kind +:+ " create/delete over REST is refused: the instrument set is populated from " +:+
          "the seed manifest during the bounded seeding phase, not by a runtime hierarchy create").

Definition empty_quote : QuoteResponse :=
  {| qr_bid_price := None; qr_bid_size := 0; qr_ask_price := None; qr_ask_size := 0;
     qr_timestamp := 0 |}.
Definition empty_side : OptionQuoteData :=
  {| oq_bid := None; oq_ask := None; oq_bid_size := 0; oq_ask_size := 0; oq_last_trade := None;
     oq_volume := 0; oq_delta := None; oq_iv := None |}.

(** A [BTreeSet] in order. *)
Definition in_order `{Countable K} (leb : K → K → bool) (l : list K) : list K :=
  sort_by_key leb id (elements (list_to_set l : gset K)).

Section market.
Context `{!Upstream}.

(** The symbols that parse. *)
Definition parsed_symbols (symbols : list string) : list ParsedSymbol :=
  omap (λ s, match parse_symbol s with Ok p => Some p | Err _ => None end) symbols.

Definition expirations_for (symbols : list string) (underlying : string) : list string :=
  in_order String.leb
    (ps_expiration_str <$> filter (λ p, ps_underlying p = underlying) (parsed_symbols symbols)).
Definition strikes_for (symbols : list string) (underlying expiration : string) : list Z :=
  in_order Z.leb
    (ps_strike <$>
       filter (λ p, ps_underlying p = underlying ∧ ps_expiration_str p = expiration)
         (parsed_symbols symbols)).

(** Creation and deletion of an underlying, an expiration or a strike. *)
Definition hierarchy_mutation {R} (kind : string) (serving : bool) (auth : Authorized) :
    result VenueError R :=
  _ ← require auth PermAdmin; Err (manifest_refused kind serving).
Definition create_underlying {R} (serving : bool) (auth : Authorized) : result VenueError R :=
  hierarchy_mutation "underlying" serving auth.
Definition delete_underlying {R} (serving : bool) (auth : Authorized) : result VenueError R :=
  hierarchy_mutation "underlying" serving auth.
Definition create_expiration {R} (serving : bool) (auth : Authorized) : result VenueError R :=
  hierarchy_mutation "expiration" serving auth.
Definition create_strike {R} (serving : bool) (auth : Authorized) : result VenueError R :=
  hierarchy_mutation "strike" serving auth.

Definition list_underlyings {S A} `{!ActorService S A} (v : Venue S A) : list string :=
  underlyings v.
Definition get_underlying {S A} `{!ActorService S A} (v : Venue S A) (symbols : list string)
    (underlying : string) : result VenueError UnderlyingSummary :=
  match v_underlyings v !! underlying with
  | None => Err (VNotFound underlying)
  | Some _ =>
      let expirations := expirations_for symbols underlying in
      let total :=
        sum_Z ((λ e, Z.of_nat (length (strikes_for symbols underlying e))) <$> expirations) in
      Ok {| us_symbol := underlying; us_expiration_count := Z.of_nat (length expirations);
            us_total_strike_count := total; us_total_order_count := 0 |}
  end.

Definition list_expirations (symbols : list string) (underlying : string) : list string :=
  expirations_for symbols underlying.
Definition get_expiration (symbols : list string) (underlying expiration : string) :
    ExpirationSummary :=
  {| es_expiration := expiration;
     es_strike_count := Z.of_nat (length (strikes_for symbols underlying expiration));
     es_total_order_count := 0 |}.
Definition volatility_surface (symbols : list string) (underlying : string) :
    VolatilitySurfaceResponse :=
  {| vs_underlying := underlying; vs_spot_price := None; vs_timestamp := 0;
     vs_expirations := expirations_for symbols underlying; vs_strikes := [] |}.
Definition option_chain (symbols : list string) (underlying expiration : string) :
    OptionChainResponse :=
  {| oc_underlying := underlying; oc_expiration := expiration; oc_spot_price := None;
     oc_atm_strike := None;
     oc_chain :=
       (λ k, {| cs_strike := k; cs_call := empty_side; cs_put := empty_side |}) <$>
         strikes_for symbols underlying expiration |}.
Definition list_strikes (symbols : list string) (underlying expiration : string) : list Z :=
  strikes_for symbols underlying expiration.
Definition get_strike (strike : Z) : StrikeSummary :=
  {| ss_strike := strike; ss_call_order_count := 0; ss_put_order_count := 0;
     ss_call_quote := empty_quote; ss_put_quote := empty_quote |}.

Definition contract_book (p : ContractPath) : result VenueError OrderBookSnapshotResponse :=
  symbol ← contract_symbol p;
  Ok {| ob_symbol := symbol; ob_total_bid_depth := 0; ob_total_ask_depth := 0;
        ob_bid_level_count := 0; ob_ask_level_count := 0; ob_order_count := 0;
        ob_quote := empty_quote |}.
Definition contract_quote (p : ContractPath) : result VenueError QuoteResponse :=
  _ ← contract_symbol p; Ok empty_quote.
Definition contract_snapshot (p : ContractPath) : result VenueError OrderBookSnapshotResponse :=
  contract_book p.
Definition contract_greeks {R} (p : ContractPath) : result VenueError R :=
  symbol ← contract_symbol p; Err (VNotFound symbol).
Definition contract_last_trade {R} (p : ContractPath) : result VenueError R :=
  symbol ← contract_symbol p; Err (VNotFound symbol).
Definition contract_ohlc (p : ContractPath) (q : OhlcQuery) : result VenueError OhlcResponse :=
  symbol ← contract_symbol p;
  Ok {| oh_symbol := symbol; oh_interval := ohq_interval q; oh_bars := [] |}.
Definition contract_metrics (p : ContractPath) : result VenueError OrderbookMetricsResponse :=
  symbol ← contract_symbol p;
  let none := {| im_avg_price := None; im_slippage_bps := None |} in
  Ok {| obm_symbol := symbol; obm_timestamp := 0;
        obm_spread := {| sm_current := None; sm_spread_bps := None |};
        obm_depth := {| dm_bid_depth_total := 0; dm_ask_depth_total := 0;
                        dm_imbalance := f64_of_Z 0 |};
        obm_prices := {| pm_mid_price := None; pm_micro_price := None; pm_vwap_bid := None;
                         pm_vwap_ask := None |};
        obm_market_impact := {| mi_buy := none; mi_sell := none |} |}.

(** ** Statistics, tokens and tickets ([meta.rs]) *)

Definition health : string * string := ("ok", "0.4.0").

Definition stats {S A} `{!ActorService S A} (v : Venue S A) (symbols : list string) :
    GlobalStatsResponse :=
  let parsed := parsed_symbols symbols in
  {| gs_underlying_count := Z.of_nat (size (v_underlyings v));
     gs_total_expirations :=
       Z.of_nat (size (list_to_set ((λ p, (ps_underlying p, ps_expiration_str p)) <$> parsed)
                       : gset (string * string)));
     gs_total_strikes :=
       Z.of_nat (size (list_to_set
                         ((λ p, (ps_underlying p, ps_expiration_str p, ps_strike p)) <$> parsed)
                       : gset (string * string * Z)));
     gs_total_orders := 0 |}.
End market.

(** The timestamp of a second, which fits the signed range. *)
Definition format_rfc3339_utc (secs : Z) : string :=
  let days := secs / 86_400 in
  let rem := secs mod 86_400 in
  let '(hour, minute, second) := (rem / 3_600, rem mod 3_600 / 60, rem mod 60) in
  let '(year, month, day) := civil_from_days days in
  pad_dec 4 year +:+ "-" +:+ pad_dec 2 month +:+ "-" +:+ pad_dec 2 day +:+ "T" +:+
  pad_dec 2 hour +:+ ":" +:+ pad_dec 2 minute +:+ ":" +:+ pad_dec 2 second +:+ "Z".

Section meta.
Context `{!CredentialLib}.

(** At a reading of the wall clock. *)
Definition issue_token (r : AccountRegistry) (gate : BootstrapGate) (issued_at_secs : Z)
    (q : TokenRequest) : result VenueError TokenResponse :=
  let ttl_secs := default DEFAULT_TOKEN_TTL_SECS (tq_ttl_secs q) in
  token ← map_err map_mint_error
            (mint_for_account r gate (tq_account q) (tq_secret q) issued_at_secs ttl_secs);
  expires_at_secs ← ok_or VOverflow (checked_add u64 issued_at_secs ttl_secs);
  Ok {| tk_token := token; tk_expires_at := format_rfc3339_utc expires_at_secs |}.

Definition issue_ws_ticket (auth : Authorized) (now_secs : Z) (random : option (list Z))
    (a : AuthService) : AuthService * result VenueError WsTicketResponse :=
  match mint_ws_ticket (au_claims auth) now_secs random a with
  | (a, Err e) => (a, Err e)
  | (a, Ok ticket) =>
      (a, expires_at_secs ← ok_or VOverflow (checked_add u64 now_secs WS_TICKET_TTL_SECS);
          Ok {| wt_ticket := ticket; wt_expires_at := format_rfc3339_utc expires_at_secs;
                wt_expires_in_secs := WS_TICKET_TTL_SECS |})
  end.

(** ** In front of the handlers ([middleware.rs]) *)

(** A response, and the headers of the limiter's decision added to it. *)
Definition limited_response {R} (r : R) (d : RateLimitDecision) : R * list (string * Z) :=
  (r, apply_headers d).

Definition extract_peer (peer : option IpAddr) : IpAddr := default (V4 0) peer.

(** [next] is the inner service, given the identity the middleware inserts. *)
Definition app_state_auth_middleware {R Q} `{!RevocationOracle Q} (oracle : Q) (path : string)
    (authorization : option string) (peer : option IpAddr) (baseline : Permission)
    (ck : Clocks) (rejection : VenueError → R) (next : option Authorized → R)
    (a : AuthService) : AuthService * (R * list (string * Z)) :=
  match admit_bearer oracle path (extract_bearer authorization) (extract_peer peer) baseline ck a
  with
  | (a, Exempt) => (a, (next None, []))
  | (a, AdmissionGranted identity decision) =>
      (a, limited_response (next (Some identity)) decision)
  | (a, AdmissionRejected error decision) =>
      (a, match decision with
          | Some decision => limited_response (rejection error) decision
          | None => (rejection error, [])
          end)
  end.

Definition peer_rate_limit_middleware {R} (peer : option IpAddr) (ck : Clocks)
    (rejection : VenueError → R) (next : R) (a : AuthService) :
    AuthService * (R * list (string * Z)) :=
  let '(a, decision) := check_limit (KeyPeer (extract_peer peer)) ck a in
  (a, limited_response (if rd_allowed decision then next else rejection RateLimited) decision).
End meta.
