(* ===== verification/WsSocket.v ===== *)
(** The WebSocket surface around the connection of [WsSession]
    ([src/src/gateway/ws/mod.rs], [src/src/gateway/ws/protocol.rs]): the handshake and its
    credential, the parser of a text frame, the control actions, and the loop that serves one
    socket over the events it selects among.

    JSON is a library: [JsonLib] is what the parser uses of it.  The other tasks of the
    process change the host between two events, so a turn of the loop takes the host it
    finds. *)

From S2P Require Export WsSession RestViews Replay.

(** ** Frames ([protocol.rs]) *)

(** [protocol::ClientAction]; the subscription actions are [WsSession.ClientAction]. *)
Inductive SocketAction :=
  | SaSubscription (action : ClientAction)
  | SaSetSpread (value : f64)
  | SaSetSize (value : f64)
  | SaSetSkew (value : f64)
  | SaKill
  | SaEnable
  | SaRecord (enabled : bool)
  | SaReplayBundle (bundle : ScenarioBundle).

(** [serde_json], and the decoders [serde] derives for the payload of an action.
    [json_map_keys] are the keys a map visitor is given, if it reaches the end of the text. *)
Class JsonLib := {
  Value : Type;
  json_from_str : string → option Value;
  json_get : Value → string → option Value;
  json_as_str : Value → option string;
  json_is_object : Value → bool;
  json_map_keys : string → option (list string);
  json_to_string : WsMessage → option string;
  de_subscribe_params : Value → option SubscribeParams;
  de_batch_params : Value → option BatchParams;
  de_value_param : Value → option f64;
  de_record_param : Value → option bool;
  de_replay_bundle_param : Value → option ScenarioBundle;
}.

Inductive FrameOutcome :=
  | FoAction (action : SocketAction) (request_id : option string)
  | FoReject (error : WsError).

Definition ORDER_ENTRY_ACTIONS : list string :=
  ["place_order"; "place_limit_order"; "place_market_order"; "new_order"; "new_order_single";
   "order"; "cancel_order"; "cancel"; "replace_order"; "replace"; "modify_order"].

Definition is_order_entry_action (action : string) : bool :=
  existsb (String.eqb action) ORDER_ENTRY_ACTIONS.

Definition order_entry_rejected (request_id : option string) : WsError :=
  as_validation
    (decode_error request_id
       "WebSocket is not an order-entry surface; place orders over REST or FIX").

(** [visit_map]: the keys seen so far, newest last. *)
Fixpoint visit_keys (seen keys : list string) : bool :=
  match keys with
  | [] => true
  | key :: keys => if existsb (String.eqb key) seen then false else visit_keys (seen ++ [key]) keys
  end.

Section frames.
Context `{!JsonLib}.

Definition looks_like_order_entry (value : Value) : bool :=
  bool_decide (is_Some (json_get value "side")) &&
  (bool_decide (is_Some (json_get value "price")) ||
   bool_decide (is_Some (json_get value "quantity"))).

Definition has_duplicate_top_level_key (text : string) : bool :=
  match json_map_keys text with Some keys => negb (visit_keys [] keys) | None => true end.

(** The derived decoder of an enum tagged by [action], its variants in snake case. *)
Definition action_of_value (value : Value) : option SocketAction :=
  tag ← json_get value "action" ≫= json_as_str;
  match tag with
  | "subscribe" => SaSubscription ∘ Subscribe <$> de_subscribe_params value
  | "unsubscribe" => SaSubscription ∘ Unsubscribe <$> de_subscribe_params value
  | "batch_subscribe" => SaSubscription ∘ BatchSubscribe <$> de_batch_params value
  | "batch_unsubscribe" => SaSubscription ∘ BatchUnsubscribe <$> de_batch_params value
  | "list_subscriptions" => Some (SaSubscription ListSubscriptions)
  | "set_spread" => SaSetSpread <$> de_value_param value
  | "set_size" => SaSetSize <$> de_value_param value
  | "set_skew" => SaSetSkew <$> de_value_param value
  | "kill" => Some SaKill
  | "enable" => Some SaEnable
  | "record" => SaRecord <$> de_record_param value
  | "replay_bundle" => SaReplayBundle <$> de_replay_bundle_param value
  | _ => None
  end.

Definition parse_frame (text : string) : FrameOutcome :=
  match json_from_str text with
  | None => FoReject (decode_error None "malformed JSON frame")
  | Some value =>
      let request_id := json_get value "request_id" ≫= json_as_str in
      if json_is_object value && has_duplicate_top_level_key text
      then FoReject (decode_error request_id "duplicate top-level field")
      else
        match json_get value "action" ≫= json_as_str with
        | Some action =>
            if is_order_entry_action action then FoReject (order_entry_rejected request_id)
            else
              match action_of_value value with
              | Some action => FoAction action request_id
              | None => FoReject (decode_error request_id "unknown or malformed action")
              end
        | None =>
            if looks_like_order_entry value then FoReject (order_entry_rejected request_id)
            else FoReject (decode_error request_id "missing `action` field")
        end
  end.
End frames.

(** ** The host *)

(** The market-data service among what the actors of the venue share. *)
Class MarketFeed (S : Type) := {
  feed_of : S → OrderbookSubscriptionManager;
  with_feed : OrderbookSubscriptionManager → S → S;
}.

(** [WsFanOut] ([subscription.rs]): the service over the committed events, and the messages it
    has put on the broadcast channel, oldest first.  It never fails. *)
Record WsFanOut := { wf_manager : OrderbookSubscriptionManager; wf_broadcast : list WsMessage }.
Definition WsFanOut_new (g : OrderbookSubscriptionManager) : WsFanOut :=
  {| wf_manager := g; wf_broadcast := [] |}.
Definition ws_emit `{Upstream} (f : WsFanOut) (event : VenueEvent) : WsFanOut :=
  let '(g, _, messages) := on_committed_event (wf_manager f) event in
  {| wf_manager := g; wf_broadcast := wf_broadcast f ++ messages |}.
#[export] Instance WsFanOut_fan_out `{Upstream} : FanOut WsFanOut := λ f event,
  (ws_emit f event, Ok tt).

(** Behind one [Arc]: what the actors of a venue share beside the stores. *)
#[export] Instance WsFanOut_projection : SharedProjection WsFanOut WsFanOut := {
  projection_load p _ := p;
  projection_store f := f;
}.
#[export] Instance SharedState_feed {P} : MarketFeed (SharedState (P * WsFanOut)) := {
  feed_of s := wf_manager (sh_projections s).2;
  with_feed g s :=
    {| sh_projections :=
         ((sh_projections s).1,
          {| wf_manager := g; wf_broadcast := wf_broadcast (sh_projections s).2 |});
       sh_clordid_index := sh_clordid_index s |};
}.

(** [AppState], as a socket uses it: admission, the accounts' epochs, the venue, the replay
    plane. *)
Record Host (S A Q : Type) := {
  ho_auth : AuthService; ho_oracle : Q; ho_venue : Venue S A; ho_plane : ReplayPlane }.
Arguments ho_auth {S A Q}. Arguments ho_oracle {S A Q}.
Arguments ho_venue {S A Q}. Arguments ho_plane {S A Q}.

Definition on_auth {S A Q} (a : AuthService) (h : Host S A Q) : Host S A Q :=
  {| ho_auth := a; ho_oracle := ho_oracle h; ho_venue := ho_venue h; ho_plane := ho_plane h |}.
Definition on_venue {S A Q} (v : Venue S A) (h : Host S A Q) : Host S A Q :=
  {| ho_auth := ho_auth h; ho_oracle := ho_oracle h; ho_venue := v; ho_plane := ho_plane h |}.
Definition on_plane {S A Q} (p : ReplayPlane) (h : Host S A Q) : Host S A Q :=
  {| ho_auth := ho_auth h; ho_oracle := ho_oracle h; ho_venue := ho_venue h; ho_plane := p |}.

Definition manager {S A Q} `{!MarketFeed S} (h : Host S A Q) : OrderbookSubscriptionManager :=
  feed_of (v_shared (ho_venue h)).
Definition on_manager {S A Q} `{!MarketFeed S} (g : OrderbookSubscriptionManager)
    (h : Host S A Q) : Host S A Q :=
  on_venue (with_actors (v_underlyings (ho_venue h)) (with_feed g (v_shared (ho_venue h)))
              (ho_venue h)) h.

(** ** The handshake *)

Definition MAX_WS_FRAME_BYTES : Z := 64 * 1024.
Definition HEARTBEAT_INTERVAL_SECS : Z := 30.
Definition MAX_IDLE_TICKS : Z := 4.

Record WsAuthQuery := {
  waq_ticket : option string; waq_token : option string; waq_access_token : option string }.

Definition non_empty (s : string) : option string :=
  match s with EmptyString => None | _ => Some s end.

(** [header] is the value of [x-ws-ticket] as visible ASCII text, if it is. *)
Definition extract_ticket (header : option string) (query : WsAuthQuery) : option string :=
  match header ≫= non_empty ∘ trim with
  | Some ticket => Some ticket
  | None => waq_ticket query ≫= non_empty
  end.

(** The token of the [authorization] header is [extract_bearer]'s. *)
Definition extract_token (header : option string) (query : WsAuthQuery) : option string :=
  match extract_bearer header with
  | Some token => Some token
  | None =>
      (match waq_token query with Some token => Some token | None => waq_access_token query end)
        ≫= non_empty
  end.

(** The upgrade, the refusal of a full server, or an error's own response. *)
Inductive WsResponse :=
  | WrUpgrade (claims : Claims) (headers : list (string * Z))
  | WrFull (headers : list (string * Z))
  | WrError (error : VenueError) (headers : list (string * Z)).

Definition ws_response_status (r : WsResponse) : Z :=
  match r with WrUpgrade _ _ => 101 | WrFull _ => 503 | WrError e _ => http_status e end.

Section handshake.
Context {S A Q : Type} `{!MarketFeed S, !RevocationOracle Q, !CredentialLib}.

Definition ws_handler (ticket_header authorization : option string) (query : WsAuthQuery)
    (peer : option IpAddr) (ck : Clocks) (h : Host S A Q) : Host S A Q * WsResponse :=
  let peer_ip := extract_peer peer in
  let '(a, admission) :=
    match extract_ticket ticket_header query with
    | Some ticket => admit_ws_ticket (ho_oracle h) ticket peer_ip ck (ho_auth h)
    | None =>
        admit_bearer (ho_oracle h) "/ws" (extract_token authorization query) peer_ip PermRead ck
          (ho_auth h)
    end in
  let h := on_auth a h in
  match admission with
  | AdmissionGranted identity rate_limit =>
      match try_acquire_connection (manager h) with
      | (_, false) => (h, WrFull (apply_headers rate_limit))
      | (g, true) => (on_manager g h, WrUpgrade (au_claims identity) (apply_headers rate_limit))
      end
  | AdmissionRejected error rate_limit =>
      (h, WrError error (match rate_limit with Some d => apply_headers d | None => [] end))
  | Exempt => (h, WrError Unauthorized [])
  end.
End handshake.

(** ** Actions on a connection *)

Record ControlKnobs := {
  ck_spread_multiplier : option f64; ck_size_scalar : option f64;
  ck_directional_skew : option f64; ck_enabled : option bool }.

Definition spread_knob (value : f64) : ControlKnobs :=
  {| ck_spread_multiplier := Some value; ck_size_scalar := None; ck_directional_skew := None;
     ck_enabled := None |}.
Definition size_knob (value : f64) : ControlKnobs :=
  {| ck_spread_multiplier := None; ck_size_scalar := Some value; ck_directional_skew := None;
     ck_enabled := None |}.
Definition skew_knob (value : f64) : ControlKnobs :=
  {| ck_spread_multiplier := None; ck_size_scalar := None; ck_directional_skew := Some value;
     ck_enabled := None |}.
Definition enabled_knob (value : bool) : ControlKnobs :=
  {| ck_spread_multiplier := None; ck_size_scalar := None; ck_directional_skew := None;
     ck_enabled := Some value |}.

Definition knobs_command (k : ControlKnobs) : VenueCommand :=
  MarketMakerControl (ck_spread_multiplier k) (ck_size_scalar k) (ck_directional_skew k)
    (ck_enabled k).

(** The readings of one turn: the clocks of admission, the heartbeat's milliseconds, and
    whether the blocking thread of a replay came back. *)
Record TurnReading := { tr_clocks : Clocks; tr_millis : EventTimestamp; tr_joined : bool }.

(** The connection's claims beside its subscriptions. *)
Record SocketConnection := { sc_claims : Claims; sc_connection : Connection }.
Definition with_connection (c : Connection) (s : SocketConnection) : SocketConnection :=
  {| sc_claims := sc_claims s; sc_connection := c |}.

Section actions.
Context {S A Q : Type}.
Context `{!ActorService S A, !SnapshotService A, !MarketFeed S, !RevocationOracle Q}.
Context `{!Upstream, !MarkPriceCalculator, !Serde, !Dependencies}.
Context (config_display : MicrostructureConfigError → string).
Notation host := (Host S A Q).

(** The rate limiter first, the permission second; [Some] is the refusal. *)
Definition admit_control (claims : Claims) (request_id : option string) (r : TurnReading)
    (h : host) : host * option WsMessage :=
  let '(a, decision) := check_limit (account_key claims) (tr_clocks r) (ho_auth h) in
  let h := on_auth a h in
  if negb (rd_allowed decision)
  then (h, Some (WsErrorMessage (ws_error RateLimited request_id)))
  else if negb (claims_has_permission claims PermAdmin)
  then (h, Some (WsErrorMessage (ws_error (Forbidden PermAdmin) request_id)))
  else (h, None).

Definition config_message (k : ControlKnobs) (receipt : Receipt) : WsMessage :=
  let fanout := fanout_of receipt in
  WsConfig (default true (ck_enabled k)) (default (f64_of_Z 1) (ck_spread_multiplier k))
    (default (f64_of_Z 1) (ck_size_scalar k)) (default (f64_of_Z 0) (ck_directional_skew k))
    (Some (ok_count fanout)) (Some (fanout_total fanout)) (Some (fully_applied fanout)).

Definition control (claims : Claims) (k : ControlKnobs) (request_id : option string)
    (r : TurnReading) (h : host) : host * WsMessage :=
  match admit_control claims request_id r h with
  | (h, Some error) => (h, error)
  | (h, None) =>
      match validate_control_knobs (ck_spread_multiplier k) (ck_size_scalar k)
              (ck_directional_skew k) with
      | Err reason => (h, WsErrorMessage (ws_error (VInvalidOrder reason) request_id))
      | Ok _ =>
          match submit (knobs_command k) (ho_venue h) with
          | (v, Err error) => (on_venue v h, WsErrorMessage (ws_error error request_id))
          | (v, Ok receipt) =>
              (on_venue v h,
               match receipt_outcome receipt with
               | Some (Rejected _ reason) =>
                   WsErrorMessage (ws_error (VInvalidOrder reason) request_id)
               | _ => config_message k receipt
               end)
          end
      end
  end.

Definition record_control (claims : Claims) (enabled : bool) (request_id : option string)
    (r : TurnReading) (h : host) : host * WsMessage :=
  match admit_control claims request_id r h with
  | (h, Some error) => (h, error)
  | (h, None) =>
      let p := ho_plane h in
      let p := {| rp_lineage_id := rp_lineage_id p; rp_manifest := rp_manifest p;
                  rp_recording := (set_recording enabled (rp_recording p)).1 |} in
      (on_plane p h, WsRecordingState (recording (rp_recording p)))
  end.

Definition replay_control (claims : Claims) (bundle : ScenarioBundle)
    (request_id : option string) (r : TurnReading) (h : host) : host * WsMessage :=
  match admit_control claims request_id r h with
  | (h, Some error) => (h, error)
  | (h, None) =>
      (h, match state_replay_bundle config_display (tr_joined r) bundle with
          | Ok report => WsReplayComplete (to_response report)
          | Err error => WsErrorMessage (ws_error (venue_error_from_replay error) request_id)
          end)
  end.

Definition socket_on_action (action : SocketAction) (request_id : option string)
    (r : TurnReading) (h : host) (c : SocketConnection) :
    host * SocketConnection * list WsMessage :=
  let claims := sc_claims c in
  let answer '(h, m) := (h, c, [m]) in
  match action with
  | SaSubscription action =>
      let '(connection, out) := on_action action (manager h) (sc_connection c) in
      (h, with_connection connection c, out)
  | SaSetSpread value => answer (control claims (spread_knob value) request_id r h)
  | SaSetSize value => answer (control claims (size_knob value) request_id r h)
  | SaSetSkew value => answer (control claims (skew_knob value) request_id r h)
  | SaKill => answer (control claims (enabled_knob false) request_id r h)
  | SaEnable => answer (control claims (enabled_knob true) request_id r h)
  | SaRecord enabled => answer (record_control claims enabled request_id r h)
  | SaReplayBundle bundle => answer (replay_control claims bundle request_id r h)
  end.

(** ** The loop of one socket ([handle_socket]) *)

Context `{!JsonLib}.

(** What was put on the socket. *)
Inductive SocketFrame := SfText (json : string) (message : WsMessage) | SfPing.

(** [so_takes]: the sends the peer still takes; the first one it does not take ends the
    loop. *)
Record Socket := { so_takes : nat; so_sent : list SocketFrame }.

Definition socket_send (f : SocketFrame) (s : Socket) : Socket * bool :=
  match so_takes s with
  | O => (s, false)
  | Datatypes.S n => ({| so_takes := n; so_sent := so_sent s ++ [f] |}, true)
  end.

(** A message that does not serialise is skipped. *)
Definition send_message (m : WsMessage) (s : Socket) : Socket * bool :=
  match json_to_string m with
  | Some json => socket_send (SfText json m) s
  | None => (s, true)
  end.

Definition is_terminal (m : WsMessage) : bool :=
  match m with WsErrorMessage e => wse_terminal e | _ => false end.

(** [true]: the loop ends. *)
Fixpoint send_all (messages : list WsMessage) (s : Socket) : Socket * bool :=
  match messages with
  | [] => (s, false)
  | m :: messages =>
      match send_message m s with
      | (s, false) => (s, true)
      | (s, true) => if is_terminal m then (s, true) else send_all messages s
      end
  end.

(** What the loop selects: a frame or the end of the socket, a broadcast, a heartbeat.  The
    interval's first heartbeat is due at once. *)
Inductive SocketEvent :=
  | SeText (text : string) | SeBinary | SePing | SePong | SeClosed
  | SeBroadcast (message : WsMessage) | SeLagged | SeBroadcastClosed
  | SeHeartbeat.

Record SocketLoop := {
  sl_socket : Socket; sl_conn : SocketConnection; sl_idle_ticks : Z }.

Definition with_socket (s : Socket) (x : SocketLoop) : SocketLoop :=
  {| sl_socket := s; sl_conn := sl_conn x; sl_idle_ticks := sl_idle_ticks x |}.
Definition with_conn (c : SocketConnection) (x : SocketLoop) : SocketLoop :=
  {| sl_socket := sl_socket x; sl_conn := c; sl_idle_ticks := sl_idle_ticks x |}.
Definition with_idle (n : Z) (x : SocketLoop) : SocketLoop :=
  {| sl_socket := sl_socket x; sl_conn := sl_conn x; sl_idle_ticks := n |}.

(** The messages of a turn sent, and whether the loop goes on. *)
Definition deliver_all (messages : list WsMessage) (x : SocketLoop) : SocketLoop * bool :=
  let '(s, closing) := send_all messages (sl_socket x) in (with_socket s x, negb closing).

Definition heartbeat_turn (r : TurnReading) (h : host) (x : SocketLoop) : SocketLoop * bool :=
  match revalidate_session (ho_oracle h) (sc_claims (sl_conn x)) (ck_secs (tr_clocks r)) with
  | Err error =>
      (with_socket (send_message (WsErrorMessage (ws_error error None)) (sl_socket x)).1 x, false)
  | Ok _ =>
      let x := with_idle (default MAX_IDLE_TICKS (checked_add u32 (sl_idle_ticks x) 1)) x in
      if MAX_IDLE_TICKS <=? sl_idle_ticks x then (x, false)
      else
        match send_message (WsHeartbeat (tr_millis r)) (sl_socket x) with
        | (s, false) => (with_socket s x, false)
        | (s, true) => let '(s, taken) := socket_send SfPing s in (with_socket s x, taken)
        end
  end.

Definition turn (event : SocketEvent) (r : TurnReading) (h : host) (x : SocketLoop) :
    host * (SocketLoop * bool) :=
  match event with
  | SeText text =>
      let x := with_idle 0 x in
      match parse_frame text with
      | FoAction action request_id =>
          let '(h, c, messages) := socket_on_action action request_id r h (sl_conn x) in
          (h, deliver_all messages (with_conn c x))
      | FoReject error => (h, deliver_all [WsErrorMessage error] x)
      end
  | SeBinary =>
      (h, deliver_all [WsErrorMessage (decode_error None "binary frames are not supported")]
            (with_idle 0 x))
  | SePing | SePong => (h, (with_idle 0 x, true))
  | SeClosed => (h, (with_idle 0 x, false))
  | SeBroadcast message =>
      let '(c, forward) := conn_filter message (sc_connection (sl_conn x)) in
      let x := with_conn (with_connection c (sl_conn x)) x in
      (h, match forward with
          | Some m => let '(s, taken) := send_message m (sl_socket x) in (with_socket s x, taken)
          | None => (x, true)
          end)
  | SeLagged =>
      let '(c, messages) := resnapshot (manager h) (sc_connection (sl_conn x)) in
      (h, deliver_all messages (with_conn (with_connection c (sl_conn x)) x))
  | SeBroadcastClosed => (h, (x, false))
  | SeHeartbeat => (h, heartbeat_turn r h x)
  end.

(** The first message, before the loop; [None] when it is not taken. *)
Definition open_socket (takes : nat) (claims : Claims) : option SocketLoop :=
  match send_message (WsConnected "connected to fauxchange")
          {| so_takes := takes; so_sent := [] |} with
  | (_, false) => None
  | (s, true) =>
      Some {| sl_socket := s; sl_conn := {| sc_claims := claims; sc_connection := Connection_new |};
              sl_idle_ticks := 0 |}
  end.

(** The turns of a socket, each over the host it finds; [false] once the loop has ended. *)
Fixpoint serve (turns : list (SocketEvent * TurnReading * host)) (x : SocketLoop) :
    SocketLoop * bool :=
  match turns with
  | [] => (x, true)
  | (event, r, h) :: turns =>
      match (turn event r h x).2 with
      | (x, true) => serve turns x
      | (x, false) => (x, false)
      end
  end.

(** The permit dropped with the socket. *)
Definition release_connection (h : host) : host :=
  let g := manager h in
  on_manager {| mg_instruments := mg_instruments g; mg_capacity := mg_capacity g;
                mg_slots := mg_slots g + 1 |} h.
End actions.
