(* ===== verification/SurfaceProps.v ===== *)
(** Theorems on the REST routes beside orders ([RestViews]) and on the WebSocket surface
    ([WsSocket]): what a socket can change, that its controls are those of REST, when it is
    closed and what it has sent by then, the slots of the handshake, the totals of an
    account's views and the counts of the hierarchy. *)

From S2P Require Export WsSocket WsProps ActorProps BootProps.
From S2P Require Import SampleBook StoresProps VenueSample ReplayProps AuthSample.

#[local] Arguments validate_control_knobs : simpl never.
#[local] Arguments submit : simpl never.
#[local] Arguments ws_error : simpl never.
#[local] Arguments check_limit : simpl never.
#[local] Arguments parse_frame : simpl never.
#[local] Arguments deliver_all : simpl never.

(** ** Controls *)

Section controls.
Context {S A Q : Type} {AS : ActorService S A} {SN : SnapshotService A} {MF : MarketFeed S}
  {RO : RevocationOracle Q} {US : Upstream} {MP : MarkPriceCalculator} {SD : Serde}
  {DP : Dependencies} {JL : JsonLib}.
Context (config_display : MicrostructureConfigError → string).
Notation host := (Host S A Q).

(** What is left of a refused control: the limiter's record of it. *)
Lemma admit_control_frame claims rid r (h : host) :
  let '(h', refused) := admit_control claims rid r h in
  ho_venue h' = ho_venue h ∧ ho_plane h' = ho_plane h ∧ ho_oracle h' = ho_oracle h ∧
  (refused = None → claims_has_permission claims PermAdmin = true) ∧
  (∀ m, refused = Some m →
     m = WsErrorMessage (ws_error RateLimited rid) ∨
     m = WsErrorMessage (ws_error (Forbidden PermAdmin) rid) ∧
     claims_has_permission claims PermAdmin = false).
Proof.
  unfold admit_control. destruct (check_limit _ _ _) as [a decision].
  destruct (rd_allowed decision); cbn -[ws_error];
    [destruct (claims_has_permission claims PermAdmin); cbn -[ws_error]|];
    (split_and!; try done; intros m [= <-]; by eauto).
Qed.

(** A control let through: the venue it leaves and its answer. *)
Definition control_answer (k : ControlKnobs) (rid : option string) (v : Venue S A) :
    Venue S A * WsMessage :=
  match validate_control_knobs (ck_spread_multiplier k) (ck_size_scalar k)
          (ck_directional_skew k) with
  | Err reason => (v, WsErrorMessage (ws_error (VInvalidOrder reason) rid))
  | Ok _ =>
      let '(v', answer) := submit (knobs_command k) v in
      (v', match answer with
           | Err e => WsErrorMessage (ws_error e rid)
           | Ok receipt =>
               match receipt_outcome receipt with
               | Some (Rejected _ reason) => WsErrorMessage (ws_error (VInvalidOrder reason) rid)
               | _ => config_message k receipt
               end
           end)
  end.

Lemma control_admitted claims k rid r (h h1 : host) :
  admit_control claims rid r h = (h1, None) →
  let '(h2, m) := control claims k rid r h in
  (ho_venue h2, m) = control_answer k rid (ho_venue h) ∧ ho_plane h2 = ho_plane h ∧
  ho_oracle h2 = ho_oracle h.
Proof.
  intros Ea. pose proof (admit_control_frame claims rid r h) as Ha. unfold control, control_answer.
  rewrite Ea in Ha |- *. destruct Ha as (<- & <- & <- & _).
  destruct (validate_control_knobs (ck_spread_multiplier k) (ck_size_scalar k)
    (ck_directional_skew k)) as [[]|]; [|done].
  by destruct (submit (knobs_command k) (ho_venue h1)) as [v []].
Qed.

(** The one way a socket changes the venue. *)
Definition control_submitted (h h' : host) : Prop :=
  ∃ k, validate_control_knobs (ck_spread_multiplier k) (ck_size_scalar k)
         (ck_directional_skew k) = Ok tt ∧
       ho_venue h' = (submit (knobs_command k) (ho_venue h)).1.

Definition recording_switched (h h' : host) : Prop :=
  ∃ enabled, ho_plane h' =
    {| rp_lineage_id := rp_lineage_id (ho_plane h); rp_manifest := rp_manifest (ho_plane h);
       rp_recording := (set_recording enabled (rp_recording (ho_plane h))).1 |}.

Definition socket_effect (claims : Claims) (h h' : host) : Prop :=
  ho_oracle h' = ho_oracle h ∧
  (ho_venue h' = ho_venue h ∨
     claims_has_permission claims PermAdmin = true ∧ control_submitted h h') ∧
  (ho_plane h' = ho_plane h ∨
     claims_has_permission claims PermAdmin = true ∧ recording_switched h h').

Lemma control_effect claims k rid r (h : host) :
  socket_effect claims h (control claims k rid r h).1.
Proof.
  pose proof (admit_control_frame claims rid r h) as Ha.
  destruct (admit_control claims rid r h) as [h1 [m|]] eqn:Ea;
    destruct Ha as (Hv & Hp & Ho & Hadm & _).
  { unfold control. rewrite Ea. unfold socket_effect. by eauto. }
  pose proof (control_admitted claims k rid r h h1 Ea) as Hc.
  destruct (control claims k rid r h) as [h2 m]. destruct Hc as (Hc & Hp2 & Ho2).
  unfold control_answer in Hc. cbn.
  destruct (validate_control_knobs (ck_spread_multiplier k) (ck_size_scalar k)
    (ck_directional_skew k)) as [[]|] eqn:Ek; [|injection Hc as Hv2 _; unfold socket_effect; by eauto].
  split_and!; [done| |by left]. right. split; [by apply Hadm|]. exists k. split; [done|].
  destruct (submit (knobs_command k) (ho_venue h)) as [v answer]. by injection Hc as -> _.
Qed.

Lemma action_effect action rid r (h : host) c :
  socket_effect (sc_claims c) h (socket_on_action config_display action rid r h c).1.1.
Proof.
  assert (∀ x : host * WsMessage, socket_effect (sc_claims c) h x.1 →
    socket_effect (sc_claims c) h (let '(h, m) := x in (h, c, [m])).1.1) as Hans.
  { by intros []. }
  destruct action; cbn -[on_action control record_control replay_control].
  1: destruct (on_action _ _ _); cbn; unfold socket_effect; by eauto.
  1-5: apply Hans, control_effect.
  - apply Hans. unfold record_control. pose proof (admit_control_frame (sc_claims c) rid r h) as Ha.
    destruct (admit_control _ rid r h) as [h1 [m|]]; destruct Ha as (Hv & Hp & Ho & Hadm & _);
      cbn; unfold socket_effect; cbn; [by eauto|].
    split_and!; [done|by left|right]. split; [by apply Hadm|]. exists enabled. cbn. by rewrite Hp.
  - apply Hans. unfold replay_control. pose proof (admit_control_frame (sc_claims c) rid r h) as Ha.
    destruct (admit_control _ rid r h) as [h1 [m|]]; destruct Ha as (Hv & Hp & Ho & _);
      cbn; unfold socket_effect; by eauto.
Qed.

(** C38. The WebSocket is not an order-entry surface: whatever arrives on a socket and
    whatever the venue broadcasts to it, a turn of its loop leaves the venue as it was, or
    submits one market-maker control with knobs in range for claims that hold Admin; it
    leaves the replay plane as it was but for the recording switch, which needs Admin too;
    the claims of the connection stay those of the handshake.  A frame taken for an action
    names none of the order-entry actions. *)
Theorem socket_changes_controls_only event r (h : host) (x : SocketLoop) :
  socket_effect (sc_claims (sl_conn x)) h (turn config_display event r h x).1 ∧
  sc_claims (sl_conn (turn config_display event r h x).2.1) = sc_claims (sl_conn x) ∧
  ∀ text, match parse_frame text with
          | FoAction _ _ =>
              ∃ value name, json_from_str text = Some value ∧
                json_get value "action" ≫= json_as_str = Some name ∧
                name ∉ ORDER_ENTRY_ACTIONS
          | FoReject e => wse_terminal e = false
          end.
Proof.
  assert (∀ ms y, sc_claims (sl_conn (deliver_all ms y).1) = sc_claims (sl_conn y)) as Hd.
  { intros ms y. unfold deliver_all. by destruct (send_all _ _). }
  assert (socket_effect (sc_claims (sl_conn x)) h h) as Hrefl by (unfold socket_effect; eauto).
  split_and!.
  - destruct event; cbn; try done.
    + destruct (parse_frame text) as [action rid|e]; [|done].
      pose proof (action_effect action rid r h (sl_conn x)) as He. cbn -[socket_on_action] in *.
      by destruct (socket_on_action _ _ _ _ _ _) as [[h' c] ms].
    + by destruct (conn_filter _ _).
    + by destruct (resnapshot _ _).
  - destruct event; cbn; try done.
    + destruct (parse_frame text) as [action rid|e]; cbn; [|apply (Hd _ (with_idle 0 x))].
      destruct (socket_on_action _ _ _ _ _ _) as [[h' c] ms] eqn:Ea. cbn.
      rewrite Hd. cbn. apply (f_equal (sc_claims ∘ snd ∘ fst)) in Ea. cbn in Ea. rewrite <-Ea.
      destruct action; cbn; repeat case_match; done.
    + by rewrite Hd.
    + destruct (conn_filter _ _) as [c [m|]]; cbn; [|done]. by destruct (send_message _ _).
    + destruct (resnapshot _ _) as [c ms]. cbn. by rewrite Hd.
    + unfold heartbeat_turn. by repeat (case_match; cbn).
  - intros text. unfold parse_frame.
    destruct (json_from_str text) as [value|] eqn:Ev; [|done]. cbn -[is_order_entry_action].
    destruct (json_is_object value && _); [done|].
    destruct (json_get value "action" ≫= json_as_str) as [name|] eqn:En.
    + destruct (is_order_entry_action name) eqn:Eo; [done|].
      destruct (action_of_value value); [|done]. exists value, name. split_and!; [done..|].
      intros Hin. unfold is_order_entry_action in Eo. apply not_true_iff_false in Eo. apply Eo.
      apply existsb_exists. exists name. split; [by apply list_elem_of_In|]. by rewrite String.eqb_refl.
    + by destruct (looks_like_order_entry value).
Qed.

(** What the socket answers for an answer of REST: its numbers, or its error. *)
Definition ws_of_parameters (rid : option string) (a : result VenueError UpdateParametersResponse) :
    WsMessage :=
  match a with
  | Ok p =>
      WsConfig true (upr_spread_multiplier p) (upr_size_scalar p) (upr_directional_skew p)
        (Some (upr_ok_count p)) (Some (upr_total p)) (Some (upr_fully_applied p))
  | Err e => WsErrorMessage (ws_error e rid)
  end.
Definition ws_of_switch (rid : option string) (a : result VenueError KillSwitchResponse) :
    WsMessage :=
  match a with
  | Ok p =>
      WsConfig (ks_master_enabled p) (f64_of_Z 1) (f64_of_Z 1) (f64_of_Z 0)
        (Some (ks_ok_count p)) (Some (ks_total p)) (Some (ks_fully_applied p))
  | Err e => WsErrorMessage (ws_error e rid)
  end.

(** The command of [k] came back rejected: the socket says so, REST does not. *)
Definition control_rejected (k : ControlKnobs) (rid : option string) (h : host)
    (m : WsMessage) : Prop :=
  ∃ receipt kind reason, (submit (knobs_command k) (ho_venue h)).2 = Ok receipt ∧
    receipt_outcome receipt = Some (Rejected kind reason) ∧
    m = WsErrorMessage (ws_error (VInvalidOrder reason) rid).

Lemma params_agree k rid (h : host) v m :
  let q := {| upq_spread_multiplier := ck_spread_multiplier k;
              upq_size_scalar := ck_size_scalar k;
              upq_directional_skew := ck_directional_skew k |} in
  let knobs := {| ck_spread_multiplier := ck_spread_multiplier k;
                  ck_size_scalar := ck_size_scalar k;
                  ck_directional_skew := ck_directional_skew k; ck_enabled := None |} in
  ∀ auth, claims_has_permission (au_claims auth) PermAdmin = true →
  (v, m) = control_answer knobs rid (ho_venue h) →
  let params := update_parameters auth q (ho_venue h) in
  v = params.1 ∧ (m = ws_of_parameters rid params.2 ∨ control_rejected knobs rid h m).
Proof.
  intros q knobs auth Hauth H. unfold update_parameters, admin_only, require. rewrite Hauth.
  unfold control_answer in H. cbn in H |- *.
  destruct (validate_control_knobs (ck_spread_multiplier k) (ck_size_scalar k)
    (ck_directional_skew k)) as [[]|e]; [|by injection H as -> ->; eauto].
  unfold control_rejected, submitted. change (MarketMakerControl _ _ _ _) with (knobs_command knobs).
  destruct (submit (knobs_command knobs) (ho_venue h)) as [v' [receipt|e]];
    injection H as -> ->; [|by eauto]. split; [done|].
  destruct (receipt_outcome receipt) as [[]|] eqn:Er; by eauto 10.
Qed.

Lemma switch_agree enabled rid (h : host) v m :
  ∀ auth, claims_has_permission (au_claims auth) PermAdmin = true →
  (v, m) = control_answer (enabled_knob enabled) rid (ho_venue h) →
  let switch := kill_switch auth enabled (ho_venue h) in
  v = switch.1 ∧
  (m = ws_of_switch rid switch.2 ∧ m = ws_of_switch rid (set_enabled auth enabled (ho_venue h)).2 ∨
   control_rejected (enabled_knob enabled) rid h m).
Proof.
  intros auth Hauth H. unfold kill_switch, set_enabled, admin_only, require. rewrite Hauth.
  unfold control_answer in H. change (validate_control_knobs _ _ _) with (Ok tt : result string unit) in H.
  unfold control_rejected, submitted.
  change (MarketMakerControl None None None (Some enabled)) with (knobs_command (enabled_knob enabled)).
  destruct (submit (knobs_command _) (ho_venue h)) as [v' [receipt|e]];
    injection H as -> ->; [|by eauto]. split; [done|].
  destruct (receipt_outcome receipt) as [[]|] eqn:Er; by eauto 10.
Qed.

(** A control over a socket is the control over REST: once the limiter and the Admin
    permission let it through, the three knobs leave the venue that [update_parameters]
    leaves and answer its numbers or its error, and [kill] and [enable] those of the two
    switch routes; they differ only on a receipt whose outcome is a rejection.  Without
    Admin each of the routes and the socket's controls leave the venue as it was and say
    forbidden, the socket unless its limiter refused it first. *)
Theorem controls_agree claims k enabled rid r (h : host) :
  let auth := {| au_claims := claims |} in
  let q := {| upq_spread_multiplier := ck_spread_multiplier k;
              upq_size_scalar := ck_size_scalar k;
              upq_directional_skew := ck_directional_skew k |} in
  let knobs := {| ck_spread_multiplier := ck_spread_multiplier k;
                  ck_size_scalar := ck_size_scalar k;
                  ck_directional_skew := ck_directional_skew k; ck_enabled := None |} in
  let '(h1, refused) := admit_control claims rid r h in
  let params := update_parameters auth q (ho_venue h) in
  let switch := kill_switch auth enabled (ho_venue h) in
  let switch' := set_enabled auth enabled (ho_venue h) in
  let ws_params := control claims knobs rid r h in
  let ws_switch := control claims (enabled_knob enabled) rid r h in
  if claims_has_permission claims PermAdmin then
    switch'.1 = switch.1 ∧
    match refused with
    | Some m => ws_params = (h1, m) ∧ ws_switch = (h1, m) ∧ m = WsErrorMessage (ws_error RateLimited rid)
    | None =>
        ho_venue ws_params.1 = params.1 ∧ ho_venue ws_switch.1 = switch.1 ∧
        (ws_params.2 = ws_of_parameters rid params.2 ∨ control_rejected knobs rid h ws_params.2) ∧
        (ws_switch.2 = ws_of_switch rid switch.2 ∧ ws_switch.2 = ws_of_switch rid switch'.2 ∨
         control_rejected (enabled_knob enabled) rid h ws_switch.2)
    end
  else
    params = (ho_venue h, Err (Forbidden PermAdmin)) ∧
    switch = (ho_venue h, Err (Forbidden PermAdmin)) ∧
    switch' = (ho_venue h, Err (Forbidden PermAdmin)) ∧
    ws_params.1 = h1 ∧ ws_switch.1 = h1 ∧ ws_params.2 = ws_switch.2 ∧
    (refused = Some (WsErrorMessage (ws_error RateLimited rid)) ∨
     refused = Some (WsErrorMessage (ws_error (Forbidden PermAdmin) rid))) ∧
    refused = Some ws_params.2.
Proof.
  intros auth q knobs. pose proof (admit_control_frame claims rid r h) as Ha.
  destruct (admit_control claims rid r h) as [h1 refused] eqn:Ea.
  destruct Ha as (Hv & _ & _ & Hadm & Hm).
  destruct (claims_has_permission claims PermAdmin) eqn:Ep.
  - split.
    { unfold set_enabled, kill_switch, admin_only, require, submitted. cbn. rewrite Ep.
      by destruct (submit _ _) as [v []]. }
    destruct refused as [m|].
    + unfold control. rewrite Ea. split_and!; [done..|]. by destruct (Hm m eq_refl) as [|[_ ?]].
    + pose proof (control_admitted claims knobs rid r h h1 Ea) as H1.
      pose proof (control_admitted claims (enabled_knob enabled) rid r h h1 Ea) as H2.
      destruct (control claims knobs rid r h) as [h2 m2], (control claims _ rid r h) as [h3 m3].
      destruct H1 as [H1 _], H2 as [H2 _].
      apply (params_agree k rid h _ _ auth Ep) in H1. apply (switch_agree enabled rid h _ _ auth Ep) in H2.
      split_and!; [apply H1|apply H2|apply H1|apply H2].
  - unfold update_parameters, set_enabled, kill_switch, admin_only, require. cbn. rewrite Ep.
    destruct refused as [m|]; [|by discriminate Hadm]. unfold control. rewrite Ea.
    split_and!; [done..| |done]. destruct (Hm m eq_refl) as [->|[-> _]]; by eauto.
Qed.

(** ** The loop of a socket *)

Definition frame_terminal (f : SocketFrame) : bool :=
  match f with SfText _ m => is_terminal m | SfPing => false end.

(** The frames a turn added, the loop going on or not after them: only the last may be
    terminal, and then the loop ends. *)
Record frames_sent (before after : Socket) (new : list SocketFrame) (goes_on : bool) : Prop := {
  fs_sent : so_sent after = so_sent before ++ new;
  fs_quiet : goes_on = true → Forall (λ f, frame_terminal f = false) new;
  fs_last : Forall (λ f, frame_terminal f = false) (removelast new);
}.

Lemma frames_none s b : frames_sent s s [] b.
Proof. split; [by rewrite app_nil_r|by constructor..]. Qed.

Lemma frames_quiet s1 s2 new b :
  so_sent s2 = so_sent s1 ++ new → Forall (λ f, frame_terminal f = false) new →
  frames_sent s1 s2 new b.
Proof.
  intros Hs Hq. split; [done..|]. destruct new as [|f new _] using rev_ind; [constructor|].
  rewrite removelast_last. by apply Forall_app in Hq as [? _].
Qed.

Lemma frames_trans s1 s2 s3 n1 n2 b :
  frames_sent s1 s2 n1 true → frames_sent s2 s3 n2 b → frames_sent s1 s3 (n1 ++ n2) b.
Proof.
  intros [H1 Hq1 _] [H2 Hq2 Hl2]. specialize (Hq1 eq_refl). split.
  - by rewrite H2, H1, app_assoc.
  - intros Hb. apply Forall_app. eauto.
  - destruct n2 as [|f n2 _] using rev_ind.
    + rewrite app_nil_r. by apply (fs_last s1 s2 n1 true), frames_quiet.
    + rewrite removelast_last in Hl2. rewrite app_assoc, removelast_last. by apply Forall_app.
Qed.

Lemma socket_send_frames f s :
  let '(s', taken) := socket_send f s in
  so_sent s' = so_sent s ++ (if taken then [f] else []).
Proof. unfold socket_send. destruct (so_takes s); cbn; [by rewrite app_nil_r|done]. Qed.

Lemma send_message_frames m s :
  let '(s', taken) := send_message m s in
  ∃ new, so_sent s' = so_sent s ++ new ∧ (new = [] ∨ ∃ json, new = [SfText json m]).
Proof.
  unfold send_message. destruct (json_to_string m) as [json|]; [|by exists []; rewrite app_nil_r; eauto].
  pose proof (socket_send_frames (SfText json m) s) as H. destruct (socket_send _ s) as [s' []]; eauto.
Qed.

Lemma send_message_quiet m s b :
  is_terminal m = false → ∃ new, frames_sent s (send_message m s).1 new b.
Proof.
  intros Hm. pose proof (send_message_frames m s) as H. destruct (send_message m s) as [s' taken].
  destruct H as (new & Hs & [->|[json ->]]); eexists; (apply frames_quiet; [done|]); by repeat constructor.
Qed.

Lemma send_message_last m s : ∃ new, frames_sent s (send_message m s).1 new false.
Proof.
  pose proof (send_message_frames m s) as H. destruct (send_message m s) as [s' taken].
  destruct H as (new & Hs & [->|[json ->]]); eexists; (split; [done|done|constructor]).
Qed.

Lemma send_all_frames ms s :
  let '(s', closing) := send_all ms s in ∃ new, frames_sent s s' new (negb closing).
Proof.
  revert s. induction ms as [|m ms IH]; intros s; [by exists []; apply frames_none|]. cbn.
  pose proof (send_message_last m s) as Hl. pose proof (send_message_quiet m s true) as Hq.
  destruct (send_message m s) as [s1 []]; [|done]. cbn in *.
  destruct (is_terminal m); [done|]. destruct (Hq eq_refl) as [n1 H1]. specialize (IH s1).
  destruct (send_all ms s1) as [s2 closing]. destruct IH as [n2 H2].
  exists (n1 ++ n2). by eapply frames_trans.
Qed.

Lemma deliver_all_frames ms x :
  let '(x', goes_on) := deliver_all ms x in
  ∃ new, frames_sent (sl_socket x) (sl_socket x') new goes_on.
Proof.
  unfold deliver_all. pose proof (send_all_frames ms (sl_socket x)) as H.
  by destruct (send_all ms (sl_socket x)).
Qed.

(** What the filter forwards is market data. *)
Lemma conn_filter_quiet message c m :
  (conn_filter message c).2 = Some m → is_terminal m = false.
Proof.
  unfold conn_filter. intros H. by destruct message; cbn in H; repeat case_match; simplify_eq/=.
Qed.

Lemma heartbeat_frames r (h : host) x :
  let '(x', goes_on) := heartbeat_turn r h x in
  ∃ new, frames_sent (sl_socket x) (sl_socket x') new goes_on.
Proof.
  unfold heartbeat_turn. destruct (revalidate_session _ _ _) as [[]|e]; [|apply send_message_last].
  destruct (_ <=? _); [by exists []; apply frames_none|].
  pose proof (send_message_quiet (WsHeartbeat (tr_millis r)) (sl_socket x) true eq_refl) as [n1 H1].
  pose proof (send_message_quiet (WsHeartbeat (tr_millis r)) (sl_socket x) false eq_refl) as [n1' H1'].
  cbn. destruct (send_message _ (sl_socket x)) as [s1 []]; [|by exists n1'].
  pose proof (socket_send_frames SfPing s1) as H2. destruct (socket_send SfPing s1) as [s2 taken].
  exists (n1 ++ if taken then [SfPing] else []). eapply frames_trans; [done|].
  apply frames_quiet; [done|]. by destruct taken; repeat constructor.
Qed.

Lemma turn_frames event r (h : host) x :
  let '(x', goes_on) := (turn config_display event r h x).2 in
  ∃ new, frames_sent (sl_socket x) (sl_socket x') new goes_on.
Proof.
  destruct event; cbn; try (by exists []; apply frames_none).
  - destruct (parse_frame text) as [action rid|e]; [|apply (deliver_all_frames _ (with_idle 0 x))].
    destruct (socket_on_action _ _ _ _ _ _) as [[h' c] ms]. cbn.
    apply (deliver_all_frames ms (with_conn c (with_idle 0 x))).
  - apply (deliver_all_frames _ (with_idle 0 x)).
  - pose proof (conn_filter_quiet message (sc_connection (sl_conn x))) as Hm.
    destruct (conn_filter _ _) as [c [m|]]; cbn; [|by exists []; apply frames_none].
    pose proof (λ b, send_message_quiet m (sl_socket x) b (Hm m eq_refl)) as Hq.
    destruct (send_message m (sl_socket x)) as [s' taken]. apply (Hq taken).
  - destruct (resnapshot _ _) as [c ms]. cbn.
    apply (deliver_all_frames ms (with_conn (with_connection c (sl_conn x)) x)).
  - apply heartbeat_frames.
Qed.

(** Nothing follows a terminal error: over any turns of a socket, whatever the host is at
    each, the frames sent extend those sent before, only the last of them may be a terminal
    error, and when the loop still goes on there is none.  A heartbeat that finds the claims
    expired, revoked or unknown ends the loop in that turn, having sent at most the
    unauthorized error, which is terminal; any other heartbeat counts one idle tick. *)
Theorem terminal_error_is_last turns (x : SocketLoop) :
  (∃ new, frames_sent (sl_socket x) (sl_socket (serve config_display turns x).1) new
            (serve config_display turns x).2) ∧
  ∀ r (h : host),
    (if (cl_exp (sc_claims (sl_conn x)) <=? ck_secs (tr_clocks r)) ||
        negb (epoch_current (ho_oracle h) (sc_claims (sl_conn x)))
     then ∃ x', (turn config_display SeHeartbeat r h x).2 = (x', false) ∧
       (so_sent (sl_socket x') = so_sent (sl_socket x) ∨
        ∃ json m, so_sent (sl_socket x') = so_sent (sl_socket x) ++ [SfText json m] ∧
          m = WsErrorMessage (ws_error Unauthorized None) ∧ is_terminal m = true)
     else sl_idle_ticks (turn config_display SeHeartbeat r h x).2.1 =
          default MAX_IDLE_TICKS (checked_add u32 (sl_idle_ticks x) 1)).
Proof.
  split.
  - revert x. induction turns as [|[[event r] h] turns IH]; intros x; [by exists []; apply frames_none|].
    cbn. pose proof (turn_frames event r h x) as Ht.
    destruct (turn config_display event r h x).2 as [x1 []]; [|done]. destruct Ht as [n1 H1].
    destruct (IH x1) as [n2 H2]. exists (n1 ++ n2). by eapply frames_trans.
  - intros r h. cbn. unfold heartbeat_turn, revalidate_session.
    assert (∀ e : VenueError, e = Unauthorized →
      let s := (send_message (WsErrorMessage (ws_error e None)) (sl_socket x)).1 in
      so_sent s = so_sent (sl_socket x) ∨
      ∃ json m, so_sent s = so_sent (sl_socket x) ++ [SfText json m] ∧
        m = WsErrorMessage (ws_error Unauthorized None) ∧ is_terminal m = true) as Hs.
    { intros e -> s. pose proof (send_message_frames (WsErrorMessage (ws_error Unauthorized None))
        (sl_socket x)) as H. subst s. destruct (send_message _ _) as [s taken]. cbn.
      destruct H as (new & H & [->|[json ->]]); [left; by rewrite H, app_nil_r|right; by eauto 10]. }
    destruct (_ <=? _); [|destruct (epoch_current _ _)]; cbn.
    1,3: eexists; split; [done|]; by apply Hs.
    destruct (_ <=? _); [done|]. destruct (send_message _ _) as [s []]; [|done]. by destruct (socket_send _ _).
Qed.

(** What resets the idle count: anything read from the socket. *)
Definition is_inbound (e : SocketEvent) : bool :=
  match e with SeText _ | SeBinary | SePing | SePong | SeClosed => true | _ => false end.
Definition is_heartbeat (e : SocketEvent) : bool :=
  match e with SeHeartbeat => true | _ => false end.
Definition heartbeats (turns : list (SocketEvent * TurnReading * host)) : Z :=
  Z.of_nat (length (filter (λ t, is_heartbeat t.1.1 = true) turns)).

Lemma deliver_all_idle ms x : sl_idle_ticks (deliver_all ms x).1 = sl_idle_ticks x.
Proof. unfold deliver_all. by destruct (send_all _ _). Qed.

Ltac deliver_idle := cbn;
  match goal with |- context [deliver_all ?ms ?y] =>
    pose proof (deliver_all_idle ms y) as Hd; destruct (deliver_all ms y);
    cbn in Hd |- *; intros _; lia
  end.

Lemma turn_idle event r (h : host) x :
  0 ≤ sl_idle_ticks x < MAX_IDLE_TICKS →
  let '(x', goes_on) := (turn config_display event r h x).2 in
  goes_on = true →
  0 ≤ sl_idle_ticks x' < MAX_IDLE_TICKS ∧
  sl_idle_ticks x' = (if is_inbound event then 0 else sl_idle_ticks x) +
                     (if is_heartbeat event then 1 else 0).
Proof.
  unfold MAX_IDLE_TICKS. intros Hx. destruct event; cbn; try (intros; lia).
  - destruct (parse_frame text) as [action rid|e]; [|deliver_idle].
    destruct (socket_on_action _ _ _ _ _ _) as [[h' c] ms]. deliver_idle.
  - deliver_idle.
  - destruct (conn_filter _ _) as [c [m|]]; cbn; [destruct (send_message _ _); cbn|]; intros; lia.
  - destruct (resnapshot _ _) as [c ms]. deliver_idle.
  - unfold heartbeat_turn. destruct (revalidate_session _ _ _) as [[]|e]; [|done].
    unfold checked_add. rewrite narrow_fits by (unfold has_ty; cbn; lia). cbn.
    destruct (Z.leb_spec MAX_IDLE_TICKS (sl_idle_ticks x + 1)); [done|]. unfold MAX_IDLE_TICKS in *.
    destruct (send_message _ _) as [s []]; [|done]. destruct (socket_send _ _). cbn. intros _. lia.
Qed.

Lemma serve_app t1 t2 (x : SocketLoop) :
  serve config_display (t1 ++ t2) x =
  match serve config_display t1 x with
  | (x', true) => serve config_display t2 x'
  | closed => closed
  end.
Proof.
  revert x. induction t1 as [|[[event r] h] t1 IH]; intros x; [done|]. cbn.
  by destruct (turn config_display event r h x).2 as [x1 []].
Qed.

Lemma serve_idle turns (x : SocketLoop) :
  0 ≤ sl_idle_ticks x < MAX_IDLE_TICKS →
  let '(x', goes_on) := serve config_display turns x in
  goes_on = true → 0 ≤ sl_idle_ticks x' < MAX_IDLE_TICKS.
Proof.
  revert x. induction turns as [|[[event r] h] turns IH]; intros x Hx; [by intros _|]. cbn.
  pose proof (turn_idle event r h x Hx) as Ht.
  destruct (turn config_display event r h x).2 as [x1 []]; [|done]. apply IH. by apply Ht.
Qed.

Lemma serve_quiet turns (x : SocketLoop) :
  0 ≤ sl_idle_ticks x < MAX_IDLE_TICKS →
  Forall (λ t, is_inbound t.1.1 = false) turns →
  let '(x', goes_on) := serve config_display turns x in
  goes_on = true → sl_idle_ticks x' = sl_idle_ticks x + heartbeats turns.
Proof.
  intros Hx Hq. revert x Hx. induction Hq as [|[[event r] h] turns Hi Hq IH]; intros x Hx.
  { intros _. change (heartbeats []) with 0. lia. }
  cbn. pose proof (turn_idle event r h x Hx) as Ht.
  destruct (turn config_display event r h x).2 as [x1 []]; [|done].
  destruct (Ht eq_refl) as [Hx1 He]. specialize (IH x1 Hx1). cbn in Hi. rewrite Hi in He.
  destruct (serve config_display turns x1) as [x2 goes_on]. intros Hg. rewrite (IH Hg), He.
  unfold heartbeats. rewrite filter_cons. cbn [fst].
  destruct (is_heartbeat event); [rewrite decide_True by done|rewrite decide_False by done];
    cbn [length]; lia.
Qed.

(** An idle socket is closed: whatever was served before, a socket from which nothing is
    read over four heartbeats, whatever is broadcast in between, has its loop ended. *)
Theorem idle_socket_closed takes claims x turns quiet
    (Hopen : open_socket takes claims = Some x)
    (Hquiet : Forall (λ t, is_inbound t.1.1 = false) quiet)
    (Hbeats : MAX_IDLE_TICKS ≤ heartbeats quiet) :
  (serve config_display (turns ++ quiet) x).2 = false.
Proof.
  assert (sl_idle_ticks x = 0) as Hx.
  { unfold open_socket in Hopen. destruct (send_message _ _) as [s []]; by simplify_eq. }
  rewrite serve_app. pose proof (serve_idle turns x) as Ht. rewrite Hx in Ht.
  destruct (serve config_display turns x) as [x1 []]; [|done].
  assert (0 ≤ sl_idle_ticks x1 < MAX_IDLE_TICKS) as Hx1 by (apply Ht; done).
  pose proof (serve_quiet quiet x1 Hx1 Hquiet) as Hq. pose proof (serve_idle quiet x1 Hx1) as Hi.
  destruct (serve config_display quiet x1) as [x2 []]; [|done].
  specialize (Hq eq_refl). specialize (Hi eq_refl). lia.
Qed.
End controls.

(** ** The slots of the handshake *)

Class MarketFeedLaws (S : Type) `{MarketFeed S} : Prop :=
  feed_of_with g s : feed_of (with_feed g s) = g.

#[export] Instance SharedState_feed_laws {P} : MarketFeedLaws (SharedState (P * WsFanOut)).
Proof. done. Qed.

Section slots.
Context {S A Q : Type} {MF : MarketFeed S} {ML : MarketFeedLaws S} {RO : RevocationOracle Q}
  {CL : CredentialLib}.
Notation host := (Host S A Q).

(** The open sockets beside the host: a handshake, a socket's end, anything else of the
    process that leaves the slots alone. *)
Inductive slots_step : host * Z → host * Z → Prop :=
  | slot_taken ticket authorization query peer ck h h' claims headers n :
      ws_handler ticket authorization query peer ck h = (h', WrUpgrade claims headers) →
      slots_step (h, n) (h', n + 1)
  | slot_refused ticket authorization query peer ck h h' r n :
      ws_handler ticket authorization query peer ck h = (h', r) → ws_response_status r ≠ 101 →
      slots_step (h, n) (h', n)
  | slot_released h n : 0 < n → slots_step (h, n) (release_connection h, n - 1)
  | slots_untouched h h' n :
      mg_slots (manager h') = mg_slots (manager h) → slots_step (h, n) (h', n).

Lemma manager_on_manager g (h : host) : manager (on_manager g h) = g.
Proof. apply feed_of_with. Qed.

Lemma ws_handler_slots ticket authorization query peer ck (h : host) :
  let '(h', r) := ws_handler ticket authorization query peer ck h in
  match r with
  | WrUpgrade _ _ =>
      0 < mg_slots (manager h) ∧ mg_slots (manager h') = mg_slots (manager h) - 1
  | WrFull _ => mg_slots (manager h) ≤ 0 ∧ manager h' = manager h
  | WrError _ _ => manager h' = manager h
  end.
Proof.
  unfold ws_handler. destruct (match extract_ticket _ _ with Some _ => _ | None => _ end) as [a adm].
  destruct adm as [|identity d|]; [done| |done]. unfold try_acquire_connection.
  change (manager (on_auth a h)) with (manager h).
  destruct (Z.ltb_spec 0 (mg_slots (manager h))); [|done]. by rewrite manager_on_manager.
Qed.

(** The connection limit holds: from a process with no socket open, whatever the order of
    handshakes, ends of sockets and everything else, the open sockets and the free slots make
    up the slots there were, so never more sockets than slots; and a handshake whose
    credential is good is refused with 503 exactly when no slot is free. *)
Theorem connections_bounded (h h' : host) n
    (Hfree : 0 ≤ mg_slots (manager h)) (Hrun : rtc slots_step (h, 0) (h', n)) :
  mg_slots (manager h') + n = mg_slots (manager h) ∧ 0 ≤ n ≤ mg_slots (manager h) ∧
  ∀ ticket authorization query peer ck,
    match (ws_handler ticket authorization query peer ck h').2 with
    | WrFull _ => n = mg_slots (manager h)
    | WrUpgrade _ _ => n < mg_slots (manager h)
    | WrError _ _ => True
    end.
Proof.
  assert (mg_slots (manager h') + n = mg_slots (manager h) ∧ 0 ≤ n ∧ 0 ≤ mg_slots (manager h'))
    as (Hs & Hn & Hf).
  { change ((λ x : host * Z, mg_slots (manager x.1) + x.2 = mg_slots (manager h) ∧ 0 ≤ x.2 ∧
      0 ≤ mg_slots (manager x.1)) (h', n)).
    eapply (rtc_ind_r _ (h, 0)); [cbn; lia| |exact Hrun].
    intros y z _ Hstep (IH1 & IH2 & IH3). destruct Hstep as [t au q p ck h1 h2 cl hs m Hw|
      t au q p ck h1 h2 r m Hw Hr|h1 m Hm|h1 h2 m Hm]; cbn in *.
    - pose proof (ws_handler_slots t au q p ck h1) as Hk. rewrite Hw in Hk. lia.
    - pose proof (ws_handler_slots t au q p ck h1) as Hk. rewrite Hw in Hk.
      destruct r; [done|destruct Hk as [_ ->]; lia|rewrite Hk; lia].
    - unfold release_connection. rewrite manager_on_manager. cbn. lia.
    - lia. }
  split_and!; [done..|lia|]. intros t au q p ck. pose proof (ws_handler_slots t au q p ck h') as Hk.
  destruct (ws_handler t au q p ck h') as [h2 []]; cbn in *; [lia|lia|done].
Qed.
End slots.

(** ** Hierarchy *)

Lemma size_partition `{Countable A, Countable B} (X : gset (A * B)) (L : list A)
    (g : A → list B) :
  NoDup L → (∀ a, NoDup (g a)) → (∀ a b, (a, b) ∈ X ↔ a ∈ L ∧ b ∈ g a) →
  Z.of_nat (size X) = sum_Z ((λ a, Z.of_nat (length (g a))) <$> L).
Proof.
  intros HL Hg HX.
  assert (X = list_to_set (L ≫= λ a, (λ b, (a, b)) <$> g a)) as ->.
  { apply set_eq. intros [a b]. rewrite HX, elem_of_list_to_set, list_elem_of_bind. split.
    - intros [Ha Hb]. exists a. split; [|done]. by apply list_elem_of_fmap_2.
    - intros (a' & (b' & [= <- <-] & Hb)%list_elem_of_fmap & Ha). done. }
  clear HX. rewrite size_list_to_set.
  - clear HL. induction L as [|a L IH]; [done|]. rewrite bind_cons, fmap_cons, sum_Z_cons, length_app, length_fmap. lia.
  - induction HL as [|a L Ha HL IH]; [constructor|]. cbn. apply NoDup_app. split_and!; [| |done].
    + apply NoDup_fmap; [|done]. by intros ?? [= ].
    + intros [a' b] (b' & [= -> ->] & _)%list_elem_of_fmap
        (a2 & (b2 & [= <- _] & _)%list_elem_of_fmap & Ha2)%list_elem_of_bind. done.
Qed.

Lemma elem_of_in_order `{Countable K} leb (l : list K) x : x ∈ in_order leb l ↔ x ∈ l.
Proof. unfold in_order. by rewrite elem_of_sort_by_key, elem_of_elements, elem_of_list_to_set. Qed.

Lemma NoDup_in_order `{Countable K} leb (l : list K) : NoDup (in_order leb l).
Proof. unfold in_order. rewrite sort_by_key_perm. apply NoDup_elements. Qed.

Lemma in_order_ascends `{Countable K} leb `{!TotalLeb leb} (l : list K) :
  StronglySorted (λ x y, leb x y = true ∧ x ≠ y) (in_order leb l).
Proof.
  pose proof (sort_by_key_sorted leb id (elements (list_to_set l : gset K))) as Hs.
  pose proof (NoDup_in_order leb l) as Hd. unfold in_order in *. unfold key_sorted in Hs.
  induction Hs as [|x l' Hl IH Hx]; constructor; apply NoDup_cons in Hd as [Hn Hd]; [by apply IH|].
  apply Forall_forall. intros y Hy. rewrite Forall_forall in Hx. split; [by apply Hx|].
  intros ->. done.
Qed.

Section hierarchy.
Context {US : Upstream}.

(** The contracts of an underlying, without their style. *)
Definition listed (symbols : list string) (underlying : string) : gset (string * Z) :=
  list_to_set ((λ p, (ps_expiration_str p, ps_strike p)) <$>
    filter (λ p, ps_underlying p = underlying) (parsed_symbols symbols)).

Lemma elem_of_expirations_for symbols underlying e :
  e ∈ expirations_for symbols underlying ↔ ∃ k, (e, k) ∈ listed symbols underlying.
Proof.
  unfold expirations_for, listed. rewrite elem_of_in_order, list_elem_of_fmap.
  setoid_rewrite elem_of_list_to_set. setoid_rewrite list_elem_of_fmap. split.
  - intros (p & -> & Hp). by exists (ps_strike p), p.
  - intros (k & p & [= -> ->] & Hp). by exists p.
Qed.

Lemma elem_of_strikes_for symbols underlying e k :
  k ∈ strikes_for symbols underlying e ↔ (e, k) ∈ listed symbols underlying.
Proof.
  unfold strikes_for, listed. rewrite elem_of_in_order, elem_of_list_to_set, !list_elem_of_fmap.
  setoid_rewrite list_elem_of_filter. split.
  - intros (p & -> & [[<- <-] Hp]). by exists p.
  - intros (p & [= -> ->] & <- & Hp). by exists p.
Qed.

(** The distinct values of [f] over the symbols that parse. *)
Definition distinct `{Countable K} (f : ParsedSymbol → K) (symbols : list string) : list K :=
  elements (list_to_set (f <$> parsed_symbols symbols) : gset K).

Lemma elem_of_distinct `{Countable K} (f : ParsedSymbol → K) symbols x :
  x ∈ distinct f symbols ↔ ∃ p, x = f p ∧ p ∈ parsed_symbols symbols.
Proof. unfold distinct. by rewrite elem_of_elements, elem_of_list_to_set, list_elem_of_fmap. Qed.

(** The hierarchy the routes report is that of the symbols listed: an underlying's strike
    count is the number of its distinct pairs of expiration and strike and its expiration
    count that of its distinct expirations, an unhosted one is not found; the statistics count
    the same, summed; the rows of an option chain are exactly the strikes listed for that
    expiration, each once, ascending. *)
Theorem hierarchy_counts {S A} `{!ActorService S A} (v : Venue S A) symbols underlying :
  match get_underlying v symbols underlying with
  | Ok s =>
      underlying ∈ dom (v_underlyings v) ∧
      us_total_strike_count s = Z.of_nat (size (listed symbols underlying)) ∧
      us_expiration_count s =
        Z.of_nat (size (set_map fst (listed symbols underlying) : gset string))
  | Err e => e = VNotFound underlying ∧ underlying ∉ dom (v_underlyings v)
  end ∧
  gs_total_expirations (stats v symbols) =
    sum_Z ((λ u, Z.of_nat (length (expirations_for symbols u))) <$>
             distinct ps_underlying symbols) ∧
  gs_total_strikes (stats v symbols) =
    sum_Z ((λ ue, Z.of_nat (length (strikes_for symbols ue.1 ue.2))) <$>
             distinct (λ p, (ps_underlying p, ps_expiration_str p)) symbols) ∧
  ∀ expiration,
    let strikes := cs_strike <$> oc_chain (option_chain symbols underlying expiration) in
    StronglySorted Z.lt strikes ∧
    (∀ k, k ∈ strikes ↔ (expiration, k) ∈ listed symbols underlying) ∧
    es_strike_count (get_expiration symbols underlying expiration) = Z.of_nat (length strikes).
Proof.
  split_and!.
  - unfold get_underlying. destruct (v_underlyings v !! underlying) as [a|] eqn:Ea; cbn.
    + split_and!; [by apply elem_of_dom_2 in Ea| |].
      * symmetry. apply (size_partition _ _ (strikes_for symbols underlying)).
        -- apply NoDup_in_order.
        -- intros a'. apply NoDup_in_order.
        -- intros e k. rewrite elem_of_expirations_for, elem_of_strikes_for. naive_solver.
      * f_equal. rewrite <-(size_list_to_set (C := gset string)) by apply NoDup_in_order.
        f_equal. apply set_eq. intros e. rewrite elem_of_list_to_set, elem_of_expirations_for, elem_of_map.
        split; [intros [k Hk]; by exists (e, k)|intros ([e' k] & -> & Hk); by exists k].
    + split; [done|]. by apply not_elem_of_dom.
  - cbn. apply (size_partition _ _ (expirations_for symbols)); [apply NoDup_elements|intros; apply NoDup_in_order|].
    intros u e. rewrite elem_of_list_to_set, list_elem_of_fmap, elem_of_distinct, elem_of_expirations_for.
    unfold listed. setoid_rewrite elem_of_list_to_set. setoid_rewrite list_elem_of_fmap.
    setoid_rewrite list_elem_of_filter. split.
    + intros (p & [= -> ->] & Hp). split; [by exists p|]. exists (ps_strike p), p. done.
    + intros (_ & k & p & [= -> ->] & <- & Hp). by exists p.
  - cbn.
    apply (size_partition _ _ (λ ue, strikes_for symbols ue.1 ue.2)); [apply NoDup_elements|intros; apply NoDup_in_order|].
    intros [u e] k. rewrite elem_of_list_to_set, list_elem_of_fmap, elem_of_distinct. cbn. rewrite elem_of_strikes_for.
    unfold listed. rewrite elem_of_list_to_set, list_elem_of_fmap. setoid_rewrite list_elem_of_filter. split.
    + intros (p & [= -> -> ->] & Hp). split; by exists p.
    + intros (_ & p & [= -> ->] & <- & Hp). by exists p.
  - intros e. cbn. rewrite <-list_fmap_compose. cbn.
    assert (cs_strike ∘ (λ k, {| cs_strike := k; cs_call := empty_side; cs_put := empty_side |}) <$>
      strikes_for symbols underlying e = strikes_for symbols underlying e) as ->
      by (by rewrite <-(list_fmap_id (strikes_for symbols underlying e)) at 2).
    split_and!; [|intros; apply elem_of_strikes_for|done].
    pose proof (in_order_ascends Z.leb (ps_strike <$> filter (λ p, ps_underlying p = underlying ∧
      ps_expiration_str p = e) (parsed_symbols symbols))) as Hs.
    unfold strikes_for. induction Hs as [|x l Hl IH Hx]; constructor; [done|].
    eapply Forall_impl; [done|]. intros y [?%Z.leb_le ?]. lia.
Qed.
End hierarchy.

(** ** The account's views *)

Lemma sum_from_exact l acc :
  Forall (has_ty i64) l → Z.abs acc + 2 ^ 63 * Z.of_nat (length l) < 2 ^ 127 →
  sum_from acc l = Ok (acc + sum_Z l).
Proof.
  intros Hl. revert acc. induction Hl as [|x l Hx Hl IH]; intros acc Hb; cbn [sum_from length] in *.
  { f_equal. change (sum_Z []) with 0. lia. }
  unfold has_ty in Hx. cbn in Hx. unfold checked_add.
  rewrite narrow_fits by (unfold has_ty; cbn; lia). cbn [ok_or mbind result_bind].
  rewrite sum_Z_cons, IH by lia. f_equal. lia.
Qed.

(** A sum of signed cents is exact, or an overflow exactly when it does not fit. *)
Lemma sum_signed_exact l :
  Forall (has_ty i64) l → Z.of_nat (length l) < 2 ^ 60 →
  sum_signed l = if fits i64 (sum_Z l) then Ok (sum_Z l) else Err VOverflow.
Proof.
  intros Hl Hn. unfold sum_signed. rewrite sum_from_exact by (done || lia).
  cbn [mbind result_bind]. rewrite Z.add_0_l. unfold narrow. by destruct (fits i64 (sum_Z l)).
Qed.

Lemma sum_from_Ok l acc total : sum_from acc l = Ok total → total = acc + sum_Z l.
Proof.
  revert acc. induction l as [|x l IH]; intros acc; cbn [sum_from].
  { intros [= <-]. change (sum_Z []) with 0. lia. }
  intros (acc' & Ha & Ht)%bind_Ok. simp_narrow. apply IH in Ht. rewrite sum_Z_cons. lia.
Qed.

Lemma sum_signed_Ok l total : sum_signed l = Ok total → total = sum_Z l ∧ has_ty i64 total.
Proof. intros (acc & Ha%sum_from_Ok & Ht)%bind_Ok. simp_narrow. by rewrite Ha, Z.add_0_l in *. Qed.

Lemma sum_from_Err l acc e : sum_from acc l = Err e → e = VOverflow.
Proof.
  revert acc. induction l as [|x l IH]; intros acc; cbn [sum_from]; [done|].
  intros [Ha|(acc' & _ & Ht)]%bind_Err; [|by eapply IH].
  by destruct (checked_add _ _ _); simplify_eq/=.
Qed.

Lemma sum_signed_Err l e : sum_signed l = Err e → e = VOverflow.
Proof.
  intros [Ha|(acc & _ & Ht)]%bind_Err; [by eapply sum_from_Err|].
  by destruct (narrow _ _); simplify_eq/=.
Qed.

Lemma volume_from_Ok l acc total :
  volume_from acc l = Ok total → total = acc + sum_Z (xr_quantity <$> l).
Proof.
  revert acc. induction l as [|r l IH]; intros acc; cbn [volume_from].
  { intros [= <-]. cbn. lia. }
  intros (acc' & Ha & Ht)%bind_Ok. simp_narrow. apply IH in Ht.
  rewrite fmap_cons, sum_Z_cons. lia.
Qed.

Lemma volume_from_Err l acc e : volume_from acc l = Err e → e = VOverflow.
Proof.
  revert acc. induction l as [|r l IH]; intros acc; cbn [volume_from]; [done|].
  intros [Ha|(acc' & _ & Ht)]%bind_Err; [|by eapply IH].
  by destruct (checked_add _ _ _); simplify_eq/=.
Qed.

Section account.
Context `{MarkPriceCalculator, Upstream}.

Lemma project_owner p a s m pos :
  project p a s m = Ok pos → position_account pos = a ∧ position_symbol pos = s.
Proof.
  unfold project. intros (avg & _ & (r & _ & (r' & _ & ([c u] & _ & [= <-])%bind_Ok)%bind_Ok)
    %bind_Ok)%bind_Ok. done.
Qed.

Lemma project_all_account entries marks ps account :
  project_all entries marks = Ok ps →
  Forall (λ e : string * string * PositionState, e.1.1 = account) entries →
  Forall (λ p, position_account p = account) ps.
Proof.
  intros Hp Hf. revert ps Hp. induction Hf as [|[[a s] st] entries Ha Hf IH]; intros ps; cbn.
  { by intros [= <-]. }
  intros (p & Hp & (ps' & Hps & [= <-])%bind_Ok)%bind_Ok. constructor; [|by apply IH].
  cbn in Ha. subst a. by apply project_owner in Hp as [? _].
Qed.

Lemma positions_list_account store account marks ps :
  positions_list store account marks = Ok ps → Forall (λ p, position_account p = account) ps.
Proof.
  unfold positions_list. intros (l & Hl & [= <-])%bind_Ok. rewrite sort_by_key_perm.
  eapply project_all_account; [done|]. apply Forall_forall. by intros e [? _]%list_elem_of_filter.
Qed.

Lemma summarize_positions_Ok ps s :
  summarize_positions ps = Ok s →
  (psm_total_realized_pnl s = sum_Z (realized_pnl <$> ps) ∧ has_ty i64 (psm_total_realized_pnl s)) ∧
  (psm_total_unrealized_pnl s = sum_Z (omap unrealized_pnl ps) ∧
   has_ty i64 (psm_total_unrealized_pnl s)) ∧
  psm_position_count s = Z.of_nat (length ps).
Proof.
  intros (r & Hr & (u & Hu & [= <-])%bind_Ok)%bind_Ok.
  split; [by apply sum_signed_Ok|]. split; [by apply sum_signed_Ok|done].
Qed.

Lemma summarize_positions_Err ps e : summarize_positions ps = Err e → e = VOverflow.
Proof.
  intros [Hr|(r & _ & [Hu|(u & _ & ?)]%bind_Err)]%bind_Err; [by eapply sum_signed_Err..|done].
Qed.

Lemma summarize_executions_Ok xs s :
  summarize_executions xs = Ok s →
  xs_total_volume s = sum_Z (xr_quantity <$> xs) ∧
  (xs_total_edge s = sum_Z (xr_edge_cents <$> xs) ∧ has_ty i64 (xs_total_edge s)) ∧
  xs_total_executions s = Z.of_nat (length xs).
Proof.
  intros (v & Hv%volume_from_Ok & (u & Hu & [= <-])%bind_Ok)%bind_Ok.
  split; [by rewrite Hv|]. split; [by apply sum_signed_Ok|done].
Qed.

Lemma summarize_executions_Err xs e : summarize_executions xs = Err e → e = VOverflow.
Proof.
  intros [Hr|(r & _ & [Hu|(u & _ & ?)]%bind_Err)]%bind_Err;
    [by eapply volume_from_Err|by eapply sum_signed_Err|done].
Qed.

(** An account's views are its own and their totals exact: every position and execution
    listed or looked up belongs to the account of the credential, filtered as asked; the
    totals of a listing are the sums over what is listed, in range, and the counts its
    lengths; what does not fit is an overflow, what is another account's is not found. *)
Theorem account_views_exact auth underlying q id raw stores :
  match list_positions auth underlying stores with
  | Ok r =>
      let ps := plr_positions r in
      let s := plr_summary r in
      Forall (λ p, position_account p = account_of auth ∧
                   from_option (λ u, position_underlying p = u) True underlying) ps ∧
      psm_total_realized_pnl s = sum_Z (realized_pnl <$> ps) ∧
      has_ty i64 (psm_total_realized_pnl s) ∧
      psm_total_unrealized_pnl s = sum_Z (omap unrealized_pnl ps) ∧
      has_ty i64 (psm_total_unrealized_pnl s) ∧
      psm_position_count s = Z.of_nat (length ps)
  | Err e => e = VOverflow
  end ∧
  match list_executions auth q stores with
  | Ok r =>
      let xs := xlr_executions r in
      let s := xlr_summary r in
      Forall (λ x, xr_account x = account_of auth ∧
                   from_option (λ u, xr_symbol x = u) True (xq_underlying q)) xs ∧
      from_option (λ n, Z.of_nat (length xs) ≤ Z.max 0 n) True (xq_limit q) ∧
      xs_total_volume s = sum_Z (xr_quantity <$> xs) ∧
      xs_total_edge s = sum_Z (xr_edge_cents <$> xs) ∧ has_ty i64 (xs_total_edge s) ∧
      xs_total_executions s = Z.of_nat (length xs)
  | Err e => e = VOverflow
  end ∧
  match get_execution auth id stores with
  | Ok x => xr_account x = account_of auth
  | Err e => e = VNotFound id
  end ∧
  match Symbol_parse raw with
  | Err se => get_position auth raw stores = Err (venue_error_from_symbol se)
  | Ok symbol =>
      match sp_positions stores !! (account_of auth, symbol), get_position auth raw stores with
      | Some _, Ok p => position_account p = account_of auth ∧ position_symbol p = symbol
      | Some _, Err e => e = VOverflow
      | None, r => r = Err (VNotFound symbol)
      end
  end.
Proof.
  split_and!.
  - unfold list_positions. destruct (positions_list _ _ _) as [ps|] eqn:Ep; cbn [map_err mbind result_bind];
      [|done]. apply positions_list_account in Ep.
    match goal with |- context [summarize_positions ?l] => set (ps' := l) end.
    destruct (summarize_positions ps') as [s|e] eqn:Es; cbn [mbind result_bind];
      [|by apply summarize_positions_Err in Es].
    apply summarize_positions_Ok in Es. split; [|cbn; tauto]. cbn.
    subst ps'. destruct underlying; [|by eapply Forall_impl].
    apply Forall_forall. intros p [Hu Hp]%list_elem_of_filter. rewrite Forall_forall in Ep.
    split; [by apply Ep|done].
  - unfold list_executions, exec_list. cbn [map_err mbind result_bind ef_limit].
    match goal with |- context [summarize_executions ?l] => set (xs := l) end.
    destruct (summarize_executions xs) as [s|e] eqn:Es; cbn [mbind result_bind];
      [|by apply summarize_executions_Err in Es].
    apply summarize_executions_Ok in Es. cbn. split; [|split; [|tauto]].
    + assert (xs ⊆ se_record <$> sort_by_key Z.leb se_ord (filter (λ e, leg_matches (account_of auth)
        {| ef_underlying := xq_underlying q; ef_limit := xq_limit q |} e = true)
        ((map_to_list (records (sp_executions stores))).*2))) as Hxs.
      { subst xs. destruct (xq_limit q); [|done]. intros x. apply subseteq_take. }
      apply Forall_forall. intros x Hx%Hxs. apply list_elem_of_fmap in Hx as (e & -> & He).
      rewrite elem_of_sort_by_key in He. apply list_elem_of_filter in He as [He _].
      unfold leg_matches in He. cbn in He. apply andb_true_iff in He as [Ha%String.eqb_eq Hu].
      split; [done|]. destruct (xq_underlying q); [|done]. by apply String.eqb_eq in Hu.
    + subst xs. destruct (xq_limit q); [|done]. cbn. rewrite length_take. lia.
  - unfold get_execution, exec_get.
    assert (∀ l x, exec_get_leg (sp_executions stores) id l (account_of auth) = Some x →
      xr_account x = account_of auth) as Hx.
    { unfold exec_get_leg. intros l x (st & _ & Hs)%bind_Some.
      destruct (String.eqb_spec (xr_account (se_record st)) (account_of auth)); by simplify_eq. }
    destruct (exec_get_leg _ _ Taker _) eqn:E1; cbn; [by eapply Hx|].
    destruct (exec_get_leg _ _ Maker _) eqn:E2; cbn; [by eapply Hx|done].
  - unfold get_position. destruct (Symbol_parse raw) as [symbol|e]; cbn [map_err mbind result_bind];
      [|done]. unfold positions_get.
    destruct (sp_positions stores !! (account_of auth, symbol)) as [state|]; [|done].
    destruct (project _ _ _ _) as [p|] eqn:Ep; [|done]. by apply project_owner in Ep.
Qed.
End account.

(** ** The feed of a running venue *)

Section feed.
Context {C : Type} `{!VenueClock C, !Upstream, !MarkPriceCalculator, !Serde}.
Notation fan_out := (TeeFanOut StoreFanOut WsFanOut).
Notation venue_actor := (UnderlyingActor InMemoryVenueJournal MatchingExecutor fan_out C).

(** The events of a journal. *)
Definition committed (j : InMemoryVenueJournal) : list VenueEvent :=
  omap (λ r, match r with REvent e => Some e | _ => None end) (im_records j).

Lemma tee_ws_emits (f f' : fan_out) es :
  emits f es = (f', Ok tt) → tee_second f' = foldl ws_emit (tee_second f) es.
Proof.
  revert f. induction es as [|e es IH]; intros f; cbn [emits foldl]; [by intros [= <-]|].
  unfold fan_out_emit at 1, TeeFanOut_fan_out.
  destruct (fan_out_emit (tee_first f) e) as [a [[]|]]; [|done]. cbn [fan_out_emit WsFanOut_fan_out].
  intros Hf. by apply IH in Hf.
Qed.

Lemma ws_emit_broadcast es f :
  wf_broadcast (foldl ws_emit f es) =
  wf_broadcast f ++
  concat (imap (λ i e, (on_committed_event (wf_manager (foldl ws_emit f (take i es))) e).2) es).
Proof.
  revert f. induction es as [|e es IH]; intros f; cbn [foldl imap concat]; [by rewrite app_nil_r|].
  rewrite IH. unfold ws_emit at 1.
  destruct (on_committed_event (wf_manager f) e) as [[g d] out] eqn:E. cbn. rewrite <-app_assoc.
  f_equal. by rewrite E.
Qed.

(** Market data is the journal's: whatever commands a fresh actor has handled, unless a
    store's failure sealed it, the market-data service it feeds is the fold of the events its
    journal holds, and what it broadcast is, event by event in commit order, what the service
    makes of each; an event that was not journaled, and a command that was refused, put
    nothing on the feed. *)
Theorem feed_projects_journal (a0 : venue_actor) cs
    (Hfresh : fresh_actor a0)
    (Hopen : act_sealed (handle_all a0 cs).1 ≠ Some SealProjectionFailed) :
  let a := (handle_all a0 cs).1 in
  let before := tee_second (act_fan_out a0) in
  let after := tee_second (act_fan_out a) in
  let events := committed (act_journal a) in
  after = foldl ws_emit before events ∧
  wf_broadcast after =
    wf_broadcast before ++
    concat (imap (λ i e,
      (on_committed_event (wf_manager (foldl ws_emit before (take i events))) e).2) events) ∧
  receipt_of <$> events = acknowledged (handle_all a0 cs).2.
Proof.
  intros a before after events.
  destruct (handle_all_state a0 cs Hfresh) as (log & pend & [Hl Hsub
    (acked & rest & Hev & Hrc & Hrest)]). fold a in Hl, Hrc, Hrest, Hopen.
  destruct Hrest as [[-> Hem]|[_ ?]]; [|done]. rewrite app_nil_r in Hev.
  assert (events = acked) as ->.
  { unfold events, committed. rewrite (live_records _ _ _ _ Hl), omap_app, log_records_events, Hev.
    rewrite <-(app_nil_r acked) at 2. f_equal. clear. by induction pend. }
  assert (after = foldl ws_emit before acked) as -> by by apply tee_ws_emits.
  split_and!; [done|apply ws_emit_broadcast|by rewrite Hrc].
Qed.
End feed.

(** ** A concrete host *)

Definition app_actor : Type :=
  UnderlyingActor InMemoryVenueJournal MatchingExecutor (TeeFanOut StoreFanOut WsFanOut) SimClock.
Definition app_shared : Type := SharedState (StoreProjections * WsFanOut).

Definition feed_actor (underlying : string) : app_actor :=
  Actor_new (ActorConfig_new underlying "run-1" 64)
    (InMemoryVenueJournal_new (JournalHeader_new "run-1")) (executor_new underlying)
    {| tee_first := StoreFanOut_new; tee_second := WsFanOut_new (with_limits 16 1) |} sample_clock.

Lemma feed_projects_journal_witness :
  let a := (handle_all (feed_actor "BTC")
              [limit_add btc_call "v0" "alice" 1 (Some "a-1") Sell 100 5]).1 in
  wf_broadcast (tee_second (act_fan_out a)) =
    concat (imap (λ i e,
      (on_committed_event (wf_manager (foldl ws_emit (WsFanOut_new (with_limits 16 1))
         (take i (committed (act_journal a))))) e).2) (committed (act_journal a))) ∧
  length (wf_broadcast (tee_second (act_fan_out a))) = 1%nat.
Proof.
  split; [|by vm_compute].
  apply (feed_projects_journal (feed_actor "BTC")); [by split|by vm_compute].
Defined.

(** A market-data service with one slot. *)
Definition app_host : Host app_shared app_actor AccountRegistry :=
  let v := sample_app LatDisabled in
  {| ho_auth := sy_service auth2; ho_oracle := sy_registry auth2;
     ho_venue :=
       {| v_underlyings := {[ "BTC" := feed_actor "BTC" ]};
          v_shared :=
            {| sh_projections := (projection_store StoreFanOut_new, WsFanOut_new (with_limits 16 1));
               sh_clordid_index := Some with_default_ceiling |};
          v_clock := sample_clock; v_seed := 42; v_microstructure := v_microstructure v;
          v_correlation_counter := 0; v_expiry_phases := ∅;
          v_ingress := {[ "BTC" := IngressReorderBuffer_new 8 ]};
          v_arrival_counter := 0; v_rest_ingress_counter := 0; v_replies := [] |};
     ho_plane :=
       {| rp_lineage_id := "run-1"; rp_manifest := RunManifest_new 42 (Stepped 1000);
          rp_recording := RecordingController_default |} |}.

Definition no_credential : WsAuthQuery :=
  {| waq_ticket := None; waq_token := None; waq_access_token := None |}.
Definition alice_handshake (h : Host app_shared app_actor AccountRegistry) :=
  ws_handler None (Some ("Bearer " +:+ alice_token)) no_credential (Some (V4 1)) (at_secs 200) h.

(** The one slot is taken; the next good credential finds the server full. *)
Lemma connections_bounded_witness :
  mg_slots (manager (alice_handshake app_host).1) + 1 = 1 ∧
  ws_response_status (alice_handshake (alice_handshake app_host).1).2 = 503.
Proof.
  split; [|by vm_compute].
  destruct (alice_handshake app_host) as [h1 r] eqn:E.
  assert (∃ claims headers, r = WrUpgrade claims headers) as (claims & headers & ->).
  { apply (f_equal snd) in E. cbn [snd] in E. rewrite <-E. eexists _, _. vm_compute. reflexivity. }
  destruct (connections_bounded app_host h1 1) as [Hs _]; [by vm_compute| |exact Hs].
  apply rtc_once. by eapply (slot_taken _ _ _ _ _ _ _ _ _ 0).
Defined.

(** Frames that say nothing. *)
#[local] Instance QuietJson : JsonLib := {|
  Value := unit; json_from_str := λ _, None; json_get := λ _ _, None; json_as_str := λ _, None;
  json_is_object := λ _, false; json_map_keys := λ _, None; json_to_string := λ _, Some "{}";
  de_subscribe_params := λ _, None; de_batch_params := λ _, None; de_value_param := λ _, None;
  de_record_param := λ _, None; de_replay_bundle_param := λ _, None |}.

Definition beat : SocketEvent * TurnReading * Host app_shared app_actor AccountRegistry :=
  (SeHeartbeat, {| tr_clocks := at_secs 200; tr_millis := 200_000; tr_joined := true |}, app_host).
Definition ping : SocketEvent * TurnReading * Host app_shared app_actor AccountRegistry :=
  (SePing, beat.1.2, app_host).

Definition alice_socket : SocketLoop :=
  {| sl_socket := {| so_takes := 19; so_sent := [SfText "{}" (WsConnected "connected to fauxchange")] |};
     sl_conn := {| sc_claims := alice_claims; sc_connection := Connection_new |};
     sl_idle_ticks := 0 |}.

(** Three heartbeats after the last ping leave the socket open; the fourth closes it. *)
Lemma idle_socket_closed_witness :
  (serve (λ _, "") [beat; beat; ping; beat; beat; beat] alice_socket).2 = true ∧
  (serve (λ _, "") ([beat; beat; ping] ++ [beat; beat; beat; beat]) alice_socket).2 = false.
Proof.
  split; [by vm_compute|].
  apply (idle_socket_closed (λ _, "") 20 alice_claims alice_socket [beat; beat; ping]
    [beat; beat; beat; beat]); [done|by repeat constructor|by vm_compute].
Defined.

(** A price for an underlying the venue does not host is not found, a 404. *)
Example unhosted_price_not_found :
  let q := {| ipq_symbol := "DOGE"; ipq_price := 100; ipq_bid := None; ipq_ask := None;
              ipq_volume := None |} in
  let admin := {| au_claims := {| cl_sub := "root"; cl_permissions := [PermAdmin]; cl_iat := 0;
                                  cl_exp := 1000; cl_revocation_epoch := 0 |} |} in
  match (insert_price admin q (ho_venue app_host)).2 with
  | Err e => http_status e = 404
  | Ok _ => False
  end.
Proof. by vm_compute. Qed.
