(* ===== verification/PgStores.v ===== *)
(** The durable stores ([src/src/db/]): the executions log and the venue journals over the
    tables of [src/migrations/], and what a failing statement does to them.

    A table is the list of its rows by id, the order of insertion, or the rows under their
    primary key.  A statement is what its SQL text says of the rows.  It is atomic; when it
    fails with the connection lost it may have been applied all the same, and when it fails
    otherwise it was not: that is what the code relies on. *)

From stdpp Require Import gmap.
From S2P Require Export StoresProps Boot.
From S2P Require Import SampleBook.

(** ** Errors *)

Inductive SqlxError := SqlxIo (applied : bool) | SqlxOther.

(** A text column holds no zero byte: a statement that binds one fails. *)
Definition has_nul (s : string) : bool :=
  existsb (λ c, Nat.eqb (Ascii.nat_of_ascii c) 0) (String.list_ascii_of_string s).
Definition binds (l : list string) : bool := forallb (λ s, negb (has_nul s)) l.

(** What a statement that changes [t] into [f t] leaves and answers. *)
Definition execute {T A} (fault : option SqlxError) (ok : bool) (t : T) (f : T → T * A) :
    T * result SqlxError A :=
  if negb ok then (t, Err SqlxOther)
  else
    match fault with
    | None => let '(t', a) := f t in (t', Ok a)
    | Some (SqlxIo true) => ((f t).1, Err (SqlxIo true))
    | Some e => (t, Err e)
    end.
Definition fetch {A} (fault : option SqlxError) (ok : bool) (a : A) : result SqlxError A :=
  match fault with
  | Some e => Err e
  | None => if ok then Ok a else Err SqlxOther
  end.

Definition db_error_display (e : DbError) : string :=
  match e with
  | DbConnect => "database connection failed"
  | DbMigrate => "database migration failed"
  | DbQuery operation => "database query failed: " +:+ operation
  | DbValueRange field => "database value out of range for field: " +:+ field
  | DbUnavailable => "database backend unavailable: no open pool"
  | DbHeaderMismatch stored supplied =>
      "stored journal header (" +:+ stored +:+ ") does not match the supplied header (" +:+
        supplied +:+ ")"
  end.
Definition StoreError_from (e : DbError) : StoreError := StoreBackend (db_error_display e).
Definition VenueError_from (e : DbError) : VenueError := JournalUnavailable.
Definition query_err (operation : string) (e : SqlxError) : DbError := DbQuery operation.

(** * The executions log *)

Record ExecutionRow := {
  er_execution_id : string; er_order_id : string; er_account : string; er_symbol : string;
  er_instrument : string; er_side : string; er_liquidity : string; er_quantity : Z;
  er_price_cents : Z; er_fee_cents : Z; er_theo_value_cents : Z; er_edge_cents : Z;
  er_underlying_sequence : Z; er_latency_us : Z; er_executed_at_ms : Z }.

Definition side_to_str (side : Side) : string := match side with Buy => "buy" | Sell => "sell" end.
Definition side_from_str (token : string) : result DbError Side :=
  match token with
  | "buy" => Ok Buy
  | "sell" => Ok Sell
  | _ => Err (DbValueRange "side")
  end.
Definition liquidity_to_str (l : LiquidityFlag) : string :=
  match l with Maker => "maker" | Taker => "taker" end.
Definition liquidity_from_str (token : string) : result DbError LiquidityFlag :=
  match token with
  | "maker" => Ok Maker
  | "taker" => Ok Taker
  | _ => Err (DbValueRange "liquidity")
  end.
Definition u64_to_i64 (value : Z) (field : string) : result DbError Z :=
  ok_or (DbValueRange field) (narrow i64 value).
Definition usize_to_i64 (value : Z) (field : string) : result DbError Z :=
  ok_or (DbValueRange field) (narrow i64 value).
Definition i64_to_u64 (value : Z) (field : string) : result DbError Z :=
  ok_or (DbValueRange field) (narrow u64 value).
Definition cents_from_i64 (value : Z) (field : string) : result DbError Cents :=
  if value <? 0 then Err (DbValueRange field) else Ok value.

Section executions.
Context `{Upstream}.

Definition record_to_row (r : ExecutionRecord) : result DbError ExecutionRow :=
  let side := side_to_str (xr_side r) in
  let liquidity := liquidity_to_str (xr_liquidity r) in
  quantity ← u64_to_i64 (xr_quantity r) "quantity";
  price_cents ← u64_to_i64 (xr_price_cents r) "price_cents";
  theo_value_cents ← u64_to_i64 (xr_theo_value_cents r) "theo_value_cents";
  underlying_sequence ← u64_to_i64 (xr_underlying_sequence r) "underlying_sequence";
  latency_us ← u64_to_i64 (xr_latency_us r) "latency_us";
  executed_at_ms ← u64_to_i64 (xr_executed_at r) "executed_at_ms";
  Ok {| er_execution_id := xr_execution_id r; er_order_id := xr_order_id r;
        er_account := xr_account r; er_symbol := xr_symbol r;
        er_instrument := xr_instrument r; er_side := side; er_liquidity := liquidity;
        er_quantity := quantity; er_price_cents := price_cents;
        er_fee_cents := xr_fee_cents r; er_theo_value_cents := theo_value_cents;
        er_edge_cents := xr_edge_cents r; er_underlying_sequence := underlying_sequence;
        er_latency_us := latency_us; er_executed_at_ms := executed_at_ms |}.

(** The columns' types and [CHECK]s. *)
Definition row_ok (row : ExecutionRow) : bool :=
  binds [er_execution_id row; er_liquidity row; er_order_id row; er_account row; er_symbol row;
         er_instrument row; er_side row] &&
  (0 <=? er_quantity row) && (0 <=? er_price_cents row) && (0 <=? er_theo_value_cents row) &&
  (0 <=? er_underlying_sequence row) && (0 <=? er_latency_us row) &&
  (0 <=? er_executed_at_ms row).

Definition same_leg (a b : ExecutionRow) : bool :=
  String.eqb (er_execution_id a) (er_execution_id b) &&
  String.eqb (er_liquidity a) (er_liquidity b).

(** [INSERT ... ON CONFLICT (execution_id, liquidity) DO UPDATE]: the row keeps its id. *)
Fixpoint upsert (row : ExecutionRow) (rows : list ExecutionRow) : list ExecutionRow :=
  match rows with
  | [] => [row]
  | r :: rows => if same_leg r row then row :: rows else r :: upsert row rows
  end.

Definition record_async (fault : option SqlxError) (r : ExecutionRecord)
    (rows : list ExecutionRow) : list ExecutionRow * result DbError unit :=
  match record_to_row r with
  | Err e => (rows, Err e)
  | Ok row =>
      let '(rows, res) := execute fault (row_ok row) rows (λ rows, (upsert row rows, tt)) in
      (rows, map_err (query_err "record execution") res)
  end.

Definition row_to_record (row : ExecutionRow) : result DbError ExecutionRecord :=
  instrument ← map_err (λ _, DbValueRange "instrument") (Symbol_parse (er_instrument row));
  side ← side_from_str (er_side row);
  liquidity ← liquidity_from_str (er_liquidity row);
  quantity ← i64_to_u64 (er_quantity row) "quantity";
  price_cents ← cents_from_i64 (er_price_cents row) "price_cents";
  theo_value_cents ← cents_from_i64 (er_theo_value_cents row) "theo_value_cents";
  underlying_sequence ← i64_to_u64 (er_underlying_sequence row) "underlying_sequence";
  latency_us ← i64_to_u64 (er_latency_us row) "latency_us";
  executed_at ← i64_to_u64 (er_executed_at_ms row) "executed_at_ms";
  Ok {| xr_execution_id := er_execution_id row; xr_order_id := er_order_id row;
        xr_account := er_account row; xr_symbol := er_symbol row; xr_instrument := instrument;
        xr_side := side; xr_liquidity := liquidity; xr_quantity := quantity;
        xr_price_cents := price_cents; xr_fee_cents := er_fee_cents row;
        xr_theo_value_cents := theo_value_cents; xr_edge_cents := er_edge_cents row;
        xr_underlying_sequence := underlying_sequence; xr_latency_us := latency_us;
        xr_executed_at := executed_at |}.

Fixpoint rows_to_records (rows : list ExecutionRow) : result DbError (list ExecutionRecord) :=
  match rows with
  | [] => Ok []
  | row :: rows => r ← row_to_record row; l ← rows_to_records rows; Ok (r :: l)
  end.

(** [ORDER BY CASE liquidity WHEN 'taker' THEN 0 ELSE 1 END]. *)
Definition taker_first (row : ExecutionRow) : Z :=
  if String.eqb (er_liquidity row) "taker" then 0 else 1.

Definition get_async (fault : option SqlxError) (execution_id : ExecutionId) (account : AccountId)
    (rows : list ExecutionRow) : result DbError (option ExecutionRecord) :=
  row ← map_err (query_err "get execution")
          (fetch fault (binds [execution_id; account])
             (head (sort_by_key Z.leb taker_first
                (filter (λ row, er_execution_id row = execution_id ∧ er_account row = account)
                   rows))));
  match row with
  | None => Ok None
  | Some row => r ← row_to_record row; Ok (Some r)
  end.

Definition row_listed (account : AccountId) (f : ExecutionFilter) (row : ExecutionRow) : bool :=
  String.eqb (er_account row) account &&
  match ef_underlying f with
  | None => true
  | Some underlying => String.eqb (er_symbol row) underlying
  end.

Definition list_async (fault : option SqlxError) (account : AccountId) (f : ExecutionFilter)
    (rows : list ExecutionRow) : result DbError (list ExecutionRecord) :=
  limit ← match ef_limit f with
          | Some limit => limit ← usize_to_i64 limit "limit"; Ok (Some limit)
          | None => Ok None
          end;
  rows ← map_err (query_err "list executions")
           (fetch fault (binds (account :: match ef_underlying f with Some u => [u] | None => [] end))
              (let matched := filter (λ row, row_listed account f row = true) rows in
               match limit with Some n => take (Z.to_nat n) matched | None => matched end));
  rows_to_records rows.

Definition len_async (fault : option SqlxError) (rows : list ExecutionRow) : result DbError Z :=
  count ← map_err (query_err "count executions") (fetch fault true (Z.of_nat (length rows)));
  ok_or (DbValueRange "count") (narrow usize count).

(** [ExecutionsStore for PgExecutionsStore]. *)
Definition pg_record (fault : option SqlxError) (r : ExecutionRecord) (rows : list ExecutionRow) :
    list ExecutionRow * result StoreError unit :=
  let '(rows, res) := record_async fault r rows in (rows, map_err StoreError_from res).
Definition pg_get (fault : option SqlxError) (execution_id : ExecutionId) (account : AccountId)
    (rows : list ExecutionRow) : result StoreError (option ExecutionRecord) :=
  map_err StoreError_from (get_async fault execution_id account rows).
Definition pg_list (fault : option SqlxError) (account : AccountId) (f : ExecutionFilter)
    (rows : list ExecutionRow) : result StoreError (list ExecutionRecord) :=
  map_err StoreError_from (list_async fault account f rows).
Definition pg_len (fault : option SqlxError) (rows : list ExecutionRow) : Z :=
  match len_async fault rows with Ok count => count | Err _ => 0 end.
End executions.

(** [select_executions_store]. *)
Inductive SelectedExecutions :=
  | DurableExecutions (rows : list ExecutionRow)
  | MemoryExecutions (s : InMemoryExecutionsStore).
Definition PgExecutionsStore_new (in_runtime : bool) (rows : list ExecutionRow) :
    result DbError (list ExecutionRow) :=
  if in_runtime then Ok rows else Err DbUnavailable.
Definition select_executions_store (in_runtime : bool) (db : option (list ExecutionRow)) :
    result DbError SelectedExecutions :=
  match db with
  | Some pool => store ← PgExecutionsStore_new in_runtime pool; Ok (DurableExecutions store)
  | None => Ok (MemoryExecutions InMemoryExecutionsStore_new)
  end.

(** * The venue journals *)

(** serde_json: the JSON of a record. *)
Class JournalJson `{Serde} := { json_encode : JournalRecord → option string }.

Record JournalRow := {
  jr_underlying : string; jr_sequence : Z; jr_kind : string; jr_payload : string }.
#[export] Instance JournalRow_eq_dec : EqDecision JournalRow. Proof. solve_decision. Defined.

#[export] Instance JournalHeader_eq_dec : EqDecision JournalHeader. Proof. solve_decision. Defined.

Record JournalTables := {
  journal_headers : gmap string JournalHeader;
  journal_rows : list JournalRow;
}.
Definition JournalTables_empty : JournalTables := {| journal_headers := ∅; journal_rows := [] |}.

(** [PgVenueJournal]: the underlying and the header read back when it was opened. *)
Record PgVenueJournal := { pj_underlying : string; pj_header : JournalHeader }.

(** [max] of a column, and the row [fetch_optional] finds. *)
Definition max_Z (l : list Z) : option Z :=
  match l with [] => None | z :: l => Some (foldl Z.max z l) end.
Fixpoint list_find_first {A} (f : A → bool) (l : list A) : option A :=
  match l with [] => None | x :: l => if f x then Some x else list_find_first f l end.

(** The statements of an opening that fail. *)
Record OpenFaults := {
  of_begin : option SqlxError; of_insert : option SqlxError; of_read : option SqlxError;
  of_commit : option SqlxError }.
Definition no_open_faults : OpenFaults :=
  {| of_begin := None; of_insert := None; of_read := None; of_commit := None |}.

Definition describe_header (h : JournalHeader) : string :=
  "lineage=" +:+ header_lineage_id h +:+ " schema=" +:+ schema_version h.

(** A transaction: a failure before the commit rolls everything back. *)
Definition ensure_and_verify_header (faults : OpenFaults) (underlying : string)
    (supplied : JournalHeader) (db : JournalTables) :
    JournalTables * result DbError JournalHeader :=
  let rolled_back e := (db, Err e) in
  match of_begin faults with
  | Some e => rolled_back (query_err "begin journal header txn" e)
  | None =>
      let headers :=
        match journal_headers db !! underlying with
        | Some _ => journal_headers db
        | None => <[underlying := supplied]> (journal_headers db)
        end in
      match fetch (of_insert faults)
              (binds [underlying; header_lineage_id supplied; schema_version supplied]) tt with
      | Err e => rolled_back (query_err "ensure journal header" e)
      | Ok _ =>
          match fetch (of_read faults) (binds [underlying]) (headers !! underlying) with
          | Err e => rolled_back (query_err "read journal header" e)
          | Ok None => rolled_back (DbQuery "verify journal header")
          | Ok (Some stored) =>
              if bool_decide (stored = supplied) then
                let '(db', res) :=
                  execute (of_commit faults) true db
                    (λ db, ({| journal_headers := headers; journal_rows := journal_rows db |}, tt)) in
                match res with
                | Err e => (db', Err (query_err "commit journal header txn" e))
                | Ok _ => (db', Ok stored)
                end
              else rolled_back
                     (DbHeaderMismatch (describe_header stored) (describe_header supplied))
          end
      end
  end.

Definition read_header (fault : option SqlxError) (underlying : string) (db : JournalTables) :
    result DbError JournalHeader :=
  row ← map_err (query_err "read journal header")
          (fetch fault (binds [underlying]) (journal_headers db !! underlying));
  ok_or (DbValueRange "journal header") row.

Definition pg_open (in_runtime : bool) (faults : OpenFaults) (underlying : string)
    (header : JournalHeader) (db : JournalTables) : JournalTables * result DbError PgVenueJournal :=
  if negb in_runtime then (db, Err DbUnavailable)
  else
    let '(db, stored) := ensure_and_verify_header faults underlying header db in
    (db, stored ← stored; Ok {| pj_underlying := underlying; pj_header := stored |}).

Definition pg_open_for_recovery (in_runtime : bool) (fault : option SqlxError)
    (underlying : string) (db : JournalTables) : result DbError PgVenueJournal :=
  if negb in_runtime then Err DbUnavailable
  else
    header ← read_header fault underlying db;
    Ok {| pj_underlying := underlying; pj_header := header |}.

Definition kind_to_str (kind : RecordKind) : string :=
  match kind with KCommand => "command" | KEvent => "event" | KEpoch => "epoch" end.

Definition classify_append_error (e : SqlxError) : JournalError :=
  match e with
  | SqlxIo _ => Ambiguous "durable journal append (connection lost)"
  | _ => AppendFailed "durable journal append"
  end.

Definition same_key (a b : JournalRow) : bool :=
  String.eqb (jr_underlying a) (jr_underlying b) && (jr_sequence a =? jr_sequence b) &&
  String.eqb (jr_kind a) (jr_kind b).

(** [INSERT ... ON CONFLICT (underlying, underlying_sequence, kind) DO NOTHING], and the number
    of rows it inserted. *)
Definition insert_row (row : JournalRow) (db : JournalTables) : JournalTables * Z :=
  if existsb (same_key row) (journal_rows db) then (db, 0)
  else ({| journal_headers := journal_headers db; journal_rows := journal_rows db ++ [row] |}, 1).

(** The two statements of an append: the insertion and the reading back. *)
Record AppendFaults := { af_insert : option SqlxError; af_read_back : option SqlxError }.
Definition no_append_faults : AppendFaults := {| af_insert := None; af_read_back := None |}.

Section journal.
Context `{JournalJson}.

Definition append_async (faults : AppendFaults) (j : PgVenueJournal) (r : JournalRecord)
    (db : JournalTables) : JournalTables * result JournalError unit :=
  let sequence := record_sequence r in
  let kind := record_kind r in
  match narrow i64 sequence with
  | None => (db, Err (AppendFailed "underlying_sequence out of BIGINT range"))
  | Some seq =>
      match json_encode r with
      | None => (db, Err (AppendFailed "journal record serialise"))
      | Some payload =>
          if MAX_JOURNAL_RECORD_BYTES <? str_len payload
          then (db, Err (ResourceLimit "record_bytes" (str_len payload) MAX_JOURNAL_RECORD_BYTES))
          else
            let row := {| jr_underlying := pj_underlying j; jr_sequence := seq;
                          jr_kind := kind_to_str kind; jr_payload := payload |} in
            let '(db, inserted) :=
              execute (af_insert faults) (binds [pj_underlying j; payload]) db (insert_row row) in
            match inserted with
            | Err e => (db, Err (classify_append_error e))
            | Ok rows_affected =>
                if rows_affected =? 1 then (db, Ok tt)
                else
                  (db,
                   match fetch (af_read_back faults) (binds [pj_underlying j])
                           (jr_payload <$> list_find_first (same_key row) (journal_rows db)) with
                   | Err _ => Err (Backend "journal conflict read-back")
                   | Ok (Some stored) =>
                       if String.eqb stored payload then Ok tt else Err (Conflict sequence kind)
                   | Ok None => Err (Conflict sequence kind)
                   end)
            end
      end
  end.

(** The statements of a reading. *)
Record ReadFaults := { rf_bounds : option SqlxError; rf_rows : option SqlxError }.
Definition no_read_faults : ReadFaults := {| rf_bounds := None; rf_rows := None |}.

(** A row as the [CASE] gives it: its length, and its payload unless it is over the ceiling. *)
Fixpoint decode_payloads (rows : list (Z * option string)) :
    result JournalError (list JournalRecord) :=
  match rows with
  | [] => Ok []
  | (len, payload) :: rows =>
      match payload with
      | Some payload =>
          r ← decode_journal_record payload; l ← decode_payloads rows; Ok (r :: l)
      | None =>
          Err (ResourceLimit "record_bytes" (default (int_max usize) (narrow usize len))
                 MAX_JOURNAL_RECORD_BYTES)
      end
  end.

Definition read_from_async (faults : ReadFaults) (j : PgVenueJournal) (from : SequenceNumber)
    (db : JournalTables) : result JournalError (list JournalRecord) :=
  from ← ok_or (Backend "journal read_from bound out of range") (narrow i64 from);
  record_ceiling ← ok_or (Backend "journal record ceiling out of range")
                     (narrow i32 MAX_JOURNAL_RECORD_BYTES);
  ceiling ← ok_or (Backend "journal read ceiling out of range") (narrow i64 MAX_JOURNAL_RECORDS);
  let read_limit := ceiling + 1 in
  let selected := filter (λ row, jr_underlying row = pj_underlying j ∧ from ≤ jr_sequence row)
                    (journal_rows db) in
  bounds ← map_err (λ _, Backend "journal read bounds")
             (fetch (rf_bounds faults) (binds [pj_underlying j])
                (Z.of_nat (length selected), sum_Z ((λ row, str_len (jr_payload row)) <$> selected)));
  stream_count ← ok_or (Backend "journal read count out of range") (narrow usize bounds.1);
  stream_bytes ← ok_or (Backend "journal read bytes out of range") (narrow usize bounds.2);
  enforce_stream_ceiling stream_count;;
  enforce_stream_bytes_ceiling stream_bytes;;
  rows ← map_err (λ _, Backend "journal read_from")
           (fetch (rf_rows faults) (binds [pj_underlying j])
              ((λ row, (str_len (jr_payload row),
                        if str_len (jr_payload row) <=? record_ceiling
                        then Some (jr_payload row) else None)) <$>
                take (Z.to_nat read_limit) selected));
  enforce_stream_ceiling (Z.of_nat (length rows));;
  decode_payloads rows.

Definition last_sequence_async (fault : option SqlxError) (j : PgVenueJournal)
    (db : JournalTables) : result JournalError (option SequenceNumber) :=
  max ← map_err (λ _, Backend "journal last_sequence")
          (fetch fault (binds [pj_underlying j])
             (max_Z (jr_sequence <$>
                filter (λ row, jr_underlying row = pj_underlying j) (journal_rows db))));
  match max with
  | Some value => seq ← ok_or (Backend "journal last_sequence out of range") (narrow u64 value);
                  Ok (Some seq)
  | None => Ok None
  end.

(** [VenueJournal::last_sequence]: a failure reports no sequence. *)
Definition pg_last_sequence (fault : option SqlxError) (j : PgVenueJournal) (db : JournalTables) :
    option SequenceNumber :=
  match last_sequence_async fault j db with Ok last => last | Err _ => None end.
End journal.

(** * The durable executions log is the in-memory one *)

Lemma filter_fmap_bool {A B} (f : A → B) (p : B → bool) (l : list A) :
  filter (λ y, p y = true) (f <$> l) = f <$> filter (λ x, p (f x) = true) l.
Proof. induction l as [|x l IH]; [done|]. rewrite fmap_cons, !filter_cons, IH. by case_decide. Qed.

Lemma fetch_Ok {A} (a : A) : fetch None true a = Ok a.
Proof. done. Qed.

Lemma execute_Ok {T A} (t : T) (f : T → T * A) : execute None true t f = ((f t).1, Ok (f t).2).
Proof. unfold execute. cbn. by destruct (f t). Qed.

Definition to_row (r : ExecutionRecord) : ExecutionRow :=
  {| er_execution_id := xr_execution_id r; er_order_id := xr_order_id r;
     er_account := xr_account r; er_symbol := xr_symbol r; er_instrument := xr_instrument r;
     er_side := side_to_str (xr_side r); er_liquidity := liquidity_to_str (xr_liquidity r);
     er_quantity := xr_quantity r; er_price_cents := xr_price_cents r;
     er_fee_cents := xr_fee_cents r; er_theo_value_cents := xr_theo_value_cents r;
     er_edge_cents := xr_edge_cents r; er_underlying_sequence := xr_underlying_sequence r;
     er_latency_us := xr_latency_us r; er_executed_at_ms := xr_executed_at r |}.

Definition bigint (n : Z) : Prop := 0 ≤ n ≤ int_max i64.

Section executions_equal.
Context `{Upstream}.

(** What the columns hold of a record: its symbol parses, its numbers are in the signed range
    and its texts have no zero byte. *)
Record exec_ok (r : ExecutionRecord) : Prop := {
  xo_instrument : Symbol_parse (xr_instrument r) = Ok (xr_instrument r);
  xo_quantity : bigint (xr_quantity r);
  xo_price : bigint (xr_price_cents r);
  xo_theo : bigint (xr_theo_value_cents r);
  xo_sequence : bigint (xr_underlying_sequence r);
  xo_latency : bigint (xr_latency_us r);
  xo_executed : bigint (xr_executed_at r);
  xo_binds : binds [xr_execution_id r; xr_order_id r; xr_account r; xr_symbol r;
                    xr_instrument r] = true;
}.

Lemma u64_to_i64_Ok n field : bigint n → u64_to_i64 n field = Ok n.
Proof. intros Hn. unfold u64_to_i64. rewrite narrow_fits; [done|]. unfold bigint in Hn. unfold_int. lia. Qed.

Lemma i64_to_u64_Ok n field : bigint n → i64_to_u64 n field = Ok n.
Proof. intros Hn. unfold i64_to_u64. rewrite narrow_fits; [done|]. unfold bigint in Hn. unfold_int. lia. Qed.

Lemma cents_from_i64_Ok n field : bigint n → cents_from_i64 n field = Ok n.
Proof. intros [Hn _]. unfold cents_from_i64. by destruct (Z.ltb_spec n 0); [lia|]. Qed.

Lemma record_to_row_Ok r : exec_ok r → record_to_row r = Ok (to_row r).
Proof. intros []. unfold record_to_row. by rewrite !u64_to_i64_Ok. Qed.

Lemma row_to_record_Ok r : exec_ok r → row_to_record (to_row r) = Ok r.
Proof.
  intros [Hi Hq Hp Ht Hs Hl He _]. unfold row_to_record.
  cbn [to_row er_instrument er_side er_liquidity er_quantity er_price_cents er_theo_value_cents
    er_underlying_sequence er_latency_us er_executed_at_ms].
  rewrite Hi, !i64_to_u64_Ok, !cents_from_i64_Ok by done. by destruct r as [? ? ? ? ? [] [] ? ? ? ? ? ? ? ?].
Qed.

Lemma row_ok_Ok r : exec_ok r → row_ok (to_row r) = true.
Proof.
  intros [_ Hq Hp Ht Hs Hl He Hb]. unfold row_ok. rewrite !andb_true_iff, !Z.leb_le.
  unfold bigint in *. split_and!; [|cbn; lia..]. cbn in Hb |- *. rewrite !andb_true_iff in *.
  destruct r as [? ? ? ? ? [] [] ? ? ? ? ? ? ? ?]; cbn in *; tauto.
Qed.

Lemma rows_to_records_Ok l : Forall exec_ok l → rows_to_records (to_row <$> l) = Ok l.
Proof.
  induction 1 as [|r l Hr _ IH]; [done|]. cbn. rewrite row_to_record_Ok by done. cbn. by rewrite IH.
Qed.

(** Recording into the list of the records in their order. *)
Fixpoint put (r : ExecutionRecord) (l : list ExecutionRecord) : list ExecutionRecord :=
  match l with
  | [] => [r]
  | x :: l => if decide (exec_key x = exec_key r) then r :: l else x :: put r l
  end.

Lemma same_leg_key a b : same_leg (to_row a) (to_row b) = bool_decide (exec_key a = exec_key b).
Proof.
  unfold same_leg, exec_key. cbn. destruct (String.eqb_spec (xr_execution_id a) (xr_execution_id b)) as [E|E].
  - rewrite E. by destruct (xr_liquidity a), (xr_liquidity b); cbn; case_bool_decide.
  - rewrite bool_decide_eq_false_2; [done|congruence].
Qed.

Lemma upsert_put r l : upsert (to_row r) (to_row <$> l) = to_row <$> put r l.
Proof.
  induction l as [|x l IH]; [done|]. cbn. rewrite same_leg_key. case_bool_decide; case_decide; try done.
  cbn. by rewrite IH.
Qed.

Lemma put_new r l : exec_key r ∉ exec_key <$> l → put r l = l ++ [r].
Proof.
  induction l as [|x l IH]; [done|]. cbn. rewrite not_elem_of_cons. intros [Hx Hl].
  rewrite decide_False by congruence. by rewrite IH.
Qed.

Lemma put_old r l i x :
  NoDup (exec_key <$> l) → l !! i = Some x → exec_key x = exec_key r → put r l = <[i := r]> l.
Proof.
  revert i. induction l as [|y l IH]; intros i Hnd Hi Hk; [done|]. apply NoDup_cons in Hnd as [Hy Hnd].
  destruct i as [|i]; cbn in Hi |- *.
  - injection Hi as ->. by rewrite decide_True.
  - rewrite decide_False; [by rewrite (IH i)|]. intros E. apply Hy. rewrite E, <-Hk.
    by eapply list_elem_of_fmap_2, list_elem_of_lookup_2.
Qed.

(** The log holds [l] in its order. *)
Definition holds (s : InMemoryExecutionsStore) (l : list ExecutionRecord) : Prop :=
  log_of s l ∧ NoDup (exec_key <$> l) ∧ Forall exec_ok l.

Lemma stored_lookup l k e :
  NoDup (exec_key <$> l) →
  list_to_map (M:=gmap _ _) (stored_list l) !! k = Some e ↔
  ∃ i, l !! i = Some (se_record e) ∧ exec_key (se_record e) = k ∧ se_ord e = Z.of_nat i.
Proof.
  intros Hnd. rewrite <-elem_of_list_to_map by by apply NoDup_stored. unfold stored_list.
  rewrite elem_of_lookup_imap. split.
  - intros (i & r & [= -> ->] & Hi). by exists i.
  - intros (i & Hi & <- & Ho). exists i, (se_record e). split; [|done]. destruct e. cbn in *. by subst.
Qed.

Lemma exec_record_holds s l r :
  holds s l → exec_ok r → Z.of_nat (length l) < 2 ^ 64 - 1 →
  (exec_record s r).2 = Ok tt ∧ holds (exec_record s r).1 (put r l).
Proof.
  intros (Hlog & Hnd & Hok) Hr Hlen. destruct (decide (exec_key r ∈ exec_key <$> l)) as [Hin|Hin].
  - apply list_elem_of_fmap in Hin as (x & Hk & [i Hi]%list_elem_of_lookup_1).
    rewrite (put_old r l i x) by done. destruct Hlog as [Hs Hn]. unfold exec_record.
    assert (records s !! exec_key r = Some {| se_ord := Z.of_nat i; se_record := x |}) as ->.
    { rewrite Hs, stored_lookup by done. by exists i. }
    assert (exec_key <$> <[i := r]> l = exec_key <$> l) as Hkeys.
    { rewrite list_fmap_insert. apply list_insert_id. by rewrite list_lookup_fmap, Hi, Hk. }
    split; [done|]. split_and!; [split; cbn|by rewrite Hkeys|by apply Forall_insert].
    + apply map_eq. intros k. apply option_eq. intros e. rewrite stored_lookup by by rewrite Hkeys.
      destruct (decide (k = exec_key r)) as [->|Hne].
      * rewrite lookup_insert_eq. split.
        { intros [= <-]. exists i. cbn. split_and!; [|done..]. apply list_lookup_insert_eq.
          by eapply lookup_lt_Some. }
        intros (i' & Hi' & Hk' & Ho). assert (i' = i) as ->.
        { apply (NoDup_lookup (exec_key <$> l) i' i (exec_key r)); [done| |].
          - rewrite <-Hkeys, list_lookup_fmap, Hi'. cbn. by rewrite Hk'.
          - rewrite list_lookup_fmap, Hi. cbn. by rewrite Hk. }
        rewrite list_lookup_insert_eq in Hi' by by eapply lookup_lt_Some.
        injection Hi' as Hi'. destruct e. cbn in *. by subst.
      * rewrite lookup_insert_ne by done. rewrite Hs, stored_lookup by done.
        split; intros (i' & Hi' & Hk' & Ho); exists i'; split_and!; try done.
        { rewrite list_lookup_insert_ne; [done|]. intros <-. congruence. }
        { destruct (decide (i = i')) as [<-|]; [|by rewrite list_lookup_insert_ne in Hi'].
          rewrite list_lookup_insert_eq in Hi' by by eapply lookup_lt_Some. congruence. }
    + by rewrite length_insert.
  - destruct (exec_record_log s l r Hlog Hin Hlen) as [H1 H2]. rewrite put_new by done.
    split; [done|]. split_and!; [done| |by apply Forall_app; split; [|by apply Forall_singleton]].
    rewrite fmap_app. apply NoDup_app. split_and!; [done| |apply NoDup_singleton].
    intros k Hk ->%list_elem_of_singleton. done.
Qed.

Lemma put_length r l : (length (put r l) ≤ S (length l))%nat.
Proof. induction l as [|x l IH]; cbn; [lia|]. case_decide; cbn; lia. Qed.

Lemma recorded_holds rs :
  Forall exec_ok rs → Z.of_nat (length rs) < 2 ^ 64 - 1 →
  ∃ l, (length l ≤ length rs)%nat ∧
    holds (foldl (λ s r, (exec_record s r).1) InMemoryExecutionsStore_new rs) l ∧
    foldl (λ rows r, (pg_record None r rows).1) [] rs = to_row <$> l.
Proof.
  induction rs as [|r rs IH] using rev_ind; intros Hok Hlen.
  { exists []. split_and!; [done| |done]. split_and!; [by split|constructor|constructor]. }
  apply Forall_app in Hok as [Hok Hr]. apply Forall_cons in Hr as [Hr _]. rewrite length_app in Hlen. cbn in Hlen.
  destruct IH as (l & Hl & Hh & Hrows); [done|lia|]. exists (put r l).
  destruct (exec_record_holds _ l r Hh Hr ltac:(lia)) as [_ Hh'].
  rewrite !foldl_app. cbn [foldl]. split_and!; [|done|].
  - pose proof (put_length r l). rewrite length_app. cbn. lia.
  - rewrite Hrows. unfold pg_record, record_async. rewrite record_to_row_Ok, row_ok_Ok by done.
    rewrite execute_Ok. cbn. apply upsert_put.
Qed.

Lemma exec_get_leg_spec s l id lq account r :
  holds s l →
  exec_get_leg s id lq account = Some r ↔ r ∈ l ∧ exec_key r = (id, lq) ∧ xr_account r = account.
Proof.
  intros ([Hs _] & Hnd & _). unfold exec_get_leg. rewrite Hs. split.
  - destruct (_ !! (id, lq)) as [e|] eqn:E; [|done]. cbn. apply stored_lookup in E as (i & Hi & Hk & _); [|done].
    destruct (String.eqb_spec (xr_account (se_record e)) account); [|done]. intros [= <-].
    split_and!; [by eapply list_elem_of_lookup_2|done..].
  - intros ([i Hi]%list_elem_of_lookup_1 & Hk & Ha).
    assert (list_to_map (M:=gmap _ _) (stored_list l) !! (id, lq) =
      Some {| se_ord := Z.of_nat i; se_record := r |}) as ->.
    { apply stored_lookup; [done|]. by exists i. }
    cbn. by rewrite Ha, String.eqb_refl.
Qed.

Lemma head_sorted (rows : list ExecutionRow) :
  match head (sort_by_key Z.leb taker_first rows) with
  | Some row => row ∈ rows ∧ ∀ row', row' ∈ rows → taker_first row ≤ taker_first row'
  | None => rows = []
  end.
Proof.
  pose proof (sort_by_key_sorted Z.leb taker_first rows) as Hs.
  pose proof (sort_by_key_perm Z.leb taker_first rows) as Hp.
  destruct (sort_by_key Z.leb taker_first rows) as [|row l]; cbn.
  - by apply Permutation_nil.
  - apply StronglySorted_inv in Hs as [_ Hs]. rewrite Forall_forall in Hs. split; [rewrite <-Hp; left|].
    intros row'. rewrite <-Hp. intros [->|Hin]%elem_of_cons; [done|]. apply Z.leb_le. by apply Hs.
Qed.

Lemma pg_get_holds s l id account :
  holds s l → binds [id; account] = true →
  pg_get None id account (to_row <$> l) = exec_get s id account.
Proof.
  intros Hh Hb. destruct Hh as (Hlog & Hnd & Hok) eqn:E. clear E. unfold pg_get, get_async.
  rewrite Hb, fetch_Ok. cbn [map_err mbind result_bind].
  set (rows := filter _ (to_row <$> l)).
  assert (∀ lq, exec_get_leg s id lq account = None ∨
    ∃ r, exec_get_leg s id lq account = Some r ∧ to_row r ∈ rows) as Hleg.
  { intros lq. destruct (exec_get_leg s id lq account) as [r|] eqn:E; [right|by left].
    exists r. split; [done|]. apply (exec_get_leg_spec s l) in E as (Hin & [= Hid _] & Ha); [|done].
    apply list_elem_of_filter. split; [done|]. by apply list_elem_of_fmap_2. }
  assert (∀ row, row ∈ rows → ∃ r, row = to_row r ∧ exec_ok r ∧
    exec_get_leg s id (xr_liquidity r) account = Some r) as Hrow.
  { intros row [[Hid Ha] (r & -> & Hin)%list_elem_of_fmap]%list_elem_of_filter. exists r.
    split_and!; [done|by eapply Forall_forall|]. apply (exec_get_leg_spec s l); [done|].
    cbn in *. split_and!; [done| |done]. unfold exec_key. by rewrite Hid. }
  clearbody rows. pose proof (head_sorted rows) as Hhead. unfold exec_get.
  destruct (head _) as [row|].
  - destruct Hhead as [(r & -> & Hr & Hleg_r)%Hrow Hmin]. rewrite row_to_record_Ok by done. cbn.
    destruct (Hleg Taker) as [Ht|(t & Ht & Hin)]; rewrite Ht.
    + destruct (xr_liquidity r); [by rewrite Hleg_r|congruence].
    + apply Hmin in Hin. assert (xr_liquidity t = Taker) as Hlt.
      { by apply (exec_get_leg_spec s l) in Ht as (_ & [= _ ?] & _). }
      unfold taker_first in Hin. cbn in Hin. rewrite Hlt in Hin. cbn in Hin.
      destruct (xr_liquidity r); [by cbn in Hin|]. rewrite Hleg_r in Ht. by injection Ht as ->.
  - subst rows. destruct (Hleg Taker) as [->|(? & _ & ?%not_elem_of_nil)]; [|done].
    by destruct (Hleg Maker) as [->|(? & _ & ?%not_elem_of_nil)].
Qed.

Lemma pg_list_holds s l account f :
  holds s l → binds (account :: match ef_underlying f with Some u => [u] | None => [] end) = true →
  match ef_limit f with Some n => bigint n | None => True end →
  pg_list None account f (to_row <$> l) = exec_list s account f.
Proof.
  intros (Hlog & Hnd & Hok) Hb Hlim. unfold exec_list. rewrite sorted_selection with (l := l) by done.
  unfold pg_list, list_async.
  assert (match ef_limit f with
          | Some limit => limit ← usize_to_i64 limit "limit"; Ok (Some limit)
          | None => Ok None
          end = Ok (E := DbError) (ef_limit f)) as ->.
  { destruct (ef_limit f) as [n|]; [|done]. unfold usize_to_i64. fold (u64_to_i64 n "limit"). by rewrite (u64_to_i64_Ok n "limit" Hlim). }
  cbn [mbind result_bind]. rewrite Hb, fetch_Ok. cbn [map_err mbind result_bind].
  rewrite filter_fmap_bool.
  set (sel := filter (λ r, row_listed account f (to_row r) = true) l).
  assert (se_record <$> filter (λ e, leg_matches account f e = true) (stored_list l).*2 = sel) as ->.
  { subst sel. rewrite <-(stored_list_records l) at 2. by rewrite (filter_fmap_bool se_record (λ r, row_listed account f (to_row r))). }
  assert (Forall exec_ok sel) as Hsel by by (apply Forall_forall; intros r [_ Hr]%list_elem_of_filter; by eapply Forall_forall).
  destruct (ef_limit f) as [n|].
  - rewrite <-fmap_take. rewrite rows_to_records_Ok; [done|]. by apply Forall_take.
  - by rewrite rows_to_records_Ok.
Qed.

(** The durable executions log is the in-memory one: after any records the columns hold,
    recorded in any order and as often as a replay does, an execution read by an account, an
    account's list under any filter, and the count are the same. *)
Theorem durable_executions_equal_memory rs (Hrs : Forall exec_ok rs)
    (Hlen : Z.of_nat (length rs) < 2 ^ 64 - 1) :
  let rows := foldl (λ rows r, (pg_record None r rows).1) [] rs in
  let s := foldl (λ s r, (exec_record s r).1) InMemoryExecutionsStore_new rs in
  (∀ id account, binds [id; account] = true →
     pg_get None id account rows = exec_get s id account) ∧
  (∀ account f,
     binds (account :: match ef_underlying f with Some u => [u] | None => [] end) = true →
     match ef_limit f with Some n => bigint n | None => True end →
     pg_list None account f rows = exec_list s account f) ∧
  pg_len None rows = exec_len s.
Proof.
  intros rows s. destruct (recorded_holds rs Hrs Hlen) as (l & Hl & Hh & Hrows). fold rows in Hrows.
  fold s in Hh. rewrite Hrows. clearbody rows s. split_and!.
  - intros. by apply pg_get_holds.
  - intros. by apply pg_list_holds.
  - destruct Hh as ([Hs _] & Hnd & _). unfold pg_len, len_async. rewrite fetch_Ok. cbn [map_err mbind result_bind].
    rewrite length_fmap, narrow_fits by (unfold_int; lia). cbn. unfold exec_len. rewrite Hs.
    rewrite map_size_list_to_map by by apply NoDup_stored. unfold stored_list. by rewrite length_imap.
Qed.
End executions_equal.

(** * The durable journal *)

Section journal_props.
Context `{JournalJson}.

Inductive JournalOp :=
  | JOpen (in_runtime : bool) (faults : OpenFaults) (underlying : string) (header : JournalHeader)
  | JAppend (faults : AppendFaults) (j : PgVenueJournal) (r : JournalRecord).
Definition journal_op (db : JournalTables) (o : JournalOp) : JournalTables :=
  match o with
  | JOpen in_runtime faults underlying header => (pg_open in_runtime faults underlying header db).1
  | JAppend faults j r => (append_async faults j r db).1
  end.

Definition row_key (row : JournalRow) : string * Z * string :=
  (jr_underlying row, jr_sequence row, jr_kind row).
Definition row_for (j : PgVenueJournal) (r : JournalRecord) (payload : string) : JournalRow :=
  {| jr_underlying := pj_underlying j; jr_sequence := record_sequence r;
     jr_kind := kind_to_str (record_kind r); jr_payload := payload |}.

Lemma same_key_spec a b : same_key a b = bool_decide (row_key a = row_key b).
Proof.
  unfold same_key, row_key. apply eq_true_iff_eq. rewrite bool_decide_eq_true,
    !andb_true_iff, !String.eqb_eq, Z.eqb_eq. split; [intros [[? ?] ?]; congruence|by intros [= ? ? ?]].
Qed.

Lemma find_first_existsb {A} (f : A → bool) l :
  existsb f l = match list_find_first f l with Some _ => true | None => false end.
Proof. induction l as [|x l IH]; [done|]. cbn. by destruct (f x). Qed.

Lemma find_first_Some {A} (f : A → bool) l x : list_find_first f l = Some x → x ∈ l ∧ f x = true.
Proof.
  induction l as [|y l IH]; cbn; [done|]. destruct (f y) eqn:E.
  - intros [= <-]. split; [left|done].
  - intros [Hin Hx]%IH. split; [by right|done].
Qed.

Lemma find_first_None {A} (f : A → bool) l : list_find_first f l = None → ∀ x, x ∈ l → f x = false.
Proof.
  induction l as [|y l IH]; cbn; [by intros _ x ?%not_elem_of_nil|]. destruct (f y) eqn:E; [done|].
  intros Hl x [->|Hx]%elem_of_cons; [done|by apply IH].
Qed.

(** What an append leaves and answers. *)
Lemma append_spec faults j r db :
  let '(db', res) := append_async faults j r db in
  journal_headers db' = journal_headers db ∧
  (db' = db ∨ ∃ payload, json_encode r = Some payload ∧
     journal_rows db' = journal_rows db ++ [row_for j r payload] ∧
     row_key (row_for j r payload) ∉ row_key <$> journal_rows db) ∧
  match res with
  | Ok _ => ∃ payload, json_encode r = Some payload ∧ row_for j r payload ∈ journal_rows db'
  | Err (Ambiguous _) => True
  | Err _ => db' = db
  end.
Proof.
  unfold append_async. destruct (narrow i64 _) as [seq|] eqn:En; [|by split_and!; [|left|]].
  apply narrow_Some in En as [-> _]. destruct (json_encode r) as [payload|] eqn:Ej; [|by split_and!; [|left|]].
  destruct (_ <? _); [by split_and!; [|left|]|]. fold (row_for j r payload). set (row := row_for j r payload).
  assert ((insert_row row db).1 = db ∧ (insert_row row db).2 = 0 ∨
    journal_headers (insert_row row db).1 = journal_headers db ∧ (insert_row row db).2 = 1 ∧
    journal_rows (insert_row row db).1 = journal_rows db ++ [row] ∧
    row_key row ∉ row_key <$> journal_rows db) as Hins.
  { unfold insert_row. rewrite find_first_existsb. destruct (list_find_first _ _) eqn:Ef; [by left|right].
    split_and!; [done..|]. intros (x & Hk & Hx)%list_elem_of_fmap.
    apply find_first_None with (x := x) in Ef; [|done]. rewrite same_key_spec in Ef.
    by case_bool_decide. }
  unfold execute. destruct (binds _); cbn [negb]; [|by split_and!; [|left|]].
  destruct (insert_row row db) as [db' n]. cbn [fst snd] in Hins.
  assert (journal_headers db' = journal_headers db ∧ (db' = db ∨ ∃ payload0, Some payload = Some payload0 ∧
     journal_rows db' = journal_rows db ++ [row_for j r payload0] ∧
     row_key (row_for j r payload0) ∉ row_key <$> journal_rows db)) as Hdb.
  { destruct Hins as [[-> _]|(Hh & _ & Hr & Hk)]; [by split; [|left]|]. split; [done|right]. by exists payload. }
  destruct (af_insert faults) as [[[]|]|]; cbn [fst].
  - by split_and!; [apply Hdb..|].
  - by split_and!; [|left|].
  - by split_and!; [|left|].
  - destruct (Z.eqb_spec n 1) as [->|Hn].
    + split_and!; [apply Hdb..|]. exists payload. split; [done|].
      destruct Hins as [[_ ?]|(_ & _ & -> & _)]; [done|]. apply elem_of_app. right. by apply list_elem_of_singleton.
    + destruct Hins as [[-> _]|(_ & ? & _)]; [|done]. split_and!; [done|by left|].
      destruct (fetch _ _ _) as [[stored|]|] eqn:Ef; [|done..].
      destruct (String.eqb_spec stored payload) as [->|]; [|done]. exists payload. split; [done|].
      unfold fetch in Ef. destruct (af_read_back faults); [done|]. destruct (binds _); [|done].
      injection Ef as Ef. apply fmap_Some in Ef as (x & Hx & Hp). apply find_first_Some in Hx as [Hin Hk].
      rewrite same_key_spec in Hk. apply bool_decide_eq_true in Hk.
      replace (row_for j r payload) with x; [done|]. subst row. unfold row_key in Hk. destruct x. cbn in *.
      unfold row_for. congruence.
Qed.

(** What an opening leaves and answers. *)
Lemma open_spec rt faults u h db :
  let '(db', res) := pg_open rt faults u h db in
  journal_rows db' = journal_rows db ∧ journal_headers db ⊆ journal_headers db' ∧
  match res with
  | Ok j => j = {| pj_underlying := u; pj_header := h |} ∧ journal_headers db' !! u = Some h
  | Err _ => db' = db ∨ of_commit faults = Some (SqlxIo true)
  end.
Proof.
  unfold pg_open. destruct rt; cbn [negb]; [|by split_and!; [| |left]]. unfold ensure_and_verify_header.
  destruct (of_begin faults); [by split_and!; [| |left]|].
  destruct (fetch (of_insert faults) _ _); [|by split_and!; [| |left]].
  set (headers := match journal_headers db !! u with Some _ => _ | None => _ end).
  assert (journal_headers db ⊆ headers) as Hsub.
  { subst headers. destruct (journal_headers db !! u) eqn:E; [done|by apply insert_subseteq]. }
  destruct (fetch (of_read faults) _ _) as [[stored|]|] eqn:Ef; [|by split_and!; [| |left]..].
  case_bool_decide as Hs; [|by split_and!; [| |left]]. subst stored.
  assert (headers !! u = Some h) as Hh.
  { unfold fetch in Ef. destruct (of_read faults); [done|]. destruct (binds _); [|done]. by injection Ef. }
  unfold execute. cbn [negb]. destruct (of_commit faults) as [[[]|]|]; cbn [mbind result_bind].
  - by split_and!; [| |right].
  - by split_and!; [| |left].
  - by split_and!; [| |left].
  - by split_and!.
Qed.

Lemma journal_op_grows db o :
  NoDup (row_key <$> journal_rows db) →
  NoDup (row_key <$> journal_rows (journal_op db o)) ∧
  journal_rows db `prefix_of` journal_rows (journal_op db o) ∧
  journal_headers db ⊆ journal_headers (journal_op db o).
Proof.
  intros Hnd. destruct o as [rt faults u h|faults j r]; cbn [journal_op].
  - pose proof (open_spec rt faults u h db) as Ho. destruct (pg_open _ _ _ _ _) as [db' res].
    destruct Ho as (Hr & Hh & _). cbn. by rewrite Hr.
  - pose proof (append_spec faults j r db) as Ha. destruct (append_async _ _ _ _) as [db' res]. cbn.
    destruct Ha as (-> & [->|(payload & _ & -> & Hk)] & _); [done|]. split_and!; [|by eexists|done].
    rewrite fmap_app. apply NoDup_app. split_and!; [done| |apply NoDup_singleton].
    intros k Hin ->%list_elem_of_singleton. done.
Qed.

Lemma journal_ops_grow ops db :
  NoDup (row_key <$> journal_rows db) →
  NoDup (row_key <$> journal_rows (foldl journal_op db ops)) ∧
  journal_rows db `prefix_of` journal_rows (foldl journal_op db ops) ∧
  journal_headers db ⊆ journal_headers (foldl journal_op db ops).
Proof.
  revert db. induction ops as [|o ops IH]; intros db Hnd; cbn [foldl]; [done|].
  destruct (journal_op_grows db o Hnd) as (Hnd' & Hp & Hh). destruct (IH _ Hnd') as (H1 & H2 & H3).
  split_and!; [done|by etrans|by etrans].
Qed.

(** C40. The durable journal is append-only and write-ahead. Over any openings and appends, of
    any underlyings and whatever statements fail: a stream keeps the header it was first opened
    with, and an opening under another one is refused; rows are only added, at the end, one per
    underlying, sequence and kind. An acknowledged append has its record's exact bytes in the
    journal; one refused for certain has left no trace; only one that lost its connection may
    have done either. *)
Theorem durable_journal_append_only ops1 ops2 :
  let db1 := foldl journal_op JournalTables_empty ops1 in
  let db2 := foldl journal_op db1 ops2 in
  journal_rows db1 `prefix_of` journal_rows db2 ∧
  NoDup (row_key <$> journal_rows db2) ∧
  journal_headers db1 ⊆ journal_headers db2 ∧
  (∀ faults j r,
     let '(db, res) := append_async faults j r db2 in
     match res with
     | Ok _ => ∃ payload, json_encode r = Some payload ∧ row_for j r payload ∈ journal_rows db
     | Err (Ambiguous _) =>
         db = db2 ∨ ∃ payload, json_encode r = Some payload ∧
           journal_rows db = journal_rows db2 ++ [row_for j r payload]
     | Err _ => db = db2
     end) ∧
  (∀ in_runtime faults u h,
     match pg_open in_runtime faults u h db2 with
     | (db, Ok j) => journal_headers db !! u = Some h ∧ j = {| pj_underlying := u; pj_header := h |}
     | (db, Err _) => db = db2 ∨ of_commit faults = Some (SqlxIo true)
     end ∧
     (is_Some (journal_headers db2 !! u) → journal_headers db2 !! u ≠ Some h →
        (pg_open in_runtime faults u h db2).1 = db2 ∧
        is_ok (pg_open in_runtime faults u h db2).2 = false)).
Proof.
  intros db1 db2. destruct (journal_ops_grow ops1 JournalTables_empty) as (Hnd & _); [constructor|].
  destruct (journal_ops_grow ops2 db1 Hnd) as (Hnd2 & Hp & Hh). fold db2 in Hnd2, Hp, Hh.
  clearbody db1 db2. split_and!; [done..| |].
  - intros faults j r. pose proof (append_spec faults j r db2) as Ha.
    destruct (append_async _ _ _ _) as [db [[]|[]]]; try apply Ha.
    destruct Ha as (_ & [->|(payload & Hj & Hr & _)] & _); [by left|right]. by exists payload.
  - intros rt faults u h. pose proof (open_spec rt faults u h db2) as Ho. split.
    + destruct (pg_open _ _ _ _ _) as [db [j|e]]; naive_solver.
    + intros [h' Hh'] Hne. unfold pg_open. destruct rt; cbn [negb]; [|done].
      unfold ensure_and_verify_header. rewrite Hh'. destruct (of_begin faults); [done|].
      destruct (fetch (of_insert faults) _ _); [|done].
      destruct (fetch (of_read faults) _ _) as [[stored|]|] eqn:Ef; [|done..].
      case_bool_decide as Hs; [|done]. subst stored. unfold fetch in Ef.
      destruct (of_read faults); [done|]. destruct (binds _); [|done]. congruence.
Qed.
End journal_props.

(** ** The durable journal is the in-memory one *)

(** The JSON of a record is as long as the size check takes it to be, no longer than its
    estimate, and escapes control characters. *)
Class JournalJsonLaws `{JournalJson} : Prop := {
  encode_total r : is_Some (json_encode r);
  encode_len r : json_len r = str_len <$> json_encode r;
  encode_estimate r payload n :
    json_encode r = Some payload → estimated_max_serialized_len r = Some n → str_len payload ≤ n;
  encode_binds r payload : json_encode r = Some payload → has_nul payload = false;
}.

(** A double that compares equal to no other pattern. *)
Definition plain_knob (k : option Z) : Prop :=
  match k with Some x => f64_is_nan x = false ∧ has_ty u64 x ∧ x ≠ 2 ^ 63 | None => True end.
Definition plain_command (c : VenueCommand) : Prop :=
  match c with
  | MarketMakerControl s z d _ => plain_knob s ∧ plain_knob z ∧ plain_knob d
  | _ => True
  end.
Definition plain_record (r : JournalRecord) : Prop :=
  match r with
  | RCommand c => plain_command (jc_command c)
  | REvent e => plain_command (ev_command e)
  | REpoch _ => True
  end.

Lemma f64_ord_inj x y :
  has_ty u64 x → has_ty u64 y → x ≠ 2 ^ 63 → y ≠ 2 ^ 63 → f64_ord x = f64_ord y → x = y.
Proof.
  assert (∀ z, has_ty u64 z → f64_magnitude z = z ∧ Z.testbit z 63 = false ∧ z < 2 ^ 63 ∨
    f64_magnitude z = z - 2 ^ 63 ∧ Z.testbit z 63 = true ∧ 2 ^ 63 ≤ z) as Hz.
  { intros z Hz. unfold_int. unfold f64_magnitude. change (2 ^ 63 - 1) with (Z.ones 63). rewrite Z.land_ones by lia.
    rewrite Z.testbit_odd, Z.shiftr_div_pow2 by lia. destruct (Z.lt_ge_cases z (2 ^ 63)).
    - left. rewrite Z.mod_small, Z.div_small by lia. done.
    - right. rewrite <-(Z.mod_unique z (2 ^ 63) 1 (z - 2 ^ 63)) by lia.
      rewrite <-(Z.div_unique z (2 ^ 63) 1 (z - 2 ^ 63)) by lia. done. }
  intros Hx Hy Nx Ny. unfold f64_ord.
  destruct (Hz x Hx) as [(-> & -> & ?)|(-> & -> & ?)], (Hz y Hy) as [(-> & -> & ?)|(-> & -> & ?)];
    unfold_int; lia.
Qed.

Lemma plain_knob_eq a b : plain_knob a → plain_knob b → option_f64_eqb a b = true → a = b.
Proof.
  destruct a as [x|], b as [y|]; cbn; [|done..]. intros (_ & Tx & Nx) (_ & Ty & Ny).
  unfold f64_eqb, f64_leb. rewrite !andb_true_iff, !Z.leb_le. intros [[_ H1] [_ H2]]. f_equal.
  apply f64_ord_inj; [done..|lia].
Qed.

Lemma plain_command_eq a b : plain_command a → plain_command b → command_eqb a b = true → a = b.
Proof.
  intros Ha Hb E. destruct a, b; cbn in E; try (by apply bool_decide_eq_true in E).
  destruct Ha as (H1 & H2 & H3), Hb as (H4 & H5 & H6). rewrite !andb_true_iff, bool_decide_eq_true in E.
  destruct E as (((E1 & E2) & E3) & ->). f_equal; by apply plain_knob_eq.
Qed.

Lemma plain_no_nan r : plain_record r → record_no_nan r.
Proof.
  assert (∀ k, plain_knob k → knob_no_nan k) as Hk by (intros [x|]; [by intros [? _]|done]).
  assert (∀ c, plain_command c → no_nan c) as Hc.
  { intros []; try done. cbn. intros (? & ? & ?). by split_and!; apply Hk. }
  destruct r; cbn; [apply Hc..|done].
Qed.

#[export] Instance JournalCommand_eq_dec : EqDecision JournalCommand.
Proof. solve_decision. Defined.
#[export] Instance JournalRecord_eq_dec : EqDecision JournalRecord.
Proof. solve_decision. Defined.

Lemma plain_record_eq a b : plain_record a → plain_record b → record_eqb a b = bool_decide (a = b).
Proof.
  intros Ha Hb. case_bool_decide as E; [subst; by apply record_eqb_refl, plain_no_nan|].
  apply not_true_iff_false. intros Heq. apply E. destruct a as [a|a|a], b as [b|b|b]; cbn in *; try done.
  - rewrite !andb_true_iff, !Z.eqb_eq in Heq. destruct Heq as [[E1 E2] E3%plain_command_eq]; [|done..].
    destruct a, b. cbn in *. by subst.
  - unfold event_eqb in Heq. rewrite !andb_true_iff, !Z.eqb_eq, String.eqb_eq, bool_decide_eq_true in Heq.
    destruct Heq as [[[[E1 E2] E3] E4%plain_command_eq] E5]; [|done..]. destruct a, b. cbn in *. by subst.
  - apply bool_decide_eq_true in Heq. by subst.
Qed.

Section journal_equal.
Context `{JournalJsonLaws}.

(** A record that its JSON gives back, under a sequence the column holds. *)
Record record_exact (r : JournalRecord) : Prop := {
  re_plain : plain_record r;
  re_sequence : bigint (record_sequence r);
  re_decodes payload : json_encode r = Some payload → json_decode payload = Some r;
}.

Definition stream (u : string) (db : JournalTables) : list JournalRow :=
  filter (λ row, jr_underlying row = u) (journal_rows db).

(** The row of a record in the stream. *)
Record row_of (u : string) (row : JournalRow) (r : JournalRecord) : Prop := {
  ro_underlying : jr_underlying row = u;
  ro_sequence : jr_sequence row = record_sequence r;
  ro_kind : jr_kind row = kind_to_str (record_kind r);
  ro_payload : json_encode r = Some (jr_payload row);
  ro_size : str_len (jr_payload row) ≤ MAX_JOURNAL_RECORD_BYTES;
  ro_exact : record_exact r;
}.

Record mirrors (u : string) (db : JournalTables) (m : InMemoryVenueJournal) : Prop := {
  mi_rows : Forall2 (row_of u) (stream u db) (im_records m);
  mi_wf : im_wf m;
}.

Lemma kind_to_str_inj a b : kind_to_str a = kind_to_str b → a = b.
Proof. by destruct a, b. Qed.

Lemma check_record_size_encode r payload :
  json_encode r = Some payload →
  check_record_size r =
    if MAX_JOURNAL_RECORD_BYTES <? str_len payload
    then Err (ResourceLimit "record_bytes" (str_len payload) MAX_JOURNAL_RECORD_BYTES) else Ok tt.
Proof.
  intros Hj. unfold check_record_size. rewrite encode_len, Hj. cbn [fmap option_fmap option_map].
  destruct (estimated_max_serialized_len r) as [n|] eqn:En; [|done].
  destruct (Z.leb_spec n MAX_JOURNAL_RECORD_BYTES); [|done].
  pose proof (encode_estimate r payload n Hj En).
  by destruct (Z.ltb_spec MAX_JOURNAL_RECORD_BYTES (str_len payload)); [lia|].
Qed.

(** The in-memory index finds what a scan for the key finds. *)
Definition record_under (r : JournalRecord) (l : list JournalRecord) : option JournalRecord :=
  list_find_first (λ x, bool_decide (record_key x = record_key r)) l.

Lemma im_append_scan m r :
  im_wf m →
  im_append m r =
  match check_record_size r with
  | Err e => (m, Err e)
  | Ok _ =>
      match record_under r (im_records m) with
      | Some x =>
          (m, if record_eqb x r then Ok tt else Err (Conflict (record_sequence r) (record_kind r)))
      | None =>
          ({| im_header := im_header m; im_records := im_records m ++ [r];
              im_index := <[record_key r := length (im_records m)]> (im_index m) |}, Ok tt)
      end
  end.
Proof.
  intros Hwf. unfold im_append. destruct (check_record_size r); [|done].
  change (record_sequence r, record_kind r) with (record_key r).
  destruct (record_under r (im_records m)) as [x|] eqn:Ex.
  - apply find_first_Some in Ex as [[i Hi]%list_elem_of_lookup_1 Hk%bool_decide_eq_true].
    assert (im_index m !! record_key r = Some i) as -> by (apply Hwf; by exists x).
    rewrite Hi. by destruct (record_eqb x r).
  - assert (im_index m !! record_key r = None) as ->; [|done]. apply im_index_None; [done|].
    intros (x & Hk & Hx)%list_elem_of_fmap.
    apply find_first_None with (x := x) in Ex; [|done]. by apply bool_decide_eq_false in Ex.
Qed.

(** A scan of the table for a key finds the row of the record a scan of the log finds. *)
Lemma scan_rows u row r db m :
  mirrors u db m → row_of u row r →
  match record_under r (im_records m) with
  | Some x => ∃ y, list_find_first (same_key row) (journal_rows db) = Some y ∧ row_of u y x
  | None => list_find_first (same_key row) (journal_rows db) = None
  end.
Proof.
  intros [Hrows _] Hrow. revert Hrows. unfold stream, record_under. generalize (im_records m) as l.
  induction (journal_rows db) as [|y rows IH]; intros l Hl.
  { apply Forall2_nil_inv_l in Hl as ->. done. }
  cbn [list_find_first]. rewrite same_key_spec. rewrite filter_cons in Hl. destruct (decide (jr_underlying y = u)) as [Hu|Hu].
  - apply Forall2_cons_inv_l in Hl as (x & l' & Hx & Hl & ->). cbn [list_find_first].
    assert (bool_decide (row_key row = row_key y) = bool_decide (record_key x = record_key r)) as ->.
    { destruct Hrow as [U1 S1 K1 _ _ _], Hx as [U2 S2 K2 _ _ _]. apply bool_decide_ext.
      unfold row_key, record_key. rewrite U1, U2, S1, S2, K1, K2.
      split; [intros [= -> E%kind_to_str_inj]; congruence|intros [= -> ->]; done]. }
    case_bool_decide; [by exists y|by apply IH].
  - rewrite bool_decide_false; [by apply IH|]. intros E. destruct Hrow as [U1 _ _ _ _ _].
    unfold row_key in E. congruence.
Qed.

Lemma append_same u h db m r :
  mirrors u db m → record_exact r → binds [u] = true →
  let '(db', res) := append_async no_append_faults {| pj_underlying := u; pj_header := h |} r db in
  res = (im_append m r).2 ∧ mirrors u db' (im_append m r).1.
Proof.
  intros Hm Hr Hu. unfold append_async. pose proof (re_sequence _ Hr) as Hs.
  rewrite narrow_fits by (unfold bigint in Hs; unfold_int; lia).
  destruct (encode_total r) as [payload Hj]. rewrite Hj. rewrite (im_append_scan m r) by apply Hm.
  rewrite (check_record_size_encode r payload Hj).
  destruct (Z.ltb_spec MAX_JOURNAL_RECORD_BYTES (str_len payload)) as [|Hlen]; [done|].
  cbn [pj_underlying]. set (row := {| jr_underlying := u; jr_sequence := _; jr_kind := _; jr_payload := _ |}).
  assert (row_of u row r) as Hrow by by split.
  assert (binds [u; payload] = true) as ->.
  { unfold binds in *. cbn [forallb] in *. by rewrite (encode_binds r payload Hj). }
  cbn [no_append_faults af_insert af_read_back]. rewrite execute_Ok. unfold insert_row. rewrite find_first_existsb.
  pose proof (scan_rows u row r db m Hm Hrow) as Hscan.
  destruct (record_under r (im_records m)) as [x|] eqn:Eu.
  - destruct Hscan as (y & Hy & [_ _ _ Hp _ Hx]). rewrite Hy. cbn [fst snd Z.eqb].
    rewrite Hy, Hu, fetch_Ok. cbn [fmap option_fmap option_map]. split; [|done]. rewrite plain_record_eq by (by apply Hx || by apply Hr).
    destruct (String.eqb_spec (jr_payload y) payload) as [E|E].
    + apply (re_decodes _ Hx) in Hp. apply (re_decodes _ Hr) in Hj. rewrite E, Hj in Hp.
      injection Hp as ->. by rewrite bool_decide_true.
    + rewrite bool_decide_false; [done|]. intros ->. congruence.
  - rewrite Hscan. cbn [fst snd Z.eqb Pos.eqb]. split; [done|]. split; cbn.
    + unfold stream. cbn. rewrite filter_app. apply Forall2_app; [apply Hm|].
      rewrite filter_cons_True by done. by constructor.
    + pose proof (im_append_wf m r (mi_wf _ _ _ Hm)) as Hwf. rewrite im_append_scan in Hwf by apply Hm.
      rewrite (check_record_size_encode r payload Hj) in Hwf.
      destruct (Z.ltb_spec MAX_JOURNAL_RECORD_BYTES (str_len payload)); [lia|].
      by rewrite Eu in Hwf.
Qed.

Lemma appends_same u h db0 rs :
  binds [u] = true → stream u db0 = [] → Forall record_exact rs →
  mirrors u (foldl (λ db r, (append_async no_append_faults
                               {| pj_underlying := u; pj_header := h |} r db).1) db0 rs)
    (foldl (λ m r, (im_append m r).1) (InMemoryVenueJournal_new h) rs).
Proof.
  intros Hu Hdb Hrs. assert (mirrors u db0 (InMemoryVenueJournal_new h)) as Hm.
  { split; [by rewrite Hdb|apply im_wf_new]. }
  revert Hm. generalize (InMemoryVenueJournal_new h). clear Hdb. revert db0.
  induction Hrs as [|r rs Hr _ IH]; intros db m Hm; [done|]. cbn [foldl]. apply IH.
  pose proof (append_same u h db m r Hm Hr Hu) as Ha. destruct (append_async _ _ _ _). apply Ha.
Qed.

Lemma decode_rows_same u rows l :
  Forall2 (row_of u) rows l →
  decode_payloads ((λ row, (str_len (jr_payload row),
    if str_len (jr_payload row) <=? MAX_JOURNAL_RECORD_BYTES then Some (jr_payload row) else None)) <$> rows) = Ok l.
Proof.
  induction 1 as [|row r rows l Hr _ IH]; [done|]. rewrite fmap_cons. cbn [decode_payloads].
  destruct Hr as [_ _ _ Hp Hs Hx]. rewrite (proj2 (Z.leb_le _ _)) by done. unfold decode_journal_record.
  destruct (Z.ltb_spec MAX_JOURNAL_RECORD_BYTES (str_len (jr_payload row))); [lia|].
  rewrite (re_decodes _ Hx _ Hp). cbn [ok_or mbind result_bind]. by rewrite IH.
Qed.

Lemma stream_from u from db l :
  Forall2 (row_of u) (stream u db) l →
  Forall2 (row_of u)
    (filter (λ row, jr_underlying row = u ∧ from ≤ jr_sequence row) (journal_rows db))
    (filter (λ r, from ≤ record_sequence r) l).
Proof.
  unfold stream. revert l. induction (journal_rows db) as [|row rows IH]; intros l Hl.
  { apply Forall2_nil_inv_l in Hl as ->. by constructor. }
  rewrite filter_cons in Hl |- *. destruct (decide (jr_underlying row = u)) as [Hu|Hu].
  - apply Forall2_cons_inv_l in Hl as (x & l' & Hx & Hl & ->). rewrite filter_cons.
    pose proof (ro_sequence _ _ _ Hx) as Hs. destruct (decide (from ≤ record_sequence x)).
    + rewrite decide_True by (by rewrite Hs). constructor; [done|by apply IH].
    + rewrite decide_False by (rewrite Hs; naive_solver). by apply IH.
  - rewrite decide_False by naive_solver. by apply IH.
Qed.

Definition stream_bytes (rows : list JournalRow) : Z :=
  sum_Z ((λ row, str_len (jr_payload row)) <$> rows).

Lemma stream_bytes_from u from db :
  0 ≤ stream_bytes (filter (λ row, jr_underlying row = u ∧ from ≤ jr_sequence row) (journal_rows db))
    ≤ stream_bytes (stream u db) ∧
  Z.of_nat (length (filter (λ row, jr_underlying row = u ∧ from ≤ jr_sequence row)
                      (journal_rows db))) ≤ Z.of_nat (length (stream u db)).
Proof.
  unfold stream, stream_bytes. induction (journal_rows db) as [|row rows IH]; [done|].
  assert (0 ≤ str_len (jr_payload row)) by (unfold str_len; lia).
  rewrite !filter_cons. destruct (decide (_ ∧ _)) as [[Hu Hs]|Hn].
  - rewrite decide_True by done. cbn [fmap list_fmap sum_Z foldr length]. unfold sum_Z in *. lia.
  - destruct (decide (jr_underlying row = u)); [|done].
    cbn [fmap list_fmap sum_Z foldr length]. unfold sum_Z in *. lia.
Qed.

Lemma max_same u rows l :
  Forall2 (row_of u) rows l → max_Z (jr_sequence <$> rows) = max_sequence l.
Proof.
  destruct 1 as [|row r rows l Hr Hl]; [done|]. cbn. rewrite (ro_sequence _ _ _ Hr). f_equal.
  generalize (record_sequence r). induction Hl as [|row' r' rows l Hr' _ IH]; intros z; [done|].
  cbn. by rewrite (ro_sequence _ _ _ Hr').
Qed.

Lemma read_same u h db m from :
  mirrors u db m → binds [u] = true → bigint from →
  Z.of_nat (length (stream u db)) ≤ MAX_JOURNAL_RECORDS →
  stream_bytes (stream u db) ≤ MAX_JOURNAL_STREAM_BYTES →
  read_from_async no_read_faults {| pj_underlying := u; pj_header := h |} from db = im_read_from m from.
Proof.
  intros [Hrows _] Hu Hfrom Hcount Hbytes. unfold read_from_async. unfold bigint in Hfrom.
  rewrite (narrow_fits i64 from) by (unfold_int; lia). cbn [ok_or mbind result_bind pj_underlying].
  change (narrow i32 MAX_JOURNAL_RECORD_BYTES) with (Some MAX_JOURNAL_RECORD_BYTES).
  change (narrow i64 MAX_JOURNAL_RECORDS) with (Some MAX_JOURNAL_RECORDS).
  cbn [ok_or mbind result_bind no_read_faults rf_bounds rf_rows]. rewrite Hu, !fetch_Ok.
  pose proof (stream_from u from db _ Hrows) as Hsel. pose proof (stream_bytes_from u from db) as [Hb Hl].
  unfold stream_bytes in Hb, Hbytes. set (selected := filter _ (journal_rows db)) in *.
  set (bytes := sum_Z (_ <$> selected)) in *.
  assert (MAX_JOURNAL_RECORDS = 1000000) as Hmr by done.
  assert (MAX_JOURNAL_STREAM_BYTES = 1073741824) as Hmb by done.
  cbn [map_err mbind result_bind fst snd]. rewrite !narrow_fits by (unfold_int; lia).
  cbn [ok_or mbind result_bind]. unfold enforce_stream_ceiling, enforce_stream_bytes_ceiling.
  rewrite take_ge by lia. rewrite length_fmap.
  rewrite (proj2 (Z.ltb_ge MAX_JOURNAL_RECORDS (Z.of_nat (length selected)))) by lia.
  cbn [mbind result_bind]. rewrite (proj2 (Z.ltb_ge MAX_JOURNAL_STREAM_BYTES bytes)) by lia.
  cbn [mbind result_bind].
  by apply (decode_rows_same u).
Qed.

(** The durable journal is the in-memory one: after any appends to a stream of its own,
    of records their JSON gives back, the next append is answered alike - stored, repeated,
    refused as a conflict or for its size -, a recovery within the reading ceilings reads the
    same records, and the last sequence is the same. *)
Theorem durable_journal_equals_memory u h db0 rs r (Hu : binds [u] = true)
    (Hdb : stream u db0 = []) (Hrs : Forall record_exact rs) (Hr : record_exact r) :
  let j := {| pj_underlying := u; pj_header := h |} in
  let db := foldl (λ db r, (append_async no_append_faults j r db).1) db0 rs in
  let m := foldl (λ m r, (im_append m r).1) (InMemoryVenueJournal_new h) rs in
  (append_async no_append_faults j r db).2 = (im_append m r).2 ∧
  (∀ from, bigint from → Z.of_nat (length (stream u db)) ≤ MAX_JOURNAL_RECORDS →
     stream_bytes (stream u db) ≤ MAX_JOURNAL_STREAM_BYTES →
     read_from_async no_read_faults j from db = im_read_from m from) ∧
  pg_last_sequence None j db = im_last_sequence m.
Proof.
  intros j db m. assert (mirrors u db m) as Hm by by apply appends_same. clearbody db m. split_and!.
  - pose proof (append_same u h db m r Hm Hr Hu) as Ha. subst j. destruct (append_async _ _ _ _). apply Ha.
  - intros from Hf Hc Hb. by apply read_same.
  - unfold pg_last_sequence, last_sequence_async, im_last_sequence. cbn [j pj_underlying].
    rewrite Hu, fetch_Ok. cbn [map_err mbind result_bind]. fold (stream u db).
    rewrite (max_same u _ _ (mi_rows _ _ _ Hm)). destruct (max_sequence (im_records m)) as [z|] eqn:Ez; [|done].
    rewrite narrow_fits; [done|]. destruct Hm as [Hrows _]. revert Ez.
    destruct Hrows as [|row x rows l Hx Hl]; [done|]. cbn. intros [= <-].
    assert (bigint (record_sequence x)) as Hz by apply (ro_exact _ _ _ Hx).
    revert Hz. generalize (record_sequence x). induction Hl as [|row' x' rows l Hx' _ IH]; intros z Hz; cbn.
    + unfold bigint in Hz. unfold_int. lia.
    + apply IH. assert (bigint (record_sequence x')) as Hz' by apply (ro_exact _ _ _ Hx').
      unfold bigint in *. lia.
Qed.
End journal_equal.

(** * Concrete runs *)

Definition wit_execution (id : string) (liquidity : LiquidityFlag) (quantity : Z) : ExecutionRecord :=
  {| xr_execution_id := id; xr_order_id := "v0"; xr_account := "alice"; xr_symbol := "BTC";
     xr_instrument := btc_call; xr_side := Sell; xr_liquidity := liquidity;
     xr_quantity := quantity; xr_price_cents := 100; xr_fee_cents := -2;
     xr_theo_value_cents := 101; xr_edge_cents := -1; xr_underlying_sequence := 4;
     xr_latency_us := 0; xr_executed_at := 1700000000000 |}.

Lemma wit_execution_ok id liquidity quantity :
  0 ≤ quantity < 1000 → has_nul id = false →
  exec_ok (H := SampleUpstream) (wit_execution id liquidity quantity).
Proof.
  intros Hq Hid. split; try (unfold bigint; cbn; lia); [by vm_compute|].
  unfold binds. cbn [forallb wit_execution xr_execution_id]. rewrite Hid. by vm_compute.
Qed.

(** A leg, the other leg of the same execution, and the first one again, as a replay does. *)
Lemma durable_executions_equal_memory_witness :
  let rs := [wit_execution "x1" Maker 3; wit_execution "x1" Taker 3; wit_execution "x1" Maker 3] in
  let rows := foldl (λ rows r, (pg_record None r rows).1) [] rs in
  let s := foldl (λ s r, (exec_record s r).1) InMemoryExecutionsStore_new rs in
  pg_get (H := SampleUpstream) None "x1" "alice" rows = Ok (Some (wit_execution "x1" Taker 3)) ∧
  pg_list (H := SampleUpstream) None "alice" {| ef_underlying := Some "BTC"; ef_limit := Some 1 |} rows
    = exec_list s "alice" {| ef_underlying := Some "BTC"; ef_limit := Some 1 |} ∧
  pg_len None rows = 2.
Proof.
  destruct (durable_executions_equal_memory (H := SampleUpstream)
    [wit_execution "x1" Maker 3; wit_execution "x1" Taker 3; wit_execution "x1" Maker 3])
    as (Hget & Hlist & Hlen); [|cbn; lia|].
  { repeat constructor; apply wit_execution_ok; done || lia. }
  split_and!.
  - etrans; [by apply Hget|by vm_compute].
  - apply Hlist; [done|]. unfold bigint. cbn. lia.
  - etrans; [exact Hlen|by vm_compute].
Defined.

Definition wit_clock (now : Z) : JournalRecord := command_record 1 10 (Clock now).

(** Two records have a JSON of their own. *)
Definition wit_encode (r : JournalRecord) : string :=
  if decide (r = wit_clock 10) then "10" else if decide (r = wit_clock 11) then "11" else "{}".
#[local] Instance WitSerde : Serde := {|
  json_len r := Some (str_len (wit_encode r));
  json_decode s :=
    match s with "10" => Some (wit_clock 10) | "11" => Some (wit_clock 11) | _ => None end;
|}.
#[local] Instance WitJson : JournalJson := {| json_encode r := Some (wit_encode r) |}.

Lemma estimate_base r n : estimated_max_serialized_len r = Some n → RECORD_ESTIMATE_BASE_BYTES ≤ n.
Proof.
  unfold estimated_max_serialized_len. destruct (match r with RCommand _ => _ | REvent _ => _ | REpoch _ => _ end) as [sb el].
  intros (? & _ & H)%bind_Some. apply bind_Some in H as (? & H1 & H).
  apply bind_Some in H as (? & _ & H). apply bind_Some in H as (? & H2 & H).
  apply bind_Some in H as (? & H3 & H). simp_narrow. unfold_int. lia.
Qed.

Lemma wit_encode_short r : str_len (wit_encode r) ≤ 2 ∧ has_nul (wit_encode r) = false.
Proof. unfold wit_encode. case_decide; [by vm_compute|]. by case_decide; vm_compute. Qed.

#[local] Instance WitJsonLaws : JournalJsonLaws.
Proof.
  split; [done|done| |].
  - intros r payload n [= <-] Hn%estimate_base. unfold RECORD_ESTIMATE_BASE_BYTES in Hn.
    pose proof (wit_encode_short r). lia.
  - intros r payload [= <-]. apply wit_encode_short.
Qed.

Lemma wit_clock_exact now : now = 10 ∨ now = 11 → record_exact (wit_clock now).
Proof.
  intros Hnow. split; [done|unfold bigint; cbn; lia|]. intros payload. cbn. intros [= <-].
  by destruct Hnow as [-> | ->].
Qed.

(** A second command under the sequence of the first is a conflict, and the first is read. *)
Lemma durable_journal_equals_memory_witness :
  let j := {| pj_underlying := "BTC"; pj_header := JournalHeader_new "run-1" |} in
  let db := (append_async no_append_faults j (wit_clock 10) JournalTables_empty).1 in
  (append_async no_append_faults j (wit_clock 11) db).2 = Err (Conflict 1 KCommand) ∧
  read_from_async no_read_faults j 0 db = Ok [wit_clock 10] ∧
  pg_last_sequence None j db = Some 1.
Proof.
  destruct (durable_journal_equals_memory "BTC" (JournalHeader_new "run-1") JournalTables_empty
    [wit_clock 10] (wit_clock 11)) as (Ha & Hr & Hl).
  - done.
  - done.
  - apply Forall_singleton, wit_clock_exact. by left.
  - apply wit_clock_exact. by right.
  - split_and!.
    + etrans; [exact Ha|by vm_compute].
    + etrans; [apply Hr|by vm_compute]; [unfold bigint; cbn; lia|by vm_compute|by vm_compute].
    + etrans; [exact Hl|by vm_compute].
Defined.
