(* ===== verification/PgFixStore.v ===== *)
(** The durable FIX session store ([src/src/gateway/fix/pg_store.rs]) over the tables of
    [src/migrations/20260716120600_fix_sessions.sql], and its equivalence with the in-memory
    one.

    A table is the rows a statement of the code can see: the registry of keys, which is the
    counters, under its primary key; the two logs as the list of their rows by id, which a
    [BIGSERIAL] column makes the order of insertion.  A statement is what the SQL text says of
    the rows; any of them may fail, and a commit that fails may have been applied or not. *)

From S2P Require Import PgStores.
From S2P Require Export FixStore.

(** ** Rows *)

Record OutboundRow := { ob_key : SessionKey; ob_seq : Z; ob_frame : string }.
Record ResetRow := {
  rr_row_key : SessionKey; rr_at_ms : Z; rr_trigger : string;
  rr_old_next_sender_seq : Z; rr_old_next_target_seq : Z;
  rr_new_next_sender_seq : Z; rr_new_next_target_seq : Z }.

Record PgTables := {
  fix_session_counters : gmap SessionKey SessionCounters;
  fix_session_outbound : list OutboundRow;
  fix_session_resets : list ResetRow;
}.
Definition PgTables_empty : PgTables :=
  {| fix_session_counters := ∅; fix_session_outbound := []; fix_session_resets := [] |}.

Definition with_counters (m : gmap SessionKey SessionCounters) (db : PgTables) : PgTables :=
  {| fix_session_counters := m; fix_session_outbound := fix_session_outbound db;
     fix_session_resets := fix_session_resets db |}.
Definition with_outbound (l : list OutboundRow) (db : PgTables) : PgTables :=
  {| fix_session_counters := fix_session_counters db; fix_session_outbound := l;
     fix_session_resets := fix_session_resets db |}.
Definition with_resets (l : list ResetRow) (db : PgTables) : PgTables :=
  {| fix_session_counters := fix_session_counters db;
     fix_session_outbound := fix_session_outbound db; fix_session_resets := l |}.

(** ** Conversions and ceilings *)

Definition out_of_range : SessionStoreError := StoreBackend "fix session value out of range".
Definition u64_to_i64 (value : Z) : result SessionStoreError Z :=
  ok_or out_of_range (narrow i64 value).
Definition i64_to_u64 (value : Z) : result SessionStoreError Z :=
  ok_or out_of_range (narrow u64 value).

Definition ceiling (n : Z) : Z := default (int_max i64) (narrow i64 n).
Definition keyspace_ceiling : Z := ceiling MAX_SESSION_KEYS.
Definition outbound_count_ceiling : Z := ceiling MAX_STORED_OUTBOUND_PER_KEY.
Definition outbound_bytes_ceiling : Z := ceiling MAX_STORED_OUTBOUND_BYTES_PER_KEY.
Definition reset_ring_ceiling : Z := ceiling MAX_RESET_EVENTS_PER_KEY.

Definition trigger_to_str (t : ResetTrigger) : string :=
  match t with LogonReset => "logon_reset" | SequenceResetTrigger => "sequence_reset" end.
Definition trigger_from_str (token : string) : result SessionStoreError ResetTrigger :=
  match token with
  | "logon_reset" => Ok LogonReset
  | "sequence_reset" => Ok SequenceResetTrigger
  | _ => Err (StoreBackend "unknown fix reset trigger")
  end.

(** ** Statements *)

(** The statements that fail, by the label of their error; whether a commit that fails was
    applied all the same. *)
Record Faults := { fl_fails : string → bool; fl_applied : bool }.
Definition no_faults : Faults := {| fl_fails := λ _, false; fl_applied := false |}.

Definition key_binds (k : SessionKey) : bool :=
  binds [sk_account k; sk_sender k; sk_target k].

Section store.
Context (fl : Faults).
Notation result := (result SessionStoreError).

(** A statement that binds [key], by its label; the [CHECK]s of its columns are [ok]. *)
Definition statement {A} (operation : string) (key : SessionKey) (ok : bool) (a : A) : result A :=
  if fl_fails fl operation || negb (key_binds key) || negb ok
  then Err (StoreBackend operation) else Ok a.

(** [begin], the statements, [commit]; what returns early is rolled back. *)
Definition transaction (begin_label commit_label : string) (body : PgTables → result PgTables)
    (db : PgTables) : PgTables * result unit :=
  if fl_fails fl begin_label then (db, Err (StoreBackend begin_label))
  else
    match body db with
    | Err e => (db, Err e)
    | Ok db' =>
        if fl_fails fl commit_label
        then (if fl_applied fl then db' else db, Err (StoreBackend commit_label))
        else (db', Ok tt)
    end.

(** The advisory lock makes the count and the insert one step among all connections. *)
Definition ensure_registered (key : SessionKey) (db : PgTables) : result PgTables :=
  exists_ ← statement "check fix session key registered" key true
              (bool_decide (is_Some (fix_session_counters db !! key)));
  if (exists_ : bool) then Ok db
  else if fl_fails fl "lock fix keyspace registry"
  then Err (StoreBackend "lock fix keyspace registry")
  else
    room ← statement "register fix session key" key true
             (Z.of_nat (size (fix_session_counters db)) <? keyspace_ceiling);
    if (room : bool)
    then Ok (with_counters (<[key := default_counters]> (fix_session_counters db)) db)
    else Err (KeyspaceFull MAX_SESSION_KEYS).

(** [UPDATE fix_session_counters SET ...] of one key. *)
Definition update_counters (operation : string) (key : SessionKey)
    (f : SessionCounters → SessionCounters) (db : PgTables) : result PgTables :=
  let m := alter f key (fix_session_counters db) in
  statement operation key
    (match m !! key with
     | Some c => (1 <=? next_sender_seq c) && (1 <=? next_target_seq c)
     | None => true
     end) (with_counters m db).

(** [row_number()] and [sum(octet_length(frame))] over the rows of [key] from the newest: the
    rows kept, the rows and the bytes counted so far. *)
Definition outbound_window (key : SessionKey) (row : OutboundRow)
    (s : list OutboundRow * Z * Z) : list OutboundRow * Z * Z :=
  let '(kept, rn, cum_bytes) := s in
  if bool_decide (ob_key row = key) then
    let rn := rn + 1 in
    let cum_bytes := cum_bytes + str_len (ob_frame row) in
    (if (outbound_count_ceiling <? rn) || (outbound_bytes_ceiling <? cum_bytes)
     then kept else row :: kept, rn, cum_bytes)
  else (row :: kept, rn, cum_bytes).
Definition evict_outbound_rows (key : SessionKey) (rows : list OutboundRow) : list OutboundRow :=
  (foldr (outbound_window key) ([], 0, 0) rows).1.1.

Definition reset_window (key : SessionKey) (row : ResetRow) (s : list ResetRow * Z) :
    list ResetRow * Z :=
  let '(kept, rn) := s in
  if bool_decide (rr_row_key row = key)
  then (if reset_ring_ceiling <? rn + 1 then kept else row :: kept, rn + 1)
  else (row :: kept, rn).
Definition evict_reset_rows (key : SessionKey) (rows : list ResetRow) : list ResetRow :=
  (foldr (reset_window key) ([], 0) rows).1.

Definition insert_outbound (key : SessionKey) (seq : Z) (frame : string) (db : PgTables) :
    result PgTables :=
  statement "insert fix outbound frame" key (1 <=? seq)
    (with_outbound (fix_session_outbound db ++
       [{| ob_key := key; ob_seq := seq; ob_frame := frame |}]) db).
Definition evict_outbound_of (key : SessionKey) (db : PgTables) : result PgTables :=
  statement "evict fix outbound frames" key true
    (with_outbound (evict_outbound_rows key (fix_session_outbound db)) db).

(** ** The operations *)

Definition load_counters_async (key : SessionKey) (db : PgTables) : result SessionCounters :=
  row ← statement "load fix session counters" key true (fix_session_counters db !! key);
  match row with
  | None => Ok default_counters
  | Some row =>
      sender ← i64_to_u64 (next_sender_seq row);
      target ← i64_to_u64 (next_target_seq row);
      Ok {| next_sender_seq := sender; next_target_seq := target |}
  end.

Definition save_counters_async (key : SessionKey) (counters : SessionCounters) (db : PgTables) :
    PgTables * result unit :=
  match next_sender ← u64_to_i64 (next_sender_seq counters);
        next_target ← u64_to_i64 (next_target_seq counters);
        Ok {| next_sender_seq := next_sender; next_target_seq := next_target |} with
  | Err e => (db, Err e)
  | Ok c =>
      transaction "begin fix save_counters txn" "commit fix save_counters txn"
        (λ db,
           db ← ensure_registered key db;
           update_counters "update fix session counters" key (λ _, c) db) db
  end.

Definition store_outbound_async (key : SessionKey) (seq : Z) (frame : string) (db : PgTables) :
    PgTables * result unit :=
  match u64_to_i64 seq with
  | Err e => (db, Err e)
  | Ok seq =>
      transaction "begin fix store_outbound txn" "commit fix store_outbound txn"
        (λ db,
           db ← ensure_registered key db;
           db ← insert_outbound key seq frame db;
           evict_outbound_of key db) db
  end.

Definition store_outbound_and_advance_async (key : SessionKey) (seq : Z) (frame : string)
    (next_sender_seq : Z) (db : PgTables) : PgTables * result unit :=
  match seq ← u64_to_i64 seq; next_sender ← u64_to_i64 next_sender_seq; Ok (seq, next_sender) with
  | Err e => (db, Err e)
  | Ok (seq, next_sender) =>
      transaction "begin fix store_outbound_and_advance txn"
        "commit fix store_outbound_and_advance txn"
        (λ db,
           db ← ensure_registered key db;
           db ← insert_outbound key seq frame db;
           db ← evict_outbound_of key db;
           update_counters "advance fix outbound counter" key (set_next_sender next_sender) db) db
  end.

(** A bound past the signed range is clamped to it. *)
Definition clamp_i64 (n : Z) : Z := default (int_max i64) (narrow i64 n).

Fixpoint decode_rows {A B} (f : A → result B) (rows : list A) : result (list B) :=
  match rows with
  | [] => Ok []
  | row :: rows => x ← f row; l ← decode_rows f rows; Ok (x :: l)
  end.

Definition decode_outbound (row : OutboundRow) : result StoredOutbound :=
  seq ← i64_to_u64 (ob_seq row); Ok {| so_seq := seq; so_frame := ob_frame row |}.

Definition outbound_range_async (key : SessionKey) (begin end_ : Z) (db : PgTables) :
    result (list StoredOutbound) :=
  let begin := clamp_i64 begin in
  let end_ := clamp_i64 end_ in
  rows ← statement "read fix outbound range" key true
           (sort_by_key Z.leb ob_seq
              (filter (λ row, ob_key row = key ∧ begin ≤ ob_seq row ∧
                              (end_ = 0 ∨ ob_seq row ≤ end_)) (fix_session_outbound db)));
  decode_rows decode_outbound rows.

Definition record_reset_async (key : SessionKey) (event : SequenceResetEvent)
    (counters : SessionCounters) (db : PgTables) : PgTables * result unit :=
  match at_ms ← u64_to_i64 (re_at_ms event);
        old_sender ← u64_to_i64 (re_old_next_sender_seq event);
        old_target ← u64_to_i64 (re_old_next_target_seq event);
        new_sender ← u64_to_i64 (re_new_next_sender_seq event);
        new_target ← u64_to_i64 (re_new_next_target_seq event);
        counter_sender ← u64_to_i64 (next_sender_seq counters);
        counter_target ← u64_to_i64 (next_target_seq counters);
        Ok ({| rr_row_key := key; rr_at_ms := at_ms;
               rr_trigger := trigger_to_str (re_trigger event);
               rr_old_next_sender_seq := old_sender; rr_old_next_target_seq := old_target;
               rr_new_next_sender_seq := new_sender; rr_new_next_target_seq := new_target |},
            {| next_sender_seq := counter_sender; next_target_seq := counter_target |}) with
  | Err e => (db, Err e)
  | Ok (row, c) =>
      transaction "begin fix record_reset txn" "commit fix record_reset txn"
        (λ db,
           db ← ensure_registered key db;
           db ← statement "insert fix reset event" key
                  ((0 <=? rr_at_ms row) && (0 <=? rr_old_next_sender_seq row) &&
                   (0 <=? rr_new_next_sender_seq row) && (0 <=? rr_old_next_target_seq row) &&
                   (0 <=? rr_new_next_target_seq row))
                  (with_resets (fix_session_resets db ++ [row]) db);
           db ← statement "evict fix reset events" key true
                  (with_resets (evict_reset_rows key (fix_session_resets db)) db);
           update_counters "persist fix reset counters" key (λ _, c) db) db
  end.

Definition decode_reset (row : ResetRow) : result SequenceResetEvent :=
  at_ms ← i64_to_u64 (rr_at_ms row);
  trigger ← trigger_from_str (rr_trigger row);
  old_sender ← i64_to_u64 (rr_old_next_sender_seq row);
  old_target ← i64_to_u64 (rr_old_next_target_seq row);
  new_sender ← i64_to_u64 (rr_new_next_sender_seq row);
  new_target ← i64_to_u64 (rr_new_next_target_seq row);
  Ok {| re_at_ms := at_ms; re_trigger := trigger; re_old_next_sender_seq := old_sender;
        re_old_next_target_seq := old_target; re_new_next_sender_seq := new_sender;
        re_new_next_target_seq := new_target |}.

Definition reset_events_async (key : SessionKey) (db : PgTables) :
    result (list SequenceResetEvent) :=
  rows ← statement "read fix reset events" key true
           (filter (λ row, rr_row_key row = key) (fix_session_resets db));
  decode_rows decode_reset rows.

(** A mutator of [FixStore.store_op] on the tables. *)
Definition pg_op (o : SessionKey * store_op) (db : PgTables) : PgTables * result unit :=
  match o.2 with
  | OpSave c => save_counters_async o.1 c db
  | OpStore n f => store_outbound_async o.1 n f db
  | OpStoreAdvance n f next => store_outbound_and_advance_async o.1 n f next db
  | OpReset e c => record_reset_async o.1 e c db
  end.
End store.

(** [select_fix_session_store]: the durable backend when there is a database, which needs the
    runtime its calls block on. *)
Inductive SelectedStore := DurableStore (db : PgTables) | MemoryBackend (slots : gmap SessionKey Slot).
Definition PgFixSessionStore_new (in_runtime : bool) (db : PgTables) : result DbError PgTables :=
  if in_runtime then Ok db else Err DbUnavailable.
Definition select_fix_session_store (in_runtime : bool) (db : option PgTables) :
    result DbError SelectedStore :=
  match db with
  | Some pool => store ← PgFixSessionStore_new in_runtime pool; Ok (DurableStore store)
  | None => Ok (MemoryBackend ∅)
  end.

(** The backend of a database that answers; a failure ([StoreBackend]) is not part of it. *)
Definition committed_tables (r : PgTables * result SessionStoreError unit) :
    result SessionStoreError PgTables :=
  match r with (db, Ok _) => Ok db | (_, Err e) => Err e end.
#[export] Instance PgFixSessionStore : FixSessionStore PgTables := {|
  load_counters db key := load_counters_async no_faults key db;
  save_counters db key c := committed_tables (save_counters_async no_faults key c db);
  store_outbound db key seq frame :=
    committed_tables (store_outbound_async no_faults key seq frame db);
  store_outbound_and_advance db key seq frame next :=
    committed_tables (store_outbound_and_advance_async no_faults key seq frame next db);
  outbound_range db key begin end_ := outbound_range_async no_faults key begin end_ db;
  record_reset db key event c := committed_tables (record_reset_async no_faults key event c db);
  reset_events db key := reset_events_async no_faults key db;
|}.

(** * Equivalence with the in-memory store *)

(** What a key has in the two logs. *)
Definition stored_of (row : OutboundRow) : StoredOutbound :=
  {| so_seq := ob_seq row; so_frame := ob_frame row |}.
Definition key_log (k : SessionKey) (rows : list OutboundRow) : list StoredOutbound :=
  stored_of <$> filter (λ row, ob_key row = k) rows.
Definition key_resets (k : SessionKey) (rows : list ResetRow) : list ResetRow :=
  filter (λ row, rr_row_key row = k) rows.
Definition reset_row (k : SessionKey) (e : SequenceResetEvent) : ResetRow :=
  {| rr_row_key := k; rr_at_ms := re_at_ms e; rr_trigger := trigger_to_str (re_trigger e);
     rr_old_next_sender_seq := re_old_next_sender_seq e;
     rr_old_next_target_seq := re_old_next_target_seq e;
     rr_new_next_sender_seq := re_new_next_sender_seq e;
     rr_new_next_target_seq := re_new_next_target_seq e |}.

Lemma key_log_cons k row rows :
  key_log k (row :: rows) =
  if bool_decide (ob_key row = k) then stored_of row :: key_log k rows else key_log k rows.
Proof. unfold key_log. rewrite filter_cons. by case_decide; case_bool_decide. Qed.

Lemma key_resets_cons k row rows :
  key_resets k (row :: rows) =
  if bool_decide (rr_row_key row = k) then row :: key_resets k rows else key_resets k rows.
Proof. unfold key_resets. rewrite filter_cons. by case_decide; case_bool_decide. Qed.

(** ** The window of a statement keeps what the eviction loop keeps *)

Definition over (l : list StoredOutbound) : bool :=
  (MAX_STORED_OUTBOUND_PER_KEY <? Z.of_nat (length l)) ||
  (MAX_STORED_OUTBOUND_BYTES_PER_KEY <? log_bytes l).
Definition newest (l : list StoredOutbound) : list StoredOutbound :=
  (evict_outbound l (log_bytes l)).1.

Lemma log_bytes_cons e l : log_bytes (e :: l) = str_len (so_frame e) + log_bytes l.
Proof. done. Qed.

Lemma newest_cons e l :
  log_bytes (e :: l) ≤ int_max usize →
  newest (e :: l) = if over (e :: l) then newest l else e :: l.
Proof.
  intros Hb. unfold newest, over. cbn [evict_outbound]. destruct (_ || _); [|done].
  rewrite log_bytes_cons in *. pose proof (log_bytes_nonneg l).
  assert (0 ≤ str_len (so_frame e)) by (unfold str_len; lia).
  unfold saturating_sub. cbn [int_min usize u64]. by replace (Z.max 0 _) with (log_bytes l) by lia.
Qed.

Lemma over_cons e l : over l = true → over (e :: l) = true.
Proof.
  unfold over. rewrite !orb_true_iff, !Z.ltb_lt, log_bytes_cons. cbn [length].
  assert (0 ≤ str_len (so_frame e)) by (unfold str_len; lia). lia.
Qed.

Lemma newest_all l : over l = false → newest l = l.
Proof. destruct l as [|e l]; [done|]. unfold newest, over. cbn [evict_outbound]. by intros ->. Qed.

Lemma outbound_window_spec k rows :
  log_bytes (key_log k rows) ≤ int_max usize →
  let '(kept, rn, cum) := foldr (outbound_window k) ([], 0, 0) rows in
  key_log k kept = newest (key_log k rows) ∧ rn = Z.of_nat (length (key_log k rows)) ∧
  cum = log_bytes (key_log k rows) ∧ ∀ k', k' ≠ k → key_log k' kept = key_log k' rows.
Proof.
  induction rows as [|row rows IH]; intros Hb; [done|]. rewrite key_log_cons in Hb |- *. cbn [foldr].
  destruct (foldr (outbound_window k) ([], 0, 0) rows) as [[kept rn] cum] eqn:E.
  unfold outbound_window at 1. case_bool_decide as Hk.
  - rewrite log_bytes_cons in Hb. assert (0 ≤ str_len (so_frame (stored_of row))) by (unfold str_len; lia).
    destruct IH as (Hkept & -> & -> & Ho); [lia|]. cbn [length]. rewrite log_bytes_cons.
    change (str_len (so_frame (stored_of row))) with (str_len (ob_frame row)) in *.
    rewrite newest_cons by by rewrite log_bytes_cons.
    replace (over (stored_of row :: key_log k rows)) with
      ((outbound_count_ceiling <? Z.of_nat (length (key_log k rows)) + 1) ||
       (outbound_bytes_ceiling <? log_bytes (key_log k rows) + str_len (ob_frame row))).
    2:{ unfold over. cbn [length]. rewrite log_bytes_cons. cbn [stored_of so_frame].
        change outbound_count_ceiling with MAX_STORED_OUTBOUND_PER_KEY.
        change outbound_bytes_ceiling with MAX_STORED_OUTBOUND_BYTES_PER_KEY.
        f_equal; f_equal; lia. }
    split_and!; [|lia|lia|].
    + destruct (_ || _) eqn:Eo; [done|]. rewrite key_log_cons, bool_decide_true by done.
      f_equal. rewrite Hkept. apply newest_all. apply not_true_iff_false. intros Hov.
      apply (over_cons (stored_of row)) in Hov. unfold over in Hov. cbn [length] in Hov.
      rewrite log_bytes_cons in Hov.
      change outbound_count_ceiling with MAX_STORED_OUTBOUND_PER_KEY in Eo.
      change outbound_bytes_ceiling with MAX_STORED_OUTBOUND_BYTES_PER_KEY in Eo.
      cbn [stored_of so_frame] in Hov. apply orb_false_iff in Eo as [E1%Z.ltb_ge E2%Z.ltb_ge].
      apply orb_true_iff in Hov as [Hov%Z.ltb_lt|Hov%Z.ltb_lt]; lia.
    + intros k' Hk'. rewrite key_log_cons, bool_decide_false by congruence.
      destruct (_ || _); [by apply Ho|]. rewrite key_log_cons, bool_decide_false by congruence. by apply Ho.
  - destruct (IH Hb) as (Hkept & -> & -> & Ho). split_and!; [|done|done|].
    + by rewrite key_log_cons, bool_decide_false.
    + intros k' Hk'. rewrite !key_log_cons. by rewrite Ho.
Qed.

Lemma reset_window_spec k rows :
  let '(kept, rn) := foldr (reset_window k) ([], 0) rows in
  rn = Z.of_nat (length (key_resets k rows)) ∧
  (∀ l, reset_row k <$> l = key_resets k rows → reset_row k <$> evict_resets l = key_resets k kept) ∧
  Z.of_nat (length (key_resets k kept)) ≤ MAX_RESET_EVENTS_PER_KEY ∧
  (rn ≤ MAX_RESET_EVENTS_PER_KEY → kept = rows) ∧
  ∀ k', k' ≠ k → key_resets k' kept = key_resets k' rows.
Proof.
  induction rows as [|row rows IH]; [split_and!; [done|by intros [|]|done..]|].
  cbn [foldr]. destruct (foldr (reset_window k) ([], 0) rows) as [kept rn].
  destruct IH as (-> & Hl & Hb & Hall & Ho). unfold reset_window at 1. rewrite key_resets_cons.
  case_bool_decide as Hk.
  - change reset_ring_ceiling with MAX_RESET_EVENTS_PER_KEY. cbn [length].
    split_and!; [lia| | | |].
    + intros [|e l]; [done|]. cbn [fmap list_fmap evict_resets]. intros [= He Hr].
      assert (length l = length (key_resets k rows)) as Hlen by by rewrite <-Hr, length_fmap.
      cbn [length]. destruct (Z.ltb_spec MAX_RESET_EVENTS_PER_KEY (Z.of_nat (S (length l)))) as [Hc|Hc].
      * destruct (Z.ltb_spec MAX_RESET_EVENTS_PER_KEY (Z.of_nat (length (key_resets k rows)) + 1)); [|lia].
        by apply Hl.
      * destruct (Z.ltb_spec MAX_RESET_EVENTS_PER_KEY (Z.of_nat (length (key_resets k rows)) + 1)); [lia|].
        rewrite key_resets_cons, bool_decide_true by done. rewrite Hall by lia. cbn. by rewrite He, Hr.
    + destruct (Z.ltb_spec MAX_RESET_EVENTS_PER_KEY (Z.of_nat (length (key_resets k rows)) + 1)); [done|].
      rewrite key_resets_cons, bool_decide_true by done. rewrite Hall by lia. cbn [length]. lia.
    + intros Hn. destruct (Z.ltb_spec MAX_RESET_EVENTS_PER_KEY (Z.of_nat (length (key_resets k rows)) + 1)); [lia|].
      by rewrite Hall by lia.
    + intros k' Hk'. rewrite (key_resets_cons k'), bool_decide_false by congruence.
      destruct (_ <? _); [by apply Ho|]. rewrite key_resets_cons, bool_decide_false by congruence. by apply Ho.
  - split_and!; [done|by intros l Hr; rewrite key_resets_cons, bool_decide_false by done; apply Hl| | |].
    + by rewrite key_resets_cons, bool_decide_false.
    + intros Hn. by rewrite Hall.
    + intros k' Hk'. rewrite !key_resets_cons. by rewrite Ho.
Qed.

(** ** The simulation *)

(** What a [BIGINT] column with its [CHECK] holds of an unsigned value. *)
Definition positive (n : Z) : Prop := 1 ≤ n ≤ int_max i64.
Definition counters_ok (c : SessionCounters) : Prop :=
  positive (next_sender_seq c) ∧ positive (next_target_seq c).
Record event_ok (e : SequenceResetEvent) : Prop := {
  ev_at : bigint (re_at_ms e);
  ev_old_sender : bigint (re_old_next_sender_seq e);
  ev_old_target : bigint (re_old_next_target_seq e);
  ev_new_sender : bigint (re_new_next_sender_seq e);
  ev_new_target : bigint (re_new_next_target_seq e);
}.
Record slot_ok (s : Slot) : Prop := {
  so_counters : counters_ok (sl_counters s);
  so_log : Forall (λ e, positive (so_seq e)) (sl_outbound s);
  so_resets : Forall event_ok (sl_resets s);
}.

Record agree (db : PgTables) (mem : gmap SessionKey Slot) : Prop := {
  ag_bounded : store_bounded mem;
  ag_counters : fix_session_counters db = sl_counters <$> mem;
  ag_log k : key_log k (fix_session_outbound db) = sl_outbound (slot_of mem k);
  ag_resets k : key_resets k (fix_session_resets db) = reset_row k <$> sl_resets (slot_of mem k);
  ag_ok k : slot_ok (slot_of mem k);
}.

Lemma agree_empty : agree PgTables_empty ∅.
Proof.
  split; [split; [apply map_Forall_empty|by vm_compute]|by rewrite fmap_empty|done|done|].
  intros k. split; [by vm_compute|constructor|constructor].
Qed.

Lemma seq_to_i64_Ok n : bigint n → u64_to_i64 n = Ok n.
Proof. intros Hn. unfold u64_to_i64. rewrite narrow_fits; [done|]. unfold bigint, has_ty in *. cbn in *. lia. Qed.

Lemma seq_from_i64_Ok n : bigint n → i64_to_u64 n = Ok n.
Proof. intros Hn. unfold i64_to_u64. rewrite narrow_fits; [done|]. unfold bigint, has_ty in *. cbn in *. lia. Qed.

Lemma positive_bigint n : positive n → bigint n.
Proof. unfold positive, bigint. lia. Qed.

Lemma statement_Ok {A} op k (a : A) : key_binds k = true → statement no_faults op k true a = Ok a.
Proof. intros Hk. unfold statement. by rewrite Hk. Qed.

Lemma transaction_no_faults b c body db :
  transaction no_faults b c body db =
  match body db with Err e => (db, Err e) | Ok db' => (db', Ok tt) end.
Proof. done. Qed.

Lemma with_counters_id db : with_counters (fix_session_counters db) db = db.
Proof. by destruct db. Qed.

Lemma ensure_registered_spec db mem k :
  agree db mem → key_binds k = true →
  ensure_registered no_faults k db =
  if bool_decide (mem !! k = None) && (MAX_SESSION_KEYS <=? Z.of_nat (size mem))
  then Err (KeyspaceFull MAX_SESSION_KEYS)
  else Ok (with_counters (<[k := sl_counters (slot_of mem k)]> (fix_session_counters db)) db).
Proof.
  intros Ha Hk. unfold ensure_registered. rewrite !(statement_Ok _ _ _ Hk). cbn [mbind result_bind].
  change (fl_fails no_faults _) with false. change keyspace_ceiling with MAX_SESSION_KEYS.
  rewrite (ag_counters _ _ Ha), lookup_fmap, map_size_fmap. unfold slot_of.
  destruct (mem !! k) as [slot|] eqn:E; cbn [fmap option_fmap option_map default].
  - rewrite bool_decide_true by eauto. rewrite bool_decide_false by done. cbn [andb].
    rewrite insert_id by by rewrite lookup_fmap, E. by rewrite <-(ag_counters _ _ Ha), with_counters_id.
  - rewrite bool_decide_false by by intros []. rewrite bool_decide_true by done. cbn [andb].
    rewrite Z.ltb_antisym. by destruct (_ <=? _).
Qed.

Lemma update_counters_Ok op k f db c :
  key_binds k = true → fix_session_counters db !! k = Some c → counters_ok (f c) →
  update_counters no_faults op k f db =
    Ok (with_counters (<[k := f c]> (fix_session_counters db)) db).
Proof.
  intros Hk Hc [H1 H2]. unfold update_counters.
  assert (alter f k (fix_session_counters db) = <[k := f c]> (fix_session_counters db)) as ->.
  { apply map_eq. intros k'. destruct (decide (k' = k)) as [->|Hne].
    - by rewrite lookup_alter_eq, lookup_insert_eq, Hc.
    - by rewrite lookup_alter_ne, lookup_insert_ne. }
  rewrite lookup_insert_eq. unfold statement. rewrite Hk. unfold positive in *.
  destruct (Z.leb_spec 1 (next_sender_seq (f c))); [|lia].
  by destruct (Z.leb_spec 1 (next_target_seq (f c))); [|lia].
Qed.

(** Both stores change the slot of one key alike. *)
Lemma agree_update db mem k slot db' :
  agree db mem →
  (mem !! k = None → Z.of_nat (size mem) < MAX_SESSION_KEYS) →
  slot_bounded slot → slot_ok slot →
  fix_session_counters db' = <[k := sl_counters slot]> (fix_session_counters db) →
  key_log k (fix_session_outbound db') = sl_outbound slot →
  (∀ k', k' ≠ k → key_log k' (fix_session_outbound db') = key_log k' (fix_session_outbound db)) →
  key_resets k (fix_session_resets db') = reset_row k <$> sl_resets slot →
  (∀ k', k' ≠ k → key_resets k' (fix_session_resets db') = key_resets k' (fix_session_resets db)) →
  agree db' (<[k := slot]> mem).
Proof.
  intros Ha Hroom Hb Hok Hc Hl Hl' Hr Hr'.
  assert (∀ k', slot_of (<[k := slot]> mem) k' = if decide (k' = k) then slot else slot_of mem k') as Hs.
  { intros k'. unfold slot_of. case_decide as Hk; [subst; by rewrite lookup_insert_eq|].
    by rewrite lookup_insert_ne. }
  split.
  - pose proof (ag_bounded _ _ Ha) as [Hf Hn]. split; [by apply map_Forall_insert_2|].
    destruct (mem !! k) eqn:E; [by rewrite map_size_insert_Some|].
    rewrite map_size_insert_None by done. specialize (Hroom eq_refl). lia.
  - by rewrite Hc, fmap_insert, (ag_counters _ _ Ha).
  - intros k'. rewrite Hs. case_decide as Hk; [by subst|]. rewrite Hl' by done. apply Ha.
  - intros k'. rewrite Hs. case_decide as Hk; [by subst|]. rewrite Hr' by done. apply Ha.
  - intros k'. rewrite Hs. case_decide; [done|apply Ha].
Qed.

(** The operations within the range of the columns. *)
Definition op_ok (o : SessionKey * store_op) : Prop :=
  key_binds o.1 = true ∧
  match o.2 with
  | OpSave c => counters_ok c
  | OpStore n f => positive n ∧ str_len f < 2 ^ 63
  | OpStoreAdvance n f next => positive n ∧ positive next ∧ str_len f < 2 ^ 63
  | OpReset e c => event_ok e ∧ counters_ok c
  end.

Definition mem_op (o : SessionKey * store_op) (mem : gmap SessionKey Slot) :
    result SessionStoreError (gmap SessionKey Slot) :=
  match o.2 with
  | OpSave c => save_counters mem o.1 c
  | OpStore n f => store_outbound mem o.1 n f
  | OpStoreAdvance n f next => store_outbound_and_advance mem o.1 n f next
  | OpReset e c => record_reset mem o.1 e c
  end.

(** One operation: the same answer, and the stores agree after it. *)
Definition same_step (k : SessionKey) (f : Slot → Slot) (mem : gmap SessionKey Slot)
    (r : PgTables * result SessionStoreError unit) (db : PgTables) : Prop :=
  match with_slot_mut mem k f, r with
  | Ok mem', (db', Ok _) => agree db' mem'
  | Err e, (db', Err e') => e' = e ∧ db' = db
  | _, _ => False
  end.

(** A transaction that registers the key and then does [body] to it. *)
Lemma transaction_steps db mem k f b c body :
  agree db mem → key_binds k = true →
  slot_bounded (f (slot_of mem k)) → slot_ok (f (slot_of mem k)) →
  (∀ db1, fix_session_counters db1 = <[k := sl_counters (slot_of mem k)]> (fix_session_counters db) →
     fix_session_outbound db1 = fix_session_outbound db →
     fix_session_resets db1 = fix_session_resets db →
     ∃ db', body db1 = Ok db' ∧
       fix_session_counters db' =
         <[k := sl_counters (f (slot_of mem k))]> (fix_session_counters db) ∧
       key_log k (fix_session_outbound db') = sl_outbound (f (slot_of mem k)) ∧
       (∀ k', k' ≠ k → key_log k' (fix_session_outbound db') = key_log k' (fix_session_outbound db)) ∧
       key_resets k (fix_session_resets db') = reset_row k <$> sl_resets (f (slot_of mem k)) ∧
       (∀ k', k' ≠ k →
          key_resets k' (fix_session_resets db') = key_resets k' (fix_session_resets db))) →
  same_step k f mem
    (transaction no_faults b c (λ db, db ← ensure_registered no_faults k db; body db) db) db.
Proof.
  intros Ha Hk Hb Hok Hbody. rewrite transaction_no_faults, (ensure_registered_spec db mem k Ha Hk).
  unfold same_step, with_slot_mut.
  destruct (bool_decide (mem !! k = None) && (MAX_SESSION_KEYS <=? Z.of_nat (size mem))) eqn:E;
    cbn [mbind result_bind]; [done|].
  destruct (Hbody (with_counters (<[k := sl_counters (slot_of mem k)]> (fix_session_counters db)) db))
    as (db' & -> & Hc & Hl & Hl' & Hr & Hr'); [done..|].
  apply (agree_update db); try done. intros Hn.
  rewrite bool_decide_true in E by done. cbn in E. by apply Z.leb_gt in E.
Qed.

Lemma push_outbound_newest n f s :
  slot_bounded s → str_len f < 2 ^ 63 →
  sl_outbound (push_outbound n f s) = newest (sl_outbound s ++ [{| so_seq := n; so_frame := f |}]).
Proof.
  intros Hs Hf. destruct (push_outbound_sum n f s Hs Hf) as [_ E]. unfold push_outbound, newest.
  rewrite E. by destruct (evict_outbound _ _).
Qed.

Lemma push_outbound_ok n f s : slot_ok s → positive n → slot_ok (push_outbound n f s).
Proof.
  intros [Hc Hl Hr] Hn. destruct (push_outbound_spec n f s) as (l & Hsuf & El & Ec & Er).
  split; [by rewrite Ec| |by rewrite Er]. rewrite El. destruct Hsuf as [pre Hpre].
  assert (Forall (λ e, positive (so_seq e)) (pre ++ l)) as Hall.
  { rewrite <-Hpre. apply Forall_app. split; [done|by apply Forall_singleton]. }
  by apply Forall_app in Hall as [_ ?].
Qed.

Lemma insert_and_evict k n f mem db db1 :
  agree db mem → key_binds k = true → positive n → str_len f < 2 ^ 63 →
  fix_session_outbound db1 = fix_session_outbound db →
  ∃ rows, (db1 ← insert_outbound no_faults k n f db1; evict_outbound_of no_faults k db1) =
    Ok (with_outbound rows db1) ∧
    key_log k rows = sl_outbound (push_outbound n f (slot_of mem k)) ∧
    ∀ k', k' ≠ k → key_log k' rows = key_log k' (fix_session_outbound db).
Proof.
  intros Ha Hk Hn Hf E1. unfold insert_outbound. unfold positive in Hn.
  destruct (Z.leb_spec 1 n); [|lia]. rewrite (statement_Ok _ _ _ Hk). cbn [mbind result_bind].
  unfold evict_outbound_of. rewrite (statement_Ok _ _ _ Hk).
  eexists. split; [reflexivity|]. cbn. rewrite E1. set (row := {| ob_key := k; ob_seq := n; ob_frame := f |}).
  assert (key_log k (fix_session_outbound db ++ [row]) =
    sl_outbound (slot_of mem k) ++ [{| so_seq := n; so_frame := f |}]) as EL.
  { rewrite <-(ag_log _ _ Ha k). unfold key_log. rewrite filter_app, fmap_app. f_equal.
    by rewrite filter_cons_True. }
  pose proof (slot_of_bounded mem k (ag_bounded _ _ Ha)) as Hb.
  destruct (push_outbound_sum n f (slot_of mem k) Hb Hf) as [Hle _].
  pose proof (outbound_window_spec k (fix_session_outbound db ++ [row])) as Hw.
  rewrite EL in Hw. specialize (Hw Hle). unfold evict_outbound_rows.
  destruct (foldr (outbound_window k) ([], 0, 0) (fix_session_outbound db ++ [row])) as [[kept rn] cum].
  destruct Hw as (Hkept & _ & _ & Ho). cbn [fst]. split.
  - by rewrite Hkept, push_outbound_newest.
  - intros k' Hk'. rewrite Ho by done. unfold key_log. rewrite filter_app, fmap_app.
    rewrite (filter_cons_False _ row) by (cbn; congruence). cbn. by rewrite app_nil_r.
Qed.

Lemma save_same db mem k c :
  agree db mem → key_binds k = true → counters_ok c →
  same_step k (slot_set_counters c) mem (save_counters_async no_faults k c db) db.
Proof.
  intros Ha Hk Hc. unfold save_counters_async. pose proof Hc as [H1%positive_bigint H2%positive_bigint].
  rewrite !seq_to_i64_Ok by done. cbn [mbind result_bind]. destruct c as [c1 c2].
  cbn [next_sender_seq next_target_seq] in *.
  pose proof (slot_of_bounded mem k (ag_bounded _ _ Ha)) as Hb. pose proof (ag_ok _ _ Ha k) as [_ Hl Hr].
  apply transaction_steps; [done|done|by apply set_counters_bounded|by split|].
  intros db1 Ec Eo Er. rewrite (update_counters_Ok _ _ _ _ (sl_counters (slot_of mem k)));
    [|done|by rewrite Ec, lookup_insert_eq|done].
  eexists. split; [reflexivity|]. cbn. rewrite Ec, Eo, Er, insert_insert_eq.
  split_and!; [done|apply Ha|done|apply Ha|done].
Qed.

Lemma store_same db mem k n f :
  agree db mem → key_binds k = true → positive n → str_len f < 2 ^ 63 →
  same_step k (push_outbound n f) mem (store_outbound_async no_faults k n f db) db.
Proof.
  intros Ha Hk Hn Hf. unfold store_outbound_async. rewrite seq_to_i64_Ok by by apply positive_bigint.
  pose proof (slot_of_bounded mem k (ag_bounded _ _ Ha)) as Hb.
  destruct (push_outbound_spec n f (slot_of mem k)) as (l & _ & El & Ecs & Ers).
  apply transaction_steps; [done|done|by apply push_outbound_bounded|by apply push_outbound_ok, Hn; apply Ha|].
  intros db1 Ec Eo Er. destruct (insert_and_evict k n f mem db db1) as (rows & -> & Hrow & Ho); [done..|].
  eexists. split; [reflexivity|]. cbn. rewrite Ec, Er, Ecs, Ers.
  split_and!; [done|done|done|apply Ha|done].
Qed.

Lemma advance_same db mem k n f next :
  agree db mem → key_binds k = true → positive n → positive next → str_len f < 2 ^ 63 →
  same_step k (λ s, let s := push_outbound n f s in
                    slot_set_counters (set_next_sender next (sl_counters s)) s) mem
    (store_outbound_and_advance_async no_faults k n f next db) db.
Proof.
  intros Ha Hk Hn Hnext Hf. unfold store_outbound_and_advance_async.
  rewrite !seq_to_i64_Ok by by apply positive_bigint. cbn [mbind result_bind].
  pose proof (slot_of_bounded mem k (ag_bounded _ _ Ha)) as Hb.
  destruct (push_outbound_spec n f (slot_of mem k)) as (l & _ & El & Ecs & Ers).
  assert (counters_ok (set_next_sender next (sl_counters (slot_of mem k)))) as Hcok.
  { pose proof (ag_ok _ _ Ha k) as [[_ ?] _ _]. by split. }
  apply transaction_steps; [done|done|by apply set_counters_bounded, push_outbound_bounded| |].
  { pose proof (push_outbound_ok n f _ (ag_ok _ _ Ha k) Hn) as [_ H1 H2]. split; [|done|done].
    cbn. by rewrite Ecs. }
  intros db1 Ec Eo Er. destruct (insert_and_evict k n f mem db db1) as (rows & Hins & Hrow & Ho); [done..|].
  apply bind_Ok in Hins as (db2 & -> & Hev). cbn [mbind result_bind]. rewrite Hev. cbn [mbind result_bind].
  rewrite (update_counters_Ok _ _ _ _ (sl_counters (slot_of mem k)));
    [|done|by cbn; rewrite Ec, lookup_insert_eq|done].
  eexists. split; [reflexivity|]. cbn. rewrite Ec, Er, Ecs, Ers, insert_insert_eq.
  split_and!; [done|done|done|apply Ha|done].
Qed.

Lemma reset_same db mem k e c :
  agree db mem → key_binds k = true → event_ok e → counters_ok c →
  same_step k (slot_record_reset e c) mem (record_reset_async no_faults k e c db) db.
Proof.
  intros Ha Hk He Hc. unfold record_reset_async. pose proof He as [E1 E2 E3 E4 E5].
  pose proof Hc as [H1%positive_bigint H2%positive_bigint].
  rewrite !seq_to_i64_Ok by done. cbn [mbind result_bind].
  pose proof (slot_of_bounded mem k (ag_bounded _ _ Ha)) as Hb. pose proof (ag_ok _ _ Ha k) as [_ Hl Hr].
  apply transaction_steps; [done|done| | |].
  { destruct Hb. split; [done..|]. apply evict_resets_bound. }
  { split; [by destruct c|done|]. cbn. destruct (evict_resets_suffix (sl_resets (slot_of mem k) ++ [e])) as [pre Hpre].
    assert (Forall event_ok (pre ++ evict_resets (sl_resets (slot_of mem k) ++ [e]))) as Hall.
    { rewrite <-Hpre. apply Forall_app. split; [done|by apply Forall_singleton]. }
    by apply Forall_app in Hall as [_ ?]. }
  intros db1 Ec Eo Er. cbn -[statement update_counters].
  rewrite !(proj2 (Z.leb_le _ _)) by (unfold bigint in *; lia). cbn [andb].
  rewrite (statement_Ok _ _ _ Hk). cbn [mbind result_bind].
  rewrite (statement_Ok _ _ _ Hk). cbn [mbind result_bind].
  rewrite (update_counters_Ok _ _ _ _ (sl_counters (slot_of mem k)));
    [|done|by cbn; rewrite Ec, lookup_insert_eq|by destruct c].
  eexists. split; [reflexivity|]. cbn. rewrite Ec, Eo, Er, insert_insert_eq.
  change {| rr_row_key := k; rr_at_ms := re_at_ms e; rr_trigger := _ |} with (reset_row k e).
  pose proof (reset_window_spec k (fix_session_resets db ++ [reset_row k e])) as Hw. unfold evict_reset_rows.
  destruct (foldr (reset_window k) ([], 0) _) as [kept rn]. cbn [fst].
  destruct Hw as (_ & Hev & _ & _ & Ho).
  split_and!; [by destruct c|apply Ha|done| |].
  - symmetry. apply Hev. unfold key_resets. rewrite filter_app, fmap_app.
    rewrite (filter_cons_True _ (reset_row k e)) by done. f_equal. symmetry. apply Ha.
  - intros k' Hk'. etrans; [by apply Ho|]. unfold key_resets. rewrite filter_app.
    rewrite (filter_cons_False _ (reset_row k e)) by (cbn; congruence). cbn. by rewrite app_nil_r.
Qed.

Lemma pg_op_same o db mem :
  op_ok o → agree db mem →
  match mem_op o mem, pg_op no_faults o db with
  | Ok mem', (db', Ok _) => agree db' mem'
  | Err e, (db', Err e') => e' = e ∧ db' = db
  | _, _ => False
  end.
Proof.
  intros [Hk Ho] Ha. destruct o as [k [c|n f|n f next|e c]]; cbn [fst snd] in *.
  - by apply save_same.
  - destruct Ho as [??]. by apply store_same.
  - destruct Ho as (?&?&?). by apply advance_same.
  - destruct Ho as [??]. by apply reset_same.
Qed.

Lemma pg_ops_agree ops :
  Forall op_ok ops →
  agree (foldl (λ db o, (pg_op no_faults o db).1) PgTables_empty ops) (foldl apply_op ∅ ops).
Proof.
  intros Hops. pose proof agree_empty as Ha. revert Ha.
  generalize PgTables_empty, (∅ : gmap SessionKey Slot).
  induction Hops as [|o ops Ho _ IH]; intros db mem Ha; [done|]. cbn [foldl]. apply IH.
  pose proof (pg_op_same o db mem Ho Ha) as Hs. unfold apply_op. fold (mem_op o mem).
  destruct (mem_op o mem), (pg_op no_faults o db) as [db' []]; try done. by destruct Hs as [_ ->].
Qed.

Lemma decode_rows_Ok {A B} (f : A → result SessionStoreError B) (g : A → B) rows :
  Forall (λ row, f row = Ok (g row)) rows → decode_rows f rows = Ok (g <$> rows).
Proof. induction 1 as [|row rows Hf _ IH]; [done|]. cbn. rewrite Hf. cbn. by rewrite IH. Qed.

Lemma sort_by_key_fmap {A B K} (leb : K → K → bool) (g : A → B) (key : B → K) l :
  sort_by_key leb key (g <$> l) = g <$> sort_by_key leb (key ∘ g) l.
Proof.
  unfold sort_by_key. induction l as [|x l IH]; [done|]. cbn [fmap list_fmap foldr]. rewrite IH.
  generalize (foldr (insert_by_key leb (key ∘ g)) [] l) as l'. clear.
  induction l' as [|y l' IH]; [done|]. cbn. unfold compose at 1. destruct (leb (key (g x)) (key (g y))); [done|].
  cbn. by rewrite IH.
Qed.

Lemma decode_reset_row k e : event_ok e → decode_reset (reset_row k e) = Ok e.
Proof.
  intros [H1 H2 H3 H4 H5]. unfold decode_reset. cbn [reset_row rr_at_ms rr_trigger rr_old_next_sender_seq
    rr_old_next_target_seq rr_new_next_sender_seq rr_new_next_target_seq].
  rewrite !seq_from_i64_Ok by done. by destruct e as [? []].
Qed.

Lemma range_same db mem k begin end_ :
  agree db mem → key_binds k = true → bigint begin → 0 ≤ end_ →
  outbound_range_async no_faults k begin end_ db = outbound_range mem k begin end_.
Proof.
  intros Ha Hk Hb He. unfold outbound_range_async. rewrite (statement_Ok _ _ _ Hk).
  cbn [mbind result_bind].
  assert (outbound_range mem k begin end_ =
    Ok (sort_by_key Z.leb so_seq (filter (λ e, in_range begin end_ e = true)
          (key_log k (fix_session_outbound db))))) as ->.
  { rewrite (ag_log _ _ Ha). cbn [outbound_range InMemoryFixSessionStore]. f_equal.
    unfold mem_outbound_range, slot_of. by destruct (mem !! k). }
  pose proof (so_log _ (ag_ok _ _ Ha k)) as Hpos. rewrite <-(ag_log _ _ Ha k) in Hpos.
  unfold key_log in *. rewrite Forall_fmap in Hpos.
  assert (clamp_i64 begin = begin) as ->.
  { unfold clamp_i64. rewrite narrow_fits; [done|]. unfold bigint, has_ty in *. cbn in *. lia. }
  rewrite (decode_rows_Ok _ stored_of).
  2:{ rewrite Forall_forall in Hpos |- *. intros row Hrow. rewrite elem_of_sort_by_key in Hrow.
      apply list_elem_of_filter in Hrow as [(Hkey & _) Hin]. unfold decode_outbound.
      rewrite seq_from_i64_Ok; [done|]. apply positive_bigint.
      apply (Hpos row). by apply list_elem_of_filter. }
  f_equal. change ob_seq with (so_seq ∘ stored_of). rewrite <-sort_by_key_fmap. f_equal.
  clear -Hpos He. induction (fix_session_outbound db) as [|row rows IH]; [done|].
  rewrite !(filter_cons _ row) in *. destruct (decide (_ ∧ _)) as [Hd|Hd];
    destruct (decide (ob_key row = k)) as [Hk|Hk]; [|by destruct Hd| |].
  - apply Forall_cons in Hpos as [Hp Hpos]. cbn [fmap list_fmap]. rewrite filter_cons_True; [f_equal; by apply IH|].
    destruct Hd as (_ & Hlo & Hhi). unfold in_range. cbn. apply andb_true_iff. rewrite Z.leb_le, orb_true_iff.
    split; [done|]. rewrite Z.eqb_eq, Z.leb_le. unfold clamp_i64 in Hhi.
    destruct (narrow i64 end_) as [e|] eqn:En; cbn in Hhi; [apply narrow_Some in En as [-> _]; done|].
    right. apply narrow_None in En. unfold has_ty, positive in *. cbn in *. lia.
  - apply Forall_cons in Hpos as [Hp Hpos]. cbn [fmap list_fmap]. rewrite filter_cons_False; [by apply IH|].
    intros Hin. apply Hd. unfold in_range in Hin. cbn in Hin. apply andb_true_iff in Hin as [Hlo%Z.leb_le Hhi].
    split_and!; [done|done|]. apply orb_true_iff in Hhi as [Hz%Z.eqb_eq|Hhi%Z.leb_le].
    + left. by subst.
    + right. unfold clamp_i64. destruct (narrow i64 end_) as [e|] eqn:En; cbn; [by apply narrow_Some in En as [-> _]|].
      unfold positive in Hp. cbn in Hp. lia.
  - by apply IH.
Qed.

Lemma agree_reads db mem k :
  agree db mem → key_binds k = true →
  load_counters_async no_faults k db = load_counters mem k ∧
  reset_events_async no_faults k db = reset_events mem k ∧
  ∀ begin end_, bigint begin → 0 ≤ end_ →
    outbound_range_async no_faults k begin end_ db = outbound_range mem k begin end_.
Proof.
  intros Ha Hk. split_and!.
  - unfold load_counters_async. rewrite (statement_Ok _ _ _ Hk). cbn [mbind result_bind].
    rewrite (ag_counters _ _ Ha), lookup_fmap. cbn [load_counters InMemoryFixSessionStore].
    pose proof (so_counters _ (ag_ok _ _ Ha k)) as [H1%positive_bigint H2%positive_bigint].
    unfold slot_of in *. destruct (mem !! k) as [slot|]; [|done]. cbn [fmap option_fmap option_map default] in *.
    rewrite !seq_from_i64_Ok by done. cbn. by destruct (sl_counters slot).
  - unfold reset_events_async. rewrite (statement_Ok _ _ _ Hk). cbn [mbind result_bind].
    change (filter _ _) with (key_resets k (fix_session_resets db)). rewrite (ag_resets _ _ Ha).
    cbn [reset_events InMemoryFixSessionStore]. pose proof (so_resets _ (ag_ok _ _ Ha k)) as Hr.
    induction Hr as [|e l He Hr IH]; [done|]. cbn [fmap list_fmap decode_rows].
    rewrite decode_reset_row by done. cbn [mbind result_bind]. by rewrite IH.
  - intros begin end_ Hb He. by apply range_same.
Qed.

(** The durable session store is the in-memory one: over any operations whose values the
    columns hold and a database that answers, each operation succeeds or is refused for a full
    key space exactly when the in-memory store's does, and after them the counters, the reset
    trail and every resend range from within the columns' range read the same. *)
Theorem durable_store_equals_memory ops k o
    (Hops : Forall op_ok ops) (Ho : op_ok o) (Hk : key_binds k = true) :
  let db := foldl (λ db o, (pg_op no_faults o db).1) PgTables_empty ops in
  let mem := foldl apply_op ∅ ops in
  (pg_op no_faults o db).2 = match mem_op o mem with Ok _ => Ok tt | Err e => Err e end ∧
  load_counters_async no_faults k db = load_counters mem k ∧
  reset_events_async no_faults k db = reset_events mem k ∧
  ∀ begin end_, bigint begin → 0 ≤ end_ →
    outbound_range_async no_faults k begin end_ db = outbound_range mem k begin end_.
Proof.
  intros db mem. assert (agree db mem) as Ha by by apply pg_ops_agree. clearbody db mem.
  split; [|by apply agree_reads]. pose proof (pg_op_same o db mem Ho Ha) as Hs.
  destruct (mem_op o mem), (pg_op no_faults o db) as [db' [[]|]]; try done. by destruct Hs as [-> _].
Qed.

(** ** Faults *)

(** What succeeds with faults succeeds without them, the same way. *)
Definition clean {A} (m m' : result SessionStoreError A) : Prop := ∀ x, m = Ok x → m' = Ok x.

Lemma clean_bind {A B} (m m' : result SessionStoreError A) (f f' : A → result SessionStoreError B) :
  clean m m' → (∀ x, clean (f x) (f' x)) → clean (m ≫= f) (m' ≫= f').
Proof. intros Hm Hf y (x & Hx%Hm & Hy%Hf)%bind_Ok. rewrite Hx. exact Hy. Qed.

Lemma statement_clean fl {A} op k ok (a : A) :
  clean (statement fl op k ok a) (statement no_faults op k ok a).
Proof.
  intros x. unfold statement. cbn [no_faults fl_fails orb].
  by destruct (fl_fails fl op), (key_binds k), ok.
Qed.

Lemma ensure_registered_clean fl k db :
  clean (ensure_registered fl k db) (ensure_registered no_faults k db).
Proof.
  apply clean_bind; [apply statement_clean|]. intros []; [by intros ?|]. cbn [no_faults fl_fails].
  destruct (fl_fails fl _); [by intros ?|].
  apply clean_bind; [apply statement_clean|]. by intros [] ?.
Qed.

Lemma transaction_clean fl b c body body' db :
  clean (body db) (body' db) →
  let '(db', r) := transaction fl b c body db in
  match r with
  | Ok _ => transaction no_faults b c body' db = (db', Ok tt)
  | Err _ => db' = db ∨ fl_applied fl = true ∧ transaction no_faults b c body' db = (db', Ok tt)
  end.
Proof.
  intros Hbody. rewrite transaction_no_faults. unfold transaction. destruct (fl_fails fl b); [by left|].
  destruct (body db) as [db'|e] eqn:E; [|by left]. rewrite (Hbody db' eq_refl).
  destruct (fl_fails fl c); [|done]. destruct (fl_applied fl); eauto.
Qed.

Ltac clean_steps := cbv beta;
  first [apply ensure_registered_clean|apply statement_clean
        |apply clean_bind; [|intros ?]; clean_steps].

(** A durable operation is all or nothing: whichever of its statements fail, it has left
    the tables as they were, or it has done all that the same operation does when none fails;
    the second with an error only when the commit itself was lost on its way back. *)
Lemma pg_op_atomic fl o db :
  let '(db', r) := pg_op fl o db in
  match r with
  | Ok _ => pg_op no_faults o db = (db', Ok tt)
  | Err _ => db' = db ∨ fl_applied fl = true ∧ pg_op no_faults o db = (db', Ok tt)
  end.
Proof.
  destruct o as [k [c|n f|n f next|e c]]; cbn [pg_op fst snd].
  - unfold save_counters_async. destruct (_ ≫= _) as [c'|]; [|by left].
    apply transaction_clean; clean_steps.
  - unfold store_outbound_async. destruct (u64_to_i64 n); [|by left].
    apply transaction_clean; clean_steps.
  - unfold store_outbound_and_advance_async. destruct (_ ≫= _) as [[seq sender]|]; [|by left].
    apply transaction_clean; clean_steps.
  - unfold record_reset_async. destruct (_ ≫= _) as [[row c']|]; [|by left].
    apply transaction_clean; clean_steps.
Qed.

(** Operations on a database that fails as it likes; the ones that were acknowledged. *)
Fixpoint run_faulty (hist : list (Faults * (SessionKey * store_op))) (db : PgTables) :
    PgTables * list (SessionKey * store_op) :=
  match hist with
  | [] => (db, [])
  | (fl, o) :: hist =>
      let '(db', r) := pg_op fl o db in
      let '(db'', acked) := run_faulty hist db' in
      (db'', if is_ok r then o :: acked else acked)
  end.

Lemma run_faulty_agree hist db mem :
  Forall op_ok hist.*2 → agree db mem →
  ∃ applied, sublist (run_faulty hist db).2 applied ∧ sublist applied hist.*2 ∧
    agree (run_faulty hist db).1 (foldl apply_op mem applied).
Proof.
  revert db mem. induction hist as [|[fl o] hist IH]; intros db mem Hok Ha; [by exists []|].
  cbn [fmap list_fmap snd] in Hok. apply Forall_cons in Hok as [Ho Hok]. cbn [run_faulty].
  pose proof (pg_op_atomic fl o db) as Hat. pose proof (pg_op_same o db mem Ho Ha) as Hs.
  destruct (pg_op fl o db) as [db' r].
  assert (pg_op no_faults o db = (db', Ok tt) → agree db' (apply_op mem o)) as Hdone.
  { intros E. rewrite E in Hs. unfold apply_op. fold (mem_op o mem). by destruct (mem_op o mem). }
  destruct r as [[]|e]; [|destruct Hat as [->|[_ Hat]]].
  - destruct (IH db' _ Hok (Hdone Hat)) as (applied & H1 & H2 & H3). exists (o :: applied).
    destruct (run_faulty hist db'). split_and!; [by constructor..|done].
  - destruct (IH db mem Hok Ha) as (applied & H1 & H2 & H3). exists applied.
    destruct (run_faulty hist db). split_and!; [done|by constructor|done].
  - destruct (IH db' _ Hok (Hdone Hat)) as (applied & H1 & H2 & H3). exists (o :: applied).
    destruct (run_faulty hist db'). split_and!; [by constructor|by constructor|done].
Qed.


(** * Concrete runs *)

Definition wit_key : SessionKey :=
  {| sk_account := "alice"; sk_sender := "ALICE"; sk_target := "FAUX" |}.
Definition wit_advance (n : Z) : SessionKey * store_op := (wit_key, OpStoreAdvance n "8=FIX.4.4" (n + 1)).
Definition wit_reset : SessionKey * store_op :=
  (wit_key, OpReset {| re_at_ms := 1700000000000; re_trigger := LogonReset;
                       re_old_next_sender_seq := 3; re_old_next_target_seq := 1;
                       re_new_next_sender_seq := 1; re_new_next_target_seq := 1 |}
              {| next_sender_seq := 1; next_target_seq := 1 |}).
Definition wit_fault (label : string) (applied : bool) : Faults :=
  {| fl_fails := λ l, bool_decide (l = label); fl_applied := applied |}.

Ltac range := unfold counters_ok, positive, bigint; cbn; lia.
Lemma wit_advance_ok n : 1 ≤ n < 1000 → op_ok (wit_advance n).
Proof. intros Hn. split; [done|]. cbn. split_and!; [range..|by vm_compute]. Qed.
Lemma wit_reset_ok : op_ok wit_reset.
Proof. split; [done|]. split; [split; range|split; range]. Qed.

Lemma durable_store_equals_memory_witness :
  let db := foldl (λ db o, (pg_op no_faults o db).1) PgTables_empty [wit_advance 1; wit_advance 2] in
  let mem := foldl apply_op ∅ [wit_advance 1; wit_advance 2] in
  (pg_op no_faults wit_reset db).2 = Ok tt ∧
  outbound_range_async no_faults wit_key 1 0 db = outbound_range mem wit_key 1 0 ∧
  outbound_range mem wit_key 1 0 =
    Ok [{| so_seq := 1; so_frame := "8=FIX.4.4" |}; {| so_seq := 2; so_frame := "8=FIX.4.4" |}].
Proof.
  destruct (durable_store_equals_memory [wit_advance 1; wit_advance 2] wit_key wit_reset)
    as (Hr & _ & _ & Hrange);
    [repeat constructor; apply wit_advance_ok; cbn; lia|apply wit_reset_ok|done|].
  split; [exact Hr|]. split; [apply Hrange; range|by vm_compute].
Defined.

(** The first message is stored; of the second the eviction fails, of the third the commit is
    lost after it was applied, and the reset is lost before. *)
Definition wit_history : list (Faults * (SessionKey * store_op)) :=
  [(no_faults, wit_advance 1);
   (wit_fault "evict fix outbound frames" false, wit_advance 2);
   (wit_fault "commit fix store_outbound_and_advance txn" true, wit_advance 2);
   (wit_fault "commit fix record_reset txn" false, wit_reset)].


(** A resend range from beyond the columns is clamped onto the last number they hold, and
    finds the message stored under it; in memory the range is empty. *)
Definition last_number : SessionKey * store_op := (wit_key, OpStore (2 ^ 63 - 1) "8=FIX.4.4").
Example clamped_begin_matches :
  outbound_range_async no_faults wit_key (2 ^ 63) 0 (pg_op no_faults last_number PgTables_empty).1 =
    Ok [{| so_seq := 2 ^ 63 - 1; so_frame := "8=FIX.4.4" |}] ∧
  outbound_range (apply_op ∅ last_number) wit_key (2 ^ 63) 0 = Ok [].
Proof. by split; vm_compute. Qed.
